(* ===== verification/_CoqProject ===== *)
-Q . S2P
Prelude.v
Text.v
BTree.v
Backend.v
Envelope.v
Toy.v
Primitives.v
Merkle.v
MerkleTheory.v
Aead.v
Sig.v
Kem.v
Fs.v
ObjectStore.v
Store.v
AuditLog.v
Attest.v
Tsm.v
Vcek.v
Replay.v
KeyBroker.v
Search.v
Forge.v
ForgeTheory.v
ForgeToy.v
Git.v
Identity.v
DirectoryStore.v
Auth.v
Reviews.v
Api.v
Http.v
Authz.v
Ssh.v
Pow.v
Abuse.v
RateLimit.v
Config.v
Json.v
KeyStart.v
ForgeExec.v
Tls.v
Scim.v
Xml.v
XmlTheory.v
Saml.v
SamlTheory.v
SamlToy.v
Sso.v
Github.v
GithubTheory.v
SsoTheory.v
SsoToy.v
Events.v
EventsTheory.v
Metrics.v
Server.v
Rest.v
Importer.v
Net.v
Leak.v
Provenance.v
Acceptance.v
VerifyTool.v
AcceptanceToy.v
Xtask.v
XtaskTheory.v
XtaskToy.v
Web.v
Routes.v
Startup.v
Boot.v
ServerTheory.v
RestTheory.v
ServerToy.v
WebTheory.v
RoutesTheory.v
RoutesToy.v
