(* ===== verification/Prelude.v ===== *)
(** * A verification of secgit's confidential core

    secgit is a git forge meant to run inside a confidential VM.  Its promises
    rest on a few components: what is at rest is ciphertext bound to its place;
    keys reach a server only after attestation; what happened is in a
    tamper-evident log; and who may do what follows from a directory that is
    itself stored encrypted.  Around them is the server: it gets its key, opens the
    stores, parses requests, decides who asks, and runs git, the API, the pages and
    the administration on one state.  Beside it are the tools with which an operator
    builds it and a user checks it.  This library models the components, the server and
    the tools from the Rust sources under [src/] and proves the properties that make
    them correct.

    ** Style

    Rust code is embedded shallowly.  Pure functions are Rocq functions.  Fallible
    code returns [result E A]; fallible code that changes state is [eff S E A],
    which threads the state and, on an error, keeps the changes made before it, as
    an early return through [?] does; [x ← c; k] is the [?] operator.  Structs are
    records, enums inductive types, a [HashMap] a [gmap], byte slices [list byte].
    Unsigned integers are [N]; where the code saturates, wraps or shifts at its
    width the model does so explicitly ([sat_add64], [wrap_add64], [shl64]);
    unchecked [+] wraps, as in the release profile.  A [String] is its bytes.
    Clock readings are arguments, in the order the code takes them.

    What is not under [src/] is a class of [Backend.v] (digests, HMAC, the system
    generator, AEAD, Ed25519, ML-DSA, X25519, ML-KEM, hex, serde_json) or of the
    file that needs it ([Vcek.X509], [Auth.Pbkdf2], [Auth.RsaPkcs1], [Forge.WorkOps],
    [Server.GitSpawn], [Json.JsonText], [Importer.HttpsGet], [Tls.TlsLib], [Net.WebTls],
    [Net.CaptureTls], [Tsm.ReportFs], [Provenance.SerdePretty], [Xtask.BuildTools],
    [Xtask.JsonPretty] and the like): operations
    with the laws their documentation gives (lengths, opening what was sealed,
    parsing what was printed).  No hardness assumption is a law; security
    statements ask for [coll_free] on the finitely many inputs a run hashes.
    [Toy.v] has executable instances of all of them, so every theorem with
    hypotheses has a witness that runs it on concrete data.

    The file system is [Fs.v]: a map from paths to contents and a schedule that
    says which of the coming operations fails, which write is torn after some
    bytes and at which existence check the metadata cannot be read; an exhausted
    schedule means no more failures.  [Path::exists] has no error to return: when the
    metadata cannot be read ([Unseen]) it answers that nothing is there, and a store
    that believes it loses objects ([Store.unseen_loses_objects]).  Theorems about what
    a store keeps therefore say of a schedule that it has no [Unseen].  Crashes are
    prefixes of a run, restarts read the files again.

    The server's state is [Server.App]; a handler is a computation on it that ends in a
    response, and [Routes.serve_stream] is one connection, from its bytes to its answer.
    Requests are steps one after the other: each handler takes the locks it needs, and
    their interleaving is not modelled.  Clocks are functions of the number of readings;
    nothing says that the wall clock never runs backwards, so the theorems on the server
    speak of the readings a request makes.

    ** Files

    - [Prelude]: results, effects, integers, bytes, strings, lists, tactics.
    - [Text]: UTF-8 validity, [lines], [trim], splitting, ASCII case, numbers, on
      bytes; [BTree]: [BTreeSet] and stable sorting.
    - [Backend], [Toy]: the outside world and its executable instances.
    - [Envelope] ([secgit-crypto]: [envelope.rs], [ids.rs], [error.rs], [lib.rs]),
      [Primitives] ([primitives.rs]), [Aead] ([aead.rs]), [Sig] ([sig.rs],
      [mldsa.rs]), [Kem] ([kem.rs]).
    - [Merkle], [MerkleTheory] ([secgit-audit/merkle.rs]) and [AuditLog]
      ([secgit-audit/lib.rs]).
    - [Fs], [ObjectStore] (the interface of the store to its clients), [Store]
      ([secgit-store]).
    - [Attest] ([secgit-attest]: [lib.rs], [mock.rs], [snp.rs], [tdx.rs]), [Tsm] (the
      attester of the hardware: [snp.rs], [lib.rs]), [Vcek] ([vcek.rs]).
    - [Replay], [KeyBroker] ([secgit-keybroker]: [replay.rs], [lib.rs],
      [trustee.rs]).
    - [Identity], [DirectoryStore], [Auth] ([secgit-identity]).
    - [Reviews] ([secgit-review]), [Api] ([secgit-api]).
    - [Search] ([secgit-search]); [Forge] ([secgit-forge]), with [ForgeTheory] (the
      laws of git and the proofs), [ForgeToy] (an executable git) and [ForgeExec] (its git
      commands and their time cap); [Git] ([secgit-git]).
    - [Http], [Authz], [Ssh], [Pow], [Abuse], [RateLimit], [Config] ([secgit-server]:
      [http.rs], [authz.rs], [ssh.rs], [pow.rs], [abuse.rs], [ratelimit.rs], [config.rs]).
    - [Xml], [XmlTheory] ([secgit-sso]: [xml.rs]), [Saml], [SamlTheory], [SamlToy]
      ([saml.rs]), [Json] (the values of serde_json), [Scim] ([scim.rs]), and [Sso],
      [SsoTheory], [SsoToy] ([secgit-server]: [sso.rs]).
    - [Github], [GithubTheory] ([secgit-import]), [Importer] ([importer.rs]).
    - [Events], [EventsTheory] ([events.rs]), [Metrics] ([metrics.rs]).
    - [KeyStart] ([kbs.rs] and the key release of [main.rs]), [Server] (the state, the git
      routes and repository creation: [main.rs], [api.rs]), [Rest] ([api.rs]), [Web]
      ([web.rs]), [Routes] (the dispatcher and the other routes of [main.rs]), [Startup]
      (the parts of the start), [Boot] (the start as a whole), [Tls] ([tls.rs]).  [ServerTheory], [RestTheory], [WebTheory] and
      [RoutesTheory] have the theory, [ServerToy] and [RoutesToy] runs on a small server.
    - [Net] ([secgit-net], and [tlsclient.rs] of [secgit-verify]), [Leak]
      ([secgit-leaktest]).
    - [Provenance], [Acceptance], [VerifyTool], [AcceptanceToy] ([secgit-verify]:
      [probe.rs] and the provenance of [main.rs], [acceptance.rs], the rest of [main.rs],
      and runs), [Xtask], [XtaskTheory], [XtaskToy] ([xtask]).

    ** What is shown

    - Crypto: the envelope codec is a bijection (C5); AEAD opening accepts exactly
      what sealing produces ([Aead.Aead.open_iff_sealed]); hybrid signatures are
      accepted exactly when both halves verify ([Sig.Sig.verify_exact]); signing keys
      survive persistence ([Sig.Sig.bundle_roundtrip]); what is sealed to a public key
      opens with its key pair ([Kem.Kem.seal_to_open]).
    - Transparency: inclusion proofs of every tree size verify, and whatever verifies
      is true unless SHA-256 collides (C1); so are consistency proofs (C4,
      [MerkleTheory.consistency_complete]); a log reopens to
      what was appended (C16); equal roots mean equal histories (C17); checkpoints
      verify and determine what they sign ([AuditLog.checkpoint_binds]); the log's own
      proofs verify across appends ([AuditLog.log_proofs_verify]).
    - Store: the encrypted store refines a map from repo and key to bytes whatever
      fails, as long as existence checks tell the truth (C13); a ciphertext moved
      elsewhere is refused or is itself a forgery of the cipher (C14);
      deleting a repo wipes it ([Store.delete_repo_wipes]).
    - Attestation and keys: what accepted evidence means ([Attest.snp_verify_inv]), a
      resolved VCEK chains to the vendor root and is not revoked
      ([Vcek.resolve_vcek_genuine]), revocation fails closed
      ([Vcek.resolve_vcek_fails_closed]); evidence answers its challenge, on a kernel that
      may fail anywhere ([Tsm.evidence_of_challenge]); the replay guard's exact guarantee
      (C26); the release gate, exactly ([KeyBroker.release_iff]), and the guest flow (C30);
      and all of them together at the start of a server on real hardware (C38).
    - Identity: the effective role is the greatest grant
      ([Identity.effective_role_greatest]); the two git transports
      allow exactly the credentialed and granted (C33); the stored directory
      reopens (C34) and each operation on it is atomic across a crash (C35);
      sessions ([Auth.session_lifecycle]), OIDC tokens ([Auth.verify_at_sound]).
    - The server: no request to the dispatcher changes accounts, rights or sessions
      without a credential, a SAML response to accept or a secret of the operator (C2); a
      git request is admitted to a caller with a grant, or refused and without effect but
      for expired entries and the limiters (C3), and so is a request to the API (C18),
      against roles stated apart from the code; webhooks are sent only to
      registered HTTPS addresses that subscribe, and signed (C9); pages show code
      faithfully and inject nothing (C37); the connection cap holds
      ([RoutesTheory.connections_bounded]); imports collect what is upstream
      ([GithubTheory.import_plan_complete]) and register one repository of the caller
      ([RoutesTheory.import_registers]); a server that starts has no sessions, a linked log,
      the one account of its environment and exact quotas, and serves plaintext only when
      told to ([Boot.run_starts]); timestamps follow the calendar (C10); no setting
      locks everybody out ([Config.first_request_admitted]).
    - Single sign-on: the XML parser ends on every text with a well-formed tree
      (C11; the stack its recursion needs is not modelled) and reads back the canonical form of what it parsed (C12); what
      acceptance of a SAML response means (C19); a signature whose SignedInfo is the
      one that was digested fixes the canonical content (C32), and one that nests
      another does not ([SamlTheory.one_signature_forges_all]); sign-in gives a
      session of the account named, for its lifetime and no longer, and touches no other
      (C25); deprovisioning ends
      the sessions of its user at once (C15).
    - Repositories: what is sealed is restored, through any sequence of base, delta
      and compacting seals, but for the position of a detached [HEAD] (C21); a failed seal does not lose the previous one
      (C23); the search index answers what a scan would (C27); a git service call
      ends at its deadline, or when its pipes are closed if that is later (C20; an open
      pipe keeps it waiting, [Git.open_pipe_blocks]), and so does a command of the
      forge ([ForgeExec.exec_returns], [ForgeExec.exec_ok]).
    - Requests: the parser ends and reads a bounded prefix of the stream (C31), and
      parses back what was printed ([Http.parse_request_printed]); this workspace's client
      and server understand each other on requests that hold only what a header may (C28); the semaphore bounds its holders and
      loses no wake-up (C36).  The walk over a certificate finds exactly the key of the DER
      grammar ([Tls.extract_spki_exact]).
    - Tools: what a live acceptance that passes means (C22); the adversarial scenarios of
      the harness are refused (C24); a provenance statement names what its
      inputs record, and the verifier accepts it exactly when the local artifacts agree (C29); transcripts verify
      ([Acceptance.transcript_verifies]); a self-test that passes has checked what it says
      ([VerifyTool.selftest_checks]); the lockfile is read back
      ([XtaskTheory.lock_roundtrip]); the scan for canaries misses nothing
      ([Leak.dir_contains_exact]).
    - Workflow and abuse control: the merge gate implements its documented policy
      where stale reviews other than approvals were followed by one of the current head (C39),
      and not beyond ([Reviews.push_dismisses_change_requests]);
      account quotas (C40), ephemeral repos (C8), creation limits (C6) and the
      proof-of-work gate (C7).

    ** Fuel and bounds

    Loops that are not structural carry fuel that is proved or evidently enough:
    the Merkle recursions take the number of leaves (each step splits a list of at
    least two into two shorter ones), the power-of-two loop 64 steps, the climbing
    loops of the consistency verifier 65 (an index below [2^64] is shifted right
    each time); HKDF takes 256 (its counter is a byte).  Completeness theorems
    conclude that the result is produced, so exhausted fuel cannot satisfy them.
    The header loop of the request parser takes one more than the bytes left, and
    C31 shows that it never runs out; so does the XML parser, with C11.
    Sizes are bounded where the code's types bound them: Merkle trees below [2^63]
    leaves ([fits]), fields of an envelope below [2^32] bytes.

    ** Not modelled

    Sockets, threads and locks: methods behind a mutex are modelled as sequential
    calls, requests one after the other (the semaphore is the exception), and a
    connection as the bytes sent and the bytes that came back.  What git and gix
    compute (the classes [Forge.WorkOps], [Rest.GixRefs] and [Web.GixHead], with the laws
    [ForgeTheory.GitLaws]), rustls, the certificate generator and the X.509 parser.  What
    is printed to a terminal, the advice [main] prints when the state cannot be
    decrypted, and the mode bits of files.  The build for other systems than Linux. *)

(** ** Prelude *)

From Stdlib Require Import NArith Lia.
From Stdlib Require Export Strings.Byte Strings.String.
From stdpp Require Export gmap strings list fin_maps pretty.

Open Scope N_scope.

(** ** Results and effects *)

(** Rust's [Result<T, E>], with the error type first so that [result E] is a
    monad and [x ← c; k] is the [?] operator. *)
Inductive result (E A : Type) : Type :=
| Ok (a : A)
| Err (e : E).
Arguments Ok {E A} a.
Arguments Err {E A} e.

Global Instance result_mret E : MRet (result E) := λ A a, Ok a.
Global Instance result_mbind E : MBind (result E) := λ A B f r,
  match r with Ok a => f a | Err e => Err e end.
Global Instance result_fmap E : FMap (result E) := λ A B f r,
  match r with Ok a => Ok (f a) | Err e => Err e end.

(** [r.map_err(f)]. *)
Definition map_err {E F A} (f : E → F) (r : result E A) : result F A :=
  match r with Ok a => Ok a | Err e => Err (f e) end.

(** [o.ok_or(e)]. *)
Definition ok_or {E A} (e : E) (o : option A) : result E A :=
  match o with Some a => Ok a | None => Err e end.

(** [r.ok()]. *)
Definition to_option {E A} (r : result E A) : option A :=
  match r with Ok a => Some a | Err _ => None end.

Definition is_ok {E A} (r : result E A) : bool :=
  match r with Ok _ => true | Err _ => false end.

(** Stateful fallible code: an error keeps the effects made before it, as an
    early return of [&mut self] code does. *)
Definition eff (S E A : Type) : Type := S → result E A * S.

Global Instance eff_mret S E : MRet (eff S E) := λ A a s, (Ok a, s).
Global Instance eff_mbind S E : MBind (eff S E) := λ A B f c s,
  match c s with
  | (Ok a, s') => f a s'
  | (Err e, s') => (Err e, s')
  end.

Definition throw {S E A} (e : E) : eff S E A := λ s, (Err e, s).
Definition lift {S E A} (r : result E A) : eff S E A := λ s, (r, s).
Definition eff_map_err {S E F A} (f : E → F) (c : eff S E A) : eff S F A :=
  λ s, let '(r, s') := c s in (map_err f r, s').

(** Loops of fallible stateful code: [for x in l { f(x)?; }]. *)
Fixpoint eff_iter {S E A} (f : A → eff S E unit) (l : list A) : eff S E unit :=
  match l with
  | [] => mret ()
  | x :: l => f x ≫= λ _, eff_iter f l
  end.

(** ** Inversion of effects *)

Lemma eff_bind_inv {S E A B} (c : eff S E A) (f : A → eff S E B) s b s' :
  (c ≫= f) s = (Ok b, s') → ∃ a s1, c s = (Ok a, s1) ∧ f a s1 = (Ok b, s').
Proof. unfold mbind, eff_mbind. destruct (c s) as [[a|] s1]; [eauto|done]. Qed.
Lemma eff_err_inv {S E F A} (g : E → F) (c : eff S E A) s a s' : eff_map_err g c s = (Ok a, s') → c s = (Ok a, s').
Proof. unfold eff_map_err. destruct (c s) as [[a'|] s1]; [by intros [= <- <-]|done]. Qed.
Lemma lift_inv {S E A} (r : result E A) (s : S) a s' : lift r s = (Ok a, s') → r = Ok a ∧ s' = s.
Proof. unfold lift. by intros [= -> ->]. Qed.
Lemma lift_some_inv {S E A} (e : E) (o : option A) (s : S) a s' : lift (ok_or e o) s = (Ok a, s') → o = Some a ∧ s' = s.
Proof. intros [E1 ->]%lift_inv. destruct o; [|done]. by injection E1 as ->. Qed.
Lemma mret_inv {S E A} (x : A) (s : S) a s' : (mret x : eff S E A) s = (Ok a, s') → x = a ∧ s' = s.
Proof. by intros [= -> ->]. Qed.

Ltac eff_step H :=
  let a := fresh "a" in let s := fresh "s" in let E := fresh "E" in
  apply eff_bind_inv in H as (a & s & E & H).

(** ** Unsigned machine integers, as [N] *)

Definition u8_max : N := 2 ^ 8 - 1.
Definition u16_max : N := 2 ^ 16 - 1.
Definition u32_max : N := 2 ^ 32 - 1.
Definition u64_max : N := 2 ^ 64 - 1.

(** [a.saturating_add(b)] on [u64]; [a.saturating_sub(b)] is [N.sub]. *)
Definition sat_add64 (a b : N) : N := N.min (a + b) u64_max.

(** [a + b] on [u64] with overflow checks off (release profile): wraps. *)
Definition wrap_add64 (a b : N) : N := (a + b) mod 2 ^ 64.

Lemma sat_add64_bound a b : sat_add64 a b ≤ u64_max.
Proof. unfold sat_add64; lia. Qed.

Lemma sat_add64_exact a b : a + b ≤ u64_max → sat_add64 a b = a + b.
Proof. unfold sat_add64; lia. Qed.

Lemma sat_add64_le_l a b : a ≤ u64_max → a ≤ sat_add64 a b.
Proof. unfold sat_add64; lia. Qed.

(** ** Bytes *)

Abbreviation bytes := (list byte).

Global Instance byte_eq_dec : EqDecision byte := Byte.byte_eq_dec.
Global Program Instance byte_countable : Countable byte :=
  inj_countable Byte.to_N Byte.of_N Byte.of_to_N.

Definition byte_of_N (n : N) : byte := default x00 (Byte.of_N (n mod 256)).

Lemma byte_of_N_spec n : Byte.to_N (byte_of_N n) = n mod 256.
Proof.
  unfold byte_of_N.
  destruct (Byte.of_N (n mod 256)) as [b|] eqn:E; simpl.
  - by apply Byte.to_of_N.
  - apply Byte.of_N_None_iff in E.
    pose proof (N.mod_lt n 256 ltac:(lia)); lia.
Qed.

Lemma byte_to_N_bound b : Byte.to_N b < 256.
Proof. pose proof (Byte.to_N_bounded b); lia. Qed.

Lemma byte_to_N_inj b c : Byte.to_N b = Byte.to_N c → b = c.
Proof.
  intros E. pose proof (Byte.of_to_N b) as Hb. pose proof (Byte.of_to_N c) as Hc.
  rewrite E in Hb. congruence.
Qed.

Lemma byte_of_to_N b : byte_of_N (Byte.to_N b) = b.
Proof.
  apply byte_to_N_inj. rewrite byte_of_N_spec.
  apply N.mod_small, byte_to_N_bound.
Qed.

Lemma byte_of_N_small n : n < 256 → Byte.to_N (byte_of_N n) = n.
Proof. intros. rewrite byte_of_N_spec. by apply N.mod_small. Qed.

(** [x.to_le_bytes()] of an integer [k] bytes wide, and its inverse. *)
Fixpoint to_le_bytes (k : nat) (v : N) : bytes :=
  match k with
  | O => []
  | S k => byte_of_N v :: to_le_bytes k (v / 256)
  end.

Fixpoint from_le_bytes (bs : bytes) : N :=
  match bs with
  | [] => 0
  | b :: bs => Byte.to_N b + 256 * from_le_bytes bs
  end.

(** [x.to_be_bytes()]. *)
Definition to_be_bytes (k : nat) (v : N) : bytes := reverse (to_le_bytes k v).

Lemma length_to_le_bytes k v : length (to_le_bytes k v) = k.
Proof. revert v; induction k; intros; simpl; congruence. Qed.

Lemma from_to_le_bytes k v :
  from_le_bytes (to_le_bytes k v) = v mod 256 ^ N.of_nat k.
Proof.
  revert v. induction k as [|k IH]; intros v.
  - simpl. by rewrite N.mod_1_r.
  - cbn [to_le_bytes from_le_bytes]. rewrite IH, byte_of_N_spec.
    rewrite Nat2N.inj_succ, N.pow_succ_r'.
    rewrite N.Div0.mod_mul_r. lia.
Qed.

Lemma to_from_le_bytes bs : to_le_bytes (length bs) (from_le_bytes bs) = bs.
Proof.
  induction bs as [|b bs IH]; [done|]; cbn [length to_le_bytes from_le_bytes].
  pose proof (byte_to_N_bound b).
  rewrite (N.mul_comm 256), N.div_add, (N.div_small (Byte.to_N b)) by lia.
  rewrite N.add_0_l, IH. f_equal.
  apply byte_to_N_inj. rewrite byte_of_N_spec, N.Div0.mod_add.
  by apply N.mod_small.
Qed.

Lemma from_le_bytes_bound bs : from_le_bytes bs < 256 ^ N.of_nat (length bs).
Proof.
  induction bs as [|b bs IH]; [done|]. cbn [from_le_bytes length].
  pose proof (byte_to_N_bound b). rewrite Nat2N.inj_succ, N.pow_succ_r'. lia.
Qed.

Lemma to_le_bytes_inj k v w :
  v < 256 ^ N.of_nat k → w < 256 ^ N.of_nat k →
  to_le_bytes k v = to_le_bytes k w → v = w.
Proof.
  intros Hv Hw E. apply (f_equal from_le_bytes) in E.
  by rewrite !from_to_le_bytes, !N.mod_small in E by done.
Qed.

(** ** Strings *)

(** A Rust [String] is its UTF-8 bytes; [s.as_bytes()]. *)
Definition as_bytes (s : string) : bytes := list_byte_of_string s.

(** A Rust byte-string literal that ends in the escape [\0]. *)
Definition nul_terminated (s : string) : bytes := as_bytes s ++ [x00].

Lemma as_bytes_inj s t : as_bytes s = as_bytes t → s = t.
Proof.
  intros E. rewrite <-(string_of_list_byte_of_string s),
    <-(string_of_list_byte_of_string t). by f_equal.
Qed.

Lemma as_bytes_app s t : as_bytes (s +:+ t) = as_bytes s ++ as_bytes t.
Proof.
  unfold as_bytes, list_byte_of_string.
  induction s as [|c s IH]; [done|]. simpl in *. by rewrite IH.
Qed.

(** ** Lists *)

(** [l.len()] as a [usize]. *)
Abbreviation lengthN l := (N.of_nat (length l)).

Lemma app_inj_len {A} (l1 l2 k1 k2 : list A) :
  length l1 = length l2 → l1 ++ k1 = l2 ++ k2 → l1 = l2 ∧ k1 = k2.
Proof. intros. by apply app_inj_1. Qed.

Lemma drop_take_app {A} (l k : list A) n :
  length l = n → drop n (l ++ k) = k ∧ take n (l ++ k) = l.
Proof.
  intros <-. split; [by rewrite drop_app_length|by rewrite take_app_length].
Qed.

(** A separator that does not occur in the left parts splits uniquely. *)
Lemma app_sep_inj {A} (x : A) l1 l2 k1 k2 :
  x ∉ l1 → x ∉ l2 → l1 ++ x :: k1 = l2 ++ x :: k2 → l1 = l2 ∧ k1 = k2.
Proof.
  revert l2. induction l1 as [|a l1 IH]; intros [|b l2] H1 H2 E; simplify_eq/=.
  - done.
  - exfalso. apply H2. left.
  - exfalso. apply H1. left.
  - apply not_elem_of_cons in H1, H2. destruct H1, H2.
    edestruct (IH l2) as [-> ->]; eauto.
Qed.

(** [l.iter().any(|x| x == y)]. *)
Definition contains {A} `{EqDecision A} (y : A) (l : list A) : bool :=
  bool_decide (y ∈ l).

(** ** Automation *)

(** [secgit] has the side conditions that recur (resolved by [auto with secgit])
    and the lengths of the operations on lists and bytes (rewriting). *)
Create HintDb secgit discriminated.
Create Rewrite HintDb secgit.
#[export] Hint Resolve sat_add64_bound byte_to_N_bound length_to_le_bytes Forall_take Forall_drop : secgit.
#[export] Hint Rewrite @length_app @length_take @length_drop @length_fmap @length_reverse length_to_le_bytes : secgit.

(** Arithmetic on lengths of compound lists. *)
Ltac len_lia := autorewrite with secgit; solve [done | lia | cbn [length] in *; lia].

Tactic Notation "vm_decide" := apply (bool_decide_unpack _); vm_compute; exact I.

(** Closes an equation by evaluating both sides, without normalizing the types
    its terms carry (instances of the backend classes). *)
Ltac vm_refl := match goal with |- ?x = ?y => exact (@eq_refl _ y <: x = y) end.
