(* ===== verification/Text.v ===== *)
(** The text functions of the Rust standard library the workspace uses, on
    bytes: UTF-8 validation, [str::lines], [str::trim] and friends. *)

From Stdlib Require Import Ascii.
From S2P Require Import Prelude.

Definition NL : byte := x0a.
Definition CR : byte := x0d.

Definition in_range (lo hi : N) (b : byte) : bool := (lo <=? Byte.to_N b) && (Byte.to_N b <=? hi).

(** ** UTF-8 *)

(** The ranges of the bytes that follow a leading byte; [None] for a byte that
    starts nothing. *)
Definition continuation (b : byte) : option (list (N * N)) :=
  let c := (128, 191) in
  let n := Byte.to_N b in
  if n <? 128 then Some []
  else if n <? 194 then None
  else if n <? 224 then Some [c]
  else if n =? 224 then Some [(160, 191); c]
  else if n =? 237 then Some [(128, 159); c]
  else if n <? 240 then Some [c; c]
  else if n =? 240 then Some [(144, 191); c; c]
  else if n <? 244 then Some [c; c; c]
  else if n =? 244 then Some [(128, 143); c; c]
  else None.

(** How many of the expected bytes are there, and whether all are. *)
Fixpoint match_ranges (rs : list (N * N)) (bs : bytes) : nat * bool :=
  match rs, bs with
  | [], _ => (0%nat, true)
  | _, [] => (0%nat, false)
  | (lo, hi) :: rs, b :: bs =>
      if in_range lo hi b then let '(n, ok) := match_ranges rs bs in (S n, ok) else (0%nat, false)
  end.

(** One step of the decoder: the bytes after the first that belong to the same
    chunk, and whether the chunk is a character. *)
Definition utf8_step (b : byte) (bs : bytes) : nat * bool :=
  match continuation b with
  | None => (0%nat, false)
  | Some rs => match_ranges rs bs
  end.

Fixpoint utf8_fuel (fuel : nat) (bs : bytes) : bool :=
  match fuel, bs with
  | _, [] => true
  | O, _ => false
  | S fuel, b :: bs => let '(n, ok) := utf8_step b bs in ok && utf8_fuel fuel (drop n bs)
  end.

(** [std::str::from_utf8(bs).is_ok()]. *)
Definition valid_utf8 (bs : bytes) : bool := utf8_fuel (length bs) bs.

Definition REPLACEMENT : bytes := [xef; xbf; xbd].

Fixpoint lossy_fuel (fuel : nat) (bs : bytes) : bytes :=
  match fuel, bs with
  | O, _ | _, [] => []
  | S fuel, b :: bs =>
      let '(n, ok) := utf8_step b bs in
      (if ok then b :: take n bs else REPLACEMENT) ++ lossy_fuel fuel (drop n bs)
  end.

(** [String::from_utf8_lossy(bs)]. *)
Definition from_utf8_lossy (bs : bytes) : bytes := lossy_fuel (length bs) bs.

(** ** Lines and blanks *)

(** The pieces between newlines and whether each was terminated. *)
Fixpoint split_nl (bs : bytes) : list (bytes * bool) :=
  match bs with
  | [] => []
  | b :: bs =>
      if bool_decide (b = NL) then ([], true) :: split_nl bs
      else match split_nl bs with
           | [] => [([b], false)]
           | (l, t) :: ls => (b :: l, t) :: ls
           end
  end.

Definition strip_cr (l : bytes) : bytes :=
  if bool_decide (last l = Some CR) then removelast l else l.

(** [s.lines()]: a carriage return is dropped only before a newline. *)
Definition lines (bs : bytes) : list bytes :=
  (λ p : bytes * bool, if p.2 then strip_cr p.1 else p.1) <$> split_nl bs.

(** The characters of Unicode's [White_Space], encoded. *)
Definition whitespace : list bytes :=
  [[x09]; [x0a]; [x0b]; [x0c]; [x0d]; [x20]; [xc2; x85]; [xc2; xa0]; [xe1; x9a; x80];
   [xe2; x80; x80]; [xe2; x80; x81]; [xe2; x80; x82]; [xe2; x80; x83]; [xe2; x80; x84];
   [xe2; x80; x85]; [xe2; x80; x86]; [xe2; x80; x87]; [xe2; x80; x88]; [xe2; x80; x89];
   [xe2; x80; x8a]; [xe2; x80; xa8]; [xe2; x80; xa9]; [xe2; x80; xaf]; [xe2; x81; x9f];
   [xe3; x80; x80]].

(** The length of the whitespace character [bs] starts with. *)
Definition ws_prefix (ws : list bytes) (bs : bytes) : option nat :=
  length <$> List.find (λ w, bool_decide (take (length w) bs = w)) ws.

Fixpoint trim_fuel (ws : list bytes) (fuel : nat) (bs : bytes) : bytes :=
  match fuel with
  | O => bs
  | S fuel =>
      match ws_prefix ws bs with
      | Some n => trim_fuel ws fuel (drop n bs)
      | None => bs
      end
  end.

Definition trim_start (bs : bytes) : bytes := trim_fuel whitespace (length bs) bs.
Definition trim_end (bs : bytes) : bytes :=
  reverse (trim_fuel (reverse <$> whitespace) (length bs) (reverse bs)).
(** [s.trim()]. *)
Definition trim (bs : bytes) : bytes := trim_end (trim_start bs).

(** [str::to_ascii_lowercase]. *)
Definition lower_ascii (c : ascii) : ascii :=
  let n := N_of_ascii c in
  if (65 <=? n) && (n <=? 90) then ascii_of_N (n + 32) else c.
Definition to_ascii_lowercase (s : string) : string :=
  string_of_list_ascii (lower_ascii <$> list_ascii_of_string s).

(** [char::is_ascii_alphanumeric], [is_ascii_digit] and [is_ascii_hexdigit], and
    [to_ascii_lowercase], of one byte.  The bytes of a character outside ASCII are
    all above 127, so a test for ASCII characters can be made byte by byte. *)
Definition is_ascii_digit (b : byte) : bool := in_range 48 57 b.
Definition is_ascii_alphanumeric (b : byte) : bool :=
  is_ascii_digit b || in_range 65 90 b || in_range 97 122 b.
Definition lower_byte (b : byte) : byte :=
  if in_range 65 90 b then byte_of_N (Byte.to_N b + 32) else b.

Fixpoint starts_with (p bs : bytes) : bool :=
  match p, bs with
  | [], _ => true
  | x :: p, y :: bs => bool_decide (x = y) && starts_with p bs
  | _ :: _, [] => false
  end.

(** [hay.contains(needle)]. *)
Fixpoint contains_text (hay needle : bytes) : bool :=
  starts_with needle hay || match hay with [] => false | _ :: hay => contains_text hay needle end.

(** [s.chars().take(n).collect()]: whole characters of valid text. *)
Fixpoint take_chars (n : nat) (bs : bytes) : bytes :=
  match n, bs with
  | O, _ | _, [] => []
  | S n, b :: bs => let k := (utf8_step b bs).1 in b :: take k bs ++ take_chars n (drop k bs)
  end.

Definition COLON : byte := x3a.

(** [str::split]: the pieces between separators. *)
Fixpoint split_on (sep : byte) (s : bytes) : list bytes :=
  match s with
  | [] => [[]]
  | c :: s =>
      if bool_decide (c = sep) then [] :: split_on sep s
      else match split_on sep s with
           | [] => [[c]]
           | p :: ps => (c :: p) :: ps
           end
  end.

(** [s.strip_prefix(p)]. *)
Definition strip_prefix (p s : bytes) : option bytes :=
  if bool_decide (take (length p) s = p) then Some (drop (length p) s) else None.

(** [s.split_once(c)]. *)
Fixpoint split_once (c : byte) (s : bytes) : option (bytes * bytes) :=
  match s with
  | [] => None
  | x :: s =>
      if bool_decide (x = c) then Some ([], s)
      else '(a, b) ← split_once c s; Some (x :: a, b)
  end.

(** [s.strip_suffix(p)]. *)
Definition strip_suffix (p s : bytes) : option bytes := reverse <$> strip_prefix (reverse p) (reverse s).

(** [s.split_whitespace()]: the pieces between runs of whitespace. *)
Fixpoint split_ws_fuel (fuel : nat) (bs cur : bytes) : list bytes :=
  let flush := match cur with [] => [] | _ => [cur] end in
  match fuel, bs with
  | O, _ | _, [] => flush
  | S fuel, b :: bs' =>
      match ws_prefix whitespace bs with
      | Some n => flush ++ split_ws_fuel fuel (drop n bs) []
      | None => split_ws_fuel fuel bs' (cur ++ [b])
      end
  end.
Definition split_whitespace (bs : bytes) : list bytes := split_ws_fuel (length bs) bs [].

(** [s.parse::<u64>()]: an optional plus sign and decimal digits; [None] on
    anything else and on overflow. *)
Definition digit_value (b : byte) : option N :=
  let n := Byte.to_N b in if (48 <=? n) && (n <=? 57) then Some (n - 48) else None.

Fixpoint parse_digits (acc : N) (s : bytes) : option N :=
  match s with
  | [] => Some acc
  | b :: s =>
      d ← digit_value b;
      let acc := acc * 10 + d in
      if u64_max <? acc then None else parse_digits acc s
  end.

Definition parse_u64 (s : bytes) : option N :=
  match s with
  | [] => None
  | x2b :: s => match s with [] => None | _ => parse_digits 0 s end
  | _ => parse_digits 0 s
  end.

(** [s.parse::<i64>()]. *)
Definition parse_i64 (s : bytes) : option Z :=
  match s with
  | x2d :: s' =>
      match s' with
      | [] => None
      | _ => n ← parse_digits 0 s'; if 2 ^ 63 <? n then None else Some (- Z.of_N n)%Z
      end
  | _ => n ← parse_u64 s; if n <? 2 ^ 63 then Some (Z.of_N n) else None
  end.

(** A digit of [from_str_radix(_, 16)]. *)
Definition hex_value (b : byte) : option N :=
  let n := Byte.to_N b in
  if in_range 48 57 b then Some (n - 48)
  else if in_range 97 102 b then Some (n - 87)
  else if in_range 65 70 b then Some (n - 55)
  else None.

(** [s.trim_matches(p)] for a test on ASCII characters. *)
Fixpoint drop_while (p : byte → bool) (bs : bytes) : bytes :=
  match bs with
  | [] => []
  | b :: bs' => if p b then drop_while p bs' else bs
  end.
Definition trim_matches (p : byte → bool) (bs : bytes) : bytes :=
  reverse (drop_while p (reverse (drop_while p bs))).

(** What is before the first occurrence of [needle] and what is after it. *)
Fixpoint find_text (needle bs : bytes) : option (bytes * bytes) :=
  match strip_prefix needle bs with
  | Some rest => Some ([], rest)
  | None =>
      match bs with
      | [] => None
      | b :: bs => '(pre, rest) ← find_text needle bs; Some (b :: pre, rest)
      end
  end.

(** ** Theory *)

Definition ascii_text (bs : bytes) : Prop := Forall (λ b, Byte.to_N b < 128) bs.

Lemma match_ranges_app rs bs k n :
  match_ranges rs bs = (n, true) → match_ranges rs (bs ++ k) = (n, true) ∧ (n ≤ length bs)%nat.
Proof.
  revert bs n. induction rs as [|[lo hi] rs IH]; intros bs n; simpl.
  { intros [= <-]. split; [done|lia]. }
  destruct bs as [|b bs]; [done|]. simpl. destruct (in_range lo hi b); [|done].
  destruct (match_ranges rs bs) as [n' ok] eqn:E. intros [= <- ->].
  destruct (IH bs n' E) as [-> Hn]. split; [done|lia].
Qed.

Lemma utf8_step_app b bs k n :
  utf8_step b bs = (n, true) → utf8_step b (bs ++ k) = (n, true) ∧ (n ≤ length bs)%nat.
Proof. unfold utf8_step. destruct (continuation b); [|done]. apply match_ranges_app. Qed.

Lemma utf8_fuel_enough f1 f2 bs :
  (length bs ≤ f1)%nat → (length bs ≤ f2)%nat → utf8_fuel f1 bs = utf8_fuel f2 bs.
Proof.
  revert f2 bs. induction f1 as [|f1 IH]; intros [|f2] [|b bs] H1 H2; simpl in *; try done; try lia.
  destruct (utf8_step b bs) as [n ok]. f_equal. apply IH; rewrite length_drop; lia.
Qed.

Lemma valid_utf8_cons b bs :
  valid_utf8 (b :: bs) = (utf8_step b bs).2 && valid_utf8 (drop (utf8_step b bs).1 bs).
Proof.
  unfold valid_utf8. cbn [length utf8_fuel]. destruct (utf8_step b bs) as [n ok]. simpl.
  f_equal. apply utf8_fuel_enough; rewrite length_drop; lia.
Qed.

(** Validity is closed under concatenation. *)
Lemma valid_utf8_app bs k : valid_utf8 bs = true → valid_utf8 (bs ++ k) = valid_utf8 k.
Proof.
  remember (length bs) as len eqn:Hlen. revert bs Hlen.
  induction (lt_wf len) as [len _ IH]. intros [|b bs] Hlen H; [done|]. simpl in Hlen.
  cbn [app]. rewrite valid_utf8_cons in H. rewrite valid_utf8_cons.
  destruct (utf8_step b bs) as [n ok] eqn:E. simpl in H. apply andb_true_iff in H as [-> H].
  destruct (utf8_step_app b bs k n E) as [-> Hn]. simpl.
  rewrite drop_app_le by done. apply (IH (length (drop n bs))); [|done..]. rewrite length_drop. lia.
Qed.

Lemma valid_utf8_ascii bs : ascii_text bs → valid_utf8 bs = true.
Proof.
  induction 1 as [|b bs Hb _ IH]; [done|]. rewrite valid_utf8_cons.
  assert (utf8_step b bs = (0%nat, true)) as ->.
  { unfold utf8_step, continuation. destruct (N.ltb_spec (Byte.to_N b) 128); [done|lia]. }
  done.
Qed.

Lemma lossy_fuel_valid fuel bs : (length bs ≤ fuel)%nat → valid_utf8 bs = true → lossy_fuel fuel bs = bs.
Proof.
  revert bs. induction fuel as [|fuel IH]; intros [|b bs] Hf H; simpl in *; try done; try lia.
  rewrite valid_utf8_cons in H. destruct (utf8_step b bs) as [n ok] eqn:E. simpl in H.
  apply andb_true_iff in H as [-> H]. simpl. rewrite IH; [|rewrite length_drop; lia|done].
  by rewrite take_drop.
Qed.

(** On valid text the lossy conversion is the identity. *)
Lemma from_utf8_lossy_valid bs : valid_utf8 bs = true → from_utf8_lossy bs = bs.
Proof. by apply lossy_fuel_valid. Qed.

Lemma split_nl_line l rest : NL ∉ l → split_nl (l ++ (NL :: rest)) = (l, true) :: split_nl rest.
Proof.
  induction l as [|b l IH]; intros H; simpl; [done|].
  apply not_elem_of_cons in H as [Hb H]. rewrite bool_decide_eq_false_2 by congruence.
  by rewrite IH.
Qed.

(** A line that survives being written with a newline and read back. *)
Definition clean_line (l : bytes) : Prop := (NL ∉ l) ∧ last l ≠ Some CR.

Lemma lines_app l rest : clean_line l → lines (l ++ (NL :: rest)) = l :: lines rest.
Proof.
  intros [H1 H2]. unfold lines. rewrite split_nl_line by done. simpl.
  unfold strip_cr. by rewrite bool_decide_eq_false_2.
Qed.

Lemma trim_fuel_id ws fuel bs : ws_prefix ws bs = None → trim_fuel ws fuel bs = bs.
Proof. intros H. destruct fuel; simpl; [done|by rewrite H]. Qed.

Lemma ws_prefix_None ws bs :
  (∀ w, w ∈ ws → take (length w) bs ≠ w) → ws_prefix ws bs = None.
Proof.
  intros H. unfold ws_prefix. destruct (List.find _ ws) as [w|] eqn:E; [|done].
  apply find_some in E as [Hin Hw]. apply bool_decide_eq_true in Hw.
  exfalso. apply (H w); [by apply list_elem_of_In|done].
Qed.

(** Text whose first and last bytes are visible ASCII is not trimmed. *)
Definition visible (b : byte) : Prop := 32 < Byte.to_N b < 128.

Lemma visible_not_ws b bs w :
  visible b → w ∈ whitespace → take (length w) (b :: bs) ≠ w.
Proof.
  intros Hb Hw E. assert (head w = Some b) as Hh.
  { rewrite <-E. destruct w as [|x w]; [|done]. exfalso. revert Hw. vm_decide. }
  assert (Forall (λ w, match head w with Some b => ¬ visible b | None => True end) whitespace) as HF.
  { unfold visible. repeat constructor; vm_compute; intros [H1 H2]; discriminate || done. }
  rewrite Forall_forall in HF. specialize (HF w Hw). rewrite Hh in HF. done.
Qed.

Lemma visible_not_ws_rev b bs w :
  visible b → w ∈ reverse <$> whitespace → take (length w) (b :: bs) ≠ w.
Proof.
  intros Hb Hw E. assert (head w = Some b) as Hh.
  { rewrite <-E. destruct w as [|x w]; [|done]. exfalso. revert Hw. vm_decide. }
  assert (Forall (λ w, match head w with Some b => ¬ visible b | None => True end)
            (reverse <$> whitespace)) as HF.
  { unfold visible. vm_compute. repeat constructor; intros [H1 H2]; discriminate || done. }
  rewrite Forall_forall in HF. specialize (HF w Hw). rewrite Hh in HF. done.
Qed.

Lemma trim_visible b l c : visible b → visible c → head l = Some b → last l = Some c → trim l = l.
Proof.
  intros Hb Hc Hh Hl. unfold trim. assert (trim_start l = l) as ->.
  { unfold trim_start. apply trim_fuel_id, ws_prefix_None. intros w Hw.
    destruct l as [|x l]; [done|]. injection Hh as ->. by apply visible_not_ws. }
  unfold trim_end. rewrite trim_fuel_id; [by rewrite reverse_involutive|].
  apply ws_prefix_None. intros w Hw.
  rewrite last_Some in Hl. destruct Hl as [k ->]. rewrite reverse_snoc. by apply visible_not_ws_rev.
Qed.

Definition visible_text (s : bytes) : Prop := s ≠ [] ∧ Forall visible s.

Lemma visible_ascii s : Forall visible s → ascii_text s.
Proof. intros H. eapply Forall_impl; [exact H|]. unfold visible. lia. Qed.

Lemma visible_not b s : ¬ visible b → Forall visible s → b ∉ s.
Proof. intros Hb H Hin. rewrite Forall_forall in H. by apply Hb, H. Qed.

Lemma trim_word w : visible_text w → trim w = w.
Proof.
  intros [Hne F]. destruct (last w) as [c|] eqn:Hl; [|by apply last_None in Hl].
  destruct w as [|b w]; [done|]. rewrite Forall_forall in F.
  apply (trim_visible b _ c); [apply F; by left| |done..].
  apply F. apply last_Some in Hl as [l ->]. apply elem_of_app. right. by left.
Qed.

Lemma split_once_printed c k v : c ∉ k → split_once c (k ++ c :: v) = Some (k, v).
Proof.
  induction k as [|x k IH]; intros H; simpl; [by rewrite bool_decide_eq_true_2|]. apply not_elem_of_cons in H as [Hx H].
  rewrite bool_decide_eq_false_2 by congruence. by rewrite IH.
Qed.

Lemma split_once_None c s : split_once c s = None ↔ c ∉ s.
Proof.
  induction s as [|x s IH]; cbn [split_once]; [split; [intros _; apply not_elem_of_nil|done]|].
  rewrite not_elem_of_cons, <-IH. case_bool_decide as Hx; [split; [done|intros []; congruence]|].
  destruct (split_once c s) as [[]|]; cbn; split; [done|intros []; done|done|done].
Qed.

Lemma split_once_spec c s a b : split_once c s = Some (a, b) → s = a ++ c :: b ∧ (c ∉ a).
Proof.
  revert a. induction s as [|x s IH]; cbn [split_once]; intros a; [done|]. case_bool_decide as Hx.
  { intros [= <- <-]. subst. split; [done|apply not_elem_of_nil]. }
  destruct (split_once c s) as [[a' b']|]; [|done]. cbn. intros [= <- <-]. destruct (IH a' eq_refl) as [-> Ha].
  split; [done|]. apply not_elem_of_cons. split; [congruence|done].
Qed.

Lemma from_utf8_lossy_ascii s k : ascii_text s → from_utf8_lossy (s ++ k) = s ++ from_utf8_lossy k.
Proof.
  unfold from_utf8_lossy. induction 1 as [|b s Hb _ IH]; [done|]. cbn [app length lossy_fuel].
  assert (utf8_step b (s ++ k) = (0%nat, true)) as ->.
  { unfold utf8_step, continuation. destruct (N.ltb_spec (Byte.to_N b) 128); [done|lia]. }
  cbn [take app drop]. by rewrite drop_0, IH.
Qed.

Lemma split_ws_word w rest cur k :
  Forall visible w →
  split_ws_fuel (length w + k) (w ++ rest) cur = split_ws_fuel k rest (cur ++ w).
Proof.
  revert cur. induction w as [|x w IH]; intros cur F; simpl; [by rewrite app_nil_r|].
  apply Forall_cons in F as [Hx F].
  rewrite ws_prefix_None by (intros v; by apply visible_not_ws). rewrite IH by done.
  by rewrite <-app_assoc.
Qed.

Lemma split_ws_cur fuel bs cur : cur ≠ [] → split_ws_fuel fuel bs cur ≠ [].
Proof.
  revert bs cur. induction fuel as [|fuel IH]; intros [|b bs] cur Hc; simpl; try by destruct cur.
  destruct (ws_prefix whitespace (b :: bs)); [by destruct cur|]. apply IH. by destruct cur.
Qed.

(** Text that starts with a word has a word. *)
Lemma split_whitespace_word w rest : visible_text w → split_whitespace (w ++ rest) ≠ [].
Proof.
  intros [Hne F]. unfold split_whitespace. rewrite length_app, split_ws_word by done. by apply split_ws_cur.
Qed.

(** ** Numbers *)

(** Printing and parsing of numbers. *)
Lemma parse_pretty_go x s :
  x ≤ u64_max → parse_digits 0 (as_bytes (pretty_N_go x s)) = parse_digits x (as_bytes s).
Proof.
  revert s. induction (N.lt_wf_0 x) as [x _ IH]. intros s Hx.
  destruct (decide (0 < x)) as [Hpos|]; [|by assert (x = 0) as -> by lia].
  rewrite pretty_N_go_step by done.
  pose proof (N.Div0.div_mod x 10) as Hd. pose proof (N.mod_lt x 10 ltac:(done)) as Hm.
  pose proof (N.div_lt x 10 Hpos ltac:(done)). rewrite IH by (done || lia).
  assert (∀ c t, as_bytes (String c t) = byte_of_ascii c :: as_bytes t) as Hc by done.
  rewrite Hc. cbn [parse_digits].
  assert (∀ d, d < 10 → digit_value (byte_of_ascii (pretty_N_char d)) = Some d) as Hdig.
  { intros d Hd'. assert (Forall (λ d, digit_value (byte_of_ascii (pretty_N_char d)) = Some d) (N.of_nat <$> seq 0 10)) as F
      by vm_decide.
    rewrite Forall_forall in F. apply F, list_elem_of_fmap. exists (N.to_nat d). split; [lia|]. apply elem_of_seq. lia. }
  rewrite Hdig by done. cbn [mbind option_bind].
  replace (x / 10 * 10 + x mod 10) with x by lia.
  by destruct (N.ltb_spec u64_max x); [lia|].
Qed.

Lemma parse_pretty n : n ≤ u64_max → parse_digits 0 (as_bytes (pretty n)) = Some n.
Proof.
  intros H. unfold pretty, pretty_N. case_decide; [by subst|]. by rewrite parse_pretty_go.
Qed.

(** What is left after a prefix or a suffix. *)
Lemma strip_prefix_spec p s r : strip_prefix p s = Some r → s = p ++ r.
Proof.
  unfold strip_prefix. case_bool_decide as H; [|done]. intros [= <-]. rewrite <-H at 1. by rewrite take_drop.
Qed.
Lemma strip_suffix_spec p s r : strip_suffix p s = Some r → s = r ++ p.
Proof.
  unfold strip_suffix. intros (r' & E & ->)%fmap_Some. apply strip_prefix_spec, (f_equal reverse) in E.
  by rewrite reverse_app, !reverse_involutive in E.
Qed.
Lemma strip_prefix_text p s r : strip_prefix (as_bytes p) (as_bytes s) = Some r → s = p +:+ string_of_list_byte r.
Proof.
  unfold strip_prefix. case_bool_decide as H; [|done]. intros [= <-]. apply as_bytes_inj. rewrite as_bytes_app.
  unfold as_bytes at 3. rewrite list_byte_of_string_of_list_byte. fold (as_bytes s). rewrite <-H at 1. by rewrite take_drop.
Qed.
