(* ===== verification/BTree.v ===== *)
(** Ordered collections of the Rust standard library: [BTreeSet<String>], a
    strictly increasing list of strings ordered by their bytes, and the stable
    [sort_by]. *)

From stdpp Require Import sorting.
From S2P Require Import Prelude.

Definition string_lt (a b : string) : Prop := String.le a b ∧ a ≠ b.

Fixpoint bt_insert (x : string) (l : list string) : list string :=
  match l with
  | [] => [x]
  | y :: l' =>
      if bool_decide (x = y) then l
      else if String.leb x y then x :: l
      else y :: bt_insert x l'
  end.

(** [iter.collect::<BTreeSet<_>>()]. *)
Definition bt_collect (l : list string) : list string := fold_left (λ s x, bt_insert x s) l [].

(** [a.intersection(b)]. *)
Definition bt_inter (a b : list string) : list string := filter (λ x, x ∈ b) a.

Definition bt_wf (l : list string) : Prop := StronglySorted string_lt l.

(** [l.sort_by(..)]; [le] says that the first may stay before the second. *)
Fixpoint sort_insert {A} (le : A → A → bool) (x : A) (l : list A) : list A :=
  match l with
  | [] => [x]
  | y :: l' => if le x y then x :: l else y :: sort_insert le x l'
  end.
Definition sort_by {A} (le : A → A → bool) (l : list A) : list A := foldr (sort_insert le) [] l.

(** ** Theory *)

Lemma sort_insert_perm {A} (le : A → A → bool) x l : sort_insert le x l ≡ₚ x :: l.
Proof.
  induction l as [|y l IH]; simpl; [done|]. destruct (le x y); [done|]. rewrite IH. apply Permutation_swap.
Qed.

Lemma sort_by_perm {A} (le : A → A → bool) l : sort_by le l ≡ₚ l.
Proof. induction l as [|x l IH]; simpl; [done|]. by rewrite sort_insert_perm, IH. Qed.

Lemma string_lt_trans a b c : string_lt a b → string_lt b c → string_lt a c.
Proof.
  intros [H1 N1] [H2 N2]. split; [by trans b|]. intros ->. apply N1. by apply (anti_symm String.le).
Qed.

Lemma string_lt_total x y : x ≠ y → String.leb x y = false → string_lt y x.
Proof.
  intros N L. split; [|done]. destruct (total String.le x y) as [H|H]; [|done].
  unfold String.le in H. by rewrite L in H.
Qed.

Lemma elem_of_bt_insert x y l : y ∈ bt_insert x l ↔ y = x ∨ y ∈ l.
Proof.
  induction l as [|z l IH]; simpl; [by rewrite list_elem_of_singleton, elem_of_nil; intuition|].
  case_bool_decide as Hd; [|destruct (String.leb x z)]; rewrite ?elem_of_cons, ?IH; intuition congruence.
Qed.

Lemma bt_insert_wf x l : bt_wf l → bt_wf (bt_insert x l).
Proof.
  unfold bt_wf. induction l as [|y l IH]; simpl; intros W; [by repeat constructor|].
  apply StronglySorted_cons in W as [Hy W].
  case_bool_decide as Hd; [by constructor|]. destruct (String.leb x y) eqn:L.
  - assert (string_lt x y) as Hx by (split; [by unfold String.le; rewrite L|done]).
    constructor; [by constructor|]. constructor; [done|].
    eapply Forall_impl; [exact Hy|]. intros z. by apply string_lt_trans.
  - constructor; [by apply IH|]. rewrite Forall_forall in *. intros z.
    rewrite elem_of_bt_insert. intros [->|Hz]; [|by apply Hy]. by apply string_lt_total.
Qed.

Lemma fold_insert_spec l s :
  bt_wf s → bt_wf (fold_left (λ s x, bt_insert x s) l s) ∧
  ∀ y, y ∈ fold_left (λ s x, bt_insert x s) l s ↔ y ∈ l ∨ y ∈ s.
Proof.
  revert s. induction l as [|x l IH]; intros s W; simpl.
  { split; [done|]. intros y. rewrite elem_of_nil. intuition. }
  destruct (IH (bt_insert x s)) as [W' H]; [by apply bt_insert_wf|]. split; [done|].
  intros y. rewrite H, elem_of_bt_insert, elem_of_cons. intuition.
Qed.

Lemma bt_collect_wf l : bt_wf (bt_collect l).
Proof. apply fold_insert_spec. constructor. Qed.

Lemma elem_of_bt_collect y l : y ∈ bt_collect l ↔ y ∈ l.
Proof.
  unfold bt_collect. destruct (fold_insert_spec l []) as [_ ->]; [constructor|].
  rewrite elem_of_nil. intuition.
Qed.

Lemma bt_filter_wf (P : string → Prop) `{∀ x, Decision (P x)} l : bt_wf l → bt_wf (filter P l).
Proof.
  unfold bt_wf. induction l as [|x l IH]; intros W; [done|].
  apply StronglySorted_cons in W as [Hx W]. rewrite filter_cons. case_decide; [|by apply IH].
  constructor; [by apply IH|]. rewrite Forall_forall in *. intros y [_ Hy]%list_elem_of_filter. by apply Hx.
Qed.

Lemma bt_wf_NoDup l : bt_wf l → NoDup l.
Proof.
  unfold bt_wf. induction 1 as [|x l _ IH Hx]; constructor; [|done].
  intros Hin. rewrite Forall_forall in Hx. by destruct (Hx x Hin).
Qed.

(** A set has one representation. *)
Lemma bt_wf_unique l k : bt_wf l → bt_wf k → (∀ x, x ∈ l ↔ x ∈ k) → l = k.
Proof.
  intros Wl Wk E.
  assert (∀ l, bt_wf l → StronglySorted String.le l) as Hle.
  { clear. unfold bt_wf. induction 1 as [|x l _ IH Hx]; constructor; [done|].
    eapply Forall_impl; [exact Hx|]. by intros ? []. }
  apply (StronglySorted_unique String.le); [by apply Hle..|].
  by apply NoDup_Permutation; [apply bt_wf_NoDup..|].
Qed.
