(* ===== verification/Backend.v ===== *)
(** Interfaces to the packages the workspace calls and does not contain.

    One class per facility: [aws-lc-rs] (digests, HMAC, AEAD, Ed25519, ML-DSA,
    ML-KEM, RNG), [x25519-dalek], [hex] and [serde_json].  A class holds the
    functions the source calls as fields and, as further fields, the documented
    behaviour the source relies on.  File [Toy] has an executable instance of
    every class. *)

From S2P Require Import Prelude Text.

(** [aws_lc_rs::digest]. *)
Class Digests := {
  digest_sha256 : bytes → bytes;
  digest_sha384 : bytes → bytes;
  digest_sha512 : bytes → bytes;
  digest_sha256_len : ∀ d, length (digest_sha256 d) = 32%nat;
  digest_sha384_len : ∀ d, length (digest_sha384 d) = 48%nat;
  digest_sha512_len : ∀ d, length (digest_sha512 d) = 64%nat;
}.

(** [aws_lc_rs::hmac]: key, then message. *)
Class Hmacs := {
  hmac_sign_sha1 : bytes → bytes → bytes;
  hmac_sign_sha256 : bytes → bytes → bytes;
  hmac_sign_sha384 : bytes → bytes → bytes;
  hmac_sign_sha1_len : ∀ k m, length (hmac_sign_sha1 k m) = 20%nat;
  hmac_sign_sha256_len : ∀ k m, length (hmac_sign_sha256 k m) = 32%nat;
  hmac_sign_sha384_len : ∀ k m, length (hmac_sign_sha384 k m) = 48%nat;
}.

(** [aws_lc_rs::rand::SystemRandom]: the generator's state is threaded
    explicitly; [None] is a failed [fill]. *)
Class SystemRandom := {
  rng : Type;
  rng_fill : nat → rng → option bytes * rng;
  rng_fill_len : ∀ n g b g', rng_fill n g = (Some b, g') → length b = n;
}.

(** [aws_lc_rs::aead]: [LessSafeKey::seal_in_place_append_tag] and
    [open_in_place] as functions of key, nonce, associated data and text.  The
    tag is a function of the rest, so a ciphertext that opens is the one sealing
    gives. *)
Inductive AeadAlg := AES_256_GCM | CHACHA20_POLY1305.

Class AeadBackend := {
  seal_in_place_append_tag : AeadAlg → bytes → bytes → bytes → bytes → option bytes;
  open_in_place : AeadAlg → bytes → bytes → bytes → bytes → option bytes;
  aead_open_seal : ∀ a k n d p c,
    seal_in_place_append_tag a k n d p = Some c → open_in_place a k n d c = Some p;
  aead_seal_open : ∀ a k n d p c,
    open_in_place a k n d c = Some p → seal_in_place_append_tag a k n d p = Some c;
}.

Definition NONCE_LEN : nat := 12.

(** [aws_lc_rs::signature]: Ed25519. *)
Class Ed25519 := {
  ed_keypair : Type;
  ed_from_pkcs8 : bytes → option ed_keypair;
  ed_public : ed_keypair → bytes;
  ed_sign : ed_keypair → bytes → bytes;
  ed_verify : bytes → bytes → bytes → bool;
  ed_sign_len : ∀ k m, length (ed_sign k m) = 64%nat;
  ed_verify_sign : ∀ k m, ed_verify (ed_public k) m (ed_sign k m) = true;
}.

(** [Ed25519KeyPair::generate_pkcs8]: the document parses again. *)
Class Ed25519Gen `{Ed25519} `{SystemRandom} := {
  ed_generate_pkcs8 : rng → option bytes * rng;
  ed_generate_parses : ∀ g d g',
    ed_generate_pkcs8 g = (Some d, g') → is_Some (ed_from_pkcs8 d);
}.

(** [aws_lc_rs::unstable::signature]: ML-DSA. *)
Inductive MlDsaAlg := ML_DSA_65 | ML_DSA_87.

Class MlDsa := {
  mldsa_keypair : Type;
  mldsa_from_seed : MlDsaAlg → bytes → option mldsa_keypair;
  mldsa_public : mldsa_keypair → bytes;
  mldsa_sign : mldsa_keypair → bytes → option bytes;
  mldsa_verify : MlDsaAlg → bytes → bytes → bytes → bool;
  mldsa_sign_len : ∀ k m s, mldsa_sign k m = Some s → lengthN s < 2 ^ 32;
  mldsa_verify_sign : ∀ a seed k m s,
    mldsa_from_seed a seed = Some k → mldsa_sign k m = Some s →
    mldsa_verify a (mldsa_public k) m s = true;
}.

(** [x25519_dalek]. *)
Class X25519 := {
  x_public : bytes → bytes;
  x_dh : bytes → bytes → bytes;
  x_public_len : ∀ s, length (x_public s) = 32%nat;
  x_dh_agree : ∀ a b, x_dh a (x_public b) = x_dh b (x_public a);
}.

(** [aws_lc_rs::kem] with [ML_KEM_768].  [None] is an error of the backend. *)
Class MlKem `{SystemRandom} := {
  kem_dk : Type;
  kem_generate : rng → option kem_dk * rng;
  kem_ek_bytes : kem_dk → option bytes;
  kem_ek_valid : bytes → bool;
  kem_encapsulate : bytes → rng → option (bytes * bytes) * rng;
  kem_decapsulate : kem_dk → bytes → option bytes;
  kem_ek_len : ∀ dk ek, kem_ek_bytes dk = Some ek → lengthN ek < 2 ^ 32;
  kem_ct_len : ∀ ek g ct ss g', kem_encapsulate ek g = (Some (ct, ss), g') → lengthN ct < 2 ^ 32;
  kem_agree : ∀ dk ek g ct ss g',
    kem_ek_bytes dk = Some ek → kem_encapsulate ek g = (Some (ct, ss), g') →
    kem_decapsulate dk ct = Some ss;
}.

(** The [hex] crate. *)
Class Hex := {
  hex_encode : bytes → string;
  hex_decode : string → option bytes;
  hex_encode_len : ∀ b, String.length (hex_encode b) = (2 * length b)%nat;
  hex_decode_encode : ∀ b, hex_decode (hex_encode b) = Some b;
  hex_encode_digits : ∀ b, Forall (λ c, c ∈ as_bytes "0123456789abcdef") (as_bytes (hex_encode b));
}.

(** [serde_json] at one type: [to_vec] and [from_slice]. *)
Class Serde (A : Type) := {
  to_vec : A → bytes;
  from_slice : bytes → option A;
  from_slice_to_vec : ∀ a, from_slice (to_vec a) = Some a;
}.

(** A struct or a tagged enum is written as a JSON object on one line of UTF-8:
    control characters inside strings are escaped. *)
Class JsonObject (A : Type) `{SE : Serde A} := {
  json_object : ∀ a, ∃ mid, to_vec a = x7b :: mid ++ [x7d] ∧ NL ∉ mid;
  json_utf8 : ∀ a, valid_utf8 (to_vec a) = true;
}.

Lemma to_vec_inj `{Serde A} (a b : A) : to_vec a = to_vec b → a = b.
Proof.
  intros E. apply (f_equal from_slice) in E. rewrite !from_slice_to_vec in E.
  congruence.
Qed.

Lemma hex_encode_inj `{Hex} a b : hex_encode a = hex_encode b → a = b.
Proof.
  intros E. apply (f_equal hex_decode) in E. rewrite !hex_decode_encode in E.
  congruence.
Qed.

(** A hash function restricted to finitely many inputs has no collision on
    them.  This is what "collision resistant" gives for the inputs one run of
    the program actually hashes; on all inputs it is false of every hash. *)
Definition coll_free (h : bytes → bytes) (inputs : list bytes) : Prop :=
  ∀ x y, x ∈ inputs → y ∈ inputs → h x = h y → x = y.

Lemma coll_free_mono h l k : l ⊆ k → coll_free h k → coll_free h l.
Proof. intros Hs Hc x y Hx Hy. apply Hc; by apply Hs. Qed.

(** Executable test of [coll_free]; every input is hashed once. *)
Definition coll_freeb (h : bytes → bytes) (inputs : list bytes) : bool :=
  let hs := (λ x, (h x, x)) <$> inputs in
  forallb (λ p, forallb (λ q,
    implb (bool_decide (p.1 = q.1)) (bool_decide (p.2 = q.2))) hs) hs.

Lemma coll_freeb_spec h l : coll_freeb h l = true → coll_free h l.
Proof.
  unfold coll_freeb, coll_free. rewrite forallb_forall. intros H x y Hx Hy E.
  assert ((h x, x) ∈ (λ x, (h x, x)) <$> l) as Hx' by (apply list_elem_of_fmap; eauto).
  assert ((h y, y) ∈ (λ x, (h x, x)) <$> l) as Hy' by (apply list_elem_of_fmap; eauto).
  apply list_elem_of_In in Hx', Hy'. specialize (H _ Hx').
  rewrite forallb_forall in H. specialize (H _ Hy'). simpl in H.
  rewrite (bool_decide_eq_true_2 _ E) in H. by apply bool_decide_eq_true in H.
Qed.
