(* ===== verification/Envelope.v ===== *)
(** Scheme identifiers, errors and the binary envelope of [secgit-crypto]
    ([ids.rs], [error.rs], [envelope.rs], [lib.rs]). *)

From S2P Require Import Prelude.

(** [error.rs] *)
Inductive CryptoError :=
| UnknownScheme (v : N)
| UnknownVersion (v : byte)
| Malformed (why : string)
| AuthFailed
| BadSignature
| KeyError (why : string)
| BackendError.

Module Kind.
Inductive t := Aead | WrappedKey | Signature.

Global Instance eq_dec : EqDecision t.
Proof. solve_decision. Defined.

(** [kind as u8], the [repr(u8)] discriminant. *)
Definition as_u8 (k : t) : byte :=
  match k with Aead => x01 | WrappedKey => x02 | Signature => x03 end.

Definition from_u8 (v : byte) : result CryptoError t :=
  match v with
  | x01 => Ok Aead
  | x02 => Ok WrappedKey
  | x03 => Ok Signature
  | _ => Err (Malformed "unknown artifact kind")
  end.
End Kind.

Module AeadScheme.
Inductive t := Aes256Gcm | ChaCha20Poly1305.
Definition as_u16 (s : t) : N := match s with Aes256Gcm => 1 | ChaCha20Poly1305 => 2 end.
Definition from_u16 (v : N) : result CryptoError t :=
  if v =? 1 then Ok Aes256Gcm
  else if v =? 2 then Ok ChaCha20Poly1305
  else Err (UnknownScheme v).
End AeadScheme.

Module KemScheme.
Inductive t := X25519MlKem768.
Definition as_u16 (s : t) : N := 1.
Definition from_u16 (v : N) : result CryptoError t :=
  if v =? 1 then Ok X25519MlKem768 else Err (UnknownScheme v).
End KemScheme.

Module SigScheme.
Inductive t := Ed25519MlDsa65 | Ed25519MlDsa87.
Definition as_u16 (s : t) : N := match s with Ed25519MlDsa65 => 1 | Ed25519MlDsa87 => 2 end.
Definition from_u16 (v : N) : result CryptoError t :=
  if v =? 1 then Ok Ed25519MlDsa65
  else if v =? 2 then Ok Ed25519MlDsa87
  else Err (UnknownScheme v).
End SigScheme.

Definition DEFAULT_AEAD : AeadScheme.t := AeadScheme.Aes256Gcm.
Definition DEFAULT_SIG : SigScheme.t := SigScheme.Ed25519MlDsa65.
Definition LONG_LIVED_SIG : SigScheme.t := SigScheme.Ed25519MlDsa87.

(** [Layout: MAGIC(4) | kind(1) | scheme(2 LE) | version(1) | body]. *)
Definition MAGIC : bytes := as_bytes "SGX1".
Definition HEADER_LEN : nat := 8.

Record Envelope := mkEnvelope {
  env_kind : Kind.t;
  env_scheme : N;
  env_version : byte;
  env_body : bytes;
}.

Definition encode (e : Envelope) : bytes :=
  MAGIC ++ [Kind.as_u8 (env_kind e)] ++ to_le_bytes 2 (env_scheme e)
  ++ [env_version e] ++ env_body e.

Definition decode (b : bytes) : result CryptoError Envelope :=
  if (length b <? HEADER_LEN)%nat then Err (Malformed "short envelope")
  else if negb (bool_decide (take 4 b = MAGIC)) then Err (Malformed "bad magic")
  else
    kind ← Kind.from_u8 (nth 4 b x00);
    Ok {| env_kind := kind;
          env_scheme := from_le_bytes [nth 5 b x00; nth 6 b x00];
          env_version := nth 7 b x00;
          env_body := drop HEADER_LEN b |}.

(** [scheme] is a [u16]. *)
Definition env_wf (e : Envelope) : Prop := env_scheme e < 2 ^ 16.

(** [lib.rs]: the agility header of an artifact. *)
Record ArtifactInfo := mkInfo { ai_kind : Kind.t; ai_scheme : N; ai_version : byte }.

Definition inspect (artifact : bytes) : result CryptoError ArtifactInfo :=
  env ← decode artifact;
  Ok {| ai_kind := env_kind env; ai_scheme := env_scheme env; ai_version := env_version env |}.

(** ** Length-prefixed framing: [Writer] and [Reader] *)

(** [Writer::lp32]: [b.len() as u32] keeps the low 32 bits. *)
Definition write_lp32 (b : bytes) : bytes := to_le_bytes 4 (lengthN b) ++ b.

Record Reader := mkReader { rd_buf : bytes; rd_pos : nat }.

Definition reader_new (b : bytes) : Reader := {| rd_buf := b; rd_pos := 0 |}.

Definition reader_take (n : nat) : eff Reader CryptoError bytes := λ r,
  if (length (rd_buf r) <? rd_pos r + n)%nat
  then (Err (Malformed "truncated body"), r)
  else (Ok (take n (drop (rd_pos r) (rd_buf r))),
        {| rd_buf := rd_buf r; rd_pos := rd_pos r + n |}).

Definition reader_u8 : eff Reader CryptoError byte :=
  s ← reader_take 1; mret (nth 0 s x00).

Definition reader_lp32 : eff Reader CryptoError bytes :=
  lb ← reader_take 4; reader_take (N.to_nat (from_le_bytes lb)).

Definition reader_rest : eff Reader CryptoError bytes := λ r,
  (Ok (drop (rd_pos r) (rd_buf r)), {| rd_buf := rd_buf r; rd_pos := length (rd_buf r) |}).

(** ** Envelope theory *)

Lemma kind_from_as k : Kind.from_u8 (Kind.as_u8 k) = Ok k.
Proof. by destruct k. Qed.

Lemma kind_as_from v k : Kind.from_u8 v = Ok k → Kind.as_u8 k = v.
Proof. by destruct v; intros [= <-]. Qed.

Lemma aead_scheme_from_as s : AeadScheme.from_u16 (AeadScheme.as_u16 s) = Ok s.
Proof. by destruct s. Qed.
Lemma sig_scheme_from_as s : SigScheme.from_u16 (SigScheme.as_u16 s) = Ok s.
Proof. by destruct s. Qed.
Lemma aead_scheme_as_from v s : AeadScheme.from_u16 v = Ok s → AeadScheme.as_u16 s = v.
Proof.
  unfold AeadScheme.from_u16.
  destruct (N.eqb_spec v 1), (N.eqb_spec v 2); intros [= <-]; simpl; congruence.
Qed.

Lemma decode_encode e : env_wf e → decode (encode e) = Ok e.
Proof.
  destruct e as [k s v body]. unfold env_wf, decode, encode, HEADER_LEN. simpl. intros Hs.
  rewrite kind_from_as. simpl. do 2 f_equal.
  rewrite !byte_of_N_spec, N.mul_0_r, N.add_0_r.
  rewrite (N.mod_small (s / 256)) by (apply N.Div0.div_lt_upper_bound; lia).
  rewrite N.add_comm. symmetry. apply N.div_mod. lia.
Qed.

Lemma encode_decode b e : decode b = Ok e → encode e = b ∧ env_wf e.
Proof.
  unfold decode, HEADER_LEN. destruct (Nat.ltb_spec (length b) 8) as [|Hlen]; [done|].
  do 8 (destruct b as [|? b]; [simpl in Hlen; lia|]). cbn [nth take].
  case_bool_decide as Hm; [|done]. cbn [negb].
  destruct (Kind.from_u8 _) as [k|] eqn:Hk; [|done].
  cbn [mbind result_mbind drop]. intros [= <-]. apply kind_as_from in Hk. split.
  - unfold encode. cbn [env_kind env_scheme env_version env_body].
    rewrite <-Hm, Hk.
    change (to_le_bytes 2 _) with (to_le_bytes 2 (from_le_bytes [b5; b6])).
    by rewrite (to_from_le_bytes [b5; b6] : to_le_bytes 2 _ = _).
  - apply (from_le_bytes_bound [b5; b6]).
Qed.

(** C5. The envelope codec is a bijection: decoding accepts exactly the
    encodings of envelopes with a 16-bit scheme, and returns the envelope that
    was encoded.  No two byte strings decode to the same artifact. *)
Theorem decode_iff_encode (b : bytes) (e : Envelope) :
  decode b = Ok e ↔ encode e = b ∧ env_wf e.
Proof.
  split; [apply encode_decode|]. intros [<- Hw]. by apply decode_encode.
Qed.

(** ** Reader theory *)

(** What a reader has not consumed yet. *)
Definition remaining (r : Reader) : bytes := drop (rd_pos r) (rd_buf r).

Definition reader_ok (r : Reader) : Prop := (rd_pos r ≤ length (rd_buf r))%nat.

Lemma reader_take_spec r x rest :
  reader_ok r → remaining r = x ++ rest →
  ∃ r', reader_take (length x) r = (Ok x, r') ∧ remaining r' = rest ∧ reader_ok r'.
Proof.
  unfold reader_ok, remaining, reader_take. intros Hr E.
  assert (length (rd_buf r) = rd_pos r + length x + length rest)%nat as Hlen.
  { apply (f_equal length) in E. rewrite length_drop, length_app in E. lia. }
  destruct (Nat.ltb_spec (length (rd_buf r)) (rd_pos r + length x)); [lia|].
  rewrite E, take_app_length. eexists; split; [done|]. simpl.
  rewrite <-drop_drop, E, drop_app_length. split; [done|lia].
Qed.

Lemma reader_lp32_spec r x rest :
  reader_ok r → lengthN x < 2 ^ 32 → remaining r = write_lp32 x ++ rest →
  ∃ r', reader_lp32 r = (Ok x, r') ∧ remaining r' = rest ∧ reader_ok r'.
Proof.
  unfold write_lp32. intros Hr Hx E. rewrite <-app_assoc in E.
  destruct (reader_take_spec r _ _ Hr E) as (r1 & H1 & E1 & Hr1).
  rewrite length_to_le_bytes in H1.
  destruct (reader_take_spec r1 _ _ Hr1 E1) as (r2 & H2 & E2 & Hr2).
  exists r2. split; [|done]. unfold reader_lp32, mbind, eff_mbind. rewrite H1.
  rewrite from_to_le_bytes, N.mod_small, Nat2N.id by done. done.
Qed.

Lemma reader_take_inv n r x r' :
  reader_ok r → reader_take n r = (Ok x, r') →
  length x = n ∧ remaining r = x ++ remaining r' ∧ reader_ok r'.
Proof.
  unfold reader_take, remaining, reader_ok. intros Hr.
  destruct (Nat.ltb_spec (length (rd_buf r)) (rd_pos r + n)); [done|].
  intros [= <- <-]. simpl. rewrite length_take, length_drop, <-drop_drop, take_drop.
  repeat split; lia.
Qed.

Lemma reader_lp32_inv r x r' :
  reader_ok r → reader_lp32 r = (Ok x, r') →
  remaining r = write_lp32 x ++ remaining r' ∧ lengthN x < 2 ^ 32 ∧ reader_ok r'.
Proof.
  intros Hr. unfold reader_lp32, mbind, eff_mbind.
  destruct (reader_take 4 r) as [[lb|] r1] eqn:E1; [|done]. intros E2.
  apply reader_take_inv in E1 as (L1 & R1 & O1); [|done].
  apply reader_take_inv in E2 as (L2 & R2 & O2); [|done].
  pose proof (from_le_bytes_bound lb) as Hb. rewrite L1 in Hb.
  change (256 ^ N.of_nat 4) with (2 ^ 32) in Hb.
  split; [|split; [lia|done]]. rewrite R1, R2. unfold write_lp32.
  rewrite <-app_assoc. f_equal. rewrite L2, N2Nat.id, <-L1. symmetry. apply to_from_le_bytes.
Qed.

Lemma reader_new_ok b : reader_ok (reader_new b) ∧ remaining (reader_new b) = b.
Proof. unfold reader_ok, remaining. simpl. split; [lia|done]. Qed.
