(* ===== verification/Toy.v ===== *)
(** Executable instances of the classes of [Backend].

    They are not cryptography: they only satisfy the documented laws, so that
    every theorem stated over the interfaces can be run at a concrete input. *)

From Stdlib Require Import Ascii.
From S2P Require Import Prelude Text Backend Envelope.

(** A polynomial hash into [k] bytes. *)
Definition poly_hash (k : nat) (d : bytes) : bytes :=
  to_le_bytes k (foldl (λ acc b, N.land (acc * 65599 + Byte.to_N b + 1) u64_max) 7 d).

Definition toy_digests : Digests := {|
  digest_sha256 := poly_hash 32;
  digest_sha384 := poly_hash 48;
  digest_sha512 := poly_hash 64;
  digest_sha256_len d := length_to_le_bytes 32 _;
  digest_sha384_len d := length_to_le_bytes 48 _;
  digest_sha512_len d := length_to_le_bytes 64 _;
|}.

Definition toy_hmacs : Hmacs := {|
  hmac_sign_sha1 k m := poly_hash 20 (k ++ x00 :: m);
  hmac_sign_sha256 k m := poly_hash 32 (k ++ x00 :: m);
  hmac_sign_sha384 k m := poly_hash 48 (k ++ x00 :: m);
  hmac_sign_sha1_len k m := length_to_le_bytes 20 _;
  hmac_sign_sha256_len k m := length_to_le_bytes 32 _;
  hmac_sign_sha384_len k m := length_to_le_bytes 48 _;
|}.

(** The generator's state is a counter. *)
Definition toy_rng : SystemRandom := {|
  rng := N;
  rng_fill n g := (Some (to_le_bytes n (g * 7919 + 104729)), g + 1);
  rng_fill_len n g b g' E :=
    match E in _ = r return (match r.1 with Some b => length b = n | None => True end) with
    | eq_refl => length_to_le_bytes n _
    end;
|}.

(** A cipher whose tag spells out algorithm, key, nonce and associated data. *)
Definition alg_byte (a : AeadAlg) : byte :=
  match a with AES_256_GCM => x01 | CHACHA20_POLY1305 => x02 end.

Definition lp_ok (b : bytes) : bool := lengthN b <? 2 ^ 32.

Definition toy_seal (a : AeadAlg) (k n d p : bytes) : option bytes :=
  if lp_ok p && lp_ok k && lp_ok n && lp_ok d
  then Some (write_lp32 p ++ alg_byte a :: write_lp32 k ++ write_lp32 n ++ write_lp32 d)
  else None.

Definition lp_head (c : bytes) : bytes :=
  take (N.to_nat (from_le_bytes (take 4 c))) (drop 4 c).

Definition toy_open (a : AeadAlg) (k n d c : bytes) : option bytes :=
  let p := lp_head c in
  if bool_decide (toy_seal a k n d p = Some c) then Some p else None.

Lemma lp_head_write p rest : lengthN p < 2 ^ 32 → lp_head (write_lp32 p ++ rest) = p.
Proof.
  intros Hp. unfold lp_head, write_lp32. rewrite <-app_assoc.
  destruct (drop_take_app (to_le_bytes 4 (lengthN p)) (p ++ rest) 4) as [-> ->];
    [apply length_to_le_bytes|].
  rewrite from_to_le_bytes, N.mod_small, Nat2N.id by done. apply take_app_length.
Qed.

Lemma write_lp32_inj p q rest rest' :
  lengthN p < 2 ^ 32 → lengthN q < 2 ^ 32 →
  write_lp32 p ++ rest = write_lp32 q ++ rest' → p = q ∧ rest = rest'.
Proof.
  intros Hp Hq E. assert (p = q) as ->.
  { rewrite <-(lp_head_write p rest Hp), E. by apply lp_head_write. }
  split; [done|]. by apply app_inv_head in E.
Qed.

Lemma toy_seal_Some a k n d p c :
  toy_seal a k n d p = Some c →
  lengthN p < 2 ^ 32 ∧ lengthN k < 2 ^ 32 ∧ lengthN n < 2 ^ 32 ∧ lengthN d < 2 ^ 32 ∧
  c = write_lp32 p ++ alg_byte a :: write_lp32 k ++ write_lp32 n ++ write_lp32 d.
Proof.
  unfold toy_seal, lp_ok. destruct (_ && _) eqn:E; [|done]. intros [= <-].
  rewrite !andb_true_iff, !N.ltb_lt in E. destruct E as [[[? ?] ?] ?]. auto.
Qed.

Lemma toy_open_seal a k n d p c : toy_seal a k n d p = Some c → toy_open a k n d c = Some p.
Proof.
  intros E. pose proof E as (Hp & _ & _ & _ & ->)%toy_seal_Some.
  unfold toy_open. rewrite lp_head_write by done. by rewrite bool_decide_eq_true_2.
Qed.

Lemma toy_seal_open a k n d p c : toy_open a k n d c = Some p → toy_seal a k n d p = Some c.
Proof. unfold toy_open. case_bool_decide; [|done]. by intros [= <-]. Qed.

(** The toy cipher rejects a ciphertext under any other key, nonce or
    associated data. *)
Lemma toy_seal_binds a k n d p a' k' n' d' p' c :
  toy_seal a k n d p = Some c → toy_seal a' k' n' d' p' = Some c →
  k = k' ∧ n = n' ∧ d = d' ∧ p = p'.
Proof.
  intros (Hp & Hk & Hn & Hd & ->)%toy_seal_Some (Hp' & Hk' & Hn' & Hd' & E)%toy_seal_Some.
  apply write_lp32_inj in E as [-> E]; [|done..].
  apply (f_equal (drop 1)) in E. cbn [drop] in E.
  apply write_lp32_inj in E as [-> E]; [|done..].
  apply write_lp32_inj in E as [-> E]; [|done..].
  rewrite <-(app_nil_r (write_lp32 d)), <-(app_nil_r (write_lp32 d')) in E.
  by apply write_lp32_inj in E as [-> _].
Qed.

Definition toy_aead : AeadBackend := {|
  seal_in_place_append_tag := toy_seal;
  open_in_place := toy_open;
  aead_open_seal := toy_open_seal;
  aead_seal_open := toy_seal_open;
|}.

(** Signatures: a keyed hash that the "public" key also computes. *)
Definition toy_mac (k m : bytes) : bytes := poly_hash 64 (k ++ x00 :: m).

Definition toy_ed25519 : Ed25519 := {|
  ed_keypair := bytes;
  ed_from_pkcs8 d := Some d;
  ed_public k := k;
  ed_sign := toy_mac;
  ed_verify k m s := bool_decide (s = toy_mac k m);
  ed_sign_len k m := length_to_le_bytes 64 _;
  ed_verify_sign k m := bool_decide_eq_true_2 _ eq_refl;
|}.

Lemma toy_ed_parses (d : bytes) : is_Some (ed_from_pkcs8 (Ed25519 := toy_ed25519) d).
Proof. by exists d. Qed.

Definition toy_ed25519_gen : @Ed25519Gen toy_ed25519 toy_rng := {|
  ed_generate_pkcs8 := rng_fill (SystemRandom := toy_rng) 32;
  ed_generate_parses g d g' E := toy_ed_parses d;
|}.

Lemma toy_mldsa_sound (a : MlDsaAlg) (seed k m s : bytes) :
  (if Nat.eqb (length seed) 32 then Some seed else None) = Some k →
  Some (toy_mac k m) = Some s → bool_decide (s = toy_mac k m) = true.
Proof. intros _ [= <-]. by apply bool_decide_eq_true_2. Qed.

Lemma toy_mldsa_len (k m s : bytes) : Some (toy_mac k m) = Some s → lengthN s < 2 ^ 32.
Proof. intros [= <-]. unfold toy_mac, poly_hash. by rewrite length_to_le_bytes. Qed.

Definition toy_mldsa : MlDsa := {|
  mldsa_keypair := bytes;
  mldsa_from_seed a seed := if Nat.eqb (length seed) 32 then Some seed else None;
  mldsa_public k := k;
  mldsa_sign k m := Some (toy_mac k m);
  mldsa_verify a k m s := bool_decide (s = toy_mac k m);
  mldsa_sign_len := toy_mldsa_len;
  mldsa_verify_sign := toy_mldsa_sound;
|}.

(** Key agreement by multiplication modulo [2^256]. *)
Definition toy_mul (a b : N) : bytes := to_le_bytes 32 (a * b).

Lemma toy_dh_agree a b :
  toy_mul (from_le_bytes a) (from_le_bytes (toy_mul (from_le_bytes b) 9)) =
  toy_mul (from_le_bytes b) (from_le_bytes (toy_mul (from_le_bytes a) 9)).
Proof.
  assert (∀ x y, to_le_bytes 32 x = to_le_bytes 32 y ↔ x mod 2 ^ 256 = y mod 2 ^ 256) as Hm.
  { intros x y. split; intros E.
    - apply (f_equal from_le_bytes) in E. by rewrite !from_to_le_bytes in E.
    - enough (to_le_bytes (length (to_le_bytes 32 x)) (from_le_bytes (to_le_bytes 32 x)) =
              to_le_bytes (length (to_le_bytes 32 y)) (from_le_bytes (to_le_bytes 32 y))) as E'
        by by rewrite !to_from_le_bytes in E'.
      rewrite !length_to_le_bytes, !from_to_le_bytes. f_equal. exact E. }
  unfold toy_mul. apply Hm. rewrite !from_to_le_bytes.
  change (256 ^ N.of_nat 32) with (2 ^ 256).
  rewrite !N.Div0.mul_mod_idemp_r. f_equal. lia.
Qed.

Definition toy_x25519 : X25519 := {|
  x_public s := toy_mul (from_le_bytes s) 9;
  x_dh a b := toy_mul (from_le_bytes a) (from_le_bytes b);
  x_public_len s := length_to_le_bytes 32 _;
  x_dh_agree := toy_dh_agree;
|}.

Definition toy_encapsulate (ek : bytes) (g : N) : option (bytes * bytes) * N :=
  let ct := to_le_bytes 32 g in (Some (ct, poly_hash 32 (ek ++ ct)), g + 1).

Lemma toy_kem_ct_len ek g ct ss g' :
  toy_encapsulate ek g = (Some (ct, ss), g') → lengthN ct < 2 ^ 32.
Proof. intros [= <- <- <-]. done. Qed.

Definition toy_ek_bytes (dk : bytes) : option bytes :=
  if lengthN dk <? 2 ^ 32 then Some dk else None.

Lemma toy_kem_ek_len dk ek : toy_ek_bytes dk = Some ek → lengthN ek < 2 ^ 32.
Proof. unfold toy_ek_bytes. destruct (N.ltb_spec (lengthN dk) (2 ^ 32)); [|done]. by intros [= <-]. Qed.

Lemma toy_kem_agree (dk ek : bytes) g ct ss g' :
  toy_ek_bytes dk = Some ek → toy_encapsulate ek g = (Some (ct, ss), g') →
  Some (poly_hash 32 (dk ++ ct)) = Some ss.
Proof.
  unfold toy_ek_bytes. destruct (_ <? _); [|done]. intros [= ->] E. unfold toy_encapsulate in E. congruence.
Qed.

Definition toy_mlkem : @MlKem toy_rng := {|
  kem_dk := bytes;
  kem_generate := rng_fill (SystemRandom := toy_rng) 48;
  kem_ek_bytes := toy_ek_bytes;
  kem_ek_valid ek := true;
  kem_encapsulate := toy_encapsulate : bytes → @rng toy_rng → _;
  kem_decapsulate dk ct := Some (poly_hash 32 (dk ++ ct));
  kem_ek_len := toy_kem_ek_len;
  kem_ct_len := toy_kem_ct_len;
  kem_agree := toy_kem_agree;
|}.

(** Lower-case hexadecimal. *)
Definition nibble (n : N) : Ascii.ascii := Ascii.ascii_of_N (if n <? 10 then 48 + n else 87 + n).

Definition unnibble (c : Ascii.ascii) : option N :=
  let n := Ascii.N_of_ascii c in
  if (48 <=? n) && (n <? 58) then Some (n - 48)
  else if (97 <=? n) && (n <? 103) then Some (n - 87) else None.

Fixpoint hex_enc (b : bytes) : string :=
  match b with
  | [] => ""
  | x :: b => String (nibble (Byte.to_N x / 16)) (String (nibble (Byte.to_N x mod 16)) (hex_enc b))
  end.

Fixpoint hex_dec (s : string) : option bytes :=
  match s with
  | EmptyString => Some []
  | String h (String l s) =>
      h ← unnibble h; l ← unnibble l; r ← hex_dec s; Some (byte_of_N (16 * h + l) :: r)
  | _ => None
  end.

Lemma unnibble_nibble x :
  unnibble (nibble (Byte.to_N x / 16)) = Some (Byte.to_N x / 16) ∧
  unnibble (nibble (Byte.to_N x mod 16)) = Some (Byte.to_N x mod 16).
Proof. by destruct x. Qed.

Lemma hex_dec_enc b : hex_dec (hex_enc b) = Some b.
Proof.
  induction b as [|x b IH]; [done|]. cbn [hex_enc hex_dec].
  destruct (unnibble_nibble x) as [-> ->]. simpl. rewrite IH. simpl.
  rewrite <-N.div_mod by lia. by rewrite byte_of_to_N.
Qed.

Lemma hex_enc_len b : String.length (hex_enc b) = (2 * length b)%nat.
Proof. induction b as [|x b IH]; [done|]. simpl. rewrite IH. lia. Qed.

Lemma nibble_digit x :
  Forall (λ c, c ∈ as_bytes "0123456789abcdef")
    [byte_of_ascii (nibble (Byte.to_N x / 16)); byte_of_ascii (nibble (Byte.to_N x mod 16))].
Proof. by destruct x; vm_decide. Qed.

Lemma hex_enc_digits b :
  Forall (λ c, c ∈ as_bytes "0123456789abcdef") (as_bytes (hex_enc b)).
Proof.
  induction b as [|x b IH]; [constructor|].
  change (as_bytes (hex_enc (x :: b))) with
    ([byte_of_ascii (nibble (Byte.to_N x / 16)); byte_of_ascii (nibble (Byte.to_N x mod 16))]
     ++ as_bytes (hex_enc b)).
  apply Forall_app. split; [apply nibble_digit|done].
Qed.

Definition toy_hex : Hex := {|
  hex_encode := hex_enc;
  hex_decode := hex_dec;
  hex_encode_len := hex_enc_len;
  hex_decode_encode := hex_dec_enc;
  hex_encode_digits := hex_enc_digits;
|}.

(** A serializer for any countable type: the bits of its code. *)
Fixpoint pos_bytes (p : positive) : bytes :=
  match p with xH => [] | xO p => x00 :: pos_bytes p | xI p => x01 :: pos_bytes p end.

Fixpoint bytes_pos (b : bytes) : positive :=
  match b with
  | [] => xH
  | x00 :: b => xO (bytes_pos b)
  | _ :: b => xI (bytes_pos b)
  end.

Lemma bytes_pos_bytes p : bytes_pos (pos_bytes p) = p.
Proof. induction p; simpl; congruence. Qed.

Program Definition toy_serde A `{Countable A} : Serde A := {|
  to_vec a := pos_bytes (countable.encode a);
  from_slice b := countable.decode (bytes_pos b);
|}.
Next Obligation. intros. simpl. by rewrite bytes_pos_bytes, countable.decode_encode. Qed.

(** A serializer that writes an object on one line: the bits as digits. *)
Fixpoint pos_digits (p : positive) : bytes :=
  match p with xH => [] | xO p => x30 :: pos_digits p | xI p => x31 :: pos_digits p end.

Fixpoint digits_pos (b : bytes) : positive :=
  match b with
  | x30 :: b => xO (digits_pos b)
  | x31 :: b => xI (digits_pos b)
  | _ => xH
  end.

Lemma digits_pos_digits p rest : digits_pos (pos_digits p ++ x7d :: rest) = p.
Proof. induction p; simpl; congruence. Qed.

Definition toy_json_parse A `{Countable A} (b : bytes) : option A :=
  match b with x7b :: b => countable.decode (digits_pos b) | _ => None end.

Lemma toy_json_parse_print A `{Countable A} (a : A) :
  toy_json_parse A (x7b :: pos_digits (countable.encode a) ++ [x7d]) = Some a.
Proof. unfold toy_json_parse. by rewrite (digits_pos_digits _ []), countable.decode_encode. Qed.

Definition toy_json_serde A `{Countable A} : Serde A := {|
  to_vec a := x7b :: pos_digits (countable.encode a) ++ [x7d];
  from_slice := toy_json_parse A;
  from_slice_to_vec := toy_json_parse_print A;
|}.

Lemma pos_digits_digit p : Forall (λ b, b = x30 ∨ b = x31) (pos_digits p).
Proof. induction p; simpl; auto. Qed.

Lemma toy_json_object A `{Countable A} : @JsonObject A (toy_json_serde A).
Proof.
  split; simpl; intros a; pose proof (pos_digits_digit (countable.encode a)) as Hd.
  - eexists. split; [done|]. intros Hin. rewrite Forall_forall in Hd.
    by destruct (Hd _ Hin).
  - apply valid_utf8_ascii. constructor; [done|]. apply Forall_app. split; [|by constructor].
    eapply Forall_impl; [done|]. by intros ? [->| ->].
Qed.
