(* ===== verification/Primitives.v ===== *)
(** [crates/secgit-crypto/src/primitives.rs]: randomness, digests, HKDF, HMAC
    and constant-time comparison. *)

From S2P Require Import Prelude Backend Toy Envelope.

Section primitives.
Context `{RND : SystemRandom} `{DIG : Digests} `{MAC : Hmacs}.

(** Fill a buffer of [n] bytes. *)
Definition random_bytes (n : nat) : eff rng CryptoError bytes := λ g,
  match rng_fill n g with
  | (Some b, g') => (Ok b, g')
  | (None, g') => (Err BackendError, g')
  end.

Definition random_vec (len : nat) : eff rng CryptoError bytes := random_bytes len.

Definition sha256 (data : bytes) : bytes := digest_sha256 data.
Definition sha384 (data : bytes) : bytes := digest_sha384 data.
Definition hmac_sha256 (key data : bytes) : bytes := hmac_sign_sha256 key data.

(** [while out.len() < out_len { ... }]: [counter.checked_add(1)] runs after
    the block is appended. *)
Fixpoint hkdf_expand (fuel : nat) (prk info : bytes) (out_len : N)
    (out prev : bytes) (counter : N) : result CryptoError bytes :=
  match fuel with
  | O => Err BackendError
  | S fuel =>
      if lengthN out <? out_len then
        let prev := hmac_sign_sha384 prk (prev ++ info ++ [byte_of_N counter]) in
        let out := out ++ prev in
        if counter =? u8_max then Err BackendError
        else hkdf_expand fuel prk info out_len out prev (counter + 1)
      else Ok out
  end.

(** 256 rounds: the counter overflows in the 255th. *)
Definition hkdf_sha384 (ikm salt info : bytes) (out_len : N) : result CryptoError bytes :=
  let prk := hmac_sign_sha384 salt ikm in
  out ← hkdf_expand 256 prk info out_len [] [] 1;
  Ok (take (N.to_nat out_len) out).

(** [diff |= x ^ y] over the zipped slices. *)
Definition ct_eq (a b : bytes) : bool :=
  if negb (Nat.eqb (length a) (length b)) then false
  else foldl (λ diff p, N.lor diff (N.lxor (Byte.to_N p.1) (Byte.to_N p.2))) 0 (zip a b) =? 0.

(** ** Theory *)

Lemma foldl_lor_zero (ps : list (byte * byte)) d :
  foldl (λ diff p, N.lor diff (N.lxor (Byte.to_N p.1) (Byte.to_N p.2))) d ps = 0 ↔
  d = 0 ∧ Forall (λ p, p.1 = p.2) ps.
Proof.
  revert d. induction ps as [|[x y] ps IH]; intros d; simpl.
  - split; [intros ->; auto|by intros [-> _]].
  - rewrite IH, N.lor_eq_0_iff, N.lxor_eq_0_iff, Forall_cons. simpl.
    split; [intros [[-> E] ?]; auto using byte_to_N_inj|].
    intros (-> & -> & Hps). auto.
Qed.

Lemma ct_eq_true a b : ct_eq a b = true ↔ a = b.
Proof.
  unfold ct_eq. destruct (Nat.eqb_spec (length a) (length b)) as [E|Hne]; simpl.
  - rewrite N.eqb_eq, foldl_lor_zero. split; [|intros ->].
    + intros [_ Hz]. revert b E Hz. induction a as [|x a IH]; intros [|y b]; try done.
      simpl. intros [= E] [Hxy Hz]%Forall_cons. simpl in Hxy. subst y.
      f_equal. by apply IH.
    + split; [done|]. clear E. induction b; simpl; constructor; auto.
  - split; [done|]. by intros ->.
Qed.

Lemma ct_eq_refl a : ct_eq a a = true.
Proof. by apply ct_eq_true. Qed.

(** Blocks produced so far and the counter advance together. *)
Lemma hkdf_expand_spec fuel prk info L out prev c :
  lengthN out = 48 * (c - 1) → 1 ≤ c → c ≤ 255 → 256 ≤ c + N.of_nat fuel →
  (L ≤ 48 * 254 ∨ L ≤ lengthN out →
   ∃ r, hkdf_expand fuel prk info L out prev c = Ok r ∧ L ≤ lengthN r) ∧
  (48 * 254 < L → lengthN out < L →
   hkdf_expand fuel prk info L out prev c = Err BackendError).
Proof.
  revert out prev c. induction fuel as [|fuel IH]; intros out prev c Hlen H1 H2 Hf; [lia|].
  cbn [hkdf_expand]. destruct (N.ltb_spec (lengthN out) L) as [Hlt|Hge];
    [|split; [eauto|lia]].
  destruct (N.eqb_spec c u8_max) as [->|Hne]; unfold u8_max in *.
  { change (2 ^ 8 - 1) with 255 in *. split; [lia|done]. }
  change (2 ^ 8 - 1) with 255 in *. set (prev' := hmac_sign_sha384 _ _).
  assert (lengthN (out ++ prev') = 48 * (c + 1 - 1)) as Hl'.
  { rewrite length_app. unfold prev'. rewrite hmac_sign_sha384_len. lia. }
  destruct (IH (out ++ prev') prev' (c + 1) Hl') as [IHa IHb]; [lia..|].
  split; [intros; apply IHa|intros; apply IHb]; lia.
Qed.

Lemma hkdf_sha384_ok ikm salt info out_len :
  out_len ≤ 48 * 254 →
  ∃ k, hkdf_sha384 ikm salt info out_len = Ok k ∧ lengthN k = out_len.
Proof.
  intros Hle. unfold hkdf_sha384.
  destruct (hkdf_expand_spec 256 (hmac_sign_sha384 salt ikm) info out_len [] [] 1)
    as [Ha _]; [done|lia..|].
  destruct Ha as (r & -> & Hr); [by left|]. eexists; split; [done|].
  len_lia.
Qed.

(** HKDF returns exactly [out_len] bytes up to 254 blocks, and refuses
    anything longer: the counter overflow check fires after the 255th block has
    been produced, one block short of the 255 that RFC 5869 allows. *)
Lemma hkdf_sha384_bounds (ikm salt info : bytes) (out_len : N) :
  if out_len <=? 48 * 254
  then ∃ k, hkdf_sha384 ikm salt info out_len = Ok k ∧ lengthN k = out_len
  else hkdf_sha384 ikm salt info out_len = Err BackendError.
Proof.
  destruct (N.leb_spec out_len (48 * 254)) as [Hle|Hgt].
  - by apply hkdf_sha384_ok.
  - unfold hkdf_sha384.
    destruct (hkdf_expand_spec 256 (hmac_sign_sha384 salt ikm) info out_len [] [] 1)
      as [_ Hb]; [done|lia..|].
    rewrite Hb; [done|done|]. simpl. lia.
Qed.
End primitives.
