(* ===== verification/Merkle.v ===== *)
(** The RFC 6962 Merkle tree of [crates/secgit-audit/src/merkle.rs].

    The tree functions take the node-combining function as an argument: the
    program uses them at [node_hash]; run on pairs of a hash and the list of
    inputs hashed so far they list what a run hashes, which is what the
    soundness theorems assume to be free of collisions. *)

From S2P Require Import Prelude Backend Primitives.

(** [usize] is 64 bits wide: [k << 1] drops the top bit. *)
Definition shl64 (k i : N) : N := N.shiftl k i mod 2 ^ 64.

(** [while k << 1 < n { k <<= 1; }]; [None] when the fuel runs out. *)
Fixpoint pow2_loop (fuel : nat) (n k : N) : option N :=
  match fuel with
  | O => None
  | S fuel => if shl64 k 1 <? n then pow2_loop fuel n (shl64 k 1) else Some k
  end.

Definition largest_pow2_lt (n : N) : N := default 1 (pow2_loop 64 n 1).

(** [x.count_ones()]. *)
Fixpoint count_ones_pos (p : positive) : N :=
  match p with
  | xH => 1
  | xO p => count_ones_pos p
  | xI p => 1 + count_ones_pos p
  end.
Definition count_ones (n : N) : N :=
  match n with N0 => 0 | Npos p => count_ones_pos p end.

(** [(usize::BITS - x.leading_zeros())] is the bit length [N.size]. *)
Definition inner_proof_size (index size : N) : N :=
  N.size (N.lxor index (size - 1)).

Section tree.
Context {T : Type} (nh : T → T → T) (empty : T).

Definition split_at (leaves : list T) : nat :=
  N.to_nat (largest_pow2_lt (lengthN leaves)).

Fixpoint root_fuel (fuel : nat) (leaves : list T) : T :=
  match leaves, fuel with
  | [], _ => empty
  | [h], _ => h
  | _, O => empty
  | _, S fuel =>
      let k := split_at leaves in
      nh (root_fuel fuel (take k leaves)) (root_fuel fuel (drop k leaves))
  end.

(** Each level splits off at least one leaf, so the length is fuel enough. *)
Definition root_with (leaves : list T) : T := root_fuel (length leaves) leaves.

Fixpoint inclusion_proof_fuel (fuel : nat) (leaves : list T) (m : N) : list T :=
  match fuel with
  | O => []
  | S fuel =>
      if lengthN leaves =? 1 then []
      else
        let k := largest_pow2_lt (lengthN leaves) in
        let kn := N.to_nat k in
        if m <? k
        then inclusion_proof_fuel fuel (take kn leaves) m
             ++ [root_with (drop kn leaves)]
        else inclusion_proof_fuel fuel (drop kn leaves) (m - k)
             ++ [root_with (take kn leaves)]
  end.

(** [assert!(m < n)] is a panic, [None]. *)
Definition inclusion_proof_with (leaves : list T) (m : N) : option (list T) :=
  if m <? lengthN leaves
  then Some (inclusion_proof_fuel (length leaves) leaves m) else None.

(** The loop over [proof[..inner].iter().enumerate()], from index [i]. *)
Fixpoint fold_inner (m i : N) (ps : list T) (acc : T) : T :=
  match ps with
  | [] => acc
  | p :: ps =>
      fold_inner m (i + 1) ps
        (if N.land (N.shiftr m i) 1 =? 0 then nh acc p else nh p acc)
  end.

(** The loop over [proof[inner..]]. *)
Fixpoint fold_border (ps : list T) (acc : T) : T :=
  match ps with
  | [] => acc
  | p :: ps => fold_border ps (nh p acc)
  end.

(** What [verify_inclusion] compares with the expected root; [None] when it
    has already returned [false]. *)
Definition recompute (leaf : T) (m n : N) (proof : list T) : option T :=
  if n <=? m then None
  else
    let inner := inner_proof_size m n in
    let border := count_ones (N.shiftr m inner) in
    if negb (lengthN proof =? inner + border) then None
    else
      let i := N.to_nat inner in
      Some (fold_border (drop i proof) (fold_inner m 0 (take i proof) leaf)).

Fixpoint subproof_fuel (fuel : nat) (m : N) (leaves : list T) (b : bool) : list T :=
  match fuel with
  | O => []
  | S fuel =>
      if m =? lengthN leaves then (if b then [] else [root_with leaves])
      else
        let k := largest_pow2_lt (lengthN leaves) in
        let kn := N.to_nat k in
        if m <=? k
        then subproof_fuel fuel m (take kn leaves) b ++ [root_with (drop kn leaves)]
        else subproof_fuel fuel (m - k) (drop kn leaves) false
             ++ [root_with (take kn leaves)]
  end.

Definition subproof (m : N) (leaves : list T) (b : bool) : list T :=
  subproof_fuel (length leaves) m leaves b.

(** [assert!(m <= n && m > 0)]. *)
Definition consistency_proof_with (leaves : list T) (m : N) : option (list T) :=
  if (m <=? lengthN leaves) && (0 <? m) then Some (subproof m leaves true) else None.

(** [while node % 2 == 1 { node /= 2; last /= 2; }]. *)
Fixpoint strip (fuel : nat) (node last : N) : N * N :=
  match fuel with
  | O => (node, last)
  | S fuel => if N.odd node then strip fuel (node / 2) (last / 2) else (node, last)
  end.

(** [while last > 0 { ... sr = node_hash(&sr, p); last /= 2; }]; [None] is the
    early [return false] on an exhausted iterator. *)
Fixpoint climb (fuel : nat) (last : N) (it : list T) (sr : T) : option (T * list T) :=
  match fuel with
  | O => None
  | S fuel =>
      if last =? 0 then Some (sr, it)
      else match it with
           | [] => None
           | p :: it => climb fuel (last / 2) it (nh sr p)
           end
  end.

(** [while node > 0 { ... }] followed by the loop on [last]. *)
Fixpoint ascend (fuel : nat) (node last : N) (it : list T) (fr sr : T)
    : option (T * T * list T) :=
  match fuel with
  | O => None
  | S fuel =>
      if node =? 0 then
        '(sr, it) ← climb (S fuel) last it sr; Some (fr, sr, it)
      else if N.odd node then
        match it with
        | [] => None
        | p :: it => ascend fuel (node / 2) (last / 2) it (nh p fr) (nh p sr)
        end
      else if node <? last then
        match it with
        | [] => None
        | p :: it => ascend fuel (node / 2) (last / 2) it fr (nh sr p)
        end
      else ascend fuel (node / 2) (last / 2) it fr sr
  end.

(** 65 rounds: 64 halvings bring any [u64] to zero, one more sees it. *)
Definition loop_fuel : nat := 65.

(** The body of [verify_consistency] for [0 < m < n], up to the final
    comparison: the two recomputed roots and what is left of the iterator. *)
Definition recompute_consistency (m n : N) (proof : list T) (root_m : T)
    : option (T * T * list T) :=
  let '(node, last) := strip loop_fuel (m - 1) (n - 1) in
  if 0 <? node then
    match proof with
    | [] => None
    | first :: it => ascend loop_fuel node last it first first
    end
  else ascend loop_fuel node last proof root_m root_m.
End tree.

Section merkle.
Context `{DIG : Digests}.

Definition leaf_hash (data : bytes) : bytes := sha256 (x00 :: data).

Definition node_input (l r : bytes) : bytes := x01 :: l ++ r.
Definition node_hash (l r : bytes) : bytes := sha256 (node_input l r).

Definition root (leaves : list bytes) : bytes := root_with node_hash (sha256 []) leaves.

Definition inclusion_proof (leaves : list bytes) (m : N) : option (list bytes) :=
  inclusion_proof_with node_hash (sha256 []) leaves m.

Definition verify_inclusion (leaf : bytes) (m n : N) (proof : list bytes)
    (expected_root : bytes) : bool :=
  match recompute node_hash leaf m n proof with
  | None => false
  | Some acc => bool_decide (acc = expected_root)
  end.

Definition consistency_proof (leaves : list bytes) (m : N) : option (list bytes) :=
  consistency_proof_with node_hash (sha256 []) leaves m.

Definition verify_consistency (m n : N) (proof : list bytes) (root_m root_n : bytes) : bool :=
  if (m =? 0) || (n <? m) then false
  else if m =? n then bool_decide (proof = []) && bool_decide (root_m = root_n)
  else
    match recompute_consistency node_hash m n proof root_m with
    | None => false
    | Some (fr, sr, it) =>
        bool_decide (it = []) && bool_decide (fr = root_m) && bool_decide (sr = root_n)
    end.
End merkle.
