(* ===== verification/MerkleTheory.v ===== *)
(** Completeness and soundness of the Merkle proofs of [Merkle]. *)

From S2P Require Import Prelude Backend Toy Primitives Merkle.

(** ** The split point *)

Lemma pow2_lt_63 j n : 2 ^ j < n → n ≤ 2 ^ 63 → j < 63.
Proof.
  intros H1 H2. apply (N.pow_lt_mono_r_iff 2); [lia|].
  eapply N.lt_le_trans; eauto.
Qed.

Lemma shl64_pow2 j : j < 63 → shl64 (2 ^ j) 1 = 2 ^ (j + 1).
Proof.
  intros Hj. unfold shl64. rewrite N.shiftl_mul_pow2, <-N.pow_add_r.
  apply N.mod_small, N.pow_lt_mono_r; lia.
Qed.

Lemma pow2_loop_spec fuel n j :
  2 ^ j < n → n ≤ 2 ^ 63 → 63 ≤ j + N.of_nat fuel →
  ∃ j', pow2_loop fuel n (2 ^ j) = Some (2 ^ j') ∧ 2 ^ j' < n ∧ n ≤ 2 ^ (j' + 1).
Proof.
  revert j. induction fuel as [|fuel IH]; intros j H1 H2 H3.
  - pose proof (pow2_lt_63 _ _ H1 H2); lia.
  - pose proof (pow2_lt_63 _ _ H1 H2) as Hj. simpl.
    rewrite shl64_pow2 by done.
    destruct (N.ltb_spec (2 ^ (j + 1)) n) as [Hlt|Hge].
    + apply IH; [done|done|lia].
    + exists j. auto.
Qed.

Lemma largest_pow2_lt_spec n :
  2 ≤ n → n ≤ 2 ^ 63 →
  ∃ j, largest_pow2_lt n = 2 ^ j ∧ 2 ^ j < n ∧ n ≤ 2 ^ (j + 1).
Proof.
  intros H1 H2.
  destruct (pow2_loop_spec 64 n 0) as (j & E & Hlt & Hle); [simpl; lia..|].
  exists j. unfold largest_pow2_lt. change 1 with (2 ^ 0) at 2. by rewrite E.
Qed.

Lemma largest_pow2_lt_unique n j :
  2 ≤ n → n ≤ 2 ^ 63 → 2 ^ j < n → n ≤ 2 ^ (j + 1) → largest_pow2_lt n = 2 ^ j.
Proof.
  intros H1 H2 H3 H4.
  destruct (largest_pow2_lt_spec n H1 H2) as (i & -> & Hi1 & Hi2).
  assert (2 ^ i < 2 ^ (j + 1)) as A by lia.
  assert (2 ^ j < 2 ^ (i + 1)) as B by lia.
  apply N.pow_lt_mono_r_iff in A, B; [|lia..]. f_equal. lia.
Qed.

Section split.
Context {T : Type}.
Implicit Types l : list T.

(** The lengths a Rust slice can have keep the loop inside its width. *)
Definition fits l : Prop := lengthN l ≤ 2 ^ 63.

Lemma split_at_spec l :
  (2 ≤ length l)%nat → fits l →
  ∃ j, largest_pow2_lt (lengthN l) = 2 ^ j ∧
       split_at l = N.to_nat (2 ^ j) ∧
       2 ^ j < lengthN l ∧ lengthN l ≤ 2 ^ (j + 1) ∧
       length (take (split_at l) l) = N.to_nat (2 ^ j) ∧
       length (drop (split_at l) l) = (length l - N.to_nat (2 ^ j))%nat.
Proof.
  intros H1 H2. unfold fits in H2.
  destruct (largest_pow2_lt_spec (lengthN l)) as (j & E & Hlt & Hle); [lia..|].
  exists j. unfold split_at. rewrite E, length_take, length_drop.
  repeat split; auto; lia.
Qed.

Lemma split_at_bounds l :
  (2 ≤ length l)%nat → fits l → (0 < split_at l < length l)%nat.
Proof.
  intros H1 H2. destruct (split_at_spec l H1 H2) as (j & _ & -> & Hlt & _).
  assert (2 ^ j ≠ 0) by (apply N.pow_nonzero; lia). lia.
Qed.

Lemma fits_take l k : fits l → fits (take k l).
Proof. unfold fits. len_lia. Qed.
Lemma fits_drop l k : fits l → fits (drop k l).
Proof. unfold fits. len_lia. Qed.
#[local] Hint Resolve fits_take fits_drop : secgit.

(** Induction along the splits of the tree. *)
Lemma split_ind (P : list T → Prop) :
  P [] → (∀ x, P [x]) →
  (∀ l, (2 ≤ length l)%nat → fits l →
        P (take (split_at l) l) → P (drop (split_at l) l) → P l) →
  ∀ l, fits l → P l.
Proof.
  intros H0 H1 Hs l. remember (length l) as n eqn:En. revert l En.
  induction n as [n IH] using lt_wf_ind; intros l -> Hf.
  destruct l as [|x [|y l]]; [done|done|].
  pose proof (split_at_bounds (x :: y :: l) ltac:(simpl; lia) Hf) as Hb.
  apply Hs; [simpl; lia|done|..].
  - eapply IH; [|done|by apply fits_take]. len_lia.
  - eapply IH; [|done|by apply fits_drop]. rewrite length_drop. simpl in *. lia.
Qed.
End split.

#[export] Hint Resolve fits_take fits_drop : secgit.

(** ** The tree functions follow the splits *)

Section equations.
Context {T : Type} (nh : T → T → T) (empty : T).
Implicit Types l : list T.

Lemma root_fuel_step fuel l :
  (2 ≤ length l)%nat →
  root_fuel nh empty (S fuel) l =
  nh (root_fuel nh empty fuel (take (split_at l) l))
     (root_fuel nh empty fuel (drop (split_at l) l)).
Proof. destruct l as [|x [|y l]]; simpl; [lia..|done]. Qed.

Lemma root_fuel_enough fuel1 fuel2 l :
  fits l → (length l ≤ fuel1)%nat → (length l ≤ fuel2)%nat →
  root_fuel nh empty fuel1 l = root_fuel nh empty fuel2 l.
Proof.
  revert fuel2 l. induction fuel1 as [|f1 IH]; intros f2 l Hf H1 H2.
  { destruct l; [by destruct f2|simpl in H1; lia]. }
  destruct (decide (2 ≤ length l)%nat) as [Hl|Hl].
  - pose proof (split_at_bounds l Hl Hf) as Hb.
    destruct f2 as [|f2]; [lia|]. rewrite !root_fuel_step by done.
    f_equal; apply IH; auto with secgit;
      len_lia.
  - destruct l as [|x [|y l]], f2; simpl in *; try done; lia.
Qed.

Lemma root_with_split l :
  (2 ≤ length l)%nat → fits l →
  root_with nh empty l =
  nh (root_with nh empty (take (split_at l) l)) (root_with nh empty (drop (split_at l) l)).
Proof.
  intros H1 H2. pose proof (split_at_bounds l H1 H2) as Hb.
  unfold root_with at 1. rewrite (root_fuel_enough _ (S (length l))) by (auto; lia).
  rewrite root_fuel_step by done.
  f_equal; apply root_fuel_enough; auto with secgit;
    len_lia.
Qed.

Lemma inclusion_fuel_enough fuel1 fuel2 l m :
  fits l → (0 < length l)%nat → (length l ≤ fuel1)%nat → (length l ≤ fuel2)%nat →
  inclusion_proof_fuel nh empty fuel1 l m = inclusion_proof_fuel nh empty fuel2 l m.
Proof.
  revert fuel2 l m. induction fuel1 as [|f1 IH]; intros [|f2] l m Hf H0 H1 H2; try lia.
  cbn [inclusion_proof_fuel]. destruct (N.eqb_spec (lengthN l) 1) as [|Hne]; [done|].
  pose proof (split_at_bounds l ltac:(lia) Hf) as Hb. unfold split_at in Hb.
  destruct (m <? _); f_equal; apply IH; auto with secgit;
    len_lia.
Qed.

Lemma inclusion_proof_split l m :
  (2 ≤ length l)%nat → fits l → m < lengthN l →
  let k := largest_pow2_lt (lengthN l) in
  inclusion_proof_fuel nh empty (length l) l m =
  if m <? k
  then inclusion_proof_fuel nh empty (length (take (split_at l) l)) (take (split_at l) l) m
       ++ [root_with nh empty (drop (split_at l) l)]
  else inclusion_proof_fuel nh empty (length (drop (split_at l) l)) (drop (split_at l) l) (m - k)
       ++ [root_with nh empty (take (split_at l) l)].
Proof.
  intros H1 H2 Hm k. pose proof (split_at_bounds l H1 H2) as Hb.
  destruct (length l) as [|n] eqn:En; [lia|]. cbn [inclusion_proof_fuel].
  rewrite En. destruct (N.eqb_spec (N.of_nat (S n)) 1); [lia|].
  fold k. unfold split_at in *. rewrite En in *. fold k in Hb |- *.
  destruct (m <? k); f_equal; apply inclusion_fuel_enough;
    auto with secgit; len_lia.
Qed.

Lemma subproof_fuel_enough fuel1 fuel2 l m b :
  fits l → 0 < m → m ≤ lengthN l → (length l ≤ fuel1)%nat → (length l ≤ fuel2)%nat →
  subproof_fuel nh empty fuel1 m l b = subproof_fuel nh empty fuel2 m l b.
Proof.
  revert fuel2 l m b. induction fuel1 as [|f1 IH]; intros [|f2] l m b Hf H0 Hm H1 H2; try lia.
  cbn [subproof_fuel]. destruct (N.eqb_spec m (lengthN l)) as [|Hne]; [done|].
  destruct (split_at_spec l ltac:(lia) Hf) as (j & Ek & Es & Hlt & Hle & Ht & Hd).
  unfold split_at in *. rewrite Ek in *.
  destruct (N.leb_spec m (2 ^ j)); f_equal; apply IH; auto with secgit;
    rewrite ?Ht, ?Hd; lia.
Qed.

Lemma subproof_split l m b :
  (2 ≤ length l)%nat → fits l → 0 < m → m < lengthN l →
  let k := largest_pow2_lt (lengthN l) in
  subproof nh empty m l b =
  if m <=? k
  then subproof nh empty m (take (split_at l) l) b ++ [root_with nh empty (drop (split_at l) l)]
  else subproof nh empty (m - k) (drop (split_at l) l) false
       ++ [root_with nh empty (take (split_at l) l)].
Proof.
  intros H1 H2 H0 Hm k.
  destruct (split_at_spec l ltac:(lia) H2) as (j & Ek & Es & Hlt & Hle & Ht & Hd).
  unfold subproof at 1. destruct (length l) as [|n] eqn:En; [lia|].
  cbn [subproof_fuel]. rewrite En. destruct (N.eqb_spec m (N.of_nat (S n))); [lia|].
  unfold split_at in *. rewrite En in *. subst k. rewrite Ek in *.
  destruct (N.leb_spec m (2 ^ j)); f_equal; apply subproof_fuel_enough;
    auto with secgit; rewrite ?Ht, ?Hd; lia.
Qed.
End equations.

(** ** Bit arithmetic of the inclusion verifier *)

Lemma bit_test m i : (N.land (N.shiftr m i) 1 =? 0) = negb (N.testbit m i).
Proof.
  change 1 with (N.ones 1). rewrite N.land_ones.
  change (2 ^ 1) with 2. rewrite <-N.bit0_mod, N.shiftr_spec', N.add_0_l.
  by destruct (N.testbit m i).
Qed.

Lemma testbit_pow2_add j a i :
  a < 2 ^ j → N.testbit (2 ^ j + a) i = if i =? j then true else N.testbit a i.
Proof.
  intros Ha.
  assert (N.land (2 ^ j) a = 0) as Hl.
  { apply N.bits_inj_0. intros n. rewrite N.land_spec, N.pow2_bits_eqb.
    destruct (N.eqb_spec j n) as [<-|]; [|done]. simpl.
    destruct (N.eq_dec a 0) as [->|]; [by rewrite N.bits_0|].
    apply N.bits_above_log2. by apply N.log2_lt_pow2; [lia|]. }
  rewrite N.add_nocarry_lxor, N.lxor_spec, N.pow2_bits_eqb by done.
  rewrite (N.eqb_sym j i). destruct (N.eqb_spec i j) as [->|].
  - assert (N.testbit a j = false) as ->; [|done].
    destruct (N.eq_dec a 0) as [->|]; [by rewrite N.bits_0|].
    apply N.bits_above_log2. by apply N.log2_lt_pow2; [lia|].
  - by destruct (N.testbit a i).
Qed.

Lemma testbit_lt_pow2 j a i : a < 2 ^ j → j ≤ i → N.testbit a i = false.
Proof.
  intros Ha Hi. destruct (N.eq_dec a 0) as [->|]; [by rewrite N.bits_0|].
  apply N.bits_above_log2. eapply N.lt_le_trans; [|done].
  by apply N.log2_lt_pow2; [lia|].
Qed.

Lemma size_of_top_bit a j :
  N.testbit a j = true → (∀ i, j < i → N.testbit a i = false) → N.size a = j + 1.
Proof.
  intros H1 H2. assert (a ≠ 0) by (intros ->; by rewrite N.bits_0 in H1).
  rewrite N.size_log2 by done. rewrite (N.log2_bits_unique a j) by done. lia.
Qed.

Lemma size_le_pow2 a j : a < 2 ^ j → N.size a ≤ j.
Proof.
  intros Ha. destruct (N.eq_dec a 0) as [->|]; [simpl; lia|].
  rewrite N.size_log2 by done. apply N.le_succ_l. by apply N.log2_lt_pow2; [lia|].
Qed.

Lemma lxor_lt_pow2 a b j : a < 2 ^ j → b < 2 ^ j → N.lxor a b < 2 ^ j.
Proof.
  intros Ha Hb. destruct (N.eq_dec (N.lxor a b) 0) as [->|Hne].
  { assert (2 ^ j ≠ 0) by (apply N.pow_nonzero; lia). lia. }
  apply N.log2_lt_pow2; [lia|]. apply N.nle_gt. intros Hle.
  pose proof (N.bit_log2 _ Hne) as Hb1. rewrite N.lxor_spec in Hb1.
  by rewrite !(testbit_lt_pow2 j) in Hb1.
Qed.

Lemma inner_proof_size_left j m n :
  2 ^ j < n → n ≤ 2 ^ (j + 1) → m < 2 ^ j → inner_proof_size m n = j + 1.
Proof.
  intros H1 H2 Hm. rewrite N.pow_add_r in H2. change (2 ^ 1) with 2 in H2.
  unfold inner_proof_size.
  replace (n - 1) with (2 ^ j + (n - 1 - 2 ^ j)) by lia.
  apply size_of_top_bit.
  - rewrite N.lxor_spec, testbit_pow2_add, N.eqb_refl, (testbit_lt_pow2 j m) by lia. done.
  - intros i Hi. rewrite N.lxor_spec, testbit_pow2_add by lia.
    destruct (N.eqb_spec i j); [lia|].
    rewrite (testbit_lt_pow2 j m), (testbit_lt_pow2 j _ i) by lia. done.
Qed.

Lemma inner_proof_size_right j m n :
  2 ^ j < n → n ≤ 2 ^ (j + 1) → 2 ^ j ≤ m → m < n →
  inner_proof_size m n = inner_proof_size (m - 2 ^ j) (n - 2 ^ j) ∧
  inner_proof_size m n ≤ j.
Proof.
  intros H1 H2 Hm Hmn. rewrite N.pow_add_r in H2. change (2 ^ 1) with 2 in H2.
  unfold inner_proof_size.
  replace (n - 1) with (2 ^ j + (n - 1 - 2 ^ j)) by lia.
  replace m with (2 ^ j + (m - 2 ^ j)) at 1 3 by lia.
  assert (N.lxor (2 ^ j + (m - 2 ^ j)) (2 ^ j + (n - 1 - 2 ^ j))
          = N.lxor (m - 2 ^ j) (n - 2 ^ j - 1)) as ->.
  { apply N.bits_inj. intros i. rewrite !N.lxor_spec, !testbit_pow2_add by lia.
    replace (n - 1 - 2 ^ j) with (n - 2 ^ j - 1) by lia.
    destruct (N.eqb_spec i j) as [->|]; [|done].
    rewrite !(testbit_lt_pow2 j) by lia. done. }
  split; [done|]. apply size_le_pow2, lxor_lt_pow2; lia.
Qed.

Lemma count_ones_double a : count_ones (2 * a) = count_ones a.
Proof. by destruct a. Qed.
Lemma count_ones_succ_double a : count_ones (2 * a + 1) = 1 + count_ones a.
Proof. by destruct a. Qed.

Lemma count_ones_pow2_add i a :
  a < 2 ^ i → count_ones (2 ^ i + a) = 1 + count_ones a.
Proof.
  revert a. induction i as [|i IH] using N.peano_ind; intros a Ha.
  - change (2 ^ 0) with 1 in *. assert (a = 0) as -> by lia. done.
  - rewrite N.pow_succ_r' in *.
    destruct (N.Even_or_Odd a) as [[b ->]|[b ->]].
    + replace (2 * 2 ^ i + 2 * b) with (2 * (2 ^ i + b)) by lia.
      rewrite !count_ones_double. apply IH. lia.
    + replace (2 * 2 ^ i + (2 * b + 1)) with (2 * (2 ^ i + b) + 1) by lia.
      rewrite !count_ones_succ_double. rewrite IH by lia. lia.
Qed.

Lemma count_ones_ones i : count_ones (N.ones i) = i.
Proof.
  induction i as [|i IH] using N.peano_ind; [done|].
  rewrite N.ones_equiv in *. rewrite N.pow_succ_r'.
  assert (2 ^ i ≠ 0) by (apply N.pow_nonzero; lia).
  replace (N.pred (2 * 2 ^ i)) with (2 * N.pred (2 ^ i) + 1) by lia.
  rewrite count_ones_succ_double. lia.
Qed.

Lemma shiftr_pow2_add j s a :
  s ≤ j → N.shiftr (2 ^ j + a) s = 2 ^ (j - s) + N.shiftr a s.
Proof.
  intros Hs. rewrite !N.shiftr_div_pow2.
  replace (2 ^ j) with (2 ^ (j - s) * 2 ^ s) by (rewrite <-N.pow_add_r; f_equal; lia).
  rewrite N.div_add_l by (apply N.pow_nonzero; lia). done.
Qed.

Lemma shiftr_lt_pow2 j s a : s ≤ j → a < 2 ^ j → N.shiftr a s < 2 ^ (j - s).
Proof.
  intros Hs Ha. rewrite N.shiftr_div_pow2. apply N.Div0.div_lt_upper_bound.
  rewrite <-N.pow_add_r. by replace (s + (j - s)) with j by lia.
Qed.

(** Above the last differing bit, an index of a full tree is all ones. *)
Lemma full_tree_high_bits j m i :
  m < 2 ^ j → inner_proof_size m (2 ^ j) ≤ i → i < j → N.testbit m i = true.
Proof.
  intros Hm Hs Hi. unfold inner_proof_size in Hs.
  assert (N.testbit (N.lxor m (2 ^ j - 1)) i = false) as Hx.
  { destruct (N.eq_dec (N.lxor m (2 ^ j - 1)) 0) as [->|Hne]; [by rewrite N.bits_0|].
    apply N.bits_above_log2. rewrite N.size_log2 in Hs by done. lia. }
  rewrite N.lxor_spec in Hx. replace (2 ^ j - 1) with (N.ones j) in Hx
    by (rewrite N.ones_equiv; lia).
  rewrite N.ones_spec_low in Hx by lia. by destruct (N.testbit m i).
Qed.

Lemma full_tree_inner_le j m : m < 2 ^ j → inner_proof_size m (2 ^ j) ≤ j.
Proof.
  intros Hm. apply size_le_pow2, lxor_lt_pow2; [done|].
  assert (2 ^ j ≠ 0) by (apply N.pow_nonzero; lia). lia.
Qed.

Lemma full_tree_border j m :
  m < 2 ^ j →
  count_ones (N.shiftr m (inner_proof_size m (2 ^ j))) = j - inner_proof_size m (2 ^ j).
Proof.
  intros Hm. pose proof (full_tree_inner_le j m Hm) as Hle.
  set (s := inner_proof_size m (2 ^ j)) in *.
  enough (N.shiftr m s = N.ones (j - s)) as -> by apply count_ones_ones.
  apply N.bits_inj. intros i. rewrite N.shiftr_spec'.
  destruct (N.lt_ge_cases i (j - s)) as [Hi|Hi].
  - rewrite N.ones_spec_low by lia. apply (full_tree_high_bits j); subst s; lia.
  - rewrite N.ones_spec_high by lia. apply (testbit_lt_pow2 j); lia.
Qed.

(** ** The inclusion verifier follows the splits *)

Section inclusion.
Context {T : Type} (nh : T → T → T) (empty : T).

Lemma fold_inner_app m i ps qs acc :
  fold_inner nh m i (ps ++ qs) acc =
  fold_inner nh m (i + lengthN ps) qs (fold_inner nh m i ps acc).
Proof.
  revert i acc. induction ps as [|p ps IH]; intros i acc; simpl.
  - by rewrite N.add_0_r.
  - rewrite IH. f_equal. lia.
Qed.

Lemma fold_border_app ps qs acc :
  fold_border nh (ps ++ qs) acc = fold_border nh qs (fold_border nh ps acc).
Proof. revert acc. induction ps; simpl; auto. Qed.

(** Where all bits are set, the inner loop does what the border loop does. *)
Lemma fold_inner_ones m i ps acc :
  (∀ x, i ≤ x → x < i + lengthN ps → N.testbit m x = true) →
  fold_inner nh m i ps acc = fold_border nh ps acc.
Proof.
  revert i acc. induction ps as [|p ps IH]; intros i acc Hb; [done|].
  cbn [fold_inner fold_border]. rewrite bit_test, Hb by (simpl; lia). cbn [negb].
  apply IH. intros. apply Hb; simpl; lia.
Qed.

Lemma recompute_full leaf j m P :
  m < 2 ^ j →
  recompute nh leaf m (2 ^ j) P =
  if lengthN P =? j then Some (fold_inner nh m 0 P leaf) else None.
Proof.
  intros Hm. unfold recompute.
  destruct (N.leb_spec (2 ^ j) m); [lia|].
  rewrite full_tree_border by done.
  pose proof (full_tree_inner_le j m Hm) as Hle.
  replace (_ + (j - _)) with j by lia.
  destruct (N.eqb_spec (lengthN P) j) as [E|]; [|done]. cbn [negb].
  set (s := inner_proof_size m (2 ^ j)) in *.
  rewrite <-(take_drop (N.to_nat s) P) at 3. rewrite fold_inner_app.
  f_equal. symmetry. apply fold_inner_ones. rewrite length_take, length_drop.
  intros x H1 H2. apply (full_tree_high_bits j); subst s; lia.
Qed.

Lemma recompute_nil leaf m n :
  2 ≤ n → n ≤ 2 ^ 63 → recompute nh leaf m n [] = None.
Proof.
  intros H1 H2. unfold recompute. destruct (N.leb_spec n m); [done|].
  destruct (largest_pow2_lt_spec n) as (j & _ & Hlt & Hle); [done..|].
  destruct (N.lt_ge_cases m (2 ^ j)) as [Hm|Hm].
  - rewrite (inner_proof_size_left j) by done.
    destruct (N.eqb_spec (lengthN (@nil T)) (j + 1 + count_ones (N.shiftr m (j + 1))));
      [simpl in *; lia|done].
  - destruct (inner_proof_size_right j m n) as [_ Hi]; [done..|].
    replace m with (2 ^ j + (m - 2 ^ j)) at 2 by lia.
    rewrite shiftr_pow2_add, count_ones_pow2_add by
      (rewrite N.pow_add_r in Hle; try apply shiftr_lt_pow2; lia).
    set (c := count_ones _).
    destruct (N.eqb_spec (lengthN (@nil T)) (inner_proof_size m n + (1 + c)));
      [simpl in *; lia|done].
Qed.

Lemma recompute_left leaf j m n P p :
  2 ^ j < n → n ≤ 2 ^ (j + 1) → m < 2 ^ j →
  recompute nh leaf m n (P ++ [p]) = (λ a, nh a p) <$> recompute nh leaf m (2 ^ j) P.
Proof.
  intros H1 H2 Hm. rewrite recompute_full by done. unfold recompute.
  destruct (N.leb_spec n m); [lia|].
  rewrite (inner_proof_size_left j) by done.
  assert (N.shiftr m (j + 1) = 0) as ->.
  { apply N.shiftr_eq_0_iff. destruct (N.eq_dec m 0) as [->|]; [by left|right].
    split; [lia|]. apply N.log2_lt_pow2; [lia|]. rewrite N.pow_add_r. lia. }
  cbn [count_ones]. rewrite N.add_0_r, length_app. cbn [length].
  replace (N.of_nat (length P + 1) =? j + 1) with (lengthN P =? j)
    by (destruct (N.eqb_spec (lengthN P) j), (N.eqb_spec (N.of_nat (length P + 1)) (j + 1)); lia).
  destruct (N.eqb_spec (lengthN P) j) as [E|]; [|done]. simpl.
  rewrite take_ge, drop_ge by (rewrite length_app; simpl; lia).
  rewrite fold_inner_app. cbn [fold_inner fold_border].
  rewrite E, bit_test, N.add_0_l, (testbit_lt_pow2 j m) by lia. done.
Qed.

Lemma recompute_right leaf j m n P p :
  2 ^ j < n → n ≤ 2 ^ (j + 1) → 2 ^ j ≤ m → m < n →
  recompute nh leaf m n (P ++ [p]) =
  nh p <$> recompute nh leaf (m - 2 ^ j) (n - 2 ^ j) P.
Proof.
  intros H1 H2 Hm Hmn. unfold recompute.
  destruct (inner_proof_size_right j m n) as [Ei Hi]; [done..|].
  destruct (N.leb_spec n m); [lia|].
  destruct (N.leb_spec (n - 2 ^ j) (m - 2 ^ j)); [lia|].
  rewrite <-Ei. set (s := inner_proof_size m n) in *.
  replace (N.shiftr m s) with (2 ^ (j - s) + N.shiftr (m - 2 ^ j) s)
    by (rewrite <-shiftr_pow2_add by done; f_equal; lia).
  rewrite count_ones_pow2_add
    by (rewrite N.pow_add_r in H2; apply shiftr_lt_pow2; lia).
  set (c := count_ones _). rewrite length_app. cbn [length].
  replace (N.of_nat (length P + 1) =? s + (1 + c)) with (lengthN P =? s + c)
    by (destruct (N.eqb_spec (lengthN P) (s + c)),
          (N.eqb_spec (N.of_nat (length P + 1)) (s + (1 + c))); lia).
  destruct (N.eqb_spec (lengthN P) (s + c)) as [E|]; [|done]. simpl.
  f_equal. rewrite take_app_le, drop_app_le by lia.
  rewrite fold_border_app. cbn [fold_border].
  (* the inner loop only looks at bits below [s ≤ j] *)
  f_equal. f_equal.
  assert (∀ ps i acc, i + lengthN ps ≤ s →
    fold_inner nh m i ps acc = fold_inner nh (m - 2 ^ j) i ps acc) as Hext.
  { induction ps as [|q ps IH]; intros i acc Hle; [done|]. cbn [fold_inner].
    simpl in Hle. rewrite !bit_test.
    replace m with (2 ^ j + (m - 2 ^ j)) at 2 by lia.
    rewrite testbit_pow2_add by (rewrite N.pow_add_r in H2; lia).
    destruct (N.eqb_spec i j); [lia|]. apply IH. lia. }
  apply Hext. len_lia.
Qed.
End inclusion.

(** ** Homomorphisms and closed predicates *)

Section hom.
Context {T U : Type} (nh : T → T → T) (e : T) (nh' : U → U → U) (f : T → U).
Hypothesis Hf : ∀ a b, f (nh a b) = nh' (f a) (f b).

Lemma split_at_fmap (l : list T) : split_at (f <$> l) = split_at l.
Proof. unfold split_at. by rewrite length_fmap. Qed.

Lemma root_with_hom l : fits l → root_with nh' (f e) (f <$> l) = f (root_with nh e l).
Proof.
  revert l. apply split_ind; [done..|]. intros l H1 H2 IH1 IH2.
  rewrite (root_with_split nh e l), Hf by done.
  rewrite root_with_split by (unfold fits; rewrite length_fmap; done).
  by rewrite split_at_fmap, <-fmap_take, <-fmap_drop, IH1, IH2.
Qed.

Lemma fold_inner_hom m i ps acc :
  fold_inner nh' m i (f <$> ps) (f acc) = f (fold_inner nh m i ps acc).
Proof.
  revert i acc. induction ps as [|p ps IH]; intros i acc; [done|]. simpl.
  rewrite <-IH. f_equal. destruct (_ =? 0); by rewrite Hf.
Qed.

Lemma fold_border_hom ps acc :
  fold_border nh' (f <$> ps) (f acc) = f (fold_border nh ps acc).
Proof. revert acc. induction ps as [|p ps IH]; intros acc; [done|]. simpl. by rewrite <-IH, Hf. Qed.

Lemma recompute_hom leaf m n P :
  recompute nh' (f leaf) m n (f <$> P) = f <$> recompute nh leaf m n P.
Proof.
  unfold recompute. destruct (n <=? m); [done|]. rewrite length_fmap.
  destruct (negb _); [done|]. cbn [fmap option_fmap option_map].
  by rewrite <-fmap_take, <-fmap_drop, fold_inner_hom, fold_border_hom.
Qed.

Local Definition map2 (v : T * list T) : U * list U := (f v.1, f <$> v.2).
Local Definition map3 (v : T * T * list T) : U * U * list U := (f v.1.1, f v.1.2, f <$> v.2).

Lemma climb_hom fuel last it sr :
  climb nh' fuel last (f <$> it) (f sr) =
  map2 <$> climb nh fuel last it sr.
Proof.
  revert last it sr. induction fuel as [|fuel IH]; intros last it sr; [done|]. simpl.
  destruct (last =? 0); [done|]. destruct it as [|p it]; [done|]. simpl.
  by rewrite <-Hf, IH.
Qed.

Lemma ascend_hom fuel node last it fr sr :
  ascend nh' fuel node last (f <$> it) (f fr) (f sr) =
  map3 <$> ascend nh fuel node last it fr sr.
Proof.
  revert node last it fr sr. induction fuel as [|fuel IH]; intros node last it fr sr; [done|].
  cbn [ascend]. destruct (node =? 0).
  { rewrite climb_hom. by destruct (climb nh _ last it sr) as [[??]|]. }
  destruct (N.odd node), (node <? last), it as [|p it]; try done; simpl;
    rewrite <-?Hf; try apply IH; apply (IH _ _ (p :: it)).
Qed.

Lemma recompute_consistency_hom m n P rm :
  recompute_consistency nh' m n (f <$> P) (f rm) =
  map3 <$> recompute_consistency nh m n P rm.
Proof.
  unfold recompute_consistency. destruct (strip _ _ _) as [node last].
  destruct (0 <? node); [|apply ascend_hom]. destruct P; [done|]. apply ascend_hom.
Qed.
End hom.

Section closed.
Context {T : Type} (nh : T → T → T) (e : T) (Q : T → Prop).
Hypothesis Qnh : ∀ a b, Q (nh a b).

Lemma root_with_closed l : fits l → Q e → Forall Q l → Q (root_with nh e l).
Proof.
  intros Hfit He. revert l Hfit. apply (split_ind (λ l, Forall Q l → Q _)); [done|..].
  - intros x Hx. by inversion Hx.
  - intros l H1 H2 _ _ _. rewrite root_with_split by done. apply Qnh.
Qed.

Lemma recompute_closed leaf m n P v : Q leaf → recompute nh leaf m n P = Some v → Q v.
Proof.
  intros Hl. unfold recompute. destruct (n <=? m); [done|].
  destruct (negb _); [done|]. intros [= <-].
  assert (∀ ps acc, Q acc → Q (fold_border nh ps acc)) as Hb
    by (induction ps; simpl; auto).
  apply Hb. generalize 0%N as i. revert Hl. generalize leaf as acc.
  induction (take _ P); intros acc Ha i; simpl; [done|].
  apply IHl. destruct (_ =? 0); auto.
Qed.
End closed.

(** ** Tracing the hashed inputs *)

Section trace.
Context `{DIG : Digests}.

Definition tr_leaf (h : bytes) : bytes * list bytes := (h, []).
Definition tr_node (a b : bytes * list bytes) : bytes * list bytes :=
  (node_hash a.1 b.1, node_input a.1 b.1 :: a.2 ++ b.2).

(** The node inputs hashed while computing a root. *)
Definition tree_inputs (l : list bytes) : list bytes :=
  (root_with tr_node (tr_leaf (sha256 [])) (tr_leaf <$> l)).2.

(** The node inputs [verify_inclusion] hashes. *)
Definition inclusion_inputs (leaf : bytes) (m n : N) (proof : list bytes) : list bytes :=
  match recompute tr_node (tr_leaf leaf) m n (tr_leaf <$> proof) with
  | Some v => v.2
  | None => []
  end.

(** A hash value is [[u8; 32]]. *)
Definition hash32 (h : bytes) : Prop := length h = 32%nat.

Global Instance hash32_dec h : Decision (hash32 h).
Proof. apply _. Defined.

Lemma hash32_sha256 d : hash32 (sha256 d).
Proof. apply digest_sha256_len. Qed.

Lemma node_input_inj l r l' r' :
  hash32 l → hash32 l' → node_input l r = node_input l' r' → l = l' ∧ r = r'.
Proof.
  unfold hash32, node_input. intros Hl Hl' [= E].
  apply app_inj_len; [congruence|done].
Qed.

Lemma tr_root_fst l : fits l →
  (root_with tr_node (tr_leaf (sha256 [])) (tr_leaf <$> l)).1 = root l.
Proof.
  intros Hf. change (sha256 []) with (tr_leaf (sha256 [])).1 at 1.
  rewrite <-(root_with_hom tr_node _ node_hash fst) by (try done; unfold fits; by rewrite length_fmap).
  rewrite <-list_fmap_compose. unfold compose. simpl. by rewrite list_fmap_id.
Qed.

Lemma tr_recompute_fst leaf m n P :
  fst <$> recompute tr_node (tr_leaf leaf) m n (tr_leaf <$> P) = recompute node_hash leaf m n P.
Proof.
  rewrite <-(recompute_hom tr_node node_hash fst) by done.
  rewrite <-list_fmap_compose. unfold compose. simpl. by rewrite list_fmap_id.
Qed.

(** Equal node values with collision-free inputs have equal children. *)
Lemma tr_node_inj a b c d inputs :
  coll_free digest_sha256 inputs →
  (tr_node a b).2 ⊆ inputs → (tr_node c d).2 ⊆ inputs →
  (tr_node a b).1 = (tr_node c d).1 →
  hash32 a.1 → hash32 c.1 → a.1 = c.1 ∧ b.1 = d.1.
Proof.
  intros Hcf H1 H2 E Ha Hc. apply node_input_inj; [done..|].
  apply Hcf; [apply H1; left|apply H2; left|done].
Qed.

Lemma tr_node_sub a b inputs :
  (tr_node a b).2 ⊆ inputs → a.2 ⊆ inputs ∧ b.2 ⊆ inputs.
Proof. simpl. intros Hs. split; intros x Hx; apply Hs; right; apply elem_of_app; auto. Qed.

Abbreviation tr_root l := (root_with tr_node (tr_leaf (sha256 [])) (tr_leaf <$> l)).

Lemma tr_root_split l :
  (2 ≤ length l)%nat → fits l →
  tr_root l = tr_node (tr_root (take (split_at l) l)) (tr_root (drop (split_at l) l)).
Proof.
  intros H1 H2. rewrite root_with_split by (unfold fits; rewrite length_fmap; done).
  by rewrite split_at_fmap, <-fmap_take, <-fmap_drop.
Qed.

Lemma tr_root_hash32 l : fits l → Forall hash32 l → hash32 (tr_root l).1.
Proof.
  intros Hf Hl. apply (root_with_closed tr_node _ (λ v, hash32 v.1)).
  - intros. apply hash32_sha256.
  - unfold fits. by rewrite length_fmap.
  - apply hash32_sha256.
  - by rewrite Forall_fmap.
Qed.

Lemma root_hash32 l : fits l → Forall hash32 l → hash32 (root l).
Proof. intros Hf Hl. rewrite <-tr_root_fst by done. by apply tr_root_hash32. Qed.

(** Two trees of the same size with the same root have the same leaves. *)
Lemma tr_root_inj inputs l1 l2 :
  fits l1 → length l1 = length l2 → Forall hash32 l1 → Forall hash32 l2 →
  coll_free digest_sha256 inputs →
  (tr_root l1).2 ⊆ inputs → (tr_root l2).2 ⊆ inputs →
  (tr_root l1).1 = (tr_root l2).1 → l1 = l2.
Proof.
  intros Hf Hlen H1 H2 Hcf. revert l2 Hlen H1 H2. revert l1 Hf.
  apply (split_ind (λ l1, ∀ l2, _ → _ → _ → _ → _ → _ → l1 = l2)).
  - intros [|]; done.
  - intros x [|y []]; try done. intros _ _ _ _ _ E. simpl in E. congruence.
  - intros l1 Hl Hf IH1 IH2 l2 Hlen H1 H2 Hs1 Hs2 E.
    assert (fits l2) as Hf2 by (unfold fits in *; by rewrite <-Hlen).
    assert (split_at l2 = split_at l1) as Hsp by (unfold split_at; by rewrite Hlen).
    rewrite tr_root_split in Hs1, E by done.
    rewrite (tr_root_split l2), Hsp in Hs2, E by (auto; lia).
    destruct (tr_node_inj _ _ _ _ inputs Hcf Hs1 Hs2 E) as [E1 E2];
      [apply tr_root_hash32; auto with secgit..|].
    apply tr_node_sub in Hs1 as [], Hs2 as [].
    rewrite <-(take_drop (split_at l1) l1), <-(take_drop (split_at l1) l2).
    f_equal; [apply IH1|apply IH2]; auto with secgit;
      rewrite ?length_take, ?length_drop; congruence.
Qed.

Lemma tr_recompute_sound inputs leaf P l m v :
  fits l → m < lengthN l → hash32 leaf → Forall hash32 P → Forall hash32 l →
  recompute tr_node (tr_leaf leaf) m (lengthN l) (tr_leaf <$> P) = Some v →
  coll_free digest_sha256 inputs → v.2 ⊆ inputs → (tr_root l).2 ⊆ inputs →
  v.1 = (tr_root l).1 → l !! N.to_nat m = Some leaf.
Proof.
  intros Hf Hm Hleaf HP Hl Hr Hcf. revert m P v Hm HP Hl Hr. revert l Hf.
  apply (split_ind (λ l, ∀ m P v, _ → _ → _ → _ → _ → _ → _ → _)).
  - intros m P v Hm. simpl in Hm. lia.
  - intros x m P v Hm HP Hl Hr _ _ E. simpl in Hm. assert (m = 0) as -> by lia.
    destruct P; [|done]. cbn in Hr. injection Hr as <-. cbn in E. by subst.
  - intros l H2 Hf IH1 IH2 m P v Hm HP Hl Hr Hs1 Hs2 E.
    destruct (split_at_spec l H2 Hf) as (j & _ & Es & Hlt & Hle & Ht & Hd).
    destruct P as [|p P _] using rev_ind.
    { unfold fits in Hf. by rewrite fmap_nil, recompute_nil in Hr by lia. }
    apply Forall_app in HP as [HP Hp%Forall_inv].
    rewrite tr_root_split in Hs2, E by done.
    rewrite fmap_app in Hr. cbn [fmap list_fmap map] in Hr.
    destruct (N.lt_ge_cases m (2 ^ j)) as [Hmk|Hmk].
    + rewrite (recompute_left tr_node _ j) in Hr by done.
      apply fmap_Some in Hr as (v' & Hv' & ->).
      destruct (tr_node_inj _ _ _ _ inputs Hcf Hs1 Hs2 E) as [E1 _].
      { by apply (recompute_closed tr_node (λ v, hash32 v.1)) in Hv';
          [|intros; apply hash32_sha256|]. }
      { apply tr_root_hash32; auto with secgit. }
      apply tr_node_sub in Hs1 as [], Hs2 as [].
      rewrite <-(take_drop (split_at l) l), lookup_app_l by lia.
      apply (IH1 m P v'); auto with secgit; try lia.
      by rewrite Ht, N2Nat.id.
    + rewrite (recompute_right tr_node _ j) in Hr by done.
      apply fmap_Some in Hr as (v' & Hv' & ->).
      destruct (tr_node_inj _ _ _ _ inputs Hcf Hs1 Hs2 E) as [_ E2]; [exact Hp|..].
      { apply tr_root_hash32; auto with secgit. }
      apply tr_node_sub in Hs1 as [], Hs2 as [].
      rewrite <-(take_drop (split_at l) l), lookup_app_r by lia.
      replace (N.to_nat m - _)%nat with (N.to_nat (m - 2 ^ j)) by lia.
      apply (IH2 (m - 2 ^ j) P v'); auto with secgit; try lia.
      rewrite Hd. by replace (N.of_nat (_ - _)) with (lengthN l - 2 ^ j) by lia.
Qed.

Lemma recompute_complete {T} (nh : T → T → T) e l m leaf :
  fits l → l !! N.to_nat m = Some leaf →
  recompute nh leaf m (lengthN l) (inclusion_proof_fuel nh e (length l) l m)
  = Some (root_with nh e l).
Proof.
  intros Hf. revert m leaf. revert l Hf.
  apply (split_ind (λ l, ∀ m leaf, _ → _)).
  - intros m leaf Hl. by rewrite lookup_nil in Hl.
  - intros x m leaf Hl. assert (m = 0) as ->.
    { apply lookup_lt_Some in Hl. simpl in Hl. lia. }
    by simplify_eq/=.
  - intros l H2 Hf IH1 IH2 m leaf Hl.
    assert (m < lengthN l) as Hm by (apply lookup_lt_Some in Hl; lia).
    destruct (split_at_spec l H2 Hf) as (j & Ek & Es & Hlt & Hle & Ht & Hd).
    rewrite inclusion_proof_split, (root_with_split nh e l) by done. rewrite Ek.
    rewrite <-(take_drop (split_at l) l) in Hl.
    destruct (N.ltb_spec m (2 ^ j)) as [Hmk|Hmk].
    + rewrite lookup_app_l in Hl by lia. rewrite (recompute_left nh _ j) by done.
      specialize (IH1 m leaf Hl).
      replace (lengthN (take (split_at l) l)) with (2 ^ j) in IH1 by lia.
      by rewrite IH1.
    + rewrite lookup_app_r in Hl by lia. rewrite (recompute_right nh _ j) by done.
      replace (N.to_nat m - length (take (split_at l) l))%nat
        with (N.to_nat (m - 2 ^ j)) in Hl by lia.
      specialize (IH2 (m - 2 ^ j) leaf Hl).
      replace (lengthN (drop (split_at l) l)) with (lengthN l - 2 ^ j) in IH2 by lia.
      by rewrite IH2.
Qed.
End trace.

(** ** The consistency verifier follows the splits *)

Section consistency.
Context {T : Type} (nh : T → T → T) (e : T).

(** [recompute_consistency] started at [node] and [last]; with [b = false] the
    seed always comes from the proof, as in the right subtrees the recursive
    prover visits. *)
Definition run (b : bool) (node last : N) (P : list T) (rm : T) : option (T * T * list T) :=
  let '(node, last) := strip loop_fuel node last in
  if b && negb (0 <? node) then ascend nh loop_fuel node last P rm rm
  else match P with
       | [] => None
       | p :: it => ascend nh loop_fuel node last it p p
       end.

Lemma recompute_consistency_run m n P rm :
  recompute_consistency nh m n P rm = run true (m - 1) (n - 1) P rm.
Proof.
  unfold recompute_consistency, run. destruct (strip _ _ _) as [node last].
  destruct (0 <? node); cbn [andb negb]; reflexivity.
Qed.

(** One more level: the last sibling joins from the right of the new root
    only, or from the left of both. *)
Definition join_right (v : T * T * list T) : option (T * T * list T) :=
  match v with (fr, sr, p :: it) => Some (fr, nh sr p, it) | _ => None end.
Definition join_left (v : T * T * list T) : option (T * T * list T) :=
  match v with (fr, sr, p :: it) => Some (nh p fr, nh p sr, it) | _ => None end.

Lemma pow2_succ_half j a : a < 2 ^ (j + 1) → a / 2 < 2 ^ j.
Proof. intros. apply N.Div0.div_lt_upper_bound. rewrite N.pow_add_r in *. lia. Qed.

Lemma half_bounds j a : 2 ^ (j + 1) ≤ a → a < 2 ^ (j + 1 + 1) → 2 ^ j ≤ a / 2 ∧ a / 2 < 2 ^ (j + 1).
Proof.
  intros H1 H2. split; [|by apply pow2_succ_half].
  apply N.div_le_lower_bound; [lia|]. rewrite N.pow_add_r in H1. lia.
Qed.

Lemma half_ones j : (2 ^ (j + 1) - 1) / 2 = 2 ^ j - 1.
Proof.
  assert (2 ^ j ≠ 0) by (apply N.pow_nonzero; lia). rewrite N.pow_add_r.
  symmetry. apply N.div_unique with 1; lia.
Qed.

Lemma half_pow2_add j a : (2 ^ (j + 1) + a) / 2 = 2 ^ j + a / 2.
Proof.
  rewrite N.pow_add_r. change (2 ^ 1) with 2. rewrite N.div_add_l by lia. done.
Qed.

Lemma odd_pow2_add j a : N.odd (2 ^ (j + 1) + a) = N.odd a.
Proof.
  rewrite N.pow_add_r, N.mul_comm. change (2 ^ 1) with 2.
  rewrite N.add_comm. apply N.odd_add_mul_2.
Qed.

Lemma odd_ones j : N.odd (2 ^ (j + 1) - 1) = true.
Proof.
  assert (2 ^ j ≠ 0) by (apply N.pow_nonzero; lia). rewrite N.pow_add_r.
  change (2 ^ 1) with 2.
  replace (2 ^ j * 2 - 1) with (1 + 2 * (2 ^ j - 1)) by lia. apply N.odd_add_mul_2.
Qed.

Lemma climb_left j fuel last it sr :
  (N.to_nat j + 1 < fuel)%nat → 2 ^ j ≤ last → last < 2 ^ (j + 1) →
  climb nh fuel last it sr =
  '(sr, it) ← climb nh fuel (2 ^ j - 1) it sr;
  match it with p :: it => Some (nh sr p, it) | [] => None end.
Proof.
  revert fuel last it sr. induction j as [|j IH] using N.peano_ind;
    intros [|[|fuel]] last it sr Hf H1 H2; try lia.
  - change (2 ^ 0) with 1 in *. change (2 ^ (0 + 1)) with 2 in *.
    assert (last = 1) as -> by lia. by destruct it.
  - rewrite <-N.add_1_r in *. pose proof (half_ones j) as Eo.
    assert (2 ^ j ≠ 0) by (apply N.pow_nonzero; lia).
    assert (2 ^ (j + 1) = 2 * 2 ^ j) as Ep by (rewrite N.pow_add_r; lia).
    destruct (half_bounds j last H1 H2) as [Hh1 Hh2].
    remember (S fuel) as f eqn:Ef. cbn [climb].
    destruct (N.eqb_spec last 0); [lia|].
    destruct (N.eqb_spec (2 ^ (j + 1) - 1) 0); [lia|].
    destruct it as [|p it]; [done|]. rewrite Eo. apply IH; [lia|done|done].
Qed.

Lemma ascend_right_join j fuel node last it fr sr :
  (N.to_nat j + 1 < fuel)%nat → node < 2 ^ j → 2 ^ j ≤ last → last < 2 ^ (j + 1) →
  ascend nh fuel node last it fr sr =
  ascend nh fuel node (2 ^ j - 1) it fr sr ≫= join_right.
Proof.
  revert fuel node last it fr sr. induction j as [|j IH] using N.peano_ind;
    intros [|fuel] node last it fr sr Hf Hn H1 H2; try lia.
  - change (2 ^ 0) with 1 in *. assert (node = 0) as -> by lia. cbn [ascend].
    change (0 =? 0) with true. cbn match.
    rewrite (climb_left 0) by (auto; lia). change (2 ^ 0 - 1) with (1 - 1).
    destruct (climb nh (S fuel) (1 - 1) it sr) as [[s [|p r]]|]; done.
  - rewrite <-N.add_1_r in *. pose proof (half_ones j) as Eo.
    assert (2 ^ j ≠ 0) by (apply N.pow_nonzero; lia).
    assert (2 ^ (j + 1) = 2 * 2 ^ j) as Ep by (rewrite N.pow_add_r; lia).
    destruct (half_bounds j last H1 H2) as [Hh1 Hh2].
    cbn [ascend]. destruct (N.eqb_spec node 0) as [->|Hn0].
    + rewrite (climb_left (j + 1)) by (auto; lia).
      destruct (climb nh (S fuel) (2 ^ (j + 1) - 1) it sr) as [[s [|p r]]|]; done.
    + assert (node / 2 < 2 ^ j) by (by apply pow2_succ_half).
      destruct (N.odd node) eqn:Eodd.
      * destruct it as [|p it]; [done|]. rewrite Eo. apply IH; [lia|done..].
      * assert (node ≠ 2 ^ (j + 1) - 1) by (intros ->; by rewrite odd_ones in Eodd).
        destruct (N.ltb_spec node last); [|lia].
        destruct (N.ltb_spec node (2 ^ (j + 1) - 1)); [|lia].
        destruct it as [|p it]; [done|]. rewrite Eo. apply IH; [lia|done..].
Qed.

Lemma ascend_left_join j fuel node last it fr sr :
  (N.to_nat j + 1 < fuel)%nat → node ≤ last → last < 2 ^ j →
  ascend nh fuel (2 ^ j + node) (2 ^ j + last) it fr sr =
  ascend nh fuel node last it fr sr ≫= join_left.
Proof.
  revert fuel node last it fr sr. induction j as [|j IH] using N.peano_ind;
    intros [|[|fuel]] node last it fr sr Hf Hn Hl; try lia.
  - change (2 ^ 0) with 1 in *. assert (last = 0) as -> by lia.
    assert (node = 0) as -> by lia. by destruct it.
  - rewrite <-N.add_1_r in *. assert (2 ^ (j + 1) ≠ 0) by (apply N.pow_nonzero; lia).
    assert (last / 2 < 2 ^ j) by (by apply pow2_succ_half).
    assert (node / 2 ≤ last / 2) by (apply N.Div0.div_le_mono; lia).
    remember (S fuel) as f eqn:Ef. cbn [ascend].
    destruct (N.eqb_spec (2 ^ (j + 1) + node) 0); [lia|].
    rewrite odd_pow2_add, !half_pow2_add.
    destruct (N.eqb_spec node 0) as [->|Hn0].
    + change (N.odd 0) with false. cbn match. change (0 / 2) with 0 in *.
      destruct (N.ltb_spec (2 ^ (j + 1) + 0) (2 ^ (j + 1) + last)) as [Hlt|Hge].
      * destruct it as [|p it].
        { cbn [climb]. destruct (N.eqb_spec last 0); [lia|done]. }
        rewrite IH by (auto; lia). subst f. cbn [climb ascend].
        destruct (N.eqb_spec last 0); [lia|]. done.
      * assert (last = 0) as -> by lia. change (0 / 2) with 0.
        rewrite IH by (auto; lia). subst f. done.
    + destruct (N.odd node) eqn:Eodd.
      * destruct it as [|p it]; [done|]. apply IH; [lia|done..].
      * destruct (N.ltb_spec (2 ^ (j + 1) + node) (2 ^ (j + 1) + last)),
          (N.ltb_spec node last); try lia.
        -- destruct it as [|p it]; [done|]. apply IH; [lia|done..].
        -- apply IH; [lia|done..].
Qed.

Lemma strip_left j fuel node last :
  (N.to_nat j < fuel)%nat → node < 2 ^ j → 2 ^ j ≤ last → last < 2 ^ (j + 1) →
  ∃ j1 node1 last1,
    strip fuel node last = (node1, last1) ∧
    strip fuel node (2 ^ j - 1) = (node1, 2 ^ j1 - 1) ∧
    j1 ≤ j ∧ node1 < 2 ^ j1 ∧ 2 ^ j1 ≤ last1 ∧ last1 < 2 ^ (j1 + 1).
Proof.
  revert fuel node last. induction j as [|j IH] using N.peano_ind;
    intros [|fuel] node last Hf Hn H1 H2; try lia.
  - change (2 ^ 0) with 1 in *. assert (node = 0) as -> by lia.
    exists 0, 0, last. repeat split; try done; lia.
  - rewrite <-N.add_1_r in *. cbn [strip]. destruct (N.odd node) eqn:Eodd.
    + destruct (half_bounds j last H1 H2) as [Hh1 Hh2]. rewrite half_ones.
      destruct (IH fuel (node / 2) (last / 2)) as (j1 & n1 & l1 & -> & -> & ? & ? & ? & ?);
        [lia|by apply pow2_succ_half|done|done|].
      exists j1, n1, l1. repeat split; done || lia.
    + exists (j + 1), node, last. repeat split; done || lia.
Qed.

Lemma strip_right j fuel node last :
  (N.to_nat j < fuel)%nat → node < 2 ^ j - 1 → node ≤ last → last < 2 ^ j →
  ∃ j1 node1 last1,
    strip fuel node last = (node1, last1) ∧
    strip fuel (2 ^ j + node) (2 ^ j + last) = (2 ^ j1 + node1, 2 ^ j1 + last1) ∧
    j1 ≤ j ∧ node1 ≤ last1 ∧ last1 < 2 ^ j1.
Proof.
  revert fuel node last. induction j as [|j IH] using N.peano_ind;
    intros [|fuel] node last Hf Hn H1 H2; try (simpl in *; lia).
  - rewrite <-N.add_1_r in *. assert (2 ^ (j + 1) = 2 * 2 ^ j) as Ep by (rewrite N.pow_add_r; lia).
    cbn [strip]. rewrite odd_pow2_add, !half_pow2_add.
    destruct (N.odd node) eqn:Eodd.
    + destruct (IH fuel (node / 2) (last / 2)) as (j1 & n1 & l1 & -> & -> & ? & ? & ?); [lia|..].
      * apply N.odd_spec in Eodd as [c ->].
        replace ((2 * c + 1) / 2) with c by (apply N.div_unique with 1; lia). lia.
      * apply N.Div0.div_le_mono; lia.
      * by apply pow2_succ_half.
      * exists j1, n1, l1. repeat split; done || lia.
    + exists (j + 1), node, last. repeat split; done || lia.
Qed.

Lemma run_right_join b j node last P rm :
  j < 63 → node < 2 ^ j → 2 ^ j ≤ last → last < 2 ^ (j + 1) →
  run b node last P rm = run b node (2 ^ j - 1) P rm ≫= join_right.
Proof.
  intros Hj Hn H1 H2. unfold run.
  destruct (strip_left j loop_fuel node last)
    as (j1 & n1 & l1 & -> & -> & ? & ? & ? & ?); [unfold loop_fuel; lia|done..|].
  destruct (b && negb (0 <? n1)).
  - apply (ascend_right_join j1); [unfold loop_fuel; lia|done..].
  - destruct P as [|p P]; [done|].
    apply (ascend_right_join j1); [unfold loop_fuel; lia|done..].
Qed.

Lemma run_left_join b j node last P rm rm' :
  j < 63 → node < 2 ^ j - 1 → node ≤ last → last < 2 ^ j →
  run b (2 ^ j + node) (2 ^ j + last) P rm = run false node last P rm' ≫= join_left.
Proof.
  intros Hj Hn H1 H2. unfold run.
  destruct (strip_right j loop_fuel node last)
    as (j1 & n1 & l1 & -> & -> & ? & ? & ?); [unfold loop_fuel; lia|done..|].
  assert (2 ^ j1 ≠ 0) by (apply N.pow_nonzero; lia).
  destruct (N.ltb_spec 0 (2 ^ j1 + n1)); [|lia].
  rewrite andb_false_r. cbn [andb]. destruct P as [|p P]; [done|].
  apply (ascend_left_join j1); [unfold loop_fuel; lia|done..].
Qed.

Lemma strip_ones j fuel : (N.to_nat j < fuel)%nat → strip fuel (2 ^ j - 1) (2 ^ j - 1) = (0, 0).
Proof.
  revert fuel. induction j as [|j IH] using N.peano_ind; intros [|fuel] Hf; try lia; [done|].
  rewrite <-N.add_1_r. cbn [strip]. rewrite odd_ones, half_ones. apply IH. lia.
Qed.

(** A full tree compared with itself: nothing to hash. *)
Lemma run_full b j P rm :
  j < 63 →
  run b (2 ^ j - 1) (2 ^ j - 1) P rm =
  if b then Some (rm, rm, P) else match P with [] => None | p :: it => Some (p, p, it) end.
Proof.
  intros Hj. unfold run. rewrite strip_ones by (unfold loop_fuel; lia).
  destruct b; [done|]. by destruct P.
Qed.
End consistency.

(** The positions at which the recursive prover stands: a proper prefix, or a
    whole subtree that is a power of two in size. *)
Definition stand (m n : N) : Prop :=
  0 < m ∧ (m < n ∨ m = n ∧ ∃ j, j < 63 ∧ n = 2 ^ j).

Lemma subproof_whole {T} (nh : T → T → T) e l b :
  l ≠ [] → subproof nh e (lengthN l) l b = if b then [] else [root_with nh e l].
Proof.
  intros Hl. unfold subproof. destruct l; [done|]. cbn [length subproof_fuel].
  by rewrite N.eqb_refl.
Qed.

(** A prefix longer than the split point splits at the same point. *)
Lemma root_take_split {T} (nh : T → T → T) e l m j :
  (2 ≤ length l)%nat → fits l → split_at l = N.to_nat (2 ^ j) →
  lengthN l ≤ 2 ^ (j + 1) → 2 ^ j < m → m ≤ lengthN l →
  root_with nh e (take (N.to_nat m) l) =
  nh (root_with nh e (take (split_at l) l))
     (root_with nh e (take (N.to_nat (m - 2 ^ j)) (drop (split_at l) l))).
Proof.
  intros H1 Hf Es Hle Hm Hml. unfold fits in Hf.
  assert (2 ^ j ≠ 0) by (apply N.pow_nonzero; lia).
  rewrite root_with_split by (unfold fits; rewrite length_take; lia).
  assert (split_at (take (N.to_nat m) l) = split_at l) as ->.
  { rewrite Es. unfold split_at. rewrite length_take, (Nat.min_l _ _) by lia.
    rewrite N2Nat.id, (largest_pow2_lt_unique m j) by lia. done. }
  rewrite take_take, Nat.min_l by lia.
  rewrite skipn_firstn_comm. repeat f_equal; lia.
Qed.

Lemma run_complete {T} (nh : T → T → T) e l m b rest :
  fits l → stand m (lengthN l) →
  run nh b (m - 1) (lengthN l - 1) (subproof nh e m l b ++ rest)
    (root_with nh e (take (N.to_nat m) l))
  = Some (root_with nh e (take (N.to_nat m) l), root_with nh e l, rest).
Proof.
  intros Hf. revert m b rest. revert l Hf.
  assert (∀ l m b rest, l ≠ [] → m = lengthN l → (∃ j, j < 63 ∧ lengthN l = 2 ^ j) →
    run nh b (m - 1) (lengthN l - 1) (subproof nh e m l b ++ rest)
      (root_with nh e (take (N.to_nat m) l))
    = Some (root_with nh e (take (N.to_nat m) l), root_with nh e l, rest)) as Hfull.
  { intros l m b rest Hl -> (j & Hj & E). rewrite subproof_whole by done.
    rewrite E, run_full by done. rewrite take_ge by lia. by destruct b. }
  apply (split_ind (λ l, ∀ m b rest, _ → _)).
  - intros m b rest [H0 [H1|[H1 _]]]; simpl in *; lia.
  - intros x m b rest [H0 [H1|[H1 Hj]]]; [simpl in *; lia|]. by apply Hfull.
  - intros l H2 Hf IH1 IH2 m b rest [H0 [H1|[H1 Hj]]];
      [|apply Hfull; [by intros ->; simpl in H2; lia|done|done]].
    destruct (split_at_spec l H2 Hf) as (j & Ek & Es & Hlt & Hle & Ht & Hd).
    assert (j < 63) as Hj by (by eapply pow2_lt_63).
    assert (2 ^ j ≠ 0) by (apply N.pow_nonzero; lia).
    rewrite subproof_split by done. rewrite Ek.
    destruct (N.leb_spec m (2 ^ j)) as [Hmk|Hmk]; rewrite <-app_assoc; cbn [app].
    + rewrite (run_right_join nh b j) by lia.
      specialize (IH1 m b (root_with nh e (drop (split_at l) l) :: rest)).
      replace (lengthN (take (split_at l) l)) with (2 ^ j) in IH1 by lia.
      rewrite take_take, Nat.min_l in IH1 by lia.
      rewrite IH1; [simpl; by rewrite <-root_with_split|].
      split; [done|]. destruct (N.eq_dec m (2 ^ j)); [right; eauto|left; lia].
    + rewrite (root_take_split nh e l m j) by (auto; lia).
      replace (m - 1) with (2 ^ j + (m - 2 ^ j - 1)) by lia.
      replace (lengthN l - 1) with (2 ^ j + (lengthN l - 2 ^ j - 1)) by lia.
      specialize (IH2 (m - 2 ^ j) false (root_with nh e (take (split_at l) l) :: rest)).
      replace (lengthN (drop (split_at l) l)) with (lengthN l - 2 ^ j) in IH2 by lia.
      rewrite N.pow_add_r in Hle. erewrite (run_left_join nh b j) by lia.
      rewrite IH2 by (split; [lia|left; lia]). simpl. by rewrite <-root_with_split.
Qed.

Section consistency_sound.
Context `{DIG : Digests}.
Abbreviation tr_root l := (root_with tr_node (tr_leaf (sha256 [])) (tr_leaf <$> l)).

Lemma join_right_Some v fr sr it :
  join_right tr_node v = Some (fr, sr, it) →
  ∃ s p, v = (fr, s, p :: it) ∧ sr = tr_node s p.
Proof. destruct v as [[??] [|p ?]]; simpl; [done|]. intros [= -> <- ->]. eauto. Qed.

Lemma join_left_Some v fr sr it :
  join_left tr_node v = Some (fr, sr, it) →
  ∃ f s p, v = (f, s, p :: it) ∧ fr = tr_node p f ∧ sr = tr_node p s.
Proof. destruct v as [[??] [|p ?]]; simpl; [done|]. intros [= <- <- ->]. eauto 10. Qed.

(** Results of [run] are 32-byte hashes, and so is what is left of the proof. *)
Lemma ascend_hash32 fuel node last it fr sr f s r :
  hash32 fr.1 → hash32 sr.1 → Forall (λ v, hash32 v.1) it →
  ascend tr_node fuel node last it fr sr = Some (f, s, r) →
  hash32 f.1 ∧ hash32 s.1 ∧ Forall (λ v, hash32 v.1) r.
Proof.
  assert (∀ fuel last it sr s r, hash32 sr.1 → Forall (λ v, hash32 v.1) it →
    climb tr_node fuel last it sr = Some (s, r) →
    hash32 s.1 ∧ Forall (λ v, hash32 v.1) r) as Hclimb.
  { clear. induction fuel as [|fuel IH]; intros last it sr s r H1 H2 E; [done|].
    simpl in E. destruct (last =? 0); [by simplify_eq|].
    destruct it as [|p it]; [done|]. apply Forall_cons in H2 as [? ?].
    eapply IH; [|done|done]. apply hash32_sha256. }
  revert node last it fr sr. induction fuel as [|fuel IH]; intros node last it fr sr Hfr Hsr Hit E; [done|].
  cbn [ascend] in E. destruct (node =? 0).
  { apply bind_Some in E as ([s' r'] & E & [= -> -> ->]).
    destruct (Hclimb _ _ _ _ _ _ Hsr Hit E). auto. }
  destruct (N.odd node), (node <? last), it as [|p it]; try done;
    try (apply Forall_cons in Hit as [Hp Hit]);
    (eapply IH; [..|exact E]); try done; try apply hash32_sha256;
    by constructor.
Qed.

Lemma run_hash32 b node last P rm f s r :
  hash32 rm.1 → Forall (λ v, hash32 v.1) P →
  run tr_node b node last P rm = Some (f, s, r) →
  hash32 f.1 ∧ hash32 s.1 ∧ Forall (λ v, hash32 v.1) r.
Proof.
  unfold run. intros Hrm HP. destruct (strip _ _ _) as [n1 l1].
  destruct (b && _); [by apply ascend_hash32|].
  destruct P as [|p P]; [done|]. apply Forall_cons in HP as [??]. by apply ascend_hash32.
Qed.

(** The prefix is the whole tree: the two roots are one hash. *)
Lemma run_full_sound inputs l b m lm P rm fr sr rest :
  coll_free digest_sha256 inputs → fits l → m = lengthN l →
  (∃ j, j < 63 ∧ lengthN l = 2 ^ j) → length lm = N.to_nat m →
  Forall hash32 l → Forall hash32 lm →
  (tr_root l).2 ⊆ inputs → (tr_root lm).2 ⊆ inputs →
  run tr_node b (m - 1) (lengthN l - 1) P rm = Some (fr, sr, rest) →
  fr.1 = (tr_root lm).1 → sr.1 = (tr_root l).1 → lm = take (N.to_nat m) l.
Proof.
  intros Hcf Hf -> (j & Hj & E) Hlen H1 H2 Hs1 Hs2 Hr E1 E2.
  rewrite E, run_full in Hr by done. rewrite take_ge by lia. symmetry.
  assert (fr = sr) as -> by (destruct b, P; by simplify_eq/=).
  apply (tr_root_inj inputs); auto; [lia|congruence].
Qed.

(** A list of hashes splits where a longer one does. *)
Lemma prefix_split_at (l lm : list bytes) m j :
  fits l → split_at l = N.to_nat (2 ^ j) → lengthN l ≤ 2 ^ (j + 1) →
  2 ^ j < m → m < lengthN l → length lm = N.to_nat m →
  fits lm ∧ (2 ≤ length lm)%nat ∧ split_at lm = split_at l.
Proof.
  unfold fits. intros Hf Es Hle H1 H2 Hlm.
  assert (2 ^ j ≠ 0) by (apply N.pow_nonzero; lia).
  split; [lia|]. split; [lia|]. rewrite Es. unfold split_at.
  rewrite Hlm, N2Nat.id, (largest_pow2_lt_unique m j); lia.
Qed.

Lemma run_sound inputs ln b m lm P rm fr sr rest :
  fits ln → stand m (lengthN ln) → length lm = N.to_nat m →
  Forall hash32 ln → Forall hash32 lm → hash32 rm.1 → Forall (λ v, hash32 v.1) P →
  coll_free digest_sha256 inputs → (tr_root ln).2 ⊆ inputs → (tr_root lm).2 ⊆ inputs →
  run tr_node b (m - 1) (lengthN ln - 1) P rm = Some (fr, sr, rest) →
  fr.2 ⊆ inputs → sr.2 ⊆ inputs →
  fr.1 = (tr_root lm).1 → sr.1 = (tr_root ln).1 →
  lm = take (N.to_nat m) ln.
Proof.
  intros Hf Hst Hlm Hn32 Hm32 Hrm HP Hcf.
  revert b m lm P rm fr sr rest Hst Hlm Hn32 Hm32 Hrm HP. revert ln Hf.
  apply (split_ind (λ l, ∀ b m lm P rm fr sr rest, _ → _ → _ → _ → _ → _ → _ → _ → _ → _ → _ → _ → _ → _)).
  - intros b m lm P rm fr sr rest [H0 [H1|[H1 _]]]; simpl in *; lia.
  - intros x b m lm P rm fr sr rest [H0 [H1|[H1 Hj]]] ? ? ? ? ? ? ? ? ? ? ? ?;
      [simpl in *; lia|]. by eapply run_full_sound.
  - intros l H2 Hf IH1 IH2 b m lm P rm fr sr rest [H0 [H1|[H1 Hj]]]
      Hlm Hn32 Hm32 Hrm HP Hsn Hsm Hr Hsf Hss E1 E2; [|by eapply run_full_sound].
    destruct (split_at_spec l H2 Hf) as (j & Ek & Es & Hlt & Hle & Ht & Hd).
    assert (j < 63) as Hj by (by eapply pow2_lt_63).
    assert (2 ^ j ≠ 0) by (apply N.pow_nonzero; lia).
    rewrite tr_root_split in Hsn, E2 by done.
    destruct (N.lt_ge_cases (2 ^ j) m) as [Hmk|Hmk].
    + replace (m - 1) with (2 ^ j + (m - 2 ^ j - 1)) in Hr by lia.
      replace (lengthN l - 1) with (2 ^ j + (lengthN l - 2 ^ j - 1)) in Hr by lia.
      rewrite (run_left_join tr_node b j) with (rm' := rm) in Hr
        by (rewrite N.pow_add_r in Hle; lia).
      apply bind_Some in Hr as (v & Hv & (f & s & p & -> & -> & ->)%join_left_Some).
      destruct (run_hash32 _ _ _ _ _ _ _ _ Hrm HP Hv) as (? & ? & [Hp _]%Forall_cons).
      destruct (prefix_split_at l lm m j) as (Hfm & Hlm2 & Hsp); auto.
      rewrite (tr_root_split lm) in Hsm, E1 by done. rewrite Hsp in Hsm, E1.
      destruct (tr_node_inj _ _ _ _ inputs Hcf Hsf Hsm E1) as [E1a E1b]; [done|..].
      { apply tr_root_hash32; auto with secgit. }
      destruct (tr_node_inj _ _ _ _ inputs Hcf Hss Hsn E2) as [E2a E2b]; [done|..].
      { apply tr_root_hash32; auto with secgit. }
      apply tr_node_sub in Hsf as [], Hss as [], Hsm as [], Hsn as [].
      rewrite <-(take_drop (split_at l) lm).
      rewrite (IH2 false (m - 2 ^ j) (drop (split_at l) lm) P rm f s (p :: rest)); auto with secgit.
      * rewrite (tr_root_inj inputs (take (split_at l) lm) (take (split_at l) l));
          auto with secgit; [|len_lia|congruence].
        replace (N.to_nat m) with (split_at l + N.to_nat (m - 2 ^ j))%nat by lia.
        by rewrite take_take_drop.
      * split; [lia|]. left. lia.
      * len_lia.
      * replace (lengthN (drop (split_at l) l)) with (lengthN l - 2 ^ j) by lia. done.
    + rewrite (run_right_join tr_node b j) in Hr by lia.
      apply bind_Some in Hr as (v & Hv & (s & p & -> & ->)%join_right_Some).
      destruct (run_hash32 _ _ _ _ _ _ _ _ Hrm HP Hv) as (? & ? & _).
      destruct (tr_node_inj _ _ _ _ inputs Hcf Hss Hsn E2) as [E2a _]; [done|..].
      { apply tr_root_hash32; auto with secgit. }
      apply tr_node_sub in Hss as [], Hsn as [].
      rewrite (IH1 b m lm P rm fr s (p :: rest)); auto with secgit.
      * rewrite take_take. f_equal. lia.
      * split; [done|]. destruct (N.eq_dec m (2 ^ j)); [right; split; [lia|exists j; lia]|left; lia].
      * by replace (lengthN (take (split_at l) l)) with (2 ^ j) by lia.
Qed.
End consistency_sound.

(** ** Theorems about the program's functions *)

Section theorems.
Context `{DIG : Digests}.

(** The node inputs [verify_consistency] hashes. *)
Definition consistency_inputs (m n : N) (proof : list bytes) (root_m : bytes) : list bytes :=
  match recompute_consistency tr_node m n (tr_leaf <$> proof) (tr_leaf root_m) with
  | Some (fr, sr, _) => fr.2 ++ sr.2
  | None => []
  end.

Lemma inclusion_verifies (leaves : list bytes) (m : N) (leaf : bytes) :
  fits leaves → leaves !! N.to_nat m = Some leaf →
  ∃ proof, inclusion_proof leaves m = Some proof ∧
           verify_inclusion leaf m (lengthN leaves) proof (root leaves) = true.
Proof.
  intros Hf Hl. assert (m < lengthN leaves) by (apply lookup_lt_Some in Hl; lia).
  unfold inclusion_proof, inclusion_proof_with.
  destruct (N.ltb_spec m (lengthN leaves)); [|lia].
  eexists; split; [done|]. unfold verify_inclusion.
  by rewrite (recompute_complete node_hash (sha256 [])), bool_decide_eq_true_2.
Qed.

(** Soundness of inclusion proofs: if the verifier accepts [leaf] at [m]
    against the root of a log, then [leaf] is the log's entry at [m], unless two
    of the inputs hashed by the two computations collide under SHA-256. *)
Lemma inclusion_sound (leaves : list bytes) (m : N) (leaf : bytes) (proof : list bytes) :
  fits leaves → Forall hash32 (leaf :: proof) → Forall hash32 leaves →
  coll_free digest_sha256
    (tree_inputs leaves ++ inclusion_inputs leaf m (lengthN leaves) proof) →
  verify_inclusion leaf m (lengthN leaves) proof (root leaves) = true →
  leaves !! N.to_nat m = Some leaf.
Proof.
  intros Hf [Hleaf HP]%Forall_cons Hl Hcf. unfold verify_inclusion.
  pose proof (tr_recompute_fst leaf m (lengthN leaves) proof) as Hfst.
  unfold inclusion_inputs in Hcf.
  destruct (recompute tr_node _ _ _ _) as [v|] eqn:Hr; simpl in Hfst; [|by rewrite <-Hfst].
  rewrite <-Hfst. intros E%bool_decide_eq_true.
  eapply (tr_recompute_sound _ leaf proof); [done| |done|done|done|exact Hr|exact Hcf| | |].
  - unfold recompute in Hr. by destruct (N.leb_spec (lengthN leaves) m).
  - intros x Hx. apply elem_of_app; auto.
  - intros x Hx. apply elem_of_app; auto.
  - by rewrite E, tr_root_fst.
Qed.

(** C1. Inclusion proofs are complete and sound.  For every leaf of every log the prover
    returns a proof and the verifier accepts it against the root, for any tree size a slice
    can have, powers of two or not; and if the verifier accepts [leaf] at [m] against the
    root of a log, whatever the proof, then [leaf] is the log's entry at [m], unless two of
    the inputs hashed by the two computations collide under SHA-256. *)
Theorem inclusion_exact (leaves : list bytes) (m : N) (leaf : bytes) :
  fits leaves → Forall hash32 leaves →
  (leaves !! N.to_nat m = Some leaf →
   ∃ proof, inclusion_proof leaves m = Some proof ∧ verify_inclusion leaf m (lengthN leaves) proof (root leaves) = true) ∧
  (∀ proof, Forall hash32 (leaf :: proof) →
   coll_free digest_sha256 (tree_inputs leaves ++ inclusion_inputs leaf m (lengthN leaves) proof) →
   verify_inclusion leaf m (lengthN leaves) proof (root leaves) = true → leaves !! N.to_nat m = Some leaf).
Proof. intros Hf Hl. split; [by apply inclusion_verifies|]. intros proof Hp Hc. by apply (inclusion_sound leaves m leaf proof). Qed.

Lemma consistency_verifies (leaves : list bytes) (m : N) :
  fits leaves → 0 < m → m ≤ lengthN leaves →
  ∃ proof, consistency_proof leaves m = Some proof ∧
           verify_consistency m (lengthN leaves) proof
             (root (take (N.to_nat m) leaves)) (root leaves) = true.
Proof.
  intros Hf H0 Hm. unfold consistency_proof, consistency_proof_with.
  destruct (N.leb_spec m (lengthN leaves)); [|lia].
  destruct (N.ltb_spec 0 m); [|lia]. eexists; split; [done|].
  unfold verify_consistency.
  destruct (N.eqb_spec m 0); [lia|]. destruct (N.ltb_spec (lengthN leaves) m); [lia|].
  cbn [orb]. destruct (N.eqb_spec m (lengthN leaves)) as [->|Hne].
  - rewrite subproof_whole by (intros ->; simpl in *; lia).
    by rewrite take_ge, !bool_decide_eq_true_2 by (try done; lia).
  - rewrite recompute_consistency_run.
    pose proof (run_complete node_hash (sha256 []) leaves m true [] Hf
      ltac:(split; [done|left; lia])) as Hr.
    rewrite app_nil_r in Hr. unfold root. rewrite Hr.
    by rewrite !bool_decide_eq_true_2.
Qed.

(** Completeness of consistency proofs: for every earlier size of a log
    the prover returns a proof that the verifier accepts between the old and the
    new root. *)
Lemma consistency_complete (leaves : list bytes) (m : N) :
  fits leaves → 0 < m → m ≤ lengthN leaves →
  ∃ proof, consistency_proof leaves m = Some proof ∧
           verify_consistency m (lengthN leaves) proof
             (root (take (N.to_nat m) leaves)) (root leaves) = true.
Proof. apply consistency_verifies. Qed.

(** C4. Soundness of consistency proofs: if the verifier accepts a proof
    between the root of an [m]-entry log and the root of a longer log, then the
    first is a prefix of the second, so history was not rewritten, unless two of
    the inputs hashed collide under SHA-256. *)
Theorem consistency_sound (old new : list bytes) (proof : list bytes) :
  fits new → Forall hash32 proof → Forall hash32 old → Forall hash32 new →
  coll_free digest_sha256
    (tree_inputs old ++ tree_inputs new
     ++ consistency_inputs (lengthN old) (lengthN new) proof (root old)) →
  verify_consistency (lengthN old) (lengthN new) proof (root old) (root new) = true →
  old = take (length old) new.
Proof.
  intros Hf HP Hold Hnew Hcf. unfold verify_consistency.
  destruct (N.eqb_spec (lengthN old) 0); [done|].
  destruct (N.ltb_spec (lengthN new) (lengthN old)); [done|]. cbn [orb].
  assert (fits old) as Hfo by (unfold fits in *; lia).
  assert (tree_inputs old ⊆ tree_inputs old ++ tree_inputs new
    ++ consistency_inputs (lengthN old) (lengthN new) proof (root old)) as So
    by (intros x Hx; apply elem_of_app; auto).
  assert (tree_inputs new ⊆ tree_inputs old ++ tree_inputs new
    ++ consistency_inputs (lengthN old) (lengthN new) proof (root old)) as Sn
    by (intros x Hx; rewrite !elem_of_app; auto).
  destruct (N.eqb_spec (lengthN old) (lengthN new)) as [Elen|Hne].
  - intros [_ E%bool_decide_eq_true]%andb_true_iff. rewrite take_ge by lia.
    rewrite <-!tr_root_fst in E by done. eapply tr_root_inj; eauto. lia.
  - rewrite <-(tr_root_fst old Hfo) at 1.
    pose proof (recompute_consistency_hom tr_node node_hash fst ltac:(done)
      (lengthN old) (lengthN new) (tr_leaf <$> proof) (tr_leaf (root old))) as Hh.
    rewrite <-list_fmap_compose in Hh. unfold compose in Hh. simpl in Hh.
    rewrite list_fmap_id in Hh. rewrite tr_root_fst, Hh by done.
    unfold consistency_inputs in *.
    destruct (recompute_consistency tr_node _ _ _ _) as [[[fr sr] it]|] eqn:Hr; [|done].
    simpl. intros [[_ E1%bool_decide_eq_true]%andb_true_iff E2%bool_decide_eq_true]%andb_true_iff.
    rewrite recompute_consistency_run in Hr.
    replace (length old) with (N.to_nat (lengthN old)) by lia.
    eapply (run_sound _ new true (lengthN old) old (tr_leaf <$> proof));
      [done|split; [lia|left; lia]|lia|done|done| | |exact Hcf|exact Sn|exact So|exact Hr|..].
    + apply root_hash32; done.
    + by apply Forall_fmap.
    + intros x Hx. rewrite !elem_of_app. auto 10.
    + intros x Hx. rewrite !elem_of_app. auto 10.
    + by rewrite E1, tr_root_fst.
    + by rewrite E2, tr_root_fst.
Qed.
End theorems.

(** ** Runs at concrete inputs *)

Section witnesses.
#[local] Existing Instance toy_digests.

Definition toy_leaves : list bytes :=
  (λ i, leaf_hash (to_le_bytes 2 i)) <$> [10; 11; 12; 13; 14; 15; 16].

Lemma toy_leaves_hash32 : Forall hash32 toy_leaves.
Proof. vm_decide. Defined.

Lemma toy_fits (l : list bytes) : (length l ≤ 100)%nat → fits l.
Proof. unfold fits. lia. Qed.

Lemma inclusion_exact_witness :
  (∃ proof, inclusion_proof toy_leaves 4 = Some proof ∧
            verify_inclusion (leaf_hash (to_le_bytes 2 14)) 4 7 proof (root toy_leaves) = true) ∧
  toy_leaves !! 4%nat = Some (leaf_hash (to_le_bytes 2 14)).
Proof.
  destruct (inclusion_exact toy_leaves 4 (leaf_hash (to_le_bytes 2 14))) as [Hc Hs];
    [apply toy_fits; vm_decide|apply toy_leaves_hash32|].
  split; [apply Hc; reflexivity|]. apply (Hs (default [] (inclusion_proof toy_leaves 4))).
  - vm_decide.
  - apply coll_freeb_spec. vm_compute. reflexivity.
  - vm_compute. reflexivity.
Defined.

Lemma consistency_complete_witness :
  ∃ proof, consistency_proof toy_leaves 3 = Some proof ∧
           verify_consistency 3 7 proof (root (take 3 toy_leaves)) (root toy_leaves) = true.
Proof.
  apply (consistency_complete toy_leaves 3); [apply toy_fits; vm_decide|lia|vm_compute; discriminate].
Defined.

Lemma consistency_sound_witness : take 3 toy_leaves = take 3 toy_leaves.
Proof.
  apply (consistency_sound (take 3 toy_leaves) toy_leaves
    (default [] (consistency_proof toy_leaves 3))).
  - apply toy_fits; vm_decide.
  - vm_decide.
  - vm_decide.
  - apply toy_leaves_hash32.
  - apply coll_freeb_spec. vm_compute. reflexivity.
  - vm_compute. reflexivity.
Defined.
End witnesses.
