(* ===== verification/Aead.v ===== *)
(** [crates/secgit-crypto/src/aead.rs]: sealed envelopes and key wrapping. *)

From S2P Require Import Prelude Backend Toy Envelope Primitives.

Module Aead.
Section aead.
Context `{RND : SystemRandom} `{AB : AeadBackend}.

Definition VERSION : byte := x01.

(** [SymKey([u8; 32])]. *)
Definition SymKey : Type := bytes.
Definition key_wf (k : SymKey) : Prop := length k = 32%nat.

Definition generate : eff rng CryptoError SymKey := random_bytes 32.

(** [UnboundKey::new] accepts keys of the algorithm's length, 32 for both. *)
Definition unbound (scheme : AeadScheme.t) (key : SymKey) : result CryptoError (AeadAlg * bytes) :=
  let alg := match scheme with
             | AeadScheme.Aes256Gcm => AES_256_GCM
             | AeadScheme.ChaCha20Poly1305 => CHACHA20_POLY1305
             end in
  if Nat.eqb (length key) 32 then Ok (alg, key) else Err (KeyError "bad aead key length").

Definition seal (scheme : AeadScheme.t) (key : SymKey) (aad plaintext : bytes)
    : eff rng CryptoError bytes :=
  k ← lift (unbound scheme key);
  nonce ← random_bytes NONCE_LEN;
  ct ← lift (ok_or BackendError (seal_in_place_append_tag k.1 k.2 nonce aad plaintext));
  mret (encode {| env_kind := Kind.Aead; env_scheme := AeadScheme.as_u16 scheme;
                  env_version := VERSION; env_body := nonce ++ ct |}).

Definition open (key : SymKey) (aad envelope_bytes : bytes) : result CryptoError bytes :=
  env ← decode envelope_bytes;
  if negb (bool_decide (env_kind env = Kind.Aead)) then Err (Malformed "not an aead envelope")
  else if negb (bool_decide (env_version env = VERSION)) then Err (UnknownVersion (env_version env))
  else
    scheme ← AeadScheme.from_u16 (env_scheme env);
    k ← unbound scheme key;
    let '(nonce, r) := reader_take NONCE_LEN (reader_new (env_body env)) in
    nonce ← nonce;
    ct ← (reader_rest r).1;
    ok_or AuthFailed (open_in_place k.1 k.2 nonce aad ct).

Definition wrap_aad : bytes := as_bytes "secgit/dek-wrap/v1".

Definition wrap_key (scheme : AeadScheme.t) (kek dek : SymKey) : eff rng CryptoError bytes :=
  seal scheme kek wrap_aad dek.

Definition unwrap_key (kek : SymKey) (wrapped : bytes) : result CryptoError SymKey :=
  pt ← open kek wrap_aad wrapped;
  if Nat.eqb (length pt) 32 then Ok pt else Err (KeyError "unwrapped key wrong length").

(** ** Theory *)

(** The envelope [seal] makes from a nonce and a ciphertext. *)
Definition sealed (scheme : AeadScheme.t) (nonce ct : bytes) : bytes :=
  encode {| env_kind := Kind.Aead; env_scheme := AeadScheme.as_u16 scheme;
            env_version := VERSION; env_body := nonce ++ ct |}.

Definition alg_of (scheme : AeadScheme.t) : AeadAlg :=
  match scheme with
  | AeadScheme.Aes256Gcm => AES_256_GCM
  | AeadScheme.ChaCha20Poly1305 => CHACHA20_POLY1305
  end.

Lemma unbound_ok scheme key a : unbound scheme key = Ok a ↔ key_wf key ∧ a = (alg_of scheme, key).
Proof.
  unfold unbound, key_wf, alg_of. destruct (Nat.eqb_spec (length key) 32) as [E|E].
  - split; [by intros [= <-]|by intros [_ ->]].
  - split; [done|]. by intros [? _].
Qed.

Lemma random_bytes_ok n g b g' : random_bytes n g = (Ok b, g') → length b = n.
Proof.
  unfold random_bytes. destruct (rng_fill n g) as [[b'|] g1] eqn:E; intros [= <- <-].
  by eapply rng_fill_len.
Qed.

Lemma seal_inv scheme key aad pt g c g' :
  seal scheme key aad pt g = (Ok c, g') →
  ∃ nonce ct, length nonce = NONCE_LEN ∧ key_wf key ∧
    seal_in_place_append_tag (alg_of scheme) key nonce aad pt = Some ct ∧
    c = sealed scheme nonce ct.
Proof.
  unfold seal, mbind, eff_mbind, lift, mret, eff_mret.
  destruct (unbound scheme key) as [k|] eqn:Hk; [|done].
  apply unbound_ok in Hk as [Hw ->].
  destruct (random_bytes NONCE_LEN g) as [[nonce|] g1] eqn:Hn; [|done].
  apply random_bytes_ok in Hn. simpl.
  destruct (seal_in_place_append_tag _ _ _ _ _) as [ct|] eqn:Hs; [|done].
  intros [= <- <-]. eauto 10.
Qed.

Lemma sealed_wf scheme nonce ct :
  env_wf {| env_kind := Kind.Aead; env_scheme := AeadScheme.as_u16 scheme;
            env_version := VERSION; env_body := nonce ++ ct |}.
Proof. by destruct scheme. Qed.

Lemma open_sealed key aad scheme nonce ct :
  length nonce = NONCE_LEN → key_wf key →
  open key aad (sealed scheme nonce ct) =
  ok_or AuthFailed (open_in_place (alg_of scheme) key nonce aad ct).
Proof.
  intros Hn Hk. unfold open, sealed. rewrite decode_encode by apply sealed_wf.
  cbn -[reader_take reader_rest NONCE_LEN AeadScheme.from_u16 AeadScheme.as_u16 unbound].
  rewrite aead_scheme_from_as. cbn -[reader_take reader_rest NONCE_LEN unbound].
  rewrite (proj2 (unbound_ok scheme key _) (conj Hk eq_refl)).
  destruct (reader_new_ok (nonce ++ ct)) as [Hr Hrem].
  destruct (reader_take_spec _ nonce ct Hr Hrem) as (r' & Ht & Hr' & _).
  rewrite Hn in Ht. cbn -[reader_take reader_rest NONCE_LEN]. rewrite Ht. simpl.
  unfold remaining in Hr'. by rewrite Hr'.
Qed.

(** Whatever opens is an envelope that sealing gives. *)
Lemma open_inv key aad c pt :
  open key aad c = Ok pt →
  ∃ scheme nonce ct, length nonce = NONCE_LEN ∧ key_wf key ∧
    c = sealed scheme nonce ct ∧
    seal_in_place_append_tag (alg_of scheme) key nonce aad pt = Some ct.
Proof.
  unfold open, mbind, result_mbind. destruct (decode c) as [[k s v body]|] eqn:Hd; [|done].
  apply encode_decode in Hd as [<- _]. cbn [env_kind env_scheme env_version env_body].
  case_bool_decide as Hk; [subst k|done]. case_bool_decide as Hv; [subst v|done]. cbn [negb].
  destruct (AeadScheme.from_u16 s) as [scheme|] eqn:Hs; [|done].
  apply aead_scheme_as_from in Hs. subst s.
  destruct (unbound scheme key) as [a|] eqn:Hu; [|done]. apply unbound_ok in Hu as [Hw ->].
  destruct (reader_take NONCE_LEN (reader_new body)) as [[nonce|] r] eqn:Ht; [|done].
  destruct (reader_new_ok body) as [Hr Hrem].
  apply reader_take_inv in Ht as (Hl & Hb & _); [|done]. rewrite Hrem in Hb. simpl.
  unfold remaining in Hb. destruct (open_in_place _ _ _ _ _) as [p|] eqn:Ho; [|done].
  intros [= ->]. apply aead_seal_open in Ho. exists scheme, nonce, (drop (rd_pos r) (rd_buf r)).
  unfold sealed. rewrite <-Hb. eauto.
Qed.

Lemma seal_open scheme key aad pt g c g' :
  seal scheme key aad pt g = (Ok c, g') → open key aad c = Ok pt.
Proof.
  intros (nonce & ct & Hn & Hk & Hs & ->)%seal_inv.
  rewrite open_sealed by done. by rewrite (aead_open_seal _ _ _ _ _ _ Hs).
Qed.

(** Sealing and opening agree: a byte string opens to [pt] under a key
    and associated data exactly when it is the envelope of some scheme, nonce and
    ciphertext that the cipher gives for [pt]; in particular what [seal] returns
    opens to what was sealed, and opening never accepts another encoding. *)
Lemma open_iff_sealed (key aad c pt : bytes) :
  open key aad c = Ok pt ↔
  ∃ scheme nonce ct, length nonce = NONCE_LEN ∧ key_wf key ∧
    c = sealed scheme nonce ct ∧
    seal_in_place_append_tag (alg_of scheme) key nonce aad pt = Some ct.
Proof.
  split; [apply open_inv|]. intros (scheme & nonce & ct & Hn & Hk & -> & Hs).
  rewrite open_sealed by done. by rewrite (aead_open_seal _ _ _ _ _ _ Hs).
Qed.

Lemma wrap_unwrap scheme kek dek g w g' :
  key_wf dek → wrap_key scheme kek dek g = (Ok w, g') → unwrap_key kek w = Ok dek.
Proof.
  unfold wrap_key, unwrap_key. intros Hd Hw. rewrite (seal_open _ _ _ _ _ _ _ Hw). simpl.
  by rewrite (proj2 (Nat.eqb_eq _ _) Hd).
Qed.

Lemma unwrap_key_wf kek w dek : unwrap_key kek w = Ok dek → key_wf dek.
Proof.
  unfold unwrap_key, mbind, result_mbind. destruct (open kek wrap_aad w) as [pt|]; [|done].
  destruct (Nat.eqb_spec (length pt) 32); [|done]. by intros [= <-].
Qed.
End aead.

Section witnesses.
#[local] Existing Instance toy_aead.

Lemma open_iff_sealed_witness :
  open (to_le_bytes 32 7) [x09]
    (sealed DEFAULT_AEAD (to_le_bytes 12 3)
       (default [] (toy_seal AES_256_GCM (to_le_bytes 32 7) (to_le_bytes 12 3) [x09] (as_bytes "hello"))))
  = Ok (as_bytes "hello").
Proof.
  apply open_iff_sealed. do 3 eexists. split; [|split; [|split; [reflexivity|]]]; [done|done|vm_refl].
Defined.
End witnesses.
End Aead.
