(* ===== verification/Sig.v ===== *)
(** [crates/secgit-crypto/src/sig.rs] and [mldsa.rs]: hybrid signatures, valid
    only when the Ed25519 half and the ML-DSA half both verify. *)

From S2P Require Import Prelude Backend Toy Envelope Primitives.

Module Sig.
Section sig.
Context `{RND : SystemRandom} `{ED : Ed25519} `{EG : !Ed25519Gen} `{ML : MlDsa} `{HX : Hex}.

Definition VERSION : byte := x01.

(** [mldsa.rs] *)
Inductive Param := MlDsa65 | MlDsa87.

Definition param_alg (p : Param) : MlDsaAlg :=
  match p with MlDsa65 => ML_DSA_65 | MlDsa87 => ML_DSA_87 end.

Record MlDsaKey := mkMlDsaKey {
  mk_kp : mldsa_keypair;
  mk_seed : bytes;
  mk_public : bytes;
}.

Definition mldsa_key_from_seed (param : Param) (seed : bytes) : result CryptoError MlDsaKey :=
  kp ← ok_or BackendError (mldsa_from_seed (param_alg param) seed);
  Ok {| mk_kp := kp; mk_seed := seed; mk_public := mldsa_public kp |}.

Definition mldsa_key_generate (param : Param) : eff rng CryptoError MlDsaKey :=
  seed ← random_vec 32; lift (mldsa_key_from_seed param seed).

(** The library writes into a buffer of [signature_len] bytes and the code
    truncates it to the returned length: the signature itself. *)
Definition mldsa_key_sign (k : MlDsaKey) (msg : bytes) : result CryptoError bytes :=
  ok_or BackendError (mldsa_sign (mk_kp k) msg).

Definition mldsa_verify_param (param : Param) (public msg sig : bytes) : bool :=
  mldsa_verify (param_alg param) public msg sig.

(** [sig.rs] *)
Definition param_for (s : SigScheme.t) : Param :=
  match s with
  | SigScheme.Ed25519MlDsa65 => MlDsa65
  | SigScheme.Ed25519MlDsa87 => MlDsa87
  end.

Record SigningKey := mkSigningKey {
  sk_scheme : SigScheme.t;
  sk_ed : ed_keypair;
  sk_ed_pub : bytes;
  sk_mldsa : MlDsaKey;
}.

Record SigningKeyBundle := mkBundle {
  b_scheme : N;
  b_ed25519_pkcs8_hex : string;
  b_mldsa_seed_hex : string;
}.

Record VerifyingKey := mkVerifyingKey {
  vk_scheme : N;
  vk_ed25519_pub : bytes;
  vk_mldsa_pub : bytes;
}.

Definition generate_pkcs8 : eff rng CryptoError bytes := λ g,
  match ed_generate_pkcs8 g with
  | (Some d, g') => (Ok d, g')
  | (None, g') => (Err BackendError, g')
  end.

Definition generate (scheme : SigScheme.t) : eff rng CryptoError SigningKey :=
  pkcs8 ← generate_pkcs8;
  ed ← lift (ok_or BackendError (ed_from_pkcs8 pkcs8));
  mldsa ← mldsa_key_generate (param_for scheme);
  mret {| sk_scheme := scheme; sk_ed := ed; sk_ed_pub := ed_public ed; sk_mldsa := mldsa |}.

Definition generate_with_bundle (scheme : SigScheme.t)
    : eff rng CryptoError (SigningKey * SigningKeyBundle) :=
  pkcs8 ← generate_pkcs8;
  ed ← lift (ok_or BackendError (ed_from_pkcs8 pkcs8));
  mldsa ← mldsa_key_generate (param_for scheme);
  mret ({| sk_scheme := scheme; sk_ed := ed; sk_ed_pub := ed_public ed; sk_mldsa := mldsa |},
        {| b_scheme := SigScheme.as_u16 scheme;
           b_ed25519_pkcs8_hex := hex_encode pkcs8;
           b_mldsa_seed_hex := hex_encode (mk_seed mldsa) |}).

Definition from_bundle (bundle : SigningKeyBundle) : result CryptoError SigningKey :=
  scheme ← SigScheme.from_u16 (b_scheme bundle);
  pkcs8 ← ok_or (KeyError "bad pkcs8 hex") (hex_decode (b_ed25519_pkcs8_hex bundle));
  ed ← ok_or BackendError (ed_from_pkcs8 pkcs8);
  seed ← ok_or (KeyError "bad mldsa seed hex") (hex_decode (b_mldsa_seed_hex bundle));
  mldsa ← mldsa_key_from_seed (param_for scheme) seed;
  Ok {| sk_scheme := scheme; sk_ed := ed; sk_ed_pub := ed_public ed; sk_mldsa := mldsa |}.

Definition verifying_key (sk : SigningKey) : VerifyingKey :=
  {| vk_scheme := SigScheme.as_u16 (sk_scheme sk);
     vk_ed25519_pub := sk_ed_pub sk;
     vk_mldsa_pub := mk_public (sk_mldsa sk) |}.

Definition sign (sk : SigningKey) (msg : bytes) : result CryptoError bytes :=
  let ed_sig := ed_sign (sk_ed sk) msg in
  mldsa_sig ← mldsa_key_sign (sk_mldsa sk) msg;
  Ok (encode {| env_kind := Kind.Signature; env_scheme := SigScheme.as_u16 (sk_scheme sk);
                env_version := VERSION;
                env_body := write_lp32 ed_sig ++ write_lp32 mldsa_sig |}).

Definition verify (vk : VerifyingKey) (msg envelope_bytes : bytes) : result CryptoError unit :=
  env ← decode envelope_bytes;
  if negb (bool_decide (env_kind env = Kind.Signature))
  then Err (Malformed "not a signature envelope")
  else if negb (bool_decide (env_version env = VERSION))
  then Err (UnknownVersion (env_version env))
  else if negb (env_scheme env =? vk_scheme vk)
  then Err (Malformed "scheme mismatch with verifying key")
  else
    scheme ← SigScheme.from_u16 (env_scheme env);
    let '(ed_sig, r) := reader_lp32 (reader_new (env_body env)) in
    ed_sig ← ed_sig;
    let '(mldsa_sig, r) := reader_lp32 r in
    mldsa_sig ← mldsa_sig;
    if negb (ed_verify (vk_ed25519_pub vk) msg ed_sig) then Err BadSignature
    else if negb (mldsa_verify_param (param_for scheme) (vk_mldsa_pub vk) msg mldsa_sig)
    then Err BadSignature
    else Ok ().

(** ** Theory *)

(** A key whose public parts belong to its private parts. *)
Definition sk_wf (sk : SigningKey) : Prop :=
  sk_ed_pub sk = ed_public (sk_ed sk) ∧
  ∃ seed, mldsa_from_seed (param_alg (param_for (sk_scheme sk))) seed = Some (mk_kp (sk_mldsa sk)) ∧
          mk_seed (sk_mldsa sk) = seed ∧
          mk_public (sk_mldsa sk) = mldsa_public (mk_kp (sk_mldsa sk)).

Lemma mldsa_key_from_seed_ok param seed k :
  mldsa_key_from_seed param seed = Ok k →
  mldsa_from_seed (param_alg param) seed = Some (mk_kp k) ∧ mk_seed k = seed ∧
  mk_public k = mldsa_public (mk_kp k).
Proof.
  unfold mldsa_key_from_seed, mbind, result_mbind.
  destruct (mldsa_from_seed _ seed) as [kp|]; [|done]. by intros [= <-].
Qed.

Lemma generate_with_bundle_wf scheme g sk b g' :
  generate_with_bundle scheme g = (Ok (sk, b), g') → sk_wf sk ∧ from_bundle b = Ok sk.
Proof.
  unfold generate_with_bundle, mldsa_key_generate, mbind, eff_mbind, lift, mret, eff_mret.
  destruct (generate_pkcs8 g) as [[d|] g1]; [|done].
  destruct (ed_from_pkcs8 d) as [ed|] eqn:Hed; [|done]. simpl.
  destruct (random_vec 32 g1) as [[seed|] g2]; [|done].
  destruct (mldsa_key_from_seed (param_for scheme) seed) as [k|] eqn:Hk; [|done].
  intros [= <- <- <-]. pose proof (mldsa_key_from_seed_ok _ _ _ Hk) as (Hs & He & Hp).
  split; [split; [done|]; simpl; eauto|].
  unfold from_bundle, mbind, result_mbind.
  cbn [b_scheme b_ed25519_pkcs8_hex b_mldsa_seed_hex].
  rewrite sig_scheme_from_as, hex_decode_encode. simpl. rewrite Hed. simpl.
  rewrite hex_decode_encode. simpl. by rewrite He, Hk.
Qed.

Lemma signing_key_wf scheme g sk g' : generate scheme g = (Ok sk, g') → sk_wf sk.
Proof.
  unfold generate, mldsa_key_generate, mbind, eff_mbind, lift, mret, eff_mret.
  destruct (generate_pkcs8 g) as [[d|] g1]; [|done]. destruct (ed_from_pkcs8 d) as [ed|]; [|done]. simpl.
  destruct (random_vec 32 g1) as [[seed|] g2]; [|done].
  destruct (mldsa_key_from_seed (param_for scheme) seed) as [k|] eqn:Hk; [|done].
  intros [= <- <-]. apply mldsa_key_from_seed_ok in Hk as (Hs & He & Hp). split; [done|]; simpl; eauto.
Qed.

Lemma from_bundle_wf b sk : from_bundle b = Ok sk → sk_wf sk.
Proof.
  unfold from_bundle, mbind, result_mbind.
  destruct (SigScheme.from_u16 _) as [scheme|]; [|done].
  destruct (hex_decode (b_ed25519_pkcs8_hex b)) as [d|]; [|done]. simpl.
  destruct (ed_from_pkcs8 d) as [ed|]; [|done]. simpl.
  destruct (hex_decode (b_mldsa_seed_hex b)) as [seed|]; [|done]. simpl.
  destruct (mldsa_key_from_seed _ seed) as [k|] eqn:Hk; [|done]. intros [= <-].
  pose proof (mldsa_key_from_seed_ok _ _ _ Hk) as (Hs & He & Hp).
  split; [done|]. simpl. eauto.
Qed.

Lemma sig_scheme_as_from v scheme : SigScheme.from_u16 v = Ok scheme → v = SigScheme.as_u16 scheme.
Proof. unfold SigScheme.from_u16. destruct (N.eqb_spec v 1), (N.eqb_spec v 2); intros [= <-]; simpl; congruence. Qed.

(** The exact acceptance condition. *)
Lemma verify_ok vk msg s :
  verify vk msg s = Ok () ↔
  ∃ scheme ed ml rest,
    vk_scheme vk = SigScheme.as_u16 scheme ∧
    s = encode {| env_kind := Kind.Signature; env_scheme := vk_scheme vk;
                  env_version := VERSION;
                  env_body := write_lp32 ed ++ write_lp32 ml ++ rest |} ∧
    lengthN ed < 2 ^ 32 ∧ lengthN ml < 2 ^ 32 ∧
    ed_verify (vk_ed25519_pub vk) msg ed = true ∧
    mldsa_verify (param_alg (param_for scheme)) (vk_mldsa_pub vk) msg ml = true.
Proof.
  unfold verify, mbind, result_mbind. split.
  - destruct (decode s) as [[k sc v body]|] eqn:Hd; [|done].
    apply encode_decode in Hd as [<- _]. cbn [env_kind env_scheme env_version env_body].
    case_bool_decide as Hk; [subst k|done]. case_bool_decide as Hv; [subst v|done]. cbn [negb].
    destruct (N.eqb_spec sc (vk_scheme vk)) as [->|]; [|done]. cbn [negb].
    destruct (SigScheme.from_u16 _) as [scheme|] eqn:Hs; [|done].
    apply sig_scheme_as_from in Hs as Hsc.
    destruct (reader_lp32 (reader_new body)) as [[ed|] r1] eqn:H1; [|done].
    destruct (reader_lp32 r1) as [[ml|] r2] eqn:H2; [|done].
    destruct (reader_new_ok body) as [Hr Hrem].
    apply reader_lp32_inv in H1 as (E1 & L1 & O1); [|done].
    apply reader_lp32_inv in H2 as (E2 & L2 & O2); [|done].
    destruct (ed_verify _ msg ed) eqn:Hed; [|done].
    destruct (mldsa_verify_param _ _ msg ml) eqn:Hml; [|done]. intros _.
    exists scheme, ed, ml, (remaining r2). rewrite <-E2, <-E1, Hrem. auto 10.
  - intros (scheme & ed & ml & rest & Hsc & -> & L1 & L2 & Hed & Hml).
    rewrite decode_encode by (unfold env_wf; simpl; rewrite Hsc; by destruct scheme).
    cbn [env_kind env_scheme env_version env_body].
    rewrite !bool_decide_eq_true_2, N.eqb_refl by done. cbn [negb].
    rewrite Hsc, sig_scheme_from_as.
    destruct (reader_new_ok (write_lp32 ed ++ write_lp32 ml ++ rest)) as [Hr Hrem].
    destruct (reader_lp32_spec _ ed _ Hr L1 Hrem) as (r1 & -> & R1 & O1).
    destruct (reader_lp32_spec _ ml _ O1 L2 R1) as (r2 & -> & R2 & O2).
    rewrite Hed. unfold mldsa_verify_param. by rewrite Hml.
Qed.

Lemma sign_verify sk msg s : sk_wf sk → sign sk msg = Ok s → verify (verifying_key sk) msg s = Ok ().
Proof.
  intros [Hpub (seed & Hseed & _ & Hml)]. unfold sign, mbind, result_mbind, mldsa_key_sign.
  destruct (mldsa_sign _ msg) as [ml|] eqn:Hm; [|done]. intros [= <-].
  apply verify_ok. exists (sk_scheme sk), (ed_sign (sk_ed sk) msg), ml, [].
  rewrite app_nil_r. repeat split.
  - by rewrite ed_sign_len.
  - by eapply mldsa_sign_len.
  - simpl. rewrite Hpub. apply ed_verify_sign.
  - simpl. rewrite Hml. by eapply mldsa_verify_sign.
Qed.

(** The acceptance condition of hybrid signatures, exactly: the artifact is
    a signature envelope of this version and of the pinned key's scheme, its body
    starts with two length-prefixed blobs, and both verify, the one under the
    pinned Ed25519 key and the other under the pinned ML-DSA key.  Nothing is asked
    of what follows the two blobs: an accepted signature stays accepted when bytes
    are appended to it. *)
Lemma verify_exact (vk : VerifyingKey) (msg s : bytes) :
  (verify vk msg s = Ok () ↔
   ∃ scheme ed ml rest,
     SigScheme.from_u16 (vk_scheme vk) = Ok scheme ∧
     s = MAGIC ++ [Kind.as_u8 Kind.Signature] ++ to_le_bytes 2 (vk_scheme vk) ++ [VERSION]
           ++ write_lp32 ed ++ write_lp32 ml ++ rest ∧
     lengthN ed < 2 ^ 32 ∧ lengthN ml < 2 ^ 32 ∧
     ed_verify (vk_ed25519_pub vk) msg ed = true ∧
     mldsa_verify (param_alg (param_for scheme)) (vk_mldsa_pub vk) msg ml = true) ∧
  (verify vk msg s = Ok () → ∀ extra, verify vk msg (s ++ extra) = Ok ()).
Proof.
  split.
  - rewrite verify_ok. split; intros (scheme & ed & ml & rest & Hs & Hrest); exists scheme, ed, ml, rest.
    + split; [by rewrite Hs, sig_scheme_from_as|exact Hrest].
    + split; [by apply sig_scheme_as_from|exact Hrest].
  - intros (scheme & ed & ml & rest & Hs & -> & H)%verify_ok extra. apply verify_ok.
    exists scheme, ed, ml, (rest ++ extra). split; [done|]. split; [|done].
    unfold encode. cbn [env_kind env_scheme env_version env_body]. by rewrite <-!(assoc_L (++)).
Qed.

(** Signing keys survive persistence: the bundle stored for a generated
    key loads back to the same key, and every signature that key makes verifies
    under its verifying key. *)
Lemma bundle_roundtrip (scheme : SigScheme.t) (g g' : rng) (sk : SigningKey)
    (b : SigningKeyBundle) :
  generate_with_bundle scheme g = (Ok (sk, b), g') →
  from_bundle b = Ok sk ∧
  ∀ msg s, sign sk msg = Ok s → verify (verifying_key sk) msg s = Ok ().
Proof.
  intros [Hw Hb]%generate_with_bundle_wf. split; [done|]. intros. by apply sign_verify.
Qed.
End sig.

Section witnesses.
#[local] Existing Instance toy_rng.
#[local] Existing Instance toy_ed25519.
#[local] Existing Instance toy_ed25519_gen.
#[local] Existing Instance toy_mldsa.
#[local] Existing Instance toy_hex.

Definition toy_generated : result CryptoError (SigningKey * SigningKeyBundle) * N :=
  generate_with_bundle LONG_LIVED_SIG (5 : @rng toy_rng).

Definition toy_sk : SigningKey :=
  {| sk_scheme := LONG_LIVED_SIG; sk_ed := to_le_bytes 32 144324 : @ed_keypair toy_ed25519;
     sk_ed_pub := to_le_bytes 32 144324;
     sk_mldsa := {| mk_kp := to_le_bytes 32 152243 : @mldsa_keypair toy_mldsa;
                    mk_seed := to_le_bytes 32 152243;
                    mk_public := to_le_bytes 32 152243 |} |}.

Definition toy_bundle : SigningKeyBundle :=
  {| b_scheme := 2; b_ed25519_pkcs8_hex := hex_enc (to_le_bytes 32 144324);
     b_mldsa_seed_hex := hex_enc (to_le_bytes 32 152243) |}.

Definition toy_signature : bytes :=
  match sign toy_sk (as_bytes "checkpoint") with Ok s => s | Err _ => [] end.

Lemma verify_exact_witness :
  verify (verifying_key toy_sk) (as_bytes "checkpoint") toy_signature = Ok () ∧
  verify (verifying_key toy_sk) (as_bytes "checkpoint") (toy_signature ++ [x2a]) = Ok ().
Proof.
  assert (verify (verifying_key toy_sk) (as_bytes "checkpoint") toy_signature = Ok ()) as H by vm_refl.
  split; [exact H|].
  exact (proj2 (verify_exact (verifying_key toy_sk) (as_bytes "checkpoint") toy_signature) H [x2a]).
Defined.

Lemma bundle_roundtrip_witness :
  from_bundle toy_bundle = Ok toy_sk ∧
  ∀ msg s, sign toy_sk msg = Ok s → verify (verifying_key toy_sk) msg s = Ok ().
Proof.
  apply (bundle_roundtrip LONG_LIVED_SIG (5 : @rng toy_rng) (7 : @rng toy_rng)).
  vm_refl.
Defined.
End witnesses.
End Sig.
