(* ===== verification/Kem.v ===== *)
(** [crates/secgit-crypto/src/kem.rs]: the hybrid X25519 + ML-KEM-768 channel
    to which the key broker seals a released key. *)

From S2P Require Import Prelude Backend Toy Envelope Primitives Aead.

Module Kem.
Section kem.
Context `{RND : SystemRandom} `{MAC : Hmacs} `{AB : AeadBackend} `{XK : X25519} `{MK : !MlKem}.

Definition VERSION : byte := x01.
Definition HKDF_INFO : bytes := as_bytes "secgit/hybrid-kem/x25519+mlkem768/v1".
Definition HKDF_SALT : bytes := as_bytes "secgit-hybrid-kem-salt".

Record RecipientPublic := mkRecipient { rp_x25519 : bytes; rp_mlkem_ek : bytes }.

Definition to_bytes (p : RecipientPublic) : bytes := rp_x25519 p ++ write_lp32 (rp_mlkem_ek p).

Definition from_bytes (b : bytes) : result CryptoError RecipientPublic :=
  let '(x, r) := reader_take 32 (reader_new b) in
  x ← x;
  let '(ek, r) := reader_lp32 r in
  ek ← ek;
  Ok {| rp_x25519 := x; rp_mlkem_ek := ek |}.

Record RecipientKeypair := mkKeypair {
  kp_x_secret : bytes;
  kp_x_public : bytes;
  kp_mlkem_dk : kem_dk;
  kp_mlkem_ek : bytes;
}.

Definition dk_generate : eff rng CryptoError kem_dk := λ g,
  match kem_generate g with
  | (Some dk, g') => (Ok dk, g')
  | (None, g') => (Err BackendError, g')
  end.

Definition generate : eff rng CryptoError RecipientKeypair :=
  seed ← random_bytes 32;
  dk ← dk_generate;
  ek ← lift (ok_or BackendError (kem_ek_bytes dk));
  mret {| kp_x_secret := seed; kp_x_public := x_public seed;
          kp_mlkem_dk := dk; kp_mlkem_ek := ek |}.

Definition public (kp : RecipientKeypair) : RecipientPublic :=
  {| rp_x25519 := kp_x_public kp; rp_mlkem_ek := kp_mlkem_ek kp |}.

Definition combine (x_ss mlkem_ss : bytes) : result CryptoError bytes :=
  hkdf_sha384 (x_ss ++ mlkem_ss) HKDF_SALT HKDF_INFO 32.

(** [UnboundKey::new(&AES_256_GCM, &aead_key)]. *)
Definition aes_key (k : bytes) : result CryptoError bytes :=
  if Nat.eqb (length k) 32 then Ok k else Err (KeyError "aead").

Definition encapsulate (ek : bytes) : eff rng CryptoError (bytes * bytes) := λ g,
  match kem_encapsulate ek g with
  | (Some r, g') => (Ok r, g')
  | (None, g') => (Err BackendError, g')
  end.

Definition seal_to (recipient : RecipientPublic) (secret : bytes) : eff rng CryptoError bytes :=
  seed ← random_bytes 32;
  let eph_public := x_public seed in
  let x_ss := x_dh seed (rp_x25519 recipient) in
  _ ← (if kem_ek_valid (rp_mlkem_ek recipient) then mret () else throw (KeyError "bad ml-kem ek"));
  ct_ss ← encapsulate (rp_mlkem_ek recipient);
  let '(mlkem_ct, mlkem_ss) := ct_ss in
  aead_key ← lift (combine x_ss mlkem_ss);
  k ← lift (aes_key aead_key);
  nonce ← random_bytes NONCE_LEN;
  ct ← lift (ok_or BackendError (seal_in_place_append_tag AES_256_GCM k nonce [] secret));
  mret (encode {| env_kind := Kind.WrappedKey;
                  env_scheme := KemScheme.as_u16 KemScheme.X25519MlKem768;
                  env_version := VERSION;
                  env_body := eph_public ++ write_lp32 mlkem_ct ++ nonce ++ ct |}).

Definition open (kp : RecipientKeypair) (envelope_bytes : bytes) : result CryptoError bytes :=
  env ← decode envelope_bytes;
  if negb (bool_decide (env_kind env = Kind.WrappedKey))
  then Err (Malformed "not a wrapped-key envelope")
  else if negb (bool_decide (env_version env = VERSION))
  then Err (UnknownVersion (env_version env))
  else
    _ ← KemScheme.from_u16 (env_scheme env);
    let '(eph_pub, r) := reader_take 32 (reader_new (env_body env)) in
    eph_pub ← eph_pub;
    let '(mlkem_ct, r) := reader_lp32 r in
    mlkem_ct ← mlkem_ct;
    let '(nonce, r) := reader_take NONCE_LEN r in
    nonce ← nonce;
    in_out ← (reader_rest r).1;
    let x_ss := x_dh (kp_x_secret kp) eph_pub in
    mlkem_ss ← ok_or BackendError (kem_decapsulate (kp_mlkem_dk kp) mlkem_ct);
    aead_key ← combine x_ss mlkem_ss;
    k ← aes_key aead_key;
    ok_or AuthFailed (open_in_place AES_256_GCM k nonce [] in_out).

(** ** Theory *)

Lemma from_to_bytes p :
  length (rp_x25519 p) = 32%nat → lengthN (rp_mlkem_ek p) < 2 ^ 32 →
  from_bytes (to_bytes p) = Ok p.
Proof.
  destruct p as [x ek]. simpl. intros Hx Hek. unfold from_bytes, to_bytes. simpl.
  destruct (reader_new_ok (x ++ write_lp32 ek)) as [Hr Hrem].
  destruct (reader_take_spec _ x _ Hr Hrem) as (r1 & H1 & R1 & O1). rewrite Hx in H1.
  rewrite <-(app_nil_r (write_lp32 ek)) in R1.
  destruct (reader_lp32_spec _ ek _ O1 Hek R1) as (r2 & H2 & _).
  rewrite H1. cbn [mbind result_mbind]. by rewrite H2.
Qed.

(** A keypair whose halves belong together. *)
Definition kp_wf (kp : RecipientKeypair) : Prop :=
  kp_x_public kp = x_public (kp_x_secret kp) ∧
  kem_ek_bytes (kp_mlkem_dk kp) = Some (kp_mlkem_ek kp).

Lemma generate_wf g kp g' : generate g = (Ok kp, g') → kp_wf kp.
Proof.
  unfold generate, mbind, eff_mbind, lift, mret, eff_mret.
  destruct (random_bytes 32 g) as [[seed|] g1]; [|done].
  destruct (dk_generate g1) as [[dk|] g2]; [|done].
  destruct (kem_ek_bytes dk) as [ek|] eqn:Hek; [|done]. simpl. by intros [= <- <-].
Qed.

Lemma combine_ok a b : ∃ k, combine a b = Ok k ∧ length k = 32%nat.
Proof.
  destruct (hkdf_sha384_ok (a ++ b) HKDF_SALT HKDF_INFO 32) as (k & E & L); [lia|].
  exists k. unfold combine. split; [done|lia].
Qed.

Lemma aes_key_ok k : length k = 32%nat → aes_key k = Ok k.
Proof. unfold aes_key. intros E. by rewrite (proj2 (Nat.eqb_eq _ _) E). Qed.

Lemma combine_aes_key a b k : combine a b = Ok k → aes_key k = Ok k.
Proof.
  intros E. destruct (combine_ok a b) as (k' & E' & L). apply aes_key_ok. congruence.
Qed.

Lemma seal_to_inv p secret g w g' :
  seal_to p secret g = (Ok w, g') →
  ∃ seed mlkem_ct mlkem_ss k nonce ct g1 g2,
    kem_encapsulate (rp_mlkem_ek p) g1 = (Some (mlkem_ct, mlkem_ss), g2) ∧
    combine (x_dh seed (rp_x25519 p)) mlkem_ss = Ok k ∧
    length nonce = NONCE_LEN ∧
    seal_in_place_append_tag AES_256_GCM k nonce [] secret = Some ct ∧
    w = encode {| env_kind := Kind.WrappedKey; env_scheme := 1; env_version := VERSION;
                  env_body := x_public seed ++ write_lp32 mlkem_ct ++ nonce ++ ct |}.
Proof.
  unfold seal_to, mbind, eff_mbind, lift, mret, eff_mret, throw.
  destruct (random_bytes 32 g) as [[seed|] g1]; [|done].
  destruct (kem_ek_valid _); [|done]. unfold encapsulate.
  destruct (kem_encapsulate _ g1) as [[[mct mss]|] g2] eqn:He; [|done].
  destruct (combine (x_dh seed (rp_x25519 p)) mss) as [k|] eqn:Hk; [|done].
  rewrite (combine_aes_key _ _ _ Hk).
  destruct (random_bytes NONCE_LEN g2) as [[nonce|] g3] eqn:Hn; [|done].
  apply Aead.random_bytes_ok in Hn. simpl.
  destruct (seal_in_place_append_tag _ _ _ _ _) as [ct|] eqn:Hs; [|done].
  intros [= <- <-]. do 8 eexists. eauto 10.
Qed.

Lemma open_seal_to kp secret g w g' :
  kp_wf kp → seal_to (public kp) secret g = (Ok w, g') → open kp w = Ok secret.
Proof.
  intros [Hx Hek]
    (seed & mct & mss & k & nonce & ct & h1 & h2 & He & Hk & Hn & Hs & ->)%seal_to_inv.
  simpl in He, Hk. rewrite Hx in Hk.
  destruct (reader_new_ok (x_public seed ++ write_lp32 mct ++ nonce ++ ct)) as [Hr Hrem].
  destruct (reader_take_spec _ (x_public seed) _ Hr Hrem) as (r1 & H1 & R1 & O1).
  rewrite x_public_len in H1.
  destruct (reader_lp32_spec _ mct _ O1 (kem_ct_len _ _ _ _ _ He) R1) as (r2 & H2 & R2 & O2).
  destruct (reader_take_spec _ nonce ct O2 R2) as (r3 & H3 & R3 & O3). rewrite Hn in H3.
  unfold open, mbind, result_mbind. rewrite decode_encode by done.
  cbn [env_kind env_scheme env_version env_body].
  rewrite !bool_decide_eq_true_2 by done. cbn [negb].
  change (KemScheme.from_u16 1) with (@Ok CryptoError _ KemScheme.X25519MlKem768). cbn match.
  rewrite H1, H2, H3. unfold reader_rest. unfold remaining in R3. rewrite R3. cbn [fst].
  rewrite (kem_agree _ _ _ _ _ _ Hek He). cbn [ok_or].
  rewrite x_dh_agree, Hk, (combine_aes_key _ _ _ Hk).
  by rewrite (aead_open_seal _ _ _ _ _ _ Hs).
Qed.
(** The release channel works end to end: a secret sealed to a
    generated recipient's public key opens, with that recipient's private keys, to
    the same secret. *)
Lemma seal_to_open (g g1 g2 g3 : rng) (kp : RecipientKeypair) (secret w : bytes) :
  generate g = (Ok kp, g1) → seal_to (public kp) secret g2 = (Ok w, g3) →
  open kp w = Ok secret.
Proof. intros Hg Hs. eapply open_seal_to; [by eapply generate_wf|exact Hs]. Qed.
End kem.

Section witnesses.
#[local] Existing Instance toy_rng.
#[local] Existing Instance toy_hmacs.
#[local] Existing Instance toy_aead.
#[local] Existing Instance toy_x25519.
#[local] Existing Instance toy_mlkem.

Definition toy_kp : RecipientKeypair :=
  {| kp_x_secret := to_le_bytes 32 (11 * 7919 + 104729);
     kp_x_public := x_public (to_le_bytes 32 (11 * 7919 + 104729));
     kp_mlkem_dk := to_le_bytes 48 (12 * 7919 + 104729) : @kem_dk toy_rng toy_mlkem;
     kp_mlkem_ek := to_le_bytes 48 (12 * 7919 + 104729) |}.

Definition toy_wrapped : bytes :=
  match (seal_to (public toy_kp) (as_bytes "a secret key") (20 : @rng toy_rng)).1 with
  | Ok w => w | Err _ => [] end.

Lemma seal_to_open_witness : open toy_kp toy_wrapped = Ok (as_bytes "a secret key").
Proof.
  apply (seal_to_open (11 : @rng toy_rng) (13 : @rng toy_rng) (20 : @rng toy_rng) (23 : @rng toy_rng)).
  - vm_refl.
  - vm_refl.
Defined.
End witnesses.
End Kem.
