(* ===== verification/Fs.v ===== *)
(** The part of [std::fs] and [std::path] the workspace uses.

    A world holds the files by path, the state of the random generator and a
    schedule of outcomes for the coming file operations: an operation can
    succeed, fail without effect, or, for writes, fail after a prefix reached
    the disk.  [Path::exists] reports no errors: it answers [false] when the metadata
    cannot be read.  This is the outcome [Unseen]; the other outcomes do not disturb it.
    An empty schedule means that all operations succeed.  Directories
    are implicit: every write in the source is preceded by [create_dir_all] of
    its parent, so a directory exists when a file lies below it. *)

From Stdlib Require Import Ascii.
From S2P Require Import Prelude Backend.

Abbreviation path := (list string).

Inductive IoError := IoNotFound | IoOther.

Inductive outcome := Fine | Fail | Torn (n : nat) | Unseen.
#[export] Instance outcome_eq_dec : EqDecision outcome.
Proof. solve_decision. Defined.

(** [Path::file_stem] of one component: up to the last dot, a leading dot not
    counting. *)
Fixpoint before_last_dot (l : list ascii) : option (list ascii) :=
  match l with
  | [] => None
  | c :: l =>
      match before_last_dot l with
      | Some p => Some (c :: p)
      | None => if bool_decide (c = "."%char) then Some [] else None
      end
  end.

Definition file_stem (s : string) : string :=
  match before_last_dot (list_ascii_of_string s) with
  | None | Some [] => s
  | Some p => string_of_list_ascii p
  end.

(** [path.with_extension(ext)]. *)
Definition with_extension (p : path) (ext : string) : path :=
  match last p with
  | None => p
  | Some name => removelast p ++ [file_stem name +:+ "." +:+ ext]
  end.

Create HintDb spends.

Section fs.
Context `{RND : SystemRandom}.

Record World := mkWorld {
  w_files : gmap path bytes;
  w_sched : list outcome;
  w_gen : rng;
}.

Definition set_files (fs : gmap path bytes) (w : World) : World :=
  {| w_files := fs; w_sched := w_sched w; w_gen := w_gen w |}.

(** Take the next scheduled outcome. *)
Definition next (w : World) : outcome * World :=
  match w_sched w with
  | [] => (Fine, w)
  | o :: s => (o, {| w_files := w_files w; w_sched := s; w_gen := w_gen w |})
  end.

(** An operation that fails without effect when the schedule says so. *)
Definition io {A} (k : gmap path bytes → result IoError A * gmap path bytes)
    : eff World IoError A := λ w,
  let '(o, w) := next w in
  match o with
  | Fine => let '(r, fs) := k (w_files w) in (r, set_files fs w)
  | _ => (Err IoOther, w)
  end.

Definition create_dir_all (p : path) : eff World IoError unit := io (λ fs, (Ok (), fs)).

Definition read (p : path) : eff World IoError bytes := io (λ fs,
  match fs !! p with Some b => (Ok b, fs) | None => (Err IoNotFound, fs) end).

(** A torn write leaves a prefix of the data in the file. *)
Definition write (p : path) (b : bytes) : eff World IoError unit := λ w,
  let '(o, w) := next w in
  match o with
  | Fine => (Ok (), set_files (<[p := b]> (w_files w)) w)
  | Fail | Unseen => (Err IoOther, w)
  | Torn n => (Err IoOther, set_files (<[p := take n b]> (w_files w)) w)
  end.

(** [OpenOptions::append] then [write_all]: same, at the end of the file. *)
Definition append_file (p : path) (b : bytes) : eff World IoError unit := λ w,
  let old := default [] (w_files w !! p) in
  let '(o, w) := next w in
  match o with
  | Fine => (Ok (), set_files (<[p := old ++ b]> (w_files w)) w)
  | Fail | Unseen => (Err IoOther, w)
  | Torn n => (Err IoOther, set_files (<[p := old ++ take n b]> (w_files w)) w)
  end.

(** [OpenOptions::new().create(true).append(true).open(p)]. *)
Definition open_append (p : path) : eff World IoError unit := io (λ fs,
  (Ok (), match fs !! p with Some _ => fs | None => <[p := []]> fs end)).

(** [f.sync_all()]: the data are in the file already. *)
Definition sync_all (p : path) : eff World IoError unit := io (λ fs, (Ok (), fs)).

Definition rename (a b : path) : eff World IoError unit := io (λ fs,
  match fs !! a with
  | Some c => (Ok (), <[b := c]> (delete a fs))
  | None => (Err IoNotFound, fs)
  end).

Definition remove_file (p : path) : eff World IoError unit := io (λ fs,
  match fs !! p with Some _ => (Ok (), delete p fs) | None => (Err IoNotFound, fs) end).

(** Everything below [p]. *)
Definition below (p q : path) : bool := bool_decide (take (length p) q = p).

(** An interrupted removal has removed some of the files. *)
Definition remove_dir_all (p : path) : eff World IoError unit := λ w,
  let '(o, w) := next w in
  let fs := w_files w in
  match o with
  | Fine => (Ok (), set_files (filter (λ kv, below p kv.1 = false) fs) w)
  | Fail | Unseen => (Err IoOther, w)
  | Torn n =>
      let removed := take n (filter (λ q, below p q = true) (map_to_list fs).*1) in
      (Err IoOther, set_files (foldr delete fs removed) w)
  end.

(** What is there: a file; a file, or a directory with something below it. *)
Definition file_present (w : World) (p : path) : bool := bool_decide (is_Some (w_files w !! p)).
Definition path_present (w : World) (p : path) : bool :=
  file_present w p || bool_decide (map_Exists (λ k (_ : bytes), below p k = true) (w_files w)).

(** [Path::exists] of a path that is never a directory, and of any path. *)
Definition stat {E} (there : World → bool) : eff World E bool := λ w,
  let '(o, w) := next w in
  (Ok (match o with Unseen => false | _ => there w end), w).
Definition file_exists {E} (p : path) : eff World E bool := stat (λ w, file_present w p).
Definition path_exists {E} (p : path) : eff World E bool := stat (λ w, path_present w p).

(** A generator step inside a world. *)
Definition with_gen {E A} (c : eff rng E A) : eff World E A := λ w,
  let '(r, g) := c (w_gen w) in
  (r, {| w_files := w_files w; w_sched := w_sched w; w_gen := g |}).

(** [tmp] then [rename]: the replacement is seen whole or not at all. *)
Definition atomic_write (p : path) (b : bytes) : eff World IoError unit :=
  let tmp := with_extension p "tmp" in
  _ ← write tmp b;
  rename tmp p.

(** ** Theory *)

Lemma next_files w : w_files (next w).2 = w_files w.
Proof. unfold next. by destruct (w_sched w). Qed.

Lemma io_files {A} (k : gmap path bytes → result IoError A * gmap path bytes) w r w' :
  io k w = (r, w') →
  (r = (k (w_files w)).1 ∧ w_files w' = (k (w_files w)).2) ∨
  (r = Err IoOther ∧ w_files w' = w_files w).
Proof.
  unfold io. pose proof (next_files w) as Hn. destruct (next w) as [o w1]. simpl in Hn.
  destruct o; [|intros [= <- <-]; auto..].
  rewrite Hn. destruct (k (w_files w)) as [r1 fs] eqn:E. intros [= <- <-]. auto.
Qed.

(** An atomic write changes its target or nothing at all; the scratch file is
    the only other file it may touch. *)
Lemma atomic_write_files p b w r w' :
  with_extension p "tmp" ≠ p → atomic_write p b w = (r, w') →
  w_files w' !! p = (match r with Ok _ => Some b | Err _ => w_files w !! p end) ∧
  (∀ q, q ≠ p → q ≠ with_extension p "tmp" → w_files w' !! q = w_files w !! q).
Proof.
  intros Hne. unfold atomic_write, mbind, eff_mbind. set (tmp := with_extension p "tmp") in *.
  unfold write. pose proof (next_files w) as Hn. destruct (next w) as [o w1]. simpl in Hn.
  destruct o.
  - intros E. unfold rename in E. apply io_files in E as [[-> E]|[-> E]]; simpl in *.
    + rewrite lookup_insert_eq in *. simpl in E. rewrite E, Hn. split.
      * by rewrite lookup_insert_eq.
      * intros q Hq1 Hq2.
        by rewrite lookup_insert_ne, lookup_delete_ne, lookup_insert_ne by congruence.
    + rewrite E, Hn. split; [by rewrite lookup_insert_ne|].
      intros q Hq1 Hq2. by rewrite lookup_insert_ne.
  - intros [= <- <-]. by rewrite Hn.
  - intros [= <- <-]. simpl. rewrite Hn.
    split; [by rewrite lookup_insert_ne|]. intros q Hq1 Hq2. by rewrite lookup_insert_ne.
  - intros [= <- <-]. by rewrite Hn.
Qed.

(** [create_dir_all] changes no file. *)
Lemma create_dir_all_files p w r w' : create_dir_all p w = (r, w') → w_files w' = w_files w.
Proof. intros E. unfold create_dir_all in E. by apply io_files in E as [[_ ->]|[_ ->]]. Qed.

Lemma read_files p w r w' : read p w = (r, w') →
  w_files w' = w_files w ∧ ∀ b, r = Ok b → w_files w !! p = Some b.
Proof.
  intros E. unfold read in E. apply io_files in E as [[-> ->]|[-> ->]].
  - destruct (w_files w !! p) eqn:Ep; simpl; split; congruence.
  - split; [done|]. by intros ? [=].
Qed.

Lemma write_inv p (b : bytes) w u w' : write p b w = (Ok u, w') → w_files w' = <[p := b]> (w_files w).
Proof. unfold write. pose proof (next_files w) as Hn. destruct (next w) as [[] w1]; cbn in Hn; [|done..]. intros [= <- <-]. cbn. by rewrite Hn. Qed.

Lemma with_gen_files {E A} (c : eff rng E A) w r w' :
  with_gen c w = (r, w') → w_files w' = w_files w ∧ ∃ g, c (w_gen w) = (r, g).
Proof.
  unfold with_gen. destruct (c (w_gen w)) as [r1 g]. intros [= <- <-]. simpl. eauto.
Qed.

(** [remove_dir_all] touches nothing outside the directory. *)
Lemma remove_dir_all_files p w r w' :
  remove_dir_all p w = (r, w') →
  (∀ q, below p q = false → w_files w' !! q = w_files w !! q) ∧
  (r = Ok () → ∀ q, below p q = true → w_files w' !! q = None).
Proof.
  unfold remove_dir_all. pose proof (next_files w) as Hn. destruct (next w) as [o w1].
  simpl in Hn. destruct o; intros [= <- <-]; simpl; rewrite Hn.
  - split.
    + intros q Hq. destruct (w_files w !! q) eqn:E.
      * by apply map_lookup_filter_Some.
      * apply map_lookup_filter_None. auto.
    + intros _ q Hq. apply map_lookup_filter_None. right. intros x _. simpl. by rewrite Hq.
  - done.
  - split; [|done]. intros q Hq.
    set (l := take n _). assert (q ∉ l) as Hl.
    { intros Hin. apply (list_elem_of_In _ _) in Hin. unfold l in Hin.
      apply list_elem_of_In in Hin. apply (subseteq_take n) in Hin.
      apply list_elem_of_filter in Hin as [Hb _]. congruence. }
    clearbody l. induction l as [|a l IH]; [done|]. apply not_elem_of_cons in Hl as [H1 H2].
    simpl. rewrite lookup_delete_ne by done. auto.
  - done.
Qed.

Lemma below_app p q : below p (p ++ q) = true.
Proof. apply bool_decide_eq_true. by rewrite take_app_length. Qed.

Lemma below_spec p q : below p q = true ↔ take (length p) q = p.
Proof. apply bool_decide_eq_true. Qed.

(** With an empty schedule nothing fails. *)
Lemma next_calm w : w_sched w = [] → next w = (Fine, w).
Proof. unfold next. by intros ->. Qed.

Lemma io_calm {A} (k : gmap path bytes → result IoError A * gmap path bytes) w :
  w_sched w = [] → io k w = ((k (w_files w)).1, set_files (k (w_files w)).2 w).
Proof. intros Hc. unfold io. rewrite next_calm by done. by destruct (k (w_files w)). Qed.

Lemma read_calm p b w :
  w_sched w = [] → w_files w !! p = Some b → read p w = (Ok b, w).
Proof. intros Hc Hp. unfold read. rewrite io_calm, Hp by done. by destruct w. Qed.

Lemma create_dir_all_calm p w : w_sched w = [] → create_dir_all p w = (Ok (), w).
Proof. intros Hc. unfold create_dir_all. rewrite io_calm by done. by destruct w. Qed.

Lemma file_present_spec w p : file_present w p = true ↔ is_Some (w_files w !! p).
Proof. apply bool_decide_eq_true. Qed.
Lemma file_present_false w p : file_present w p = false ↔ w_files w !! p = None.
Proof. unfold file_present. rewrite bool_decide_eq_false. symmetry. apply eq_None_not_Some. Qed.
Lemma path_present_same w w' p : w_files w' = w_files w → path_present w' p = path_present w p.
Proof. unfold path_present, file_present. by intros ->. Qed.

(** An existence check changes no file, and says yes only of what is there. *)
Lemma stat_files {E} there w (r : result E bool) w' : stat there w = (r, w') →
  w_files w' = w_files w ∧ ∃ b, r = Ok b ∧ (b = true → there w' = true).
Proof.
  unfold stat. pose proof (next_files w) as Hn. destruct (next w) as [o w1]. simpl in Hn. intros [= <- <-].
  split; [done|]. eexists. split; [done|]. by destruct o.
Qed.
Lemma stat_calm {E} there w : w_sched w = [] → stat (E := E) there w = (Ok (there w), w).
Proof. intros Hc. unfold stat. by rewrite next_calm. Qed.

(** *** Media whose metadata can be read

    Operations only use the schedule up. *)
Definition seen (w : World) : Prop := Unseen ∉ w_sched w.
#[export] Instance seen_dec w : Decision (seen w).
Proof. unfold seen. apply _. Defined.
Definition spends {E A} (c : eff World E A) : Prop := ∀ w, seen w → seen (c w).2.

Lemma next_seen w : seen w → seen (next w).2 ∧ (next w).1 ≠ Unseen.
Proof.
  unfold seen, next. destruct (w_sched w) as [|o s] eqn:Es; simpl; [by rewrite Es|].
  intros [H1 H2]%not_elem_of_cons. split; congruence.
Qed.
Lemma stat_seen {E} there w (r : result E bool) w' : seen w → stat there w = (r, w') →
  w_files w' = w_files w ∧ seen w' ∧ r = Ok (there w').
Proof.
  intros [Hs Hu]%next_seen. unfold stat. pose proof (next_files w) as Hn. destruct (next w) as [o w1]. simpl in *.
  intros [= <- <-]. split_and!; [done..|]. by destruct o.
Qed.
Lemma spends_bind {E A B} (c : eff World E A) (f : A → eff World E B) : spends c → (∀ x, spends (f x)) → spends (c ≫= f).
Proof. intros Hc Hf w Hs. specialize (Hc w Hs). unfold mbind, eff_mbind. destruct (c w) as [[x|e] w1]; simpl in *; [by apply Hf|done]. Qed.
Lemma spends_ret {E A} (x : A) : spends (E := E) (mret x).
Proof. by intros w. Qed.
Lemma spends_lift {E A} (r : result E A) : spends (lift r).
Proof. by intros w. Qed.
Lemma spends_map_err {E F A} (f : E → F) (c : eff World E A) : spends c → spends (eff_map_err f c).
Proof. intros Hc w Hs. specialize (Hc w Hs). unfold eff_map_err. by destruct (c w). Qed.
Lemma spends_gen {E A} (c : eff rng E A) : spends (with_gen c).
Proof. intros w Hs. unfold with_gen. by destruct (c (w_gen w)). Qed.
Lemma spends_stat {E} there : spends (stat (E := E) there).
Proof. intros w [Hs _]%next_seen. unfold stat. by destruct (next w). Qed.
Lemma spends_io {A} (k : gmap path bytes → result IoError A * gmap path bytes) : spends (io k).
Proof. intros w [Hs _]%next_seen. unfold io. destruct (next w) as [[] w1]; [|done..]. by destruct (k _). Qed.
Lemma spends_write p b : spends (write p b).
Proof. intros w [Hs _]%next_seen. unfold write. by destruct (next w) as [[] w1]. Qed.
Lemma spends_remove p : spends (remove_dir_all p).
Proof. intros w [Hs _]%next_seen. unfold remove_dir_all. by destruct (next w) as [[] w1]. Qed.
Lemma spends_atomic p b : spends (atomic_write p b).
Proof. apply spends_bind; [apply spends_write|]. intros _. apply spends_io. Qed.
End fs.
#[export] Hint Resolve spends_bind spends_ret spends_lift spends_map_err spends_gen spends_stat spends_io spends_write spends_remove spends_atomic : spends.

(** Names without a dot keep their name before the new extension. *)
Lemma before_last_dot_none l : "."%char ∉ l → before_last_dot l = None.
Proof.
  induction l as [|c l IH]; [done|]. intros [H1 H2]%not_elem_of_cons. simpl.
  rewrite IH by done. by rewrite bool_decide_eq_false_2 by congruence.
Qed.

Lemma with_extension_snoc p name ext :
  with_extension (p ++ [name]) ext = p ++ [file_stem name +:+ "." +:+ ext].
Proof. unfold with_extension. rewrite last_snoc, removelast_last. done. Qed.

Section hex_names.
Context `{HX : Hex}.

Lemma hex_no_dot b : "."%char ∉ list_ascii_of_string (hex_encode b).
Proof.
  intros Hin. pose proof (hex_encode_digits b) as Hd. unfold as_bytes in Hd at 2.
  unfold list_byte_of_string in Hd.
  assert (byte_of_ascii "."%char ∈ map byte_of_ascii (list_ascii_of_string (hex_encode b))) as Hx.
  { apply list_elem_of_fmap. eauto. }
  rewrite Forall_forall in Hd. specialize (Hd _ Hx). revert Hd.
  apply (bool_decide_eq_false_1 _). vm_compute. reflexivity.
Qed.

Lemma file_stem_hex b : file_stem (hex_encode b) = hex_encode b.
Proof. unfold file_stem. by rewrite before_last_dot_none by apply hex_no_dot. Qed.

Lemma hex_tmp_ne_hex a b : hex_encode a +:+ ".tmp" ≠ hex_encode b.
Proof.
  intros E. apply (hex_no_dot b). rewrite <-E.
  clear E. induction (hex_encode a) as [|c s IH]; simpl; [left|by right].
Qed.
End hex_names.
