(* ===== verification/ObjectStore.v ===== *)
(** What the encrypted store promises to its clients.

    The directory, the reviews, the forge and the search index keep their data in
    an [EncryptedStore]; they use [init_repo], [put], [get] and [delete] only, and
    rely on it to behave as a map from [(repo_id, key)] to bytes in which a failed
    operation changes nothing. *)

From S2P Require Import Prelude Backend.

Class ObjectStore (S E : Type) := {
  os_init : string → eff S E unit;
  os_put : string → string → bytes → eff S E unit;
  os_get : string → string → eff S E (option bytes);
  os_delete : string → string → eff S E unit;
  os_view : S → string → string → option bytes;
  os_inv : S → Prop;
  (** The identifiers a run uses. *)
  os_id : string → Prop;
  (** No operation of the medium is going to fail. *)
  os_calm : S → Prop;
  os_init_spec : ∀ r s res s', os_id r → os_inv s → os_init r s = (res, s') →
    os_inv s' ∧ ∀ r' k', os_id r' → os_id k' → os_view s' r' k' = os_view s r' k';
  os_put_spec : ∀ r k v s res s', os_id r → os_id k → os_inv s → os_put r k v s = (res, s') →
    os_inv s' ∧ ∀ r' k', os_id r' → os_id k' →
      os_view s' r' k' = if is_ok res && bool_decide ((r', k') = (r, k)) then Some v
                         else os_view s r' k';
  os_get_spec : ∀ r k s res s', os_id r → os_id k → os_inv s → os_get r k s = (res, s') →
    os_inv s' ∧ (∀ r' k', os_id r' → os_id k' → os_view s' r' k' = os_view s r' k') ∧
    ∀ o, res = Ok o → o = os_view s r k;
  os_delete_spec : ∀ r k s res s', os_id r → os_id k → os_inv s → os_delete r k s = (res, s') →
    os_inv s' ∧ ∀ r' k', os_id r' → os_id k' →
      os_view s' r' k' = if is_ok res && bool_decide ((r', k') = (r, k)) then None
                         else os_view s r' k';
  os_get_calm : ∀ r k s, os_id r → os_id k → os_inv s → os_calm s →
    ∃ s', os_get r k s = (Ok (os_view s r k), s') ∧ os_calm s';
}.

(** ** Refinement of a map

    A run of operations against the plain map they implement: an operation that
    failed is a stutter. *)
Section refinement.
Context {St Er : Type} `{OS : ObjectStore St Er}.

Inductive store_op :=
| OpPut (r k : string) (v : bytes)
| OpGet (r k : string)
| OpDelete (r k : string).

(** What an operation answers: [put] and [delete] nothing, [get] a value. *)
Definition exec (op : store_op) : eff St Er (option bytes) :=
  match op with
  | OpPut r k v => _ ← os_put r k v; mret None
  | OpGet r k => os_get r k
  | OpDelete r k => _ ← os_delete r k; mret None
  end.

Fixpoint run (ops : list store_op) (s : St) : list (result Er (option bytes)) * St :=
  match ops with
  | [] => ([], s)
  | op :: ops =>
      let '(res, s) := exec op s in
      let '(rs, s) := run ops s in (res :: rs, s)
  end.

Definition spec_exec (op : store_op) (m : gmap (string * string) bytes)
    : option bytes * gmap (string * string) bytes :=
  match op with
  | OpPut r k v => (None, <[(r, k) := v]> m)
  | OpGet r k => (m !! (r, k), m)
  | OpDelete r k => (None, delete (r, k) m)
  end.

Inductive spec_run : list store_op → list (result Er (option bytes)) →
    gmap (string * string) bytes → gmap (string * string) bytes → Prop :=
| spec_nil m : spec_run [] [] m m
| spec_ok op ops o rs m m' :
    (spec_exec op m).1 = o → spec_run ops rs (spec_exec op m).2 m' →
    spec_run (op :: ops) (Ok o :: rs) m m'
| spec_err op ops e rs m m' : spec_run ops rs m m' → spec_run (op :: ops) (Err e :: rs) m m'.

Definition represents (s : St) (m : gmap (string * string) bytes) : Prop :=
  os_inv s ∧ ∀ r k, os_id r → os_id k → m !! (r, k) = os_view s r k.

Definition op_ids (op : store_op) : Prop :=
  match op with OpPut r k _ | OpGet r k | OpDelete r k => os_id r ∧ os_id k end.

Lemma exec_refines op s res s' m :
  op_ids op → represents s m → exec op s = (res, s') →
  match res with
  | Ok o => o = (spec_exec op m).1 ∧ represents s' (spec_exec op m).2
  | Err _ => represents s' m
  end.
Proof.
  intros Hid [I R]. destruct op as [r k v|r k|r k]; destruct Hid as [Hr Hk]; simpl;
    unfold mbind, eff_mbind.
  - destruct (os_put r k v s) as [r0 s0] eqn:E0.
    destruct (os_put_spec _ _ _ _ _ _ Hr Hk I E0) as [I' V].
    destruct r0 as [[]|e]; intros [= <- <-]; simpl in *; [split; [done|]|]; (split; [done|]).
    + intros r' k' Hr' Hk'. rewrite V by done. case_bool_decide as Hd.
      * by rewrite Hd, lookup_insert_eq.
      * rewrite lookup_insert_ne by congruence. auto.
    + intros. rewrite V by done. auto.
  - intros E0. destruct (os_get_spec _ _ _ _ _ Hr Hk I E0) as (I' & V & Ho).
    assert (represents s' m) by (split; [done|]; intros; rewrite V; auto).
    destruct res as [o|e]; [|done]. split; [|done]. rewrite (Ho o eq_refl). by rewrite R.
  - destruct (os_delete r k s) as [r0 s0] eqn:E0.
    destruct (os_delete_spec _ _ _ _ _ Hr Hk I E0) as [I' V].
    destruct r0 as [[]|e]; intros [= <- <-]; simpl in *; [split; [done|]|]; (split; [done|]).
    + intros r' k' Hr' Hk'. rewrite V by done. case_bool_decide as Hd.
      * by rewrite Hd, lookup_delete_eq.
      * rewrite lookup_delete_ne by congruence. auto.
    + intros. rewrite V by done. auto.
Qed.

Lemma run_refines ops s rs s' m :
  Forall op_ids ops → represents s m → run ops s = (rs, s') →
  ∃ m', spec_run ops rs m m' ∧ represents s' m'.
Proof.
  revert s rs m. induction ops as [|op ops IH]; intros s rs m Hids R; simpl.
  { intros [= <- <-]. exists m. split; [constructor|done]. }
  apply Forall_cons in Hids as [Hid Hids].
  destruct (exec op s) as [res s1] eqn:E1. destruct (run ops s1) as [rs1 s2] eqn:E2.
  intros [= <- <-]. pose proof (exec_refines _ _ _ _ _ Hid R E1) as H.
  destruct res as [o|e].
  - destruct H as [-> R1]. destruct (IH _ _ _ Hids R1 E2) as (m' & ? & ?). exists m'.
    split; [by constructor|done].
  - destruct (IH _ _ _ Hids H E2) as (m' & ? & ?). exists m'. split; [by constructor|done].
Qed.
End refinement.

(** ** Values in the store *)

Section values.
Context {St Er : Type} `{OS : ObjectStore St Er}.

(** What [serde_json::from_slice] makes of the object at a key. *)
Definition os_value (T : Type) `{Serde T} (s : St) (r k : string) : option T :=
  os_view s r k ≫= from_slice.

Definition same_view (s s' : St) : Prop :=
  os_inv s' ∧ ∀ r k, os_id r → os_id k → os_view s' r k = os_view s r k.

Lemma same_view_refl s : os_inv s → same_view s s.
Proof. done. Qed.

Lemma same_view_trans s1 s2 s3 : same_view s1 s2 → same_view s2 s3 → same_view s1 s3.
Proof.
  intros [_ V1] [I V2]. split; [done|]. intros. rewrite V2 by done. by apply V1.
Qed.
End values.

(** ** A store in memory

    The smallest implementation of the interface: a map, on which nothing fails. *)
Program Definition memory_store : ObjectStore (gmap (string * string) bytes) unit := {|
  os_init _ m := (Ok (), m);
  os_put r k v m := (Ok (), <[(r, k) := v]> m);
  os_get r k m := (Ok (m !! (r, k)), m);
  os_delete r k m := (Ok (), delete (r, k) m);
  os_view m r k := m !! (r, k);
  os_inv _ := True;
  os_id _ := True;
  os_calm _ := True;
|}.
Next Obligation. intros r m res m' _ _ [= <- <-]. done. Qed.
Next Obligation.
  intros r k v m res m' _ _ _ [= <- <-]. split; [done|]. intros r' k' _ _. simpl.
  case_bool_decide as Hd; [by rewrite Hd, lookup_insert_eq|by rewrite lookup_insert_ne].
Qed.
Next Obligation. intros r k m res m' _ _ _ [= <- <-]. repeat split; congruence. Qed.
Next Obligation.
  intros r k m res m' _ _ _ [= <- <-]. split; [done|]. intros r' k' _ _. simpl.
  case_bool_decide as Hd; [by rewrite Hd, lookup_delete_eq|by rewrite lookup_delete_ne].
Qed.
Next Obligation. intros r k m _ _ _ _. by exists m. Qed.
