(* ===== verification/Store.v ===== *)
(** [crates/secgit-store/src/lib.rs]: the encrypted object store.

    KEK (in memory) wraps one DEK per repo (wrapped on disk), which encrypts the
    repo's objects; every object is bound to its [(repo_id, key)] through the
    associated data. *)

From S2P Require Import Prelude Backend Toy Envelope Primitives Aead Fs ObjectStore.

Inductive StoreError :=
| StoreIo (e : IoError)
| StoreCrypto (e : CryptoError)
| StoreCorrupt (why : string).

Definition DEK_FILE : string := "dek.wrapped".
Definition OBJECTS_DIR : string := "objects".
Definition SEAL_MANIFEST_KEY : string := "seal.manifest".
Definition LEGACY_BUNDLE_KEY : string := "repo.bundle".

(** [format!("bundle/{index:08}")]. *)
Fixpoint zeros (n : nat) : string :=
  match n with O => "" | S n => "0" +:+ zeros n end.
Definition pad8 (n : N) : string :=
  let d := pretty n in zeros (8 - String.length d) +:+ d.
Definition segment_key (index : N) : string := "bundle/" +:+ pad8 index.

Section store.
Context `{RND : SystemRandom} `{DIG : Digests} `{AB : AeadBackend} `{HX : Hex}.

Record EncryptedStore := mkStore {
  st_root : path;
  st_kek : Aead.SymKey;
  st_aead : AeadScheme.t;
}.

Definition fs_op {A} (c : eff World IoError A) : eff World StoreError A := eff_map_err StoreIo c.
Definition crypto_op {A} (r : result CryptoError A) : eff World StoreError A :=
  lift (map_err StoreCrypto r).
Definition crypto_gen {A} (c : eff rng CryptoError A) : eff World StoreError A :=
  with_gen (eff_map_err StoreCrypto c).

Definition store_open (root : path) (kek : Aead.SymKey) : eff World StoreError EncryptedStore :=
  _ ← fs_op (create_dir_all root);
  mret {| st_root := root; st_kek := kek; st_aead := DEFAULT_AEAD |}.

Definition repo_dir (st : EncryptedStore) (repo_id : string) : path :=
  st_root st ++ ["repos"; hex_encode (sha256 (as_bytes repo_id))].

Definition dek_path (st : EncryptedStore) (repo_id : string) : path :=
  repo_dir st repo_id ++ [DEK_FILE].

Definition repo_dek (st : EncryptedStore) (repo_id : string) : eff World StoreError Aead.SymKey :=
  _ ← fs_op (create_dir_all (repo_dir st repo_id));
  present ← file_exists (dek_path st repo_id);
  if present : bool then
    wrapped ← fs_op (read (dek_path st repo_id));
    crypto_op (Aead.unwrap_key (st_kek st) wrapped)
  else
    dek ← crypto_gen Aead.generate;
    wrapped ← crypto_gen (Aead.wrap_key (st_aead st) (st_kek st) dek);
    _ ← fs_op (atomic_write (dek_path st repo_id) wrapped);
    mret dek.

Definition repo_exists (st : EncryptedStore) (repo_id : string) : eff World StoreError bool :=
  file_exists (dek_path st repo_id).

Definition init_repo (st : EncryptedStore) (repo_id : string) : eff World StoreError unit :=
  _ ← repo_dek st repo_id; mret ().

Definition object_path (st : EncryptedStore) (repo_id key : string) : path :=
  repo_dir st repo_id ++ [OBJECTS_DIR; hex_encode (sha256 (as_bytes key))].

Definition object_aad (repo_id key : string) : bytes :=
  nul_terminated "secgit/object/v1" ++ as_bytes repo_id ++ [x00] ++ as_bytes key.

Definition put (st : EncryptedStore) (repo_id key : string) (plaintext : bytes)
    : eff World StoreError unit :=
  dek ← repo_dek st repo_id;
  ct ← crypto_gen (Aead.seal (st_aead st) dek (object_aad repo_id key) plaintext);
  _ ← fs_op (create_dir_all (repo_dir st repo_id ++ [OBJECTS_DIR]));
  fs_op (atomic_write (object_path st repo_id key) ct).

Definition get (st : EncryptedStore) (repo_id key : string)
    : eff World StoreError (option bytes) :=
  present ← file_exists (object_path st repo_id key);
  if negb present then mret None
  else
    dek ← repo_dek st repo_id;
    ct ← fs_op (read (object_path st repo_id key));
    pt ← crypto_op (Aead.open dek (object_aad repo_id key) ct);
    mret (Some pt).

Definition store_delete (st : EncryptedStore) (repo_id key : string) : eff World StoreError unit :=
  present ← file_exists (object_path st repo_id key);
  if present : bool then fs_op (remove_file (object_path st repo_id key)) else mret ().

Definition put_segment (st : EncryptedStore) (repo_id : string) (index : N) (b : bytes) :=
  put st repo_id (segment_key index) b.
Definition get_segment (st : EncryptedStore) (repo_id : string) (index : N) :=
  get st repo_id (segment_key index).
Definition delete_segment (st : EncryptedStore) (repo_id : string) (index : N) :=
  store_delete st repo_id (segment_key index).
Definition put_manifest (st : EncryptedStore) (repo_id : string) (b : bytes) :=
  put st repo_id SEAL_MANIFEST_KEY b.
Definition get_manifest (st : EncryptedStore) (repo_id : string) :=
  get st repo_id SEAL_MANIFEST_KEY.

Definition delete_repo (st : EncryptedStore) (repo_id : string) : eff World StoreError unit :=
  present ← path_exists (repo_dir st repo_id);
  if present : bool then fs_op (remove_dir_all (repo_dir st repo_id)) else mret ().

(** ** Paths *)

(** The identifiers a run uses, as repo ids or keys; their digests are assumed
    distinct. *)
Variable U : list string.
Hypothesis U_free : coll_free digest_sha256 (as_bytes <$> U).

Lemma id_hash_inj a b :
  a ∈ U → b ∈ U → hex_encode (sha256 (as_bytes a)) = hex_encode (sha256 (as_bytes b)) → a = b.
Proof.
  intros Ha Hb E%hex_encode_inj. apply as_bytes_inj, U_free; [by apply list_elem_of_fmap_2..|done].
Qed.

Lemma repo_dir_inj st r s : r ∈ U → s ∈ U → repo_dir st r = repo_dir st s → r = s.
Proof.
  intros Hr Hs E. apply app_inv_head in E. injection E as E. by apply id_hash_inj.
Qed.

Lemma dek_path_inj st r s : r ∈ U → s ∈ U → dek_path st r = dek_path st s → r = s.
Proof. intros Hr Hs E. apply app_inv_tail in E. by eapply repo_dir_inj. Qed.

Lemma object_path_inj st r s k l :
  r ∈ U → s ∈ U → k ∈ U → l ∈ U → object_path st r k = object_path st s l → r = s ∧ k = l.
Proof.
  intros Hr Hs Hk Hl E. unfold object_path in E.
  apply app_inj_2 in E as [E1 E2]; [|done]. injection E2 as E2.
  split; [by eapply repo_dir_inj|by apply id_hash_inj].
Qed.

Lemma dek_ne_object st r s k : dek_path st r ≠ object_path st s k.
Proof.
  intros E. apply (f_equal length) in E.
  unfold dek_path, object_path, repo_dir in E. rewrite !length_app in E. simpl in E. lia.
Qed.

Lemma dek_tmp st r : with_extension (dek_path st r) "tmp" = repo_dir st r ++ ["dek.tmp"].
Proof. unfold dek_path. by rewrite with_extension_snoc. Qed.

Lemma dek_tmp_ne_dek st r s : with_extension (dek_path st r) "tmp" ≠ dek_path st s.
Proof.
  rewrite dek_tmp. unfold dek_path. intros E. apply app_inj_2 in E as [_ E]; [|done].
  discriminate E.
Qed.

Lemma dek_tmp_ne_object st r s k : with_extension (dek_path st r) "tmp" ≠ object_path st s k.
Proof.
  rewrite dek_tmp. intros E. apply (f_equal length) in E.
  unfold object_path, repo_dir in E. rewrite !length_app in E. simpl in E. lia.
Qed.

Lemma object_tmp st r k :
  with_extension (object_path st r k) "tmp" =
  repo_dir st r ++ [OBJECTS_DIR] ++ [hex_encode (sha256 (as_bytes k)) +:+ ".tmp"].
Proof.
  unfold object_path. rewrite (app_assoc (repo_dir st r) [OBJECTS_DIR]).
  change [OBJECTS_DIR; ?x] with ([OBJECTS_DIR] ++ [x]). rewrite app_assoc, with_extension_snoc.
  by rewrite file_stem_hex.
Qed.

Lemma object_tmp_ne_object st r s k l : with_extension (object_path st r k) "tmp" ≠ object_path st s l.
Proof.
  rewrite object_tmp. unfold object_path. intros E. apply app_inj_2 in E as [_ E]; [|done].
  injection E as E. by apply hex_tmp_ne_hex in E.
Qed.

Lemma object_tmp_ne_dek st r s k : with_extension (object_path st r k) "tmp" ≠ dek_path st s.
Proof.
  rewrite object_tmp. intros E. apply (f_equal length) in E.
  unfold dek_path, repo_dir in E. rewrite !length_app in E. simpl in E. lia.
Qed.

(** ** The stored map *)

(** The repo key and the object a world holds. *)
Definition dek_at (st : EncryptedStore) (w : World) (r : string) : option Aead.SymKey :=
  f ← w_files w !! dek_path st r; to_option (Aead.unwrap_key (st_kek st) f).

Definition object_at (st : EncryptedStore) (w : World) (r k : string) : option bytes :=
  dek ← dek_at st w r;
  f ← w_files w !! object_path st r k;
  to_option (Aead.open dek (object_aad r k) f).

(** Every file of the store is readable under the KEK. *)
Definition store_inv (st : EncryptedStore) (w : World) : Prop :=
  (∀ r, r ∈ U → is_Some (w_files w !! dek_path st r) → is_Some (dek_at st w r)) ∧
  (∀ r k, r ∈ U → k ∈ U → is_Some (w_files w !! object_path st r k) → is_Some (object_at st w r k)).

(** Two worlds agree on the repo keys, or on the objects but one. *)
Definition same_deks (st : EncryptedStore) (w w' : World) : Prop :=
  ∀ r, r ∈ U → w_files w' !! dek_path st r = w_files w !! dek_path st r.
Definition same_objects (st : EncryptedStore) (w w' : World) : Prop :=
  ∀ r k, r ∈ U → k ∈ U → w_files w' !! object_path st r k = w_files w !! object_path st r k.

Lemma to_option_Some {E A} (r : result E A) a : to_option r = Some a ↔ r = Ok a.
Proof. destruct r; simpl; split; congruence. Qed.

Lemma object_at_dek st w r k : is_Some (object_at st w r k) → is_Some (dek_at st w r).
Proof. unfold object_at. destruct (dek_at st w r); [eauto|]. by intros [? ?]. Qed.

Lemma store_inv_same st w w' :
  same_deks st w w' → same_objects st w w' → store_inv st w →
  store_inv st w' ∧ ∀ r k, r ∈ U → k ∈ U → object_at st w' r k = object_at st w r k.
Proof.
  intros Hd Ho [I1 I2]. unfold store_inv.
  assert (∀ r, r ∈ U → dek_at st w' r = dek_at st w r) as Ed.
  { intros r Hr. unfold dek_at. by rewrite Hd. }
  assert (∀ r k, r ∈ U → k ∈ U → object_at st w' r k = object_at st w r k) as Eo.
  { intros r k Hr Hk. unfold object_at. by rewrite Ed, Ho. }
  split; [split|done].
  - intros r Hr. rewrite Hd, Ed by done. auto.
  - intros r k Hr Hk. rewrite Ho, Eo by done. auto.
Qed.

Lemma fs_op_inv {A} (c : eff World IoError A) w r w' :
  fs_op c w = (r, w') → ∃ r0, c w = (r0, w') ∧ r = map_err StoreIo r0.
Proof. unfold fs_op, eff_map_err. destruct (c w). intros [= <- <-]. eauto. Qed.

Lemma crypto_gen_inv {A} (c : eff rng CryptoError A) w r w' :
  crypto_gen c w = (r, w') → w_files w' = w_files w ∧
  ∀ a, r = Ok a → ∃ g, c (w_gen w) = (Ok a, g).
Proof.
  intros [Hf [g Hg]]%with_gen_files. split; [done|]. intros a ->.
  unfold eff_map_err in Hg. destruct (c (w_gen w)) as [[?|?] ?]; [|done].
  simpl in Hg. injection Hg as <- <-. eauto.
Qed.

(** What [repo_dek] may do to a world: keep every key there is, keep every
    object, at most add a key for [r]. *)
Record dek_step (st : EncryptedStore) (r : string) (w w' : World) : Prop := {
  ds_inv : store_inv st w';
  ds_objects : same_objects st w w';
  ds_other : ∀ s, s ∈ U → s ≠ r → dek_at st w' s = dek_at st w s;
  ds_kept : is_Some (dek_at st w r) → dek_at st w' r = dek_at st w r;
}.

Lemma dek_step_same st r w w' :
  r ∈ U → store_inv st w → same_deks st w w' → same_objects st w w' → dek_step st r w w'.
Proof.
  intros Hr I Hd Ho. split; [by apply (store_inv_same st w)|done|..]; unfold dek_at.
  - intros s Hs _. by rewrite Hd.
  - by rewrite Hd.
Qed.

Lemma dek_step_files st r w w' :
  r ∈ U → store_inv st w → w_files w' = w_files w → dek_step st r w w'.
Proof. intros Hr I E. apply dek_step_same; [done..|intros ??|intros ????]; by rewrite E. Qed.

Lemma dek_step_new st r w w' dek :
  r ∈ U → store_inv st w → w_files w !! dek_path st r = None → dek_at st w' r = Some dek →
  (∀ s, s ∈ U → s ≠ r → w_files w' !! dek_path st s = w_files w !! dek_path st s) →
  same_objects st w w' → dek_step st r w w'.
Proof.
  intros Hr [I1 I2] Hnone Hnew Sd So.
  assert (dek_at st w r = None) as Hdn by (unfold dek_at; by rewrite Hnone).
  assert (∀ s, s ∈ U → s ≠ r → dek_at st w' s = dek_at st w s) as Hd.
  { intros s Hs Hne. unfold dek_at. by rewrite Sd. }
  split; [split|done|done|rewrite Hdn; by intros []].
  - intros s Hs. destruct (decide (s = r)) as [->|Hne]; [by rewrite Hnew|].
    rewrite Sd, Hd by done. auto.
  - intros s k Hs Hk. rewrite So by done. intros Hf. specialize (I2 s k Hs Hk Hf).
    destruct (decide (s = r)) as [->|Hne].
    + apply object_at_dek in I2. rewrite Hdn in I2. by destruct I2.
    + unfold object_at. by rewrite Hd, So.
Qed.

(** Writing a wrapped key. *)
Lemma dek_write_spec st r w wr dek res w' :
  r ∈ U → store_inv st w → w_files w !! dek_path st r = None →
  Aead.unwrap_key (st_kek st) wr = Ok dek →
  fs_op (atomic_write (dek_path st r) wr) w = (res, w') →
  dek_step st r w w' ∧ (res = Ok () → dek_at st w' r = Some dek).
Proof.
  intros Hr I Hnone Hu E. apply fs_op_inv in E as (r0 & E & ->).
  apply atomic_write_files in E as [Ht Hq]; [|apply dek_tmp_ne_dek].
  assert (same_objects st w w') as So.
  { intros s k Hs Hk. apply Hq; [apply not_eq_sym, dek_ne_object|apply not_eq_sym, dek_tmp_ne_object]. }
  assert (∀ s, s ∈ U → s ≠ r → w_files w' !! dek_path st s = w_files w !! dek_path st s) as Sd.
  { intros s Hs Hne. apply Hq; [|apply not_eq_sym, dek_tmp_ne_dek].
    intros E. by apply dek_path_inj in E. }
  destruct r0 as [[]|e]; simpl in *.
  - assert (dek_at st w' r = Some dek) by (unfold dek_at; rewrite Ht; simpl; by rewrite Hu).
    split; [by eapply dek_step_new|done].
  - split; [|done]. apply dek_step_same; [done..| |done].
    intros s Hs. destruct (decide (s = r)) as [->|]; auto.
Qed.

Lemma spends_repo_dek st r : spends (repo_dek st r).
Proof.
  unfold repo_dek. apply spends_bind; [eauto with spends|]. intros _. apply spends_bind; [eauto with spends|]. intros [];
    eauto 9 with spends.
Qed.
#[local] Hint Resolve spends_repo_dek : spends.
Lemma spends_init st r : spends (init_repo st r).
Proof. unfold init_repo. eauto with spends. Qed.
Lemma spends_put st r k pt : spends (put st r k pt).
Proof. unfold put. eauto 9 with spends. Qed.
Lemma spends_get st r k : spends (get st r k).
Proof. unfold get. apply spends_bind; [eauto with spends|]. intros []; cbn [negb]; eauto 9 with spends. Qed.
Lemma spends_delete st r k : spends (store_delete st r k).
Proof. unfold store_delete. apply spends_bind; [eauto with spends|]. intros []; eauto 9 with spends. Qed.

(** [repo_dek] either returns the key already there, or makes one that the store
    holds from then on; on an error nothing that can be read has changed. *)
Lemma repo_dek_spec st r w res w' :
  r ∈ U → store_inv st w → seen w → repo_dek st r w = (res, w') →
  dek_step st r w w' ∧ (∀ dek, res = Ok dek → dek_at st w' r = Some dek).
Proof.
  intros Hr I Hs0. unfold repo_dek, mbind, eff_mbind.
  assert (spends (fs_op (create_dir_all (repo_dir st r)))) as Hsp by (unfold fs_op, create_dir_all; eauto with spends).
  specialize (Hsp w Hs0). destruct (fs_op (create_dir_all _) w) as [r1 w0] eqn:E1.
  apply fs_op_inv in E1 as (r1' & E1 & ->). apply create_dir_all_files in E1.
  destruct r1' as [[]|e]; cbn [map_err]; [|intros [= <- <-]; split; [by apply dek_step_files|done]].
  destruct (file_exists (dek_path st r) w0) as [b w1] eqn:Eb. apply stat_seen in Eb as (Eb & _ & ->); [|done]. rewrite <-Eb in E1. clear w0 Eb Hsp.
  destruct (file_present w1 (dek_path st r)) eqn:Ex.
  - apply file_present_spec in Ex. destruct (fs_op (read _) w1) as [r2 w2] eqn:E2.
    apply fs_op_inv in E2 as (r2' & E2 & ->). apply read_files in E2 as [E2 Hb].
    rewrite E1 in E2.
    destruct r2' as [b|e]; simpl; [|intros [= <- <-]; split; [by apply dek_step_files|done]].
    unfold crypto_op, lift. intros [= <- <-]. split; [by apply dek_step_files|].
    intros dek Hdek. unfold dek_at. rewrite E2, <-E1, (Hb b eq_refl). simpl.
    destruct (Aead.unwrap_key _ _); simpl in *; congruence.
  - assert (w_files w !! dek_path st r = None) as Hnone.
    { rewrite <-E1. by apply file_present_false. }
    destruct (crypto_gen Aead.generate w1) as [r2 w2] eqn:E2.
    apply crypto_gen_inv in E2 as [E2 Hg]. rewrite E1 in E2.
    destruct r2 as [dek|e]; [|intros [= <- <-]; split; [by apply dek_step_files|done]].
    destruct (Hg dek eq_refl) as [g1 Hk]. apply Aead.random_bytes_ok in Hk.
    destruct (crypto_gen (Aead.wrap_key _ _ _) w2) as [r3 w3] eqn:E3.
    apply crypto_gen_inv in E3 as [E3 Hw]. rewrite E2 in E3.
    destruct r3 as [wr|e]; [|intros [= <- <-]; split; [by apply dek_step_files|done]].
    destruct (Hw wr eq_refl) as [g2 Hu]. apply Aead.wrap_unwrap in Hu; [|done].
    destruct (fs_op (atomic_write _ _) w3) as [r4 w4] eqn:E4.
    assert (store_inv st w3) as I3 by (by apply (ds_inv st r w), dek_step_files).
    rewrite <-E3 in Hnone.
    destruct (dek_write_spec st r w3 wr dek r4 w4 Hr I3 Hnone Hu E4) as [[J1 J2 J3 J4] J5].
    assert (dek_step st r w w4) as J.
    { unfold same_objects, dek_at in *. rewrite E3 in J2, J3, J4. by split. }
    destruct r4 as [[]|e]; intros [= <- <-]; (split; [done|]); [|done].
    intros ? [= <-]. auto.
Qed.

Lemma dek_step_view st r w w' s k :
  s ∈ U → k ∈ U → store_inv st w → dek_step st r w w' → object_at st w' s k = object_at st w s k.
Proof.
  intros Hs Hk [I1 I2] [J1 J2 J3 J4]. unfold object_at. rewrite J2 by done.
  destruct (decide (s = r)) as [->|Hne]; [|by rewrite J3].
  destruct (w_files w !! object_path st r k) as [f|] eqn:E.
  - rewrite J4; [done|]. apply (object_at_dek st w r k), I2; [done..|]. by eexists.
  - by destruct (dek_at st w' r), (dek_at st w r).
Qed.

Lemma dek_step_then st r w w1 w2 :
  r ∈ U → dek_step st r w w1 → w_files w2 = w_files w1 → dek_step st r w w2.
Proof.
  intros Hr [J1 J2 J3 J4] E. split.
  - by apply (ds_inv st r w1), dek_step_files.
  - unfold same_objects. by rewrite E.
  - unfold dek_at in *. by rewrite E.
  - unfold dek_at in *. by rewrite E.
Qed.

(** ** Operations on the stored map *)

Lemma put_spec st r k pt w res w' :
  r ∈ U → k ∈ U → store_inv st w → seen w → put st r k pt w = (res, w') →
  store_inv st w' ∧
  ∀ s l, s ∈ U → l ∈ U →
    object_at st w' s l =
    if is_ok res && bool_decide ((s, l) = (r, k)) then Some pt else object_at st w s l.
Proof.
  intros Hr Hk I Hs0. unfold put, mbind, eff_mbind.
  destruct (repo_dek st r w) as [r1 w1] eqn:E1.
  destruct (repo_dek_spec _ _ _ _ _ Hr I Hs0 E1) as [J Hdek].
  assert (∀ w2 e, w_files w2 = w_files w1 → store_inv st w2 ∧
    ∀ s l, s ∈ U → l ∈ U → object_at st w2 s l =
      if is_ok (@Err StoreError unit e) && bool_decide ((s, l) = (r, k)) then Some pt
      else object_at st w s l) as Hfail.
  { intros w2 e E2. simpl.
    pose proof (dek_step_then _ _ _ _ _ Hr J E2) as J2. split; [by eapply ds_inv|].
    intros s l Hs Hl. by apply (dek_step_view st r). }
  destruct r1 as [dek|e]; [|intros [= <- <-]; by apply Hfail]. specialize (Hdek dek eq_refl).
  destruct (crypto_gen _ w1) as [r2 w2] eqn:E2. apply crypto_gen_inv in E2 as [E2 Hs].
  destruct r2 as [ct|e]; [|intros [= <- <-]; by apply Hfail].
  destruct (Hs ct eq_refl) as [g Ho]. apply Aead.seal_open in Ho.
  destruct (fs_op (create_dir_all _) w2) as [r3 w3] eqn:E3.
  apply fs_op_inv in E3 as (r3' & E3 & ->). apply create_dir_all_files in E3. rewrite E2 in E3.
  destruct r3' as [[]|e]; [|intros [= <- <-]; by apply Hfail]. simpl.
  intros (r4 & E4 & ->)%fs_op_inv.
  apply atomic_write_files in E4 as [Ht Hq]; [|apply object_tmp_ne_object]. rewrite E3 in Ht, Hq.
  assert (same_deks st w1 w') as Sd.
  { intros s Hs'. apply Hq; [apply dek_ne_object|apply not_eq_sym, object_tmp_ne_dek]. }
  assert (∀ s l, s ∈ U → l ∈ U → (s, l) ≠ (r, k) →
    w_files w' !! object_path st s l = w_files w1 !! object_path st s l) as So.
  { intros s l Hs' Hl Hne. apply Hq; [|apply not_eq_sym, object_tmp_ne_object].
    intros E. apply object_path_inj in E as [-> ->]; [by apply Hne|done..]. }
  assert (∀ s, s ∈ U → dek_at st w' s = dek_at st w1 s) as Ed by (intros; unfold dek_at; by rewrite Sd).
  destruct J as [[I1 I1'] J2 J3 J4]. assert (dek_step st r w w1) as J by (by repeat split).
  assert (∀ s l, s ∈ U → l ∈ U → object_at st w' s l =
    if is_ok (map_err StoreIo r4) && bool_decide ((s, l) = (r, k)) then Some pt
    else object_at st w s l) as V.
  { intros s l Hs' Hl. rewrite <-(dek_step_view st r w w1) by done. unfold object_at. rewrite Ed by done.
    case_bool_decide as Hd; [|by rewrite So, andb_false_r]. injection Hd as -> ->.
    rewrite Hdek, Ht. destruct r4 as [[]|]; simpl; [by rewrite Ho|done]. }
  split; [split|exact V].
  - intros s Hs'. rewrite Sd, Ed by done. auto.
  - intros s l Hs' Hl Hf. rewrite V by done. case_bool_decide as Hd.
    2:{ rewrite andb_false_r, <-(dek_step_view st r w w1) by done. rewrite So in Hf by done. auto. }
    destruct (is_ok _) eqn:Eok; simpl; [done|].
    rewrite <-(dek_step_view st r w w1) by done. apply I1'; [done..|].
    injection Hd as -> ->. rewrite Ht in Hf. by destruct r4.
Qed.

Lemma get_spec st r k w res w' :
  r ∈ U → k ∈ U → store_inv st w → seen w → get st r k w = (res, w') →
  store_inv st w' ∧ (∀ s l, s ∈ U → l ∈ U → object_at st w' s l = object_at st w s l) ∧
  (∀ o, res = Ok o → o = object_at st w r k).
Proof.
  intros Hr Hk I0 Hs0. unfold get, mbind, eff_mbind.
  destruct (file_exists (object_path st r k) w) as [b0 w0] eqn:E0. apply stat_seen in E0 as (E0 & Hs1 & ->); [|done].
  destruct (store_inv_same st w w0) as [I V0]; [intros ??; by rewrite E0|intros ????; by rewrite E0|done|].
  destruct (file_present w0 (object_path st r k)) eqn:Ex; cbn [negb].
  - apply file_present_spec in Ex.
    destruct (repo_dek st r w0) as [r1 w1] eqn:E1.
    destruct (repo_dek_spec _ _ _ _ _ Hr I Hs1 E1) as [J Hdek].
    assert (∀ w2, w_files w2 = w_files w1 → store_inv st w2 ∧
      ∀ s l, s ∈ U → l ∈ U → object_at st w2 s l = object_at st w s l) as Hfail.
    { intros w2 E2.
      pose proof (dek_step_then _ _ _ _ _ Hr J E2) as J2. split; [by eapply ds_inv|].
      intros s l Hs Hl. rewrite <-V0 by done. by apply (dek_step_view st r). }
    destruct r1 as [dek|e]; [|intros [= <- <-]; by destruct (Hfail _ ltac:(eassumption || reflexivity))]. specialize (Hdek dek eq_refl).
    destruct (fs_op (read _) w1) as [r2 w2] eqn:E2.
    apply fs_op_inv in E2 as (r2' & E2 & ->). apply read_files in E2 as [E2 Hb].
    destruct r2' as [f|e]; simpl; [|intros [= <- <-]; by destruct (Hfail _ ltac:(eassumption || reflexivity))].
    specialize (Hb f eq_refl). unfold crypto_op, lift, mret, eff_mret.
    destruct (Aead.open dek _ f) as [pt|e] eqn:Eo; simpl; destruct (Hfail w2 E2) as [? V]; intros [= <- <-]; [|done].
    split; [done|]. split; [done|]. intros ? [= <-].
    rewrite <-V0, <-(dek_step_view st r w0 w1) by done. unfold object_at. rewrite Hdek, Hb. simpl. by rewrite Eo.
  - intros [= <- <-]. split; [done|]. split; [done|]. intros ? [= <-].
    apply file_present_false in Ex. rewrite <-V0 by done. unfold object_at. rewrite Ex. by destruct (dek_at st w0 r).
Qed.

Lemma store_delete_spec st r k w res w' :
  r ∈ U → k ∈ U → store_inv st w → seen w → store_delete st r k w = (res, w') →
  store_inv st w' ∧
  ∀ s l, s ∈ U → l ∈ U →
    object_at st w' s l =
    if is_ok res && bool_decide ((s, l) = (r, k)) then None else object_at st w s l.
Proof.
  intros Hr Hk I Hs0 E.
  assert (w_files w' = if is_ok res then delete (object_path st r k) (w_files w)
                       else w_files w) as Ef.
  { revert E. unfold store_delete, mbind, eff_mbind.
    destruct (file_exists (object_path st r k) w) as [b0 w0] eqn:E0. apply stat_seen in E0 as (<- & _ & ->); [|done].
    destruct (file_present w0 (object_path st r k)) eqn:Ex.
    - intros (r1 & E & ->)%fs_op_inv. unfold remove_file in E. apply io_files in E as [[-> ->]|[-> ->]]; [|done].
      apply file_present_spec in Ex as [f Ef]. by rewrite Ef.
    - intros [= <- <-]. cbn [is_ok]. rewrite delete_id; [done|]. by apply file_present_false. }
  destruct (is_ok res) eqn:Eres; simpl.
  2:{ destruct (store_inv_same st w w') as [I' V]; [intros ??; by rewrite Ef|intros ????; by rewrite Ef|done|].
      auto. }
  assert (∀ s, dek_at st w' s = dek_at st w s) as Ed.
  { intros s. unfold dek_at. rewrite Ef, lookup_delete_ne; [done|]. apply not_eq_sym, dek_ne_object. }
  assert (∀ s l, s ∈ U → l ∈ U → object_at st w' s l =
    if bool_decide ((s, l) = (r, k)) then None else object_at st w s l) as V.
  { intros s l Hs Hl. unfold object_at. rewrite Ed, Ef. case_bool_decide as Hd.
    - injection Hd as -> ->. rewrite lookup_delete_eq. by destruct (dek_at st w r).
    - rewrite lookup_delete_ne; [done|]. intros X. by apply object_path_inj in X as [<- <-]. }
  destruct I as [I1 I2]. split; [split|exact V].
  - intros s Hs. rewrite Ed, Ef, lookup_delete_ne; [auto|]. apply not_eq_sym, dek_ne_object.
  - intros s l Hs Hl. rewrite V, Ef by done. case_bool_decide as Hd.
    + injection Hd as -> ->. rewrite lookup_delete_eq. by intros [].
    + rewrite lookup_delete_ne; [auto|]. intros X. by apply object_path_inj in X as [<- <-].
Qed.

Lemma repo_dir_below st r s rest :
  r ∈ U → s ∈ U → s ≠ r → below (repo_dir st r) (repo_dir st s ++ rest) = false.
Proof.
  intros Hr Hs Hne. destruct (below _ _) eqn:E; [|done]. apply below_spec in E.
  assert (length (repo_dir st r) = length (repo_dir st s)) as Hl.
  { unfold repo_dir. by rewrite !length_app. }
  rewrite Hl, take_app_length in E. by apply repo_dir_inj in E.
Qed.

(** Wiping a repo: on success nothing of it is left; whatever the outcome, the
    other repos keep their key and objects. *)
Lemma delete_repo_files st r w res w' :
  delete_repo st r w = (res, w') →
  (∀ q, below (repo_dir st r) q = false → w_files w' !! q = w_files w !! q) ∧
  (res = Ok () → seen w → ∀ q, below (repo_dir st r) q = true → w_files w' !! q = None).
Proof.
  unfold delete_repo, mbind, eff_mbind. destruct (path_exists (repo_dir st r) w) as [b w0] eqn:E0.
  pose proof (stat_files _ _ _ _ E0) as [<- (present & -> & _)]. destruct present.
  - intros (r0 & E & ->)%fs_op_inv. apply remove_dir_all_files in E as [H1 H2].
    split; [done|]. destruct r0 as [[]|]; [auto|done].
  - intros [= <- <-]. split; [done|]. intros _ Hs q Hq. apply stat_seen in E0 as (_ & _ & [= E0]); [|done].
    symmetry in E0. apply orb_false_iff in E0 as [_ Ex]. rename w0 into w1.
    apply bool_decide_eq_false in Ex. destruct (w_files w1 !! q) eqn:E; [|done].
    exfalso. apply Ex. exists q. eauto.
Qed.

Lemma delete_repo_spec st r w w' :
  r ∈ U → store_inv st w → seen w → delete_repo st r w = (Ok (), w') →
  store_inv st w' ∧ dek_at st w' r = None ∧
  ∀ s l, s ∈ U → l ∈ U →
    object_at st w' s l = if bool_decide (s = r) then None else object_at st w s l.
Proof.
  intros Hr [I1 I2] Hs0 [Hout Hin]%delete_repo_files. specialize (Hin eq_refl Hs0).
  assert (∀ s rest, s ∈ U → w_files w' !! (repo_dir st s ++ rest) =
    if bool_decide (s = r) then None else w_files w !! (repo_dir st s ++ rest)) as Hf.
  { intros s rest Hs. case_bool_decide as Hd; [subst s; apply Hin, below_app|].
    by apply Hout, repo_dir_below. }
  assert (∀ s, s ∈ U → dek_at st w' s = if bool_decide (s = r) then None else dek_at st w s) as Hd.
  { intros s Hs. unfold dek_at, dek_path. rewrite Hf by done. by case_bool_decide. }
  assert (∀ s l, s ∈ U → l ∈ U →
    object_at st w' s l = if bool_decide (s = r) then None else object_at st w s l) as V.
  { intros s l Hs Hl. unfold object_at, object_path. rewrite Hd, Hf by done. by case_bool_decide. }
  split; [split|split; [|exact V]].
  - intros s Hs. rewrite Hd by done. unfold dek_path. rewrite Hf by done.
    case_bool_decide; [by intros []|by apply I1].
  - intros s l Hs Hl. rewrite V by done. unfold object_path. rewrite Hf by done.
    case_bool_decide; [by intros []|by apply I2].
  - rewrite Hd by done. by rewrite bool_decide_eq_true_2.
Qed.

Lemma repo_dek_calm st r w dek :
  w_sched w = [] → dek_at st w r = Some dek → repo_dek st r w = (Ok dek, w).
Proof.
  intros Hc Hd. unfold dek_at in Hd. destruct (w_files w !! dek_path st r) as [f|] eqn:Ef; [|done].
  simpl in Hd. apply to_option_Some in Hd.
  unfold repo_dek, mbind, eff_mbind, fs_op, eff_map_err. rewrite create_dir_all_calm by done. cbn [map_err].
  unfold file_exists. rewrite stat_calm by done. rewrite (proj2 (file_present_spec w _)) by (by rewrite Ef). rewrite (read_calm _ f) by done. simpl.
  unfold crypto_op. by rewrite Hd.
Qed.

(** On a medium that does not fail, [get] answers. *)
Lemma get_calm st r k w :
  r ∈ U → k ∈ U → store_inv st w → w_sched w = [] →
  get st r k w = (Ok (object_at st w r k), w).
Proof.
  intros Hr Hk I Hc. unfold get, file_exists, mbind, eff_mbind. rewrite stat_calm by done.
  destruct (file_present w (object_path st r k)) eqn:Ex; simpl.
  - apply file_present_spec in Ex. destruct (proj2 I r k Hr Hk Ex) as [pt Hpt]. rewrite Hpt.
    unfold object_at in Hpt. destruct (dek_at st w r) as [dek|] eqn:Hd; [|done].
    destruct (w_files w !! object_path st r k) as [f|] eqn:Ef; [|done]. simpl in Hpt.
    apply to_option_Some in Hpt. rewrite (repo_dek_calm _ _ _ dek) by done.
    unfold fs_op, eff_map_err. rewrite (read_calm _ f) by done. simpl. unfold crypto_op.
    by rewrite Hpt.
  - apply file_present_false in Ex. unfold object_at. rewrite Ex. by destruct (dek_at st w r).
Qed.

Lemma init_repo_spec st r w res w' :
  r ∈ U → store_inv st w → seen w → init_repo st r w = (res, w') →
  store_inv st w' ∧ ∀ s l, s ∈ U → l ∈ U → object_at st w' s l = object_at st w s l.
Proof.
  intros Hr I Hs0. unfold init_repo, mbind, eff_mbind. destruct (repo_dek st r w) as [r1 w1] eqn:E1.
  destruct (repo_dek_spec _ _ _ _ _ Hr I Hs0 E1) as [J _].
  destruct r1 as [dek|e]; intros [= <- <-]; (split; [by eapply ds_inv|]);
    intros s l Hs Hl; by apply (dek_step_view st r).
Qed.

(** The store keeps the promise of its interface, on media whose metadata can be read. *)
Definition store_ok (st : EncryptedStore) (w : World) : Prop := store_inv st w ∧ seen w.
Lemma store_ok_after {A} (c : eff World StoreError A) st w res w' (P : Prop) :
  spends c → c w = (res, w') → store_ok st w → (store_inv st w → seen w → store_inv st w' ∧ P) → store_ok st w' ∧ P.
Proof. intros Hc E [I Hs] H. destruct (H I Hs) as [I' HP]. specialize (Hc w Hs). rewrite E in Hc. done. Qed.

#[refine] Definition encrypted_object_store (st : EncryptedStore) : ObjectStore World StoreError := {|
  os_init := init_repo st;
  os_put := put st;
  os_get := get st;
  os_delete := store_delete st;
  os_view := object_at st;
  os_inv := store_ok st;
  os_id := λ i, i ∈ U;
  os_calm := λ w, w_sched w = [];
|}.
Proof.
  - intros r w res w' Hr I E. eapply store_ok_after; [apply spends_init|exact E|exact I|]. intros. by eapply init_repo_spec.
  - intros r k v w res w' Hr Hk I E. eapply store_ok_after; [apply spends_put|exact E|exact I|]. intros. by eapply put_spec.
  - intros r k w res w' Hr Hk I E. eapply store_ok_after; [apply spends_get|exact E|exact I|]. intros. by eapply get_spec.
  - intros r k w res w' Hr Hk I E. eapply store_ok_after; [apply spends_delete|exact E|exact I|]. intros. by eapply store_delete_spec.
  - intros r k w Hr Hk [I _] Hc. exists w. split; [by apply get_calm|done].
Defined.
End store.

Section claims.
Context `{RND : SystemRandom} `{DIG : Digests} `{AB : AeadBackend} `{HX : Hex}.

(** The same files with nothing left to fail, as after a restart. *)
Definition restarted (w : World) : World :=
  {| w_files := w_files w; w_sched := []; w_gen := w_gen w |}.

(** C13. The encrypted store refines a map from [(repo_id, key)] to
    plaintexts.  Take any sequence of puts, gets and deletes, of repo ids and keys whose
    SHA-256 digests do not collide, and any schedule in which creating directories, reading, writing, renaming and removing files fail or tear,
    while the metadata of files can be read, so that [Path::exists] tells the truth: the
    answers are those of the map on which the failed operations did nothing, and after a
    restart the store, opened with the same KEK, answers every [get] of those ids and keys
    with exactly that map's content. *)
Theorem store_refines_map (U : list string)
    (U_free : coll_free digest_sha256 (as_bytes <$> U))
    (st : EncryptedStore) (ops : list store_op) (w w' : World)
    (rs : list (result StoreError (option bytes))) (m : gmap (string * string) bytes) :
  let OS := encrypted_object_store U U_free st in
  Forall op_ids ops → represents w m → Unseen ∉ w_sched w → run ops w = (rs, w') →
  ∃ m', spec_run ops rs m m' ∧ represents w' m' ∧
    ∀ r k, r ∈ U → k ∈ U →
      get st r k (restarted w') = (Ok (m' !! (r, k)), restarted w').
Proof.
  intros OS Hops R _ E. destruct (run_refines _ _ _ _ _ Hops R E) as (m' & Hs & R').
  exists m'. split; [done|]. split; [done|]. intros r k Hr Hk. destruct R' as [[I _] V].
  rewrite (V r k Hr Hk). apply (get_calm U st r k (restarted w')); done.
Qed.

Lemma object_aad_inj r k r' k' :
  x00 ∉ as_bytes r → x00 ∉ as_bytes r' → object_aad r k = object_aad r' k' → r = r' ∧ k = k'.
Proof.
  unfold object_aad. intros Hr Hr' E. apply app_inv_head in E. simpl in E.
  apply app_sep_inj in E as [E1 E2]; [|done..]. split; by apply as_bytes_inj.
Qed.

(** A break of the cipher: one ciphertext, under one key and nonce, that was sealed with one
    context and opens in another. *)
Definition forgery (key : bytes) (c aad aad' : bytes) : Prop :=
  aad ≠ aad' ∧ ∃ scheme nonce ct pt pt',
    c = Aead.sealed scheme nonce ct ∧
    seal_in_place_append_tag (Aead.alg_of scheme) key nonce aad pt = Some ct ∧
    open_in_place (Aead.alg_of scheme) key nonce aad' ct = Some pt'.

Lemma open_relocated key aad aad' c pt :
  Aead.open key aad c = Ok pt → aad ≠ aad' → Aead.open key aad' c = Err AuthFailed ∨ forgery key c aad aad'.
Proof.
  intros (scheme & nonce & ct & Hn & Hk & -> & Hs)%Aead.open_inv Hne. rewrite Aead.open_sealed by done.
  destruct (open_in_place _ _ _ aad' _) as [pt'|] eqn:Eo; [right|by left]. split; [done|]. eauto 9.
Qed.

(** C14. Ciphertexts cannot be relocated without breaking the cipher: an object file that
    was sealed for [(r, k)] and has been copied to the place of another [(r', k')] whose
    repo key is the same (a key of the same repo, or another repo directory into which the
    wrapped key was copied as well) is refused with [AuthFailed], unless the file itself
    is a forgery: its ciphertext, sealed with the context of [(r, k)], opens under the
    same key and nonce with another context.  Repo ids hold no NUL character, and the
    medium does not fail. *)
Theorem relocated_object_rejected (st : EncryptedStore) (w : World)
    (r k r' k' : string) (dek f pt : bytes) :
  x00 ∉ as_bytes r → x00 ∉ as_bytes r' → (r, k) ≠ (r', k') →
  w_sched w = [] → Aead.open dek (object_aad r k) f = Ok pt →
  dek_at st w r' = Some dek → w_files w !! object_path st r' k' = Some f →
  get st r' k' w = (Err (StoreCrypto AuthFailed), w) ∨ forgery dek f (object_aad r k) (object_aad r' k').
Proof.
  intros Hr Hr' Hne Hc Ho Hd Hf.
  destruct (open_relocated dek (object_aad r k) (object_aad r' k') f pt Ho) as [Ha|?]; [|left|by right].
  { intros E. apply object_aad_inj in E as [-> ->]; done. }
  unfold get, file_exists, mbind, eff_mbind. rewrite stat_calm by done.
  rewrite (proj2 (file_present_spec w _)) by (by rewrite Hf). cbn [negb].
  rewrite (repo_dek_calm st r' w dek) by done.
  unfold fs_op, eff_map_err. rewrite (read_calm _ f) by done. simpl. unfold crypto_op. by rewrite Ha.
Qed.

(** [delete_repo] that returns [Ok] leaves no file of the repo and no
    other repo touched: the repo looks uninitialized, every object of it is gone,
    and a second call is again [Ok] without a further effect. *)
Lemma delete_repo_wipes (U : list string)
    (U_free : coll_free digest_sha256 (as_bytes <$> U))
    (st : EncryptedStore) (r : string) (w w' : World) :
  r ∈ U → store_inv U st w → seen w → delete_repo st r w = (Ok (), w') →
  store_inv U st w' ∧ file_present w' (dek_path st r) = false ∧
  (∀ q, below (repo_dir st r) q = true → w_files w' !! q = None) ∧
  (∀ s l, s ∈ U → l ∈ U →
    object_at st w' s l = if bool_decide (s = r) then None else object_at st w s l) ∧
  (delete_repo st r w').1 = Ok () ∧ w_files (delete_repo st r w').2 = w_files w'.
Proof.
  intros Hr I Hs E. destruct (delete_repo_spec U U_free st r w w' Hr I Hs E) as (I' & _ & V).
  apply delete_repo_files in E as [_ Hin]. specialize (Hin eq_refl Hs).
  split; [done|]. split; [|split; [done|split; [done|]]].
  - apply file_present_false. unfold dek_path. rewrite Hin by apply below_app. done.
  - unfold delete_repo, mbind, eff_mbind. destruct (path_exists (repo_dir st r) w') as [b w0] eqn:E0.
    apply stat_files in E0 as [E0 (present & -> & Hp)]. destruct present; [|done]. exfalso.
    specialize (Hp eq_refl). rewrite (path_present_same w' w0) in Hp by done. apply orb_true_iff in Hp as [Ex|Ex].
    + apply file_present_spec in Ex. rewrite <-(app_nil_r (repo_dir st r)), Hin in Ex by apply below_app. by destruct Ex.
    + apply bool_decide_eq_true in Ex. destruct Ex as (q & b & Hq & Hb). rewrite Hin in Hq by done. done.
Qed.
End claims.

Section witnesses.
#[local] Existing Instance toy_rng.
#[local] Existing Instance toy_digests.
#[local] Existing Instance toy_aead.
#[local] Existing Instance toy_hex.

Definition toy_store : EncryptedStore :=
  {| st_root := ["data"]; st_kek := to_le_bytes 32 77; st_aead := DEFAULT_AEAD |}.
Definition toy_ids : list string := ["alice/repo"; "bob/repo"; "refs"; "meta"].

Lemma toy_ids_free : coll_free digest_sha256 (as_bytes <$> toy_ids).
Proof. apply coll_freeb_spec. vm_refl. Qed.

(** A put succeeds, a second one is torn, then both keys are read. *)
Definition toy_ops : list store_op :=
  [OpPut "alice/repo" "refs" (as_bytes "v1"); OpPut "alice/repo" "refs" (as_bytes "v2");
   OpGet "alice/repo" "refs"; OpGet "bob/repo" "refs"].
Definition toy_world : World :=
  {| w_files := ∅;
     w_sched := [Fine; Fine; Fine; Fine; Fine; Fine; Fine; Fine; Fine; Fine; Fine; Torn 3]; w_gen := 5 |}.

Lemma toy_empty_represents :
  let OS := encrypted_object_store toy_ids toy_ids_free toy_store in represents toy_world ∅.
Proof.
  split; [split; [split; [by intros ?? []|by intros ???? []]|vm_decide]|done].
Qed.

Lemma store_refines_map_witness :
  let OS := encrypted_object_store toy_ids toy_ids_free toy_store in
  (run toy_ops toy_world).1 =
    [Ok None; Err (StoreIo IoOther); Ok (Some (as_bytes "v1")); Ok None] ∧
  ∃ m', spec_run toy_ops (run toy_ops toy_world).1 ∅ m' ∧ represents (run toy_ops toy_world).2 m' ∧
    ∀ r k, r ∈ toy_ids → k ∈ toy_ids →
      get toy_store r k (restarted (run toy_ops toy_world).2) =
      (Ok (m' !! (r, k)), restarted (run toy_ops toy_world).2).
Proof.
  split; [vm_refl|].
  apply (store_refines_map toy_ids toy_ids_free toy_store toy_ops toy_world).
  - repeat constructor; vm_decide.
  - apply toy_empty_represents.
  - vm_decide.
  - apply surjective_pairing.
Defined.

(** Alice's [refs] object copied over her [meta] object. *)
Definition toy_put_world : World :=
  (put toy_store "alice/repo" "refs" (as_bytes "v1") (restarted toy_world)).2.
Definition toy_file : bytes :=
  default [] (w_files toy_put_world !! object_path toy_store "alice/repo" "refs").
Definition toy_moved : World :=
  set_files (<[object_path toy_store "alice/repo" "meta" := toy_file]> (w_files toy_put_world))
    toy_put_world.
Definition toy_dek : bytes := default [] (dek_at toy_store toy_put_world "alice/repo").

Lemma relocated_object_rejected_witness :
  Aead.open toy_dek (object_aad "alice/repo" "refs") toy_file = Ok (as_bytes "v1") ∧
  get toy_store "alice/repo" "meta" toy_moved = (Err (StoreCrypto AuthFailed), toy_moved).
Proof.
  split; [vm_refl|].
  destruct (relocated_object_rejected toy_store toy_moved "alice/repo" "refs" "alice/repo" "meta"
           toy_dek toy_file (as_bytes "v1")) as [H|(Hne & s & n & ct & p & p' & _ & Hs & Ho)]; [vm_decide|vm_decide|done|vm_refl..|exact H|].
  exfalso. apply (aead_seal_open (Aead.alg_of s)) in Ho.
  by edestruct (toy_seal_binds _ toy_dek n _ p _ toy_dek n _ p' ct Hs Ho) as (_ & _ & ? & _).
Defined.

(** [Path::exists] says no when the metadata cannot be read: then [get] answers that there
    is nothing, and a [put] of another key replaces the key of the repo, after which what
    was stored cannot be read any more. *)
Definition blind (s : list outcome) : World := {| w_files := w_files toy_put_world; w_sched := s; w_gen := 9 |}.
Example unseen_answers_none :
  object_at toy_store (blind [Unseen]) "alice/repo" "refs" = Some (as_bytes "v1") ∧
  (get toy_store "alice/repo" "refs" (blind [Unseen])).1 = Ok None.
Proof. vm_compute. done. Qed.
Example unseen_loses_objects :
  let '(r, w) := put toy_store "alice/repo" "meta" (as_bytes "v2") (blind [Fine; Unseen]) in
  r = Ok () ∧ (get toy_store "alice/repo" "refs" w).1 = Err (StoreCrypto AuthFailed).
Proof. vm_compute. done. Qed.

Lemma delete_repo_wipes_witness :
  object_at toy_store toy_put_world "alice/repo" "refs" = Some (as_bytes "v1") ∧
  let w' := (delete_repo toy_store "alice/repo" toy_put_world).2 in
  store_inv toy_ids toy_store w' ∧ file_present w' (dek_path toy_store "alice/repo") = false.
Proof.
  split; [vm_refl|].
  edestruct (delete_repo_wipes toy_ids toy_ids_free toy_store "alice/repo" toy_put_world
    (delete_repo toy_store "alice/repo" toy_put_world).2)
    as (H1 & H2 & _); [vm_decide| |vm_decide|vm_refl|exact (conj H1 H2)].
  edestruct (put_spec toy_ids toy_ids_free toy_store "alice/repo" "refs") as [I _];
    [vm_decide|vm_decide| | |apply surjective_pairing|exact I]; [|vm_decide].
  split; [by intros ?? []|by intros ???? []].
Defined.
End witnesses.
