(* ===== verification/AuditLog.v ===== *)
(** [crates/secgit-audit/src/lib.rs]: the transparency log.

    Entries form a hash chain, their hashes are the leaves of the Merkle tree,
    and checkpoints sign the root.  The clock ([now]) is an argument. *)

From S2P Require Import Prelude Text Backend Toy Envelope Primitives.
From S2P Require Import Merkle MerkleTheory Aead Sig Fs.

Inductive AuditError :=
| AuditIo (e : IoError)
| AuditSerde
| AuditCrypto (e : CryptoError)
| Integrity (why : string).

Inductive AuditEvent :=
| RepoCreated (repo_id owner : string)
| RefUpdated (repo_id reference old new actor : string)
| KeyReleased (resource_id measurement_hex : string)
| KeyRotated (resource_id : string)
| AccessDenied (repo_id actor reason : string)
| Admin (action actor : string).

Record LogEntry := mkLogEntry {
  le_seq : N;
  le_timestamp : N;
  le_prev_hash : bytes;
  le_event : AuditEvent;
  le_entry_hash : bytes;
}.

(** The JSON fields of a [LogEntry]: the two hashes go through [hex32]. *)
Record RawEntry := mkRawEntry {
  raw_seq : N;
  raw_timestamp : N;
  raw_prev_hash : string;
  raw_event : AuditEvent;
  raw_entry_hash : string;
}.

Definition ZERO_HASH : bytes := repeat x00 32.

Section audit.
Context `{RND : SystemRandom} `{DIG : Digests} `{AB : AeadBackend} `{HX : Hex}
  `{ED : Ed25519} `{ML : MlDsa}
  `{SEV : Serde AuditEvent} `{SRE : Serde RawEntry} `{JRE : !JsonObject RawEntry}.

(** [mod hex32]. *)
Definition hex32_serialize (v : bytes) : string := hex_encode v.
Definition hex32_deserialize (s : string) : option bytes :=
  b ← hex_decode s;
  if Nat.eqb (length b) 32 then Some b else None.

(** [serde_json::to_vec(&entry)] and [serde_json::from_slice::<LogEntry>]; the
    two numbers are [u64]. *)
Definition entry_to_vec (e : LogEntry) : bytes :=
  to_vec {| raw_seq := le_seq e; raw_timestamp := le_timestamp e;
            raw_prev_hash := hex32_serialize (le_prev_hash e); raw_event := le_event e;
            raw_entry_hash := hex32_serialize (le_entry_hash e) |}.

Definition entry_from_slice (b : bytes) : option LogEntry :=
  raw ← from_slice b : option RawEntry;
  prev ← hex32_deserialize (raw_prev_hash raw);
  hash ← hex32_deserialize (raw_entry_hash raw);
  if (raw_seq raw <=? u64_max) && (raw_timestamp raw <=? u64_max) then
    Some {| le_seq := raw_seq raw; le_timestamp := raw_timestamp raw; le_prev_hash := prev;
            le_event := raw_event raw; le_entry_hash := hash |}
  else None.

Definition entry_input (seq ts : N) (prev event_json : bytes) : bytes :=
  nul_terminated "secgit/audit/entry/v1" ++ to_le_bytes 8 seq ++ to_le_bytes 8 ts ++ prev ++ event_json.

Definition compute_entry_hash (seq ts : N) (prev event_json : bytes) : bytes :=
  sha256 (entry_input seq ts prev event_json).

(** ** Checkpoints *)

Record Checkpoint := mkCheckpoint {
  cp_log_id : string;
  cp_tree_size : N;
  cp_root_hash : bytes;
  cp_timestamp : N;
  cp_signature_hex : string;
}.

Definition signed_bytes (log_id : string) (tree_size : N) (rt : bytes) (ts : N) : bytes :=
  nul_terminated "secgit/audit/checkpoint/v1" ++ as_bytes log_id ++ [x00]
  ++ to_le_bytes 8 tree_size ++ rt ++ to_le_bytes 8 ts.

Definition checkpoint_verify (cp : Checkpoint) (vk : Sig.VerifyingKey) : result AuditError unit :=
  let b := signed_bytes (cp_log_id cp) (cp_tree_size cp) (cp_root_hash cp) (cp_timestamp cp) in
  sig ← ok_or (Integrity "bad checkpoint signature hex") (hex_decode (cp_signature_hex cp));
  _ ← map_err AuditCrypto (Sig.verify vk b sig);
  Ok ().

(** ** The log *)

Record TransparencyLog := mkLog {
  tl_path : path;
  tl_log_id : string;
  tl_entries : list LogEntry;
  tl_leaves : list bytes;
  tl_signer : Sig.SigningKey;
  tl_at_rest : option Aead.SymKey;
}.

Definition record_aad (log_id : string) (seq : N) : bytes :=
  nul_terminated "secgit/audit-record/v1" ++ as_bytes log_id ++ [x00] ++ to_le_bytes 8 seq.

Definition decode_record (log : TransparencyLog) (seq : N) (line : bytes) : result AuditError bytes :=
  match tl_at_rest log with
  | None => Ok line
  | Some key =>
      ct ← ok_or (Integrity "audit record not valid hex") (hex_decode (string_of_list_byte (trim line)));
      map_err AuditCrypto (Aead.open key (record_aad (tl_log_id log) seq) ct)
  end.

Definition encode_record (log : TransparencyLog) (seq : N) (json : bytes) : eff rng AuditError bytes :=
  match tl_at_rest log with
  | None => mret (from_utf8_lossy json)
  | Some key =>
      ct ← eff_map_err AuditCrypto
             (Aead.seal DEFAULT_AEAD key (record_aad (tl_log_id log) seq) json);
      mret (as_bytes (hex_encode ct))
  end.

(** [self.leaves.push(..); self.entries.push(..)]. *)
Definition push_entry (log : TransparencyLog) (e : LogEntry) : TransparencyLog :=
  {| tl_path := tl_path log; tl_log_id := tl_log_id log;
     tl_entries := tl_entries log ++ [e];
     tl_leaves := tl_leaves log ++ [leaf_hash (le_entry_hash e)];
     tl_signer := tl_signer log; tl_at_rest := tl_at_rest log |}.

(** The body of the loop of [load], then the loop. *)
Definition load_line (log : TransparencyLog) (i : N) (prev line : bytes) : result AuditError LogEntry :=
  json ← decode_record log i line;
  entry ← ok_or AuditSerde (entry_from_slice json);
  if negb (le_seq entry =? i) then Err (Integrity "sequence gap")
  else if negb (bool_decide (le_prev_hash entry = prev)) then Err (Integrity "broken hash chain")
  else
    let event_json := to_vec (le_event entry) in
    let expect := compute_entry_hash (le_seq entry) (le_timestamp entry) (le_prev_hash entry) event_json in
    if negb (bool_decide (expect = le_entry_hash entry)) then Err (Integrity "entry hash mismatch")
    else Ok entry.

Fixpoint load_lines (log : TransparencyLog) (i : N) (prev : bytes) (ls : list bytes)
    : result AuditError TransparencyLog :=
  match ls with
  | [] => Ok log
  | line :: ls =>
      if bool_decide (trim line = []) then load_lines log (i + 1) prev ls
      else
        entry ← load_line log i prev line;
        load_lines (push_entry log entry) (i + 1) (le_entry_hash entry) ls
  end.

(** [std::fs::read_to_string]. *)
Definition read_to_string (p : path) : eff World IoError bytes :=
  b ← read p; if valid_utf8 b then mret b else throw IoOther.

Definition load (log : TransparencyLog) : eff World AuditError TransparencyLog :=
  content ← eff_map_err AuditIo (read_to_string (tl_path log));
  lift (load_lines log 0 ZERO_HASH (lines content)).

Definition empty_log (p : path) (log_id : string) (signer : Sig.SigningKey)
    (at_rest : option Aead.SymKey) : TransparencyLog :=
  {| tl_path := p; tl_log_id := log_id; tl_entries := []; tl_leaves := [];
     tl_signer := signer; tl_at_rest := at_rest |}.

Definition open_inner (p : path) (log_id : string) (signer : Sig.SigningKey)
    (at_rest : option Aead.SymKey) : eff World AuditError TransparencyLog :=
  let log := empty_log p log_id signer at_rest in
  present ← path_exists p;
  if present : bool then load log
  else _ ← eff_map_err AuditIo (create_dir_all (removelast p)); mret log.

Definition open_plain (p : path) (log_id : string) (signer : Sig.SigningKey) :=
  open_inner p log_id signer None.
Definition open_encrypted (p : path) (log_id : string) (signer : Sig.SigningKey) (key : Aead.SymKey) :=
  open_inner p log_id signer (Some key).

Definition tl_len (log : TransparencyLog) : N := lengthN (tl_entries log).
Definition tl_root (log : TransparencyLog) : bytes := root (tl_leaves log).

(** The entry [append] commits. *)
Definition last_hash (log : TransparencyLog) : bytes :=
  default ZERO_HASH (le_entry_hash <$> list.last (tl_entries log)).

Definition next_entry (log : TransparencyLog) (event : AuditEvent) (ts : N) : LogEntry :=
  let seq := tl_len log in
  let prev := last_hash log in
  {| le_seq := seq; le_timestamp := ts; le_prev_hash := prev; le_event := event;
     le_entry_hash := compute_entry_hash seq ts prev (to_vec event) |}.

(** The fields of [self] change only after the last fallible call: the new log
    is part of the answer, an error leaves the old one. *)
Definition append (log : TransparencyLog) (event : AuditEvent) (ts : N)
    : eff World AuditError (LogEntry * TransparencyLog) :=
  let entry := next_entry log event ts in
  line ← with_gen (encode_record log (le_seq entry) (entry_to_vec entry));
  _ ← eff_map_err AuditIo (open_append (tl_path log));
  _ ← eff_map_err AuditIo (append_file (tl_path log) (line ++ [NL]));
  _ ← eff_map_err AuditIo (sync_all (tl_path log));
  mret (entry, push_entry log entry).

Definition checkpoint (log : TransparencyLog) (ts : N) : result AuditError Checkpoint :=
  let tree_size := tl_len log in
  let root_hash := tl_root log in
  let b := signed_bytes (tl_log_id log) tree_size root_hash ts in
  sig ← map_err AuditCrypto (Sig.sign (tl_signer log) b);
  Ok {| cp_log_id := tl_log_id log; cp_tree_size := tree_size; cp_root_hash := root_hash;
        cp_timestamp := ts; cp_signature_hex := hex_encode sig |}.

Definition log_verifying_key (log : TransparencyLog) : Sig.VerifyingKey :=
  Sig.verifying_key (tl_signer log).

(** [self.leaves[seq]] is in range after the guard; the inner [option] is the
    assertion of [merkle::inclusion_proof]. *)
Definition log_inclusion_proof (log : TransparencyLog) (seq : N) : option (bytes * list bytes) :=
  if lengthN (tl_leaves log) <=? seq then None
  else
    leaf ← tl_leaves log !! N.to_nat seq;
    proof ← inclusion_proof (tl_leaves log) seq;
    Some (leaf, proof).

Definition log_consistency_proof (log : TransparencyLog) (old_size : N) : option (list bytes) :=
  if (old_size =? 0) || (lengthN (tl_leaves log) <? old_size) then None
  else consistency_proof (tl_leaves log) old_size.

(** ** The chain *)

(** An entry that continues a chain: its hash is right, it names its
    predecessor, and its number is at least [lo]. *)
Definition elink (lo : N) (prev : bytes) (e : LogEntry) : Prop :=
  lo ≤ le_seq e ∧ le_seq e ≤ u64_max ∧ le_timestamp e ≤ u64_max ∧ le_prev_hash e = prev ∧
  le_entry_hash e = compute_entry_hash (le_seq e) (le_timestamp e) (le_prev_hash e) (to_vec (le_event e)).

Fixpoint linked (lo : N) (prev : bytes) (es : list LogEntry) : Prop :=
  match es with
  | [] => True
  | e :: es => elink lo prev e ∧ linked (le_seq e + 1) (le_entry_hash e) es
  end.

(** A linked chain, the leaves being those of the entries; a numbered one has
    the entries' positions as their numbers. *)
Definition log_linked (log : TransparencyLog) : Prop :=
  linked 0 ZERO_HASH (tl_entries log) ∧
  tl_leaves log = (λ e, leaf_hash (le_entry_hash e)) <$> tl_entries log.
Definition numbered (es : list LogEntry) : Prop :=
  ∀ i e, es !! i = Some e → le_seq e = N.of_nat i.
Definition log_inv (log : TransparencyLog) : Prop := log_linked log ∧ numbered (tl_entries log).

Definition next_lo (lo : N) (es : list LogEntry) : N :=
  default lo ((λ e, le_seq e + 1) <$> list.last es).

Lemma linked_snoc lo prev es e :
  linked lo prev (es ++ [e]) ↔
  linked lo prev es ∧ elink (next_lo lo es) (default prev (le_entry_hash <$> list.last es)) e.
Proof.
  revert lo prev. induction es as [|x es IH]; intros lo prev; simpl; [tauto|].
  rewrite IH. unfold next_lo. destruct es as [|y es]; simpl; [tauto|].
  destruct (list.last (y :: es)) as [z|] eqn:E; simpl; [tauto|]. by apply last_None in E.
Qed.

Lemma numbered_next_lo es : numbered es → next_lo 0 es = lengthN es.
Proof.
  intros Hn. unfold next_lo. destruct (list.last es) as [e|] eqn:E; simpl.
  - rewrite last_lookup in E. pose proof (lookup_lt_Some _ _ _ E). rewrite (Hn _ _ E). lia.
  - apply last_None in E. by subst.
Qed.

Lemma push_entry_linked log e :
  log_linked log → elink (next_lo 0 (tl_entries log)) (last_hash log) e → log_linked (push_entry log e).
Proof.
  intros [Hc Hl] He. split; simpl.
  - apply linked_snoc. by split.
  - by rewrite Hl, fmap_app.
Qed.

Lemma append_entry_inv log event ts :
  log_inv log → tl_len log ≤ u64_max → ts ≤ u64_max → log_inv (push_entry log (next_entry log event ts)).
Proof.
  intros [Hl Hn] Hlen Hts. split.
  - apply push_entry_linked; [done|]. unfold elink. rewrite numbered_next_lo by done.
    split; [simpl; unfold tl_len; lia|]. done.
  - intros i e. simpl. intros [H|[Hi He]]%lookup_app_Some; [by apply Hn|].
    apply list_lookup_singleton_Some in He as [Hi0 <-]. simpl. unfold tl_len. lia.
Qed.

Lemma entry_input_inj seq ts prev j seq' ts' prev' j' :
  seq ≤ u64_max → seq' ≤ u64_max → ts ≤ u64_max → ts' ≤ u64_max →
  length prev = length prev' →
  entry_input seq ts prev j = entry_input seq' ts' prev' j' →
  seq = seq' ∧ ts = ts' ∧ prev = prev' ∧ j = j'.
Proof.
  unfold entry_input. intros H1 H2 H3 H4 Hp E. apply app_inv_head in E.
  apply app_inj_len in E as [E1 E]; [|len_lia].
  apply app_inj_len in E as [E2 E]; [|len_lia].
  apply app_inj_len in E as [E3 E4]; [|done].
  apply to_le_bytes_inj in E1; [|unfold u64_max in *; simpl; lia..].
  apply to_le_bytes_inj in E2; [|unfold u64_max in *; simpl; lia..]. done.
Qed.

(** The inputs a log hashes: entries, leaves, tree nodes. *)
Definition entry_inputs (es : list LogEntry) : list bytes :=
  (λ e, entry_input (le_seq e) (le_timestamp e) (le_prev_hash e) (to_vec (le_event e))) <$> es.
Definition leaf_inputs (es : list LogEntry) : list bytes := (λ e, x00 :: le_entry_hash e) <$> es.
Definition log_inputs (log : TransparencyLog) : list bytes :=
  entry_inputs (tl_entries log) ++ leaf_inputs (tl_entries log) ++ tree_inputs (tl_leaves log).

(** Two chains with the same leaf hashes are equal. *)
Lemma linked_inj inputs lo lo' prev es es' :
  coll_free digest_sha256 inputs →
  entry_inputs es ⊆ inputs → entry_inputs es' ⊆ inputs →
  leaf_inputs es ⊆ inputs → leaf_inputs es' ⊆ inputs →
  linked lo prev es → linked lo' prev es' →
  (λ e, leaf_hash (le_entry_hash e)) <$> es = (λ e, leaf_hash (le_entry_hash e)) <$> es' → es = es'.
Proof.
  intros Hcf. revert lo lo' prev es'.
  induction es as [|e es IH]; intros lo lo' prev [|e' es'] Se Se' Sl Sl' Hc Hc' E; try done.
  simpl in *. injection E as Eh Er.
  destruct Hc as [(_ & Hs & Ht & Hp & Hh) Hc], Hc' as [(_ & Hs' & Ht' & Hp' & Hh') Hc'].
  assert (le_entry_hash e = le_entry_hash e') as Eeh.
  { unfold leaf_hash, sha256 in Eh. apply Hcf in Eh; [congruence|apply Sl|apply Sl']; left. }
  assert (e = e') as ->.
  { destruct e as [sq ts pv ev h], e' as [sq' ts' pv' ev' h']; simpl in *. subst pv pv' h h'.
    unfold compute_entry_hash, sha256 in Eeh.
    apply Hcf in Eeh; [|apply Se; left|apply Se'; left].
    apply entry_input_inj in Eeh as (-> & -> & _ & Ev%to_vec_inj); [by rewrite Ev|lia..|done]. }
  f_equal. eapply IH; [..|exact Hc|exact Hc'|exact Er].
  - intros x Hx. apply Se. by right.
  - intros x Hx. apply Se'. by right.
  - intros x Hx. apply Sl. by right.
  - intros x Hx. apply Sl'. by right.
Qed.

Lemma log_leaves_hash32 log : log_linked log → Forall hash32 (tl_leaves log).
Proof. intros [_ ->]. apply Forall_fmap, Forall_true. intros e. apply hash32_sha256. Qed.

Lemma log_leaves_length log : log_linked log → length (tl_leaves log) = length (tl_entries log).
Proof. intros [_ ->]. by rewrite length_fmap. Qed.

Lemma log_determined log log' :
  log_linked log → log_linked log' → fits (tl_leaves log) →
  coll_free digest_sha256 (log_inputs log ++ log_inputs log') →
  length (tl_leaves log) = length (tl_leaves log') → root (tl_leaves log) = root (tl_leaves log') →
  tl_entries log = tl_entries log'.
Proof.
  intros I I' Hf Hcf Hlen Hroot.
  assert (∀ x, x ∈ log_inputs log ∨ x ∈ log_inputs log' → x ∈ log_inputs log ++ log_inputs log') as S12.
  { intros x. by rewrite elem_of_app. }
  assert (tl_leaves log = tl_leaves log') as El.
  { assert (fits (tl_leaves log')) by (unfold fits in *; by rewrite <-Hlen).
    eapply tr_root_inj; [done|done|by apply log_leaves_hash32..|exact Hcf| | |].
    - intros x Hx. apply S12. left. unfold log_inputs. rewrite !elem_of_app. auto.
    - intros x Hx. apply S12. right. unfold log_inputs. rewrite !elem_of_app. auto.
    - by rewrite !tr_root_fst. }
  destruct I as [Hc Hl1], I' as [Hc' Hl2]. rewrite Hl1, Hl2 in El.
  eapply (linked_inj _ 0 0 ZERO_HASH); [exact Hcf|..|exact Hc|exact Hc'|exact El].
  - intros x Hx. apply S12. left. unfold log_inputs. rewrite !elem_of_app. auto.
  - intros x Hx. apply S12. right. unfold log_inputs. rewrite !elem_of_app. auto.
  - intros x Hx. apply S12. left. unfold log_inputs. rewrite !elem_of_app. auto.
  - intros x Hx. apply S12. right. unfold log_inputs. rewrite !elem_of_app. auto.
Qed.

(** ** Loading *)

Lemma entry_from_slice_wf b e :
  entry_from_slice b = Some e → le_seq e ≤ u64_max ∧ le_timestamp e ≤ u64_max.
Proof.
  unfold entry_from_slice. destruct (from_slice b) as [raw|]; [|done]. cbn [mbind option_bind].
  destruct (hex32_deserialize (raw_prev_hash raw)); [|done].
  destruct (hex32_deserialize (raw_entry_hash raw)); [|done]. simpl.
  destruct (N.leb_spec (raw_seq raw) u64_max), (N.leb_spec (raw_timestamp raw) u64_max); try done.
  by intros [= <-].
Qed.

Lemma load_line_link log i prev line e :
  load_line log i prev line = Ok e → elink i prev e ∧ le_seq e = i.
Proof.
  unfold load_line, mbind, result_mbind. destruct (decode_record log i line) as [json|]; [|done].
  destruct (entry_from_slice json) as [x|] eqn:Ex; [|done]. simpl.
  destruct (N.eqb_spec (le_seq x) i) as [<-|]; [|done]. case_bool_decide; [|done].
  case_bool_decide as Hh; [|done]. intros [= <-]. apply entry_from_slice_wf in Ex as [? ?].
  by repeat split.
Qed.

Lemma last_hash_push log e : last_hash (push_entry log e) = le_entry_hash e.
Proof. unfold last_hash. simpl. by rewrite last_snoc. Qed.

(** [load] accepts linked chains only; a file without blank lines gives a
    numbered one. *)
Lemma load_lines_linked log i ls log' :
  log_linked log → next_lo 0 (tl_entries log) ≤ i →
  load_lines log i (last_hash log) ls = Ok log' →
  log_linked log' ∧
  (Forall (λ l, trim l ≠ []) ls → numbered (tl_entries log) → tl_len log = i → numbered (tl_entries log')).
Proof.
  revert log i. induction ls as [|line ls IH]; intros log i Hl Hlo; simpl.
  { intros [= <-]. done. }
  case_bool_decide as Hb.
  - intros E. destruct (IH log (i + 1) Hl) as [H1 H2]; [lia|done|]. split; [done|].
    by intros [? _]%Forall_cons.
  - unfold mbind, result_mbind. destruct (load_line log i _ line) as [e|] eqn:E1; [|done].
    apply load_line_link in E1 as [[H0 He] Hseq]. rewrite <-(last_hash_push log e). intros E2.
    apply IH in E2 as [H1 H2].
    + split; [done|]. intros [_ HF]%Forall_cons Hn Hlen. apply H2; [done| |].
      * intros j x. simpl. intros [H|[Hi Hx]]%lookup_app_Some; [by apply Hn|].
        apply list_lookup_singleton_Some in Hx as [Hi0 <-]. unfold tl_len in *. lia.
      * unfold tl_len in *. simpl. len_lia.
    + apply push_entry_linked; [done|]. split; [lia|done].
    + unfold next_lo. simpl. rewrite last_snoc. simpl. lia.
Qed.

Lemma open_inner_linked p log_id signer at_rest w log w' :
  open_inner p log_id signer at_rest w = (Ok log, w') → log_linked log.
Proof.
  unfold open_inner, mbind at 1, eff_mbind at 1. destruct (path_exists p w) as [[[]|] w0]; [| |done].
  - unfold load, mbind, eff_mbind. destruct (eff_map_err _ _ w0) as [[content|] w1]; [|done].
    unfold lift. intros [= E _]. by apply (load_lines_linked (empty_log _ _ _ _) 0) in E as [H _].
  - unfold mbind, eff_mbind. destruct (eff_map_err _ _ w0) as [[?|] w1]; [|done]. by intros [= <- _].
Qed.

(** ** The file *)

Definition entry_wf (e : LogEntry) : Prop :=
  le_seq e ≤ u64_max ∧ le_timestamp e ≤ u64_max ∧
  length (le_prev_hash e) = 32%nat ∧ length (le_entry_hash e) = 32%nat.

Lemma entry_from_to_vec e : entry_wf e → entry_from_slice (entry_to_vec e) = Some e.
Proof.
  intros (H1 & H2 & H3 & H4). unfold entry_from_slice, entry_to_vec, hex32_deserialize, hex32_serialize.
  rewrite from_slice_to_vec. cbn [mbind option_bind raw_prev_hash raw_entry_hash raw_seq raw_timestamp raw_event].
  rewrite !hex_decode_encode. simpl. rewrite H3, H4. simpl.
  apply N.leb_le in H1, H2. rewrite H1, H2. by destruct e.
Qed.

(** A line that reads back as [e] at position [i]. *)
Definition line_ok (log : TransparencyLog) (i : N) (line : bytes) (e : LogEntry) : Prop :=
  clean_line line ∧ valid_utf8 line = true ∧ trim line ≠ [] ∧
  ∃ json, decode_record log i line = Ok json ∧ entry_from_slice json = Some e.

Lemma hex_text c : c ≠ [] → let h := as_bytes (hex_encode c) in
  clean_line h ∧ valid_utf8 h = true ∧ trim h = h ∧ h ≠ [].
Proof.
  intros Hc h. pose proof (hex_encode_digits c) as Hd. fold h in Hd.
  assert (Forall (λ b, visible b ∧ b ≠ NL ∧ b ≠ CR) (as_bytes "0123456789abcdef")) as Hv.
  { unfold visible. vm_decide. }
  rewrite Forall_forall in Hv. assert (∀ b, b ∈ h → visible b ∧ b ≠ NL ∧ b ≠ CR) as Hh.
  { rewrite Forall_forall in Hd. intros b Hb. apply Hv; auto. }
  assert (h ≠ []) as Hne.
  { intros E. assert (hex_encode c = "") as E' by (by apply as_bytes_inj).
    apply (f_equal String.length) in E'. rewrite hex_encode_len in E'. by destruct c. }
  assert (∃ a, head h = Some a ∧ a ∈ h) as (a & Ha & Hain).
  { destruct h as [|a h]; [done|]. exists a. split; [done|left]. }
  assert (∃ z, last h = Some z ∧ z ∈ h) as (z & Hz & Hzin).
  { destruct (last h) as [z|] eqn:E; [|by apply last_None in E].
    exists z. split; [done|]. by apply last_Some_elem_of. }
  split; [split|split; [|split; [|done]]].
  - intros Hin. by apply Hh in Hin as (_ & ? & _).
  - rewrite Hz. intros [= ->]. by apply Hh in Hzin as (_ & _ & ?).
  - apply valid_utf8_ascii, Forall_forall. intros b Hb. by apply Hh in Hb as [[_ ?] _].
  - apply (trim_visible a h z); [by apply Hh|by apply Hh|done|done].
Qed.

Lemma json_text (r : RawEntry) : let h := to_vec r in
  clean_line h ∧ valid_utf8 h = true ∧ trim h = h ∧ h ≠ [].
Proof.
  intros h. destruct (json_object r) as (mid & E & Hmid). pose proof (json_utf8 r) as Hu.
  fold h in E, Hu. assert (last h = Some x7d) as Hl by (rewrite E, app_comm_cons; apply last_snoc).
  split; [split|split; [done|split]].
  - rewrite E. apply not_elem_of_cons. split; [done|]. apply not_elem_of_app. split; [done|].
    apply not_elem_of_cons. split; [done|apply not_elem_of_nil].
  - by rewrite Hl.
  - apply (trim_visible x7b _ x7d); [done..|by rewrite E|done].
  - by rewrite E.
Qed.

Lemma encode_record_ok log seq e g line g' :
  entry_wf e → encode_record log seq (entry_to_vec e) g = (Ok line, g') → line_ok log seq line e.
Proof.
  intros He. unfold encode_record, line_ok, decode_record. destruct (tl_at_rest log) as [key|].
  - unfold mbind, eff_mbind, eff_map_err.
    destruct (Aead.seal _ key _ _ g) as [[ct|] g1] eqn:Es; [|done]. simpl. intros [= <- <-].
    pose proof (Aead.seal_open _ _ _ _ _ _ _ Es) as Ho.
    assert (ct ≠ []) as Hct by (intros ->; done).
    destruct (hex_text ct Hct) as (H1 & H2 & H3 & H4). rewrite H3. split_and!; try done.
    exists (entry_to_vec e). split; [|by apply entry_from_to_vec].
    unfold as_bytes. rewrite string_of_list_byte_of_string, hex_decode_encode. simpl. by rewrite Ho.
  - intros [= <- <-]. unfold entry_to_vec at 1 2 3 4. set (r := {| raw_seq := _ |}).
    destruct (json_text r) as (H1 & H2 & H3 & H4). rewrite !from_utf8_lossy_valid by done.
    rewrite H3. split_and!; try done. exists (to_vec r). split; [done|].
    by apply (entry_from_to_vec e).
Qed.

(** What the file holds: one good line per entry, or no file and no entry. *)
Definition file_text (ls : list bytes) : bytes := concat ((λ l, l ++ [NL]) <$> ls).

Definition disk_inv (log : TransparencyLog) (w : World) : Prop :=
  (tl_entries log = [] ∧ path_present w (tl_path log) = false) ∨
  ∃ ls, w_files w !! tl_path log = Some (file_text ls) ∧
    length ls = length (tl_entries log) ∧
    ∀ i l e, ls !! i = Some l → tl_entries log !! i = Some e → line_ok log (N.of_nat i) l e.

Lemma file_text_snoc ls l : file_text (ls ++ [l]) = file_text ls ++ l ++ [NL].
Proof. unfold file_text. rewrite fmap_app, concat_app. simpl. by rewrite app_nil_r. Qed.

Lemma file_text_cons l ls : file_text (l :: ls) = l ++ (NL :: file_text ls).
Proof. unfold file_text. simpl. by rewrite <-app_assoc. Qed.

Lemma file_text_lines ls : Forall clean_line ls → lines (file_text ls) = ls.
Proof.
  induction 1 as [|l ls Hl _ IH]; [done|]. rewrite file_text_cons, lines_app by done. by rewrite IH.
Qed.

Lemma file_text_utf8 ls : Forall (λ l, valid_utf8 l = true) ls → valid_utf8 (file_text ls) = true.
Proof.
  induction 1 as [|l ls Hl _ IH]; [done|]. rewrite file_text_cons, valid_utf8_app by done.
  change (NL :: file_text ls) with ([NL] ++ file_text ls). by rewrite valid_utf8_app.
Qed.

Lemma linked_app_l lo prev es k : linked lo prev (es ++ k) → linked lo prev es.
Proof. revert lo prev. induction es as [|e es IH]; simpl; [done|]. intros ? ? [? ?]. eauto. Qed.

Lemma push_all_entries log es : tl_entries (foldl push_entry log es) = tl_entries log ++ es.
Proof.
  revert log. induction es as [|e es IH]; intros log; simpl; [by rewrite app_nil_r|].
  rewrite IH. simpl. by rewrite <-app_assoc.
Qed.

(** Good lines load, and the loop goes on with the rest. *)
Lemma load_lines_app es ls rest log :
  length ls = length es →
  linked 0 ZERO_HASH (tl_entries log ++ es) → numbered (tl_entries log ++ es) →
  (∀ j l e, ls !! j = Some l → es !! j = Some e → line_ok log (tl_len log + N.of_nat j) l e) →
  load_lines log (tl_len log) (last_hash log) (ls ++ rest) =
  let log' := foldl push_entry log es in
  load_lines log' (tl_len log') (last_hash log') rest.
Proof.
  revert ls log. induction es as [|e es IH]; intros [|l ls] log Hlen Hl Hn Hok; try done.
  simpl in Hlen. assert (le_seq e = tl_len log) as Hseq.
  { apply (Hn (length (tl_entries log))). by rewrite lookup_app_r, Nat.sub_diag by lia. }
  rewrite (cons_middle e (tl_entries log) es), app_assoc in Hl, Hn.
  pose proof (proj2 (proj1 (linked_snoc _ _ _ _) (linked_app_l _ _ _ _ Hl))) as (_ & H1 & H2 & H3 & H4).
  destruct (Hok 0%nat l e) as (_ & _ & Ht & json & Hj & He); [done..|].
  cbn [app load_lines]. rewrite bool_decide_eq_false_2 by done.
  assert (load_line log (tl_len log) (last_hash log) l = Ok e) as Eline.
  { unfold load_line. rewrite N.add_0_r in Hj. rewrite Hj. cbn [mbind result_mbind]. rewrite He.
    cbn [mbind result_mbind ok_or]. rewrite Hseq, N.eqb_refl. cbn [negb].
    rewrite bool_decide_eq_true_2 by done. cbn [negb]. rewrite <-Hseq, bool_decide_eq_true_2 by done. done. }
  unfold mbind, result_mbind. rewrite Eline. rewrite <-(last_hash_push log e). simpl.
  replace (tl_len log + 1) with (tl_len (push_entry log e))
    by (unfold tl_len; simpl; len_lia).
  apply IH; [lia|done|done|]. intros j l' e' Hl' He'.
  specialize (Hok (S j) l' e' Hl' He').
  replace (tl_len (push_entry log e) + N.of_nat j) with (tl_len log + N.of_nat (S j))
    by (unfold tl_len; simpl; len_lia).
  exact Hok.
Qed.

Lemma load_lines_ok es ls log :
  length ls = length es →
  linked 0 ZERO_HASH (tl_entries log ++ es) → numbered (tl_entries log ++ es) →
  (∀ j l e, ls !! j = Some l → es !! j = Some e → line_ok log (tl_len log + N.of_nat j) l e) →
  load_lines log (tl_len log) (last_hash log) ls = Ok (foldl push_entry log es).
Proof. intros. by rewrite <-(app_nil_r ls), (load_lines_app es). Qed.

Lemma rebuild_log log :
  log_linked log →
  foldl push_entry (empty_log (tl_path log) (tl_log_id log) (tl_signer log) (tl_at_rest log))
    (tl_entries log) = log.
Proof.
  intros [_ Hl]. assert (∀ es l0, foldl push_entry l0 es =
    {| tl_path := tl_path l0; tl_log_id := tl_log_id l0; tl_entries := tl_entries l0 ++ es;
       tl_leaves := tl_leaves l0 ++ ((λ e, leaf_hash (le_entry_hash e)) <$> es);
       tl_signer := tl_signer l0; tl_at_rest := tl_at_rest l0 |}) as H.
  { induction es as [|e es IH]; intros l0; simpl; [destruct l0; simpl; by rewrite !app_nil_r|].
    rewrite IH. simpl. by rewrite <-!app_assoc. }
  rewrite H. simpl. rewrite <-Hl. by destruct log.
Qed.

(** Opening a file made of good lines loads these lines. *)
Lemma open_inner_text p log_id signer at_rest w ls log :
  w_sched w = [] → w_files w !! p = Some (file_text ls) →
  (∀ l, l ∈ ls → ∃ e i, line_ok log i l e) →
  open_inner p log_id signer at_rest w =
  (load_lines (empty_log p log_id signer at_rest) 0 ZERO_HASH ls, w).
Proof.
  intros Hc Hf Hls. unfold open_inner, path_exists, load, read_to_string, mbind, eff_mbind, eff_map_err.
  rewrite stat_calm by done. unfold path_present. rewrite (proj2 (file_present_spec w p)) by (by rewrite Hf). cbn [orb tl_path empty_log].
  rewrite (read_calm _ (file_text ls)) by done. rewrite file_text_utf8.
  2:{ apply Forall_forall. intros l Hin. destruct (Hls l Hin) as (e & i & _ & ? & _). done. }
  simpl. unfold lift. rewrite file_text_lines; [done|].
  apply Forall_forall. intros l Hin. by destruct (Hls l Hin) as (e & i & ? & _).
Qed.

Lemma lines_of_entries log ls es :
  length ls = length es →
  (∀ i l e, ls !! i = Some l → es !! i = Some e → line_ok log (N.of_nat i) l e) →
  ∀ l, l ∈ ls → ∃ e i, line_ok log i l e.
Proof.
  intros Hlen Hok l (i & Hi)%list_elem_of_lookup. pose proof (lookup_lt_Some _ _ _ Hi) as Hlt.
  rewrite Hlen in Hlt. apply lookup_lt_is_Some in Hlt as [e He]. eauto.
Qed.

(** Reopening gives the log back. *)
Lemma reopen_ok log w :
  log_inv log → disk_inv log w → w_sched w = [] →
  open_inner (tl_path log) (tl_log_id log) (tl_signer log) (tl_at_rest log) w = (Ok log, w).
Proof.
  intros [Hl Hn] Hd Hc. destruct Hd as [[He Hp]|(ls & Hf & Hlen & Hok)].
  - unfold open_inner, path_exists, mbind, eff_mbind, eff_map_err. rewrite stat_calm by done. rewrite Hp.
    rewrite create_dir_all_calm by done. simpl.
    unfold mret, eff_mret. rewrite <-(rebuild_log log) by done. by rewrite He.
  - rewrite (open_inner_text _ _ _ _ w ls log); [|done|done|by eapply lines_of_entries].
    set (log0 := empty_log _ _ _ _).
    change 0 with (tl_len log0). change ZERO_HASH with (last_hash log0).
    rewrite (load_lines_ok (tl_entries log)); [|done|apply Hl|done|done].
    unfold log0. by rewrite rebuild_log.
Qed.

Lemma linked_hashes lo prev es e : linked lo prev es → e ∈ es → length (le_entry_hash e) = 32%nat.
Proof.
  revert lo prev. induction es as [|x es IH]; intros lo prev; simpl; [by intros _ ?%not_elem_of_nil|].
  intros [(_ & _ & _ & _ & He) Hl] [->|Hin]%elem_of_cons; [rewrite He; apply hash32_sha256|eauto].
Qed.

Lemma next_entry_wf log event ts :
  log_linked log → tl_len log ≤ u64_max → ts ≤ u64_max → entry_wf (next_entry log event ts).
Proof.
  intros [Hl _] Hlen Hts. unfold entry_wf. simpl. split_and!; [done|done| |apply hash32_sha256].
  unfold last_hash. destruct (list.last (tl_entries log)) as [e|] eqn:E; [|done]. simpl.
  by eapply linked_hashes, last_Some_elem_of.
Qed.

Lemma line_ok_push log e i l x : line_ok (push_entry log e) i l x ↔ line_ok log i l x.
Proof. done. Qed.

Lemma open_append_files p w w' :
  open_append p w = (Ok (), w') →
  w_files w' !! p = Some (default [] (w_files w !! p)).
Proof.
  unfold open_append. intros E. apply io_files in E as [[_ E]|[? _]]; [|done]. simpl in E. rewrite E.
  destruct (w_files w !! p) eqn:Ep; simpl; [done|]. by rewrite lookup_insert_eq.
Qed.

Lemma append_file_files p b w w' old :
  w_files w !! p = Some old → append_file p b w = (Ok (), w') → w_files w' !! p = Some (old ++ b).
Proof.
  intros Hp. unfold append_file. rewrite Hp. pose proof (next_files w) as Hn.
  destruct (next w) as [o w1]. simpl in Hn. destruct o; intros [= <-]. simpl.
  by rewrite lookup_insert_eq.
Qed.

Lemma disk_inv_text log w :
  disk_inv log w → ∃ ls, default [] (w_files w !! tl_path log) = file_text ls ∧
    length ls = length (tl_entries log) ∧
    ∀ i l e, ls !! i = Some l → tl_entries log !! i = Some e → line_ok log (N.of_nat i) l e.
Proof.
  intros [[He Hp]|(ls & Hf & Hlen & Hok)].
  - exists []. rewrite He. split_and!; [|done|done]. apply orb_false_iff in Hp as [Hp _].
    apply bool_decide_eq_false, eq_None_not_Some in Hp. by rewrite Hp.
  - exists ls. by rewrite Hf.
Qed.

(** Everything a successful [append] does. *)
Lemma append_spec log event ts w e log' w' :
  log_inv log → disk_inv log w → tl_len log ≤ u64_max → ts ≤ u64_max →
  append log event ts w = (Ok (e, log'), w') →
  e = next_entry log event ts ∧ log' = push_entry log e ∧ log_inv log' ∧ disk_inv log' w'.
Proof.
  intros I D Hlen Hts. unfold append, mbind, eff_mbind, eff_map_err.
  set (x := next_entry log event ts).
  destruct (with_gen _ w) as [[line|] w1] eqn:E1; [|done].
  apply with_gen_files in E1 as [F1 [g Hg]].
  apply encode_record_ok in Hg; [|by apply next_entry_wf; [apply I|..]].
  destruct (open_append _ w1) as [[[]|] w2] eqn:E2; simpl; [|done].
  apply open_append_files in E2.
  destruct (append_file _ _ w2) as [[[]|] w3] eqn:E3; simpl; [|done].
  eapply append_file_files in E3; [|exact E2].
  destruct (sync_all _ w3) as [[[]|] w4] eqn:E4; simpl; [|done].
  unfold sync_all in E4. apply io_files in E4 as [[_ E4]|[? _]]; [|done]. simpl in E4.
  intros [= <- <- <-]. split; [done|]. split; [done|]. split; [by apply append_entry_inv|].
  right. destruct (disk_inv_text log w D) as (ls & Ht & Hl & Hok). rewrite F1, Ht in E3.
  exists (ls ++ [line]). cbn [tl_path tl_entries push_entry]. rewrite E4, E3, file_text_snoc. split; [done|].
  rewrite !length_app, Hl. split; [done|]. intros i l y.
  intros [Hi|[Hi Hl1]]%lookup_app_Some [Hj|[Hj Hy]]%lookup_app_Some.
  - apply line_ok_push. eauto.
  - apply lookup_lt_Some in Hi. lia.
  - apply lookup_lt_Some in Hj. lia.
  - apply list_lookup_singleton_Some in Hl1 as [Hi0 <-], Hy as [Hj0 <-]. apply line_ok_push.
    replace (N.of_nat i) with (le_seq x) by (simpl; unfold tl_len; lia). done.
Qed.

(** [for (ev, ts) in evs { log.append(ev)?; }]. *)
Fixpoint append_all (log : TransparencyLog) (evs : list (AuditEvent * N))
    : eff World AuditError TransparencyLog :=
  match evs with
  | [] => mret log
  | (ev, ts) :: evs => '(_, log) ← append log ev ts; append_all log evs
  end.

Lemma append_all_spec evs log w log' w' :
  log_inv log → disk_inv log w → tl_len log + lengthN evs ≤ u64_max →
  Forall (λ p, p.2 ≤ u64_max) evs →
  append_all log evs w = (Ok log', w') →
  log_inv log' ∧ disk_inv log' w' ∧
  (λ e, (le_event e, le_timestamp e)) <$> tl_entries log' =
    ((λ e, (le_event e, le_timestamp e)) <$> tl_entries log) ++ evs ∧
  tl_entries log = take (length (tl_entries log)) (tl_entries log') ∧
  (tl_path log', tl_log_id log', tl_signer log', tl_at_rest log') =
  (tl_path log, tl_log_id log, tl_signer log, tl_at_rest log).
Proof.
  revert log w. induction evs as [|[ev ts] evs IH]; intros log w I D Hlen HF; simpl.
  { intros [= <- <-]. rewrite app_nil_r. split_and!; try done. by rewrite take_ge. }
  apply Forall_cons in HF as [Hts HF]. simpl in Hts, Hlen.
  unfold mbind, eff_mbind at 1.
  destruct (append log ev ts w) as [[[e log1]|] w1] eqn:E1; [|done]. intros E2.
  assert (tl_len log ≤ u64_max) by lia.
  destruct (append_spec _ _ _ _ _ _ _ I D ltac:(lia) Hts E1) as (He & Hlog1 & I1 & D1).
  assert (tl_len log1 = tl_len log + 1) as Hl1.
  { rewrite Hlog1. unfold tl_len. simpl. len_lia. }
  destruct (IH log1 w1 I1 D1 ltac:(lia) HF E2) as (I2 & D2 & Hev & Hpre & Hfields).
  split; [done|]. split; [done|]. rewrite Hlog1 in Hev, Hpre, Hfields. simpl in *.
  split; [|split; [|done]].
  - rewrite Hev, fmap_app, <-app_assoc. simpl. by rewrite He.
  - apply (f_equal (take (length (tl_entries log)))) in Hpre.
    rewrite take_app_length, take_take in Hpre. rewrite Hpre at 1. f_equal.
    rewrite length_app. lia.
Qed.

(** ** Claims *)

(** C16. Appends survive a restart: start from a path without a file, append
    any events, in plain or encrypted mode, while no file operation fails; then
    opening the log again re-verifies the chain and returns exactly the log in
    memory, whose entries are the appended events in order. *)
Theorem append_reload (p : path) (log_id : string) (signer : Sig.SigningKey)
    (at_rest : option Aead.SymKey) (evs : list (AuditEvent * N)) (w w1 w2 : World)
    (log log' : TransparencyLog) :
  path_present w p = false → lengthN evs ≤ u64_max → Forall (λ q, q.2 ≤ u64_max) evs →
  open_inner p log_id signer at_rest w = (Ok log, w1) →
  append_all log evs w1 = (Ok log', w2) → w_sched w2 = [] →
  open_inner p log_id signer at_rest w2 = (Ok log', w2) ∧
  (λ e, (le_event e, le_timestamp e)) <$> tl_entries log' = evs.
Proof.
  intros Hp Hlen HF Ho Ha Hc. unfold open_inner, mbind, eff_mbind, eff_map_err in Ho.
  destruct (path_exists p w) as [b wp] eqn:Ep. apply stat_files in Ep as [Ep (present & -> & Hpr)].
  rewrite (path_present_same w wp) in Hpr by done. destruct present; [by rewrite Hpr in Hp|].
  destruct (create_dir_all _ wp) as [[[]|] w0] eqn:E0; [|done]. apply create_dir_all_files in E0. rewrite Ep in E0.
  simpl in Ho. injection Ho as <- <-. set (log0 := empty_log p log_id signer at_rest) in *.
  assert (log_inv log0) as I0 by (repeat split; done).
  assert (disk_inv log0 w0) as D0.
  { left. split; [done|]. by rewrite (path_present_same w). }
  destruct (append_all_spec evs log0 w0 log' w2 I0 D0 Hlen HF Ha) as (I & D & Hev & _ & Hf).
  split; [|done]. pose proof (reopen_ok log' w2 I D Hc) as Hr. injection Hf as E1 E2 E3 E4.
  by rewrite E1, E2, E3, E4 in Hr.
Qed.

(** C17. Tamper evidence: [open] re-verifies what it reads, so if two log
    files, whatever their bytes and their history, both open and give the same
    tree size and the same Merkle root (say, that of a signed checkpoint), then
    their entries are equal in every field, unless SHA-256 collides on the inputs
    the two logs hash. *)
Theorem root_determines_history (p p' : path) (log_id log_id' : string)
    (signer signer' : Sig.SigningKey) (at_rest at_rest' : option Aead.SymKey)
    (w w' w1 w1' : World) (log log' : TransparencyLog) :
  open_inner p log_id signer at_rest w = (Ok log, w1) →
  open_inner p' log_id' signer' at_rest' w' = (Ok log', w1') →
  tl_len log ≤ 2 ^ 63 →
  coll_free digest_sha256 (log_inputs log ++ log_inputs log') →
  tl_len log = tl_len log' → tl_root log = tl_root log' →
  tl_entries log = tl_entries log'.
Proof.
  intros H%open_inner_linked H'%open_inner_linked Hf Hcf Hlen Hroot. unfold tl_len in *.
  pose proof (log_leaves_length _ H) as L. pose proof (log_leaves_length _ H') as L'.
  apply log_determined; try done; [unfold fits; by rewrite L|lia].
Qed.

Lemma signed_bytes_inj id n rt ts id' n' rt' ts' :
  x00 ∉ as_bytes id → x00 ∉ as_bytes id' → n ≤ u64_max → n' ≤ u64_max →
  ts ≤ u64_max → ts' ≤ u64_max → length rt = length rt' →
  signed_bytes id n rt ts = signed_bytes id' n' rt' ts' → id = id' ∧ n = n' ∧ rt = rt' ∧ ts = ts'.
Proof.
  unfold signed_bytes. intros Hi Hi' Hn Hn' Ht Ht' Hr E. apply app_inv_head in E. cbn [app] in E.
  apply app_sep_inj in E as [E1%as_bytes_inj E]; [|done..].
  apply app_inj_len in E as [E2 E]; [|len_lia].
  apply app_inj_len in E as [E3 E4]; [|done].
  apply to_le_bytes_inj in E2; [|unfold u64_max in *; simpl; lia..].
  apply to_le_bytes_inj in E4; [|unfold u64_max in *; simpl; lia..]. done.
Qed.

(** A checkpoint the log signs verifies under the log's key and commits
    to its size and root; the signed bytes determine every field, so the
    signature of one checkpoint is not a signature of another. *)
Lemma checkpoint_binds (log : TransparencyLog) (ts : N) (cp : Checkpoint) :
  Sig.sk_wf (tl_signer log) → log_linked log → fits (tl_leaves log) → ts ≤ u64_max →
  x00 ∉ as_bytes (tl_log_id log) → checkpoint log ts = Ok cp →
  checkpoint_verify cp (log_verifying_key log) = Ok () ∧
  cp_tree_size cp = tl_len log ∧ cp_root_hash cp = root (tl_leaves log) ∧
  ∀ id n rt ts', x00 ∉ as_bytes id → n ≤ u64_max → ts' ≤ u64_max → hash32 rt →
    signed_bytes id n rt ts' =
      signed_bytes (cp_log_id cp) (cp_tree_size cp) (cp_root_hash cp) (cp_timestamp cp) →
    id = cp_log_id cp ∧ n = cp_tree_size cp ∧ rt = cp_root_hash cp ∧ ts' = cp_timestamp cp.
Proof.
  intros Hsk Hl Hf Hts Hid. unfold checkpoint, mbind, result_mbind.
  destruct (Sig.sign _ _) as [sig|] eqn:Es; [|done]. simpl. intros [= <-]. simpl.
  split; [|split; [done|split; [done|]]].
  - unfold checkpoint_verify. simpl. rewrite hex_decode_encode. simpl.
    unfold log_verifying_key. by rewrite (Sig.sign_verify _ _ _ Hsk Es).
  - intros id n rt ts' H1 H2 H3 H4. pose proof (log_leaves_length _ Hl) as Hlen.
    assert (hash32 (tl_root log)) as Hr by (by apply root_hash32, log_leaves_hash32).
    apply signed_bytes_inj; try done.
    + unfold tl_len, fits, u64_max in *. lia.
    + unfold hash32 in *. congruence.
Qed.

(** The log's own proofs verify, across appends: after appending to a
    non-empty log, the consistency proof from the old size is accepted between
    the old and the new root, and every entry has an inclusion proof that is
    accepted for its chain hash against the new root. *)
Lemma log_proofs_verify (log log' : TransparencyLog) (evs : list (AuditEvent * N)) (w w' : World) :
  log_inv log → disk_inv log w → 0 < tl_len log → tl_len log + lengthN evs ≤ 2 ^ 63 →
  Forall (λ q, q.2 ≤ u64_max) evs → append_all log evs w = (Ok log', w') →
  (∃ proof, log_consistency_proof log' (tl_len log) = Some proof ∧
     verify_consistency (tl_len log) (tl_len log') proof (tl_root log) (tl_root log') = true) ∧
  ∀ seq e, tl_entries log' !! N.to_nat seq = Some e →
    ∃ proof, log_inclusion_proof log' seq = Some (leaf_hash (le_entry_hash e), proof) ∧
      verify_inclusion (leaf_hash (le_entry_hash e)) seq (tl_len log') proof (tl_root log') = true.
Proof.
  intros I D Hpos Hlen HF Ha.
  destruct (append_all_spec evs log w log' w' I D) as (I' & _ & Hev & Hpre & _);
    [unfold u64_max; lia|done..|].
  assert (tl_len log' = tl_len log + lengthN evs) as Hl'.
  { apply (f_equal length) in Hev. rewrite length_app, !length_fmap in Hev. unfold tl_len. lia. }
  pose proof (log_leaves_length _ (proj1 I)) as L. pose proof (log_leaves_length _ (proj1 I')) as L'.
  assert (fits (tl_leaves log')) as Hf by (unfold fits, tl_len in *; lia).
  assert (tl_leaves log = take (N.to_nat (tl_len log)) (tl_leaves log')) as Ht.
  { destruct I as [[_ ->] _], I' as [[_ ->] _]. unfold tl_len. rewrite Nat2N.id.
    rewrite <-fmap_take. by rewrite <-Hpre. }
  unfold tl_len, tl_root, log_consistency_proof, log_inclusion_proof in *. rewrite <-L' in *. split.
  - destruct (N.eqb_spec (lengthN (tl_entries log)) 0); [lia|].
    destruct (N.ltb_spec (lengthN (tl_leaves log')) (lengthN (tl_entries log))); [lia|]. simpl.
    rewrite Ht. apply consistency_verifies; [done|lia..].
  - intros seq e He. assert (tl_leaves log' !! N.to_nat seq = Some (leaf_hash (le_entry_hash e))) as Hle.
    { destruct I' as [[_ ->] _]. by rewrite list_lookup_fmap, He. }
    destruct (N.leb_spec (lengthN (tl_leaves log')) seq) as [Hge|_].
    { apply lookup_lt_Some in Hle. lia. }
    rewrite Hle. simpl. destruct (inclusion_verifies _ _ _ Hf Hle) as (proof & -> & Hv). simpl. eauto.
Qed.

(** A line for an entry whose number is not the line's position stops [load]. *)
Lemma load_line_gap log i prev line e :
  line_ok log i line e → le_seq e ≠ i → load_line log i prev line = Err (Integrity "sequence gap").
Proof.
  intros (_ & _ & _ & json & Hj & He) Hne. unfold load_line. rewrite Hj. cbn [mbind result_mbind].
  rewrite He. cbn [mbind result_mbind ok_or]. apply N.eqb_neq in Hne. by rewrite Hne.
Qed.

(** Without encryption a line reads back at any position. *)
Lemma line_ok_plain log i j line e : tl_at_rest log = None → line_ok log i line e → line_ok log j line e.
Proof. unfold line_ok, decode_record. by intros ->. Qed.

Lemma encode_plain log seq e w :
  tl_at_rest log = None →
  with_gen (encode_record log seq (entry_to_vec e)) w = (Ok (entry_to_vec e), w).
Proof.
  intros Hp. unfold with_gen, encode_record. rewrite Hp. unfold mret, eff_mret, entry_to_vec.
  rewrite from_utf8_lossy_valid by apply json_text. by destruct w.
Qed.

(** The effect of [append] on the file when the writes succeed, for a given
    outcome of [sync_all]. *)
Lemma append_plain log event ts w o txt :
  tl_at_rest log = None → default [] (w_files w !! tl_path log) = txt →
  w_sched w = [Fine; Fine; o] ∨ (o = Fine ∧ w_sched w = []) →
  ∃ w', append log event ts w =
    (match o with
     | Fine => Ok (next_entry log event ts, push_entry log (next_entry log event ts))
     | _ => Err (AuditIo IoOther)
     end, w') ∧
    w_sched w' = [] ∧
    w_files w' !! tl_path log = Some (txt ++ entry_to_vec (next_entry log event ts) ++ [NL]).
Proof.
  intros Hp Ht Hs. unfold append, mbind, eff_mbind, eff_map_err. rewrite encode_plain by done.
  set (b := _ ++ [NL]).
  unfold open_append, append_file, sync_all, io, next. destruct w as [fs sc g]. simpl in *.
  destruct Hs as [->|[-> ->]]; simpl; destruct (fs !! tl_path log) as [old|] eqn:Ef; simpl in *; subst txt;
    rewrite ?Ef, ?lookup_insert_eq; try destruct o; simpl;
    (eexists; split; [reflexivity|]; simpl; split; [done|]); by rewrite lookup_insert_eq.
Qed.

(** The file is not protected against a failing [sync_all]: the line is
    then already in the file but not in memory, so the next [append], which
    succeeds, writes a second line with the same number, and the log cannot be
    opened any more ([sequence gap]). *)
Lemma failed_sync_breaks_log (log : TransparencyLog) (w : World) (ev ev' : AuditEvent) (ts ts' : N) :
  log_inv log → disk_inv log w → tl_at_rest log = None → tl_len log < u64_max →
  ts ≤ u64_max → ts' ≤ u64_max → w_sched w = [Fine; Fine; Fail] →
  ∃ w1 w2,
    append log ev ts w = (Err (AuditIo IoOther), w1) ∧
    append log ev' ts' w1 =
      (Ok (next_entry log ev' ts', push_entry log (next_entry log ev' ts')), w2) ∧
    open_inner (tl_path log) (tl_log_id log) (tl_signer log) None w2 =
      (Err (Integrity "sequence gap"), w2).
Proof.
  intros I D Hp Hlen Hts Hts' Hs. destruct (disk_inv_text log w D) as (ls & Ht & Hl & Hok).
  destruct (append_plain log ev ts w Fail _ Hp Ht (or_introl Hs)) as (w1 & E1 & Hs1 & F1).
  set (x := next_entry log ev ts) in *. set (y := next_entry log ev' ts').
  assert (default [] (w_files w1 !! tl_path log) = file_text (ls ++ [entry_to_vec x])) as Ht1.
  { rewrite F1. simpl. by rewrite file_text_snoc. }
  destruct (append_plain log ev' ts' w1 Fine _ Hp Ht1 (or_intror (conj eq_refl Hs1)))
    as (w2 & E2 & Hs2 & F2). fold y in E2, F2.
  exists w1, w2. split; [done|]. split; [done|].
  rewrite <-file_text_snoc in F2.
  assert (∀ e, entry_wf e → ∀ i, line_ok log i (entry_to_vec e) e) as Hline.
  { intros e He i. pose proof (encode_plain log i e w Hp) as Hg.
    apply with_gen_files in Hg as [_ [g Hg]]. by eapply encode_record_ok. }
  assert (entry_wf x) as Wx by (apply next_entry_wf; [apply I|lia|done]).
  assert (entry_wf y) as Wy by (apply next_entry_wf; [apply I|lia|done]).
  assert (log_inv (push_entry log x)) as Ix by (apply append_entry_inv; [done|lia|done]).
  assert (∀ i l e, (ls ++ [entry_to_vec x]) !! i = Some l → (tl_entries log ++ [x]) !! i = Some e →
    line_ok log (N.of_nat i) l e) as Hok1.
  { intros i l e [Hi|[Hi Hl1]]%lookup_app_Some [Hj|[Hj He]]%lookup_app_Some.
    - eauto.
    - apply lookup_lt_Some in Hi. lia.
    - apply lookup_lt_Some in Hj. lia.
    - apply list_lookup_singleton_Some in Hl1 as [_ <-], He as [_ <-]. by apply Hline. }
  rewrite (open_inner_text _ _ _ _ w2 ((ls ++ [entry_to_vec x]) ++ [entry_to_vec y]) log);
    [|done|exact F2|].
  2:{ intros l [Hin|Hin]%elem_of_app.
      - eapply (lines_of_entries log _ (tl_entries log ++ [x])); [|done|done].
        by rewrite !length_app, Hl.
      - apply list_elem_of_singleton in Hin as ->. exists y, 0. by apply Hline. }
  set (log0 := empty_log _ _ _ _). f_equal.
  change 0 with (tl_len log0). change ZERO_HASH with (last_hash log0).
  rewrite (load_lines_app (tl_entries log ++ [x]));
    [|by rewrite !length_app, Hl|apply Ix|apply Ix|].
  2:{ intros j l e Hj He. apply (line_ok_plain _ (N.of_nat j)); [done|].
      specialize (Hok1 j l e Hj He). unfold line_ok, decode_record in *. by rewrite Hp in Hok1. }
  cbv zeta. set (log1 := foldl _ _ _). cbn [load_lines].
  rewrite bool_decide_eq_false_2 by apply (Hline y Wy 0).
  unfold mbind, result_mbind. rewrite (load_line_gap _ _ _ _ y); [done| |].
  - destruct (Hline y Wy (tl_len log1)) as (H1 & H2 & H3 & json & Hj & He).
    split_and!; try done. exists json. split; [|done].
    unfold decode_record in *. rewrite Hp in Hj.
    assert (tl_at_rest log1 = None) as ->; [|done].
    unfold log1. clear. induction (tl_entries log ++ [x]) as [|z l IH] using rev_ind; [done|].
    rewrite foldl_app. done.
  - unfold log1, tl_len. rewrite push_all_entries. simpl. rewrite length_app. simpl.
    unfold tl_len. lia.
Qed.
End audit.

(** ** Runs at the executable instances *)

Global Instance AuditEvent_eq_dec : EqDecision AuditEvent.
Proof. solve_decision. Defined.
Global Instance RawEntry_eq_dec : EqDecision RawEntry.
Proof. solve_decision. Defined.

Definition event_code (e : AuditEvent) : list string :=
  match e with
  | RepoCreated a b => ["RepoCreated"; a; b]
  | RefUpdated a b c d e => ["RefUpdated"; a; b; c; d; e]
  | KeyReleased a b => ["KeyReleased"; a; b]
  | KeyRotated a => ["KeyRotated"; a]
  | AccessDenied a b c => ["AccessDenied"; a; b; c]
  | Admin a b => ["Admin"; a; b]
  end.

Definition event_uncode (l : list string) : option AuditEvent :=
  match l with
  | [a; b; c; d; e; f] => Some (RefUpdated b c d e f)
  | [t; a; b; c] => Some (AccessDenied a b c)
  | [t; a] => Some (KeyRotated a)
  | [t; a; b] =>
      if bool_decide (t = "RepoCreated") then Some (RepoCreated a b)
      else if bool_decide (t = "Admin") then Some (Admin a b) else Some (KeyReleased a b)
  | _ => None
  end.

Global Program Instance AuditEvent_countable : Countable AuditEvent :=
  inj_countable event_code event_uncode _.
Next Obligation. by intros []. Qed.

Definition raw_code (r : RawEntry) : list positive :=
  [countable.encode (raw_seq r); countable.encode (raw_timestamp r); countable.encode (raw_prev_hash r);
   countable.encode (raw_event r); countable.encode (raw_entry_hash r)].

Definition raw_uncode (l : list positive) : option RawEntry :=
  match l with
  | [a; b; c; d; e] =>
      a ← countable.decode a; b ← countable.decode b; c ← countable.decode c;
      d ← countable.decode d; e ← countable.decode e; Some (mkRawEntry a b c d e)
  | _ => None
  end.

Global Program Instance RawEntry_countable : Countable RawEntry := inj_countable raw_code raw_uncode _.
Next Obligation.
  intros [a b c d e]. unfold raw_code, raw_uncode.
  cbn [raw_seq raw_timestamp raw_prev_hash raw_event raw_entry_hash].
  repeat (rewrite countable.decode_encode; cbn [mbind option_bind]). done.
Qed.

Section witnesses.
#[local] Existing Instance toy_rng.
#[local] Existing Instance toy_digests.
#[local] Existing Instance toy_aead.
#[local] Existing Instance toy_hex.
#[local] Existing Instance toy_ed25519.
#[local] Existing Instance toy_mldsa.
#[local] Existing Instance toy_json_serde.
#[local] Existing Instance toy_json_object.

Definition toy_path : path := ["data"; "audit.log"].
Definition toy_log : TransparencyLog := empty_log toy_path "log" Sig.toy_sk None.
Definition toy_elog : TransparencyLog := empty_log toy_path "log" Sig.toy_sk (Some (to_le_bytes 32 9)).
Definition toy_evs : list (AuditEvent * N) :=
  [(RepoCreated "r" "alice", 100); (Admin "compact" "root", 101)].
Definition toy_fs : World := {| w_files := ∅; w_sched := []; w_gen := 3 |}.

Definition log_after_with (evs : list (AuditEvent * N)) (log : TransparencyLog) (w : World)
    : TransparencyLog * World :=
  let '(r, w') := append_all log evs w in
  (match r with Ok l => l | Err _ => log end, w').

Definition log_after : TransparencyLog → World → TransparencyLog * World := log_after_with toy_evs.

Lemma append_reload_witness :
  open_inner toy_path "log" Sig.toy_sk (Some (to_le_bytes 32 9)) (log_after toy_elog toy_fs).2 =
    (Ok (log_after toy_elog toy_fs).1, (log_after toy_elog toy_fs).2) ∧
  (λ e, (le_event e, le_timestamp e)) <$> tl_entries (log_after toy_elog toy_fs).1 = toy_evs.
Proof.
  apply (append_reload toy_path "log" Sig.toy_sk (Some (to_le_bytes 32 9)) toy_evs toy_fs toy_fs _ toy_elog).
  - vm_refl.
  - vm_decide.
  - vm_decide.
  - vm_refl.
  - vm_refl.
  - vm_refl.
Defined.

(** The same events logged in the clear and encrypted. *)
Lemma root_determines_history_witness :
  tl_root (log_after toy_log toy_fs).1 = tl_root (log_after toy_elog toy_fs).1 ∧
  tl_entries (log_after toy_log toy_fs).1 = tl_entries (log_after toy_elog toy_fs).1.
Proof.
  split; [vm_refl|].
  apply (root_determines_history toy_path toy_path "log" "log" Sig.toy_sk Sig.toy_sk
    None (Some (to_le_bytes 32 9)) (log_after toy_log toy_fs).2 (log_after toy_elog toy_fs).2
    (log_after toy_log toy_fs).2 (log_after toy_elog toy_fs).2);
    [vm_refl|vm_refl|vm_decide|apply coll_freeb_spec; vm_refl|vm_refl|vm_refl].
Defined.

Lemma toy_after_ok : append_all toy_log toy_evs toy_fs =
  (Ok (log_after toy_log toy_fs).1, (log_after toy_log toy_fs).2).
Proof. vm_refl. Qed.

Lemma toy_after_inv :
  log_inv (log_after toy_log toy_fs).1 ∧ disk_inv (log_after toy_log toy_fs).1 (log_after toy_log toy_fs).2.
Proof.
  edestruct (append_all_spec toy_evs toy_log toy_fs) as (H1 & H2 & _);
    [..|exact toy_after_ok|exact (conj H1 H2)].
  - repeat split; done.
  - left. split; [done|vm_refl].
  - vm_decide.
  - vm_decide.
Qed.

Definition toy_cp : Checkpoint :=
  {| cp_log_id := "log"; cp_tree_size := 2; cp_root_hash := tl_root (log_after toy_log toy_fs).1;
     cp_timestamp := 200;
     cp_signature_hex :=
       match checkpoint (log_after toy_log toy_fs).1 200 with
       | Ok cp => cp_signature_hex cp | Err _ => "" end |}.

Lemma toy_sk_wf : Sig.sk_wf Sig.toy_sk.
Proof. split; [vm_refl|]. exists (to_le_bytes 32 152243). repeat split; vm_refl. Qed.

Lemma checkpoint_binds_witness :
  checkpoint_verify toy_cp (log_verifying_key (log_after toy_log toy_fs).1) = Ok () ∧
  cp_tree_size toy_cp = 2.
Proof.
  destruct (checkpoint_binds (log_after toy_log toy_fs).1 200 toy_cp) as (H & Hn & _); [..|exact (conj H Hn)].
  - exact toy_sk_wf.
  - apply toy_after_inv.
  - unfold fits. vm_decide.
  - vm_decide.
  - vm_decide.
  - vm_refl.
Defined.

Definition toy_more : list (AuditEvent * N) := [(KeyRotated "kek", 300); (Admin "gc" "root", 301)].

Lemma log_proofs_verify_witness :
  let log := (log_after toy_log toy_fs).1 in
  let log' := (log_after_with toy_more log (log_after toy_log toy_fs).2).1 in
  tl_len log' = 4 ∧
  ∃ proof, log_consistency_proof log' (tl_len log) = Some proof ∧
    verify_consistency (tl_len log) (tl_len log') proof (tl_root log) (tl_root log') = true.
Proof.
  intros log log'. split; [vm_refl|].
  refine (proj1 (log_proofs_verify log log' toy_more (log_after toy_log toy_fs).2
    (log_after_with toy_more log (log_after toy_log toy_fs).2).2 _ _ _ _ _ _));
    [apply toy_after_inv|apply toy_after_inv|vm_decide|vm_decide|vm_decide|vm_refl].
Defined.

Lemma failed_sync_breaks_log_witness :
  let log := (log_after toy_log toy_fs).1 in
  let w := {| w_files := w_files (log_after toy_log toy_fs).2; w_sched := [Fine; Fine; Fail]; w_gen := 0 |} in
  ∃ w1 w2,
    append log (KeyRotated "kek") 300 w = (Err (AuditIo IoOther), w1) ∧
    append log (KeyRotated "kek") 301 w1 =
      (Ok (next_entry log (KeyRotated "kek") 301, push_entry log (next_entry log (KeyRotated "kek") 301)), w2) ∧
    open_inner (tl_path log) (tl_log_id log) (tl_signer log) None w2 =
      (Err (Integrity "sequence gap"), w2).
Proof.
  intros log w. apply (failed_sync_breaks_log log w).
  - apply toy_after_inv.
  - apply (proj2 toy_after_inv).
  - vm_refl.
  - vm_decide.
  - vm_decide.
  - vm_decide.
  - vm_refl.
Defined.

(** A file whose first line is blank and whose second line holds an entry
    numbered 1: [load] compares the number with the line position, accepts, and
    the log has one entry, which is not entry 0. *)
Definition toy_gap_entry : LogEntry :=
  {| le_seq := 1; le_timestamp := 7; le_prev_hash := ZERO_HASH; le_event := KeyRotated "kek";
     le_entry_hash := compute_entry_hash 1 7 ZERO_HASH (to_vec (KeyRotated "kek")) |}.

Example blank_line_hides_gap :
  let w := {| w_files := {[ toy_path := [NL] ++ entry_to_vec toy_gap_entry ++ [NL] ]};
              w_sched := []; w_gen := 0 |} in
  match (open_inner toy_path "log" Sig.toy_sk None w).1 with
  | Ok log => tl_entries log = [toy_gap_entry] ∧ le_seq (next_entry log (KeyRotated "x") 8) = 1
  | Err _ => False
  end.
Proof. vm_compute. done. Qed.
End witnesses.
