(* ===== verification/Attest.v ===== *)
(** [crates/secgit-attest/src]: remote attestation.

    [lib.rs] (evidence, claims, policy, the [Attester] and [Verifier] traits),
    [mock.rs], [tdx.rs] and [snp.rs].  The VCEK chain of [vcek.rs] is in [Vcek]. *)

From S2P Require Import Prelude Backend Toy Envelope Primitives.

Inductive AttestError :=
| Unavailable (why : string)
| AttestMalformed (why : string)
| Rejected (why : string)
| ReportDataMismatch
| MeasurementNotAllowed
| VmplNotAllowed
| Unsupported (why : string)
| AttestIo (why : string).

Inductive TeeBackend := Mock | SevSnp | Tdx.
Global Instance TeeBackend_eq_dec : EqDecision TeeBackend.
Proof. solve_decision. Defined.

(** [ReportData([u8; 64])]. *)
Abbreviation ReportData := bytes.

Record Evidence := mkEvidence {
  ev_backend : TeeBackend;
  ev_report : bytes;
  ev_runtime_pubkey : bytes;
}.

(** The JSON values [extra] carries. *)
Inductive Extra := XNum (n : N) | XStr (s : string) | XBool (b : bool).

Record Claims := mkClaims {
  cl_backend : TeeBackend;
  cl_measurement : bytes;
  cl_report_data : ReportData;
  cl_vendor_verified : bool;
  cl_extra : list (string * Extra);
}.

Record Policy := mkPolicy {
  allowed_measurements : list bytes;
  require_vendor_root : bool;
  expected_vmpl : option N;
}.

Definition dev_permissive : Policy :=
  {| allowed_measurements := []; require_vendor_root := false; expected_vmpl := None |}.

Definition measurement_allowed (p : Policy) (m : bytes) : bool :=
  bool_decide (allowed_measurements p = []) || contains m (allowed_measurements p).

Definition vmpl_allowed (p : Policy) (vmpl : N) : bool :=
  match expected_vmpl p with None => true | Some e => e =? vmpl end.

(** The traits, as records of their methods. *)
Record Attester := mkAttester {
  at_backend : TeeBackend;
  get_evidence : ReportData → result AttestError Evidence;
}.
Record Verifier := mkVerifier {
  vf_backend : TeeBackend;
  vf_verify : Evidence → ReportData → Policy → result AttestError Claims;
}.

(** ** [tdx.rs] *)
Definition tdx_attester : Attester := {|
  at_backend := Tdx;
  get_evidence _ :=
    Err (Unsupported "TDX quote retrieval not implemented yet (configfs-tsm tdx_guest)") |}.
Definition tdx_verifier : Verifier := {|
  vf_backend := Tdx;
  vf_verify _ _ _ := Err (Unsupported "TDX quote verification (DCAP cert chain) not implemented yet") |}.

Section attest.
Context `{DIG : Digests} `{MAC : Hmacs} `{HX : Hex}.

Definition bind (nonce tee_pubkey : bytes) : ReportData := digest_sha512 (nonce ++ tee_pubkey).

(** ** [mock.rs] *)

Definition DEV_HMAC_KEY : bytes := as_bytes "secgit-mock-tee-development-key-DO-NOT-USE-IN-PROD".
Definition MOCK_MEASUREMENT : bytes := repeat x5e 32.

Record MockReport := mkMockReport {
  mr_measurement : string;
  mr_report_data : string;
  mr_mac : string;
}.

Context `{SMR : Serde MockReport}.

Definition mac_over (measurement report_data : bytes) : bytes :=
  hmac_sign_sha256 DEV_HMAC_KEY (measurement ++ report_data).

Definition mock_get_evidence (measurement : bytes) (report_data : ReportData) : result AttestError Evidence :=
  let report := {| mr_measurement := hex_encode measurement;
                   mr_report_data := hex_encode report_data;
                   mr_mac := hex_encode (mac_over measurement report_data) |} in
  Ok {| ev_backend := Mock; ev_report := to_vec report; ev_runtime_pubkey := [] |}.

Definition mock_attester (measurement : bytes) : Attester :=
  {| at_backend := Mock; get_evidence := mock_get_evidence measurement |}.

Definition mock_verify (evidence : Evidence) (expected : ReportData) (policy : Policy)
    : result AttestError Claims :=
  if negb (bool_decide (ev_backend evidence = Mock)) then Err (AttestMalformed "not mock evidence")
  else
    report ← ok_or (AttestMalformed "mock decode") (from_slice (ev_report evidence) : option MockReport);
    measurement ← ok_or (AttestMalformed "mock measurement") (hex_decode (mr_measurement report));
    rd ← ok_or (AttestMalformed "mock report_data") (hex_decode (mr_report_data report));
    if negb (Nat.eqb (length rd) 64) then Err (AttestMalformed "mock report_data len")
    else
      mac ← ok_or (AttestMalformed "mock mac") (hex_decode (mr_mac report));
      if negb (ct_eq mac (mac_over measurement rd)) then Err (Rejected "mock mac mismatch")
      else if negb (bool_decide (rd = expected)) then Err ReportDataMismatch
      else if require_vendor_root policy then Err (Rejected "mock cannot satisfy vendor-root policy")
      else if negb (measurement_allowed policy measurement) then Err MeasurementNotAllowed
      else Ok {| cl_backend := Mock; cl_measurement := measurement; cl_report_data := rd;
                 cl_vendor_verified := false; cl_extra := [("mock", XBool true)] |}.

Definition mock_verifier : Verifier := {| vf_backend := Mock; vf_verify := mock_verify |}.

(** ** [snp.rs] *)

Definition OFF_VERSION : nat := 0x000.
Definition OFF_VMPL : nat := 0x030.
Definition OFF_REPORT_DATA : nat := 0x050.
Definition OFF_MEASUREMENT : nat := 0x090.
Definition OFF_HOST_DATA : nat := 0x0C0.
Definition OFF_REPORTED_TCB : nat := 0x180.
Definition OFF_CHIP_ID : nat := 0x1A0.
Definition OFF_SIGNATURE : nat := 0x2A0.
Definition SIG_FIELD_LEN : nat := 512.
Definition REPORT_MIN_LEN : nat := OFF_SIGNATURE + SIG_FIELD_LEN.
Definition SNP_SIG_COMPONENT : nat := 72.
Definition P384_COMPONENT : nat := 48.

Record SnpReport := mkSnpReport {
  sr_version : N;
  sr_vmpl : N;
  sr_report_data : bytes;
  sr_measurement : bytes;
  sr_host_data : bytes;
  sr_reported_tcb : N;
  sr_chip_id : bytes;
  sr_signed_data : bytes;
  sr_signature_be : bytes;
}.

(** [&bytes[off..off + n]], in range after the length check. *)
Definition slice (off n : nat) (b : bytes) : bytes := take n (drop off b).

(** [out[i] = field[P384_COMPONENT - 1 - i]]. *)
Definition le_field_to_be (field : bytes) : bytes :=
  (λ i, default x00 (field !! (P384_COMPONENT - 1 - i)%nat)) <$> seq 0 P384_COMPONENT.

Definition parse_report (b : bytes) : result AttestError SnpReport :=
  if Nat.ltb (length b) REPORT_MIN_LEN then Err (AttestMalformed "snp report too short")
  else
    let rd32 off := from_le_bytes (slice off 4 b) in
    let rd64 off := from_le_bytes (slice off 8 b) in
    let sig := slice OFF_SIGNATURE SIG_FIELD_LEN b in
    let r_be := le_field_to_be (slice 0 SNP_SIG_COMPONENT sig) in
    let s_be := le_field_to_be (slice SNP_SIG_COMPONENT SNP_SIG_COMPONENT sig) in
    Ok {| sr_version := rd32 OFF_VERSION; sr_vmpl := rd32 OFF_VMPL;
          sr_report_data := slice OFF_REPORT_DATA 64 b;
          sr_measurement := slice OFF_MEASUREMENT 48 b;
          sr_host_data := slice OFF_HOST_DATA 32 b;
          sr_reported_tcb := rd64 OFF_REPORTED_TCB;
          sr_chip_id := slice OFF_CHIP_ID 64 b;
          sr_signed_data := slice 0 OFF_SIGNATURE b;
          sr_signature_be := r_be ++ s_be |}.

(** [VcekKey]: the uncompressed SEC1 point. *)
Record VcekKey := mkVcek { sec1_uncompressed : bytes }.

(** [ECDSA_P384_SHA384_FIXED]: key, message, signature. *)
Variable ecdsa_verify : bytes → bytes → bytes → bool.

Definition verify_report_signature (report : SnpReport) (vcek : VcekKey) : bool :=
  ecdsa_verify (sec1_uncompressed vcek) (sr_signed_data report) (sr_signature_be report).

Definition VcekResolver : Type := bytes → N → result AttestError VcekKey.

Record SnpVerifier := mkSnpVerifier {
  sv_vcek : option VcekKey;
  sv_resolver : option VcekResolver;
}.
Definition snp_new : SnpVerifier := {| sv_vcek := None; sv_resolver := None |}.
Definition snp_with_vcek (v : VcekKey) : SnpVerifier := {| sv_vcek := Some v; sv_resolver := None |}.
Definition snp_with_resolver (r : VcekResolver) : SnpVerifier :=
  {| sv_vcek := None; sv_resolver := Some r |}.

(** The key a report is checked with: the one supplied, or the one resolved. *)
Definition snp_vcek (v : SnpVerifier) (report : SnpReport) : result AttestError (option VcekKey) :=
  match sv_vcek v with
  | Some k => Ok (Some k)
  | None =>
      match sv_resolver v with
      | Some r => k ← r (sr_chip_id report) (sr_reported_tcb report); Ok (Some k)
      | None => Ok None
      end
  end.

Definition snp_verify (v : SnpVerifier) (evidence : Evidence) (expected : ReportData) (policy : Policy)
    : result AttestError Claims :=
  if negb (bool_decide (ev_backend evidence = SevSnp)) then Err (AttestMalformed "not snp evidence")
  else
    report ← parse_report (ev_report evidence);
    if negb (bool_decide (sr_report_data report = expected)) then Err ReportDataMismatch
    else
      vcek ← snp_vcek v report;
      let vendor_verified :=
        match vcek with Some k => verify_report_signature report k | None => false end in
      if require_vendor_root policy && negb vendor_verified
      then Err (Rejected "report did not verify against a genuine AMD VCEK")
      else if negb (vmpl_allowed policy (sr_vmpl report)) then Err VmplNotAllowed
      else if negb (measurement_allowed policy (sr_measurement report)) then Err MeasurementNotAllowed
      else Ok {| cl_backend := SevSnp; cl_measurement := sr_measurement report;
                 cl_report_data := sr_report_data report; cl_vendor_verified := vendor_verified;
                 cl_extra := [("snp_version", XNum (sr_version report)); ("vmpl", XNum (sr_vmpl report));
                              ("reported_tcb", XNum (sr_reported_tcb report));
                              ("chip_id", XStr (hex_encode (sr_chip_id report)));
                              ("host_data", XStr (hex_encode (sr_host_data report)))] |}.

Definition snp_verifier (v : SnpVerifier) : Verifier :=
  {| vf_backend := SevSnp; vf_verify := snp_verify v |}.

(** ** Theory *)

Lemma slice_pieces (ps : list bytes) i p off n :
  ps !! i = Some p → off = sum_list (length <$> take i ps) → n = length p →
  slice off n (concat ps) = p.
Proof.
  intros Hp Ho ->. assert (off = length (concat (take i ps))) as ->.
  { rewrite Ho. clear. induction (take i ps) as [|x l IH]; [done|].
    cbn [concat]. by rewrite length_app, <-IH. }
  unfold slice. rewrite <-(take_drop_middle _ _ _ Hp) at 2.
  rewrite concat_app, drop_app_length. simpl. by rewrite take_app_length.
Qed.

Lemma slice_take off n k l : (off + n ≤ k)%nat → slice off n (take k l) = slice off n l.
Proof. intros H. unfold slice. rewrite skipn_firstn_comm, take_take. f_equal. lia. Qed.

Lemma le_field_to_be_spec r pad :
  le_field_to_be (to_le_bytes P384_COMPONENT r ++ pad) = to_be_bytes P384_COMPONENT r.
Proof.
  unfold le_field_to_be, to_be_bytes. set (l := to_le_bytes P384_COMPONENT r).
  assert (length l = P384_COMPONENT) as Hl by apply length_to_le_bytes.
  apply list_eq_same_length with (n := P384_COMPONENT).
  - by rewrite length_reverse.
  - by rewrite length_fmap, length_seq.
  - intros i x y Hi Hx Hy. apply list_lookup_fmap_Some in Hx as (j & Hx & Hj).
    rewrite lookup_seq in Hj. destruct Hj as [-> _]. rewrite Nat.add_0_l in Hx.
    rewrite reverse_lookup in Hy by lia.
    rewrite lookup_app_l in Hx by (unfold P384_COMPONENT in *; lia).
    replace (length l - S i)%nat with (P384_COMPONENT - 1 - i)%nat in Hy by (unfold P384_COMPONENT in *; lia).
    rewrite Hy in Hx. by simpl in Hx.
Qed.

(** The two components of the signature field. *)
Lemma snp_components r s p1 p2 rest :
  length p1 = 24%nat → length p2 = 24%nat →
  let sig := take SIG_FIELD_LEN (concat [to_le_bytes 48 r; p1; to_le_bytes 48 s; p2; rest]) in
  le_field_to_be (slice 0 SNP_SIG_COMPONENT sig) = to_be_bytes 48 r ∧
  le_field_to_be (slice SNP_SIG_COMPONENT SNP_SIG_COMPONENT sig) = to_be_bytes 48 s.
Proof.
  intros L1 L2 sig. unfold sig. rewrite !slice_take by (unfold SNP_SIG_COMPONENT, SIG_FIELD_LEN; lia).
  replace (concat [to_le_bytes 48 r; p1; to_le_bytes 48 s; p2; rest])
    with (concat [to_le_bytes 48 r ++ p1; to_le_bytes 48 s ++ p2; rest])
    by (cbn [concat]; by rewrite !app_nil_r, <-!app_assoc).
  rewrite (slice_pieces _ 0%nat (to_le_bytes 48 r ++ p1));
    [|done|done|by rewrite length_app, length_to_le_bytes, L1].
  rewrite (slice_pieces _ 1%nat (to_le_bytes 48 s ++ p2));
    [|done| |by rewrite length_app, length_to_le_bytes, L2].
  - split; apply le_field_to_be_spec.
  - cbn -[to_le_bytes]. by rewrite length_app, length_to_le_bytes, L1.
Qed.

Lemma from_to_le_small k v : v < 256 ^ N.of_nat k → from_le_bytes (to_le_bytes k v) = v.
Proof. intros H. rewrite from_to_le_bytes. by apply N.mod_small. Qed.

(** The SNP report layout: a report assembled from its fields at the
    offsets of the ABI parses back to these fields, numbers little-endian, and
    the two 72-byte little-endian signature components become the big-endian
    [r || s] the ECDSA verifier expects. *)
Lemma parse_report_layout (version vmpl tcb r s : N)
    (g1 g2 rd meas host g3 g4 chip g5 p1 p2 rest : bytes) :
  version ≤ u32_max → vmpl ≤ u32_max → tcb ≤ u64_max →
  length g1 = 44%nat → length g2 = 28%nat → length rd = 64%nat → length meas = 48%nat →
  length host = 32%nat → length g3 = 160%nat → length g4 = 24%nat → length chip = 64%nat →
  length g5 = 192%nat → length p1 = 24%nat → length p2 = 24%nat → (368 ≤ length rest)%nat →
  let body := [to_le_bytes 4 version; g1; to_le_bytes 4 vmpl; g2; rd; meas; host; g3;
               to_le_bytes 8 tcb; g4; chip; g5] in
  let sig := [to_le_bytes 48 r; p1; to_le_bytes 48 s; p2; rest] in
  parse_report (concat (body ++ sig)) =
  Ok {| sr_version := version; sr_vmpl := vmpl; sr_report_data := rd; sr_measurement := meas;
        sr_host_data := host; sr_reported_tcb := tcb; sr_chip_id := chip;
        sr_signed_data := concat body;
        sr_signature_be := to_be_bytes 48 r ++ to_be_bytes 48 s |}.
Proof.
  intros Hv Hm Ht L1 L2 L3 L4 L5 L6 L7 L8 L9 L10 L11 L12 body sig.
  assert (length (concat body) = OFF_SIGNATURE) as Lb.
  { unfold body. cbn [concat]. by rewrite !length_app, !length_to_le_bytes, L1, L2, L3, L4, L5, L6, L7, L8, L9. }
  assert (length (concat sig) = 144 + length rest)%nat as Ls.
  { unfold sig. cbn [concat]. rewrite !length_app, !length_to_le_bytes, L10, L11. simpl. lia. }
  unfold parse_report. destruct (Nat.ltb_spec (length (concat (body ++ sig))) REPORT_MIN_LEN) as [Hlt|_].
  { rewrite concat_app, length_app, Lb, Ls in Hlt.
    unfold REPORT_MIN_LEN, OFF_SIGNATURE, SIG_FIELD_LEN in Hlt. lia. }
  assert (slice 0 OFF_SIGNATURE (concat (body ++ sig)) = concat body) as E0.
  { unfold slice. rewrite drop_0, concat_app. by apply take_app_length'. }
  assert (slice OFF_SIGNATURE SIG_FIELD_LEN (concat (body ++ sig)) = take SIG_FIELD_LEN (concat sig)) as Es.
  { unfold slice. by rewrite concat_app, <-Lb, drop_app_length. }
  destruct (snp_components r s p1 p2 rest L10 L11) as [Er Ess].
  fold sig in Er, Ess. cbv zeta. rewrite Es, E0, Er, Ess.
  pose proof (slice_pieces (body ++ sig)) as F. clear E0 Es Er Ess Lb Ls.
  rewrite (F 0%nat (to_le_bytes 4 version)) by (rewrite ?length_to_le_bytes; done).
  rewrite (F 2%nat (to_le_bytes 4 vmpl)), (F 4%nat rd), (F 5%nat meas), (F 6%nat host),
    (F 8%nat (to_le_bytes 8 tcb)), (F 10%nat chip)
    by (cbn -[to_le_bytes]; rewrite ?length_to_le_bytes, ?L1, ?L2, ?L3, ?L4, ?L5, ?L6, ?L7, ?L8; done).
  unfold u32_max, u64_max in *. by rewrite !from_to_le_small by (simpl; lia).
Qed.

Lemma measurement_allowed_spec p m :
  measurement_allowed p m = true ↔ allowed_measurements p = [] ∨ m ∈ allowed_measurements p.
Proof. unfold measurement_allowed, contains. by rewrite orb_true_iff, !bool_decide_eq_true. Qed.

Lemma vmpl_allowed_spec p n : vmpl_allowed p n = true ↔ ∀ e, expected_vmpl p = Some e → n = e.
Proof.
  unfold vmpl_allowed. destruct (expected_vmpl p) as [e|].
  - rewrite N.eqb_eq. split; [by intros -> ? [= ->]|]. intros H. symmetry. auto.
  - split; done.
Qed.

Lemma parse_report_inv b rep :
  parse_report b = Ok rep →
  (REPORT_MIN_LEN ≤ length b)%nat ∧
  sr_report_data rep = slice OFF_REPORT_DATA 64 b ∧ sr_measurement rep = slice OFF_MEASUREMENT 48 b ∧
  sr_vmpl rep = from_le_bytes (slice OFF_VMPL 4 b) ∧ sr_signed_data rep = slice 0 OFF_SIGNATURE b ∧
  sr_chip_id rep = slice OFF_CHIP_ID 64 b ∧
  sr_reported_tcb rep = from_le_bytes (slice OFF_REPORTED_TCB 8 b).
Proof.
  unfold parse_report. destruct (Nat.ltb_spec (length b) REPORT_MIN_LEN); [done|].
  intros [= <-]. by split_and!.
Qed.

(** The signature in a report: two numbers of 48 bytes, each at the start of a field of 72
    bytes, lowest byte first; as the verifier takes it, highest byte first. *)
Definition report_signature (b : bytes) : bytes :=
  reverse (slice OFF_SIGNATURE 48 b) ++ reverse (slice (OFF_SIGNATURE + 72) 48 b).

Lemma le_field_reverse (field : bytes) : (P384_COMPONENT ≤ length field)%nat → le_field_to_be field = reverse (take P384_COMPONENT field).
Proof.
  intros Hl. apply list_eq_same_length with (n := P384_COMPONENT).
  - by rewrite length_reverse, length_take, Nat.min_l.
  - unfold le_field_to_be. by rewrite length_fmap, length_seq.
  - intros i x y Hi Hx Hy. unfold le_field_to_be in Hx. rewrite list_lookup_fmap, lookup_seq_lt in Hx by lia.
    cbn [fmap option_fmap option_map] in Hx. rewrite reverse_lookup, length_take, Nat.min_l, lookup_take_lt in Hy
      by (rewrite ?length_take, ?Nat.min_l; lia).
    replace (P384_COMPONENT - 1 - (0 + i))%nat with (P384_COMPONENT - S i)%nat in Hx by lia. rewrite Hy in Hx. by injection Hx as <-.
Qed.

Lemma parse_report_signature b rep : parse_report b = Ok rep → sr_signature_be rep = report_signature b.
Proof.
  unfold parse_report. destruct (Nat.ltb_spec (length b) REPORT_MIN_LEN) as [|Hl]; [done|]. intros [= <-]. cbn [sr_signature_be].
  assert (∀ off, (off + 72 ≤ SIG_FIELD_LEN)%nat → le_field_to_be (slice off 72 (slice OFF_SIGNATURE SIG_FIELD_LEN b)) = reverse (slice (OFF_SIGNATURE + off) 48 b)) as H.
  { intros off Ho. rewrite le_field_reverse.
    - f_equal. unfold slice. rewrite take_take, skipn_firstn_comm, take_take, drop_drop. f_equal.
      change P384_COMPONENT with 48%nat. change SIG_FIELD_LEN with 512%nat in *. lia.
    - unfold slice. rewrite length_take, length_drop, length_take, length_drop. change P384_COMPONENT with 48%nat.
      change SIG_FIELD_LEN with 512%nat in *. change REPORT_MIN_LEN with (OFF_SIGNATURE + 512)%nat in Hl. lia. }
  unfold report_signature. change SIG_FIELD_LEN with 512%nat in H.
  pose proof (f_equal2 app (H 0%nat ltac:(lia)) (H 72%nat ltac:(lia))) as E. rewrite Nat.add_0_r in E. exact E.
Qed.

(** What acceptance of SNP evidence means. *)
Lemma snp_verify_inv (v : SnpVerifier) (ev : Evidence) (expected : ReportData) (policy : Policy) (c : Claims) :
  snp_verify v ev expected policy = Ok c →
  let b := ev_report ev in
  ev_backend ev = SevSnp ∧ (REPORT_MIN_LEN ≤ length b)%nat ∧
  slice OFF_REPORT_DATA 64 b = expected ∧
  (allowed_measurements policy = [] ∨ slice OFF_MEASUREMENT 48 b ∈ allowed_measurements policy) ∧
  (∀ e, expected_vmpl policy = Some e → from_le_bytes (slice OFF_VMPL 4 b) = e) ∧
  (require_vendor_root policy = true →
   cl_vendor_verified c = true ∧
   ∃ k, ecdsa_verify (sec1_uncompressed k) (slice 0 OFF_SIGNATURE b) (report_signature b) = true ∧
     (sv_vcek v = Some k ∨
      sv_vcek v = None ∧ ∃ r, sv_resolver v = Some r ∧
        r (slice OFF_CHIP_ID 64 b) (from_le_bytes (slice OFF_REPORTED_TCB 8 b)) = Ok k)) ∧
  cl_backend c = SevSnp ∧ cl_measurement c = slice OFF_MEASUREMENT 48 b ∧ cl_report_data c = expected.
Proof.
  intros H b. revert H. unfold snp_verify, mbind, result_mbind. fold b.
  case_bool_decide as Hb; [|done]. cbn [negb].
  destruct (parse_report b) as [rep|] eqn:Ep; [|done].
  pose proof (parse_report_signature _ _ Ep) as Hsg. apply parse_report_inv in Ep as (Hl & Hrd & Hme & Hvm & Hsd & Hch & Htcb).
  case_bool_decide as Hd; [|done]. cbn [negb].
  destruct (snp_vcek v rep) as [vk|] eqn:Ek; [|done].
  destruct (require_vendor_root policy && _) eqn:Er; [done|].
  destruct (vmpl_allowed policy (sr_vmpl rep)) eqn:Ev; [|done].
  destruct (measurement_allowed policy (sr_measurement rep)) eqn:Em; [|done].
  intros [= <-]. simpl. rewrite measurement_allowed_spec in Em. rewrite vmpl_allowed_spec in Ev.
  rewrite Hme in Em. rewrite Hvm in Ev. rewrite Hrd in Hd. split_and!; try done; [|congruence].
  intros Hreq. rewrite Hreq in Er. destruct vk as [k|]; [|done]. simpl in Er.
  apply negb_false_iff in Er. split; [done|]. exists k.
  unfold verify_report_signature in Er. rewrite Hsd, Hsg in Er. split; [done|].
  unfold snp_vcek in Ek. destruct (sv_vcek v) as [k'|]; [left; congruence|]. right.
  split; [done|]. destruct (sv_resolver v) as [r|]; [|done]. exists r. split; [done|].
  rewrite Hch, Htcb in Ek. destruct (r _ _); simpl in Ek; congruence.
Qed.

(** The development TEE cannot stand in for a real one: no evidence at
    all passes the mock verifier under a policy that requires a vendor root, and
    under a policy that does not, the mock's own evidence passes exactly when it
    was made for the expected binding and its measurement is allowed. *)
Lemma mock_never_vendor (policy : Policy) :
  (require_vendor_root policy = true → ∀ ev expected, is_ok (mock_verify ev expected policy) = false) ∧
  (require_vendor_root policy = false → ∀ m rd expected ev,
     length rd = 64%nat → mock_get_evidence m rd = Ok ev →
     is_ok (mock_verify ev expected policy) =
     bool_decide (rd = expected) && measurement_allowed policy m).
Proof.
  split.
  - intros Hr ev expected. unfold mock_verify, mbind, result_mbind.
    destruct (negb _); [done|].
    destruct (from_slice _) as [rep|]; [|done]. cbn [ok_or].
    destruct (hex_decode (mr_measurement rep)); [|done]. cbn [ok_or].
    destruct (hex_decode (mr_report_data rep)) as [rd|]; [|done]. cbn [ok_or].
    destruct (negb (Nat.eqb (length rd) 64)); [done|].
    destruct (hex_decode (mr_mac rep)); [|done]. cbn [ok_or].
    destruct (negb (ct_eq _ _)); [done|]. case_bool_decide; [|done]. simpl. by rewrite Hr.
  - intros Hr m rd expected ev Hl [= <-]. unfold mock_verify, mbind, result_mbind. simpl.
    rewrite from_slice_to_vec. simpl. rewrite !hex_decode_encode. cbn [ok_or]. rewrite Hl.
    cbn [Nat.eqb negb]. rewrite ct_eq_refl. cbn [negb]. case_bool_decide as Hd; [|done]. cbn [negb].
    rewrite Hr. by destruct (measurement_allowed policy m).
Qed.
End attest.

Global Instance MockReport_eq_dec : EqDecision MockReport.
Proof. solve_decision. Defined.

Definition mock_report_code (r : MockReport) : list string := [mr_measurement r; mr_report_data r; mr_mac r].
Definition mock_report_uncode (l : list string) : option MockReport :=
  match l with [a; b; c] => Some (mkMockReport a b c) | _ => None end.
Lemma mock_report_uncode_code r : mock_report_uncode (mock_report_code r) = Some r.
Proof. by destruct r. Qed.
Global Instance MockReport_countable : Countable MockReport :=
  inj_countable mock_report_code mock_report_uncode mock_report_uncode_code.

Section witnesses.
#[local] Existing Instance toy_hex.
#[local] Existing Instance toy_digests.
#[local] Existing Instance toy_hmacs.

Definition toy_body : list bytes :=
  [to_le_bytes 4 2; repeat x00 44; to_le_bytes 4 0; repeat x00 28; repeat x11 64; repeat x5e 48;
   repeat x00 32; repeat x00 160; to_le_bytes 8 77; repeat x00 24; repeat x22 64; repeat x00 192].
Definition toy_sig : list bytes :=
  [to_le_bytes 48 1234; repeat x00 24; to_le_bytes 48 5678; repeat x00 24; repeat x00 368].

Lemma parse_report_layout_witness :
  parse_report (concat (toy_body ++ toy_sig)) =
  Ok {| sr_version := 2; sr_vmpl := 0; sr_report_data := repeat x11 64; sr_measurement := repeat x5e 48;
        sr_host_data := repeat x00 32; sr_reported_tcb := 77; sr_chip_id := repeat x22 64;
        sr_signed_data := concat toy_body;
        sr_signature_be := to_be_bytes 48 1234 ++ to_be_bytes 48 5678 |}.
Proof.
  apply (parse_report_layout 2 0 77 1234 5678); try reflexivity; vm_decide.
Defined.

(** A verifier whose signatures are the key itself. *)
Definition toy_ecdsa (k m s : bytes) : bool := bool_decide (k = s).
Definition toy_vcek : VcekKey := {| sec1_uncompressed := to_be_bytes 48 1234 ++ to_be_bytes 48 5678 |}.
Definition toy_policy : Policy :=
  {| allowed_measurements := [repeat x5e 48]; require_vendor_root := true; expected_vmpl := Some 0 |}.
Definition toy_evidence : Evidence :=
  {| ev_backend := SevSnp; ev_report := concat (toy_body ++ toy_sig); ev_runtime_pubkey := [] |}.

(** Evidence that passes a policy with a vendor root. *)
Lemma snp_verify_run :
  ∃ c, snp_verify toy_ecdsa (snp_with_vcek toy_vcek) toy_evidence (repeat x11 64) toy_policy = Ok c ∧
  cl_vendor_verified c = true.
Proof.
  eexists. split; [vm_compute; reflexivity|].
  edestruct (snp_verify_inv toy_ecdsa (snp_with_vcek toy_vcek) toy_evidence (repeat x11 64) toy_policy)
    as (_ & _ & _ & _ & _ & H & _); [vm_compute; reflexivity|]. by apply H.
Qed.

Lemma mock_never_vendor_witness :
  let S := toy_serde MockReport in
  is_ok (mock_verify {| ev_backend := Mock; ev_report := []; ev_runtime_pubkey := [] |} [] toy_policy) = false ∧
  ∃ ev, mock_get_evidence MOCK_MEASUREMENT (repeat x11 64) = Ok ev ∧
    is_ok (mock_verify ev (repeat x11 64) dev_permissive) = true.
Proof.
  intros S. split; [by apply (mock_never_vendor toy_policy)|].
  eexists. split; [reflexivity|].
  rewrite (proj2 (mock_never_vendor dev_permissive) eq_refl MOCK_MEASUREMENT (repeat x11 64));
    [|reflexivity|reflexivity]. vm_refl.
Defined.
End witnesses.
