(* ===== verification/Tsm.v ===== *)
(** Reports of the hardware and the forms of evidence, [crates/secgit-attest/src]:
    [SnpAttester] of [snp.rs], [TdxAttester::available] of [tdx.rs], [detect_attester] and
    the serialized byte fields of [lib.rs].

    The kernel's report interface is a directory: an entry is made, the challenge is written
    to its [inblob], the report is read from its [outblob], and the entry is removed.  The
    class [ReportFs] is these four operations on a state of the kernel.  The model is the
    Linux build; elsewhere the interface is never present. *)

From S2P Require Import Prelude Backend Toy Envelope Primitives Attest.

(** ** Byte fields as text *)

Section fields.
Context `{HX : Hex}.

Definition hex_vec_serialize (v : bytes) : string := hex_encode v.
Definition hex_vec_deserialize (s : string) : result string bytes := ok_or "invalid hex" (hex_decode s).
Definition hex_array64_serialize (v : ReportData) : string := hex_encode v.
Definition hex_array64_deserialize (s : string) : result string ReportData :=
  b ← ok_or "invalid hex" (hex_decode s);
  if negb (Nat.eqb (length b) 64) then Err "report_data must be 64 bytes" else Ok b.
Definition zeroed : ReportData := repeat x00 64.

(** Evidence survives, and report data of another length are not read. *)
Lemma hex_vec_roundtrip v : hex_vec_deserialize (hex_vec_serialize v) = Ok v.
Proof. unfold hex_vec_deserialize, hex_vec_serialize. by rewrite hex_decode_encode. Qed.
Lemma hex_array64_exact s v : hex_array64_deserialize s = Ok v ↔ hex_decode s = Some v ∧ length v = 64%nat.
Proof.
  unfold hex_array64_deserialize. destruct (hex_decode s) as [b|]; cbn [ok_or mbind result_mbind]; [|by split; [|intros []]].
  destruct (Nat.eqb_spec (length b) 64) as [E|E]; cbn [negb]; split; try (intros [= <-]; done); intros [[= ->] ?]; done.
Qed.
End fields.

(** ** The report interface *)

Class ReportFs := {
  Tsm : Type;
  tsm_present : Tsm → bool;
  create_dir : string → eff Tsm string unit;
  write_inblob : string → bytes → eff Tsm string unit;
  read_outblob : string → eff Tsm string bytes;
  remove_dir : string → eff Tsm string unit;
}.

Section snp.
Context `{RF : ReportFs}.

Record SnpAttester := mkSnpAttester { sa_runtime_pubkey : bytes }.
Definition snp_attester_new : SnpAttester := mkSnpAttester [].
Definition with_runtime_pubkey (pubkey : bytes) : SnpAttester := mkSnpAttester pubkey.
Definition snp_available (t : Tsm) : bool := tsm_present t.
Definition tdx_available (t : Tsm) : bool := tsm_present t.

(** [unique] is the name made of the process number and the clock. *)
Definition snp_get_evidence (a : SnpAttester) (unique : string) (report_data : ReportData) : eff Tsm AttestError Evidence := λ t,
  if negb (snp_available t) then (Err (Unavailable "configfs-tsm not present (need SEV-SNP guest, kernel 6.7+)"), t)
  else
    match create_dir unique t with
    | (Err e, t) => (Err (AttestIo e), t)
    | (Ok _, t) =>
        match write_inblob unique report_data t with
        | (Err e, t) => (Err (AttestIo e), (remove_dir unique t).2)
        | (Ok _, t) =>
            match read_outblob unique t with
            | (Err e, t) => (Err (AttestIo e), (remove_dir unique t).2)
            | (Ok outblob, t) => (Ok (mkEvidence SevSnp outblob (sa_runtime_pubkey a)), (remove_dir unique t).2)
            end
        end
    end.

(** An attester at a state of the kernel. *)
Definition snp_attester (a : SnpAttester) (unique : string) (t : Tsm) : Attester :=
  mkAttester SevSnp (λ rd, (snp_get_evidence a unique rd t).1).
Definition detect_attester `{MAC : Hmacs} `{HX : Hex} `{SMR : Serde MockReport} (unique : string) (t : Tsm) : Attester :=
  if snp_available t then snp_attester snp_attester_new unique t else mock_attester MOCK_MEASUREMENT.
End snp.

(** ** A kernel *)

(** Entries with what was written to them; [chip] makes the report of a challenge or refuses,
    and the schedule says which of the next operations fail. *)
Section kernel.
Context (chip : bytes → option bytes).

Record Configfs := mkConfigfs { cf_entries : gmap string (option bytes); cf_fails : list bool }.
Definition cf_next (t : Configfs) : bool * Configfs := (default false (head (cf_fails t)), mkConfigfs (cf_entries t) (tail (cf_fails t))).
Definition cf_op {A} (k : gmap string (option bytes) → option (A * gmap string (option bytes))) : eff Configfs string A := λ t,
  let '(fails, t) := cf_next t in
  if fails : bool then (Err "I/O error", t)
  else match k (cf_entries t) with Some (a, m) => (Ok a, mkConfigfs m (cf_fails t)) | None => (Err "No such file or directory", t) end.
#[local] Instance configfs : ReportFs := {|
  Tsm := Configfs;
  tsm_present _ := true;
  create_dir n := cf_op (λ m, if bool_decide (is_Some (m !! n)) then None else Some ((), <[n := None]> m));
  write_inblob n b := cf_op (λ m, if bool_decide (is_Some (m !! n)) then Some ((), <[n := Some b]> m) else None);
  read_outblob n := cf_op (λ m, b ← m !! n; b ← b; report ← chip b; Some (report, m));
  remove_dir n := cf_op (λ m, if bool_decide (is_Some (m !! n)) then Some ((), delete n m) else None);
|}.

Lemma cf_op_inv {A} (k : gmap string (option bytes) → option (A * gmap string (option bytes))) t r t' : cf_op k t = (r, t') →
  match r with Ok a => k (cf_entries t) = Some (a, cf_entries t') | Err _ => cf_entries t' = cf_entries t end.
Proof.
  unfold cf_op, cf_next. destruct (default false _); [by intros [= <- <-]|]. cbn [cf_entries].
  destruct (k (cf_entries t)) as [[a m]|] eqn:E; by intros [= <- <-].
Qed.

(** Evidence carries the chip's report of the challenge it was made for.  No entry of anybody
    else is touched, whichever operations fail; and while the kernel's own operations do
    not, the entry that was made is removed again, also when the chip refuses. *)
Lemma evidence_of_challenge a unique rd t r t' : snp_get_evidence a unique rd t = (r, t') → cf_entries t !! unique = None →
  (∀ ev, r = Ok ev → ∃ report, chip rd = Some report ∧ ev = mkEvidence SevSnp report (sa_runtime_pubkey a)) ∧
  (∀ n, n ≠ unique → cf_entries t' !! n = cf_entries t !! n) ∧ (cf_fails t = [] → cf_entries t' = cf_entries t).
Proof.
  unfold snp_get_evidence. cbn [snp_available tsm_present configfs negb create_dir write_inblob read_outblob remove_dir]. intros H Hn.
  assert (∀ m o, cf_entries m = <[unique := o]> (cf_entries t) → ∀ r0 t0, remove_dir unique m = (r0, t0) →
    (∀ n, n ≠ unique → cf_entries t0 !! n = cf_entries t !! n) ∧ (cf_fails m = [] → cf_entries t0 = cf_entries t)) as Hrm.
  { intros m o Em r0 t0 E. cbn [remove_dir configfs] in E. split.
    - intros n Hne. apply cf_op_inv in E. destruct r0 as [[]|].
      + case_bool_decide; [|done]. injection E as <-. by rewrite lookup_delete_ne, Em, lookup_insert_ne by done.
      + by rewrite E, Em, lookup_insert_ne.
    - intros Hf. unfold cf_op, cf_next in E. rewrite Hf in E. cbn [head default tail cf_entries] in E.
      rewrite Em, lookup_insert_eq, bool_decide_eq_true_2 in E by eauto. injection E as _ <-. cbn. by rewrite delete_insert_id. }
  assert (∀ A (k : gmap string (option bytes) → option (A * gmap string (option bytes))) s r0 s0, cf_op k s = (r0, s0) → cf_fails s = [] → cf_fails s0 = []) as Hfl.
  { intros A k s r0 s0 E Hf. unfold cf_op, cf_next in E. rewrite Hf in E. cbn [head default tail] in E. by destruct (k _) as [[]|]; injection E as _ <-. }
  destruct (cf_op _ t) as [[[]|e] t1] eqn:E1; pose proof (Hfl _ _ _ _ _ E1) as G1; apply cf_op_inv in E1.
  2:{ injection H as <- <-. split_and!; [done|by rewrite E1|done]. }
  rewrite Hn, bool_decide_eq_false_2 in E1 by (by intros []). injection E1 as E1. symmetry in E1.
  destruct (cf_op _ t1) as [[[]|e] t2] eqn:E2; pose proof (Hfl _ _ _ _ _ E2) as G2; apply cf_op_inv in E2.
  2:{ destruct (cf_op _ t2) as [r3 t3] eqn:E3. cbn [snd] in H. injection H as <- <-. rewrite E1 in E2. destruct (Hrm _ _ E2 _ _ E3). split_and!; auto. done. }
  rewrite E1, lookup_insert_eq, bool_decide_eq_true_2, insert_insert_eq in E2 by eauto. injection E2 as E2. symmetry in E2.
  destruct (cf_op _ t2) as [[out|e] t3] eqn:E3; pose proof (Hfl _ _ _ _ _ E3) as G3; apply cf_op_inv in E3.
  - rewrite E2, lookup_insert_eq in E3. cbn in E3. destruct (chip rd) as [report|]; [|done]. injection E3 as <- E3. symmetry in E3.
    destruct (cf_op _ t3) as [r4 t4] eqn:E4. cbn [snd] in H. injection H as <- <-. destruct (Hrm _ _ E3 _ _ E4).
    split_and!; auto. intros ev [= <-]. eauto.
  - destruct (cf_op _ t3) as [r4 t4] eqn:E4. cbn [snd] in H. injection H as <- <-. rewrite E2 in E3. destruct (Hrm _ _ E3 _ _ E4). split_and!; auto. done.
Qed.
End kernel.
