(* ===== verification/Vcek.v ===== *)
(** [crates/secgit-attest/src/vcek.rs]: from a chip id and TCB to a VCEK that
    chains to the pinned AMD root and is not revoked.

    Certificates are parsed by the [x509-cert] crate and RSA-PSS is checked by
    [aws-lc-rs]: both are the class [X509].  The offline cache is a directory of
    files with modification times; its operations can fail or, when writing, be
    torn. *)

From Stdlib Require Import Ascii.
From S2P Require Import Prelude Text Backend Toy Envelope Primitives Fs Attest.

Inductive Product := Milan | Genoa.
Global Instance Product_eq_dec : EqDecision Product.
Proof. solve_decision. Defined.

Class X509 := {
  Certificate : Type;
  CertificateList : Type;
  cert_from_der : bytes → option Certificate;
  cert_from_pem : bytes → option Certificate;
  crl_from_der : bytes → option CertificateList;
  (** [signature_algorithm.oid], [tbs_certificate.issuer] and [.subject]. *)
  cert_sig_oid : Certificate → string;
  cert_issuer : Certificate → bytes;
  cert_subject : Certificate → bytes;
  (** The SPKI's algorithm and its bit string. *)
  cert_spki_oid : Certificate → string;
  cert_spki_key : Certificate → bytes;
  cert_tbs_der : Certificate → option bytes;
  cert_signature : Certificate → bytes;
  cert_serial : Certificate → bytes;
  crl_sig_oid : CertificateList → string;
  crl_issuer : CertificateList → bytes;
  crl_tbs_der : CertificateList → option bytes;
  crl_signature : CertificateList → bytes;
  crl_revoked : CertificateList → option (list bytes);
  crl_next_update : CertificateList → option N;
  (** [RSA_PSS_2048_8192_SHA384]: key, message, signature. *)
  rsa_pss_verify : bytes → bytes → bytes → bool;
  (** The PEM files under [roots/]. *)
  ark_pem : Product → bytes;
}.

Definition OID_RSASSA_PSS : string := "1.2.840.113549.1.1.10".
Definition OID_EC_PUBLIC_KEY : string := "1.2.840.10045.2.1".
Definition P384_POINT_LEN : nat := 97.

Definition product_as_str (p : Product) : string :=
  match p with Milan => "Milan" | Genoa => "Genoa" end.

Definition product_parse (s : string) : option Product :=
  let l := to_ascii_lowercase s in
  if bool_decide (l = "milan") then Some Milan
  else if bool_decide (l = "genoa") then Some Genoa else None.

Record Tcb := mkTcb { t_bootloader : N; t_tee : N; t_snp : N; t_microcode : N }.

Definition tcb_from_reported (reported_tcb : N) : Tcb :=
  let b := to_le_bytes 8 reported_tcb in
  let at_ i := default 0 (Byte.to_N <$> b !! i) in
  {| t_bootloader := at_ 0%nat; t_tee := at_ 1%nat; t_snp := at_ 6%nat; t_microcode := at_ 7%nat |}.

Record RevocationConfig := mkRevocation { rc_enabled : bool; rc_max_crl_age_secs : N }.
Definition default_revocation : RevocationConfig :=
  {| rc_enabled := true; rc_max_crl_age_secs := 24 * 3600 |}.

Section vcek.
Context `{HX : Hex} `{X : X509}.

Definition kds_vcek_url (p : Product) (chip_id : bytes) (tcb : Tcb) : string :=
  "https://kdsintf.amd.com/vcek/v1/" +:+ product_as_str p +:+ "/" +:+ hex_encode chip_id
  +:+ "?blSPL=" +:+ pretty (t_bootloader tcb) +:+ "&teeSPL=" +:+ pretty (t_tee tcb)
  +:+ "&snpSPL=" +:+ pretty (t_snp tcb) +:+ "&ucodeSPL=" +:+ pretty (t_microcode tcb).

Definition kds_cert_chain_url (p : Product) : string :=
  "https://kdsintf.amd.com/vcek/v1/" +:+ product_as_str p +:+ "/cert_chain".

Definition kds_crl_url (p : Product) : string :=
  "https://kdsintf.amd.com/vcek/v1/" +:+ product_as_str p +:+ "/crl".

Definition parse_cert_der (der : bytes) : result AttestError Certificate :=
  ok_or (AttestMalformed "invalid DER certificate") (cert_from_der der).
Definition parse_cert_pem (pem : bytes) : result AttestError Certificate :=
  ok_or (AttestMalformed "invalid PEM certificate") (cert_from_pem pem).

(** [haystack.contains(needle)]. *)
Fixpoint contains_sub (needle hay : bytes) : bool :=
  bool_decide (take (length needle) hay = needle) ||
  match hay with [] => false | _ :: hay => contains_sub needle hay end.

(** The loop of [parse_cert_chain_pem] over the lines, with [cur] and
    [in_cert]. *)
Fixpoint chain_loop (ls : list bytes) (cur : bytes) (in_cert : bool) (out : list Certificate)
    : result AttestError (list Certificate) :=
  match ls with
  | [] => Ok out
  | line :: ls =>
      let begins := contains_sub (as_bytes "BEGIN CERTIFICATE") line in
      let in_cert := in_cert || begins in
      let cur := if begins then [] else cur in
      let cur := if in_cert then cur ++ line ++ [NL] else cur in
      if contains_sub (as_bytes "END CERTIFICATE") line then
        c ← parse_cert_pem cur;
        chain_loop ls cur false (out ++ [c])
      else chain_loop ls cur in_cert out
  end.

Definition parse_cert_chain_pem (pem : bytes) : result AttestError (list Certificate) :=
  out ← chain_loop (lines pem) [] false [];
  match out with
  | [] => Err (AttestMalformed "no certificates in chain")
  | _ => Ok out
  end.

Definition rsa_pss_sha384_signed_by (issuer child : Certificate) : result AttestError unit :=
  if negb (bool_decide (cert_sig_oid child = OID_RSASSA_PSS))
  then Err (Rejected "certificate not signed with RSASSA-PSS")
  else
    tbs ← ok_or (AttestMalformed "could not re-encode tbsCertificate") (cert_tbs_der child);
    if rsa_pss_verify (cert_spki_key issuer) tbs (cert_signature child) then Ok ()
    else Err (Rejected "certificate signature did not verify").

Definition issuer_matches_subject (issuer child : Certificate) : bool :=
  bool_decide (cert_issuer child = cert_subject issuer).

Definition ec_p384_vcek (alg_oid : string) (point : bytes) : result AttestError VcekKey :=
  if negb (bool_decide (alg_oid = OID_EC_PUBLIC_KEY)) then Err (Rejected "VCEK leaf is not an EC public key")
  else if negb (Nat.eqb (length point) P384_POINT_LEN) || negb (bool_decide (head point = Some x04))
  then Err (Rejected "VCEK is not an uncompressed P-384 point")
  else Ok {| sec1_uncompressed := point |}.

Definition verify_vcek (product : Product) (ask vcek : Certificate) : result AttestError VcekKey :=
  ark ← parse_cert_pem (ark_pem product);
  _ ← rsa_pss_sha384_signed_by ark ark;
  if negb (issuer_matches_subject ark ask) then Err (Rejected "ASK issuer does not match pinned ARK subject")
  else
    _ ← rsa_pss_sha384_signed_by ark ask;
    if negb (issuer_matches_subject ask vcek) then Err (Rejected "VCEK issuer does not match ASK subject")
    else
      _ ← rsa_pss_sha384_signed_by ask vcek;
      ec_p384_vcek (cert_spki_oid vcek) (cert_spki_key vcek).

(** ** The offline cache *)

Record Cache := mkCache {
  vc_files : gmap string (bytes * N);
  vc_sched : list outcome;
  vc_now : N;
}.

Definition vc_next (c : Cache) : outcome * Cache :=
  match vc_sched c with
  | [] => (Fine, c)
  | o :: s => (o, {| vc_files := vc_files c; vc_sched := s; vc_now := vc_now c |})
  end.
Definition vc_store (k : string) (b : bytes) (c : Cache) : Cache :=
  {| vc_files := <[k := (b, vc_now c)]> (vc_files c); vc_sched := vc_sched c; vc_now := vc_now c |}.

Definition cache_get (k : string) : eff Cache AttestError (option bytes) := λ c,
  let '(o, c) := vc_next c in
  (Ok (match o with Fine => fst <$> vc_files c !! k | _ => None end), c).

(** [create_dir_all], then a plain [write]. *)
Definition cache_put (k : string) (b : bytes) : eff Cache AttestError unit := λ c,
  let '(o, c) := vc_next c in
  match o with
  | Fine =>
      let '(o, c) := vc_next c in
      match o with
      | Fine => (Ok (), vc_store k b c)
      | Fail | Unseen => (Err (AttestIo "write"), c)
      | Torn n => (Err (AttestIo "write"), vc_store k (take n b) c)
      end
  | _ => (Err (AttestIo "create_dir_all"), c)
  end.

(** [read], then the modification time; a time in the future is age 0. *)
Definition cache_get_with_age (k : string) : eff Cache AttestError (option (bytes * N)) := λ c,
  let '(o1, c) := vc_next c in
  match o1, vc_files c !! k with
  | Fine, Some (b, mtime) =>
      let '(o2, c) := vc_next c in
      (Ok (match o2 with Fine => Some (b, vc_now c - mtime) | _ => None end), c)
  | _, _ => (Ok None, c)
  end.

Definition now_unix : eff Cache AttestError N := λ c, (Ok (vc_now c), c).

(** ** Revocation *)

Definition crl_signed_by (issuer : Certificate) (crl : CertificateList) : result AttestError unit :=
  if negb (bool_decide (crl_sig_oid crl = OID_RSASSA_PSS)) then Err (Rejected "CRL not signed with RSASSA-PSS")
  else if negb (bool_decide (crl_issuer crl = cert_subject issuer))
  then Err (Rejected "CRL issuer does not match ASK subject")
  else
    tbs ← ok_or (AttestMalformed "could not re-encode tbsCertList") (crl_tbs_der crl);
    if rsa_pss_verify (cert_spki_key issuer) tbs (crl_signature crl) then Ok ()
    else Err (Rejected "CRL signature did not verify against ASK").

Definition serial_revoked (crl : CertificateList) (serial : bytes) : bool :=
  match crl_revoked crl with
  | None => false
  | Some l => contains serial l
  end.

Definition cached_crl_usable (age_secs : N) (cfg : RevocationConfig) : bool :=
  age_secs <=? rc_max_crl_age_secs cfg.

Definition usable (cfg : RevocationConfig) (o : option (bytes * N)) : option bytes :=
  '(b, age) ← o; if cached_crl_usable age cfg then Some b else None.

Variable fetch : string → result AttestError bytes.

Definition crl_name (p : Product) : string := "crl-" +:+ product_as_str p +:+ ".der".

Definition obtain_crl (product : Product) (cfg : RevocationConfig) : eff Cache AttestError bytes :=
  cached ← cache_get_with_age (crl_name product);
  match usable cfg cached with
  | Some b => mret b
  | None =>
      match fetch (kds_crl_url product) with
      | Ok b => _ ← cache_put (crl_name product) b; mret b
      | Err _ =>
          cached ← cache_get_with_age (crl_name product);
          match usable cfg cached with
          | Some b => mret b
          | None => throw (Rejected
              "CRL unobtainable and no fresh cached CRL (failing closed on revocation)")
          end
      end
  end.

Definition check_revocation (product : Product) (ask vcek : Certificate) (cfg : RevocationConfig)
    : eff Cache AttestError unit :=
  if negb (rc_enabled cfg) then mret ()
  else
    crl_der ← obtain_crl product cfg;
    crl ← lift (ok_or (AttestMalformed "invalid DER CRL") (crl_from_der crl_der));
    _ ← lift (crl_signed_by ask crl);
    now ← now_unix;
    if match crl_next_update crl with
       | Some next => sat_add64 next (rc_max_crl_age_secs cfg) <? now
       | None => false
       end
    then throw (Rejected "CRL is expired beyond the offline window (failing closed)")
    else if serial_revoked crl (cert_serial vcek)
    then throw (Rejected "VCEK is revoked (present in AMD CRL)")
    else mret ().

(** [match cache.get(name) { Some(b) => b, None => fetch and put }]. *)
Definition get_or_fetch (name url : string) : eff Cache AttestError bytes :=
  cached ← cache_get name;
  match cached with
  | Some b => mret b
  | None => b ← lift (fetch url); _ ← cache_put name b; mret b
  end.

Definition vcek_name (p : Product) (chip_id : bytes) (tcb : Tcb) : string :=
  "vcek-" +:+ product_as_str p +:+ "-" +:+ hex_encode chip_id
  +:+ "-bl" +:+ pretty (t_bootloader tcb) +:+ "-tee" +:+ pretty (t_tee tcb)
  +:+ "-snp" +:+ pretty (t_snp tcb) +:+ "-uc" +:+ pretty (t_microcode tcb) +:+ ".der".
Definition chain_name (p : Product) : string := "certchain-" +:+ product_as_str p +:+ ".pem".

Definition resolve_vcek (product : Product) (chip_id : bytes) (reported_tcb : N)
    (revocation : RevocationConfig) : eff Cache AttestError VcekKey :=
  let tcb := tcb_from_reported reported_tcb in
  vcek_der ← get_or_fetch (vcek_name product chip_id tcb) (kds_vcek_url product chip_id tcb);
  chain_pem ← get_or_fetch (chain_name product) (kds_cert_chain_url product);
  chain ← lift (parse_cert_chain_pem (from_utf8_lossy chain_pem));
  ask ← lift (ok_or (AttestMalformed "empty KDS cert chain") (head chain));
  vcek ← lift (parse_cert_der vcek_der);
  key ← lift (verify_vcek product ask vcek);
  _ ← check_revocation product ask vcek revocation;
  mret key.

(** ** Theory *)

(** [child] carries a valid RSA-PSS signature of [issuer] and names it. *)
Definition signed (issuer child : Certificate) : Prop :=
  cert_sig_oid child = OID_RSASSA_PSS ∧
  ∃ tbs, cert_tbs_der child = Some tbs ∧
    rsa_pss_verify (cert_spki_key issuer) tbs (cert_signature child) = true.

(** The chain from the pinned root to a VCEK. *)
Definition chains_to_root (product : Product) (ask vcek : Certificate) : Prop :=
  ∃ ark, cert_from_pem (ark_pem product) = Some ark ∧ signed ark ark ∧
    cert_issuer ask = cert_subject ark ∧ signed ark ask ∧
    cert_issuer vcek = cert_subject ask ∧ signed ask vcek.

(** Where the revocation list came from: the cache, where it was young enough, or the
    vendor. *)
Definition crl_source (product : Product) (cfg : RevocationConfig) (c : Cache) (der : bytes) : Prop :=
  (∃ m, vc_files c !! crl_name product = Some (der, m) ∧ vc_now c - m ≤ rc_max_crl_age_secs cfg) ∨
  fetch (kds_crl_url product) = Ok der.

(** A CRL of the ASK from there, not expired beyond the window at the time of [c], that
    does not list [serial]. *)
Definition not_revoked (product : Product) (ask : Certificate) (serial : bytes) (cfg : RevocationConfig) (c : Cache) : Prop :=
  ∃ der crl tbs, crl_source product cfg c der ∧ crl_from_der der = Some crl ∧ crl_sig_oid crl = OID_RSASSA_PSS ∧
    crl_issuer crl = cert_subject ask ∧ crl_tbs_der crl = Some tbs ∧
    rsa_pss_verify (cert_spki_key ask) tbs (crl_signature crl) = true ∧
    (∀ next, crl_next_update crl = Some next → vc_now c ≤ sat_add64 next (rc_max_crl_age_secs cfg)) ∧
    (∀ l, crl_revoked crl = Some l → serial ∉ l).

Lemma signed_by_ok issuer child : rsa_pss_sha384_signed_by issuer child = Ok () → signed issuer child.
Proof.
  unfold rsa_pss_sha384_signed_by, signed. case_bool_decide as Ho; simpl; [|done].
  destruct (cert_tbs_der child) as [tbs|]; simpl; [|done].
  destruct (rsa_pss_verify _ _ _) eqn:E; [|done]. eauto.
Qed.

Lemma verify_vcek_ok product ask vcek k :
  verify_vcek product ask vcek = Ok k →
  chains_to_root product ask vcek ∧ cert_spki_oid vcek = OID_EC_PUBLIC_KEY ∧
  sec1_uncompressed k = cert_spki_key vcek ∧
  length (cert_spki_key vcek) = P384_POINT_LEN ∧ head (cert_spki_key vcek) = Some x04.
Proof.
  unfold verify_vcek, parse_cert_pem, mbind, result_mbind.
  destruct (cert_from_pem (ark_pem product)) as [ark|] eqn:Ea; simpl; [|done].
  destruct (rsa_pss_sha384_signed_by ark ark) as [[]|] eqn:E1; [|done].
  unfold issuer_matches_subject. case_bool_decide as H1; simpl; [|done].
  destruct (rsa_pss_sha384_signed_by ark ask) as [[]|] eqn:E2; [|done].
  case_bool_decide as H2; simpl; [|done].
  destruct (rsa_pss_sha384_signed_by ask vcek) as [[]|] eqn:E3; [|done].
  apply signed_by_ok in E1, E2, E3. unfold ec_p384_vcek.
  case_bool_decide as H3; simpl; [|done].
  destruct (Nat.eqb_spec (length (cert_spki_key vcek)) P384_POINT_LEN); [|done].
  case_bool_decide as H4; [|done]. intros [= <-]. split_and!; try done. exists ark. by split_and!.
Qed.

(** What the cache operations leave alone. *)
Lemma vc_next_same c : vc_files (vc_next c).2 = vc_files c ∧ vc_now (vc_next c).2 = vc_now c.
Proof. unfold vc_next. by destruct (vc_sched c). Qed.

Lemma cache_get_spec k c r c' :
  cache_get k c = (r, c') → vc_files c' = vc_files c ∧ vc_now c' = vc_now c ∧
  ∃ o, r = Ok o ∧ ∀ b, o = Some b → fst <$> vc_files c !! k = Some b.
Proof.
  unfold cache_get. pose proof (vc_next_same c) as [F N]. destruct (vc_next c) as [o c1]. simpl in *.
  intros [= <- <-]. split; [done|]. split; [done|]. eexists. split; [done|]. rewrite F. by destruct o.
Qed.

Lemma cache_put_spec k b c r c' :
  cache_put k b c = (r, c') → vc_now c' = vc_now c ∧
  ∀ j, j ≠ k → vc_files c' !! j = vc_files c !! j.
Proof.
  unfold cache_put. pose proof (vc_next_same c) as [F N]. destruct (vc_next c) as [o c1]. simpl in *.
  destruct o; [|intros [= <- <-]; rewrite F; done..].
  pose proof (vc_next_same c1) as [F1 N1]. destruct (vc_next c1) as [o c2]. simpl in *.
  destruct o; intros [= <- <-]; simpl; rewrite ?F1, ?F, ?N1, ?N; (split; [done|]); try done;
    intros j Hj; by rewrite lookup_insert_ne.
Qed.

Lemma get_or_fetch_spec name url c r c' :
  get_or_fetch name url c = (r, c') → vc_now c' = vc_now c ∧
  (∀ j, j ≠ name → vc_files c' !! j = vc_files c !! j) ∧
  ∀ b, r = Ok b → fst <$> vc_files c !! name = Some b ∨ fetch url = Ok b.
Proof.
  unfold get_or_fetch, mbind, eff_mbind, lift. destruct (cache_get name c) as [r1 c1] eqn:E1.
  apply cache_get_spec in E1 as (F & N & o & -> & Ho). destruct o as [b|].
  - intros [= <- <-]. rewrite F. split_and!; try done. intros ? [= <-]. auto.
  - destruct (fetch url) as [b|e] eqn:Ef; [|intros [= <- <-]; rewrite F; by split_and!].
    destruct (cache_put name b c1) as [r2 c2] eqn:E2. apply cache_put_spec in E2 as [N2 F2].
    destruct r2 as [[]|e]; intros [= <- <-]; rewrite N2, N; (split; [done|]);
      (split; [intros j Hj; rewrite F2, F by done; done|]); [|done].
    intros ? [= <-]. auto.
Qed.

Lemma get_with_age_spec k c r c' :
  cache_get_with_age k c = (r, c') → vc_files c' = vc_files c ∧ vc_now c' = vc_now c ∧
  ∃ o, r = Ok o ∧ ∀ b age, o = Some (b, age) → ∃ m, vc_files c !! k = Some (b, m) ∧ age = vc_now c - m.
Proof.
  unfold cache_get_with_age. pose proof (vc_next_same c) as [F N]. destruct (vc_next c) as [o1 c1].
  simpl in *. rewrite F.
  destruct o1; [|intros [= <- <-]; rewrite F, N; split_and!; [done..|]; exists None; done..].
  destruct (vc_files c !! k) as [[b m]|] eqn:Ek;
    [|intros [= <- <-]; rewrite F, N; split_and!; [done..|]; exists None; done].
  pose proof (vc_next_same c1) as [F1 N1]. destruct (vc_next c1) as [o2 c2]. simpl in *.
  intros [= <- <-]. rewrite F1, F, N1, N. split_and!; [done..|]. eexists. split; [done|].
  destruct o2; [|done..]. intros ? ? [= <- <-]. eauto.
Qed.

Lemma usable_source product cfg c (o : option (bytes * N)) der :
  (∀ b age, o = Some (b, age) → ∃ m, vc_files c !! crl_name product = Some (b, m) ∧ age = vc_now c - m) →
  usable cfg o = Some der → crl_source product cfg c der.
Proof.
  intros Ho. destruct o as [[b age]|]; [|done]. destruct (Ho b age eq_refl) as (m & Hm & ->). unfold usable. simpl.
  unfold cached_crl_usable. destruct (N.leb_spec (vc_now c - m) (rc_max_crl_age_secs cfg)); [|done]. intros [= <-]. left. eauto.
Qed.

Lemma obtain_crl_source product cfg c der c' :
  obtain_crl product cfg c = (Ok der, c') → crl_source product cfg c der ∧ vc_now c' = vc_now c.
Proof.
  unfold obtain_crl, mbind, eff_mbind. destruct (cache_get_with_age _ c) as [r1 c1] eqn:E1.
  apply get_with_age_spec in E1 as (F1 & N1 & o & -> & Ho).
  destruct (usable cfg o) as [b|] eqn:Eu; [intros [= <- <-]; split; [by eapply usable_source|done]|].
  destruct (fetch (kds_crl_url product)) as [b|e] eqn:Ef.
  - destruct (cache_put _ b c1) as [[[]|] c2] eqn:E2; [|done]. apply cache_put_spec in E2 as [N2 _]. intros [= <- <-].
    split; [by right|congruence].
  - destruct (cache_get_with_age _ c1) as [r2 c2] eqn:E2. apply get_with_age_spec in E2 as (F2 & N2 & o2 & -> & Ho2).
    rewrite F1, N1 in Ho2. destruct (usable cfg o2) as [b|] eqn:Eu2; [|done]. intros [= <- <-].
    split; [by eapply usable_source|congruence].
Qed.

Lemma check_revocation_ok product ask vcek cfg c c' :
  rc_enabled cfg = true → check_revocation product ask vcek cfg c = (Ok (), c') → not_revoked product ask (cert_serial vcek) cfg c.
Proof.
  intros He. unfold check_revocation. rewrite He. cbn [negb]. unfold mbind, eff_mbind, lift, now_unix.
  destruct (obtain_crl product cfg c) as [[der|] c1] eqn:Eo; [|done]. apply obtain_crl_source in Eo as [Hs Hnow].
  destruct (crl_from_der der) as [crl|] eqn:Ed; [|done]. cbn [ok_or].
  unfold crl_signed_by, mbind, result_mbind. case_bool_decide as H1; [|done]. cbn [negb].
  case_bool_decide as H2; [|done]. cbn [negb].
  destruct (crl_tbs_der crl) as [tbs|] eqn:Et; [|done]. cbn [ok_or].
  destruct (rsa_pss_verify _ tbs _) eqn:Ev; [|done].
  destruct (match crl_next_update crl with Some next => _ | None => _ end) eqn:Ex; [done|].
  destruct (serial_revoked crl _) eqn:Es; [done|]. intros [= <-].
  exists der, crl, tbs. split_and!; try done.
  - intros next Hn. rewrite Hn, Hnow in Ex. by apply N.ltb_ge.
  - intros l Hl. unfold serial_revoked in Es. rewrite Hl in Es. by apply bool_decide_eq_false in Es.
Qed.

(** No usable CRL is cached. *)
Definition no_fresh_crl (product : Product) (cfg : RevocationConfig) (c : Cache) : Prop :=
  ∀ b m, vc_files c !! crl_name product = Some (b, m) → rc_max_crl_age_secs cfg < vc_now c - m.

Lemma obtain_crl_closed product cfg c r c' :
  no_fresh_crl product cfg c → is_ok (fetch (kds_crl_url product)) = false →
  obtain_crl product cfg c = (r, c') → is_ok r = false.
Proof.
  intros Hno Hf. unfold obtain_crl, mbind, eff_mbind.
  assert (∀ o, (∀ b age, o = Some (b, age) →
    ∃ m, vc_files c !! crl_name product = Some (b, m) ∧ age = vc_now c - m) → usable cfg o = None) as Hu.
  { intros [[b age]|] Ho; [|done]. destruct (Ho b age eq_refl) as (m & Hm & ->). simpl.
    unfold cached_crl_usable. specialize (Hno b m Hm). by apply N.leb_gt in Hno as ->. }
  destruct (cache_get_with_age _ c) as [r1 c1] eqn:E1.
  apply get_with_age_spec in E1 as (F1 & N1 & o & -> & Ho). rewrite (Hu o Ho).
  destruct (fetch (kds_crl_url product)); [done|].
  destruct (cache_get_with_age _ c1) as [r2 c2] eqn:E2.
  apply get_with_age_spec in E2 as (F2 & N2 & o2 & -> & Ho2). rewrite F1, N1 in Ho2. rewrite (Hu o2 Ho2).
  by intros [= <- <-].
Qed.

Lemma names_distinct product chip tcb :
  crl_name product ≠ vcek_name product chip tcb ∧ crl_name product ≠ chain_name product.
Proof. by destruct product. Qed.

(** A resolved VCEK is genuine. *)
Lemma resolve_vcek_genuine (product : Product) (chip : bytes) (tcb : N) (cfg : RevocationConfig)
    (c c' : Cache) (k : VcekKey) :
  resolve_vcek product chip tcb cfg c = (Ok k, c') →
  ∃ der ask vcek,
    (fst <$> vc_files c !! vcek_name product chip (tcb_from_reported tcb) = Some der ∨
     fetch (kds_vcek_url product chip (tcb_from_reported tcb)) = Ok der) ∧
    cert_from_der der = Some vcek ∧ chains_to_root product ask vcek ∧
    cert_spki_oid vcek = OID_EC_PUBLIC_KEY ∧ sec1_uncompressed k = cert_spki_key vcek ∧
    length (sec1_uncompressed k) = P384_POINT_LEN ∧ head (sec1_uncompressed k) = Some x04 ∧
    (rc_enabled cfg = true → not_revoked product ask (cert_serial vcek) cfg c).
Proof.
  unfold resolve_vcek, mbind, eff_mbind, lift.
  destruct (names_distinct product chip (tcb_from_reported tcb)) as [D1 D2].
  destruct (get_or_fetch _ _ c) as [r1 c1] eqn:E1. apply get_or_fetch_spec in E1 as (W1 & F1 & Hder).
  destruct r1 as [der|]; [|done].
  destruct (get_or_fetch _ _ c1) as [[pem|] c2] eqn:E2; [|done]. apply get_or_fetch_spec in E2 as (W2 & F2 & _).
  destruct (parse_cert_chain_pem _) as [chain|]; [|done].
  destruct (ok_or _ (head chain)) as [ask|]; [|done].
  unfold parse_cert_der. destruct (cert_from_der der) as [vcek|] eqn:Ed; cbn [ok_or]; [|done].
  destruct (verify_vcek product ask vcek) as [key|] eqn:Ev; [|done].
  destruct (check_revocation product ask vcek cfg c2) as [[[]|] c3] eqn:Er; [|done].
  intros [= <- <-]. apply verify_vcek_ok in Ev as (H1 & H2 & H3 & H4 & H5).
  exists der, ask, vcek. rewrite H3. split_and!; try done; [by apply Hder|].
  intros He. destruct (check_revocation_ok _ _ _ _ _ _ He Er) as (d & crl & tbs & Hs & Hrest). exists d, crl, tbs.
  rewrite W2, W1 in Hrest. split; [|done]. unfold crl_source in *. by rewrite F2, F1, W2, W1 in Hs.
Qed.

(** Revocation fails closed: when no CRL within the offline window is
    cached and the CRL cannot be fetched, [resolve_vcek] returns no key, whatever
    else the cache and the network deliver and whichever file operations fail. *)
Lemma resolve_vcek_fails_closed (product : Product) (chip : bytes) (tcb : N) (cfg : RevocationConfig) (c : Cache) :
  rc_enabled cfg = true → no_fresh_crl product cfg c →
  is_ok (fetch (kds_crl_url product)) = false →
  is_ok (resolve_vcek product chip tcb cfg c).1 = false.
Proof.
  intros He Hno Hf. unfold resolve_vcek, mbind, eff_mbind, lift.
  destruct (names_distinct product chip (tcb_from_reported tcb)) as [N1 N2].
  destruct (get_or_fetch _ _ c) as [[der|] c1] eqn:E1; [|done].
  apply get_or_fetch_spec in E1 as (W1 & F1 & _).
  destruct (get_or_fetch _ _ c1) as [[pem|] c2] eqn:E2; [|done].
  apply get_or_fetch_spec in E2 as (W2 & F2 & _).
  destruct (parse_cert_chain_pem _) as [chain|]; [|done].
  destruct (ok_or _ (head chain)) as [ask|]; [|done].
  destruct (parse_cert_der der) as [vcek|]; [|done].
  destruct (verify_vcek product ask vcek) as [key|]; [|done].
  assert (no_fresh_crl product cfg c2) as Hno2.
  { intros b m. rewrite F2, F1, W2, W1 by done. apply Hno. }
  unfold check_revocation. rewrite He. cbn [negb]. unfold mbind, eff_mbind.
  destruct (obtain_crl product cfg c2) as [r c3] eqn:E3.
  apply obtain_crl_closed in E3; [|done..]. by destruct r.
Qed.

(** A file that does not parse stays in the cache and is preferred to the
    network: what was fetched is stored before it is validated, so one bad answer
    makes every later resolution fail until the file is removed by hand. *)
Lemma poisoned_cache_sticks product chip tcb cfg c b m :
  vc_sched c = [] → vc_files c !! vcek_name product chip (tcb_from_reported tcb) = Some (b, m) →
  cert_from_der b = None →
  is_ok (resolve_vcek product chip tcb cfg c).1 = false ∧
  vc_files (resolve_vcek product chip tcb cfg c).2 !! vcek_name product chip (tcb_from_reported tcb)
    = Some (b, m).
Proof.
  intros Hs Hb Hd. unfold resolve_vcek, mbind, eff_mbind, lift.
  assert (get_or_fetch (vcek_name product chip (tcb_from_reported tcb))
    (kds_vcek_url product chip (tcb_from_reported tcb)) c = (Ok b, c)) as ->.
  { unfold get_or_fetch, mbind, eff_mbind, cache_get, vc_next. rewrite Hs, Hb. done. }
  destruct (get_or_fetch (chain_name product) _ c) as [r c2] eqn:E2.
  apply get_or_fetch_spec in E2 as (_ & F2 & _).
  assert (vc_files c2 !! vcek_name product chip (tcb_from_reported tcb) = Some (b, m)) as F.
  { rewrite F2; [done|]. by destruct product. }
  destruct r as [pem|]; [|done]. destruct (parse_cert_chain_pem _) as [chain|]; [|done].
  destruct (ok_or _ (head chain)) as [ask|]; [|done].
  unfold parse_cert_der. by rewrite Hd.
Qed.
End vcek.

(** ** Runs at an executable instance: a certificate is its fields *)
Section witnesses.
#[local] Existing Instance toy_hex.

Record toy_cert := mkToyCert { tc_subject : bytes; tc_issuer : bytes; tc_key : bytes; tc_serial : bytes }.

(** Every signature is the issuer's key; names and keys are taken from the
    first byte. *)
Definition toy_x509 : X509 := {|
  Certificate := toy_cert;
  CertificateList := bytes;
  cert_from_der b :=
    match b with
    | [] => None
    | _ => Some {| tc_subject := [x03]; tc_issuer := [x02]; tc_key := x04 :: repeat x07 96; tc_serial := b |}
    end;
  cert_from_pem b :=
    if contains_sub (as_bytes "ASK") b
    then Some {| tc_subject := [x02]; tc_issuer := [x01]; tc_key := [x02]; tc_serial := [] |}
    else Some {| tc_subject := [x01]; tc_issuer := [x01]; tc_key := [x01]; tc_serial := [] |};
  crl_from_der b := Some b;
  cert_sig_oid _ := OID_RSASSA_PSS;
  cert_issuer := tc_issuer;
  cert_subject := tc_subject;
  cert_spki_oid _ := OID_EC_PUBLIC_KEY;
  cert_spki_key := tc_key;
  cert_tbs_der c := Some (tc_subject c);
  cert_signature := tc_issuer;
  cert_serial := tc_serial;
  crl_sig_oid _ := OID_RSASSA_PSS;
  crl_issuer _ := [x02];
  crl_tbs_der b := Some b;
  crl_signature _ := [x02];
  crl_revoked b := Some [b];
  crl_next_update _ := Some 1000;
  rsa_pss_verify k m s := bool_decide (k = s);
  ark_pem _ := as_bytes "ARK";
|}.
#[local] Existing Instance toy_x509.

Definition toy_pem : bytes :=
  as_bytes "-----BEGIN CERTIFICATE-----" ++ [NL] ++ as_bytes "ASK" ++ [NL]
  ++ as_bytes "-----END CERTIFICATE-----" ++ [NL].

Definition toy_fetch (url : string) : result AttestError bytes :=
  if bool_decide (url = kds_cert_chain_url Milan) then Ok toy_pem
  else if bool_decide (url = kds_crl_url Milan) then Ok [x0c] else Ok [x0d].

Definition toy_cache : Cache := {| vc_files := ∅; vc_sched := []; vc_now := 500 |}.

(** A key that is resolved from the network. *)
Lemma resolve_vcek_run :
  ∃ k, (resolve_vcek toy_fetch Milan [x01; x02] 3 default_revocation toy_cache).1 = Ok k ∧
    length (sec1_uncompressed k) = 97%nat.
Proof.
  eexists. split; [vm_compute; reflexivity|].
  edestruct (resolve_vcek_genuine toy_fetch Milan [x01; x02] 3 default_revocation toy_cache
    (resolve_vcek toy_fetch Milan [x01; x02] 3 default_revocation toy_cache).2)
    as (der & ask & vcek & _ & _ & _ & _ & _ & H & _); [vm_compute; reflexivity|exact H].
Qed.

Definition toy_fetch_down (url : string) : result AttestError bytes :=
  if bool_decide (url = kds_crl_url Milan) then Err (AttestIo "down") else toy_fetch url.

Lemma resolve_vcek_fails_closed_witness :
  is_ok (resolve_vcek toy_fetch_down Milan [x01; x02] 3 default_revocation toy_cache).1 = false.
Proof.
  apply (resolve_vcek_fails_closed toy_fetch_down Milan); [reflexivity| |vm_refl].
  by intros b m.
Defined.
End witnesses.
