(* ===== verification/Replay.v ===== *)
(** [crates/secgit-keybroker/src/replay.rs]: the replay and freshness guard of
    the key broker.  The wall clock is the argument [now]. *)

From Stdlib Require Import Sorted.
From S2P Require Import Prelude Text Backend Toy Fs.

Inductive ReplayError := Stale | Replayed.

(** [HashMap<String, u64>]: nonce (hex) to the second it was accepted. *)
Record SeenState := mkSeen { seen : gmap string N }.
Definition seen_default : SeenState := {| seen := ∅ |}.

Definition DEFAULT_FUTURE_SKEW : N := 60.

Record ReplayGuard := mkGuard {
  rg_path : path;
  rg_ttl_secs : N;
  rg_future_skew_secs : N;
}.

Section replay.
Context `{RND : SystemRandom} `{HX : Hex} `{SS : Serde SeenState}.

(** The guard's configuration and the state behind its mutex. *)
Definition guard_open (p : path) (ttl_secs : N) (w : World) : (ReplayGuard * SeenState) * World :=
  let '(r, w) := read p w in
  let st := match r with
            | Ok b => default seen_default (from_slice b)
            | Err _ => seen_default
            end in
  (({| rg_path := p; rg_ttl_secs := ttl_secs; rg_future_skew_secs := DEFAULT_FUTURE_SKEW |}, st), w).

Definition with_future_skew (g : ReplayGuard) (skew_secs : N) : ReplayGuard :=
  {| rg_path := rg_path g; rg_ttl_secs := rg_ttl_secs g; rg_future_skew_secs := skew_secs |}.

(** Failures are ignored. *)
Definition persist (g : ReplayGuard) (st : SeenState) (w : World) : World :=
  let b := to_vec st in
  let '(_, w) := create_dir_all (removelast (rg_path g)) w in
  let tmp := with_extension (rg_path g) "tmp" in
  let '(r, w) := write tmp b w in
  match r with
  | Ok _ => (rename tmp (rg_path g) w).2
  | Err _ => w
  end.

Definition floor (g : ReplayGuard) (now : N) : N := now - rg_ttl_secs g.

(** [st.seen.retain(|_, &mut at| at >= floor)]. *)
Definition prune (fl : N) (st : SeenState) : SeenState :=
  {| seen := filter (λ kv, fl ≤ kv.2) (seen st) |}.

Definition check_and_record_at (g : ReplayGuard) (nonce : bytes) (timestamp now : N)
    : eff (SeenState * World) ReplayError unit := λ '(st, w),
  let fl := floor g now in
  if (timestamp <? fl) || (sat_add64 now (rg_future_skew_secs g) <? timestamp) then (Err Stale, (st, w))
  else
    let key := hex_encode nonce in
    let st := prune fl st in
    match seen st !! key with
    | Some _ => (Err Replayed, (st, w))
    | None =>
        let st := {| seen := <[key := now]> (seen st) |} in
        (Ok (), (st, persist g st w))
    end.

(** ** Theory *)

(** A presentation of evidence to the guard at some time. *)
Record attempt := mkAttempt { a_nonce : bytes; a_timestamp : N; a_now : N }.

Fixpoint attempts (g : ReplayGuard) (l : list attempt) (s : SeenState * World)
    : list (result ReplayError unit) * (SeenState * World) :=
  match l with
  | [] => ([], s)
  | a :: l =>
      let '(r, s) := check_and_record_at g (a_nonce a) (a_timestamp a) (a_now a) s in
      let '(rs, s) := attempts g l s in (r :: rs, s)
  end.

(** What acceptance says about the timestamp, and what it records. *)
Lemma check_ok g nonce ts now st w st' w' :
  check_and_record_at g nonce ts now (st, w) = (Ok (), (st', w')) →
  now - rg_ttl_secs g ≤ ts ∧ ts ≤ sat_add64 now (rg_future_skew_secs g) ∧
  (∀ at_, seen st !! hex_encode nonce = Some at_ → at_ < now - rg_ttl_secs g) ∧
  seen st' !! hex_encode nonce = Some now.
Proof.
  unfold check_and_record_at, floor. destruct (_ || _) eqn:E; [done|].
  apply orb_false_iff in E as [E1%N.ltb_ge E2%N.ltb_ge].
  destruct (seen (prune _ st) !! _) eqn:Es; [done|]. intros [= <- _]. simpl.
  split_and!; [done|done| |by rewrite lookup_insert_eq].
  intros at_ Ha. apply map_lookup_filter_None in Es as [Es|Es]; [congruence|].
  specialize (Es _ Ha). simpl in Es. lia.
Qed.

(** A nonce stays on record for [ttl] seconds, whatever happens meanwhile. *)
Lemma check_keeps g nonce ts now st w r st' w' k t :
  check_and_record_at g nonce ts now (st, w) = (r, (st', w')) →
  seen st !! k = Some t → now ≤ t + rg_ttl_secs g → seen st' !! k = Some t.
Proof.
  unfold check_and_record_at, floor. intros H Hk Hn.
  assert (seen (prune (now - rg_ttl_secs g) st) !! k = Some t) as Hp.
  { simpl. apply map_lookup_filter_Some. split; [done|simpl; lia]. }
  destruct (_ || _); [congruence|].
  destruct (seen (prune _ st) !! hex_encode nonce) eqn:Es; [congruence|].
  injection H as <- <- <-. simpl in *. rewrite lookup_insert_ne; [done|congruence].
Qed.

Definition in_order (l : list attempt) : Prop := StronglySorted (λ a b, a_now a ≤ a_now b) l.

Lemma attempts_fresh g l s j a :
  l !! j = Some a → (attempts g l s).1 !! j = Some (Ok ()) → a_now a - rg_ttl_secs g ≤ a_timestamp a.
Proof.
  revert s j. induction l as [|b l IH]; intros s j; [done|]. simpl.
  destruct (check_and_record_at g _ _ _ s) as [r s1] eqn:E1.
  destruct (attempts g l s1) as [rs s2] eqn:E2. destruct j as [|j]; simpl.
  - intros [= ->] [= ->]. destruct s as [st w], s1 as [st1 w1]. by apply check_ok in E1 as [? _].
  - intros Hj Hr. apply (IH s1 j); [done|by rewrite E2].
Qed.

Lemma attempts_no_reuse g l st w n t j a :
  seen st !! hex_encode n = Some t → in_order l →
  l !! j = Some a → a_nonce a = n → (attempts g l (st, w)).1 !! j = Some (Ok ()) →
  t + rg_ttl_secs g < a_now a.
Proof.
  revert st w j. induction l as [|b l IH]; intros st w j Hs Hl; [done|].
  apply StronglySorted_inv in Hl as [Hl Hb]. cbn [attempts].
  destruct (check_and_record_at g _ _ _ (st, w)) as [r [st1 w1]] eqn:E1.
  destruct (attempts g l (st1, w1)) as [rs s2] eqn:E2. destruct j as [|j]; simpl.
  - intros [= ->] <- [= ->]. apply check_ok in E1 as (_ & _ & H & _). specialize (H t Hs). lia.
  - intros Hj Hn Hr. destruct (N.le_gt_cases (a_now b) (t + rg_ttl_secs g)) as [Hle|Hgt].
    + apply (IH st1 w1 j); [by eapply check_keeps|done..|by rewrite E2].
    + rewrite Forall_forall in Hb. specialize (Hb a (list_elem_of_lookup_2 _ _ _ Hj)). lia.
Qed.

(** C26. The guard's guarantee: in any sequence of presentations made in the
    order of time, two accepted ones with the same nonce are more than [ttl]
    seconds apart; and if they are the same evidence (same nonce and same attested
    timestamp), the timestamp was in the future when it was first accepted.  In
    particular evidence that is not post-dated is accepted at most once, ever. *)
Theorem replay_guard_guarantee (g : ReplayGuard) (l : list attempt) (s : SeenState * World)
    (i j : nat) (a b : attempt) :
  in_order l → (i < j)%nat → l !! i = Some a → l !! j = Some b → a_nonce a = a_nonce b →
  (attempts g l s).1 !! i = Some (Ok ()) → (attempts g l s).1 !! j = Some (Ok ()) →
  a_now a + rg_ttl_secs g < a_now b ∧
  (a_timestamp a = a_timestamp b → a_now a < a_timestamp a).
Proof.
  intros Hl Hij Hi Hj Hn Ri Rj.
  assert (a_now b - rg_ttl_secs g ≤ a_timestamp b) as Hfresh by (by eapply attempts_fresh).
  enough (a_now a + rg_ttl_secs g < a_now b) by (split; [done|lia]). clear Hfresh.
  revert s i j Hl Hij Hi Hj Ri Rj. induction l as [|c l IH]; intros s i j Hl Hij Hi Hj; [done|].
  apply StronglySorted_inv in Hl as [Hl Hc]. destruct j as [|j]; [lia|]. simpl.
  destruct (check_and_record_at g _ _ _ s) as [r [st1 w1]] eqn:E1.
  destruct (attempts g l (st1, w1)) as [rs s2] eqn:E2. destruct i as [|i]; simpl.
  - injection Hi as ->. intros [= ->] Rj. destruct s as [st w].
    apply check_ok in E1 as (_ & _ & _ & Hrec).
    eapply (attempts_no_reuse g l st1 w1 (a_nonce a)); [done|done|done|done|by rewrite E2].
  - intros Ri Rj. apply (IH (st1, w1) i j); [done|lia|done|done|by rewrite E2..].
Qed.

(** Retention is too short for post-dated evidence: evidence accepted with
    a timestamp up to the allowed skew ahead is accepted a second time, unchanged,
    as soon as its record is pruned, while its timestamp still counts as fresh. *)
Lemma post_dated_replay_accepted (g : ReplayGuard) (nonce : bytes) (t0 d : N) (w : World) :
  0 < d → d ≤ rg_future_skew_secs g → t0 + rg_ttl_secs g + 1 + rg_future_skew_secs g ≤ u64_max →
  (attempts g [mkAttempt nonce (t0 + d) t0; mkAttempt nonce (t0 + d) (t0 + rg_ttl_secs g + 1)]
     (seen_default, w)).1 = [Ok (); Ok ()].
Proof.
  intros Hd Hs Hmax. cbn [attempts a_nonce a_timestamp a_now].
  unfold check_and_record_at at 1, floor.
  rewrite sat_add64_exact by lia.
  destruct (N.ltb_spec (t0 + d) (t0 - rg_ttl_secs g)); [lia|].
  destruct (N.ltb_spec (t0 + rg_future_skew_secs g) (t0 + d)); [lia|]. cbn [orb].
  assert (seen (prune (t0 - rg_ttl_secs g) seen_default) = ∅) as E1 by apply map_filter_empty.
  rewrite E1, lookup_empty. unfold check_and_record_at, floor.
  rewrite sat_add64_exact by lia.
  destruct (N.ltb_spec (t0 + d) (t0 + rg_ttl_secs g + 1 - rg_ttl_secs g)); [lia|].
  destruct (N.ltb_spec (t0 + rg_ttl_secs g + 1 + rg_future_skew_secs g) (t0 + d)); [lia|]. cbn [orb].
  assert (seen (prune (t0 + rg_ttl_secs g + 1 - rg_ttl_secs g)
    {| seen := <[hex_encode nonce := t0]> ∅ |}) !! hex_encode nonce = None) as E2.
  { simpl. apply map_lookup_filter_None. right. intros x. rewrite lookup_insert_eq. intros [= <-]. simpl. lia. }
  by rewrite E2.
Qed.

(** Accepted nonces survive a restart: when the files can be written, a
    guard opened again on the same path starts with exactly the state after the
    last accepted presentation. *)
Lemma guard_survives_restart (g : ReplayGuard) (nonce : bytes) (ts now : N) (st st' : SeenState) (w w' : World) :
  with_extension (rg_path g) "tmp" ≠ rg_path g → w_sched w = [] →
  check_and_record_at g nonce ts now (st, w) = (Ok (), (st', w')) →
  ∃ g', guard_open (rg_path g) (rg_ttl_secs g) w' = ((g', st'), w') ∧ rg_ttl_secs g' = rg_ttl_secs g.
Proof.
  intros Hne Hs. unfold check_and_record_at. destruct (_ || _); [done|].
  destruct (seen (prune _ st) !! _); [done|]. intros [= <- <-].
  set (st1 := {| seen := _ |}). unfold persist. rewrite create_dir_all_calm by done.
  unfold write. rewrite next_calm by done.
  unfold rename. rewrite io_calm by done. cbn [w_files set_files].
  rewrite lookup_insert_eq. cbn [fst snd]. unfold guard_open.
  rewrite (read_calm _ (to_vec st1)); [|done|simpl; by rewrite lookup_insert_eq].
  rewrite from_slice_to_vec. simpl. eauto.
Qed.
End replay.

Global Instance SeenState_eq_dec : EqDecision SeenState.
Proof. solve_decision. Defined.
Lemma seen_eta st : Some (mkSeen (seen st)) = Some st.
Proof. by destruct st. Qed.
Global Instance SeenState_countable : Countable SeenState :=
  inj_countable seen (λ m, Some (mkSeen m)) seen_eta.

Section witnesses.
#[local] Existing Instance toy_rng.
#[local] Existing Instance toy_hex.
#[local] Existing Instance toy_serde.

Definition toy_guard : ReplayGuard :=
  {| rg_path := ["data"; "replay.json"]; rg_ttl_secs := 300; rg_future_skew_secs := DEFAULT_FUTURE_SKEW |}.
Definition toy_disk : World := {| w_files := ∅; w_sched := []; w_gen := 0 |}.
Definition toy_attempts : list attempt :=
  [mkAttempt [x01] 1000 1000; mkAttempt [x01] 1000 1200; mkAttempt [x02] 1250 1250; mkAttempt [x01] 1310 1301].

Lemma replay_guard_guarantee_witness :
  (attempts toy_guard toy_attempts (seen_default, toy_disk)).1 = [Ok (); Err Replayed; Ok (); Ok ()] ∧
  1000 + 300 < 1301.
Proof.
  split; [vm_refl|].
  apply (replay_guard_guarantee toy_guard toy_attempts (seen_default, toy_disk) 0 3
    (mkAttempt [x01] 1000 1000) (mkAttempt [x01] 1310 1301)); [|lia|vm_refl..].
  repeat constructor; simpl; lia.
Defined.

Lemma post_dated_replay_accepted_witness :
  (attempts toy_guard [mkAttempt [x01] 1060 1000; mkAttempt [x01] 1060 1301] (seen_default, toy_disk)).1 =
  [Ok (); Ok ()].
Proof. apply (post_dated_replay_accepted toy_guard [x01] 1000 60 toy_disk); vm_decide. Defined.

Definition toy_checked : SeenState * World :=
  (check_and_record_at toy_guard [x01] 1000 1000 (seen_default, toy_disk)).2.

Lemma guard_survives_restart_witness :
  ∃ g', guard_open ["data"; "replay.json"] 300 toy_checked.2 = ((g', toy_checked.1), toy_checked.2) ∧
    rg_ttl_secs g' = 300.
Proof.
  apply (guard_survives_restart toy_guard [x01] 1000 1000 seen_default toy_checked.1 toy_disk);
    [vm_decide|vm_refl|vm_refl].
Defined.

(** When the state cannot be written, the presentation is accepted all the
    same, and a restart forgets it. *)
Example failed_persist_forgets :
  let w := {| w_files := ∅; w_sched := [Fine; Fail]; w_gen := 0 |} in
  let '(r, (st, w)) := check_and_record_at toy_guard [x01] 1000 1000 (seen_default, w) in
  let '((g, st'), w) := guard_open (rg_path toy_guard) 300 w in
  r = Ok () ∧ (check_and_record_at g [x01] 1000 1001 (st', w)).1 = Ok ().
Proof. vm_compute. done. Qed.
End witnesses.
