(* ===== verification/KeyBroker.v ===== *)
(** [crates/secgit-keybroker/src/lib.rs] and [trustee.rs]: release of a key
    encryption key to attested code.

    The state is that of the replay guard together with the world (files and
    random generator); the clocks of guest and broker are arguments. *)

From S2P Require Import Prelude Text Backend Toy Envelope Primitives Aead Kem Fs Attest Replay Vcek.

Inductive BrokerError :=
| BrokerAttestation (e : AttestError)
| BrokerCrypto (e : CryptoError)
| UnknownResource (id : string)
| PolicyDenied (id : string)
| NotConfigured (why : string)
| BrokerMalformed (why : string)
| BrokerReplay
| StaleEvidence.

Record ReleaseRequest := mkRequest {
  rq_resource_id : string;
  rq_evidence : Evidence;
  rq_runtime_pubkey : bytes;
  rq_nonce : bytes;
  rq_timestamp : N;
}.

Record ReleaseResponse := mkResponse { rs_wrapped : bytes }.

(** ** [trustee.rs] *)

Record TrusteeConfig := mkTrustee { kbs_url : string; drivers : list string }.

Definition trustee_new (url : string) : TrusteeConfig := {| kbs_url := url; drivers := ["snp"; "tdx"] |}.

Definition str_contains (hay needle : string) : bool := contains_sub (as_bytes needle) (as_bytes hay).

Fixpoint check_drivers (ds : list string) : result string unit :=
  match ds with
  | [] => Ok ()
  | d :: ds =>
      if str_contains d "az-" || str_contains d "vtpm" || str_contains d "maa"
      then Err "cloud-specific attestation driver is forbidden"
      else check_drivers ds
  end.

Definition assert_provider_neutral (c : TrusteeConfig) : result string unit := check_drivers (drivers c).

Record TrusteeKbs := mkTrusteeKbs { tk_config : TrusteeConfig }.
Definition trustee_kbs_new (c : TrusteeConfig) : result string TrusteeKbs :=
  _ ← assert_provider_neutral c; Ok {| tk_config := c |}.

Definition trustee_release (k : TrusteeKbs) (req : ReleaseRequest) : result BrokerError ReleaseResponse :=
  Err (NotConfigured "Trustee KBS HTTP client not wired yet; use LocalKeyBroker for the slice").

Section broker.
Context `{RND : SystemRandom} `{DIG : Digests} `{MAC : Hmacs} `{AB : AeadBackend} `{XK : X25519}
  `{MK : !MlKem} `{HX : Hex} `{SS : Serde SeenState}.

Abbreviation BState := (SeenState * World)%type.

Definition release_report_data (nonce : bytes) (timestamp : N) (runtime_pubkey : bytes) : ReportData :=
  bind (nonce ++ to_le_bytes 8 timestamp) runtime_pubkey.

(** [HashMap<String, SymKey>] behind [KekProvider]. *)
Definition InMemoryKekProvider : Type := gmap string Aead.SymKey.
Definition kek_insert (p : InMemoryKekProvider) (id : string) (k : Aead.SymKey) : InMemoryKekProvider :=
  <[id := k]> p.
Definition get_kek (p : InMemoryKekProvider) (id : string) : option Aead.SymKey := p !! id.

Record LocalKeyBroker := mkBroker {
  lb_verifier : Verifier;
  lb_policy : Policy;
  lb_keks : InMemoryKekProvider;
  lb_replay_guard : option ReplayGuard;
}.

Definition broker_new (v : Verifier) (p : Policy) (k : InMemoryKekProvider) : LocalKeyBroker :=
  {| lb_verifier := v; lb_policy := p; lb_keks := k; lb_replay_guard := None |}.
Definition with_replay_guard (b : LocalKeyBroker) (g : ReplayGuard) : LocalKeyBroker :=
  {| lb_verifier := lb_verifier b; lb_policy := lb_policy b; lb_keks := lb_keks b; lb_replay_guard := Some g |}.

(** A generator step inside the broker's state. *)
Definition crypto {A} (c : eff rng CryptoError A) : eff BState BrokerError A := λ '(st, w),
  let '(r, w) := with_gen (eff_map_err BrokerCrypto c) w in (r, (st, w)).

Definition replay_error (e : ReplayError) : BrokerError :=
  match e with Replayed => BrokerReplay | Stale => StaleEvidence end.

Definition release (b : LocalKeyBroker) (now : N) (req : ReleaseRequest)
    : eff BState BrokerError ReleaseResponse :=
  let expected := release_report_data (rq_nonce req) (rq_timestamp req) (rq_runtime_pubkey req) in
  _ ← lift (map_err BrokerAttestation (vf_verify (lb_verifier b) (rq_evidence req) expected (lb_policy b)));
  _ ← match lb_replay_guard b with
      | Some g => eff_map_err replay_error (check_and_record_at g (rq_nonce req) (rq_timestamp req) now)
      | None => mret ()
      end;
  kek ← lift (ok_or (UnknownResource (rq_resource_id req)) (get_kek (lb_keks b) (rq_resource_id req)));
  recipient ← lift (map_err (λ _, BrokerMalformed "bad runtime_pubkey") (Kem.from_bytes (rq_runtime_pubkey req)));
  wrapped ← crypto (Kem.seal_to recipient kek);
  mret {| rs_wrapped := wrapped |}.

(** The [KeyRelease] trait. *)
Definition KeyRelease : Type := ReleaseRequest → eff BState BrokerError ReleaseResponse.

Definition attest_and_unwrap (resource_id : string) (attester : Attester) (broker : KeyRelease)
    (timestamp : N) : eff BState BrokerError Aead.SymKey :=
  kp ← crypto Kem.generate;
  let runtime_pubkey := Kem.to_bytes (Kem.public kp) in
  nonce ← crypto (random_vec 32);
  let report_data := release_report_data nonce timestamp runtime_pubkey in
  evidence ← lift (map_err BrokerAttestation (get_evidence attester report_data));
  resp ← broker {| rq_resource_id := resource_id; rq_evidence := evidence;
                   rq_runtime_pubkey := runtime_pubkey; rq_nonce := nonce; rq_timestamp := timestamp |};
  kek_bytes ← lift (map_err BrokerCrypto (Kem.open kp (rs_wrapped resp)));
  if negb (Nat.eqb (length kek_bytes) 32) then throw (BrokerMalformed "released KEK wrong length")
  else mret kek_bytes.

(** ** Theory *)

Lemma crypto_inv {A} (c : eff rng CryptoError A) st w r st' w' :
  crypto c (st, w) = (r, (st', w')) →
  st' = st ∧ ∃ r0 g, c (w_gen w) = (r0, g) ∧ r = map_err BrokerCrypto r0 ∧
    w' = {| w_files := w_files w; w_sched := w_sched w; w_gen := g |}.
Proof.
  unfold crypto, with_gen, eff_map_err. destruct (c (w_gen w)) as [r0 g]. intros [= <- <- <-]. eauto 10.
Qed.

(** The release gate, exactly. *)
Lemma release_iff (b : LocalKeyBroker) (now : N) (req : ReleaseRequest)
    (st st' : SeenState) (w w' : World) (resp : ReleaseResponse) :
  release b now req (st, w) = (Ok resp, (st', w')) ↔
  ∃ claims w1 kek recipient g,
    vf_verify (lb_verifier b) (rq_evidence req)
      (release_report_data (rq_nonce req) (rq_timestamp req) (rq_runtime_pubkey req)) (lb_policy b) = Ok claims ∧
    match lb_replay_guard b with
    | Some rg => check_and_record_at rg (rq_nonce req) (rq_timestamp req) now (st, w) = (Ok (), (st', w1))
    | None => st' = st ∧ w1 = w
    end ∧
    get_kek (lb_keks b) (rq_resource_id req) = Some kek ∧
    Kem.from_bytes (rq_runtime_pubkey req) = Ok recipient ∧
    Kem.seal_to recipient kek (w_gen w1) = (Ok (rs_wrapped resp), g) ∧
    w' = {| w_files := w_files w1; w_sched := w_sched w1; w_gen := g |}.
Proof.
  unfold release, mbind, eff_mbind, lift. split.
  - destruct (vf_verify _ _ _ _) as [claims|] eqn:Ev; [|done]. cbn [map_err].
    destruct (match lb_replay_guard b with Some _ => _ | None => _ end) as [[[]|] [st1 w1]] eqn:Eg; [|done].
    destruct (get_kek (lb_keks b) (rq_resource_id req)) as [kek|] eqn:Ek; [|done]. cbn [ok_or].
    destruct (Kem.from_bytes _) as [rec|] eqn:Ep; [|done]. cbn [map_err].
    destruct (crypto _ (st1, w1)) as [[wr|] [st2 w2]] eqn:Es; [|done].
    intros [= <- <- <-]. apply crypto_inv in Es as (-> & r0 & g & Hs & Hr & ->).
    destruct r0 as [wr'|]; [|done]. injection Hr as <-.
    exists claims, w1, kek, rec, g. split_and!; try done.
    destruct (lb_replay_guard b) as [rg|]; [|by injection Eg as <- <-].
    unfold eff_map_err in Eg. destruct (check_and_record_at rg _ _ _ _) as [[[]|] [st2 w2]]; [|done].
    by injection Eg as <- <-.
  - intros (claims & w1 & kek & rec & g & -> & Hg & -> & -> & Hs & ->). cbn [map_err ok_or].
    assert (match lb_replay_guard b with
      | Some g => eff_map_err replay_error (check_and_record_at g (rq_nonce req) (rq_timestamp req) now)
      | None => mret () end (st, w) = (@Ok BrokerError _ (), (st', w1))) as ->.
    { destruct (lb_replay_guard b) as [rg|]; [|by destruct Hg as [-> ->]].
      unfold eff_map_err. by rewrite Hg. }
    unfold crypto, with_gen, eff_map_err. rewrite Hs. simpl. by destruct resp.
Qed.

(** Forward direction for a state not taken apart. *)
Lemma release_wrapped b now req s resp s' :
  release b now req s = (Ok resp, s') →
  ∃ kek recipient g g', get_kek (lb_keks b) (rq_resource_id req) = Some kek ∧
    Kem.from_bytes (rq_runtime_pubkey req) = Ok recipient ∧
    Kem.seal_to recipient kek g = (Ok (rs_wrapped resp), g').
Proof.
  unfold release, mbind, eff_mbind, lift.
  destruct (vf_verify _ _ _ _) as [claims|]; [|done]. cbn [map_err].
  destruct (match lb_replay_guard b with Some _ => _ | None => _ end) as [[[]|] [st1 w1]]; [|done].
  destruct (get_kek (lb_keks b) (rq_resource_id req)) as [kek|]; [|done]. cbn [ok_or].
  destruct (Kem.from_bytes _) as [rec|]; [|done]. cbn [map_err].
  destruct (crypto _ (st1, w1)) as [[wr|] [st2 w2]] eqn:Es; [|done]. intros [= <- _].
  apply crypto_inv in Es as (_ & r0 & g & Hs & Hr & _). destruct r0 as [wr'|]; [|done].
  injection Hr as <-. eauto 10.
Qed.

Lemma public_parses kp : Kem.kp_wf kp → Kem.from_bytes (Kem.to_bytes (Kem.public kp)) = Ok (Kem.public kp).
Proof.
  intros [Hx Hek]. apply Kem.from_to_bytes; simpl.
  - rewrite Hx. apply x_public_len.
  - by eapply kem_ek_len.
Qed.

(** The guest flow, exactly. *)
Lemma attest_and_unwrap_iff (id : string) (attester : Attester) (b : LocalKeyBroker)
    (ts now : N) (s s' : BState) (k : Aead.SymKey) :
  attest_and_unwrap id attester (release b now) ts s = (Ok k, s') ↔
  ∃ kp s1 nonce s2 ev resp,
    crypto Kem.generate s = (Ok kp, s1) ∧ crypto (random_vec 32) s1 = (Ok nonce, s2) ∧
    let pk := Kem.to_bytes (Kem.public kp) in
    get_evidence attester (release_report_data nonce ts pk) = Ok ev ∧
    release b now {| rq_resource_id := id; rq_evidence := ev; rq_runtime_pubkey := pk; rq_nonce := nonce;
                     rq_timestamp := ts |} s2 = (Ok resp, s') ∧
    get_kek (lb_keks b) id = Some k ∧ Aead.key_wf k.
Proof.
  assert (∀ kp s1 resp req s2 s3, crypto Kem.generate s = (Ok kp, s1) →
    release b now req s2 = (Ok resp, s3) → rq_runtime_pubkey req = Kem.to_bytes (Kem.public kp) →
    ∃ kek, get_kek (lb_keks b) (rq_resource_id req) = Some kek ∧ Kem.open kp (rs_wrapped resp) = Ok kek) as Hopen.
  { intros kp s1 resp req s2 s3 E1 E3 Hpk. destruct s as [st w], s1 as [st1 w1].
    apply crypto_inv in E1 as (_ & r1 & g1 & Hg & Hr1 & _). destruct r1 as [kp'|]; [|done].
    injection Hr1 as ->. apply Kem.generate_wf in Hg.
    apply release_wrapped in E3 as (kek & rec & g & g' & Hk & Hp & Hs).
    rewrite Hpk, (public_parses kp' Hg) in Hp. injection Hp as <-.
    exists kek. split; [done|]. by eapply Kem.open_seal_to. }
  unfold attest_and_unwrap, mbind, eff_mbind, lift. split.
  - destruct (crypto Kem.generate s) as [[kp|] s1] eqn:E1; [|done].
    destruct (crypto (random_vec 32) s1) as [[nonce|] s2] eqn:E2; [|done].
    destruct (get_evidence attester _) as [ev|] eqn:Ee; [|done]. cbn [map_err].
    destruct (release b now _ s2) as [[resp|] s3] eqn:E3; [|done].
    destruct (Hopen _ _ _ _ _ _ eq_refl E3 eq_refl) as (kek & Hk & ->). cbn [map_err].
    destruct (Nat.eqb_spec (length kek) 32); [|done]. cbn [negb]. intros [= <- <-].
    exists kp, s1, nonce, s2, ev, resp. by split_and!.
  - intros (kp & s1 & nonce & s2 & ev & resp & E1 & E2 & Ee & E3 & Hk & Hw).
    destruct (Hopen _ _ _ _ _ _ E1 E3 eq_refl) as (kek & Hk' & Ho). cbn [rq_resource_id] in Hk'.
    rewrite Hk in Hk'. injection Hk' as <-. rewrite E1, E2, Ee. cbn [map_err]. rewrite E3, Ho. cbn [map_err].
    by rewrite Hw.
Qed.

(** C30. The flow end to end, exactly: with any attester and verifier,
    [attest_and_unwrap] hands the guest a key if and only if the key pair and the
    nonce could be drawn, the attester produced evidence for the binding of that
    nonce, the timestamp and that public key, and the broker released for it; and
    the key is then the 32-byte key the broker holds for the resource. *)
Theorem attest_and_unwrap_correct (id : string) (attester : Attester) (b : LocalKeyBroker)
    (ts now : N) (s s' : BState) (k : Aead.SymKey) :
  attest_and_unwrap id attester (release b now) ts s = (Ok k, s') ↔
  ∃ kp s1 nonce s2 ev resp,
    crypto Kem.generate s = (Ok kp, s1) ∧ crypto (random_vec 32) s1 = (Ok nonce, s2) ∧
    let pk := Kem.to_bytes (Kem.public kp) in
    get_evidence attester (release_report_data nonce ts pk) = Ok ev ∧
    release b now {| rq_resource_id := id; rq_evidence := ev; rq_runtime_pubkey := pk; rq_nonce := nonce;
                     rq_timestamp := ts |} s2 = (Ok resp, s') ∧
    get_kek (lb_keks b) id = Some k ∧ Aead.key_wf k.
Proof. apply attest_and_unwrap_iff. Qed.

(** What the attested binding binds: for nonces of one length (the guest
    always uses 32 bytes), equal report data means equal nonce, timestamp and
    public key, unless SHA-512 collides on the two inputs. *)
Lemma release_report_data_binds (n1 n2 : bytes) (t1 t2 : N) (p1 p2 : bytes) :
  length n1 = length n2 → t1 ≤ u64_max → t2 ≤ u64_max →
  coll_free digest_sha512 [(n1 ++ to_le_bytes 8 t1) ++ p1; (n2 ++ to_le_bytes 8 t2) ++ p2] →
  release_report_data n1 t1 p1 = release_report_data n2 t2 p2 → n1 = n2 ∧ t1 = t2 ∧ p1 = p2.
Proof.
  intros Hl H1 H2 Hcf E. unfold release_report_data, bind in E.
  apply Hcf in E; [|left|right; left]. rewrite <-!app_assoc in E.
  apply app_inj_len in E as [-> E]; [|done].
  apply app_inj_len in E as [E ->]; [|len_lia].
  apply to_le_bytes_inj in E; [done|unfold u64_max in *; simpl; lia..].
Qed.

(** Without the length condition it does not bind: the boundary between nonce
    and timestamp is not part of the hashed bytes. *)
Lemma release_report_data_ambiguous nonce b p :
  release_report_data (nonce ++ [b]) 0 p = release_report_data nonce (Byte.to_N b) (x00 :: p).
Proof.
  unfold release_report_data, bind. f_equal.
  assert (to_le_bytes 8 (Byte.to_N b) = [b] ++ repeat x00 7) as -> by (by destruct b).
  rewrite <-!app_assoc. f_equal.
Qed.
End broker.

(** ** Provider neutrality *)

Lemma contains_sub_spec needle hay : contains_sub needle hay = true ↔ ∃ a b, hay = a ++ needle ++ b.
Proof.
  split.
  - induction hay as [|c hay IH]; simpl.
    + rewrite orb_false_r. intros E%bool_decide_eq_true. rewrite take_nil in E. subst. by exists [], [].
    + intros [E|E]%orb_true_iff.
      * apply bool_decide_eq_true in E. exists [], (drop (length needle) (c :: hay)).
        rewrite <-E at 1. simpl. by rewrite take_drop.
      * destruct (IH E) as (a & b & ->). by exists (c :: a), b.
  - intros (a & b & ->). induction a as [|c a IH].
    + cbn [app]. destruct (needle ++ b) as [|x l] eqn:El; cbn [contains_sub]; apply orb_true_iff; left;
        apply bool_decide_eq_true; rewrite <-El; apply take_app_length.
    + cbn [app contains_sub]. apply orb_true_iff. by right.
Qed.

(** A driver list is accepted exactly when no driver mentions a cloud-specific
    attestation facility. *)
Lemma provider_neutral_spec c :
  assert_provider_neutral c = Ok () ↔
  ∀ d s, d ∈ drivers c → s ∈ ["az-"; "vtpm"; "maa"] → str_contains d s = false.
Proof.
  unfold assert_provider_neutral. induction (drivers c) as [|d ds IH]; simpl.
  { split; [|done]. by intros _ ? ? ?%not_elem_of_nil. }
  destruct (str_contains d "az-" || str_contains d "vtpm" || str_contains d "maa") eqn:E.
  - split; [done|]. intros H. apply orb_true_iff in E as [[E|E]%orb_true_iff|E];
      (rewrite H in E; [done|left|vm_decide]).
  - apply orb_false_iff in E as [[E1 E2]%orb_false_iff E3]. rewrite IH. split.
    + intros H d' s [->|Hd]%elem_of_cons Hs; [|by apply H].
      rewrite !elem_of_cons, elem_of_nil in Hs. destruct Hs as [->|[->|[->|[]]]]; done.
    + intros H d' s Hd. apply H. by right.
Qed.

Section witnesses.
#[local] Existing Instance toy_rng.
#[local] Existing Instance toy_digests.
#[local] Existing Instance toy_hmacs.
#[local] Existing Instance toy_aead.
#[local] Existing Instance toy_x25519.
#[local] Existing Instance toy_mlkem.
#[local] Existing Instance toy_hex.
#[local] Existing Instance toy_serde.

Definition toy_broker : LocalKeyBroker :=
  with_replay_guard
    (broker_new mock_verifier dev_permissive (kek_insert ∅ "kek/default" (to_le_bytes 32 4242))) toy_guard.

Definition toy_flow := attest_and_unwrap "kek/default" (mock_attester MOCK_MEASUREMENT)
  (release toy_broker 1000) 1000 (seen_default, toy_disk).

Lemma attest_and_unwrap_correct_witness :
  toy_flow.1 = Ok (to_le_bytes 32 4242) ∧
  get_kek (lb_keks toy_broker) "kek/default" = Some (to_le_bytes 32 4242).
Proof.
  split; [vm_refl|].
  assert (toy_flow = (Ok (to_le_bytes 32 4242), toy_flow.2)) as E by vm_refl.
  apply (attest_and_unwrap_correct "kek/default" (mock_attester MOCK_MEASUREMENT) toy_broker 1000 1000
    (seen_default, toy_disk) toy_flow.2 (to_le_bytes 32 4242)) in E as (kp & s1 & nonce & s2 & ev & resp & H).
  apply H.
Defined.

Lemma release_report_data_binds_witness :
  [x01] = [x01] ∧ 7 = 7 ∧ [x09; x09] = [x09; x09].
Proof.
  apply (release_report_data_binds [x01] [x01] 7 7 [x09; x09] [x09; x09]).
  - reflexivity.
  - vm_decide.
  - vm_decide.
  - apply coll_freeb_spec. vm_refl.
  - reflexivity.
Defined.
End witnesses.
