(* ===== verification/Search.v ===== *)
(** [crates/secgit-search/src/lib.rs]: the inverted index over the encrypted
    store, and the search that uses it.

    The index keeps, per repository, one object per token (the paths of the
    documents that contain it), one per document (its tokens) and the list of
    documents.  Everything is stated against the interface [ObjectStore]. *)

From S2P Require Import Prelude Text BTree Backend Toy ObjectStore.

Inductive SearchError := SearchStorage | SearchSerde.

Record SearchHit := mkHit { sh_repo_id : string; sh_path : string; sh_line : N; sh_snippet : bytes }.

Definition tok_key (tok : string) : string := "tok/" +:+ tok.
Definition doc_key (path : string) : string := "doc/" +:+ path.

(** [str::to_lowercase]: the Unicode tables; on ASCII text it is the ASCII map. *)
Class UnicodeLower := {
  to_lowercase : bytes → bytes;
  to_lowercase_ascii : ∀ bs, ascii_text bs → to_lowercase bs = lower_byte <$> bs;
}.

Definition word_char (b : byte) : bool := is_ascii_alphanumeric b || bool_decide (b = x5f).

(** The loop of [tokenize]: the tokens so far and the current one. *)
Fixpoint tokenize_loop (text : bytes) (out : list string) (cur : bytes) : list string :=
  let flush := if (2 <=? length cur)%nat then bt_insert (string_of_list_byte cur) out else out in
  match text with
  | [] => flush
  | c :: text =>
      if word_char c then tokenize_loop text out (cur ++ [lower_byte c])
      else tokenize_loop text flush []
  end.
Definition tokenize (text : bytes) : list string := tokenize_loop text [] [].

Section index.
Context {St Er : Type} `{OS : ObjectStore St Er} `{SI : Serde (list string)}.

Definition stor {A} (c : eff St Er A) : eff St SearchError A := eff_map_err (λ _, SearchStorage) c.

Definition si_put (repo_id key : string) (v : list string) : eff St SearchError unit :=
  stor (os_put repo_id key (to_vec v)).

Definition si_get (repo_id key : string) : eff St SearchError (option (list string)) :=
  o ← stor (os_get repo_id key);
  match o with
  | Some b => v ← lift (ok_or SearchSerde (from_slice b)); mret (Some v)
  | None => mret None
  end.

(** One iteration of the loop of [remove_document]. *)
Definition remove_posting (repo_id path tok : string) : eff St SearchError unit :=
  o ← si_get repo_id (tok_key tok);
  match o with
  | Some postings => si_put repo_id (tok_key tok) (filter (λ p, p ≠ path) postings)
  | None => mret ()
  end.

(** [docs.retain(|p| p != path)], on the stored list. *)
Definition forget_doc (repo_id path : string) : eff St SearchError unit :=
  docs ← si_get repo_id "docs";
  si_put repo_id "docs" (filter (λ p, p ≠ path) (default [] docs)).

Definition remove_document (repo_id path : string) : eff St SearchError unit :=
  o ← si_get repo_id (doc_key path);
  match o with
  | None => mret ()
  | Some doc_tokens =>
      _ ← eff_iter (remove_posting repo_id path) doc_tokens;
      _ ← stor (os_delete repo_id (doc_key path));
      forget_doc repo_id path
  end.

(** [if !l.iter().any(|p| p == path) { l.push(path); put(key, l)?; }]. *)
Definition add_path (repo_id key path : string) : eff St SearchError unit :=
  o ← si_get repo_id key;
  let l := default [] o in
  if negb (contains path l) then si_put repo_id key (l ++ [path]) else mret ().

Definition index_document (repo_id path : string) (content : bytes) : eff St SearchError unit :=
  _ ← remove_document repo_id path;
  let tokens := tokenize content in
  _ ← eff_iter (λ tok, add_path repo_id (tok_key tok) path) tokens;
  _ ← si_put repo_id (doc_key path) tokens;
  add_path repo_id "docs" path.

Definition documents (repo_id : string) : eff St SearchError (list string) :=
  o ← si_get repo_id "docs"; mret (default [] o).

(** The loop over the terms; [None] is the early return with no hit. *)
Fixpoint candidates_loop (repo_id : string) (terms : list string) (candidates : option (list string))
    : eff St SearchError (option (list string)) :=
  match terms with
  | [] => mret (Some (default [] candidates))
  | term :: terms =>
      o ← si_get repo_id (tok_key term);
      let set := bt_collect (default [] o) in
      let c := match candidates with None => set | Some cur => bt_inter cur set end in
      match c with
      | [] => mret None
      | _ => candidates_loop repo_id terms (Some c)
      end
  end.

Context `{UL : UnicodeLower}.

(** The loop over the lines of one document, from line [i + 1] on; the flag says
    that [max_hits] was reached, which ends the search. *)
Fixpoint lines_loop (repo_id path : string) (needle_terms : list string) (max_hits i : N)
    (ls : list bytes) (hits : list SearchHit) : list SearchHit * bool :=
  match ls with
  | [] => (hits, false)
  | line :: ls =>
      let lower := to_lowercase line in
      if forallb (λ t, contains_text lower (as_bytes t)) needle_terms then
        let hits := hits ++ [mkHit repo_id path (i + 1) (take_chars 200 (trim line))] in
        if max_hits <=? lengthN hits then (hits, true)
        else lines_loop repo_id path needle_terms max_hits (i + 1) ls hits
      else lines_loop repo_id path needle_terms max_hits (i + 1) ls hits
  end.

Fixpoint paths_loop (repo_id : string) (needle_terms : list string) (max_hits : N)
    (fetch : string → string → option bytes) (paths : list string) (hits : list SearchHit)
    : list SearchHit :=
  match paths with
  | [] => hits
  | path :: paths =>
      match fetch repo_id path with
      | None => paths_loop repo_id needle_terms max_hits fetch paths hits
      | Some content =>
          let '(hits, stop) := lines_loop repo_id path needle_terms max_hits 0 (lines content) hits in
          if stop then hits else paths_loop repo_id needle_terms max_hits fetch paths hits
      end
  end.

Definition search_repo (repo_id : string) (query : bytes) (max_hits : N)
    (fetch : string → string → option bytes) : eff St SearchError (list SearchHit) :=
  let terms := tokenize query in
  match terms with
  | [] => mret []
  | _ =>
      o ← candidates_loop repo_id terms None;
      match o with
      | None => mret []
      | Some candidates => mret (paths_loop repo_id terms max_hits fetch candidates [])
      end
  end.
End index.

(** ** The index against the documents it was given *)

Section theory.
Context {St Er : Type} `{OS : ObjectStore St Er} `{SI : Serde (list string)}.
Context (r : string) (tokens paths : string → Prop).
(** The identifiers of the run: a repository, its tokens and its paths. *)
Context (Hr : os_id r) (Htok : ∀ t, tokens t → os_id (tok_key t))
  (Hdoc : ∀ p, paths p → os_id (doc_key p)) (Hdocs : os_id "docs").

Abbreviation val s k := (os_value (list string) s r k).

(** The keys of the index. *)
Inductive index_key : string → Prop :=
| ik_tok t : tokens t → index_key (tok_key t)
| ik_doc p : paths p → index_key (doc_key p)
| ik_docs : index_key "docs".

Lemma index_key_id k : index_key k → os_id k.
Proof using Htok Hdoc Hdocs. destruct 1; auto. Qed.

Definition postings (s : St) (t : string) : list string := default [] (val s (tok_key t)).

(** The store's invariant, and every object of the index decodes. *)
Definition readable (s : St) : Prop :=
  os_inv s ∧ ∀ k b, index_key k → os_view s r k = Some b → is_Some (from_slice b : option (list string)).

(** [s'] is [s] with the value at [k] replaced. *)
Definition updated (k : string) (o : option (list string)) (s s' : St) : Prop :=
  readable s' ∧ ∀ k', index_key k' → val s' k' = if bool_decide (k' = k) then o else val s k'.

Definition same_index (s s' : St) : Prop :=
  readable s' ∧ ∀ k, index_key k → val s' k = val s k.

Lemma same_index_refl s : readable s → same_index s s.
Proof. done. Qed.

Lemma si_put_spec k v s res s' :
  index_key k → readable s → si_put r k v s = (res, s') →
  if is_ok res then updated k (Some v) s s' else same_index s s'.
Proof using Hr Htok Hdoc Hdocs.
  intros Hk [I Rd]. unfold si_put, stor, eff_map_err. destruct (os_put r k (to_vec v) s) as [r0 s0] eqn:E.
  destruct (os_put_spec _ _ _ _ _ _ Hr (index_key_id _ Hk) I E) as [I' V].
  assert (∀ k' b, index_key k' → os_view s0 r k' = Some b → is_Some (from_slice b : option (list string))) as Rd'.
  { intros k' b Hk'. rewrite (V r k' Hr (index_key_id _ Hk')).
    destruct (_ && _); [intros [= <-]; rewrite from_slice_to_vec; eauto|by apply Rd]. }
  destruct r0 as [[]|e]; intros [= <- <-]; simpl in *; (split; [by split|]); intros k' Hk';
    unfold os_value; rewrite (V r k' Hr (index_key_id _ Hk')); [|done].
  destruct (decide (k' = k)) as [->|Hne].
  - rewrite !bool_decide_eq_true_2 by done. simpl. by rewrite from_slice_to_vec.
  - by rewrite !bool_decide_eq_false_2 by congruence.
Qed.

Lemma si_get_spec k s res s' :
  index_key k → readable s → si_get r k s = (res, s') →
  same_index s s' ∧ (∀ o, res = Ok o → o = val s k) ∧ (os_calm s → is_ok res = true ∧ os_calm s').
Proof using Hr Htok Hdoc Hdocs.
  intros Hk [I Rd]. unfold si_get, stor, eff_map_err, mbind, eff_mbind.
  destruct (os_get r k s) as [r0 s0] eqn:E.
  destruct (os_get_spec _ _ _ _ _ Hr (index_key_id _ Hk) I E) as (I' & V & Ho).
  assert (same_index s s0) as Sm.
  { split; [split; [done|]|]; [|unfold os_value]; intros k'; [intros b Hk'|intros Hk'];
      rewrite (V r k' Hr (index_key_id _ Hk')); [by apply Rd|done]. }
  assert (os_calm s → is_ok r0 = true ∧ os_calm s0) as Hc.
  { intros C. destruct (os_get_calm r k s Hr (index_key_id _ Hk) I C) as (s1 & E1 & C1).
    rewrite E in E1. by injection E1 as -> ->. }
  destruct r0 as [o|e]; simpl; [|intros [= <- <-]; repeat split; [apply Sm..|done|by apply Hc|by apply Hc]].
  rewrite (Ho o eq_refl). unfold os_value. destruct (os_view s r k) as [b|] eqn:Eb; simpl.
  - destruct (Rd k b Hk Eb) as [v Ev]. rewrite Ev. simpl. intros [= <- <-].
    repeat split; [apply Sm..|congruence|by apply Hc].
  - intros [= <- <-]. repeat split; [apply Sm..|congruence|by apply Hc].
Qed.

Lemma same_index_trans s1 s2 s3 : same_index s1 s2 → same_index s2 s3 → same_index s1 s3.
Proof. intros [_ V1] [R V2]. split; [done|]. intros. rewrite V2 by done. auto. Qed.

Lemma same_updated k o s1 s2 s3 : same_index s1 s2 → updated k o s2 s3 → updated k o s1 s3.
Proof.
  intros [_ V1] [R V2]. split; [done|]. intros k' Hk'. rewrite V2 by done. case_bool_decide; auto.
Qed.

Lemma stor_delete_spec k s res s' :
  index_key k → readable s → stor (os_delete r k) s = (res, s') →
  if is_ok res then updated k None s s' else same_index s s'.
Proof using Hr Htok Hdoc Hdocs.
  intros Hk [I Rd]. unfold stor, eff_map_err. destruct (os_delete r k s) as [r0 s0] eqn:E.
  destruct (os_delete_spec _ _ _ _ _ Hr (index_key_id _ Hk) I E) as [I' V].
  assert (∀ k' b, index_key k' → os_view s0 r k' = Some b → is_Some (from_slice b : option (list string))) as Rd'.
  { intros k' b Hk'. rewrite (V r k' Hr (index_key_id _ Hk')). destruct (_ && _); [done|by apply Rd]. }
  destruct r0 as [[]|e]; intros [= <- <-]; simpl in *; (split; [by split|]); intros k' Hk';
    unfold os_value; rewrite (V r k' Hr (index_key_id _ Hk')); [|done].
  destruct (decide (k' = k)) as [->|Hne].
  - by rewrite !bool_decide_eq_true_2.
  - by rewrite !bool_decide_eq_false_2 by congruence.
Qed.

Lemma add_path_spec k path s res s' :
  index_key k → readable s → add_path r k path s = (res, s') →
  (same_index s s' ∧ (is_ok res = true → path ∈ default [] (val s k))) ∨
  (is_ok res = true ∧ updated k (Some (default [] (val s k) ++ [path])) s s').
Proof using Hr Htok Hdoc Hdocs.
  intros Hk R. unfold add_path, mbind, eff_mbind. destruct (si_get r k s) as [r0 s0] eqn:E0.
  destruct (si_get_spec _ _ _ _ Hk R E0) as (Sm & Ho & _).
  destruct r0 as [o|e]; [|intros [= <- <-]; by left].
  rewrite (Ho o eq_refl). destruct (contains path _) eqn:Hc; simpl.
  { intros [= <- <-]. left. split; [done|]. intros _. by apply bool_decide_eq_true in Hc. }
  intros E1. apply si_put_spec in E1; [|done|apply Sm]. destruct res as [[]|e]; simpl in E1.
  - right. split; [done|]. by eapply same_updated.
  - left. split; [by eapply same_index_trans|done].
Qed.

Lemma remove_posting_spec path tok s res s' :
  tokens tok → readable s → remove_posting r path tok s = (res, s') →
  (same_index s s' ∧ (is_ok res = true → val s (tok_key tok) = None)) ∨
  (is_ok res = true ∧ ∃ l, val s (tok_key tok) = Some l ∧
     updated (tok_key tok) (Some (filter (λ p, p ≠ path) l)) s s').
Proof using Hr Htok Hdoc Hdocs.
  intros Ht R. pose proof (ik_tok _ Ht) as Hk. unfold remove_posting, mbind, eff_mbind.
  destruct (si_get r _ s) as [r0 s0] eqn:E0.
  destruct (si_get_spec _ _ _ _ Hk R E0) as (Sm & Ho & _).
  destruct r0 as [o|e]; [|intros [= <- <-]; by left].
  specialize (Ho o eq_refl). destruct o as [l|]; [|intros [= <- <-]; left; split; [done|by intros _]].
  intros E1. apply si_put_spec in E1; [|done|apply Sm]. destruct res as [[]|e]; simpl in E1.
  - right. split; [done|]. exists l. split; [done|]. by eapply same_updated.
  - left. split; [by eapply same_index_trans|done].
Qed.

(** Only the postings of [path] may change. *)
Record touched (path : string) (s s' : St) : Prop := {
  t_readable : readable s';
  t_others t p : tokens t → p ≠ path → p ∈ postings s' t ↔ p ∈ postings s t;
  t_rest k : index_key k → (∀ t, k ≠ tok_key t) → val s' k = val s k;
}.

Lemma tok_key_inj t t' : tok_key t = tok_key t' → t = t'.
Proof. intros H. injection H. done. Qed.
Lemma doc_key_inj p p' : doc_key p = doc_key p' → p = p'.
Proof. intros H. injection H. done. Qed.
Lemma doc_not_tok p t : doc_key p ≠ tok_key t.
Proof. done. Qed.
Lemma docs_not_tok t : "docs" ≠ tok_key t.
Proof. done. Qed.
Lemma docs_not_doc p : "docs" ≠ doc_key p.
Proof. done. Qed.

Lemma same_touched path s s' : same_index s s' → touched path s s'.
Proof.
  intros [R V]. split; [done| |by intros k Hk _; apply V]. intros t p Ht _. unfold postings.
  by rewrite V by by constructor.
Qed.

Lemma touched_trans path s1 s2 s3 : touched path s1 s2 → touched path s2 s3 → touched path s1 s3.
Proof.
  intros T1 T2. split; [apply T2| |].
  - intros t p Ht Hp. by rewrite (t_others _ _ _ T2), (t_others _ _ _ T1).
  - intros k Hk Hn. by rewrite (t_rest _ _ _ T2), (t_rest _ _ _ T1).
Qed.

Lemma updated_touched path tok l s s' :
  tokens tok → updated (tok_key tok) (Some l) s s' →
  (∀ p, p ≠ path → p ∈ l ↔ p ∈ postings s tok) → touched path s s'.
Proof.
  intros Ht [R V] Hl. split; [done| |].
  - intros t p Ht' Hp. unfold postings. rewrite V by by constructor.
    case_bool_decide as Hd; [|done]. apply tok_key_inj in Hd as ->. by apply Hl.
  - intros k Hk Hn. rewrite V by done. by rewrite bool_decide_eq_false_2.
Qed.

Lemma updated_postings tok l s s' t :
  tokens t → updated (tok_key tok) (Some l) s s' →
  postings s' t = if decide (t = tok) then l else postings s t.
Proof.
  intros Ht [_ V]. unfold postings. rewrite V by by constructor. case_decide as Hd.
  - subst. by rewrite bool_decide_eq_true_2.
  - rewrite bool_decide_eq_false_2; [done|]. by intros ?%tok_key_inj.
Qed.

Lemma add_posting_step path tok s res s' :
  tokens tok → readable s → add_path r (tok_key tok) path s = (res, s') →
  touched path s s' ∧ (is_ok res = true → ∀ t, tokens t →
    path ∈ postings s' t ↔ path ∈ postings s t ∨ t = tok).
Proof using Hr Htok Hdoc Hdocs.
  intros Ht R E. apply add_path_spec in E as [[Sm Hin]|[_ U]]; [| |by constructor|done].
  - split; [by apply same_touched|]. intros Ok t Ht'. unfold postings.
    rewrite (proj2 Sm) by by constructor. split; [by left|]. intros [H| ->]; [done|by apply Hin].
  - split; [eapply updated_touched; [done..|]|].
    + intros p Hp. rewrite elem_of_app, list_elem_of_singleton. unfold postings. intuition.
    + intros _ t Ht'. rewrite (updated_postings _ _ _ _ _ Ht' U).
      case_decide as Hd; [|intuition].
      subst. rewrite elem_of_app, list_elem_of_singleton. unfold postings. intuition.
Qed.

Lemma remove_posting_step path tok s res s' :
  tokens tok → readable s → remove_posting r path tok s = (res, s') →
  touched path s s' ∧ (is_ok res = true → ∀ t, tokens t →
    path ∈ postings s' t ↔ path ∈ postings s t ∧ t ≠ tok).
Proof using Hr Htok Hdoc Hdocs.
  intros Ht R E. apply remove_posting_spec in E as [[Sm Hn]|(_ & l & El & U)]; [| |done..].
  - split; [by apply same_touched|]. intros Ok t Ht'. unfold postings.
    rewrite (proj2 Sm) by by constructor. split; [|by intros []].
    intros H. split; [done|]. intros ->. by rewrite (Hn Ok) in H; apply elem_of_nil in H.
  - split; [eapply updated_touched; [done..|]|].
    + intros p Hp. rewrite list_elem_of_filter. unfold postings. rewrite El. simpl. intuition.
    + intros _ t Ht'. rewrite (updated_postings _ _ _ _ _ Ht' U).
      case_decide as Hd; [|intuition]. rewrite list_elem_of_filter. intuition.
Qed.

Lemma add_loop path toks s res s' :
  Forall tokens toks → readable s →
  eff_iter (λ tok, add_path r (tok_key tok) path) toks s = (res, s') →
  touched path s s' ∧ (is_ok res = true → ∀ t, tokens t →
    path ∈ postings s' t ↔ path ∈ postings s t ∨ t ∈ toks).
Proof using Hr Htok Hdoc Hdocs.
  revert s. induction toks as [|tok toks IH]; intros s F R; simpl.
  { intros [= <- <-]. split; [by apply same_touched|]. intros _ t Ht. rewrite elem_of_nil. intuition. }
  apply Forall_cons in F as [Ht F]. unfold mbind, eff_mbind.
  destruct (add_path r (tok_key tok) path s) as [r0 s0] eqn:E0.
  destruct (add_posting_step _ _ _ _ _ Ht R E0) as [T0 P0].
  destruct r0 as [[]|e]; [|by intros [= <- <-]].
  intros E1. destruct (IH s0 F (t_readable _ _ _ T0) E1) as [T1 P1].
  split; [by eapply touched_trans|]. intros Hok t Ht'. rewrite P1, P0, elem_of_cons by done. intuition.
Qed.

Lemma remove_loop path toks s res s' :
  Forall tokens toks → readable s →
  eff_iter (remove_posting r path) toks s = (res, s') →
  touched path s s' ∧ (is_ok res = true → ∀ t, tokens t →
    path ∈ postings s' t ↔ path ∈ postings s t ∧ t ∉ toks).
Proof using Hr Htok Hdoc Hdocs.
  revert s. induction toks as [|tok toks IH]; intros s F R; simpl.
  { intros [= <- <-]. split; [by apply same_touched|]. intros _ t Ht. rewrite elem_of_nil. intuition. }
  apply Forall_cons in F as [Ht F]. unfold mbind, eff_mbind.
  destruct (remove_posting r path tok s) as [r0 s0] eqn:E0.
  destruct (remove_posting_step _ _ _ _ _ Ht R E0) as [T0 P0].
  destruct r0 as [[]|e]; [|by intros [= <- <-]].
  intros E1. destruct (IH s0 F (t_readable _ _ _ T0) E1) as [T1 P1].
  split; [by eapply touched_trans|]. intros Hok t Ht'. rewrite P1, P0, elem_of_cons by done. intuition.
Qed.

Definition docs_of (s : St) : list string := default [] (val s "docs").

(** An operation on [path] leaves the other documents alone. *)
Record framed (path : string) (s s' : St) : Prop := {
  f_readable : readable s';
  f_post t p : tokens t → p ≠ path → p ∈ postings s' t ↔ p ∈ postings s t;
  f_doc p : paths p → p ≠ path → val s' (doc_key p) = val s (doc_key p);
  f_docs p : p ≠ path → p ∈ docs_of s' ↔ p ∈ docs_of s;
}.

Lemma framed_trans path s1 s2 s3 : framed path s1 s2 → framed path s2 s3 → framed path s1 s3.
Proof.
  intros [_ P1 D1 L1] [R P2 D2 L2]. split; [done| | |].
  - intros t p Ht Hp. by rewrite P2, P1.
  - intros p Hp Hne. by rewrite D2, D1.
  - intros p Hp. by rewrite L2, L1.
Qed.

Lemma touched_framed path s s' :
  touched path s s' → framed path s s' ∧
  (∀ p, paths p → val s' (doc_key p) = val s (doc_key p)) ∧ docs_of s' = docs_of s.
Proof.
  intros [R O V]. assert (∀ p, paths p → val s' (doc_key p) = val s (doc_key p)) as Hd.
  { intros p Hp. apply V; [by constructor|]. intros t. apply doc_not_tok. }
  assert (docs_of s' = docs_of s) as Hl.
  { unfold docs_of. rewrite V; [done|constructor|apply docs_not_tok]. }
  split; [|done]. split; [done..| |]; [by intros; apply Hd|by rewrite Hl].
Qed.

Lemma same_framed path s s' : same_index s s' → framed path s s' ∧
  (∀ p, paths p → val s' (doc_key p) = val s (doc_key p)) ∧ docs_of s' = docs_of s.
Proof. intros H. by apply touched_framed, same_touched. Qed.

Lemma updated_doc_framed path o s s' :
  paths path → updated (doc_key path) o s s' →
  framed path s s' ∧ val s' (doc_key path) = o ∧
  (∀ t, tokens t → postings s' t = postings s t) ∧ docs_of s' = docs_of s.
Proof.
  intros Hp [R V].
  assert (∀ t, tokens t → postings s' t = postings s t) as Ht.
  { intros t Ht. unfold postings. rewrite V by by constructor. by rewrite bool_decide_eq_false_2. }
  assert (docs_of s' = docs_of s) as Hl.
  { unfold docs_of. rewrite V by constructor. by rewrite bool_decide_eq_false_2. }
  split; [split; [done| | |]|split; [|done]].
  - intros t p Ht' _. by rewrite Ht.
  - intros p Hp' Hne. rewrite V by by constructor. rewrite bool_decide_eq_false_2; [done|].
    by intros ?%doc_key_inj.
  - by rewrite Hl.
  - rewrite V by by constructor. by rewrite bool_decide_eq_true_2.
Qed.

Lemma updated_docs_framed path l s s' :
  updated "docs" (Some l) s s' → (∀ p, p ≠ path → p ∈ l ↔ p ∈ docs_of s) →
  framed path s s' ∧ docs_of s' = l ∧ (∀ t, tokens t → postings s' t = postings s t) ∧
  (∀ p, paths p → val s' (doc_key p) = val s (doc_key p)).
Proof.
  intros [R V] Hl.
  assert (∀ t, tokens t → postings s' t = postings s t) as Ht.
  { intros t Ht. unfold postings. rewrite V by by constructor. by rewrite bool_decide_eq_false_2. }
  assert (docs_of s' = l) as Hd.
  { unfold docs_of. rewrite V by constructor. by rewrite bool_decide_eq_true_2. }
  assert (∀ p, paths p → val s' (doc_key p) = val s (doc_key p)) as Hp.
  { intros p Hp. rewrite V by by constructor. by rewrite bool_decide_eq_false_2. }
  split; [split; [done| | |]|done].
  - intros t p Ht' _. by rewrite Ht.
  - intros p Hp' _. by apply Hp.
  - rewrite Hd. apply Hl.
Qed.

Lemma forget_doc_spec path s res s' :
  readable s → forget_doc r path s = (res, s') →
  framed path s s' ∧ (∀ p, paths p → val s' (doc_key p) = val s (doc_key p)) ∧
  (∀ t, tokens t → postings s' t = postings s t) ∧ (is_ok res = true → path ∉ docs_of s').
Proof using Hr Htok Hdoc Hdocs.
  intros R. unfold forget_doc, mbind, eff_mbind. destruct (si_get r "docs" s) as [r3 s3] eqn:E3.
  destruct (si_get_spec _ _ _ _ ik_docs R E3) as (Sm3 & Ho3 & _).
  destruct (same_framed path _ _ Sm3) as (F3 & D3 & L3).
  assert (∀ t, tokens t → postings s3 t = postings s t) as P3.
  { intros t Ht. unfold postings. by rewrite (proj2 Sm3) by by constructor. }
  destruct r3 as [o3|e]; [|by intros [= <- <-]].
  intros E4. apply si_put_spec in E4; [|constructor|apply Sm3].
  destruct res as [[]|e]; simpl in E4.
  2:{ pose proof (same_index_trans _ _ _ Sm3 E4) as Sm4.
      destruct (same_framed path _ _ Sm4) as (F4 & D4 & _). split; [done|]. split; [done|]. split; [|done].
      intros t Ht. unfold postings. by rewrite (proj2 Sm4) by by constructor. }
  rewrite (Ho3 o3 eq_refl) in E4. fold (docs_of s) in E4.
  apply (updated_docs_framed path) in E4 as (F4 & L4 & P4 & D4).
  2:{ intros p Hne. rewrite list_elem_of_filter, L3. intuition. }
  split; [by eapply framed_trans|]. split; [intros p Hp; by rewrite D4, D3|].
  split; [intros t Ht; by rewrite P4, P3|]. rewrite L4, list_elem_of_filter. by intros _ [].
Qed.

(** [remove_document], whatever its result. *)
Lemma remove_document_spec path s res s' :
  paths path → readable s →
  (∀ ts, val s (doc_key path) = Some ts → Forall tokens ts) →
  remove_document r path s = (res, s') →
  framed path s s' ∧
  (val s' (doc_key path) = val s (doc_key path) ∨ val s' (doc_key path) = None) ∧
  (is_ok res = true → val s' (doc_key path) = None ∧
    (∀ t, tokens t → path ∈ postings s' t ↔
       path ∈ postings s t ∧ ∀ ts, val s (doc_key path) = Some ts → t ∉ ts) ∧
    (path ∈ docs_of s' → path ∈ docs_of s ∧ val s (doc_key path) = None)).
Proof using Hr Htok Hdoc Hdocs.
  intros Hp R W. unfold remove_document, mbind, eff_mbind.
  destruct (si_get r (doc_key path) s) as [r0 s0] eqn:E0.
  destruct (si_get_spec _ _ _ _ (ik_doc _ Hp) R E0) as (Sm & Ho & _).
  destruct (same_framed path _ _ Sm) as (F0 & D0 & L0).
  assert (∀ t, tokens t → postings s0 t = postings s t) as P0.
  { intros t Ht. unfold postings. by rewrite (proj2 Sm) by by constructor. }
  destruct r0 as [o|e]; [|intros [= <- <-]; rewrite D0 by done; split; [done|]; split; [by auto|done]].
  specialize (Ho o eq_refl). rewrite <-Ho. destruct o as [ts|].
  2:{ intros [= <- <-]. rewrite D0, <-Ho by done. split; [done|]. split; [by left|]. intros _.
      split; [done|]. split; [|by rewrite L0]. intros t Ht. rewrite P0 by done.
      split; [by intros; split|by intros []]. }
  pose proof (W ts (eq_sym Ho)) as Wt.
  destruct (eff_iter (remove_posting r path) ts s0) as [r1 s1] eqn:E1.
  destruct (remove_loop _ _ _ _ _ Wt (proj1 Sm) E1) as [T1 P1].
  destruct (touched_framed _ _ _ T1) as (F1 & D1 & L1).
  pose proof (framed_trans _ _ _ _ F0 F1) as F01.
  destruct r1 as [[]|e]; [|intros [= <- <-]; rewrite D1, D0, <-Ho by done; split; [done|]; split; [by auto|done]].
  destruct (stor (os_delete r (doc_key path)) s1) as [r2 s2] eqn:E2.
  apply stor_delete_spec in E2; [|by constructor|apply T1].
  destruct r2 as [[]|e]; simpl in E2.
  2:{ intros [= <- <-]. destruct (same_framed path _ _ E2) as (F2 & D2 & _).
      rewrite D2, D1, D0, <-Ho by done. split; [by eapply framed_trans|]. split; [by auto|done]. }
  destruct (updated_doc_framed _ _ _ _ Hp E2) as (F2 & D2 & P2 & L2).
  intros E3. destruct (forget_doc_spec _ _ _ _ (f_readable _ _ _ F2) E3) as (F3 & D3 & P3 & L3).
  rewrite D3, D2 by done. split; [by eapply framed_trans; [|exact F3]; eapply framed_trans|].
  split; [by right|]. intros Hok. split; [done|]. split; [|intros ?; by destruct (L3 Hok)].
  intros t Ht. rewrite P3, P2, P1, P0 by done.
  split; intros [H1 H2]; (split; [done|]); [congruence|by apply H2].
Qed.

(** [index_document], whatever its result. *)
Lemma index_document_spec path content s res s' :
  paths path → Forall tokens (tokenize content) → readable s →
  (∀ ts, val s (doc_key path) = Some ts → Forall tokens ts) →
  index_document r path content s = (res, s') →
  framed path s s' ∧
  (val s' (doc_key path) = val s (doc_key path) ∨ val s' (doc_key path) = None ∨
   val s' (doc_key path) = Some (tokenize content)) ∧
  (is_ok res = true → val s' (doc_key path) = Some (tokenize content) ∧ path ∈ docs_of s' ∧
    ∀ t, tokens t → path ∈ postings s' t ↔ t ∈ tokenize content ∨
       path ∈ postings s t ∧ ∀ ts, val s (doc_key path) = Some ts → t ∉ ts).
Proof using Hr Htok Hdoc Hdocs.
  intros Hp Ht R W. unfold index_document, mbind, eff_mbind.
  destruct (remove_document r path s) as [r0 s0] eqn:E0.
  destruct (remove_document_spec _ _ _ _ Hp R W E0) as (F0 & D0 & H0).
  destruct r0 as [[]|e]; [|intros [= <- <-]; split; [done|]; split; [by intuition|done]].
  destruct (H0 eq_refl) as (D0' & P0 & _).
  destruct (eff_iter _ (tokenize content) s0) as [r1 s1] eqn:E1.
  destruct (add_loop _ _ _ _ _ Ht (f_readable _ _ _ F0) E1) as [T1 P1].
  destruct (touched_framed _ _ _ T1) as (F1 & D1 & _).
  pose proof (framed_trans _ _ _ _ F0 F1) as F01.
  destruct r1 as [[]|e]; [|intros [= <- <-]; rewrite D1 by done; split; [done|]; split; [by intuition|done]].
  destruct (si_put r (doc_key path) (tokenize content) s1) as [r2 s2] eqn:E2.
  apply si_put_spec in E2; [|by constructor|apply T1].
  destruct r2 as [[]|e]; simpl in E2.
  2:{ intros [= <- <-]. destruct (same_framed path _ _ E2) as (F2 & D2 & _).
      rewrite D2, D1 by done. split; [by eapply framed_trans|]. split; [by intuition|done]. }
  destruct (updated_doc_framed _ _ _ _ Hp E2) as (F2 & D2 & P2 & _).
  pose proof (framed_trans _ _ _ _ F01 F2) as F02. intros E3.
  apply add_path_spec in E3 as [[Sm Hin]|[_ U]]; [| |constructor|apply F2].
  - destruct (same_framed path _ _ Sm) as (F3 & D3 & L3). rewrite D3, D2 by done.
    split; [by eapply framed_trans|]. split; [by auto|]. intros Hok. split; [done|].
    split; [rewrite L3; by apply Hin|]. intros t Htt. unfold postings at 1.
    rewrite (proj2 Sm) by by constructor. fold (postings s2 t). rewrite P2, P1, P0 by done. intuition.
  - apply (updated_docs_framed path) in U as (F3 & L3 & P3 & D3).
    2:{ intros p Hne. rewrite elem_of_app, list_elem_of_singleton. unfold docs_of. intuition. }
    rewrite D3, D2 by done. split; [by eapply framed_trans|]. split; [by auto|]. intros _.
    split; [done|]. split; [rewrite L3, elem_of_app, list_elem_of_singleton; by right|].
    intros t Htt. rewrite P3, P2, P1, P0 by done. intuition.
Qed.

(** ** Runs *)

Inductive index_op := Index (path : string) (content : bytes) | Remove (path : string).

Definition op_path (op : index_op) : string := match op with Index p _ | Remove p => p end.

Definition exec_index (op : index_op) : eff St SearchError unit :=
  match op with
  | Index p c => index_document r p c
  | Remove p => remove_document r p
  end.

Fixpoint run_index (ops : list index_op) (s : St) : list bool * St :=
  match ops with
  | [] => ([], s)
  | op :: ops =>
      let '(res, s) := exec_index op s in
      let '(oks, s) := run_index ops s in (is_ok res :: oks, s)
  end.

(** What a run leaves: the documents whose last operation indexed them, and the
    paths on which an operation has failed. *)
Definition track (op : index_op) (ok : bool) (g : gmap string bytes * gset string)
    : gmap string bytes * gset string :=
  match ok, op with
  | true, Index p c => (<[p := c]> g.1, g.2)
  | true, Remove p => (delete p g.1, g.2)
  | false, _ => (delete (op_path op) g.1, {[op_path op]} ∪ g.2)
  end.

Fixpoint track_run (ops : list index_op) (oks : list bool) (g : gmap string bytes * gset string) :=
  match ops, oks with
  | op :: ops, ok :: oks => track_run ops oks (track op ok g)
  | _, _ => g
  end.

Definition op_used (op : index_op) : Prop :=
  paths (op_path op) ∧
  match op with Index _ c => Forall tokens (tokenize c) | Remove _ => True end.

Record indexed (g : gmap string bytes * gset string) (s : St) : Prop := {
  i_readable : readable s;
  i_wf p ts : paths p → val s (doc_key p) = Some ts → Forall tokens ts;
  i_doc p c : g.1 !! p = Some c → paths p ∧ val s (doc_key p) = Some (tokenize c);
  i_nodoc p : paths p → g.1 !! p = None → p ∉ g.2 → val s (doc_key p) = None;
  i_post p c t : g.1 !! p = Some c → t ∈ tokenize c → p ∈ postings s t;
  i_stale p t : tokens t → p ∈ postings s t → p ∉ g.2 → ∃ c, g.1 !! p = Some c ∧ t ∈ tokenize c;
  i_listed p c : g.1 !! p = Some c → p ∈ docs_of s;
  i_unlisted p : p ∈ docs_of s → p ∉ g.2 → is_Some (g.1 !! p);
}.

Lemma indexed_tokens g s p c t : indexed g s → g.1 !! p = Some c → t ∈ tokenize c → tokens t.
Proof.
  intros I Hm Ht. destruct (i_doc _ _ I _ _ Hm) as [Hp Hd].
  pose proof (i_wf _ _ I _ _ Hp Hd) as F. rewrite Forall_forall in F. by apply F.
Qed.

(** What an operation on [path] has to establish: the rest is framed. *)
Lemma indexed_step g g' path s s' :
  indexed g s → framed path s s' → paths path →
  (∀ p, p ≠ path → g'.1 !! p = g.1 !! p) → (∀ p, p ≠ path → p ∈ g'.2 ↔ p ∈ g.2) →
  (∀ ts, val s' (doc_key path) = Some ts → Forall tokens ts) →
  match g'.1 !! path with
  | Some c => val s' (doc_key path) = Some (tokenize c) ∧ path ∈ docs_of s' ∧
      (∀ t, t ∈ tokenize c → path ∈ postings s' t)
  | None => path ∉ g'.2 → val s' (doc_key path) = None ∧ path ∉ docs_of s'
  end →
  (∀ t, tokens t → path ∈ postings s' t → path ∉ g'.2 → ∃ c, g'.1 !! path = Some c ∧ t ∈ tokenize c) →
  indexed g' s'.
Proof.
  intros I F Hp Hm HX Hwf Hpath Hst.
  assert (∀ p c t, p ≠ path → g'.1 !! p = Some c → t ∈ tokenize c → p ∈ postings s' t) as Hpost.
  { intros p c t Hne Hc Ht. rewrite Hm in Hc by done.
    rewrite (f_post _ _ _ F) by eauto using indexed_tokens. by eapply i_post. }
  split; [apply F|..]; intros p *; (destruct (decide (p = path)) as [->|Hne]).
  - intros _. apply Hwf.
  - intros Hp'. rewrite (f_doc _ _ _ F) by done. by apply (i_wf _ _ I).
  - intros Hc. rewrite Hc in Hpath. by destruct Hpath.
  - rewrite Hm by done. intros Hc. destruct (i_doc _ _ I _ _ Hc) as [Hp' Hd].
    by rewrite (f_doc _ _ _ F).
  - intros _ Hc. rewrite Hc in Hpath. by apply Hpath.
  - intros Hp' Hc. rewrite Hm in Hc by done. rewrite (f_doc _ _ _ F), HX by done. by apply (i_nodoc _ _ I).
  - intros Hc. rewrite Hc in Hpath. by apply Hpath.
  - by apply Hpost.
  - apply Hst.
  - intros Ht. rewrite (f_post _ _ _ F), HX, Hm by done. by apply (i_stale _ _ I).
  - intros Hc. rewrite Hc in Hpath. by apply Hpath.
  - rewrite Hm, (f_docs _ _ _ F) by done. apply (i_listed _ _ I).
  - intros Hin Hx. destruct (g'.1 !! path) eqn:Hc; [by eauto|]. by destruct (Hpath Hx).
  - rewrite (f_docs _ _ _ F), HX, Hm by done. apply (i_unlisted _ _ I).
Qed.

(** A failed operation: nothing is claimed of its path any more. *)
Lemma indexed_dirty g path s s' :
  indexed g s → framed path s s' → paths path →
  (∀ ts, val s' (doc_key path) = Some ts → Forall tokens ts) →
  indexed (delete path g.1, {[path]} ∪ g.2) s'.
Proof.
  intros I F Hp Hwf.
  assert (path ∈ ({[path]} ∪ g.2 : gset string)) as Hx by (apply elem_of_union; left; by apply elem_of_singleton).
  eapply indexed_step; [done..| | |done| |]; simpl.
  - intros p Hne. by rewrite lookup_delete_ne.
  - intros p Hne. rewrite elem_of_union, elem_of_singleton. intuition.
  - rewrite lookup_delete_eq. by intros [].
  - intros t _ _ []. done.
Qed.

Lemma exec_indexed op g s res s' :
  op_used op → indexed g s → exec_index op s = (res, s') → indexed (track op (is_ok res) g) s'.
Proof using Hr Htok Hdoc Hdocs.
  intros [Hp Hc] I. destruct op as [path c|path]; simpl in *; intros E.
  - destruct (index_document_spec _ _ _ _ _ Hp Hc (i_readable _ _ I) (λ ts, i_wf _ _ I _ ts Hp) E) as (F & D & H).
    destruct res as [[]|e]; simpl.
    2:{ apply indexed_dirty with s; [done..|]. intros ts. destruct D as [->|[->| ->]]; [|done|by intros [= <-]].
        by apply (i_wf _ _ I). }
    destruct (H eq_refl) as (D' & L & P). eapply indexed_step; [done..| | | | |]; simpl.
    + intros p Hne. by rewrite lookup_insert_ne.
    + done.
    + rewrite D'. by intros ts [= <-].
    + rewrite lookup_insert_eq. split; [done|]. split; [done|]. intros t Ht. rewrite Forall_forall in Hc.
      rewrite P by by apply Hc. by left.
    + intros t Ht Hin Hx. rewrite lookup_insert_eq. exists c. split; [done|].
      apply P in Hin as [Hin|[Hin Hn]]; [done| |done]. exfalso.
      destruct (i_stale _ _ I _ _ Ht Hin Hx) as (c0 & Hm & Ht0).
      by apply (Hn _ (proj2 (i_doc _ _ I _ _ Hm))).
  - destruct (remove_document_spec _ _ _ _ Hp (i_readable _ _ I) (λ ts, i_wf _ _ I _ ts Hp) E) as (F & D & H).
    destruct res as [[]|e]; simpl.
    2:{ apply indexed_dirty with s; [done..|]. intros ts. destruct D as [->| ->]; [|done]. by apply (i_wf _ _ I). }
    destruct (H eq_refl) as (D' & P & L). eapply indexed_step; [done..| | | | |]; simpl.
    + intros p Hne. by rewrite lookup_delete_ne.
    + done.
    + by rewrite D'.
    + rewrite lookup_delete_eq. intros Hx. split; [done|]. intros [Hin Hn]%L.
      destruct (i_unlisted _ _ I _ Hin Hx) as [c Hm].
      rewrite (proj2 (i_doc _ _ I _ _ Hm)) in Hn. done.
    + intros t Ht Hin Hx. exfalso. apply P in Hin as [Hin Hn]; [|done].
      destruct (i_stale _ _ I _ _ Ht Hin Hx) as (c0 & Hm & Ht0).
      by apply (Hn _ (proj2 (i_doc _ _ I _ _ Hm))).
Qed.

Lemma run_indexed ops g s oks s' :
  Forall op_used ops → indexed g s → run_index ops s = (oks, s') → indexed (track_run ops oks g) s'.
Proof using Hr Htok Hdoc Hdocs.
  revert g s oks. induction ops as [|op ops IH]; intros g s oks F I; simpl; [by intros [= <- <-]|].
  apply Forall_cons in F as [Hop F].
  destruct (exec_index op s) as [res s1] eqn:E1. destruct (run_index ops s1) as [oks1 s2] eqn:E2.
  intros [= <- <-]. eapply IH; [done| |done]. by eapply exec_indexed.
Qed.

Lemma indexed_empty s : os_inv s → (∀ k, index_key k → os_view s r k = None) → indexed (∅, ∅) s.
Proof.
  intros I E. assert (∀ k, index_key k → val s k = None) as V.
  { intros k Hk. unfold os_value. by rewrite E. }
  split; simpl.
  - split; [done|]. intros k b Hk. by rewrite E.
  - intros p ts Hp. by rewrite V by by constructor.
  - intros p c. by rewrite lookup_empty.
  - intros p Hp _ _. apply V. by constructor.
  - intros p c t. by rewrite lookup_empty.
  - intros p t Ht. unfold postings. rewrite V by by constructor. by intros ?%elem_of_nil.
  - intros p c. by rewrite lookup_empty.
  - intros p. unfold docs_of. rewrite V by constructor. by intros ?%elem_of_nil.
Qed.

(** ** Searching *)

Lemma elem_of_intersection_step (c set : list string) (cand : option (list string)) :
  (∀ l, cand = Some l → bt_wf l) → bt_wf set →
  c = match cand with None => set | Some cur => bt_inter cur set end →
  bt_wf c ∧ ∀ p, p ∈ c ↔ (∀ l, cand = Some l → p ∈ l) ∧ p ∈ set.
Proof.
  intros W Ws ->. destruct cand as [cur|].
  - split; [apply bt_filter_wf; by apply W|]. intros p. unfold bt_inter. rewrite list_elem_of_filter.
    split; [intros []; split; [|done]; by intros ? [= <-]|intros []; auto].
  - split; [done|]. intros p. split; [by intros; split|by intros []].
Qed.

(** Without failures the loop answers with the documents of all the terms. *)
Lemma candidates_loop_spec terms cand s :
  Forall tokens terms → (∀ l, cand = Some l → bt_wf l) → (terms = [] → is_Some cand) →
  readable s → os_calm s →
  ∃ o s', candidates_loop r terms cand s = (Ok o, s') ∧ same_index s s' ∧ os_calm s' ∧
    bt_wf (default [] o) ∧
    ∀ p, p ∈ default [] o ↔ (∀ l, cand = Some l → p ∈ l) ∧ ∀ t, t ∈ terms → p ∈ postings s t.
Proof using Hr Htok Hdoc Hdocs.
  revert cand s. induction terms as [|t terms IH]; intros cand s F W Hn R C; cbn [candidates_loop].
  { destruct (Hn eq_refl) as [l ->]. exists (Some l), s. simpl.
    split; [done|]. split; [done|]. split; [done|]. split; [by apply W|]. intros p.
    split; [intros H; split; [by intros ? [= <-]|by intros t ?%elem_of_nil]|intros [H _]; by apply H]. }
  apply Forall_cons in F as [Ht F]. unfold mbind, eff_mbind.
  destruct (si_get r (tok_key t) s) as [r0 s0] eqn:E0.
  destruct (si_get_spec _ _ _ _ (ik_tok _ Ht) R E0) as (Sm & Ho & Hc).
  destruct (Hc C) as [Hok C0]. destruct r0 as [o0|e]; [|done]. rewrite (Ho o0 eq_refl).
  fold (postings s t).
  assert (∀ t, tokens t → postings s0 t = postings s t) as P0.
  { intros t' Ht'. unfold postings. by rewrite (proj2 Sm) by by constructor. }
  set (c := match cand with None => _ | Some cur => _ end).
  destruct (elem_of_intersection_step c _ cand W (bt_collect_wf _) eq_refl) as [Wc Hc'].
  assert (∀ p, (∀ l, cand = Some l → p ∈ l) ∧ (∀ t', t' ∈ t :: terms → p ∈ postings s t') ↔
    p ∈ c ∧ ∀ t', t' ∈ terms → p ∈ postings s t') as Hp.
  { intros p. rewrite Hc', elem_of_bt_collect. setoid_rewrite elem_of_cons.
    split; [intros [H1 H2]; auto|intros [[H1 H2] H3]; split; [done|]; intros t' [->|?]; auto]. }
  setoid_rewrite Hp. destruct c as [|x c'] eqn:Ec.
  - exists None, s0. split; [done|]. split; [done|]. split; [done|]. split; [constructor|].
    intros p. simpl. split; [by intros ?%elem_of_nil|]. by intros [?%elem_of_nil _].
  - destruct (IH (Some (x :: c')) s0) as (o & s' & E & Sm' & C' & Wo & Hin);
      [done|by intros ? [= <-]|by eauto|apply Sm|done|].
    exists o, s'. split; [done|]. split; [by eapply same_index_trans|]. split; [done|]. split; [done|].
    intros p. rewrite Hin. rewrite Forall_forall in F.
    split; intros [H1 H2]; (split; [|intros t' Ht'; specialize (H2 t' Ht'); rewrite P0 in *; auto]).
    + by apply H1.
    + by intros ? [= <-].
Qed.
End theory.

(** The reference: the numbered lines of a document that contain every term. *)
Section grep.
Context `{UL : UnicodeLower}.

Fixpoint grep_lines (repo_id path : string) (terms : list string) (i : N) (ls : list bytes)
    : list SearchHit :=
  match ls with
  | [] => []
  | line :: ls =>
      (if forallb (λ t, contains_text (to_lowercase line) (as_bytes t)) terms
       then [mkHit repo_id path (i + 1) (take_chars 200 (trim line))] else [])
      ++ grep_lines repo_id path terms (i + 1) ls
  end.

Definition grep (repo_id : string) (terms : list string) (fetch : string → string → option bytes)
    (docs : list string) : list SearchHit :=
  docs ≫= λ p, match fetch repo_id p with
               | Some c => grep_lines repo_id p terms 0 (lines c)
               | None => []
               end.

(** At least one hit is returned, whatever [max_hits] says. *)
Definition hit_limit (max_hits : N) : nat := N.to_nat (N.max 1 max_hits).

Lemma lines_loop_spec repo_id path terms max_hits i ls hits :
  (length hits < hit_limit max_hits)%nat →
  let all := hits ++ grep_lines repo_id path terms i ls in
  lines_loop repo_id path terms max_hits i ls hits =
    (take (hit_limit max_hits) all, (hit_limit max_hits <=? length all)%nat).
Proof.
  intros Hl all. subst all. revert i hits Hl. induction ls as [|line ls IH]; intros i hits Hl;
    cbn [lines_loop grep_lines].
  { rewrite app_nil_r, take_ge by lia. f_equal. symmetry. apply Nat.leb_gt. lia. }
  destruct (forallb _ terms); cbn [app]; [|by apply IH].
  set (h := mkHit _ _ _ _). replace (hits ++ h :: grep_lines repo_id path terms (i + 1) ls)
    with ((hits ++ [h]) ++ grep_lines repo_id path terms (i + 1) ls) by by rewrite <-app_assoc.
  assert (length (hits ++ [h]) = S (length hits)) as Hlen by len_lia.
  destruct (N.leb_spec max_hits (lengthN (hits ++ [h]))) as [H|H].
  - unfold hit_limit in *. rewrite take_app_le, take_ge by lia. f_equal. symmetry.
    apply Nat.leb_le. rewrite length_app. lia.
  - apply IH. unfold hit_limit. lia.
Qed.

Lemma paths_loop_spec repo_id terms max_hits fetch paths hits :
  (length hits < hit_limit max_hits)%nat →
  paths_loop repo_id terms max_hits fetch paths hits =
    take (hit_limit max_hits) (hits ++ grep repo_id terms fetch paths).
Proof.
  revert hits. induction paths as [|p paths IH]; intros hits Hl; simpl.
  { by rewrite app_nil_r, take_ge by lia. }
  destruct (fetch repo_id p) as [c|]; [|by apply IH].
  rewrite lines_loop_spec by done. rewrite app_assoc.
  destruct (Nat.leb_spec (hit_limit max_hits) (length (hits ++ grep_lines repo_id p terms 0 (lines c)))) as [H|H].
  - by rewrite (take_app_le (hits ++ _)).
  - rewrite take_ge by lia. by apply IH.
Qed.
End grep.

(** ** Properties *)

Section claims.
Context {St Er : Type} `{OS : ObjectStore St Er} `{SI : Serde (list string)} `{UL : UnicodeLower}.

(** The documents that contain every term as a word, in path order. *)
Definition documents_with (docs : gmap string bytes) (terms : list string) : list string :=
  bt_collect ((filter (λ pc : string * bytes, Forall (λ t, t ∈ tokenize pc.2) terms)
                 (map_to_list docs)).*1).

Lemma elem_of_documents_with docs terms p :
  p ∈ documents_with docs terms ↔ ∃ c, docs !! p = Some c ∧ ∀ t, t ∈ terms → t ∈ tokenize c.
Proof.
  unfold documents_with. rewrite elem_of_bt_collect, list_elem_of_fmap. split.
  - intros ([q c] & -> & [F Hin]%list_elem_of_filter). apply elem_of_map_to_list in Hin.
    rewrite Forall_forall in F. eauto.
  - intros (c & Hc & H). exists (p, c). split; [done|]. rewrite list_elem_of_filter, elem_of_map_to_list.
    split; [by apply Forall_forall|done].
Qed.

(** C27. The index is equivalent to scanning: on an index built by any run of
    [index_document] and [remove_document], some of which may have failed,
    [search_repo] answers what a scan of its candidate documents finds, cut at the
    limit; the candidates are all documents with every term, and no others unless
    an operation on them failed. *)
Theorem search_refines_grep (r : string) (tokens paths : string → Prop) (s0 s1 : St)
    (ops : list index_op) (oks : list bool) (query : bytes) (max_hits : N)
    (fetch : string → string → option bytes) :
  let docs := (track_run ops oks (∅, ∅)).1 in
  let failed := (track_run ops oks (∅, ∅)).2 in
  let terms := tokenize query in
  os_id r → (∀ t, tokens t → os_id (tok_key t)) → (∀ p, paths p → os_id (doc_key p)) →
  os_id "docs" → os_inv s0 → (∀ k, index_key tokens paths k → os_view s0 r k = None) →
  Forall (op_used tokens paths) ops → run_index r ops s0 = (oks, s1) → os_calm s1 →
  Forall tokens terms → terms ≠ [] →
  ∃ candidates s2,
    search_repo r query max_hits fetch s1 =
      (Ok (take (hit_limit max_hits) (grep r terms fetch candidates)), s2) ∧
    bt_wf candidates ∧
    (∀ p, p ∈ documents_with docs terms → p ∈ candidates) ∧
    (∀ p, p ∈ candidates → p ∉ failed → p ∈ documents_with docs terms) ∧
    (failed = ∅ → candidates = documents_with docs terms).
Proof.
  intros docs failed terms Hr Ht Hp Hd I0 E0 Hops E C Fterms Hne.
  pose proof (run_indexed r tokens paths Hr Ht Hp Hd _ _ _ _ _ Hops
    (indexed_empty r tokens paths s0 I0 E0) E) as I.
  destruct (candidates_loop_spec r tokens paths Hr Ht Hp Hd terms None s1) as (o & s2 & Es & _ & _ & W & Hin);
    [done..|apply I|done|].
  assert (∀ p, p ∈ documents_with docs terms → p ∈ default [] o) as H1.
  { intros p (c & Hc & Hts)%elem_of_documents_with. apply Hin. split; [done|].
    intros t Htt. eapply i_post; [exact I|done|auto]. }
  assert (∀ p, p ∈ default [] o → p ∉ failed → p ∈ documents_with docs terms) as H2.
  { intros p [_ Hts]%Hin Hx. rewrite Forall_forall in Fterms.
    destruct terms as [|t0 terms'] eqn:Et; [done|].
    destruct (i_stale _ _ _ _ _ I p t0) as (c & Hc & _);
      [apply Fterms; by left|apply Hts; by left|done|].
    apply elem_of_documents_with. exists c. split; [done|]. intros t Htt.
    destruct (i_stale _ _ _ _ _ I p t) as (c' & Hc' & ?); [by apply Fterms|by apply Hts|done|].
    unfold docs in Hc. rewrite Hc in Hc'. by injection Hc' as <-. }
  exists (default [] o), s2. split; [|split; [done|split; [done|split; [done|]]]].
  - unfold search_repo. fold terms. destruct terms as [|t0 terms'] eqn:Et; [done|]. rewrite <-Et in *.
    unfold mbind, eff_mbind. rewrite Es. destruct o as [c|]; simpl; [|by rewrite take_nil].
    by rewrite paths_loop_spec by (unfold hit_limit; simpl; lia).
  - intros Hf. apply bt_wf_unique; [done|apply bt_collect_wf|]. intros p.
    split; [intros Hc; apply H2; [done|rewrite Hf; apply not_elem_of_empty]|apply H1].
Qed.
End claims.

Section witnesses.
#[local] Instance toy_lower : UnicodeLower :=
  {| to_lowercase := fmap lower_byte; to_lowercase_ascii := λ bs _, eq_refl |}.
#[local] Instance toy_strings : Serde (list string) := toy_serde (list string).
#[local] Instance toy_memory : ObjectStore (gmap (string * string) bytes) unit := memory_store.

Definition toy_a : bytes := as_bytes "fn Ab(cd)".
Definition toy_b : bytes := as_bytes "ab " ++ [NL] ++ as_bytes "  x AB cd".
Definition toy_index_ops : list index_op := [Index "b" toy_a; Index "a" toy_a; Index "b" toy_b; Remove "a"].
Definition toy_fetch (_ p : string) : option bytes := if String.eqb p "b" then Some toy_b else Some toy_a.
Definition toy_indexed : gmap (string * string) bytes := (run_index "r" toy_index_ops ∅).2.

Lemma toy_index_oks : (run_index "r" toy_index_ops (∅ : gmap (string * string) bytes)).1 = [true; true; true; true].
Proof. vm_refl. Qed.

Lemma search_refines_grep_witness :
  (∃ s2, search_repo "r" (as_bytes "Ab.cd") 10 toy_fetch toy_indexed =
     (Ok (take 10 (grep "r" ["ab"; "cd"] toy_fetch ["b"])), s2)) ∧
  grep "r" ["ab"; "cd"] toy_fetch ["b"] = [mkHit "r" "b" 2 (as_bytes "x AB cd")].
Proof.
  split; [|vm_refl].
  edestruct (search_refines_grep "r" (λ _, True) (λ _, True) ∅ toy_indexed toy_index_ops
    [true; true; true; true] (as_bytes "Ab.cd") 10 toy_fetch) as (c & s2 & E & _ & _ & _ & Hc);
    [done..| | | |done|by repeat constructor|done|].
  - intros k _. apply lookup_empty.
  - repeat constructor; try done; apply Forall_forall; done.
  - unfold toy_indexed. rewrite <-toy_index_oks. apply surjective_pairing.
  - exists s2. rewrite Hc in E by vm_refl. exact E.
Defined.
End witnesses.
