(* ===== verification/Forge.v ===== *)
(** [crates/secgit-forge/src/lib.rs]: bare repositories on the working path, and
    their encrypted persistence as a manifest and segments.

    The working path is a directory with entries; a [git] command runs in the
    directory itself or in one entry, and its arguments are literal texts or the
    absolute path of an entry.  What git and the file system do is the class
    [WorkArea]: operations, and the laws their documentation gives when nothing
    fails.  The store is the interface [ObjectStore]. *)

From stdpp Require Import sorting.
From S2P Require Import Prelude Text BTree Backend Toy ObjectStore Store.

Inductive ForgeError :=
| FIo
| FGit (what : string)
| FGix
| FStoreErr
| FCorrupt (why : string)
| FNotFound (repo_id : string)
| FManifest.

Definition SEAL_MANIFEST_VERSION : N := 1.
Definition DEFAULT_MAX_SEGMENTS : N := 32.

(** [SECGIT_SEAL_MAX_SEGMENTS], parsed; the variable is an argument. *)
Definition max_segments (var : option bytes) : N :=
  match v ← var; parse_u64 v with
  | Some n => if (n <? 2 ^ 32) && (1 <=? n) then n else DEFAULT_MAX_SEGMENTS
  | None => DEFAULT_MAX_SEGMENTS
  end.

Record RefTip := mkTip { rt_name : string; rt_oid : string }.
Record Segment := mkSegment { sg_index : N; sg_has_payload : bool; sg_size : N; sg_tips : list RefTip }.
Record SealManifest := mkManifest { sm_version : N; sm_head : option string; sm_segments : list Segment }.

Global Instance RefTip_eq_dec : EqDecision RefTip.
Proof. solve_decision. Defined.

Definition manifest_default : SealManifest := mkManifest 0 None [].

Definition last_tips (m : SealManifest) : list RefTip :=
  match last (sm_segments m) with Some s => sg_tips s | None => [] end.

(** [iter().sum()] of [u64]s wraps in the release profile. *)
Definition total_size (m : SealManifest) : N :=
  foldr (λ s acc, wrap_add64 (sg_size s) acc) 0 (sm_segments m).

Definition tips_oids (tips : list RefTip) : list string := rt_oid <$> tips.

Record RefInfo := mkRefInfo { ri_name : string; ri_target : string }.
Record CommitInfo := mkCommit {
  ci_id : bytes; ci_short : bytes; ci_author_name : bytes; ci_author_email : bytes; ci_time_unix : Z; ci_summary : bytes }.
Record TreeEntry := mkEntry { te_mode : bytes; te_kind : bytes; te_id : bytes; te_name : bytes }.
Record BlameLine := mkBlame { bl_commit_short : bytes; bl_author : bytes; bl_lineno : N; bl_content : bytes }.

(** ** Names on the working path *)

(** Every character outside [A-Za-z0-9-_.] becomes an underscore; a character
    outside ASCII is several bytes but one underscore. *)
Definition safe_char (b : byte) : bool :=
  is_ascii_alphanumeric b || bool_decide (b = x2d) || bool_decide (b = x5f) || bool_decide (b = x2e).
Definition sanitize (repo_id : string) : string :=
  string_of_list_byte
    ((λ b, if safe_char b then b else x5f) <$> filter (λ b, in_range 128 191 b = false) (as_bytes repo_id)).

Definition repo_path (repo_id : string) : string := sanitize repo_id +:+ ".git".

(** [path.with_extension("<safe>.bundle.tmp")]: the extension [git] is replaced; a
    name that is only [.git] has none. *)
Definition bundle_tmp (repo_id : string) : string :=
  let safe := sanitize repo_id in
  (if bool_decide (safe = "") then ".git" else safe) +:+ "." +:+ safe +:+ ".bundle.tmp".

Definition segment_file (repo_id : string) (index : N) : string :=
  sanitize repo_id +:+ ".seg" +:+ pretty index +:+ ".bundle".

Definition restore_file (repo_id : string) : string := sanitize repo_id +:+ ".restore.bundle".

(** ** Git and the working path *)

Inductive cwd := AtRoot | AtEntry (name : string).
Inductive garg := Lit (s : string) | PathOf (name : string).

(** [run_git_bytes] is a command that ends in time with success, or an error. *)
Class WorkOps (W : Type) := {
  w_git : cwd → list garg → eff W ForgeError bytes;
  w_exists : W → string → bool;
  w_read : string → eff W ForgeError bytes;
  w_write : string → bytes → eff W ForgeError unit;
  w_remove_file : string → eff W ForgeError unit;
  w_remove_dir_all : string → eff W ForgeError unit;
}.

(** ** Output of git *)

Definition parse_log_record (record : bytes) : option CommitInfo :=
  let record := trim_matches (λ b, bool_decide (b = NL) || bool_decide (b = CR)) record in
  match record with
  | [] => None
  | _ =>
      match split_on x1f record with
      | f0 :: f1 :: f2 :: f3 :: f4 :: f5 :: _ =>
          Some (mkCommit f0 f1 f2 f3 (default 0%Z (parse_i64 f4)) f5)
      | _ => None
      end
  end.
Definition parse_log (out : bytes) : list CommitInfo := omap parse_log_record (split_on x1e out).

Record BlameState := mkBlameState { bs_commit : bytes; bs_author : bytes; bs_lineno : N }.

Definition is_hexdigit (b : byte) : bool := is_ascii_digit b || in_range 97 102 b || in_range 65 70 b.

(** One line of the porcelain format: the line it completes, and the state. *)
Definition blame_line (st : BlameState) (line : bytes) : option BlameLine * BlameState :=
  match strip_prefix [x09] line with
  | Some content =>
      (Some (mkBlame (take_chars 8 (bs_commit st)) (bs_author st) (bs_lineno st) content), st)
  | None =>
      match strip_prefix (as_bytes "author ") line with
      | Some rest => (None, mkBlameState (bs_commit st) rest (bs_lineno st))
      | None =>
          if (40 <=? lengthN line) && match line with b :: _ => is_hexdigit b | [] => false end then
            match split_whitespace line with
            | sha :: rest =>
                if 40 <=? lengthN sha then
                  let lineno := match rest with
                                | _ :: final_line :: _ => default (bs_lineno st) (parse_u64 final_line)
                                | _ => bs_lineno st
                                end in
                  (None, mkBlameState sha (bs_author st) lineno)
                else (None, st)
            | [] => (None, st)
            end
          else (None, st)
      end
  end.

Fixpoint blame_loop (st : BlameState) (ls : list bytes) : list BlameLine :=
  match ls with
  | [] => []
  | l :: ls =>
      let '(o, st) := blame_line st l in
      match o with Some b => b :: blame_loop st ls | None => blame_loop st ls end
  end.
Definition parse_blame (out : bytes) : list BlameLine := blame_loop (mkBlameState [] [] 0) (lines out).

Definition parse_tree_line (line : bytes) : option TreeEntry :=
  match split_once x09 line with
  | Some (meta, name) =>
      match split_whitespace meta with
      | mode :: kind :: id :: _ => Some (mkEntry mode kind id name)
      | _ => None
      end
  | None => None
  end.

(** Directories first, then by name. *)
Definition entry_le (a b : TreeEntry) : bool :=
  let not_tree e := bool_decide (te_kind e ≠ as_bytes "tree") in
  match not_tree a, not_tree b with
  | false, true => true
  | true, false => false
  | _, _ => String.leb (string_of_list_byte (te_name a)) (string_of_list_byte (te_name b))
  end.
Definition parse_tree (out : bytes) : list TreeEntry := sort_by entry_le (omap parse_tree_line (lines out)).

Definition parse_tip (line : bytes) : option RefTip :=
  match split_once x20 line with
  | Some (oid, name) =>
      if bool_decide (oid ≠ []) && bool_decide (name ≠ [])
      then Some (mkTip (string_of_list_byte name) (string_of_list_byte oid)) else None
  | None => None
  end.
Definition parse_tips (out : bytes) : list RefTip :=
  sort_by (λ a b, String.leb (rt_name a) (rt_name b)) (omap parse_tip (lines out)).

(** ** Operations *)

Section forge.
Context {W St Er : Type} `{WO : WorkOps W} `{OS : ObjectStore St Er} `{SM : Serde SealManifest}.

(** The working path and the store. *)
Definition FS : Type := W * St.

Definition on_work {A} (c : eff W ForgeError A) : eff FS ForgeError A := λ ws,
  let '(r, w) := c ws.1 in (r, (w, ws.2)).
Definition on_store {A} (c : eff St Er A) : eff FS ForgeError A := λ ws,
  let '(r, s) := c ws.2 in (map_err (λ _, FStoreErr) r, (ws.1, s)).

(** [let _ = c;]: the result is dropped. *)
Definition ignore {A} (c : eff FS ForgeError A) : eff FS ForgeError unit := λ ws, (Ok (), (c ws).2).

(** [c.is_ok()]. *)
Definition succeeds {A} (c : eff FS ForgeError A) : eff FS ForgeError bool := λ ws,
  let '(r, ws) := c ws in (Ok (is_ok r), ws).

Definition run_git_bytes (d : cwd) (args : list garg) : eff FS ForgeError bytes := on_work (w_git d args).
Definition run_git (d : cwd) (args : list garg) : eff FS ForgeError bytes :=
  out ← run_git_bytes d args; mret (from_utf8_lossy out).

Definition lits (l : list string) : list garg := Lit <$> l.

Definition path_exists (name : string) : eff FS ForgeError bool := λ ws, (Ok (w_exists ws.1 name), ws).

Definition forge_exists (repo_id : string) : eff FS ForgeError bool := path_exists (repo_path repo_id).

Definition init_args (path : string) : list garg := lits ["init"; "--bare"; "--quiet"] ++ [PathOf path].

Definition create_bare (repo_id : string) : eff FS ForgeError unit :=
  _ ← run_git AtRoot (init_args (repo_path repo_id)); mret ().

Definition clone_mirror (repo_id remote_url : string) : eff FS ForgeError unit :=
  let path := repo_path repo_id in
  e ← path_exists path;
  if (e : bool) then throw (FGit ("repo already exists: " +:+ repo_id))
  else _ ← run_git AtRoot (lits ["clone"; "--mirror"; "--quiet"; remote_url] ++ [PathOf path]); mret ().

Definition require_repo (repo_id : string) : eff FS ForgeError string :=
  let path := repo_path repo_id in
  e ← path_exists path;
  if negb e then throw (FNotFound repo_id) else mret path.

(** *** Reading *)

Definition log_format : string := "--pretty=format:%H%x1f%h%x1f%an%x1f%ae%x1f%at%x1f%s%x1e".

Definition forge_log (repo_id rev : string) (limit : N) : eff FS ForgeError (list CommitInfo) :=
  path ← require_repo repo_id;
  out ← run_git (AtEntry path) (lits ["log"; "--max-count=" +:+ pretty limit; log_format; rev]);
  mret (parse_log out).

Definition file_history (repo_id rev file : string) (limit : N) : eff FS ForgeError (list CommitInfo) :=
  path ← require_repo repo_id;
  out ← run_git (AtEntry path)
    (lits ["log"; "--follow"; "--max-count=" +:+ pretty limit; log_format; rev; "--"; file]);
  mret (parse_log out).

(** [s.trim_matches('/')]. *)
Definition trim_slashes (s : string) : string :=
  string_of_list_byte (trim_matches (λ b, bool_decide (b = x2f)) (as_bytes s)).

Definition list_tree (repo_id rev dir : string) : eff FS ForgeError (list TreeEntry) :=
  path ← require_repo repo_id;
  let spec := if bool_decide (dir = "") then rev else rev +:+ ":" +:+ trim_slashes dir in
  out ← run_git (AtEntry path) (lits ["ls-tree"; "--full-tree"; spec]);
  mret (parse_tree out).

Definition read_blob (repo_id rev file : string) : eff FS ForgeError bytes :=
  path ← require_repo repo_id;
  run_git_bytes (AtEntry path) (lits ["cat-file"; "blob"; rev +:+ ":" +:+ trim_slashes file]).

Definition commit_diff (repo_id rev : string) : eff FS ForgeError bytes :=
  path ← require_repo repo_id;
  run_git (AtEntry path) (lits ["show"; "--no-color"; "--patch"; "--format=fuller"; rev]).

Definition blame (repo_id rev file : string) : eff FS ForgeError (list BlameLine) :=
  path ← require_repo repo_id;
  out ← run_git (AtEntry path) (lits ["blame"; "--porcelain"; rev; "--"; trim_slashes file]);
  mret (parse_blame out).

(** *** Sealing *)

Definition current_tips (path : string) : eff FS ForgeError (list RefTip) :=
  out ← run_git (AtEntry path) (lits ["for-each-ref"; "--format=%(objectname) %(refname)"]);
  mret (parse_tips out).

Definition current_head (path : string) : eff FS ForgeError (option string) := λ ws,
  let '(r, ws) := run_git (AtEntry path) (lits ["symbolic-ref"; "HEAD"]) ws in
  (Ok (match r with
       | Ok out => match trim out with [] => None | h => Some (string_of_list_byte h) end
       | Err _ => None
       end), ws).

Definition decode_manifest (b : bytes) : eff FS ForgeError SealManifest := lift (ok_or FManifest (from_slice b)).

Definition load_manifest (repo_id : string) : eff FS ForgeError SealManifest :=
  o ← on_store (os_get repo_id SEAL_MANIFEST_KEY);
  match o with Some b => decode_manifest b | None => mret manifest_default end.

Definition store_manifest (repo_id : string) (m : SealManifest) : eff FS ForgeError unit :=
  on_store (os_put repo_id SEAL_MANIFEST_KEY (to_vec m)).

(** [--not] and the ids, when there are any. *)
Definition not_args (not_oids : list string) : list garg :=
  match not_oids with [] => [] | _ => lits ("--not" :: not_oids) end.

Definition bundle_bytes (repo_id path : string) (not_oids : list string) : eff FS ForgeError bytes :=
  let tmp := bundle_tmp repo_id in
  λ ws,
  let '(res, ws) := run_git (AtEntry path)
    (lits ["bundle"; "create"] ++ PathOf tmp :: Lit "--all" :: not_args not_oids) ws in
  match res with
  | Ok _ =>
      let '(b, ws) := on_work (w_read tmp) ws in
      let '(_, ws) := ignore (on_work (w_remove_file tmp)) ws in (b, ws)
  | Err e => let '(_, ws) := ignore (on_work (w_remove_file tmp)) ws in (Err e, ws)
  end.

Definition has_new_objects (path : string) (not_oids : list string) : eff FS ForgeError bool :=
  out ← run_git (AtEntry path) (lits ["rev-list"; "--objects"; "--all"] ++ not_args not_oids);
  mret (match split_whitespace out with [] => false | _ => true end).

Fixpoint existing_oids (path : string) (oids : list string) : eff FS ForgeError (list string) :=
  match oids with
  | [] => mret []
  | o :: oids =>
      ok ← succeeds (run_git (AtEntry path) (lits ["cat-file"; "-e"; o]));
      rest ← existing_oids path oids;
      mret (if (ok : bool) then o :: rest else rest)
  end.

Definition write_base_segment (repo_id path : string) (tips : list RefTip) (m : SealManifest)
    : eff FS ForgeError SealManifest :=
  b ← bundle_bytes repo_id path [];
  _ ← eff_iter (λ seg, ignore (on_store (os_delete repo_id (segment_key (sg_index seg))))) (sm_segments m);
  _ ← on_store (os_put repo_id (segment_key 0) b);
  mret (mkManifest (sm_version m) (sm_head m) [mkSegment 0 true (lengthN b) tips]).

Definition compact_to_base (repo_id path : string) (tips : list RefTip) (m : SealManifest)
    : eff FS ForgeError SealManifest := write_base_segment repo_id path tips m.

Definition append_delta_segment (repo_id path : string) (old_tips tips : list RefTip) (m : SealManifest)
    : eff FS ForgeError SealManifest :=
  let next := match last (sm_segments m) with Some s => (sg_index s + 1) mod 2 ^ 32 | None => 0 end in
  old_oids ← existing_oids path (tips_oids old_tips);
  new ← has_new_objects path old_oids;
  segment ← if (new : bool) then
              b ← bundle_bytes repo_id path old_oids;
              _ ← on_store (os_put repo_id (segment_key next) b);
              mret (mkSegment next true (lengthN b) tips)
            else mret (mkSegment next false 0 tips);
  mret (mkManifest (sm_version m) (sm_head m) (sm_segments m ++ [segment])).

(** What follows the segments in [seal_to_store]. *)
Definition finish_seal (repo_id : string) (head : option string) (m : SealManifest) : eff FS ForgeError unit :=
  _ ← store_manifest repo_id (mkManifest SEAL_MANIFEST_VERSION head (sm_segments m));
  ignore (on_store (os_delete repo_id LEGACY_BUNDLE_KEY)).

Definition seal_to_store (max_segs : N) (repo_id : string) : eff FS ForgeError unit :=
  path ← require_repo repo_id;
  _ ← on_store (os_init repo_id);
  tips ← current_tips path;
  head ← current_head path;
  manifest ← load_manifest repo_id;
  match sm_segments manifest with
  | [] =>
      m ← write_base_segment repo_id path tips manifest;
      finish_seal repo_id head m
  | _ =>
      let old_tips := last_tips manifest in
      if bool_decide (old_tips = tips) && bool_decide (sm_head manifest = head) then mret ()
      else
        m ← if max_segs <=? lengthN (sm_segments manifest)
            then compact_to_base repo_id path tips manifest
            else append_delta_segment repo_id path old_tips tips manifest;
        finish_seal repo_id head m
  end.

Definition sealed_size (repo_id : string) : eff FS ForgeError N :=
  o ← on_store (os_get repo_id SEAL_MANIFEST_KEY);
  match o with
  | Some b => m ← decode_manifest b; mret (total_size m)
  | None =>
      o ← on_store (os_get repo_id LEGACY_BUNDLE_KEY);
      match o with Some b => mret (lengthN b) | None => mret 0 end
  end.

(** *** Restoring *)

(** [if path.exists() { remove_dir_all(&path)?; }]. *)
Definition remove_existing (path : string) : eff FS ForgeError unit :=
  e ← path_exists path;
  if (e : bool) then on_work (w_remove_dir_all path) else mret ().

Definition forge_delete (repo_id : string) : eff FS ForgeError unit := remove_existing (repo_path repo_id).

Definition restore_legacy (repo_id : string) : eff FS ForgeError bool :=
  o ← on_store (os_get repo_id LEGACY_BUNDLE_KEY);
  match o with
  | None => mret false
  | Some b =>
      let path := repo_path repo_id in
      _ ← remove_existing path;
      _ ← on_work (w_write (restore_file repo_id) b);
      _ ← run_git AtRoot (lits ["clone"; "--bare"; "--quiet"] ++ [PathOf (restore_file repo_id); PathOf path]);
      _ ← ignore (on_work (w_remove_file (restore_file repo_id)));
      mret true
  end.

(** Unbundle a file and remove it, whatever the outcome. *)
Definition unbundle (path f : string) : eff FS ForgeError unit := λ ws,
  let '(res, ws) := run_git (AtEntry path) (lits ["bundle"; "unbundle"] ++ [PathOf f]) ws in
  let '(_, ws) := ignore (on_work (w_remove_file f)) ws in
  (match res with Ok _ => Ok () | Err e => Err e end, ws).

Definition restore_segment (repo_id path : string) (seg : Segment) : eff FS ForgeError unit :=
  if negb (sg_has_payload seg) then mret ()
  else
    o ← on_store (os_get repo_id (segment_key (sg_index seg)));
    match o with
    | None => throw (FCorrupt "seal segment referenced by manifest is missing")
    | Some b =>
        let f := segment_file repo_id (sg_index seg) in
        _ ← on_work (w_write f b);
        unbundle path f
    end.

Definition restore_ref (path : string) (tip : RefTip) : eff FS ForgeError unit :=
  _ ← run_git (AtEntry path) (lits ["update-ref"; rt_name tip; rt_oid tip]); mret ().

Definition restore_from_store (repo_id : string) : eff FS ForgeError bool :=
  o ← on_store (os_get repo_id SEAL_MANIFEST_KEY);
  match o with
  | None => restore_legacy repo_id
  | Some b =>
      manifest ← decode_manifest b;
      let path := repo_path repo_id in
      _ ← remove_existing path;
      _ ← run_git AtRoot (init_args path);
      _ ← eff_iter (restore_segment repo_id path) (sm_segments manifest);
      _ ← match last (sm_segments manifest) with
          | Some final_seg => eff_iter (restore_ref path) (sg_tips final_seg)
          | None => mret ()
          end;
      _ ← match sm_head manifest with
          | Some head => ignore (run_git (AtEntry path) (lits ["symbolic-ref"; "HEAD"; head]))
          | None => mret ()
          end;
      mret true
  end.
End forge.
