(* ===== verification/ForgeTheory.v ===== *)
(** What sealing and restoring achieve: the documented behaviour of git as laws on
    an object graph, the invariant of the sealed form, and the theorems. *)

From S2P Require Import Prelude Text BTree Backend Toy ObjectStore Store Forge.

(** ** Git, as documented *)

(** A repository: the objects it has, its refs, and the branch [HEAD] names
    ([None] when it is detached). *)
Record GitRepo := mkGitRepo { gr_objs : gset string; gr_refs : gmap string string; gr_head : option string }.

Definition with_objs (g : GitRepo) (o : gset string) : GitRepo := mkGitRepo o (gr_refs g) (gr_head g).
Definition with_ref (g : GitRepo) (n o : string) : GitRepo := mkGitRepo (gr_objs g) (<[n := o]> (gr_refs g)) (gr_head g).
Definition with_head (g : GitRepo) (h : string) : GitRepo := mkGitRepo (gr_objs g) (gr_refs g) (Some h).

(** The objects a list of objects leads to. *)
Inductive reach (links : string → list string) (roots : list string) : string → Prop :=
| reach_root o : o ∈ roots → reach links roots o
| reach_link o o' : reach links roots o → o' ∈ links o → reach links roots o'.

Definition ref_oids (refs : gmap string string) : list string := (map_to_list refs).*2.

(** What the documentation promises when no command is killed and the disk does
    not fail ([gl_calm]).  An object's id determines it, so the links between
    objects do not depend on the repository. *)
Class GitLaws (W : Type) `{WO : WorkOps W} := {
  gl_links : string → list string;
  gl_repo : W → string → option GitRepo;
  gl_file : W → string → option bytes;
  gl_calm : W → Prop;
  (** The objects and the prerequisites of a bundle. *)
  gl_bundle : bytes → option (gset string * list string);
  (** Names that are well formed and can coexist (check-ref-format; no ref is a
      directory of another). *)
  gl_names : gset string → Prop;
  gl_names_sub : ∀ N M, gl_names N → M ⊆ N → gl_names M;
  gl_names_text : ∀ N n, gl_names N → n ∈ N → n ≠ "" ∧ (x20 ∉ as_bytes n) ∧ (NL ∉ as_bytes n) ∧ (CR ∉ as_bytes n);
  gl_oid_text : ∀ w p g n o, gl_repo w p = Some g → gr_refs g !! n = Some o → visible_text (as_bytes o);
  gl_refs_names : ∀ w p g, gl_repo w p = Some g → gl_names (dom (gr_refs g));
  gl_exists : ∀ w n, w_exists w n = true ↔ is_Some (gl_repo w n) ∨ is_Some (gl_file w n);
  gl_excl : ∀ w n, is_Some (gl_repo w n) → gl_file w n = None;

  gl_init : ∀ w p, gl_calm w → gl_repo w p = None → gl_file w p = None →
    ∃ out w' h, w_git AtRoot (init_args p) w = (Ok out, w') ∧ gl_calm w' ∧
      gl_repo w' p = Some (mkGitRepo ∅ ∅ (Some h)) ∧
      ∀ m, m ≠ p → gl_repo w' m = gl_repo w m ∧ gl_file w' m = gl_file w m;
  gl_for_each_ref : ∀ w p g, gl_calm w → gl_repo w p = Some g →
    ∃ l w', w_git (AtEntry p) (lits ["for-each-ref"; "--format=%(objectname) %(refname)"]) w =
        (Ok (mjoin ((λ no : string * string, as_bytes no.2 ++ x20 :: as_bytes no.1 ++ [NL]) <$> l)), w') ∧
      l ≡ₚ map_to_list (gr_refs g) ∧ gl_calm w' ∧
      ∀ m, gl_repo w' m = gl_repo w m ∧ gl_file w' m = gl_file w m;
  gl_symbolic_ref : ∀ w p g, gl_calm w → gl_repo w p = Some g →
    ∃ r w', w_git (AtEntry p) (lits ["symbolic-ref"; "HEAD"]) w = (r, w') ∧ gl_calm w' ∧
      (∀ m, gl_repo w' m = gl_repo w m ∧ gl_file w' m = gl_file w m) ∧
      match gr_head g with Some h => r = Ok (as_bytes h ++ [NL]) | None => is_ok r = false end;
  gl_set_head : ∀ w p g h, gl_calm w → gl_repo w p = Some g → starts_with (as_bytes "refs/") (as_bytes h) = true →
    ∃ out w', w_git (AtEntry p) (lits ["symbolic-ref"; "HEAD"; h]) w = (Ok out, w') ∧ gl_calm w' ∧
      gl_repo w' p = Some (with_head g h) ∧
      ∀ m, m ≠ p → gl_repo w' m = gl_repo w m ∧ gl_file w' m = gl_file w m;
  gl_cat_file : ∀ w p g o, gl_calm w → gl_repo w p = Some g →
    ∃ r w', w_git (AtEntry p) (lits ["cat-file"; "-e"; o]) w = (r, w') ∧ gl_calm w' ∧
      (∀ m, gl_repo w' m = gl_repo w m ∧ gl_file w' m = gl_file w m) ∧
      (is_ok r = true ↔ o ∈ gr_objs g);
  (** The ids of the objects of the refs that the excluded ones do not lead to. *)
  gl_rev_list : ∀ w p g nots, gl_calm w → gl_repo w p = Some g → Forall (λ o, o ∈ gr_objs g) nots →
    ∃ out w', w_git (AtEntry p) (lits ["rev-list"; "--objects"; "--all"] ++ not_args nots) w = (Ok out, w') ∧
      gl_calm w' ∧ (∀ m, gl_repo w' m = gl_repo w m ∧ gl_file w' m = gl_file w m) ∧
      (out = [] → ∀ o, reach gl_links (ref_oids (gr_refs g)) o → reach gl_links nots o) ∧
      (out ≠ [] → ∃ id rest, visible_text id ∧ (out = id ++ NL :: rest ∨ out = id ++ x20 :: rest));
  (** A bundle has the objects of the refs that the excluded ones do not lead to;
      it requires only objects they lead to.  An empty bundle is refused. *)
  gl_bundle_create : ∀ w p g f nots, gl_calm w → gl_repo w p = Some g → gl_repo w f = None →
    (∀ o, reach gl_links (ref_oids (gr_refs g)) o → o ∈ gr_objs g) → Forall (λ o, o ∈ gr_objs g) nots →
    ∃ r w', w_git (AtEntry p) (lits ["bundle"; "create"] ++ PathOf f :: Lit "--all" :: not_args nots) w = (r, w') ∧
      gl_calm w' ∧ gl_repo w' f = None ∧
      (∀ m, m ≠ f → gl_repo w' m = gl_repo w m ∧ gl_file w' m = gl_file w m) ∧
      ∀ out, r = Ok out → ∃ b objs pre, gl_file w' f = Some b ∧ gl_bundle b = Some (objs, pre) ∧
        (∀ o, reach gl_links (ref_oids (gr_refs g)) o → o ∈ objs ∨ reach gl_links nots o) ∧
        ∀ o, o ∈ pre → reach gl_links nots o;
  gl_unbundle : ∀ w p g f b objs pre, gl_calm w → gl_repo w p = Some g → gl_file w f = Some b →
    gl_bundle b = Some (objs, pre) → (∀ o, reach gl_links pre o → o ∈ gr_objs g) →
    ∃ out w', w_git (AtEntry p) (lits ["bundle"; "unbundle"] ++ [PathOf f]) w = (Ok out, w') ∧ gl_calm w' ∧
      gl_repo w' p = Some (with_objs g (objs ∪ gr_objs g)) ∧
      ∀ m, m ≠ p → gl_repo w' m = gl_repo w m ∧ gl_file w' m = gl_file w m;
  gl_update_ref : ∀ w p g n o, gl_calm w → gl_repo w p = Some g → o ∈ gr_objs g →
    gl_names ({[n]} ∪ dom (gr_refs g)) →
    ∃ out w', w_git (AtEntry p) (lits ["update-ref"; n; o]) w = (Ok out, w') ∧ gl_calm w' ∧
      gl_repo w' p = Some (with_ref g n o) ∧
      ∀ m, m ≠ p → gl_repo w' m = gl_repo w m ∧ gl_file w' m = gl_file w m;

  gl_read : ∀ w f b, gl_calm w → gl_file w f = Some b →
    ∃ w', w_read f w = (Ok b, w') ∧ gl_calm w' ∧ ∀ m, gl_repo w' m = gl_repo w m ∧ gl_file w' m = gl_file w m;
  gl_write : ∀ w f b, gl_calm w → gl_repo w f = None →
    ∃ w', w_write f b w = (Ok (), w') ∧ gl_calm w' ∧ gl_repo w' f = None ∧ gl_file w' f = Some b ∧
      ∀ m, m ≠ f → gl_repo w' m = gl_repo w m ∧ gl_file w' m = gl_file w m;
  gl_remove_file : ∀ w f, gl_calm w → gl_repo w f = None →
    ∃ r w', w_remove_file f w = (r, w') ∧ gl_calm w' ∧ gl_repo w' f = None ∧ gl_file w' f = None ∧
      ∀ m, m ≠ f → gl_repo w' m = gl_repo w m ∧ gl_file w' m = gl_file w m;
  gl_remove_dir_all : ∀ w p, gl_calm w → is_Some (gl_repo w p) →
    ∃ w', w_remove_dir_all p w = (Ok (), w') ∧ gl_calm w' ∧ gl_repo w' p = None ∧ gl_file w' p = None ∧
      ∀ m, m ≠ p → gl_repo w' m = gl_repo w m ∧ gl_file w' m = gl_file w m;
}.

Lemma reach_mono links (l k : list string) o : (∀ x, x ∈ l → reach links k x) → reach links l o → reach links k o.
Proof. intros H. induction 1 as [o Ho|o o' _ IH Hl]; [by apply H|by eapply reach_link]. Qed.

Lemma reach_nil links o : ¬ reach links [] o.
Proof. induction 1; [by eapply not_elem_of_nil|done]. Qed.

(** ** Text of git's output *)

Lemma parse_tip_line n o :
  n ≠ "" → visible_text (as_bytes o) → parse_tip (as_bytes o ++ x20 :: as_bytes n) = Some (mkTip n o).
Proof.
  intros Hn [Ho Fo]. unfold parse_tip.
  rewrite split_once_printed by (apply visible_not; [unfold visible; vm_compute; intuition discriminate|done]).
  rewrite !bool_decide_eq_true_2; [|by destruct n|done]. simpl. unfold as_bytes.
  by rewrite !string_of_list_byte_of_string.
Qed.

(** Refs whose names are text. *)
Definition tip_ok (no : string * string) : Prop :=
  no.1 ≠ "" ∧ (x20 ∉ as_bytes no.1) ∧ (NL ∉ as_bytes no.1) ∧ (CR ∉ as_bytes no.1) ∧
  visible_text (as_bytes no.2) ∧ valid_utf8 (as_bytes no.1) = true.

Definition tip_line (no : string * string) : bytes := as_bytes no.2 ++ x20 :: as_bytes no.1 ++ [NL].

Lemma tip_line_clean no : tip_ok no →
  clean_line (as_bytes no.2 ++ x20 :: as_bytes no.1) ∧ valid_utf8 (tip_line no) = true.
Proof.
  intros (Hn & Hs & Hnl & Hcr & [Ho Fo] & Hu). split.
  - split.
    + rewrite elem_of_app, elem_of_cons.
      pose proof (visible_not NL _ ltac:(unfold visible; vm_compute; intuition discriminate) Fo).
      intuition discriminate.
    + change (x20 :: as_bytes no.1) with ([x20] ++ as_bytes no.1). rewrite !last_app.
      destruct (last (as_bytes no.1)) as [c|] eqn:E; [|done]. intros [= ->].
      apply Hcr. apply last_Some in E as [l ->]. apply elem_of_app. right. by left.
  - unfold tip_line. rewrite valid_utf8_app by by apply valid_utf8_ascii, visible_ascii.
    change (x20 :: as_bytes no.1 ++ [NL]) with ([x20] ++ as_bytes no.1 ++ [NL]).
    rewrite valid_utf8_app by done. by rewrite valid_utf8_app.
Qed.

Lemma valid_utf8_tips l : Forall tip_ok l → valid_utf8 (mjoin (tip_line <$> l)) = true.
Proof.
  induction 1 as [|no l H _ IH]; [done|].
  change (mjoin (tip_line <$> no :: l)) with (tip_line no ++ mjoin (tip_line <$> l)).
  rewrite valid_utf8_app; [done|]. by apply tip_line_clean.
Qed.

Lemma parse_tip_lines l : Forall tip_ok l →
  omap parse_tip (lines (mjoin (tip_line <$> l))) = (λ no, mkTip no.1 no.2) <$> l.
Proof.
  induction 1 as [|no l H _ IH]; [done|].
  change (mjoin (tip_line <$> no :: l)) with (tip_line no ++ mjoin (tip_line <$> l)).
  unfold tip_line at 1. rewrite <-app_assoc. cbn [app]. rewrite <-app_assoc. cbn [app].
  replace (as_bytes no.2 ++ x20 :: as_bytes no.1 ++ NL :: mjoin (tip_line <$> l))
    with ((as_bytes no.2 ++ x20 :: as_bytes no.1) ++ NL :: mjoin (tip_line <$> l)) by by rewrite <-app_assoc.
  rewrite lines_app by by apply tip_line_clean. cbn [omap list_omap].
  destruct H as (Hn & _ & _ & _ & Ho & _). rewrite parse_tip_line by done. by rewrite IH.
Qed.

(** ** The commands of the forge, in calm weather *)

Section theory.
Context {W St Er : Type} `{GL : GitLaws W} `{OS : ObjectStore St Er} `{SM : Serde SealManifest}.
Context (r : string).
Abbreviation p := (repo_path r).
Abbreviation tmp := (bundle_tmp r).

(** The working path while repository [g] is there and the temporary name is not a
    directory. *)
Definition working (w : W) (g : GitRepo) : Prop := gl_calm w ∧ gl_repo w p = Some g ∧ gl_repo w tmp = None.

Definition refs_text (g : GitRepo) : Prop :=
  ∀ n o, gr_refs g !! n = Some o → valid_utf8 (as_bytes n) = true.

(** The repositories the theorems on sealing speak of: what the refs lead to is there,
    every ref name is valid UTF-8 (others are replaced when the output of git is read), and
    [HEAD] either names a ref in visible ASCII characters or is detached. *)
Record repo_ok (g : GitRepo) : Prop := {
  ro_closed o : reach gl_links (ref_oids (gr_refs g)) o → o ∈ gr_objs g;
  ro_text : refs_text g;
  ro_head h : gr_head g = Some h → visible_text (as_bytes h) ∧ starts_with (as_bytes "refs/") (as_bytes h) = true;
}.

(** The tips are the refs, once each. *)
Definition tips_of (g : GitRepo) (tips : list RefTip) : Prop :=
  tips ≡ₚ ((λ no : string * string, mkTip no.1 no.2) <$> map_to_list (gr_refs g)).

Lemma working_same w w' g :
  working w g → gl_calm w' → (∀ m, gl_repo w' m = gl_repo w m ∧ gl_file w' m = gl_file w m) → working w' g.
Proof. intros (C & E & T) C' H. split; [done|]. by rewrite !(proj1 (H _)). Qed.

Lemma run_git_eq d args (w w' : W) (s : St) res :
  w_git d args w = (res, w') →
  run_git d args (w, s) = (match res with Ok out => Ok (from_utf8_lossy out) | Err e => Err e end, (w', s)).
Proof.
  intros E. unfold run_git, run_git_bytes, on_work, mbind, eff_mbind. simpl. rewrite E. by destruct res.
Qed.

Lemma refs_tip_ok w g l :
  gl_repo w p = Some g → refs_text g → l ≡ₚ map_to_list (gr_refs g) → Forall tip_ok l.
Proof.
  intros E Ht Hl. apply Forall_forall. intros [n o] Hin. rewrite Hl in Hin. apply elem_of_map_to_list in Hin.
  destruct (gl_names_text _ n (gl_refs_names _ _ _ E)) as (H1 & H2 & H3 & H4); [by apply elem_of_dom|].
  repeat split; try done; [..|by eapply Ht]; by apply (gl_oid_text _ _ _ _ _ E Hin).
Qed.

Lemma current_tips_calm w g (s : St) :
  working w g → refs_text g →
  ∃ tips w', current_tips p (w, s) = (Ok tips, (w', s)) ∧ working w' g ∧ tips_of g tips.
Proof.
  intros Hw Ht. pose proof Hw as (C & E & T). destruct (gl_for_each_ref w p g C E) as (l & w' & Eg & Hl & C' & H).
  pose proof (refs_tip_ok _ _ _ E Ht Hl) as F.
  exists (parse_tips (mjoin (tip_line <$> l))), w'. split; [|split].
  - unfold current_tips, mbind, eff_mbind. rewrite (run_git_eq _ _ _ _ _ _ Eg).
    rewrite from_utf8_lossy_valid by by apply valid_utf8_tips. done.
  - by apply (working_same w).
  - unfold tips_of, parse_tips. rewrite sort_by_perm, parse_tip_lines by done. by rewrite Hl.
Qed.

Lemma trim_nl h : visible_text h → trim (from_utf8_lossy (h ++ [NL])) = h.
Proof.
  intros [Hne F]. assert (ascii_text (h ++ [NL])) as Ha.
  { apply Forall_app. split; [by apply visible_ascii|by repeat constructor]. }
  rewrite from_utf8_lossy_valid by by apply valid_utf8_ascii.
  destruct (last h) as [c|] eqn:Hl; [|by apply last_None in Hl].
  assert (visible c) as Hc.
  { rewrite Forall_forall in F. apply F. apply last_Some in Hl as [l ->]. apply elem_of_app. right. by left. }
  unfold trim. assert (trim_start (h ++ [NL]) = h ++ [NL]) as ->.
  { unfold trim_start. apply trim_fuel_id, ws_prefix_None. intros v Hv. destruct h as [|x h]; [done|].
    apply Forall_cons in F as [Hx _]. by apply visible_not_ws. }
  unfold trim_end. rewrite reverse_snoc, length_app, Nat.add_1_r. cbn [trim_fuel].
  assert (ws_prefix (reverse <$> whitespace) (NL :: reverse h) = Some 1%nat) as -> by reflexivity.
  cbn [drop]. rewrite drop_0, trim_fuel_id; [by rewrite reverse_involutive|].
  apply last_Some in Hl as [k ->]. rewrite reverse_snoc.
  apply ws_prefix_None. intros v. by apply visible_not_ws_rev.
Qed.

Lemma current_head_calm w g (s : St) :
  working w g → repo_ok g → ∃ w', current_head p (w, s) = (Ok (gr_head g), (w', s)) ∧ working w' g.
Proof.
  intros Hw Ok. pose proof Hw as (C & E & T). destruct (gl_symbolic_ref w p g C E) as (res & w' & Eg & C' & H & Hh).
  exists w'. split; [|by apply (working_same w)].
  unfold current_head. rewrite (run_git_eq _ _ _ _ _ _ Eg).
  destruct (gr_head g) as [h|] eqn:Eh.
  - subst res. destruct (ro_head _ Ok _ Eh) as [Hv _]. rewrite trim_nl by done.
    destruct Hv as [Hne _]. destruct (as_bytes h) as [|x b] eqn:Eb; [done|]. rewrite <-Eb. unfold as_bytes.
    by rewrite string_of_list_byte_of_string.
  - by destruct res.
Qed.

Lemma existing_oids_calm w g (s : St) oids :
  working w g →
  ∃ w', existing_oids p oids (w, s) = (Ok (filter (λ o, o ∈ gr_objs g) oids), (w', s)) ∧ working w' g.
Proof.
  revert w. induction oids as [|o oids IH]; intros w Hw; [by exists w|].
  pose proof Hw as (C & E & T). destruct (gl_cat_file w p g o C E) as (res & w' & Eg & C' & H & Hr).
  assert (working w' g) as Hw' by by apply (working_same w).
  destruct (IH w' Hw') as (w2 & E2 & Hw2). exists w2. split; [|done].
  cbn [existing_oids]. unfold succeeds, mbind, eff_mbind. rewrite (run_git_eq _ _ _ _ _ _ Eg), E2.
  rewrite filter_cons. destruct res; simpl in *; (case_decide; [|]); try done; exfalso; intuition discriminate.
Qed.

Lemma has_new_objects_calm w g (s : St) nots :
  working w g → Forall (λ o, o ∈ gr_objs g) nots →
  ∃ b w', has_new_objects p nots (w, s) = (Ok b, (w', s)) ∧ working w' g ∧
    (b = false → ∀ o, reach gl_links (ref_oids (gr_refs g)) o → reach gl_links nots o).
Proof.
  intros Hw Hn. pose proof Hw as (C & E & T). destruct (gl_rev_list w p g nots C E Hn) as (out & w' & Eg & C' & H & He & Hne).
  eexists _, w'. split; [|split; [by apply (working_same w)|]].
  - unfold has_new_objects, mbind, eff_mbind. rewrite (run_git_eq _ _ _ _ _ _ Eg). done.
  - destruct out as [|x out]; [by intros _; apply He|]. intros Hf. exfalso.
    destruct (Hne ltac:(done)) as (id & rest & [Hid Fid] & Hout).
    assert (∃ k, x :: out = id ++ k) as [k Hk] by (destruct Hout as [-> | ->]; eauto).
    rewrite Hk, from_utf8_lossy_ascii in Hf by by apply visible_ascii.
    by destruct (split_whitespace (id ++ _)) eqn:Es; [apply split_whitespace_word in Es|].
Qed.

Lemma bundle_bytes_calm w g (s : St) nots :
  working w g → repo_ok g → Forall (λ o, o ∈ gr_objs g) nots →
  ∃ res w', bundle_bytes r p nots (w, s) = (res, (w', s)) ∧ working w' g ∧
    ∀ b, res = Ok b → ∃ objs pre, gl_bundle b = Some (objs, pre) ∧
      (∀ o, reach gl_links (ref_oids (gr_refs g)) o → o ∈ objs ∨ reach gl_links nots o) ∧
      ∀ o, o ∈ pre → reach gl_links nots o.
Proof.
  intros Hw Ok Hn. pose proof Hw as (C & E & T).
  assert (p ≠ tmp) as Hpt by congruence.
  destruct (gl_bundle_create w p g tmp nots C E T (ro_closed _ Ok) Hn) as (res & w1 & E1 & C1 & T1 & H1 & Hb).
  unfold bundle_bytes. rewrite (run_git_eq _ _ _ _ _ _ E1).
  assert (working w1 g) as Hw1 by (split; [done|]; split; [by rewrite (proj1 (H1 _ Hpt))|done]).
  assert (∀ w2, gl_calm w2 → (∀ m, gl_repo w2 m = gl_repo w1 m ∧ gl_file w2 m = gl_file w1 m) →
    ∃ w3, ignore (on_work (w_remove_file tmp)) (w2, s) = (Prelude.Ok (), (w3, s)) ∧ working w3 g) as Hrm.
  { intros w2 C2 H2. assert (gl_repo w2 tmp = None) as T2 by by rewrite (proj1 (H2 _)).
    destruct (gl_remove_file w2 tmp C2 T2) as (r3 & w3 & E3 & C3 & T3 & _ & H3). exists w3.
    split; [unfold ignore, on_work; simpl; by rewrite E3|]. split; [done|]. split; [|done].
    rewrite (proj1 (H3 _ Hpt)), (proj1 (H2 _)). apply Hw1. }
  destruct res as [out|e].
  - destruct (Hb out eq_refl) as (b & objs & pre & Hf & Hbun & Hcov & Hpre).
    destruct (gl_read w1 tmp b C1 Hf) as (w2 & E2 & C2 & H2). 
    assert (on_work (w_read tmp) (w1, s) = (Prelude.Ok b, (w2, s))) as -> by (unfold on_work; simpl; by rewrite E2).
    destruct (Hrm w2 C2 H2) as (w3 & -> & Hw3). eexists _, w3. split; [done|]. split; [done|].
    intros b' [= <-]. eauto.
  - destruct (Hrm w1 C1 ltac:(done)) as (w3 & -> & Hw3). eexists _, w3. split; [done|]. split; [done|]. done.
Qed.

(** ** The sealed form *)

(** The identifiers of the run: the repository, its fixed keys and its segments up
    to a bound. *)
Context (M : N) (HM : M < 2 ^ 32) (Hr : os_id r) (Hman : os_id SEAL_MANIFEST_KEY) (Hleg : os_id LEGACY_BUNDLE_KEY)
  (Hseg : ∀ i, i ≤ M → os_id (segment_key i)).

(** Unbundling the segments in order, starting from some objects: every segment
    with a payload is stored, and what it requires is already there. *)
Inductive chain (s : St) : gset string → list Segment → gset string → Prop :=
| chain_nil acc : chain s acc [] acc
| chain_refs acc seg segs acc' : sg_has_payload seg = false → chain s acc segs acc' → chain s acc (seg :: segs) acc'
| chain_payload acc seg segs acc' b objs pre :
    sg_has_payload seg = true → os_view s r (segment_key (sg_index seg)) = Some b →
    gl_bundle b = Some (objs, pre) → (∀ o, reach gl_links pre o → o ∈ acc) →
    chain s (objs ∪ acc) segs acc' → chain s acc (seg :: segs) acc'.

Lemma chain_frame s s' acc segs acc' :
  (∀ seg, seg ∈ segs → os_view s' r (segment_key (sg_index seg)) = os_view s r (segment_key (sg_index seg))) →
  chain s acc segs acc' → chain s' acc segs acc'.
Proof.
  intros H C. induction C as [acc|acc seg segs acc' Hp _ IH|acc seg segs acc' b objs pre Hp Hv Hb Hpre _ IH].
  - constructor.
  - apply chain_refs; [done|]. apply IH. intros. apply H. by right.
  - eapply chain_payload; [done| |done..|].
    + rewrite H; [done|by left].
    + apply IH. intros. apply H. by right.
Qed.

Lemma chain_app s acc segs acc1 segs' acc2 :
  chain s acc segs acc1 → chain s acc1 segs' acc2 → chain s acc (segs ++ segs') acc2.
Proof.
  intros C1 C2. induction C1 as [| |acc seg segs acc' b objs pre Hp Hv Hb Hpre _ IH]; simpl; [done|by apply chain_refs; auto|].
  by eapply chain_payload; auto.
Qed.

(** A manifest that can be restored: its segments are numbered from zero, they
    unbundle, and they have everything the last tips lead to. *)
Record sealed (s : St) (m : SealManifest) : Prop := {
  sl_inv : os_inv s;
  sl_manifest : os_value SealManifest s r SEAL_MANIFEST_KEY = Some m;
  sl_nonempty : sm_segments m ≠ [];
  sl_bound : lengthN (sm_segments m) ≤ M;
  sl_index i seg : sm_segments m !! i = Some seg → sg_index seg = N.of_nat i;
  sl_chain : ∃ acc, chain s ∅ (sm_segments m) acc ∧
    ∀ o, reach gl_links (tips_oids (last_tips m)) o → o ∈ acc;
  sl_tips : NoDup (rt_name <$> last_tips m) ∧ gl_names (list_to_set (rt_name <$> last_tips m));
  sl_head h : sm_head m = Some h → starts_with (as_bytes "refs/") (as_bytes h) = true;
}.

Lemma sealed_index_lt s m seg : sealed s m → seg ∈ sm_segments m → sg_index seg < lengthN (sm_segments m).
Proof.
  intros S [i Hi]%list_elem_of_lookup. rewrite (sl_index _ _ S _ _ Hi).
  pose proof (lookup_lt_Some _ _ _ Hi). lia.
Qed.

(** What keeps the manifest and the segments it numbers keeps it restorable. *)
Lemma sealed_frame s s' m :
  sealed s m → os_inv s' →
  os_view s' r SEAL_MANIFEST_KEY = os_view s r SEAL_MANIFEST_KEY →
  (∀ i, i < lengthN (sm_segments m) → os_view s' r (segment_key i) = os_view s r (segment_key i)) → sealed s' m.
Proof.
  intros S I Vm Vs. destruct (sl_chain _ _ S) as (acc & C & Hacc). split; try apply S; [done| |].
  - unfold os_value. rewrite Vm. apply S.
  - exists acc. split; [|done]. eapply chain_frame; [|exact C]. intros seg Hin. apply Vs.
    by eapply sealed_index_lt.
Qed.

(** ** Restoring *)

Definition restoring (w : W) (g : GitRepo) : Prop :=
  gl_calm w ∧ gl_repo w p = Some g ∧ ∀ i, i ≤ M → gl_repo w (segment_file r i) = None.

Lemma restoring_step w w' g g' :
  restoring w g → gl_calm w' → gl_repo w' p = Some g' →
  (∀ m, m ≠ p → gl_repo w' m = gl_repo w m ∧ gl_file w' m = gl_file w m) → restoring w' g'.
Proof.
  intros (C & E & F) C' E' H. split; [done|]. split; [done|]. intros i Hi.
  assert (segment_file r i ≠ p) as Hne by (intros Heq; specialize (F i Hi); congruence).
  rewrite (proj1 (H _ Hne)). by apply F.
Qed.

Lemma on_store_get_calm (w : W) s k :
  os_id k → os_inv s → os_calm s →
  ∃ s', on_store (os_get r k) (w, s) = (Ok (os_view s r k), (w, s')) ∧ same_view s s' ∧ os_calm s'.
Proof using Hr.
  intros Hk I C. destruct (os_get_calm r k s Hr Hk I C) as (s' & E & C').
  destruct (os_get_spec _ _ _ _ _ Hr Hk I E) as (I' & V & _). exists s'.
  split; [unfold on_store; simpl; by rewrite E|]. by split.
Qed.

Lemma unbundle_calm w g (s : St) i b objs pre :
  restoring w g → i ≤ M → gl_file w (segment_file r i) = Some b → gl_bundle b = Some (objs, pre) →
  (∀ o, reach gl_links pre o → o ∈ gr_objs g) →
  ∃ w', unbundle p (segment_file r i) (w, s) = (Ok (), (w', s)) ∧ restoring w' (with_objs g (objs ∪ gr_objs g)).
Proof.
  intros R Hi Hf Hb Hpre. pose proof R as (C & E & F).
  destruct (gl_unbundle w p g _ b objs pre C E Hf Hb Hpre) as (out & w1 & E1 & C1 & P1 & H1).
  pose proof (restoring_step _ _ _ _ R C1 P1 H1) as R1. pose proof R1 as (_ & _ & F1).
  destruct (gl_remove_file w1 _ C1 (F1 i Hi)) as (res & w2 & E2 & C2 & T2 & _ & H2).
  assert (p ≠ segment_file r i) as Hne by (intros Heq; specialize (F1 i Hi); congruence).
  exists w2. split.
  - unfold unbundle. rewrite (run_git_eq _ _ _ _ _ _ E1). unfold ignore, on_work. simpl. by rewrite E2.
  - split; [done|]. split; [by rewrite (proj1 (H2 _ Hne))|]. intros j Hj.
    destruct (decide (segment_file r j = segment_file r i)) as [->|Hd]; [done|].
    rewrite (proj1 (H2 _ Hd)). by apply F1.
Qed.

Lemma restore_payload_calm w g s seg b objs pre :
  sg_has_payload seg = true → sg_index seg ≤ M →
  os_view s r (segment_key (sg_index seg)) = Some b → gl_bundle b = Some (objs, pre) →
  (∀ o, reach gl_links pre o → o ∈ gr_objs g) → restoring w g → os_inv s → os_calm s →
  ∃ w' s', restore_segment r p seg (w, s) = (Ok (), (w', s')) ∧
    restoring w' (with_objs g (objs ∪ gr_objs g)) ∧ same_view s s' ∧ os_calm s'.
Proof using HM Hr Hseg.
  intros Hp Hi Hv Hb Hpre R I K. unfold restore_segment, mbind, eff_mbind. rewrite Hp. cbn [negb].
  destruct (on_store_get_calm w s _ (Hseg _ Hi) I K) as (s1 & -> & Sv & K1). rewrite Hv.
  destruct R as (Cw & E & Fw).
  destruct (gl_write w (segment_file r (sg_index seg)) b Cw (Fw _ Hi)) as (w1 & E1 & C1 & T1 & Hf & H1).
  assert (on_work (w_write (segment_file r (sg_index seg)) b) (w, s1) = (Ok (), (w1, s1))) as ->
    by (unfold on_work; simpl; by rewrite E1).
  assert (restoring w1 g) as R1.
  { split; [done|]. split.
    - assert (p ≠ segment_file r (sg_index seg)) as Hne by (intros Heq; specialize (Fw _ Hi); congruence).
      by rewrite (proj1 (H1 _ Hne)).
    - intros j Hj. destruct (decide (segment_file r j = segment_file r (sg_index seg))) as [->|Hd]; [done|].
      rewrite (proj1 (H1 _ Hd)). by apply Fw. }
  destruct (unbundle_calm w1 g s1 _ b objs pre R1 Hi Hf Hb Hpre) as (w2 & E2 & R2).
  exists w2, s1. split; [exact E2|]. split; [done|]. by split.
Qed.

Lemma restore_segments_calm w g s segs acc :
  chain s (gr_objs g) segs acc → Forall (λ seg, sg_index seg ≤ M) segs →
  restoring w g → os_inv s → os_calm s →
  ∃ w' s', eff_iter (restore_segment r p) segs (w, s) = (Ok (), (w', s')) ∧
    restoring w' (with_objs g acc) ∧ same_view s s' ∧ os_calm s'.
Proof using HM Hr Hseg.
  revert w g s. induction segs as [|seg segs IH]; intros w g s C F R I K.
  { exists w, s. inversion C; subst. split; [done|]. split; [by destruct g|done]. }
  apply Forall_cons in F as [Hi F]. cbn [eff_iter]. unfold mbind, eff_mbind.
  inversion C as [|? ? ? ? Hp C'|? ? ? ? b objs pre Hp Hv Hb Hpre C']; subst.
  - assert (restore_segment r p seg (w, s) = (Ok (), (w, s))) as -> by (unfold restore_segment; by rewrite Hp).
    by apply IH.
  - destruct (restore_payload_calm w g s seg b objs pre Hp Hi Hv Hb Hpre R I K) as (w2 & s1 & -> & R2 & Sv & K1).
    destruct (IH w2 (with_objs g (objs ∪ gr_objs g)) s1) as (w3 & s3 & E3 & R3 & Sv3 & K3);
      [|done|done|apply Sv|done|].
    + simpl. eapply chain_frame; [|exact C']. intros seg' Hin. apply Sv; [done|]. apply Hseg.
      rewrite Forall_forall in F. by apply F.
    + exists w3, s3. split; [done|]. split; [done|]. split; [|done]. by eapply same_view_trans.
Qed.

Lemma restore_refs_calm w g (s : St) tips :
  restoring w g → (∀ o, o ∈ tips_oids tips → o ∈ gr_objs g) →
  gl_names (list_to_set (rt_name <$> tips) ∪ dom (gr_refs g)) →
  ∃ w', eff_iter (restore_ref p) tips (w, s) = (Ok (), (w', s)) ∧
    restoring w' (fold_left (λ g t, with_ref g (rt_name t) (rt_oid t)) tips g).
Proof.
  revert w g. induction tips as [|t tips IH]; intros w g R Ho Hn; [by exists w|].
  pose proof R as (C & E & F). cbn [eff_iter fold_left].
  destruct (gl_update_ref w p g (rt_name t) (rt_oid t) C E) as (out & w1 & E1 & C1 & P1 & H1).
  { apply Ho. by left. }
  { eapply gl_names_sub; [exact Hn|]. intros n. rewrite fmap_cons, list_to_set_cons, !elem_of_union. tauto. }
  assert (restore_ref p t (w, s) = (Ok (), (w1, s))) as Et
    by (unfold restore_ref, mbind, eff_mbind; by rewrite (run_git_eq _ _ _ _ _ _ E1)).
  unfold mbind, eff_mbind. rewrite Et. apply IH.
  - by eapply restoring_step.
  - intros o Hin. apply Ho. by right.
  - eapply gl_names_sub; [exact Hn|]. intros n. simpl.
    rewrite dom_insert, !elem_of_union. tauto.
Qed.

Lemma fold_refs (tips : list RefTip) (g : GitRepo) :
  NoDup (rt_name <$> tips) →
  let g' := fold_left (λ g t, with_ref g (rt_name t) (rt_oid t)) tips g in
  gr_objs g' = gr_objs g ∧ gr_head g' = gr_head g ∧
  gr_refs g' = list_to_map ((λ t, (rt_name t, rt_oid t)) <$> tips) ∪ gr_refs g.
Proof.
  revert g. induction tips as [|t tips IH]; intros g N; simpl; [by rewrite map_empty_union|].
  apply NoDup_cons in N as [Hn N]. destruct (IH (with_ref g (rt_name t) (rt_oid t)) N) as (-> & -> & ->).
  split; [done|]. split; [done|]. simpl. rewrite <-insert_union_l, insert_union_r; [done|].
  apply not_elem_of_list_to_map. by rewrite <-list_fmap_compose.
Qed.

Lemma segment_file_ne i : segment_file r i ≠ p.
Proof. unfold segment_file, repo_path. intros E%(inj _). simpl in E. discriminate. Qed.

(** Whatever was at the repository's path is cleared, and the path initialized. *)
Lemma remove_existing_calm w (s : St) :
  gl_calm w → gl_file w p = None →
  ∃ w1, remove_existing p (w, s) = (Ok (), (w1, s)) ∧ gl_calm w1 ∧ gl_repo w1 p = None ∧
    gl_file w1 p = None ∧ ∀ m, m ≠ p → gl_repo w1 m = gl_repo w m.
Proof.
  intros Cw Fp. unfold remove_existing, path_exists, mbind, eff_mbind. simpl.
  destruct (gl_repo w p) as [g0|] eqn:Eg.
  - assert (w_exists w p = true) as -> by (apply gl_exists; left; by rewrite Eg).
    destruct (gl_remove_dir_all w p Cw ltac:(by rewrite Eg)) as (w1 & E1 & C1 & P1 & F1 & H1).
    exists w1. split; [unfold on_work; simpl; by rewrite E1|]. split; [done|]. split; [done|]. split; [done|].
    intros m' Hne. by apply H1.
  - destruct (w_exists w p) eqn:Ee; [apply gl_exists in Ee as [[? ?]|[? ?]]; congruence|].
    exists w. split; [done|]. by repeat split.
Qed.

Lemma init_calm w (s : St) :
  gl_calm w → gl_repo w p = None → gl_file w p = None →
  (∀ i, i ≤ M → gl_repo w (segment_file r i) = None) →
  ∃ out w' h, run_git AtRoot (init_args p) (w, s) = (Ok out, (w', s)) ∧ restoring w' (mkGitRepo ∅ ∅ (Some h)).
Proof.
  intros C P F Fs. destruct (gl_init w p C P F) as (out & w2 & h0 & E2 & C2 & P2 & H2).
  eexists _, w2, h0. split; [by rewrite (run_git_eq _ _ _ _ _ _ E2)|]. split; [done|]. split; [done|].
  intros i Hi. rewrite (proj1 (H2 _ (segment_file_ne i))). by apply Fs.
Qed.

(** The last step of restoring: [HEAD], if the manifest has one. *)
Lemma set_head_calm w g (s : St) o :
  restoring w g → (∀ h, o = Some h → starts_with (as_bytes "refs/") (as_bytes h) = true) →
  ∃ w' g', match o with
           | Some head => ignore (run_git (AtEntry p) (lits ["symbolic-ref"; "HEAD"; head]))
           | None => mret ()
           end (w, s) = (Ok (), (w', s)) ∧ restoring w' g' ∧ gr_objs g' = gr_objs g ∧ gr_refs g' = gr_refs g ∧
    gr_head g' = match o with Some h => Some h | None => gr_head g end.
Proof.
  intros R Hh. destruct o as [h|]; [|by exists w, g]. pose proof R as (C & E & _).
  destruct (gl_set_head w p g h C E (Hh h eq_refl)) as (out & w1 & E1 & C1 & P1 & H1).
  exists w1, (with_head g h). split; [unfold ignore; by rewrite (run_git_eq _ _ _ _ _ _ E1)|].
  split; [by eapply restoring_step|]. done.
Qed.

Lemma sealed_same s s' m : sealed s m → same_view s s' → sealed s' m.
Proof using HM Hr Hman Hseg.
  intros Sl [I V]. eapply sealed_frame; [done..|by apply V|]. intros i Hi. apply V; [done|].
  apply Hseg. pose proof (sl_bound _ _ Sl). lia.
Qed.

(** Restoring a sealed manifest. *)
Lemma restore_calm w s m :
  sealed s m → os_calm s → gl_calm w → gl_file w p = None →
  (∀ i, i ≤ M → gl_repo w (segment_file r i) = None) →
  ∃ w' s' g, restore_from_store r (w, s) = (Ok true, (w', s')) ∧ gl_repo w' p = Some g ∧
    gr_refs g = list_to_map ((λ t, (rt_name t, rt_oid t)) <$> last_tips m) ∧
    (∃ h0, gr_head g = Some (default h0 (sm_head m))) ∧
    (∀ o, reach gl_links (tips_oids (last_tips m)) o → o ∈ gr_objs g) ∧ sealed s' m ∧ os_calm s'.
Proof using HM Hr Hman Hseg.
  intros Sl K Cw Fp Fs. unfold restore_from_store, mbind, eff_mbind.
  destruct (on_store_get_calm w s _ Hman (sl_inv _ _ Sl) K) as (s1 & -> & Sv1 & K1).
  pose proof (sl_manifest _ _ Sl) as Hm. unfold os_value in Hm.
  destruct (os_view s r SEAL_MANIFEST_KEY) as [b|] eqn:Eb; [|done]. cbn [mbind option_bind] in Hm.
  unfold decode_manifest, lift. rewrite Hm. cbn [ok_or].
  pose proof (sealed_same _ _ _ Sl Sv1) as Sl1.
  destruct (remove_existing_calm w s1 Cw Fp) as (w1 & -> & C1 & P1 & F1 & H1).
  destruct (init_calm w1 s1 C1 P1 F1) as (out & w2 & h0 & -> & R2).
  { intros i Hi. rewrite H1 by apply segment_file_ne. by apply Fs. }
  destruct (sl_chain _ _ Sl1) as (acc & Hc & Hacc).
  destruct (restore_segments_calm w2 (mkGitRepo ∅ ∅ (Some h0)) s1 (sm_segments m) acc) as (w3 & s3 & -> & R3 & Sv3 & K3);
    [done| |done|apply Sl1|done|].
  { apply Forall_forall. intros seg Hin%(sealed_index_lt _ _ _ Sl1). pose proof (sl_bound _ _ Sl1). lia. }
  destruct (sl_tips _ _ Sl) as [Hnd Hnames].
  assert (match last (sm_segments m) with
          | Some final_seg => eff_iter (restore_ref p) (sg_tips final_seg)
          | None => mret ()
          end (w3, s3) = eff_iter (restore_ref p) (last_tips m) (w3, s3)) as ->
    by (unfold last_tips; by destruct (last (sm_segments m))).
  destruct (restore_refs_calm w3 (with_objs (mkGitRepo ∅ ∅ (Some h0)) acc) s3 (last_tips m) R3) as (w4 & -> & R4).
  { intros o Ho. apply Hacc. by constructor. }
  { simpl. by rewrite dom_empty_L, union_empty_r_L. }
  destruct (fold_refs (last_tips m) (with_objs (mkGitRepo ∅ ∅ (Some h0)) acc) Hnd) as (Eo & Eh & Er').
  destruct (set_head_calm _ _ s3 (sm_head m) R4 (sl_head _ _ Sl)) as (w5 & g & -> & (C5 & E5 & _) & Eo5 & Er5 & Eh5).
  exists w5, s3, g. split; [done|]. split; [done|]. split; [|split; [|split; [|split; [|done]]]].
  - rewrite Er5, Er'. simpl. by rewrite map_union_empty.
  - exists h0. rewrite Eh5, Eh. by destruct (sm_head m).
  - intros o Ho. rewrite Eo5, Eo. by apply Hacc.
  - by eapply sealed_same.
Qed.

(** ** Sealing *)

(** Commands that do not touch the store. *)
Definition keeps_store {A} (c : eff FS ForgeError A) : Prop :=
  ∀ (ws : W * St), (c ws).2.2 = ws.2.

Lemma keeps_on_work {A} (c : eff W ForgeError A) : keeps_store (on_work c).
Proof. intros [w s]. unfold on_work. simpl. by destruct (c w). Qed.

Lemma keeps_bind {A B} (c : eff FS ForgeError A) (f : A → eff FS ForgeError B) :
  keeps_store c → (∀ a, keeps_store (f a)) → keeps_store (c ≫= f).
Proof.
  intros Hc Hf ws. unfold mbind, eff_mbind. specialize (Hc ws). destruct (c ws) as [[a|e] ws1]; simpl in *; [|done].
  by rewrite Hf.
Qed.

Lemma keeps_ret {A} (a : A) : keeps_store (mret a).
Proof. done. Qed.

Lemma keeps_run_git d args : keeps_store (run_git d args).
Proof. apply keeps_bind; [apply keeps_on_work|]. intros. apply keeps_ret. Qed.

Lemma keeps_bundle_bytes path nots : keeps_store (bundle_bytes r path nots).
Proof.
  intros ws. unfold bundle_bytes. pose proof (keeps_run_git (AtEntry path)
    (lits ["bundle"; "create"] ++ PathOf tmp :: Lit "--all" :: not_args nots) ws) as H1.
  destruct (run_git _ _ ws) as [[out|e] ws1]; simpl in H1.
  - pose proof (keeps_on_work (w_read tmp) ws1) as H2. destruct (on_work (w_read tmp) ws1) as [b ws2].
    simpl in H2. pose proof (keeps_on_work (w_remove_file tmp) ws2) as H3. simpl. congruence.
  - pose proof (keeps_on_work (w_remove_file tmp) ws1) as H3. simpl. congruence.
Qed.

Lemma keeps_existing_oids path oids : keeps_store (existing_oids path oids).
Proof.
  induction oids as [|o oids IH]; [apply keeps_ret|]. cbn [existing_oids]. apply keeps_bind.
  - intros ws. unfold succeeds. pose proof (keeps_run_git (AtEntry path) (lits ["cat-file"; "-e"; o]) ws) as H.
    by destruct (run_git _ _ ws).
  - intros b. apply keeps_bind; [done|]. intros. apply keeps_ret.
Qed.

Lemma keeps_has_new path nots : keeps_store (has_new_objects path nots).
Proof. apply keeps_bind; [apply keeps_run_git|]. intros. apply keeps_ret. Qed.

Lemma keeps_current_tips path : keeps_store (current_tips path).
Proof. apply keeps_bind; [apply keeps_run_git|]. intros. apply keeps_ret. Qed.

Lemma keeps_current_head path : keeps_store (current_head path).
Proof.
  intros ws. unfold current_head. pose proof (keeps_run_git (AtEntry path) (lits ["symbolic-ref"; "HEAD"]) ws) as H.
  by destruct (run_git _ _ ws).
Qed.

(** [on_store] of an operation. *)
Lemma on_store_inv {A} (c : eff St Er A) (w : W) s res ws :
  on_store c (w, s) = (res, ws) →
  ∃ res0 s', c s = (res0, s') ∧ res = map_err (λ _, FStoreErr) res0 ∧ ws = (w, s').
Proof. unfold on_store. simpl. destruct (c s) as [r0 s']. intros [= <- <-]. by exists r0, s'. Qed.

Lemma zeros_parse n s : parse_digits 0 (as_bytes (zeros n +:+ s)) = parse_digits 0 (as_bytes s).
Proof. induction n as [|n IH]; [done|]. by rewrite <-IH. Qed.

Lemma segment_key_inj i j : i ≤ M → j ≤ M → segment_key i = segment_key j → i = j.
Proof using HM.
  intros Hi Hj E. unfold segment_key in E. apply (inj _) in E. unfold pad8 in E.
  apply (f_equal (λ s, parse_digits 0 (as_bytes s))) in E. rewrite !zeros_parse, !parse_pretty in E.
  - by injection E.
  - unfold u64_max. lia.
  - unfold u64_max. lia.
Qed.

Lemma segment_key_ne_manifest i : segment_key i ≠ SEAL_MANIFEST_KEY.
Proof. done. Qed.
Lemma segment_key_ne_legacy i : segment_key i ≠ LEGACY_BUNDLE_KEY.
Proof. done. Qed.

(** The views the forge cares about, except that of one key. *)
Definition keeps_views (k : string) (s s' : St) : Prop :=
  os_inv s' ∧
  (k ≠ SEAL_MANIFEST_KEY → os_view s' r SEAL_MANIFEST_KEY = os_view s r SEAL_MANIFEST_KEY) ∧
  ∀ i, i ≤ M → k ≠ segment_key i → os_view s' r (segment_key i) = os_view s r (segment_key i).

Lemma put_views k v (w : W) s res ws :
  os_id k → os_inv s → on_store (os_put r k v) (w, s) = (res, ws) →
  ws.1 = w ∧ keeps_views k s ws.2 ∧ os_view ws.2 r k = if is_ok res then Some v else os_view s r k.
Proof using Hr Hman Hseg.
  intros Hk I (r0 & s' & E & -> & ->)%on_store_inv. destruct (os_put_spec _ _ _ _ _ _ Hr Hk I E) as [I' V].
  split; [done|]. simpl. split; [split; [done|]; split|].
  - intros Hne. rewrite V by done. rewrite bool_decide_eq_false_2 by congruence. by rewrite andb_false_r.
  - intros i Hi Hne. rewrite V by auto. rewrite bool_decide_eq_false_2 by congruence. by rewrite andb_false_r.
  - rewrite V by done. rewrite bool_decide_eq_true_2 by done. rewrite andb_true_r. by destruct r0.
Qed.

Lemma delete_views k (w : W) s :
  os_id k → os_inv s →
  let ws := (ignore (on_store (os_delete r k)) (w, s)).2 in ws.1 = w ∧ keeps_views k s ws.2.
Proof using Hr Hman Hseg.
  intros Hk I ws. unfold ignore in ws. destruct (on_store (os_delete r k) (w, s)) as [res ws'] eqn:E.
  apply on_store_inv in E as (r0 & s' & E & _ & ->). destruct (os_delete_spec _ _ _ _ _ Hr Hk I E) as [I' V].
  split; [done|]. simpl. split; [done|]. split.
  - intros Hne. rewrite V by done. rewrite bool_decide_eq_false_2 by congruence. by rewrite andb_false_r.
  - intros i Hi Hne. rewrite V by auto. rewrite bool_decide_eq_false_2 by congruence. by rewrite andb_false_r.
Qed.

Lemma finish_seal_spec head m (w : W) s res ws :
  os_inv s → finish_seal r head m (w, s) = (res, ws) →
  let m' := mkManifest SEAL_MANIFEST_VERSION head (sm_segments m) in
  ws.1 = w ∧ os_inv ws.2 ∧
  (∀ i, i ≤ M → os_view ws.2 r (segment_key i) = os_view s r (segment_key i)) ∧
  os_view ws.2 r SEAL_MANIFEST_KEY = if is_ok res then Some (to_vec m') else os_view s r SEAL_MANIFEST_KEY.
Proof using Hr Hman Hleg Hseg.
  intros I. unfold finish_seal, store_manifest, mbind, eff_mbind.
  destruct (on_store _ (w, s)) as [r1 ws1] eqn:E1.
  destruct (put_views _ _ _ _ _ _ Hman I E1) as (Hw1 & (I1 & _ & V1) & Vm).
  assert (∀ i, i ≤ M → os_view ws1.2 r (segment_key i) = os_view s r (segment_key i)) as V1'.
  { intros i Hi. apply V1; [done|]. apply not_eq_sym, segment_key_ne_manifest. }
  destruct r1 as [[]|e]; [|by intros [= <- <-]]. destruct ws1 as [w1 s1]. simpl in *.
  destruct (delete_views LEGACY_BUNDLE_KEY w1 s1 Hleg I1) as (Hw2 & I2 & Vm2 & V2).
  intros E2. assert (res = Ok () ∧ ws = (ignore (on_store (os_delete r LEGACY_BUNDLE_KEY)) (w1, s1)).2) as [-> ->].
  { revert E2. unfold ignore. by intros [= <- <-]. }
  split; [congruence|]. split; [done|]. split.
  - intros i Hi. rewrite V2; [by apply V1'|done|]. apply not_eq_sym, segment_key_ne_legacy.
  - rewrite Vm2 by done. exact Vm.
Qed.

(** The index of the next segment is the number of segments. *)
Lemma next_index s m :
  sealed s m → lengthN (sm_segments m) < M →
  match last (sm_segments m) with Some sg => (sg_index sg + 1) mod 2 ^ 32 | None => 0 end = lengthN (sm_segments m).
Proof using HM.
  intros Sl Hlt. destruct (last (sm_segments m)) as [sg|] eqn:E.
  - rewrite last_lookup in E. rewrite (sl_index _ _ Sl _ _ E). pose proof (lookup_lt_Some _ _ _ E).
    rewrite N.mod_small by lia. lia.
  - apply last_None in E. by destruct (sl_nonempty _ _ Sl).
Qed.

(** Appending a segment, whatever happens, does not touch what is there. *)
Lemma append_keeps old tips m w s res ws :
  sealed s m → lengthN (sm_segments m) < M → append_delta_segment r p old tips m (w, s) = (res, ws) →
  sealed ws.2 m.
Proof using HM Hr Hman Hseg.
  intros Sl Hlt. unfold append_delta_segment. rewrite (next_index _ _ Sl Hlt). unfold mbind, eff_mbind.
  pose proof (keeps_existing_oids p (tips_oids old) (w, s)) as K1.
  destruct (existing_oids p (tips_oids old) (w, s)) as [[oids|e] [w1 s1]]; simpl in K1; subst s1; [|by intros [= <- <-]].
  pose proof (keeps_has_new p oids (w1, s)) as K2.
  destruct (has_new_objects p oids (w1, s)) as [[b|e] [w2 s2]]; simpl in K2; subst s2; [|by intros [= <- <-]].
  destruct b; [|by intros [= <- <-]].
  pose proof (keeps_bundle_bytes p oids (w2, s)) as K3.
  destruct (bundle_bytes r p oids (w2, s)) as [[b|e] [w3 s3]]; simpl in K3; subst s3; [|by intros [= <- <-]].
  destruct (on_store _ (w3, s)) as [r4 ws4] eqn:E4.
  apply put_views in E4 as (_ & (I4 & Vm & Vs) & _); [|apply Hseg; lia|apply Sl].
  assert (sealed ws4.2 m) as Sl4.
  { eapply sealed_frame; [done..|by apply Vm|]. intros i Hi. apply Vs; [lia|].
    intros E%segment_key_inj; lia. }
  destruct r4 as [[]|e]; by intros [= <- <-].
Qed.

Lemma ref_oids_tips g tips : tips_of g tips → ∀ o, o ∈ tips_oids tips ↔ o ∈ ref_oids (gr_refs g).
Proof.
  unfold tips_of, tips_oids, ref_oids. intros H o.
  assert (rt_oid <$> tips ≡ₚ (map_to_list (gr_refs g)).*2) as Hp by by rewrite H, <-list_fmap_compose.
  by rewrite Hp.
Qed.

(** What the segments have after a delta was appended. *)
Lemma append_sealed tips m w g s m1 w1 s1 :
  sealed s m → lengthN (sm_segments m) < M → working w g → repo_ok g →
  append_delta_segment r p (last_tips m) tips m (w, s) = (Ok m1, (w1, s1)) →
  working w1 g ∧ os_inv s1 ∧ ∃ seg acc, sm_segments m1 = sm_segments m ++ [seg] ∧
    sg_index seg = lengthN (sm_segments m) ∧ sg_tips seg = tips ∧ chain s1 ∅ (sm_segments m ++ [seg]) acc ∧
    ∀ o, reach gl_links (ref_oids (gr_refs g)) o → o ∈ acc.
Proof using HM Hr Hman Hseg.
  intros Sl Hlt Hw Hok E. pose proof (append_keeps _ _ _ _ _ _ _ Sl Hlt E) as Sl1. revert E.
  unfold append_delta_segment. rewrite (next_index _ _ Sl Hlt). unfold mbind, eff_mbind.
  destruct (existing_oids_calm w g s (tips_oids (last_tips m)) Hw) as (w2 & -> & Hw2).
  set (nots := filter _ _). assert (Forall (λ o, o ∈ gr_objs g) nots) as Fn.
  { apply Forall_forall. by intros o [? _]%list_elem_of_filter. }
  destruct (sl_chain _ _ Sl) as (acc & Hc & Hacc).
  assert (∀ o, reach gl_links nots o → o ∈ acc) as Hnots.
  { intros o Ho. apply Hacc. eapply reach_mono; [|exact Ho]. intros x [_ Hx]%list_elem_of_filter. by constructor. }
  destruct (has_new_objects_calm w2 g s nots Hw2 Fn) as (b & w3 & -> & Hw3 & Hb). destruct b.
  - destruct (bundle_bytes_calm w3 g s nots Hw3 Hok Fn) as (res & w4 & -> & Hw4 & Hres).
    destruct res as [b|e]; [|done]. destruct (Hres b eq_refl) as (objs & pre & Hbun & Hcov & Hpre).
    destruct (on_store _ (w4, s)) as [r5 ws5] eqn:E5.
    apply put_views in E5 as (Hw5 & (I5 & Vm & Vs) & Vk); [|apply Hseg; lia|apply Sl].
    destruct r5 as [[]|e]; [|done]. intros [= <- ->]. simpl in *. subst. split; [done|]. split; [done|].
    eexists _, (objs ∪ acc). split; [done|]. split; [done|]. split; [done|]. split.
    + eapply chain_app.
      * eapply chain_frame; [|exact Hc]. intros seg Hin%(sealed_index_lt _ _ _ Sl). apply Vs; [lia|].
        intros ?%segment_key_inj; lia.
      * eapply chain_payload; [done|exact Vk|exact Hbun| |constructor]. intros o Ho. apply Hnots.
        eapply reach_mono; [|exact Ho]. done.
    + intros o Ho. apply elem_of_union. destruct (Hcov o Ho) as [?|?]; [by left|right; by apply Hnots].
  - intros [= <- <- <-]. split; [done|]. split; [apply Sl|].
    eexists _, acc. split; [done|]. split; [done|]. split; [done|]. split.
    + eapply chain_app; [done|]. by apply chain_refs; [|constructor].
    + intros o Ho. by apply Hnots, Hb.
Qed.

(** A repository with nothing sealed yet, or sealed with a manifest. *)
Definition seal_state (s : St) (o : option SealManifest) : Prop :=
  match o with
  | Some m => sealed s m
  | None => os_inv s ∧ os_view s r SEAL_MANIFEST_KEY = None
  end.

Lemma seal_state_inv s o : seal_state s o → os_inv s.
Proof. destruct o; [apply sl_inv|by intros []]. Qed.

Lemma seal_state_same s s' o : seal_state s o → same_view s s' → seal_state s' o.
Proof using HM Hr Hman Hseg.
  destruct o as [m|]; simpl; [by apply sealed_same|]. intros [_ V] [I V']. split; [done|]. by rewrite V'.
Qed.

Lemma delete_segments_inv segs (w : W) s :
  Forall (λ seg, sg_index seg ≤ M) segs → os_inv s →
  ∃ s', eff_iter (λ seg, ignore (on_store (os_delete r (segment_key (sg_index seg))))) segs (w, s) = (Ok (), (w, s')) ∧
    os_inv s' ∧ os_view s' r SEAL_MANIFEST_KEY = os_view s r SEAL_MANIFEST_KEY.
Proof using HM Hr Hman Hseg.
  revert s. induction segs as [|seg segs IH]; intros s F I; [by exists s|].
  apply Forall_cons in F as [Hi F]. cbn [eff_iter]. unfold mbind, eff_mbind.
  destruct (delete_views (segment_key (sg_index seg)) w s (Hseg _ Hi) I) as (Hw & I1 & V1 & _).
  unfold ignore at 1. destruct (on_store _ (w, s)) as [res [w1 s1]] eqn:E.
  unfold ignore in Hw, I1, V1. rewrite E in Hw, I1, V1. simpl in *. subst w1.
  destruct (IH s1 F I1) as (s2 & E2 & I2 & V2). exists s2. split; [done|]. split; [done|].
  rewrite V2. by apply V1.
Qed.

Lemma write_base_spec tips m w g s m1 w1 s1 :
  Forall (λ seg, sg_index seg ≤ M) (sm_segments m) → os_inv s → working w g → repo_ok g →
  write_base_segment r p tips m (w, s) = (Ok m1, (w1, s1)) →
  working w1 g ∧ os_inv s1 ∧ os_view s1 r SEAL_MANIFEST_KEY = os_view s r SEAL_MANIFEST_KEY ∧
  ∃ n acc, sm_segments m1 = [mkSegment 0 true n tips] ∧ chain s1 ∅ (sm_segments m1) acc ∧
    ∀ o, reach gl_links (ref_oids (gr_refs g)) o → o ∈ acc.
Proof using HM Hr Hman Hseg.
  intros F I Hw Hok. unfold write_base_segment, mbind, eff_mbind.
  destruct (bundle_bytes_calm w g s [] Hw Hok ltac:(constructor)) as (res & w2 & -> & Hw2 & Hres).
  destruct res as [b|e]; [|done]. destruct (Hres b eq_refl) as (objs & pre & Hbun & Hcov & Hpre).
  destruct (delete_segments_inv (sm_segments m) w2 s F I) as (s2 & -> & I2 & V2).
  destruct (on_store _ (w2, s2)) as [r3 ws3] eqn:E3.
  apply put_views in E3 as (Hw3 & (I3 & Vm & Vs) & Vk); [|apply Hseg; lia|done].
  destruct r3 as [[]|e]; [|done]. intros [= <- ->]. simpl in *. subst. split; [done|]. split; [done|].
  split; [rewrite Vm; [done|apply segment_key_ne_manifest]|].
  eexists _, (objs ∪ ∅). split; [done|]. split.
  - eapply chain_payload; [done|exact Vk|exact Hbun| |constructor]. intros o Ho. exfalso.
    eapply (reach_nil gl_links o), reach_mono; [|exact Ho]. done.
  - intros o Ho. apply elem_of_union. destruct (Hcov o Ho) as [?|?%reach_nil]; [by left|done].
Qed.

Lemma tips_names w g tips :
  gl_repo w p = Some g → tips_of g tips →
  NoDup (rt_name <$> tips) ∧ gl_names (list_to_set (rt_name <$> tips)) ∧
  list_to_map ((λ t, (rt_name t, rt_oid t)) <$> tips) = gr_refs g.
Proof.
  intros E H.
  assert (rt_name <$> tips ≡ₚ (map_to_list (gr_refs g)).*1) as Hp by by rewrite H, <-list_fmap_compose.
  assert ((λ t, (rt_name t, rt_oid t)) <$> tips ≡ₚ map_to_list (gr_refs g)) as Hl.
  { rewrite H, <-list_fmap_compose. replace (_ <$> map_to_list (gr_refs g)) with (map_to_list (gr_refs g)); [done|].
    rewrite <-(list_fmap_id (map_to_list (gr_refs g))) at 1. apply list_fmap_ext. by intros ? []. }
  split; [rewrite Hp; apply NoDup_fst_map_to_list|]. split.
  - eapply gl_names_sub; [by eapply gl_refs_names|]. intros n. rewrite elem_of_list_to_set, Hp, elem_of_dom.
    rewrite list_elem_of_fmap. intros ([n' o] & -> & Hin%elem_of_map_to_list). simpl. eauto.
  - rewrite <-(list_to_map_to_list (gr_refs g)). apply list_to_map_proper; [|done].
    rewrite <-list_fmap_compose. change (NoDup (rt_name <$> tips)). rewrite Hp. apply NoDup_fst_map_to_list.
Qed.

(** The manifest that [finish_seal] stores is sealed. *)
Lemma finish_sealed w g s head m tips acc w' s' :
  working w g → repo_ok g → os_inv s → tips_of g tips → head = gr_head g →
  lengthN (sm_segments m) ≤ M → (∃ seg, last (sm_segments m) = Some seg ∧ sg_tips seg = tips) →
  (∀ i seg, sm_segments m !! i = Some seg → sg_index seg = N.of_nat i) →
  chain s ∅ (sm_segments m) acc → (∀ o, reach gl_links (ref_oids (gr_refs g)) o → o ∈ acc) →
  finish_seal r head m (w, s) = (Ok (), (w', s')) →
  w' = w ∧ ∃ m', sealed s' m' ∧ tips_of g (last_tips m') ∧ sm_head m' = gr_head g.
Proof using HM Hr Hman Hleg Hseg.
  intros Hw Hok I Ht -> Hlen (seg & Hlast & Htips) Hidx Hc Hacc E.
  destruct (finish_seal_spec _ _ _ _ _ _ I E) as (Hw' & I' & Vs & Vm). simpl in *. split; [done|].
  exists (mkManifest SEAL_MANIFEST_VERSION (gr_head g) (sm_segments m)).
  assert (last_tips (mkManifest SEAL_MANIFEST_VERSION (gr_head g) (sm_segments m)) = tips) as El
    by (unfold last_tips; simpl; by rewrite Hlast).
  destruct (tips_names w g tips) as (Hnd & Hnames & _); [apply Hw|done|].
  split; [|by rewrite El]. split; rewrite ?El; simpl; try done.
  - unfold os_value. rewrite Vm. simpl. apply from_slice_to_vec.
  - intros Hn. by rewrite Hn in Hlast.
  - exists acc. split.
    + eapply chain_frame; [|exact Hc]. intros sg [i Hi]%list_elem_of_lookup. apply Vs.
      rewrite (Hidx _ _ Hi). pose proof (lookup_lt_Some _ _ _ Hi). lia.
    + intros o Ho. apply Hacc. eapply reach_mono; [|exact Ho]. intros x Hx. constructor. by apply (ref_oids_tips g tips).
  - intros h Hh. by apply (ro_head _ Hok).
Qed.

Lemma load_manifest_spec (w : W) s o res ws :
  seal_state s o → load_manifest r (w, s) = (res, ws) →
  ws.1 = w ∧ seal_state ws.2 o ∧ ∀ m, res = Ok m → m = default manifest_default o.
Proof using HM Hr Hman Hseg.
  intros Hs. unfold load_manifest, mbind, eff_mbind. destruct (on_store _ (w, s)) as [r1 ws1] eqn:E1.
  apply on_store_inv in E1 as (r0 & s1 & E0 & -> & ->).
  destruct (os_get_spec _ _ _ _ _ Hr Hman (seal_state_inv _ _ Hs) E0) as (I1 & V1 & Ho).
  assert (seal_state s1 o) as Hs1 by (eapply seal_state_same; [done|by split]).
  destruct r0 as [ob|e]; simpl; [|by intros [= <- <-]].
  rewrite (Ho ob eq_refl). destruct o as [m|].
  - pose proof (sl_manifest _ _ Hs) as Hm. unfold os_value in Hm.
    destruct (os_view s r SEAL_MANIFEST_KEY) as [b|]; [|done]. simpl in Hm.
    unfold decode_manifest, lift. rewrite Hm. intros [= <- <-]. split; [done|]. split; [done|]. by intros ? [= <-].
  - destruct Hs as [_ ->]. intros [= <- <-]. split; [done|]. split; [done|]. by intros ? [= <-].
Qed.

(** One step of a sequence. *)
Lemma bind_eq {S E A B} (c : eff S E A) (f : A → eff S E B) (s : S) :
  (c ≫= f) s = match c s with (Ok a, s') => f a s' | (Err e, s') => (Err e, s') end.
Proof. done. Qed.

Lemma require_repo_eq (w : W) (s : St) :
  require_repo r (w, s) = (if w_exists w p then Ok p else Err (FNotFound r), (w, s)).
Proof. unfold require_repo, path_exists. rewrite bind_eq. simpl. by destruct (w_exists w p). Qed.

Lemma base_then_finish tips m w g s w' s' :
  Forall (λ seg, sg_index seg ≤ M) (sm_segments m) → 1 ≤ M → os_inv s → working w g → repo_ok g → tips_of g tips →
  (m ← write_base_segment r p tips m; finish_seal r (gr_head g) m) (w, s) = (Ok (), (w', s')) →
  ∃ m, sealed s' m ∧ tips_of g (last_tips m) ∧ sm_head m = gr_head g ∧ working w' g.
Proof using HM Hr Hman Hleg Hseg.
  intros F H1 I Hw Hok Ht. unfold mbind, eff_mbind.
  destruct (write_base_segment _ _ _ _ _) as [r4 [w4 s4]] eqn:E4. destruct r4 as [m1|e]; [|done].
  destruct (write_base_spec tips m w g s m1 w4 s4 F I Hw Hok E4) as (Hw4 & I4 & _ & n & acc & Es1 & Hc & Hacc).
  intros E5. destruct (finish_sealed w4 g s4 _ m1 tips acc w' s' Hw4 Hok I4 Ht eq_refl) as (-> & m' & ? & ? & ?);
    [| | |done..|by exists m']; rewrite Es1.
  - simpl. lia.
  - by eexists.
  - intros [|i] seg; [by intros [= <-]|done].
Qed.

Lemma append_then_finish tips m w g s w' s' :
  sealed s m → lengthN (sm_segments m) < M → working w g → repo_ok g → tips_of g tips →
  (m ← append_delta_segment r p (last_tips m) tips m; finish_seal r (gr_head g) m) (w, s) = (Ok (), (w', s')) →
  ∃ m, sealed s' m ∧ tips_of g (last_tips m) ∧ sm_head m = gr_head g ∧ working w' g.
Proof using HM Hr Hman Hleg Hseg.
  intros Sl Hlt Hw Hok Ht. unfold mbind, eff_mbind.
  destruct (append_delta_segment _ _ _ _ _ _) as [r4 [w4 s4]] eqn:E4. destruct r4 as [m1|e]; [|done].
  destruct (append_sealed tips m w g s m1 w4 s4 Sl Hlt Hw Hok E4)
    as (Hw4 & I4 & seg & acc & Es1 & Hi & Hst & Hc & Hacc). rewrite <-Es1 in Hc.
  intros E5. destruct (finish_sealed w4 g s4 _ m1 tips acc w' s' Hw4 Hok I4 Ht eq_refl) as (-> & m' & ? & ? & ?);
    [| | |done..|by exists m']; rewrite Es1.
  - rewrite length_app. simpl. lia.
  - rewrite last_snoc. by eexists.
  - intros i sg. rewrite lookup_app_Some. intros [Hl|[Hge Hl]]; [by apply (sl_index _ _ Sl)|].
    apply list_lookup_singleton_Some in Hl as [Hz <-]. rewrite Hi. lia.
Qed.

(** Sealing records the repository: a successful [seal_to_store] leaves a sealed
    manifest with the current refs and [HEAD]. *)
Lemma seal_records max_segs w g s o w' s' :
  1 ≤ M → max_segs ≤ M → working w g → repo_ok g → seal_state s o →
  seal_to_store max_segs r (w, s) = (Ok (), (w', s')) →
  ∃ m, sealed s' m ∧ tips_of g (last_tips m) ∧ sm_head m = gr_head g ∧ working w' g.
Proof using HM Hr Hman Hleg Hseg.
  intros H1 HmM Hw Hok Hs. unfold seal_to_store. rewrite bind_eq, require_repo_eq.
  assert (w_exists w p = true) as -> by (apply gl_exists; left; destruct Hw as (_ & -> & _); eauto).
  rewrite bind_eq.
  destruct (on_store (os_init r) (w, s)) as [r0 ws0] eqn:E0. apply on_store_inv in E0 as (r0' & s0 & E0 & -> & ->).
  destruct (os_init_spec _ _ _ _ Hr (seal_state_inv _ _ Hs) E0) as [I0 V0].
  assert (seal_state s0 o) as Hs0 by (eapply seal_state_same; [done|split; auto]).
  destruct r0' as [[]|e]; [|done]. cbn [map_err]. rewrite bind_eq.
  destruct (current_tips_calm w g s0 Hw (ro_text _ Hok)) as (tips & w1 & -> & Hw1 & Ht).
  rewrite bind_eq.
  destruct (current_head_calm w1 g s0 Hw1 Hok) as (w2 & -> & Hw2).
  rewrite bind_eq.
  destruct (load_manifest r (w2, s0)) as [r3 [w3 s3]] eqn:E3.
  destruct (load_manifest_spec _ _ _ _ _ Hs0 E3) as (Hw3 & Hs3 & Hm). simpl in Hw3, Hs3. subst w3.
  destruct r3 as [m|e]; [|done]. specialize (Hm m eq_refl). destruct o as [m0|]; simpl in Hm; subst m.
  2:{ apply (base_then_finish tips manifest_default w2 g s3); [constructor|done|apply Hs3|done..]. }
  destruct (sm_segments m0) as [|sg0 sgs] eqn:Es; [by destruct (sl_nonempty _ _ Hs3)|]. rewrite <-Es. clear Es.
  destruct (bool_decide _ && bool_decide _) eqn:Ed.
  { apply andb_true_iff in Ed as [Et%bool_decide_eq_true Eh%bool_decide_eq_true]. intros [= <- <-].
    exists m0. by rewrite Et. }
  destruct (N.leb_spec max_segs (lengthN (sm_segments m0))) as [Hfull|Hroom].
  - apply (base_then_finish tips m0 w2 g s3); [|done|apply Hs3|done..].
    apply Forall_forall. intros seg Hin%(sealed_index_lt _ _ _ Hs3). pose proof (sl_bound _ _ Hs3). lia.
  - apply (append_then_finish tips m0 w2 g s3); [done|lia|done..].
Qed.

(** A seal that fails keeps the last one, unless it was compacting: whichever
    command or store operation failed, the manifest that was stored is still there
    with its segments.  Nothing is assumed of git. *)
Lemma failed_seal_keeps max_segs w s m e w' s' :
  max_segs ≤ M → lengthN (sm_segments m) < max_segs → sealed s m →
  seal_to_store max_segs r (w, s) = (Err e, (w', s')) → sealed s' m.
Proof using HM Hr Hman Hleg Hseg.
  intros HmM Hlt Sl. unfold seal_to_store. rewrite bind_eq, require_repo_eq.
  destruct (w_exists w p); [|by intros [= <- <- <-]]. rewrite bind_eq.
  destruct (on_store (os_init r) (w, s)) as [r0 ws0] eqn:E0. apply on_store_inv in E0 as (r0' & s0 & E0 & -> & ->).
  destruct (os_init_spec _ _ _ _ Hr (sl_inv _ _ Sl) E0) as [I0 V0].
  assert (sealed s0 m) as Sl0 by (eapply sealed_same; [done|split; auto]).
  destruct r0' as [[]|e0]; [|by intros [= <- <- <-]]. cbn [map_err]. rewrite bind_eq.
  pose proof (keeps_current_tips p (w, s0)) as K1.
  destruct (current_tips p (w, s0)) as [[tips|e1] [w1 s1]]; simpl in K1; subst s1; [|by intros [= <- <- <-]].
  rewrite bind_eq.
  pose proof (keeps_current_head p (w1, s0)) as K2.
  destruct (current_head p (w1, s0)) as [[head|e2] [w2 s2]]; simpl in K2; subst s2; [|by intros [= <- <- <-]].
  rewrite bind_eq.
  destruct (load_manifest r (w2, s0)) as [r3 [w3 s3]] eqn:E3.
  destruct (load_manifest_spec _ _ (Some m) _ _ Sl0 E3) as (Hw3 & Sl3 & Hm). simpl in Hw3, Sl3. subst w3.
  destruct r3 as [m0|e3]; [|by intros [= <- <- <-]]. rewrite (Hm m0 eq_refl). simpl. clear Hm E3.
  destruct (sm_segments m) as [|sg0 sgs] eqn:Es; [by destruct (sl_nonempty _ _ Sl)|]. rewrite <-Es in *. clear Es.
  destruct (bool_decide _ && bool_decide _); [done|].
  destruct (N.leb_spec max_segs (lengthN (sm_segments m))) as [?|_]; [lia|].
  rewrite bind_eq.
  destruct (append_delta_segment _ _ _ _ _ _) as [r4 [w4 s4]] eqn:E4.
  apply append_keeps in E4; [|done|lia]. destruct r4 as [m1|e4]; [|by intros [= <- <- <-]].
  intros E5. destruct (finish_seal_spec _ _ _ _ _ _ (sl_inv _ _ E4) E5) as (_ & I5 & Vs & Vm). simpl in *.
  eapply sealed_frame; [done..|]. intros i Hi. apply Vs. lia.
Qed.
End theory.

(** ** Properties *)

Section claims.
Context {W St Er : Type} `{GL : GitLaws W} `{OS : ObjectStore St Er} `{SM : Serde SealManifest}.

(** The identifiers of a run: the repository, the two fixed keys, and segments up
    to a bound below [2^32]. *)
Definition seal_ids (r : string) (M : N) : Prop :=
  1 ≤ M < 2 ^ 32 ∧ os_id r ∧ os_id SEAL_MANIFEST_KEY ∧ os_id LEGACY_BUNDLE_KEY ∧ ∀ i, i ≤ M → os_id (segment_key i).

(** A working path on which [r] can be restored: no file has its name and no
    directory the names of the temporary bundles. *)
Definition restorable (r : string) (M : N) (w : W) : Prop :=
  gl_calm w ∧ gl_file w (repo_path r) = None ∧ ∀ i, i ≤ M → gl_repo w (segment_file r i) = None.

(** C21. Sealed repositories survive the loss of the working path.  From any sealed state
    (or none yet), take a repository whose refs lead only to objects it has, whose ref
    names are UTF-8, and whose [HEAD] names a ref in visible ASCII or is detached; and let
    [seal_to_store] (first, unchanged, delta or compacting, under a name the store accepts
    and with segment numbers below 2^32) succeed while neither git nor the disk of the
    working path fails (a [symbolic-ref] that fails is taken for a detached [HEAD]).  Then [restore_from_store], on any working path where the names are free
    and neither git nor the store fails, succeeds and gives back exactly the refs and every
    object they lead to; [HEAD] is as it was if it named a ref, and if it was detached that
    position is lost: it names the branch a new repository has.  The store stays sealed. *)
Theorem seal_restore (r : string) (M max_segs : N) (w w' w2 : W) (g : GitRepo) (s s' : St) (o : option SealManifest) :
  seal_ids r M → max_segs ≤ M → working r w g → repo_ok g → seal_state r M s o →
  seal_to_store max_segs r (w, s) = (Ok (), (w', s')) →
  os_calm s' → restorable r M w2 →
  ∃ w3 s3 g3, restore_from_store r (w2, s') = (Ok true, (w3, s3)) ∧ gl_repo w3 (repo_path r) = Some g3 ∧
    gr_refs g3 = gr_refs g ∧
    (∃ new_branch, gr_head g3 = Some (default new_branch (gr_head g))) ∧
    (∀ x, reach gl_links (ref_oids (gr_refs g)) x → x ∈ gr_objs g3) ∧
    ∃ m, seal_state r M s3 (Some m).
Proof.
  intros ([H1 HM] & Hr & Hman & Hleg & Hseg) Hmax Hw Hok Hs E K (Cw & Fp & Fs).
  destruct (seal_records r M HM Hr Hman Hleg Hseg max_segs w g s o w' s' H1 Hmax Hw Hok Hs E)
    as (m & Sl & Ht & Hh & Hw').
  destruct (restore_calm r M HM Hr Hman Hseg w2 s' m Sl K Cw Fp Fs) as (w3 & s3 & g3 & E3 & P3 & Er3 & (h0 & Eh3) & Eo3 & Sl3 & _).
  exists w3, s3, g3. split; [done|]. split; [done|].
  destruct (tips_names r w' g (last_tips m)) as (_ & _ & Hm); [apply Hw'|done|].
  split; [by rewrite Er3|]. split; [exists h0; congruence|]. split; [|by exists m].
  intros x Hx. apply Eo3. eapply reach_mono; [|exact Hx]. intros y Hy. constructor. by apply (ref_oids_tips g).
Qed.

(** C23. A seal that fails does not lose the previous one: below the compaction
    limit, whatever command of git or write of the store made [seal_to_store] fail,
    restoring gives the refs of the last manifest that was stored and every object
    they lead to. *)
Theorem failed_seal_restores (r : string) (M max_segs : N) (w w' w2 : W) (s s' : St) (m : SealManifest) (e : ForgeError) :
  seal_ids r M → max_segs ≤ M → sealed r M s m → lengthN (sm_segments m) < max_segs →
  seal_to_store max_segs r (w, s) = (Err e, (w', s')) →
  os_calm s' → restorable r M w2 →
  ∃ w3 s3 g3, restore_from_store r (w2, s') = (Ok true, (w3, s3)) ∧ gl_repo w3 (repo_path r) = Some g3 ∧
    gr_refs g3 = list_to_map ((λ t, (rt_name t, rt_oid t)) <$> last_tips m) ∧
    (∀ x, reach gl_links (tips_oids (last_tips m)) x → x ∈ gr_objs g3).
Proof.
  intros ([H1 HM] & Hr & Hman & Hleg & Hseg) Hmax Sl Hlt E K (Cw & Fp & Fs).
  pose proof (failed_seal_keeps r M HM Hr Hman Hleg Hseg max_segs w s m e w' s' Hmax Hlt Sl E) as Sl'.
  destruct (restore_calm r M HM Hr Hman Hseg w2 s' m Sl' K Cw Fp Fs) as (w3 & s3 & g3 & E3 & P3 & Er3 & _ & Eo3 & _).
  exists w3, s3, g3. done.
Qed.
End claims.
