(* ===== verification/ForgeToy.v ===== *)
(** An executable git for [ForgeTheory]: repositories are maps, an object is its
    own id, and the object it links to is its tail ("cba" leads to "ba" and "a").
    With it the theorems about sealing run on concrete data. *)

From S2P Require Import Prelude Text BTree Backend Toy ObjectStore Store Forge ForgeTheory.

(** ** Objects *)

Definition toy_links (o : string) : list string :=
  match o with String _ (String c s) => [String c s] | _ => [] end.

Fixpoint suffixes (o : string) : list string :=
  match o with
  | String c s => String c s :: suffixes s
  | EmptyString => []
  end.

Lemma suffixes_reach roots o : (∃ x, x ∈ roots ∧ x ≠ "" ∧ o ∈ suffixes x) → reach toy_links roots o.
Proof.
  intros (x & Hx & Hne & Ho). apply (reach_root toy_links) in Hx. revert Hx Ho. induction x as [|c x IH]; [done|].
  intros Hr [->|Ho]%elem_of_cons; [done|]. destruct x as [|c' x]; [by apply elem_of_nil in Ho|].
  apply IH; [done| |done]. eapply reach_link; [exact Hr|]. by left.
Qed.

Lemma suffixes_link x o o' : o ∈ suffixes x → o' ∈ toy_links o → o' ∈ suffixes x.
Proof.
  induction x as [|c x IH]; [by intros ?%elem_of_nil|]. intros [->|Ho]%elem_of_cons Hl.
  - right. destruct x as [|c' x]; [by apply elem_of_nil in Hl|].
    apply list_elem_of_singleton in Hl as ->. by left.
  - right. by apply IH.
Qed.

Lemma reach_suffixes roots o : Forall (λ x, x ≠ "") roots → reach toy_links roots o → ∃ x, x ∈ roots ∧ o ∈ suffixes x.
Proof.
  intros F. induction 1 as [o Ho|o o' _ (x & Hx & Hs) Hl].
  - exists o. split; [done|]. rewrite Forall_forall in F. specialize (F o Ho). destruct o; [done|]. by left.
  - exists x. split; [done|]. by eapply suffixes_link.
Qed.

Definition closure (roots : list string) : gset string := list_to_set (roots ≫= suffixes).

Lemma elem_of_closure roots o : o ∈ closure roots ↔ ∃ x, x ∈ roots ∧ o ∈ suffixes x.
Proof.
  unfold closure. rewrite elem_of_list_to_set, list_elem_of_bind. split; intros (x & ? & ?); eauto.
Qed.

Lemma closure_reach roots o : Forall (λ x, x ≠ "") roots → o ∈ closure roots ↔ reach toy_links roots o.
Proof.
  intros F. rewrite elem_of_closure. split; [|by apply reach_suffixes].
  intros (x & Hx & Ho). apply suffixes_reach. exists x. split; [done|]. rewrite Forall_forall in F. by split; [apply F|].
Qed.

(** ** Well-formed names *)

Definition toy_name (n : string) : Prop :=
  n ≠ "" ∧ (x20 ∉ as_bytes n) ∧ (NL ∉ as_bytes n) ∧ (CR ∉ as_bytes n).
Definition toy_oid (o : string) : Prop := o ≠ "" ∧ Forall (λ b, 32 < Byte.to_N b ∧ Byte.to_N b < 128) (as_bytes o).

Lemma toy_oid_visible o : toy_oid o → visible_text (as_bytes o).
Proof. intros [Hne F]. split; [by destruct o|]. eapply Forall_impl; [exact F|]. done. Qed.

Definition toy_ok (g : GitRepo) : Prop :=
  Forall toy_name (map_to_list (gr_refs g)).*1 ∧ Forall toy_oid (map_to_list (gr_refs g)).*2 ∧
  Forall toy_oid (elements (gr_objs g)).
Global Instance toy_ok_dec g : Decision (toy_ok g).
Proof. unfold toy_ok, toy_name, toy_oid. apply _. Defined.

Definition toy_bundle_serde : Serde (gset string * list string) := toy_serde (gset string * list string).

Definition toy_bundle (b : bytes) : option (gset string * list string) :=
  '(objs, pre) ← @from_slice _ toy_bundle_serde b;
  if decide (Forall toy_oid (elements objs)) then Some (objs, pre) else None.

(** ** Commands *)

Record ToyWork := mkToyWork { tw_repos : gmap string GitRepo; tw_files : gmap string bytes }.

Definition toy_repo (w : ToyWork) (n : string) : option GitRepo :=
  g ← tw_repos w !! n; if decide (toy_ok g) then (match tw_files w !! n with Some _ => None | None => Some g end) else None.

Definition toy_nots (rest : list garg) : list string :=
  omap (λ a, match a with Lit s => Some s | PathOf _ => None end) (drop 1 rest).

(** The objects of the refs that the excluded ones do not lead to. *)
Definition toy_new (g : GitRepo) (nots : list string) : gset string :=
  closure (ref_oids (gr_refs g)) ∖ closure nots.

Definition set_repo (w : ToyWork) (n : string) (g : GitRepo) : ToyWork :=
  mkToyWork (<[n := g]> (tw_repos w)) (tw_files w).
Definition set_file (w : ToyWork) (n : string) (b : bytes) : ToyWork :=
  mkToyWork (tw_repos w) (<[n := b]> (tw_files w)).

Definition toy_fail (w : ToyWork) : result ForgeError bytes * ToyWork := (Err (FGit "failed"), w).
Definition toy_done (w : ToyWork) : result ForgeError bytes * ToyWork := (Ok [], w).

Definition toy_read_cmd (g : GitRepo) (c : string) : option bytes :=
  if String.eqb c "for-each-ref" then Some (mjoin (tip_line <$> map_to_list (gr_refs g)))
  else if String.eqb c "symbolic-ref" then (λ h, as_bytes h ++ [NL]) <$> gr_head g
  else None.

Definition toy_set_cmd (w : ToyWork) (p : string) (g : GitRepo) (c a b : string) : result ForgeError bytes * ToyWork :=
  if String.eqb c "symbolic-ref" then toy_done (set_repo w p (with_head g b))
  else if String.eqb c "cat-file" then (if decide (b ∈ gr_objs g) then toy_done w else toy_fail w)
  else if String.eqb c "update-ref" then toy_done (set_repo w p (with_ref g a b))
  else toy_fail w.

Definition toy_unbundle (w : ToyWork) (p : string) (g : GitRepo) (f : string) : result ForgeError bytes * ToyWork :=
  match tw_files w !! f ≫= toy_bundle with
  | Some (objs, pre) =>
      if decide (closure pre ⊆ gr_objs g) then toy_done (set_repo w p (with_objs g (objs ∪ gr_objs g))) else toy_fail w
  | None => toy_fail w
  end.

Definition toy_create (w : ToyWork) (g : GitRepo) (f : string) (nots : list string) : result ForgeError bytes * ToyWork :=
  let objs := toy_new g nots in
  if decide (objs = ∅) then toy_fail w else toy_done (set_file w f (@to_vec _ toy_bundle_serde (objs, nots))).

Definition toy_git (d : cwd) (args : list garg) (w : ToyWork) : result ForgeError bytes * ToyWork :=
  match d with
  | AtRoot =>
      match args with
      | [_; _; _; PathOf p] => toy_done (set_repo w p (mkGitRepo ∅ ∅ (Some "refs/heads/main")))
      | _ => toy_fail w
      end
  | AtEntry p =>
      match tw_repos w !! p with
      | None => toy_fail w
      | Some g =>
          match args with
          | [Lit c; Lit _] => match toy_read_cmd g c with Some out => (Ok out, w) | None => toy_fail w end
          | [Lit _; Lit _; PathOf f] => toy_unbundle w p g f
          | Lit c :: Lit a :: PathOf f :: _ :: rest => toy_create w g f (toy_nots rest)
          | Lit c :: Lit a :: Lit b :: rest =>
              if String.eqb c "rev-list"
              then (Ok (mjoin ((λ o, as_bytes o ++ [NL]) <$> elements (toy_new g (toy_nots rest)))), w)
              else toy_set_cmd w p g c a b
          | _ => toy_fail w
          end
      end
  end.

#[local] Instance toy_work : WorkOps ToyWork := {
  w_git := toy_git;
  w_exists w n := match toy_repo w n, tw_files w !! n with None, None => false | _, _ => true end;
  w_read f w := match tw_files w !! f with Some b => (Ok b, w) | None => (Err FIo, w) end;
  w_write f b w := (Ok (), set_file w f b);
  w_remove_file f w := (Ok (), mkToyWork (delete f (tw_repos w)) (delete f (tw_files w)));
  w_remove_dir_all n w := (Ok (), mkToyWork (delete n (tw_repos w)) (delete n (tw_files w)));
}.

(** ** The laws hold *)

Lemma toy_repo_Some w n g :
  toy_repo w n = Some g ↔ tw_repos w !! n = Some g ∧ toy_ok g ∧ tw_files w !! n = None.
Proof.
  unfold toy_repo. destruct (tw_repos w !! n) as [g'|]; simpl; [|split; [done|by intros []]].
  destruct (decide (toy_ok g')) as [Hok|Hok]; destruct (tw_files w !! n); split; try (by intros [=]);
    try (intros (? & ? & ?); congruence).
  - intros [= <-]. done.
Qed.

Lemma toy_repo_set w n g g0 :
  toy_repo w n = Some g0 → toy_ok g →
  toy_repo (set_repo w n g) n = Some g ∧
  ∀ m, m ≠ n → toy_repo (set_repo w n g) m = toy_repo w m ∧ tw_files (set_repo w n g) !! m = tw_files w !! m.
Proof.
  intros (_ & _ & Hf)%toy_repo_Some Hok. split.
  - apply toy_repo_Some. simpl. by rewrite lookup_insert_eq.
  - intros m Hm. unfold toy_repo. simpl. by rewrite lookup_insert_ne by congruence.
Qed.

Lemma toy_repo_file w n b :
  toy_repo (set_file w n b) n = None ∧
  ∀ m, m ≠ n → toy_repo (set_file w n b) m = toy_repo w m ∧ tw_files (set_file w n b) !! m = tw_files w !! m.
Proof.
  split.
  - unfold toy_repo. simpl. rewrite lookup_insert_eq. destruct (tw_repos w !! n); simpl; [|done]. by case_decide.
  - intros m Hm. unfold toy_repo. simpl. by rewrite lookup_insert_ne by congruence.
Qed.

Lemma toy_repo_delete w n :
  let w' := mkToyWork (delete n (tw_repos w)) (delete n (tw_files w)) in
  toy_repo w' n = None ∧ tw_files w' !! n = None ∧
  ∀ m, m ≠ n → toy_repo w' m = toy_repo w m ∧ tw_files w' !! m = tw_files w !! m.
Proof.
  split; [|split].
  - unfold toy_repo. simpl. by rewrite !lookup_delete_eq.
  - simpl. by rewrite lookup_delete_eq.
  - intros m Hm. unfold toy_repo. simpl. by rewrite !lookup_delete_ne by congruence.
Qed.

Lemma toy_ok_refs g n o : toy_ok g → gr_refs g !! n = Some o → toy_name n ∧ toy_oid o.
Proof.
  intros (Fn & Fo & _) H. apply elem_of_map_to_list in H. rewrite Forall_forall in Fn, Fo.
  split; [apply Fn|apply Fo]; apply list_elem_of_fmap; by exists (n, o).
Qed.

Lemma toy_ok_obj g o : toy_ok g → o ∈ gr_objs g → toy_oid o.
Proof. intros (_ & _ & F) H. rewrite Forall_forall in F. by apply F, elem_of_elements. Qed.

Lemma toy_ref_oids_ne g : toy_ok g → Forall (λ x, x ≠ "") (ref_oids (gr_refs g)).
Proof. intros (_ & Fo & _). eapply Forall_impl; [exact Fo|]. by intros ? []. Qed.

Lemma toy_nots_not nots : toy_nots (not_args nots) = nots.
Proof.
  assert (∀ l : list string, omap (λ a, match a with Lit s => Some s | PathOf _ => None end) (Lit <$> l) = l) as H
    by (intros l; induction l as [|x l IH]; [done|]; simpl; f_equal; exact IH).
  destruct nots as [|n nots]; [done|]. exact (H (n :: nots)).
Qed.

Lemma toy_nots_ne g nots : toy_ok g → Forall (λ o, o ∈ gr_objs g) nots → Forall (λ x, x ≠ "") nots.
Proof. intros Hok F. eapply Forall_impl; [exact F|]. intros x Hx. by destruct (toy_ok_obj _ _ Hok Hx). Qed.

Lemma elem_of_toy_new g nots o :
  toy_ok g → Forall (λ o, o ∈ gr_objs g) nots →
  o ∈ toy_new g nots ↔ reach toy_links (ref_oids (gr_refs g)) o ∧ ¬ reach toy_links nots o.
Proof.
  intros Hok F. unfold toy_new. rewrite elem_of_difference, !closure_reach; [done|by eapply toy_nots_ne|by apply toy_ref_oids_ne].
Qed.

Lemma suffix_oid x o : toy_oid x → o ∈ suffixes x → toy_oid o.
Proof.
  induction x as [|c x IH]; [by intros _ ?%elem_of_nil|]. intros [Hne F] [->|Ho]%elem_of_cons; [done|].
  apply Forall_cons in F as [_ F]. destruct x as [|c' x]; [by apply elem_of_nil in Ho|]. by apply IH.
Qed.

Lemma toy_new_oid g nots o : toy_ok g → o ∈ toy_new g nots → toy_oid o.
Proof.
  intros (_ & Fo & _) Hn. unfold toy_new in Hn. apply elem_of_difference in Hn as [(x & Hx & Ho)%elem_of_closure _].
  rewrite Forall_forall in Fo. by eapply suffix_oid; [apply Fo|].
Qed.

Lemma toy_rev_list w p g nots :
  toy_repo w p = Some g → Forall (λ o, o ∈ gr_objs g) nots →
  ∃ out, toy_git (AtEntry p) (lits ["rev-list"; "--objects"; "--all"] ++ not_args nots) w = (Ok out, w) ∧
    (out = [] → ∀ o, reach toy_links (ref_oids (gr_refs g)) o → reach toy_links nots o) ∧
    (out ≠ [] → ∃ id rest, visible_text id ∧ (out = id ++ NL :: rest ∨ out = id ++ x20 :: rest)).
Proof.
  intros (E & Hok & Hf)%toy_repo_Some F.
  exists (mjoin ((λ o, as_bytes o ++ [NL]) <$> elements (toy_new g nots))).
  split; [simpl; rewrite E, toy_nots_not; by destruct nots|].
  destruct (elements (toy_new g nots)) as [|x l] eqn:El.
  - split; [|done]. intros _ o Ho. destruct (decide (o ∈ closure nots)) as [Hc|Hc].
    { apply closure_reach in Hc; [done|]. by eapply toy_nots_ne. }
    assert (o ∈ toy_new g nots) as Hin.
    { unfold toy_new. apply elem_of_difference. split; [|done]. apply closure_reach; [by apply toy_ref_oids_ne|done]. }
    apply elem_of_elements in Hin. rewrite El in Hin. by apply elem_of_nil in Hin.
  - change (mjoin ((λ o, as_bytes o ++ [NL]) <$> x :: l))
      with ((as_bytes x ++ [NL]) ++ mjoin ((λ o, as_bytes o ++ [NL]) <$> l)).
    rewrite <-app_assoc. split; [by destruct (as_bytes x)|]. intros _. eexists _, _.
    split; [|left; reflexivity]. apply toy_oid_visible, (toy_new_oid g nots); [done|].
    apply elem_of_elements. rewrite El. by left.
Qed.

Lemma toy_bundle_create w p g f nots :
  toy_repo w p = Some g → toy_repo w f = None → Forall (λ o, o ∈ gr_objs g) nots →
  ∃ r w', toy_git (AtEntry p) (lits ["bundle"; "create"] ++ PathOf f :: Lit "--all" :: not_args nots) w = (r, w') ∧
    toy_repo w' f = None ∧
    (∀ m, m ≠ f → toy_repo w' m = toy_repo w m ∧ tw_files w' !! m = tw_files w !! m) ∧
    ∀ out, r = Ok out → ∃ b objs pre, tw_files w' !! f = Some b ∧ toy_bundle b = Some (objs, pre) ∧
      (∀ o, reach toy_links (ref_oids (gr_refs g)) o → o ∈ objs ∨ reach toy_links nots o) ∧
      ∀ o, o ∈ pre → reach toy_links nots o.
Proof.
  intros (E & Hok & Hf)%toy_repo_Some Hff F.
  assert (toy_git (AtEntry p) (lits ["bundle"; "create"] ++ PathOf f :: Lit "--all" :: not_args nots) w =
    toy_create w g f nots) as -> by (simpl; by rewrite E, toy_nots_not).
  unfold toy_create. case_decide; [by eexists _, w|]. eexists _, _. split; [done|].
  destruct (toy_repo_file w f (@to_vec _ toy_bundle_serde (toy_new g nots, nots))) as [H1 H2].
  split; [done|]. split; [done|]. intros _ _. exists (@to_vec _ toy_bundle_serde (toy_new g nots, nots)), (toy_new g nots), nots.
  split; [simpl; by rewrite lookup_insert_eq|]. split; [|split].
  - unfold toy_bundle. rewrite from_slice_to_vec. cbn [mbind option_bind]. rewrite decide_True; [done|].
    apply Forall_forall. intros o Ho%elem_of_elements. by eapply toy_new_oid.
  - intros o Ho. destruct (decide (o ∈ closure nots)) as [Hc|Hc].
    + right. apply closure_reach in Hc; [done|]. by eapply toy_nots_ne.
    + left. unfold toy_new. apply elem_of_difference. split; [|done]. apply closure_reach; [by apply toy_ref_oids_ne|done].
  - intros o Ho. by constructor.
Qed.

Lemma toy_unbundle_law w p g f b objs pre :
  toy_repo w p = Some g → tw_files w !! f = Some b → toy_bundle b = Some (objs, pre) →
  (∀ o, reach toy_links pre o → o ∈ gr_objs g) →
  ∃ w', toy_git (AtEntry p) (lits ["bundle"; "unbundle"] ++ [PathOf f]) w = (Ok [], w') ∧
    toy_repo w' p = Some (with_objs g (objs ∪ gr_objs g)) ∧
    ∀ m, m ≠ p → toy_repo w' m = toy_repo w m ∧ tw_files w' !! m = tw_files w !! m.
Proof.
  intros Hg Hf Hb Hpre. pose proof Hg as (E & Hok & _)%toy_repo_Some. eexists. split.
  - simpl. rewrite E. unfold toy_unbundle. rewrite Hf. simpl. rewrite Hb. rewrite decide_True; [done|].
    intros o (x & Hx & Ho)%elem_of_closure. apply Hpre. apply suffixes_reach. exists x. split; [done|]. split; [|done].
    intros ->. by apply elem_of_nil in Ho.
  - apply (toy_repo_set w p _ g Hg). destruct Hok as (F1 & F2 & F3). split; [done|]. split; [done|].
    apply Forall_forall. intros o Ho%elem_of_elements. simpl in Ho. apply elem_of_union in Ho as [Ho|Ho].
    + revert Hb. unfold toy_bundle. destruct (from_slice b) as [[o' p']|]; [|done]. simpl.
      case_decide as Hd; [|done]. intros [= -> ->]. rewrite Forall_forall in Hd. by apply Hd, elem_of_elements.
    + rewrite Forall_forall in F3. by apply F3, elem_of_elements.
Qed.

Lemma toy_update_ref w p g n o :
  toy_repo w p = Some g → o ∈ gr_objs g → toy_name n →
  ∃ w', toy_git (AtEntry p) (lits ["update-ref"; n; o]) w = (Ok [], w') ∧
    toy_repo w' p = Some (with_ref g n o) ∧
    ∀ m, m ≠ p → toy_repo w' m = toy_repo w m ∧ tw_files w' !! m = tw_files w !! m.
Proof.
  intros Hg Ho Hn. pose proof Hg as (E & Hok & _)%toy_repo_Some. eexists. split; [simpl; by rewrite E|].
  apply (toy_repo_set w p _ g Hg). pose proof (toy_ok_obj _ _ Hok Ho) as Hoid. destruct Hok as (F1 & F2 & F3).
  unfold toy_ok. simpl. split; [|split; [|done]]; apply Forall_forall; intros x ([n' o'] & -> & Hin)%list_elem_of_fmap;
    apply elem_of_map_to_list in Hin; simpl; (apply lookup_insert_Some in Hin as [[<- <-]|[_ Hin]]; [done|]).
  - by eapply (toy_ok_refs g); [split|].
  - by eapply (toy_ok_refs g); [split|].
Qed.

Lemma toy_for_each_ref w p g :
  toy_repo w p = Some g →
  toy_git (AtEntry p) (lits ["for-each-ref"; "--format=%(objectname) %(refname)"]) w =
    (Ok (mjoin (tip_line <$> map_to_list (gr_refs g))), w).
Proof. intros (E & _)%toy_repo_Some. simpl. by rewrite E. Qed.

Lemma toy_symbolic_ref w p g :
  toy_repo w p = Some g → ∃ r, toy_git (AtEntry p) (lits ["symbolic-ref"; "HEAD"]) w = (r, w) ∧
    match gr_head g with Some h => r = Ok (as_bytes h ++ [NL]) | None => is_ok r = false end.
Proof.
  intros (E & _)%toy_repo_Some. simpl. rewrite E. unfold toy_read_cmd. simpl.
  destruct (gr_head g); simpl; by eexists.
Qed.

Lemma toy_set_head w p g h :
  toy_repo w p = Some g →
  ∃ w', toy_git (AtEntry p) (lits ["symbolic-ref"; "HEAD"; h]) w = (Ok [], w') ∧
    toy_repo w' p = Some (with_head g h) ∧
    ∀ m, m ≠ p → toy_repo w' m = toy_repo w m ∧ tw_files w' !! m = tw_files w !! m.
Proof.
  intros Hg. pose proof Hg as (E & Hok & _)%toy_repo_Some. eexists. split; [simpl; by rewrite E|].
  by apply (toy_repo_set w p _ g Hg).
Qed.

Lemma toy_cat_file w p g o :
  toy_repo w p = Some g →
  ∃ r, toy_git (AtEntry p) (lits ["cat-file"; "-e"; o]) w = (r, w) ∧ (is_ok r = true ↔ o ∈ gr_objs g).
Proof.
  intros (E & _)%toy_repo_Some. simpl. rewrite E. unfold toy_set_cmd. simpl.
  case_decide; eexists; by split.
Qed.

Lemma toy_init w p :
  toy_repo w p = None → tw_files w !! p = None →
  ∃ w', toy_git AtRoot (init_args p) w = (Ok [], w') ∧
    toy_repo w' p = Some (mkGitRepo ∅ ∅ (Some "refs/heads/main")) ∧
    ∀ m, m ≠ p → toy_repo w' m = toy_repo w m ∧ tw_files w' !! m = tw_files w !! m.
Proof.
  intros Hr Hf. eexists. split; [done|]. split.
  - apply toy_repo_Some. simpl. rewrite lookup_insert_eq. split; [done|]. split; [|done].
    unfold toy_ok. simpl. rewrite map_to_list_empty, elements_empty. by repeat constructor.
  - intros m Hm. unfold toy_repo. simpl. by rewrite lookup_insert_ne by congruence.
Qed.

#[local, refine] Instance toy_git_laws : GitLaws ToyWork := {
  gl_links := toy_links;
  gl_repo := toy_repo;
  gl_file w n := tw_files w !! n;
  gl_calm _ := True;
  gl_bundle := toy_bundle;
  gl_names N := ∀ n, n ∈ N → toy_name n;
}.
Proof.
  - intros N M HN HM n Hn. by apply HN, HM.
  - intros N n HN Hn. by apply HN.
  - intros w p g n o (_ & Hok & _)%toy_repo_Some Hl. apply toy_oid_visible. by apply (toy_ok_refs _ _ _ Hok Hl).
  - intros w p g (_ & Hok & _)%toy_repo_Some n [o Ho]%elem_of_dom. by apply (toy_ok_refs _ _ _ Hok Ho).
  - intros w n. simpl. destruct (toy_repo w n), (tw_files w !! n); split; try done; (by left) || (by right) || by intros [[]|[]].
  - intros w n [g (_ & _ & ?)%toy_repo_Some]. done.
  - intros w p _ Hr Hf. destruct (toy_init w p Hr Hf) as (w' & ? & ? & ?). by exists [], w', "refs/heads/main".
  - intros w p g _ Hg. exists (map_to_list (gr_refs g)), w. split; [by apply toy_for_each_ref|]. done.
  - intros w p g _ Hg. destruct (toy_symbolic_ref w p g Hg) as (r & ? & ?). by exists r, w.
  - intros w p g h _ Hg _. destruct (toy_set_head w p g h Hg) as (w' & ? & ? & ?). by exists [], w'.
  - intros w p g o _ Hg. destruct (toy_cat_file w p g o Hg) as (r & ? & ?). by exists r, w.
  - intros w p g nots _ Hg F. destruct (toy_rev_list w p g nots Hg F) as (out & ? & ? & ?). by exists out, w.
  - intros w p g f nots _ Hg Hf _ F. destruct (toy_bundle_create w p g f nots Hg Hf F) as (r & w' & ? & ? & ? & ?).
    by exists r, w'.
  - intros w p g f b objs pre _ Hg Hf Hb Hp. destruct (toy_unbundle_law w p g f b objs pre Hg Hf Hb Hp) as (w' & ? & ? & ?).
    by exists [], w'.
  - intros w p g n o _ Hg Ho Hn. destruct (toy_update_ref w p g n o Hg Ho) as (w' & ? & ? & ?); [|by exists [], w'].
    apply Hn, elem_of_union. left. by apply elem_of_singleton.
  - intros w f b _ Hf. exists w. simpl. by rewrite Hf.
  - intros w f b _ Hf. destruct (toy_repo_file w f b) as [? ?]. eexists. split; [done|]. split; [done|]. split; [done|].
    split; [simpl; by rewrite lookup_insert_eq|done].
  - intros w f _ _. eexists _, _. split; [done|]. split; [done|]. apply toy_repo_delete.
  - intros w p _ _. eexists. split; [done|]. split; [done|]. apply toy_repo_delete.
Defined.

(** ** Runs *)

Definition tip_code (t : RefTip) : string * string := (rt_name t, rt_oid t).
Definition tip_uncode (c : string * string) : RefTip := mkTip c.1 c.2.
Definition segment_code (s : Segment) : N * bool * N * list (string * string) :=
  (sg_index s, sg_has_payload s, sg_size s, tip_code <$> sg_tips s).
Definition segment_uncode (c : N * bool * N * list (string * string)) : Segment :=
  let '(i, b, n, l) := c in mkSegment i b n (tip_uncode <$> l).
Definition manifest_code (m : SealManifest) : N * option string * list (N * bool * N * list (string * string)) :=
  (sm_version m, sm_head m, segment_code <$> sm_segments m).
Definition manifest_uncode (c : N * option string * list (N * bool * N * list (string * string))) : SealManifest :=
  let '(v, h, l) := c in mkManifest v h (segment_uncode <$> l).

Lemma fmap_inverse {A B} (f : A → B) (g : B → A) (l : list A) : (∀ x, g (f x) = x) → g <$> (f <$> l) = l.
Proof. intros H. induction l as [|x l IH]; [done|]. exact (f_equal2 cons (H x) IH). Qed.

Lemma segment_uncode_code s : segment_uncode (segment_code s) = s.
Proof. destruct s as [i b n l]. unfold segment_uncode, segment_code. simpl. f_equal. apply fmap_inverse. by intros []. Qed.

Lemma manifest_uncode_code m : manifest_uncode (manifest_code m) = m.
Proof.
  destruct m as [v h l]. unfold manifest_uncode, manifest_code. simpl. f_equal.
  apply fmap_inverse, segment_uncode_code.
Qed.

#[local] Instance SealManifest_eq_dec : EqDecision SealManifest.
Proof. assert (EqDecision Segment) by solve_decision. solve_decision. Defined.
#[local] Instance SealManifest_countable : Countable SealManifest := inj_countable' _ _ manifest_uncode_code.
#[local] Instance toy_manifest_serde : Serde SealManifest := toy_serde SealManifest.

(** A medium whose writes fail once the given number of them is done. *)
Definition Flaky : Type := N * gmap (string * string) bytes.
#[local, program] Instance flaky_store : ObjectStore Flaky unit := {|
  os_init _ s := (Ok (), s);
  os_put r k v s := if s.1 =? 0 then (Err (), s) else (Ok (), (s.1 - 1, <[(r, k) := v]> s.2));
  os_get r k s := (Ok (s.2 !! (r, k)), s);
  os_delete r k s := (Ok (), (s.1, delete (r, k) s.2));
  os_view s r k := s.2 !! (r, k);
  os_inv _ := True;
  os_id _ := True;
  os_calm _ := True;
|}.
Next Obligation. intros r s res s' _ _ [= <- <-]. done. Qed.
Next Obligation.
  intros r k v [n m] res s' _ _ _. simpl. destruct (n =? 0); intros [= <- <-]; split; try done; intros r' k' _ _; simpl.
  case_bool_decide as Hd; [by rewrite Hd, lookup_insert_eq|by rewrite lookup_insert_ne].
Qed.
Next Obligation. intros r k s res s' _ _ _ [= <- <-]. repeat split; congruence. Qed.
Next Obligation.
  intros r k s res s' _ _ _ [= <- <-]. split; [done|]. intros r' k' _ _. simpl.
  case_bool_decide as Hd; [by rewrite Hd, lookup_delete_eq|by rewrite lookup_delete_ne].
Qed.
Next Obligation. intros r k s _ _ _ _. by exists s. Qed.

Definition toy_g1 : GitRepo := mkGitRepo {["a"]} {["m" := "a"]} (Some "refs/m").
Definition toy_g2 : GitRepo := mkGitRepo {["a"; "ba"]} {["m" := "ba"]} (Some "refs/m").
Definition toy_disk (g : GitRepo) : ToyWork := mkToyWork {["r.git" := g]} ∅.
Definition toy_lost : ToyWork := mkToyWork ∅ ∅.

(** Two seals into a store that allows [puts] writes; the second is incremental
    unless [max_segs] is one. *)
Definition toy_sealed1 (max_segs puts : N) := seal_to_store max_segs "r" (toy_disk toy_g1, ((puts, ∅) : Flaky)).
Definition toy_sealed2 (max_segs puts : N) :=
  seal_to_store max_segs "r" (toy_disk toy_g2, (toy_sealed1 max_segs puts).2.2).

Definition toy_restored (s : Flaky) : result ForgeError bool * option GitRepo :=
  let '(res, (w, _)) := restore_from_store "r" (toy_lost, s) in (res, toy_repo w "r.git").

Lemma toy_closed roots (objs : gset string) :
  Forall (λ x, x ≠ "") roots → closure roots ⊆ objs → ∀ o, reach toy_links roots o → o ∈ objs.
Proof. intros F H o Ho. by apply H, closure_reach. Qed.

Lemma toy_ids : seal_ids "r" 32.
Proof. by split. Qed.

Lemma toy_repo_ok g o :
  gr_refs g = {["m" := o]} → gr_head g = Some "refs/m" → o ≠ "" → closure [o] ⊆ gr_objs g → repo_ok g.
Proof.
  intros Hr Hh Ho Hc. split.
  - unfold ref_oids. rewrite Hr, map_to_list_singleton. apply toy_closed; [|done]. by repeat constructor.
  - intros n x. rewrite Hr. intros [<- _]%lookup_singleton_Some. done.
  - intros h. rewrite Hh. intros [= <-]. split; [|done]. split; [done|]. by repeat constructor.
Qed.

Lemma toy_working g : toy_ok g → working "r" (toy_disk g) g.
Proof.
  intros H. split; [done|]. split.
  - apply toy_repo_Some. done.
  - change (toy_repo (toy_disk g) "r.r.bundle.tmp" = None). done.
Qed.

Lemma toy_ok1 : toy_ok toy_g1 ∧ repo_ok toy_g1.
Proof. split; [by apply (bool_decide_unpack _); vm_compute|]. by apply (toy_repo_ok _ "a"). Qed.
Lemma toy_ok2 : toy_ok toy_g2 ∧ repo_ok toy_g2.
Proof. split; [by apply (bool_decide_unpack _); vm_compute|]. by apply (toy_repo_ok _ "ba"). Qed.

Lemma toy_restorable : restorable "r" 32 toy_lost.
Proof. done. Qed.

Definition toy_manifest1 : SealManifest :=
  mkManifest 1 (Some "refs/m") [mkSegment 0 true (lengthN (@to_vec _ toy_bundle_serde ({["a"]}, []))) [mkTip "m" "a"]].

Lemma run_split {A S T} (c : A * (S * T)) (a : A) : c.1 = a → c = (a, (c.2.1, c.2.2)).
Proof. destruct c as [? []]. by intros [= ->]. Qed.

Lemma toy_first_seal puts : puts = 2 ∨ puts = 4 → sealed "r" 32 (toy_sealed1 32 puts).2.2 toy_manifest1.
Proof.
  intros Hp. destruct toy_ok1 as [Hok Hro].
  assert (seal_state "r" 32 ((puts, ∅) : Flaky) None) as Hs by (split; [done|apply lookup_empty]).
  assert (toy_sealed1 32 puts = (Ok (), ((toy_sealed1 32 puts).2.1, (toy_sealed1 32 puts).2.2))) as E
    by (apply run_split; destruct Hp as [-> | ->]; vm_compute; reflexivity).
  destruct toy_ids as ([H1 HM] & Hr & Hman & Hleg & Hseg).
  destruct (seal_records "r" 32 HM Hr Hman Hleg Hseg 32 (toy_disk toy_g1) toy_g1 (puts, ∅) None _ _ H1
    (N.le_refl _) (toy_working _ Hok) Hro Hs E)
    as (m & Sl & Ht & _).
  pose proof (sl_manifest _ _ _ _ Sl) as Hm.
  assert (os_value SealManifest (toy_sealed1 32 puts).2.2 "r" SEAL_MANIFEST_KEY = Some toy_manifest1) as Hm'
    by (destruct Hp as [-> | ->]; vm_compute; reflexivity).
  pose proof (eq_trans (eq_sym Hm) Hm') as Heq. by injection Heq as ->.
Qed.

(** The second seal is a delta; what it leads to is restored on an empty disk. *)
Lemma seal_restore_witness :
  (toy_sealed2 32 4).1 = Ok () ∧
  ∃ w3 s3 g3, restore_from_store "r" (toy_lost, (toy_sealed2 32 4).2.2) = (Ok true, (w3, s3)) ∧
    toy_repo w3 "r.git" = Some g3 ∧ gr_refs g3 = {["m" := "ba"]} ∧ gr_head g3 = Some "refs/m" ∧
    "a" ∈ gr_objs g3 ∧ "ba" ∈ gr_objs g3.
Proof.
  split; [vm_compute; reflexivity|]. destruct toy_ok2 as [Hok Hro].
  destruct (seal_restore "r" 32 32 (toy_disk toy_g2) (toy_sealed2 32 4).2.1 toy_lost toy_g2 (toy_sealed1 32 4).2.2 (toy_sealed2 32 4).2.2 (Some toy_manifest1)
    toy_ids (N.le_refl _) (toy_working _ Hok) Hro (toy_first_seal 4 (or_intror eq_refl)) (run_split _ _ ltac:(vm_compute; reflexivity)) I toy_restorable)
    as (w3 & s3 & g3 & E & Hg & Hrefs & (nb & Hh) & Hobjs & _).
  exists w3, s3, g3.
  split; [done|]. split; [done|]. split; [done|]. split; [exact Hh|].
  split; apply Hobjs; apply suffixes_reach; exists "ba"; by repeat (split || constructor).
Defined.

(** The second seal fails on its first write; the first one is restored. *)
Lemma failed_seal_restores_witness :
  (toy_sealed2 32 2).1 = Err FStoreErr ∧
  ∃ w3 s3 g3, restore_from_store "r" (toy_lost, (toy_sealed2 32 2).2.2) = (Ok true, (w3, s3)) ∧
    toy_repo w3 "r.git" = Some g3 ∧ gr_refs g3 = {["m" := "a"]} ∧ "a" ∈ gr_objs g3.
Proof.
  split; [vm_compute; reflexivity|].
  destruct (failed_seal_restores "r" 32 32 (toy_disk toy_g2) (toy_sealed2 32 2).2.1 toy_lost (toy_sealed1 32 2).2.2 (toy_sealed2 32 2).2.2 toy_manifest1 FStoreErr
    toy_ids (N.le_refl _) (toy_first_seal 2 (or_introl eq_refl)) ltac:(done) (run_split _ _ ltac:(vm_compute; reflexivity)) I toy_restorable)
    as (w3 & s3 & g3 & E & Hg & Hrefs & Hobjs).
  exists w3, s3, g3.
  split; [done|]. split; [done|]. split; [done|].
  apply Hobjs; apply suffixes_reach; exists "a"; by repeat (split || constructor).
Defined.

(** Not so when the failing seal compacts: it has deleted the old segments before
    the new base is written, and the stored manifest still names them. *)
Example failed_compaction_loses_seal :
  (toy_sealed2 1 2).1 = Err FStoreErr ∧
  (toy_restored (toy_sealed2 1 2).2.2).1 = Err (FCorrupt "seal segment referenced by manifest is missing").
Proof. split; vm_compute; reflexivity. Qed.
