(* ===== verification/Git.v ===== *)
(** [crates/secgit-git/src/lib.rs]: pkt-lines, the services, and the bounded
    subprocess that runs them.

    A child process is what the server observes of it, with the time of each
    observation: the reads of its two output pipes, the end of the write to its input,
    and the answers to each poll.  A pipe that is still open after its last read blocks
    the thread that reads it.  The deadline loop is [wait_loop] over the polls; the call
    then joins the three threads, so it returns when the last of them has ended. *)

From S2P Require Import Prelude Text.

Inductive GitHttpError := GitIo | GitService (err : bytes) | UnknownService (s : string) | LimitExceeded (what : string).

Inductive Service := UploadPack | ReceivePack.

Definition service_name (s : Service) : string :=
  match s with UploadPack => "git-upload-pack" | ReceivePack => "git-receive-pack" end.
Definition subcommand (s : Service) : string :=
  match s with UploadPack => "upload-pack" | ReceivePack => "receive-pack" end.
Definition service_parse (s : string) : result GitHttpError Service :=
  if String.eqb s "git-upload-pack" then Ok UploadPack
  else if String.eqb s "git-receive-pack" then Ok ReceivePack
  else Err (UnknownService s).
Definition advertise_content_type (s : Service) : string :=
  "application/x-" +:+ service_name s +:+ "-advertisement".
Definition result_content_type (s : Service) : string :=
  "application/x-" +:+ service_name s +:+ "-result".

(** ** Pkt-lines *)

Definition hex_digit (n : N) : byte := byte_of_N (if n <? 10 then 48 + n else 87 + n).

(** [{n:x}] of a 64-bit number: sixteen digits are enough. *)
Fixpoint hex_digits (fuel : nat) (n : N) (acc : bytes) : bytes :=
  match fuel with
  | O => acc
  | S fuel =>
      let acc := hex_digit (n mod 16) :: acc in
      if n / 16 =? 0 then acc else hex_digits fuel (n / 16) acc
  end.

(** [{n:04x}]. *)
Definition hex04 (n : N) : bytes :=
  let d := hex_digits 16 n [] in repeat x30 (4 - length d) ++ d.

Definition pkt_line (payload : bytes) : bytes := hex04 (lengthN payload + 4) ++ payload.

Definition flush_pkt : bytes := as_bytes "0000".

(** ** Subprocesses *)

Record GitLimits := mkGitLimits { wall_clock : N; max_output_bytes : N; max_input_bytes : N }.

Definition git_limits_default : GitLimits :=
  mkGitLimits (120 * 10 ^ 9) (512 * 1024 * 1024) (128 * 1024 * 1024).

(** What a pipe gives: each read with its time; a read of no bytes is the end. *)
Abbreviation reads := (list (N * result unit bytes)).

(** The thread that reads the output: it stops at the end, at an error, or above the cap,
    which it flags.  [None] while it blocks. *)
Fixpoint reader_loop (max_out : N) (rs : reads) (buf : bytes) : option (N * (bytes * bool)) :=
  match rs with
  | [] => None
  | (t, Err _) :: _ | (t, Ok []) :: _ => Some (t, (buf, false))
  | (t, Ok c) :: rs =>
      let buf := buf ++ c in
      if max_out <? lengthN buf then Some (t, (buf, true)) else reader_loop max_out rs buf
  end.

(** [read_to_end], without a bound; what was read before an error stays. *)
Fixpoint read_to_end (rs : reads) (buf : bytes) : option (N * bytes) :=
  match rs with
  | [] => None
  | (t, Err _) :: _ | (t, Ok []) :: _ => Some (t, buf)
  | (t, Ok c) :: rs => read_to_end rs (buf ++ c)
  end.

(** One turn of the deadline loop: what [try_wait] answers, and the clock. *)
Record Poll := mkPoll { pl_wait : result unit (option bool); pl_now : N }.

(** A child: the clock at the start, the polls, when the thread that feeds it has ended (if
    it does), its output and its error output. *)
Record Child := mkChild {
  ch_start : N;
  ch_polls : list Poll;
  ch_fed : option N;
  ch_out : reads;
  ch_err : reads;
}.

(** The flag [over_cap] at a time: raised when the reader has ended so. *)
Definition over_cap_at (max_out : N) (rs : reads) (now : N) : bool :=
  match reader_loop max_out rs [] with Some (t, (_, true)) => t <=? now | _ => false end.

(** The loop: when it ends, the exit status (is it a success) if the child was not killed,
    and whether the deadline passed; [None] while it is still polling. *)
Fixpoint wait_loop (over : N → bool) (deadline : N) (polls : list Poll) : option (N * result GitHttpError (option bool * bool)) :=
  match polls with
  | [] => None
  | p :: polls =>
      match pl_wait p with
      | Err _ => Some (pl_now p, Err GitIo)
      | Ok (Some success) => Some (pl_now p, Ok (Some success, false))
      | Ok None =>
          if over (pl_now p) then Some (pl_now p, Ok (None, false))
          else if deadline <=? pl_now p then Some (pl_now p, Ok (None, true))
          else wait_loop over deadline polls
      end
  end.

(** When the call returns, and with what; [None] if it does not.  A failed [try_wait]
    returns without joining. *)
Definition run_bounded (child : option Child) (limits : GitLimits) : option (N * result GitHttpError bytes) :=
  let max_out := max_output_bytes limits in
  match child with
  | None => Some (0, Err GitIo)
  | Some ch =>
      '(t, r) ← wait_loop (over_cap_at max_out (ch_out ch)) (ch_start ch + wall_clock limits) (ch_polls ch);
      match r with
      | Err e => Some (t, Err e)
      | Ok (status, timed_out) =>
          t1 ← ch_fed ch;
          '(t2, (out, over_cap)) ← reader_loop max_out (ch_out ch) [];
          '(t3, err) ← read_to_end (ch_err ch) [];
          Some (N.max t (N.max t1 (N.max t2 t3)),
            if (timed_out : bool)
            then Err (LimitExceeded ("git subprocess exceeded the " +:+ pretty (wall_clock limits / 10 ^ 9) +:+ "s wall-clock cap"))
            else if over_cap || (max_out <? lengthN out)
            then Err (LimitExceeded ("git output exceeded the " +:+ pretty max_out +:+ "-byte cap"))
            else if default false status then Ok out
            else Err (GitService (from_utf8_lossy err)))
      end
  end.

(** The command line of an exchange: [git] with these arguments. *)
Definition rpc_args (repo : string) (service : Service) (limits : GitLimits) : list string :=
  match service with
  | ReceivePack =>
      ["-c"; "receive.maxInputSize=" +:+ pretty (max_input_bytes limits); "-c"; "transfer.fsckObjects=true"]
  | UploadPack => []
  end ++ [subcommand service; "--stateless-rpc"; repo].

Definition advertise_args (repo : string) (service : Service) : list string :=
  [subcommand service; "--stateless-rpc"; "--advertise-refs"; repo].

(** [spawn] is the operating system: the child for a command line and an input. *)
Definition rpc_with_limits (spawn : list string → option bytes → option Child) (repo : string) (service : Service)
    (body : bytes) (limits : GitLimits) : option (result GitHttpError bytes) :=
  snd <$> run_bounded (spawn (rpc_args repo service limits) (Some body)) limits.

Definition advertise_refs_with_limits (spawn : list string → option bytes → option Child) (repo : string)
    (service : Service) (limits : GitLimits) : option (result GitHttpError bytes) :=
  r ← snd <$> run_bounded (spawn (advertise_args repo service) None) limits;
  Some (output ← r;
        Ok (pkt_line (as_bytes ("# service=" +:+ service_name service) ++ [NL]) ++ flush_pkt ++ output)).

(** ** Pkt-lines read back

    The format of git's protocol documentation: four hexadecimal digits give the
    length of the line with its prefix; [0000] is a flush. *)

Definition hex_digit_value (b : byte) : option N :=
  let n := Byte.to_N b in
  if in_range 48 57 b then Some (n - 48) else if in_range 97 102 b then Some (n - 87) else None.

Fixpoint hex_value_be (ds : bytes) (acc : N) : option N :=
  match ds with
  | [] => Some acc
  | d :: ds => v ← hex_digit_value d; hex_value_be ds (16 * acc + v)
  end.

Inductive Pkt := Data (payload : bytes) | Flush.

Definition read_pkt (s : bytes) : option (Pkt * bytes) :=
  if (length s <? 4)%nat then None
  else
    n ← hex_value_be (take 4 s) 0;
    let rest := drop 4 s in
    if n =? 0 then Some (Flush, rest)
    else if n <? 4 then None
    else if lengthN rest <? n - 4 then None
    else Some (Data (take (N.to_nat (n - 4)) rest), drop (N.to_nat (n - 4)) rest).

Lemma hex_digit_spec n : n < 16 → hex_digit_value (hex_digit n) = Some n.
Proof.
  intros H. assert (Forall (λ n, hex_digit_value (hex_digit n) = Some n) (N.of_nat <$> seq 0 16)) as F
    by vm_decide.
  rewrite Forall_forall in F. apply F. apply list_elem_of_fmap. exists (N.to_nat n).
  split; [lia|]. apply elem_of_seq. lia.
Qed.

Lemma hex_value_cons n ds acc : n < 16 → hex_value_be (hex_digit n :: ds) acc = hex_value_be ds (16 * acc + n).
Proof. intros H. cbn [hex_value_be]. by rewrite hex_digit_spec. Qed.

Lemma four_digits (n q1 q2 a b c d : N) : n < 65536 →
  n = 16 * q1 + d → q1 = 16 * q2 + c → q2 = 16 * a + b → d < 16 → c < 16 → b < 16 →
  a < 16 ∧ b < 16 ∧ c < 16 ∧ d < 16 ∧ n = ((a * 16 + b) * 16 + c) * 16 + d.
Proof. lia. Qed.

(** A number below [16^4] is printed with exactly four digits, which read back. *)
Lemma hex04_spec n : n < 65536 →
  ∃ a b c d, hex04 n = [hex_digit a; hex_digit b; hex_digit c; hex_digit d] ∧
    a < 16 ∧ b < 16 ∧ c < 16 ∧ d < 16 ∧ n = ((a * 16 + b) * 16 + c) * 16 + d.
Proof.
  intros H. exists (n / 16 / 16 / 16), (n / 16 / 16 mod 16), (n / 16 mod 16), (n mod 16).
  assert (∀ m, m = 16 * (m / 16) + m mod 16 ∧ m mod 16 < 16) as D.
  { intros m. split; [apply N.div_mod'|]. by apply N.mod_lt. }
  destruct (D n) as [E1 L1], (D (n / 16)) as [E2 L2], (D (n / 16 / 16)) as [E3 L3].
  split; [|clear D; revert E1 E2 E3 L1 L2 L3; by apply four_digits].
  assert (hex_digit 0 = x30) as Hz by reflexivity.
  unfold hex04. cbn [hex_digits].
  destruct (N.eqb_spec (n / 16) 0) as [Z1|Z1].
  { rewrite Z1 in *. simpl. by rewrite ?Hz. }
  destruct (N.eqb_spec (n / 16 / 16) 0) as [Z2|Z2].
  { rewrite Z2 in *. simpl. by rewrite ?Hz. }
  destruct (N.eqb_spec (n / 16 / 16 / 16) 0) as [Z3|Z3].
  { rewrite Z3 in *. simpl. by rewrite ?Hz. }
  assert (n / 16 / 16 / 16 < 16) as L4.
  { clear -H. rewrite !N.Div0.div_div. apply N.Div0.div_lt_upper_bound. lia. }
  rewrite (N.mod_small (n / 16 / 16 / 16)), (N.div_small (n / 16 / 16 / 16)) by done. done.
Qed.

(** A payload of at most 65531 bytes is framed so that a reader gets it back, with
    what follows it. *)
Theorem pkt_line_roundtrip (payload rest : bytes) :
  lengthN payload ≤ 65531 → read_pkt (pkt_line payload ++ rest) = Some (Data payload, rest).
Proof.
  intros H. unfold read_pkt, pkt_line.
  destruct (hex04_spec (lengthN payload + 4) ltac:(lia)) as (a & b & c & d & E & La & Lb & Lc & Ld & Hn).
  rewrite E. cbn [app length Nat.ltb Nat.leb take drop]. rewrite firstn_0, drop_0.
  rewrite !hex_value_cons by done. cbn [hex_value_be mbind option_bind].
  replace (16 * (16 * (16 * (16 * 0 + a) + b) + c) + d) with (lengthN payload + 4) by lia.
  rewrite length_app.
  destruct (N.eqb_spec (lengthN payload + 4) 0); [lia|].
  destruct (N.ltb_spec (lengthN payload + 4) 4); [lia|].
  destruct (N.ltb_spec (N.of_nat (length payload + length rest)) (lengthN payload + 4 - 4)); [lia|].
  replace (N.to_nat (lengthN payload + 4 - 4)) with (length payload) by lia.
  by rewrite take_app_length, drop_app_length.
Qed.

Lemma pkt_line_roundtrip_witness : read_pkt (as_bytes "0006hi!") = Some (Data (as_bytes "hi"), as_bytes "!").
Proof. exact (pkt_line_roundtrip (as_bytes "hi") (as_bytes "!") ltac:(vm_compute; discriminate)). Defined.

(** ** The bounds hold *)

Definition chunks_within (k : N) (rs : reads) : Prop := Forall (λ x, match x.2 with Ok c => lengthN c ≤ k | Err _ => True end) rs.

Lemma reader_loop_spec max_out rs buf t out over :
  lengthN buf ≤ max_out → reader_loop max_out rs buf = Some (t, (out, over)) →
  (over = false → lengthN out ≤ max_out) ∧ ∀ k, chunks_within k rs → lengthN out ≤ max_out + k.
Proof.
  revert buf. induction rs as [|[t0 [c|e]] rs IH]; intros buf Hb; simpl; [done| |].
  - destruct c as [|x c]; [intros [= <- <- <-]; split; [done|]; intros; lia|].
    destruct (N.ltb_spec max_out (lengthN (buf ++ x :: c))) as [H|H].
    + intros [= <- <- <-]. split; [done|]. intros k [Hc _]%Forall_cons. cbn [snd] in Hc. rewrite length_app in *. lia.
    + intros E. destruct (IH _ H E) as [H1 H2]. split; [done|]. intros k [_ F]%Forall_cons. by apply H2.
  - intros [= <- <- <-]. split; [done|]. intros; lia.
Qed.

(** The polling ends at the first turn that finds the deadline passed, if not before. *)
Lemma wait_loop_ends over deadline before p after :
  Forall (λ q, pl_now q < deadline) before → deadline ≤ pl_now p →
  ∃ t r, wait_loop over deadline (before ++ p :: after) = Some (t, r) ∧ t ≤ pl_now p.
Proof.
  intros HF Hp. induction HF as [|q before Hq _ IH]; cbn [app wait_loop].
  - destruct (pl_wait p) as [[]|]; [by eauto| |by eauto]. destruct (over _); [by eauto|].
    destruct (N.leb_spec deadline (pl_now p)); [by eauto|lia].
  - destruct (pl_wait q) as [[]|]; [by eexists _, _; split; [done|lia]| |by eexists _, _; split; [done|lia]].
    destruct (over _); [by eexists _, _; split; [done|lia]|]. destruct (N.leb_spec deadline (pl_now q)); [lia|exact IH].
Qed.

(** A success is the status a poll gave, with no earlier poll past the deadline. *)
Lemma wait_loop_success over deadline polls t timed :
  wait_loop over deadline polls = Some (t, Ok (Some true, timed)) →
  timed = false ∧ ∃ before q after, polls = before ++ q :: after ∧ pl_wait q = Ok (Some true) ∧ Forall (λ q, pl_now q < deadline) before.
Proof.
  induction polls as [|q polls IH]; cbn [wait_loop]; [done|].
  destruct (pl_wait q) as [[s|]|] eqn:Eq; [| |done].
  - intros [= <- -> <-]. split; [done|]. by exists [], q, polls.
  - destruct (over _); [done|]. destruct (N.leb_spec deadline (pl_now q)); [done|].
    intros (-> & before & x & after & -> & Hx & HF)%IH. split; [done|]. exists (q :: before), x, after. split_and!; [done..|].
    by constructor.
Qed.

(** The three pipes of a child are closed, or given up, by a time. *)
Definition closed_by (limits : GitLimits) (ch : Child) (T : N) : Prop :=
  (∃ t1, ch_fed ch = Some t1 ∧ t1 ≤ T) ∧
  (∃ t2 x, reader_loop (max_output_bytes limits) (ch_out ch) [] = Some (t2, x) ∧ t2 ≤ T) ∧
  (∃ t3 e, read_to_end (ch_err ch) [] = Some (t3, e) ∧ t3 ≤ T).

(** C20. The limits of a service call.  Let the deadline loop have turns up to one, [p], that
    finds the deadline passed, and let the pipes of the child be closed by [T] (the call
    joins the threads at the pipes, and a descendant that keeps one open keeps the call
    waiting).  Then the call returns, no later than at the later of [p] and [T]; the
    buffer of its output never holds more than the cap and one read of 64 KiB (what is
    printed as errors is not bounded); and it succeeds only with an output within the cap
    of a child that exited with success at a poll before which the deadline had not
    passed. *)
Theorem service_call_bounded (spawn : list string → option bytes → option Child) (repo : string)
    (service : Service) (body : bytes) (limits : GitLimits) (ch : Child) (before : list Poll) (p : Poll) (after : list Poll) (T : N) :
  spawn (rpc_args repo service limits) (Some body) = Some ch →
  ch_polls ch = before ++ p :: after → Forall (λ q, pl_now q < ch_start ch + wall_clock limits) before →
  ch_start ch + wall_clock limits ≤ pl_now p → closed_by limits ch T → chunks_within 65536 (ch_out ch) →
  ∃ t r, run_bounded (Some ch) limits = Some (t, r) ∧ rpc_with_limits spawn repo service body limits = Some r ∧
    t ≤ N.max (pl_now p) T ∧
    (∀ t2 out over, reader_loop (max_output_bytes limits) (ch_out ch) [] = Some (t2, (out, over)) → lengthN out ≤ max_output_bytes limits + 65536) ∧
    ∀ out, r = Ok out → lengthN out ≤ max_output_bytes limits ∧
      ∃ before' q after', ch_polls ch = before' ++ q :: after' ∧ pl_wait q = Ok (Some true) ∧
        Forall (λ q, pl_now q < ch_start ch + wall_clock limits) before'.
Proof.
  intros Es Hpolls HF Hp ((t1 & Hfed & L1) & (t2 & [out over] & Hout & L2) & (t3 & e & Herr & L3)) Hk.
  assert (lengthN (@nil byte) ≤ max_output_bytes limits) as H0 by (simpl; lia).
  pose proof (reader_loop_spec _ _ _ _ _ _ H0 Hout) as [Hcap Hbuf].
  destruct (wait_loop_ends (over_cap_at (max_output_bytes limits) (ch_out ch)) _ before p after HF Hp) as (t & r & Ew & Lt). rewrite <-Hpolls in Ew.
  assert (∃ t' r', run_bounded (Some ch) limits = Some (t', r') ∧ t' ≤ N.max (pl_now p) T ∧ ∀ o, r' = Ok o → lengthN o ≤ max_output_bytes limits ∧
    ∃ timed, r = Ok (Some true, timed)) as (t' & r' & Er & Lr & Hok).
  { unfold run_bounded. rewrite Ew. cbn [mbind option_bind]. destruct r as [[status timed]|e0]; [|eexists _, _; split; [done|]; split; [lia|done]].
    rewrite Hfed, Hout. cbn [mbind option_bind]. rewrite Herr. cbn [mbind option_bind]. eexists _, _. split; [done|]. split; [lia|].
    intros o. destruct timed; [done|]. destruct over; cbn [orb]; [done|]. destruct (N.ltb_spec (max_output_bytes limits) (lengthN out)); [done|].
    destruct status as [[]|]; [|done..]. cbn [default]. intros [= <-]. eauto. }
  exists t', r'. split; [done|]. split; [unfold rpc_with_limits; by rewrite Es, Er|]. split; [done|]. split.
  - intros t4 out4 over4 E4. rewrite Hout in E4. injection E4 as <- <- <-. by apply Hbuf.
  - intros o Ho. destruct (Hok o Ho) as [Hl [timed ->]]. split; [done|]. by apply wait_loop_success in Ew as [_ ?].
Qed.

Definition toy_child : Child :=
  mkChild 0 [mkPoll (Ok None) 5; mkPoll (Ok (Some true)) 9] (Some 1) [(2, Ok (as_bytes "ok")); (8, Ok [])] [(8, Ok [])].

Lemma service_call_bounded_witness :
  run_bounded (Some toy_child) (mkGitLimits 7 100 100) = Some (9, Ok (as_bytes "ok")) ∧
  ∃ t r, run_bounded (Some toy_child) (mkGitLimits 7 100 100) = Some (t, r) ∧ t ≤ 9.
Proof.
  split; [reflexivity|].
  destruct (service_call_bounded (λ _ _, Some toy_child) "r" UploadPack [] (mkGitLimits 7 100 100) toy_child
    [mkPoll (Ok None) 5] (mkPoll (Ok (Some true)) 9) [] 8) as (t & r & E & _ & L & _);
    [done|done|repeat constructor|vm_compute; discriminate| |repeat constructor; vm_compute; discriminate|].
  - split_and!; [exists 1|exists 8, (as_bytes "ok", false)|exists 8, []]; (split; [reflexivity|vm_compute; discriminate]).
  - exists t, r. split; [exact E|exact L].
Defined.

(** The wall clock does not bound the call: a child that exits at once, but leaves its error
    output open in a descendant, keeps it waiting. *)
Example open_pipe_blocks :
  run_bounded (Some (mkChild 0 [mkPoll (Ok (Some true)) 1] (Some 1) [(1, Ok [])] [])) (mkGitLimits 7 100 100) = None.
Proof. reflexivity. Qed.
