(* ===== verification/Identity.v ===== *)
(** [crates/secgit-identity/src/model.rs] and [lib.rs]: users, organizations,
    teams and repos, and the access-control resolver over them. *)

From S2P Require Import Prelude Backend.

Inductive Role := Read | Write | Admin.
Global Instance Role_eq_dec : EqDecision Role.
Proof. solve_decision. Defined.

(** The discriminants, which the derived order compares. *)
Definition role_rank (r : Role) : N := match r with Read => 1 | Write => 2 | Admin => 3 end.

Inductive OrgRole := Member | Owner.
Global Instance OrgRole_eq_dec : EqDecision OrgRole.
Proof. solve_decision. Defined.

Record User := mkUser { u_id : string; u_username : string; u_email : string }.

Record Org := mkOrg { o_id : string; o_slug : string; o_members : list (string * OrgRole) }.

Record Team := mkTeam {
  t_id : string;
  t_org_id : string;
  t_name : string;
  t_member_ids : list string;
  t_repo_grants : list (string * Role);
}.

Inductive RepoOwner := OwnerUser (id : string) | OwnerOrg (id : string).
Global Instance RepoOwner_eq_dec : EqDecision RepoOwner.
Proof. solve_decision. Defined.

Record Repo := mkRepo {
  r_id : string;
  r_owner : RepoOwner;
  r_name : string;
  r_private : bool;
  r_collaborators : list (string * Role);
}.

Definition resource_id (r : Repo) : string :=
  match r_owner r with
  | OwnerUser u => "user:" +:+ u +:+ "/" +:+ r_name r
  | OwnerOrg o => "org:" +:+ o +:+ "/" +:+ r_name r
  end.

Definition kek_owner (r : Repo) : string :=
  match r_owner r with OwnerUser u => "user:" +:+ u | OwnerOrg o => "org:" +:+ o end.

Inductive IdentityError :=
| IdAuthFailed
| NotFound (id : string)
| Exists (id : string)
| IdCrypto
| IdStorage
| IdSerde (why : string).

(** ** The directory *)

Record Directory := mkDirectory {
  d_users : gmap string User;
  d_orgs : gmap string Org;
  d_teams : gmap string Team;
  d_repos : gmap string Repo;
}.

Definition dir_new : Directory := mkDirectory ∅ ∅ ∅ ∅.

Definition set_users (m : gmap string User) (d : Directory) : Directory :=
  mkDirectory m (d_orgs d) (d_teams d) (d_repos d).
Definition set_orgs (m : gmap string Org) (d : Directory) : Directory :=
  mkDirectory (d_users d) m (d_teams d) (d_repos d).
Definition set_teams (m : gmap string Team) (d : Directory) : Directory :=
  mkDirectory (d_users d) (d_orgs d) m (d_repos d).
Definition set_repos (m : gmap string Repo) (d : Directory) : Directory :=
  mkDirectory (d_users d) (d_orgs d) (d_teams d) m.

(** The three shapes the methods have, on one map: insert if absent, insert if
    present, remove if present. *)
Definition map_add {A} (m : gmap string A) (id : string) (a : A) : result IdentityError (gmap string A) :=
  if bool_decide (is_Some (m !! id)) then Err (Exists id) else Ok (<[id := a]> m).
Definition map_update {A} (m : gmap string A) (id : string) (a : A) : result IdentityError (gmap string A) :=
  if bool_decide (is_Some (m !! id)) then Ok (<[id := a]> m) else Err (NotFound id).
Definition map_remove {A} (m : gmap string A) (id : string) : result IdentityError (gmap string A) :=
  match m !! id with Some _ => Ok (delete id m) | None => Err (NotFound id) end.

Definition add_user (d : Directory) (u : User) : result IdentityError Directory :=
  m ← map_add (d_users d) (u_id u) u; Ok (set_users m d).
Definition add_org (d : Directory) (o : Org) : result IdentityError Directory :=
  m ← map_add (d_orgs d) (o_id o) o; Ok (set_orgs m d).
(** Unlike the others, [add_team] replaces a team that exists. *)
Definition add_team (d : Directory) (t : Team) : result IdentityError Directory :=
  Ok (set_teams (<[t_id t := t]> (d_teams d)) d).
Definition add_repo (d : Directory) (r : Repo) : result IdentityError Directory :=
  m ← map_add (d_repos d) (r_id r) r; Ok (set_repos m d).

Definition update_user (d : Directory) (u : User) : result IdentityError Directory :=
  m ← map_update (d_users d) (u_id u) u; Ok (set_users m d).
Definition update_org (d : Directory) (o : Org) : result IdentityError Directory :=
  m ← map_update (d_orgs d) (o_id o) o; Ok (set_orgs m d).
Definition update_team (d : Directory) (t : Team) : result IdentityError Directory :=
  m ← map_update (d_teams d) (t_id t) t; Ok (set_teams m d).
Definition update_repo (d : Directory) (r : Repo) : result IdentityError Directory :=
  m ← map_update (d_repos d) (r_id r) r; Ok (set_repos m d).

Definition remove_user (d : Directory) (id : string) : result IdentityError Directory :=
  m ← map_remove (d_users d) id; Ok (set_users m d).
Definition remove_org (d : Directory) (id : string) : result IdentityError Directory :=
  m ← map_remove (d_orgs d) id; Ok (set_orgs m d).
Definition remove_team (d : Directory) (id : string) : result IdentityError Directory :=
  m ← map_remove (d_teams d) id; Ok (set_teams m d).
Definition remove_repo (d : Directory) (id : string) : result IdentityError Directory :=
  m ← map_remove (d_repos d) id; Ok (set_repos m d).

(** ** Access control *)

(** [members.iter().find(|(u, _)| u == user_id).map(|(_, r)| *r)]. *)
Definition org_role (d : Directory) (org_id user_id : string) : option OrgRole :=
  o ← d_orgs d !! org_id;
  snd <$> List.find (λ m, bool_decide (m.1 = user_id)) (o_members o).

(** [if best.map(|b| r > b).unwrap_or(true) { *best = Some(r); }]. *)
Definition bump (r : Role) (best : option Role) : option Role :=
  match best with
  | Some b => if role_rank b <? role_rank r then Some r else Some b
  | None => Some r
  end.

(** [for (k, r) in l { if k == key { bump(r, best) } }]. *)
Definition bump_all (key : string) (l : list (string * Role)) (best : option Role) : option Role :=
  foldl (λ best kr, if bool_decide (kr.1 = key) then bump kr.2 best else best) best l.

Definition bump_team (repo : Repo) (user_id repo_id : string) (best : option Role) (team : Team) : option Role :=
  if negb (contains user_id (t_member_ids team)) then best
  else match r_owner repo with
       | OwnerOrg org_id =>
           if negb (bool_decide (t_org_id team = org_id)) then best
           else bump_all repo_id (t_repo_grants team) best
       | OwnerUser _ => best
       end.

(** The order in which a [HashMap] yields its values is not specified: the list
    of teams is an argument. *)
Definition effective_role_over (teams : list Team) (d : Directory) (user_id repo_id : string) : option Role :=
  repo ← d_repos d !! repo_id;
  let best := match r_owner repo with
              | OwnerUser owner => if bool_decide (owner = user_id) then bump Admin None else None
              | OwnerOrg org_id =>
                  match org_role d org_id user_id with
                  | Some Owner => bump Admin None
                  | _ => None
                  end
              end in
  let best := bump_all user_id (r_collaborators repo) best in
  foldl (bump_team repo user_id repo_id) best teams.

Definition teams_list (d : Directory) : list Team := (map_to_list (d_teams d)).*2.

Definition effective_role (d : Directory) (user_id repo_id : string) : option Role :=
  effective_role_over (teams_list d) d user_id repo_id.

Definition can (d : Directory) (user_id repo_id : string) (required : Role) : bool :=
  match effective_role d user_id repo_id with
  | Some r => role_rank required <=? role_rank r
  | None => false
  end.

Definition repos_visible_to (d : Directory) (user_id : string) : list Repo :=
  filter (λ r, can d user_id (r_id r) Read = true) (map_to_list (d_repos d)).*2.

(** ** Theory *)

(** The ways a user can come by a role on a repo. *)
Inductive granted (d : Directory) (u rid : string) (repo : Repo) : Role → Prop :=
| g_personal : r_owner repo = OwnerUser u → granted d u rid repo Admin
| g_org_owner o : r_owner repo = OwnerOrg o → org_role d o u = Some Owner → granted d u rid repo Admin
| g_collaborator r : (u, r) ∈ r_collaborators repo → granted d u rid repo r
| g_team o tid team r :
    r_owner repo = OwnerOrg o → d_teams d !! tid = Some team → t_org_id team = o →
    u ∈ t_member_ids team → (rid, r) ∈ t_repo_grants team → granted d u rid repo r.

(** [best] is the greatest role of a set of grants, [None] when there is none. *)
Definition greatest (P : Role → Prop) (best : option Role) : Prop :=
  match best with
  | None => ∀ r, ¬ P r
  | Some b => P b ∧ ∀ r, P r → role_rank r ≤ role_rank b
  end.

Global Instance greatest_proper : Proper (pointwise_relation Role iff ==> eq ==> iff) greatest.
Proof.
  intros P Q H best ? <-. unfold greatest, pointwise_relation in *. destruct best.
  - setoid_rewrite H. done.
  - by setoid_rewrite H.
Qed.

Lemma role_rank_inj r s : role_rank r = role_rank s → r = s.
Proof. by destruct r, s. Qed.

Lemma greatest_bump P r best : greatest P best → greatest (λ x, P x ∨ x = r) (bump r best).
Proof.
  destruct best as [b|]; simpl.
  - intros [Hb Hmax]. destruct (N.ltb_spec (role_rank b) (role_rank r)); simpl.
    + split; [by right|]. intros x [Hx| ->]; [|lia]. specialize (Hmax x Hx). lia.
    + split; [by left|]. intros x [Hx| ->]; [by apply Hmax|done].
  - intros Hn. split; [by right|]. intros x [Hx| ->]; [by destruct (Hn x)|lia].
Qed.

Lemma greatest_bump_all key l P best :
  greatest P best → greatest (λ x, P x ∨ (key, x) ∈ l) (bump_all key l best).
Proof.
  unfold bump_all. revert P best. induction l as [|[k r] l IH]; intros P best H; simpl.
  - eapply greatest_proper; [|reflexivity|exact H]. intros x. rewrite elem_of_nil. tauto.
  - case_bool_decide as Hk; simpl in Hk.
    + subst k. specialize (IH _ _ (greatest_bump P r best H)).
      eapply greatest_proper; [|reflexivity|exact IH]. intros x. rewrite elem_of_cons.
      split; [intros [?|[[= ->]|?]]; auto|intros [[?| ->]|?]; auto].
    + specialize (IH _ _ H). eapply greatest_proper; [|reflexivity|exact IH]. intros x.
      rewrite elem_of_cons. split; [intros [?|[[= ? ->]|?]]; [auto|congruence|auto]|tauto].
Qed.

Definition team_grants (repo : Repo) (u rid : string) (t : Team) (r : Role) : Prop :=
  r_owner repo = OwnerOrg (t_org_id t) ∧ u ∈ t_member_ids t ∧ (rid, r) ∈ t_repo_grants t.

Lemma greatest_bump_team repo u rid t P best :
  greatest P best → greatest (λ x, P x ∨ team_grants repo u rid t x) (bump_team repo u rid best t).
Proof.
  intros H. unfold bump_team, contains, team_grants. case_bool_decide as Hu; simpl.
  - destruct (r_owner repo) as [o|o].
    + eapply greatest_proper; [|reflexivity|exact H]. intros x. split; [|tauto].
      intros [?|[? _]]; [done|discriminate].
    + case_bool_decide as Ho; simpl.
      * subst o. eapply greatest_proper; [|reflexivity|apply greatest_bump_all, H]. intros x. tauto.
      * eapply greatest_proper; [|reflexivity|exact H]. intros x. split; [|tauto].
        intros [?|[[= ?] _]]; [done|congruence].
  - eapply greatest_proper; [|reflexivity|exact H]. intros x. tauto.
Qed.

Lemma greatest_teams repo u rid ts P best :
  greatest P best →
  greatest (λ x, P x ∨ ∃ t, t ∈ ts ∧ team_grants repo u rid t x) (foldl (bump_team repo u rid) best ts).
Proof.
  revert P best. induction ts as [|t ts IH]; intros P best H; simpl.
  - eapply greatest_proper; [|reflexivity|exact H]. intros x. split; [|tauto].
    intros [?|(t & ?%not_elem_of_nil & _)]; done.
  - specialize (IH _ _ (greatest_bump_team repo u rid t P best H)).
    eapply greatest_proper; [|reflexivity|exact IH]. intros x. setoid_rewrite elem_of_cons.
    split; [intros [?|(t' & [->|?] & ?)]|intros [[?|?]|(t' & ? & ?)]]; eauto 10.
Qed.

Lemma greatest_unique P b b' : greatest P b → greatest P b' → b = b'.
Proof.
  destruct b as [b|], b' as [b'|]; simpl; [| | |done].
  - intros [H1 H2] [H3 H4]. f_equal. apply role_rank_inj.
    specialize (H2 _ H3). specialize (H4 _ H1). lia.
  - intros [H1 _] H. by destruct (H b).
  - intros H [H1 _]. by destruct (H b').
Qed.

Lemma effective_role_over_greatest ts d u rid repo :
  d_repos d !! rid = Some repo → (∀ t, t ∈ ts ↔ ∃ tid, d_teams d !! tid = Some t) →
  greatest (granted d u rid repo) (effective_role_over ts d u rid).
Proof.
  intros Hr Hts. unfold effective_role_over. rewrite Hr. simpl.
  set (b0 := match r_owner repo with OwnerUser _ => _ | OwnerOrg _ => _ end).
  assert (greatest (λ x, x = Admin ∧ (r_owner repo = OwnerUser u ∨
    ∃ o, r_owner repo = OwnerOrg o ∧ org_role d o u = Some Owner)) b0) as H0.
  { unfold b0. destruct (r_owner repo) as [o|o].
    - case_bool_decide as Ho; simpl.
      + subst o. split; [auto|]. by intros r [-> _].
      + intros r [_ [[= ?]|(? & ? & _)]]; done.
    - destruct (org_role d o u) as [[]|] eqn:Eo; simpl.
      + intros r [_ [?|(o' & [= <-] & ?)]]; congruence.
      + split; [eauto 10|]. by intros r [-> _].
      + intros r [_ [?|(o' & [= <-] & ?)]]; congruence. }
  eapply greatest_proper; [|reflexivity|apply greatest_teams, greatest_bump_all, H0].
  intros x. unfold team_grants. split.
  - intros [H|o H1 H2|r H|o tid t r H1 H2 H3 H4 H5]; [left; left; eauto 10..|left; by right|].
    right. exists t. rewrite Hts. subst o. eauto 10.
  - intros [[[-> [H|(o & H1 & H2)]]|H]|(t & [tid Ht]%Hts & H1 & H2 & H3)].
    + by apply g_personal.
    + by eapply g_org_owner.
    + by apply g_collaborator.
    + by eapply g_team.
Qed.

Lemma teams_list_spec d t : t ∈ teams_list d ↔ ∃ tid, d_teams d !! tid = Some t.
Proof.
  unfold teams_list. rewrite list_elem_of_fmap. split.
  - intros ([tid t'] & -> & H%elem_of_map_to_list). eauto.
  - intros [tid H]. exists (tid, t). split; [done|by apply elem_of_map_to_list].
Qed.

(** The effective role is the greatest of all roles granted, by personal
    ownership, organization ownership, collaboration and team membership, whatever
    order the teams are visited in; a user with no grant has no role. *)
Lemma effective_role_greatest (d : Directory) (u rid : string) (ts : list Team) :
  ts ≡ₚ teams_list d →
  match d_repos d !! rid with
  | None => effective_role_over ts d u rid = None
  | Some repo => greatest (granted d u rid repo) (effective_role_over ts d u rid) ∧
                 effective_role_over ts d u rid = effective_role d u rid
  end.
Proof.
  intros Hts. destruct (d_repos d !! rid) as [repo|] eqn:Hr.
  - assert (greatest (granted d u rid repo) (effective_role_over ts d u rid)) as H.
    { apply effective_role_over_greatest; [done|]. intros t. by rewrite Hts, teams_list_spec. }
    split; [done|]. eapply greatest_unique; [exact H|].
    apply effective_role_over_greatest; [done|]. apply teams_list_spec.
  - unfold effective_role_over. by rewrite Hr.
Qed.

(** Authorization is monotone in grants and sound: [can] holds exactly
    when some grant of at least the required role exists, so who may write may
    read. *)
Lemma can_iff_granted (d : Directory) (u rid : string) (required : Role) :
  can d u rid required = true ↔
  ∃ repo r, d_repos d !! rid = Some repo ∧ granted d u rid repo r ∧ role_rank required ≤ role_rank r.
Proof.
  unfold can, effective_role. destruct (d_repos d !! rid) as [repo|] eqn:Hr.
  - pose proof (effective_role_over_greatest _ d u rid repo Hr (teams_list_spec d)) as H.
    destruct (effective_role_over _ d u rid) as [b|]; simpl in H.
    + destruct H as [Hb Hmax]. rewrite N.leb_le. split; [eauto 10|].
      intros (repo' & r & [= <-] & Hg & Hle). specialize (Hmax r Hg). lia.
    + split; [done|]. intros (repo' & r & [= <-] & Hg & _). by destruct (H r).
  - unfold effective_role_over. rewrite Hr. simpl. split; [done|]. by intros (? & ? & ? & _).
Qed.

Section witnesses.
Definition toy_dir : Directory :=
  {| d_users := ∅;
     d_orgs := {[ "acme" := mkOrg "acme" "acme" [("alice", Owner); ("bob", Member)] ]};
     d_teams := {[ "t1" := mkTeam "t1" "acme" "dev" ["bob"] [("w", Write)];
                   "t2" := mkTeam "t2" "acme" "ro" ["bob"] [("w", Read)] ]};
     d_repos := {[ "w" := mkRepo "w" (OwnerOrg "acme") "widgets" true [] ]} |}.

Lemma effective_role_greatest_witness :
  effective_role toy_dir "bob" "w" = Some Write ∧
  effective_role_over (reverse (teams_list toy_dir)) toy_dir "bob" "w" = effective_role toy_dir "bob" "w".
Proof.
  split; [reflexivity|].
  apply (effective_role_greatest toy_dir "bob" "w" (reverse (teams_list toy_dir))).
  apply reverse_Permutation.
Defined.
End witnesses.
