(* ===== verification/DirectoryStore.v ===== *)
(** [crates/secgit-identity/src/store.rs]: the directory written through to an
    object store.

    Everything is stated against the interface [ObjectStore]; the encrypted store
    is one instance.  The four collections are kept the same way: one object per
    entity and one index object with the list of ids. *)

From S2P Require Import Prelude Backend Toy Envelope Fs ObjectStore Store Identity.

Definition NS : string := "secgit/directory".
Definition IDX_USERS : string := "index/users".
Definition IDX_ORGS : string := "index/orgs".
Definition IDX_TEAMS : string := "index/teams".
Definition IDX_REPOS : string := "index/repos".

Definition okey (kind id : string) : string := kind +:+ "/" +:+ id.

Section objects.
Context {St Er : Type} `{OS : ObjectStore St Er} `{SI : Serde (list string)}.

Definition to_storage {A} (c : eff St Er A) : eff St IdentityError A := eff_map_err (λ _, IdStorage) c.

Definition write_obj `{Serde T} (kind id : string) (v : T) : eff St IdentityError unit :=
  to_storage (os_put NS (okey kind id) (to_vec v)).

Definition read_obj (T : Type) `{Serde T} (kind id : string) : eff St IdentityError (option T) :=
  o ← to_storage (os_get NS (okey kind id));
  match o with
  | Some b => v ← lift (ok_or (IdSerde "object") (from_slice b)); mret (Some v)
  | None => mret None
  end.

Definition read_index (idx : string) : eff St IdentityError (list string) :=
  o ← to_storage (os_get NS idx);
  match o with
  | Some b => lift (ok_or (IdSerde "index") (from_slice b))
  | None => mret []
  end.

Definition add_to_index (idx id : string) : eff St IdentityError unit :=
  ids ← read_index idx;
  if negb (contains id ids) then to_storage (os_put NS idx (to_vec (ids ++ [id]))) else mret ().

Definition remove_from_index (idx id : string) : eff St IdentityError unit :=
  ids ← read_index idx;
  to_storage (os_put NS idx (to_vec (filter (λ x, x ≠ id) ids))).

(** [store.delete(NS, &okey(kind, id)).map_err(to_storage)?; remove_from_index(..)]. *)
Definition delete_obj (kind idx id : string) : eff St IdentityError unit :=
  _ ← to_storage (os_delete NS (okey kind id));
  remove_from_index idx id.

(** [write_obj(..)?; add_to_index(..)]. *)
Definition create_obj `{Serde T} (kind idx id : string) (v : T) : eff St IdentityError unit :=
  _ ← write_obj kind id v;
  add_to_index idx id.

(** [for id in read_index(idx)? { if let Some(v) = read_obj(..)? { dir.add(v)?; } }]. *)
Fixpoint load_objs (T : Type) `{Serde T} (kind : string)
    (add : Directory → T → result IdentityError Directory) (ids : list string) (dir : Directory)
    : eff St IdentityError Directory :=
  match ids with
  | [] => mret dir
  | id :: ids =>
      o ← read_obj T kind id;
      dir ← match o with Some v => lift (add dir v) | None => mret dir end;
      load_objs T kind add ids dir
  end.

Context `{SU : Serde User} `{SO : Serde Org} `{ST : Serde Team} `{SR : Serde Repo}.

(** The in-memory part of [PersistentDirectory]; the store is the state. *)
Definition pd_open : eff St IdentityError Directory :=
  users ← read_index IDX_USERS;
  dir ← load_objs User "user" add_user users dir_new;
  orgs ← read_index IDX_ORGS;
  dir ← load_objs Org "org" add_org orgs dir;
  teams ← read_index IDX_TEAMS;
  dir ← load_objs Team "team" add_team teams dir;
  repos ← read_index IDX_REPOS;
  load_objs Repo "repo" add_repo repos dir.

(** Methods change the in-memory directory first, then the store: the pair of
    directory and store is the state, and an error of the store keeps the change
    in memory. *)
Definition PD : Type := Directory * St.

Definition in_memory (f : Directory → result IdentityError Directory) : eff PD IdentityError unit := λ '(d, s),
  match f d with Ok d' => (Ok (), (d', s)) | Err e => (Err e, (d, s)) end.
Definition on_store {A} (c : eff St IdentityError A) : eff PD IdentityError A := λ '(d, s),
  let '(r, s') := c s in (r, (d, s')).

Definition create_user (u : User) : eff PD IdentityError unit :=
  _ ← in_memory (λ d, add_user d u); on_store (create_obj "user" IDX_USERS (u_id u) u).
Definition pd_update_user (u : User) : eff PD IdentityError unit :=
  _ ← in_memory (λ d, update_user d u); on_store (write_obj "user" (u_id u) u).
Definition delete_user (id : string) : eff PD IdentityError unit :=
  _ ← in_memory (λ d, remove_user d id); on_store (delete_obj "user" IDX_USERS id).

Definition create_org (o : Org) : eff PD IdentityError unit :=
  _ ← in_memory (λ d, add_org d o); on_store (create_obj "org" IDX_ORGS (o_id o) o).
Definition pd_update_org (o : Org) : eff PD IdentityError unit :=
  _ ← in_memory (λ d, update_org d o); on_store (write_obj "org" (o_id o) o).
Definition delete_org (id : string) : eff PD IdentityError unit :=
  _ ← in_memory (λ d, remove_org d id); on_store (delete_obj "org" IDX_ORGS id).

Definition create_team (t : Team) : eff PD IdentityError unit :=
  _ ← in_memory (λ d, add_team d t); on_store (create_obj "team" IDX_TEAMS (t_id t) t).
Definition pd_update_team (t : Team) : eff PD IdentityError unit :=
  _ ← in_memory (λ d, update_team d t); on_store (write_obj "team" (t_id t) t).
Definition delete_team (id : string) : eff PD IdentityError unit :=
  _ ← in_memory (λ d, remove_team d id); on_store (delete_obj "team" IDX_TEAMS id).

Definition create_repo (r : Repo) : eff PD IdentityError unit :=
  _ ← in_memory (λ d, add_repo d r); on_store (create_obj "repo" IDX_REPOS (r_id r) r).
Definition pd_update_repo (r : Repo) : eff PD IdentityError unit :=
  _ ← in_memory (λ d, update_repo d r); on_store (write_obj "repo" (r_id r) r).
Definition pd_delete_repo (id : string) : eff PD IdentityError unit :=
  _ ← in_memory (λ d, remove_repo d id); on_store (delete_obj "repo" IDX_REPOS id).

(** Access-control surface. *)
Definition cloned {A} (get : Directory → gmap string A) (id : string) : eff PD IdentityError A := λ '(d, s),
  (ok_or (NotFound id) (get d !! id), (d, s)).

Definition retain_not (k : string) {A} (l : list (string * A)) : list (string * A) :=
  filter (λ kv, kv.1 ≠ k) l.

Definition set_org_member (org_id user_id : string) (role : OrgRole) : eff PD IdentityError unit :=
  org ← cloned d_orgs org_id;
  pd_update_org (mkOrg (o_id org) (o_slug org) (retain_not user_id (o_members org) ++ [(user_id, role)])).
Definition remove_org_member (org_id user_id : string) : eff PD IdentityError unit :=
  org ← cloned d_orgs org_id;
  pd_update_org (mkOrg (o_id org) (o_slug org) (retain_not user_id (o_members org))).

Definition set_members (t : Team) (l : list string) : Team :=
  mkTeam (t_id t) (t_org_id t) (t_name t) l (t_repo_grants t).
Definition set_grants (t : Team) (l : list (string * Role)) : Team :=
  mkTeam (t_id t) (t_org_id t) (t_name t) (t_member_ids t) l.

Definition add_team_member (team_id user_id : string) : eff PD IdentityError unit :=
  team ← cloned d_teams team_id;
  pd_update_team (set_members team
    (if contains user_id (t_member_ids team) then t_member_ids team else t_member_ids team ++ [user_id])).
Definition remove_team_member (team_id user_id : string) : eff PD IdentityError unit :=
  team ← cloned d_teams team_id;
  pd_update_team (set_members team (filter (λ u, u ≠ user_id) (t_member_ids team))).
Definition set_team_repo_grant (team_id repo_id : string) (role : Role) : eff PD IdentityError unit :=
  team ← cloned d_teams team_id;
  pd_update_team (set_grants team (retain_not repo_id (t_repo_grants team) ++ [(repo_id, role)])).
Definition revoke_team_repo_grant (team_id repo_id : string) : eff PD IdentityError unit :=
  team ← cloned d_teams team_id;
  pd_update_team (set_grants team (retain_not repo_id (t_repo_grants team))).

Definition set_collab (r : Repo) (l : list (string * Role)) : Repo :=
  mkRepo (r_id r) (r_owner r) (r_name r) (r_private r) l.
Definition set_collaborator (repo_id user_id : string) (role : Role) : eff PD IdentityError unit :=
  repo ← cloned d_repos repo_id;
  pd_update_repo (set_collab repo (retain_not user_id (r_collaborators repo) ++ [(user_id, role)])).
Definition remove_collaborator (repo_id user_id : string) : eff PD IdentityError unit :=
  repo ← cloned d_repos repo_id;
  pd_update_repo (set_collab repo (retain_not user_id (r_collaborators repo))).

Definition teams_in_org (d : Directory) (org_id : string) : list Team :=
  filter (λ t, t_org_id t = org_id) (teams_list d).
Definition is_org_owner (d : Directory) (org_id user_id : string) : bool :=
  match d_orgs d !! org_id with
  | Some o => existsb (λ m, bool_decide (m = (user_id, Owner))) (o_members o)
  | None => false
  end.
Definition orgs_for_user (d : Directory) (user_id : string) : list Org :=
  filter (λ o, existsb (λ m, bool_decide (m.1 = user_id)) (o_members o) = true)
    (map_to_list (d_orgs d)).*2.

(** ** One collection *)

Lemma okey_inj kind a b : okey kind a = okey kind b → a = b.
Proof.
  unfold okey. intros E. apply (f_equal as_bytes) in E. rewrite !as_bytes_app in E.
  apply app_inv_head in E. apply app_inv_head in E. by apply as_bytes_inj.
Qed.

Lemma to_storage_inv {A} (c : eff St Er A) s r s' :
  to_storage c s = (r, s') → ∃ r0, c s = (r0, s') ∧ is_ok r = is_ok r0 ∧ ∀ a, r = Ok a → r0 = Ok a.
Proof.
  unfold to_storage, eff_map_err. destruct (c s) as [[a|e] s1]; intros [= <- <-]; simpl.
  - exists (Ok a). split_and!; [done..|]. by intros ? [= <-].
  - exists (Err e). by split_and!.
Qed.

(** A put into the namespace, seen from there. *)
Lemma ns_put_spec k v s r s' :
  os_id NS → os_id k → os_inv s → to_storage (os_put NS k v) s = (r, s') →
  os_inv s' ∧ ∀ j, os_id j →
    os_view s' NS j = if is_ok r && bool_decide (j = k) then Some v else os_view s NS j.
Proof.
  intros HN Hk I (r0 & E & Hr & _)%to_storage_inv.
  destruct (os_put_spec _ _ _ _ _ _ HN Hk I E) as [I' V]. split; [done|]. intros j Hj.
  rewrite V, Hr by done. by rewrite (bool_decide_ext ((NS, j) = (NS, k)) (j = k)) by (split; congruence).
Qed.

Lemma ns_delete_spec k s r s' :
  os_id NS → os_id k → os_inv s → to_storage (os_delete NS k) s = (r, s') →
  os_inv s' ∧ ∀ j, os_id j →
    os_view s' NS j = if is_ok r && bool_decide (j = k) then None else os_view s NS j.
Proof.
  intros HN Hk I (r0 & E & Hr & _)%to_storage_inv.
  destruct (os_delete_spec _ _ _ _ _ HN Hk I E) as [I' V]. split; [done|]. intros j Hj.
  rewrite V, Hr by done. by rewrite (bool_decide_ext ((NS, j) = (NS, k)) (j = k)) by (split; congruence).
Qed.

Lemma ns_get_spec k s r s' :
  os_id NS → os_id k → os_inv s → to_storage (os_get NS k) s = (r, s') →
  os_inv s' ∧ (∀ j, os_id j → os_view s' NS j = os_view s NS j) ∧ ∀ o, r = Ok o → o = os_view s NS k.
Proof.
  intros HN Hk I (r0 & E & _ & Hr)%to_storage_inv.
  destruct (os_get_spec _ _ _ _ _ HN Hk I E) as (I' & V & Ho). split; [done|]. split; [auto|]. auto.
Qed.

Definition index_at (s : St) (idx : string) : option (list string) :=
  match os_view s NS idx with Some b => from_slice b | None => Some [] end.

Lemma read_index_spec idx s r s' :
  os_id NS → os_id idx → os_inv s → read_index idx s = (r, s') →
  os_inv s' ∧ (∀ j, os_id j → os_view s' NS j = os_view s NS j) ∧
  ∀ ids, r = Ok ids → index_at s idx = Some ids.
Proof.
  intros HN Hi I. unfold read_index, mbind, eff_mbind.
  destruct (to_storage (os_get NS idx) s) as [r1 s1] eqn:E1.
  destruct (ns_get_spec _ _ _ _ HN Hi I E1) as (I1 & V1 & Ho).
  destruct r1 as [o|]; [|intros [= <- <-]; by split_and!]. specialize (Ho o eq_refl).
  unfold index_at. rewrite <-Ho. destruct o as [b|]; intros [= <- <-]; split_and!; try done.
  - intros ids. destruct (from_slice b); [|done]. by intros [= ->].
  - by intros ? [= <-].
Qed.

Section collection.
Context {T : Type} `{SV : Serde T} (tid : T → string) (kind idx : string).
Hypothesis HN : os_id NS.
Hypothesis Hidx : os_id idx.
Hypothesis Hki : ∀ id, okey kind id ≠ idx.

Abbreviation obj s id := (os_view s NS (okey kind id)).

(** The store holds the collection [m]: the index lists its ids, possibly with
    ids whose object is gone. *)
Definition holds (s : St) (m : gmap string T) : Prop :=
  ∃ ids, index_at s idx = Some ids ∧ NoDup ids ∧ Forall (λ id, os_id (okey kind id)) ids ∧
    (∀ id, id ∈ ids → match obj s id with
                      | None => m !! id = None
                      | Some b => ∃ t, from_slice b = Some t ∧ tid t = id ∧ m !! id = Some t
                      end) ∧
    (∀ id, id ∉ ids → m !! id = None).

Lemma holds_frame s s' m :
  os_view s' NS idx = os_view s NS idx →
  (∀ id, os_id (okey kind id) → obj s' id = obj s id) → holds s m → holds s' m.
Proof.
  intros Hi Ho (ids & H1 & H2 & H3 & H4 & H5). exists ids. unfold index_at in *. rewrite Hi.
  split_and!; [done..| |done]. intros id Hid. rewrite Forall_forall in H3.
  rewrite Ho by auto. by apply H4.
Qed.

(** Changing one object: the collection changes if the index lists it. *)
Lemma holds_write s s' m id v :
  os_id (okey kind id) → tid v = id →
  (∀ j, os_id j → os_view s' NS j = if bool_decide (j = okey kind id) then Some (to_vec v) else os_view s NS j) →
  holds s m →
  (holds s' m ∧ m !! id = None) ∨ holds s' (<[id := v]> m).
Proof.
  intros Hid Hv V (ids & H1 & H2 & H3 & H4 & H5).
  assert (os_view s' NS idx = os_view s NS idx) as Vi.
  { rewrite V by done. rewrite bool_decide_eq_false_2; [done|]. apply not_eq_sym, Hki. }
  assert (∀ x, os_id (okey kind x) → x ≠ id → obj s' x = obj s x) as Vo.
  { intros x Hx Hne. rewrite V by done. rewrite bool_decide_eq_false_2; [done|].
    intros E. by apply okey_inj in E. }
  rewrite Forall_forall in H3. destruct (decide (id ∈ ids)) as [Hin|Hin].
  - right. exists ids. unfold index_at in *. rewrite Vi. split_and!; [done..|by apply Forall_forall| |].
    + intros x Hx. destruct (decide (x = id)) as [->|Hne].
      * rewrite V, bool_decide_eq_true_2 by auto. exists v. rewrite from_slice_to_vec, lookup_insert_eq. done.
      * rewrite Vo, lookup_insert_ne by auto. by apply H4.
    + intros x Hx. rewrite lookup_insert_ne by (intros ->; done). auto.
  - left. split; [|by apply H5]. exists ids. unfold index_at in *. rewrite Vi.
    split_and!; [done..|by apply Forall_forall| |done].
    intros x Hx. rewrite Vo; [by apply H4|auto|]. intros ->. done.
Qed.

Lemma holds_delete s s' m id :
  os_id (okey kind id) →
  (∀ j, os_id j → os_view s' NS j = if bool_decide (j = okey kind id) then None else os_view s NS j) →
  holds s m → holds s' (delete id m).
Proof.
  intros Hid V (ids & H1 & H2 & H3 & H4 & H5). exists ids. unfold index_at in *.
  rewrite V, bool_decide_eq_false_2 by (try done; apply not_eq_sym, Hki).
  rewrite Forall_forall in H3. split_and!; [done..|by apply Forall_forall| |].
  - intros x Hx. rewrite V by auto. case_bool_decide as E.
    + apply okey_inj in E as ->. by rewrite lookup_delete_eq.
    + rewrite lookup_delete_ne by (intros ->; done). by apply H4.
  - intros x Hx. destruct (decide (x = id)) as [->|Hne]; [by rewrite lookup_delete_eq|].
    rewrite lookup_delete_ne by done. auto.
Qed.

(** Rewriting the index. *)
Lemma holds_reindex s s' m ids ids' :
  (∀ j, os_id j → os_view s' NS j = if bool_decide (j = idx) then Some (to_vec ids') else os_view s NS j) →
  index_at s idx = Some ids → NoDup ids' → Forall (λ id, os_id (okey kind id)) ids' →
  (∀ id, id ∈ ids' → match obj s id with
                     | None => m !! id = None
                     | Some b => ∃ t, from_slice b = Some t ∧ tid t = id ∧ m !! id = Some t
                     end) →
  (∀ id, id ∉ ids' → m !! id = None) → holds s' m.
Proof.
  intros V _ H2 H3 H4 H5. exists ids'. unfold index_at. rewrite V, bool_decide_eq_true_2 by done.
  rewrite from_slice_to_vec. split_and!; [done..| |done]. intros id Hin.
  rewrite Forall_forall in H3. rewrite V by auto. rewrite bool_decide_eq_false_2 by apply Hki. by apply H4.
Qed.

(** The effect of an operation on keys outside its collection. *)
Definition frame (s s' : St) : Prop :=
  ∀ j, os_id j → (∀ id, j ≠ okey kind id) → j ≠ idx → os_view s' NS j = os_view s NS j.

Lemma write_obj_spec s m id v r s' :
  os_id (okey kind id) → tid v = id → os_inv s → holds s m → is_Some (m !! id) →
  write_obj kind id v s = (r, s') →
  os_inv s' ∧ frame s s' ∧ holds s' (if is_ok r then <[id := v]> m else m).
Proof.
  intros Hid Hv I Hh [x Hm] E. destruct (ns_put_spec _ _ _ _ _ HN Hid I E) as [I' V].
  split; [done|]. split.
  { intros j Hj Hne _. rewrite V by done. rewrite bool_decide_eq_false_2 by apply Hne.
    by rewrite andb_false_r. }
  destruct (is_ok r); simpl in V.
  - destruct (holds_write s s' m id v Hid Hv V Hh) as [[_ Hn]|H]; [congruence|done].
  - apply (holds_frame s); [by apply V|intros; by apply V|done].
Qed.

Lemma create_obj_spec s m id v r s' :
  os_id (okey kind id) → tid v = id → os_inv s → holds s m →
  create_obj kind idx id v s = (r, s') →
  os_inv s' ∧ frame s s' ∧
  (if is_ok r then holds s' (<[id := v]> m) else holds s' m ∨ holds s' (<[id := v]> m)).
Proof.
  intros Hid Hv I Hh. unfold create_obj, mbind, eff_mbind.
  destruct (write_obj kind id v s) as [r1 s1] eqn:E1.
  destruct (ns_put_spec _ _ _ _ _ HN Hid I E1) as [I1 V1].
  assert (frame s s1) as F1.
  { intros j Hj Hne _. rewrite V1 by done. rewrite bool_decide_eq_false_2 by apply Hne.
    by rewrite andb_false_r. }
  destruct r1 as [[]|]; simpl in V1.
  2:{ intros [= <- <-]. split_and!; [done..|]. left.
      apply (holds_frame s); [by apply V1|intros; by apply V1|done]. }
  pose proof (holds_write s s1 m id v Hid Hv V1 Hh) as H1.
  assert (holds s1 m ∨ holds s1 (<[id := v]> m)) as H1' by (destruct H1 as [[? _]|?]; auto).
  unfold add_to_index, mbind, eff_mbind. destruct (read_index idx s1) as [r2 s2] eqn:E2.
  destruct (read_index_spec _ _ _ _ HN Hidx I1 E2) as (I2 & V2 & Hids).
  assert (∀ m', holds s1 m' → holds s2 m') as H12 by (intros m'; apply holds_frame; auto).
  assert (frame s s2) as F2 by (intros j ???; rewrite V2 by done; by apply F1).
  destruct r2 as [ids|]; [|intros [= <- <-]; split_and!; [done..|]; simpl; destruct H1'; auto].
  specialize (Hids ids eq_refl). unfold contains. case_bool_decide as Hin; simpl.
  - intros [= <- <-]. split_and!; [done..|]. simpl. apply H12.
    destruct H1 as [[(ids' & J1 & _ & _ & J4 & _) Hnone]|?]; [|done].
    assert (ids' = ids) as -> by congruence. specialize (J4 id Hin).
    rewrite V1, bool_decide_eq_true_2 in J4 by done. destruct J4 as (t & _ & _ & ?). congruence.
  - intros E3. destruct (ns_put_spec _ _ _ _ _ HN Hidx I2 E3) as [I3 V3].
    assert (frame s s') as F3.
    { intros j Hj Hne Hni. rewrite V3 by done. rewrite bool_decide_eq_false_2 by done.
      rewrite andb_false_r. by apply F2. }
    split; [done|]. split; [done|]. destruct (is_ok r) eqn:Eok; simpl in V3.
    + destruct Hh as (ids0 & K1 & K2 & K3 & K4 & K5).
      assert (ids0 = ids) as ->.
      { unfold index_at in K1, Hids. rewrite V1, bool_decide_eq_false_2 in Hids
          by (try done; apply not_eq_sym, Hki). congruence. }
      apply (holds_reindex s2 s' _ ids (ids ++ [id]) V3).
      * unfold index_at in *. by rewrite V2.
      * apply NoDup_app. split; [done|]. split; [|by apply NoDup_singleton].
        intros x Hx ->%list_elem_of_singleton. done.
      * apply Forall_app. split; [done|by constructor].
      * rewrite Forall_forall in K3. intros x [Hx|Hx]%elem_of_app.
        -- rewrite V2, V1 by auto. rewrite bool_decide_eq_false_2.
           2:{ intros E. apply okey_inj in E as ->. done. }
           rewrite lookup_insert_ne by (intros ->; done). by apply K4.
        -- apply list_elem_of_singleton in Hx as ->. rewrite V2, V1, bool_decide_eq_true_2 by auto.
           exists v. by rewrite from_slice_to_vec, lookup_insert_eq.
      * intros x Hx. rewrite not_elem_of_app, list_elem_of_singleton in Hx. destruct Hx as [Hx1 Hx2].
        rewrite lookup_insert_ne by congruence. auto.
    + assert (∀ m', holds s2 m' → holds s' m') as H23 by (intros m'; apply holds_frame; auto).
      destruct H1'; auto.
Qed.

Lemma delete_obj_spec s m id r s' :
  os_id (okey kind id) → os_inv s → holds s m →
  delete_obj kind idx id s = (r, s') →
  os_inv s' ∧ frame s s' ∧
  (if is_ok r then holds s' (delete id m) else holds s' m ∨ holds s' (delete id m)).
Proof.
  intros Hid I Hh. unfold delete_obj, mbind, eff_mbind.
  destruct (to_storage (os_delete NS (okey kind id)) s) as [r1 s1] eqn:E1.
  destruct (ns_delete_spec _ _ _ _ HN Hid I E1) as [I1 V1].
  assert (frame s s1) as F1.
  { intros j Hj Hne _. rewrite V1 by done. rewrite bool_decide_eq_false_2 by apply Hne.
    by rewrite andb_false_r. }
  destruct r1 as [[]|]; simpl in V1.
  2:{ intros [= <- <-]. split_and!; [done..|]. left.
      apply (holds_frame s); [by apply V1|intros; by apply V1|done]. }
  pose proof (holds_delete s s1 m id Hid V1 Hh) as H1.
  unfold remove_from_index, mbind, eff_mbind. destruct (read_index idx s1) as [r2 s2] eqn:E2.
  destruct (read_index_spec _ _ _ _ HN Hidx I1 E2) as (I2 & V2 & Hids).
  assert (holds s2 (delete id m)) as H2 by (apply (holds_frame s1); auto).
  assert (frame s s2) as F2 by (intros j ???; rewrite V2 by done; by apply F1).
  destruct r2 as [ids|]; [|intros [= <- <-]; split_and!; [done..|]; simpl; auto].
  specialize (Hids ids eq_refl).
  intros E3. destruct (ns_put_spec _ _ _ _ _ HN Hidx I2 E3) as [I3 V3].
  assert (frame s s') as F3.
  { intros j Hj Hne Hni. rewrite V3 by done. rewrite bool_decide_eq_false_2 by done.
    rewrite andb_false_r. by apply F2. }
  split; [done|]. split; [done|]. destruct (is_ok r); simpl in V3.
  - destruct H2 as (ids2 & K1 & K2 & K3 & K4 & K5).
    assert (ids2 = ids) as ->.
    { unfold index_at in K1, Hids. rewrite V2 in K1 by done. congruence. }
    apply (holds_reindex s2 s' _ ids (filter (λ x, x ≠ id) ids) V3 K1).
    + by apply NoDup_filter.
    + rewrite Forall_forall in *. intros x [_ Hx]%list_elem_of_filter. auto.
    + intros x [_ Hx]%list_elem_of_filter. by apply K4.
    + intros x Hx. destruct (decide (x = id)) as [->|Hne]; [by rewrite lookup_delete_eq|].
      apply K5. intros Hin. apply Hx, list_elem_of_filter. done.
  - right. apply (holds_frame s2); auto.
Qed.

(** ** Loading a collection *)
Section load.
Context (get_ : Directory → gmap string T) (set_ : gmap string T → Directory → Directory).
Context (add : Directory → T → result IdentityError Directory).
Hypothesis get_set : ∀ m d, get_ (set_ m d) = m.
Hypothesis set_set : ∀ m m' d, set_ m (set_ m' d) = set_ m d.
Hypothesis set_get : ∀ d, set_ (get_ d) d = d.
Hypothesis add_new : ∀ d v, get_ d !! tid v = None → add d v = Ok (set_ (<[tid v := v]> (get_ d)) d).

Lemma read_obj_calm s id :
  os_id (okey kind id) → os_inv s → os_calm s →
  (∀ b, obj s id = Some b → is_Some (from_slice b : option T)) →
  ∃ s', read_obj T kind id s = (Ok (obj s id ≫= from_slice), s') ∧
    os_calm s' ∧ os_inv s' ∧ ∀ j, os_id j → os_view s' NS j = os_view s NS j.
Proof.
  intros Hid I C Hdec. unfold read_obj, mbind, eff_mbind, to_storage, eff_map_err.
  destruct (os_get_calm _ _ _ HN Hid I C) as (s' & E & C'). rewrite E. simpl.
  destruct (os_get_spec _ _ _ _ _ HN Hid I E) as (I' & V & _). exists s'.
  split; [|split_and!; auto].
  destruct (obj s id) as [b|] eqn:Eo; [|done]. unfold lift. simpl.
  destruct (Hdec b eq_refl) as [t Ht]. by rewrite Ht.
Qed.

Lemma load_objs_calm ids (m : gmap string T) d s :
  NoDup ids → Forall (λ id, os_id (okey kind id)) ids → os_inv s → os_calm s →
  (∀ id, id ∈ ids → match obj s id with
                    | None => m !! id = None
                    | Some b => ∃ t, from_slice b = Some t ∧ tid t = id ∧ m !! id = Some t
                    end) →
  (∀ id, id ∈ ids → get_ d !! id = None) →
  ∃ (m' : gmap string T) s', load_objs T kind add ids d s = (Ok (set_ m' d), s') ∧
    os_calm s' ∧ os_inv s' ∧ (∀ j, os_id j → os_view s' NS j = os_view s NS j) ∧
    ∀ id, m' !! id = if bool_decide (id ∈ ids) then m !! id else get_ d !! id.
Proof.
  revert d s. induction ids as [|id ids IH]; intros d s Hnd Hids I C Hm Hd; simpl.
  { exists (get_ d), s. rewrite set_get. split_and!; try done. }
  apply NoDup_cons in Hnd as [Hni Hnd]. apply Forall_cons in Hids as [Hid Hids].
  pose proof (Hm id ltac:(left)) as Hm0.
  destruct (read_obj_calm s id Hid I C) as (s1 & E1 & C1 & I1 & V1).
  { intros b Hb. rewrite Hb in Hm0. destruct Hm0 as (t & -> & _). done. }
  unfold mbind, eff_mbind. rewrite E1. clear E1.
  set (d1 := match obj s id ≫= from_slice with Some v => set_ (<[tid v := v]> (get_ d)) d | None => d end).
  assert (match obj s id ≫= from_slice with Some v => lift (add d v) | None => mret d end s1 = (Ok d1, s1)) as ->.
  { unfold d1. destruct (obj s id) as [b|] eqn:Eo; [|done]. destruct Hm0 as (t & Ht & Htid & _). simpl.
    rewrite Ht. unfold lift. rewrite add_new; [done|]. rewrite Htid. apply Hd. left. }
  assert (∀ x, get_ d1 !! x = if bool_decide (x = id) then m !! id else get_ d !! x) as Hd1.
  { intros x. unfold d1. destruct (obj s id) as [b|] eqn:Eo; simpl.
    - destruct Hm0 as (t & Ht & Htid & Hmt). rewrite Ht, get_set, Htid. case_bool_decide as Hx.
      + subst x. by rewrite lookup_insert_eq.
      + by rewrite lookup_insert_ne.
    - case_bool_decide as Hx; [|done]. subst x. rewrite Hm0. apply Hd. left. }
  assert (∀ m', set_ m' d1 = set_ m' d) as Hset.
  { intros m'. unfold d1. by destruct (obj s id ≫= from_slice). }
  destruct (IH d1 s1 Hnd Hids I1 C1) as (m' & s' & E & C' & I' & V' & Hm').
  - intros x Hx. rewrite V1 by (rewrite Forall_forall in Hids; auto). apply Hm. by right.
  - intros x Hx. rewrite Hd1, bool_decide_eq_false_2 by (intros ->; done). apply Hd. by right.
  - exists m', s'. rewrite E, Hset. split_and!; [done..| |].
    + intros j Hj. rewrite V' by done. auto.
    + intros x. rewrite Hm'. case_bool_decide as Hx.
      * rewrite bool_decide_eq_true_2 by (by right). done.
      * rewrite Hd1. case_bool_decide as Hxi.
        -- subst x. by rewrite bool_decide_eq_true_2 by left.
        -- rewrite bool_decide_eq_false_2; [done|]. by intros [?|?]%elem_of_cons.
Qed.

Lemma load_collection m d s :
  os_inv s → os_calm s → holds s m → get_ d = ∅ →
  ∃ ids s1 s', read_index idx s = (Ok ids, s1) ∧ load_objs T kind add ids d s1 = (Ok (set_ m d), s') ∧
    os_calm s' ∧ os_inv s' ∧ ∀ j, os_id j → os_view s' NS j = os_view s NS j.
Proof.
  intros I C (ids & H1 & H2 & H3 & H4 & H5) Hd.
  destruct (os_get_calm _ _ _ HN Hidx I C) as (s1 & E1 & C1).
  destruct (os_get_spec _ _ _ _ _ HN Hidx I E1) as (I1 & V1 & _).
  destruct (load_objs_calm ids m d s1 H2 H3 I1 C1) as (m' & s' & E & C' & I' & V' & Hm').
  - intros id Hid. rewrite Forall_forall in H3. rewrite V1 by auto. by apply H4.
  - intros id _. by rewrite Hd.
  - exists ids, s1, s'. split_and!; [| |done..|].
    + unfold read_index, mbind, eff_mbind, to_storage, eff_map_err. rewrite E1. simpl.
      unfold index_at in H1. destruct (os_view s NS idx) as [b|]; [|by injection H1 as ->].
      unfold lift. by rewrite H1.
    + rewrite E. repeat f_equal. apply map_eq. intros id. rewrite Hm', Hd. case_bool_decide as Hin; [done|].
      symmetry. by apply H5.
    + intros j Hj. rewrite V' by done. auto.
Qed.
End load.
End collection.

(** ** The whole directory *)

Definition stored (s : St) (d : Directory) : Prop :=
  os_inv s ∧ holds u_id "user" IDX_USERS s (d_users d) ∧ holds o_id "org" IDX_ORGS s (d_orgs d) ∧
  holds t_id "team" IDX_TEAMS s (d_teams d) ∧ holds r_id "repo" IDX_REPOS s (d_repos d).

(** The keys the directory itself uses are among the identifiers of the run. *)
Hypothesis HNS : os_id NS.
Hypothesis Husers : os_id IDX_USERS.
Hypothesis Horgs : os_id IDX_ORGS.
Hypothesis Hteams : os_id IDX_TEAMS.
Hypothesis Hrepos : os_id IDX_REPOS.

Ltac other_kind F :=
  eapply holds_frame; [..|eassumption];
  [by apply F; [done|intros ? ?; discriminate|discriminate]
  |intros ? ?; by apply F; [done|intros ? ?; discriminate|discriminate]].

Lemma stored_users s s' d m :
  stored s d → os_inv s' → frame "user" IDX_USERS s s' → holds u_id "user" IDX_USERS s' m →
  stored s' (set_users m d).
Proof. intros (I & U & O & T & R) I' F H. split_and!; simpl; [done|done|other_kind F..]. Qed.
Lemma stored_orgs s s' d m :
  stored s d → os_inv s' → frame "org" IDX_ORGS s s' → holds o_id "org" IDX_ORGS s' m →
  stored s' (set_orgs m d).
Proof. intros (I & U & O & T & R) I' F H. split_and!; simpl; [done|other_kind F|done|other_kind F..]. Qed.
Lemma stored_teams s s' d m :
  stored s d → os_inv s' → frame "team" IDX_TEAMS s s' → holds t_id "team" IDX_TEAMS s' m →
  stored s' (set_teams m d).
Proof.
  intros (I & U & O & T & R) I' F H. split_and!; simpl; [done|other_kind F|other_kind F|done|other_kind F].
Qed.
Lemma stored_repos s s' d m :
  stored s d → os_inv s' → frame "repo" IDX_REPOS s s' → holds r_id "repo" IDX_REPOS s' m →
  stored s' (set_repos m d).
Proof. intros (I & U & O & T & R) I' F H. split_and!; simpl; [done|other_kind F..|done]. Qed.

(** Opening a directory that is stored gives it back. *)
Lemma pd_open_stored s d : stored s d → os_calm s → ∃ s', pd_open s = (Ok d, s') ∧ os_calm s' ∧ stored s' d.
Proof.
  intros (I & U & O & T & R) C. unfold pd_open, mbind, eff_mbind.
  destruct (load_collection u_id "user" IDX_USERS HNS Husers d_users set_users add_user
    ltac:(done) ltac:(done) ltac:(by intros []) ltac:(intros ? ? E; unfold add_user, map_add; by rewrite E)
    (d_users d) dir_new s I C U ltac:(done)) as (ids1 & s1 & s2 & -> & -> & C2 & I2 & V2).
  assert (holds o_id "org" IDX_ORGS s2 (d_orgs d)) as O2 by (eapply holds_frame; [..|exact O]; auto).
  destruct (load_collection o_id "org" IDX_ORGS HNS Horgs d_orgs set_orgs add_org
    ltac:(done) ltac:(done) ltac:(by intros []) ltac:(intros ? ? E; unfold add_org, map_add; by rewrite E)
    (d_orgs d) (set_users (d_users d) dir_new) s2 I2 C2 O2 ltac:(done))
    as (ids3 & s3 & s4 & -> & -> & C4 & I4 & V4).
  assert (∀ j, os_id j → os_view s4 NS j = os_view s NS j) as V by (intros; rewrite V4, V2; auto).
  assert (holds t_id "team" IDX_TEAMS s4 (d_teams d)) as T4 by (eapply holds_frame; [..|exact T]; auto).
  destruct (load_collection t_id "team" IDX_TEAMS HNS Hteams d_teams set_teams add_team
    ltac:(done) ltac:(done) ltac:(by intros []) ltac:(done)
    (d_teams d) (set_orgs (d_orgs d) (set_users (d_users d) dir_new)) s4 I4 C4 T4 ltac:(done))
    as (ids5 & s5 & s6 & -> & -> & C6 & I6 & V6).
  assert (∀ j, os_id j → os_view s6 NS j = os_view s NS j) as V' by (intros; rewrite V6, V; auto).
  assert (holds r_id "repo" IDX_REPOS s6 (d_repos d)) as R6 by (eapply holds_frame; [..|exact R]; auto).
  destruct (load_collection r_id "repo" IDX_REPOS HNS Hrepos d_repos set_repos add_repo
    ltac:(done) ltac:(done) ltac:(by intros []) ltac:(intros ? ? E; unfold add_repo, map_add; by rewrite E)
    (d_repos d) (set_teams (d_teams d) (set_orgs (d_orgs d) (set_users (d_users d) dir_new))) s6 I6 C6 R6
    ltac:(done)) as (ids7 & s7 & s8 & -> & -> & C8 & I8 & V8).
  assert (∀ j, os_id j → os_view s8 NS j = os_view s NS j) as V'' by (intros; rewrite V8, V'; auto).
  exists s8. split; [by destruct d|]. split; [done|].
  split_and!; [done|eapply holds_frame; [..|exact U]|eapply holds_frame; [..|exact O]
    |eapply holds_frame; [..|exact T]|eapply holds_frame; [..|exact R]]; auto.
Qed.

(** *** Operations *)

Inductive dir_op :=
| CreateUser (u : User) | UpdateUser (u : User) | DeleteUser (id : string)
| CreateOrg (o : Org) | UpdateOrg (o : Org) | DeleteOrg (id : string)
| CreateTeam (t : Team) | UpdateTeam (t : Team) | DeleteTeam (id : string)
| CreateRepo (r : Repo) | UpdateRepo (r : Repo) | DeleteRepo (id : string)
| SetOrgMember (o u : string) (r : OrgRole) | RemoveOrgMember (o u : string)
| AddTeamMember (t u : string) | RemoveTeamMember (t u : string)
| SetTeamGrant (t r : string) (x : Role) | RevokeTeamGrant (t r : string)
| SetCollaborator (r u : string) (x : Role) | RemoveCollaborator (r u : string).

Definition run_op (op : dir_op) : eff PD IdentityError unit :=
  match op with
  | CreateUser u => create_user u | UpdateUser u => pd_update_user u | DeleteUser id => delete_user id
  | CreateOrg o => create_org o | UpdateOrg o => pd_update_org o | DeleteOrg id => delete_org id
  | CreateTeam t => create_team t | UpdateTeam t => pd_update_team t | DeleteTeam id => delete_team id
  | CreateRepo r => create_repo r | UpdateRepo r => pd_update_repo r | DeleteRepo id => pd_delete_repo id
  | SetOrgMember o u r => set_org_member o u r | RemoveOrgMember o u => remove_org_member o u
  | AddTeamMember t u => add_team_member t u | RemoveTeamMember t u => remove_team_member t u
  | SetTeamGrant t r x => set_team_repo_grant t r x | RevokeTeamGrant t r => revoke_team_repo_grant t r
  | SetCollaborator r u x => set_collaborator r u x | RemoveCollaborator r u => remove_collaborator r u
  end.

(** A created entity's key is among the identifiers of the run. *)
Definition op_key_ok (op : dir_op) : Prop :=
  match op with
  | CreateUser u => os_id (okey "user" (u_id u))
  | CreateOrg o => os_id (okey "org" (o_id o))
  | CreateTeam t => os_id (okey "team" (t_id t))
  | CreateRepo r => os_id (okey "repo" (r_id r))
  | _ => True
  end.

(** What an operation may leave behind: on success the store holds the
    directory in memory; on an error it holds that or the directory as it was. *)
Definition settled (r : result IdentityError unit) (s' : St) (d d' : Directory) : Prop :=
  if is_ok r then stored s' d' else stored s' d ∨ stored s' d'.

Lemma holds_key {T} `{Serde T} (tid : T → string) kind idx s m id t :
  holds tid kind idx s m → m !! id = Some t → os_id (okey kind id) ∧ tid t = id.
Proof.
  intros (ids & _ & _ & H3 & H4 & H5) Hm. destruct (decide (id ∈ ids)) as [Hin|Hin].
  - rewrite Forall_forall in H3. split; [auto|]. specialize (H4 id Hin).
    destruct (os_view s NS _) as [b|]; [|congruence]. destruct H4 as (t' & _ & ? & ?). congruence.
  - rewrite H5 in Hm; done.
Qed.

(** The shape of the methods: memory first, then the store. *)
Lemma op_inv f (c : eff St IdentityError unit) d s r d' s' :
  (_ ← in_memory f; on_store c) (d, s) = (r, (d', s')) →
  (∃ e, f d = Err e ∧ r = Err e ∧ d' = d ∧ s' = s) ∨ (f d = Ok d' ∧ c s = (r, s')).
Proof.
  unfold mbind, eff_mbind, in_memory, on_store. destruct (f d) as [d1|e].
  - destruct (c s) as [r1 s1]. intros [= <- <- <-]. auto.
  - intros [= <- <- <-]. left. eauto 10.
Qed.

(** One collection's three operations, for a map inside the directory. *)
Section settle.
Context {T : Type} `{SV : Serde T} (tid : T → string) (kind idx : string).
Context (get_ : Directory → gmap string T) (set_ : gmap string T → Directory → Directory).
Hypothesis Hidx : os_id idx.
Hypothesis Hki : ∀ id, okey kind id ≠ idx.
Hypothesis set_get : ∀ d, set_ (get_ d) d = d.
Hypothesis project : ∀ s d, stored s d → holds tid kind idx s (get_ d).
Hypothesis rebuild : ∀ s s' d m,
  stored s d → os_inv s' → frame kind idx s s' → holds tid kind idx s' m → stored s' (set_ m d).

Lemma settle_either s s' d m (r : result IdentityError unit) :
  stored s d → os_inv s' → frame kind idx s s' →
  (if is_ok r then holds tid kind idx s' m else holds tid kind idx s' (get_ d) ∨ holds tid kind idx s' m) →
  settled r s' d (set_ m d).
Proof.
  intros S I' F H. unfold settled. destruct (is_ok r); [by apply (rebuild s)|].
  destruct H; [left|right; by apply (rebuild s)]. rewrite <-(set_get d). by apply (rebuild s).
Qed.

Lemma settle_create f v d s r d' s' :
  (f d = Ok (set_ (<[tid v := v]> (get_ d)) d) ∨ ∃ e, f d = Err e) →
  stored s d → os_id (okey kind (tid v)) →
  (_ ← in_memory f; on_store (create_obj kind idx (tid v) v)) (d, s) = (r, (d', s')) → settled r s' d d'.
Proof.
  intros Hf S Hk [(e & _ & -> & -> & ->)|[Hf' Hc]]%op_inv; [left; done|].
  destruct Hf as [Hf|[e Hf]]; [|congruence]. assert (d' = set_ (<[tid v := v]> (get_ d)) d) as -> by congruence.
  apply (create_obj_spec tid kind idx HNS Hidx Hki s (get_ d)) in Hc as (I' & F & H); [|done|done|apply S|auto].
  by apply (settle_either s).
Qed.

Lemma settle_update f v d s r d' s' :
  ((f d = Ok (set_ (<[tid v := v]> (get_ d)) d) ∧ is_Some (get_ d !! tid v)) ∨ ∃ e, f d = Err e) →
  stored s d →
  (_ ← in_memory f; on_store (write_obj kind (tid v) v)) (d, s) = (r, (d', s')) → settled r s' d d'.
Proof.
  intros Hf S [(e & _ & -> & -> & ->)|[Hf' Hc]]%op_inv; [left; done|].
  destruct Hf as [[Hf [t Ht]]|[e Hf]]; [|congruence].
  assert (d' = set_ (<[tid v := v]> (get_ d)) d) as -> by congruence.
  destruct (holds_key tid kind idx s (get_ d) (tid v) t (project s d S) Ht) as [Hk _].
  apply (write_obj_spec tid kind idx HNS Hidx Hki s (get_ d)) in Hc as (I' & F & H); [|done|done|apply S|auto|by eexists].
  apply (settle_either s); [done..|]. destruct (is_ok r); auto.
Qed.

Lemma settle_delete f id d s r d' s' :
  ((f d = Ok (set_ (delete id (get_ d)) d) ∧ is_Some (get_ d !! id)) ∨ ∃ e, f d = Err e) →
  stored s d →
  (_ ← in_memory f; on_store (delete_obj kind idx id)) (d, s) = (r, (d', s')) → settled r s' d d'.
Proof.
  intros Hf S [(e & _ & -> & -> & ->)|[Hf' Hc]]%op_inv; [left; done|].
  destruct Hf as [[Hf [t Ht]]|[e Hf]]; [|congruence].
  assert (d' = set_ (delete id (get_ d)) d) as -> by congruence.
  destruct (holds_key tid kind idx s (get_ d) id t (project s d S) Ht) as [Hk _].
  apply (delete_obj_spec tid kind idx HNS Hidx Hki s (get_ d)) in Hc as (I' & F & H); [|done|apply S|auto].
  by apply (settle_either s).
Qed.
End settle.

(** The side conditions of the three lemmas at one of the four collections. *)
Ltac settle_side :=
  first [done | by intros [] | intros ? ?; discriminate
        | by intros ? ? (? & ? & ? & ? & ?)
        | exact stored_users | exact stored_orgs | exact stored_teams | exact stored_repos
        | cbv beta; unfold add_user, add_org, add_repo, update_user, update_org, update_team, update_repo,
            remove_user, remove_org, remove_team, remove_repo, map_add, map_update, map_remove;
          case_bool_decide; simpl; eauto; fail
        | cbv beta; unfold remove_user, remove_org, remove_team, remove_repo, map_remove;
          match goal with |- context [?m !! ?k] => destruct (m !! k) end; simpl; eauto; fail
        | by left ].

(** Every operation settles. *)
Lemma run_op_settled op d s r d' s' :
  stored s d → op_key_ok op → run_op op (d, s) = (r, (d', s')) → settled r s' d d'.
Proof.
  intros S Hk.
  assert (∀ o, pd_update_org o (d, s) = (r, (d', s')) → settled r s' d d') as Uorg.
  { intros o. apply (settle_update o_id "org" IDX_ORGS d_orgs set_orgs); settle_side. }
  assert (∀ t, pd_update_team t (d, s) = (r, (d', s')) → settled r s' d d') as Uteam.
  { intros t. apply (settle_update t_id "team" IDX_TEAMS d_teams set_teams); settle_side. }
  assert (∀ x, pd_update_repo x (d, s) = (r, (d', s')) → settled r s' d d') as Urepo.
  { intros x. apply (settle_update r_id "repo" IDX_REPOS d_repos set_repos); settle_side. }
  assert (∀ {A} (g : Directory → gmap string A) id (k : A → eff PD IdentityError unit),
    (∀ a, k a (d, s) = (r, (d', s')) → settled r s' d d') →
    (a ← cloned g id; k a) (d, s) = (r, (d', s')) → settled r s' d d') as Hcl.
  { intros A g id k H. unfold mbind, eff_mbind, cloned. destruct (g d !! id); simpl; [apply H|].
    intros [= <- <- <-]. left. done. }
  destruct op; cbn [run_op op_key_ok] in *;
    try first [exact (Uorg _)|exact (Uteam _)|exact (Urepo _)
      |apply Hcl; intros ?; first [exact (Uorg _)|exact (Uteam _)|exact (Urepo _)]].
  - apply (settle_create u_id "user" IDX_USERS d_users set_users); settle_side.
  - apply (settle_update u_id "user" IDX_USERS d_users set_users); settle_side.
  - apply (settle_delete u_id "user" IDX_USERS d_users set_users); settle_side.
  - apply (settle_create o_id "org" IDX_ORGS d_orgs set_orgs); settle_side.
  - apply (settle_delete o_id "org" IDX_ORGS d_orgs set_orgs); settle_side.
  - apply (settle_create t_id "team" IDX_TEAMS d_teams set_teams); settle_side.
  - apply (settle_delete t_id "team" IDX_TEAMS d_teams set_teams); settle_side.
  - apply (settle_create r_id "repo" IDX_REPOS d_repos set_repos); settle_side.
  - apply (settle_delete r_id "repo" IDX_REPOS d_repos set_repos); settle_side.
Qed.

(** [for op in ops { op?; }]. *)
Definition run_ops (ops : list dir_op) : eff PD IdentityError unit := eff_iter run_op ops.

Lemma run_ops_stored ops d s d' s' :
  stored s d → Forall op_key_ok ops → run_ops ops (d, s) = (Ok (), (d', s')) → stored s' d'.
Proof.
  unfold run_ops. revert d s. induction ops as [|op ops IH]; intros d s S Hk; simpl.
  { by intros [= <- <-]. }
  apply Forall_cons in Hk as [Hk Hks]. unfold mbind, eff_mbind.
  destruct (run_op op (d, s)) as [[[]|] [d1 s1]] eqn:E; [|done].
  apply run_op_settled in E; [|done..]. by apply IH.
Qed.

Lemma stored_empty s : os_inv s → (∀ k, os_view s NS k = None) → stored s dir_new.
Proof.
  intros I Hempty. split_and!; [done|..]; exists []; unfold index_at; rewrite Hempty;
    (split; [done|split; [constructor|split; [done|split; [|done]]]]); by intros ? ?%not_elem_of_nil.
Qed.

(** ** Claims *)

(** C34. The directory survives restarts: from an empty store, after any
    sequence of successful operations (users, organizations, teams, repos and the
    whole access-control surface), opening the store again rebuilds exactly the
    directory in memory. *)
Theorem directory_reopens (ops : list dir_op) (s s' : St) (d' : Directory) :
  os_inv s → (∀ k, os_view s NS k = None) → Forall op_key_ok ops →
  run_ops ops (dir_new, s) = (Ok (), (d', s')) → os_calm s' →
  ∃ s'', pd_open s' = (Ok d', s'').
Proof.
  intros I Hempty Hk E C. pose proof (stored_empty s I Hempty) as S.
  apply run_ops_stored in E; [|done..]. destruct (pd_open_stored s' d' E C) as (s'' & H & _). eauto.
Qed.

(** C35. Operations on the stored directory are atomic across a crash: if the
    store holds the directory and an operation runs, with any of its store calls
    failing, then opening the store again gives the directory after the operation
    or, only when the operation reported an error, the directory before it. *)
Theorem directory_crash_atomic (op : dir_op) (d d' : Directory) (s s' : St) (r : result IdentityError unit) :
  stored s d → op_key_ok op → run_op op (d, s) = (r, (d', s')) → os_calm s' →
  ∃ dd s'', pd_open s' = (Ok dd, s'') ∧ (dd = d' ∨ dd = d ∧ is_ok r = false).
Proof.
  intros S Hk E C. apply run_op_settled in E; [|done..]. unfold settled in E.
  destruct (is_ok r).
  - destruct (pd_open_stored s' d' E C) as (s'' & H & _). eauto 10.
  - destruct E as [E|E]; destruct (pd_open_stored s' _ E C) as (s'' & H & _); eauto 10.
Qed.
End objects.

(** ** Runs over the encrypted store *)

Definition role_code (r : Role) : N := role_rank r.
Definition role_uncode (n : N) : option Role :=
  if n =? 1 then Some Read else if n =? 2 then Some Write else if n =? 3 then Some Admin else None.
Lemma role_uncode_code r : role_uncode (role_code r) = Some r.
Proof. by destruct r. Qed.
Global Instance Role_countable : Countable Role := inj_countable role_code role_uncode role_uncode_code.

Definition orole_code (r : OrgRole) : bool := bool_decide (r = Owner).
Definition orole_uncode (b : bool) : option OrgRole := Some (if b then Owner else Member).
Lemma orole_uncode_code r : orole_uncode (orole_code r) = Some r.
Proof. by destruct r. Qed.
Global Instance OrgRole_countable : Countable OrgRole := inj_countable orole_code orole_uncode orole_uncode_code.

Definition owner_code (o : RepoOwner) : string + string :=
  match o with OwnerUser u => inl u | OwnerOrg u => inr u end.
Definition owner_uncode (x : string + string) : option RepoOwner :=
  Some (match x with inl u => OwnerUser u | inr u => OwnerOrg u end).
Lemma owner_uncode_code o : owner_uncode (owner_code o) = Some o.
Proof. by destruct o. Qed.
Global Instance RepoOwner_countable : Countable RepoOwner :=
  inj_countable owner_code owner_uncode owner_uncode_code.

Global Instance User_eq_dec : EqDecision User.
Proof. solve_decision. Defined.
Global Instance Org_eq_dec : EqDecision Org.
Proof. solve_decision. Defined.
Global Instance Team_eq_dec : EqDecision Team.
Proof. solve_decision. Defined.
Global Instance Repo_eq_dec : EqDecision Repo.
Proof. solve_decision. Defined.

Definition user_code (u : User) := (u_id u, u_username u, u_email u).
Definition user_uncode (x : string * string * string) : option User :=
  let '(a, b, c) := x in Some (mkUser a b c).
Lemma user_uncode_code u : user_uncode (user_code u) = Some u.
Proof. by destruct u. Qed.
Global Instance User_countable : Countable User := inj_countable user_code user_uncode user_uncode_code.

Definition org_code (o : Org) := (o_id o, o_slug o, o_members o).
Definition org_uncode (x : string * string * list (string * OrgRole)) : option Org :=
  let '(a, b, c) := x in Some (mkOrg a b c).
Lemma org_uncode_code o : org_uncode (org_code o) = Some o.
Proof. by destruct o. Qed.
Global Instance Org_countable : Countable Org := inj_countable org_code org_uncode org_uncode_code.

Definition team_code (t : Team) := (t_id t, t_org_id t, t_name t, t_member_ids t, t_repo_grants t).
Definition team_uncode (x : string * string * string * list string * list (string * Role)) : option Team :=
  let '(a, b, c, e, f) := x in Some (mkTeam a b c e f).
Lemma team_uncode_code t : team_uncode (team_code t) = Some t.
Proof. by destruct t. Qed.
Global Instance Team_countable : Countable Team := inj_countable team_code team_uncode team_uncode_code.

Definition repo_code (r : Repo) := (r_id r, r_owner r, r_name r, r_private r, r_collaborators r).
Definition repo_uncode (x : string * RepoOwner * string * bool * list (string * Role)) : option Repo :=
  let '(a, b, c, e, f) := x in Some (mkRepo a b c e f).
Lemma repo_uncode_code r : repo_uncode (repo_code r) = Some r.
Proof. by destruct r. Qed.
Global Instance Repo_countable : Countable Repo := inj_countable repo_code repo_uncode repo_uncode_code.

Section witnesses.
#[local] Existing Instance toy_rng.
#[local] Existing Instance toy_digests.
#[local] Existing Instance toy_aead.
#[local] Existing Instance toy_hex.
#[local] Existing Instance toy_serde.

Definition toy_keys : list string :=
  [NS; IDX_USERS; IDX_ORGS; IDX_TEAMS; IDX_REPOS; okey "user" "u1"; okey "org" "o1"; okey "team" "t1";
   okey "repo" "r1"].

Lemma toy_keys_free : coll_free digest_sha256 (as_bytes <$> toy_keys).
Proof. apply coll_freeb_spec. vm_refl. Qed.

#[local] Instance toy_object_store : ObjectStore World StoreError :=
  encrypted_object_store toy_keys toy_keys_free toy_store.

Definition toy_dir_ops : list dir_op :=
  [CreateUser (mkUser "u1" "ann" "a@x"); CreateOrg (mkOrg "o1" "acme" []);
   CreateRepo (mkRepo "r1" (OwnerOrg "o1") "widgets" true []); SetOrgMember "o1" "u1" Owner;
   CreateTeam (mkTeam "t1" "o1" "dev" [] []); AddTeamMember "t1" "u1"; SetTeamGrant "t1" "r1" Write;
   DeleteTeam "t1"].

Definition toy_dir_run := run_ops toy_dir_ops (dir_new, restarted toy_world).

Lemma toy_id k : bool_decide (k ∈ toy_keys) = true → os_id k.
Proof. apply bool_decide_eq_true. Qed.

Lemma toy_empty_inv w : w_files w = ∅ → seen w → os_inv w ∧ ∀ k, os_view w NS k = None.
Proof.
  intros E Hs. split; [split; [split|done]|].
  - intros ? ?. rewrite E. by intros [].
  - intros ? ? ? ?. rewrite E. by intros [].
  - intros k. simpl. unfold object_at, dek_at. by rewrite E.
Qed.

Lemma toy_dir_run_ok : toy_dir_run.1 = Ok ().
Proof. vm_refl. Qed.

Lemma toy_dir_run_calm : w_sched toy_dir_run.2.2 = [].
Proof. vm_refl. Qed.

Lemma directory_reopens_witness :
  effective_role toy_dir_run.2.1 "u1" "r1" = Some Admin ∧
  ∃ s'', pd_open toy_dir_run.2.2 = (Ok toy_dir_run.2.1, s'').
Proof.
  split; [vm_refl|].
  eapply (directory_reopens (toy_id NS ltac:(vm_refl)) (toy_id IDX_USERS ltac:(vm_refl)) (toy_id IDX_ORGS ltac:(vm_refl))
    (toy_id IDX_TEAMS ltac:(vm_refl)) (toy_id IDX_REPOS ltac:(vm_refl)) toy_dir_ops (restarted toy_world)).
  - apply toy_empty_inv; [done|vm_decide].
  - apply toy_empty_inv; [done|vm_decide].
  - repeat constructor; apply toy_id; vm_refl.
  - fold toy_dir_run. rewrite <-toy_dir_run_ok. by destruct toy_dir_run as [? [? ?]].
  - exact toy_dir_run_calm.
Defined.

(** The object of a new user is written, the index is not: the schedule tears
    that write. *)
Lemma directory_crash_atomic_witness :
  let '(r, (d', s')) := run_op (CreateUser (mkUser "u1" "ann" "a@x")) (dir_new, toy_world) in
  r = Err IdStorage ∧ is_Some (d_users d' !! "u1") ∧
  ∃ dd s'', pd_open s' = (Ok dd, s'') ∧ (dd = d' ∨ dd = dir_new ∧ is_ok r = false).
Proof.
  destruct (run_op (CreateUser (mkUser "u1" "ann" "a@x")) (dir_new, toy_world)) as [r [d' s']] eqn:E.
  assert (r = Err IdStorage ∧ is_Some (d_users d' !! "u1")) as [H1 H2].
  { replace r with (run_op (CreateUser (mkUser "u1" "ann" "a@x")) (dir_new, toy_world)).1 by (by rewrite E).
    replace d' with (run_op (CreateUser (mkUser "u1" "ann" "a@x")) (dir_new, toy_world)).2.1 by (by rewrite E).
    split; [vm_refl|vm_decide]. }
  split; [exact H1|]. split; [exact H2|].
  eapply (directory_crash_atomic (toy_id NS ltac:(vm_refl)) (toy_id IDX_USERS ltac:(vm_refl)) (toy_id IDX_ORGS ltac:(vm_refl))
    (toy_id IDX_TEAMS ltac:(vm_refl)) (toy_id IDX_REPOS ltac:(vm_refl)) _ _ _ toy_world s' r); [| |exact E|].
  - apply stored_empty; (apply toy_empty_inv; [done|vm_decide]).
  - apply toy_id. vm_refl.
  - replace s' with (run_op (CreateUser (mkUser "u1" "ann" "a@x")) (dir_new, toy_world)).2.2 by (by rewrite E).
    match goal with |- os_calm ?w => change (w_sched w = []) end. vm_refl.
Defined.
End witnesses.
