(* ===== verification/Auth.v ===== *)
(** Authentication: [crates/secgit-identity/src/session.rs], [totp.rs] and
    [auth.rs].  The clock is an argument. *)

From Stdlib Require Import Ascii.
From S2P Require Import Prelude Text Backend Toy Envelope Primitives Identity.

(** ** Base64 without padding, as both decoders of the workspace do it *)

Definition B64_STD : bytes :=
  as_bytes "ABCDEFGHIJKLMNOPQRSTUVWXYZabcdefghijklmnopqrstuvwxyz0123456789+/".
Definition B64_URL : bytes :=
  as_bytes "ABCDEFGHIJKLMNOPQRSTUVWXYZabcdefghijklmnopqrstuvwxyz0123456789-_".

(** [table[c as usize]]. *)
Definition b64_value (alphabet : bytes) (c : byte) : option N :=
  N.of_nat <$> (fst <$> list_find (λ x, x = c) alphabet).

(** The loop: [buf] is a [u32], shifted left with the top bits dropped. *)
Fixpoint b64_loop (alphabet : bytes) (s : bytes) (buf bits : N) : option bytes :=
  match s with
  | [] => Some []
  | c :: s =>
      if bool_decide (c = x3d) then Some []
      else
        v ← b64_value alphabet c;
        let buf := N.lor (N.shiftl buf 6 mod 2 ^ 32) v in
        let bits := bits + 6 in
        if 8 <=? bits then
          let bits := bits - 8 in
          rest ← b64_loop alphabet s buf bits;
          Some (byte_of_N (N.shiftr buf bits) :: rest)
        else b64_loop alphabet s buf bits
  end.

Definition b64_decode (alphabet : bytes) (s : bytes) : option bytes := b64_loop alphabet s 0 0.

(** ** [totp.rs] *)

Definition STEP_SECS : N := 30.
Definition SECRET_LEN : nat := 20.

(** [format!("{:06}", n)] of a number below a million. *)
Definition digit (n : N) : ascii := ascii_of_N (48 + n mod 10).
Definition fmt6 (n : N) : string :=
  string_of_list_ascii [digit (n / 100000); digit (n / 10000); digit (n / 1000);
                        digit (n / 100); digit (n / 10); digit n].

Definition B32_ALPHABET : list ascii := list_ascii_of_string "ABCDEFGHIJKLMNOPQRSTUVWXYZ234567".
Definition b32_char (v : N) : ascii := default "A"%char (B32_ALPHABET !! N.to_nat v).

(** [while bits >= 5 { .. }] runs at most twice per byte: fuel 3. *)
Fixpoint b32_drain (fuel : nat) (buffer bits : N) : list ascii * N :=
  match fuel with
  | O => ([], bits)
  | S fuel =>
      if 5 <=? bits then
        let bits := bits - 5 in
        let '(out, bits') := b32_drain fuel buffer bits in
        (b32_char (N.land (N.shiftr buffer bits) 31) :: out, bits')
      else ([], bits)
  end.

Fixpoint b32_loop (data : bytes) (buffer bits : N) : list ascii :=
  match data with
  | [] => if 0 <? bits then [b32_char (N.land (N.shiftl buffer (5 - bits) mod 2 ^ 32) 31)] else []
  | b :: data =>
      let buffer := N.lor (N.shiftl buffer 8 mod 2 ^ 32) (Byte.to_N b) in
      let '(out, bits) := b32_drain 3 buffer (bits + 8) in
      out ++ b32_loop data buffer bits
  end.
Definition base32_encode (data : bytes) : string := string_of_list_ascii (b32_loop data 0 0).

Section totp.
Context `{RND : SystemRandom} `{MAC : Hmacs}.

(** [digest[i] as u32]; in range, see [hotp_in_range]. *)
Definition digest_at (digest : bytes) (i : N) : N := default 0 (Byte.to_N <$> digest !! N.to_nat i).

Definition hotp_offset (digest : bytes) : N := N.land (digest_at digest (lengthN digest - 1)) 15.

Definition hotp (secret : bytes) (counter : N) : string :=
  let digest := hmac_sign_sha1 secret (to_be_bytes 8 counter) in
  let offset := hotp_offset digest in
  let bin := N.lor (N.lor (N.lor (N.shiftl (N.land (digest_at digest offset) 127) 24)
                                 (N.shiftl (digest_at digest (offset + 1)) 16))
                          (N.shiftl (digest_at digest (offset + 2)) 8))
                   (digest_at digest (offset + 3)) in
  fmt6 (bin mod 10 ^ 6).

Definition totp_generate : eff rng IdentityError bytes := eff_map_err (λ _, IdCrypto) (random_vec SECRET_LEN).

Definition code_at (secret : bytes) (unix_secs : N) : string := hotp secret (unix_secs / STEP_SECS).

Definition provisioning_uri (secret : bytes) (issuer account : string) : string :=
  "otpauth://totp/" +:+ issuer +:+ ":" +:+ account +:+ "?secret=" +:+ base32_encode secret
  +:+ "&issuer=" +:+ issuer +:+ "&algorithm=SHA1&digits=6&period=30".

(** [lo..=hi]. *)
Definition range_incl (lo hi : N) : list N := (λ i, lo + N.of_nat i) <$> seq 0 (N.to_nat (hi + 1 - lo)).

Definition totp_verify_at (secret : bytes) (code : string) (unix_secs window : N) : bool :=
  let counter := unix_secs / STEP_SECS in
  existsb (λ c, ct_eq (as_bytes (hotp secret c)) (as_bytes code))
    (range_incl (counter - window) (sat_add64 counter window)).
End totp.

(** ** [session.rs] *)

Record Session := mkSession { s_user_id : string; s_expires_at : N; s_mfa_satisfied : bool }.

Record SessionStore := mkSessions { ss_ttl_secs : N; ss_by_hash : gmap string Session }.

Section session.
Context `{RND : SystemRandom} `{DIG : Digests} `{HX : Hex}.

Definition sessions_new (ttl_secs : N) : SessionStore := {| ss_ttl_secs := ttl_secs; ss_by_hash := ∅ |}.

Definition with_sessions (st : SessionStore) (m : gmap string Session) : SessionStore :=
  {| ss_ttl_secs := ss_ttl_secs st; ss_by_hash := m |}.

Definition token_hash (token : string) : string := hex_encode (sha256 (as_bytes token)).

Definition session_create (user_id : string) (mfa_satisfied : bool) (now : N)
    : eff (SessionStore * rng) IdentityError string := λ '(st, g),
  match random_vec 32 g with
  | (Err _, g) => (Err IdCrypto, (st, g))
  | (Ok raw, g) =>
      let token := hex_encode raw in
      let session := {| s_user_id := user_id; s_expires_at := sat_add64 now (ss_ttl_secs st);
                        s_mfa_satisfied := mfa_satisfied |} in
      (Ok token, (with_sessions st (<[token_hash token := session]> (ss_by_hash st)), g))
  end.

Definition session_gc (now : N) (st : SessionStore) : SessionStore :=
  with_sessions st (filter (λ kv, now < s_expires_at kv.2) (ss_by_hash st)).

(** The clock is read by [gc] and again by the check. *)
Definition session_validate (token : string) (now now' : N) (st : SessionStore) : option Session * SessionStore :=
  let st := session_gc now st in
  (s ← ss_by_hash st !! token_hash token;
   if (s_expires_at s <=? now') || negb (s_mfa_satisfied s) then None else Some s, st).

Definition complete_mfa (token : string) (st : SessionStore) : result IdentityError SessionStore :=
  match ss_by_hash st !! token_hash token with
  | Some s => Ok (with_sessions st
      (<[token_hash token := {| s_user_id := s_user_id s; s_expires_at := s_expires_at s;
                                s_mfa_satisfied := true |}]> (ss_by_hash st)))
  | None => Err IdAuthFailed
  end.

Definition session_revoke (token : string) (st : SessionStore) : SessionStore :=
  with_sessions st (delete (token_hash token) (ss_by_hash st)).

Definition revoke_all_for (user_id : string) (st : SessionStore) : SessionStore :=
  with_sessions st (filter (λ kv, s_user_id kv.2 ≠ user_id) (ss_by_hash st)).
End session.

(** ** [auth.rs] *)

Definition PBKDF2_ITERATIONS : N := 600000.
Definition PBKDF2_OUTPUT_LEN : nat := 32.
Definition SALT_LEN : nat := 16.

(** [aws_lc_rs::pbkdf2] with HMAC-SHA256: iterations, salt, secret. *)
Class Pbkdf2 := {
  pbkdf2_derive : N → bytes → bytes → nat → bytes;
  pbkdf2_verify : N → bytes → bytes → bytes → bool;
  pbkdf2_len : ∀ i salt pw n, length (pbkdf2_derive i salt pw n) = n;
  pbkdf2_verify_spec : ∀ i salt pw e,
    pbkdf2_verify i salt pw e = true ↔ e ≠ [] ∧ pbkdf2_derive i salt pw (length e) = e;
}.

(** [RsaPublicKeyComponents::verify] with [RSA_PKCS1_2048_8192_SHA256]: modulus,
    exponent, message, signature. *)
Class RsaPkcs1 := { rsa_verify : bytes → bytes → bytes → bytes → bool }.

Record PasswordHash := mkPasswordHash { ph_salt_hex : string; ph_hash_hex : string; ph_iterations : N }.

(** username -> (user_id, password hash). *)
Abbreviation LocalAuthenticator := (gmap string (string * PasswordHash)).

Record Jwk := mkJwk { jwk_kid : string; jwk_n : string; jwk_e : string; jwk_alg : option string }.
Record JwtHeader := mkJwtHeader { jh_alg : string; jh_kid : option string }.
(** The [aud] value: a string, an array of which only the strings matter, or
    something else. *)
Inductive AudValue := AudString (s : string) | AudArray (l : list (option string)) | AudOther.
Record JwtClaims := mkJwtClaims {
  jc_iss : string;
  jc_sub : string;
  jc_aud : AudValue;
  jc_exp : option N;
  jc_nbf : option N;
  jc_email : option string;
}.
Record OidcClaims := mkOidc { oc_subject : string; oc_email : option string; oc_issuer : string }.

Record JwksOidcVerifier := mkJwks {
  jv_issuer : string;
  jv_audience : string;
  jv_keys : gmap string (bytes * bytes);
  jv_leeway_secs : N;
}.

Definition DOT : byte := x2e.

Section auth.
Context `{RND : SystemRandom} `{HX : Hex} `{PB : Pbkdf2} `{RP : RsaPkcs1}
  `{SH : Serde JwtHeader} `{SC : Serde JwtClaims} `{SJ : Serde (list Jwk)}.

Definition from_password (password : string) : eff rng IdentityError PasswordHash :=
  salt ← eff_map_err (λ _, IdCrypto) (random_vec SALT_LEN);
  let out := pbkdf2_derive PBKDF2_ITERATIONS salt (as_bytes password) PBKDF2_OUTPUT_LEN in
  mret {| ph_salt_hex := hex_encode salt; ph_hash_hex := hex_encode out; ph_iterations := PBKDF2_ITERATIONS |}.

Definition password_verify (ph : PasswordHash) (password : string) : bool :=
  match hex_decode (ph_salt_hex ph), hex_decode (ph_hash_hex ph) with
  | Some salt, Some expected =>
      if ph_iterations ph =? 0 then false
      else pbkdf2_verify (ph_iterations ph) salt (as_bytes password) expected
  | _, _ => false
  end.

Definition local_register (username user_id password : string)
    : eff (LocalAuthenticator * rng) IdentityError unit := λ '(creds, g),
  match from_password password g with
  | (Ok ph, g) => (Ok (), (<[username := (user_id, ph)]> creds, g))
  | (Err e, g) => (Err e, (creds, g))
  end.

Definition local_authenticate (creds : LocalAuthenticator) (username secret : string)
    : result IdentityError string :=
  '(user_id, ph) ← ok_or IdAuthFailed (creds !! username);
  if password_verify ph secret then Ok user_id else Err IdAuthFailed.

Definition b64url_decode (s : bytes) : result IdentityError bytes :=
  ok_or (IdSerde "invalid base64url") (b64_decode B64_URL s).

(** [while n.first() == Some(&0) { n.remove(0); }]. *)
Fixpoint strip_zeros (n : bytes) : bytes :=
  match n with x00 :: n => strip_zeros n | _ => n end.

Fixpoint load_keys (l : list Jwk) (keys : gmap string (bytes * bytes))
    : result IdentityError (gmap string (bytes * bytes)) :=
  match l with
  | [] => Ok keys
  | k :: l =>
      n ← b64url_decode (as_bytes (jwk_n k));
      e ← b64url_decode (as_bytes (jwk_e k));
      load_keys l (<[jwk_kid k := (strip_zeros n, e)]> keys)
  end.

Definition from_jwks (issuer audience : string) (jwks_json : bytes) : result IdentityError JwksOidcVerifier :=
  doc ← ok_or (IdSerde "jwks") (from_slice jwks_json : option (list Jwk));
  keys ← load_keys doc ∅;
  if bool_decide (keys = ∅) then Err (IdSerde "JWKS has no usable keys")
  else Ok {| jv_issuer := issuer; jv_audience := audience; jv_keys := keys; jv_leeway_secs := 60 |}.

Definition aud_matches (aud : AudValue) (expected : string) : bool :=
  match aud with
  | AudString s => bool_decide (s = expected)
  | AudArray l => contains (Some expected) l
  | AudOther => false
  end.

Definition verify_at (v : JwksOidcVerifier) (id_token : bytes) (now : N) : result IdentityError OidcClaims :=
  match split_on DOT id_token with
  | [h; p; s] =>
      hb ← b64url_decode h;
      header ← ok_or IdAuthFailed (from_slice hb : option JwtHeader);
      if negb (bool_decide (jh_alg header = "RS256")) then Err IdAuthFailed
      else
        kid ← ok_or IdAuthFailed (jh_kid header);
        '(n, e) ← ok_or IdAuthFailed (jv_keys v !! kid);
        sig ← b64url_decode s;
        if negb (rsa_verify n e (h ++ [DOT] ++ p) sig) then Err IdAuthFailed
        else
          pb ← b64url_decode p;
          claims ← ok_or IdAuthFailed (from_slice pb : option JwtClaims);
          if negb (bool_decide (jc_iss claims = jv_issuer v)) then Err IdAuthFailed
          else if negb (aud_matches (jc_aud claims) (jv_audience v)) then Err IdAuthFailed
          else if match jc_exp claims with
                  | Some exp => sat_add64 exp (jv_leeway_secs v) <? now
                  | None => false
                  end then Err IdAuthFailed
          else if match jc_nbf claims with
                  | Some nbf => sat_add64 now (jv_leeway_secs v) <? nbf
                  | None => false
                  end then Err IdAuthFailed
          else Ok {| oc_subject := jc_sub claims; oc_email := jc_email claims; oc_issuer := jc_iss claims |}
  | _ => Err IdAuthFailed
  end.
End auth.

(** ** Theory *)

Section theory.
Context `{RND : SystemRandom} `{DIG : Digests} `{MAC : Hmacs} `{HX : Hex} `{PB : Pbkdf2} `{RP : RsaPkcs1}
  `{SH : Serde JwtHeader} `{SC : Serde JwtClaims} `{SJ : Serde (list Jwk)}.

(** The dynamic truncation never indexes past the digest. *)
Lemma hotp_in_range secret counter :
  let d := hmac_sign_sha1 secret (to_be_bytes 8 counter) in hotp_offset d + 3 < lengthN d.
Proof.
  intros d. unfold d. rewrite hmac_sign_sha1_len. unfold hotp_offset.
  assert (N.land (digest_at d (lengthN d - 1)) 15 < 16) as H.
  { change 15 with (N.ones 4). rewrite N.land_ones. apply N.mod_lt. done. }
  unfold d in H. lia.
Qed.

Lemma elem_of_range_incl lo hi c : c ∈ range_incl lo hi ↔ lo ≤ c ∧ c ≤ hi.
Proof.
  unfold range_incl. rewrite list_elem_of_fmap. split.
  - intros (i & -> & Hi%elem_of_seq). lia.
  - intros [H1 H2]. exists (N.to_nat (c - lo)). split; [lia|]. apply elem_of_seq. lia.
Qed.

(** A one-time code is accepted exactly when it is the code of a counter
    within the window around the current one; in particular the code shown at any
    time at most [window] steps away is accepted, and the digest is never indexed
    out of range. *)
Lemma totp_window (secret : bytes) (now window : N) :
  (∀ code, totp_verify_at secret code now window = true ↔
     ∃ c, now / STEP_SECS - window ≤ c ∧ c ≤ sat_add64 (now / STEP_SECS) window ∧ code = hotp secret c) ∧
  (∀ t, t / STEP_SECS ≤ u64_max → now / STEP_SECS - window ≤ t / STEP_SECS →
     t / STEP_SECS ≤ now / STEP_SECS + window →
     totp_verify_at secret (code_at secret t) now window = true) ∧
  (∀ c, let d := hmac_sign_sha1 secret (to_be_bytes 8 c) in hotp_offset d + 3 < lengthN d).
Proof.
  assert (∀ code, totp_verify_at secret code now window = true ↔
     ∃ c, now / STEP_SECS - window ≤ c ∧ c ≤ sat_add64 (now / STEP_SECS) window ∧ code = hotp secret c) as H.
  { intros code. unfold totp_verify_at. rewrite existsb_exists. split.
    - intros (c & Hc & E). apply list_elem_of_In, elem_of_range_incl in Hc as [H1 H2].
      apply ct_eq_true in E. exists c. split_and!; [done..|]. by apply as_bytes_inj.
    - intros (c & H1 & H2 & ->). exists c. split; [|apply ct_eq_refl].
      by apply list_elem_of_In, elem_of_range_incl. }
  split; [done|]. split; [|intros c; apply hotp_in_range].
  intros t Hm H1 H2. apply H. exists (t / STEP_SECS). split_and!; [done| |done].
  unfold sat_add64. lia.
Qed.

Lemma session_validate_iff token now now' st s :
  (session_validate token now now' st).1 = Some s ↔
  ss_by_hash st !! token_hash token = Some s ∧ now < s_expires_at s ∧ now' < s_expires_at s ∧
  s_mfa_satisfied s = true.
Proof.
  unfold session_validate, session_gc. simpl.
  destruct (filter _ (ss_by_hash st) !! token_hash token) as [x|] eqn:E; simpl.
  - apply map_lookup_filter_Some in E as [E Hx]. simpl in Hx.
    destruct (N.leb_spec (s_expires_at x) now'), (s_mfa_satisfied x) eqn:Em; simpl;
      (split; [intros [=]; subst; split_and!; done|intros (? & ? & ? & ?); simplify_eq; try done; try lia; congruence]).
  - split; [done|]. intros (Hs & H1 & _). apply map_lookup_filter_None in E as [E|E]; [congruence|].
    by destruct (E s Hs).
Qed.

(** The life of a session token: after [create], the token validates
    exactly while it has not expired and the second factor is satisfied, and then
    yields its user; completing the second factor makes it valid, revoking it or
    all sessions of its user makes it invalid for good. *)
Lemma session_lifecycle (st st1 : SessionStore) (g g1 : rng) (user : string) (mfa : bool) (t0 : N) (token : string) :
  session_create user mfa t0 (st, g) = (Ok token, (st1, g1)) → t0 + ss_ttl_secs st ≤ u64_max →
  let s m := {| s_user_id := user; s_expires_at := t0 + ss_ttl_secs st; s_mfa_satisfied := m |} in
  (∀ now now' x, now ≤ now' → (session_validate token now now' st1).1 = Some x ↔
     x = s true ∧ mfa = true ∧ now' < t0 + ss_ttl_secs st) ∧
  (∃ st2, complete_mfa token st1 = Ok st2 ∧ ∀ now now', now ≤ now' → now' < t0 + ss_ttl_secs st →
     (session_validate token now now' st2).1 = Some (s true)) ∧
  (∀ now now', (session_validate token now now' (session_revoke token st1)).1 = None) ∧
  (∀ now now', (session_validate token now now' (revoke_all_for user st1)).1 = None).
Proof.
  unfold session_create. destruct (random_vec 32 g) as [[raw|] g']; [|done]. intros [= <- <- <-] Hmax.
  set (token := hex_encode raw). set (h := token_hash token). rewrite sat_add64_exact by done.
  set (m1 := <[h := _]> (ss_by_hash st)).
  assert (m1 !! h = Some {| s_user_id := user; s_expires_at := t0 + ss_ttl_secs st; s_mfa_satisfied := mfa |}) as Hm
    by apply lookup_insert_eq.
  assert (∀ st now now', (∀ x, ss_by_hash st !! h = Some x → False) →
    (session_validate token now now' st).1 = None) as Hnone.
  { intros st' now now' H. destruct (session_validate token now now' st').1 as [x|] eqn:E; [|done].
    apply session_validate_iff in E as [E _]. by destruct (H x). }
  split_and!.
  - intros now now' x Hle. rewrite session_validate_iff. simpl. fold h. rewrite Hm. split.
    + intros ([= <-] & H1 & H2 & H3). simpl in *. by subst mfa.
    + intros (-> & -> & H). split_and!; simpl; [done|lia|done|done].
  - unfold complete_mfa. simpl. fold h. rewrite Hm. eexists. split; [done|]. intros now now' Hle Hlt.
    apply session_validate_iff. simpl. fold h. rewrite lookup_insert_eq. split_and!; simpl; [done|lia|done|done].
  - intros now now'. apply Hnone. intros x. simpl. fold h. by rewrite lookup_delete_eq.
  - intros now now'. apply Hnone. intros x. simpl. fold h. rewrite map_lookup_filter_Some, Hm.
    intros [[= <-] H]. by apply H.
Qed.

Lemma split_on_three sep t h p s :
  split_on sep t = [h; p; s] → t = h ++ [sep] ++ p ++ [sep] ++ s ∧ (sep ∉ h) ∧ (sep ∉ p) ∧ (sep ∉ s).
Proof.
  assert (∀ t l ps, split_on sep t = l :: ps → (sep ∉ l) ∧
    match ps with [] => t = l | _ => ∃ t', t = l ++ sep :: t' ∧ split_on sep t' = ps end) as H.
  { clear. induction t as [|c t IH]; intros l ps; simpl.
    - intros [= <- <-]. split; [apply not_elem_of_nil|done].
    - case_bool_decide as Hc.
      + subst c. intros [= <- <-]. split; [apply not_elem_of_nil|].
        destruct (split_on sep t) as [|q qs] eqn:E; [destruct t; simpl in E; repeat case_match; done|].
        exists t. done.
      + destruct (split_on sep t) as [|q qs] eqn:E; [destruct t; simpl in E; repeat case_match; done|].
        intros [= <- <-]. destruct (IH q qs eq_refl) as [H1 H2].
        split; [by apply not_elem_of_cons|]. destruct qs; [by subst|].
        destruct H2 as (t' & -> & ?). by exists t'. }
  intros E. apply H in E as [H1 (t1 & -> & E)]. apply H in E as [H2 (t2 & -> & E)].
  by apply H in E as [H3 ->].
Qed.

(** What acceptance of an ID token means: the token is three dot-free
    base64url parts, its header asks for RS256 with a key id of the provider, the
    third part is a valid RSA signature of that key over the first two, and the
    signed claims name the configured issuer and audience and, where they give
    times, are neither expired nor early beyond the leeway; the identity returned
    is the one in the signed claims. *)
Lemma verify_at_sound (v : JwksOidcVerifier) (token : bytes) (now : N) (c : OidcClaims) :
  verify_at v token now = Ok c →
  ∃ h p s hb header kid n e sig pb claims,
    token = h ++ [DOT] ++ p ++ [DOT] ++ s ∧ (DOT ∉ h) ∧ (DOT ∉ p) ∧ (DOT ∉ s) ∧
    b64_decode B64_URL h = Some hb ∧ from_slice hb = Some header ∧
    jh_alg header = "RS256" ∧ jh_kid header = Some kid ∧ jv_keys v !! kid = Some (n, e) ∧
    b64_decode B64_URL s = Some sig ∧ rsa_verify n e (h ++ [DOT] ++ p) sig = true ∧
    b64_decode B64_URL p = Some pb ∧ from_slice pb = Some claims ∧
    jc_iss claims = jv_issuer v ∧ aud_matches (jc_aud claims) (jv_audience v) = true ∧
    (∀ exp, jc_exp claims = Some exp → now ≤ sat_add64 exp (jv_leeway_secs v)) ∧
    (∀ nbf, jc_nbf claims = Some nbf → nbf ≤ sat_add64 now (jv_leeway_secs v)) ∧
    c = {| oc_subject := jc_sub claims; oc_email := jc_email claims; oc_issuer := jv_issuer v |}.
Proof.
  unfold verify_at, b64url_decode, mbind, result_mbind.
  destruct (split_on DOT token) as [|h [|p [|s []]]] eqn:Et; try done.
  apply split_on_three in Et as (Ht & Hh & Hp & Hs).
  destruct (b64_decode B64_URL h) as [hb|] eqn:E1; [|done]. cbn [ok_or].
  destruct (from_slice hb) as [header|] eqn:E2; [|done]. cbn [ok_or].
  case_bool_decide as E3; [|done]. cbn [negb].
  destruct (jh_kid header) as [kid|] eqn:E4; [|done]. cbn [ok_or].
  destruct (jv_keys v !! kid) as [[n e]|] eqn:E5; [|done]. cbn [ok_or].
  destruct (b64_decode B64_URL s) as [sig|] eqn:E6; [|done]. cbn [ok_or].
  destruct (rsa_verify n e _ sig) eqn:E7; [|done]. cbn [negb].
  destruct (b64_decode B64_URL p) as [pb|] eqn:E8; [|done]. cbn [ok_or].
  destruct (from_slice pb) as [claims|] eqn:E9; [|done]. cbn [ok_or].
  case_bool_decide as E10; [|done]. cbn [negb].
  destruct (aud_matches _ _) eqn:E11; [|done]. cbn [negb].
  destruct (match jc_exp claims with Some _ => _ | None => _ end) eqn:E12; [done|].
  destruct (match jc_nbf claims with Some _ => _ | None => _ end) eqn:E13; [done|].
  intros [= <-]. exists h, p, s, hb, header, kid, n, e, sig, pb, claims.
  split_and!; try done.
  - intros exp Hx. rewrite Hx in E12. by apply N.ltb_ge.
  - intros nbf Hx. rewrite Hx in E13. by apply N.ltb_ge.
  - by rewrite E10.
Qed.

(** A token without [exp] is accepted at any time. *)
Lemma no_exp_never_expires v token now now' c :
  verify_at v token now = Ok c →
  (∀ p pb claims, split_on DOT token !! 1%nat = Some p → b64_decode B64_URL p = Some pb →
     from_slice pb = Some claims → jc_exp claims = None ∧ jc_nbf claims = None) →
  verify_at v token now' = Ok c.
Proof.
  unfold verify_at, b64url_decode, mbind, result_mbind.
  destruct (split_on DOT token) as [|h [|p [|s []]]]; try done. intros H Hc. revert H.
  destruct (b64_decode B64_URL h) as [hb|]; [|done]. cbn [ok_or].
  destruct (from_slice hb) as [header|]; [|done]. cbn [ok_or].
  destruct (negb _); [done|].
  destruct (jh_kid header) as [kid|]; [|done]. cbn [ok_or].
  destruct (jv_keys v !! kid) as [[n e]|]; [|done]. cbn [ok_or].
  destruct (b64_decode B64_URL s) as [sig|]; [|done]. cbn [ok_or].
  destruct (negb (rsa_verify n e _ sig)); [done|].
  destruct (b64_decode B64_URL p) as [pb|] eqn:Ep; [|done]. cbn [ok_or].
  destruct (from_slice pb) as [claims|] eqn:Ec; [|done]. cbn [ok_or].
  destruct (Hc p pb claims eq_refl Ep Ec) as [-> ->]. done.
Qed.

(** Registration and login agree. *)
Lemma register_authenticate creds g user uid pw creds' g' :
  local_register user uid pw (creds, g) = (Ok (), (creds', g')) →
  local_authenticate creds' user pw = Ok uid.
Proof.
  unfold local_register, from_password, mbind, eff_mbind, eff_map_err.
  destruct (random_vec SALT_LEN g) as [[salt|] g1]; [|done]. simpl. intros [= <- _].
  unfold local_authenticate, mbind, result_mbind. rewrite lookup_insert_eq. cbn [ok_or].
  unfold password_verify. cbn [ph_salt_hex ph_hash_hex ph_iterations]. rewrite !hex_decode_encode.
  set (e := pbkdf2_derive _ _ _ _). change (PBKDF2_ITERATIONS =? 0) with false. cbv iota.
  assert (length e = PBKDF2_OUTPUT_LEN) as Hl by apply pbkdf2_len.
  rewrite (proj2 (pbkdf2_verify_spec _ _ _ _)); [done|]. split; [by intros E; rewrite E in Hl|].
  by rewrite Hl.
Qed.
End theory.

(** ** Runs at the executable instances *)

Definition toy_derive (i : N) (salt pw : bytes) (n : nat) : bytes :=
  to_le_bytes n (1 + i + from_le_bytes salt + from_le_bytes pw).

Lemma toy_pbkdf2_spec i salt pw e :
  negb (bool_decide (e = [])) && bool_decide (toy_derive i salt pw (length e) = e) = true ↔
  e ≠ [] ∧ toy_derive i salt pw (length e) = e.
Proof. by rewrite andb_true_iff, negb_true_iff, bool_decide_eq_false, bool_decide_eq_true. Qed.

Definition toy_pbkdf2 : Pbkdf2 := {|
  pbkdf2_derive := toy_derive;
  pbkdf2_verify i salt pw e := negb (bool_decide (e = [])) && bool_decide (toy_derive i salt pw (length e) = e);
  pbkdf2_len i salt pw n := length_to_le_bytes n _;
  pbkdf2_verify_spec := toy_pbkdf2_spec;
|}.

Definition toy_rsa : RsaPkcs1 := {| rsa_verify n e m s := bool_decide (s = n ++ e) |}.

(** A header is one of two byte strings, the claims another two. *)
Definition toy_header : JwtHeader := {| jh_alg := "RS256"; jh_kid := Some "k1" |}.
Definition toy_claims : JwtClaims :=
  {| jc_iss := "https://idp"; jc_sub := "u1"; jc_aud := AudString "secgit"; jc_exp := Some 2000; jc_nbf := None;
     jc_email := None |}.

Global Instance JwtHeader_eq_dec : EqDecision JwtHeader.
Proof. solve_decision. Defined.
Definition jwt_header_code (h : JwtHeader) := (jh_alg h, jh_kid h).
Definition jwt_header_uncode (x : string * option string) : option JwtHeader := Some (mkJwtHeader x.1 x.2).
Lemma jwt_header_uncode_code h : jwt_header_uncode (jwt_header_code h) = Some h.
Proof. by destruct h. Qed.
Global Instance JwtHeader_countable : Countable JwtHeader :=
  inj_countable jwt_header_code jwt_header_uncode jwt_header_uncode_code.

Global Instance AudValue_eq_dec : EqDecision AudValue.
Proof. solve_decision. Defined.
Definition aud_code (a : AudValue) : option (string + list (option string)) :=
  match a with AudString s => Some (inl s) | AudArray l => Some (inr l) | AudOther => None end.
Definition aud_uncode (x : option (string + list (option string))) : option AudValue :=
  Some (match x with Some (inl s) => AudString s | Some (inr l) => AudArray l | None => AudOther end).
Lemma aud_uncode_code a : aud_uncode (aud_code a) = Some a.
Proof. by destruct a. Qed.
Global Instance AudValue_countable : Countable AudValue := inj_countable aud_code aud_uncode aud_uncode_code.

Global Instance JwtClaims_eq_dec : EqDecision JwtClaims.
Proof. solve_decision. Defined.
Definition jwt_claims_code (c : JwtClaims) :=
  (jc_iss c, jc_sub c, jc_aud c, jc_exp c, jc_nbf c, jc_email c).
Definition jwt_claims_uncode (x : string * string * AudValue * option N * option N * option string)
    : option JwtClaims := let '(a, b, c, d, e, f) := x in Some (mkJwtClaims a b c d e f).
Lemma jwt_claims_uncode_code c : jwt_claims_uncode (jwt_claims_code c) = Some c.
Proof. by destruct c. Qed.
Global Instance JwtClaims_countable : Countable JwtClaims :=
  inj_countable jwt_claims_code jwt_claims_uncode jwt_claims_uncode_code.

(** The encoder of the test suite: three bytes at a time. *)
Fixpoint b64_encode (fuel : nat) (alphabet b : bytes) : bytes :=
  let ch n := default x41 (alphabet !! N.to_nat (n mod 64)) in
  match fuel, b with
  | O, _ | _, [] => []
  | S fuel, [x] => let n := Byte.to_N x * 65536 in [ch (n / 262144); ch (n / 4096)]
  | S fuel, [x; y] =>
      let n := Byte.to_N x * 65536 + Byte.to_N y * 256 in [ch (n / 262144); ch (n / 4096); ch (n / 64)]
  | S fuel, x :: y :: z :: b =>
      let n := Byte.to_N x * 65536 + Byte.to_N y * 256 + Byte.to_N z in
      [ch (n / 262144); ch (n / 4096); ch (n / 64); ch n] ++ b64_encode fuel alphabet b
  end.

Section witnesses.
#[local] Existing Instance toy_rng.
#[local] Existing Instance toy_digests.
#[local] Existing Instance toy_hmacs.
#[local] Existing Instance toy_hex.
#[local] Existing Instance toy_pbkdf2.
#[local] Existing Instance toy_rsa.
#[local] Existing Instance toy_serde.

Lemma totp_window_witness :
  totp_verify_at (as_bytes "12345678901234567890") (code_at (as_bytes "12345678901234567890") 1000) 1020 1 = true.
Proof.
  apply (totp_window (as_bytes "12345678901234567890") 1020 1); vm_decide.
Defined.

Definition toy_create := session_create "u1" false 100 (sessions_new 50, 9 : @rng toy_rng).
Definition toy_token : string := match toy_create.1 with Ok t => t | Err _ => "" end.

Lemma session_lifecycle_witness :
  (session_validate toy_token 120 120 toy_create.2.1).1 = None ∧
  ∃ st2, complete_mfa toy_token toy_create.2.1 = Ok st2 ∧
    (session_validate toy_token 120 120 st2).1 =
      Some {| s_user_id := "u1"; s_expires_at := 150; s_mfa_satisfied := true |}.
Proof.
  split; [vm_refl|].
  destruct (session_lifecycle (sessions_new 50) toy_create.2.1 (9 : @rng toy_rng) toy_create.2.2 "u1" false 100
    toy_token) as (_ & (st2 & H1 & H2) & _); [vm_refl|vm_decide|].
  exists st2. split; [exact H1|]. apply H2; vm_decide.
Defined.

Definition toy_b64 (b : bytes) : bytes := b64_encode (length b) B64_URL b.
Definition toy_jwks : JwksOidcVerifier :=
  {| jv_issuer := "https://idp"; jv_audience := "secgit"; jv_keys := {[ "k1" := ([x05; x06], [x07]) ]};
     jv_leeway_secs := 60 |}.
Definition toy_id_token : bytes :=
  toy_b64 (to_vec toy_header) ++ [DOT] ++ toy_b64 (to_vec toy_claims) ++ [DOT] ++ toy_b64 [x05; x06; x07].

Lemma verify_at_sound_run :
  verify_at toy_jwks toy_id_token 2050 = Ok {| oc_subject := "u1"; oc_email := None; oc_issuer := "https://idp" |} ∧
  ∃ p claims, (∀ exp, jc_exp claims = Some exp → 2050 ≤ sat_add64 exp 60) ∧ toy_b64 (to_vec claims) = p.
Proof.
  split; [vm_refl|].
  destruct (verify_at_sound toy_jwks toy_id_token 2050
    {| oc_subject := "u1"; oc_email := None; oc_issuer := "https://idp" |}) as
    (h & p & s & hb & header & kid & n & e & sig & pb & claims & H); [vm_refl|].
  do 15 (destruct H as [_ H]). destruct H as [H _]. exists (toy_b64 (to_vec claims)), claims.
  split; [exact H|reflexivity].
Defined.
End witnesses.
