(* ===== verification/Reviews.v ===== *)
(** [crates/secgit-review/src/model.rs] and [lib.rs]: pull requests, reviews,
    status checks, branch protection and the merge gate.

    Everything is stored through the interface [ObjectStore]; a [Reviews] handle
    is just a borrowed store, so the store is the only state.  The theorem on
    [merge_status] relates the answer of the engine to a declarative policy on
    what is stored. *)

From Stdlib Require Import Sorting.Sorted.
From S2P Require Import Prelude Backend Toy Envelope Fs ObjectStore Store.

(** ** Data model *)

Module PrState.
Inductive t := Open | Merged | Closed.
Global Instance t_eq_dec : EqDecision t.
Proof. solve_decision. Defined.
End PrState.

Record PullRequest := mkPr {
  pr_id : string;
  pr_repo_id : string;
  pr_number : N;
  pr_title : string;
  pr_description : string;
  pr_author_id : string;
  pr_source_branch : string;
  pr_target_branch : string;
  pr_head_sha : string;
  pr_state : PrState.t;
  pr_created_at : N;
  pr_updated_at : N;
}.

Module IssueState.
Inductive t := Open | Closed.
Global Instance t_eq_dec : EqDecision t.
Proof. solve_decision. Defined.
End IssueState.

Record Comment := mkComment {
  c_id : string;
  c_author_id : string;
  c_body : string;
  c_suggestion : option string;
  c_created_at : N;
}.

Record Issue := mkIssue {
  i_id : string;
  i_repo_id : string;
  i_number : N;
  i_title : string;
  i_body : string;
  i_author_id : string;
  i_state : IssueState.t;
  i_labels : list string;
  i_comments : list Comment;
  i_created_at : N;
  i_updated_at : N;
}.

Record ReviewThread := mkThread {
  th_id : string;
  th_pr_id : string;
  th_path : string;
  th_line : N;
  th_resolved : bool;
  th_comments : list Comment;
}.

Module ReviewState.
Inductive t := Approved | ChangesRequested | Commented.
Global Instance t_eq_dec : EqDecision t.
Proof. solve_decision. Defined.
End ReviewState.

Record Review := mkReview {
  rv_id : string;
  rv_pr_id : string;
  rv_reviewer_id : string;
  rv_state : ReviewState.t;
  rv_head_sha : string;
  rv_created_at : N;
}.

Module CheckState.
Inductive t := Pending | Success | Failure.
Global Instance t_eq_dec : EqDecision t.
Proof. solve_decision. Defined.
End CheckState.

Record StatusCheck := mkCheck {
  ck_pr_id : string;
  ck_context : string;
  ck_state : CheckState.t;
  ck_description : string;
  ck_head_sha : string;
}.

Record BranchProtection := mkProtection {
  bp_repo_id : string;
  bp_branch : string;
  bp_required_approvals : N;
  bp_required_checks : list string;
  bp_block_direct_push : bool;
  bp_dismiss_stale_approvals : bool;
}.

Definition unprotected (repo_id branch : string) : BranchProtection :=
  {| bp_repo_id := repo_id; bp_branch := branch; bp_required_approvals := 0; bp_required_checks := [];
     bp_block_direct_push := false; bp_dismiss_stale_approvals := false |}.

Inductive ReviewError :=
| RvStorage
| RvSerde
| RvNotFound (what : string).

Record MergeStatus := mkMergeStatus {
  ms_mergeable : bool;
  ms_approvals : N;
  ms_required_approvals : N;
  ms_changes_requested : bool;
  ms_failing_or_missing_checks : list string;
  ms_reasons : list string;
}.

Definition rv_okey (kind id : string) : string := kind +:+ "/" +:+ id.

(** [parts.join(sep)]. *)
Fixpoint join (sep : string) (l : list string) : string :=
  match l with
  | [] => ""
  | [x] => x
  | x :: l => x +:+ sep +:+ join sep l
  end.

(** [out.sort_by(|a, b| b.number.cmp(&a.number))], a stable sort. *)
Fixpoint insert_desc {T} (num : T → N) (x : T) (l : list T) : list T :=
  match l with
  | [] => [x]
  | y :: l => if num y <=? num x then x :: y :: l else y :: insert_desc num x l
  end.
Definition sort_desc {T} (num : T → N) (l : list T) : list T := foldr (insert_desc num) [] l.

(** ** The merge gate, on what was read *)

(** Latest review per reviewer (the loop over [reviews]). *)
Definition note_review (protection : BranchProtection) (pr : PullRequest) (latest : gmap string Review)
    (r : Review) : gmap string Review :=
  if bp_dismiss_stale_approvals protection && negb (bool_decide (rv_head_sha r = pr_head_sha pr))
  then latest
  else match latest !! rv_reviewer_id r with
       | Some cur =>
           if rv_created_at cur <=? rv_created_at r then <[rv_reviewer_id r := r]> latest else latest
       | None => <[rv_reviewer_id r := r]> latest
       end.

Definition latest_reviews (protection : BranchProtection) (pr : PullRequest) (reviews : list Review)
    : gmap string Review :=
  foldl (note_review protection pr) ∅ reviews.

Definition count_approvals (latest : gmap string Review) : N :=
  lengthN (filter (λ r, rv_state r = ReviewState.Approved) (map_to_list latest).*2) mod 2 ^ 32.

Definition any_changes_requested (latest : gmap string Review) : bool :=
  existsb (λ r, bool_decide (rv_state r = ReviewState.ChangesRequested)) (map_to_list latest).*2.

Definition check_green (pr : PullRequest) (ctx : string) (c : StatusCheck) : bool :=
  bool_decide (ck_context c = ctx) && bool_decide (ck_state c = CheckState.Success) &&
  bool_decide (ck_head_sha c = pr_head_sha pr).

Definition failing_checks (protection : BranchProtection) (pr : PullRequest) (checks : list StatusCheck)
    : list string :=
  filter (λ ctx, existsb (check_green pr ctx) checks = false) (bp_required_checks protection).

Definition merge_decision (protection : BranchProtection) (reviews : list Review)
    (checks : list StatusCheck) (pr : PullRequest) : MergeStatus :=
  let latest := latest_reviews protection pr reviews in
  let approvals := count_approvals latest in
  let changes_requested := any_changes_requested latest in
  let failing := failing_checks protection pr checks in
  let reasons :=
    (if bool_decide (pr_state pr = PrState.Open) then [] else ["pull request is not open"]) ++
    (if changes_requested then ["changes requested by a reviewer"] else []) ++
    (if approvals <? bp_required_approvals protection
     then ["needs " +:+ pretty (bp_required_approvals protection) +:+ " approval(s), has " +:+ pretty approvals]
     else []) ++
    (match failing with [] => [] | _ => ["required checks not green: " +:+ join ", " failing] end) in
  {| ms_mergeable := match reasons with [] => true | _ => false end;
     ms_approvals := approvals;
     ms_required_approvals := bp_required_approvals protection;
     ms_changes_requested := changes_requested;
     ms_failing_or_missing_checks := failing;
     ms_reasons := reasons |}.

(** ** The engine *)

Section reviews.
Context {St Er : Type} `{OS : ObjectStore St Er}.
Context `{SI : Serde (list string)} `{SN : Serde N} `{SP : Serde PullRequest} `{SIs : Serde Issue}.
Context `{STh : Serde ReviewThread} `{SRv : Serde Review} `{SC : Serde StatusCheck} `{SB : Serde BranchProtection}.

Definition rv_put `{Serde T} (repo_id key : string) (v : T) : eff St ReviewError unit :=
  eff_map_err (λ _, RvStorage) (os_put repo_id key (to_vec v)).

Definition rv_get (T : Type) `{Serde T} (repo_id key : string) : eff St ReviewError (option T) :=
  o ← eff_map_err (λ _, RvStorage) (os_get repo_id key);
  match o with
  | Some b => v ← lift (ok_or RvSerde (from_slice b)); mret (Some v)
  | None => mret None
  end.

Definition rv_index (repo_id key : string) : eff St ReviewError (list string) :=
  o ← rv_get (list string) repo_id key; mret (default [] o).

Definition rv_index_add (repo_id key id : string) : eff St ReviewError unit :=
  ids ← rv_index repo_id key;
  if negb (contains id ids) then rv_put repo_id key (ids ++ [id]) else mret ().

Definition next_number (repo_id : string) : eff St ReviewError N :=
  cur ← rv_get N repo_id "pr/counter";
  let next := wrap_add64 (default 0 cur) 1 in
  _ ← rv_put repo_id "pr/counter" next;
  mret next.

(** [for id in ids { if let Some(v) = self.get(repo_id, key(id))? { out.push(v) } }]. *)
Fixpoint rv_collect (T : Type) `{Serde T} (repo_id : string) (key : string → string) (ids : list string)
    : eff St ReviewError (list T) :=
  match ids with
  | [] => mret []
  | id :: ids =>
      o ← rv_get T repo_id (key id);
      rest ← rv_collect T repo_id key ids;
      mret (match o with Some v => v :: rest | None => rest end)
  end.

(** [ok_or_else(|| ReviewError::NotFound(id.into()))?] on an option read. *)
Definition found {T} (what : string) (o : option T) : eff St ReviewError T :=
  lift (ok_or (RvNotFound what) o).

Definition pr_ident (repo_id : string) (number : N) : string :=
  "pr_" +:+ repo_id +:+ "_" +:+ pretty number.

Definition open_pr (repo_id author_id title description source_branch target_branch head_sha : string)
    (now : N) : eff St ReviewError PullRequest :=
  number ← next_number repo_id;
  let pr := {| pr_id := pr_ident repo_id number; pr_repo_id := repo_id; pr_number := number;
               pr_title := title; pr_description := description; pr_author_id := author_id;
               pr_source_branch := source_branch; pr_target_branch := target_branch;
               pr_head_sha := head_sha; pr_state := PrState.Open; pr_created_at := now;
               pr_updated_at := now |} in
  _ ← rv_put repo_id (rv_okey "pr" (pr_id pr)) pr;
  _ ← rv_index_add repo_id "pr/index" (pr_id pr);
  mret pr.

Definition get_pr (repo_id id : string) : eff St ReviewError (option PullRequest) :=
  rv_get PullRequest repo_id (rv_okey "pr" id).

Definition put_pr (pr : PullRequest) : eff St ReviewError unit :=
  _ ← rv_put (pr_repo_id pr) (rv_okey "pr" (pr_id pr)) pr;
  rv_index_add (pr_repo_id pr) "pr/index" (pr_id pr).

Definition list_prs (repo_id : string) : eff St ReviewError (list PullRequest) :=
  ids ← rv_index repo_id "pr/index";
  out ← rv_collect PullRequest repo_id (rv_okey "pr") ids;
  mret (sort_desc pr_number out).

Definition set_head (pr : PullRequest) (head_sha : string) (now : N) : PullRequest :=
  {| pr_id := pr_id pr; pr_repo_id := pr_repo_id pr; pr_number := pr_number pr; pr_title := pr_title pr;
     pr_description := pr_description pr; pr_author_id := pr_author_id pr;
     pr_source_branch := pr_source_branch pr; pr_target_branch := pr_target_branch pr;
     pr_head_sha := head_sha; pr_state := pr_state pr; pr_created_at := pr_created_at pr;
     pr_updated_at := now |}.

Definition set_state (pr : PullRequest) (state : PrState.t) (now : N) : PullRequest :=
  {| pr_id := pr_id pr; pr_repo_id := pr_repo_id pr; pr_number := pr_number pr; pr_title := pr_title pr;
     pr_description := pr_description pr; pr_author_id := pr_author_id pr;
     pr_source_branch := pr_source_branch pr; pr_target_branch := pr_target_branch pr;
     pr_head_sha := pr_head_sha pr; pr_state := state; pr_created_at := pr_created_at pr;
     pr_updated_at := now |}.

Definition update_head (repo_id id head_sha : string) (now : N) : eff St ReviewError unit :=
  o ← get_pr repo_id id;
  pr ← found id o;
  rv_put repo_id (rv_okey "pr" id) (set_head pr head_sha now).

Definition set_pr_state (repo_id id : string) (state : PrState.t) (now : N) : eff St ReviewError unit :=
  o ← get_pr repo_id id;
  pr ← found id o;
  rv_put repo_id (rv_okey "pr" id) (set_state pr state now).

Definition put_issue (issue : Issue) : eff St ReviewError unit :=
  _ ← rv_put (i_repo_id issue) (rv_okey "issue" (i_id issue)) issue;
  rv_index_add (i_repo_id issue) "issue/index" (i_id issue).

Definition get_issue (repo_id id : string) : eff St ReviewError (option Issue) :=
  rv_get Issue repo_id (rv_okey "issue" id).

Definition list_issues (repo_id : string) : eff St ReviewError (list Issue) :=
  ids ← rv_index repo_id "issue/index";
  out ← rv_collect Issue repo_id (rv_okey "issue") ids;
  mret (sort_desc i_number out).

Definition add_thread (repo_id : string) (thread : ReviewThread) : eff St ReviewError unit :=
  _ ← rv_put repo_id (rv_okey "thread" (th_id thread)) thread;
  rv_index_add repo_id ("thread/index/" +:+ th_pr_id thread) (th_id thread).

Definition add_comment (repo_id thread_id : string) (comment : Comment) : eff St ReviewError unit :=
  o ← rv_get ReviewThread repo_id (rv_okey "thread" thread_id);
  t ← found thread_id o;
  rv_put repo_id (rv_okey "thread" thread_id)
    (mkThread (th_id t) (th_pr_id t) (th_path t) (th_line t) (th_resolved t) (th_comments t ++ [comment])).

Definition resolve_thread (repo_id thread_id : string) (resolved : bool) : eff St ReviewError unit :=
  o ← rv_get ReviewThread repo_id (rv_okey "thread" thread_id);
  t ← found thread_id o;
  rv_put repo_id (rv_okey "thread" thread_id)
    (mkThread (th_id t) (th_pr_id t) (th_path t) (th_line t) resolved (th_comments t)).

Definition list_threads (repo_id id : string) : eff St ReviewError (list ReviewThread) :=
  ids ← rv_index repo_id ("thread/index/" +:+ id);
  rv_collect ReviewThread repo_id (rv_okey "thread") ids.

Definition submit_review (repo_id : string) (review : Review) : eff St ReviewError unit :=
  _ ← rv_put repo_id (rv_okey "review" (rv_id review)) review;
  rv_index_add repo_id ("review/index/" +:+ rv_pr_id review) (rv_id review).

Definition list_reviews (repo_id id : string) : eff St ReviewError (list Review) :=
  ids ← rv_index repo_id ("review/index/" +:+ id);
  rv_collect Review repo_id (rv_okey "review") ids.

Definition check_key (id ctx : string) : string := "check/" +:+ id +:+ "/" +:+ ctx.

Definition report_check (repo_id : string) (check : StatusCheck) : eff St ReviewError unit :=
  _ ← rv_put repo_id (check_key (ck_pr_id check) (ck_context check)) check;
  rv_index_add repo_id ("check/index/" +:+ ck_pr_id check) (ck_context check).

Definition list_checks (repo_id id : string) : eff St ReviewError (list StatusCheck) :=
  ids ← rv_index repo_id ("check/index/" +:+ id);
  rv_collect StatusCheck repo_id (check_key id) ids.

Definition set_protection (p : BranchProtection) : eff St ReviewError unit :=
  rv_put (bp_repo_id p) ("protection/" +:+ bp_branch p) p.

Definition get_protection (repo_id branch : string) : eff St ReviewError (option BranchProtection) :=
  rv_get BranchProtection repo_id ("protection/" +:+ branch).

Definition direct_push_allowed (repo_id branch : string) : eff St ReviewError bool :=
  o ← get_protection repo_id branch;
  mret (match o with Some p => negb (bp_block_direct_push p) | None => true end).

Definition merge_status (pr : PullRequest) : eff St ReviewError MergeStatus :=
  o ← get_protection (pr_repo_id pr) (pr_target_branch pr);
  let protection := default (unprotected (pr_repo_id pr) (pr_target_branch pr)) o in
  reviews ← list_reviews (pr_repo_id pr) (pr_id pr);
  checks ← list_checks (pr_repo_id pr) (pr_id pr);
  mret (merge_decision protection reviews checks pr).
End reviews.

(** ** The policy *)

(** The documented policy: a new push to the head dismisses prior approvals, if the
    protection says so. *)
Definition counted (protection : BranchProtection) (pr : PullRequest) (r : Review) : Prop :=
  bp_dismiss_stale_approvals protection = true → rv_state r = ReviewState.Approved → rv_head_sha r = pr_head_sha pr.
(** What the code considers: with dismissal, the reviews of the current head. *)
Definition considered (protection : BranchProtection) (pr : PullRequest) (r : Review) : Prop :=
  bp_dismiss_stale_approvals protection = true → rv_head_sha r = pr_head_sha pr.

(** [r], at position [i], is the review of [u] that decides: the newest one that counts, the
    later submitted among those made in the same second. *)
Definition newer (i : nat) (r : Review) (j : nat) (r' : Review) : Prop :=
  rv_created_at r' < rv_created_at r ∨ rv_created_at r' = rv_created_at r ∧ (j ≤ i)%nat.
Definition newest (C : Review → Prop) (reviews : list Review) (u : string) (i : nat) (r : Review) : Prop :=
  reviews !! i = Some r ∧ rv_reviewer_id r = u ∧ C r ∧
  ∀ j r', reviews !! j = Some r' → C r' → rv_reviewer_id r' = u → newer i r j r'.

Definition verdict (C : Review → Prop) (reviews : list Review) (u : string) (st : ReviewState.t) : Prop :=
  ∃ i r, newest C reviews u i r ∧ rv_state r = st.

Definition green (pr : PullRequest) (checks : list StatusCheck) (ctx : string) : Prop :=
  ∃ c, c ∈ checks ∧ ck_context c = ctx ∧ ck_state c = CheckState.Success ∧ ck_head_sha c = pr_head_sha pr.

Definition policy_of (C : Review → Prop) protection reviews checks pr : Prop :=
  pr_state pr = PrState.Open ∧
  (∀ u, ¬ verdict C reviews u ReviewState.ChangesRequested) ∧
  (∃ approvers, NoDup approvers ∧ Forall (λ u, verdict C reviews u ReviewState.Approved) approvers ∧
     bp_required_approvals protection ≤ lengthN approvers) ∧
  (∀ ctx, ctx ∈ bp_required_checks protection → green pr checks ctx).

Definition policy protection reviews checks pr : Prop := policy_of (counted protection pr) protection reviews checks pr.

Lemma newest_unique C l u i r j r' : newest C l u i r → newest C l u j r' → r = r'.
Proof.
  intros (H1 & H2 & H3 & H4) (K1 & K2 & K3 & K4).
  specialize (H4 _ _ K1 K3 K2). specialize (K4 _ _ H1 H3 H2).
  assert (i = j) as -> by (unfold newer in *; lia). congruence.
Qed.

Lemma lookup_snoc_inv {A} (l : list A) x j y :
  (l ++ [x]) !! j = Some y → l !! j = Some y ∧ (j < length l)%nat ∨ j = length l ∧ y = x.
Proof.
  intros [H|[H1 H2]]%lookup_app_Some.
  - left. split; [done|]. by eapply lookup_lt_Some.
  - apply list_lookup_singleton_Some in H2 as [? ->]. right. split; [lia|done].
Qed.

Global Instance considered_dec p pr r : Decision (considered p pr r).
Proof. unfold considered. apply _. Defined.

Lemma considered_test p pr r :
  bp_dismiss_stale_approvals p && negb (bool_decide (rv_head_sha r = pr_head_sha pr)) = true ↔ ¬ considered p pr r.
Proof.
  unfold considered. destruct (bp_dismiss_stale_approvals p); simpl.
  - rewrite negb_true_iff, bool_decide_eq_false. split; intros H1 H2; apply H1; auto.
  - split; [done|]. intros H. by destruct H.
Qed.

Lemma newest_keep p pr l x u i r :
  newest (considered p pr) l u i r →
  (considered p pr x → rv_reviewer_id x = u → rv_created_at x < rv_created_at r) →
  newest (considered p pr) (l ++ [x]) u i r.
Proof.
  intros (H1 & H2 & H3 & H4) Hx. split_and!; [by apply lookup_app_l_Some|done..|].
  intros j r' [[Hj _]|[-> ->]]%lookup_snoc_inv ? ?; [by apply H4|left; by apply Hx].
Qed.

Lemma newest_replace p pr l x :
  considered p pr x →
  (∀ j r, l !! j = Some r → considered p pr r → rv_reviewer_id r = rv_reviewer_id x →
     rv_created_at r ≤ rv_created_at x) →
  newest (considered p pr) (l ++ [x]) (rv_reviewer_id x) (length l) x.
Proof.
  intros Hc H. split_and!; [by rewrite lookup_app_r, Nat.sub_diag by lia|done..|].
  intros j r [[Hj Hlt]|[-> ->]]%lookup_snoc_inv Hcr Hur; [|right; lia].
  specialize (H _ _ Hj Hcr Hur). destruct (decide (rv_created_at r = rv_created_at x)); [right|left]; lia.
Qed.

(** The entry of [u] in the map after the reviews [l]. *)
Definition entry_ok p pr (l : list Review) (u : string) (o : option Review) : Prop :=
  match o with
  | Some r => ∃ i, newest (considered p pr) l u i r
  | None => ∀ j r, l !! j = Some r → considered p pr r → rv_reviewer_id r ≠ u
  end.

Lemma entry_ok_skip p pr l x u o :
  (considered p pr x → rv_reviewer_id x ≠ u) → entry_ok p pr l u o → entry_ok p pr (l ++ [x]) u o.
Proof.
  intros Hx. destruct o as [r|]; simpl.
  - intros [i Hi]. exists i. apply newest_keep; [done|]. intros Hc Hu. by destruct (Hx Hc).
  - intros H j r [[Hj _]|[-> ->]]%lookup_snoc_inv; [by eapply H|done].
Qed.

(** What the loop over the reviews computes. *)
Lemma latest_reviews_spec p pr l u : entry_ok p pr l u (latest_reviews p pr l !! u).
Proof.
  unfold latest_reviews. induction l as [|x l IH] using rev_ind; [cbn [foldl]; rewrite lookup_empty; by intros j r|].
  rewrite foldl_app. simpl. set (m := foldl _ _ _) in *. unfold note_review.
  destruct (_ && _) eqn:Ed.
  { apply considered_test in Ed. by apply entry_ok_skip. }
  assert (considered p pr x) as Hc.
  { destruct (decide (considered p pr x)) as [|Hn]; [done|]. apply considered_test in Hn. congruence. }
  destruct (decide (rv_reviewer_id x = u)) as [Hu|Hu].
  2:{ repeat case_match; rewrite ?lookup_insert_ne by done; by apply entry_ok_skip. }
  subst u. destruct (m !! rv_reviewer_id x) as [cur|] eqn:Em; [|rewrite lookup_insert_eq].
  - destruct IH as [i Hi]. destruct (N.leb_spec (rv_created_at cur) (rv_created_at x)); rewrite ?lookup_insert_eq, ?Em; simpl.
    + exists (length l). apply newest_replace; [done|]. intros j r Hj Hcr Hur.
      destruct Hi as (_ & _ & _ & H4). specialize (H4 _ _ Hj Hcr Hur). unfold newer in H4. lia.
    + exists i. apply newest_keep; [done|]. intros _ _. lia.
  - exists (length l). apply newest_replace; [done|]. intros j r Hj Hcr Hur. by destruct (IH _ _ Hj Hcr).
Qed.

Lemma verdict_latest p pr l u st :
  verdict (considered p pr) l u st ↔ ∃ r, latest_reviews p pr l !! u = Some r ∧ rv_state r = st.
Proof.
  pose proof (latest_reviews_spec p pr l u) as H. unfold verdict.
  destruct (latest_reviews p pr l !! u) as [r|]; simpl in H.
  - destruct H as [i Hi]. split.
    + intros (j & r' & Hr' & <-). exists r. by rewrite (newest_unique _ _ _ _ _ _ _ Hi Hr').
    + intros (r' & [= <-] & <-). eauto.
  - split; [|by intros (? & ? & _)].
    intros (j & r' & (H1 & H2 & H3 & _) & _). by destruct (H _ _ H1 H3).
Qed.


Lemma any_changes_requested_spec p pr l :
  any_changes_requested (latest_reviews p pr l) = false ↔
  ∀ u, ¬ verdict (considered p pr) l u ReviewState.ChangesRequested.
Proof.
  unfold any_changes_requested. rewrite <-not_true_iff_false, existsb_exists. split.
  - intros H u (r & Hr & Hs)%verdict_latest. apply H. exists r. split; [|by apply bool_decide_eq_true].
    apply list_elem_of_In, list_elem_of_fmap. exists (u, r). split; [done|]. by apply elem_of_map_to_list.
  - intros H (r & Hin & Hs%bool_decide_eq_true). apply list_elem_of_In, list_elem_of_fmap in Hin.
    destruct Hin as ([u r'] & -> & Hm%elem_of_map_to_list). apply (H u), verdict_latest. eauto.
Qed.

(** The reviewers whose latest verdict approves. *)
Definition approvers_of (latest : gmap string Review) : list string :=
  (filter (λ kv, rv_state kv.2 = ReviewState.Approved) (map_to_list latest)).*1.

Lemma approvers_of_NoDup latest : NoDup (approvers_of latest).
Proof.
  unfold approvers_of. eapply sublist_NoDup; [apply (NoDup_fst_map_to_list latest)|].
  apply fmap_sublist, sublist_filter.
Qed.

Lemma elem_of_approvers p pr l u :
  u ∈ approvers_of (latest_reviews p pr l) ↔ verdict (considered p pr) l u ReviewState.Approved.
Proof.
  unfold approvers_of. rewrite verdict_latest, list_elem_of_fmap. split.
  - intros ([u' r] & -> & [Hs Hm%elem_of_map_to_list]%list_elem_of_filter). eauto.
  - intros (r & Hr & Hs). exists (u, r). split; [done|]. apply list_elem_of_filter. split; [done|].
    by apply elem_of_map_to_list.
Qed.

Lemma length_filter_snd {A B} (P : B → Prop) `{∀ b, Decision (P b)} (l : list (A * B)) :
  length (filter P l.*2) = length (filter (λ kv, P kv.2) l).
Proof. induction l as [|[a b] l IH]; [done|]. rewrite fmap_cons, !filter_cons. cbn [snd]. case_decide; cbn [length]; congruence. Qed.

Lemma latest_size p pr l : (size (latest_reviews p pr l) ≤ length l)%nat.
Proof.
  unfold latest_reviews. induction l as [|x l IH] using rev_ind; [done|].
  rewrite foldl_app, length_app. simpl. set (m := foldl _ _ _) in *. unfold note_review.
  assert (size (<[rv_reviewer_id x := x]> m) ≤ S (size m))%nat by (rewrite map_size_insert; case_match; simpl; lia).
  repeat case_match; lia.
Qed.

Lemma count_approvals_spec p pr l :
  lengthN l < 2 ^ 32 →
  count_approvals (latest_reviews p pr l) = lengthN (approvers_of (latest_reviews p pr l)).
Proof.
  intros Hl. unfold count_approvals, approvers_of. rewrite length_filter_snd, length_fmap.
  apply N.mod_small. pose proof (latest_size p pr l) as Hs. rewrite <-length_map_to_list in Hs.
  pose proof (length_filter (λ kv, rv_state kv.2 = ReviewState.Approved) (map_to_list (latest_reviews p pr l))).
  lia.
Qed.

Lemma filter_nil_iff {A} (P : A → Prop) `{∀ a, Decision (P a)} (l : list A) :
  filter P l = [] ↔ ∀ a, a ∈ l → ¬ P a.
Proof.
  split.
  - intros E a Ha HP. assert (a ∈ filter P l) as Hf by (by apply list_elem_of_filter).
    rewrite E in Hf. by apply elem_of_nil in Hf.
  - intros Hn. apply elem_of_nil_inv. intros a [HP Ha]%list_elem_of_filter. by apply (Hn a).
Qed.

Lemma failing_checks_spec p pr checks :
  failing_checks p pr checks = [] ↔ ∀ ctx, ctx ∈ bp_required_checks p → green pr checks ctx.
Proof.
  unfold failing_checks. rewrite filter_nil_iff. unfold green.
  split; intros H ctx Hin; specialize (H ctx Hin).
  - apply not_false_is_true, existsb_exists in H as (c & Hc & Hg). exists c. split; [by apply list_elem_of_In|].
    unfold check_green in Hg. rewrite !andb_true_iff, !bool_decide_eq_true in Hg. tauto.
  - apply not_false_iff_true, existsb_exists. destruct H as (c & Hc & H1 & H2 & H3). exists c.
    split; [by apply list_elem_of_In|]. unfold check_green.
    by rewrite !andb_true_iff, !bool_decide_eq_true.
Qed.

Lemma merge_decision_spec p reviews checks pr :
  ms_mergeable (merge_decision p reviews checks pr) = true ↔
  pr_state pr = PrState.Open ∧ any_changes_requested (latest_reviews p pr reviews) = false ∧
  bp_required_approvals p ≤ count_approvals (latest_reviews p pr reviews) ∧
  failing_checks p pr checks = [].
Proof.
  unfold merge_decision. simpl. case_bool_decide; destruct (any_changes_requested _); simpl; try intuition congruence.
  destruct (N.ltb_spec (count_approvals (latest_reviews p pr reviews)) (bp_required_approvals p)); simpl;
    destruct (failing_checks p pr checks); intuition (lia || congruence).
Qed.

Lemma merge_decision_policy p reviews checks pr :
  lengthN reviews < 2 ^ 32 →
  ms_mergeable (merge_decision p reviews checks pr) = true ↔ policy_of (considered p pr) p reviews checks pr.
Proof.
  intros Hl. rewrite merge_decision_spec, any_changes_requested_spec, failing_checks_spec.
  rewrite count_approvals_spec by done. unfold policy_of.
  split; intros (H1 & H2 & H3 & H4); (split_and!; [done|done| |done]).
  - exists (approvers_of (latest_reviews p pr reviews)). split_and!; [apply approvers_of_NoDup| |done].
    apply Forall_forall. intros u. by apply elem_of_approvers.
  - destruct H3 as (us & Hnd & Hall & Hle). rewrite Forall_forall in Hall.
    assert (length us ≤ length (approvers_of (latest_reviews p pr reviews)))%nat; [|lia].
    apply NoDup_incl_length; [by apply NoDup_ListNoDup|]. intros u Hu. apply list_elem_of_In.
    apply elem_of_approvers, Hall. by apply list_elem_of_In.
Qed.

(** Every reviewer who requested changes or commented on an earlier head has reviewed the
    current one since. *)
Definition reviewed_since (p : BranchProtection) (pr : PullRequest) (reviews : list Review) : Prop :=
  bp_dismiss_stale_approvals p = true → ∀ j r, reviews !! j = Some r → rv_state r ≠ ReviewState.Approved → rv_head_sha r ≠ pr_head_sha pr →
    ∃ i r', reviews !! i = Some r' ∧ rv_reviewer_id r' = rv_reviewer_id r ∧ rv_head_sha r' = pr_head_sha pr ∧ newer i r' j r.

Lemma newest_documented p pr reviews u i r : reviewed_since p pr reviews →
  newest (considered p pr) reviews u i r ↔ newest (counted p pr) reviews u i r.
Proof.
  intros Hs. destruct (bp_dismiss_stale_approvals p) eqn:Ed.
  2:{ assert (∀ x, considered p pr x) as T1 by (intros x; unfold considered; by rewrite Ed).
      assert (∀ x, counted p pr x) as T2 by (intros x; unfold counted; by rewrite Ed).
      split; intros (H1 & H2 & _ & H4); split_and!; auto. }
  assert (∀ x, considered p pr x → counted p pr x) as Hc by (intros x H ? ?; by apply H).
  split; intros (H1 & H2 & H3 & H4).
  - split; [done|]. split; [done|]. split; [by apply Hc|]. intros j x Hj Hx Hu.
    destruct (decide (rv_head_sha x = pr_head_sha pr)) as [Hh|Hh]; [by apply H4; [|intros _|]|].
    destruct (Hs Ed j x Hj) as (k & y & Hk & Hy & Hf & Hn); [intros Ha; by apply Hh, Hx|done|].
    specialize (H4 k y Hk ltac:(by intros _) ltac:(congruence)). unfold newer in *. lia.
  - assert (considered p pr r) as Hr.
    { intros _. destruct (decide (rv_head_sha r = pr_head_sha pr)) as [|Hh]; [done|].
      destruct (Hs Ed i r H1) as (k & y & Hk & Hy & Hf & Hn); [intros Ha; by apply Hh, H3|done|].
      specialize (H4 k y Hk ltac:(by intros _) ltac:(congruence)). unfold newer in *. assert (i = k) as <- by lia. congruence. }
    split; [done|]. split; [done|]. split; [done|]. intros j x Hj Hx Hu. apply H4; [done|by apply Hc|done].
Qed.
Lemma policy_documented p reviews checks pr : reviewed_since p pr reviews →
  policy_of (considered p pr) p reviews checks pr ↔ policy p reviews checks pr.
Proof.
  intros Hs. assert (∀ u st, verdict (considered p pr) reviews u st ↔ verdict (counted p pr) reviews u st) as E.
  { intros u st. unfold verdict. by setoid_rewrite (λ u i r, newest_documented p pr reviews u i r Hs). }
  unfold policy, policy_of. by setoid_rewrite E.
Qed.

(** Dismissal is not limited to approvals: once the head moves, a request for
    changes no longer blocks either. *)
Lemma push_dismisses_change_requests p pr reviews checks head now :
  bp_dismiss_stale_approvals p = true → bp_required_approvals p = 0 → bp_required_checks p = [] →
  pr_state pr = PrState.Open → (∀ r, r ∈ reviews → rv_head_sha r ≠ head) →
  ms_mergeable (merge_decision p reviews checks (set_head pr head now)) = true.
Proof.
  intros Hd Ha Hc Ho Hr. apply merge_decision_spec. rewrite Ha. unfold failing_checks. rewrite Hc.
  split_and!; [done| |lia|done]. apply any_changes_requested_spec.
  intros u (i & r & (Hi & _ & Hcnt & _) & _). apply (Hr r); [by eapply list_elem_of_lookup_2|by apply Hcnt].
Qed.

(** ** Sorting of the listings *)

Lemma insert_desc_perm {T} (num : T → N) x l : insert_desc num x l ≡ₚ x :: l.
Proof.
  induction l as [|y l IH]; [done|]. simpl. case_match; [done|]. rewrite IH. apply Permutation_swap.
Qed.

Lemma sort_desc_perm {T} (num : T → N) l : sort_desc num l ≡ₚ l.
Proof. induction l as [|x l IH]; [done|]. simpl. by rewrite insert_desc_perm, IH. Qed.

Lemma insert_desc_sorted {T} (num : T → N) x l :
  StronglySorted (λ a b, num b ≤ num a) l → StronglySorted (λ a b, num b ≤ num a) (insert_desc num x l).
Proof.
  induction 1 as [|y l Hs IH Hall]; simpl; [by repeat constructor|].
  destruct (N.leb_spec (num y) (num x)) as [Hle|Hlt].
  - constructor; [by constructor|]. constructor; [done|]. eapply Forall_impl; [done|]. simpl. lia.
  - constructor; [done|]. rewrite insert_desc_perm. constructor; [lia|done].
Qed.

Lemma sort_desc_sorted {T} (num : T → N) l : StronglySorted (λ a b, num b ≤ num a) (sort_desc num l).
Proof. induction l as [|x l IH]; [constructor|]. by apply insert_desc_sorted. Qed.

(** ** Reading the store *)

Section reading.
Context {St Er : Type} `{OS : ObjectStore St Er}.
Context `{SI : Serde (list string)} `{SRv : Serde Review} `{SC : Serde StatusCheck} `{SB : Serde BranchProtection}.

(** What is stored under a key; [None] for bytes that do not decode. *)
Definition stored_obj (T : Type) `{Serde T} (s : St) (r k : string) : option (option T) :=
  match os_view s r k with Some b => Some <$> from_slice b | None => Some None end.

Definition stored_index (s : St) (r k : string) : option (list string) :=
  default [] <$> stored_obj (list string) s r k.

Fixpoint stored_list (T : Type) `{Serde T} (s : St) (r : string) (key : string → string) (ids : list string)
    : option (list T) :=
  match ids with
  | [] => Some []
  | id :: ids =>
      o ← stored_obj T s r (key id);
      rest ← stored_list T s r key ids;
      Some (match o with Some v => v :: rest | None => rest end)
  end.

(** A state reached by reading only. *)
Definition unchanged (s s' : St) : Prop :=
  os_inv s' ∧ os_calm s' ∧ ∀ r k, os_id r → os_id k → os_view s' r k = os_view s r k.

Lemma unchanged_trans s1 s2 s3 : unchanged s1 s2 → unchanged s2 s3 → unchanged s1 s3.
Proof. intros (? & ? & H1) (? & ? & H2). split_and!; [done..|]. intros. rewrite H2, H1; auto. Qed.

Lemma stored_obj_unchanged T `{Serde T} s s' r k :
  unchanged s s' → os_id r → os_id k → stored_obj T s' r k = stored_obj T s r k.
Proof. intros (_ & _ & H') ? ?. unfold stored_obj. by rewrite H'. Qed.

Lemma stored_list_unchanged T `{Serde T} s s' r key ids :
  unchanged s s' → os_id r → Forall (λ id, os_id (key id)) ids →
  stored_list T s' r key ids = stored_list T s r key ids.
Proof.
  intros Hu Hr. induction 1 as [|id ids Hid _ IH]; [done|]. simpl.
  by rewrite IH, (stored_obj_unchanged _ _ _ _ _ Hu).
Qed.

Lemma rv_get_calm T `{Serde T} s r k o :
  os_id r → os_id k → os_inv s → os_calm s → stored_obj T s r k = Some o →
  ∃ s', rv_get T r k s = (Ok o, s') ∧ unchanged s s'.
Proof.
  intros Hr Hk I C Ho. destruct (os_get_calm r k s Hr Hk I C) as (s' & E & C').
  destruct (os_get_spec _ _ _ _ _ Hr Hk I E) as (I' & V & _).
  exists s'. split; [|by split_and!]. unfold rv_get, mbind, eff_mbind, eff_map_err. rewrite E. simpl.
  unfold stored_obj in Ho. destruct (os_view s r k) as [b|]; [|by injection Ho as <-].
  destruct (from_slice b) as [v|]; simpl in *; [|done]. by injection Ho as <-.
Qed.

Lemma rv_index_calm s r k ids :
  os_id r → os_id k → os_inv s → os_calm s → stored_index s r k = Some ids →
  ∃ s', rv_index r k s = (Ok ids, s') ∧ unchanged s s'.
Proof.
  intros Hr Hk I C Hi. unfold stored_index in Hi. apply fmap_Some in Hi as (o & Ho & ->).
  destruct (rv_get_calm (list string) s r k o) as (s' & E & U); [done..|].
  exists s'. unfold rv_index, mbind, eff_mbind. by rewrite E.
Qed.

Lemma rv_collect_calm T `{Serde T} s r key ids l :
  os_id r → Forall (λ id, os_id (key id)) ids → os_inv s → os_calm s →
  stored_list T s r key ids = Some l →
  ∃ s', rv_collect T r key ids s = (Ok l, s') ∧ unchanged s s'.
Proof.
  intros Hr Hids. revert s l. induction Hids as [|id ids Hid Hids IH]; intros s l I C; simpl.
  { intros [= <-]. exists s. by split_and!. }
  intros (o & Ho & H')%bind_Some. apply bind_Some in H' as (rest & Hrest & [= <-]).
  destruct (rv_get_calm T s r (key id) o) as (s1 & E1 & U1); [done..|].
  destruct (IH s1 rest) as (s2 & E2 & U2); [apply U1|apply U1| |].
  { by rewrite (stored_list_unchanged _ _ _ _ _ _ U1). }
  exists s2. split; [|by eapply unchanged_trans]. unfold mbind, eff_mbind. rewrite E1, E2. done.
Qed.

Lemma rv_listing_calm T `{Serde T} s r ik key ids l :
  os_id r → os_id ik → Forall (λ id, os_id (key id)) ids → os_inv s → os_calm s →
  stored_index s r ik = Some ids → stored_list T s r key ids = Some l →
  ∃ s', (ids ← rv_index r ik; rv_collect T r key ids) s = (Ok l, s') ∧ unchanged s s'.
Proof.
  intros Hr Hik Hids I C Hi Hl. destruct (rv_index_calm s r ik ids) as (s1 & E1 & U1); [done..|].
  destruct (rv_collect_calm T s1 r key ids l) as (s2 & E2 & U2); [done..|apply U1|apply U1| |].
  { by rewrite (stored_list_unchanged _ _ _ _ _ _ U1). }
  exists s2. split; [|by eapply unchanged_trans]. unfold mbind, eff_mbind. by rewrite E1.
Qed.

(** ** The gate on a store *)

Definition review_index_key (pr : PullRequest) : string := "review/index/" +:+ pr_id pr.
Definition check_index_key (pr : PullRequest) : string := "check/index/" +:+ pr_id pr.
Definition protection_key (pr : PullRequest) : string := "protection/" +:+ pr_target_branch pr.

(** The keys the gate reads, and what it finds there. *)
Definition gate_keys (s : St) (pr : PullRequest) : list string :=
  pr_repo_id pr :: protection_key pr :: review_index_key pr :: check_index_key pr ::
  (rv_okey "review" <$> default [] (stored_index s (pr_repo_id pr) (review_index_key pr))) ++
  (check_key (pr_id pr) <$> default [] (stored_index s (pr_repo_id pr) (check_index_key pr))).

Definition stored_gate (s : St) (pr : PullRequest)
    : option (BranchProtection * list Review * list StatusCheck) :=
  o ← stored_obj BranchProtection s (pr_repo_id pr) (protection_key pr);
  ids ← stored_index s (pr_repo_id pr) (review_index_key pr);
  reviews ← stored_list Review s (pr_repo_id pr) (rv_okey "review") ids;
  ctxs ← stored_index s (pr_repo_id pr) (check_index_key pr);
  checks ← stored_list StatusCheck s (pr_repo_id pr) (check_key (pr_id pr)) ctxs;
  Some (default (unprotected (pr_repo_id pr) (pr_target_branch pr)) o, reviews, checks).

Lemma merge_status_reads s pr p reviews checks :
  Forall os_id (gate_keys s pr) → os_inv s → os_calm s → stored_gate s pr = Some (p, reviews, checks) →
  ∃ s', merge_status pr s = (Ok (merge_decision p reviews checks pr), s') ∧ unchanged s s'.
Proof.
  intros Hk I C (o & Ho & H)%bind_Some. apply bind_Some in H as (ids & Hi & H).
  apply bind_Some in H as (rvs & Hr & H). apply bind_Some in H as (ctxs & Hc & H).
  apply bind_Some in H as (cks & Hcs & [= <- <- <-]).
  unfold gate_keys in Hk. rewrite Hi, Hc in Hk. simpl in Hk.
  rewrite !Forall_cons, Forall_app, !Forall_fmap in Hk. destruct Hk as (Kr & Kp & Ki & Kc & Kids & Kctx).
  destruct (rv_get_calm BranchProtection s _ _ o Kr Kp I C Ho) as (s1 & E1 & U1).
  pose proof U1 as (I1 & C1 & _).
  destruct (rv_listing_calm Review s1 (pr_repo_id pr) (review_index_key pr) (rv_okey "review") ids rvs)
    as (s2 & E2 & U2); [done..| | |].
  { unfold stored_index. by rewrite (stored_obj_unchanged _ _ _ _ _ U1). }
  { by rewrite (stored_list_unchanged _ _ _ _ _ _ U1). }
  pose proof (unchanged_trans _ _ _ U1 U2) as U12. pose proof U2 as (I2 & C2 & _).
  destruct (rv_listing_calm StatusCheck s2 (pr_repo_id pr) (check_index_key pr) (check_key (pr_id pr)) ctxs cks)
    as (s3 & E3 & U3); [done..| | |].
  { unfold stored_index. by rewrite (stored_obj_unchanged _ _ _ _ _ U12). }
  { by rewrite (stored_list_unchanged _ _ _ _ _ _ U12). }
  exists s3. split; [|by eapply unchanged_trans].
  unfold merge_status, list_reviews, list_checks, get_protection in *. unfold mbind, eff_mbind in *.
  unfold protection_key, review_index_key, check_index_key in *. rewrite E1, E2, E3. done.
Qed.

(** C39. The merge gate implements the documented policy: on a store that can be read,
    [merge_status] answers without changing anything.  If the branch does not dismiss
    stale approvals, or every reviewer who requested changes or commented on an earlier
    head has reviewed the current one since, it says mergeable exactly when the pull
    request is open, the newest review of no reviewer requests changes, as many distinct
    reviewers as the branch requires have an approval as their newest review, where
    approvals of an earlier head do not count if the branch dismisses them, and every
    required check has succeeded on the current head. *)
Theorem merge_status_policy s pr p reviews checks :
  Forall os_id (gate_keys s pr) → os_inv s → os_calm s →
  stored_gate s pr = Some (p, reviews, checks) → lengthN reviews < 2 ^ 32 →
  ∃ st s', merge_status pr s = (Ok st, s') ∧ unchanged s s' ∧
    (reviewed_since p pr reviews → ms_mergeable st = true ↔ policy p reviews checks pr).
Proof.
  intros Hk I C Hg Hl. destruct (merge_status_reads _ _ _ _ _ Hk I C Hg) as (s' & E & U).
  exists (merge_decision p reviews checks pr), s'. split_and!; [done..|]. intros Hs. rewrite merge_decision_policy by done. by apply policy_documented.
Qed.
End reading.

(** ** Witnesses *)

Definition rstate_code (x : ReviewState.t) : N :=
  match x with ReviewState.Approved => 0 | ReviewState.ChangesRequested => 1 | ReviewState.Commented => 2 end.
Definition rstate_uncode (n : N) : option ReviewState.t :=
  match n with 0 => Some ReviewState.Approved | 1 => Some ReviewState.ChangesRequested
  | _ => Some ReviewState.Commented end.
Lemma rstate_uncode_code x : rstate_uncode (rstate_code x) = Some x.
Proof. by destruct x. Qed.
Global Instance ReviewState_countable : Countable ReviewState.t :=
  inj_countable rstate_code rstate_uncode rstate_uncode_code.

Definition cstate_code (x : CheckState.t) : N :=
  match x with CheckState.Pending => 0 | CheckState.Success => 1 | CheckState.Failure => 2 end.
Definition cstate_uncode (n : N) : option CheckState.t :=
  match n with 0 => Some CheckState.Pending | 1 => Some CheckState.Success | _ => Some CheckState.Failure end.
Lemma cstate_uncode_code x : cstate_uncode (cstate_code x) = Some x.
Proof. by destruct x. Qed.
Global Instance CheckState_countable : Countable CheckState.t :=
  inj_countable cstate_code cstate_uncode cstate_uncode_code.

Definition pstate_code (x : PrState.t) : N :=
  match x with PrState.Open => 0 | PrState.Merged => 1 | PrState.Closed => 2 end.
Definition pstate_uncode (n : N) : option PrState.t :=
  match n with 0 => Some PrState.Open | 1 => Some PrState.Merged | _ => Some PrState.Closed end.
Lemma pstate_uncode_code x : pstate_uncode (pstate_code x) = Some x.
Proof. by destruct x. Qed.
Global Instance PrState_countable : Countable PrState.t :=
  inj_countable pstate_code pstate_uncode pstate_uncode_code.

Global Instance Review_eq_dec : EqDecision Review.
Proof. solve_decision. Defined.
Definition review_code (r : Review) :=
  (rv_id r, rv_pr_id r, rv_reviewer_id r, rv_state r, rv_head_sha r, rv_created_at r).
Definition review_uncode (x : string * string * string * ReviewState.t * string * N) : option Review :=
  let '(a, b, c, d, e, f) := x in Some (mkReview a b c d e f).
Lemma review_uncode_code r : review_uncode (review_code r) = Some r.
Proof. by destruct r. Qed.
Global Instance Review_countable : Countable Review := inj_countable review_code review_uncode review_uncode_code.

Global Instance StatusCheck_eq_dec : EqDecision StatusCheck.
Proof. solve_decision. Defined.
Definition check_code (c : StatusCheck) :=
  (ck_pr_id c, ck_context c, ck_state c, ck_description c, ck_head_sha c).
Definition check_uncode (x : string * string * CheckState.t * string * string) : option StatusCheck :=
  let '(a, b, c, d, e) := x in Some (mkCheck a b c d e).
Lemma check_uncode_code c : check_uncode (check_code c) = Some c.
Proof. by destruct c. Qed.
Global Instance StatusCheck_countable : Countable StatusCheck :=
  inj_countable check_code check_uncode check_uncode_code.

Global Instance BranchProtection_eq_dec : EqDecision BranchProtection.
Proof. solve_decision. Defined.
Definition protection_code (p : BranchProtection) :=
  (bp_repo_id p, bp_branch p, bp_required_approvals p, bp_required_checks p, bp_block_direct_push p,
   bp_dismiss_stale_approvals p).
Definition protection_uncode (x : string * string * N * list string * bool * bool) : option BranchProtection :=
  let '(a, b, c, d, e, f) := x in Some (mkProtection a b c d e f).
Lemma protection_uncode_code p : protection_uncode (protection_code p) = Some p.
Proof. by destruct p. Qed.
Global Instance BranchProtection_countable : Countable BranchProtection :=
  inj_countable protection_code protection_uncode protection_uncode_code.

Global Instance PullRequest_eq_dec : EqDecision PullRequest.
Proof. solve_decision. Defined.
Definition pr_code (p : PullRequest) :=
  ((pr_id p, pr_repo_id p, pr_number p, pr_title p, pr_description p, pr_author_id p),
   (pr_source_branch p, pr_target_branch p, pr_head_sha p, pr_state p, pr_created_at p, pr_updated_at p)).
Definition pr_uncode
    (x : (string * string * N * string * string * string) * (string * string * string * PrState.t * N * N))
    : option PullRequest :=
  let '((a, b, c, d, e, f), (g, h, i, j, k, l)) := x in Some (mkPr a b c d e f g h i j k l).
Lemma pr_uncode_code p : pr_uncode (pr_code p) = Some p.
Proof. by destruct p. Qed.
Global Instance PullRequest_countable : Countable PullRequest := inj_countable pr_code pr_uncode pr_uncode_code.

Section witnesses.
#[local] Existing Instance toy_rng.
#[local] Existing Instance toy_digests.
#[local] Existing Instance toy_aead.
#[local] Existing Instance toy_hex.
#[local] Existing Instance toy_serde.

Definition toy_pr : PullRequest :=
  mkPr "pr_r_1" "r" 1 "fix" "" "ann" "topic" "main" "h1" PrState.Open 10 10.
Definition toy_protection : BranchProtection := mkProtection "r" "main" 1 ["ci"] true true.
Definition toy_reviews : list Review :=
  [mkReview "v1" "pr_r_1" "bob" ReviewState.ChangesRequested "h0" 20;
   mkReview "v2" "pr_r_1" "bob" ReviewState.Approved "h1" 30;
   mkReview "v3" "pr_r_1" "cat" ReviewState.Approved "h0" 31].
Definition toy_check : StatusCheck := mkCheck "pr_r_1" "ci" CheckState.Success "" "h1".

Definition toy_gate_ids : list string :=
  ["r"; "protection/main"; "review/index/pr_r_1"; "check/index/pr_r_1"; "review/v1"; "review/v2"; "review/v3";
   "check/pr_r_1/ci"; "pr/counter"; "pr/index"; "pr/pr_r_1"].
Lemma toy_gate_ids_free : coll_free digest_sha256 (as_bytes <$> toy_gate_ids).
Proof. apply coll_freeb_spec. vm_refl. Qed.

#[local] Instance toy_review_store : ObjectStore World StoreError :=
  encrypted_object_store toy_gate_ids toy_gate_ids_free toy_store.

Definition toy_disk : World := {| w_files := ∅; w_sched := []; w_gen := 5 |}.

(** The objects of a pull request, written one by one. *)
Definition toy_gate_ops : list store_op :=
  [OpPut "r" "protection/main" (to_vec toy_protection);
   OpPut "r" "review/index/pr_r_1" (to_vec (rv_id <$> toy_reviews))] ++
  ((λ v, OpPut "r" (rv_okey "review" (rv_id v)) (to_vec v)) <$> toy_reviews) ++
  [OpPut "r" "check/index/pr_r_1" (to_vec ["ci"]); OpPut "r" "check/pr_r_1/ci" (to_vec toy_check)].
Definition toy_gate_world : World := (run toy_gate_ops toy_disk).2.

Lemma toy_gate_inv : os_inv toy_gate_world.
Proof.
  edestruct (run_refines toy_gate_ops toy_disk (run toy_gate_ops toy_disk).1 toy_gate_world ∅) as (m & _ & [I _]);
    [| |apply surjective_pairing|exact I].
  - repeat constructor; vm_decide.
  - split; [split; [split; [by intros ?? []|by intros ???? []]|vm_decide]|done].
Qed.

Lemma toy_reviewed_since : reviewed_since toy_protection toy_pr toy_reviews.
Proof.
  intros _ [|[|[|j]]] r Hj Hs Hh; [|by injection Hj as <-..|done]. injection Hj as <-.
  eexists 1%nat, _. split; [done|]. split; [done|]. split; [done|]. left. cbn. lia.
Qed.

Lemma merge_status_policy_witness :
  (∃ st s', merge_status toy_pr toy_gate_world = (Ok st, s') ∧ unchanged toy_gate_world s' ∧
    (ms_mergeable st = true ↔ policy toy_protection toy_reviews [toy_check] toy_pr)) ∧
  ms_mergeable (merge_decision toy_protection toy_reviews [toy_check] toy_pr) = true.
Proof.
  split; [|vm_refl].
  destruct (merge_status_policy toy_gate_world toy_pr toy_protection toy_reviews [toy_check]) as (st & s' & E & U & H).
  - change (Forall (λ k, k ∈ toy_gate_ids) (gate_keys toy_gate_world toy_pr)). vm_decide.
  - exact toy_gate_inv.
  - change (w_sched toy_gate_world = []). vm_refl.
  - vm_refl.
  - done.
  - exists st, s'. split; [exact E|]. split; [exact U|]. apply H. exact toy_reviewed_since.
Defined.

(** The importer stores upstream pull requests with [put_pr] under the ids
    [open_pr] builds, and does not move the counter: the first pull request
    opened afterwards takes number 1 and replaces imported number 1. *)
Definition toy_imported : PullRequest :=
  mkPr (pr_ident "r" 1) "r" 1 "imported" "" "gh" "a" "main" "h0" PrState.Open 5 5.

Example open_pr_overwrites_import :
  ((_ ← put_pr toy_imported;
   pr ← open_pr "r" "ann" "new" "" "topic" "main" "h9" 50;
   o ← get_pr "r" (pr_id toy_imported);
   all ← list_prs "r";
   mret (pr_title <$> o, pr_title <$> all)) toy_disk).1 = Ok (Some "new", ["new"]).
Proof. vm_refl. Qed.
End witnesses.
