(* ===== verification/Api.v ===== *)
(** [crates/secgit-api/src/lib.rs]: the tiers of a deployment, anonymous
    ephemeral repos with their tokens, expiry, size cap and creation limit, and
    the per-account quotas.

    [now()] is read from the clock; the instants a method reads are arguments, in
    the order it reads them. *)

From S2P Require Import Prelude Backend Toy Envelope Primitives.

Inductive ApiError :=
| Disabled (what : string)
| RateLimited
| BadToken
| SizeCap
| ApiCrypto.
Global Instance ApiError_eq_dec : EqDecision ApiError.
Proof. solve_decision. Defined.

Inductive Tier := Anonymous | Light | Managed.
Global Instance Tier_eq_dec : EqDecision Tier.
Proof. solve_decision. Defined.

Record TierLimits := mkLimits { max_repos : N; max_bytes_per_repo : N; max_total_bytes : N }.

Definition light_sandbox : TierLimits :=
  {| max_repos := 10; max_bytes_per_repo := 100 * 1024 * 1024; max_total_bytes := 500 * 1024 * 1024 |}.
Definition managed : TierLimits :=
  {| max_repos := u32_max; max_bytes_per_repo := u64_max; max_total_bytes := u64_max |}.

Record DeploymentConfig := mkDeployment {
  sandbox_mode : bool;
  anonymous_enabled : bool;
  light_enabled : bool;
  managed_enabled : bool;
  ephemeral_ttl_secs : N;
  ephemeral_max_bytes : N;
  anon_creates_per_window : N;
  rate_window_secs : N;
  light_limits : TierLimits;
  managed_limits : TierLimits;
  managed_requires_byok : bool;
}.

Definition default_deployment : DeploymentConfig :=
  {| sandbox_mode := true; anonymous_enabled := true; light_enabled := true; managed_enabled := false;
     ephemeral_ttl_secs := 3600; ephemeral_max_bytes := 50 * 1024 * 1024; anon_creates_per_window := 5;
     rate_window_secs := 3600; light_limits := light_sandbox; managed_limits := managed;
     managed_requires_byok := true |}.

Definition tier_enabled (cfg : DeploymentConfig) (tier : Tier) : bool :=
  match tier with
  | Anonymous => anonymous_enabled cfg
  | Light => light_enabled cfg
  | Managed => managed_enabled cfg
  end.

Definition limits_for (cfg : DeploymentConfig) (tier : Tier) : TierLimits :=
  match tier with
  | Anonymous => {| max_repos := anon_creates_per_window cfg; max_bytes_per_repo := ephemeral_max_bytes cfg;
                    max_total_bytes := ephemeral_max_bytes cfg |}
  | Light => light_limits cfg
  | Managed => managed_limits cfg
  end.

(** ** Ephemeral repos *)

Record EphemeralRepo := mkEphemeral {
  ep_repo_id : string;
  ep_push_token : string;
  ep_expires_at : N;
  ep_max_bytes : N;
}.

Record EphemeralState := mkEphemeralState {
  es_token : string;
  es_expires_at : N;
  es_max_bytes : N;
  es_used_bytes : N;
}.

Record EphemeralRepos := mkEphemerals {
  er_cfg : DeploymentConfig;
  er_repos : gmap string EphemeralState;
  er_creates : gmap string (N * N);
}.

Definition with_repos (m : gmap string EphemeralState) (st : EphemeralRepos) : EphemeralRepos :=
  {| er_cfg := er_cfg st; er_repos := m; er_creates := er_creates st |}.
Definition with_creates (m : gmap string (N * N)) (st : EphemeralRepos) : EphemeralRepos :=
  {| er_cfg := er_cfg st; er_repos := er_repos st; er_creates := m |}.

Definition ephemerals_new (cfg : DeploymentConfig) : EphemeralRepos :=
  {| er_cfg := cfg; er_repos := ∅; er_creates := ∅ |}.

Definition enforce_rate (client_key : string) (t : N) : eff EphemeralRepos ApiError unit := λ st,
  let entry := default (t, 0) (er_creates st !! client_key) in
  let entry := if rate_window_secs (er_cfg st) <=? t - entry.1 then (t, 0) else entry in
  if anon_creates_per_window (er_cfg st) <=? entry.2
  then (Err RateLimited, with_creates (<[client_key := entry]> (er_creates st)) st)
  else (Ok (), with_creates (<[client_key := (entry.1, entry.2 + 1)]> (er_creates st)) st).

(** Returns the ids that expired; the caller is to wipe their storage. *)
Definition ephemeral_gc (t : N) (st : EphemeralRepos) : list string * EphemeralRepos :=
  ((map_to_list (filter (λ kv, es_expires_at kv.2 <= t) (er_repos st))).*1,
   with_repos (filter (λ kv, ¬ es_expires_at kv.2 <= t) (er_repos st)) st).

Section ephemeral.
Context `{RND : SystemRandom} `{DIG : Digests} `{MAC : Hmacs} `{HX : Hex}.

(** The clock is read by [enforce_rate], by [gc] and for the expiry. *)
Definition ephemeral_create (client_key : string) (t1 t2 t3 : N)
    : eff (EphemeralRepos * rng) ApiError EphemeralRepo := λ '(st, g),
  if negb (anonymous_enabled (er_cfg st)) then (Err (Disabled "anonymous tier"), (st, g))
  else match enforce_rate client_key t1 st with
       | (Err e, st) => (Err e, (st, g))
       | (Ok _, st) =>
           let st := (ephemeral_gc t2 st).2 in
           match random_vec 24 g with
           | (Err _, g) => (Err ApiCrypto, (st, g))
           | (Ok token, g) =>
               match random_vec 8 g with
               | (Err _, g) => (Err ApiCrypto, (st, g))
               | (Ok id_suffix, g) =>
                   let repo_id := "ephemeral/" +:+ hex_encode id_suffix in
                   let expires_at := wrap_add64 t3 (ephemeral_ttl_secs (er_cfg st)) in
                   (Ok {| ep_repo_id := repo_id; ep_push_token := hex_encode token; ep_expires_at := expires_at;
                          ep_max_bytes := ephemeral_max_bytes (er_cfg st) |},
                    (with_repos (<[repo_id := {| es_token := hex_encode token; es_expires_at := expires_at;
                                                 es_max_bytes := ephemeral_max_bytes (er_cfg st);
                                                 es_used_bytes := 0 |}]> (er_repos st)) st, g))
               end
           end
       end.

Definition authorize_push (repo_id token : string) (t1 t2 : N) : eff EphemeralRepos ApiError unit := λ st,
  let st := (ephemeral_gc t1 st).2 in
  match er_repos st !! repo_id with
  | None => (Err BadToken, st)
  | Some s =>
      if es_expires_at s <=? t2 then (Err BadToken, st)
      else if negb (ct_eq (as_bytes (es_token s)) (as_bytes token)) then (Err BadToken, st)
      else (Ok (), st)
  end.

Definition ephemeral_account_bytes (repo_id : string) (n : N) : eff EphemeralRepos ApiError unit := λ st,
  match er_repos st !! repo_id with
  | None => (Err BadToken, st)
  | Some s =>
      let new_total := sat_add64 (es_used_bytes s) n in
      if es_max_bytes s <? new_total then (Err SizeCap, st)
      else (Ok (), with_repos (<[repo_id := {| es_token := es_token s; es_expires_at := es_expires_at s;
                                               es_max_bytes := es_max_bytes s; es_used_bytes := new_total |}]>
                                 (er_repos st)) st)
  end.

Definition is_ephemeral (st : EphemeralRepos) (repo_id : string) : bool :=
  bool_decide (is_Some (er_repos st !! repo_id)).
End ephemeral.

(** ** Account quotas *)

Abbreviation Usage := (gmap string N).

Record AccountQuota := mkQuota { aq_cfg : DeploymentConfig; aq_accounts : gmap string (Tier * Usage) }.

Definition quota_new (cfg : DeploymentConfig) : AccountQuota := {| aq_cfg := cfg; aq_accounts := ∅ |}.

Definition set_account (account_id : string) (a : Tier * Usage) (q : AccountQuota) : AccountQuota :=
  {| aq_cfg := aq_cfg q; aq_accounts := <[account_id := a]> (aq_accounts q) |}.

(** The exact sum of the recorded sizes; [.sum()] on [u64] is this modulo [2^64]. *)
Definition usage_sum (m : Usage) : N := map_fold (λ _ v acc, v + acc) 0 m.

Definition preload (account_id : string) (tier : Tier) (repo_id : string) (used_bytes : N)
    (q : AccountQuota) : AccountQuota :=
  let entry := default (tier, ∅) (aq_accounts q !! account_id) in
  set_account account_id (tier, <[repo_id := used_bytes]> entry.2) q.

Definition tier_name (tier : Tier) : string :=
  match tier with Anonymous => "anonymous tier" | Light => "light tier" | Managed => "managed tier" end.

Definition ensure_account (account_id : string) (tier : Tier) : eff AccountQuota ApiError unit := λ q,
  if negb (tier_enabled (aq_cfg q) tier) then (Err (Disabled (tier_name tier)), q)
  else (Ok (), match aq_accounts q !! account_id with
               | Some (_, r) => set_account account_id (tier, r) q
               | None => set_account account_id (tier, ∅) q
               end).

Definition tier_of (q : AccountQuota) (account_id : string) : result ApiError Tier :=
  ok_or BadToken (fst <$> aq_accounts q !! account_id).

Definition account_mut (q : AccountQuota) (account_id : string) : result ApiError (Tier * Usage) :=
  ok_or BadToken (aq_accounts q !! account_id).

Definition authorize_create_repo (account_id repo_id : string) : eff AccountQuota ApiError unit := λ q,
  match tier_of q account_id, account_mut q account_id with
  | Ok tier, Ok (t, repos) =>
      let limits := limits_for (aq_cfg q) tier in
      if max_repos limits <=? N.of_nat (size repos) then (Err SizeCap, q)
      else (Ok (), set_account account_id (t, match repos !! repo_id with
                                              | Some _ => repos
                                              | None => <[repo_id := 0]> repos
                                              end) q)
  | Err e, _ | _, Err e => (Err e, q)
  end.

Definition account_bytes (account_id repo_id : string) (n : N) : eff AccountQuota ApiError unit := λ q,
  match tier_of q account_id, account_mut q account_id with
  | Ok tier, Ok (t, repos) =>
      let limits := limits_for (aq_cfg q) tier in
      match repos !! repo_id with
      | None => (Err BadToken, q)
      | Some current =>
          let new_repo_total := sat_add64 current n in
          if max_bytes_per_repo limits <? new_repo_total then (Err SizeCap, q)
          else
            let others := usage_sum (filter (λ kv, kv.1 ≠ repo_id) repos) mod 2 ^ 64 in
            if max_total_bytes limits <? sat_add64 others new_repo_total then (Err SizeCap, q)
            else (Ok (), set_account account_id (t, <[repo_id := new_repo_total]> repos) q)
      end
  | Err e, _ | _, Err e => (Err e, q)
  end.

Definition quota_remove_repo (account_id repo_id : string) : eff AccountQuota ApiError unit := λ q,
  match account_mut q account_id with
  | Ok (t, repos) => (Ok (), set_account account_id (t, delete repo_id repos) q)
  | Err e => (Err e, q)
  end.

Definition repo_bytes (q : AccountQuota) (account_id repo_id : string) : option N :=
  a ← aq_accounts q !! account_id; a.2 !! repo_id.

Definition repo_count (q : AccountQuota) (account_id : string) : N :=
  default 0 ((λ a, N.of_nat (size a.2)) <$> aq_accounts q !! account_id).

Definition total_bytes (q : AccountQuota) (account_id : string) : N :=
  default 0 ((λ a, usage_sum a.2 mod 2 ^ 64) <$> aq_accounts q !! account_id).

Definition admit_managed (cfg : DeploymentConfig) (byok_present : bool) : result ApiError TierLimits :=
  if negb (managed_enabled cfg) then Err (Disabled "managed tier")
  else if managed_requires_byok cfg && negb byok_present then Err (Disabled "managed tier requires BYOK")
  else Ok (managed_limits cfg).

(** ** Theory of the quotas *)

Lemma usage_sum_lookup (m : Usage) r v : m !! r = Some v → usage_sum m = v + usage_sum (delete r m).
Proof. intros H. unfold usage_sum. rewrite (map_fold_delete_L _ _ r v m); [done| |done]. intros. lia. Qed.

Lemma usage_sum_insert (m : Usage) r v : usage_sum (<[r := v]> m) = v + usage_sum (delete r m).
Proof. rewrite (usage_sum_lookup _ r v) by apply lookup_insert_eq. by rewrite delete_insert_eq. Qed.

Lemma usage_sum_delete_le (m : Usage) r : usage_sum (delete r m) ≤ usage_sum m.
Proof.
  destruct (m !! r) as [v|] eqn:E; [rewrite (usage_sum_lookup m r v) by done; lia|].
  by rewrite delete_id.
Qed.

Lemma filter_others (m : Usage) r : filter (λ kv, kv.1 ≠ r) m = delete r m.
Proof.
  apply map_eq. intros k. destruct (decide (k = r)) as [->|Hne].
  - rewrite lookup_delete_eq. apply map_lookup_filter_None. right. intros x _ H. by apply H.
  - rewrite lookup_delete_ne by done. destruct (m !! k) as [v|] eqn:E.
    + by apply map_lookup_filter_Some.
    + apply map_lookup_filter_None. by left.
Qed.

(** A total of [u64::MAX] is no limit. *)
Definition within (l : TierLimits) (m : Usage) : Prop :=
  N.of_nat (size m) ≤ max_repos l ∧ (∀ r v, m !! r = Some v → v ≤ max_bytes_per_repo l) ∧
  (max_total_bytes l < u64_max → usage_sum m ≤ max_total_bytes l).

Lemma within_empty l : within l ∅.
Proof. split_and!; [rewrite map_size_empty; lia|intros ? ?; by rewrite lookup_empty|unfold usage_sum; rewrite map_fold_empty; lia]. Qed.

Lemma within_delete l m r : within l m → within l (delete r m).
Proof.
  intros (H1 & H2 & H3). split_and!.
  - rewrite map_size_delete. case_match; unfold id; lia.
  - intros r' v [_ Hv]%lookup_delete_Some. by eapply H2.
  - intros Hm. specialize (H3 Hm). pose proof (usage_sum_delete_le m r). lia.
Qed.

Lemma within_insert l m r v :
  (N.of_nat (size m) < max_repos l ∨ N.of_nat (size m) ≤ max_repos l ∧ is_Some (m !! r)) →
  v ≤ max_bytes_per_repo l → (max_total_bytes l < u64_max → v + usage_sum (delete r m) ≤ max_total_bytes l) →
  (∀ r v, m !! r = Some v → v ≤ max_bytes_per_repo l) → within l (<[r := v]> m).
Proof.
  intros H1 H2 H3 H4. split_and!.
  - rewrite map_size_insert. destruct H1 as [H1|[H1 [x Hx]]]; [case_match; simpl; lia|]. rewrite Hx. simpl. lia.
  - intros r' v' [[_ <-]|[_ ?]]%lookup_insert_Some; [done|by eapply H4].
  - by rewrite usage_sum_insert.
Qed.

(** Adding to one repo is decided on exact sums: below a total cap that fits in
    the integer type, saturation refuses what the exact sum would exceed. *)
Lemma bytes_check l m r v n :
  within l m → m !! r = Some v → max_total_bytes l < u64_max →
  (sat_add64 v n ≤ max_bytes_per_repo l ∧
   sat_add64 (usage_sum (filter (λ kv, kv.1 ≠ r) m) mod 2 ^ 64) (sat_add64 v n) ≤ max_total_bytes l) ↔
  v + n ≤ max_bytes_per_repo l ∧ usage_sum m + n ≤ max_total_bytes l.
Proof.
  intros (_ & Hr & Hs) Hv Hmax. specialize (Hr _ _ Hv). specialize (Hs Hmax). rewrite filter_others.
  rewrite (usage_sum_lookup m r v) in * by done.
  rewrite N.mod_small by (unfold u64_max in *; lia). unfold sat_add64. lia.
Qed.

Inductive quota_op :=
| QEnsure (a : string) (t : Tier)
| QCreate (a r : string)
| QBytes (a r : string) (n : N)
| QRemove (a r : string).

Definition exec_quota (op : quota_op) : eff AccountQuota ApiError unit :=
  match op with
  | QEnsure a t => ensure_account a t
  | QCreate a r => authorize_create_repo a r
  | QBytes a r n => account_bytes a r n
  | QRemove a r => quota_remove_repo a r
  end.

Fixpoint run_quota (ops : list quota_op) (q : AccountQuota) : AccountQuota :=
  match ops with
  | [] => q
  | op :: ops => run_quota ops (exec_quota op q).2
  end.

Section quota.
Context (cfg : DeploymentConfig) (tiers : string → Tier).
Abbreviation caps a := (limits_for cfg (tiers a)).

(** Accounts keep the tier they were given. *)
Definition keeps_tier (op : quota_op) : Prop := match op with QEnsure a t => t = tiers a | _ => True end.

Definition quota_inv (q : AccountQuota) : Prop :=
  aq_cfg q = cfg ∧ ∀ a t m, aq_accounts q !! a = Some (t, m) → t = tiers a ∧ within (caps a) m.

Lemma quota_inv_set q a m : quota_inv q → within (caps a) m → quota_inv (set_account a (tiers a, m) q).
Proof.
  intros [Hc H] Hm. split; [done|]. intros a' t' m'. simpl.
  intros [[-> [= <- <-]]|[_ ?]]%lookup_insert_Some; [done|by apply H].
Qed.

Lemma quota_step op q : quota_inv q → keeps_tier op → quota_inv (exec_quota op q).2.
Proof.
  intros I K. pose proof I as [Hc H].
  destruct op as [a t|a r|a r n|a r]; simpl in *;
    unfold ensure_account, authorize_create_repo, account_bytes, quota_remove_repo, tier_of, account_mut.
  - case_match; [done|]. subst t. destruct (aq_accounts q !! a) as [[t m]|] eqn:E; simpl.
    + apply quota_inv_set; [done|]. by eapply H.
    + apply quota_inv_set; [done|]. apply within_empty.
  - destruct (aq_accounts q !! a) as [[t m]|] eqn:E; simpl; [|done]. destruct (H _ _ _ E) as [-> (W1 & W2 & W3)].
    rewrite Hc. destruct (N.leb_spec (max_repos (caps a)) (N.of_nat (size m))); [done|]. simpl.
    apply quota_inv_set; [done|]. destruct (m !! r) eqn:Er; [by split_and!|].
    apply within_insert; [by left|lia| |done]. by rewrite delete_id.
  - destruct (aq_accounts q !! a) as [[t m]|] eqn:E; simpl; [|done]. destruct (H _ _ _ E) as [-> W].
    destruct (m !! r) as [v|] eqn:Er; [|done]. rewrite Hc.
    destruct (N.ltb_spec (max_bytes_per_repo (caps a)) (sat_add64 v n)) as [|H1]; [done|].
    destruct (N.ltb_spec (max_total_bytes (caps a)) (sat_add64 (usage_sum (filter (λ kv, kv.1 ≠ r) m) mod 2 ^ 64) (sat_add64 v n)))
      as [|H2]; [done|]. simpl.
    apply quota_inv_set; [done|]. pose proof W as (W1 & W2 & W3).
    apply within_insert; [right; split; [done|by eexists]|lia| |done]. intros Hm.
    destruct (proj1 (bytes_check _ _ _ _ n W Er Hm) (conj H1 H2)) as [K1 K2].
    rewrite (usage_sum_lookup m r v) in * by done. rewrite sat_add64_exact; lia.
  - destruct (aq_accounts q !! a) as [[t m]|] eqn:E; simpl; [|done]. destruct (H _ _ _ E) as [-> W].
    apply quota_inv_set; [done|]. by apply within_delete.
Qed.

Lemma quota_run ops q : quota_inv q → Forall keeps_tier ops → quota_inv (run_quota ops q).
Proof.
  intros I K. revert q I. induction K as [|op ops Hop _ IH]; intros q I; [done|]. simpl. by apply IH, quota_step.
Qed.

Lemma quota_inv_new : quota_inv (quota_new cfg).
Proof. split; [done|]. intros ? ? ?. simpl. by rewrite lookup_empty. Qed.

(** C40. Quotas hold along every run: starting from no account, after any
    sequence of registrations, repo creations, byte accountings and removals
    (failed ones included) in which accounts keep their tier, no account exceeds
    its number of repos or its size per repo.  In a tier whose total is limited, that is
    below [u64::MAX], the exact sum of the sizes is what [total_bytes] says and does not
    exceed the total, and [account_bytes] admits a write exactly when it fits, on exact
    sums, under both size caps; in a tier without such a limit (the Managed tier by
    default) it admits a write exactly when the saturated size of the repo is within its
    cap. *)
Theorem quota_enforced ops :
  Forall keeps_tier ops →
  let q := run_quota ops (quota_new cfg) in
  (∀ a, repo_count q a ≤ max_repos (caps a)) ∧
  (∀ a r v, repo_bytes q a r = Some v → v ≤ max_bytes_per_repo (caps a)) ∧
  (∀ a t m, aq_accounts q !! a = Some (t, m) → max_total_bytes (caps a) < u64_max →
     total_bytes q a = usage_sum m ∧ usage_sum m ≤ max_total_bytes (caps a) ∧
     ∀ r v n, m !! r = Some v → is_ok (account_bytes a r n q).1 = true ↔
       v + n ≤ max_bytes_per_repo (caps a) ∧ usage_sum m + n ≤ max_total_bytes (caps a)) ∧
  (∀ a r v n, repo_bytes q a r = Some v → max_total_bytes (caps a) = u64_max →
     is_ok (account_bytes a r n q).1 = true ↔ N.min (v + n) u64_max ≤ max_bytes_per_repo (caps a)).
Proof.
  intros K q. destruct (quota_run ops (quota_new cfg) quota_inv_new K) as [Hc I]. fold q in Hc, I. split_and!.
  - intros a. unfold repo_count. destruct (aq_accounts q !! a) as [[t m]|] eqn:E; simpl; [|lia].
    by destruct (I _ _ _ E) as [_ (W1 & _)].
  - intros a r v Hb. apply bind_Some in Hb as ([t m] & E & Hv). simpl in Hv. destruct (I _ _ _ E) as [-> W]. by eapply W.
  - intros a t m E Hm. destruct (I _ _ _ E) as [-> W]. pose proof W as (_ & _ & W3). specialize (W3 Hm).
    unfold total_bytes. rewrite E. simpl. rewrite (N.mod_small (usage_sum m)) by (unfold u64_max in *; lia).
    split_and!; [done..|]. intros r v n Hv.
    unfold account_bytes, tier_of, account_mut. rewrite E. simpl. rewrite Hv, Hc.
    rewrite <-(bytes_check _ _ _ _ n W Hv Hm).
    destruct (N.ltb_spec (max_bytes_per_repo (caps a)) (sat_add64 v n)); simpl; [split; [done|lia]|].
    destruct (N.ltb_spec (max_total_bytes (caps a)) (sat_add64 (usage_sum (filter (λ kv, kv.1 ≠ r) m) mod 2 ^ 64) (sat_add64 v n)));
      simpl; split; try done; lia.
  - intros a r v n Hb Hm. apply bind_Some in Hb as ([t m] & E & Hv). simpl in Hv. destruct (I _ _ _ E) as [-> W].
    unfold account_bytes, tier_of, account_mut. rewrite E. simpl. rewrite Hv, Hc, Hm. fold (sat_add64 v n).
    destruct (N.ltb_spec (max_bytes_per_repo (caps a)) (sat_add64 v n)); simpl; [split; [done|lia]|].
    rewrite (proj2 (N.ltb_ge u64_max _)) by (unfold sat_add64; lia). simpl. split; [done|]. by split.
Qed.
End quota.

(** ** Theory of the ephemeral repos *)

(** The requests of one client at the given instants: how many pass. *)
Fixpoint rate_run (client_key : string) (ts : list N) (st : EphemeralRepos) : N :=
  match ts with
  | [] => 0
  | t :: ts =>
      let '(r, st) := enforce_rate client_key t st in
      (if is_ok r then 1 else 0) + rate_run client_key ts st
  end.

(** The same on the client's entry alone, with [w] the window and [l] the limit. *)
Definition slot_step (w l t : N) (o : option (N * N)) : bool * (N * N) :=
  let e := default (t, 0) o in
  let e := if w <=? t - e.1 then (t, 0) else e in
  if l <=? e.2 then (false, e) else (true, (e.1, e.2 + 1)).

Fixpoint slot_run (w l : N) (ts : list N) (o : option (N * N)) : N :=
  match ts with
  | [] => 0
  | t :: ts => let '(b, e) := slot_step w l t o in (if b then 1 else 0) + slot_run w l ts (Some e)
  end.

Lemma rate_run_slot k ts st :
  rate_run k ts st =
  slot_run (rate_window_secs (er_cfg st)) (anon_creates_per_window (er_cfg st)) ts (er_creates st !! k).
Proof.
  revert st. induction ts as [|t ts IH]; intros st; [done|]. simpl. unfold enforce_rate, slot_step.
  repeat case_match; simplify_eq/=; rewrite IH; simpl; by rewrite lookup_insert_eq.
Qed.

(** Within a window that started at [s], what is left of it. *)
Lemma slot_run_window w l ts t0 s c :
  t0 ≤ s → Forall (λ t, t0 ≤ t ∧ t < t0 + w) ts → slot_run w l ts (Some (s, c)) ≤ l - c.
Proof.
  intros Hs Hts. revert c. induction Hts as [|t ts [Ht Ht'] _ IH]; intros c; [simpl; lia|].
  simpl. unfold slot_step. simpl. rewrite (proj2 (N.leb_gt w (t - s))) by lia. simpl.
  destruct (N.leb_spec l c); [specialize (IH c)|specialize (IH (c + 1))]; cbv beta iota; lia.
Qed.

Lemma slot_run_any w l ts t0 s c :
  Forall (λ t, t0 ≤ t ∧ t < t0 + w) ts → slot_run w l ts (Some (s, c)) ≤ (l - c) + l.
Proof.
  intros Hts. revert s c. induction Hts as [|t ts [Ht Ht'] Hts IH]; intros s c; [simpl; lia|].
  simpl. unfold slot_step. simpl.
  assert (∀ c, slot_run w l ts (Some (t, c)) ≤ l - c) as Hw.
  { intros c'. by apply (slot_run_window w l ts t0). }
  destruct (N.leb_spec w (t - s)); cbn [fst snd];
    match goal with |- context [?a <=? ?b] => destruct (N.leb_spec a b) end; cbv beta iota;
    [specialize (Hw 0)|specialize (Hw (0 + 1))|specialize (IH s c)|specialize (IH s (c + 1))]; lia.
Qed.

Lemma slot_run_new w l ts t0 :
  Forall (λ t, t0 ≤ t ∧ t < t0 + w) ts → slot_run w l ts None ≤ l.
Proof.
  destruct ts as [|t ts]; [simpl; lia|]. intros [[Ht Ht'] Hts]%Forall_cons.
  replace (slot_run w l (t :: ts) None) with (slot_run w l (t :: ts) (Some (t, 0))) by done.
  rewrite (slot_run_window w l (t :: ts) t0 t 0); [lia|done|].
  by constructor.
Qed.

(** C6. The creation limit of anonymous clients is enforced: whatever one client
    did before, of its requests made within any period no longer than the
    configured window at most twice the limit pass (the period may straddle two
    windows), and at most the limit when the client was not seen before. *)
Theorem creates_bounded k ts t0 st :
  Forall (λ t, t0 ≤ t ∧ t < t0 + rate_window_secs (er_cfg st)) ts →
  rate_run k ts st ≤ 2 * anon_creates_per_window (er_cfg st) ∧
  (er_creates st !! k = None → rate_run k ts st ≤ anon_creates_per_window (er_cfg st)).
Proof.
  intros Hts. rewrite rate_run_slot. split.
  - destruct (er_creates st !! k) as [[s c]|].
    + pose proof (slot_run_any _ (anon_creates_per_window (er_cfg st)) ts t0 s c Hts). lia.
    + pose proof (slot_run_new _ (anon_creates_per_window (er_cfg st)) ts t0 Hts). lia.
  - intros ->. by eapply slot_run_new.
Qed.

Section ephemeral_theory.
Context `{RND : SystemRandom} `{DIG : Digests} `{MAC : Hmacs} `{HX : Hex}.

Lemma authorize_push_iff repo token t1 t2 st :
  is_ok (authorize_push repo token t1 t2 st).1 = true ↔
  ∃ s, er_repos st !! repo = Some s ∧ t1 < es_expires_at s ∧ t2 < es_expires_at s ∧ token = es_token s.
Proof.
  unfold authorize_push, ephemeral_gc. simpl.
  destruct (filter _ (er_repos st) !! repo) as [s|] eqn:E.
  - apply map_lookup_filter_Some in E as [E Hs]. simpl in Hs. rewrite E.
    destruct (N.leb_spec (es_expires_at s) t2); simpl.
    { split; [done|]. intros (s' & [= <-] & ? & ? & _). lia. }
    destruct (ct_eq (as_bytes (es_token s)) (as_bytes token)) eqn:Ec; simpl.
    + apply ct_eq_true, as_bytes_inj in Ec. split; [|done]. intros _. exists s. split_and!; [done|lia|done|done].
    + split; [done|]. intros (s' & [= <-] & _ & _ & ->). by rewrite ct_eq_refl in Ec.
  - split; [done|]. intros (s & Hs & H1 & _). apply map_lookup_filter_None in E as [E|E]; [congruence|].
    destruct (E s Hs). simpl. lia.
Qed.

(** The pushes of one repo, of the given sizes: how many bytes are admitted. *)
Fixpoint admitted (repo : string) (sizes : list N) (st : EphemeralRepos) : N :=
  match sizes with
  | [] => 0
  | n :: sizes =>
      let '(r, st) := ephemeral_account_bytes repo n st in
      (if is_ok r then n else 0) + admitted repo sizes st
  end.

Lemma admitted_bound repo sizes st s :
  er_repos st !! repo = Some s → es_used_bytes s ≤ es_max_bytes s → es_max_bytes s < u64_max →
  admitted repo sizes st ≤ es_max_bytes s - es_used_bytes s.
Proof.
  revert st s. induction sizes as [|n sizes IH]; intros st s Hs Hu Hm; simpl; [lia|].
  unfold ephemeral_account_bytes. rewrite Hs.
  destruct (N.ltb_spec (es_max_bytes s) (sat_add64 (es_used_bytes s) n)) as [Hc|Hc]; cbv beta iota; cbn [is_ok].
  { rewrite N.add_0_l. by apply IH. }
  assert (sat_add64 (es_used_bytes s) n = es_used_bytes s + n) as E by (unfold sat_add64 in *; lia).
  match goal with |- context [admitted repo sizes ?x] => set (st' := x) end.
  pose proof (lookup_insert_eq (er_repos st) repo (mkEphemeralState (es_token s) (es_expires_at s) (es_max_bytes s)
    (sat_add64 (es_used_bytes s) n))) as Hs'.
  specialize (IH st' _ Hs'). simpl in IH. lia.
Qed.

(** C8. The life of an anonymous repo: after [create], its repo accepts pushes
    with the issued token only, and exactly until it expires; and whatever the
    sizes of the pushes, the bytes admitted for it never exceed the size cap. *)
Theorem ephemeral_lifecycle client t1 t2 t3 st g rep st1 g1 :
  ephemeral_create client t1 t2 t3 (st, g) = (Ok rep, (st1, g1)) →
  t3 + ephemeral_ttl_secs (er_cfg st) ≤ u64_max → ephemeral_max_bytes (er_cfg st) < u64_max →
  (∀ token t t', t ≤ t' → is_ok (authorize_push (ep_repo_id rep) token t t' st1).1 = true ↔
     token = ep_push_token rep ∧ t' < t3 + ephemeral_ttl_secs (er_cfg st)) ∧
  ∀ sizes, admitted (ep_repo_id rep) sizes st1 ≤ ephemeral_max_bytes (er_cfg st).
Proof.
  unfold ephemeral_create. destruct (negb _); [done|].
  destruct (enforce_rate client t1 st) as [[[]|] st0] eqn:E0; [|done].
  assert (er_cfg st0 = er_cfg st) as Hcfg.
  { replace st0 with (enforce_rate client t1 st).2 by (by rewrite E0). unfold enforce_rate. by case_match. }
  destruct (random_vec 24 g) as [[tok|] g2]; [|done]. destruct (random_vec 8 g2) as [[sfx|] g3]; [|done].
  intros [= <- <- <-] Ht Hm. simpl. rewrite Hcfg in *. unfold wrap_add64.
  rewrite N.mod_small by (unfold u64_max in *; lia). split.
  - intros token t t' Hle. rewrite authorize_push_iff. simpl. rewrite lookup_insert_eq. split.
    + intros (s & [= <-] & H1 & H2 & H3). done.
    + intros [-> H]. eexists. split; [done|]. simpl. split_and!; [lia|done|done].
  - intros sizes. etrans; [eapply admitted_bound; [apply lookup_insert_eq|simpl; lia|simpl; lia]|]. simpl. lia.
Qed.
End ephemeral_theory.

(** The sweep of [authorize_push] (and of [create]) discards the ids it
    collects: a repo that expired is removed without being reported, so the
    background sweep, which wipes what its [gc] returns, never learns of it. *)
Lemma push_forgets_expired `{Hmacs} st r s repo token t1 t2 t :
  er_repos st !! r = Some s → es_expires_at s ≤ t1 →
  r ∉ (ephemeral_gc t (authorize_push repo token t1 t2 st).2).1.
Proof.
  intros Hs Ht.
  assert (∀ st', er_repos st' = er_repos (ephemeral_gc t1 st).2 → r ∉ (ephemeral_gc t st').1) as H'.
  { intros st' E. unfold ephemeral_gc. simpl. rewrite E. intros ([k x] & -> & Hx%elem_of_map_to_list)%list_elem_of_fmap.
    simpl in *. apply map_lookup_filter_Some in Hx as [Hx _]. apply map_lookup_filter_Some in Hx as [Hx Hn].
    simpl in Hn. rewrite Hs in Hx. injection Hx as <-. done. }
  unfold authorize_push. repeat case_match; by apply H'.
Qed.

(** ** Witnesses *)

Lemma quota_enforced_witness :
  let ops := [QEnsure "a" Light; QCreate "a" "r"; QBytes "a" "r" 1000; QBytes "a" "r" (2 ^ 63); QCreate "a" "r2";
              QRemove "a" "r2"; QBytes "b" "r" 1] in
  let q := run_quota ops (quota_new default_deployment) in
  repo_bytes q "a" "r" = Some 1000 ∧ total_bytes q "a" = usage_sum {["r" := 1000]} ∧
  (∀ a, repo_count q a ≤ max_repos light_sandbox) ∧ usage_sum {["r" := 1000]} ≤ max_total_bytes light_sandbox.
Proof.
  intros ops q. split; [vm_refl|].
  destruct (quota_enforced default_deployment (λ _, Light) ops) as (H1 & _ & H3 & _); [repeat constructor|].
  destruct (H3 "a" Light {["r" := 1000]}) as (H4 & H5 & _); [vm_refl|vm_compute; reflexivity|].
  split; [exact H4|]. split; [exact H1|exact H5].
Defined.

Lemma creates_bounded_witness :
  rate_run "1.2.3.4" [100; 101; 102; 103; 104; 105; 200] (ephemerals_new default_deployment) = 5 ∧
  rate_run "1.2.3.4" [100; 101; 102; 103; 104; 105; 200] (ephemerals_new default_deployment) ≤
    2 * anon_creates_per_window default_deployment.
Proof.
  split; [vm_refl|].
  apply (creates_bounded "1.2.3.4" [100; 101; 102; 103; 104; 105; 200] 100 (ephemerals_new default_deployment)).
  repeat constructor; vm_compute; done.
Defined.

Section witnesses.
#[local] Existing Instance toy_rng.
#[local] Existing Instance toy_digests.
#[local] Existing Instance toy_hmacs.
#[local] Existing Instance toy_hex.

Definition toy_created : result ApiError EphemeralRepo * (EphemeralRepos * N) :=
  ephemeral_create (RND := toy_rng) "1.2.3.4" 100 100 101 (ephemerals_new default_deployment, 7).
Definition toy_repo : EphemeralRepo :=
  match toy_created.1 with Ok r => r | Err _ => mkEphemeral "" "" 0 0 end.

Lemma ephemeral_lifecycle_witness :
  is_ok (authorize_push (ep_repo_id toy_repo) (ep_push_token toy_repo) 3700 3700 toy_created.2.1).1 = true ∧
  ∀ sizes, admitted (ep_repo_id toy_repo) sizes toy_created.2.1 ≤ 50 * 1024 * 1024.
Proof.
  edestruct (ephemeral_lifecycle (RND := toy_rng) "1.2.3.4" 100 100 101 (ephemerals_new default_deployment) 7 toy_repo
    toy_created.2.1 toy_created.2.2) as [H1 H2]; [vm_refl|vm_compute; done|vm_compute; done|].
  split; [|exact H2]. apply H1; [done|]. split; [done|vm_compute; done].
Defined.
End witnesses.
