(* ===== verification/Http.v ===== *)
(** [bins/secgit-server/src/http.rs]: parsing a request under limits, its
    credentials, and writing a response.

    The stream is the bytes the peer has sent and what follows them: the end of
    the stream, or an error (a timeout).  A slice that does not fall on a character
    boundary panics; under [panic = "abort"] that ends the server. *)

From S2P Require Import Prelude Text Backend Toy Auth.

(** ** Credentials of a request *)

Record Request := mkRequestHttp {
  rq_method : string;
  rq_path : string;
  rq_query : gmap string string;
  rq_headers : gmap string string;
  rq_body : bytes;
  rq_peer_ip : string;
}.

Definition header (req : Request) (name : string) : option string :=
  rq_headers req !! to_ascii_lowercase name.

Definition bearer_token (req : Request) : option string :=
  match (v ← header req "authorization"; strip_prefix (as_bytes "Bearer ") (as_bytes v)) with
  | Some t => Some (string_of_list_byte (trim t))
  | None => rq_query req !! "token"
  end.

Definition base64_decode (s : bytes) : option bytes := b64_decode B64_STD s.

Definition basic_auth (req : Request) : option (string * string) :=
  v ← header req "authorization";
  rest ← strip_prefix (as_bytes "Basic ") (as_bytes v);
  decoded ← base64_decode (trim rest);
  if valid_utf8 decoded then
    '(u, p) ← split_once COLON decoded; Some (string_of_list_byte u, string_of_list_byte p)
  else None.

(** ** Percent-encoding *)

(** [u8::from_str_radix(s, 16)] of a text of two bytes: a plus sign is allowed. *)
Definition hex_pair (a b : byte) : option byte :=
  if bool_decide (a = x2b) then byte_of_N <$> hex_value b
  else h ← hex_value a; l ← hex_value b; Some (byte_of_N (16 * h + l)).

Definition is_continuation (b : byte) : bool := in_range 128 191 b.

(** The loop of [url_decode]; [None] is the panic of [&s[i + 1..i + 3]] when byte
    [i + 3] is inside a character. *)
Fixpoint url_decode_loop (s : bytes) : option bytes :=
  match s with
  | [] => Some []
  | c :: rest =>
      if bool_decide (c = x25) then
        match rest with
        | a :: b :: rest' =>
            if match rest' with d :: _ => is_continuation d | [] => false end then None
            else match hex_pair a b with
                 | Some v => cons v <$> url_decode_loop rest'
                 | None => cons c <$> url_decode_loop rest
                 end
        | _ => cons c <$> url_decode_loop rest
        end
      else if bool_decide (c = x2b) then cons x20 <$> url_decode_loop rest
      else cons c <$> url_decode_loop rest
  end.

Definition url_decode (s : bytes) : option string :=
  (λ o, string_of_list_byte (from_utf8_lossy o)) <$> url_decode_loop s.

(** One pair of a query string or form. *)
Definition decode_pair (pair : bytes) : option (string * string) :=
  match split_once x3d pair with
  | Some (k, v) => k ← url_decode k; v ← url_decode v; Some (k, v)
  | None => k ← url_decode pair; Some (k, "")
  end.

Fixpoint insert_pairs (pairs : list bytes) (m : gmap string string) : option (gmap string string) :=
  match pairs with
  | [] => Some m
  | p :: pairs => '(k, v) ← decode_pair p; insert_pairs pairs (<[k := v]> m)
  end.

Definition split_target (target : bytes) : option (string * gmap string string) :=
  match split_once x3f target with
  | Some (path, qs) =>
      query ← insert_pairs (split_on x26 qs) ∅; Some (string_of_list_byte path, query)
  | None => Some (string_of_list_byte target, ∅)
  end.

Definition form (req : Request) : option (gmap string string) :=
  insert_pairs (filter (λ p, p ≠ []) (split_on x26 (from_utf8_lossy (rq_body req)))) ∅.

(** ** Responses *)

Record Response := mkResponse {
  rs_status : N;
  rs_reason : string;
  rs_content_type : string;
  rs_body : bytes;
  rs_extra_headers : list (string * string);
}.

Definition response_new (status : N) (reason content_type : string) (body : bytes) : Response :=
  {| rs_status := status; rs_reason := reason; rs_content_type := content_type; rs_body := body;
     rs_extra_headers := [] |}.

(** The value arrives printed. *)
Definition response_json (value : bytes) : Response := response_new 200 "OK" "application/json" value.

Definition response_text (status : N) (reason body : string) : Response :=
  response_new status reason "text/plain; charset=utf-8" (as_bytes body).

Definition with_header (k v : string) (r : Response) : Response :=
  {| rs_status := rs_status r; rs_reason := rs_reason r; rs_content_type := rs_content_type r;
     rs_body := rs_body r; rs_extra_headers := rs_extra_headers r ++ [(k, v)] |}.

Definition CRLF : bytes := [CR; NL].

(** The bytes [write_response] sends, in order. *)
Definition write_response (r : Response) : bytes :=
  as_bytes "HTTP/1.1 " ++ as_bytes (pretty (rs_status r)) ++ as_bytes " " ++ as_bytes (rs_reason r) ++ CRLF ++
  as_bytes "Content-Type: " ++ as_bytes (rs_content_type r) ++ CRLF ++
  as_bytes "Content-Length: " ++ as_bytes (pretty (lengthN (rs_body r))) ++ CRLF ++
  as_bytes "Connection: close" ++ CRLF ++
  mjoin ((λ h : string * string, as_bytes h.1 ++ as_bytes ": " ++ as_bytes h.2 ++ CRLF)
    <$> rs_extra_headers r) ++
  CRLF ++ rs_body r.

(** ** Parsing *)

Record HttpLimits := mkHttpLimits {
  max_header_bytes : N;
  max_header_count : N;
  max_body_bytes : N;
}.

Definition http_limits_default : HttpLimits := mkHttpLimits (64 * 1024) 100 (128 * 1024 * 1024).

Inductive ParseOutcome :=
| Parsed (r : Request)
| Closed
| Reject (r : Response).

(** What [read] answers after the bytes that were sent. *)
Inductive StreamEnd := AtEof | AtError.

(** How parsing can end without an outcome. *)
Inductive abort := IoError | Panic | OutOfFuel.

Inductive LineOutcome := Line (l : bytes) | Eof | TooLong.

(** With the bytes left and the budget left. *)
Fixpoint read_capped_line (data : bytes) (tail : StreamEnd) (budget : N) (buf : bytes)
    : result abort (LineOutcome * bytes * N) :=
  match data with
  | [] =>
      match tail with
      | AtError => Err IoError
      | AtEof => Ok (match buf with [] => Eof | _ => Line (from_utf8_lossy buf) end, [], budget)
      end
  | byte :: data =>
      if budget =? 0 then Ok (TooLong, data, budget)
      else if bool_decide (byte = NL) then Ok (Line (from_utf8_lossy buf), data, budget - 1)
      else read_capped_line data tail (budget - 1) (buf ++ [byte])
  end.

Definition headers_too_large : Response :=
  response_text 431 "Request Header Fields Too Large" "headers too large".

Definition bad_request (msg : string) : Response := response_text 400 "Bad Request" msg.

(** [k.trim().to_ascii_lowercase()]. *)
Definition header_name (k : bytes) : string := string_of_list_byte (lower_byte <$> trim k).

Definition add_header (line : bytes) (headers : gmap string string) : gmap string string :=
  match split_once COLON line with
  | Some (k, v) => <[header_name k := string_of_list_byte (trim v)]> headers
  | None => headers
  end.

(** The loop over the header lines: a rejection, or the headers and what is left. *)
Fixpoint header_loop (fuel : nat) (limits : HttpLimits) (data : bytes) (tail : StreamEnd) (budget count : N)
    (headers : gmap string string) : result abort (Response + gmap string string * bytes) :=
  match fuel with
  | O => Err OutOfFuel
  | S fuel =>
      '(o, data, budget) ← read_capped_line data tail budget [];
      match o with
      | Eof => Ok (inr (headers, data))
      | TooLong => Ok (inl headers_too_large)
      | Line l =>
          match trim_end l with
          | [] => Ok (inr (headers, data))
          | line =>
              let count := count + 1 in
              if max_header_count limits <? count then Ok (inl headers_too_large)
              else header_loop fuel limits data tail budget count (add_header line headers)
          end
      end
  end.

Definition chunked (headers : gmap string string) : bool :=
  match headers !! "transfer-encoding" with
  | Some te => contains_text (lower_byte <$> as_bytes te) (as_bytes "chunked")
  | None => false
  end.

Definition content_length (headers : gmap string string) : N :=
  default 0 (v ← headers !! "content-length"; parse_u64 (as_bytes v)).

(** The body, after the headers. *)
Definition read_body (limits : HttpLimits) (method path : string) (query headers : gmap string string)
    (data : bytes) : ParseOutcome :=
  let n := content_length headers in
  if chunked headers then Reject (bad_request "chunked transfer-encoding is not supported")
  else if max_body_bytes limits <? n
  then Reject (response_text 413 "Payload Too Large" "request body exceeds the configured limit")
  else if (lengthN data <? n)%N then Closed
  else Parsed {| rq_method := method; rq_path := path; rq_query := query; rq_headers := headers;
                 rq_body := take (N.to_nat n) data; rq_peer_ip := "" |}.

Definition parse_request (limits : HttpLimits) (data : bytes) (tail : StreamEnd) : result abort ParseOutcome :=
  '(o, data, budget) ← read_capped_line data tail (max_header_bytes limits) [];
  match o with
  | Eof => Ok Closed
  | TooLong => Ok (Reject headers_too_large)
  | Line request_line =>
      match split_whitespace request_line with
      | method :: raw_target :: _ =>
          '(path, query) ← ok_or Panic (split_target raw_target);
          h ← header_loop (S (length data)) limits data tail budget 0 ∅;
          match h with
          | inl r => Ok (Reject r)
          | inr (headers, data) =>
              Ok (read_body limits (string_of_list_byte method) path query headers data)
          end
      | _ => Ok (Reject (bad_request "malformed request line"))
      end
  end.

(** ** Percent-encoding any bytes *)

Definition hex_digit (n : N) : byte := byte_of_N (if n <? 10 then 48 + n else 87 + n).
Definition percent (b : byte) : bytes := [x25; hex_digit (Byte.to_N b / 16); hex_digit (Byte.to_N b mod 16)].
Definition percent_encode (l : bytes) : bytes := l ≫= percent.

Lemma percent_pair b : hex_pair (hex_digit (Byte.to_N b / 16)) (hex_digit (Byte.to_N b mod 16)) = Some b.
Proof. by destruct b. Qed.

(** What is percent-encoded is decoded to itself, and never panics. *)
Lemma url_decode_percent l : url_decode_loop (percent_encode l) = Some l.
Proof.
  induction l as [|b l IH]; [done|]. change (percent_encode (b :: l)) with (percent b ++ percent_encode l).
  unfold percent. cbn [app url_decode_loop]. rewrite bool_decide_eq_true_2 by done.
  assert (match percent_encode l with d :: _ => is_continuation d | [] => false end = false) as -> by by destruct l.
  by rewrite percent_pair, IH.
Qed.

Lemma percent_ascii l : Forall (λ b, Byte.to_N b < 128 ∧ b ≠ x26 ∧ b ≠ x3d) (percent_encode l).
Proof.
  induction l as [|b l IH]; [constructor|]. change (percent_encode (b :: l)) with (percent b ++ percent_encode l).
  apply Forall_app. split; [|done]. repeat constructor; by destruct b.
Qed.

Lemma split_on_none c s : c ∉ s → split_on c s = [s].
Proof.
  induction s as [|b s IH]; intros Hn; [done|]. apply not_elem_of_cons in Hn as [Hb Hn]. cbn [split_on].
  rewrite IH by done. by rewrite bool_decide_eq_false_2 by congruence.
Qed.

(** A form of one field, its value percent-encoded. *)
Lemma form_field req (name : string) l :
  rq_body req = as_bytes name ++ x3d :: percent_encode l → visible_text (as_bytes name) →
  Forall (λ b, b ∉ [x25; x26; x2b; x3d]) (as_bytes name) → valid_utf8 l = true →
  form req = Some {[ name := string_of_list_byte l ]}.
Proof.
  intros Hb [Hne Hv] Hn Hl. unfold form. rewrite Hb.
  assert (x26 ∉ as_bytes name ++ x3d :: percent_encode l) as Hamp.
  { rewrite elem_of_app, elem_of_cons. intros [H|[H|H]]; [|done|].
    - rewrite Forall_forall in Hn. apply (Hn _ H). by right; left.
    - pose proof (percent_ascii l) as F. rewrite Forall_forall in F. by destruct (F _ H) as (_ & ? & _). }
  rewrite from_utf8_lossy_valid.
  2:{ apply valid_utf8_ascii, Forall_app. split; [by apply visible_ascii|]. constructor; [done|].
      eapply Forall_impl; [apply percent_ascii|]. by intros b []. }
  rewrite split_on_none by done. rewrite filter_cons_True by (by destruct (as_bytes name)). cbn [insert_pairs].
  unfold decode_pair. rewrite split_once_printed.
  2:{ intros H. rewrite Forall_forall in Hn. apply (Hn _ H). by do 3 right; left. }
  assert (url_decode (as_bytes name) = Some name) as ->.
  { unfold url_decode. assert (url_decode_loop (as_bytes name) = Some (as_bytes name)) as ->.
    { clear -Hn. induction Hn as [|b s Hb _ IH]; [done|]. rewrite !not_elem_of_cons in Hb. destruct Hb as (H1 & H2 & H3 & H4 & _).
      cbn [url_decode_loop]. by rewrite !bool_decide_eq_false_2, IH by done. }
    cbn [fmap option_fmap option_map]. rewrite from_utf8_lossy_valid by (by apply valid_utf8_ascii, visible_ascii).
    unfold as_bytes. by rewrite string_of_list_byte_of_string. }
  unfold url_decode. rewrite url_decode_percent. cbn [fmap option_fmap option_map mbind option_bind].
  by rewrite from_utf8_lossy_valid.
Qed.

Example url_decode_plus : url_decode (as_bytes "a%20b+c%2") = Some "a b c%2".
Proof. vm_refl. Qed.

(** An escape that ends inside a character: the server panics on it, before any
    authentication. *)
Example split_escape_panics :
  parse_request http_limits_default (as_bytes "GET /?%a" ++ [xc3; xa9] ++ as_bytes " HTTP/1.1" ++ CRLF ++ CRLF) AtEof
  = Err Panic.
Proof. vm_refl. Qed.

(** ** Termination and the bytes that are read *)

Lemma read_capped_line_consumes data tail budget buf o rest b :
  read_capped_line data tail budget buf = Ok (o, rest, b) →
  match o with
  | Line _ => ∃ used, data = used ++ rest ∧ b + lengthN used = budget ∧ (used = [] → buf ≠ [])
  | Eof => rest = []
  | TooLong => True
  end.
Proof.
  revert budget buf. induction data as [|x data IH]; intros budget buf; simpl.
  - destruct tail; [|done]. destruct buf; intros [= <- <- <-]; [done|]. exists []. split; [done|]. split; [simpl; lia|done].
  - destruct (N.eqb_spec budget 0) as [|Hb]; [by intros [= <- <- <-]|]. case_bool_decide.
    + intros [= <- <- <-]. exists [x]. split; [done|]. split; [simpl; lia|done].
    + intros E. specialize (IH _ _ E). destruct o; [|done..]. destruct IH as (used & -> & Hl & _).
      exists (x :: used). split; [done|]. split; [simpl; lia|done].
Qed.

Lemma read_capped_line_err data tail budget buf e :
  read_capped_line data tail budget buf = Err e → e = IoError.
Proof.
  revert budget buf. induction data as [|x data IH]; intros budget buf; simpl.
  - destruct tail; [done|]. by intros [= <-].
  - destruct (budget =? 0); [done|]. case_bool_decide; [done|]. apply IH.
Qed.

Lemma line_shorter data tail budget l rest b :
  read_capped_line data tail budget [] = Ok (Line l, rest, b) → (length rest < length data)%nat.
Proof.
  intros E. apply read_capped_line_consumes in E as (used & -> & _ & Hne).
  destruct used; [by destruct (Hne eq_refl)|]. rewrite length_app. simpl. lia.
Qed.

(** Every header line shortens the data, so fuel above its length is never used
    up, and more of it changes nothing. *)
Lemma header_loop_fuel f1 f2 limits data tail budget count headers :
  (length data < f1)%nat → (length data < f2)%nat →
  header_loop f1 limits data tail budget count headers = header_loop f2 limits data tail budget count headers.
Proof.
  revert f2 data budget count headers. induction f1 as [|f1 IH]; intros [|f2] data budget count headers H1 H2;
    [lia..|]. cbn [header_loop]. destruct (read_capped_line data tail budget []) as [[[o rest] b]|e] eqn:E; [|done].
  cbn [mbind result_mbind]. destruct o as [l| |]; [|done..]. apply line_shorter in E.
  destruct (trim_end l); [done|]. destruct (_ <? _); [done|]. apply IH; lia.
Qed.

Lemma header_loop_terminates f limits data tail budget count headers :
  (length data < f)%nat → header_loop f limits data tail budget count headers ≠ Err OutOfFuel.
Proof.
  revert data budget count headers. induction f as [|f IH]; intros data budget count headers H; [lia|].
  cbn [header_loop]. destruct (read_capped_line data tail budget []) as [[[o rest] b]|e] eqn:E.
  - cbn [mbind result_mbind]. destruct o as [l| |]; [|done..]. apply line_shorter in E.
    destruct (trim_end l); [done|]. destruct (_ <? _); [done|]. apply IH; lia.
  - by apply read_capped_line_err in E as ->.
Qed.

(** A line is decided by the first [budget + 1] bytes. *)
Lemma read_capped_line_prefix data tail tail' budget buf extra :
  budget < lengthN data →
  ∃ o rest b, read_capped_line data tail budget buf = Ok (o, rest, b) ∧ o ≠ Eof ∧
    read_capped_line (data ++ extra) tail' budget buf = Ok (o, rest ++ extra, b).
Proof.
  revert budget buf. induction data as [|x data IH]; intros budget buf H; simpl in *; [lia|].
  destruct (N.eqb_spec budget 0) as [|Hb]; [by do 3 eexists|].
  case_bool_decide; [by do 3 eexists|]. apply IH. lia.
Qed.

Lemma header_loop_prefix f limits data tail tail' budget count headers extra :
  budget < lengthN data → (length (data ++ extra) < f)%nat →
  ∃ r, header_loop f limits data tail budget count headers = Ok r ∧
    header_loop f limits (data ++ extra) tail' budget count headers =
      Ok (match r with inl r => inl r | inr (h, rest) => inr (h, rest ++ extra) end) ∧
    match r with inl _ => True | inr (_, rest) => lengthN data ≤ budget + lengthN rest end.
Proof.
  revert data budget count headers. induction f as [|f IH]; intros data budget count headers H Hf; [lia|].
  cbn [header_loop].
  destruct (read_capped_line_prefix data tail tail' budget [] extra H) as (o & rest & b & E & Hne & E').
  rewrite E, E'. cbn [mbind result_mbind]. apply read_capped_line_consumes in E.
  destruct o as [l| |]; [|done|by eexists (inl _)]. destruct E as (used & -> & Hb & Hu).
  autorewrite with secgit in *. destruct (trim_end l).
  - eexists (inr (_, _)). split; [done|]. split; [done|]. lia.
  - destruct (_ <? _); [by eexists (inl _)|]. destruct used; [by destruct (Hu eq_refl)|]. simpl in *.
    destruct (IH rest b (count + 1) (add_header (b0 :: l0) headers)) as (r & E1 & E2 & E3);
      [lia|len_lia|]. exists r. split; [done|]. split; [done|]. destruct r as [|[]]; [done|]. lia.
Qed.

Lemma read_body_prefix limits method path query headers data extra :
  max_body_bytes limits ≤ lengthN data →
  read_body limits method path query headers (data ++ extra) = read_body limits method path query headers data.
Proof.
  intros H. unfold read_body. destruct (chunked headers); [done|].
  destruct (N.ltb_spec (max_body_bytes limits) (content_length headers)); [done|].
  rewrite length_app. destruct (N.ltb_spec (lengthN data) (content_length headers)); [lia|].
  destruct (N.ltb_spec (N.of_nat (length data + length extra)) (content_length headers)); [lia|].
  by rewrite take_app_le by lia.
Qed.

(** ** Reading what was printed *)

Lemma read_line_printed l rest tail budget buf :
  NL ∉ l → lengthN l < budget →
  read_capped_line (l ++ NL :: rest) tail budget buf =
    Ok (Line (from_utf8_lossy (buf ++ l)), rest, budget - lengthN l - 1).
Proof.
  revert budget buf. induction l as [|x l IH]; intros budget buf Hn Hb; simpl in *.
  - destruct (N.eqb_spec budget 0); [lia|]. rewrite app_nil_r. do 2 f_equal. lia.
  - apply not_elem_of_cons in Hn as [Hx Hn]. destruct (N.eqb_spec budget 0); [lia|].
    rewrite bool_decide_eq_false_2 by congruence. rewrite IH by (done || lia).
    rewrite <-app_assoc. do 2 f_equal. lia.
Qed.

Lemma split_request_line m t rest :
  visible_text m → visible_text t → take 2 (split_whitespace (m ++ x20 :: t ++ x20 :: rest)) = [m; t].
Proof.
  intros [Hm Fm] [Ht Ft]. unfold split_whitespace.
  replace (length (m ++ x20 :: t ++ x20 :: rest)) with (length m + S (length t + S (length rest)))%nat
    by (rewrite length_app; simpl; rewrite length_app; simpl; lia).
  rewrite split_ws_word by done. cbn [split_ws_fuel ws_prefix]. simpl.
  rewrite drop_0, split_ws_word by done. simpl. by destruct m, t.
Qed.

Lemma trim_end_cr l c : visible c → last l = Some c → trim_end (l ++ [CR]) = l.
Proof.
  intros Hc Hl. unfold trim_end. rewrite reverse_snoc, length_app, Nat.add_1_r. cbn [trim_fuel].
  assert (ws_prefix (reverse <$> whitespace) (CR :: reverse l) = Some 1%nat) as -> by reflexivity.
  cbn [drop]. rewrite drop_0, trim_fuel_id; [by rewrite reverse_involutive|].
  apply last_Some in Hl as [k ->]. rewrite reverse_snoc.
  apply ws_prefix_None. intros w. by apply visible_not_ws_rev.
Qed.

(** A header that survives being printed: its name is visible and has no colon,
    its value starts and ends visibly and stays on one line. *)
Definition header_ok (h : bytes * bytes) : Prop :=
  (visible_text h.1 ∧ (COLON ∉ h.1)) ∧
  ascii_text h.2 ∧ (NL ∉ h.2) ∧ ∃ b c, visible b ∧ visible c ∧ head h.2 = Some b ∧ last h.2 = Some c.

Definition print_header (h : bytes * bytes) : bytes := h.1 ++ COLON :: x20 :: h.2 ++ CRLF.

Definition headers_of (hs : list (bytes * bytes)) (m : gmap string string) : gmap string string :=
  fold_left (λ m h, <[string_of_list_byte (lower_byte <$> h.1) := string_of_list_byte h.2]> m) hs m.

Lemma trim_sp v b c : visible b → visible c → head v = Some b → last v = Some c → trim (x20 :: v) = v.
Proof.
  intros Hb Hc Hh Hl. unfold trim, trim_start. cbn [length trim_fuel].
  assert (ws_prefix whitespace (x20 :: v) = Some 1%nat) as -> by reflexivity.
  cbn [drop]. rewrite drop_0. exact (trim_visible b v c Hb Hc Hh Hl).
Qed.

Lemma add_printed_header h m :
  header_ok h → add_header (h.1 ++ COLON :: x20 :: h.2) m = headers_of [h] m.
Proof.
  intros [[Hk Hc] (_ & _ & b & c & Hb & Hc' & Hh & Hl)]. unfold add_header.
  rewrite split_once_printed by done. unfold header_name.
  by rewrite trim_word, (trim_sp _ b c) by done.
Qed.

Lemma header_line_text h :
  header_ok h → ascii_text (h.1 ++ COLON :: x20 :: h.2 ++ [CR]) ∧ (NL ∉ h.1 ++ COLON :: x20 :: h.2 ++ [CR]) ∧
  trim_end (h.1 ++ COLON :: x20 :: h.2 ++ [CR]) = h.1 ++ COLON :: x20 :: h.2.
Proof.
  intros [[[_ Hk] _] (Ha & Hn & b & c & Hb & Hc & Hh & Hl)]. split; [|split].
  - apply Forall_app. split; [by apply visible_ascii|]. repeat constructor; try done.
    apply Forall_app. split; [done|]. by repeat constructor.
  - rewrite !elem_of_app, !elem_of_cons, elem_of_app, list_elem_of_singleton.
    pose proof (visible_not NL _ ltac:(unfold visible; vm_compute; intuition discriminate) Hk).
    intuition discriminate.
  - replace (h.1 ++ COLON :: x20 :: h.2 ++ [CR]) with ((h.1 ++ COLON :: x20 :: h.2) ++ [CR])
      by by rewrite <-app_assoc.
    apply (trim_end_cr _ c); [done|]. change (COLON :: x20 :: h.2) with ([COLON; x20] ++ h.2).
    by rewrite !last_app, Hl.
Qed.

Lemma header_loop_printed f limits hs rest tail budget count m :
  Forall header_ok hs → (length hs < f)%nat →
  lengthN (mjoin (print_header <$> hs)) + 2 ≤ budget → count + lengthN hs ≤ max_header_count limits →
  header_loop f limits (mjoin (print_header <$> hs) ++ CRLF ++ rest) tail budget count m =
    Ok (inr (headers_of hs m, rest)).
Proof.
  revert f budget count m. induction hs as [|h hs IH]; intros [|f] budget count m F Hf Hb Hc;
    [simpl in *; lia| |simpl in *; lia|].
  - cbn [header_loop fmap list_fmap mjoin list_join app CRLF].
    rewrite (read_line_printed [CR] rest) by (vm_decide || (simpl in *; lia)). done.
  - apply Forall_cons in F as [Hh F]. destruct (header_line_text h Hh) as (Ha & Hn & Ht).
    cbn [header_loop].
    change (mjoin (print_header <$> h :: hs)) with (print_header h ++ mjoin (print_header <$> hs)) in *.
    set (l := h.1 ++ COLON :: x20 :: h.2 ++ [CR]) in *.
    assert (print_header h = l ++ [NL]) as El.
    { unfold print_header, l, CRLF. rewrite <-app_assoc. simpl. by rewrite <-app_assoc. }
    rewrite El in Hb |- *. rewrite <-!app_assoc. cbn [app] in *.
    autorewrite with secgit in Hb. cbn [length] in *.
    rewrite read_line_printed by (done || lia). cbn [mbind result_mbind app].
    rewrite from_utf8_lossy_valid by by apply valid_utf8_ascii. rewrite Ht.
    destruct (h.1 ++ COLON :: x20 :: h.2) as [|x line] eqn:El'; [by destruct h.1|]. rewrite <-El'.
    destruct (N.ltb_spec (max_header_count limits) (count + 1)); [lia|].
    rewrite add_printed_header by done. rewrite IH; [done|done|lia..].
Qed.

(** The text of a request, as a client sends it. *)
Definition print_request (method target : bytes) (hs : list (bytes * bytes)) (body : bytes) : bytes :=
  method ++ x20 :: target ++ x20 :: as_bytes "HTTP/1.1" ++ CRLF ++
  mjoin (print_header <$> hs) ++ CRLF ++ body.

(** C31. Parsing always ends, and the answer is decided by the first
    [max_header_bytes + 1 + max_body_bytes] bytes: whatever a peer sends after
    them, and however its stream ends, changes nothing. *)
Theorem parse_request_bounded (limits : HttpLimits) (data : bytes) (tail : StreamEnd) :
  parse_request limits data tail ≠ Err OutOfFuel ∧
  (max_header_bytes limits + 1 + max_body_bytes limits ≤ lengthN data →
   ∀ extra tail', parse_request limits (data ++ extra) tail' = parse_request limits data tail).
Proof.
  split.
  - unfold parse_request. destruct (read_capped_line _ _ _ _) as [[[o rest] b]|e] eqn:E.
    + cbn [mbind result_mbind]. destruct o as [l| |]; [|done..].
      destruct (split_whitespace l) as [|m [|t ?]]; [done..|]. destruct (split_target t) as [[path query]|]; [|done].
      cbn [ok_or mbind result_mbind].
      pose proof (header_loop_terminates (S (length rest)) limits rest tail b 0 ∅ ltac:(lia)) as H.
      destruct (header_loop _ _ _ _ _ _ _) as [[r|[h d]]|e]; [done..|]. simpl. congruence.
    + by apply read_capped_line_err in E as ->.
  - intros H extra tail'. unfold parse_request.
    destruct (read_capped_line_prefix data tail tail' (max_header_bytes limits) [] extra ltac:(lia))
      as (o & rest & b & E & Hne & E').
    rewrite E, E'. cbn [mbind result_mbind]. apply read_capped_line_consumes in E.
    destruct o as [l| |]; [|done..]. destruct E as (used & -> & Hb & _). rewrite length_app in H.
    destruct (split_whitespace l) as [|m [|t ?]]; [done..|]. destruct (split_target t) as [[path query]|]; [|done].
    cbn [ok_or mbind result_mbind].
    destruct (header_loop_prefix (S (length (rest ++ extra))) limits rest tail tail' b 0 ∅ extra) as (r & E1 & E2 & E3);
      [lia|lia|]. rewrite E2, (header_loop_fuel _ (S (length (rest ++ extra)))) by len_lia.
    rewrite E1. cbn [mbind result_mbind]. destruct r as [r|[h d]]; [done|]. by rewrite read_body_prefix by lia.
Qed.

Lemma length_headers hs : Forall header_ok hs → (length hs ≤ length (mjoin (print_header <$> hs)))%nat.
Proof.
  induction 1 as [|h hs _ _ IH]; [done|].
  change (mjoin (print_header <$> h :: hs)) with (print_header h ++ mjoin (print_header <$> hs)).
  unfold print_header at 1. rewrite !length_app. cbn [length]. lia.
Qed.

(** A request that is printed and sent parses back to itself. *)
Lemma parse_request_printed (limits : HttpLimits) (method target : bytes) (hs : list (bytes * bytes))
    (body extra : bytes) (tail : StreamEnd) (path : string) (query : gmap string string) :
  let headers := headers_of hs ∅ in
  visible_text method → visible_text target → Forall header_ok hs →
  split_target target = Some (path, query) →
  chunked headers = false → content_length headers = lengthN body →
  lengthN (print_request method target hs []) ≤ max_header_bytes limits →
  lengthN hs ≤ max_header_count limits → lengthN body ≤ max_body_bytes limits →
  parse_request limits (print_request method target hs body ++ extra) tail =
    Ok (Parsed {| rq_method := string_of_list_byte method; rq_path := path; rq_query := query;
                  rq_headers := headers; rq_body := body; rq_peer_ip := "" |}).
Proof.
  intros headers Hm Ht Hh Hs Hch Hcl L1 L2 L3. unfold parse_request, print_request in *.
  set (line := method ++ x20 :: target ++ x20 :: as_bytes "HTTP/1.1" ++ [CR]).
  set (text := mjoin (print_header <$> hs)) in *.
  assert (∀ k, method ++ x20 :: target ++ x20 :: as_bytes "HTTP/1.1" ++ CRLF ++ k = line ++ NL :: k) as El.
  { intros k. unfold line, CRLF. rewrite <-app_assoc. simpl. rewrite <-app_assoc. done. }
  rewrite El in L1 |- *. autorewrite with secgit in L1. cbn [length] in L1. autorewrite with secgit in L1.
  rewrite <-app_assoc. cbn [app].
  destruct Hm as [Hm Fm], Ht as [Ht Ft].
  assert (ascii_text line ∧ (NL ∉ line)) as [Ha Hn].
  { split.
    - apply Forall_app. split; [by apply visible_ascii|]. constructor; [done|]. apply Forall_app.
      split; [by apply visible_ascii|]. by repeat constructor.
    - assert (¬ visible NL) as Hv by (unfold visible; vm_compute; intuition discriminate).
      pose proof (visible_not _ _ Hv Fm). pose proof (visible_not _ _ Hv Ft). unfold line.
      rewrite elem_of_app, elem_of_cons, elem_of_app. intros [?|[?|[?|Hin]]]; [done..|].
      revert Hin. vm_decide. }
  rewrite read_line_printed by (done || (simpl in L1; lia)). cbn [mbind result_mbind app].
  rewrite from_utf8_lossy_valid by by apply valid_utf8_ascii.
  pose proof (split_request_line method target (as_bytes "HTTP/1.1" ++ [CR]) (conj Hm Fm) (conj Ht Ft)) as Hw.
  fold line in Hw. destruct (split_whitespace line) as [|m [|t ws]]; [done..|]. injection Hw as -> ->.
  rewrite Hs. cbn [ok_or mbind result_mbind]. rewrite <-!app_assoc.
  pose proof (length_headers hs Hh) as Hlh. fold text in Hlh.
  unfold text. rewrite header_loop_printed; [|done|unfold text in *; len_lia| |lia].
  2:{ fold text. change (length CRLF) with 2%nat in L1. cbn [length] in L1. lia. }
  cbn [mbind result_mbind]. fold headers. f_equal. unfold read_body. rewrite Hch, Hcl.
  destruct (N.ltb_spec (max_body_bytes limits) (lengthN body)); [lia|].
  rewrite length_app. destruct (N.ltb_spec (N.of_nat (length body + length extra)) (lengthN body)); [lia|].
  rewrite Nnat.Nat2N.id, take_app_length. done.
Qed.

Section witnesses.
Definition toy_limits : HttpLimits := mkHttpLimits 80 4 8.
Definition toy_headers : list (bytes * bytes) :=
  [(as_bytes "Host", as_bytes "h"); (as_bytes "Content-Length", as_bytes "3")].

Lemma toy_header_ok k v :
  forallb (λ b, (32 <? Byte.to_N b) && (Byte.to_N b <? 128)) (k ++ v) = true →
  k ≠ [] → v ≠ [] → COLON ∉ k → header_ok (k, v).
Proof.
  intros F Hk Hv Hc.
  assert (Forall visible (k ++ v)) as [Fk Fv]%Forall_app.
  { apply Forall_forall. intros b Hb%list_elem_of_In. rewrite forallb_forall in F.
    specialize (F b Hb). apply andb_true_iff in F as [F1%N.ltb_lt F2%N.ltb_lt]. by split. }
  split; [done|]. simpl. split; [by apply visible_ascii|].
  split; [apply visible_not; [unfold visible; vm_compute; intuition discriminate|done]|].
  destruct (last v) as [c|] eqn:El; [|by apply last_None in El]. destruct v as [|b v]; [done|].
  exists b, c. rewrite Forall_forall in Fv. split; [apply Fv; by left|]. split; [|done].
  apply Fv. apply last_Some in El as [l ->]. apply elem_of_app. right. by left.
Qed.

(** A request whose target is decoded. *)
Lemma parse_request_printed_run :
  parse_request toy_limits (print_request (as_bytes "GET") (as_bytes "/a?b=%41") toy_headers (as_bytes "xyz") ++ [x21])
    AtError
  = Ok (Parsed {| rq_method := "GET"; rq_path := "/a"; rq_query := {["b" := "A"]};
                  rq_headers := headers_of toy_headers ∅; rq_body := as_bytes "xyz"; rq_peer_ip := "" |}).
Proof.
  apply (parse_request_printed toy_limits (as_bytes "GET") (as_bytes "/a?b=%41") toy_headers (as_bytes "xyz"));
    try vm_refl; try (vm_compute; discriminate).
  - split; [done|]. by repeat constructor.
  - split; [done|]. by repeat constructor.
  - repeat constructor; apply toy_header_ok; (vm_refl || vm_decide || discriminate).
Qed.

Lemma parse_request_bounded_witness :
  parse_request (mkHttpLimits 4 1 1) (as_bytes "GET / HTTP/1.1" ++ [x0a]) AtError = Ok (Reject headers_too_large).
Proof.
  destruct (parse_request_bounded (mkHttpLimits 4 1 1) (as_bytes "GET / H") AtEof) as [_ P].
  pose proof (P ltac:(vm_compute; discriminate) (as_bytes "TTP/1.1" ++ [x0a]) AtError) as E.
  etransitivity; [exact E|]. vm_refl.
Defined.
End witnesses.
