(* ===== verification/Authz.v ===== *)
(** [bins/secgit-server/src/authz.rs]: who a request comes from, and whether it
    may read or write a repo. *)

From S2P Require Import Prelude Text Backend Toy Primitives Identity Auth Http.

(** ** Access control *)

Inductive Decision :=
| Allow (user : string)
| RepoNotFound
| Unauthenticated
| Forbidden.

Definition required_role (write : bool) : Role := if write then Write else Read.

(** The instants at which the clock is read: by the sweep and by the check of
    each of the two [validate] calls. *)
Record clock := mkClock { k1 : N; k2 : N; k3 : N; k4 : N }.
Definition clock_ok (k : clock) : Prop := k1 k ≤ k2 k ∧ k2 k ≤ k3 k ∧ k3 k ≤ k4 k.

Section authz.
Context `{RND : SystemRandom} `{DIG : Digests} `{HX : Hex} `{PB : Pbkdf2}.

Record ServerIdentity := mkIdentity {
  si_dir : Directory;
  si_local : LocalAuthenticator;
  si_sessions : SessionStore;
}.

Definition with_live (st : SessionStore) (id : ServerIdentity) : ServerIdentity :=
  {| si_dir := si_dir id; si_local := si_local id; si_sessions := st |}.

(** [self.sessions.validate(&token)]. *)
Definition check_session (token : string) (t t' : N) (id : ServerIdentity) : option string * ServerIdentity :=
  let '(o, st) := session_validate token t t' (si_sessions id) in (s_user_id <$> o, with_live st id).

Definition authenticate (req : Request) (k : clock) (id : ServerIdentity) : option string * ServerIdentity :=
  let '(o, id) := match bearer_token req with
                  | Some token => check_session token (k1 k) (k2 k) id
                  | None => (None, id)
                  end in
  match o with
  | Some u => (Some u, id)
  | None =>
      match basic_auth req with
      | None => (None, id)
      | Some (user, secret) =>
          let '(o, id) := check_session secret (k3 k) (k4 k) id in
          match o with
          | Some u => (Some u, id)
          | None => (to_option (local_authenticate (si_local id) user secret), id)
          end
      end
  end.

Definition decide_identity (repo_id : string) (write : bool) (req : Request) (k : clock) (id : ServerIdentity)
    : Decision * ServerIdentity :=
  match d_repos (si_dir id) !! repo_id with
  | None => (RepoNotFound, id)
  | Some _ =>
      let '(o, id) := authenticate req k id in
      match o with
      | None => (Unauthenticated, id)
      | Some user =>
          if can (si_dir id) user repo_id (required_role write) then (Allow user, id) else (Forbidden, id)
      end
  end.

(** ** What the decision means *)

(** A token that identifies [u] at time [t]: a session of [u] that has not
    expired and whose second factor is satisfied. *)
Definition live (id : ServerIdentity) (token : string) (t : N) (u : string) : Prop :=
  ∃ s, ss_by_hash (si_sessions id) !! token_hash token = Some s ∧ t < s_expires_at s ∧
    s_mfa_satisfied s = true ∧ s_user_id s = u.

(** The credential of a request: a live bearer token, else a live token sent as
    the Basic secret, else a local user name and password. *)
Inductive credential (id : ServerIdentity) (req : Request) (k : clock) (u : string) : Prop :=
| cred_bearer token : bearer_token req = Some token → live id token (k2 k) u → credential id req k u
| cred_basic_token user secret :
    (∀ token v, bearer_token req = Some token → ¬ live id token (k2 k) v) →
    basic_auth req = Some (user, secret) → live id secret (k4 k) u → credential id req k u
| cred_password user secret ph :
    (∀ token v, bearer_token req = Some token → ¬ live id token (k2 k) v) →
    basic_auth req = Some (user, secret) → (∀ v, ¬ live id secret (k4 k) v) →
    si_local id !! user = Some (u, ph) → password_verify ph secret = true → credential id req k u.

Lemma live_unique id token t u v : live id token t u → live id token t v → u = v.
Proof. intros (s & H & _ & _ & <-) (s' & H' & _ & _ & <-). congruence. Qed.

Lemma check_session_live token t t' id u :
  t ≤ t' → (check_session token t t' id).1 = Some u ↔ live id token t' u.
Proof.
  intros Hle. unfold check_session, live.
  destruct (session_validate token t t' (si_sessions id)) as [o st] eqn:E. simpl.
  assert (H := session_validate_iff token t t' (si_sessions id)). rewrite E in H. simpl in H.
  rewrite fmap_Some. split.
  - intros (s & Ho & ->). apply H in Ho as (H1 & H2 & H3 & H4). eauto 10.
  - intros (s & H1 & H2 & H3 & <-). exists s. split; [|done]. apply H. split_and!; [done|lia|done|done].
Qed.

Lemma check_session_none token t t' id :
  t ≤ t' → (check_session token t t' id).1 = None ↔ ∀ v, ¬ live id token t' v.
Proof.
  intros Hle. destruct (check_session token t t' id).1 as [u|] eqn:E.
  - apply check_session_live in E; [|done]. split; [done|]. intros H. by destruct (H u).
  - split; [|done]. intros _ v Hv. apply (check_session_live token t t') in Hv; [|done]. congruence.
Qed.

(** The sweep of a validation keeps what is live later. *)
Lemma live_after token t t' id secret t'' u :
  t ≤ t'' → live (check_session token t t' id).2 secret t'' u ↔ live id secret t'' u.
Proof.
  intros Hle. unfold live, check_session, session_validate, session_gc. simpl.
  split; intros (s & H1 & H2 & H3).
  - apply map_lookup_filter_Some in H1 as [H1 _]. eauto.
  - exists s. split; [|done]. apply map_lookup_filter_Some. simpl. split; [done|lia].
Qed.

Lemma check_session_keeps token t t' id :
  si_dir (check_session token t t' id).2 = si_dir id ∧ si_local (check_session token t t' id).2 = si_local id.
Proof. unfold check_session. by destruct (session_validate _ _ _ _). Qed.

Lemma authenticate_keeps req k id : si_dir (authenticate req k id).2 = si_dir id.
Proof.
  assert (∀ token t t' id o id', check_session token t t' id = (o, id') → si_dir id' = si_dir id) as H.
  { intros token t t' id0 o id' E. destruct (check_session_keeps token t t' id0) as [H _]. by rewrite E in H. }
  unfold authenticate. destruct (bearer_token req) as [token|].
  - destruct (check_session token (k1 k) (k2 k) id) as [[u|] id1] eqn:E1; apply H in E1; [done|].
    destruct (basic_auth req) as [[user secret]|]; [|done].
    destruct (check_session secret (k3 k) (k4 k) id1) as [[v|] id2] eqn:E2; apply H in E2; simpl; congruence.
  - destruct (basic_auth req) as [[user secret]|]; [|done].
    destruct (check_session secret (k3 k) (k4 k) id) as [[v|] id2] eqn:E2; apply H in E2; simpl; congruence.
Qed.

Lemma local_authenticate_ok creds user secret u :
  to_option (local_authenticate creds user secret) = Some u ↔
  ∃ ph, creds !! user = Some (u, ph) ∧ password_verify ph secret = true.
Proof.
  unfold local_authenticate. destruct (creds !! user) as [[u' ph]|]; simpl.
  - destruct (password_verify ph secret) eqn:E; simpl; split.
    + intros [= <-]. eauto.
    + by intros (ph' & [= -> <-] & _).
    + done.
    + intros (ph' & [= -> <-] & ?). congruence.
  - split; [done|]. by intros (? & ? & _).
Qed.

Lemma authenticate_iff req k id u :
  clock_ok k → (authenticate req k id).1 = Some u ↔ credential id req k u.
Proof.
  intros (K1 & K2 & K3). unfold authenticate.
  set (first := match bearer_token req with Some _ => _ | None => _ end).
  assert (Hf : match first.1 with
               | Some v => ∃ token, bearer_token req = Some token ∧ live id token (k2 k) v
               | None => ∀ token v, bearer_token req = Some token → ¬ live id token (k2 k) v
               end ∧ (∀ s w, live first.2 s (k4 k) w ↔ live id s (k4 k) w) ∧ si_local first.2 = si_local id).
  { unfold first. destruct (bearer_token req) as [token|] eqn:Eb; [|by split_and!].
    split_and!; [|intros s w; apply live_after; lia|apply check_session_keeps].
    destruct (check_session token (k1 k) (k2 k) id).1 as [v|] eqn:Ec.
    - exists token. split; [done|]. by eapply check_session_live.
    - intros token' v [= <-]. eapply check_session_none; [|done]. done. }
  destruct first as [[v|] id1]; simpl in Hf; destruct Hf as (H1 & H2 & H3).
  - destruct H1 as (token & Eb & Hl). split.
    + intros [= <-]. by eapply cred_bearer.
    + intros [token' Eb' Hl'|? ? Hn _ _|? ? ? Hn _ _ _ _]; [|by destruct (Hn token v)..].
      rewrite Eb in Eb'. injection Eb' as <-. simpl. f_equal. by eapply live_unique.
  - destruct (basic_auth req) as [[user secret]|] eqn:Ea.
    2:{ split; [done|]. intros [token Eb Hl|? ? _ E _|? ? ? _ E _ _ _]; [by destruct (H1 token u)|congruence..]. }
    pose proof (check_session_keeps secret (k3 k) (k4 k) id1) as [_ Hk].
    destruct (check_session secret (k3 k) (k4 k) id1) as [[v|] id2] eqn:Ec; simpl in Hk; cbv beta iota; simpl.
    + assert (live id secret (k4 k) v) as Hv.
      { apply H2. apply (check_session_live secret (k3 k)); [done|]. by rewrite Ec. }
      split; [intros [= <-]; by eapply cred_basic_token|].
      intros [token Eb Hl|user' s' _ E Hl|? s' ? _ E Hn _ _]; [by destruct (H1 token u)| |].
      * rewrite Ea in E. injection E as <- <-. f_equal. by eapply live_unique.
      * rewrite Ea in E. injection E as <- <-. by destruct (Hn v).
    + assert (∀ v, ¬ live id secret (k4 k) v) as Hn.
      { intros v Hv%H2. eapply (check_session_none secret (k3 k)); [done| |exact Hv]. by rewrite Ec. }
      rewrite Hk, H3, local_authenticate_ok. split.
      * intros (ph & Hu & Hp). by eapply cred_password.
      * intros [token Eb Hl|user' s' _ E Hl|user' s' ph _ E _ Hu Hp]; [by destruct (H1 token u)| |].
        -- rewrite Ea in E. injection E as <- <-. by destruct (Hn u).
        -- rewrite Ea in E. injection E as <- <-. eauto.
Qed.

(** Access control of the git transport, exactly: with a clock that does
    not run backwards, a request is allowed as user [u] if and only if it carries
    a credential of [u] (an unexpired session with its second factor satisfied, as
    bearer token or Basic secret, or a local password) and some grant on the repo
    gives [u] at least the role the operation needs; the decision never changes
    the directory. *)
Lemma decide_identity_allows (id : ServerIdentity) (repo_id : string) (write : bool) (req : Request) (k : clock)
    (u : string) :
  clock_ok k →
  ((decide_identity repo_id write req k id).1 = Allow u ↔
   credential id req k u ∧
   ∃ repo r, d_repos (si_dir id) !! repo_id = Some repo ∧ granted (si_dir id) u repo_id repo r ∧
     role_rank (required_role write) ≤ role_rank r) ∧
  si_dir (decide_identity repo_id write req k id).2 = si_dir id.
Proof.
  intros Hk. unfold decide_identity. pose proof (authenticate_iff req k id u Hk) as Ha.
  pose proof (authenticate_keeps req k id) as Hd.
  destruct (d_repos (si_dir id) !! repo_id) as [repo|] eqn:Er; simpl.
  2:{ split; [|done]. split; [done|]. intros (_ & repo & r & H & _). congruence. }
  rewrite <-Er, <-can_iff_granted, <-Ha.
  destruct (authenticate req k id) as [[v|] id1]; simpl in *.
  - rewrite Hd. destruct (can (si_dir id) v repo_id (required_role write)) eqn:Ec; simpl; (split; [|done]); split.
    + by intros [= <-].
    + by intros [[= <-] _].
    + done.
    + intros [[= <-] ?]. congruence.
  - split; [|done]. split; [done|]. by intros [? _].
Qed.
End authz.

(** ** A run *)

Section witnesses.
#[local] Existing Instance toy_rng.
#[local] Existing Instance toy_digests.
#[local] Existing Instance toy_hmacs.
#[local] Existing Instance toy_hex.
#[local] Existing Instance toy_pbkdf2.

(** Bob logs in with a session that has passed its second factor. *)
Definition toy_login := session_create "bob" true 100 (sessions_new 50, 9 : @rng toy_rng).
Definition toy_bearer : string := match toy_login.1 with Ok t => t | Err _ => "" end.
Definition toy_identity : ServerIdentity :=
  {| si_dir := toy_dir; si_local := ∅; si_sessions := toy_login.2.1 |}.
Definition toy_request (authorization : string) : Request :=
  mkRequestHttp "GET" "/w" ∅ {[ "authorization" := authorization ]} [] "1.2.3.4".
Definition toy_clock : clock := mkClock 120 120 121 121.

Lemma bob_may_push :
  credential toy_identity (toy_request ("Bearer " +:+ toy_bearer)) toy_clock "bob" ∧
  (decide_identity "w" true (toy_request ("Bearer " +:+ toy_bearer)) toy_clock toy_identity).1 = Allow "bob".
Proof.
  assert ((decide_identity "w" true (toy_request ("Bearer " +:+ toy_bearer)) toy_clock toy_identity).1 = Allow "bob")
    as H by vm_refl.
  split; [|exact H].
  apply (decide_identity_allows toy_identity "w" true (toy_request ("Bearer " +:+ toy_bearer)) toy_clock "bob")
    in H; [apply H|]. repeat split; vm_compute; done.
Defined.

(** A local password is a credential of its own: no second factor is asked for,
    although a session of the same user without one is refused. *)
Definition toy_registered := local_register "bob" "bob" "pw" (∅, 3 : @rng toy_rng).
Definition toy_pw_identity : ServerIdentity :=
  {| si_dir := toy_dir; si_local := toy_registered.2.1;
     si_sessions := (session_create "bob" false 100 (sessions_new 50, 9 : @rng toy_rng)).2.1 |}.

Example password_needs_no_second_factor :
  (decide_identity "w" true (toy_request ("Bearer " +:+ toy_bearer)) toy_clock toy_pw_identity).1 = Unauthenticated ∧
  (decide_identity "w" true (toy_request "Basic Ym9iOnB3") toy_clock toy_pw_identity).1 = Allow "bob".
Proof. split; vm_refl. Qed.
End witnesses.
