(* ===== verification/Ssh.v ===== *)
(** [bins/secgit-server/src/ssh.rs]: git over SSH.  Which user a public key is for, which
    repository a command names, and whether the one may use the other; and what the two
    transports together let whom do. *)

From S2P Require Import Prelude Text Backend Toy Primitives Identity Auth Http Authz Git.

Section ssh.
Context `{RND : SystemRandom} `{DIG : Digests} `{HX : Hex} `{PB : Pbkdf2}.

(** ** The authorized keys *)

Definition AuthorizedKeys : Type := gmap string string.

Fixpoint join_blank (l : list bytes) : bytes :=
  match l with
  | [] => []
  | [w] => w
  | w :: l => w ++ x20 :: join_blank l
  end.
(** The type and the blob of a key line, without its comment. *)
Definition normalized (openssh_pubkey : string) : bytes := join_blank (take 2 (split_whitespace (as_bytes openssh_pubkey))).
Definition fingerprint (openssh_pubkey : string) : string := hex_encode (sha256 (normalized openssh_pubkey)).

Definition keys_new : AuthorizedKeys := ∅.
Definition keys_add (user_id openssh_pubkey : string) (k : AuthorizedKeys) : AuthorizedKeys := <[fingerprint openssh_pubkey := user_id]> k.
Definition user_for (k : AuthorizedKeys) (openssh_pubkey : string) : option string := k !! fingerprint openssh_pubkey.
Definition keys_remove (openssh_pubkey : string) (k : AuthorizedKeys) : AuthorizedKeys := delete (fingerprint openssh_pubkey) k.

(** ** Commands *)

Definition quote_char (b : byte) : bool := bool_decide (b = x27) || bool_decide (b = x22).
Definition slash_char (b : byte) : bool := bool_decide (b = x2f).

Definition pushes (svc : Service) : bool := match svc with ReceivePack => true | UploadPack => false end.

Definition split_command (cmd : bytes) : option (Service * bytes) :=
  match strip_prefix (as_bytes "git-upload-pack") cmd with
  | Some r => Some (UploadPack, r)
  | None => (λ r, (ReceivePack, r)) <$> strip_prefix (as_bytes "git-receive-pack") cmd
  end.

Definition parse_git_command (cmd : string) : option (Service * string) :=
  '(svc, rest) ← split_command (trim (as_bytes cmd));
  let arg := trim (trim_matches quote_char (trim rest)) in
  if bool_decide (arg = []) then None
  else
    let repo := trim_matches slash_char arg in
    let repo := default repo (strip_suffix (as_bytes ".git") repo) in
    if bool_decide (repo = []) || contains_text repo (as_bytes "..") then None else Some (svc, string_of_list_byte repo).

Definition authorize_ssh (identity : ServerIdentity) (keys : AuthorizedKeys) (offered_pubkey cmd : string) : Decision :=
  match parse_git_command cmd with
  | None => RepoNotFound
  | Some (svc, repo_id) =>
      match d_repos (si_dir identity) !! repo_id with
      | None => RepoNotFound
      | Some _ =>
          match user_for keys offered_pubkey with
          | None => Unauthenticated
          | Some user =>
              if can (si_dir identity) user repo_id (required_role (pushes svc)) then Allow user else Forbidden
          end
      end
  end.

(** ** Theory *)

(** What was done to the keys; the user a key is for is given by the last operation on a
    line with the same type and blob. *)
Inductive key_op := KAdd (user_id key : string) | KRemove (key : string).
Definition op_key (o : key_op) : string := match o with KAdd _ k => k | KRemove k => k end.
Definition op_user (o : key_op) : option string := match o with KAdd u _ => Some u | KRemove _ => None end.
Definition key_step (o : key_op) : AuthorizedKeys → AuthorizedKeys :=
  match o with KAdd u k => keys_add u k | KRemove k => keys_remove k end.
Definition run_keys (ops : list key_op) : AuthorizedKeys := fold_left (λ k o, key_step o k) ops keys_new.
Definition assigned (ops : list key_op) (key : string) : option string :=
  last (List.filter (λ o, bool_decide (normalized (op_key o) = normalized key)) ops) ≫= op_user.

Definition hashed_keys (ops : list key_op) (key : string) : list bytes := normalized key :: (normalized ∘ op_key <$> ops).

Lemma fingerprint_same k k' : hex_encode (sha256 (normalized k)) = hex_encode (sha256 (normalized k')) → sha256 (normalized k) = sha256 (normalized k').
Proof. intros E. apply (f_equal hex_decode) in E. rewrite !hex_decode_encode in E. by injection E. Qed.

Lemma user_for_assigned ops key : coll_free sha256 (hashed_keys ops key) → user_for (run_keys ops) key = assigned ops key.
Proof.
  unfold run_keys, assigned, user_for. induction ops as [|o ops IH] using rev_ind; intros Hc; [done|].
  rewrite fold_left_app. cbn [fold_left]. rewrite List.filter_app. cbn [List.filter].
  destruct (bool_decide_reflect (normalized (op_key o) = normalized key)) as [E|E].
  - rewrite last_snoc. cbn [mbind option_bind]. destruct o as [u k|k]; cbn [op_key key_step op_user] in *;
      unfold keys_add, keys_remove, fingerprint; rewrite E; [apply lookup_insert_eq|apply lookup_delete_eq].
  - rewrite app_nil_r. assert (fingerprint (op_key o) ≠ fingerprint key) as Hne.
    { intros Hf. apply E, Hc; [| |by apply fingerprint_same]; unfold hashed_keys; [|by left].
      right. rewrite fmap_app. apply elem_of_app. right. by left. }
    rewrite <-IH; [|eapply coll_free_mono; [|exact Hc]; unfold hashed_keys; rewrite fmap_app; intros x [->|Hx]%elem_of_cons;
      [by left|right; apply elem_of_app; by left]].
    destruct o as [u k|k]; cbn [op_key key_step] in *; unfold keys_add, keys_remove;
      [by apply lookup_insert_ne|by apply lookup_delete_ne].
Qed.

(** C33. Who may use a repository over either transport, exactly.  Over HTTPS, with a clock
    that does not run backwards, a request is allowed as user [u] if and only if it carries
    a credential of [u] (an unexpired session with its second factor satisfied, as bearer
    token or Basic secret, or a local password) and some grant on the repository gives [u]
    at least the role the operation needs; the decision does not change the directory.
    Over SSH, whatever keys were added and removed before, and unless fingerprints
    collide, a command is allowed as [u] if and only if it names a repository and a
    service, the last operation on the offered key gave it to [u], and some grant gives [u]
    at least the role the service needs. *)
Theorem transports_allow (id : ServerIdentity) (repo_id : string) (write : bool) (req : Request) (k : clock)
    (ops : list key_op) (offered cmd u : string) :
  clock_ok k → coll_free sha256 (hashed_keys ops offered) →
  (((decide_identity repo_id write req k id).1 = Allow u ↔
    credential id req k u ∧
    ∃ repo r, d_repos (si_dir id) !! repo_id = Some repo ∧ granted (si_dir id) u repo_id repo r ∧
      role_rank (required_role write) ≤ role_rank r) ∧
   si_dir (decide_identity repo_id write req k id).2 = si_dir id) ∧
  (authorize_ssh id (run_keys ops) offered cmd = Allow u ↔
   ∃ svc rid, parse_git_command cmd = Some (svc, rid) ∧ assigned ops offered = Some u ∧
     ∃ repo r, d_repos (si_dir id) !! rid = Some repo ∧ granted (si_dir id) u rid repo r ∧
       role_rank (required_role (pushes svc)) ≤ role_rank r).
Proof.
  intros Hk Hc. split; [by apply decide_identity_allows|]. unfold authorize_ssh. rewrite (user_for_assigned _ _ Hc).
  destruct (parse_git_command cmd) as [[svc rid]|]; [|split; [done|by intros (? & ? & ? & _)]].
  destruct (d_repos (si_dir id) !! rid) as [repo|] eqn:Er.
  2:{ split; [done|]. intros (? & ? & [= <- <-] & _ & repo & r & H & _). congruence. }
  destruct (assigned ops offered) as [v|]; [|split; [done|by intros (? & ? & _ & ? & _)]].
  split.
  - destruct (can _ _ _ _) eqn:Ec; [|done]. intros [= <-]. exists svc, rid. by rewrite <-can_iff_granted.
  - intros (? & ? & [= <- <-] & [= <-] & H). apply can_iff_granted in H. by rewrite H.
Qed.

(** ** Commands *)

Lemma drop_while_head p bs b : head (drop_while p bs) = Some b → p b = false.
Proof. induction bs as [|c bs IH]; simpl; [done|]. destruct (p c) eqn:E; [done|]. by intros [= <-]. Qed.
Lemma drop_while_none p bs : (∀ b, head bs = Some b → p b = false) → drop_while p bs = bs.
Proof. destruct bs as [|b bs]; intros H; simpl; [done|]. by rewrite H. Qed.

Lemma drop_while_suffix p bs : ∃ k, bs = k ++ drop_while p bs.
Proof. induction bs as [|b bs [k IH]]; simpl; [by exists []|]. destruct (p b); [exists (b :: k); by rewrite IH at 1|by exists []]. Qed.
Lemma trim_matches_prefix p bs : trim_matches p bs `prefix_of` drop_while p bs.
Proof.
  unfold trim_matches. destruct (drop_while_suffix p (reverse (drop_while p bs))) as [k E]. exists (reverse k).
  apply (f_equal reverse) in E. by rewrite reverse_app, reverse_involutive in E.
Qed.
Lemma prefix_head (l k : bytes) b : l `prefix_of` k → head l = Some b → head k = Some b.
Proof. intros [m ->]. by destruct l. Qed.

(** The repository a command names has a name that does not climb out of the working path
    and is not absolute. *)
Lemma parse_git_command_safe cmd svc rid : parse_git_command cmd = Some (svc, rid) →
  rid ≠ "" ∧ contains_text (as_bytes rid) (as_bytes "..") = false ∧ head (as_bytes rid) ≠ Some x2f.
Proof.
  unfold parse_git_command. destruct (split_command _) as [[svc' rest]|]; [|done]. cbn [mbind option_bind].
  set (arg := trim _). case_bool_decide; [done|]. set (repo := default _ _).
  assert (repo `prefix_of` drop_while slash_char arg) as Hp.
  { etrans; [|apply trim_matches_prefix]. unfold repo. destruct (strip_suffix _ _) as [r|] eqn:E; [|done].
    apply strip_suffix_spec in E. rewrite E. by exists (as_bytes ".git"). }
  destruct (bool_decide (repo = [])) eqn:E1, (contains_text repo _) eqn:E2; try done. intros [= <- <-]. apply bool_decide_eq_false in E1.
  unfold as_bytes. rewrite list_byte_of_string_of_list_byte. split_and!; [|done|].
  - intros Hr. apply E1. by rewrite <-(list_byte_of_string_of_list_byte repo), Hr.
  - intros Hh. apply (prefix_head _ _ _ Hp), drop_while_head in Hh. done.
Qed.

Lemma strip_prefix_app p r : strip_prefix p (p ++ r) = Some r.
Proof. unfold strip_prefix. rewrite take_app_length, bool_decide_eq_true_2 by done. by rewrite drop_app_length. Qed.
Lemma strip_suffix_app p r : strip_suffix p (r ++ p) = Some r.
Proof. unfold strip_suffix. rewrite reverse_app, strip_prefix_app. simpl. by rewrite reverse_involutive. Qed.
Lemma trim_matches_pad p a m b : Forall (λ c, p c = true) a → Forall (λ c, p c = true) b →
  (∀ c, head m = Some c → p c = false) → (∀ c, last m = Some c → p c = false) → m ≠ [] → trim_matches p (a ++ m ++ b) = m.
Proof.
  intros Ha Hb Hh Hl Hm.
  assert (∀ q l, Forall (λ c, p c = true) q → (∀ c, head l = Some c → p c = false) → drop_while p (q ++ l) = l) as Hd.
  { intros q l Hq Hl0. induction Hq as [|c q Hc _ IH]; simpl; [by apply drop_while_none|]. by rewrite Hc. }
  unfold trim_matches. rewrite (Hd a); [|done|by destruct m]. rewrite reverse_app, Hd.
  - by rewrite reverse_involutive.
  - by apply Forall_reverse.
  - intros c Hc. apply Hl. by rewrite <-head_reverse.
Qed.

(** A name that the command line can carry. *)
Definition plain_repo (r : bytes) : Prop :=
  visible_text r ∧ Forall (λ b, quote_char b = false) r ∧ head r ≠ Some x2f ∧ last r ≠ Some x2f ∧
  contains_text r (as_bytes "..") = false ∧ strip_suffix (as_bytes ".git") r = None.

(** The command lines of git for it, with or without the leading slash and the suffix. *)
Definition printed_command (svc : Service) (slash suffix : bool) (r : bytes) : bytes :=
  as_bytes (service_name svc) ++ [x20; x27] ++ (if slash then [x2f] else []) ++ r ++ (if suffix then as_bytes ".git" else []) ++ [x27].

Lemma parse_printed svc slash suffix r : plain_repo r →
  parse_git_command (string_of_list_byte (printed_command svc slash suffix r)) = Some (svc, string_of_list_byte r).
Proof.
  intros ([Hne Hv] & Hq & Hh & Hl & Hd & Hg). unfold parse_git_command.
  rewrite (list_byte_of_string_of_list_byte _ : as_bytes (string_of_list_byte _) = _).
  set (suf := if suffix then as_bytes ".git" else []). set (pre := if slash then [x2f] else []). set (mid := pre ++ r ++ suf).
  assert (printed_command svc slash suffix r = as_bytes (service_name svc) ++ x20 :: ([x27] ++ mid ++ [x27])) as ->.
  { unfold printed_command, mid. fold suf pre. by rewrite <-!app_assoc. }
  assert (Forall visible mid ∧ Forall (λ b, quote_char b = false) mid) as [Mv Mq].
  { unfold mid, pre, suf. rewrite !Forall_app. destruct slash, suffix; repeat (split || constructor || done). }
  assert (mid ≠ []) as Mne by (unfold mid; destruct pre, r; done).
  rewrite (trim_visible x67 _ x27); [|done|done|by destruct svc|by rewrite !app_comm_cons, !app_assoc, last_snoc].
  assert (split_command (as_bytes (service_name svc) ++ x20 :: ([x27] ++ mid ++ [x27])) = Some (svc, x20 :: ([x27] ++ mid ++ [x27]))) as ->.
  { unfold split_command. destruct svc; [by rewrite strip_prefix_app|]. by rewrite (strip_prefix_app (as_bytes "git-receive-pack")). }
  cbn [mbind option_bind]. rewrite (trim_sp _ x27 x27); [|done|done|done|by rewrite app_assoc, last_snoc].
  rewrite Forall_forall in Mq. rewrite trim_matches_pad; [|by repeat constructor|by repeat constructor| | |done].
  2:{ intros c Hc. apply Mq. by apply head_Some_elem_of. }
  2:{ intros c Hc. apply Mq. by apply last_Some_elem_of. }
  rewrite trim_word by done. rewrite bool_decide_eq_false_2 by done.
  assert (trim_matches slash_char mid = r ++ suf) as ->.
  { unfold mid. rewrite <-(app_nil_r (r ++ suf)) at 1. apply trim_matches_pad.
    - unfold pre. destruct slash; by repeat constructor.
    - done.
    - intros c Hc. apply bool_decide_eq_false. intros ->. apply Hh. by destruct r.
    - intros c Hc. apply bool_decide_eq_false. intros ->. unfold suf in Hc. destruct suffix; [by rewrite last_app in Hc|].
      rewrite app_nil_r in Hc. done.
    - by destruct r. }
  assert (default (r ++ suf) (strip_suffix (as_bytes ".git") (r ++ suf)) = r) as ->.
  { unfold suf. destruct suffix; [by rewrite strip_suffix_app|]. by rewrite app_nil_r, Hg. }
  by rewrite bool_decide_eq_false_2, Hd.
Qed.
End ssh.

(** ** At a concrete server *)

Section witnesses.
#[local] Existing Instance toy_rng.
#[local] Existing Instance toy_digests.
#[local] Existing Instance toy_hmacs.
#[local] Existing Instance toy_hex.
#[local] Existing Instance toy_pbkdf2.

(** Bob's key was Ann's before, with another comment. *)
Definition toy_ops : list key_op := [KAdd "ann" "ssh-ed25519 AAAA old"; KRemove "ssh-ed25519 BBBB"; KAdd "bob" "ssh-ed25519 AAAA bob@laptop"].
Definition toy_offered : string := "ssh-ed25519 AAAA".
Definition toy_command : string := "git-receive-pack '/w.git'".

Lemma transports_allow_witness :
  (decide_identity "w" true (toy_request ("Bearer " +:+ toy_bearer)) toy_clock toy_identity).1 = Allow "bob" ∧
  assigned toy_ops toy_offered = Some "bob" ∧ credential toy_identity (toy_request ("Bearer " +:+ toy_bearer)) toy_clock "bob" ∧
  authorize_ssh toy_identity (run_keys toy_ops) toy_offered toy_command = Allow "bob".
Proof.
  assert ((decide_identity "w" true (toy_request ("Bearer " +:+ toy_bearer)) toy_clock toy_identity).1 = Allow "bob") as H by vm_refl.
  assert (authorize_ssh toy_identity (run_keys toy_ops) toy_offered toy_command = Allow "bob") as Hs by vm_refl.
  destruct (transports_allow toy_identity "w" true (toy_request ("Bearer " +:+ toy_bearer)) toy_clock toy_ops toy_offered toy_command "bob")
    as [[Hh _] Hk]; [repeat split; vm_compute; done|by apply coll_freeb_spec; vm_refl|].
  split; [exact H|]. destruct (proj1 Hk Hs) as (svc & rid & _ & Ha & _). split; [exact Ha|]. split; [apply Hh, H|exact Hs].
Defined.
End witnesses.
