(* ===== verification/Pow.v ===== *)
(** [bins/secgit-server/src/pow.rs]: the proof-of-work gate of the anonymous
    tier.  Challenges are authenticated with a MAC, and spent ones remembered. *)

From stdpp Require Import sorting.
From S2P Require Import Prelude Text Backend Toy Envelope Primitives Auth Authz.

Record PowConfig := mkPowConfig { pw_enabled : bool; pw_difficulty_bits : N; pw_ttl_secs : N }.

Record PowGate := mkPowGate { pg_cfg : PowConfig; pg_secret : bytes; pg_spent : gmap bytes N }.

(** [b.leading_zeros()] of a byte. *)
Definition leading_zeros8 (b : byte) : N := 8 - N.size (Byte.to_N b).

Fixpoint leading_zero_bits (bs : bytes) : N :=
  match bs with
  | [] => 0
  | b :: bs => if bool_decide (b = x00) then 8 + leading_zero_bits bs else leading_zeros8 b
  end.

Section pow.
Context `{RND : SystemRandom} `{DIG : Digests} `{MAC : Hmacs} `{HX : Hex}.

(** The secret stays all zero when no randomness is available. *)
Definition pow_new (cfg : PowConfig) (g : rng) : PowGate * rng :=
  let '(r, g) := random_vec 32 g in
  ({| pg_cfg := cfg; pg_secret := match r with Ok v => v | Err _ => repeat x00 32 end; pg_spent := ∅ |}, g).

Definition client_hash8 (client : string) : bytes := as_bytes (hex_encode (take 8 (sha256 (as_bytes client)))).

Definition token_base (a b c : bytes) : bytes := a ++ [DOT] ++ b ++ [DOT] ++ c.

Definition token_mac (gate : PowGate) (base : bytes) : bytes :=
  as_bytes (hex_encode (hmac_sha256 (pg_secret gate) base)).

Definition pow_issue (gate : PowGate) (client : string) (ts : N) (g : rng) : bytes * rng :=
  let '(r, g) := random_vec 12 g in
  let rand_hex := as_bytes (hex_encode (match r with Ok v => v | Err _ => [] end)) in
  let base := token_base rand_hex (as_bytes (pretty ts)) (client_hash8 client) in
  (base ++ [DOT] ++ token_mac gate base, g).

Definition with_spent (gate : PowGate) (m : gmap bytes N) : PowGate :=
  {| pg_cfg := pg_cfg gate; pg_secret := pg_secret gate; pg_spent := m |}.

Definition pow_spend (token : bytes) (now_secs : N) (gate : PowGate) : bool * PowGate :=
  let spent := filter (λ kv, now_secs < kv.2) (pg_spent gate) in
  match spent !! token with
  | Some _ => (false, with_spent gate spent)
  | None => (true, with_spent gate (<[token := wrap_add64 now_secs (pw_ttl_secs (pg_cfg gate))]> spent))
  end.

Definition pow_verify (submission : bytes) (client : string) (t : N) (gate : PowGate) : bool * PowGate :=
  if negb (pw_enabled (pg_cfg gate)) then (true, gate)
  else match split_once COLON submission with
  | None => (false, gate)
  | Some (token, nonce) =>
      match split_on DOT token with
      | [p0; p1; p2; p3] =>
          if negb (ct_eq (token_mac gate (token_base p0 p1 p2)) p3) then (false, gate)
          else match parse_u64 p1 with
          | None => (false, gate)
          | Some ts =>
              if pw_ttl_secs (pg_cfg gate) <? t - ts then (false, gate)
              else if negb (ct_eq (client_hash8 client) p2) then (false, gate)
              else let '(fresh, gate) := pow_spend token t gate in
                   if negb fresh then (false, gate)
                   else (pw_difficulty_bits (pg_cfg gate) <=?
                           leading_zero_bits (sha256 (token ++ [COLON] ++ nonce)), gate)
          end
      | _ => (false, gate)
      end
  end.

(** ** What passing the gate means *)

(** The fields of a challenge token, as the gate reads them. *)
Definition token_of (submission : bytes) : option bytes := fst <$> split_once COLON submission.
Definition token_time (token : bytes) : option N :=
  match split_on DOT token with [_; p1; _; _] => parse_u64 p1 | _ => None end.

(** A challenge this gate issued to [client]: its MAC is the gate's. *)
Definition authentic (gate : PowGate) (client : string) (token : bytes) : Prop :=
  ∃ p0 p1 p2, split_on DOT token = [p0; p1; p2; token_mac gate (token_base p0 p1 p2)] ∧
    p2 = client_hash8 client.

Definition same_gate (g g' : PowGate) : Prop := pg_cfg g = pg_cfg g' ∧ pg_secret g = pg_secret g'.

Lemma pow_spend_state token t gate b gate' :
  pow_spend token t gate = (b, gate') →
  same_gate gate' gate ∧
  (b = true → pg_spent gate' !! token = Some (wrap_add64 t (pw_ttl_secs (pg_cfg gate)))) ∧
  ∀ tok e, pg_spent gate !! tok = Some e → t < e →
    pg_spent gate' !! tok = Some e ∧ (tok = token → b = false).
Proof.
  unfold pow_spend. set (m := filter _ (pg_spent gate)).
  assert (∀ tok e, pg_spent gate !! tok = Some e → t < e → m !! tok = Some e) as Hm
    by (intros tok e H1 H2; by apply map_lookup_filter_Some).
  destruct (m !! token) eqn:E; intros [= <- <-]; (split; [done|]); simpl.
  - split; [done|]. intros tok e H1 H2. split; [by apply Hm|done].
  - split; [intros _; apply lookup_insert_eq|]. intros tok e H1 H2. specialize (Hm _ _ H1 H2).
    split; [|intros ->; congruence]. rewrite lookup_insert_ne by congruence. done.
Qed.

Lemma pow_verify_true submission client t gate gate' :
  pw_enabled (pg_cfg gate) = true → pow_verify submission client t gate = (true, gate') →
  ∃ token nonce ts, split_once COLON submission = Some (token, nonce) ∧ authentic gate client token ∧
    token_time token = Some ts ∧ t - ts ≤ pw_ttl_secs (pg_cfg gate) ∧
    pow_spend token t gate = (true, gate') ∧
    pw_difficulty_bits (pg_cfg gate) ≤ leading_zero_bits (sha256 (token ++ [COLON] ++ nonce)).
Proof.
  intros He. unfold pow_verify. rewrite He. simpl.
  destruct (split_once COLON submission) as [[token nonce]|]; [|done].
  destruct (split_on DOT token) as [|p0 [|p1 [|p2 [|p3 [|? ?]]]]] eqn:Es; try done.
  destruct (ct_eq _ p3) eqn:Em; simpl; [|done]. destruct (parse_u64 p1) as [ts|] eqn:Et; [|done].
  destruct (N.ltb_spec (pw_ttl_secs (pg_cfg gate)) (t - ts)); [done|].
  destruct (ct_eq (client_hash8 client) p2) eqn:Ec; simpl; [|done].
  destruct (pow_spend token t gate) as [[] g1] eqn:Ep; simpl; [|done].
  intros [= Hd <-]. apply ct_eq_true in Em, Ec. apply N.leb_le in Hd.
  destruct (pow_spend_state _ _ _ _ _ Ep) as [[Hg _] _]. rewrite Hg in Hd. exists token, nonce, ts. split_and!; try done.
  - exists p0, p1, p2. by rewrite Es, Em.
  - unfold token_time. by rewrite Es.
Qed.

(** A submission is refused at once, or its token is spent. *)
Lemma pow_verify_cases submission client t gate b gate' :
  pw_enabled (pg_cfg gate) = true → pow_verify submission client t gate = (b, gate') →
  (b = false ∧ gate' = gate) ∨
  ∃ token fresh, token_of submission = Some token ∧ pow_spend token t gate = (fresh, gate') ∧
    (fresh = false → b = false).
Proof.
  intros He. unfold pow_verify, token_of. rewrite He. simpl.
  destruct (split_once COLON submission) as [[token nonce]|]; [|intros [= <- <-]; by left].
  destruct (split_on DOT token) as [|p0 [|p1 [|p2 [|p3 [|? ?]]]]]; try (intros [= <- <-]; by left).
  destruct (negb _); [intros [= <- <-]; by left|]. destruct (parse_u64 p1); [|intros [= <- <-]; by left].
  destruct (_ <? _); [intros [= <- <-]; by left|]. destruct (negb _); [intros [= <- <-]; by left|].
  destruct (pow_spend token t gate) as [fresh g1] eqn:Ep. intros H. right. exists token, fresh. simpl.
  split; [done|]. destruct fresh; simpl in H; injection H as <- <-; done.
Qed.

(** The gate after a submission: spent tokens are kept until they expire, and
    one that is still kept is refused. *)
Lemma pow_verify_state submission client t gate b gate' :
  pw_enabled (pg_cfg gate) = true → pow_verify submission client t gate = (b, gate') →
  same_gate gate' gate ∧
  ∀ tok e, pg_spent gate !! tok = Some e → t < e →
    pg_spent gate' !! tok = Some e ∧ (token_of submission = Some tok → b = false).
Proof.
  intros He H. destruct (pow_verify_cases _ _ _ _ _ _ He H) as [[-> ->]|(token & fresh & Et & Hs & Hb)].
  { done. }
  destruct (pow_spend_state _ _ _ _ _ Hs) as (H1 & _ & H2). split; [done|].
  intros tok e Hk Hlt. destruct (H2 tok e Hk Hlt) as [H3 H4]. split; [done|].
  rewrite Et. intros [= <-]. by apply Hb, H4.
Qed.

(** ** Replays *)

Record submission := mkSubmission { sb_text : bytes; sb_client : string; sb_time : N }.

Fixpoint pow_run (subs : list submission) (gate : PowGate) : list bool :=
  match subs with
  | [] => []
  | s :: subs =>
      let '(b, gate) := pow_verify (sb_text s) (sb_client s) (sb_time s) gate in b :: pow_run subs gate
  end.

Definition pow_ordered (subs : list submission) : Prop := StronglySorted (λ a b, sb_time a ≤ sb_time b) subs.

Lemma spent_blocks subs gate tok e j s :
  pw_enabled (pg_cfg gate) = true → pow_ordered subs → pg_spent gate !! tok = Some e →
  subs !! j = Some s → pow_run subs gate !! j = Some true → token_of (sb_text s) = Some tok → e ≤ sb_time s.
Proof.
  intros He Ho. revert gate j He. induction Ho as [|x subs Ho IH Hall]; intros gate j He Hs Hj Hr Ht; [done|].
  simpl in Hr. destruct (pow_verify (sb_text x) (sb_client x) (sb_time x) gate) as [b g1] eqn:E.
  destruct (pow_verify_state _ _ _ _ _ _ He E) as [[Hc _] Hk].
  destruct (decide (sb_time x < e)) as [Hlt|Hge].
  - destruct (Hk tok e Hs Hlt) as [Hs1 Hb]. destruct j as [|j]; simpl in Hj, Hr.
    + injection Hj as ->. injection Hr as ->. by specialize (Hb Ht).
    + eapply (IH g1 j); [by rewrite Hc|done..].
  - destruct j as [|j]; simpl in Hj, Hr; [injection Hj as ->; lia|].
    rewrite Forall_forall in Hall. specialize (Hall s (list_elem_of_lookup_2 _ _ _ Hj)). simpl in Hall. lia.
Qed.

(** A passing submission, and the gate after it. *)
Lemma pow_run_passes subs gate i s :
  pw_enabled (pg_cfg gate) = true → subs !! i = Some s → pow_run subs gate !! i = Some true →
  ∃ gi gi', same_gate gi gate ∧ pow_verify (sb_text s) (sb_client s) (sb_time s) gi = (true, gi') ∧
    same_gate gi' gate ∧ drop (S i) (pow_run subs gate) = pow_run (drop (S i) subs) gi'.
Proof.
  revert gate i. induction subs as [|x subs IH]; intros gate i He Hi Hr; [done|].
  simpl in Hr |- *. destruct (pow_verify (sb_text x) (sb_client x) (sb_time x) gate) as [b g1] eqn:E.
  destruct (pow_verify_state _ _ _ _ _ _ He E) as [[Hc Hsec] _].
  destruct i as [|i]; simpl in Hi, Hr.
  - injection Hi as ->. injection Hr as ->. exists gate, g1. by rewrite !drop_0.
  - destruct (IH g1 i) as (gi & gi' & [Ha Hb] & Hv & [Hd Hf] & Hdrop); [by rewrite Hc|done..|].
    exists gi, gi'. split_and!; [split; congruence|done|split; congruence|done].
Qed.

(** C7. What passing the proof-of-work gate gives: when the gate is on, a
    submission passes only with a challenge this gate authenticated for this very
    client, not older than its lifetime, and a nonce that meets the difficulty;
    and in a sequence of submissions made in the order of their times, a token
    passes a second time only at the last instant of its lifetime or later, when
    the first time was no later than its issue: spent in any later second, it
    never passes again. *)
Theorem pow_gate_sound subs gate i s :
  pw_enabled (pg_cfg gate) = true → pow_ordered subs →
  Forall (λ s, sb_time s + pw_ttl_secs (pg_cfg gate) ≤ u64_max) subs →
  subs !! i = Some s → pow_run subs gate !! i = Some true →
  ∃ token nonce ts, split_once COLON (sb_text s) = Some (token, nonce) ∧
    authentic gate (sb_client s) token ∧ token_time token = Some ts ∧
    sb_time s - ts ≤ pw_ttl_secs (pg_cfg gate) ∧
    pw_difficulty_bits (pg_cfg gate) ≤ leading_zero_bits (sha256 (token ++ [COLON] ++ nonce)) ∧
    ∀ j s', (i < j)%nat → subs !! j = Some s' → token_of (sb_text s') = Some token →
      pow_run subs gate !! j = Some true →
      sb_time s ≤ ts ∧ sb_time s + pw_ttl_secs (pg_cfg gate) ≤ sb_time s'.
Proof.
  intros He Ho Hfit Hi Hr. destruct (pow_run_passes _ _ _ _ He Hi Hr) as (gi & gi' & [Hc Hsec] & Hv & [Hc' _] & Hdrop).
  assert (pw_enabled (pg_cfg gi) = true) as Hei by (by rewrite Hc).
  destruct (pow_verify_true _ _ _ _ _ Hei Hv) as (token & nonce & ts & Es & Ha & Ht & Hle & Hsp & Hd).
  rewrite Hc in Hle, Hd. exists token, nonce, ts.
  assert (authentic gate (sb_client s) token) as Ha'.
  { destruct Ha as (p0 & p1 & p2 & E & Hp). exists p0, p1, p2. split; [|done]. rewrite E.
    unfold token_mac. by rewrite Hsec. }
  split_and!; try done. intros j s' Hij Hj Htok Hrj.
  destruct (pow_spend_state _ _ _ _ _ Hsp) as (_ & Hspent & _). specialize (Hspent eq_refl).
  rewrite Forall_forall in Hfit. specialize (Hfit s (list_elem_of_lookup_2 _ _ _ Hi)).
  unfold wrap_add64 in Hspent. rewrite Hc, N.mod_small in Hspent by (unfold u64_max in *; lia).
  assert (∃ j', j = (S i + j')%nat) as [j' ->] by (exists (j - S i)%nat; lia).
  rewrite <-(lookup_drop subs) in Hj. rewrite <-(lookup_drop (pow_run subs gate)), Hdrop in Hrj.
  assert (sb_time s + pw_ttl_secs (pg_cfg gate) ≤ sb_time s') as H.
  { eapply (spent_blocks (drop (S i) subs) gi' token _ j' s'); try done; [by rewrite Hc'|].
    unfold pow_ordered in *. rewrite <-(take_drop (S i) subs) in Ho. by apply StronglySorted_app_1_r in Ho. }
  split; [|done].
  assert (sb_time s' - ts ≤ pw_ttl_secs (pg_cfg gate)); [|lia].
  assert (pow_run (drop (S i) subs) gi' !! j' = Some true ∧ pw_enabled (pg_cfg gi') = true) as [Hr' He'] by (by rewrite Hc').
  destruct (pow_run_passes _ _ _ _ He' Hj Hr') as (gj & gj' & [Hcj _] & Hvj & _).
  assert (pw_enabled (pg_cfg gj) = true) as Hej by (by rewrite Hcj).
  destruct (pow_verify_true _ _ _ _ _ Hej Hvj) as (token' & ? & ts' & Es' & _ & Ht' & Hle' & _).
  unfold token_of in Htok. rewrite Es' in Htok. simpl in Htok. injection Htok as ->.
  rewrite Ht in Ht'. injection Ht' as <-. by rewrite Hcj, Hc' in Hle'.
Qed.
End pow.

Section witnesses.
#[local] Existing Instance toy_rng.
#[local] Existing Instance toy_digests.
#[local] Existing Instance toy_hmacs.
#[local] Existing Instance toy_hex.

Definition toy_gate : PowGate :=
  (pow_new (mkPowConfig true 0 300) (3 : @rng toy_rng)).1.
Definition toy_solution : bytes := (pow_issue toy_gate "1.2.3.4" 100 (4 : @rng toy_rng)).1 ++ as_bytes ":0".
Definition toy_subs : list submission :=
  [mkSubmission toy_solution "6.6.6.6" 110; mkSubmission toy_solution "1.2.3.4" 120;
   mkSubmission toy_solution "1.2.3.4" 130; mkSubmission toy_solution "1.2.3.4" 400].

Lemma pow_gate_sound_witness :
  pow_run toy_subs toy_gate = [false; true; false; false] ∧
  ∃ token nonce, split_once COLON toy_solution = Some (token, nonce) ∧ authentic toy_gate "1.2.3.4" token.
Proof.
  split; [vm_refl|].
  destruct (pow_gate_sound toy_subs toy_gate 1 (mkSubmission toy_solution "1.2.3.4" 120)) as
    (token & nonce & ts & H1 & H2 & _).
  - vm_refl.
  - repeat constructor; vm_compute; discriminate.
  - repeat constructor; vm_compute; discriminate.
  - vm_refl.
  - vm_refl.
  - exists token, nonce. split; [exact H1|exact H2].
Defined.

(** Spent in the second of its issue, a token passes again when its lifetime
    ends: by then it is no longer remembered, and still accepted. *)
Example pow_replay_at_expiry :
  pow_run [mkSubmission toy_solution "1.2.3.4" 100; mkSubmission toy_solution "1.2.3.4" 399;
           mkSubmission toy_solution "1.2.3.4" 400] toy_gate = [true; false; true].
Proof. vm_refl. Qed.
End witnesses.
