(* ===== verification/Abuse.v ===== *)
(** [bins/secgit-server/src/abuse.rs]: the encrypted queue of abuse reports and the
    waitlist, over the interface [ObjectStore].  The lock that serializes the
    read-modify-write makes each call one step. *)

From S2P Require Import Prelude Text Backend Toy Primitives ObjectStore.

Definition ABUSE_REPO : string := "__abuse__".
Definition REPORTS_KEY : string := "reports".
Definition MAX_REASON_LEN : N := 2000.
Definition MAX_QUEUE : N := 5000.
Definition WAITLIST_REPO : string := "__waitlist__".
Definition EMAILS_KEY : string := "emails".
Definition MAX_WAITLIST : N := 100000.

Record Report := mkReport {
  rp_id : string;
  rp_repo_id : string;
  rp_reason : bytes;
  rp_reporter_hash : string;
  rp_ts : N;
}.

Section abuse.
Context {St Er : Type} `{OS : ObjectStore St Er} `{DIG : Digests} `{HX : Hex}.
Context `{SR : Serde (list Report)} `{SS : Serde (list string)}.

(** A failed read, and an object that does not parse, are an empty list. *)
Definition load_list {T} `{Serde (list T)} (repo key : string) (s : St) : list T * St :=
  let '(r, s) := os_get repo key s in
  (match r with Ok (Some b) => default [] (from_slice b) | _ => [] end, s).

Definition load (s : St) : list Report * St := load_list ABUSE_REPO REPORTS_KEY s.

Definition save (reports : list Report) : eff St Er unit :=
  _ ← os_init ABUSE_REPO; os_put ABUSE_REPO REPORTS_KEY (to_vec reports).

(** [&hex[..16]]. *)
Definition report_id (t : N) (repo_id client : string) : string :=
  String.substring 0 16
    (hex_encode (sha256 (as_bytes (pretty t +:+ "-" +:+ repo_id +:+ "-" +:+ client)))).

(** [drain(0..overflow)]: the oldest reports go. *)
Definition bound_queue (reports : list Report) : list Report :=
  drop (N.to_nat (lengthN reports - MAX_QUEUE)) reports.

(** [now()] is read twice. *)
Definition report (repo_id : string) (reason : bytes) (client : string) (t t' : N) : eff St Er Report := λ s,
  let '(reports, s) := load s in
  let rep := {| rp_id := report_id t repo_id client; rp_repo_id := repo_id;
                rp_reason := take_chars (N.to_nat MAX_REASON_LEN) reason;
                rp_reporter_hash := hex_encode (take 8 (sha256 (as_bytes client)));
                rp_ts := t' |} in
  (_ ← save (bound_queue (reports ++ [rep])); mret rep) s.

Definition abuse_list (s : St) : list Report * St := load s.

Definition waitlist_add (email : string) : eff St Er unit := λ s,
  let '(emails, s) := load_list WAITLIST_REPO EMAILS_KEY s in
  let emails := if negb (contains email emails) && (lengthN emails <? MAX_WAITLIST)
                then emails ++ [email] else emails in
  (_ ← os_init WAITLIST_REPO; os_put WAITLIST_REPO EMAILS_KEY (to_vec emails)) s.

Lemma bound_queue_length q : lengthN (bound_queue q) ≤ MAX_QUEUE.
Proof. unfold bound_queue. rewrite length_drop. lia. Qed.

(** The queue as it is stored. *)
Definition queue (s : St) : list Report :=
  default [] (os_value (list Report) s ABUSE_REPO REPORTS_KEY).

Context (Ha : os_id ABUSE_REPO) (Hk : os_id REPORTS_KEY).

(** What [save] stores. *)
Lemma save_spec q s res s' :
  os_inv s → save q s = (res, s') → os_inv s' ∧ queue s' = if is_ok res then q else queue s.
Proof using Ha Hk.
  intros I. unfold save, mbind, eff_mbind. destruct (os_init ABUSE_REPO s) as [r1 s1] eqn:E1.
  destruct (os_init_spec _ _ _ _ Ha I E1) as [I1 V1].
  destruct r1 as [[]|e].
  - intros E2. destruct (os_put_spec _ _ _ _ _ _ Ha Hk I1 E2) as [I2 V2]. split; [done|].
    unfold queue, os_value. rewrite V2 by done. destruct res; cbn [is_ok andb].
    + rewrite bool_decide_eq_true_2 by done. simpl. by rewrite from_slice_to_vec.
    + by rewrite V1.
  - intros [= <- <-]. split; [done|]. unfold queue, os_value. simpl. by rewrite V1.
Qed.

(** A report is appended, the queue keeps the newest [MAX_QUEUE], and a failed
    call changes nothing, provided the queue can be read. *)
Lemma report_appends repo_id reason client t t' s res s' :
  os_inv s → os_calm s → report repo_id reason client t t' s = (res, s') →
  os_inv s' ∧ match res with
  | Ok rep => queue s' = bound_queue (queue s ++ [rep]) ∧ rp_repo_id rep = repo_id
  | Err _ => queue s' = queue s
  end.
Proof using Ha Hk.
  intros I C. unfold report, load, load_list, mbind, eff_mbind.
  destruct (os_get_calm _ _ _ Ha Hk I C) as (s1 & E1 & C1). rewrite E1.
  destruct (os_get_spec _ _ _ _ _ Ha Hk I E1) as (I1 & V1 & _).
  assert (queue s1 = queue s) as Eq by (unfold queue, os_value; by rewrite V1).
  assert (match os_view s ABUSE_REPO REPORTS_KEY with Some b => default [] (from_slice b) | None => [] end = queue s)
    as -> by (unfold queue, os_value; by destruct (os_view s _ _)).
  set (rep0 := mkReport _ _ _ _ _). assert (rp_repo_id rep0 = repo_id) as Hrep by done. clearbody rep0.
  destruct (save _ s1) as [r2 s2] eqn:E2. apply save_spec in E2 as [I2 Q2]; [|done].
  destruct r2 as [[]|e]; intros [= <- <-]; (split; [done|]); cbn [is_ok] in Q2; [done|congruence].
Qed.

(** A read that fails is taken for an empty queue: the next report replaces
    everything that was queued. *)
Lemma report_after_failed_read repo_id reason client t t' s e s1 rep s' :
  os_inv s → os_get ABUSE_REPO REPORTS_KEY s = (Err e, s1) →
  report repo_id reason client t t' s = (Ok rep, s') → queue s' = [rep].
Proof using Ha Hk.
  intros I E1. destruct (os_get_spec _ _ _ _ _ Ha Hk I E1) as (I1 & _ & _).
  unfold report, load, load_list, mbind, eff_mbind. rewrite E1.
  set (rep0 := mkReport _ _ _ _ _). assert (rp_repo_id rep0 = repo_id) as Hrep by done. clearbody rep0.
  destruct (save _ s1) as [r2 s2] eqn:E2. apply save_spec in E2 as [_ Q2]; [|done].
  destruct r2 as [[]|e2]; [|done]. by intros [= <- <-].
Qed.
End abuse.
