(* ===== verification/RateLimit.v ===== *)
(** [bins/secgit-server/src/ratelimit.rs]: the token-bucket rate limiter and the
    counting semaphore.

    [f64] is the standard library's executable specification of binary64.
    [Instant]s and [Duration]s are nanoseconds; [duration_since] saturates at zero.
    A call of [check] holds the mutex throughout, so it is one step.  The
    semaphore's mutex and condition variable are a step relation on its threads. *)

From Stdlib Require Import Floats.SpecFloat.
From S2P Require Import Prelude.

(** ** [f64] *)

Definition f64_of_N (n : N) : spec_float := binary_normalize 53 1024 (Z.of_N n) 0 false.
Definition f64_add : spec_float → spec_float → spec_float := SFadd 53 1024.
Definition f64_sub : spec_float → spec_float → spec_float := SFsub 53 1024.
Definition f64_mul : spec_float → spec_float → spec_float := SFmul 53 1024.
Definition f64_div : spec_float → spec_float → spec_float := SFdiv 53 1024.
Definition f64_ge (a b : spec_float) : bool := SFleb b a.

(** [a.min(b)] and [a.max(b)]: a NaN loses. *)
Definition f64_min (a b : spec_float) : spec_float :=
  match SFcompare a b with
  | Some Gt => b
  | Some _ => a
  | None => match a with S754_nan => b | _ => a end
  end.
Definition f64_max (a b : spec_float) : spec_float :=
  match SFcompare a b with
  | Some Lt => b
  | Some _ => a
  | None => match a with S754_nan => b | _ => a end
  end.

Definition NANOS : N := 10 ^ 9.

(** [d.as_secs_f64()]. *)
Definition as_secs_f64 (d : N) : spec_float :=
  f64_add (f64_of_N (d / NANOS)) (f64_div (f64_of_N (d mod NANOS)) (f64_of_N NANOS)).

(** ** The rate limiter *)

Record Bucket := mkBucket { b_tokens : spec_float; b_last : N }.

Record RateLimiter := mkLimiter {
  rl_capacity : spec_float;
  rl_refill : spec_float;
  rl_max_keys : N;
  rl_idle_evict : N;
  rl_buckets : gmap string Bucket;
  rl_last_sweep : N;
}.

Definition limiter_new (capacity refill : spec_float) (max_keys idle_evict now : N) : RateLimiter :=
  {| rl_capacity := f64_max capacity (f64_of_N 1);
     rl_refill := f64_max refill (f64_div (f64_of_N 1) (f64_of_N 10000));
     rl_max_keys := N.max max_keys 1;
     rl_idle_evict := idle_evict;
     rl_buckets := ∅;
     rl_last_sweep := now |}.

Definition with_buckets (rl : RateLimiter) (bs : gmap string Bucket) (sweep : N) : RateLimiter :=
  {| rl_capacity := rl_capacity rl; rl_refill := rl_refill rl; rl_max_keys := rl_max_keys rl;
     rl_idle_evict := rl_idle_evict rl; rl_buckets := bs; rl_last_sweep := sweep |}.

(** [buckets.retain(|_, b| now.duration_since(b.last) < idle)]. *)
Definition retain_live (rl : RateLimiter) (now : N) : gmap string Bucket :=
  filter (λ kb : string * Bucket, now - b_last kb.2 < rl_idle_evict rl) (rl_buckets rl).

Definition sweep (rl : RateLimiter) (now : N) : RateLimiter :=
  if rl_idle_evict rl <=? now - rl_last_sweep rl then with_buckets rl (retain_live rl now) now else rl.

Definition full (rl : RateLimiter) : bool := rl_max_keys rl <=? N.of_nat (size (rl_buckets rl)).

(** The table with room for [key], or [None] when it is full of other keys. *)
Definition make_room (rl : RateLimiter) (key : string) (now : N) : RateLimiter * bool :=
  match rl_buckets rl !! key with
  | Some _ => (rl, true)
  | None =>
      if full rl then
        let rl := with_buckets rl (retain_live rl now) (rl_last_sweep rl) in (rl, negb (full rl))
      else (rl, true)
  end.

(** The bucket's balance at [now]. *)
Definition refilled (rl : RateLimiter) (b : Bucket) (now : N) : spec_float :=
  f64_min (f64_add (b_tokens b) (f64_mul (as_secs_f64 (now - b_last b)) (rl_refill rl))) (rl_capacity rl).

Definition check (rl : RateLimiter) (key : string) (now : N) : bool * RateLimiter :=
  let '(rl, room) := make_room (sweep rl now) key now in
  if room then
    let bucket := default {| b_tokens := rl_capacity rl; b_last := now |} (rl_buckets rl !! key) in
    let tokens := refilled rl bucket now in
    let allowed := f64_ge tokens (f64_of_N 1) in
    let tokens := if allowed then f64_sub tokens (f64_of_N 1) else tokens in
    (allowed, with_buckets rl (<[key := {| b_tokens := tokens; b_last := now |}]> (rl_buckets rl)) (rl_last_sweep rl))
  else (false, rl).

(** *** The table stays within its bound *)

Lemma f64_min_cap a c : c ≠ S754_nan → f64_ge c (f64_min a c) = true.
Proof.
  intros Hc. assert (∀ x, x ≠ S754_nan → SFcompare x x = Some Eq) as Hrefl.
  { intros [| | |[] m e]; [by intros _|by destruct s|done|..]; intros _; simpl; by rewrite Z.compare_refl, Pos.compare_cont_refl. }
  unfold f64_ge, SFleb, f64_min. destruct (SFcompare a c) as [[]|] eqn:E; rewrite ?E, ?Hrefl by done; [done..|].
  destruct a; [by destruct c..| |by destruct c]. by rewrite Hrefl.
Qed.

Lemma size_retain rl now : (size (retain_live rl now) ≤ size (rl_buckets rl))%nat.
Proof. apply map_subseteq_size, map_filter_subseteq. Qed.

Definition within (rl : RateLimiter) : Prop := N.of_nat (size (rl_buckets rl)) ≤ rl_max_keys rl.

Lemma sweep_within rl now : within rl → within (sweep rl now) ∧ rl_max_keys (sweep rl now) = rl_max_keys rl.
Proof.
  unfold within, sweep. intros H. destruct (_ <=? _); [|done]. simpl. pose proof (size_retain rl now). split; [lia|done].
Qed.

(** The number of buckets never exceeds [max_keys], whatever the keys and the
    clock. *)
Lemma check_within rl key now : within rl → within (check rl key now).2.
Proof.
  intros [W M]%(λ H, sweep_within rl now H). unfold check, make_room.
  set (rl1 := sweep rl now) in *.
  assert (∀ rl2 b, rl_max_keys rl2 = rl_max_keys rl1 → within rl2 →
    (is_Some (rl_buckets rl2 !! key) ∨ full rl2 = false) →
    within (with_buckets rl2 (<[key := b]> (rl_buckets rl2)) (rl_last_sweep rl2))) as Hins.
  { unfold within, full. intros rl2 b M2 W2 [Hk|Hf]; simpl.
    - destruct Hk as [b' Hb']. by rewrite map_size_insert_Some.
    - apply N.leb_gt in Hf. rewrite map_size_insert.
      destruct (rl_buckets rl2 !! key); simpl; lia. }
  destruct (rl_buckets rl1 !! key) eqn:Ek; [by apply Hins; [..|left; eauto]|].
  destruct (full rl1) eqn:Ef; [|apply Hins; auto].
  set (rl2 := with_buckets rl1 (retain_live rl1 now) (rl_last_sweep rl1)).
  assert (within rl2) as W2.
  { unfold within in *. simpl. pose proof (size_retain rl1 now). lia. }
  destruct (full rl2) eqn:Ef2; [done|]. apply (Hins rl2); auto.
Qed.


(** Every bucket of a limiter built by [new] and used by a run of checks holds at
    most the capacity when it is consulted, and the table has at most
    [max_keys.max(1)] buckets. *)
Definition run_checks (rl : RateLimiter) (cs : list (string * N)) : RateLimiter :=
  fold_left (λ rl c, (check rl c.1 c.2).2) cs rl.

Lemma run_checks_within rl cs : within rl → within (run_checks rl cs).
Proof.
  revert rl. induction cs as [|[k t] cs IH]; intros rl W; simpl; [done|]. by apply IH, check_within.
Qed.

Lemma limiter_bounded capacity refill max_keys idle now cs :
  within (run_checks (limiter_new capacity refill max_keys idle now) cs).
Proof. apply run_checks_within. unfold within. simpl. rewrite map_size_empty. lia. Qed.

(** When the table is full of live keys a new key is refused, and nothing changes. *)
Lemma full_fails_closed rl key now :
  rl_buckets (sweep rl now) !! key = None → full (sweep rl now) = true →
  (∀ k b, rl_buckets (sweep rl now) !! k = Some b → now - b_last b < rl_idle_evict rl) →
  (check rl key now).1 = false ∧ rl_buckets (check rl key now).2 = rl_buckets (sweep rl now).
Proof.
  intros Hk Hf Hl. unfold check, make_room. rewrite Hk, Hf.
  set (rl1 := sweep rl now) in *.
  assert (rl_idle_evict rl1 = rl_idle_evict rl) as Hi by (unfold rl1, sweep; by destruct (_ <=? _)).
  assert (retain_live rl1 now = rl_buckets rl1) as Hr.
  { apply map_filter_id. intros k b Hb. simpl. rewrite Hi. by eapply Hl. }
  rewrite Hr. unfold full in *. simpl in *. rewrite Hf. done.
Qed.

(** ** The semaphore *)

Definition semaphore_new (permits : N) : N := N.max permits 1.

(** A thread in [acquire] either sleeps on the condition variable or is awake and
    about to look at the count (it has just called [acquire], was notified, or woke
    up spuriously); a holder has the guard. *)
Record SemState := mkSem {
  sm_permits : N;
  sm_holders : gset nat;
  sm_awake : gset nat;
  sm_asleep : gset nat;
}.

Definition sem_init (permits : N) : SemState := mkSem (semaphore_new permits) ∅ ∅ ∅.

(** [*n == 0] is checked with the lock held; taking a permit or going to sleep is
    one step with it. *)
Definition look (t : nat) (s : SemState) : SemState :=
  if sm_permits s =? 0
  then mkSem (sm_permits s) (sm_holders s) (sm_awake s ∖ {[t]}) ({[t]} ∪ sm_asleep s)
  else mkSem (sm_permits s - 1) ({[t]} ∪ sm_holders s) (sm_awake s ∖ {[t]}) (sm_asleep s).

(** [drop] of the guard: the count goes up and [notify_one] wakes one sleeper, if
    there is one. *)
Inductive released (t : nat) (s : SemState) : SemState → Prop :=
| notified u : u ∈ sm_asleep s →
    released t s (mkSem (sm_permits s + 1) (sm_holders s ∖ {[t]}) ({[u]} ∪ sm_awake s) (sm_asleep s ∖ {[u]}))
| nobody : sm_asleep s = ∅ →
    released t s (mkSem (sm_permits s + 1) (sm_holders s ∖ {[t]}) (sm_awake s) (sm_asleep s)).

(** Steps that finish what has begun: a look at the count, or a guard dropped. *)
Inductive drain : SemState → SemState → Prop :=
| d_look t s : t ∈ sm_awake s → drain s (look t s)
| d_release t s s' : t ∈ sm_holders s → released t s s' → drain s s'.

Inductive sem_step : SemState → SemState → Prop :=
| s_acquire t s : t ∉ sm_holders s → t ∉ sm_awake s → t ∉ sm_asleep s →
    sem_step s (mkSem (sm_permits s) (sm_holders s) ({[t]} ∪ sm_awake s) (sm_asleep s))
| s_spurious t s : t ∈ sm_asleep s →
    sem_step s (mkSem (sm_permits s) (sm_holders s) ({[t]} ∪ sm_awake s) (sm_asleep s ∖ {[t]}))
| s_drain s s' : drain s s' → sem_step s s'.

(** The count and the holders add up, the three sets are disjoint, and no wake-up
    is lost: if somebody sleeps, there is an awake thread for every free permit. *)
Record sem_inv (p : N) (s : SemState) : Prop := {
  si_count : sm_permits s + N.of_nat (size (sm_holders s)) = p;
  si_ha : sm_holders s ## sm_awake s;
  si_hs : sm_holders s ## sm_asleep s;
  si_as : sm_awake s ## sm_asleep s;
  si_wake : sm_asleep s ≠ ∅ → sm_permits s ≤ N.of_nat (size (sm_awake s));
}.

Lemma size_add (t : nat) (X : gset nat) : t ∉ X → size ({[t]} ∪ X) = S (size X).
Proof.
  intros H. rewrite size_union, size_singleton; [done|]. apply elem_of_disjoint.
  intros x ->%elem_of_singleton. done.
Qed.

Lemma size_remove (t : nat) (X : gset nat) : t ∈ X → size X = S (size (X ∖ {[t]})).
Proof.
  intros H. assert ({[t]} ⊆ X) as Hs by (intros x ->%elem_of_singleton; done).
  pose proof (subseteq_size _ _ Hs). rewrite size_singleton in *. rewrite size_difference, size_singleton by done. lia.
Qed.

Lemma disjoint_add (t : nat) (X Y : gset nat) : X ## Y → t ∉ Y → {[t]} ∪ X ## Y.
Proof. rewrite !elem_of_disjoint. intros H Ht x. rewrite elem_of_union, elem_of_singleton. intros [->|?]; [done|by apply H]. Qed.

Lemma disjoint_sub (t : nat) (X Y : gset nat) : X ## Y → X ∖ {[t]} ## Y.
Proof. rewrite !elem_of_disjoint. intros H x. rewrite elem_of_difference. intros [? _]. by apply H. Qed.

Lemma not_in_removed (t : nat) (X : gset nat) : t ∉ X ∖ {[t]}.
Proof. rewrite elem_of_difference, elem_of_singleton. intuition. Qed.

Lemma disjoint_not (t : nat) (X Y : gset nat) : X ## Y → t ∈ X → t ∉ Y.
Proof. rewrite elem_of_disjoint. intros H Hx Hy. by apply (H t). Qed.

(** Moving a thread from one set to another keeps the sets apart. *)
Lemma disjoint_move (t : nat) (X Y : gset nat) : X ## Y → t ∈ X → X ∖ {[t]} ## {[t]} ∪ Y.
Proof.
  rewrite !elem_of_disjoint. intros H Ht x. rewrite elem_of_difference, elem_of_union, elem_of_singleton.
  intros [Hx Hn] [?|?]; [done|by apply (H x)].
Qed.

Lemma look_inv p t s : t ∈ sm_awake s → sem_inv p s → sem_inv p (look t s).
Proof.
  intros Ht [Hc Hha Hhs Has Hw]. unfold look. pose proof (size_remove _ _ Ht) as Hsz.
  assert (t ∉ sm_holders s) as Hnh by (apply (disjoint_not t (sm_awake s)); by symmetry || done).
  assert (t ∉ sm_asleep s) as Hns by by apply (disjoint_not t (sm_awake s)).
  destruct (N.eqb_spec (sm_permits s) 0) as [H0|H0]; split; simpl.
  - done.
  - symmetry. apply disjoint_sub. by symmetry.
  - symmetry. apply disjoint_add; [by symmetry|done].
  - by apply disjoint_move.
  - lia.
  - rewrite size_add by done. lia.
  - symmetry. apply disjoint_move; [by symmetry|done].
  - by apply disjoint_add.
  - by apply disjoint_sub.
  - intros Hne. specialize (Hw Hne). lia.
Qed.

Lemma released_inv p t s s' : t ∈ sm_holders s → released t s s' → sem_inv p s → sem_inv p s'.
Proof.
  intros Ht [u Hu|He] [Hc Hha Hhs Has Hw]; pose proof (size_remove _ _ Ht) as Hsz; split; simpl.
  - lia.
  - symmetry. apply disjoint_add; [symmetry; by apply disjoint_sub|].
    rewrite elem_of_difference. intros [? _]. by apply (disjoint_not u (sm_holders s) (sm_asleep s)).
  - symmetry. apply disjoint_sub. symmetry. by apply disjoint_sub.
  - symmetry. apply disjoint_move; [by symmetry|done].
  - intros _. rewrite size_add by (intros ?; by apply (disjoint_not u (sm_awake s) (sm_asleep s))).
    destruct (decide (sm_asleep s = ∅)) as [E|E]; [rewrite E in Hu; by apply elem_of_empty in Hu|].
    specialize (Hw E). lia.
  - lia.
  - by apply disjoint_sub.
  - by apply disjoint_sub.
  - done.
  - intros []. done.
Qed.

Lemma step_inv p s s' : sem_step s s' → sem_inv p s → sem_inv p s'.
Proof.
  destruct 1 as [t s Hh Ha Hs|t s Ht|s s' [t s0 Ht|t s0 s1 Ht Hr]]; intros I.
  - destruct I as [Hc Hha Hhs Has Hw]. split; simpl; [done| |done| |].
    + symmetry. apply disjoint_add; [by symmetry|done].
    + by apply disjoint_add.
    + rewrite size_add by done. intros ?. specialize (Hw H). lia.
  - destruct I as [Hc Hha Hhs Has Hw]. split; simpl; [done| | | |].
    + symmetry. apply disjoint_add; [by symmetry|]. apply (disjoint_not t (sm_asleep s)); [by symmetry|done].
    + symmetry. apply disjoint_sub. by symmetry.
    + symmetry. apply disjoint_move; [by symmetry|done].
    + intros _. rewrite size_add by (intros ?; by apply (disjoint_not t (sm_awake s) (sm_asleep s))).
      destruct (decide (sm_asleep s = ∅)) as [E|E]; [rewrite E in Ht; by apply elem_of_empty in Ht|].
      specialize (Hw E). lia.
  - by apply look_inv.
  - by eapply released_inv.
Qed.

Lemma reachable_inv permits s : rtc sem_step (sem_init permits) s → sem_inv (semaphore_new permits) s.
Proof.
  intros H. remember (sem_init permits) as s0 eqn:E0.
  assert (sem_inv (semaphore_new permits) s0) as I.
  { subst. split; cbn [sem_init sm_permits sm_holders sm_awake sm_asleep];
      [rewrite size_empty; lia|apply disjoint_empty_l..|done]. }
  clear E0. induction H as [|s0 s1 s2 H _ IH]; [done|]. apply IH. by eapply step_inv.
Qed.

(** *** Liveness *)

Definition waiting (s : SemState) : gset nat := sm_awake s ∪ sm_asleep s.

(** What is left to do: it bounds the steps of a drain. *)
Definition work (s : SemState) : nat :=
  2 * (2 * (size (sm_awake s) + size (sm_asleep s)) + size (sm_holders s)) + size (sm_awake s).

Lemma drain_work p s s' : sem_inv p s → drain s s' → (work s' < work s)%nat.
Proof.
  intros I D. destruct D as [t s0 Ht|t s0 s1 Ht Hr]; destruct I as [Hc Hha Hhs Has Hw]; unfold work.
  - pose proof (size_remove _ _ Ht) as Hsz. unfold look. destruct (_ =? 0); simpl.
    + rewrite (size_add t (sm_asleep s0)) by by apply (disjoint_not t (sm_awake s0)). lia.
    + rewrite (size_add t (sm_holders s0)) by (apply (disjoint_not t (sm_awake s0)); by symmetry || done). lia.
  - pose proof (size_remove _ _ Ht) as Hsz. destruct Hr as [u Hu|He]; simpl; [|lia].
    pose proof (size_remove _ _ Hu) as Hsu.
    rewrite (size_add u (sm_awake s0)) by (intros ?; by apply (disjoint_not u (sm_awake s0) (sm_asleep s0))). lia.
Qed.

Lemma drain_step s s' : drain s s' → sem_step s s'.
Proof. apply s_drain. Qed.

(** A thread leaves [acquire] only with a permit. *)
Lemma drain_waiting s s' t :
  drain s s' → t ∈ waiting s → t ∈ waiting s' ∨ t ∈ sm_holders s'.
Proof.
  unfold waiting. intros [u s0 Hu|u s0 s1 Hu Hr]; rewrite !elem_of_union.
  - unfold look. destruct (_ =? 0); simpl;
      rewrite ?elem_of_union, ?elem_of_difference, ?elem_of_singleton;
      destruct (decide (t = u)); intuition.
  - destruct Hr as [v Hv|He]; simpl; rewrite ?elem_of_union, ?elem_of_difference, ?elem_of_singleton; [|intuition].
    destruct (decide (t = v)); intuition.
Qed.

Lemma drain_served s s' t :
  rtc drain s s' → t ∈ waiting s → t ∉ waiting s' →
  ∃ s1, rtc drain s s1 ∧ rtc drain s1 s' ∧ t ∈ sm_holders s1.
Proof.
  induction 1 as [s|s s1 s2 H Hr IH]; intros Hw Hn; [done|].
  destruct (drain_waiting _ _ _ H Hw) as [Hw1|Hh].
  - destruct (IH Hw1 Hn) as (s3 & H1 & H2 & H3). exists s3. split; [by econstructor|done].
  - exists s1. split; [by econstructor; [|constructor]|done].
Qed.

Lemma sem_inv_drains p s s' : sem_inv p s → rtc drain s s' → sem_inv p s'.
Proof. intros I H. induction H as [|s0 s1 s2 H _ IH]; [done|]. apply IH. by eapply step_inv, I; constructor. Qed.

Lemma drain_bound p s s' n : sem_inv p s → nsteps drain n s s' → (n ≤ work s)%nat.
Proof.
  intros I H. induction H as [|n s0 s1 s2 H _ IH]; [lia|].
  pose proof (drain_work _ _ _ I H). assert (sem_inv p s1) as I1 by (eapply step_inv, I; by constructor).
  specialize (IH I1). lia.
Qed.

(** A state in which nothing can be finished has nobody waiting: here the permit
    that [new] guarantees is needed. *)
Lemma stuck_empty p s : 1 ≤ p → sem_inv p s → (∀ s', ¬ drain s s') → waiting s = ∅.
Proof.
  intros Hp [Hc Hha Hhs Has Hw] Hstuck. unfold waiting.
  assert (sm_awake s = ∅) as Ea.
  { apply set_eq. intros t. split; [|by intros ?%elem_of_empty]. intros Ht. destruct (Hstuck _ (d_look _ _ Ht)). }
  assert (sm_holders s = ∅) as Eh.
  { apply set_eq. intros t. split; [|by intros ?%elem_of_empty]. intros Ht.
    destruct (set_choose_or_empty (sm_asleep s)) as [[u Hu]|He].
    - destruct (Hstuck _ (d_release _ _ _ Ht (notified _ _ _ Hu))).
    - destruct (Hstuck _ (d_release _ _ _ Ht (nobody t s ltac:(by apply leibniz_equiv)))). }
  rewrite Ea, Eh in *. rewrite size_empty in *.
  destruct (decide (sm_asleep s = ∅)) as [->|Hne]; [by rewrite union_empty_l_L|]. specialize (Hw Hne). lia.
Qed.

(** C36. In every reachable state at most [permits.max(1)] threads hold a guard.  If
    from there no thread calls [acquire] any more and holders drop their guards,
    then, in whatever order the threads run, the run ends after a bounded number of
    steps, it ends with nobody waiting, and every thread that waited has held a
    guard: no wake-up is lost. *)
Theorem semaphore_serves (permits : N) (s : SemState) :
  rtc sem_step (sem_init permits) s →
  N.of_nat (size (sm_holders s)) ≤ N.max permits 1 ∧
  (∀ n s', nsteps drain n s s' → (n ≤ work s)%nat) ∧
  ∀ s', rtc drain s s' → (∀ s'', ¬ drain s' s'') →
    waiting s' = ∅ ∧
    ∀ t, t ∈ waiting s → ∃ s1, rtc drain s s1 ∧ rtc drain s1 s' ∧ t ∈ sm_holders s1.
Proof.
  intros I%reachable_inv. split; [destruct I; unfold semaphore_new in *; lia|].
  split; [intros n s'; by eapply drain_bound|]. intros s' Hr Hstuck.
  assert (waiting s' = ∅) as He.
  { eapply stuck_empty; [|by eapply sem_inv_drains|done]. unfold semaphore_new. lia. }
  split; [done|]. intros t Ht. eapply drain_served; [done..|]. rewrite He. apply not_elem_of_empty.
Qed.

Section witnesses.
(** Two threads and one permit, requested as zero: the second sleeps. *)
Definition toy_contended : SemState := mkSem 0 {[0%nat]} ∅ {[1%nat]}.

Lemma toy_contended_reachable : rtc sem_step (sem_init 0) toy_contended.
Proof.
  eapply rtc_l; [apply (s_acquire 0); vm_decide|].
  eapply rtc_l; [apply s_drain, (d_look 0); vm_decide|].
  eapply rtc_l; [apply (s_acquire 1); vm_decide|].
  eapply rtc_l; [apply s_drain, (d_look 1); vm_decide|].
  match goal with |- rtc _ ?s _ => replace s with toy_contended; [constructor|] end.
  vm_compute. done.
Qed.

Lemma semaphore_serves_witness :
  N.of_nat (size (sm_holders toy_contended)) ≤ 1 ∧ waiting toy_contended = {[1%nat]}.
Proof.
  split; [|by vm_compute].
  exact (proj1 (semaphore_serves 0 toy_contended toy_contended_reachable)).
Defined.
End witnesses.
