(* ===== verification/Config.v ===== *)
(** [bins/secgit-server/src/config.rs]: the settings of the server, read from the
    environment.  [std::env::var(key).ok()] is the argument [env]; [usize] has 64 bits;
    a [Duration] is its nanoseconds. *)

From Stdlib Require Import ZArith Floats.SpecFloat.
From S2P Require Import Prelude Text RateLimit Git Http Api Pow.

(** ** [str::parse::<f64>()] *)

(** The binary64 number nearest to [p / q], and to [m * 10 ^ e]. *)
Definition f64_ratio (neg : bool) (p q : positive) : spec_float :=
  let '(m, e, l) := SFdiv_core_binary 53 1024 (Zpos p) 0 (Zpos q) 0 in binary_round_aux 53 1024 neg m e l.
Definition f64_decimal (neg : bool) (m : N) (e : Z) : spec_float :=
  match m with
  | N0 => S754_zero neg
  | Npos p => if (0 <=? e)%Z then f64_ratio neg (p * Z.to_pos (10 ^ e)) 1 else f64_ratio neg p (Z.to_pos (10 ^ (- e)))
  end.

(** The leading digits: their value after [acc], how many there are, and what follows. *)
Fixpoint scan_digits (acc : N) (count : N) (s : bytes) : N * N * bytes :=
  match s with
  | b :: s' => match digit_value b with Some d => scan_digits (acc * 10 + d) (count + 1) s' | None => (acc, count, s) end
  | [] => (acc, count, [])
  end.
Definition scan_sign (s : bytes) : bool * bytes :=
  match s with x2d :: s => (true, s) | x2b :: s => (false, s) | _ => (false, s) end.
(** The exponent; [None]: not one. *)
Definition scan_exponent (s : bytes) : option Z :=
  match s with
  | [] => Some 0%Z
  | b :: s =>
      if bool_decide (lower_byte b = x65) then
        let '(neg, s) := scan_sign s in
        let '(e, n, s) := scan_digits 0 0 s in
        if (n =? 0) || negb (bool_decide (s = [])) then None else Some (if neg then - Z.of_N e else Z.of_N e)%Z
      else None
  end.
Definition parse_f64 (s : bytes) : option spec_float :=
  let '(neg, s) := scan_sign s in
  let word := lower_byte <$> s in
  if bool_decide (word = as_bytes "inf") || bool_decide (word = as_bytes "infinity") then Some (S754_infinity neg)
  else if bool_decide (word = as_bytes "nan") then Some S754_nan
  else
    let '(int, n, s) := scan_digits 0 0 s in
    let '(m, k, s) := match s with x2e :: s => scan_digits int 0 s | _ => (int, 0, s) end in
    if n + k =? 0 then None else e ← scan_exponent s; Some (f64_decimal neg m (e - Z.of_N k)).

(** ** The settings *)

Definition Env : Type := string → option string.
Definition from_secs (n : N) : N := n * NANOS.

Record ServerLimits := mkServerLimits {
  sl_max_connections : N;
  sl_read_timeout : N;
  sl_write_timeout : N;
  sl_max_header_bytes : N;
  sl_max_header_count : N;
  sl_max_body_bytes : N;
  sl_ip_req_capacity : spec_float;
  sl_ip_req_refill : spec_float;
  sl_ip_git_capacity : spec_float;
  sl_ip_git_refill : spec_float;
  sl_account_capacity : spec_float;
  sl_account_refill : spec_float;
  sl_push_capacity : spec_float;
  sl_push_refill : spec_float;
  sl_rl_max_keys : N;
  sl_rl_idle_evict : N;
  sl_seal_concurrency : N;
  sl_git : GitLimits;
}.

Definition server_limits_default : ServerLimits :=
  mkServerLimits 512 (from_secs 30) (from_secs 60) (64 * 1024) 100 (128 * 1024 * 1024)
    (f64_of_N 60) (f64_of_N 10) (f64_of_N 10) (f64_of_N 2) (f64_of_N 30) (f64_of_N 5) (f64_of_N 3) (f64_ratio false 2 10)
    100000 (from_secs 3600) 2 git_limits_default.
Definition pow_config_default : PowConfig := mkPowConfig false 20 300.

Record MetricsConfig := mkMetricsConfig { mc_addr : option string; mc_token : option string }.
Definition metrics_config_default : MetricsConfig := mkMetricsConfig (Some "127.0.0.1:9090") None.

Definition env_present (env : Env) (key : string) : bool := bool_decide (is_Some (env key)).
Definition env_bool (env : Env) (key : string) (default : bool) : bool :=
  match env key with
  | None => default
  | Some v => negb (contains (to_ascii_lowercase (string_of_list_byte (trim (as_bytes v)))) ["0"; "false"; "off"; "no"; EmptyString])
  end.
Definition env_u64 (env : Env) (key : string) (dflt : N) : N := default dflt (env key ≫= λ v, parse_u64 (as_bytes v)).
Definition env_usize : Env → string → N → N := env_u64.
Definition env_f64 (env : Env) (key : string) (dflt : spec_float) : spec_float := default dflt (env key ≫= λ v, parse_f64 (as_bytes v)).

Definition limits_from_env (env : Env) : ServerLimits :=
  let d := server_limits_default in
  let git := mkGitLimits (from_secs (env_u64 env "SECGIT_GIT_TIMEOUT_SECS" 120)) (env_usize env "SECGIT_MAX_FETCH_BYTES" (max_output_bytes (sl_git d)))
               (env_u64 env "SECGIT_MAX_PACK_BYTES" (max_input_bytes (sl_git d))) in
  mkServerLimits (env_usize env "SECGIT_MAX_CONNECTIONS" (sl_max_connections d))
    (from_secs (env_u64 env "SECGIT_READ_TIMEOUT_SECS" 30)) (from_secs (env_u64 env "SECGIT_WRITE_TIMEOUT_SECS" 60))
    (env_usize env "SECGIT_MAX_HEADER_BYTES" (sl_max_header_bytes d)) (env_usize env "SECGIT_MAX_HEADER_COUNT" (sl_max_header_count d))
    (env_usize env "SECGIT_MAX_BODY_BYTES" (sl_max_body_bytes d))
    (env_f64 env "SECGIT_RL_IP_BURST" (sl_ip_req_capacity d)) (env_f64 env "SECGIT_RL_IP_RPS" (sl_ip_req_refill d))
    (env_f64 env "SECGIT_RL_GIT_BURST" (sl_ip_git_capacity d)) (env_f64 env "SECGIT_RL_GIT_RPS" (sl_ip_git_refill d))
    (env_f64 env "SECGIT_RL_ACCOUNT_BURST" (sl_account_capacity d)) (env_f64 env "SECGIT_RL_ACCOUNT_RPS" (sl_account_refill d))
    (env_f64 env "SECGIT_RL_PUSH_BURST" (sl_push_capacity d)) (env_f64 env "SECGIT_RL_PUSH_RPS" (sl_push_refill d))
    (env_usize env "SECGIT_RL_MAX_KEYS" (sl_rl_max_keys d)) (from_secs (env_u64 env "SECGIT_RL_IDLE_EVICT_SECS" 3600))
    (N.max (env_usize env "SECGIT_SEAL_CONCURRENCY" (sl_seal_concurrency d)) 1) git.

Definition http_limits (l : ServerLimits) : HttpLimits :=
  mkHttpLimits (sl_max_header_bytes l) (sl_max_header_count l) (sl_max_body_bytes l).

(** [as u32]. *)
Definition as_u32 (n : N) : N := n mod 2 ^ 32.

Definition pow_from_env (env : Env) : PowConfig :=
  let d := pow_config_default in
  mkPowConfig (env_bool env "SECGIT_POW" false) (as_u32 (env_usize env "SECGIT_POW_BITS" (pw_difficulty_bits d)))
    (env_u64 env "SECGIT_POW_TTL_SECS" (pw_ttl_secs d)).

(** [std::env::var(key).ok().filter(|t| !t.is_empty())]. *)
Definition env_secret (env : Env) (key : string) : option string := t ← env key; if bool_decide (t = EmptyString) then None else Some t.

Definition metrics_from_env (env : Env) : MetricsConfig :=
  let addr := match env "SECGIT_METRICS_ADDR" with
              | Some v =>
                  let t := string_of_list_byte (trim (as_bytes v)) in
                  if bool_decide (to_ascii_lowercase t = "off") || bool_decide (t = EmptyString) then None else Some v
              | None => Some "127.0.0.1:9090"
              end in
  mkMetricsConfig addr (env_secret env "SECGIT_METRICS_TOKEN").

Definition deployment_from_env (env : Env) : DeploymentConfig :=
  let d := default_deployment in
  let light := light_limits d in
  {| sandbox_mode := env_bool env "SECGIT_SANDBOX_MODE" (sandbox_mode d);
     anonymous_enabled := env_present env "SECGIT_ENABLE_ANONYMOUS";
     light_enabled := env_bool env "SECGIT_ENABLE_LIGHT" (light_enabled d);
     managed_enabled := env_bool env "SECGIT_ENABLE_MANAGED" (managed_enabled d);
     ephemeral_ttl_secs := env_u64 env "SECGIT_EPHEMERAL_TTL_SECS" (ephemeral_ttl_secs d);
     ephemeral_max_bytes := env_u64 env "SECGIT_EPHEMERAL_MAX_BYTES" (ephemeral_max_bytes d);
     anon_creates_per_window := as_u32 (env_usize env "SECGIT_ANON_CREATES_PER_WINDOW" (anon_creates_per_window d));
     rate_window_secs := env_u64 env "SECGIT_RATE_WINDOW_SECS" (rate_window_secs d);
     light_limits := {| max_repos := as_u32 (env_usize env "SECGIT_LIGHT_MAX_REPOS" (max_repos light));
                        max_bytes_per_repo := env_u64 env "SECGIT_LIGHT_MAX_BYTES_PER_REPO" (max_bytes_per_repo light);
                        max_total_bytes := env_u64 env "SECGIT_LIGHT_MAX_TOTAL_BYTES" (max_total_bytes light) |};
     managed_limits := managed_limits d;
     managed_requires_byok := env_bool env "SECGIT_MANAGED_REQUIRES_BYOK" (managed_requires_byok d) |}.

(** ** Theory *)

Example parse_f64_examples :
  parse_f64 (as_bytes "60") = Some (f64_of_N 60) ∧ parse_f64 (as_bytes "+6e1") = Some (f64_of_N 60) ∧
  parse_f64 (as_bytes "0.2") = Some (f64_div (f64_of_N 1) (f64_of_N 5)) ∧ parse_f64 (as_bytes ".5E0") = Some (f64_div (f64_of_N 1) (f64_of_N 2)) ∧
  parse_f64 (as_bytes "-7.") = Some (SFopp (f64_of_N 7)) ∧ parse_f64 (as_bytes "Inf") = Some (S754_infinity false) ∧
  parse_f64 (as_bytes ".") = None ∧ parse_f64 (as_bytes "1e") = None ∧ parse_f64 (as_bytes " 1") = None.
Proof. vm_compute. auto 10. Qed.

(** Without any variable the settings are the defaults, and anonymous repositories are off. *)
Lemma unset_defaults env : (∀ key, env key = None) →
  limits_from_env env = server_limits_default ∧ pow_from_env env = pow_config_default ∧ metrics_from_env env = metrics_config_default ∧
  deployment_from_env env =
    {| sandbox_mode := true; anonymous_enabled := false; light_enabled := true; managed_enabled := false;
       ephemeral_ttl_secs := 3600; ephemeral_max_bytes := 50 * 1024 * 1024; anon_creates_per_window := 5;
       rate_window_secs := 3600; light_limits := light_sandbox; managed_limits := managed; managed_requires_byok := true |}.
Proof.
  intros H. unfold limits_from_env, pow_from_env, metrics_from_env, deployment_from_env, env_usize, env_u64, env_f64, env_bool, env_present, env_secret.
  rewrite !H. split_and!; reflexivity.
Qed.

(** A setting that does not fit in 32 bits is taken modulo [2^32]: a difficulty of [2^32]
    bits asks for no work, and a limit of [2^32] repositories allows none. *)
Lemma u32_settings_wrap :
  let env := λ key : string, Some "4294967296" in
  pw_difficulty_bits (pow_from_env env) = 0 ∧ max_repos (light_limits (deployment_from_env env)) = 0.
Proof. split; reflexivity. Qed.

(** *** No setting locks everybody out *)

Lemma SFcompare_swap a b : SFcompare b a = CompOpp <$> SFcompare a b.
Proof.
  destruct a as [|[]| |[] m e], b as [|[]| |[] m' e']; try done; simpl; f_equal;
    rewrite (Z.compare_antisym e e'); destruct (Z.compare e e'); try done; simpl.
  all: change (Pos.compare_cont Eq m' m) with (Pos.compare m' m); change (Pos.compare_cont Eq m m') with (Pos.compare m m').
  all: rewrite (Pos.compare_antisym m m'); by destruct (Pos.compare m m').
Qed.
Lemma SFcompare_refl y : y ≠ S754_nan → SFcompare y y = Some Eq.
Proof. destruct y as [|[]| |[] m e]; try done; intros _; simpl; by rewrite Z.compare_refl, Pos.compare_cont_refl. Qed.
Lemma f64_max_ge x y : y ≠ S754_nan → f64_ge (f64_max x y) y = true.
Proof.
  intros Hy. pose proof (SFcompare_refl y Hy) as Hr. unfold f64_ge, SFleb, f64_max.
  destruct (SFcompare x y) as [[]|] eqn:E; rewrite ?Hr; try done.
  1, 2: by rewrite SFcompare_swap, E.
  destruct x; rewrite ?Hr; try done; by destruct y.
Qed.

(** A bucket that is full stays full when it is refilled. *)
Lemma refilled_full cap rate : f64_ge cap (f64_of_N 1) = true →
  f64_min (f64_add cap (f64_mul (S754_zero false) rate)) cap = cap.
Proof.
  intros Hc. assert (cap ≠ S754_nan) as Hn by by intros ->.
  assert (f64_add cap (f64_mul (S754_zero false) rate) = cap ∨ f64_add cap (f64_mul (S754_zero false) rate) = S754_nan) as [->| ->].
  - destruct cap as [s|s| |s m e]; [by destruct s|..]; [|done|]; destruct rate as [s'|s'| |s' m' e']; auto.
  - unfold f64_min. by rewrite SFcompare_refl.
  - unfold f64_min. by destruct cap.
Qed.

(** Whatever the settings, a limiter admits the first request of a client. *)
Lemma first_request_admitted capacity refill max_keys idle now key t :
  (check (limiter_new capacity refill max_keys idle now) key t).1 = true.
Proof.
  assert (∀ rl, rl_buckets rl = ∅ → rl_max_keys rl = N.max max_keys 1 → rl_capacity rl = f64_max capacity (f64_of_N 1) →
    (check rl key t).1 = true) as H; [|by apply H].
  intros rl Hb Hk Hc. unfold check.
  assert (make_room (sweep rl t) key t = (sweep rl t, true) ∧ rl_buckets (sweep rl t) = ∅ ∧
    rl_capacity (sweep rl t) = f64_max capacity (f64_of_N 1)) as (-> & -> & Hc').
  { assert (rl_buckets (sweep rl t) = ∅ ∧ rl_max_keys (sweep rl t) = N.max max_keys 1 ∧ rl_capacity (sweep rl t) = f64_max capacity (f64_of_N 1))
      as (Hb' & Hk' & Hc').
    { unfold sweep. destruct (_ <=? _); [|done]. cbn [with_buckets rl_buckets rl_max_keys rl_capacity]. split_and!; [|done..].
      unfold retain_live. by rewrite Hb. }
    split_and!; [|done..]. unfold make_room, full. rewrite Hb', Hk', lookup_empty, map_size_empty.
    destruct (N.leb_spec (N.max max_keys 1) (N.of_nat 0)); [lia|done]. }
  rewrite lookup_empty. cbn [default fst]. unfold refilled. cbn [b_tokens b_last]. rewrite N.sub_diag, Hc'.
  change (as_secs_f64 0) with (S754_zero false). rewrite refilled_full; by apply f64_max_ge.
Qed.
