(* ===== verification/Json.v ===== *)
(** JSON values: the enum [serde_json::Value] that the SCIM service and the server's
    routes build and read.  The parser and the printer are the class [JsonText]. *)

From S2P Require Import Prelude Text BTree.

Inductive Value :=
| VNull
| VBool (b : bool)
| VNumber (literal : string)
| VString (s : string)
| VArray (l : list Value)
| VObject (m : list (string * Value)).

(** An object is a [BTreeMap]: keys in increasing order, each once. *)
Fixpoint obj_insert (k : string) (v : Value) (m : list (string * Value)) : list (string * Value) :=
  match m with
  | [] => [(k, v)]
  | (k', v') :: m' =>
      if bool_decide (k = k') then (k, v) :: m'
      else if String.leb k k' then (k, v) :: m
      else (k', v') :: obj_insert k v m'
  end.
Fixpoint obj_get (k : string) (m : list (string * Value)) : option Value :=
  match m with
  | [] => None
  | (k', v) :: m => if bool_decide (k = k') then Some v else obj_get k m
  end.

(** [json!({ .. })], [v.get(key)] and the [as_*] accessors. *)
Definition json (fields : list (string * Value)) : Value :=
  VObject (fold_left (λ m kv, obj_insert kv.1 kv.2 m) fields []).
Definition get (k : string) (v : Value) : option Value := match v with VObject m => obj_get k m | _ => None end.
Definition as_str (v : Value) : option string := match v with VString s => Some s | _ => None end.
Definition as_bool (v : Value) : option bool := match v with VBool b => Some b | _ => None end.
Definition as_array (v : Value) : option (list Value) := match v with VArray l => Some l | _ => None end.
(** A number is kept as it was written; one with a sign, a fraction or an exponent, or
    above [u64::MAX], is not a [u64]. *)
Definition as_u64 (v : Value) : option N := match v with VNumber s => parse_u64 (as_bytes s) | _ => None end.
Definition is_null (v : Value) : bool := match v with VNull => true | _ => false end.
Definition get_str (k : string) (v : Value) : option string := get k v ≫= as_str.

(** An [Option<String>] as a field. *)
Definition opt_string (o : option string) : Value := match o with Some s => VString s | None => VNull end.
Definition number (n : N) : Value := VNumber (pretty n).

(** [serde_json::from_slice] with the message of its error, and [to_string]. *)
Class JsonText := {
  json_from_slice : bytes → result string Value;
  json_to_string : Value → bytes;
}.

(** ** Theory *)

Lemma obj_get_insert k k' v m : obj_get k (obj_insert k' v m) = if bool_decide (k = k') then Some v else obj_get k m.
Proof.
  induction m as [|[k0 v0] m IH]; cbn [obj_insert obj_get]; [done|].
  destruct (bool_decide_reflect (k' = k0)) as [->|H1]; cbn [obj_get]; [by destruct (bool_decide (k = k0))|].
  destruct (String.leb k' k0); cbn [obj_get]; [done|]. rewrite IH.
  destruct (bool_decide_reflect (k = k')), (bool_decide_reflect (k = k0)); congruence.
Qed.

(** A field of [json!({ .. })] is the last one written under its key. *)
Lemma get_json k l : get k (json l) = obj_get k (reverse l).
Proof.
  unfold json, get. assert (∀ m, obj_get k (fold_left (λ m kv, obj_insert kv.1 kv.2 m) l m) =
    match obj_get k (reverse l) with Some v => Some v | None => obj_get k m end) as H.
  2:{ rewrite (H []). by destruct (obj_get k (reverse l)). }
  induction l as [|[k0 v0] l IH]; intros m; cbn [fold_left]; [done|]. rewrite IH, reverse_cons.
  assert (∀ a b, obj_get k (a ++ b) = match obj_get k a with Some v => Some v | None => obj_get k b end) as ->.
  { intros a b. induction a as [|[k1 v1] a IHa]; cbn [app obj_get]; [done|]. by destruct (bool_decide (k = k1)). }
  destruct (obj_get k (reverse l)); [done|]. rewrite obj_get_insert. cbn [obj_get fst snd]. by destruct (bool_decide (k = k0)).
Qed.
