(* ===== verification/KeyStart.v ===== *)
(** How the server gets its key: [acquire_kek] and what it uses of
    [bins/secgit-server/src/main.rs], and the client of a remote broker, [kbs.rs].

    [env] is the environment, [read_file] the files it points at, [attester] and [snp] what
    the hardware gives.  The world is the data directory with the random generator.  Errors
    are their outermost text. *)

From S2P Require Import Prelude Text Backend Toy Envelope Primitives Aead Kem Fs Attest Replay Vcek KeyBroker Json Config.

(** [secgit_net::https_post_json]. *)
Class HttpsPostJson := https_post_json : string → bytes → result string bytes.

Definition parse_u32 (s : bytes) : option N := n ← parse_u64 s; if n <? 2 ^ 32 then Some n else None.

Section keys.
Context `{RND : SystemRandom} `{DIG : Digests} `{MAC : Hmacs} `{AB : AeadBackend} `{XK : X25519} `{MK : !MlKem} `{HX : Hex}.
Context `{SS : Serde SeenState} `{SMR : Serde MockReport} `{SRq : Serde ReleaseRequest} `{SRs : Serde ReleaseResponse}.
Context `{X : X509} `{JT : JsonText} `{HJ : HttpsPostJson}.
(** [ECDSA_P384_SHA384_FIXED] verification, and the text of an error of the broker. *)
Context (ecdsa : bytes → bytes → bytes → bool) (broker_text : BrokerError → string) (crypto_text : CryptoError → string).

Abbreviation BState := (SeenState * World)%type.

(** ** The remote broker *)

Record HttpKbsClient := mkKbsClient { kc_release_url : string }.

(** [base_url.trim_end_matches('/')]. *)
Definition trim_slashes_end (s : string) : string :=
  string_of_list_byte (reverse (drop_while (λ b, bool_decide (b = x2f)) (reverse (as_bytes s)))).
Definition kbs_new (base_url : string) (drivers : list string) : result string HttpKbsClient :=
  _ ← assert_provider_neutral (mkTrustee base_url drivers); Ok (mkKbsClient (trim_slashes_end base_url +:+ "/release")).
Definition kbs_release (c : HttpKbsClient) : KeyRelease := λ req,
  resp ← lift (map_err (λ _, NotConfigured "KBS release request failed") (https_post_json (kc_release_url c) (to_vec req)));
  lift (ok_or (BrokerMalformed "decode KBS response") (from_slice resp)).

(** ** The broker in the process *)

Definition INSTANCE_KEK : string := "secgit/instance-kek".

Definition local_kek_material (env : Env) : eff World string Aead.SymKey :=
  match env "SECGIT_DEV_KEK_HEX" with
  | Some h =>
      b ← lift (ok_or "SECGIT_DEV_KEK_HEX must be hex" (hex_decode h));
      if negb (Nat.eqb (length b) 32) then throw "SECGIT_DEV_KEK_HEX must be 32 bytes" else mret b
  | None => eff_map_err (λ e, "KEK material: " +:+ crypto_text e) (with_gen Aead.generate)
  end.

Definition reference_measurement (read_file : string → result string bytes) (path : string) : result string bytes :=
  b ← map_err (λ _, "reading " +:+ path) (read_file path);
  j ← json_from_slice b;
  hex_m ← ok_or "snp-reference.json missing measurement_hex" (get_str "measurement_hex" j);
  m ← ok_or "measurement_hex not hex" (hex_decode hex_m);
  if negb (Nat.eqb (length m) 48) then Err "measurement must be 48 bytes" else Ok m.

Definition snp_policy (env : Env) (read_file : string → result string bytes) (snp : bool) : result string Policy :=
  allowed ← match env "SECGIT_SNP_REFERENCE" with
            | Some path => m ← reference_measurement read_file path; Ok [m]
            | None => Ok []
            end;
  Ok {| allowed_measurements := allowed; require_vendor_root := snp;
        expected_vmpl := if snp then Some (default 0 (env "SECGIT_SNP_EXPECTED_VMPL" ≫= λ v, parse_u32 (as_bytes v))) else None |}.

Definition revocation_from_env (env : Env) : RevocationConfig :=
  mkRevocation (negb (env_present env "SECGIT_DISABLE_REVOCATION"))
    (env_u64 env "SECGIT_CRL_MAX_AGE_SECS" (rc_max_crl_age_secs default_revocation)).

(** The resolver asks the cache and the vendor; one report is verified per start. *)
Definition build_snp_verifier (env : Env) (fetch : string → result AttestError bytes) (cache : Cache) : result string SnpVerifier :=
  product ← ok_or "SECGIT_SNP_PRODUCT must be Milan or Genoa" (product_parse (default "Milan" (env "SECGIT_SNP_PRODUCT")));
  Ok (snp_with_resolver (λ chip_id tcb, (resolve_vcek fetch product chip_id tcb (revocation_from_env env) cache).1)).

Definition start_verifier (env : Env) (snp : bool) (fetch : string → result AttestError bytes) (cache : Cache) : result string Verifier :=
  if snp then v ← build_snp_verifier env fetch cache; Ok (snp_verifier ecdsa v) else Ok mock_verifier.

(** A step of the broker on the world, with the state of the guard. *)
Definition with_guard {A} (what : string) (st : SeenState) (c : eff BState BrokerError A) : eff World string A := λ w,
  let '(r, (_, w)) := c (st, w) in (map_err (λ e, what +:+ broker_text e) r, w).

(** [timestamp] is the guest's clock, [now] the broker's. *)
Definition acquire_kek (env : Env) (read_file : string → result string bytes) (attester : Attester) (snp : bool)
    (fetch : string → result AttestError bytes) (cache : Cache) (timestamp now : N) : eff World string Aead.SymKey :=
  match env "SECGIT_KBS_URL" with
  | Some url =>
      client ← lift (map_err (λ e, "KBS config rejected: " +:+ e) (kbs_new url ["snp"; "tdx"]));
      with_guard "KBS attestation-gated KEK release failed: " seen_default
        (attest_and_unwrap (default INSTANCE_KEK (env "SECGIT_KEK_RESOURCE")) attester (kbs_release client) timestamp)
  | None =>
      kek ← local_kek_material env;
      policy ← lift (snp_policy env read_file snp);
      verifier ← lift (start_verifier env snp fetch cache);
      guard ← (λ w, let '(g, w) := guard_open ["replay-guard.json"] (env_u64 env "SECGIT_REPLAY_TTL_SECS" 300) w in (Ok g, w));
      let broker := with_replay_guard (broker_new verifier policy (kek_insert ∅ INSTANCE_KEK kek)) guard.1 in
      with_guard "attestation-gated KEK release failed: " guard.2 (attest_and_unwrap INSTANCE_KEK attester (release broker now) timestamp)
  end.

(** ** Theory *)

(** What stands behind a report: the signature in it is one of the chip's key, from a
    certificate for exactly this chip and firmware that chains to the pinned root of the
    configured product; and, unless revocation is switched off, a revocation list of the
    issuer, from the cache where it was young enough or from the vendor, not expired beyond
    the configured window at the time of the check, does not list it. *)
Definition genuine_report (env : Env) (fetch : string → result AttestError bytes) (cache : Cache) (b : bytes) : Prop :=
  ∃ product k der ask vcek,
    product_parse (default "Milan" (env "SECGIT_SNP_PRODUCT")) = Some product ∧
    ecdsa (sec1_uncompressed k) (slice 0 OFF_SIGNATURE b) (report_signature b) = true ∧
    let chip := slice OFF_CHIP_ID 64 b in
    let tcb := tcb_from_reported (from_le_bytes (slice OFF_REPORTED_TCB 8 b)) in
    (fst <$> vc_files cache !! vcek_name product chip tcb = Some der ∨ fetch (kds_vcek_url product chip tcb) = Ok der) ∧
    cert_from_der der = Some vcek ∧ chains_to_root product ask vcek ∧ sec1_uncompressed k = cert_spki_key vcek ∧
    (env "SECGIT_DISABLE_REVOCATION" = None → not_revoked fetch product ask (cert_serial vcek) (revocation_from_env env) cache).

Lemma local_kek_configured env w k w1 h :
  local_kek_material env w = (Ok k, w1) → env "SECGIT_DEV_KEK_HEX" = Some h → hex_decode h = Some k.
Proof.
  unfold local_kek_material. intros E Hh. rewrite Hh in E. unfold lift, mbind, eff_mbind in E.
  destruct (hex_decode h) as [b|]; [|done]. cbn [ok_or] in E. destruct (negb _); [done|]. by injection E as -> _.
Qed.

Lemma local_kek_drawn env w k w1 :
  local_kek_material env w = (Ok k, w1) → env "SECGIT_DEV_KEK_HEX" = None → ∃ g0, Aead.generate (w_gen w) = (Ok k, g0).
Proof.
  unfold local_kek_material. intros E Hh. rewrite Hh in E. unfold eff_map_err, with_gen in E.
  destruct (Aead.generate (w_gen w)) as [[k0|e] g0]; [|done]. injection E as -> _. by exists g0.
Qed.

(** What the broker draws is drawn from the generator of the world. *)
Lemma crypto_draws {A} (c : eff rng CryptoError A) st w x st' w' :
  crypto c (st, w) = (Ok x, (st', w')) → ∃ g, c (w_gen w) = (Ok x, g) ∧ w_gen w' = g.
Proof.
  intros (_ & r0 & g & Hc & Hr & ->)%crypto_inv. exists g. destruct r0; [|done]. by injection Hr as ->.
Qed.
Lemma read_gen p w : w_gen (read p w).2 = w_gen w.
Proof. unfold read, io, next. destruct (w_sched w) as [|[] ?]; simpl; try done; by case_match. Qed.
Lemma guard_open_spec p ttl w g st w' : guard_open p ttl w = ((g, st), w') →
  rg_ttl_secs g = ttl ∧ rg_future_skew_secs g = DEFAULT_FUTURE_SKEW ∧ w_gen w' = w_gen w.
Proof.
  unfold guard_open. destruct (read p w) as [r w0] eqn:E. intros [= <- _ <-]. split_and!; [done..|].
  apply (f_equal (λ x, w_gen x.2)) in E. simpl in E. rewrite <-E. apply read_gen.
Qed.

Lemma snp_policy_spec env read_file policy : snp_policy env read_file true = Ok policy →
  require_vendor_root policy = true ∧
  expected_vmpl policy = Some (default 0 (env "SECGIT_SNP_EXPECTED_VMPL" ≫= λ v, parse_u32 (as_bytes v))) ∧
  ∀ path, env "SECGIT_SNP_REFERENCE" = Some path →
    ∃ m, reference_measurement read_file path = Ok m ∧ allowed_measurements policy = [m].
Proof.
  unfold snp_policy. destruct (env "SECGIT_SNP_REFERENCE") as [path|]; cbn [mbind result_mbind].
  - destruct (reference_measurement _ _) as [m|] eqn:E; [|done]. intros [= <-]. split_and!; [done..|].
    intros path' [= <-]. eauto.
  - intros [= <-]. by split_and!.
Qed.

Lemma guard_accepts g st nonce timestamp now w r : check_and_record_at g nonce timestamp now (st, w) = (Ok (), r) →
  now - rg_ttl_secs g ≤ timestamp ≤ sat_add64 now (rg_future_skew_secs g).
Proof.
  unfold check_and_record_at, floor. destruct (N.ltb_spec timestamp (now - rg_ttl_secs g)); [done|].
  destruct (N.ltb_spec (sat_add64 now (rg_future_skew_secs g)) timestamp); [done|]. done.
Qed.

Lemma start_verifier_spec env fetch cache vf ev expected policy c :
  start_verifier env true fetch cache = Ok vf → require_vendor_root policy = true → vf_verify vf ev expected policy = Ok c →
  let b := ev_report ev in
  ev_backend ev = SevSnp ∧ (REPORT_MIN_LEN ≤ length b)%nat ∧ slice OFF_REPORT_DATA 64 b = expected ∧
  (allowed_measurements policy = [] ∨ slice OFF_MEASUREMENT 48 b ∈ allowed_measurements policy) ∧
  (∀ e, expected_vmpl policy = Some e → from_le_bytes (slice OFF_VMPL 4 b) = e) ∧ genuine_report env fetch cache b.
Proof.
  unfold start_verifier, build_snp_verifier. destruct (product_parse _) as [product|] eqn:Ep; [|done]. intros [= <-] Hr Hv.
  apply snp_verify_inv in Hv as (H1 & H2 & H3 & H4 & H5 & H6 & _). split_and!; try done.
  destruct (H6 Hr) as (_ & k & Hs & [Hk|(_ & r & [= <-] & Hk)]); [done|].
  destruct (resolve_vcek _ _ _ _ _ cache) as [res cache'] eqn:E. simpl in Hk. subst res.
  apply resolve_vcek_genuine in E as (der & ask & vcek & Hd & Hc & Hch & _ & Hpk & _ & _ & Hn).
  exists product, k, der, ask, vcek. cbv zeta. split_and!; try done. intros He. apply Hn.
  unfold revocation_from_env, env_present. by rewrite He.
Qed.

(** C38. How a server on real hardware gets its key.  When no remote broker is configured
    and the hardware attests, the server starts with a key only if: the key is the
    configured one or was drawn from the system generator; then in this start a key pair
    and, after it, a nonce of 32 bytes were drawn from that generator; the attester
    produced, for the binding of that nonce, the time and that public key, a report that
    was accepted, namely an SNP report of full length carrying that binding, at the
    privilege level asked for, with the published launch measurement when one is
    configured, whose own signature is one of the chip's key, with a certificate for that
    chip and firmware that chains to the vendor's pinned root and, unless revocation is
    switched off, is not on a current revocation list of its issuer; and the time was
    within the replay window. *)
Theorem start_key_attested env read_file attester fetch cache timestamp now w w' k :
  env "SECGIT_KBS_URL" = None →
  acquire_kek env read_file attester true fetch cache timestamp now w = (Ok k, w') →
  ∃ w1 kp g1 nonce g2 ev,
    local_kek_material env w = (Ok k, w1) ∧ Aead.key_wf k ∧
    (∀ h, env "SECGIT_DEV_KEK_HEX" = Some h → hex_decode h = Some k) ∧
    (env "SECGIT_DEV_KEK_HEX" = None → ∃ g0, Aead.generate (w_gen w) = (Ok k, g0)) ∧
    Kem.generate (w_gen w1) = (Ok kp, g1) ∧ random_vec 32 g1 = (Ok nonce, g2) ∧
    let pk := Kem.to_bytes (Kem.public kp) in
    get_evidence attester (release_report_data nonce timestamp pk) = Ok ev ∧
    let b := ev_report ev in
    ev_backend ev = SevSnp ∧ (REPORT_MIN_LEN ≤ length b)%nat ∧
    slice OFF_REPORT_DATA 64 b = release_report_data nonce timestamp pk ∧
    from_le_bytes (slice OFF_VMPL 4 b) = default 0 (env "SECGIT_SNP_EXPECTED_VMPL" ≫= λ v, parse_u32 (as_bytes v)) ∧
    (∀ path, env "SECGIT_SNP_REFERENCE" = Some path → reference_measurement read_file path = Ok (slice OFF_MEASUREMENT 48 b)) ∧
    genuine_report env fetch cache b ∧
    now - env_u64 env "SECGIT_REPLAY_TTL_SECS" 300 ≤ timestamp ≤ sat_add64 now DEFAULT_FUTURE_SKEW.
Proof.
  intros Hk. unfold acquire_kek. rewrite Hk. unfold mbind, eff_mbind, lift.
  destruct (local_kek_material env w) as [[kek|e] w1] eqn:Em; [|done].
  destruct (snp_policy env read_file true) as [policy|e] eqn:Ep; [|done]. destruct (start_verifier _ _ _ _) as [vf|e] eqn:Ev; [|done].
  destruct (guard_open _ _ w1) as [[g st] w2] eqn:Eg. cbn [fst snd]. unfold with_guard.
  destruct (attest_and_unwrap _ _ _ _ _) as [[k'|e] [st' w3]] eqn:Ea; [|done]. intros [= <- <-].
  apply attest_and_unwrap_iff in Ea as (kp & [st1 w6] & nonce & [st2 w4] & ev & resp & Hgen & Hnon & He & Hr & Hg & Hwf).
  assert (get_kek (lb_keks (with_replay_guard (broker_new vf policy (kek_insert ∅ INSTANCE_KEK kek)) g)) INSTANCE_KEK = Some kek) as Hg'
    by apply lookup_insert_eq. rewrite Hg in Hg'. injection Hg' as ->.
  apply crypto_draws in Hgen as (g1 & Hgen & Hw6). apply crypto_draws in Hnon as (g2 & Hnon & _). rewrite Hw6 in Hnon.
  destruct (guard_open_spec _ _ _ _ _ _ Eg) as (Httl & Hskew & Hgen1). rewrite Hgen1 in Hgen.
  apply release_iff in Hr as (claims & w5 & kek2 & rec & g' & Hv & Hrg & _). cbn [lb_verifier lb_policy lb_replay_guard with_replay_guard broker_new
    rq_evidence rq_nonce rq_timestamp rq_runtime_pubkey] in Hv, Hrg.
  destruct (snp_policy_spec _ _ _ Ep) as (Hroot & Hvm & Href). apply guard_accepts in Hrg. rewrite Httl, Hskew in Hrg.
  destruct (start_verifier_spec _ _ _ _ _ _ _ _ Ev Hroot Hv) as (H1 & H2 & H3 & H4 & H5 & H6).
  exists w1, kp, g1, nonce, g2, ev. split; [done|]. split; [done|]. split; [intros h; by eapply local_kek_configured|].
  split; [intros Hn; by eapply local_kek_drawn|]. split; [done|]. split; [done|]. split; [done|]. split_and!; try done; [by apply H5| |apply Hrg..].
  intros path Hp. destruct (Href path Hp) as (m & Hm & Ha). rewrite Ha in H4. rewrite Hm. destruct H4 as [?|H4]; [done|].
  by apply list_elem_of_singleton in H4 as ->.
Qed.
End keys.

(** ** A start on a chip that signs with its key *)

Section witnesses.
#[local] Existing Instance toy_rng.
#[local] Existing Instance toy_digests.
#[local] Existing Instance toy_hmacs.
#[local] Existing Instance toy_aead.
#[local] Existing Instance toy_x25519.
#[local] Existing Instance toy_mlkem.
#[local] Existing Instance toy_hex.
#[local] Existing Instance toy_serde.
#[local] Existing Instance toy_x509.

Definition backend_code (b : TeeBackend) : N := match b with Mock => 0 | SevSnp => 1 | Tdx => 2 end.
Definition request_code (r : ReleaseRequest) :=
  (rq_resource_id r, (backend_code (ev_backend (rq_evidence r)), ev_report (rq_evidence r), ev_runtime_pubkey (rq_evidence r)),
   rq_runtime_pubkey r, rq_nonce r, rq_timestamp r).
Definition request_uncode (x : string * (N * bytes * bytes) * bytes * bytes * N) : option ReleaseRequest :=
  let '(id, (b, rep, pk), rpk, n, t) := x in
  Some (mkRequest id (mkEvidence (if b =? 0 then Mock else if b =? 1 then SevSnp else Tdx) rep pk) rpk n t).
Lemma request_uncode_code r : request_uncode (request_code r) = Some r.
Proof. by destruct r as [? [[] ? ?] ? ? ?]. Qed.
#[local] Instance Evidence_eq_dec : EqDecision Evidence.
Proof. solve_decision. Defined.
#[local] Instance ReleaseRequest_eq_dec : EqDecision ReleaseRequest.
Proof. solve_decision. Defined.
#[local] Instance ReleaseRequest_countable : Countable ReleaseRequest := inj_countable request_code request_uncode request_uncode_code.
#[local] Instance ReleaseResponse_eq_dec : EqDecision ReleaseResponse.
Proof. solve_decision. Defined.
Lemma response_uncode_code r : Some (mkResponse (rs_wrapped r)) = Some r.
Proof. by destruct r. Qed.
#[local] Instance ReleaseResponse_countable : Countable ReleaseResponse := inj_countable rs_wrapped (λ b, Some (mkResponse b)) response_uncode_code.
#[local] Instance no_kbs : HttpsPostJson := λ url body, Err "unreachable".

Definition chip_report (rd : bytes) : bytes :=
  concat [to_le_bytes 4 2; repeat x00 44; to_le_bytes 4 0; repeat x00 28; rd; repeat x5e 48; repeat x00 32; repeat x00 160;
          to_le_bytes 8 77; repeat x00 24; repeat x22 64; repeat x00 192; repeat x07 48; repeat x00 24; repeat x07 48; repeat x00 24; repeat x00 368].
Definition chip_attester : Attester := mkAttester SevSnp (λ rd, Ok (mkEvidence SevSnp (chip_report rd) [])).
Definition chip_ecdsa (k m s : bytes) : bool := bool_decide (k = x04 :: s).

Definition start_key : Aead.SymKey := to_le_bytes 32 4242.
#[local] Instance start_json : JsonText := {|
  json_from_slice b := Ok (json [("measurement_hex", VString (hex_encode (repeat x5e 48)))]);
  json_to_string v := [] |}.
Definition start_env : Env := λ key,
  if bool_decide (key = "SECGIT_DEV_KEK_HEX") then Some (hex_encode start_key)
  else if bool_decide (key = "SECGIT_SNP_REFERENCE") then Some "reference.json" else None.

Definition start : result string Aead.SymKey * World :=
  acquire_kek chip_ecdsa (λ _, EmptyString) (λ _, EmptyString) start_env (λ _, Ok []) chip_attester true toy_fetch toy_cache 1000 1000 toy_disk.

(** The server starts with the configured key, and the report it showed is pinned. *)
Lemma start_key_attested_witness :
  start.1 = Ok start_key ∧ reference_measurement (λ _, Ok []) "reference.json" = Ok (repeat x5e 48) ∧ hex_decode (hex_encode start_key) = Some start_key.
Proof.
  assert (start.1 = Ok start_key) as E by vm_refl. split; [exact E|]. split; [vm_refl|].
  destruct start as [r w'] eqn:Es. simpl in E. subst r.
  destruct (start_key_attested chip_ecdsa (λ _, EmptyString) (λ _, EmptyString) start_env (λ _, Ok []) chip_attester toy_fetch toy_cache
    1000 1000 toy_disk w' start_key) as (? & ? & ? & ? & ? & ? & _ & _ & H & _); [reflexivity|exact Es|]. apply H. reflexivity.
Defined.
End witnesses.
