(* ===== verification/ForgeExec.v ===== *)
(** How the forge runs git, [crates/secgit-forge/src/lib.rs]: the wall-clock cap and the
    listing of the working path.

    A child is what the server sees of it: the clock at its start, the answers of
    [try_wait] with the clock after each, and the reads of its two outputs, which threads of
    their own read to the end.  [None] is a call that does not return: it is still polling,
    or joins a thread whose pipe stays open. *)

From S2P Require Import Prelude Text Forge Git Ssh Config.

Definition DEFAULT_GIT_TIMEOUT_SECS : N := 120.
(** In seconds, at least one. *)
Definition git_timeout (env : Env) : N :=
  N.max (default DEFAULT_GIT_TIMEOUT_SECS (v ← env "SECGIT_GIT_TIMEOUT_SECS"; parse_u64 (as_bytes v))) 1.

Record ExecChild := mkExecChild { ec_start : N; ec_polls : list Poll; ec_stdout : reads; ec_stderr : reads }.
Record Output := mkOutput { ou_success : bool; ou_stdout : bytes; ou_stderr : bytes }.

Definition killed (timeout : N) : ForgeError :=
  FGit ("git subprocess exceeded the " +:+ pretty timeout +:+ "s wall-clock cap and was killed").

(** The loop; [inl] is [?], which returns at once, [inr] is what is left after the kill or
    the exit.  The deadline is in nanoseconds. *)
Fixpoint exec_loop (timeout deadline : N) (polls : list Poll) : option (ForgeError + result ForgeError bool) :=
  match polls with
  | [] => None
  | p :: polls =>
      match pl_wait p with
      | Err _ => Some (inl FIo)
      | Ok (Some success) => Some (inr (Ok success))
      | Ok None => if deadline <=? pl_now p then Some (inr (Err (killed timeout))) else exec_loop timeout deadline polls
      end
  end.

(** [child] is [None] when it cannot be spawned. *)
Definition exec_with_timeout (child : option ExecChild) (timeout : N) : option (result ForgeError Output) :=
  match child with
  | None => Some (Err FIo)
  | Some ch =>
      r ← exec_loop timeout (ec_start ch + timeout * 10 ^ 9) (ec_polls ch);
      match r with
      | inl e => Some (Err e)
      | inr r =>
          '(_, out) ← read_to_end (ec_stdout ch) [];
          '(_, err) ← read_to_end (ec_stderr ch) [];
          Some (success ← r; Ok (mkOutput success out err))
      end
  end.

(** [args] is the command line as it is shown in the message. *)
Definition run_git_child (args : string) (child : option ExecChild) (timeout : N) : option (result ForgeError bytes) :=
  r ← exec_with_timeout child timeout;
  Some (out ← r;
        if ou_success out then Ok (ou_stdout out)
        else Err (FGit ("git " +:+ args +:+ " failed: " +:+ string_of_list_byte (from_utf8_lossy (ou_stderr out))))).

(** ** The working path *)

(** An entry of the directory: its name, if it is UTF-8, and whether it is known to be a
    directory; the listing is [None] when it cannot be read. *)
Record DirEntry := mkDirEntry { de_name : option bytes; de_is_dir : bool }.
Definition strip_suffix (suffix s : bytes) : option bytes := reverse <$> strip_prefix (reverse suffix) (reverse s).
Definition working_dir_stems (listing : option (list DirEntry)) : list string :=
  match listing with
  | None => []
  | Some entries =>
      omap (λ e, if de_is_dir e then n ← de_name e; stem ← strip_suffix (as_bytes ".git") n; Some (string_of_list_byte stem) else None) entries
  end.

(** ** Theory *)

(** When the pipes are closed, a command cannot pin a request: as soon as a poll is past the
    deadline the call has ended, with the status of the child or an error. *)
Lemma exec_returns args ch timeout p : p ∈ ec_polls ch → ec_start ch + timeout * 10 ^ 9 ≤ pl_now p →
  is_Some (read_to_end (ec_stdout ch) []) → is_Some (read_to_end (ec_stderr ch) []) → is_Some (run_git_child args (Some ch) timeout).
Proof.
  intros Hin Hp [[t1 out] Ho] [[t2 err] He]. unfold run_git_child, exec_with_timeout. set (deadline := ec_start ch + _) in *.
  assert (is_Some (exec_loop timeout deadline (ec_polls ch))) as [r ->].
  { induction (ec_polls ch) as [|q polls IH]; [by apply not_elem_of_nil in Hin|]. cbn. destruct (pl_wait q) as [[s|]|]; [eauto| |eauto].
    destruct (N.leb_spec deadline (pl_now q)); [eauto|]. apply elem_of_cons in Hin as [->|Hin]; [lia|auto]. }
  cbn. destruct r; [cbn; eauto|]. rewrite Ho, He. cbn. eauto.
Qed.

(** What a command printed is returned only if it ended by itself, with success, at a poll
    with no earlier poll past the deadline, and its pipes were closed. *)
Lemma exec_ok args child timeout out : run_git_child args child timeout = Some (Ok out) ↔
  ∃ ch polls p rest, child = Some ch ∧ (∃ t, read_to_end (ec_stdout ch) [] = Some (t, out)) ∧ is_Some (read_to_end (ec_stderr ch) []) ∧
    ec_polls ch = polls ++ p :: rest ∧ pl_wait p = Ok (Some true) ∧
    Forall (λ q, pl_wait q = Ok None ∧ pl_now q < ec_start ch + timeout * 10 ^ 9) polls.
Proof.
  assert (∀ deadline polls, exec_loop timeout deadline polls = Some (inr (Ok true)) ↔
    ∃ l p rest, polls = l ++ p :: rest ∧ pl_wait p = Ok (Some true) ∧ Forall (λ q, pl_wait q = Ok None ∧ pl_now q < deadline) l) as K.
  { intros deadline. induction polls as [|q polls IH]; cbn [exec_loop].
    - split; [done|]. by intros ([] & ? & ? & ? & _).
    - destruct (pl_wait q) as [[s|]|] eqn:Eq.
      + split; [intros [= ->]; by exists [], q, polls|]. intros ([|x l] & p & rest & [= -> ->] & Hw & Hl); [congruence|].
        apply Forall_cons in Hl as [[? _] _]. congruence.
      + destruct (N.leb_spec deadline (pl_now q)) as [Hd|Hd].
        * split; [done|]. intros ([|x l] & p & rest & [= -> ->] & Hw & Hl); [congruence|]. apply Forall_cons in Hl as [[_ ?] _]. lia.
        * rewrite IH. split; intros (l & p & rest & E & Hw & Hl).
          { exists (q :: l), p, rest. rewrite E. split_and!; [done..|]. by constructor. }
          destruct l as [|x l]; injection E as -> ->; [congruence|]. apply Forall_cons in Hl as [_ Hl]. eauto 10.
      + split; [done|]. intros ([|x l] & p & rest & [= -> ->] & Hw & Hl); [congruence|]. apply Forall_cons in Hl as [[? _] _]. congruence. }
  unfold run_git_child, exec_with_timeout. destruct child as [ch|]; [|split; [done|]; by intros (? & ? & ? & ? & [=] & _)].
  set (deadline := ec_start ch + _). transitivity (exec_loop timeout deadline (ec_polls ch) = Some (inr (Ok true)) ∧
    (∃ t, read_to_end (ec_stdout ch) [] = Some (t, out)) ∧ is_Some (read_to_end (ec_stderr ch) [])).
  - destruct (exec_loop timeout deadline (ec_polls ch)) as [[e|[[]|e]]|]; cbn; [by split; [|intros [[=] _]]| | | |by split; [|intros [[=] _]]];
      destruct (read_to_end (ec_stdout ch) []) as [[t1 o]|], (read_to_end (ec_stderr ch) []) as [[t2 e2]|]; cbn; split; try done;
      try (by intros [[=] _]); try (by intros (_ & [? [=]] & _)); try (by intros (_ & _ & [? [=]])).
    + intros [= <-]. eauto.
    + intros (_ & [? [= _ ->]] & _). done.
  - rewrite K. split; [intros ((l & p & rest & H1 & H2 & H3) & Ho & He); by exists ch, l, p, rest|].
    intros (ch' & l & p & rest & [= <-] & Ho & He & H1 & H2 & H3). eauto 10.
Qed.

(** Every repository directory is found again by its stem. *)
Lemma stems_repos listing repo : mkDirEntry (Some (as_bytes (repo_path repo))) true ∈ listing → sanitize repo ∈ working_dir_stems (Some listing).
Proof.
  intros Hin. cbn [working_dir_stems]. apply list_elem_of_omap. eexists. split; [exact Hin|]. cbn [de_is_dir de_name]. unfold repo_path.
  rewrite as_bytes_app. unfold strip_suffix. cbn [mbind option_bind]. rewrite reverse_app, strip_prefix_app. cbn. rewrite reverse_involutive. f_equal. apply string_of_list_byte_of_string.
Qed.
