(* ===== verification/Tls.v ===== *)
(** The certificate of the server: [bins/secgit-server/src/tls.rs].

    Bytes of DER are walked by hand to find the public key of a certificate; its digest is
    what attestation commits to.  A [usize] is an [N] with its checked additions.  The
    PEM parser, the certificate generator and the TLS configuration are those of other
    packages, the class [TlsLib].  Errors are their outermost text. *)

From S2P Require Import Prelude Text Backend Toy Primitives Merkle Config.

(** [a.checked_add(b)] on [usize]. *)
Definition checked_add64 (a b : N) : option N := if a + b <=? u64_max then Some (a + b) else None.

(** ** DER *)

(** A length and the bytes it takes. *)
Definition der_len (b : bytes) : option (N * N) :=
  first ← head b;
  if N.land (Byte.to_N first) 0x80 =? 0 then Some (Byte.to_N first, 1)
  else
    let n := N.land (Byte.to_N first) 0x7f in
    if (n =? 0) || (4 <? n) || (lengthN b <? 1 + n) then None
    else Some (foldl (λ len byte, N.lor (shl64 len 8) (Byte.to_N byte)) 0 (take (N.to_nat n) (drop 1 b)), 1 + n).

Definition der_sequence_content (b : bytes) : option (bytes * bytes) :=
  first ← head b;
  if negb (bool_decide (first = x30)) then None
  else
    '(len, hdr) ← der_len (drop 1 b);
    let start := 1 + hdr in
    end_ ← checked_add64 start len;
    if lengthN b <? end_ then None
    else Some (take (N.to_nat len) (drop (N.to_nat start) b), drop (N.to_nat end_) b).

(** Where the element at the front ends. *)
Definition der_end (b : bytes) : option N :=
  match b with
  | [] => None
  | _ :: b' =>
      '(len, hdr) ← der_len b';
      start ← checked_add64 1 hdr;
      end_ ← checked_add64 start len;
      if lengthN b <? end_ then None else Some end_
  end.
Definition der_element (b : bytes) : option bytes := end_ ← der_end b; Some (take (N.to_nat end_) b).
Definition der_skip (b : bytes) : option bytes := end_ ← der_end b; Some (drop (N.to_nat end_) b).

Fixpoint der_skips (n : nat) (b : bytes) : option bytes :=
  match n with O => Some b | S n => rest ← der_skip b; der_skips n rest end.

(** Certificate, its first field, an optional version, five more fields, then the key. *)
Definition extract_spki (cert_der : bytes) : option bytes :=
  '(tbs, _) ← der_sequence_content cert_der;
  '(tbs_inner, _) ← der_sequence_content tbs;
  rest ← (if bool_decide (head tbs_inner = Some xa0) then der_skip tbs_inner else Some tbs_inner);
  rest ← der_skips 5 rest;
  der_element rest.

(** ** The material *)

Class TlsLib := {
  ServerConfig : Type;
  with_single_cert : list bytes → bytes → result string ServerConfig;
  pem_certs : bytes → result string (list bytes);
  pem_private_key : bytes → result string (option bytes);
  generate_simple_self_signed : list string → result string (bytes * bytes);
  kx_groups : list string;
}.

Section material.
Context `{DIG : Digests} `{HX : Hex} `{TL : TlsLib}.

Definition spki_sha256_hex (cert : bytes) : string := hex_encode (sha256 (default cert (extract_spki cert))).

Record TlsMaterial := mkTls { tm_config : ServerConfig; tm_spki_sha256_hex : string }.

Definition server_config (certs : list bytes) (key : bytes) : result string ServerConfig :=
  map_err (λ _, "building rustls ServerConfig") (with_single_cert certs key).

Definition load_pem (read_file : string → result string bytes) (cert_path key_path : string) : result string (list bytes * bytes) :=
  cert_bytes ← map_err (λ _, "reading " +:+ cert_path) (read_file cert_path);
  key_bytes ← map_err (λ _, "reading " +:+ key_path) (read_file key_path);
  certs ← map_err (λ _, "parsing cert PEM") (pem_certs cert_bytes);
  _ ← (if bool_decide (certs = []) then Err ("no certificates in " +:+ cert_path) else Ok ());
  key ← map_err (λ _, "parsing key PEM") (pem_private_key key_bytes);
  key ← ok_or ("no private key in " +:+ key_path) key;
  Ok (certs, key).

(** The serialized key parses as a private key, as the generator documents. *)
Definition generate_self_signed : result string (list bytes * bytes) :=
  '(cert, key) ← map_err (λ _, "generating self-signed cert") (generate_simple_self_signed ["localhost"]);
  Ok ([cert], key).

(** [certs[0]] panics on no certificate: [None]. *)
Definition load_or_generate (env : Env) (read_file : string → result string bytes) : option (result string TlsMaterial) :=
  match
    match env "SECGIT_TLS_CERT", env "SECGIT_TLS_KEY" with
    | Some cert_path, Some key_path => load_pem read_file cert_path key_path
    | _, _ => generate_self_signed
    end
  with
  | Err e => Some (Err e)
  | Ok (certs, key) =>
      leaf ← head certs;
      Some (config ← server_config certs key; Ok (mkTls config (spki_sha256_hex leaf)))
  end.

Definition post_quantum_preferred : bool :=
  match head kx_groups with Some g => bool_decide (g = "X25519MLKEM768") | None => false end.

(** How [main] gets it: none when plaintext is asked for. *)
Definition start_tls (env : Env) (read_file : string → result string bytes) : option (result string (option TlsMaterial)) :=
  if bool_decide (is_Some (env "SECGIT_INSECURE_HTTP")) then Some (Ok None)
  else
    r ← load_or_generate env read_file;
    Some (match r with Ok m => Ok (Some m) | Err e => Err e end).

End material.

(** ** Theory: what the walk accepts *)

(** The length octets of X.690: short, or long with one to four octets. *)
Inductive der_length : bytes → N → Prop :=
| der_short b : Byte.to_N b < 128 → der_length [b] (Byte.to_N b)
| der_long b l : Byte.to_N b = 128 + lengthN l → (1 ≤ length l ≤ 4)%nat →
    der_length (b :: l) (from_le_bytes (reverse l)).

(** One element: its tag, its length octets and its content. *)
Inductive der_elem (tag : byte) (content : bytes) : bytes → Prop :=
| der_tlv l : der_length l (lengthN content) → der_elem tag content (tag :: l ++ content).

Lemma from_le_reverse_snoc x l : from_le_bytes (reverse (l ++ [x])) = Byte.to_N x + 256 * from_le_bytes (reverse l).
Proof. by rewrite reverse_snoc. Qed.

Lemma be_fold l : (length l ≤ 4)%nat →
  foldl (λ len byte, N.lor (shl64 len 8) (Byte.to_N byte)) 0 l = from_le_bytes (reverse l).
Proof.
  induction l as [|x l IH] using rev_ind; [done|]. intros Hl. rewrite length_app in Hl. cbn in Hl.
  rewrite foldl_app, from_le_reverse_snoc, IH by lia. cbn. unfold shl64.
  pose proof (from_le_bytes_bound (reverse l)) as Hb. rewrite length_reverse in Hb.
  assert (256 ^ N.of_nat (length l) ≤ 256 ^ 3) by (apply N.pow_le_mono_r; lia).
  change (256 ^ 3) with 16777216 in *. rewrite N.shiftl_mul_pow2. change (2 ^ 8) with 256.
  rewrite N.mod_small by (change (2 ^ 64) with 18446744073709551616; lia).
  rewrite <-N.lxor_lor, <-N.add_nocarry_lxor; [lia|..].
  all: apply N.bits_inj_0; intros n; rewrite N.land_spec; change 256 with (2 ^ 8);
    destruct (N.lt_ge_cases n 8); [by rewrite N.mul_pow2_bits_low|].
  all: rewrite andb_comm, <-(N.mod_small (Byte.to_N x) (2 ^ 8)) by apply byte_to_N_bound;
    by rewrite N.mod_pow2_bits_high.
Qed.

Lemma land_high b : N.land (Byte.to_N b) 0x80 = 0 ↔ Byte.to_N b < 128.
Proof. destruct b; vm_compute; split; congruence. Qed.
Lemma land_low b : 128 ≤ Byte.to_N b → Byte.to_N b = 128 + N.land (Byte.to_N b) 0x7f.
Proof. destruct b; vm_compute; congruence. Qed.

Lemma der_len_exact b n h : der_len b = Some (n, h) ↔
  ∃ l rest, b = l ++ rest ∧ der_length l n ∧ h = lengthN l.
Proof.
  split.
  - destruct b as [|f b]; [done|]. unfold der_len. cbn [head mbind option_bind].
    destruct (N.eqb_spec (N.land (Byte.to_N f) 0x80) 0) as [E|E].
    { intros [= <- <-]. exists [f], b. split_and!; [done|by apply der_short, land_high|done]. }
    change (drop 1 (f :: b)) with b. set (k := N.land (Byte.to_N f) 0x7f). destruct (_ || _) eqn:G; [done|]. intros [= <- <-].
    apply orb_false_elim in G as [[G1%N.eqb_neq G2%N.ltb_ge]%orb_false_elim G3%N.ltb_ge]. cbn [length] in G3.
    exists (f :: take (N.to_nat k) b), (drop (N.to_nat k) b). rewrite <-app_comm_cons, take_drop. split; [done|].
    rewrite be_fold by len_lia. split; [|cbn [length]; len_lia].
    apply der_long; [|len_lia]. rewrite length_take, Nat.min_l by lia. rewrite N2Nat.id.
    apply land_low. rewrite land_high in E. lia.
  - intros (l & rest & -> & Hl & ->). destruct Hl as [f Hf|f l Hf Hl]; unfold der_len; cbn [app head mbind option_bind].
    { destruct (N.eqb_spec (N.land (Byte.to_N f) 0x80) 0) as [|E]; [done|]. by rewrite land_high in E. }
    destruct (N.eqb_spec (N.land (Byte.to_N f) 0x80) 0) as [E%land_high|_]; [lia|].
    pose proof (land_low f ltac:(lia)) as Hk. assert (N.land (Byte.to_N f) 0x7f = lengthN l) as -> by lia.
    destruct (_ || _) eqn:G.
    { exfalso. rewrite !orb_true_iff, N.eqb_eq, !N.ltb_lt in G. cbn [length] in G. rewrite length_app in G. lia. }
    rewrite Nat2N.id. change (drop 1 (f :: l ++ rest)) with (l ++ rest). rewrite take_app_length, be_fold by lia. f_equal. f_equal. cbn [length]. lia.
Qed.

Lemma der_length_bound l n : der_length l n → lengthN l ≤ 5 ∧ n < 2 ^ 32.
Proof.
  intros [f Hf|f l' Hf Hl]; cbn [length].
  - change (2 ^ 32) with 4294967296. lia.
  - split; [lia|]. pose proof (from_le_bytes_bound (reverse l')) as Hb. rewrite length_reverse in Hb.
    assert (256 ^ N.of_nat (length l') ≤ 256 ^ 4) by (apply N.pow_le_mono_r; lia).
    change (256 ^ 4) with (2 ^ 32) in *. lia.
Qed.

Lemma checked_small a b : a + b < 2 ^ 64 → checked_add64 a b = Some (a + b).
Proof. intros H. unfold checked_add64. case_match eqn:E; [done|]. apply N.leb_gt in E. unfold u64_max in E. lia. Qed.

Lemma der_end_exact b e : der_end b = Some e ↔
  ∃ tag content el rest, der_elem tag content el ∧ b = el ++ rest ∧ e = lengthN el.
Proof.
  split.
  - destruct b as [|tag b]; [done|]. cbn [der_end]. destruct (der_len b) as [[len hdr]|] eqn:E; [|done].
    apply der_len_exact in E as (l & rest & -> & Hl & ->). pose proof (der_length_bound _ _ Hl).
    cbn [mbind option_bind]. rewrite checked_small by lia. cbn [mbind option_bind]. rewrite checked_small by lia.
    cbn [mbind option_bind]. destruct (N.ltb_spec (lengthN (tag :: l ++ rest)) (1 + lengthN l + len)) as [|G]; [done|].
    cbn [length] in G. rewrite length_app in G. intros [= <-].
    exists tag, (take (N.to_nat len) rest), (tag :: l ++ take (N.to_nat len) rest), (drop (N.to_nat len) rest).
    split_and!; [|by rewrite <-app_comm_cons, <-app_assoc, take_drop|cbn [length]; len_lia].
    apply der_tlv. rewrite length_take, Nat.min_l, N2Nat.id by lia. done.
  - intros (tag & content & el & rest & [l Hl] & -> & ->). pose proof (der_length_bound _ _ Hl). cbn [app der_end].
    rewrite <-app_assoc. assert (der_len (l ++ content ++ rest) = Some (lengthN content, lengthN l)) as ->.
    { apply der_len_exact. eauto. }
    cbn [mbind option_bind]. rewrite checked_small by lia. cbn [mbind option_bind]. rewrite checked_small by lia.
    cbn [mbind option_bind]. case_match eqn:G; [apply N.ltb_lt in G; cbn [length] in G; rewrite !length_app in G; lia|].
    f_equal. cbn [length]. rewrite length_app. lia.
Qed.

Definition element (e : bytes) : Prop := ∃ tag content, der_elem tag content e.

Lemma der_skip_exact b r : der_skip b = Some r ↔ ∃ el, element el ∧ b = el ++ r.
Proof.
  unfold der_skip, element. split.
  - destruct (der_end b) as [e|] eqn:E; [|done]. apply der_end_exact in E as (tag & c & el & rest & He & -> & ->).
    intros [= <-]. rewrite Nat2N.id, drop_app_length. eauto.
  - intros (el & (tag & c & He) & ->). assert (der_end (el ++ r) = Some (lengthN el)) as -> by (apply der_end_exact; eauto 8).
    cbn. by rewrite Nat2N.id, drop_app_length.
Qed.

Lemma der_element_exact b e : der_element b = Some e ↔ element e ∧ ∃ r, b = e ++ r.
Proof.
  unfold der_element, element. split.
  - destruct (der_end b) as [n|] eqn:E; [|done]. apply der_end_exact in E as (tag & c & el & rest & He & -> & ->).
    intros [= <-]. rewrite Nat2N.id, take_app_length. eauto.
  - intros ((tag & c & He) & r & ->). assert (der_end (e ++ r) = Some (lengthN e)) as -> by (apply der_end_exact; eauto 8).
    cbn. by rewrite Nat2N.id, take_app_length.
Qed.

Lemma der_sequence_exact b c r : der_sequence_content b = Some (c, r) ↔ ∃ el, der_elem x30 c el ∧ b = el ++ r.
Proof.
  split.
  - destruct b as [|t b]; [done|]. unfold der_sequence_content. cbn [head mbind option_bind].
    case_bool_decide as Ht; [subst t|done]. cbn [negb]. change (drop 1 (x30 :: b)) with b.
    destruct (der_len b) as [[len hdr]|] eqn:E; [|done]. apply der_len_exact in E as (l & rest & -> & Hl & ->).
    pose proof (der_length_bound _ _ Hl). cbn [mbind option_bind]. rewrite checked_small by lia. cbn [mbind option_bind].
    destruct (N.ltb_spec (lengthN (x30 :: l ++ rest)) (1 + lengthN l + len)) as [|G]; [done|].
    cbn [length] in G. rewrite length_app in G. replace (N.to_nat (1 + lengthN l)) with (S (length l)) by lia.
    replace (N.to_nat (1 + lengthN l + len)) with (S (length l + N.to_nat len)) by lia. rewrite !skipn_cons.
    rewrite <-drop_drop, !drop_app_length. intros [= <- <-].
    exists (x30 :: l ++ take (N.to_nat len) rest). rewrite <-app_comm_cons, <-app_assoc, take_drop. split; [|done].
    apply der_tlv. rewrite length_take, Nat.min_l, N2Nat.id by lia. done.
  - intros (el & [l Hl] & ->). pose proof (der_length_bound _ _ Hl). unfold der_sequence_content. cbn [app head mbind option_bind].
    case_bool_decide; [|done]. cbn [negb]. rewrite <-app_assoc.
    change (drop 1 (x30 :: l ++ c ++ r)) with (l ++ c ++ r).
    assert (der_len (l ++ c ++ r) = Some (lengthN c, lengthN l)) as -> by (apply der_len_exact; eauto).
    cbn [mbind option_bind]. rewrite checked_small by lia. cbn [mbind option_bind].
    case_match eqn:G; [apply N.ltb_lt in G; cbn [length] in G; rewrite !length_app in G; lia|].
    replace (N.to_nat (1 + lengthN l)) with (S (length l)) by lia.
    replace (N.to_nat (1 + lengthN l + lengthN c)) with (S (length l + length c)) by lia. rewrite !skipn_cons.
    by rewrite <-drop_drop, !drop_app_length, Nat2N.id, take_app_length.
Qed.

Lemma der_skips_exact n b r : der_skips n b = Some r ↔ ∃ els, length els = n ∧ Forall element els ∧ b = mjoin els ++ r.
Proof.
  revert b. induction n as [|n IH]; intros b; cbn [der_skips].
  - split; [intros [= ->]; by exists []|]. intros ([|] & ? & ? & ->); done.
  - split.
    + destruct (der_skip b) as [b'|] eqn:E; [|done]. apply der_skip_exact in E as (el & He & ->).
      intros (els & Hn & Hels & ->)%IH. exists (el :: els). change (mjoin (el :: els)) with (el ++ mjoin els). rewrite <-app_assoc. split_and!; [cbn; lia|by constructor|done].
    + intros ([|el els] & [= Hn] & [He Hels]%Forall_cons & ->); change (mjoin (el :: els)) with (el ++ mjoin els). rewrite <-app_assoc.
      assert (der_skip (el ++ mjoin els ++ r) = Some (mjoin els ++ r)) as ->; [apply der_skip_exact; eauto|].
      cbn. apply IH. eauto.
Qed.

(** The layout of X.509: a certificate is a sequence that starts with a sequence of fields:
    an optional version with tag [0xA0], five fields, then the public key. *)
Inductive x509_key (spki : bytes) : bytes → Prop :=
| x509_fields cert tbs version five r1 r2 r3 :
    der_elem x30 (tbs ++ r1) cert →
    der_elem x30 (version ++ mjoin five ++ spki ++ r2) tbs →
    (version = [] ∧ head (mjoin five ++ spki ++ r2) ≠ Some xa0 ∨ ∃ c, der_elem xa0 c version) →
    length five = 5%nat → Forall element five → element spki →
    x509_key spki (cert ++ r3).

Lemma der_elem_head tag c e : der_elem tag c e → head e = Some tag.
Proof. by intros []. Qed.

Lemma extract_spki_exact cert spki : extract_spki cert = Some spki ↔ x509_key spki cert.
Proof.
  unfold extract_spki. split.
  - destruct (der_sequence_content cert) as [[c1 r3]|] eqn:E1; [|done]. cbn [mbind option_bind].
    apply der_sequence_exact in E1 as (el & He & ->). destruct (der_sequence_content c1) as [[c2 r1]|] eqn:E2; [|done].
    cbn [mbind option_bind]. apply der_sequence_exact in E2 as (tbs & Ht & ->).
    assert (∀ version rest, (version = [] ∧ head rest ≠ Some xa0 ∨ ∃ c, der_elem xa0 c version) → c2 = version ++ rest →
      (rest ← der_skips 5 rest; der_element rest) = Some spki → x509_key spki (el ++ r3)) as K.
    { intros version rest Hv ->. destruct (der_skips 5 rest) as [rest'|] eqn:E3; [|done]. cbn [mbind option_bind].
      apply der_skips_exact in E3 as (five & H5 & Hf & ->). intros (Hs & r2 & ->)%der_element_exact. by eapply x509_fields. }
    case_bool_decide as Ha.
    + destruct (der_skip c2) as [rest|] eqn:E3; [|done]. apply der_skip_exact in E3 as (version & (tag & c & Hv) & E).
      apply (K version); [right; exists c|done]. replace xa0 with tag; [done|].
      pose proof (der_elem_head _ _ _ Hv) as Hh. destruct version as [|x version]; [done|]. subst c2. cbn in Ha, Hh. congruence.
    + apply (K []); [by left|done].
  - intros [cert' tbs version five r1 r2 r3 Hc Ht Hv H5 Hf Hs].
    assert (der_sequence_content (cert' ++ r3) = Some (tbs ++ r1, r3)) as -> by (apply der_sequence_exact; eauto).
    cbn [mbind option_bind]. set (fs := version ++ mjoin five ++ spki ++ r2) in *.
    assert (der_sequence_content (tbs ++ r1) = Some (fs, r1)) as -> by (apply der_sequence_exact; eauto).
    cbn [mbind option_bind]. subst fs.
    assert ((if bool_decide (head (version ++ mjoin five ++ spki ++ r2) = Some xa0) then der_skip (version ++ mjoin five ++ spki ++ r2)
             else Some (version ++ mjoin five ++ spki ++ r2)) = Some (mjoin five ++ spki ++ r2)) as ->.
    { destruct Hv as [[-> Hh]|[c Hv]]; case_bool_decide as Hb; try done.
      - apply der_skip_exact. exists version. split; [by exists xa0, c|done].
      - destruct Hb. pose proof (der_elem_head _ _ _ Hv). by destruct version. }
    cbn [mbind option_bind].
    assert (der_skips 5 (mjoin five ++ spki ++ r2) = Some (spki ++ r2)) as -> by (apply der_skips_exact; eauto).
    apply der_element_exact. eauto.
Qed.

Section pinning.
Context `{DIG : Digests} `{HX : Hex} `{TL : TlsLib}.

(** What a client pins is the public key and nothing else of the certificate: a certificate
    issued again for the same key keeps the fingerprint, another key has another one. *)
Lemma fingerprint_pins_key cert1 cert2 key1 key2 :
  x509_key key1 cert1 → x509_key key2 cert2 → coll_free digest_sha256 [key1; key2] →
  spki_sha256_hex cert1 = spki_sha256_hex cert2 ↔ key1 = key2.
Proof.
  intros E1%extract_spki_exact E2%extract_spki_exact Hc. unfold spki_sha256_hex. rewrite E1, E2. cbn. split; [|by intros ->].
  intros E%hex_encode_inj. apply Hc; [set_solver..|done].
Qed.

(** The start never indexes an empty chain, and the fingerprint it announces is that of the
    first certificate of the chain it serves. *)
Lemma load_or_generate_pins env read_file : ∃ r, load_or_generate env read_file = Some r ∧
  ∀ m, r = Ok m → ∃ certs key leaf, head certs = Some leaf ∧ with_single_cert certs key = Ok (tm_config m) ∧
    tm_spki_sha256_hex m = spki_sha256_hex leaf.
Proof.
  unfold load_or_generate.
  set (r := match env "SECGIT_TLS_CERT" with Some _ => _ | None => _ end).
  assert (∀ certs key, r = Ok (certs, key) → is_Some (head certs)) as Hr.
  { intros certs key. subst r. destruct (env "SECGIT_TLS_CERT") as [cp|]; [destruct (env "SECGIT_TLS_KEY") as [kp|]|].
    - unfold load_pem. destruct (read_file cp), (read_file kp); try done. cbn. destruct (pem_certs a) as [[|leaf certs']|]; try done.
      cbn. destruct (pem_private_key a0) as [[]|]; try done. cbn. intros [= <- <-]. eauto.
    - unfold generate_self_signed. destruct (generate_simple_self_signed _) as [[]|]; [|done]. intros [= <- <-]. eauto.
    - unfold generate_self_signed. destruct (generate_simple_self_signed _) as [[]|]; [|done]. intros [= <- <-]. eauto. }
  destruct r as [[certs key]|e]; [|by eexists]. destruct (Hr _ _ eq_refl) as [leaf Hl]. rewrite Hl. cbn [mbind option_bind].
  eexists. split; [done|]. intros m. unfold server_config. destruct (with_single_cert certs key) as [c|] eqn:E; [|done].
  intros [= <-]. eauto 10.
Qed.

End pinning.

(** A small certificate with a version, and one issued again without it. *)
Definition tlv (tag : byte) (content : bytes) : bytes := tag :: byte_of_N (lengthN content) :: content.
Definition small_key : bytes := tlv x30 (tlv x06 [x2b; x65; x70] ++ tlv x03 [x00; x11; x22]).
Definition small_cert (version : bytes) (serial : byte) : bytes :=
  tlv x30 (tlv x30 (version ++ tlv x02 [serial] ++ tlv x30 [] ++ tlv x30 [] ++ tlv x30 [] ++ tlv x30 [] ++ small_key) ++ tlv x03 [x00]).

(** The long form of the length is read too. *)
Example der_len_long : der_len [x82; x01; x02; xff] = Some (258, 3).
Proof. done. Qed.
Example reissued : extract_spki (small_cert (tlv xa0 [x02; x01; x02]) x07) = Some small_key ∧
  extract_spki (small_cert [] x08) = Some small_key.
Proof. done. Qed.
