(* ===== verification/Scim.v ===== *)
(** SCIM provisioning: [crates/secgit-sso/src/scim.rs].  The trait [ScimBackend] is a
    class over the backend's state; the service is proved against it. *)

From S2P Require Import Prelude Text BTree Json.

Record ScimUser := mkScimUser {
  su_id : string;
  su_user_name : string;
  su_display_name : option string;
  su_email : option string;
  su_external_id : option string;
  su_active : bool;
}.

Record ScimGroup := mkScimGroup {
  sg_id : string;
  sg_display_name : string;
  sg_external_id : option string;
  sg_member_ids : list string;
}.

Inductive ScimError :=
| ScimNotFound
| Conflict (why : string)
| BadRequest (why : string)
| BackendError (why : string).

Definition status (e : ScimError) : N :=
  match e with ScimNotFound => 404 | Conflict _ => 409 | BadRequest _ => 400 | BackendError _ => 500 end.
Definition detail (e : ScimError) : string :=
  match e with ScimNotFound => "Resource not found" | Conflict s | BadRequest s | BackendError s => s end.
Definition error_body (e : ScimError) : Value :=
  json [("schemas", VArray [VString "urn:ietf:params:scim:api:messages:2.0:Error"]);
        ("status", VString (pretty (status e))); ("detail", VString (detail e))].

Class ScimBackend (B : Type) := {
  sb_create_user : ScimUser → eff B ScimError ScimUser;
  sb_get_user : string → B → option ScimUser * B;
  sb_find_user_by_username : string → B → option ScimUser * B;
  sb_list_users : B → list ScimUser * B;
  sb_replace_user : string → ScimUser → eff B ScimError ScimUser;
  sb_set_user_active : string → bool → eff B ScimError ScimUser;
  sb_delete_user : string → eff B ScimError unit;
  sb_create_group : ScimGroup → eff B ScimError ScimGroup;
  sb_get_group : string → B → option ScimGroup * B;
  sb_list_groups : B → list ScimGroup * B;
  sb_replace_group : string → ScimGroup → eff B ScimError ScimGroup;
  sb_delete_group : string → eff B ScimError unit;
}.

Definition USER_SCHEMA : string := "urn:ietf:params:scim:schemas:core:2.0:User".
Definition GROUP_SCHEMA : string := "urn:ietf:params:scim:schemas:core:2.0:Group".

Record ScimResponse := mkScimResponse { sr_status : N; sr_body : Value }.

(** ** Rendering *)

Definition user_json (base_url : string) (u : ScimUser) : Value :=
  let emails := match su_email u with
                | Some e => [json [("value", VString e); ("primary", VBool true)]]
                | None => []
                end in
  json [("schemas", VArray [VString USER_SCHEMA]); ("id", VString (su_id u)); ("userName", VString (su_user_name u));
        ("displayName", opt_string (su_display_name u)); ("externalId", opt_string (su_external_id u));
        ("active", VBool (su_active u)); ("emails", VArray emails);
        ("meta", json [("resourceType", VString "User"); ("location", VString (base_url +:+ "/Users/" +:+ su_id u))])].

Definition member_json (base_url m : string) : Value :=
  json [("value", VString m); ("$ref", VString (base_url +:+ "/Users/" +:+ m))].
Definition group_json (base_url : string) (g : ScimGroup) : Value :=
  json [("schemas", VArray [VString GROUP_SCHEMA]); ("id", VString (sg_id g)); ("displayName", VString (sg_display_name g));
        ("externalId", opt_string (sg_external_id g)); ("members", VArray (member_json base_url <$> sg_member_ids g));
        ("meta", json [("resourceType", VString "Group"); ("location", VString (base_url +:+ "/Groups/" +:+ sg_id g))])].

Definition list_response (resources : list Value) : Value :=
  json [("schemas", VArray [VString "urn:ietf:params:scim:api:messages:2.0:ListResponse"]);
        ("totalResults", number (lengthN resources)); ("startIndex", number 1);
        ("itemsPerPage", number (lengthN resources)); ("Resources", VArray resources)].

Definition supported (b : bool) : Value := json [("supported", VBool b)].
Definition service_provider_config : Value :=
  json [("schemas", VArray [VString "urn:ietf:params:scim:schemas:core:2.0:ServiceProviderConfig"]);
        ("patch", supported true); ("bulk", supported false);
        ("filter", json [("supported", VBool true); ("maxResults", number 200)]);
        ("changePassword", supported false); ("sort", supported false); ("etag", supported false);
        ("authenticationSchemes", VArray [json
          [("name", VString "OAuth Bearer Token"); ("description", VString "Authentication via a provisioning bearer token");
           ("type", VString "oauthbearertoken"); ("primary", VBool true)]])].

(** ** Reading *)

Definition full_name (v : Value) : option string :=
  n ← get "name" v;
  let g := default "" (get_str "givenName" n) in
  let f := default "" (get_str "familyName" n) in
  let full := string_of_list_byte (trim (as_bytes (g +:+ " " +:+ f))) in
  if bool_decide (full = "") then None else Some full.

Definition is_primary (e : Value) : bool := default false (get "primary" e ≫= as_bool).
Definition chosen_email (arr : list Value) : option Value :=
  match list_find (λ e, is_primary e = true) arr with Some (_, e) => Some e | None => head arr end.

Definition parse_user (v : Value) : result ScimError ScimUser :=
  Ok {| su_id := default "" (get_str "id" v);
        su_user_name := default "" (get_str "userName" v);
        su_display_name := match get_str "displayName" v with Some d => Some d | None => full_name v end;
        su_email := (es ← get "emails" v; arr ← as_array es; e ← chosen_email arr; get_str "value" e);
        su_external_id := get_str "externalId" v;
        su_active := default true (get "active" v ≫= as_bool) |}.

Definition parse_group (v : Value) : result ScimError ScimGroup :=
  Ok {| sg_id := default "" (get_str "id" v);
        sg_display_name := default "" (get_str "displayName" v);
        sg_external_id := get_str "externalId" v;
        sg_member_ids := match get "members" v ≫= as_array with Some arr => omap (get_str "value") arr | None => [] end |}.

(** [attr eq "value"]; the position found in the lower-case text is used in the text
    itself, which has the same bytes but for the case of its letters. *)
Definition parse_eq_filter (flt : string) : option (string * string) :=
  let f := trim (as_bytes flt) in
  '(before, _) ← find_text (as_bytes " eq ") (lower_byte <$> f);
  let pos := length before in
  let attr := trim (take pos f) in
  let val := trim_matches (λ c, bool_decide (c = x22)) (trim (drop (pos + 4) f)) in
  if bool_decide (attr = []) || bool_decide (val = []) then None
  else Some (string_of_list_byte attr, string_of_list_byte val).

(** ** The service *)

Section service.
Context {B : Type} `{SB : ScimBackend B} `{JT : JsonText}.

Definition reading {A} (f : B → A * B) : eff B ScimError A := λ b, let '(a, b) := f b in (Ok a, b).

(** [base_url.trim_end_matches('/')]. *)
Definition scim_base (base_url : string) : string :=
  string_of_list_byte (reverse (drop_while (λ c, bool_decide (c = x2f)) (reverse (as_bytes base_url)))).

Context (base_url : string).

Definition parse_body (body : bytes) : eff B ScimError Value := lift (map_err BadRequest (json_from_slice body)).

Definition create_user (body : bytes) : eff B ScimError ScimResponse :=
  v ← parse_body body;
  u ← lift (parse_user v);
  if bool_decide (su_user_name u = "") then throw (BadRequest "userName is required")
  else
    o ← reading (sb_find_user_by_username (su_user_name u));
    match o with
    | Some _ => throw (Conflict "userName already exists")
    | None => created ← sb_create_user u; mret (mkScimResponse 201 (user_json base_url created))
    end.

Definition get_user (id : string) : eff B ScimError ScimResponse :=
  o ← reading (sb_get_user id);
  u ← lift (ok_or ScimNotFound o);
  mret (mkScimResponse 200 (user_json base_url u)).

Definition matches_filter (attr val : string) (u : ScimUser) : bool :=
  bool_decide (attr = "externalId") && bool_decide (su_external_id u = Some val).
Definition list_users (flt : option string) : eff B ScimError ScimResponse :=
  users ← match flt ≫= parse_eq_filter with
          | Some (attr, val) =>
              if bool_decide (attr = "userName")
              then o ← reading (sb_find_user_by_username val); mret (option_list o)
              else l ← reading sb_list_users; mret (List.filter (matches_filter attr val) l)
          | None => reading sb_list_users
          end;
  mret (mkScimResponse 200 (list_response (user_json base_url <$> users))).

Definition with_id (id : string) (u : ScimUser) : ScimUser :=
  mkScimUser id (su_user_name u) (su_display_name u) (su_email u) (su_external_id u) (su_active u).
Definition replace_user (id : string) (body : bytes) : eff B ScimError ScimResponse :=
  v ← parse_body body;
  u ← lift (parse_user v);
  updated ← sb_replace_user id (with_id id u);
  mret (mkScimResponse 200 (user_json base_url updated)).

(** What one operation of a PATCH sets [active] to. *)
Definition patched_active (op : Value) : option bool :=
  let path := default "" (get_str "path" op) in
  let value := get "value" op in
  if bool_decide (to_ascii_lowercase path = "active") then
    match value with
    | Some (VBool b) => Some b
    | Some (VString s) => Some (bool_decide (s = "true"))
    | _ => None
    end
  else if bool_decide (path = "") then
    match value with
    | Some (VObject map) => match obj_get "active" map with Some (VBool b) => Some b | _ => None end
    | _ => None
    end
  else None.
Fixpoint patch_loop (id : string) (ops : list Value) (updated : ScimUser) : eff B ScimError ScimUser :=
  match ops with
  | [] => mret updated
  | op :: ops =>
      match patched_active op with
      | Some active => u ← sb_set_user_active id active; patch_loop id ops u
      | None => patch_loop id ops updated
      end
  end.
Definition patch_user (id : string) (body : bytes) : eff B ScimError ScimResponse :=
  v ← parse_body body;
  ops ← lift (ok_or (BadRequest "missing Operations") (get "Operations" v ≫= as_array));
  o ← reading (sb_get_user id);
  u ← lift (ok_or ScimNotFound o);
  updated ← patch_loop id ops u;
  mret (mkScimResponse 200 (user_json base_url updated)).

Definition delete_user (id : string) : eff B ScimError ScimResponse :=
  _ ← sb_delete_user id; mret (mkScimResponse 204 VNull).

Definition create_group (body : bytes) : eff B ScimError ScimResponse :=
  v ← parse_body body;
  g ← lift (parse_group v);
  if bool_decide (sg_display_name g = "") then throw (BadRequest "displayName is required")
  else created ← sb_create_group g; mret (mkScimResponse 201 (group_json base_url created)).

Definition get_group (id : string) : eff B ScimError ScimResponse :=
  o ← reading (sb_get_group id);
  g ← lift (ok_or ScimNotFound o);
  mret (mkScimResponse 200 (group_json base_url g)).

Definition list_groups : eff B ScimError ScimResponse :=
  l ← reading sb_list_groups; mret (mkScimResponse 200 (list_response (group_json base_url <$> l))).

Definition group_with_id (id : string) (g : ScimGroup) : ScimGroup :=
  mkScimGroup id (sg_display_name g) (sg_external_id g) (sg_member_ids g).
Definition replace_group (id : string) (body : bytes) : eff B ScimError ScimResponse :=
  v ← parse_body body;
  g ← lift (parse_group v);
  updated ← sb_replace_group id (group_with_id id g);
  mret (mkScimResponse 200 (group_json base_url updated)).

Definition delete_group (id : string) : eff B ScimError ScimResponse :=
  _ ← sb_delete_group id; mret (mkScimResponse 204 VNull).

(** The non-empty segments of the path after [/scim/v2/]. *)
Definition segments (path : string) : list string :=
  string_of_list_byte <$> filter (λ s, s ≠ []) (split_on x2f (as_bytes path)).

(** The match on the method and the segments. *)
Definition users_route (method : string) (flt : option string) (body : bytes) : eff B ScimError ScimResponse :=
  if bool_decide (method = "GET") then list_users flt
  else if bool_decide (method = "POST") then create_user body else throw ScimNotFound.
Definition user_route (method id : string) (body : bytes) : eff B ScimError ScimResponse :=
  if bool_decide (method = "GET") then get_user id
  else if bool_decide (method = "PUT") then replace_user id body
  else if bool_decide (method = "PATCH") then patch_user id body
  else if bool_decide (method = "DELETE") then delete_user id else throw ScimNotFound.
Definition groups_route (method : string) (body : bytes) : eff B ScimError ScimResponse :=
  if bool_decide (method = "GET") then list_groups
  else if bool_decide (method = "POST") then create_group body else throw ScimNotFound.
Definition group_route (method id : string) (body : bytes) : eff B ScimError ScimResponse :=
  if bool_decide (method = "GET") then get_group id
  else if bool_decide (method = "PUT") then replace_group id body
  else if bool_decide (method = "DELETE") then delete_group id else throw ScimNotFound.
Definition scim_route (method : string) (segs : list string) (flt : option string) (body : bytes)
    : eff B ScimError ScimResponse :=
  match segs with
  | [r] =>
      if bool_decide (r = "Users") then users_route method flt body
      else if bool_decide (r = "Groups") then groups_route method body
      else if bool_decide (r = "ServiceProviderConfig") && bool_decide (method = "GET")
      then mret (mkScimResponse 200 service_provider_config) else throw ScimNotFound
  | [r; id] =>
      if bool_decide (r = "Users") then user_route method id body
      else if bool_decide (r = "Groups") then group_route method id body else throw ScimNotFound
  | _ => throw ScimNotFound
  end.

Definition dispatch (method path : string) (query_filter : option string) (body : bytes) (b : B) : ScimResponse * B :=
  let '(r, b) := scim_route method (segments path) query_filter body b in
  (match r with Ok r => r | Err e => mkScimResponse (status e) (error_body e) end, b).
End service.

(** ** Round trips *)

(** A user read back from its own representation is the same user. *)
Lemma user_json_roundtrip base_url u : parse_user (user_json base_url u) = Ok u.
Proof. destruct u as [id un [d|] [e|] [x|] a]; reflexivity. Qed.

Lemma group_json_roundtrip base_url g : parse_group (group_json base_url g) = Ok g.
Proof.
  destruct g as [id dn x ms]. unfold parse_group.
  change (get "members" (group_json base_url (mkScimGroup id dn x ms))) with (Some (VArray (member_json base_url <$> ms))).
  assert (omap (get_str "value") (member_json base_url <$> ms) = ms) as Hm.
  { induction ms as [|m ms IH]; [done|]. cbn [fmap list_fmap omap list_omap].
    change (get_str "value" (member_json base_url m)) with (Some m). f_equal. exact IH. }
  cbn [mbind option_bind as_array]. rewrite Hm. by destruct x.
Qed.
