(* ===== verification/Xml.v ===== *)
(** The XML subset of [crates/secgit-sso/src/xml.rs]: the tree, the parser and
    exclusive canonicalization.

    The parser's position is the text that is left.  A reference [&Element] into a
    tree is the element with its position, a list of child numbers. *)

From S2P Require Import Prelude Text BTree.

(** ** The tree *)

Record Attr := mkAttr { at_prefix : option string; at_local : string; at_value : string }.

Inductive Element :=
| mkElement (el_prefix : option string) (el_local : string) (el_ns_decls : list (option string * string))
    (el_attrs : list Attr) (el_children : list Node)
with Node :=
| NElement (e : Element)
| NText (t : string).

Definition el_prefix (e : Element) : option string := let 'mkElement p _ _ _ _ := e in p.
Definition el_local (e : Element) : string := let 'mkElement _ l _ _ _ := e in l.
Definition el_ns_decls (e : Element) : list (option string * string) := let 'mkElement _ _ d _ _ := e in d.
Definition el_attrs (e : Element) : list Attr := let 'mkElement _ _ _ a _ := e in a.
Definition el_children (e : Element) : list Node := let 'mkElement _ _ _ _ c := e in c.

Definition qualified (prefix : option string) (local : string) : string :=
  match prefix with Some p => p +:+ ":" +:+ local | None => local end.
Definition qname (e : Element) : string := qualified (el_prefix e) (el_local e).

Definition named (local : string) (n : Node) : option Element :=
  match n with NElement e => if bool_decide (el_local e = local) then Some e else None | NText _ => None end.

Definition child (e : Element) (local : string) : option Element := head (omap (named local) (el_children e)).
Definition children_named (e : Element) (local : string) : list Element := omap (named local) (el_children e).

(** With the position of what is found. *)
Fixpoint find_descendant (e : Element) (local : string) {struct e} : option (list nat * Element) :=
  if bool_decide (el_local e = local) then Some ([], e)
  else
    (fix go (i : nat) (ns : list Node) : option (list nat * Element) :=
       match ns with
       | [] => None
       | NElement c :: ns =>
           match find_descendant c local with
           | Some (p, x) => Some (i :: p, x)
           | None => go (S i) ns
           end
       | NText _ :: ns => go (S i) ns
       end) 0%nat (let 'mkElement _ _ _ _ ns := e in ns).

Definition attr (e : Element) (local : string) : option string :=
  at_value <$> (snd <$> list_find (λ a, at_local a = local) (el_attrs e)).

Definition text_of (n : Node) : bytes := match n with NText t => as_bytes t | NElement _ => [] end.
Definition text (e : Element) : string := string_of_list_byte (trim (mjoin (text_of <$> el_children e))).

(** ** Entities *)

(** [char::from_u32] and the UTF-8 form of the character. *)
Definition from_u32 (n : N) : option bytes :=
  if n <? 128 then Some [byte_of_N n]
  else if n <? 2048 then Some [byte_of_N (192 + n / 64); byte_of_N (128 + n mod 64)]
  else if n <? 65536 then
    if (55296 <=? n) && (n <=? 57343) then None
    else Some [byte_of_N (224 + n / 4096); byte_of_N (128 + n / 64 mod 64); byte_of_N (128 + n mod 64)]
  else if n <? 1114112 then
    Some [byte_of_N (240 + n / 262144); byte_of_N (128 + n / 4096 mod 64); byte_of_N (128 + n / 64 mod 64);
          byte_of_N (128 + n mod 64)]
  else None.

Fixpoint radix_digits (radix acc : N) (s : bytes) : option N :=
  match s with
  | [] => Some acc
  | b :: s =>
      d ← hex_value b;
      let acc := acc * radix + d in
      if (d <? radix) && (acc <? 2 ^ 32) then radix_digits radix acc s else None
  end.

(** [u32::from_str_radix]. *)
Definition parse_u32 (radix : N) (s : bytes) : option N :=
  let s' := match s with x2b :: s => s | _ => s end in
  match s' with [] => None | _ => radix_digits radix 0 s' end.

(** The character an entity stands for. *)
Definition entity (ent : bytes) : option bytes :=
  if bool_decide (ent = as_bytes "lt") then Some [x3c]
  else if bool_decide (ent = as_bytes "gt") then Some [x3e]
  else if bool_decide (ent = as_bytes "amp") then Some [x26]
  else if bool_decide (ent = as_bytes "quot") then Some [x22]
  else if bool_decide (ent = as_bytes "apos") then Some [x27]
  else if starts_with (as_bytes "#x") ent || starts_with (as_bytes "#X") ent then parse_u32 16 (drop 2 ent) ≫= from_u32
  else if starts_with (as_bytes "#") ent then parse_u32 10 (drop 1 ent) ≫= from_u32
  else None.

Definition utf8_len (b : byte) : nat :=
  let n := Byte.to_N b in
  if n <? 128 then 1
  else if N.shiftr n 5 =? 6 then 2
  else if N.shiftr n 4 =? 14 then 3
  else if N.shiftr n 3 =? 30 then 4
  else 1.

Fixpoint decode_loop (fuel : nat) (s : bytes) : bytes :=
  match fuel, s with
  | S fuel, b :: rest =>
      match (if bool_decide (b = x26) then
               '(ent, after) ← split_once x3b rest; c ← entity ent; Some (c, after)
             else None) with
      | Some (c, after) => c ++ decode_loop fuel after
      | None => take (utf8_len b) s ++ decode_loop fuel (drop (utf8_len b) s)
      end
  | _, _ => []
  end.
Definition decode_entities (s : string) : string :=
  let s := as_bytes s in
  string_of_list_byte (if bool_decide (x26 ∈ s) then decode_loop (length s) s else s).

(** ** The parser *)

(** [OutOfFuel] is no error of the code; it does not occur ([parse_terminates]). *)
Inductive XmlError := XmlErr (msg : string) | OutOfFuel.

(** [std::str::from_utf8(b).unwrap_or("")]. *)
Definition utf8_or_empty (b : bytes) : string := if valid_utf8 b then string_of_list_byte b else "".

Definition is_ascii_whitespace (b : byte) : bool :=
  bool_decide (b = x20) || bool_decide (b = x09) || bool_decide (b = x0a) || bool_decide (b = x0c) || bool_decide (b = x0d).
Definition skip_ws (bs : bytes) : bytes := drop_while is_ascii_whitespace bs.

Fixpoint take_while (p : byte → bool) (bs : bytes) : bytes :=
  match bs with b :: bs => if p b then b :: take_while p bs else [] | [] => [] end.

Definition find (needle : string) (bs : bytes) : result XmlError (bytes * bytes) :=
  ok_or (XmlErr ("unterminated: expected " +:+ needle)) (find_text (as_bytes needle) bs).

Fixpoint skip_prolog (fuel : nat) (bs : bytes) : result XmlError bytes :=
  match fuel with
  | O => Err OutOfFuel
  | S fuel =>
      let bs := skip_ws bs in
      if starts_with (as_bytes "<?") bs then '(_, bs) ← find "?>" bs; skip_prolog fuel bs
      else if starts_with (as_bytes "<!--") bs then '(_, bs) ← find "-->" bs; skip_prolog fuel bs
      else if starts_with (as_bytes "<!") bs then Err (XmlErr "DTD/DOCTYPE not supported")
      else Ok bs
  end.

(** The bytes that end a name. *)
Definition name_end (c : byte) : bool :=
  bool_decide (c = x20) || bool_decide (c = x09) || bool_decide (c = x0d) || bool_decide (c = x0a) ||
  bool_decide (c = x3e) || bool_decide (c = x2f) || bool_decide (c = x3d).
Definition name_byte (c : byte) : bool := negb (name_end c).

Definition split_name (raw : string) : option string * string :=
  match split_once COLON (as_bytes raw) with
  | Some (p, l) => (Some (string_of_list_byte p), string_of_list_byte l)
  | None => (None, raw)
  end.
Definition parse_name (bs : bytes) : (option string * string) * bytes :=
  (split_name (utf8_or_empty (take_while name_byte bs)), drop_while name_byte bs).

Record Tag := mkTag { tg_ns_decls : list (option string * string); tg_attrs : list Attr }.

Definition add_attr (ap : option string) (al value : string) (t : Tag) : Tag :=
  if bool_decide (ap = Some "xmlns") then mkTag (tg_ns_decls t ++ [(Some al, value)]) (tg_attrs t)
  else if bool_decide (ap = None) && bool_decide (al = "xmlns") then mkTag (tg_ns_decls t ++ [(None, value)]) (tg_attrs t)
  else mkTag (tg_ns_decls t) (tg_attrs t ++ [mkAttr ap al value]).

(** One attribute: its name, its value, and what follows the closing quote. *)
Definition parse_attr (bs : bytes) : result XmlError (option string * string * string * bytes) :=
  let '((ap, al), bs) := parse_name bs in
  match skip_ws bs with
  | x3d :: bs =>
      match skip_ws bs with
      | [] => Err (XmlErr "attr quote")
      | quote :: bs =>
          if bool_decide (quote = x22) || bool_decide (quote = x27) then
            let inside := λ c, bool_decide (c ≠ quote) in
            Ok (ap, al, decode_entities (utf8_or_empty (take_while inside bs)), drop 1 (drop_while inside bs))
          else Err (XmlErr "attr value must be quoted")
      end
  | _ => Err (XmlErr "expected '=' in attribute")
  end.

(** The rest of a start tag; the flag says that it closes itself. *)
Fixpoint tag_loop (fuel : nat) (bs : bytes) (t : Tag) : result XmlError (bool * Tag * bytes) :=
  match fuel with
  | O => Err OutOfFuel
  | S fuel =>
      match skip_ws bs with
      | [] => Err (XmlErr "unexpected EOF in tag")
      | x2f :: bs =>
          match bs with
          | x3e :: bs => Ok (true, t, bs)
          | _ => Err (XmlErr "malformed self-closing tag")
          end
      | x3e :: bs => Ok (false, t, bs)
      | bs =>
          '(ap, al, value, bs) ← parse_attr bs;
          tag_loop fuel bs (add_attr ap al value t)
      end
  end.

Definition not_lt (c : byte) : bool := bool_decide (c ≠ x3c).

Fixpoint parse_element (fuel : nat) (bs : bytes) {struct fuel} : result XmlError (Element * bytes) :=
  match fuel with
  | O => Err OutOfFuel
  | S fuel =>
      match bs with
      | x3c :: bs =>
          let '((prefix, local), bs) := parse_name bs in
          '(closed, t, bs) ← tag_loop (S (length bs)) bs (mkTag [] []);
          if (closed : bool) then Ok (mkElement prefix local (tg_ns_decls t) (tg_attrs t) [], bs)
          else
            '(children, bs) ← parse_children fuel bs [];
            Ok (mkElement prefix local (tg_ns_decls t) (tg_attrs t) children, bs)
      | _ => Err (XmlErr "expected '<'")
      end
  end
with parse_children (fuel : nat) (bs : bytes) (children : list Node) {struct fuel}
    : result XmlError (list Node * bytes) :=
  match fuel with
  | O => Err OutOfFuel
  | S fuel =>
      if starts_with (as_bytes "</") bs then
        match skip_ws (parse_name (drop 2 bs)).2 with
        | x3e :: bs => Ok (children, bs)
        | _ => Err (XmlErr "malformed end tag")
        end
      else if starts_with (as_bytes "<!--") bs then
        '(_, bs) ← find "-->" bs;
        parse_children fuel bs children
      else if starts_with (as_bytes "<![CDATA[") bs then
        '(raw, bs) ← find "]]>" (drop 9 bs);
        parse_children fuel bs (children ++ [NText (utf8_or_empty raw)])
      else
        match bs with
        | [] => Err (XmlErr "unexpected EOF in element body")
        | x3c :: _ =>
            '(e, bs) ← parse_element fuel bs;
            parse_children fuel bs (children ++ [NElement e])
        | _ =>
            parse_children fuel (drop_while not_lt bs)
              (children ++ [NText (decode_entities (utf8_or_empty (take_while not_lt bs)))])
        end
  end.

Definition parse (input : string) : result XmlError Element :=
  let bs := as_bytes input in
  bs ← skip_prolog (S (length bs)) bs;
  '(root, _) ← parse_element (S (length bs)) bs;
  Ok root.

(** ** Exclusive canonicalization *)

(** Prefixes in scope (the empty one is the default) and their URIs. *)
Abbreviation NsScope := (gmap string string).

(** The scope after the declarations of an element. *)
Definition declare (scope : NsScope) (d : option string * string) : NsScope :=
  let k := default "" d.1 in
  if bool_decide (k = "") && bool_decide (d.2 = "") then delete "" scope else <[k := d.2]> scope.
Definition enter (scope : NsScope) (e : Element) : NsScope := fold_left declare (el_ns_decls e) scope.

(** The first element, depth first, that satisfies [pred]; with the scope it
    inherits. *)
Fixpoint walk (pred : list nat → Element → bool) (here : list nat) (inherited : NsScope) (e : Element) {struct e}
    : option (Element * NsScope) :=
  if pred here e then Some (e, inherited)
  else
    (fix go (i : nat) (ns : list Node) : option (Element * NsScope) :=
       match ns with
       | [] => None
       | NElement c :: ns =>
           match walk pred (here ++ [i]) (enter inherited e) c with
           | Some found => Some found
           | None => go (S i) ns
           end
       | NText _ :: ns => go (S i) ns
       end) 0%nat (let 'mkElement _ _ _ _ ns := e in ns).
Definition find_with_scope (root : Element) (pred : list nat → Element → bool) : option (Element * NsScope) :=
  walk pred [] ∅ root.

Definition QUOTE : byte := x22.

Definition text_escape_byte (c : byte) : bytes :=
  match c with
  | x26 => as_bytes "&amp;"
  | x3c => as_bytes "&lt;"
  | x3e => as_bytes "&gt;"
  | x0d => as_bytes "&#xD;"
  | _ => [c]
  end.
Definition attr_escape_byte (c : byte) : bytes :=
  match c with
  | x26 => as_bytes "&amp;"
  | x3c => as_bytes "&lt;"
  | x22 => as_bytes "&quot;"
  | x09 => as_bytes "&#x9;"
  | x0a => as_bytes "&#xA;"
  | x0d => as_bytes "&#xD;"
  | _ => [c]
  end.
(** No character outside ASCII is escaped, so bytes are escaped one by one. *)
Definition text_escape (s : string) : bytes := as_bytes s ≫= text_escape_byte.
Definition attr_escape (s : string) : bytes := as_bytes s ≫= attr_escape_byte.

(** The prefixes an element visibly utilizes, sorted. *)
Definition utilized (e : Element) (incl : list string) : list string :=
  bt_collect (default "" (el_prefix e) :: omap at_prefix (el_attrs e) ++ incl).

(** What one prefix adds to the declarations to emit. *)
Definition emit_ns (in_scope parent_rendered : NsScope) (prefix : string) : list (string * string) :=
  let uri := default "" (in_scope !! prefix) in
  if bool_decide (prefix = "") && bool_decide (uri = "") then
    match parent_rendered !! "" with
    | Some prev => if bool_decide (prev = "") then [] else [("", "")]
    | None => []
    end
  else if bool_decide (uri = "") then []
  else if bool_decide (parent_rendered !! prefix = Some uri) then []
  else [(prefix, uri)].
Definition ns_to_emit (e : Element) (in_scope parent_rendered : NsScope) (incl : list string) : list (string * string) :=
  sort_by (λ a b, String.leb a.1 b.1) (utilized e incl ≫= emit_ns in_scope parent_rendered).

Definition attr_uri (in_scope : NsScope) (a : Attr) : string := default "" (at_prefix a ≫= λ p, in_scope !! p).
Definition attr_le (in_scope : NsScope) (a b : Attr) : bool :=
  match String.compare (attr_uri in_scope a) (attr_uri in_scope b) with
  | Lt => true
  | Gt => false
  | Eq => String.leb (at_local a) (at_local b)
  end.

Definition print_pair (name : string) (value : string) : bytes :=
  x20 :: as_bytes name ++ x3d :: QUOTE :: attr_escape value ++ [QUOTE].
Definition print_ns (d : string * string) : bytes :=
  print_pair (if bool_decide (d.1 = "") then "xmlns" else "xmlns:" +:+ d.1) d.2.
Definition print_attr (a : Attr) : bytes := print_pair (qualified (at_prefix a) (at_local a)) (at_value a).

Definition start_tag (e : Element) (in_scope parent_rendered : NsScope) (incl : list string) : bytes :=
  x3c :: as_bytes (qname e) ++ mjoin (print_ns <$> ns_to_emit e in_scope parent_rendered incl) ++
  mjoin (print_attr <$> sort_by (attr_le in_scope) (el_attrs e)) ++ [x3e].
Definition end_tag (e : Element) : bytes := x3c :: x2f :: as_bytes (qname e) ++ [x3e].

Definition render (rendered : NsScope) (emitted : list (string * string)) : NsScope :=
  fold_left (λ m d, <[d.1 := d.2]> m) emitted rendered.

Fixpoint serialize (e : Element) (parent_in_scope parent_rendered : NsScope) (incl : list string) {struct e} : bytes :=
  let in_scope := enter parent_in_scope e in
  let rendered := render parent_rendered (ns_to_emit e in_scope parent_rendered incl) in
  start_tag e in_scope parent_rendered incl ++
  (fix go (ns : list Node) : bytes :=
     match ns with
     | [] => []
     | NElement c :: ns => serialize c in_scope rendered incl ++ go ns
     | NText t :: ns => text_escape t ++ go ns
     end) (let 'mkElement _ _ _ _ ns := e in ns) ++
  end_tag e.

Definition exc_c14n_scoped (e : Element) (incl : list string) (inherited : NsScope) : bytes := serialize e inherited ∅ incl.
Definition exc_c14n (e : Element) (incl : list string) : bytes := exc_c14n_scoped e incl ∅.

Fixpoint strip_signature (e : Element) : Element :=
  let 'mkElement p l d a ns := e in
  mkElement p l d a
    ((fix go (ns : list Node) : list Node :=
        match ns with
        | [] => []
        | NElement c :: ns => if bool_decide (el_local c = "Signature") then go ns else NElement (strip_signature c) :: go ns
        | NText t :: ns => NText t :: go ns
        end) ns).

Definition exc_c14n_enveloped_scoped (e : Element) (incl : list string) (inherited : NsScope) : bytes :=
  exc_c14n_scoped (strip_signature e) incl inherited.
Definition exc_c14n_enveloped (e : Element) (incl : list string) : bytes := exc_c14n_enveloped_scoped e incl ∅.
