(* ===== verification/XmlTheory.v ===== *)
(** What the canonical form of [Xml] says: parsing it gives the tree back, with the
    declarations it renders, its attributes in order and its text in one piece.  So
    the canonical form determines the tree. *)

From S2P Require Import Prelude Text BTree Xml.

(** ** Trees *)

Lemma element_ind (P : Element → Prop) :
  (∀ p l d a ns, (∀ c, NElement c ∈ ns → P c) → P (mkElement p l d a ns)) → ∀ e, P e.
Proof.
  intros H. fix IH 1. intros [p l d a ns]. apply H.
  assert (Forall (λ n, match n with NElement c => P c | NText _ => True end) ns) as F.
  { induction ns as [|n ns IHns]; constructor; [|exact IHns]. destruct n as [c|t]; [apply IH|exact I]. }
  intros c Hc. rewrite Forall_forall in F. exact (F _ Hc).
Qed.

Definition print_node (in_scope rendered : NsScope) (incl : list string) (n : Node) : bytes :=
  match n with NElement c => serialize c in_scope rendered incl | NText t => text_escape t end.

Lemma mjoin_cons {A} (x : list A) (l : list (list A)) : mjoin (x :: l) = x ++ mjoin l.
Proof. done. Qed.

Lemma serialize_eq e scope rendered incl :
  serialize e scope rendered incl =
    start_tag e (enter scope e) rendered incl ++
    mjoin (print_node (enter scope e) (render rendered (ns_to_emit e (enter scope e) rendered incl)) incl <$> el_children e) ++
    end_tag e.
Proof.
  destruct e as [p l d a ns]. cbn [serialize el_children]. f_equal. f_equal.
  generalize (render rendered (ns_to_emit (mkElement p l d a ns) (enter scope (mkElement p l d a ns)) rendered incl)).
  generalize (enter scope (mkElement p l d a ns)). intros sc rn.
  induction ns as [|[c|t] ns IH]; [done|..]; rewrite IH; done.
Qed.

(** ** UTF-8, character by character *)

Definition utf8_char (c : bytes) : Prop := ∃ b cs, c = b :: cs ∧ utf8_step b cs = (length cs, true).

Lemma match_ranges_take rs bs n :
  match_ranges rs bs = (n, true) →
  n = length rs ∧ match_ranges rs (take n bs) = (n, true) ∧ length (take n bs) = n.
Proof.
  revert bs n. induction rs as [|[lo hi] rs IH]; intros bs n; simpl.
  { by intros [= <-]. }
  destruct bs as [|b bs]; [done|]. destruct (in_range lo hi b) eqn:Hb; [|done].
  destruct (match_ranges rs bs) as [n' ok] eqn:E. intros [= <- ->].
  destruct (IH bs n' E) as (-> & E' & L). cbn [take length]. rewrite Hb, E', L. done.
Qed.

Lemma valid_utf8_ind (P : bytes → Prop) :
  P [] → (∀ c rest, utf8_char c → valid_utf8 rest = true → P rest → P (c ++ rest)) →
  ∀ s, valid_utf8 s = true → P s.
Proof.
  intros H0 Hc s. remember (length s) as len eqn:Hlen. revert s Hlen.
  induction (lt_wf len) as [len _ IH]. intros [|b bs] Hlen H; [done|]. simpl in Hlen.
  rewrite valid_utf8_cons in H. destruct (utf8_step b bs) as [n ok] eqn:E. simpl in H.
  apply andb_true_iff in H as [-> H].
  replace (b :: bs) with ((b :: take n bs) ++ drop n bs) by (cbn [app]; by rewrite take_drop).
  apply Hc; [|done|apply (IH (length (drop n bs))); [rewrite length_drop; lia|done..]].
  exists b, (take n bs). split; [done|]. revert E. unfold utf8_step. destruct (continuation b) as [rs|]; [|done].
  intros E. destruct (match_ranges_take _ _ _ E) as (-> & E' & L). by rewrite L.
Qed.

Lemma utf8_char_app c rest : utf8_char c → valid_utf8 (c ++ rest) = valid_utf8 rest.
Proof.
  intros (b & cs & -> & E). cbn [app]. rewrite valid_utf8_cons.
  destruct (utf8_step_app b cs rest _ E) as [-> _]. simpl. by rewrite drop_app_length.
Qed.

Lemma continuation_spec b rs :
  continuation b = Some rs →
  utf8_len b = S (length rs) ∧ (rs = [] ↔ Byte.to_N b < 128) ∧ Forall (λ r, 128 ≤ r.1) rs.
Proof.
  destruct b; intros H; vm_compute in H; (discriminate H || injection H as <-);
    (split; [reflexivity|split; [split; [discriminate || reflexivity|discriminate || reflexivity]|]]);
    repeat constructor; discriminate.
Qed.

(** A character is one ASCII byte, or no byte of it is ASCII. *)
Lemma utf8_char_cases c :
  utf8_char c →
  (∃ b, c = [b] ∧ Byte.to_N b < 128) ∨
  Forall (λ b, 128 ≤ Byte.to_N b) c.
Proof.
  intros (b & cs & -> & E). unfold utf8_step in E. destruct (continuation b) as [rs|] eqn:Ec; [|done].
  destruct (continuation_spec _ _ Ec) as (_ & Hn & F).
  destruct rs as [|r rs].
  - left. exists b. destruct cs; [|done]. split; [done|]. by apply Hn.
  - right. apply Forall_cons. split; [destruct (N.lt_ge_cases (Byte.to_N b) 128) as [H|H]; [by apply Hn in H|done]|].
    clear Ec Hn. revert E F. generalize (r :: rs). clear. induction cs as [|c cs IH]; intros rs E F; [constructor|].
    destruct rs as [|[lo hi] rs]; [done|]. simpl in E. destruct (in_range lo hi c) eqn:Hr; [|done].
    destruct (match_ranges rs cs) as [n ok] eqn:Em. injection E as -> ->.
    apply Forall_cons in F as [Hlo F]. constructor; [|by apply (IH rs)].
    unfold in_range in Hr. apply andb_true_iff in Hr as [?%N.leb_le _]. simpl in Hlo. lia.
Qed.

Lemma utf8_char_len b cs : utf8_char (b :: cs) → utf8_len b = S (length cs).
Proof.
  intros (b' & cs' & [= <- <-] & E). unfold utf8_step in E. destruct (continuation b) as [rs|] eqn:Ec; [|done].
  destruct (continuation_spec _ _ Ec) as (-> & _). by destruct (match_ranges_take _ _ _ E) as (-> & _).
Qed.

(** Cutting valid text at an ASCII byte gives valid texts. *)
Lemma valid_utf8_cut a c b :
  Byte.to_N c < 128 → valid_utf8 (a ++ c :: b) = true → valid_utf8 a = true ∧ valid_utf8 b = true.
Proof.
  intros Hc. remember (a ++ c :: b) as s eqn:Hs. intros Hv. revert a Hs. revert s Hv.
  refine (valid_utf8_ind (λ s, ∀ a, s = a ++ c :: b → valid_utf8 a = true ∧ valid_utf8 b = true) _ _).
  { by intros []. }
  intros ch rest Hch Hrest IH a Hs.
  pose proof Hch as (x & cs & -> & _). cbn [app] in Hs. destruct a as [|y a].
  - injection Hs as -> Hs. destruct (utf8_char_cases _ Hch) as [(y & [= <- ->] & _)|F%Forall_cons]; [|lia].
    cbn [app] in Hs. subst. done.
  - injection Hs as -> Hs.
    assert (∃ a', a = cs ++ a' ∧ rest = a' ++ c :: b) as (a' & -> & ->).
    { destruct (utf8_char_cases _ Hch) as [(z & [= -> ->] & _)|F]; [by exists a|].
      apply Forall_cons in F as [_ F]. clear - Hs F Hc. revert a Hs. induction cs as [|d cs IH]; intros a Hs; [by exists a|].
      apply Forall_cons in F as [Hd F]. destruct a as [|e a]; cbn [app] in Hs; injection Hs as -> Hs; [lia|].
      destruct (IH F a Hs) as (a' & -> & ->). by exists a'. }
    destruct (IH a' eq_refl) as [H1 H2]. split; [|done].
    change (y :: cs ++ a') with ((y :: cs) ++ a'). by rewrite utf8_char_app.
Qed.

(** ** Escapes *)

(** A byte is kept, or it is an ASCII character written as its entity. *)
Definition escapes (esc : byte → bytes) : Prop :=
  ∀ b, (esc b = [b] ∧ b ≠ x26) ∨
       (Byte.to_N b < 128 ∧ ∃ ent, esc b = x26 :: ent ++ [x3b] ∧ (x3b ∉ ent) ∧ entity ent = Some [b] ∧ ascii_text ent).

Lemma escape_one b ent : entity ent = Some [b] → Byte.to_N b < 128 →
  bool_decide (x3b ∈ ent) = false → forallb (λ b, Byte.to_N b <? 128) ent = true →
  ∃ ent', x26 :: ent ++ [x3b] = x26 :: ent' ++ [x3b] ∧ (x3b ∉ ent') ∧ entity ent' = Some [b] ∧ ascii_text ent'.
Proof.
  intros He Hb Hn%bool_decide_eq_false F. exists ent. split; [done|]. split; [done|]. split; [done|].
  apply Forall_forall. intros x Hx. rewrite forallb_forall in F. apply list_elem_of_In in Hx. by apply F, N.ltb_lt in Hx.
Qed.

Lemma text_escapes : escapes text_escape_byte.
Proof.
  intros b. destruct b; try (left; split; [reflexivity|discriminate]); right; (split; [reflexivity|]).
  - by apply (escape_one _ (as_bytes "#xD")).
  - by apply (escape_one _ (as_bytes "amp")).
  - by apply (escape_one _ (as_bytes "lt")).
  - by apply (escape_one _ (as_bytes "gt")).
Qed.

Lemma attr_escapes : escapes attr_escape_byte.
Proof.
  intros b. destruct b; try (left; split; [reflexivity|discriminate]); right; (split; [reflexivity|]).
  - by apply (escape_one _ (as_bytes "#x9")).
  - by apply (escape_one _ (as_bytes "#xA")).
  - by apply (escape_one _ (as_bytes "#xD")).
  - by apply (escape_one _ (as_bytes "quot")).
  - by apply (escape_one _ (as_bytes "amp")).
  - by apply (escape_one _ (as_bytes "lt")).
Qed.

Section escapes.
Context (esc : byte → bytes) (Hesc : escapes esc).

Lemma escape_high c : Forall (λ b, 128 ≤ Byte.to_N b) c → c ≫= esc = c.
Proof using Hesc.
  induction 1 as [|b c Hb _ IH]; [done|]. change (esc b ++ (c ≫= esc) = b :: c). rewrite IH.
  destruct (Hesc b) as [[-> _]|[? _]]; [done|lia].
Qed.

Lemma escape_app a b : (a ++ b) ≫= esc = (a ≫= esc) ++ (b ≫= esc).
Proof. apply bind_app. Qed.

Lemma valid_escape s : valid_utf8 s = true → valid_utf8 (s ≫= esc) = true.
Proof using Hesc.
  revert s. refine (valid_utf8_ind (λ s, valid_utf8 (s ≫= esc) = true) eq_refl _). intros c rest Hc _ IH.
  rewrite escape_app. destruct (utf8_char_cases _ Hc) as [(b & -> & Hb)|F].
  - change ([b] ≫= esc) with (esc b ++ []). rewrite app_nil_r.
    rewrite valid_utf8_app; [done|]. apply valid_utf8_ascii.
    destruct (Hesc b) as [[-> _]|(_ & ent & -> & _ & _ & Ha)]; [by repeat constructor|].
    constructor; [done|]. apply Forall_app. split; [done|]. by repeat constructor.
  - by rewrite escape_high, utf8_char_app.
Qed.

Lemma decode_loop_kept fuel c rest :
  utf8_char c → head c ≠ Some x26 → decode_loop (S fuel) (c ++ rest) = c ++ decode_loop fuel rest.
Proof.
  intros Hc Hh. pose proof Hc as (b & cs & -> & _). cbn [decode_loop app].
  rewrite bool_decide_eq_false_2 by (simpl in Hh; congruence).
  rewrite (utf8_char_len _ _ Hc). cbn [take drop app]. by rewrite take_app_length, drop_app_length.
Qed.

Lemma decode_loop_entity fuel ent b rest :
  x3b ∉ ent → entity ent = Some [b] → decode_loop (S fuel) (x26 :: ent ++ x3b :: rest) = b :: decode_loop fuel rest.
Proof.
  intros Hn He. cbn [decode_loop]. rewrite bool_decide_eq_true_2 by done.
  rewrite split_once_printed by done. cbn [mbind option_bind]. by rewrite He.
Qed.

Lemma decode_escape s : valid_utf8 s = true → ∀ fuel, (length (s ≫= esc) ≤ fuel)%nat → decode_loop fuel (s ≫= esc) = s.
Proof using Hesc.
  revert s. refine (valid_utf8_ind (λ s, ∀ fuel, (length (s ≫= esc) ≤ fuel)%nat → decode_loop fuel (s ≫= esc) = s) _ _).
  { by intros [|fuel]. }
  intros c rest Hc _ IH fuel. rewrite escape_app.
  destruct (utf8_char_cases _ Hc) as [(b & -> & Hb)|F].
  - change ([b] ≫= esc) with (esc b ++ []). rewrite app_nil_r.
    destruct (Hesc b) as [[-> Hn]|(_ & ent & -> & Hn & He & _)]; rewrite !length_app; simpl.
    + intros Hf. destruct fuel as [|fuel]; [lia|]. change (b :: (rest ≫= esc)) with ([b] ++ (rest ≫= esc)).
      rewrite decode_loop_kept; [|done|simpl; congruence]. f_equal. apply IH. lia.
    + intros Hf. destruct fuel as [|fuel]; [lia|]. rewrite <-app_assoc. cbn [app].
      rewrite (decode_loop_entity _ _ _ _ Hn He). f_equal. apply IH. rewrite length_app in Hf. simpl in Hf. lia.
  - rewrite escape_high by done. rewrite length_app. pose proof Hc as (b & cs & Ec & _). intros Hf.
    destruct fuel as [|fuel]; [subst; simpl in Hf; lia|].
    rewrite decode_loop_kept; [|done|]; [f_equal; apply IH; subst; simpl in Hf; lia|].
    subst. apply Forall_cons in F as [F _]. simpl. intros [= ->]. vm_compute in F. by apply F.
Qed.

Lemma escape_plain s : x26 ∉ (s ≫= esc) → s ≫= esc = s.
Proof using Hesc.
  induction s as [|b s IH]; [done|]. change ((b :: s) ≫= esc) with (esc b ++ (s ≫= esc)).
  rewrite elem_of_app. intros Hn. destruct (Hesc b) as [[-> _]|(_ & ent & Ee & _)].
  - cbn [app]. f_equal. apply IH. tauto.
  - destruct Hn. left. rewrite Ee. by left.
Qed.

(** Reading back an escaped text. *)
Lemma decode_escaped (s : string) :
  valid_utf8 (as_bytes s) = true →
  decode_entities (utf8_or_empty (as_bytes s ≫= esc)) = s.
Proof using Hesc.
  intros Hv. unfold utf8_or_empty. rewrite valid_escape by done. unfold decode_entities, as_bytes.
  rewrite list_byte_of_string_of_list_byte. case_bool_decide as Hin.
  - rewrite decode_escape by done. apply string_of_list_byte_of_string.
  - rewrite escape_plain by done. apply string_of_list_byte_of_string.
Qed.
End escapes.

(** ** Names, attributes and tags *)

Lemma take_while_app p a c rest :
  Forall (λ b, p b = true) a → p c = false → take_while p (a ++ c :: rest) = a ∧ drop_while p (a ++ c :: rest) = c :: rest.
Proof.
  intros F Hc. induction F as [|b a Hb _ [IH1 IH2]]; simpl; [by rewrite Hc|]. by rewrite Hb, IH1, IH2.
Qed.

Definition str_ok (s : string) : Prop := valid_utf8 (as_bytes s) = true.

(** A name that the parser reads back. *)
Definition name_ok (p : option string) (l : string) : Prop :=
  Forall (λ b, name_byte b = true) (as_bytes (qualified p l)) ∧ str_ok (qualified p l) ∧
  match p with Some p => COLON ∉ as_bytes p | None => COLON ∉ as_bytes l end.

Lemma split_name_ok p l : name_ok p l → split_name (qualified p l) = (p, l).
Proof.
  intros (_ & _ & Hc). unfold split_name. destruct p as [p|]; cbn [qualified].
  - rewrite !as_bytes_app. change (as_bytes ":") with [COLON]. cbn [app]. rewrite split_once_printed by done.
    unfold as_bytes. by rewrite !string_of_list_byte_of_string.
  - by rewrite (proj2 (split_once_None _ _)).
Qed.

Lemma parse_name_ok p l c rest :
  name_ok p l → name_end c = true → parse_name (as_bytes (qualified p l) ++ c :: rest) = ((p, l), c :: rest).
Proof.
  intros Hok Hc. pose proof Hok as (F & Hv & _). unfold parse_name.
  destruct (take_while_app name_byte (as_bytes (qualified p l)) c rest F) as [-> ->]; [by unfold name_byte; rewrite Hc|].
  unfold utf8_or_empty. rewrite Hv. unfold as_bytes at 1. rewrite string_of_list_byte_of_string. by rewrite split_name_ok.
Qed.

Record pair_ok (ap : option string) (al v : string) : Prop := {
  pk_name : name_ok ap al;
  pk_start : head (as_bytes (qualified ap al)) ≠ Some x0c;
  pk_value : str_ok v;
}.

Lemma escape_free (esc : byte → bytes) (c : byte) (s : bytes) : (∀ b, c ∉ esc b) → c ∉ (s ≫= esc).
Proof. intros H (b & ? & ?)%list_elem_of_bind. by eapply H. Qed.

Lemma attr_escape_no_quote s : QUOTE ∉ attr_escape s.
Proof.
  apply escape_free. intros b. apply (bool_decide_unpack _). by destruct b; vm_compute.
Qed.

Lemma text_escape_no_lt s : x3c ∉ text_escape s.
Proof.
  apply escape_free. intros b. apply (bool_decide_unpack _). by destruct b; vm_compute.
Qed.

Lemma parse_attr_ok ap al v rest :
  pair_ok ap al v →
  parse_attr (as_bytes (qualified ap al) ++ x3d :: QUOTE :: attr_escape v ++ QUOTE :: rest) = Ok (ap, al, v, rest).
Proof.
  intros [Hn _ Hv]. unfold parse_attr. rewrite parse_name_ok by done.
  change (skip_ws (x3d :: QUOTE :: attr_escape v ++ QUOTE :: rest)) with (x3d :: QUOTE :: attr_escape v ++ QUOTE :: rest).
  cbv beta iota zeta. change (skip_ws (QUOTE :: attr_escape v ++ QUOTE :: rest)) with (QUOTE :: attr_escape v ++ QUOTE :: rest).
  cbv beta iota zeta. rewrite bool_decide_eq_true_2 by done. cbn [orb].
  destruct (take_while_app (λ c, bool_decide (c ≠ QUOTE)) (attr_escape v) QUOTE rest) as [-> ->].
  - apply Forall_forall. intros b Hb. apply bool_decide_eq_true. intros ->. by apply (attr_escape_no_quote v).
  - done.
  - unfold attr_escape. rewrite (decode_escaped _ attr_escapes) by done. done.
Qed.

Lemma tag_loop_attr fuel bs t b bs' :
  skip_ws bs = b :: bs' → b ≠ x2f → b ≠ x3e →
  tag_loop (S fuel) bs t = '(ap, al, value, bs) ← parse_attr (b :: bs'); tag_loop fuel bs (add_attr ap al value t).
Proof. intros E H1 H2. cbn [tag_loop]. rewrite E. by destruct b. Qed.

Definition print_triple (x : option string * string * string) : bytes := print_pair (qualified x.1.1 x.1.2) x.2.
Definition triple_ok (x : option string * string * string) : Prop := pair_ok x.1.1 x.1.2 x.2.

(** The first byte of a name, or the equals sign after an empty one. *)
Lemma pair_head ap al v rest :
  pair_ok ap al v → ∃ b bs, as_bytes (qualified ap al) ++ x3d :: rest = b :: bs ∧
    b ≠ x2f ∧ b ≠ x3e ∧ is_ascii_whitespace b = false.
Proof.
  intros [(F & _) Hs _]. destruct (as_bytes (qualified ap al)) as [|b bs]; [by eexists _, _|].
  exists b, (bs ++ x3d :: rest). split; [done|]. apply Forall_cons in F as [Hb _]. simpl in Hs.
  assert (b ≠ x0c) as Hc by congruence. clear -Hb Hc. by destruct b.
Qed.

Lemma tag_loop_ok xs : ∀ fuel t rest, (length xs < fuel)%nat → Forall triple_ok xs →
  tag_loop fuel (mjoin (print_triple <$> xs) ++ x3e :: rest) t =
    Ok (false, fold_left (λ t x, add_attr x.1.1 x.1.2 x.2 t) xs t, rest).
Proof.
  induction xs as [|[[ap al] v] xs IH]; intros fuel t rest Hf F; (destruct fuel as [|fuel]; [simpl in Hf; lia|]).
  { done. }
  apply Forall_cons in F as [Hok F]. simpl in Hf.
  change (mjoin (print_triple <$> (ap, al, v) :: xs)) with (print_triple (ap, al, v) ++ mjoin (print_triple <$> xs)).
  unfold print_triple at 1, print_pair. cbn [fst snd app]. rewrite <-!app_assoc. cbn [app]. rewrite <-!app_assoc. cbn [app].
  set (tail := mjoin (print_triple <$> xs) ++ x3e :: rest).
  destruct (pair_head ap al v (QUOTE :: attr_escape v ++ QUOTE :: tail) Hok) as (b & bs & E & H1 & H2 & H3).
  rewrite (tag_loop_attr _ _ _ b bs); [|..|done|done].
  - rewrite <-E, parse_attr_ok by done. cbn [mbind result_mbind]. unfold tail. rewrite IH; [done|lia|done].
  - unfold skip_ws. rewrite E. cbn [drop_while is_ascii_whitespace]. by rewrite H3.
Qed.

(** ** The tree of a canonical form *)

Definition decl_of (d : string * string) : option string * string :=
  ((if bool_decide (d.1 = "") then None else Some d.1), d.2).

(** Adjacent texts in one piece, empty ones dropped. *)
Definition add_text (t : string) (ns : list Node) : list Node :=
  if bool_decide (t = "") then ns
  else match ns with NText u :: ns => NText (t +:+ u) :: ns | _ => NText t :: ns end.
Fixpoint merge (ns : list Node) : list Node :=
  match ns with
  | [] => []
  | NElement c :: ns => NElement c :: merge ns
  | NText t :: ns => add_text t (merge ns)
  end.

Fixpoint canon (e : Element) (parent_in_scope parent_rendered : NsScope) (incl : list string) {struct e} : Element :=
  let in_scope := enter parent_in_scope e in
  let emitted := ns_to_emit e in_scope parent_rendered incl in
  let 'mkElement p l _ a ns := e in
  mkElement p l (decl_of <$> emitted) (sort_by (attr_le in_scope) a)
    (merge
       ((fix go (ns : list Node) : list Node :=
           match ns with
           | [] => []
           | NElement c :: ns => NElement (canon c in_scope (render parent_rendered emitted) incl) :: go ns
           | NText t :: ns => NText t :: go ns
           end) ns)).

Definition canon_node (in_scope rendered : NsScope) (incl : list string) (n : Node) : Node :=
  match n with NElement c => NElement (canon c in_scope rendered incl) | NText t => NText t end.

Lemma canon_eq e scope rendered incl :
  canon e scope rendered incl =
    mkElement (el_prefix e) (el_local e) (decl_of <$> ns_to_emit e (enter scope e) rendered incl)
      (sort_by (attr_le (enter scope e)) (el_attrs e))
      (merge (canon_node (enter scope e) (render rendered (ns_to_emit e (enter scope e) rendered incl)) incl <$> el_children e)).
Proof.
  destruct e as [p l d a ns]. cbn [canon el_prefix el_local el_attrs el_children]. f_equal. f_equal.
  generalize (render rendered (ns_to_emit (mkElement p l d a ns) (enter scope (mkElement p l d a ns)) rendered incl)).
  generalize (enter scope (mkElement p l d a ns)). intros sc rn.
  induction ns as [|[c|t] ns IH]; [done|..]; rewrite IH; done.
Qed.

(** No empty text, no two texts in a row. *)
Fixpoint merged (ns : list Node) : Prop :=
  match ns with
  | [] => True
  | NElement _ :: ns => merged ns
  | NText t :: ns => t ≠ "" ∧ match ns with NText _ :: _ => False | _ => True end ∧ merged ns
  end.

Lemma merge_merged ns : merged (merge ns).
Proof.
  induction ns as [|[c|t] ns IH]; [done..|]. cbn [merge]. unfold add_text. case_bool_decide as Ht; [done|].
  destruct (merge ns) as [|[c|u] ns']; [done|done|]. destruct IH as (Hu & Hn & IH). split; [|done].
  by destruct t.
Qed.

Lemma merge_canon sc rn incl ns : merge (canon_node sc rn incl <$> ns) = canon_node sc rn incl <$> merge ns.
Proof.
  induction ns as [|[c|t] ns IH]; [done|..]; cbn [fmap list_fmap merge canon_node].
  - change (NElement (canon c sc rn incl) :: merge (canon_node sc rn incl <$> ns) = canon_node sc rn incl <$> NElement c :: merge ns).
    by rewrite IH.
  - change (add_text t (merge (canon_node sc rn incl <$> ns)) = canon_node sc rn incl <$> add_text t (merge ns)).
    rewrite IH. unfold add_text. case_bool_decide; [done|]. by destruct (merge ns) as [|[]].
Qed.

Lemma text_escape_app s t : text_escape (s +:+ t) = text_escape s ++ text_escape t.
Proof. unfold text_escape. rewrite as_bytes_app. apply bind_app. Qed.

Lemma print_merge sc rn incl ns : mjoin (print_node sc rn incl <$> merge ns) = mjoin (print_node sc rn incl <$> ns).
Proof.
  induction ns as [|[c|t] ns IH]; [done|..].
  - change (serialize c sc rn incl ++ mjoin (print_node sc rn incl <$> merge ns) =
      serialize c sc rn incl ++ mjoin (print_node sc rn incl <$> ns)). by rewrite IH.
  - change (mjoin (print_node sc rn incl <$> add_text t (merge ns)) = text_escape t ++ mjoin (print_node sc rn incl <$> ns)).
    rewrite <-IH. unfold add_text. case_bool_decide as Ht; [by subst|].
    destruct (merge ns) as [|[c|u] ns']; [done|done|].
    change (text_escape (t +:+ u) ++ mjoin (print_node sc rn incl <$> ns') =
      text_escape t ++ (text_escape u ++ mjoin (print_node sc rn incl <$> ns'))).
    by rewrite text_escape_app, <-app_assoc.
Qed.

Lemma elem_of_merge c ns : NElement c ∈ merge ns ↔ NElement c ∈ ns.
Proof.
  induction ns as [|[c'|t] ns IH]; [done|..]; cbn [merge].
  - rewrite !elem_of_cons. by rewrite IH.
  - rewrite elem_of_cons, <-IH. unfold add_text. case_bool_decide; [split; [by right|by intros [?|?]]|].
    destruct (merge ns) as [|[c'|u] ns']; rewrite !elem_of_cons; intuition discriminate.
Qed.

(** ** Well-formed trees *)

Definition decl_ok (d : option string * string) : Prop :=
  match d.1 with Some k => name_ok (Some "xmlns") k | None => True end ∧ str_ok d.2.

Record attr_ok (a : Attr) : Prop := {
  ak_pair : pair_ok (at_prefix a) (at_local a) (at_value a);
  ak_prefix : at_prefix a ≠ Some "xmlns";
  ak_plain : (at_prefix a, at_local a) ≠ (None, "xmlns");
}.

(** A name that opens no comment or section. *)
Definition start_ok (q : string) : Prop :=
  starts_with (as_bytes "!--") (as_bytes q) = false ∧ starts_with (as_bytes "![CDATA[") (as_bytes q) = false.

Inductive wf : Element → Prop :=
| wf_element p l d a ns :
    name_ok p l → start_ok (qualified p l) → Forall decl_ok d → Forall attr_ok a →
    (∀ c, NElement c ∈ ns → wf c) → (∀ t, NText t ∈ ns → str_ok t) → wf (mkElement p l d a ns).

Definition scope_ok (sc : NsScope) : Prop :=
  ∀ k u, sc !! k = Some u → (k ≠ "" → name_ok (Some "xmlns") k) ∧ str_ok u.

Lemma scope_ok_empty : scope_ok ∅.
Proof. intros k u. by rewrite lookup_empty. Qed.

Lemma scope_ok_declare sc d : scope_ok sc → decl_ok d → scope_ok (declare sc d).
Proof.
  intros Hs [Hn Hu] k u. unfold declare. destruct (_ && _); [intros [_ H]%lookup_delete_Some; by apply Hs|].
  intros [[<- <-]|[_ H]]%lookup_insert_Some; [|by apply Hs]. split; [|done]. destruct d as [[p|] v]; [done|]. done.
Qed.

Lemma scope_ok_enter sc e : scope_ok sc → wf e → scope_ok (enter sc e).
Proof.
  intros Hs [p l d a ns _ _ F _ _ _]. unfold enter. cbn [el_ns_decls]. revert sc Hs.
  induction F as [|x d Hx _ IH]; intros sc Hs; [done|]. apply IH. by apply scope_ok_declare.
Qed.

(** What is emitted is declared. *)
Lemma emit_ns_spec sc rn k d : d ∈ emit_ns sc rn k → d = ("", "") ∨ sc !! d.1 = Some d.2.
Proof.
  unfold emit_ns. destruct (bool_decide (k = "") && _).
  { destruct (rn !! ""); [|by intros ?%elem_of_nil]. case_bool_decide; [by intros ?%elem_of_nil|].
    intros ->%list_elem_of_singleton. by left. }
  case_bool_decide as Hu; [by intros ?%elem_of_nil|]. case_bool_decide; [by intros ?%elem_of_nil|].
  intros ->%list_elem_of_singleton. right. simpl. destruct (sc !! k); [done|]. by destruct Hu.
Qed.

Definition ns_triple (d : string * string) : option string * string * string :=
  if bool_decide (d.1 = "") then (None, "xmlns", d.2) else (Some "xmlns", d.1, d.2).
Definition attr_triple (a : Attr) : option string * string * string := (at_prefix a, at_local a, at_value a).

Lemma print_ns_triple d : print_ns d = print_triple (ns_triple d).
Proof. unfold print_ns, print_triple, ns_triple. by case_bool_decide. Qed.

Lemma ns_triples_ok e sc rn incl : scope_ok sc → Forall triple_ok (ns_triple <$> ns_to_emit e sc rn incl).
Proof.
  intros Hs. apply Forall_forall. intros x (d & -> & Hd)%list_elem_of_fmap. unfold ns_to_emit in Hd.
  rewrite sort_by_perm in Hd. apply list_elem_of_bind in Hd as (k & Hd & _).
  assert (str_ok d.2 ∧ (d.1 ≠ "" → name_ok (Some "xmlns") d.1)) as [Hv Hn].
  { apply emit_ns_spec in Hd as [->|Hd]; [done|]. by apply Hs in Hd as [? ?]. }
  unfold ns_triple. case_bool_decide as Hk.
  - split; [|done|done]. split; [by repeat constructor|]. split; [done|]. apply (bool_decide_unpack _). by vm_compute.
  - split; [by apply Hn|done|done].
Qed.

Lemma attr_triples_ok sc a : Forall attr_ok a → Forall triple_ok (attr_triple <$> sort_by (attr_le sc) a).
Proof.
  intros F. apply Forall_forall. intros x (d & -> & Hd)%list_elem_of_fmap. rewrite sort_by_perm in Hd.
  rewrite Forall_forall in F. by destruct (F d Hd).
Qed.

Lemma add_ns_triple d t :
  add_attr (ns_triple d).1.1 (ns_triple d).1.2 (ns_triple d).2 t = mkTag (tg_ns_decls t ++ [decl_of d]) (tg_attrs t).
Proof. unfold ns_triple, decl_of. by destruct (bool_decide (d.1 = "")). Qed.

Lemma fold_ns_triples ds t :
  fold_left (λ t x, add_attr x.1.1 x.1.2 x.2 t) (ns_triple <$> ds) t = mkTag (tg_ns_decls t ++ (decl_of <$> ds)) (tg_attrs t).
Proof.
  revert t. induction ds as [|d ds IH]; intros t; cbn [fmap list_fmap fold_left].
  { rewrite app_nil_r. by destruct t. }
  change (fold_left (λ t x, add_attr x.1.1 x.1.2 x.2 t) (ns_triple <$> ds)
    (add_attr (ns_triple d).1.1 (ns_triple d).1.2 (ns_triple d).2 t) =
    mkTag (tg_ns_decls t ++ decl_of d :: (decl_of <$> ds)) (tg_attrs t)).
  rewrite add_ns_triple, IH. cbn [tg_ns_decls tg_attrs]. by rewrite <-app_assoc.
Qed.

Lemma fold_attr_triples a t : Forall attr_ok a →
  fold_left (λ t x, add_attr x.1.1 x.1.2 x.2 t) (attr_triple <$> a) t = mkTag (tg_ns_decls t) (tg_attrs t ++ a).
Proof.
  intros F. revert t. induction F as [|x a [_ H1 H2] _ IH]; intros t; cbn [fmap list_fmap fold_left].
  { rewrite app_nil_r. by destruct t. }
  change (fold_left (λ t x, add_attr x.1.1 x.1.2 x.2 t) (attr_triple <$> a) (add_attr (at_prefix x) (at_local x) (at_value x) t) =
    mkTag (tg_ns_decls t) (tg_attrs t ++ x :: a)).
  rewrite IH. unfold add_attr. rewrite bool_decide_eq_false_2 by done.
  assert (bool_decide (at_prefix x = None) && bool_decide (at_local x = "xmlns") = false) as ->.
  { apply andb_false_iff. destruct (bool_decide_reflect (at_prefix x = None)); [right|by left].
    apply bool_decide_eq_false. congruence. }
  cbn [tg_ns_decls tg_attrs]. rewrite <-app_assoc. by destruct x.
Qed.

Lemma length_triples xs : (length xs ≤ length (mjoin (print_triple <$> xs)))%nat.
Proof.
  induction xs as [|x xs IH]; [done|].
  change (mjoin (print_triple <$> x :: xs)) with (print_triple x ++ mjoin (print_triple <$> xs)).
  rewrite length_app. unfold print_triple at 1, print_pair. simpl. lia.
Qed.

(** ** Parsing a canonical form *)

Definition triples (e : Element) (sc rn : NsScope) (incl : list string) : list (option string * string * string) :=
  (ns_triple <$> ns_to_emit e sc rn incl) ++ (attr_triple <$> sort_by (attr_le sc) (el_attrs e)).

Lemma mjoin_app {A} (l k : list (list A)) : mjoin (l ++ k) = mjoin l ++ mjoin k.
Proof. induction l as [|x l IH]; [done|]. cbn [app]. rewrite !mjoin_cons, IH. by rewrite app_assoc. Qed.

Lemma start_tag_triples e sc rn incl :
  start_tag e sc rn incl = x3c :: as_bytes (qname e) ++ mjoin (print_triple <$> triples e sc rn incl) ++ [x3e].
Proof.
  unfold start_tag, triples. rewrite fmap_app, mjoin_app, <-!list_fmap_compose. rewrite <-app_assoc.
  replace (print_triple ∘ ns_triple <$> ns_to_emit e sc rn incl) with (print_ns <$> ns_to_emit e sc rn incl); [done|].
  apply list_fmap_ext. intros _ d _. apply print_ns_triple.
Qed.

(** What follows a name ends it. *)
Lemma after_name xs rest : ∃ c tail, mjoin (print_triple <$> xs) ++ x3e :: rest = c :: tail ∧ (c = x20 ∨ c = x3e).
Proof. destruct xs as [|x xs]; [by exists x3e, rest; split; [|right]|]. eexists x20, _. split; [done|by left]. Qed.

Lemma starts_with_name pat q c tail :
  Forall (λ b, name_byte b = true) pat → name_end c = true → pat ≠ [] →
  starts_with pat q = false → starts_with pat (q ++ c :: tail) = false.
Proof.
  intros F Hc. revert q. induction F as [|x pat Hx F IH]; intros q Hne; [done|].
  destruct q as [|y q]; cbn [app starts_with].
  - intros _. rewrite bool_decide_eq_false_2; [done|]. intros ->. unfold name_byte in Hx. by rewrite Hc in Hx.
  - destruct (bool_decide (x = y)); [|done]. cbn [andb]. destruct pat as [|z pat]; [done|]. by apply IH.
Qed.

Lemma starts_with_cons p b bs x : starts_with (x :: p) (b :: bs) = bool_decide (x = b) && starts_with p bs.
Proof. done. Qed.

(** The text after the opening bracket of an element. *)
Lemma element_start e sc rn incl rest :
  wf e → ∃ c tail, serialize e sc rn incl ++ rest = x3c :: as_bytes (qname e) ++ c :: tail ∧ (c = x20 ∨ c = x3e).
Proof.
  intros _. rewrite serialize_eq, start_tag_triples. cbn [app]. rewrite <-!app_assoc. cbn [app].
  destruct (after_name (triples e (enter sc e) rn incl)
    (mjoin (print_node (enter sc e) (render rn (ns_to_emit e (enter sc e) rn incl)) incl <$> el_children e) ++
      end_tag e ++ rest)) as (c & tail & E & Hc).
  exists c, tail. split; [|done]. by rewrite E.
Qed.

Lemma element_not_markup q c tail :
  Forall (λ b, name_byte b = true) (as_bytes q) → start_ok q → c = x20 ∨ c = x3e →
  starts_with (as_bytes "</") (x3c :: as_bytes q ++ c :: tail) = false ∧
  starts_with (as_bytes "<!--") (x3c :: as_bytes q ++ c :: tail) = false ∧
  starts_with (as_bytes "<![CDATA[") (x3c :: as_bytes q ++ c :: tail) = false.
Proof.
  intros F [H1 H2] Hc. assert (name_end c = true) as Hce by by destruct Hc as [-> | ->].
  change (starts_with (as_bytes "</") (x3c :: as_bytes q ++ c :: tail)) with (starts_with (as_bytes "/") (as_bytes q ++ c :: tail)).
  change (starts_with (as_bytes "<!--") (x3c :: as_bytes q ++ c :: tail)) with (starts_with (as_bytes "!--") (as_bytes q ++ c :: tail)).
  change (starts_with (as_bytes "<![CDATA[") (x3c :: as_bytes q ++ c :: tail)) with (starts_with (as_bytes "![CDATA[") (as_bytes q ++ c :: tail)).
  split; [|split].
  - destruct (as_bytes q) as [|b bs]; [by destruct Hc as [-> | ->]|]. apply Forall_cons in F as [Hb _].
    cbn [app]. change (as_bytes "/") with [x2f]. rewrite starts_with_cons. rewrite bool_decide_eq_false_2; [done|]. by intros <-.
  - apply starts_with_name; [by repeat constructor|done..].
  - apply starts_with_name; [by repeat constructor|done..].
Qed.

Lemma parse_children_text fuel b bs acc :
  b ≠ x3c →
  parse_children (S fuel) (b :: bs) acc =
    parse_children fuel (drop_while not_lt (b :: bs))
      (acc ++ [NText (decode_entities (utf8_or_empty (take_while not_lt (b :: bs))))]).
Proof. intros Hb. cbn [parse_children]. by destruct b. Qed.

Lemma text_escape_head t : t ≠ "" → ∃ b bs, text_escape t = b :: bs ∧ b ≠ x3c.
Proof.
  intros Ht. pose proof (text_escape_no_lt t) as Hn. destruct (text_escape t) as [|b bs] eqn:E.
  - exfalso. destruct t as [|a t]; [done|]. revert E. unfold text_escape. cbn. by destruct (Ascii.byte_of_ascii a).
  - exists b, bs. split; [done|]. intros ->. apply Hn. by left.
Qed.

Definition reads_back (c : Element) : Prop :=
  ∀ sc rn incl fuel rest, scope_ok sc → (length (serialize c sc rn incl) ≤ fuel)%nat →
    parse_element fuel (serialize c sc rn incl ++ rest) = Ok (canon c sc rn incl, rest).

Lemma parse_children_text_ok fuel t tail acc :
  t ≠ "" → str_ok t →
  parse_children (S fuel) (text_escape t ++ x3c :: tail) acc = parse_children fuel (x3c :: tail) (acc ++ [NText t]).
Proof.
  intros Hne Ht. destruct (text_escape_head t Hne) as (b & bs & E & Hb).
  destruct (take_while_app not_lt (text_escape t) x3c tail) as [E1 E2]; [|done|].
  { apply Forall_forall. intros x Hx. unfold not_lt. apply bool_decide_eq_true. intros ->. by apply (text_escape_no_lt t). }
  rewrite E in *. cbn [app] in *. rewrite parse_children_text by done. rewrite E1, E2. rewrite <-E.
  unfold text_escape. by rewrite (decode_escaped _ text_escapes).
Qed.

Lemma parse_children_end fuel p l rest acc :
  name_ok p l →
  parse_children (S fuel) (x3c :: x2f :: as_bytes (qualified p l) ++ x3e :: rest) acc = Ok (acc, rest).
Proof.
  intros Hn. cbn [parse_children].
  change (starts_with (as_bytes "</") (x3c :: x2f :: as_bytes (qualified p l) ++ x3e :: rest)) with true.
  cbn [drop]. rewrite drop_0, parse_name_ok by done. done.
Qed.

Lemma wf_qname e : wf e → Forall (λ b, name_byte b = true) (as_bytes (qname e)) ∧ start_ok (qname e).
Proof. by intros [p l d a ns [F _] Hst _ _ _ _]. Qed.

(** The nodes of a merged list, up to the end tag of their parent. *)
Lemma parse_nodes_ok sc rn incl p l rest ns : ∀ fuel acc,
  name_ok p l → scope_ok sc → merged ns →
  (∀ c, NElement c ∈ ns → wf c ∧ reads_back c) → (∀ t, NText t ∈ ns → str_ok t) →
  (length (mjoin (print_node sc rn incl <$> ns)) < fuel)%nat →
  parse_children fuel (mjoin (print_node sc rn incl <$> ns) ++ x3c :: x2f :: as_bytes (qualified p l) ++ x3e :: rest) acc =
    Ok (acc ++ (canon_node sc rn incl <$> ns), rest).
Proof.
  set (close := x3c :: x2f :: as_bytes (qualified p l) ++ x3e :: rest).
  induction ns as [|n ns IH]; intros fuel acc Hn Hs Hm Hc Ht Hf; (destruct fuel as [|fuel]; [simpl in Hf; lia|]).
  { cbn [fmap list_fmap mjoin list_join app]. rewrite app_nil_r. by apply parse_children_end. }
  change (mjoin (print_node sc rn incl <$> n :: ns)) with (print_node sc rn incl n ++ mjoin (print_node sc rn incl <$> ns)) in *.
  rewrite length_app in Hf. rewrite <-app_assoc.
  change (canon_node sc rn incl <$> n :: ns) with (canon_node sc rn incl n :: (canon_node sc rn incl <$> ns)).
  assert (∀ c, NElement c ∈ ns → wf c ∧ reads_back c) as Hc' by (intros; apply Hc; by right).
  assert (∀ t, NText t ∈ ns → str_ok t) as Ht' by (intros; apply Ht; by right).
  destruct n as [c|t]; cbn [print_node canon_node] in *.
  - destruct (Hc c ltac:(by left)) as [Hw Hr].
    destruct (element_start c sc rn incl (mjoin (print_node sc rn incl <$> ns) ++ close) Hw) as (x & tail & E & Hx).
    assert (length (serialize c sc rn incl) ≤ fuel)%nat as Hf1 by lia.
    pose proof (Hr sc rn incl fuel (mjoin (print_node sc rn incl <$> ns) ++ close) Hs Hf1) as Hp.
    rewrite E in *. cbn [parse_children].
    destruct (element_not_markup (qname c) x tail) as (-> & -> & ->); [by apply wf_qname..|done|].
    rewrite Hp. cbn [mbind result_mbind].
    assert (0 < length (serialize c sc rn incl))%nat by (rewrite serialize_eq; unfold start_tag; simpl; lia).
    rewrite IH; [|done|done|done|done|done|lia]. by rewrite <-app_assoc.
  - destruct Hm as (Hne & Hm & Hmm).
    assert (∃ tail, mjoin (print_node sc rn incl <$> ns) ++ close = x3c :: tail) as [tail E].
    { destruct ns as [|[c|u] ns]; [by eexists| |done]. destruct (Hc' c ltac:(by left)) as [Hw _].
      destruct (element_start c sc rn incl (mjoin (print_node sc rn incl <$> ns) ++ close) Hw) as (x & tail & E & _).
      change (mjoin (print_node sc rn incl <$> NElement c :: ns)) with (serialize c sc rn incl ++ mjoin (print_node sc rn incl <$> ns)).
      rewrite <-app_assoc, E. by eexists. }
    rewrite E, parse_children_text_ok; [|done|apply Ht; by left]. rewrite <-E.
    destruct (text_escape_head t Hne) as (b & bs & Et & _). rewrite Et in Hf. simpl in Hf.
    rewrite IH; [|done|done|done|done|done|lia]. by rewrite <-app_assoc.
Qed.

Lemma elem_of_text_merge t ns : (∀ t, NText t ∈ ns → str_ok t) → NText t ∈ merge ns → str_ok t.
Proof.
  revert t. induction ns as [|[c|u] ns IH]; intros t H; [by intros ?%elem_of_nil|..]; cbn [merge].
  - intros [[=]|Hin]%elem_of_cons. apply IH; [|done]. intros. apply H. by right.
  - assert (∀ t, NText t ∈ ns → str_ok t) as H' by (intros; apply H; by right).
    assert (str_ok u) as Hu by (apply H; by left). unfold add_text. case_bool_decide; [by apply IH|].
    destruct (merge ns) as [|[c|v] ns'] eqn:E.
    + intros [[= ->]|?%elem_of_nil]%elem_of_cons; done.
    + intros [[= ->]|Hin]%elem_of_cons; [done|]. by apply (IH t).
    + intros [[= ->]|Hin]%elem_of_cons; [|by apply (IH t); [|right]].
      unfold str_ok in *. rewrite as_bytes_app, valid_utf8_app by done. apply (IH v); [done|by left].
Qed.

Lemma wf_reads_back e : wf e → reads_back e.
Proof.
  induction e as [p l d a ns IH] using element_ind. intros Hw sc rn incl fuel rest Hs Hf.
  pose proof (scope_ok_enter sc _ Hs Hw) as Hs'. rewrite canon_eq. rewrite serialize_eq in *. rewrite start_tag_triples in *.
  set (e := mkElement p l d a ns) in *. set (sc' := enter sc e) in *. set (rn' := render rn (ns_to_emit e sc' rn incl)) in *.
  inversion Hw as [? ? ? ? ? Hn Hst Hd Ha Hc Ht Heq]. clear Heq.
  cbn [app] in *. rewrite <-!app_assoc. cbn [app]. destruct fuel as [|fuel]; [simpl in Hf; lia|].
  cbn [parse_element]. unfold end_tag. cbn [app]. rewrite <-!app_assoc. cbn [app].
  set (body := mjoin (print_node sc' rn' incl <$> el_children e) ++ x3c :: x2f :: as_bytes (qname e) ++ x3e :: rest).
  destruct (after_name (triples e sc' rn incl) body) as (c & tail & E & Hc').
  change (qname e) with (qualified p l). rewrite E.
  rewrite parse_name_ok; [|done|by destruct Hc' as [-> | ->]]. rewrite <-E.
  rewrite tag_loop_ok; cycle 1.
  { pose proof (length_triples (triples e sc' rn incl)). rewrite length_app. lia. }
  { apply Forall_app. split; [by apply ns_triples_ok|by apply attr_triples_ok]. }
  cbn [mbind result_mbind]. unfold triples. rewrite fold_left_app, fold_ns_triples.
  rewrite fold_attr_triples by (apply Forall_forall; intros x Hx; rewrite sort_by_perm in Hx; by eapply Forall_forall).
  cbn [tg_ns_decls tg_attrs app]. unfold body. rewrite <-print_merge.
  change (qname e) with (qualified p l). rewrite parse_nodes_ok; [|done|done|apply merge_merged|..].
  - cbn [mbind result_mbind app]. by rewrite merge_canon.
  - intros x Hx. rewrite elem_of_merge in Hx. split; [by apply Hc|by apply IH, Hc].
  - intros t Hx. by eapply elem_of_text_merge.
  - rewrite print_merge. cbn [length] in Hf. rewrite !length_app in Hf. unfold end_tag in Hf. simpl in Hf. change (el_children e) with ns. lia.
Qed.

(** ** The parser gives well-formed trees *)

Lemma in_range_byte lo hi n : n < 256 → lo ≤ n → n ≤ hi → in_range lo hi (byte_of_N n) = true.
Proof.
  intros H1 H2 H3. unfold in_range. rewrite byte_of_N_small by done.
  apply andb_true_iff. by rewrite !N.leb_le.
Qed.

(** The arithmetic of six-bit digits. *)
Ltac digits n :=
  pose proof (N.div_mod' n 64); pose proof (N.mod_upper_bound n 64 ltac:(done));
  pose proof (N.le_0_l (n mod 64)); pose proof (N.le_0_l (n / 64)).

Lemma low_bits n : 128 ≤ 128 + n mod 64 ≤ 191.
Proof. digits n. lia. Qed.

Lemma in_range_low n : in_range 128 191 (byte_of_N (128 + n mod 64)) = true.
Proof. pose proof (low_bits n). apply in_range_byte; lia. Qed.

Lemma from_u32_char n c : from_u32 n = Some c → utf8_char c.
Proof.
  unfold from_u32.
  destruct (N.ltb_spec n 128); [intros [= <-]|].
  { eexists _, []. split; [done|]. unfold utf8_step, continuation. rewrite byte_of_N_small by lia.
    by destruct (N.ltb_spec n 128); [|lia]. }
  destruct (N.ltb_spec n 2048); [intros [= <-]|].
  { eexists _, [_]. split; [done|]. unfold utf8_step, continuation.
    digits n.
    rewrite byte_of_N_small by lia.
    destruct (N.ltb_spec (192 + n / 64) 128); [lia|]. destruct (N.ltb_spec (192 + n / 64) 194); [lia|].
    destruct (N.ltb_spec (192 + n / 64) 224); [|lia]. cbn [match_ranges]. by rewrite in_range_low. }
  destruct (N.ltb_spec n 65536).
  { destruct (_ && _) eqn:Es; [done|]. intros [= <-]. eexists _, [_; _]. split; [done|]. unfold utf8_step, continuation.
    digits n.
    digits (n / 64). rewrite N.Div0.div_div in *. change (64 * 64) with 4096 in *.
    rewrite byte_of_N_small by lia.
    assert (∀ lo hi, lo ≤ 128 + n / 64 mod 64 → 128 + n / 64 mod 64 ≤ hi →
      match_ranges [(lo, hi); (128, 191)] [byte_of_N (128 + n / 64 mod 64); byte_of_N (128 + n mod 64)] = (2%nat, true)) as Hm.
    { intros lo hi ? ?. cbn [match_ranges]. rewrite in_range_low, in_range_byte; [done|lia..]. }
    destruct (N.ltb_spec (224 + n / 4096) 128); [lia|]. destruct (N.ltb_spec (224 + n / 4096) 194); [lia|].
    destruct (N.ltb_spec (224 + n / 4096) 224); [lia|].
    destruct (N.eqb_spec (224 + n / 4096) 224); [apply Hm; lia|].
    destruct (N.eqb_spec (224 + n / 4096) 237).
    { apply Hm; [lia|]. apply andb_false_iff in Es as [Es%N.leb_gt|Es%N.leb_gt]; lia. }
    destruct (N.ltb_spec (224 + n / 4096) 240); [apply Hm; lia|lia]. }
  destruct (N.ltb_spec n 1114112); [intros [= <-]|done].
  eexists _, [_; _; _]. split; [done|]. unfold utf8_step, continuation.
  digits n.
  digits (n / 64). rewrite N.Div0.div_div in *. change (64 * 64) with 4096 in *.
  digits (n / 4096). rewrite N.Div0.div_div in *. change (4096 * 64) with 262144 in *.
  rewrite byte_of_N_small by lia.
  assert (∀ lo hi, lo ≤ 128 + n / 4096 mod 64 → 128 + n / 4096 mod 64 ≤ hi →
    match_ranges [(lo, hi); (128, 191); (128, 191)]
      [byte_of_N (128 + n / 4096 mod 64); byte_of_N (128 + n / 64 mod 64); byte_of_N (128 + n mod 64)] = (3%nat, true)) as Hm.
  { intros lo hi ? ?. cbn [match_ranges]. rewrite !in_range_low, in_range_byte; [done|lia..]. }
  destruct (N.ltb_spec (240 + n / 262144) 128); [lia|]. destruct (N.ltb_spec (240 + n / 262144) 194); [lia|].
  destruct (N.ltb_spec (240 + n / 262144) 224); [lia|]. destruct (N.eqb_spec (240 + n / 262144) 224); [lia|].
  destruct (N.eqb_spec (240 + n / 262144) 237); [lia|]. destruct (N.ltb_spec (240 + n / 262144) 240); [lia|].
  destruct (N.eqb_spec (240 + n / 262144) 240); [apply Hm; lia|].
  destruct (N.ltb_spec (240 + n / 262144) 244); [apply Hm; lia|].
  destruct (N.eqb_spec (240 + n / 262144) 244); [apply Hm; lia|lia].
Qed.

Lemma ascii_char b : Byte.to_N b < 128 → utf8_char [b].
Proof.
  intros H. exists b, []. split; [done|]. unfold utf8_step, continuation. by destruct (N.ltb_spec (Byte.to_N b) 128); [|lia].
Qed.

Lemma entity_char ent c : entity ent = Some c → utf8_char c.
Proof.
  unfold entity. repeat (case_bool_decide; [by intros [= <-]; apply ascii_char|]).
  destruct (_ || _).
  { destruct (parse_u32 16 _); [|done]. apply from_u32_char. }
  destruct (starts_with _ _); [|done]. destruct (parse_u32 10 _); [|done]. apply from_u32_char.
Qed.

Lemma decode_loop_valid fuel s : valid_utf8 s = true → (length s ≤ fuel)%nat → valid_utf8 (decode_loop fuel s) = true.
Proof.
  revert s. induction fuel as [|fuel IH]; intros s Hv Hf; [done|]. revert s Hv Hf.
  refine (valid_utf8_ind (λ s, (length s ≤ S fuel)%nat → valid_utf8 (decode_loop (S fuel) s) = true) _ _); [done|].
  intros c rest Hc Hrest _ Hf. pose proof Hc as (b & cs & Ec & _). rewrite length_app in Hf.
  assert (valid_utf8 (c ++ decode_loop fuel rest) = true) as Hkept.
  { rewrite utf8_char_app by done. apply IH; [done|]. subst. simpl in Hf. lia. }
  destruct (decide (b = x26)) as [->|Hb]; [|rewrite decode_loop_kept; [done|done|]; subst; simpl; congruence].
  assert (cs = []) as ->.
  { destruct (utf8_char_cases _ Hc) as [(x & -> & _)|F]; [by injection Ec|]. subst. apply Forall_cons in F as [F _].
    vm_compute in F. by destruct F. }
  subst c. cbn [app decode_loop]. rewrite bool_decide_eq_true_2 by done.
  destruct (split_once x3b rest) as [[ent after]|] eqn:Es; [|exact Hkept].
  cbn [mbind option_bind]. destruct (entity ent) as [d|] eqn:Ee; [|exact Hkept].
  apply split_once_spec in Es as [-> _]. change (valid_utf8 (d ++ decode_loop fuel after) = true).
  rewrite utf8_char_app by by apply entity_char in Ee.
  apply IH; [by apply (valid_utf8_cut ent x3b)|]. rewrite length_app in Hf. simpl in Hf. lia.
Qed.

Lemma str_ok_bytes b : valid_utf8 b = true → str_ok (string_of_list_byte b).
Proof. intros H. unfold str_ok, as_bytes. by rewrite list_byte_of_string_of_list_byte. Qed.

Lemma utf8_or_empty_ok b : str_ok (utf8_or_empty b).
Proof. unfold utf8_or_empty. destruct (valid_utf8 b) eqn:E; [by apply str_ok_bytes|done]. Qed.

Lemma decode_entities_ok s : str_ok s → str_ok (decode_entities s).
Proof. intros H. apply str_ok_bytes. case_bool_decide; [|done]. by apply decode_loop_valid. Qed.

Lemma take_while_forall p bs : Forall (λ b, p b = true) (take_while p bs).
Proof. induction bs as [|b bs IH]; [constructor|]. cbn [take_while]. destruct (p b) eqn:E; by constructor. Qed.

Lemma take_while_prefix p bs : take_while p bs ++ drop_while p bs = bs.
Proof. induction bs as [|b bs IH]; [done|]. cbn [take_while drop_while]. destruct (p b); [|done]. cbn [app]. by rewrite IH. Qed.

Lemma drop_while_length p bs : (length (drop_while p bs) ≤ length bs)%nat.
Proof. rewrite <-(take_while_prefix p bs) at 2. rewrite length_app. lia. Qed.

Lemma split_name_qualified raw p l :
  split_name raw = (p, l) → qualified p l = raw ∧ match p with Some p => COLON ∉ as_bytes p | None => COLON ∉ as_bytes l end.
Proof.
  unfold split_name. destruct (split_once COLON (as_bytes raw)) as [[a b]|] eqn:E.
  - intros [= <- <-]. apply split_once_spec in E as [E Hn]. split.
    + cbn [qualified]. apply as_bytes_inj. rewrite !as_bytes_app, E. unfold as_bytes.
      by rewrite !list_byte_of_string_of_list_byte.
    + unfold as_bytes. by rewrite list_byte_of_string_of_list_byte.
  - intros [= <- <-]. split; [done|]. intros Hin. clear -E Hin. induction (as_bytes raw) as [|x s IH]; [by apply elem_of_nil in Hin|].
    cbn [split_once] in E. case_bool_decide as Hx; [done|]. apply elem_of_cons in Hin as [Heq|Hin]; [by destruct Hx|].
    destruct (split_once COLON s) as [[]|]; [done|]. by apply IH.
Qed.

(** A parsed name is made of the bytes before what is left. *)
Lemma parse_name_wf bs p l rest :
  parse_name bs = ((p, l), rest) →
  name_ok p l ∧ rest = drop_while name_byte bs ∧ ∃ k, take_while name_byte bs = as_bytes (qualified p l) ++ k.
Proof.
  unfold parse_name. intros [= E <-]. destruct (split_name_qualified _ _ _ E) as [Hq Hc]. split; [|split; [done|]].
  - split; [|split; [|done]]; rewrite Hq; [|apply utf8_or_empty_ok].
    unfold utf8_or_empty. destruct (valid_utf8 _); [|constructor]. unfold as_bytes. rewrite list_byte_of_string_of_list_byte.
    apply take_while_forall.
  - rewrite Hq. unfold utf8_or_empty. destruct (valid_utf8 _); [|by eexists].
    exists []. unfold as_bytes. by rewrite list_byte_of_string_of_list_byte, app_nil_r.
Qed.

Lemma starts_with_app pat s k : starts_with pat s = true → starts_with pat (s ++ k) = true.
Proof.
  revert s. induction pat as [|x pat IH]; intros s; [by destruct s|]. destruct s as [|y s]; [done|]. cbn [app starts_with].
  intros [-> H]%andb_true_iff. by rewrite IH.
Qed.

(** If the text does not start with a pattern, the name at its start does not. *)
Lemma parse_name_starts pat bs p l rest :
  parse_name bs = ((p, l), rest) → starts_with pat bs = false → starts_with pat (as_bytes (qualified p l)) = false.
Proof.
  intros (_ & _ & k & Hk)%parse_name_wf H. destruct (starts_with pat (as_bytes (qualified p l))) eqn:E; [|done].
  rewrite <-(take_while_prefix name_byte bs), Hk, <-app_assoc, starts_with_app in H by done. done.
Qed.

Definition tag_ok (t : Tag) : Prop := Forall decl_ok (tg_ns_decls t) ∧ Forall attr_ok (tg_attrs t).

Lemma add_attr_ok ap al v t : pair_ok ap al v → tag_ok t → tag_ok (add_attr ap al v t).
Proof.
  intros Hp [Hd Ha]. unfold add_attr. case_bool_decide as H1.
  { split; [|done]. apply Forall_app. split; [done|]. constructor; [|done]. split; [|by destruct Hp].
    simpl. subst ap. by destruct Hp. }
  destruct (bool_decide (ap = None) && _) eqn:H2.
  { split; [|done]. apply Forall_app. split; [done|]. constructor; [|done]. split; [done|by destruct Hp]. }
  split; [done|]. apply Forall_app. split; [done|]. constructor; [|done]. split; [done|done|]. simpl. intros [= -> ->].
  by rewrite !bool_decide_eq_true_2 in H2.
Qed.

Lemma parse_attr_inv b bs ap al v rest :
  is_ascii_whitespace b = false → parse_attr (b :: bs) = Ok (ap, al, v, rest) →
  pair_ok ap al v ∧ (length rest < length (b :: bs))%nat.
Proof.
  intros Hb. unfold parse_attr. destruct (parse_name (b :: bs)) as [[ap' al'] r] eqn:En.
  destruct (parse_name_wf _ _ _ _ En) as (Hn & Hr & k & Hk).
  assert (length r ≤ length (b :: bs))%nat as Lr by (rewrite Hr; apply drop_while_length).
  destruct (skip_ws r) as [|q r2] eqn:E1; [done|].
  assert (length (skip_ws r) ≤ length r)%nat as L1 by apply drop_while_length.
  destruct q; try done. destruct (skip_ws r2) as [|quote r3] eqn:E2; [done|].
  assert (length (skip_ws r2) ≤ length r2)%nat as L2 by apply drop_while_length.
  destruct (_ || _); [|done]. intros [= <- <- <- <-]. split.
  - split; [done| |apply decode_entities_ok, utf8_or_empty_ok].
    destruct (as_bytes (qualified ap' al')) as [|x q] eqn:Eq; [done|]. cbn [app take_while] in Hk. destruct (name_byte b); [|done].
    injection Hk as -> _. simpl. intros [= ->]. done.
  - rewrite length_drop. rewrite E1 in L1. rewrite E2 in L2. cbn [length] in *.
    pose proof (drop_while_length (λ c, bool_decide (c ≠ quote)) r3). lia.
Qed.

Lemma skip_ws_head bs b rest : skip_ws bs = b :: rest → is_ascii_whitespace b = false.
Proof.
  unfold skip_ws. induction bs as [|x bs IH]; [done|]. cbn [drop_while]. destruct (is_ascii_whitespace x) eqn:E; [done|].
  by intros [= <- _].
Qed.

Lemma skip_ws_length bs : (length (skip_ws bs) ≤ length bs)%nat.
Proof. apply drop_while_length. Qed.

(** The errors of the code. *)
Definition no_fuel {A} (r : result XmlError A) : Prop := r ≠ Err OutOfFuel.

Lemma parse_attr_no_fuel bs : no_fuel (parse_attr bs).
Proof.
  unfold no_fuel, parse_attr. destruct (parse_name bs) as [[ap al] r].
  destruct (skip_ws r) as [|q r2]; [done|]. destruct q; try done.
  destruct (skip_ws r2); [done|]. by destruct (_ || _).
Qed.

Lemma tag_loop_inv fuel : ∀ bs t, (length bs < fuel)%nat → tag_ok t →
  match tag_loop fuel bs t with
  | Ok (_, t', rest) => tag_ok t' ∧ (length rest < length bs)%nat
  | Err e => e ≠ OutOfFuel
  end.
Proof.
  induction fuel as [|fuel IH]; intros bs t Hf Ht; [lia|].
  pose proof (skip_ws_length bs) as Ls. destruct (skip_ws bs) as [|b r] eqn:E; [by cbn [tag_loop]; rewrite E|].
  cbn [length] in Ls. pose proof (skip_ws_head _ _ _ E) as Hb.
  destruct (decide (b = x2f)) as [->|H1].
  { cbn [tag_loop]. rewrite E. destruct r as [|q r]; [done|]. destruct q; try done. simpl in Ls. split; [done|lia]. }
  destruct (decide (b = x3e)) as [->|H2].
  { cbn [tag_loop]. rewrite E. split; [done|lia]. }
  rewrite (tag_loop_attr fuel bs t b r) by done. pose proof (parse_attr_no_fuel (b :: r)) as Hn.
  destruct (parse_attr (b :: r)) as [[[[ap al] v] rest]|e] eqn:Ep; [|simpl; intros ->; by apply Hn].
  destruct (parse_attr_inv _ _ _ _ _ _ Hb Ep) as [Hok Hl]. cbn [length] in Hl. cbn [mbind result_mbind].
  specialize (IH rest (add_attr ap al v t) ltac:(lia) ltac:(by apply add_attr_ok)).
  destruct (tag_loop fuel rest _) as [[[cl t'] rest']|e]; [|done]. destruct IH. split; [done|lia].
Qed.

Lemma find_text_length needle bs pre rest :
  needle ≠ [] → find_text needle bs = Some (pre, rest) → (length rest < length bs)%nat.
Proof.
  intros Hne. revert pre. induction bs as [|b bs IH]; intros pre; cbn [find_text]; unfold strip_prefix at 1.
  - case_bool_decide as H; [|done]. destruct needle; [done|]. by rewrite take_nil in H.
  - case_bool_decide as H.
    + intros [= _ <-]. rewrite length_drop. destruct needle; [done|]. simpl. lia.
    + destruct (find_text needle bs) as [[pre' rest']|]; [|done]. intros [= _ <-]. specialize (IH pre' eq_refl). simpl. lia.
Qed.

Lemma find_inv needle bs : needle ≠ "" →
  match find needle bs with Ok (_, rest) => (length rest < length bs)%nat | Err e => e ≠ OutOfFuel end.
Proof.
  intros Hne. unfold find. destruct (find_text (as_bytes needle) bs) as [[pre rest]|] eqn:E; [|done].
  simpl. eapply find_text_length; [|exact E]. by destruct needle.
Qed.

Definition nodes_ok (ns : list Node) : Prop := (∀ c, NElement c ∈ ns → wf c) ∧ (∀ t, NText t ∈ ns → str_ok t).

Lemma nodes_ok_nil : nodes_ok [].
Proof. split; by intros ? ?%elem_of_nil. Qed.
Lemma nodes_ok_elem ns e : nodes_ok ns → wf e → nodes_ok (ns ++ [NElement e]).
Proof.
  intros [H1 H2] He. split.
  - intros c [?|Hc%list_elem_of_singleton]%elem_of_app; [by apply H1|]. by injection Hc as ->.
  - intros t [?|Hc%list_elem_of_singleton]%elem_of_app; [by apply H2|done].
Qed.
Lemma nodes_ok_text ns t : nodes_ok ns → str_ok t → nodes_ok (ns ++ [NText t]).
Proof.
  intros [H1 H2] He. split.
  - intros c [?|Hc%list_elem_of_singleton]%elem_of_app; [by apply H1|done].
  - intros u [?|Hc%list_elem_of_singleton]%elem_of_app; [by apply H2|]. by injection Hc as ->.
Qed.

Lemma parse_element_inv_step fuel bs :
  (∀ bs, (S (length bs) < fuel)%nat →
    match parse_children fuel bs [] with
    | Ok (ns, rest) => nodes_ok ns ∧ (length rest < length bs)%nat
    | Err e => e ≠ OutOfFuel
    end) →
  (length bs < S fuel)%nat →
  starts_with (as_bytes "<!--") bs = false → starts_with (as_bytes "<![CDATA[") bs = false →
  match parse_element (S fuel) bs with
  | Ok (e, rest) => wf e ∧ (length rest < length bs)%nat
  | Err e => e ≠ OutOfFuel
  end.
Proof.
  intros IH Hf H1 H2. cbn [parse_element]. destruct bs as [|b bs]; [done|]. destruct b; try done.
  change (starts_with (as_bytes "!--") bs = false) in H1. change (starts_with (as_bytes "![CDATA[") bs = false) in H2.
  destruct (parse_name bs) as [[p l] r] eqn:En. destruct (parse_name_wf _ _ _ _ En) as (Hn & Hr & _).
  assert (start_ok (qualified p l)) as Hs by (split; by eapply parse_name_starts).
  assert (length r ≤ length bs)%nat as Lr by (rewrite Hr; apply drop_while_length).
  pose proof (tag_loop_inv (S (length r)) r (mkTag [] []) ltac:(lia) ltac:(split; constructor)) as Ht.
  destruct (tag_loop _ r _) as [[[closed t] r2]|e]; [|done]. destruct Ht as [[Hd Ha] Lt]. cbn [mbind result_mbind].
  cbn [length] in *. destruct closed.
  { split; [|lia]. constructor; try done; by intros ? ?%elem_of_nil. }
  specialize (IH r2 ltac:(lia)). destruct (parse_children fuel r2 []) as [[ns rest]|e]; [|done].
  cbn [mbind result_mbind]. destruct IH as [[Hc Hx] Lc]. split; [by constructor|lia].
Qed.

Lemma parse_children_inv fuel : ∀ bs acc, (S (length bs) < fuel)%nat → nodes_ok acc →
  match parse_children fuel bs acc with
  | Ok (ns, rest) => nodes_ok ns ∧ (length rest < length bs)%nat
  | Err e => e ≠ OutOfFuel
  end.
Proof.
  induction (lt_wf fuel) as [fuel _ IH]. intros bs acc Hf Hacc. destruct fuel as [|fuel]; [lia|].
  assert (∀ bs' acc', (length bs' < length bs)%nat → nodes_ok acc' →
    match parse_children fuel bs' acc' with
    | Ok (ns, rest) => nodes_ok ns ∧ (length rest < length bs)%nat
    | Err e => e ≠ OutOfFuel
    end) as Hnext.
  { intros bs' acc' Hl Ha. specialize (IH fuel ltac:(lia) bs' acc' ltac:(lia) Ha).
    destruct (parse_children fuel bs' acc') as [[ns rest]|e]; [|done]. destruct IH. split; [done|lia]. }
  destruct bs as [|b bs]; [done|]. destruct (decide (b = x3c)) as [->|Hb].
  2:{ rewrite parse_children_text by done. apply Hnext; [|apply nodes_ok_text; [done|apply decode_entities_ok, utf8_or_empty_ok]].
      cbn [drop_while]. assert (not_lt b = true) as -> by by apply bool_decide_eq_true.
      pose proof (drop_while_length not_lt bs). simpl. lia. }
  cbn [parse_children]. destruct (starts_with (as_bytes "</") (x3c :: bs)) eqn:E1.
  { destruct bs as [|b bs]; [done|]. cbn [drop]. rewrite drop_0.
    destruct (parse_name bs) as [nm r] eqn:En. destruct nm as [p l]. destruct (parse_name_wf _ _ _ _ En) as (_ & Hr & _).
    pose proof (drop_while_length name_byte bs) as L1. rewrite <-Hr in L1. pose proof (skip_ws_length r) as L2.
    cbn [snd]. destruct (skip_ws r) as [|q r2]; [done|]. destruct q; try done. split; [done|]. cbn [length] in *. lia. }
  destruct (starts_with (as_bytes "<!--") (x3c :: bs)) eqn:E2.
  { pose proof (find_inv "-->" (x3c :: bs) ltac:(done)) as Hfi. destruct (find "-->" (x3c :: bs)) as [[pre r]|e]; [|done].
    cbn [mbind result_mbind]. by apply Hnext. }
  destruct (starts_with (as_bytes "<![CDATA[") (x3c :: bs)) eqn:E3.
  { pose proof (find_inv "]]>" (drop 9 (x3c :: bs)) ltac:(done)) as Hfi. rewrite length_drop in Hfi.
    destruct (find "]]>" _) as [[pre r]|e]; [|done].
    cbn [mbind result_mbind]. apply Hnext; [lia|]. apply nodes_ok_text; [done|apply utf8_or_empty_ok]. }
  destruct fuel as [|fuel]; [simpl in Hf; lia|].
  pose proof (parse_element_inv_step fuel (x3c :: bs) (λ bs' H', IH fuel ltac:(lia) bs' [] H' nodes_ok_nil) ltac:(lia) E2 E3) as He.
  destruct (parse_element (S fuel) (x3c :: bs)) as [[e r]|e]; [|done]. destruct He as [Hw Hl].
  cbn [mbind result_mbind]. apply Hnext; [done|by apply nodes_ok_elem].
Qed.

Lemma parse_element_inv bs :
  starts_with (as_bytes "<!--") bs = false → starts_with (as_bytes "<![CDATA[") bs = false →
  match parse_element (S (length bs)) bs with
  | Ok (e, _) => wf e
  | Err e => e ≠ OutOfFuel
  end.
Proof.
  intros H1 H2. pose proof (parse_element_inv_step (length bs) bs) as H.
  specialize (H (λ bs' H', parse_children_inv _ bs' [] H' nodes_ok_nil) ltac:(lia) H1 H2).
  destruct (parse_element (S (length bs)) bs) as [[e rest]|e]; [|done]. by destruct H.
Qed.

Lemma skip_prolog_inv fuel : ∀ bs, (length bs < fuel)%nat →
  match skip_prolog fuel bs with
  | Ok bs' => starts_with (as_bytes "<!") bs' = false
  | Err e => e ≠ OutOfFuel
  end.
Proof.
  induction fuel as [|fuel IH]; intros bs Hf; [lia|]. cbn [skip_prolog]. pose proof (skip_ws_length bs) as L.
  destruct (starts_with (as_bytes "<?") (skip_ws bs)).
  { pose proof (find_inv "?>" (skip_ws bs) ltac:(done)) as H. destruct (find "?>" _) as [[pre r]|e]; [|done].
    cbn [mbind result_mbind]. apply IH. lia. }
  destruct (starts_with (as_bytes "<!--") (skip_ws bs)).
  { pose proof (find_inv "-->" (skip_ws bs) ltac:(done)) as H. destruct (find "-->" _) as [[pre r]|e]; [|done].
    cbn [mbind result_mbind]. apply IH. lia. }
  by destruct (starts_with (as_bytes "<!") (skip_ws bs)) eqn:E.
Qed.

(** The invariant of the parser, at the root. *)
Lemma parse_inv input : match parse input with Ok e => wf e | Err e => e ≠ OutOfFuel end.
Proof.
  unfold parse. pose proof (skip_prolog_inv (S (length (as_bytes input))) (as_bytes input) ltac:(lia)) as Hp.
  destruct (skip_prolog _ _) as [bs|e]; [|done]. cbn [mbind result_mbind].
  assert (∀ pat, starts_with (as_bytes "<!" ++ pat) bs = false) as Hs.
  { intros pat. destruct bs as [|x [|y bs]]; [done|by destruct pat; cbn; destruct (bool_decide _)|]. cbn in *.
    destruct (bool_decide _); [|done]. by destruct (bool_decide _). }
  pose proof (parse_element_inv bs (Hs (as_bytes "--")) (Hs (as_bytes "[CDATA["))) as He.
  destruct (parse_element _ bs) as [[e rest]|e]; done.
Qed.

(** ** Properties *)

(** The canonical form determines the tree up to what canonicalization discards. *)
Lemma c14n_injective e1 e2 sc1 sc2 incl1 incl2 :
  wf e1 → wf e2 → scope_ok sc1 → scope_ok sc2 →
  exc_c14n_scoped e1 incl1 sc1 = exc_c14n_scoped e2 incl2 sc2 → canon e1 sc1 ∅ incl1 = canon e2 sc2 ∅ incl2.
Proof.
  unfold exc_c14n_scoped. intros W1 W2 S1 S2 E.
  pose proof (wf_reads_back e1 W1 sc1 ∅ incl1 _ [] S1 ltac:(reflexivity)) as R1.
  pose proof (wf_reads_back e2 W2 sc2 ∅ incl2 _ [] S2 ltac:(reflexivity)) as R2. rewrite <-E, R1 in R2. congruence.
Qed.

Lemma parse_c14n e incl :
  wf e → starts_with (as_bytes "?") (as_bytes (qname e)) = false → starts_with (as_bytes "!") (as_bytes (qname e)) = false →
  parse (string_of_list_byte (exc_c14n e incl)) = Ok (canon e ∅ ∅ incl).
Proof.
  intros W H1 H2. unfold parse, as_bytes. rewrite list_byte_of_string_of_list_byte. unfold exc_c14n, exc_c14n_scoped.
  destruct (element_start e ∅ ∅ incl [] W) as (c & tail & Es & Hc). rewrite app_nil_r in Es.
  assert (skip_prolog (S (length (serialize e ∅ ∅ incl))) (serialize e ∅ ∅ incl) = Ok (serialize e ∅ ∅ incl)) as ->.
  { rewrite Es. cbn [skip_prolog]. change (skip_ws (x3c :: as_bytes (qname e) ++ c :: tail)) with (x3c :: as_bytes (qname e) ++ c :: tail).
    change (starts_with (as_bytes "<?") (x3c :: as_bytes (qname e) ++ c :: tail)) with (starts_with (as_bytes "?") (as_bytes (qname e) ++ c :: tail)).
    assert (name_end c = true) as Hce by by destruct Hc as [-> | ->].
    rewrite starts_with_name; [|by repeat constructor|done..].
    destruct (element_not_markup (qname e) c tail) as (_ & -> & _); [by apply wf_qname..|done|].
    change (starts_with (as_bytes "<!") (x3c :: as_bytes (qname e) ++ c :: tail)) with (starts_with (as_bytes "!") (as_bytes (qname e) ++ c :: tail)).
    rewrite starts_with_name; [done|by repeat constructor|done..]. }
  cbn [mbind result_mbind].
  pose proof (wf_reads_back e W ∅ ∅ incl (S (length (serialize e ∅ ∅ incl))) [] scope_ok_empty ltac:(lia)) as R.
  rewrite app_nil_r in R. by rewrite R.
Qed.

Lemma parse_root_name input e :
  parse input = Ok e →
  starts_with (as_bytes "?") (as_bytes (qname e)) = false ∧ starts_with (as_bytes "!") (as_bytes (qname e)) = false.
Proof.
  unfold parse. destruct (skip_prolog _ _) as [bs|er] eqn:Ep; [|done]. cbn [mbind result_mbind].
  assert (starts_with (as_bytes "<?") bs = false ∧ starts_with (as_bytes "<!") bs = false) as [H1 H2].
  { revert Ep. generalize (S (length (as_bytes input))). intros fuel. generalize (as_bytes input). clear.
    induction fuel as [|fuel IH]; intros bs0; [done|]. cbn [skip_prolog].
    destruct (starts_with (as_bytes "<?") (skip_ws bs0)) eqn:E1.
    { destruct (find "?>" _) as [[]|]; [|done]. apply IH. }
    destruct (starts_with (as_bytes "<!--") (skip_ws bs0)).
    { destruct (find "-->" _) as [[]|]; [|done]. apply IH. }
    destruct (starts_with (as_bytes "<!") (skip_ws bs0)) eqn:E2; [done|]. by intros [= <-]. }
  cbn [parse_element]. destruct bs as [|b bs]; [done|]. destruct b; try done.
  destruct (parse_name bs) as [[p l] r] eqn:En.
  destruct (tag_loop _ r _) as [[[closed t] r2]|]; [|done]. cbn [mbind result_mbind]. intros E.
  assert (qname e = qualified p l) as ->.
  { destruct closed; [by injection E as <-|]. destruct (parse_children _ r2 []) as [[]|]; [|done]. by injection E as <-. }
  change (starts_with (as_bytes "?") bs = false) in H1. change (starts_with (as_bytes "!") bs = false) in H2.
  split; by eapply parse_name_starts.
Qed.

(** The canonical form is text. *)
Lemma valid_utf8_both a b : valid_utf8 a = true → valid_utf8 b = true → valid_utf8 (a ++ b) = true.
Proof. intros Ha Hb. by rewrite valid_utf8_app. Qed.

Lemma valid_utf8_sep c a : Byte.to_N c < 128 → valid_utf8 a = true → valid_utf8 (c :: a) = true.
Proof. intros Hc. apply (valid_utf8_both [c]), valid_utf8_ascii. by constructor. Qed.

Lemma triples_utf8 xs : Forall triple_ok xs → valid_utf8 (mjoin (print_triple <$> xs)) = true.
Proof.
  induction 1 as [|x xs [Hn _ Hv] _ IH]; [done|]. rewrite fmap_cons, mjoin_cons. apply valid_utf8_both; [|done].
  unfold print_triple, print_pair. apply valid_utf8_sep; [done|]. apply valid_utf8_both; [apply Hn|].
  do 2 (apply valid_utf8_sep; [done|]). apply valid_utf8_both; [|done]. by apply (valid_escape _ attr_escapes).
Qed.

Lemma serialize_utf8 e : ∀ sc rn incl, wf e → scope_ok sc → valid_utf8 (serialize e sc rn incl) = true.
Proof.
  induction e as [p l d a ns IH] using element_ind. intros sc rn incl Hw Hs.
  pose proof (scope_ok_enter sc _ Hs Hw) as Hs'. inversion Hw as [? ? ? ? ? Hn _ _ Ha Hc Ht]; subst.
  rewrite serialize_eq, start_tag_triples. cbn [app]. apply valid_utf8_sep; [done|].
  rewrite <-!app_assoc. apply valid_utf8_both; [apply Hn|]. apply valid_utf8_both.
  { apply triples_utf8. unfold triples. apply Forall_app. split; [by apply ns_triples_ok|by apply attr_triples_ok]. }
  cbn [app]. apply valid_utf8_sep; [done|]. apply valid_utf8_both.
  - cbn [el_children]. generalize (render rn (ns_to_emit (mkElement p l d a ns) (enter sc (mkElement p l d a ns)) rn incl)) as rn1.
    intros rn1. clear Hw Hn Ha. revert Hs'. generalize (enter sc (mkElement p l d a ns)) as sc1. intros sc1 Hs1.
    induction ns as [|n ns IHns]; [done|]. rewrite fmap_cons, mjoin_cons. apply valid_utf8_both.
    + destruct n as [c|t]; cbn [print_node].
      * apply IH; [by left|apply Hc; by left|done].
      * apply (valid_escape _ text_escapes), Ht. by left.
    + apply IHns; [intros; apply IH; [by right|done..]|intros; apply Hc; by right|intros; apply Ht; by right].
  - unfold end_tag. do 2 (apply valid_utf8_sep; [done|]). apply valid_utf8_both; [apply Hn|done].
Qed.

(** C11. The XML parser is total and typed: on every text it ends with a tree or an
    error, never for lack of fuel, and the tree is well formed: its names,
    attributes and texts are UTF-8 text that the parser itself would read as names,
    attributes and texts; and every canonical form of it is UTF-8 text. *)
Theorem parse_wf (input : string) :
  match parse input with
  | Ok e => wf e ∧ ∀ incl, valid_utf8 (exc_c14n e incl) = true
  | Err e => e ≠ OutOfFuel
  end.
Proof.
  pose proof (parse_inv input) as W. destruct (parse input) as [e|e]; [|done]. split; [done|]. intros incl.
  by apply serialize_utf8.
Qed.

(** C12. Canonicalization is faithful and the parser total on its output: the
    canonical form of any document that parses is parsed back to the same tree, with
    the namespace declarations it renders, its attributes sorted, and its text
    unescaped in one piece. *)
Theorem parse_c14n_roundtrip (input : string) (e : Element) (incl : list string) :
  parse input = Ok e → parse (string_of_list_byte (exc_c14n e incl)) = Ok (canon e ∅ ∅ incl).
Proof.
  intros E. pose proof (parse_inv input) as W. rewrite E in W. destruct (parse_root_name input e E) as [H1 H2].
  by apply parse_c14n.
Qed.
