(* ===== verification/Saml.v ===== *)
(** SAML responses: [crates/secgit-sso/src/saml.rs].  The RSA verification of the
    crypto library is the class [RsaPkcs1], the X.509 parser an argument; the clock
    is an argument. *)

From Stdlib Require Import ZArith.
From S2P Require Import Prelude Text BTree Backend Toy Primitives Auth Xml XmlTheory.

Definition C14N_EXCL : string := "http://www.w3.org/2001/10/xml-exc-c14n#".
Definition ENVELOPED : string := "http://www.w3.org/2000/09/xmldsig#enveloped-signature".

(** [SPanic] is the abort of a slice inside a character; [SFuel] does not occur. *)
Inductive SamlError :=
| SXml (why : string)
| SUnsupported (why : string)
| SSignature (why : string)
| SRejected (why : string)
| SConfig (why : string)
| SPanic
| SFuel.

Record SamlSp := mkSp {
  sp_entity_id : string;
  acs_url : string;
  idp_entity_id : string;
  idp_rsa : bytes * bytes;
  leeway_secs : Z;
}.

Record VerifiedAssertion := mkVerified {
  va_name_id : string;
  va_issuer : string;
  va_attributes : list (string * list string);
}.

Definition va_attr (v : VerifiedAssertion) (name : string) : option string :=
  '(_, (_, vs)) ← list_find (λ nv, nv.1 = name) (va_attributes v); head vs.

Definition email_keys : list string :=
  ["email"; "mail"; "http://schemas.xmlsoap.org/ws/2005/05/identity/claims/emailaddress"].
Definition email (v : VerifiedAssertion) : option string :=
  match head (omap (va_attr v) email_keys) with
  | Some e => Some e
  | None => if bool_decide (x40 ∈ as_bytes (va_name_id v)) then Some (va_name_id v) else None
  end.

(** ** Time *)

(** Arithmetic on [i64], which wraps in the release profile. *)
Definition i64 (z : Z) : Z := ((z + 2 ^ 63) mod 2 ^ 64 - 2 ^ 63)%Z.

(** Division rounds towards zero. *)
Definition days_from_civil (y m d : Z) : Z :=
  (let y := if m <=? 2 then y - 1 else y in
   let era := Z.quot (if 0 <=? y then y else y - 399) 400 in
   let yoe := y - era * 400 in
   let doy := Z.quot (153 * (if 2 <? m then m - 3 else m + 9) + 2) 5 + d - 1 in
   let doe := yoe * 365 + Z.quot yoe 4 - Z.quot yoe 100 + doy in
   era * 146097 + doe - 719468)%Z.

Definition char_boundary (s : bytes) (i : nat) : bool :=
  match s !! i with Some b => negb (in_range 128 191 b) | None => bool_decide (i = length s) end.

(** [s[a..b].parse::<i64>()]. *)
Definition num (s : bytes) (a b : nat) : result SamlError Z :=
  if char_boundary s a && char_boundary s b
  then ok_or (SRejected ("bad timestamp: " +:+ string_of_list_byte s)) (parse_i64 (take (b - a) (drop a s)))
  else Err SPanic.

Definition parse_instant (s : string) : result SamlError Z :=
  let s := trim (as_bytes s) in
  if (length s <? 19)%nat || bool_decide (s !! 4%nat ≠ Some x2d) || bool_decide (s !! 7%nat ≠ Some x2d) ||
     bool_decide (s !! 10%nat ≠ Some x54)
  then Err (SRejected ("bad timestamp: " +:+ string_of_list_byte s))
  else
    year ← num s 0 4; month ← num s 5 7; day ← num s 8 10;
    hour ← num s 11 13; min ← num s 14 16; sec ← num s 17 19;
    Ok (days_from_civil year month day * 86400 + hour * 3600 + min * 60 + sec)%Z.

(** ** The pinned key *)

(** The length and the position after it; [len << 8] drops the high bits. *)
Fixpoint der_len_loop (n : nat) (d : bytes) (len : N) : option (N * bytes) :=
  match n with
  | O => Some (len, d)
  | S n =>
      match d with
      | [] => None
      | b :: d => der_len_loop n d (N.lor (N.shiftl len 8 mod 2 ^ 64) (Byte.to_N b))
      end
  end.
Definition read_der_len (d : bytes) : option (N * bytes) :=
  match d with
  | [] => None
  | first :: d =>
      let first := Byte.to_N first in
      if N.land first 128 =? 0 then Some (first, d) else der_len_loop (N.to_nat (N.land first 127)) d 0
  end.

(** An INTEGER: its content and what follows. *)
Definition der_integer (d : bytes) : option (bytes * bytes) :=
  match d with
  | x02 :: d => '(n, d) ← read_der_len d; if n <=? lengthN d then Some (take (N.to_nat n) d, drop (N.to_nat n) d) else None
  | _ => None
  end.

Definition parse_rsa_public_key (der : bytes) : result SamlError (bytes * bytes) :=
  ok_or (SConfig "malformed RSAPublicKey DER")
    (match der with
     | x30 :: d =>
         '(_, d) ← read_der_len d;
         '(n, d) ← der_integer d;
         '(e, _) ← der_integer d;
         Some (drop_while (λ b, bool_decide (b = x00)) n, e)
     | _ => None
     end).

(** [rsa_pubkey_from_cert]; [spki] is the X.509 parser: the subject public key of a
    PEM or DER certificate. *)
Definition rsa_pubkey_from_cert (spki : bytes → result SamlError bytes) (cert : bytes) : result SamlError (bytes * bytes) :=
  key_der ← spki cert; parse_rsa_public_key key_der.

Definition sp_new (spki : bytes → result SamlError bytes) (entity acs idp : string) (idp_cert : bytes) : result SamlError SamlSp :=
  k ← rsa_pubkey_from_cert spki idp_cert; Ok (mkSp entity acs idp k 120).

(** ** Reading the assertion *)

Definition b64decode (s : string) : option bytes :=
  b64_decode B64_STD (filter (λ c, is_ascii_whitespace c = false) (as_bytes s)).

Definition direct_signature (e : Element) : option Element := child e "Signature".

Definition prefix_list (inc : Element) : list string :=
  string_of_list_byte <$> split_whitespace (as_bytes (default "" (attr inc "PrefixList"))).

Definition attribute_of (a : Element) : option (string * list string) :=
  let name := default "" (match attr a "Name" with Some n => Some n | None => attr a "FriendlyName" end) in
  if bool_decide (name = "") then None else Some (name, text <$> children_named a "AttributeValue").
Definition extract_attributes (assertion : Element) : list (string * list string) :=
  match find_descendant assertion "AttributeStatement" with
  | Some (_, stmt) => omap attribute_of (children_named stmt "Attribute")
  | None => []
  end.

(** [e.attr(local).unwrap_or("")] of an optional element. *)
Definition attr_or_empty (o : option Element) (local : string) : string := default "" (e ← o; attr e local).

Definition ends_with (suffix : string) (s : string) : bool :=
  starts_with (reverse (as_bytes suffix)) (reverse (as_bytes s)).

(** ** Signatures *)

Section saml.
Context `{DG : Digests} `{RSA : RsaPkcs1}.

(** One transform: whether the enveloped one was seen, and the prefix list. *)
Definition transform_step (st : bool * list string) (t : Element) : bool * list string :=
  let alg := attr_or_empty (Some t) "Algorithm" in
  if bool_decide (alg = ENVELOPED) then (true, st.2)
  else if bool_decide (alg = C14N_EXCL) then
    match find_descendant t "InclusiveNamespaces" with
    | Some (_, inc) => (st.1, prefix_list inc)
    | None => st
    end
  else st.
Definition transforms (reference : Element) : bool * list string :=
  match child reference "Transforms" with
  | Some ts => fold_left transform_step (children_named ts "Transform") (false, [])
  | None => (false, [])
  end.

Definition require {A} (e : SamlError) (o : option A) : result SamlError A := ok_or e o.
Definition guard_or (e : SamlError) (b : bool) : result SamlError unit := if b then Ok () else Err e.

(** The algorithms and the reference of a signature; the prefix list of the
    reference. *)
Definition check_reference (signed_info : Element) (signed_id : option string) : result SamlError (Element * list string) :=
  let c14n_alg := attr_or_empty (child signed_info "CanonicalizationMethod") "Algorithm" in
  _ ← guard_or (SUnsupported ("c14n alg: " +:+ c14n_alg)) (bool_decide (c14n_alg = C14N_EXCL));
  let sig_alg := attr_or_empty (child signed_info "SignatureMethod") "Algorithm" in
  _ ← guard_or (SUnsupported ("sig alg: " +:+ sig_alg)) (ends_with "#rsa-sha256" sig_alg);
  '(_, reference) ← require (SSignature "no Reference") (find_descendant signed_info "Reference");
  let uri := default "" (attr reference "URI") in
  let ref_id := match strip_prefix (as_bytes "#") (as_bytes uri) with Some r => string_of_list_byte r | None => uri end in
  _ ← guard_or (SSignature "reference URI does not match")
        (match signed_id with
         | Some id => bool_decide (ref_id = "") || bool_decide (ref_id = id)
         | None => true
         end);
  let '(saw_enveloped, ref_incl) := transforms reference in
  _ ← guard_or (SUnsupported "missing enveloped transform") saw_enveloped;
  Ok (reference, ref_incl).

(** The element at a position of the tree, by identity, else by its [ID]. *)
Definition locate (root : Element) (here : list nat) (signed_id : option string) : option (Element * NsScope) :=
  match find_with_scope root (λ p _, bool_decide (p = here)) with
  | Some found => Some found
  | None => sid ← signed_id; find_with_scope root (λ _ e, bool_decide (attr e "ID" = Some sid))
  end.

Definition check_digest (root : Element) (here : list nat) (signed_id : option string) (reference : Element)
    (ref_incl : list string) : result SamlError unit :=
  '(target, inherited) ← require (SSignature "signed element not found") (locate root here signed_id);
  let digest := sha256 (exc_c14n_enveloped_scoped target ref_incl inherited) in
  '(_, dv) ← require (SSignature "no DigestValue") (find_descendant reference "DigestValue");
  want ← require (SSignature "bad DigestValue") (b64decode (text dv));
  guard_or (SSignature "digest mismatch") (bool_decide (want = digest)).

Definition check_rsa (sp : SamlSp) (sig : Element) : result SamlError unit :=
  '(si_el, si_scope) ← require (SSignature "SignedInfo not found")
    (find_with_scope sig (λ _ e, bool_decide (el_local e = "SignedInfo")));
  let si_canon := exc_c14n_scoped si_el [] si_scope in
  '(_, sv) ← require (SSignature "no SignatureValue") (find_descendant sig "SignatureValue");
  sig_bytes ← require (SSignature "bad SignatureValue") (b64decode (text sv));
  guard_or (SSignature "RSA verification failed") (rsa_verify (idp_rsa sp).1 (idp_rsa sp).2 si_canon sig_bytes).

(** [signed_el] is the element at the position [here] of [root]. *)
Definition check_signature (sp : SamlSp) (root : Element) (here : list nat) (signed_id : option string) (sig : Element)
    : result SamlError unit :=
  signed_info ← require (SSignature "no SignedInfo") (child sig "SignedInfo");
  '(reference, ref_incl) ← check_reference signed_info signed_id;
  _ ← check_digest root here signed_id reference ref_incl;
  check_rsa sp sig.

(** The loop over the candidates. *)
Fixpoint try_candidates (sp : SamlSp) (root : Element) (cs : list (list nat * Element)) (last_err : SamlError)
    : result SamlError unit :=
  match cs with
  | [] => Err last_err
  | (here, signed_el) :: cs =>
      match direct_signature signed_el with
      | None => try_candidates sp root cs last_err
      | Some sig =>
          match check_signature sp root here (attr signed_el "ID") sig with
          | Ok _ => Ok ()
          | Err e => try_candidates sp root cs e
          end
      end
  end.
Definition verify_signature (sp : SamlSp) (root : Element) (assertion : list nat * Element) : result SamlError unit :=
  try_candidates sp root [assertion; ([], root)] (SSignature "no signature covering the assertion or response").

(** ** The profile *)

Definition check_status (root : Element) : result SamlError unit :=
  match find_descendant root "Status" with
  | Some (_, status) =>
      match find_descendant status "StatusCode" with
      | Some (_, code) =>
          let v := default "" (attr code "Value") in
          guard_or (SRejected ("status not Success: " +:+ v)) (ends_with ":status:Success" v)
      | None => Ok ()
      end
  | None => Ok ()
  end.

(** An optional instant that must not have come, or must have. *)
Definition check_after (o : option string) (limit : Z) (why : string) : result SamlError unit :=
  match o with
  | Some nb => t ← parse_instant nb; guard_or (SRejected why) (negb (limit <? t)%Z)
  | None => Ok ()
  end.
Definition check_before (o : option string) (limit : Z) (why : string) : result SamlError unit :=
  match o with
  | Some na => t ← parse_instant na; guard_or (SRejected why) (negb (t <=? limit)%Z)
  | None => Ok ()
  end.

Definition check_conditions (sp : SamlSp) (now : Z) (assertion : Element) : result SamlError unit :=
  match child assertion "Conditions" with
  | Some cond =>
      _ ← check_after (attr cond "NotBefore") (i64 (now + leeway_secs sp)) "assertion not yet valid";
      _ ← check_before (attr cond "NotOnOrAfter") (i64 (now - leeway_secs sp)) "assertion expired";
      guard_or (SRejected "audience mismatch")
        (match find_descendant cond "AudienceRestriction" with
         | Some (_, ar) => existsb (λ a, bool_decide (text a = sp_entity_id sp)) (children_named ar "Audience")
         | None => true
         end)
  | None => Ok ()
  end.

Definition check_subject (sp : SamlSp) (now : Z) (assertion : Element) : result SamlError unit :=
  match child assertion "Subject" with
  | Some subj =>
      match find_descendant subj "SubjectConfirmationData" with
      | Some (_, scd) =>
          _ ← guard_or (SRejected "recipient mismatch")
                (match attr scd "Recipient" with Some rcpt => bool_decide (rcpt = acs_url sp) | None => true end);
          check_before (attr scd "NotOnOrAfter") (i64 (now - leeway_secs sp)) "subject confirmation expired"
      | None => Ok ()
      end
  | None => Ok ()
  end.

(** [verify_response_xml] after the parser. *)
Definition verify_root (sp : SamlSp) (root : Element) (now : Z) : result SamlError VerifiedAssertion :=
  _ ← guard_or (SUnsupported "EncryptedAssertion") (bool_decide (find_descendant root "EncryptedAssertion" = None));
  _ ← check_status root;
  '(here, assertion) ← require (SRejected "no Assertion") (find_descendant root "Assertion");
  _ ← verify_signature sp root (here, assertion);
  let issuer := default "" (text <$> child assertion "Issuer") in
  _ ← guard_or (SRejected ("issuer mismatch: " +:+ issuer)) (bool_decide (issuer = idp_entity_id sp));
  _ ← check_conditions sp now assertion;
  _ ← check_subject sp now assertion;
  '(_, name_id) ← require (SRejected "no NameID") (s ← child assertion "Subject"; find_descendant s "NameID");
  Ok (mkVerified (text name_id) issuer (extract_attributes assertion)).

Definition saml_xml_error (e : XmlError) : SamlError := match e with XmlErr why => SXml why | OutOfFuel => SFuel end.

Definition verify_response_xml (sp : SamlSp) (xml_str : string) (now : Z) : result SamlError VerifiedAssertion :=
  root ← map_err saml_xml_error (parse xml_str);
  verify_root sp root now.

Definition verify_b64_response (sp : SamlSp) (b64 : string) (now : Z) : result SamlError VerifiedAssertion :=
  xml_bytes ← require (SXml "invalid base64") (b64decode b64);
  if valid_utf8 xml_bytes then verify_response_xml sp (string_of_list_byte xml_bytes) now else Err (SXml "invalid utf-8").
End saml.
