(* ===== verification/SamlTheory.v ===== *)
(** What an accepted SAML response means, and what it does not. *)

From Stdlib Require Import ZArith.
From S2P Require Import Prelude Text BTree Backend Toy Primitives Auth Xml XmlTheory Saml.

(** ** Positions *)

Fixpoint at_pos (e : Element) (p : list nat) : option Element :=
  match p with
  | [] => Some e
  | i :: p => match el_children e !! i with Some (NElement c) => at_pos c p | _ => None end
  end.

(** The scope an element inherits at its position. *)
Fixpoint scope_at (sc : NsScope) (e : Element) (p : list nat) : NsScope :=
  match p with
  | [] => sc
  | i :: p => match el_children e !! i with Some (NElement c) => scope_at (enter sc e) c p | _ => sc end
  end.

(** The loops over the children, as functions. *)
Fixpoint walk_nodes (pred : list nat → Element → bool) (here : list nat) (sc : NsScope) (i : nat) (ns : list Node)
    : option (Element * NsScope) :=
  match ns with
  | [] => None
  | NElement c :: ns =>
      match walk pred (here ++ [i]) sc c with Some found => Some found | None => walk_nodes pred here sc (S i) ns end
  | NText _ :: ns => walk_nodes pred here sc (S i) ns
  end.

Lemma walk_eq pred here sc e :
  walk pred here sc e = if pred here e then Some (e, sc) else walk_nodes pred here (enter sc e) 0 (el_children e).
Proof.
  destruct e as [p l d a ns]. cbn [walk el_children]. destruct (pred _ _); [done|].
  generalize (enter sc (mkElement p l d a ns)) as sc'. generalize 0%nat as i. intros i sc'. revert i.
  induction ns as [|[c|t] ns IH]; intros i; [done|..]; cbn [walk_nodes]; rewrite <-IH; done.
Qed.

Fixpoint find_nodes (local : string) (i : nat) (ns : list Node) : option (list nat * Element) :=
  match ns with
  | [] => None
  | NElement c :: ns =>
      match find_descendant c local with Some (p, x) => Some (i :: p, x) | None => find_nodes local (S i) ns end
  | NText _ :: ns => find_nodes local (S i) ns
  end.

Lemma find_descendant_eq e local :
  find_descendant e local = if bool_decide (el_local e = local) then Some ([], e) else find_nodes local 0 (el_children e).
Proof.
  destruct e as [p l d a ns]. cbn [find_descendant el_children]. destruct (bool_decide _); [done|].
  generalize 0%nat as i. induction ns as [|[c|t] ns IH]; intros i; [done|..]; cbn [find_nodes]; rewrite <-IH; done.
Qed.

Lemma find_nodes_pos local ns : ∀ i p x,
  (∀ c, NElement c ∈ ns → ∀ p x, find_descendant c local = Some (p, x) → at_pos c p = Some x) →
  find_nodes local i ns = Some (p, x) →
  ∃ j c q, p = (i + j)%nat :: q ∧ ns !! j = Some (NElement c) ∧ at_pos c q = Some x.
Proof.
  induction ns as [|n ns IH]; intros i p x Hc; [done|]. cbn [find_nodes].
  assert (find_nodes local (S i) ns = Some (p, x) →
    ∃ j c q, p = (i + j)%nat :: q ∧ (n :: ns) !! j = Some (NElement c) ∧ at_pos c q = Some x) as Hnext.
  { intros H. destruct (IH (S i) p x) as (j & c & q & -> & Hj & Hq); [intros; by eapply Hc; [by right|]|done|].
    exists (S j), c, q. split; [f_equal; lia|done]. }
  destruct n as [c|t]; [|exact Hnext]. destruct (find_descendant c local) as [[q y]|] eqn:E; [|exact Hnext].
  intros [= <- ->]. exists 0%nat, c, q. split; [f_equal; lia|]. split; [done|]. by eapply Hc; [left|].
Qed.

Lemma find_descendant_pos e local : ∀ p x, find_descendant e local = Some (p, x) → at_pos e p = Some x.
Proof.
  induction e as [pr l d a ns IH] using element_ind. intros p x. rewrite find_descendant_eq.
  case_bool_decide; [by intros [= <- <-]|]. intros Hf.
  destruct (find_nodes_pos local ns 0 p x) as (j & c & q & -> & Hj & Hq); [intros c Hc; by apply IH|done|].
  cbn [at_pos el_children Nat.add]. by rewrite Hj.
Qed.

Lemma walk_nodes_none pred here sc ns : ∀ i,
  (∀ c, NElement c ∈ ns → ∀ sc h, (∀ q x, pred (h ++ q) x = false) → walk pred h sc c = None) →
  (∀ j q x, (i ≤ j)%nat → (j < i + length ns)%nat → pred (here ++ j :: q) x = false) →
  walk_nodes pred here sc i ns = None.
Proof.
  induction ns as [|n ns IH]; intros i Hc Hp; [done|]. cbn [walk_nodes].
  assert (walk_nodes pred here sc (S i) ns = None) as Hnext.
  { apply IH; [intros; apply Hc; [by right|done]|]. intros j q x H1 H2. apply Hp; simpl; lia. }
  destruct n as [c|t]; [|done]. rewrite Hc; [done|by left|]. intros q x. rewrite <-app_assoc. apply Hp; simpl; lia.
Qed.

Lemma walk_none pred e : ∀ h sc, (∀ q x, pred (h ++ q) x = false) → walk pred h sc e = None.
Proof.
  induction e as [p l d a ns IH] using element_ind. intros h sc Hp. rewrite walk_eq.
  rewrite <-(app_nil_r h), Hp, app_nil_r. apply walk_nodes_none; [|intros; apply Hp].
  intros c Hc sc' h' H'. by apply IH.
Qed.

Lemma walk_nodes_app pred here sc l r : ∀ i,
  walk_nodes pred here sc i (l ++ r) =
    match walk_nodes pred here sc i l with Some f => Some f | None => walk_nodes pred here sc (i + length l) r end.
Proof.
  induction l as [|n l IH]; intros i; cbn [app walk_nodes length]; [by rewrite Nat.add_0_r|].
  rewrite IH, Nat.add_succ_r. destruct n as [c|t]; [|done]. by destruct (walk _ _ _ c).
Qed.

(** Searching for a position finds the element there, with the scope it inherits. *)
Lemma walk_at_pos p : ∀ e here sc x, at_pos e p = Some x →
  walk (λ q _, bool_decide (q = here ++ p)) here sc e = Some (x, scope_at sc e p).
Proof.
  induction p as [|i p IH]; intros e here sc x H; rewrite walk_eq; cbn [at_pos scope_at] in *.
  { rewrite app_nil_r, bool_decide_eq_true_2 by done. congruence. }
  rewrite bool_decide_eq_false_2; cycle 1.
  { intros E. apply (f_equal length) in E. rewrite length_app in E. simpl in E. lia. }
  destruct (el_children e !! i) as [[c|t]|] eqn:Ei; [|done..].
  rewrite <-(take_drop_middle _ _ _ Ei), walk_nodes_app.
  assert (length (take i (el_children e)) = i) as Hl.
  { rewrite length_take. apply lookup_lt_Some in Ei. lia. }
  rewrite walk_nodes_none.
  - rewrite Hl. cbn [walk_nodes Nat.add].
    replace (here ++ i :: p) with ((here ++ [i]) ++ p) by by rewrite <-app_assoc. by rewrite (IH c (here ++ [i]) _ x H).
  - intros. by apply walk_none.
  - intros j q y _ Hj. rewrite Hl in Hj. apply bool_decide_eq_false. intros E%app_inv_head. injection E. lia.
Qed.

Lemma locate_pos root here x id : at_pos root here = Some x → locate root here id = Some (x, scope_at ∅ root here).
Proof. intros H. unfold locate, find_with_scope. by rewrite (walk_at_pos here root [] ∅ x H). Qed.

(** ** Well-formedness of what is found *)

Lemma at_pos_wf p : ∀ e sc x, wf e → scope_ok sc → at_pos e p = Some x → wf x ∧ scope_ok (scope_at sc e p).
Proof.
  induction p as [|i p IH]; intros e sc x Hw Hs; cbn [at_pos scope_at]; [by intros [= <-]|].
  destruct (el_children e !! i) as [[c|t]|] eqn:Ei; [|done..]. intros H.
  apply (IH c (enter sc e) x); [|by apply scope_ok_enter|done].
  destruct Hw as [? ? ? ? ns _ _ _ _ Hc _]. by eapply Hc, list_elem_of_lookup_2.
Qed.

Lemma child_wf e l x : wf e → child e l = Some x → wf x.
Proof.
  intros Hw. unfold child. destruct (omap (named l) (el_children e)) as [|y ys] eqn:E; [done|]. intros [= <-].
  assert (y ∈ omap (named l) (el_children e)) as Hy by (rewrite E; by left).
  apply list_elem_of_omap in Hy as (n & Hn & Hy). destruct n as [c|]; [|done]. simpl in Hy. case_bool_decide; [|done].
  injection Hy as ->. destruct Hw as [? ? ? ? ns _ _ _ _ Hc _]. by apply Hc.
Qed.

Lemma walk_wf pred e : ∀ here sc x sc', wf e → scope_ok sc → walk pred here sc e = Some (x, sc') → wf x ∧ scope_ok sc'.
Proof.
  induction e as [p l d a ns IH] using element_ind. intros here sc x sc' Hw Hs. rewrite walk_eq.
  destruct (pred _ _); [by intros [= <- <-]|]. pose proof (scope_ok_enter _ _ Hs Hw) as Hs'. revert Hs'.
  generalize (enter sc (mkElement p l d a ns)) as sc1. intros sc1 Hs1.
  assert (∀ c, NElement c ∈ ns → wf c) as Hc by by inversion Hw.
  cbn [el_children]. generalize 0%nat as i. clear Hw Hs. induction ns as [|[c|t] ns IHns]; intros i; [done|..]; cbn [walk_nodes].
  - destruct (walk pred (here ++ [i]) sc1 c) as [f|] eqn:E.
    + intros [= ->]. eapply (IH c); [by left|apply Hc; by left|done|exact E].
    + apply IHns; [intros; eapply IH; [by right|done..]|intros; apply Hc; by right].
  - apply IHns; [intros; eapply IH; [by right|done..]|intros; apply Hc; by right].
Qed.

Lemma strip_eq e :
  strip_signature e =
    mkElement (el_prefix e) (el_local e) (el_ns_decls e) (el_attrs e)
      (omap (λ n, match n with
                  | NElement c => if bool_decide (el_local c = "Signature") then None else Some (NElement (strip_signature c))
                  | NText t => Some (NText t)
                  end) (el_children e)).
Proof.
  destruct e as [p l d a ns]. cbn [strip_signature el_prefix el_local el_ns_decls el_attrs el_children]. f_equal.
  induction ns as [|[c|t] ns IH]; [done|..]; cbn [omap list_omap]; rewrite IH; [|done]. by destruct (bool_decide _).
Qed.

Lemma strip_wf e : wf e → wf (strip_signature e).
Proof.
  induction e as [p l d a ns IH] using element_ind. intros Hw. rewrite strip_eq. inversion Hw as [? ? ? ? ? H1 H2 H3 H4 Hc Ht].
  constructor; try done; cbn [el_children].
  - intros c (n & Hn & Hx)%list_elem_of_omap. destruct n as [c'|]; [|done]. destruct (bool_decide _); [done|].
    injection Hx as <-. apply IH; [done|by apply Hc].
  - intros t (n & Hn & Hx)%list_elem_of_omap. destruct n as [c'|]; [by destruct (bool_decide _)|].
    injection Hx as ->. by apply Ht.
Qed.

(** ** Searching in a canonical tree *)

Definition find_el (e : Element) (local : string) : option Element := snd <$> find_descendant e local.
Definition find_in (local : string) (n : Node) : option Element :=
  match n with NElement c => find_el c local | NText _ => None end.

Lemma find_nodes_el local ns : ∀ i, snd <$> find_nodes local i ns = head (omap (find_in local) ns).
Proof.
  induction ns as [|[c|t] ns IH]; intros i; [done|..]; cbn [find_nodes omap list_omap find_in]; [|apply IH].
  unfold find_el. destruct (find_descendant c local) as [[p x]|]; [done|apply IH].
Qed.

Lemma find_el_eq e local :
  find_el e local = if bool_decide (el_local e = local) then Some e else head (omap (find_in local) (el_children e)).
Proof. unfold find_el. rewrite find_descendant_eq. destruct (bool_decide _); [done|]. apply find_nodes_el. Qed.

Lemma omap_cons {A B} (f : A → option B) x (l : list A) :
  omap f (x :: l) = match f x with Some y => y :: omap f l | None => omap f l end.
Proof. done. Qed.

Lemma omap_merge {A} (f : Node → option A) ns : (∀ t, f (NText t) = None) → omap f (merge ns) = omap f ns.
Proof.
  intros Hf. induction ns as [|[c|t] ns IH]; [done|..]; cbn [merge]; rewrite omap_cons; [by rewrite omap_cons, IH|].
  rewrite Hf, <-IH. unfold add_text. case_bool_decide; [done|].
  by destruct (merge ns) as [|[c|u] ns']; rewrite ?omap_cons, ?Hf.
Qed.

(** The search finds the canonical form of what it finds in the tree. *)
Definition canon_of (incl : list string) (o o' : option Element) : Prop :=
  match o with Some x => ∃ sc rn, o' = Some (canon x sc rn incl) | None => o' = None end.

Lemma canon_find e local : ∀ sc rn incl, canon_of incl (find_el e local) (find_el (canon e sc rn incl) local).
Proof.
  induction e as [p l d a ns IH] using element_ind. intros sc rn incl.
  rewrite (find_el_eq (mkElement p l d a ns)), (find_el_eq (canon _ _ _ _)).
  assert (el_local (canon (mkElement p l d a ns) sc rn incl) = l) as -> by by rewrite canon_eq.
  cbn [el_local el_children]. destruct (bool_decide (l = local)); [by exists sc, rn|].
  rewrite canon_eq. cbn [el_children]. rewrite omap_merge by done.
  generalize (enter sc (mkElement p l d a ns)) as sc1. intros sc1.
  generalize (render rn (ns_to_emit (mkElement p l d a ns) sc1 rn incl)) as rn1. intros rn1.
  induction ns as [|[c|t] ns IHns]; [done|..].
  - change (canon_node sc1 rn1 incl <$> NElement c :: ns) with (NElement (canon c sc1 rn1 incl) :: (canon_node sc1 rn1 incl <$> ns)).
    rewrite !omap_cons. cbn [find_in]. pose proof (IH c ltac:(by left) sc1 rn1 incl) as Hc.
    destruct (find_el c local) as [x|].
    + destruct Hc as (sc' & rn' & ->). by exists sc', rn'.
    + simpl in Hc. rewrite Hc. apply IHns. intros c' H'. apply IH. by right.
  - apply IHns. intros c' H'. apply IH. by right.
Qed.

Lemma text_merge ns : mjoin (text_of <$> merge ns) = mjoin (text_of <$> ns).
Proof.
  induction ns as [|[c|t] ns IH]; [done|..].
  - change (mjoin (text_of <$> merge ns) = mjoin (text_of <$> ns)). done.
  - change (mjoin (text_of <$> add_text t (merge ns)) = as_bytes t ++ mjoin (text_of <$> ns)). rewrite <-IH. unfold add_text.
    case_bool_decide as Ht; [by subst|]. destruct (merge ns) as [|[c|u] ns']; [done|done|].
    change (as_bytes (t +:+ u) ++ mjoin (text_of <$> ns') = as_bytes t ++ (as_bytes u ++ mjoin (text_of <$> ns'))).
    by rewrite as_bytes_app, <-app_assoc.
Qed.

Lemma text_canon e sc rn incl : text (canon e sc rn incl) = text e.
Proof.
  unfold text. rewrite canon_eq. cbn [el_children]. rewrite text_merge. f_equal. f_equal.
  generalize (enter sc e) as sc1. intros sc1. generalize (render rn (ns_to_emit e sc1 rn incl)) as rn1. intros rn1.
  induction (el_children e) as [|[c|t] ns IH]; [done|..].
  - change (mjoin (text_of <$> (canon_node sc1 rn1 incl <$> ns)) = mjoin (text_of <$> ns)). done.
  - change (as_bytes t ++ mjoin (text_of <$> (canon_node sc1 rn1 incl <$> ns)) = as_bytes t ++ mjoin (text_of <$> ns)). by rewrite IH.
Qed.

(** The text of the digest, inside a [SignedInfo]. *)
Definition digest_text (si : Element) : option string :=
  r ← find_el si "Reference"; text <$> find_el r "DigestValue".

Lemma digest_text_canon si sc rn incl : digest_text (canon si sc rn incl) = digest_text si.
Proof.
  unfold digest_text. pose proof (canon_find si "Reference" sc rn incl) as Hr.
  destruct (find_el si "Reference") as [r|]; [|by rewrite Hr]. destruct Hr as (sc' & rn' & ->). cbn [mbind option_bind].
  pose proof (canon_find r "DigestValue" sc' rn' incl) as Hd. destruct (find_el r "DigestValue") as [d|]; [|by rewrite Hd].
  destruct Hd as (sc2 & rn2 & ->). cbn [fmap option_fmap option_map]. by rewrite text_canon.
Qed.

(** ** What a checked signature says *)

Definition is_signed_info (_ : list nat) (e : Element) : bool := bool_decide (el_local e = "SignedInfo").

(** The prefix list of the reference of a [SignedInfo]. *)
Definition ref_prefixes (si : Element) : list string :=
  match find_el si "Reference" with Some r => (transforms r).2 | None => [] end.

(** The bytes whose digest is compared, and the tree they stand for. *)
Definition content (root : Element) (here : list nat) (x si : Element) : bytes :=
  exc_c14n_enveloped_scoped x (ref_prefixes si) (scope_at ∅ root here).
Definition content_tree (root : Element) (here : list nat) (x si : Element) : Element :=
  canon (strip_signature x) (scope_at ∅ root here) ∅ (ref_prefixes si).

Lemma guard_or_ok e b u : guard_or e b = Ok u → b = true.
Proof. by destruct b. Qed.
Lemma require_ok {A} e (o : option A) a : require e o = Ok a → o = Some a.
Proof. destruct o; [|done]. by intros [= ->]. Qed.
Lemma bind_ok {E A B} (r : result E A) (f : A → result E B) b : r ≫= f = Ok b → ∃ a, r = Ok a ∧ f a = Ok b.
Proof. destruct r as [a|e]; [|done]. by exists a. Qed.

Section theory.
Context `{DG : Digests} `{RSA : RsaPkcs1}.

Lemma check_reference_ok si id r incl :
  check_reference si id = Ok (r, incl) → find_el si "Reference" = Some r ∧ incl = ref_prefixes si ∧ (transforms r).1 = true.
Proof.
  unfold check_reference. intros (_ & _ & H)%bind_ok. apply bind_ok in H as (_ & _ & H). apply bind_ok in H as ([p r'] & Er & H).
  apply require_ok in Er. apply bind_ok in H as (_ & _ & H). destruct (transforms r') as [env inc] eqn:Et.
  apply bind_ok in H as ([] & Hg & H). apply guard_or_ok in Hg. injection H as -> ->.
  unfold ref_prefixes, find_el. rewrite Er. cbn. by rewrite Et.
Qed.

Lemma check_signature_ok sp root here x id sig :
  at_pos root here = Some x → check_signature sp root here id sig = Ok () →
  ∃ si dv si' sc' sv sigb,
    child sig "SignedInfo" = Some si ∧ digest_text si = Some dv ∧ b64decode dv = Some (sha256 (content root here x si)) ∧
    find_with_scope sig is_signed_info = Some (si', sc') ∧ find_el sig "SignatureValue" = Some sv ∧
    b64decode (text sv) = Some sigb ∧ rsa_verify (idp_rsa sp).1 (idp_rsa sp).2 (exc_c14n_scoped si' [] sc') sigb = true.
Proof.
  intros Hp. unfold check_signature. intros (si & Esi & H)%bind_ok. apply require_ok in Esi.
  apply bind_ok in H as ([r incl] & Er & H). destruct (check_reference_ok _ _ _ _ Er) as (Hr & -> & _).
  apply bind_ok in H as ([] & Hd & H). unfold check_digest in Hd.
  rewrite (locate_pos _ _ _ _ Hp) in Hd. apply bind_ok in Hd as ([tg sc] & [= <- <-]%require_ok & Hd).
  apply bind_ok in Hd as ([q dv] & Edv%require_ok & Hd). apply bind_ok in Hd as (want & Ew%require_ok & Hd).
  apply guard_or_ok, bool_decide_eq_true in Hd. subst want.
  unfold check_rsa in H. apply bind_ok in H as ([si' sc'] & Esi'%require_ok & H).
  apply bind_ok in H as ([q' sv] & Esv%require_ok & H). apply bind_ok in H as (sigb & Esb%require_ok & H). apply guard_or_ok in H.
  exists si, (text dv), si', sc', sv, sigb. split; [done|]. split.
  { unfold digest_text. rewrite Hr. cbn [mbind option_bind]. unfold find_el. by rewrite Edv. }
  split; [done|]. split; [done|]. split; [|done]. unfold find_el. by rewrite Esv.
Qed.

(** A signature that was checked, in which the [SignedInfo] that RSA covers is the
    one whose digest was compared. *)
Record proper (sp : SamlSp) (root : Element) (here : list nat) (x sig si : Element) (sc : NsScope) : Prop := {
  pr_root : wf root;
  pr_pos : at_pos root here = Some x;
  pr_sig : direct_signature x = Some sig;
  pr_checked : ∃ id, check_signature sp root here id sig = Ok ();
  pr_child : child sig "SignedInfo" = Some si;
  pr_first : find_with_scope sig is_signed_info = Some (si, sc);
}.

(** C32. One signature fixes one content: if two signatures are accepted whose
    signed element is the direct SignedInfo child, and the signed bytes are the
    same, then the two signed elements have the same canonical tree (up to removed
    signatures), unless SHA-256 collides on their canonical forms. *)
Theorem signature_fixes_content (sp1 sp2 : SamlSp) (root1 root2 : Element) (here1 here2 : list nat)
    (x1 x2 sig1 sig2 si1 si2 : Element) (sc1 sc2 : NsScope) :
  proper sp1 root1 here1 x1 sig1 si1 sc1 → proper sp2 root2 here2 x2 sig2 si2 sc2 →
  exc_c14n_scoped si1 [] sc1 = exc_c14n_scoped si2 [] sc2 →
  coll_free sha256 [content root1 here1 x1 si1; content root2 here2 x2 si2] →
  content_tree root1 here1 x1 si1 = content_tree root2 here2 x2 si2.
Proof.
  intros [W1 P1 S1 (id1 & C1) K1 F1] [W2 P2 S2 (id2 & C2) K2 F2] Em Hcf.
  destruct (check_signature_ok _ _ _ _ _ _ P1 C1) as (si1' & dv1 & ? & ? & ? & ? & E1 & D1 & B1 & _).
  destruct (check_signature_ok _ _ _ _ _ _ P2 C2) as (si2' & dv2 & ? & ? & ? & ? & E2 & D2 & B2 & _).
  rewrite K1 in E1. injection E1 as <-. rewrite K2 in E2. injection E2 as <-.
  destruct (at_pos_wf _ _ ∅ _ W1 scope_ok_empty P1) as [Wx1 Sc1]. destruct (at_pos_wf _ _ ∅ _ W2 scope_ok_empty P2) as [Wx2 Sc2].
  pose proof (child_wf _ _ _ Wx1 S1) as Ws1. pose proof (child_wf _ _ _ Wx2 S2) as Ws2.
  destruct (walk_wf _ _ _ _ _ _ Ws1 scope_ok_empty F1) as [Wsi1 Ssi1]. destruct (walk_wf _ _ _ _ _ _ Ws2 scope_ok_empty F2) as [Wsi2 Ssi2].
  pose proof (c14n_injective si1 si2 sc1 sc2 [] [] Wsi1 Wsi2 Ssi1 Ssi2 Em) as Ec.
  assert (dv1 = dv2) as -> by (apply (f_equal digest_text) in Ec; rewrite !digest_text_canon in Ec; congruence).
  rewrite B1 in B2. injection B2 as B2.
  assert (content root1 here1 x1 si1 = content root2 here2 x2 si2) as Econt.
  { apply Hcf; [by left|right; by left|done]. }
  unfold content_tree. unfold content, exc_c14n_enveloped_scoped in Econt.
  apply c14n_injective; [by apply strip_wf|by apply strip_wf|done..].
Qed.
End theory.

(** ** Base64 of any bytes *)

Definition b64_char (v : N) : byte := default x41 (B64_STD !! N.to_nat v).

Lemma b64_value_char v : v < 64 → b64_value B64_STD (b64_char v) = Some v.
Proof.
  intros H. assert (∀ n, (n < 64)%nat → b64_value B64_STD (b64_char (N.of_nat n)) = Some (N.of_nat n)) as Hn.
  { intros n Hlt. apply (bool_decide_unpack _).
    assert (forallb (λ n, bool_decide (b64_value B64_STD (b64_char (N.of_nat n)) = Some (N.of_nat n))) (seq 0 64) = true) as F
      by (vm_compute; reflexivity).
    rewrite forallb_forall in F. specialize (F n). apply Is_true_true, F, in_seq. lia. }
  specialize (Hn (N.to_nat v) ltac:(lia)). by rewrite N2Nat.id in Hn.
Qed.

Lemma b64_char_plain v : v < 64 → 32 < Byte.to_N (b64_char v) < 128 ∧ b64_char v ≠ x3d.
Proof.
  intros H. unfold b64_char. destruct (B64_STD !! N.to_nat v) as [b|] eqn:E; [|done]. simpl.
  assert (forallb (λ b, (32 <? Byte.to_N b) && (Byte.to_N b <? 128) && bool_decide (b ≠ x3d)) B64_STD = true) as F
    by (vm_compute; reflexivity).
  rewrite forallb_forall in F. apply list_elem_of_lookup_2, list_elem_of_In in E. apply F in E.
  apply andb_true_iff in E as [[H1%N.ltb_lt H2%N.ltb_lt]%andb_true_iff H3%bool_decide_eq_true]. done.
Qed.

Definition push6 (buf v : N) : N := N.lor (N.shiftl buf 6 mod 2 ^ 32) v.

Lemma push6_spec buf v : v < 64 → push6 buf v = 64 * (buf mod 2 ^ 26) + v.
Proof.
  intros Hv. unfold push6. rewrite N.shiftl_mul_pow2. change (2 ^ 32) with (2 ^ 26 * 2 ^ 6).
  rewrite N.Div0.mul_mod_distr_r. rewrite <-N.shiftl_mul_pow2.
  assert (N.land (N.shiftl (buf mod 2 ^ 26) 6) v = 0) as Hl.
  2:{ rewrite <-N.lxor_lor, <-N.add_nocarry_lxor by done. rewrite N.shiftl_mul_pow2. change (2 ^ 6) with 64. lia. }
  apply N.bits_inj. intros n. rewrite N.land_spec, N.bits_0.
  destruct (N.lt_ge_cases n 6) as [Hn|Hn]; [by rewrite N.shiftl_spec_low|].
  replace (N.testbit v n) with false; [apply andb_false_r|].
  symmetry. destruct (decide (v = 0)) as [->|Hz]; [apply N.bits_0|]. apply N.bits_above_log2.
  apply N.log2_lt_pow2; [lia|]. apply N.lt_le_trans with (2 ^ 6); [done|]. by apply N.pow_le_mono_r.
Qed.

Lemma byte_of_N_eq n b : n mod 256 = Byte.to_N b → byte_of_N n = b.
Proof. intros H. apply byte_to_N_inj. by rewrite byte_of_N_spec. Qed.

(** The bytes a decoder gets from the last bits of its buffer. *)
Lemma emit4 buf v w : v < 64 → w < 64 → N.shiftr (push6 (push6 buf v) w) 4 mod 256 = 4 * v + w / 16.
Proof.
  intros Hv Hw. rewrite N.shiftr_div_pow2, !push6_spec by done. change (2 ^ 4) with 16. set (x := buf mod 2 ^ 26).
  replace ((64 * x + v) mod 2 ^ 26) with (64 * (x mod 2 ^ 20) + v)
    by (change (2 ^ 26) with (64 * 2 ^ 20); by rewrite N.Div0.add_mul_mod_distr_l).
  replace (64 * (64 * (x mod 2 ^ 20) + v) + w) with ((256 * (x mod 2 ^ 20) + 4 * v) * 16 + w) by lia.
  rewrite N.div_add_l by done. pose proof (N.le_0_l (w / 16)).
  assert (w / 16 < 4) by (apply N.Div0.div_lt_upper_bound; lia).
  replace (256 * (x mod 2 ^ 20) + 4 * v + w / 16) with ((4 * v + w / 16) + (x mod 2 ^ 20) * 256) by lia.
  rewrite N.Div0.mod_add, N.mod_small; lia.
Qed.

Lemma emit2 buf w u : w < 64 → u < 64 → N.shiftr (push6 (push6 buf w) u) 2 mod 256 = 16 * (w mod 16) + u / 4.
Proof.
  intros Hw Hu. rewrite N.shiftr_div_pow2, !push6_spec by done. change (2 ^ 2) with 4. set (x := buf mod 2 ^ 26).
  replace ((64 * x + w) mod 2 ^ 26) with (64 * (x mod 2 ^ 20) + w)
    by (change (2 ^ 26) with (64 * 2 ^ 20); by rewrite N.Div0.add_mul_mod_distr_l).
  pose proof (N.div_mod' w 16). pose proof (N.mod_upper_bound w 16 ltac:(done)). pose proof (N.le_0_l (w mod 16)).
  pose proof (N.le_0_l (w / 16)). pose proof (N.le_0_l (u / 4)). assert (u / 4 < 16) by (apply N.Div0.div_lt_upper_bound; lia).
  replace (64 * (64 * (x mod 2 ^ 20) + w) + u) with ((1024 * (x mod 2 ^ 20) + 16 * w) * 4 + u) by lia.
  rewrite N.div_add_l by done.
  replace (1024 * (x mod 2 ^ 20) + 16 * w + u / 4)
    with ((16 * (w mod 16) + u / 4) + (4 * (x mod 2 ^ 20) + w / 16) * 256) by lia.
  rewrite N.Div0.mod_add, N.mod_small; lia.
Qed.

Lemma emit0 buf u t : u < 64 → t < 64 → N.shiftr (push6 (push6 buf u) t) 0 mod 256 = 64 * (u mod 4) + t.
Proof.
  intros Hu Ht. rewrite N.shiftr_0_r, !push6_spec by done. set (x := buf mod 2 ^ 26).
  replace ((64 * x + u) mod 2 ^ 26) with (64 * (x mod 2 ^ 20) + u)
    by (change (2 ^ 26) with (64 * 2 ^ 20); by rewrite N.Div0.add_mul_mod_distr_l).
  pose proof (N.div_mod' u 4). pose proof (N.mod_upper_bound u 4 ltac:(done)). pose proof (N.le_0_l (u mod 4)).
  pose proof (N.le_0_l (u / 4)).
  replace (64 * (64 * (x mod 2 ^ 20) + u) + t) with ((64 * (u mod 4) + t) + (16 * (x mod 2 ^ 20) + u / 4) * 256) by lia.
  rewrite N.Div0.mod_add, N.mod_small; lia.
Qed.

Fixpoint b64_encode (l : bytes) : bytes :=
  match l with
  | [] => []
  | [a] => let a := Byte.to_N a in [b64_char (a / 4); b64_char (a mod 4 * 16)]
  | [a; b] =>
      let a := Byte.to_N a in let b := Byte.to_N b in
      [b64_char (a / 4); b64_char (a mod 4 * 16 + b / 16); b64_char (b mod 16 * 4)]
  | a :: b :: c :: l =>
      let a := Byte.to_N a in let b := Byte.to_N b in let c := Byte.to_N c in
      b64_char (a / 4) :: b64_char (a mod 4 * 16 + b / 16) :: b64_char (b mod 16 * 4 + c / 64) :: b64_char (c mod 64) :: b64_encode l
  end.

Lemma b64_loop_char v s buf bits :
  v < 64 →
  b64_loop B64_STD (b64_char v :: s) buf bits =
    if 8 <=? bits + 6
    then rest ← b64_loop B64_STD s (push6 buf v) (bits + 6 - 8); Some (byte_of_N (N.shiftr (push6 buf v) (bits + 6 - 8)) :: rest)
    else b64_loop B64_STD s (push6 buf v) (bits + 6).
Proof.
  intros Hv. cbn [b64_loop]. destruct (b64_char_plain v Hv) as [_ Hne]. rewrite bool_decide_eq_false_2 by done.
  by rewrite b64_value_char.
Qed.

(** The six-bit digits of bytes. *)
Lemma digit_bounds b : let n := Byte.to_N b in
  n / 4 < 64 ∧ n / 16 < 16 ∧ n / 64 < 4 ∧ n mod 4 < 4 ∧ n mod 16 < 16 ∧ n mod 64 < 64 ∧
  n = 4 * (n / 4) + n mod 4 ∧ n = 16 * (n / 16) + n mod 16 ∧ n = 64 * (n / 64) + n mod 64 ∧
  0 ≤ n / 4 ∧ 0 ≤ n / 16 ∧ 0 ≤ n / 64 ∧ 0 ≤ n mod 4 ∧ 0 ≤ n mod 16 ∧ 0 ≤ n mod 64.
Proof.
  intros n. pose proof (byte_to_N_bound b) as Hb. fold n in Hb.
  repeat (split; [first [apply N.Div0.div_lt_upper_bound; lia | by apply N.mod_upper_bound | apply N.div_mod' | apply N.le_0_l]|]).
  apply N.le_0_l.
Qed.


Ltac digits_of b := destruct (digit_bounds b) as (? & ? & ? & ? & ? & ? & ? & ? & ? & ? & ? & ? & ? & ? & ?).

Lemma b64_group a b c s buf :
  ∃ buf', b64_loop B64_STD (b64_char (Byte.to_N a / 4) :: b64_char (Byte.to_N a mod 4 * 16 + Byte.to_N b / 16) ::
      b64_char (Byte.to_N b mod 16 * 4 + Byte.to_N c / 64) :: b64_char (Byte.to_N c mod 64) :: s) buf 0 =
    rest ← b64_loop B64_STD s buf' 0; Some (a :: b :: c :: rest).
Proof.
  digits_of a.
  digits_of b.
  digits_of c.
  set (v := Byte.to_N a / 4) in *. set (w := Byte.to_N a mod 4 * 16 + Byte.to_N b / 16).
  set (u := Byte.to_N b mod 16 * 4 + Byte.to_N c / 64). set (t := Byte.to_N c mod 64) in *.
  exists (push6 (push6 (push6 (push6 buf v) w) u) t).
  rewrite b64_loop_char by done. change (8 <=? 0 + 6) with false. change (0 + 6) with 6. cbv iota.
  rewrite b64_loop_char by (unfold w; lia).
  change (8 <=? 6 + 6) with true. change (6 + 6 - 8) with 4. cbv iota.
  rewrite b64_loop_char by (unfold u; lia). change (8 <=? 4 + 6) with true. change (4 + 6 - 8) with 2. cbv iota.
  rewrite b64_loop_char by done. change (8 <=? 2 + 6) with true. change (2 + 6 - 8) with 0. cbv iota.
  rewrite (byte_of_N_eq (N.shiftr (push6 (push6 buf v) w) 4) a); [|rewrite emit4 by (unfold w; lia)].
  rewrite (byte_of_N_eq (N.shiftr (push6 (push6 (push6 buf v) w) u) 2) b); [|rewrite emit2 by (unfold w, u; lia)].
  rewrite (byte_of_N_eq (N.shiftr (push6 (push6 (push6 (push6 buf v) w) u) t) 0) c); [|rewrite emit0 by (unfold u; lia)].
  - by destruct (b64_loop B64_STD s _ 0).
  - unfold u. rewrite (N.add_comm (_ * 4)), N.Div0.mod_add, N.mod_small by lia. lia.
  - unfold w, u. rewrite (N.add_comm (_ * 16)), N.Div0.mod_add, N.mod_small by lia. rewrite N.div_add_l by done.
    replace (Byte.to_N c / 64 / 4) with 0; [lia|]. symmetry. apply N.div_small. lia.
  - unfold w. rewrite N.div_add_l by done. replace (Byte.to_N b / 16 / 16) with 0; [lia|]. symmetry. apply N.div_small. lia.
Qed.

Lemma b64_decode_encode l : b64_decode B64_STD (b64_encode l) = Some l.
Proof.
  unfold b64_decode. assert (∀ buf, b64_loop B64_STD (b64_encode l) buf 0 = Some l) as H; [|apply H].
  remember (length l) as n eqn:Hn. revert l Hn.
  induction (lt_wf n) as [n _ IH]. intros l Hn buf. destruct l as [|a [|b [|c l]]]; cbn [b64_encode].
  - done.
  - digits_of a.
    rewrite b64_loop_char by done. change (8 <=? 0 + 6) with false. change (0 + 6) with 6. cbv iota.
    rewrite b64_loop_char by lia. change (8 <=? 6 + 6) with true. change (6 + 6 - 8) with 4. cbv iota. cbn [b64_loop mbind option_bind].
    rewrite (byte_of_N_eq _ a); [done|]. rewrite emit4 by lia. rewrite N.div_mul by done. lia.
  - digits_of a.
    digits_of b.
    rewrite b64_loop_char by done. change (8 <=? 0 + 6) with false. change (0 + 6) with 6. cbv iota.
    rewrite b64_loop_char by lia. change (8 <=? 6 + 6) with true. change (6 + 6 - 8) with 4. cbv iota.
    rewrite b64_loop_char by lia. change (8 <=? 4 + 6) with true. change (4 + 6 - 8) with 2. cbv iota. cbn [b64_loop mbind option_bind].
    rewrite (byte_of_N_eq (N.shiftr _ 2) b), (byte_of_N_eq (N.shiftr _ 4) a); [done|..].
    + rewrite emit4 by lia. rewrite N.div_add_l by done. replace (Byte.to_N b / 16 / 16) with 0; [lia|]. symmetry. apply N.div_small. lia.
    + rewrite emit2 by lia. rewrite (N.add_comm (_ * 16)), N.Div0.mod_add, N.mod_small by lia. rewrite N.div_mul by done. lia.
  - destruct (b64_group a b c (b64_encode l) buf) as (buf' & ->). rewrite (IH (length l)); [done| |done]. subst n. simpl. lia.
Qed.

(** Visible text decodes to any given bytes. *)
Lemma b64_encode_plain l : Forall (λ b, 32 < Byte.to_N b < 128) (b64_encode l).
Proof.
  remember (length l) as n eqn:Hn. revert l Hn. induction (lt_wf n) as [n _ IH]. intros l Hn.
  assert (∀ v, v < 64 → 32 < Byte.to_N (b64_char v) < 128) as Hc by (intros v Hv; by destruct (b64_char_plain v Hv)).
  destruct l as [|a [|b [|c l]]]; cbn [b64_encode]; [constructor|..].
  - digits_of a.
    repeat constructor; apply Hc; lia.
  - digits_of a.
    digits_of b.
    repeat constructor; apply Hc; lia.
  - digits_of a.
    digits_of b.
    digits_of c.
    do 4 (constructor; [apply Hc; lia|]). apply (IH (length l)); [subst n; simpl; lia|done].
Qed.

(** ** A forged assertion *)

Definition plain (local : string) (ns : list Node) : Element := mkElement None local [] [] ns.
Definition leaf (local t : string) : Element := plain local [NText t].
Definition with_alg (local alg : string) : Element := mkElement None local [] [mkAttr None "Algorithm" alg] [].

Definition forged_reference (dv : string) : Element :=
  plain "Reference" [NElement (plain "Transforms" [NElement (with_alg "Transform" ENVELOPED)]); NElement (leaf "DigestValue" dv)].
Definition forged_info (dv : string) : Element :=
  plain "SignedInfo" [NElement (with_alg "CanonicalizationMethod" C14N_EXCL); NElement (with_alg "SignatureMethod" "#rsa-sha256");
    NElement (forged_reference dv)].
(** The captured signature comes first, inside the forged one. *)
Definition forged_signature (captured : Element) (dv : string) : Element :=
  plain "Signature" [NElement captured; NElement (forged_info dv)].
Definition forged_body (issuer name : string) : list Node :=
  [NElement (leaf "Issuer" issuer); NElement (plain "Subject" [NElement (leaf "NameID" name)])].
Definition forged (issuer name : string) (captured : Element) (dv : string) : Element :=
  plain "Assertion" (forged_body issuer name ++ [NElement (forged_signature captured dv)]).

Lemma strip_forged issuer name captured dv :
  strip_signature (forged issuer name captured dv) = plain "Assertion" (forged_body issuer name).
Proof. by rewrite !strip_eq. Qed.

(** The search that does not look at positions does not depend on where it starts. *)
Lemma walk_here (f : Element → bool) e : ∀ here here' sc, walk (λ _, f) here sc e = walk (λ _, f) here' sc e.
Proof.
  induction e as [p l d a ns IH] using element_ind. intros here here' sc. rewrite !walk_eq. destruct (f _); [done|].
  cbn [el_children]. generalize (enter sc (mkElement p l d a ns)) as sc1. intros sc1. generalize 0%nat as i.
  induction ns as [|[c|t] ns IHns]; intros i; [done|..]; cbn [walk_nodes].
  - rewrite (IH c ltac:(by left) (here ++ [i]) (here' ++ [i])). rewrite IHns; [done|]. intros. apply IH. by right.
  - apply IHns. intros. apply IH. by right.
Qed.

Lemma text_leaf local t : trim (as_bytes t) = as_bytes t → text (leaf local t) = t.
Proof.
  intros H. unfold text, leaf, plain. cbn [el_children fmap list_fmap text_of mjoin list_join]. rewrite app_nil_r, H.
  apply string_of_list_byte_of_string.
Qed.

Section forging.
Context `{DG : Digests} `{RSA : RsaPkcs1}.

Definition forged_digest (issuer name : string) : string :=
  string_of_list_byte (b64_encode (sha256 (exc_c14n (plain "Assertion" (forged_body issuer name)) []))).

Lemma visible_filter l : Forall (λ b, 32 < Byte.to_N b < 128) l → filter (λ c, is_ascii_whitespace c = false) l = l.
Proof.
  induction 1 as [|b l Hb _ IH]; [done|]. rewrite filter_cons_True; [by rewrite IH|].
  unfold is_ascii_whitespace. repeat (rewrite bool_decide_eq_false_2; [|intros ->; vm_compute in Hb; intuition discriminate]). done.
Qed.

Lemma trim_visible_text l : Forall (λ b, 32 < Byte.to_N b < 128) l → trim l = l.
Proof. intros H. destruct l; [done|]. by apply trim_word. Qed.

Lemma forged_digest_text issuer name :
  b64decode (text (leaf "DigestValue" (forged_digest issuer name))) =
    Some (sha256 (exc_c14n (plain "Assertion" (forged_body issuer name)) [])).
Proof.
  set (d := sha256 _). unfold forged_digest. fold d. pose proof (b64_encode_plain d) as F.
  rewrite text_leaf by (unfold as_bytes; rewrite list_byte_of_string_of_list_byte; by apply trim_visible_text).
  unfold b64decode, as_bytes. rewrite list_byte_of_string_of_list_byte, visible_filter by done. apply b64_decode_encode.
Qed.

(** The pinned key verifies the captured signature, not the forged one. *)
Lemma forged_rsa sp captured dv :
  check_rsa sp captured = Ok () → check_rsa sp (forged_signature captured dv) = Ok ().
Proof.
  unfold check_rsa. intros ([si sc] & Esi%require_ok & H)%bind_ok. apply bind_ok in H as ([q sv] & Esv%require_ok & H).
  assert (find_with_scope (forged_signature captured dv) (λ _ e, bool_decide (el_local e = "SignedInfo")) = Some (si, sc)) as ->.
  { unfold find_with_scope. rewrite walk_eq. cbn [forged_signature plain el_local]. rewrite bool_decide_eq_false_2 by done.
    change (enter ∅ (forged_signature captured dv)) with (∅ : NsScope).
    change (el_children (forged_signature captured dv)) with [NElement captured; NElement (forged_info dv)]. cbn [walk_nodes].
    rewrite (walk_here (λ e, bool_decide (el_local e = "SignedInfo")) captured _ []).
    unfold find_with_scope in Esi. by rewrite Esi. }
  assert (find_descendant (forged_signature captured dv) "SignatureValue" = Some (0%nat :: q, sv)) as ->.
  { rewrite find_descendant_eq. cbn [forged_signature plain el_local]. rewrite bool_decide_eq_false_2 by done.
    change (el_children (forged_signature captured dv)) with [NElement captured; NElement (forged_info dv)]. cbn [find_nodes].
    by rewrite Esv. }
  exact H.
Qed.

Lemma find_forged issuer name captured dv local :
  find_el captured local = None →
  local ∉ ["Assertion"; "Issuer"; "Subject"; "NameID"; "Signature"; "SignedInfo"; "CanonicalizationMethod"; "SignatureMethod";
           "Reference"; "Transforms"; "Transform"; "DigestValue"] →
  find_descendant (forged issuer name captured dv) local = None.
Proof.
  intros Hc Hl. rewrite !not_elem_of_cons in Hl. destruct Hl as (? & ? & ? & ? & ? & ? & ? & ? & ? & ? & ? & ? & _).
  assert (find_el (forged issuer name captured dv) local = None) as H'.
  { unfold forged, forged_body, forged_signature, forged_info, forged_reference, leaf, plain, with_alg.
    repeat (rewrite find_el_eq; cbn [el_local el_children]; rewrite bool_decide_eq_false_2 by congruence;
      cbn [app]; rewrite ?omap_cons; cbn [find_in]; rewrite ?Hc; cbn [head]).
    repeat (rewrite find_el_eq; cbn [el_local el_children]; rewrite bool_decide_eq_false_2 by congruence;
      rewrite ?omap_cons; cbn [find_in]).
    done. }
  unfold find_el in H'. by destruct (find_descendant _ _).
Qed.

Lemma forged_reference_ok dv :
  check_reference (forged_info dv) None = Ok (forged_reference dv, []).
Proof. unfold check_reference. reflexivity. Qed.

Lemma forged_checks sp issuer name captured :
  el_local captured = "Signature" → check_rsa sp captured = Ok () →
  let root := forged issuer name captured (forged_digest issuer name) in
  verify_signature sp root ([], root) = Ok ().
Proof.
  intros Hl Hr root. unfold verify_signature. cbn [try_candidates].
  assert (direct_signature root = Some (forged_signature captured (forged_digest issuer name))) as -> by done.
  assert (attr root "ID" = None) as -> by done. unfold check_signature.
  assert (child (forged_signature captured (forged_digest issuer name)) "SignedInfo" = Some (forged_info (forged_digest issuer name))) as ->.
  { unfold child. change (el_children (forged_signature captured (forged_digest issuer name)))
      with [NElement captured; NElement (forged_info (forged_digest issuer name))].
    rewrite omap_cons. cbn [named]. rewrite Hl. by rewrite bool_decide_eq_false_2. }
  cbn [require ok_or mbind result_mbind]. rewrite forged_reference_ok. cbn [mbind result_mbind].
  assert (check_digest root [] None (forged_reference (forged_digest issuer name)) [] = Ok ()) as ->; [|by rewrite forged_rsa].
  unfold check_digest. rewrite (locate_pos root [] root) by done. cbn [require ok_or mbind result_mbind scope_at].
  unfold exc_c14n_enveloped_scoped, root. rewrite (strip_forged issuer name captured (forged_digest issuer name)).
  change (find_descendant (forged_reference (forged_digest issuer name)) "DigestValue")
    with (Some ([1%nat], leaf "DigestValue" (forged_digest issuer name))).
  cbn [require ok_or mbind result_mbind]. rewrite forged_digest_text. cbn [require ok_or mbind result_mbind].
  unfold exc_c14n. by rewrite bool_decide_eq_true_2.
Qed.

(** A signature found in some document: RSA accepts it under the pinned key.  It is
    written in canonical form. *)
Record captured (sp : SamlSp) (sig : Element) : Prop := {
  cp_local : el_local sig = "Signature";
  cp_rsa : check_rsa sp sig = Ok ();
  cp_wf : wf sig;
  cp_canon : canon sig ∅ ∅ [] = sig;
  cp_plain : find_el sig "EncryptedAssertion" = None ∧ find_el sig "Status" = None;
}.

(** Text that is read as it is written. *)
Record shown (s : string) : Prop := {
  sh_ne : s ≠ "";
  sh_ok : str_ok s;
  sh_trim : trim (as_bytes s) = as_bytes s;
}.

Lemma forged_accepted sp name sig now :
  captured sp sig → shown name → shown (idp_entity_id sp) →
  ∃ va, verify_root sp (forged (idp_entity_id sp) name sig (forged_digest (idp_entity_id sp) name)) now = Ok va ∧
    va_name_id va = name ∧ va_issuer va = idp_entity_id sp.
Proof.
  intros [Hl Hr _ _ [He Hs]] [_ _ Hn] [_ _ Hi]. pose proof (forged_checks sp (idp_entity_id sp) name sig Hl Hr) as Hc. cbv zeta in Hc.
  pose proof (find_forged (idp_entity_id sp) name sig (forged_digest (idp_entity_id sp) name) "EncryptedAssertion" He) as Fe.
  pose proof (find_forged (idp_entity_id sp) name sig (forged_digest (idp_entity_id sp) name) "Status" Hs) as Fs.
  set (root := forged (idp_entity_id sp) name sig (forged_digest (idp_entity_id sp) name)) in *.
  unfold verify_root. rewrite Fe by (apply (bool_decide_unpack _); by vm_compute).
  rewrite bool_decide_eq_true_2 by done. cbn [guard_or mbind result_mbind].
  unfold check_status. rewrite Fs by (apply (bool_decide_unpack _); by vm_compute). cbn [mbind result_mbind].
  change (find_descendant root "Assertion") with (Some ([] : list nat, root)). cbn [require ok_or mbind result_mbind].
  rewrite Hc. cbn [mbind result_mbind].
  change (child root "Issuer") with (Some (leaf "Issuer" (idp_entity_id sp))). cbn [fmap option_fmap option_map default].
  rewrite text_leaf by done. rewrite bool_decide_eq_true_2 by done. cbn [guard_or mbind result_mbind].
  assert (check_conditions sp now root = Ok ()) as -> by done. cbn [mbind result_mbind].
  assert (check_subject sp now root = Ok ()) as -> by done. cbn [mbind result_mbind].
  change (child root "Subject") with (Some (plain "Subject" [NElement (leaf "NameID" name)])). cbn [mbind option_bind].
  change (find_descendant (plain "Subject" [NElement (leaf "NameID" name)]) "NameID") with (Some ([0%nat], leaf "NameID" name)).
  cbn [require ok_or mbind result_mbind]. rewrite text_leaf by done. by eexists.
Qed.

Lemma canon_plain local a ns :
  a = [] ∨ (∃ n v, a = [mkAttr None n v]) →
  canon (mkElement None local [] a ns) ∅ ∅ [] = mkElement None local [] a (merge (canon_node ∅ ∅ [] <$> ns)).
Proof. intros Ha. rewrite canon_eq. by destruct Ha as [-> | (n & v & ->)]. Qed.

Lemma canon_leaf local t : t ≠ "" → canon (leaf local t) ∅ ∅ [] = leaf local t.
Proof.
  intros Ht. unfold leaf, plain. rewrite canon_plain by by left. cbn [fmap list_fmap canon_node merge].
  unfold add_text. by rewrite bool_decide_eq_false_2.
Qed.

Lemma canon_with_alg local alg : canon (with_alg local alg) ∅ ∅ [] = with_alg local alg.
Proof. unfold with_alg. rewrite canon_plain by (right; by eexists _, _). done. Qed.

Lemma canon_plain_elements local (cs : list Element) :
  (∀ c, c ∈ cs → canon c ∅ ∅ [] = c) → canon (plain local (NElement <$> cs)) ∅ ∅ [] = plain local (NElement <$> cs).
Proof.
  intros H. unfold plain. rewrite canon_plain by by left. f_equal. induction cs as [|c cs IH]; [done|].
  change (NElement (canon c ∅ ∅ []) :: merge (canon_node ∅ ∅ [] <$> (NElement <$> cs)) = NElement c :: (NElement <$> cs)).
  rewrite (H c) by by left. rewrite IH; [done|]. intros. apply H. by right.
Qed.

Lemma canon_info dv : dv ≠ "" → canon (forged_info dv) ∅ ∅ [] = forged_info dv.
Proof.
  intros Hd. apply (canon_plain_elements "SignedInfo"
    [with_alg "CanonicalizationMethod" C14N_EXCL; with_alg "SignatureMethod" "#rsa-sha256"; forged_reference dv]).
  intros c Hc. rewrite !elem_of_cons in Hc.
  destruct Hc as [-> | [-> | [-> |Hc%elem_of_nil]]]; [apply canon_with_alg|apply canon_with_alg| |done].
  apply (canon_plain_elements "Reference" [plain "Transforms" [NElement (with_alg "Transform" ENVELOPED)]; leaf "DigestValue" dv]).
  intros c Hc. rewrite !elem_of_cons in Hc. destruct Hc as [-> | [-> |Hc%elem_of_nil]]; [|by apply canon_leaf|done].
  apply (canon_plain_elements "Transforms" [with_alg "Transform" ENVELOPED]). intros c ->%list_elem_of_singleton. apply canon_with_alg.
Qed.

Lemma canon_forged issuer name sig dv :
  canon sig ∅ ∅ [] = sig → issuer ≠ "" → name ≠ "" → dv ≠ "" →
  canon (forged issuer name sig dv) ∅ ∅ [] = forged issuer name sig dv.
Proof.
  intros Hs Hi Hn Hd.
  apply (canon_plain_elements "Assertion" [leaf "Issuer" issuer; plain "Subject" [NElement (leaf "NameID" name)]; forged_signature sig dv]).
  intros c Hc. rewrite !elem_of_cons in Hc. destruct Hc as [-> | [-> | [-> |Hc%elem_of_nil]]]; [by apply canon_leaf|..|done].
  - apply (canon_plain_elements "Subject" [leaf "NameID" name]). intros c ->%list_elem_of_singleton. by apply canon_leaf.
  - apply (canon_plain_elements "Signature" [sig; forged_info dv]).
    intros c Hc. rewrite !elem_of_cons in Hc. destruct Hc as [-> | [-> |Hc%elem_of_nil]]; [done|by apply canon_info|done].
Qed.

(** Names without a prefix, checked by computation. *)
Definition plain_name (l : string) : bool :=
  forallb name_byte (as_bytes l) && valid_utf8 (as_bytes l) && bool_decide (COLON ∉ as_bytes l) &&
  negb (starts_with (as_bytes "!") (as_bytes l)).

Lemma plain_name_ok l : plain_name l = true → name_ok None l ∧ start_ok l.
Proof.
  unfold plain_name. intros [[[F Hv]%andb_true_iff Hc%bool_decide_eq_true]%andb_true_iff Hs%negb_true_iff]%andb_true_iff.
  split; [split; [|done]|].
  - apply Forall_forall. intros b Hb. rewrite forallb_forall in F. by apply F, list_elem_of_In.
  - assert (∀ pat, starts_with (as_bytes "!" ++ pat) (as_bytes l) = false) as H.
    { intros pat. destruct (as_bytes l) as [|b bs]; [done|]. cbn in *. by destruct (bool_decide (x21 = b)). }
    split; [apply (H (as_bytes "--"))|apply (H (as_bytes "[CDATA["))].
Qed.

Lemma wf_plain local (cs : list Element) : plain_name local = true → (∀ c, c ∈ cs → wf c) → wf (plain local (NElement <$> cs)).
Proof.
  intros [Hn Hs]%plain_name_ok Hc. constructor; try done.
  - intros c (c' & [= ->] & Hin)%list_elem_of_fmap. by apply Hc.
  - intros t (c' & [=] & _)%list_elem_of_fmap.
Qed.

Lemma wf_leaf local t : plain_name local = true → str_ok t → wf (leaf local t).
Proof.
  intros [Hn Hs]%plain_name_ok Ht. constructor; try done; intros x ?%list_elem_of_singleton; [done|]. congruence.
Qed.

Lemma wf_with_alg local alg : plain_name local = true → str_ok alg → wf (with_alg local alg).
Proof.
  intros [Hn Hs]%plain_name_ok Ha. constructor; try done; try (by intros ? ?%elem_of_nil). constructor; [|done].
  split; [|done|done]. split; [|done|done]. by apply plain_name_ok.
Qed.

Lemma wf_info dv : str_ok dv → wf (forged_info dv).
Proof.
  intros Hd.
  apply (wf_plain "SignedInfo"
    [with_alg "CanonicalizationMethod" C14N_EXCL; with_alg "SignatureMethod" "#rsa-sha256"; forged_reference dv]); [done|].
  intros c Hc. rewrite !elem_of_cons in Hc.
  destruct Hc as [-> | [-> | [-> |Hc%elem_of_nil]]]; [by apply wf_with_alg|by apply wf_with_alg| |done].
  apply (wf_plain "Reference" [plain "Transforms" [NElement (with_alg "Transform" ENVELOPED)]; leaf "DigestValue" dv]); [done|].
  intros c Hc. rewrite !elem_of_cons in Hc. destruct Hc as [-> | [-> |Hc%elem_of_nil]]; [|by apply wf_leaf|done].
  apply (wf_plain "Transforms" [with_alg "Transform" ENVELOPED]); [done|]. intros c ->%list_elem_of_singleton. by apply wf_with_alg.
Qed.

Lemma wf_forged issuer name sig dv : wf sig → str_ok issuer → str_ok name → str_ok dv → wf (forged issuer name sig dv).
Proof.
  intros Hs Hi Hn Hd.
  apply (wf_plain "Assertion" [leaf "Issuer" issuer; plain "Subject" [NElement (leaf "NameID" name)]; forged_signature sig dv]); [done|].
  intros c Hc. rewrite !elem_of_cons in Hc. destruct Hc as [-> | [-> | [-> |Hc%elem_of_nil]]]; [by apply wf_leaf|..|done].
  - apply (wf_plain "Subject" [leaf "NameID" name]); [done|]. intros c ->%list_elem_of_singleton. by apply wf_leaf.
  - apply (wf_plain "Signature" [sig; forged_info dv]); [done|].
    intros c Hc. rewrite !elem_of_cons in Hc. destruct Hc as [-> | [-> |Hc%elem_of_nil]]; [done|by apply wf_info|done].
Qed.

Lemma forged_digest_ok issuer name : str_ok (forged_digest issuer name) ∧ forged_digest issuer name ≠ "".
Proof.
  unfold forged_digest. set (d := sha256 _). split.
  - apply str_ok_bytes, valid_utf8_ascii. eapply Forall_impl; [apply b64_encode_plain|]. simpl. lia.
  - intros E. apply (f_equal as_bytes) in E. unfold as_bytes in E. rewrite list_byte_of_string_of_list_byte in E.
    pose proof (b64_decode_encode d) as Hd. rewrite E in Hd. injection Hd as Hd.
    pose proof (digest_sha256_len (exc_c14n (plain "Assertion" (forged_body issuer name)) [])) as Hl.
    change (length d = 32%nat) in Hl. by rewrite <-Hd in Hl.
Qed.

(** The document that carries the forged tree is accepted. *)
Lemma forged_document sp name sig now :
  captured sp sig → shown name → shown (idp_entity_id sp) →
  ∃ va, verify_response_xml sp
      (string_of_list_byte (exc_c14n (forged (idp_entity_id sp) name sig (forged_digest (idp_entity_id sp) name)) [])) now = Ok va ∧
    va_name_id va = name ∧ va_issuer va = idp_entity_id sp.
Proof.
  intros Hc Hn Hi. destruct (forged_accepted sp name sig now Hc Hn Hi) as (va & E & H1 & H2).
  destruct (forged_digest_ok (idp_entity_id sp) name) as [Dv Dne]. exists va. split; [|done]. unfold verify_response_xml.
  rewrite parse_c14n; [|by apply wf_forged; [apply Hc|apply Hi|apply Hn|]|done|done]. cbn [map_err mbind result_mbind].
  rewrite canon_forged; [done|apply Hc|apply Hi|apply Hn|done].
Qed.

(** One signature is enough to be anyone. *)
Theorem one_signature_forges_all (sp : SamlSp) (sig : Element) (name : string) (now : Z) :
  captured sp sig → shown name → shown (idp_entity_id sp) →
  ∃ doc va, verify_response_xml sp doc now = Ok va ∧ va_name_id va = name ∧ va_issuer va = idp_entity_id sp.
Proof.
  intros Hc Hn Hi. destruct (forged_document sp name sig now Hc Hn Hi) as (va & E & H). by eexists _, va.
Qed.
End forging.

(** ** Acceptance *)

(** What a walk finds is inside the element it started from. *)
Lemma walk_found pred e : ∀ here sc x sc', walk pred here sc e = Some (x, sc') → ∃ q, at_pos e q = Some x ∧ pred (here ++ q) x = true.
Proof.
  induction e as [p l d a ns IH] using element_ind. intros here sc x sc'. rewrite walk_eq.
  destruct (pred here _) eqn:Ep; [intros [= <- <-]; exists []; by rewrite app_nil_r|].
  generalize (enter sc (mkElement p l d a ns)) as sc1. intros sc1. cbn [el_children].
  assert (∀ ms i, (∀ c, NElement c ∈ ms → NElement c ∈ ns) → walk_nodes pred here sc1 i ms = Some (x, sc') →
    ∃ j c q, ms !! j = Some (NElement c) ∧ at_pos c q = Some x ∧ pred (here ++ (i + j)%nat :: q) x = true) as Hn.
  { induction ms as [|m ms IHms]; intros i Hin; [done|]. cbn [walk_nodes].
    assert (walk_nodes pred here sc1 (S i) ms = Some (x, sc') →
      ∃ j c q, (m :: ms) !! j = Some (NElement c) ∧ at_pos c q = Some x ∧ pred (here ++ (i + j)%nat :: q) x = true) as Hnext.
    { intros H. destruct (IHms (S i)) as (j & c & q & Hj & Hq & Hp); [intros; apply Hin; by right|done|].
      exists (S j), c, q. split_and!; [done|done|]. by replace (i + S j)%nat with (S i + j)%nat by lia. }
    destruct m as [c|t]; [|exact Hnext]. destruct (walk pred (here ++ [i]) sc1 c) as [f|] eqn:E; [|exact Hnext].
    intros [= ->]. apply IH in E as (q & Hq & Hp); [|apply Hin; by left]. exists 0%nat, c, q. split_and!; [done|done|].
    rewrite <-app_assoc in Hp. by replace (i + 0)%nat with i by lia. }
  intros H. apply (Hn ns 0%nat) in H as (j & c & q & Hj & Hq & Hp); [|done]. exists (j :: q). cbn [at_pos el_children]. by rewrite Hj.
Qed.

Section acceptance.
Context `{DG : Digests} `{RSA : RsaPkcs1}.

(** The signature [sig] of the element [x] at [pos].  Its digest is in the reference of
    its [SignedInfo] child [si]; RSA covers the first [SignedInfo] anywhere in it, [si'],
    which is [si] if there is no other. *)
Record signature_holds (sp : SamlSp) (root : Element) (pos : list nat) (x sig si ref si' : Element) (sc' : NsScope) : Prop := {
  sh_signature : child x "Signature" = Some sig;
  sh_info : child sig "SignedInfo" = Some si;
  sh_c14n : ∃ m, child si "CanonicalizationMethod" = Some m ∧ attr m "Algorithm" = Some C14N_EXCL;
  sh_algorithm : ∃ m alg, child si "SignatureMethod" = Some m ∧ attr m "Algorithm" = Some (alg +:+ "#rsa-sha256");
  sh_reference : find_el si "Reference" = Some ref;
  sh_refers : ∀ id, attr x "ID" = Some id → attr ref "URI" ∈ [None; Some ""; Some "#"; Some id; Some ("#" +:+ id)];
  sh_enveloped : ∃ ts t, child ref "Transforms" = Some ts ∧ t ∈ children_named ts "Transform" ∧ attr t "Algorithm" = Some ENVELOPED;
  sh_digest : ∃ dv, find_el ref "DigestValue" = Some dv ∧ b64decode (text dv) = Some (sha256 (content root pos x si));
  sh_first : find_with_scope sig is_signed_info = Some (si', sc');
  sh_rsa : ∃ sv sigb, find_el sig "SignatureValue" = Some sv ∧ b64decode (text sv) = Some sigb ∧
    rsa_verify (idp_rsa sp).1 (idp_rsa sp).2 (exc_c14n_scoped si' [] sc') sigb = true;
  sh_covers : (∀ q e, at_pos sig q = Some e → el_local e = "SignedInfo" → e = si) → si' = si;
}.
Definition signed_at (sp : SamlSp) (root : Element) (pos : list nat) (x : Element) : Prop :=
  ∃ sig si ref si' sc', signature_holds sp root pos x sig si ref si' sc'.

(** The first [Conditions] child, and the first audience restriction in it. *)
Definition conditions_hold (sp : SamlSp) (now : Z) (assertion : Element) : Prop :=
  ∀ cond, child assertion "Conditions" = Some cond →
    (∀ v, attr cond "NotBefore" = Some v → ∃ t, parse_instant v = Ok t ∧ (t ≤ i64 (now + leeway_secs sp))%Z) ∧
    (∀ v, attr cond "NotOnOrAfter" = Some v → ∃ t, parse_instant v = Ok t ∧ (i64 (now - leeway_secs sp) < t)%Z) ∧
    ∀ ar, find_el cond "AudienceRestriction" = Some ar →
      ∃ a, a ∈ children_named ar "Audience" ∧ text a = sp_entity_id sp.

(** The first [SubjectConfirmationData] of the first [Subject]. *)
Definition subject_confirmed (sp : SamlSp) (now : Z) (assertion : Element) : Prop :=
  ∀ subj scd, child assertion "Subject" = Some subj → find_el subj "SubjectConfirmationData" = Some scd →
    (∀ v, attr scd "Recipient" = Some v → v = acs_url sp) ∧
    ∀ v, attr scd "NotOnOrAfter" = Some v → ∃ t, parse_instant v = Ok t ∧ (i64 (now - leeway_secs sp) < t)%Z.

(** The first status code, if there is one, is that of success. *)
Definition succeeded (root : Element) : Prop :=
  ∀ st code, find_el root "Status" = Some st → find_el st "StatusCode" = Some code →
    ∃ v, attr code "Value" = Some (v +:+ ":status:Success").

(** The document is a response to accept at the time [now], with what it says. *)
Record acceptable (sp : SamlSp) (doc : string) (now : Z) (va : VerifiedAssertion) (root : Element) (here : list nat)
    (assertion : Element) : Prop := {
  ac_parsed : parse doc = Ok root;
  ac_clear : find_descendant root "EncryptedAssertion" = None;
  ac_status : succeeded root;
  ac_assertion : find_descendant root "Assertion" = Some (here, assertion);
  ac_signed : signed_at sp root here assertion ∨ signed_at sp root [] root;
  ac_issuer : default "" (text <$> child assertion "Issuer") = idp_entity_id sp;
  ac_conditions : conditions_hold sp now assertion;
  ac_subject : subject_confirmed sp now assertion;
  ac_name : ∃ subj n, child assertion "Subject" = Some subj ∧ find_el subj "NameID" = Some n ∧ va_name_id va = text n;
  ac_said : va_issuer va = idp_entity_id sp ∧ va_attributes va = extract_attributes assertion;
}.

Lemma starts_with_split p : ∀ bs, starts_with p bs = true → ∃ r, bs = p ++ r.
Proof.
  induction p as [|x p IH]; intros bs; [by exists bs|]. destruct bs as [|y bs]; cbn [starts_with]; [done|].
  intros [->%bool_decide_eq_true [r ->]%IH]%andb_true_iff. by exists r.
Qed.
Lemma ends_with_app suffix s : ends_with suffix s = true → ∃ p, s = p +:+ suffix.
Proof.
  intros [r H]%starts_with_split. apply (f_equal reverse) in H. rewrite reverse_app, !reverse_involutive in H.
  exists (string_of_list_byte (reverse r)). apply as_bytes_inj. rewrite as_bytes_app, H. f_equal.
  unfold as_bytes. by rewrite list_byte_of_string_of_list_byte.
Qed.

Lemma attr_or_empty_some o local v : attr_or_empty o local = v → v ≠ "" → ∃ e, o = Some e ∧ attr e local = Some v.
Proof. unfold attr_or_empty. destruct o as [e|]; simpl; [|congruence]. destruct (attr e local) as [w|] eqn:E; simpl; [|congruence]. intros ->. by exists e. Qed.

Lemma transforms_enveloped ref : (transforms ref).1 = true →
  ∃ ts t, child ref "Transforms" = Some ts ∧ t ∈ children_named ts "Transform" ∧ attr t "Algorithm" = Some ENVELOPED.
Proof.
  unfold transforms. destruct (child ref "Transforms") as [ts|]; [|done]. intros H. exists ts.
  assert (∀ l st, (fold_left transform_step l st).1 = true → st.1 = true ∨ ∃ t, t ∈ l ∧ attr t "Algorithm" = Some ENVELOPED) as Hf.
  { induction l as [|t l IH]; intros st; cbn [fold_left]; [by left|]. intros [Hs|(t' & Ht & Ha)]%IH; [|right; exists t'; split; [by right|done]].
    revert Hs. unfold transform_step at 1. case_bool_decide as Ha.
    - intros _. right. exists t. split; [by left|]. by apply attr_or_empty_some in Ha as (e & [= ->] & Ha).
    - case_bool_decide; [|by left]. destruct (find_descendant _ _) as [[q inc]|]; by left. }
  apply Hf in H as [H|(t & Ht & Ha)]; [done|by exists t].
Qed.

(** The checks of the reference. *)
Lemma check_reference_sound si x r incl : check_reference si (attr x "ID") = Ok (r, incl) →
  (∃ m, child si "CanonicalizationMethod" = Some m ∧ attr m "Algorithm" = Some C14N_EXCL) ∧
  (∃ m alg, child si "SignatureMethod" = Some m ∧ attr m "Algorithm" = Some (alg +:+ "#rsa-sha256")) ∧
  (∀ id, attr x "ID" = Some id → attr r "URI" ∈ [None; Some ""; Some "#"; Some id; Some ("#" +:+ id)]).
Proof.
  unfold check_reference. intros ([] & Hc%guard_or_ok%bool_decide_eq_true & H)%bind_ok.
  apply bind_ok in H as ([] & Ha%guard_or_ok & H). apply bind_ok in H as ([p r'] & _ & H). apply bind_ok in H as ([] & Hu%guard_or_ok & H).
  destruct (transforms r') as [env inc]. apply bind_ok in H as ([] & _ & H). injection H as -> ->.
  split; [by apply attr_or_empty_some in Hc|]. split.
  { apply ends_with_app in Ha as [alg Ha]. apply attr_or_empty_some in Ha as (m & Hm & Ha); [by exists m, alg|].
    intros E. apply (f_equal as_bytes) in E. rewrite as_bytes_app in E. by destruct (as_bytes alg). }
  intros id Hid. rewrite Hid in Hu. destruct (attr r "URI") as [uri|]; [|by left]. right. change (default "" (Some uri)) with uri in Hu.
  destruct (strip_prefix (as_bytes "#") (as_bytes uri)) as [rest|] eqn:Es.
  - apply strip_prefix_text in Es as ->. apply orb_true_iff in Hu as [->%bool_decide_eq_true| ->%bool_decide_eq_true]; set_solver.
  - apply orb_true_iff in Hu as [->%bool_decide_eq_true| ->%bool_decide_eq_true]; set_solver.
Qed.

Lemma check_signature_holds sp root pos x sig : at_pos root pos = Some x → child x "Signature" = Some sig →
  check_signature sp root pos (attr x "ID") sig = Ok () → signed_at sp root pos x.
Proof.
  intros Hp Hsig H. destruct (check_signature_ok _ _ _ _ _ _ Hp H) as (si & dv & si' & sc' & sv & sigb & H1 & H2 & H3 & H4 & H5 & H6 & H7).
  unfold check_signature in H. rewrite H1 in H. apply bind_ok in H as (? & [= <-] & H). apply bind_ok in H as ([ref incl] & Er & _).
  destruct (check_reference_ok _ _ _ _ Er) as (Hr & _ & Ht). destruct (check_reference_sound _ _ _ _ Er) as (Hc & Ha & Hu).
  exists sig, si, ref, si', sc'. split; try done.
  - by apply transforms_enveloped.
  - unfold digest_text in H2. rewrite Hr in H2. apply fmap_Some in H2 as (d & Hd & ->). by exists d.
  - by exists sv, sigb.
  - intros Honly. apply walk_found in H4 as (q & Hq & Hi%bool_decide_eq_true). by eapply Honly.
Qed.

Lemma check_after_ok o limit why : check_after o limit why = Ok () → ∀ v, o = Some v → ∃ t, parse_instant v = Ok t ∧ (t ≤ limit)%Z.
Proof.
  intros H v ->. cbn [check_after] in H. apply bind_ok in H as (t & Et & H). apply guard_or_ok, negb_true_iff, Z.ltb_ge in H. by exists t.
Qed.

Lemma check_before_ok o limit why : check_before o limit why = Ok () → ∀ v, o = Some v → ∃ t, parse_instant v = Ok t ∧ (limit < t)%Z.
Proof.
  intros H v ->. cbn [check_before] in H. apply bind_ok in H as (t & Et & H). apply guard_or_ok, negb_true_iff, Z.leb_gt in H. by exists t.
Qed.

Lemma check_conditions_ok sp now assertion : check_conditions sp now assertion = Ok () → conditions_hold sp now assertion.
Proof.
  unfold check_conditions. intros H cond Ec. rewrite Ec in H. apply bind_ok in H as ([] & H1 & H). apply bind_ok in H as ([] & H2 & H).
  apply guard_or_ok in H. split; [by eapply check_after_ok|]. split; [by eapply check_before_ok|].
  intros ar Ear. unfold find_el in Ear. destruct (find_descendant cond _) as [[q ar']|]; [|done]. injection Ear as ->.
  apply existsb_exists in H as (a & Ha%list_elem_of_In & Ht%bool_decide_eq_true). by exists a.
Qed.

Lemma check_subject_ok sp now assertion : check_subject sp now assertion = Ok () → subject_confirmed sp now assertion.
Proof.
  unfold check_subject. intros H subj scd Es Ed. rewrite Es in H. unfold find_el in Ed.
  destruct (find_descendant subj _) as [[q scd']|]; [|done]. injection Ed as ->. apply bind_ok in H as ([] & H1 & H2).
  apply guard_or_ok in H1. split; [|by eapply check_before_ok]. intros v Ev. rewrite Ev in H1. by apply bool_decide_eq_true in H1.
Qed.

Lemma check_status_ok root : check_status root = Ok () → succeeded root.
Proof.
  unfold check_status, succeeded, find_el. intros H st code Es Ec. destruct (find_descendant root _) as [[q st']|]; [|done].
  injection Es as ->. destruct (find_descendant st _) as [[q' code']|]; [|done]. injection Ec as ->.
  apply guard_or_ok, ends_with_app in H as [p H]. exists p. destruct (attr code "Value") as [v|]; simpl in H; [by rewrite H|].
  apply (f_equal as_bytes) in H. rewrite as_bytes_app in H. by destruct (as_bytes p).
Qed.

Lemma try_candidates_ok sp root cs : ∀ e,
  (∀ p x, (p, x) ∈ cs → at_pos root p = Some x) → try_candidates sp root cs e = Ok () →
  ∃ p x, (p, x) ∈ cs ∧ signed_at sp root p x.
Proof.
  induction cs as [|[p x] cs IH]; intros e Hp; [done|]. cbn [try_candidates].
  assert (∀ e, try_candidates sp root cs e = Ok () → ∃ p' x', (p', x') ∈ (p, x) :: cs ∧ signed_at sp root p' x') as Hnext.
  { intros e' H. destruct (IH e') as (p' & x' & Hin & Hs); [intros; apply Hp; by right|done|]. exists p', x'. split; [by right|done]. }
  destruct (direct_signature x) as [sig|] eqn:Ed; [|apply Hnext].
  destruct (check_signature _ _ _ _ sig) as [[]|e'] eqn:Ec; [|apply Hnext]. intros _. exists p, x. split; [by left|].
  eapply check_signature_holds; [apply Hp; by left|exact Ed|exact Ec].
Qed.

Lemma verify_acceptable sp doc now va : verify_response_xml sp doc now = Ok va → ∃ root here assertion, acceptable sp doc now va root here assertion.
Proof.
  unfold verify_response_xml. intros (root & Er & H)%bind_ok. destruct (parse doc) as [root'|e] eqn:Ep; [|done]. injection Er as ->.
  unfold verify_root in H. apply bind_ok in H as ([] & He & H). apply guard_or_ok, bool_decide_eq_true in He.
  apply bind_ok in H as ([] & Hst & H). apply bind_ok in H as ([here assertion] & Ea%require_ok & H).
  apply bind_ok in H as ([] & Hs & H). apply bind_ok in H as ([] & Hi & H). apply guard_or_ok, bool_decide_eq_true in Hi.
  apply bind_ok in H as ([] & Hc & H). apply bind_ok in H as ([] & Hsub & H). apply bind_ok in H as ([q n] & En%require_ok & H).
  injection H as <-. exists root, here, assertion. split; try done.
  - by apply check_status_ok.
  - assert (∀ p x, (p, x) ∈ [(here, assertion); ([], root)] → at_pos root p = Some x) as Hpos.
    { intros p x. rewrite !elem_of_cons, elem_of_nil. intros [[= -> ->] | [[= -> ->] | []]]; [|done].
      by eapply find_descendant_pos. }
    destruct (try_candidates_ok sp root _ _ Hpos Hs) as (p & x & Hin & Hsig). rewrite !elem_of_cons, elem_of_nil in Hin.
    destruct Hin as [[= -> ->] | [[= -> ->] | []]]; auto.
  - by apply check_conditions_ok.
  - by apply check_subject_ok.
  - destruct (child assertion "Subject") as [subj|]; [|done]. cbn [mbind option_bind] in En. exists subj, n. unfold find_el. by rewrite En.
Qed.

(** C19. What acceptance of a SAML response means.  The document parses, contains no
    encrypted assertion and, where it has a status code, that of success.  Its first
    assertion, or the whole response, carries as a child a signature with the expected
    algorithms and the enveloped transform, whose reference names the signed element (or
    nothing) and whose digest is that of the element's canonical content; the pinned RSA
    key has signed the first SignedInfo anywhere in the signature, which is the one with
    that digest when the signature contains no other SignedInfo (when it contains another,
    the digest need not be signed).  The issuer is the pinned one.  Of the first
    Conditions of the assertion both time limits, with the leeway, and the first audience
    restriction hold at the given time, and of the first confirmation data of the first
    subject the recipient and the NotOnOrAfter limit; further ones, and a NotBefore of the
    confirmation, are not looked at, and nothing is asked where these are absent.  The
    name returned is the first NameID of that subject. *)
Theorem saml_accepts (sp : SamlSp) (doc : string) (now : Z) (va : VerifiedAssertion) :
  verify_response_xml sp doc now = Ok va →
  ∃ root here assertion, acceptable sp doc now va root here assertion.
Proof. apply verify_acceptable. Qed.
End acceptance.
