(* ===== verification/SamlToy.v ===== *)
(** The theorems on SAML responses at concrete documents. *)

From Stdlib Require Import ZArith.
From S2P Require Import Prelude Text BTree Backend Toy Primitives Auth Xml XmlTheory Saml SamlTheory.

#[local] Existing Instance toy_digests.
#[local] Existing Instance toy_rsa.

Definition toy_sp : SamlSp := mkSp "https://git" "https://git/acs" "https://idp" ([x01], [x02]) 120.

(** A signature as an identity provider writes it. *)
Definition honest_signature (dv : string) : Element :=
  plain "Signature" (NElement <$> [forged_info dv; leaf "SignatureValue" "AQI="]).
Definition honest (issuer name : string) : Element :=
  plain "Assertion" (forged_body issuer name ++ [NElement (honest_signature (forged_digest issuer name))]).

Lemma wf_honest_signature dv : str_ok dv → wf (honest_signature dv).
Proof.
  intros Hd. apply wf_plain; [done|]. intros c Hc. rewrite !elem_of_cons in Hc.
  destruct Hc as [-> | [-> |Hc%elem_of_nil]]; [by apply wf_info|by apply wf_leaf|done].
Qed.

Lemma canon_honest_signature dv : dv ≠ "" → canon (honest_signature dv) ∅ ∅ [] = honest_signature dv.
Proof.
  intros Hd. apply canon_plain_elements. intros c Hc. rewrite !elem_of_cons in Hc.
  destruct Hc as [-> | [-> |Hc%elem_of_nil]]; [by apply canon_info|by apply canon_leaf|done].
Qed.

Lemma honest_rsa dv : check_rsa toy_sp (honest_signature dv) = Ok ().
Proof. reflexivity. Qed.

Lemma toy_captured : captured toy_sp (honest_signature "AA").
Proof.
  constructor; [done|apply honest_rsa|by apply wf_honest_signature|by apply canon_honest_signature|done].
Qed.

Lemma toy_shown s :
  bool_decide (s = "") = false → valid_utf8 (as_bytes s) = true → bool_decide (trim (as_bytes s) = as_bytes s) = true → shown s.
Proof. intros H1%bool_decide_eq_false H2 H3%bool_decide_eq_true. by constructor. Qed.

Lemma one_signature_forges_all_witness :
  captured toy_sp (honest_signature "AA") ∧
  ∃ doc va, verify_response_xml toy_sp doc 0 = Ok va ∧ va_name_id va = "root" ∧ va_issuer va = "https://idp".
Proof.
  split; [exact toy_captured|]. apply (one_signature_forges_all toy_sp (honest_signature "AA") "root" 0); [exact toy_captured|..].
  - by apply toy_shown.
  - by apply toy_shown.
Defined.

Lemma toy_document : ∃ doc va, verify_response_xml toy_sp doc 0 = Ok va ∧ va_name_id va = "root".
Proof.
  assert (shown "root") as Hr by by apply toy_shown. assert (shown (idp_entity_id toy_sp)) as Hi by by apply toy_shown.
  destruct (forged_document toy_sp "root" (honest_signature "AA") 0 toy_captured Hr Hi) as (va & E & Hn & _).
  eexists _, va. exact (conj E Hn).
Qed.

Lemma saml_accepts_witness :
  ∃ doc va, verify_response_xml toy_sp doc 0 = Ok va ∧ va_name_id va = "root" ∧
    ∃ root here assertion, acceptable toy_sp doc 0 va root here assertion.
Proof.
  destruct toy_document as (doc & va & E & Hn). exists doc, va. split; [exact E|]. split; [exact Hn|].
  exact (saml_accepts _ _ _ _ E).
Defined.

(** The same assertion alone and inside a response. *)
Definition response (a : Element) : Element := plain "Response" (NElement <$> [leaf "Destination" "x"; a]).

Lemma strip_honest issuer name : strip_signature (honest issuer name) = plain "Assertion" (forged_body issuer name).
Proof. by rewrite !strip_eq. Qed.

Lemma honest_checks root here issuer name :
  at_pos root here = Some (honest issuer name) → scope_at ∅ root here = ∅ →
  check_signature toy_sp root here None (honest_signature (forged_digest issuer name)) = Ok ().
Proof.
  intros Hp Hs. unfold check_signature.
  change (child (honest_signature (forged_digest issuer name)) "SignedInfo") with (Some (forged_info (forged_digest issuer name))).
  cbn [require ok_or mbind result_mbind]. rewrite forged_reference_ok. cbn [mbind result_mbind].
  assert (check_digest root here None (forged_reference (forged_digest issuer name)) [] = Ok ()) as ->; [|apply honest_rsa].
  unfold check_digest. rewrite (locate_pos _ _ _ _ Hp), Hs. cbn [require ok_or mbind result_mbind].
  unfold exc_c14n_enveloped_scoped. rewrite strip_honest.
  change (find_descendant (forged_reference (forged_digest issuer name)) "DigestValue")
    with (Some ([1%nat], leaf "DigestValue" (forged_digest issuer name))).
  cbn [require ok_or mbind result_mbind]. rewrite forged_digest_text. cbn [require ok_or mbind result_mbind].
  unfold exc_c14n. by rewrite bool_decide_eq_true_2.
Qed.

Lemma wf_honest issuer name : str_ok issuer → str_ok name → wf (honest issuer name).
Proof.
  intros Hi Hn. apply (wf_plain "Assertion" [leaf "Issuer" issuer; plain "Subject" [NElement (leaf "NameID" name)];
    honest_signature (forged_digest issuer name)]); [done|].
  intros c Hc. rewrite !elem_of_cons in Hc. destruct Hc as [-> | [-> | [-> |Hc%elem_of_nil]]]; [by apply wf_leaf|..|done].
  - apply (wf_plain "Subject" [leaf "NameID" name]); [done|]. intros c ->%list_elem_of_singleton. by apply wf_leaf.
  - apply wf_honest_signature, forged_digest_ok.
Qed.

Lemma wf_response a : wf a → wf (response a).
Proof.
  intros Ha. apply wf_plain; [done|]. intros c Hc. rewrite !elem_of_cons in Hc.
  destruct Hc as [-> | [-> |Hc%elem_of_nil]]; [by apply wf_leaf|done..].
Qed.

Lemma proper_honest root here issuer name :
  wf root → at_pos root here = Some (honest issuer name) → scope_at ∅ root here = ∅ →
  proper toy_sp root here (honest issuer name) (honest_signature (forged_digest issuer name))
    (forged_info (forged_digest issuer name)) ∅.
Proof. intros Hw Hp Hs. constructor; [done|done|done| |done|done]. exists None. by apply honest_checks. Qed.

Lemma signature_fixes_content_witness :
  let a := honest "https://idp" "alice" in let si := forged_info (forged_digest "https://idp" "alice") in
  proper toy_sp a [] a (honest_signature (forged_digest "https://idp" "alice")) si ∅ ∧
  content_tree a [] a si = content_tree (response a) [1%nat] a si.
Proof.
  intros a si. assert (wf a) as Ha by by apply wf_honest.
  assert (proper toy_sp a [] a (honest_signature (forged_digest "https://idp" "alice")) si ∅) as Hp by by apply proper_honest.
  split; [exact Hp|].
  eapply (signature_fixes_content toy_sp toy_sp a (response a) [] [1%nat] a a _ _ si si ∅ ∅ Hp).
  - apply proper_honest; [by apply wf_response|reflexivity|reflexivity].
  - reflexivity.
  - intros x y Hx Hy _. rewrite !elem_of_cons, elem_of_nil in Hx, Hy.
    destruct Hx as [-> | [-> | []]], Hy as [-> | [-> | []]]; reflexivity.
Defined.

(** Declarations, attributes and text, in another order than the canonical one. *)
Definition toy_xml : string := "<a:r y='2' x='1' xmlns:a='u'>t&amp;<b/></a:r>".

Lemma parse_c14n_roundtrip_witness :
  ∃ e, parse toy_xml = Ok e ∧ parse (string_of_list_byte (exc_c14n e [])) = Ok (canon e ∅ ∅ []).
Proof.
  eexists. assert (parse toy_xml = Ok (mkElement (Some "a") "r" [(Some "a", "u")] [mkAttr None "y" "2"; mkAttr None "x" "1"]
    [NText "t&"; NElement (mkElement None "b" [] [] [])])) as E by reflexivity.
  split; [exact E|]. exact (parse_c14n_roundtrip toy_xml _ [] E).
Defined.
