(* ===== verification/Sso.v ===== *)
(** [bins/secgit-server/src/sso.rs]: the SCIM backend over the identity directory and
    the encrypted store, and the routes of SCIM and SAML.  The lock of the identity
    makes each request one step. *)

From Stdlib Require Import ZArith.
From S2P Require Import Prelude Text BTree Backend Toy Primitives ObjectStore Identity DirectoryStore Auth Http Authz.
From S2P Require Import Json Scim Xml Saml.

Definition SCIM_NS : string := "_scim".

Record ScimProfile := mkProfile {
  pf_active : bool;
  pf_external_id : option string;
  pf_display_name : option string;
}.

(** The order in which a [HashMap] is iterated is not specified. *)
Class HashOrder := {
  hash_values : ∀ {A}, gmap string A → list A;
  hash_values_perm : ∀ A (m : gmap string A), hash_values m ≡ₚ (map_to_list m).*2;
}.

(** [e.to_string()]; the text of the store's own error is left out. *)
Definition identity_error_text (e : IdentityError) : string :=
  match e with
  | IdAuthFailed => "authentication failed"
  | NotFound id => "not found: " +:+ id
  | Exists id => "already exists: " +:+ id
  | IdCrypto => "crypto error"
  | IdStorage => "storage error"
  | IdSerde why => "serialization error: " +:+ why
  end.
Definition saml_error_text (e : SamlError) : string :=
  match e with
  | SXml w => "xml parse error: " +:+ w
  | SUnsupported w => "unsupported: " +:+ w
  | SSignature w => "signature invalid: " +:+ w
  | SRejected w => "assertion rejected: " +:+ w
  | SConfig w => "bad config: " +:+ w
  | SPanic | SFuel => ""
  end.

(** An [unwrap] of [None]; it does not occur: see [unwraps_hold]. *)
Definition UNWRAP : ScimError := BackendError "called `Option::unwrap()` on a `None` value".

Section sso.
Context {St Er : Type} `{OS : ObjectStore St Er} `{RND : SystemRandom} `{DIG : Digests} `{HX : Hex} `{PB : Pbkdf2}.
Context `{RSA : RsaPkcs1} `{HO : HashOrder} `{JT : JsonText}.
Context `{SI : Serde (list string)} `{SU : Serde User} `{SP : Serde ScimProfile} `{SG : Serde ScimGroup}.
(** [StoredGroup] has the fields of [ScimGroup]. *)

(** What the routes use of the server's state: the identity, with the store of its
    directory; the store of the SCIM profiles; and the system's randomness. *)
Record App := mkApp { app_identity : ServerIdentity; app_dir_store : St; app_store : St; app_rng : rng }.

Definition sessions (a : App) : SessionStore := si_sessions (app_identity a).
Definition users (a : App) : gmap string User := d_users (si_dir (app_identity a)).

Definition with_store (s : St) (a : App) : App := mkApp (app_identity a) (app_dir_store a) s (app_rng a).
Definition with_identity (id : ServerIdentity) (a : App) : App := mkApp id (app_dir_store a) (app_store a) (app_rng a).

Definition rand_id (prefix : string) (a : App) : string * App :=
  let '(r, g) := random_vec 8 (app_rng a) in
  (prefix +:+ hex_encode (match r with Ok v => v | Err _ => replicate 8 x00 end), mkApp (app_identity a) (app_dir_store a) (app_store a) g).

(** A read of the store, any error of which is no value. *)
Definition stored_value (T : Type) `{Serde T} (key : string) (a : App) : option T * App :=
  let '(r, s) := os_get SCIM_NS key (app_store a) in
  (match r with Ok (Some b) => from_slice b | _ => None end, with_store s a).
(** A write or a delete whose error is ignored. *)
Definition store_value {T} `{Serde T} (key : string) (v : T) (a : App) : App :=
  with_store (os_put SCIM_NS key (to_vec v) (app_store a)).2 a.
Definition drop_value (key : string) (a : App) : App := with_store (os_delete SCIM_NS key (app_store a)).2 a.

Definition profile (uid : string) (a : App) : ScimProfile * App :=
  let '(o, a) := stored_value ScimProfile ("profile/" +:+ uid) a in (default (mkProfile true None None) o, a).
Definition write_profile (uid : string) (p : ScimProfile) (a : App) : App := store_value ("profile/" +:+ uid) p a.

Definition to_scim (u : User) (a : App) : ScimUser * App :=
  let '(p, a) := profile (u_id u) a in
  (mkScimUser (u_id u) (u_username u) (pf_display_name p) (if bool_decide (u_email u = "") then None else Some (u_email u))
     (pf_external_id p) (pf_active p), a).

Definition group_get (id : string) (a : App) : option ScimGroup * App := stored_value ScimGroup ("group/" +:+ id) a.
Definition group_index (a : App) : list string * App :=
  let '(o, a) := stored_value (list string) "group/index" a in (default [] o, a).
Definition group_put (g : ScimGroup) (a : App) : App :=
  let a := store_value ("group/" +:+ sg_id g) g a in
  let '(idx, a) := group_index a in
  if contains (sg_id g) idx then a else store_value "group/index" (idx ++ [sg_id g]) a.

(** A method of the directory, on its own store. *)
Definition on_dir {A} (c : eff (Directory * St) IdentityError A) : eff App IdentityError A := λ a,
  let '(r, (d, s)) := c (si_dir (app_identity a), app_dir_store a) in
  (r, mkApp {| si_dir := d; si_local := si_local (app_identity a); si_sessions := sessions a |} s (app_store a) (app_rng a)).

Definition revoke (id : string) (a : App) : App := with_identity (with_live (revoke_all_for id (sessions a)) (app_identity a)) a.

Definition backend_get_user (id : string) (a : App) : option ScimUser * App :=
  match users a !! id with
  | Some u => let '(su, a) := to_scim u a in (Some su, a)
  | None => (None, a)
  end.

(** [Ok(self.get_user(id).unwrap())]. *)
Definition answer_user (id : string) : eff App ScimError ScimUser := λ a,
  let '(o, a) := backend_get_user id a in (ok_or UNWRAP o, a).

Definition profile_of (u : ScimUser) : ScimProfile := mkProfile (su_active u) (su_external_id u) (su_display_name u).
Definition user_of (id : string) (u : ScimUser) : User :=
  {| u_id := id; u_username := su_user_name u; u_email := default "" (su_email u) |}.

Definition modify (f : App → App) : eff App ScimError unit := λ a, (Ok (), f a).
Definition backend_error (e : IdentityError) : ScimError := BackendError (identity_error_text e).

Definition backend_create_user (u : ScimUser) : eff App ScimError ScimUser := λ a,
  let '(uid, a) := rand_id "u_" a in
  (_ ← eff_map_err backend_error (on_dir (DirectoryStore.create_user (user_of uid u)));
   _ ← modify (write_profile uid (profile_of u));
   answer_user uid) a.

(** [self.identity.dir.list_users()]. *)
Definition all_users (a : App) : list User := hash_values (users a).

Definition backend_find_user_by_username (name : string) (a : App) : option ScimUser * App :=
  match list_find (λ u, u_username u = name) (all_users a) with
  | Some (_, u) => backend_get_user (u_id u) a
  | None => (None, a)
  end.

Fixpoint map_state {A B} (f : A → App → B * App) (l : list A) (a : App) : list B * App :=
  match l with
  | [] => ([], a)
  | x :: l => let '(y, a) := f x a in let '(ys, a) := map_state f l a in (y :: ys, a)
  end.
Definition backend_list_users (a : App) : list ScimUser * App := map_state to_scim (all_users a) a.

(** [if self.identity.dir.get_user(id).is_none() { return Err(NotFound) }]. *)
Definition require_user (id : string) : eff App ScimError unit := λ a,
  (if decide (is_Some (users a !! id)) then Ok () else Err ScimNotFound, a).

Definition backend_replace_user (id : string) (u : ScimUser) : eff App ScimError ScimUser :=
  _ ← require_user id;
  _ ← eff_map_err backend_error (on_dir (pd_update_user (user_of id u)));
  _ ← modify (write_profile id (profile_of u));
  _ ← modify (λ a, if su_active u then a else revoke id a);
  answer_user id.

Definition set_active (active : bool) (p : ScimProfile) : ScimProfile :=
  mkProfile active (pf_external_id p) (pf_display_name p).
Definition backend_set_user_active (id : string) (active : bool) : eff App ScimError ScimUser :=
  _ ← require_user id;
  _ ← modify (λ a, let '(p, a) := profile id a in write_profile id (set_active active p) a);
  _ ← modify (λ a, if active then a else revoke id a);
  answer_user id.

Definition backend_delete_user (id : string) : eff App ScimError unit :=
  _ ← eff_map_err (λ _, ScimNotFound) (on_dir (DirectoryStore.delete_user id));
  _ ← modify (drop_value ("profile/" +:+ id));
  modify (revoke id).

Definition backend_create_group (g : ScimGroup) : eff App ScimError ScimGroup := λ a,
  let '(gid, a) := rand_id "g_" a in
  let g := group_with_id gid g in (Ok g, group_put g a).

Definition require_group (id : string) : eff App ScimError unit := λ a,
  let '(o, a) := group_get id a in (match o with Some _ => Ok () | None => Err ScimNotFound end, a).

Definition backend_list_groups (a : App) : list ScimGroup * App :=
  let '(idx, a) := group_index a in
  let '(os, a) := map_state group_get idx a in (omap id os, a).

Definition backend_replace_group (id : string) (g : ScimGroup) : eff App ScimError ScimGroup :=
  _ ← require_group id;
  let g := group_with_id id g in
  _ ← modify (group_put g); mret g.

Definition backend_delete_group (id : string) : eff App ScimError unit :=
  _ ← require_group id;
  _ ← modify (drop_value ("group/" +:+ id));
  modify (λ a, let '(idx, a) := group_index a in store_value "group/index" (filter (λ x, x ≠ id) idx) a).

#[global] Instance server_backend : ScimBackend App := {|
  sb_create_user := backend_create_user;
  sb_get_user := backend_get_user;
  sb_find_user_by_username := backend_find_user_by_username;
  sb_list_users := backend_list_users;
  sb_replace_user := backend_replace_user;
  sb_set_user_active := backend_set_user_active;
  sb_delete_user := backend_delete_user;
  sb_create_group := backend_create_group;
  sb_get_group := group_get;
  sb_list_groups := backend_list_groups;
  sb_replace_group := backend_replace_group;
  sb_delete_group := backend_delete_group;
|}.

(** ** Routes *)

Record SsoConfig := mkSso { scim_token : option string; external_base_url : string; cfg_saml : option SamlSp }.

Definition status_reason (status : N) : string :=
  if bool_decide (status = 200) then "OK"
  else if bool_decide (status = 201) then "Created"
  else if bool_decide (status = 204) then "No Content"
  else if bool_decide (status = 400) then "Bad Request"
  else if bool_decide (status = 401) then "Unauthorized"
  else if bool_decide (status = 404) then "Not Found"
  else if bool_decide (status = 409) then "Conflict"
  else "Internal Server Error".

Definition token_accepted (expected presented : string) : bool :=
  negb (bool_decide (presented = "")) && ct_eq (as_bytes presented) (as_bytes expected).

Definition route_scim (cfg : SsoConfig) (req : Request) (a : App) : option Response * App :=
  match strip_prefix (as_bytes "/scim/v2/") (as_bytes (rq_path req)) with
  | None => (None, a)
  | Some rest =>
      match scim_token cfg with
      | None => (Some (response_text 503 "Service Unavailable" "SCIM not configured"), a)
      | Some expected =>
          if negb (token_accepted expected (default "" (bearer_token req)))
          then (Some (with_header "WWW-Authenticate" "Bearer" (response_text 401 "Unauthorized" "invalid provisioning token")), a)
          else
            let base := scim_base (external_base_url cfg +:+ "/scim/v2") in
            let '(r, a) := dispatch base (rq_method req) (string_of_list_byte rest) (rq_query req !! "filter") (rq_body req) a in
            let body := match sr_body r with VNull => [] | v => json_to_string v end in
            (Some (response_new (sr_status r) (status_reason (sr_status r)) "application/scim+json" body), a)
      end
  end.

Definition acs_usage : string :=
  "Send as 'Authorization: Bearer <session_token>' or as the HTTP Basic password for git.".
Definition acs_json (uid username token : string) : Value :=
  json [("authenticated", VBool true); ("user_id", VString uid); ("username", VString username);
        ("session_token", VString token); ("usage", VString acs_usage)].

(** The user a verified assertion names: an existing one with that name, else a new one. *)
Definition saml_username (va : VerifiedAssertion) : string := default (va_name_id va) (email va).
Definition jit_user (va : VerifiedAssertion) : eff App IdentityError string := λ a,
  match list_find (λ u, u_username u = saml_username va) (all_users a) with
  | Some (_, u) => (Ok (u_id u), a)
  | None =>
      let '(id, a) := rand_id "u_" a in
      (_ ← on_dir (DirectoryStore.create_user
             {| u_id := id; u_username := saml_username va; u_email := default "" (email va) |}); mret id) a
  end.

(** [identity.sessions.create(&uid, true)]. *)
Definition mint_session (uid : string) (now : N) : eff App IdentityError string := λ a,
  let '(r, (st, g)) := session_create uid true now (sessions a, app_rng a) in
  (r, mkApp (with_live st (app_identity a)) (app_dir_store a) (app_store a) g).

(** [None]: the server aborts.  [now] is read for the assertion, [now'] for the
    session. *)
Definition route_saml_acs (cfg : SsoConfig) (req : Request) (now : Z) (now' : N) (a : App) : option Response * App :=
  match cfg_saml cfg with
  | None => (Some (response_text 503 "Service Unavailable" "SAML not configured"), a)
  | Some sp =>
      match form req with
      | None => (None, a)
      | Some f =>
          match f !! "SAMLResponse" with
          | None => (Some (response_text 400 "Bad Request" "missing SAMLResponse"), a)
          | Some saml_response =>
              match verify_b64_response sp saml_response now with
              | Err SPanic | Err SFuel => (None, a)
              | Err e => (Some (response_text 401 "Unauthorized" ("SAML rejected: " +:+ saml_error_text e)), a)
              | Ok va =>
                  match jit_user va a with
                  | (Err e, a) => (Some (response_text 500 "Internal Server Error" ("provision: " +:+ identity_error_text e)), a)
                  | (Ok uid, a) =>
                      match mint_session uid now' a with
                      | (Ok token, a) => (Some (response_json (json_to_string (acs_json uid (saml_username va) token))), a)
                      | (Err e, a) => (Some (response_text 500 "Internal Server Error" ("session: " +:+ identity_error_text e)), a)
                      end
                  end
              end
          end
      end
  end.

(** An attribute as it is written in the metadata: the value is not escaped. *)
Definition metadata_attr (name value : string) : string :=
  " " +:+ name +:+ "=" +:+ string_of_list_byte [QUOTE] +:+ value +:+ string_of_list_byte [QUOTE].
Definition metadata_line (l : string) : string := l +:+ string_of_list_byte [NL].
Definition metadata_xml (entity acs : string) : string :=
  metadata_line ("<?xml" +:+ metadata_attr "version" "1.0" +:+ "?>") +:+
  metadata_line ("<EntityDescriptor" +:+ metadata_attr "xmlns" "urn:oasis:names:tc:SAML:2.0:metadata" +:+
    metadata_attr "entityID" entity +:+ ">") +:+
  metadata_line ("  <SPSSODescriptor" +:+ metadata_attr "protocolSupportEnumeration" "urn:oasis:names:tc:SAML:2.0:protocol" +:+
    metadata_attr "AuthnRequestsSigned" "false" +:+ metadata_attr "WantAssertionsSigned" "true" +:+ ">") +:+
  metadata_line ("    <AssertionConsumerService" +:+ metadata_attr "Binding" "urn:oasis:names:tc:SAML:2.0:bindings:HTTP-POST" +:+
    metadata_attr "Location" acs +:+ metadata_attr "index" "0" +:+ "/>") +:+
  metadata_line "  </SPSSODescriptor>" +:+ "</EntityDescriptor>".

Definition saml_metadata (cfg : SsoConfig) : Response :=
  match cfg_saml cfg with
  | None => response_text 503 "Service Unavailable" "SAML not configured"
  | Some sp => response_new 200 "OK" "application/samlmetadata+xml" (as_bytes (metadata_xml (sp_entity_id sp) (acs_url sp)))
  end.
End sso.
