(* ===== verification/Github.v ===== *)
(** [crates/secgit-import/src/lib.rs]: the client of the GitHub API, over a function that
    fetches a URL: paging, the mapping of its JSON, instants. *)

From Stdlib Require Import ZArith.
From S2P Require Import Prelude Text Json Saml.

Inductive ImportError := Fetch (why : string) | Parse (why : string).
Definition import_error_text (e : ImportError) : string :=
  match e with Fetch s => "fetch error: " +:+ s | Parse s => "parse error: " +:+ s end.

Record ImportedRepo := mkImportedRepo {
  ir_full_name : string; ir_name : string; ir_description : string; ir_private : bool; ir_default_branch : string; ir_clone_url : string }.
Record ImportedComment := mkImportedComment { ic_id : N; ic_author : string; ic_body : string; ic_created_at : string }.
Record ImportedIssue := mkImportedIssue {
  ii_number : N; ii_title : string; ii_body : string; ii_author : string; ii_state : string; ii_labels : list string;
  ii_created_at : string; ii_updated_at : string; ii_comments : list ImportedComment }.
Record ImportedPull := mkImportedPull {
  ip_number : N; ip_title : string; ip_body : string; ip_author : string; ip_state : string; ip_merged : bool;
  ip_head_ref : string; ip_base_ref : string; ip_head_sha : string; ip_created_at : string; ip_updated_at : string }.
Record ImportPlan := mkPlan { plan_repo : ImportedRepo; plan_issues : list ImportedIssue; plan_pulls : list ImportedPull }.

(** ** Parsing *)

Definition str_field (v : Value) (key : string) : string := default "" (get_str key v).
Definition login (v : Value) (key : string) : string := default "" (get key v ≫= get_str "login").

Definition parse_repo (v : Value) : ImportedRepo :=
  let b := str_field v "default_branch" in
  mkImportedRepo (str_field v "full_name") (str_field v "name") (str_field v "description")
    (default true (get "private" v ≫= as_bool)) (if bool_decide (b = "") then "main" else b) (str_field v "clone_url").

Definition label (x : Value) : option string := match get_str "name" x with Some n => Some n | None => as_str x end.
Definition parse_issue (v : Value) : ImportedIssue :=
  mkImportedIssue (default 0 (get "number" v ≫= as_u64)) (str_field v "title") (str_field v "body") (login v "user")
    (str_field v "state") (omap label (default [] (get "labels" v ≫= as_array))) (str_field v "created_at") (str_field v "updated_at") [].

Definition parse_comment (v : Value) : ImportedComment :=
  mkImportedComment (default 0 (get "id" v ≫= as_u64)) (login v "user") (str_field v "body") (str_field v "created_at").

Definition nested (v : Value) (outer inner : string) : string := default "" ((λ h, str_field h inner) <$> get outer v).
Definition parse_pull (v : Value) : ImportedPull :=
  mkImportedPull (default 0 (get "number" v ≫= as_u64)) (str_field v "title") (str_field v "body") (login v "user")
    (str_field v "state") (default false (negb ∘ is_null <$> get "merged_at" v))
    (nested v "head" "ref") (nested v "base" "ref") (nested v "head" "sha") (str_field v "created_at") (str_field v "updated_at").

(** [s.get(a..c).and_then(parse).unwrap_or(0)]. *)
Definition instant_field (s : bytes) (a c : nat) : Z :=
  if char_boundary s a && char_boundary s c then default 0%Z (parse_i64 (take (c - a) (drop a s))) else 0%Z.
Definition instant_to_unix (text : string) : N :=
  let s := as_bytes text in
  if (length s <? 19)%nat || bool_decide (s !! 4%nat ≠ Some x2d) || bool_decide (s !! 10%nat ≠ Some x54) then 0
  else
    let n (a c : nat) := instant_field s a c in
    let days := days_from_civil (n 0 4)%nat (n 5 7)%nat (n 8 10)%nat in
    let '(h, mi, se) := (n 11 13, n 14 16, n 17 19)%nat in
    Z.to_N (Z.max (days * 86400 + h * 3600 + mi * 60 + se) 0).

(** ** The client *)

Section client.
Context `{JT : JsonText}.

Record GithubClient := mkClient { gc_fetch : string → result ImportError bytes; gc_api_base : string; gc_per_page : N; gc_max_pages : N }.
Definition client_new (fetch : string → result ImportError bytes) : GithubClient := mkClient fetch "https://api.github.com" 100 100.
(** [base.trim_end_matches('/')]. *)
Definition with_api_base (base : string) (c : GithubClient) : GithubClient :=
  mkClient (gc_fetch c) (string_of_list_byte (reverse (drop_while (λ b, bool_decide (b = x2f)) (reverse (as_bytes base)))))
    (gc_per_page c) (gc_max_pages c).

Definition get_json (c : GithubClient) (url : string) : result ImportError Value :=
  b ← gc_fetch c url; map_err Parse (json_from_slice b).

Definition page_url (c : GithubClient) (path_with_query : string) (page : N) : string :=
  gc_api_base c +:+ path_with_query +:+ (if contains_text (as_bytes path_with_query) (as_bytes "?") then "&" else "?") +:+
  "per_page=" +:+ pretty (gc_per_page c) +:+ "&page=" +:+ pretty page.

(** The pages from [page] on, at most [fuel] of them; a length is taken [as u32]. *)
Fixpoint paginate_loop (c : GithubClient) (path_with_query : string) (fuel : nat) (page : N) : result ImportError (list Value) :=
  match fuel with
  | O => Ok []
  | S fuel =>
      v ← get_json c (page_url c path_with_query page);
      arr ← ok_or (Parse "expected JSON array") (as_array v);
      if bool_decide (arr = []) then Ok []
      else if N.of_nat (length arr) mod 2 ^ 32 <? gc_per_page c then Ok arr
      else rest ← paginate_loop c path_with_query fuel (page + 1); Ok (arr ++ rest)
  end.
Definition paginate (c : GithubClient) (path_with_query : string) : result ImportError (list Value) :=
  paginate_loop c path_with_query (N.to_nat (gc_max_pages c)) 1.

Definition client_repo (c : GithubClient) (owner name : string) : result ImportError ImportedRepo :=
  v ← get_json c (gc_api_base c +:+ "/repos/" +:+ owner +:+ "/" +:+ name); Ok (parse_repo v).

Definition issue_comments (c : GithubClient) (owner name : string) (number : N) : result ImportError (list ImportedComment) :=
  raw ← paginate c ("/repos/" +:+ owner +:+ "/" +:+ name +:+ "/issues/" +:+ pretty number +:+ "/comments"); Ok (List.map parse_comment raw).

Fixpoint with_comments (c : GithubClient) (owner name : string) (raw : list Value) : result ImportError (list ImportedIssue) :=
  match raw with
  | [] => Ok []
  | v :: raw =>
      if bool_decide (is_Some (get "pull_request" v)) then with_comments c owner name raw
      else
        let i := parse_issue v in
        cs ← issue_comments c owner name (ii_number i);
        rest ← with_comments c owner name raw;
        Ok (mkImportedIssue (ii_number i) (ii_title i) (ii_body i) (ii_author i) (ii_state i) (ii_labels i)
              (ii_created_at i) (ii_updated_at i) cs :: rest)
  end.
Definition client_issues (c : GithubClient) (owner name : string) : result ImportError (list ImportedIssue) :=
  raw ← paginate c ("/repos/" +:+ owner +:+ "/" +:+ name +:+ "/issues?state=all"); with_comments c owner name raw.

Definition client_pulls (c : GithubClient) (owner name : string) : result ImportError (list ImportedPull) :=
  raw ← paginate c ("/repos/" +:+ owner +:+ "/" +:+ name +:+ "/pulls?state=all"); Ok (List.map parse_pull raw).

Definition import_plan (c : GithubClient) (owner name : string) : result ImportError ImportPlan :=
  repo ← client_repo c owner name;
  issues ← client_issues c owner name;
  pulls ← client_pulls c owner name;
  Ok (mkPlan repo issues pulls).
End client.
