(* ===== verification/GithubTheory.v ===== *)
(** The importer's client and the instants: paging collects what the server has, and both
    readers of timestamps (the importer's and SAML's) compute the civil calendar. *)

From Stdlib Require Import ZArith.
From S2P Require Import Prelude Text Json Saml Github.

(** ** The calendar *)

Section calendar.
Open Scope Z_scope.

(** The reference: lengths of months and years, added up from 1970. *)
Definition leap (y : Z) : bool := (y mod 4 =? 0) && negb (y mod 100 =? 0) || (y mod 400 =? 0).
Definition month_days (y : Z) : list Z := [31; if leap y then 29 else 28; 31; 30; 31; 30; 31; 31; 30; 31; 30; 31].
Definition year_days (y : Z) : Z := if leap y then 366 else 365.
Definition sum : list Z → Z := foldr Z.add 0.
Definition civil_days (years : nat) (month : nat) (day : Z) : Z :=
  sum ((λ k, year_days (1970 + Z.of_nat k)) <$> seq 0 years) + sum (take (month - 1) (month_days (1970 + Z.of_nat years))) + day - 1.

Lemma days_closed y m d : 0 < y → 1 ≤ m ≤ 12 →
  days_from_civil y m d =
  (let y' := if m <=? 2 then y - 1 else y in
   365 * y' + y' / 4 - y' / 100 + y' / 400 + (153 * (if 2 <? m then m - 3 else m + 9) + 2) / 5 + d - 1 - 719468).
Proof.
  intros Hy Hm. unfold days_from_civil. cbv zeta. set (y' := if m <=? 2 then y - 1 else y). set (m' := if 2 <? m then m - 3 else m + 9).
  assert (0 ≤ y') by (unfold y'; destruct (m <=? 2); lia). assert (0 ≤ m') by (unfold m'; destruct (Z.ltb_spec 2 m); lia).
  destruct (Z.leb_spec 0 y'); [|lia]. Z.quot_rem_to_equations. Z.to_euclidean_division_equations. lia.
Qed.

Lemma year_step y : 0 < y → days_from_civil (y + 1) 1 1 = days_from_civil y 1 1 + year_days y.
Proof.
  intros Hy. rewrite !days_closed by lia. cbn -[Z.div Z.mul]. unfold year_days, leap.
  destruct (Z.eqb_spec (y mod 4) 0), (Z.eqb_spec (y mod 100) 0), (Z.eqb_spec (y mod 400) 0); cbn;
    Z.to_euclidean_division_equations; lia.
Qed.

Lemma month_step y (m : nat) : 0 < y → (1 ≤ m ≤ 12)%nat →
  days_from_civil y (Z.of_nat m) 1 = days_from_civil y 1 1 + sum (take (m - 1) (month_days y)).
Proof.
  intros Hy Hm. rewrite !days_closed by lia. unfold month_days, leap.
  do 13 (destruct m as [|m]; [try lia;
    match goal with |- context [Z.of_nat ?n] => let z := eval vm_compute in (Z.of_nat n) in change (Z.of_nat n) with z end;
    destruct (Z.eqb_spec (y mod 4) 0), (Z.eqb_spec (y mod 100) 0), (Z.eqb_spec (y mod 400) 0); cbn -[Z.div Z.mul Z.add Z.sub];
    Z.to_euclidean_division_equations; lia|]); lia.
Qed.

Lemma days_from_civil_correct (years month : nat) d : (1 ≤ month ≤ 12)%nat →
  days_from_civil (1970 + Z.of_nat years) (Z.of_nat month) d = civil_days years month d.
Proof.
  intros Hm. unfold civil_days. assert (∀ y m, 0 < y → 1 ≤ m ≤ 12 → days_from_civil y m d = days_from_civil y m 1 + d - 1) as Hd.
  { intros y m Hy Hm'. rewrite !days_closed by lia. cbv zeta. lia. }
  rewrite Hd, month_step by lia. assert (days_from_civil (1970 + Z.of_nat years) 1 1 = sum ((λ k, year_days (1970 + Z.of_nat k)) <$> seq 0 years)) as ->; [|lia].
  induction years as [|n IH]; [reflexivity|]. rewrite seq_S, fmap_app. cbn [fmap list_fmap Nat.add].
  assert (∀ l x, sum (l ++ [x]) = sum l + x) as Hs by (intros l x; induction l as [|z l IHl]; simpl in *; lia).
  rewrite Hs, <-IH, <-year_step by lia. f_equal. lia.
Qed.
End calendar.

(** ** Instants *)

Definition digit (n : N) : byte := byte_of_N (48 + n).
Definition digits2 (n : N) : bytes := [digit (n / 10); digit (n mod 10)].
Definition digits4 (n : N) : bytes := digits2 (n / 100) ++ digits2 (n mod 100).

(** [YYYY-MM-DDThh:mm:ss] and what follows, a [Z] or a fraction. *)
Definition printed_instant (year month day hour min sec : N) (rest : bytes) : bytes :=
  digits4 year ++ x2d :: digits2 month ++ x2d :: digits2 day ++ x54 :: digits2 hour ++ x3a :: digits2 min ++ x3a :: digits2 sec ++ rest.

Lemma digit_cases n (P : N → Prop) : n < 10 → (∀ k, (k < 10)%nat → P (N.of_nat k)) → P n.
Proof. intros Hn H. rewrite <-(N2Nat.id n). apply H. lia. Qed.

Lemma digit_facts n : n < 10 → digit_value (digit n) = Some n ∧ visible (digit n) ∧ in_range 128 191 (digit n) = false.
Proof.
  intros Hn. pattern n. apply digit_cases; [done|]. intros k Hk.
  do 10 (destruct k as [|k]; [unfold visible; vm_compute; auto|]); lia.
Qed.

Lemma parse_i64_digit n s : n < 10 → parse_i64 (digit n :: s) = m ← parse_digits 0 (digit n :: s); if m <? 2 ^ 63 then Some (Z.of_N m) else None.
Proof. intros Hn. pattern n. apply digit_cases; [done|]. intros k Hk. do 10 (destruct k as [|k]; [reflexivity|]); lia. Qed.

Lemma parse_digits_digit acc n s : n < 10 → acc * 10 + n ≤ u64_max → parse_digits acc (digit n :: s) = parse_digits (acc * 10 + n) s.
Proof.
  intros Hn Hu. cbn [parse_digits]. destruct (digit_facts n Hn) as [-> _]. cbn [mbind option_bind].
  destruct (N.ltb_spec u64_max (acc * 10 + n)); [lia|done].
Qed.

Lemma parse_digits2 n : n < 100 → parse_i64 (digits2 n) = Some (Z.of_N n).
Proof.
  intros Hn. unfold digits2. assert (n / 10 < 10 ∧ n mod 10 < 10 ∧ n = n / 10 * 10 + n mod 10) as (H1 & H2 & H3).
  { zify. Z.to_euclidean_division_equations. lia. }
  assert (100 < u64_max) as Hu by done.
  rewrite parse_i64_digit, !parse_digits_digit by lia. cbn [parse_digits mbind option_bind]. rewrite N.mul_0_l, N.add_0_l, <-H3.
  destruct (N.ltb_spec n (2 ^ 63)) as [|Hc]; [done|]. change (2 ^ 63) with 9223372036854775808 in Hc. lia.
Qed.
Lemma parse_digits4 n : n < 10000 → parse_i64 (digits4 n) = Some (Z.of_N n).
Proof.
  intros Hn. unfold digits4, digits2. cbn [app].
  assert (n / 100 / 10 < 10 ∧ (n / 100) mod 10 < 10 ∧ n mod 100 / 10 < 10 ∧ (n mod 100) mod 10 < 10 ∧
    n = ((n / 100 / 10 * 10 + (n / 100) mod 10) * 10 + n mod 100 / 10) * 10 + (n mod 100) mod 10) as (H1 & H2 & H3 & H4 & H5).
  { zify. Z.to_euclidean_division_equations. lia. }
  assert (10000 < u64_max) as Hu by done.
  rewrite parse_i64_digit, !parse_digits_digit by lia. cbn [parse_digits mbind option_bind]. rewrite N.mul_0_l, N.add_0_l, <-H5.
  destruct (N.ltb_spec n (2 ^ 63)) as [|Hc]; [done|]. change (2 ^ 63) with 9223372036854775808 in Hc. lia.
Qed.

Section instants.
Variables (year month day hour min sec : N) (rest : bytes).
Hypothesis (Hyear : year < 10000) (Hmonth : month < 100) (Hday : day < 100) (Hhour : hour < 100) (Hmin : min < 100) (Hsec : sec < 100).
Hypothesis Hrest : Forall visible rest.
Let l := printed_instant year month day hour min sec rest.

Lemma digits_visible : Forall visible l.
Proof.
  assert (∀ n, n < 100 → Forall visible (digits2 n)) as H2.
  { intros n Hn. unfold digits2. repeat constructor; apply digit_facts; zify; Z.to_euclidean_division_equations; lia. }
  unfold l, printed_instant, digits4. repeat (apply Forall_app_2 || (apply Forall_cons_2; [done|])); try done.
  all: apply H2; zify; Z.to_euclidean_division_equations; lia.
Qed.

Lemma boundary i : (i ≤ 19)%nat → char_boundary l i = true.
Proof.
  intros Hi. unfold char_boundary. destruct (l !! i) as [b|] eqn:E.
  - pose proof digits_visible as F. rewrite Forall_forall in F. assert (visible b) as Hv by (apply F, list_elem_of_lookup; eauto).
    unfold in_range, visible in *. destruct (N.leb_spec 128 (Byte.to_N b)); [lia|done].
  - apply lookup_ge_None in E. apply bool_decide_eq_true_2. unfold l, printed_instant, digits4, digits2 in *. simpl in *. lia.
Qed.

Lemma instant_num a c n : (a ≤ 19)%nat → (c ≤ 19)%nat → parse_i64 (take (c - a) (drop a l)) = Some (Z.of_N n) →
  num l a c = Ok (Z.of_N n) ∧ instant_field l a c = Z.of_N n.
Proof. intros Ha Hc E. unfold num, instant_field. rewrite !boundary, E by done. done. Qed.

Lemma instant_nums :
  (num l 0 4 = Ok (Z.of_N year) ∧ instant_field l 0 4 = Z.of_N year) ∧ (num l 5 7 = Ok (Z.of_N month) ∧ instant_field l 5 7 = Z.of_N month) ∧
  (num l 8 10 = Ok (Z.of_N day) ∧ instant_field l 8 10 = Z.of_N day) ∧ (num l 11 13 = Ok (Z.of_N hour) ∧ instant_field l 11 13 = Z.of_N hour) ∧
  (num l 14 16 = Ok (Z.of_N min) ∧ instant_field l 14 16 = Z.of_N min) ∧ (num l 17 19 = Ok (Z.of_N sec) ∧ instant_field l 17 19 = Z.of_N sec).
Proof.
  split_and!; apply instant_num; try lia; first [exact (parse_digits4 year Hyear) | by apply parse_digits2].
Qed.
End instants.

(** The seconds of an instant by the reference calendar. *)
Definition civil_seconds (years month : nat) (day hour min sec : N) : Z :=
  (civil_days years month (Z.of_N day) * 86400 + Z.of_N hour * 3600 + Z.of_N min * 60 + Z.of_N sec)%Z.

Lemma sum_nonneg l : Forall (λ z, 0 <= z)%Z l → (0 <= sum l)%Z.
Proof. induction 1; simpl; lia. Qed.

Lemma civil_seconds_nonneg years month day hour min sec : 1 ≤ day → (0 <= civil_seconds years month day hour min sec)%Z.
Proof.
  intros Hd. unfold civil_seconds, civil_days.
  assert (0 <= sum ((λ k, year_days (1970 + Z.of_nat k)) <$> seq 0 years))%Z.
  { apply sum_nonneg, Forall_fmap, Forall_forall. intros k _. simpl. unfold year_days. destruct (leap _); lia. }
  assert (0 <= sum (take (month - 1) (month_days (1970 + Z.of_nat years))))%Z; [|lia].
  apply sum_nonneg, Forall_take. unfold month_days. destruct (leap _); repeat constructor; lia.
Qed.

(** C10. Timestamps mean what the calendar says: a date and time of the years 1970 to 9999,
    printed as GitHub and the identity providers print them, is read by both readers, SAML's
    and the importer's, as the number of seconds that the Gregorian calendar, counted year
    by year and month by month from 1970, gives it. *)
Theorem instants_read years month day hour min sec rest :
  1970 + N.of_nat years < 10000 → (1 ≤ month ≤ 12)%nat → 1 ≤ day < 100 → hour < 100 → min < 100 → sec < 100 → Forall visible rest →
  let text := string_of_list_byte (printed_instant (1970 + N.of_nat years) (N.of_nat month) day hour min sec rest) in
  parse_instant text = Ok (civil_seconds years month day hour min sec) ∧
  instant_to_unix text = Z.to_N (civil_seconds years month day hour min sec).
Proof.
  intros Hy Hm Hd Hh Hmi Hs Hr text. set (l := printed_instant (1970 + N.of_nat years) (N.of_nat month) day hour min sec rest).
  assert (as_bytes text = l) as Ht by apply list_byte_of_string_of_list_byte.
  destruct (instant_nums (1970 + N.of_nat years) (N.of_nat month) day hour min sec rest ltac:(lia) ltac:(lia) ltac:(lia) Hh Hmi Hs Hr)
    as ((N1 & F1) & (N2 & F2) & (N3 & F3) & (N4 & F4) & (N5 & F5) & N6 & F6). fold l in N1, N2, N3, N4, N5, N6, F1, F2, F3, F4, F5, F6.
  assert (Z.of_N (1970 + N.of_nat years) = 1970 + Z.of_nat years)%Z as Ey by lia. assert (Z.of_N (N.of_nat month) = Z.of_nat month) as Em by lia.
  split.
  - unfold parse_instant. rewrite Ht, trim_word; [|split; [done|apply digits_visible; done || lia]].
    change (l !! 4%nat) with (Some x2d). change (l !! 7%nat) with (Some x2d). change (l !! 10%nat) with (Some x54).
    rewrite !bool_decide_eq_false_2 by congruence. change (length l <? 19)%nat with false. cbn [orb].
    rewrite N1, N2, N3, N4, N5, N6. cbn [mbind result_mbind]. by rewrite Ey, Em, days_from_civil_correct.
  - unfold instant_to_unix. rewrite Ht. change (l !! 4%nat) with (Some x2d). change (l !! 10%nat) with (Some x54).
    rewrite !bool_decide_eq_false_2 by congruence. change (length l <? 19)%nat with false. cbn [orb].
    rewrite F1, F2, F3, F4, F5, F6, Ey, Em, days_from_civil_correct by done. fold (civil_seconds years month day hour min sec).
    rewrite Z.max_l; [done|]. apply civil_seconds_nonneg. lia.
Qed.

(** ** Paging *)

Section paging.
Context `{JT : JsonText}.

(** The server answers page [p] of [path] with the [p]-th piece of [all]. *)
Definition serves (c : GithubClient) (path : string) (all : list Value) : Prop :=
  ∀ p, 1 ≤ p → get_json c (page_url c path p) =
    Ok (VArray (take (N.to_nat (gc_per_page c)) (drop (N.to_nat ((p - 1) * gc_per_page c)) all))).

Lemma paginate_loop_all c path all fuel p : 0 < gc_per_page c < 2 ^ 32 → 1 ≤ p → serves c path all →
  paginate_loop c path fuel p = Ok (take (fuel * N.to_nat (gc_per_page c)) (drop (N.to_nat ((p - 1) * gc_per_page c)) all)).
Proof.
  intros Hc Hp Hs. revert p Hp. induction fuel as [|fuel IH]; intros p Hp; cbn [paginate_loop]; [done|].
  rewrite (Hs p Hp). cbn [mbind result_mbind as_array ok_or]. set (n := N.to_nat (gc_per_page c)) in *.
  set (rest := drop _ all). replace (S fuel * n)%nat with (n + fuel * n)%nat by lia.
  assert (gc_per_page c = N.of_nat n) as En by (unfold n; lia). assert (n ≠ 0%nat) as Hn by lia. case_bool_decide as E.
  { destruct rest; [by rewrite take_nil|]. by destruct n. }
  assert (length (take n rest) ≤ n)%nat as Hle by (rewrite length_take; lia).
  rewrite N.mod_small by lia. destruct (N.ltb_spec (N.of_nat (length (take n rest))) (gc_per_page c)) as [Hlt|Hge].
  - rewrite length_take in Hlt. rewrite !take_ge by lia. done.
  - rewrite IH by lia. cbn [mbind result_mbind]. f_equal. rewrite <-take_take_drop. f_equal. f_equal.
    unfold rest. rewrite drop_drop. f_equal. rewrite <-(Nat2N.id n), <-En, <-N2Nat.inj_add. f_equal. nia.
Qed.

(** Paging stops after at most [max_pages] requests and gives what the server has, up to
    that many pages. *)
Lemma paginate_all c path all : 0 < gc_per_page c < 2 ^ 32 → serves c path all →
  paginate c path = Ok (take (N.to_nat (gc_max_pages c * gc_per_page c)) all).
Proof.
  intros Hc Hs. unfold paginate. rewrite (paginate_loop_all c path all) by done. f_equal. rewrite N.sub_diag, N.mul_0_l. cbn [N.to_nat drop].
  f_equal. lia.
Qed.

Definition repo_url (c : GithubClient) (owner name : string) : string := gc_api_base c +:+ "/repos/" +:+ owner +:+ "/" +:+ name.
Definition issues_path (owner name : string) : string := "/repos/" +:+ owner +:+ "/" +:+ name +:+ "/issues?state=all".
Definition pulls_path (owner name : string) : string := "/repos/" +:+ owner +:+ "/" +:+ name +:+ "/pulls?state=all".
Definition comments_path (owner name : string) (n : N) : string :=
  "/repos/" +:+ owner +:+ "/" +:+ name +:+ "/issues/" +:+ pretty n +:+ "/comments".
Definition page_cap (c : GithubClient) : nat := N.to_nat (gc_max_pages c * gc_per_page c).

Definition set_comments (cs : list ImportedComment) (i : ImportedIssue) : ImportedIssue :=
  mkImportedIssue (ii_number i) (ii_title i) (ii_body i) (ii_author i) (ii_state i) (ii_labels i) (ii_created_at i) (ii_updated_at i) cs.
Definition is_pull (v : Value) : bool := bool_decide (is_Some (get "pull_request" v)).

(** The plan of a repository that is described by [v], with these issues, comments and
    pull requests upstream. *)
Definition planned (cap : nat) (v : Value) (issues : list Value) (comments : N → list Value) (pulls : list Value) : ImportPlan :=
  mkPlan (parse_repo v)
    (List.map (λ i, set_comments (List.map parse_comment (take cap (comments (ii_number (parse_issue i))))) (parse_issue i))
       (List.filter (negb ∘ is_pull) (take cap issues)))
    (List.map parse_pull (take cap pulls)).

Lemma with_comments_all c owner name comments raw : 0 < gc_per_page c < 2 ^ 32 →
  (∀ n, serves c (comments_path owner name n) (comments n)) →
  with_comments c owner name raw =
  Ok (List.map (λ i, set_comments (List.map parse_comment (take (page_cap c) (comments (ii_number (parse_issue i))))) (parse_issue i))
        (List.filter (negb ∘ is_pull) raw)).
Proof.
  intros Hc Hs. induction raw as [|v raw IH]; [done|]. cbn [with_comments List.filter]. unfold compose at 1, is_pull at 1.
  case_bool_decide; cbn [negb]; [exact IH|]. unfold issue_comments. fold (comments_path owner name (ii_number (parse_issue v))).
  rewrite (paginate_all _ _ _ Hc (Hs _)). cbn [mbind result_mbind]. rewrite IH. done.
Qed.

(** An import collects what is upstream, at most [page_cap] of each kind: the description,
    the issues that are not pull requests, each with its comments, and the pull requests. *)
Lemma import_plan_complete c owner name v issues comments pulls : 0 < gc_per_page c < 2 ^ 32 →
  get_json c (repo_url c owner name) = Ok v → serves c (issues_path owner name) issues →
  (∀ n, serves c (comments_path owner name n) (comments n)) → serves c (pulls_path owner name) pulls →
  import_plan c owner name = Ok (planned (page_cap c) v issues comments pulls).
Proof.
  intros Hc Hr Hi Hco Hp. unfold import_plan, client_repo, client_issues, client_pulls.
  fold (repo_url c owner name) (issues_path owner name) (pulls_path owner name). rewrite Hr, (paginate_all _ _ _ Hc Hi), (paginate_all _ _ _ Hc Hp).
  cbn [mbind result_mbind]. by rewrite (with_comments_all _ _ _ _ _ Hc Hco).
Qed.
End paging.

(** The last second of a leap day. *)
Lemma instants_read_witness :
  parse_instant "2024-02-29T23:59:59Z" = Ok 1709251199%Z ∧ instant_to_unix "2024-02-29T23:59:59Z" = 1709251199.
Proof.
  destruct (instants_read 54 2 29 23 59 59 [x5a]) as [H1 H2]; [lia|lia|lia|lia|lia|lia|by repeat constructor|].
  assert (civil_seconds 54 2 29 23 59 59 = 1709251199%Z) as E by reflexivity. rewrite E in H1, H2. split; [exact H1|exact H2].
Defined.
