(* ===== verification/SsoTheory.v ===== *)
(** What the SCIM and SAML routes do to accounts and sessions. *)

From Stdlib Require Import ZArith.
From S2P Require Import SamlTheory.
From S2P Require Import Prelude Text BTree Backend Toy Primitives ObjectStore Identity DirectoryStore Auth Http Authz.
From S2P Require Import Json Scim Xml Saml Sso.

Section theory.
Context {St Er : Type} `{OS : ObjectStore St Er} `{RND : SystemRandom} `{DIG : Digests} `{HX : Hex} `{PB : Pbkdf2}.
Context `{RSA : RsaPkcs1} `{HO : HashOrder} `{JT : JsonText}.
Context `{SI : Serde (list string)} `{SU : Serde User} `{SP : Serde ScimProfile} `{SG : Serde ScimGroup}.

Implicit Types (a : App (St := St)).

(** ** What a step leaves alone *)

Lemma stored_value_identity T `{Serde T} key a : app_identity (stored_value T key a).2 = app_identity a.
Proof. unfold stored_value. by destruct (os_get _ _ _). Qed.

Lemma profile_identity uid a : app_identity (profile uid a).2 = app_identity a.
Proof.
  unfold profile. pose proof (stored_value_identity ScimProfile ("profile/" +:+ uid) a) as H.
  by destruct (stored_value _ _ a) as [o a1].
Qed.

Lemma to_scim_identity u a : app_identity (to_scim u a).2 = app_identity a.
Proof.
  unfold to_scim. pose proof (profile_identity (u_id u) a) as H. by destruct (profile _ a) as [p a1].
Qed.

Lemma get_user_identity id a : app_identity (backend_get_user id a).2 = app_identity a.
Proof.
  unfold backend_get_user. destruct (users a !! id) as [u|]; [|done].
  pose proof (to_scim_identity u a) as H. by destruct (to_scim u a).
Qed.

Lemma on_dir_sessions {A} (c : eff (Directory * St) IdentityError A) a : sessions (on_dir c a).2 = sessions a.
Proof. unfold on_dir. by destruct (c _) as [r [d s]]. Qed.

(** An answer about a user that is there, and only such an answer, succeeds. *)
Lemma answer_user_identity id a : app_identity (answer_user id a).2 = app_identity a.
Proof.
  unfold answer_user. pose proof (get_user_identity id a) as H. by destruct (backend_get_user id a).
Qed.

Lemma sessions_of a a' : app_identity a' = app_identity a → sessions a' = sessions a.
Proof. unfold sessions. by intros ->. Qed.

(** ** Sessions after a revocation *)

Lemma revoked_idem id st : revoke_all_for id (revoke_all_for id st) = revoke_all_for id st.
Proof.
  unfold revoke_all_for, with_sessions. cbn [ss_by_hash ss_ttl_secs]. f_equal.
  rewrite map_filter_filter. apply map_filter_ext. intros h s _. simpl. tauto.
Qed.

Lemma revoked_not_live sid id token t : si_sessions sid = revoke_all_for id (si_sessions sid) → ¬ live sid token t id.
Proof.
  intros E (s & H & _ & _ & Hu). rewrite E in H. cbn [revoke_all_for with_sessions ss_by_hash] in H.
  apply map_lookup_filter_Some in H as [_ H]. done.
Qed.

Lemma revoked_others sid sid' id token t v :
  si_sessions sid' = revoke_all_for id (si_sessions sid) → v ≠ id → live sid' token t v ↔ live sid token t v.
Proof.
  intros E Hv. unfold live. rewrite E. cbn [revoke_all_for with_sessions ss_by_hash].
  split; intros (s & H & Ht & Hm & Hu); exists s; split; try done.
  - by apply map_lookup_filter_Some in H as [H _].
  - apply map_lookup_filter_Some. split; [done|]. simpl. congruence.
Qed.

(** ** The operations that end an account's sessions *)

Lemma replace_user_sessions id u a r a' :
  backend_replace_user id u a = (Ok r, a') →
  sessions a' = if su_active u then sessions a else revoke_all_for id (sessions a).
Proof.
  unfold backend_replace_user, mbind, eff_mbind. destruct (require_user id a) as [[[]|e] a0] eqn:E0; [|done].
  unfold require_user in E0. injection E0 as _ <-. unfold eff_map_err.
  destruct (on_dir (pd_update_user (user_of id u)) a) as [r1 a1] eqn:E1.
  pose proof (on_dir_sessions (pd_update_user (user_of id u)) a) as H1. rewrite E1 in H1. simpl in H1.
  destruct r1 as [[]|e]; [|done]. cbn [map_err modify]. intros E2.
  pose proof (f_equal snd E2) as E3. cbn [snd] in E3. rewrite <-E3, (sessions_of _ _ (answer_user_identity id _)).
  destruct (su_active u); [done|]. rewrite <-H1. done.
Qed.

Lemma set_active_sessions id active a r a' :
  backend_set_user_active id active a = (Ok r, a') →
  sessions a' = if active then sessions a else revoke_all_for id (sessions a).
Proof.
  unfold backend_set_user_active, mbind, eff_mbind. destruct (require_user id a) as [[[]|e] a0] eqn:E0; [|done].
  unfold require_user in E0. injection E0 as _ <-. cbn [modify].
  pose proof (profile_identity id a) as H1. destruct (profile id a) as [p a1]. cbn [snd] in H1. intros E2.
  pose proof (f_equal snd E2) as E3. cbn [snd] in E3. rewrite <-E3, (sessions_of _ _ (answer_user_identity id _)).
  assert (sessions (write_profile id (set_active active p) a1) = sessions a) as Hw by (unfold sessions; simpl; by rewrite H1).
  destruct active; [done|]. rewrite <-Hw. done.
Qed.

Lemma delete_user_sessions id a r a' :
  backend_delete_user id a = (Ok r, a') → sessions a' = revoke_all_for id (sessions a).
Proof.
  unfold backend_delete_user, mbind, eff_mbind, eff_map_err.
  pose proof (on_dir_sessions (DirectoryStore.delete_user id) a) as H1.
  destruct (on_dir (DirectoryStore.delete_user id) a) as [[[]|e] a1]; [|done]. cbn [map_err modify snd] in *.
  intros [= _ <-]. rewrite <-H1. done.
Qed.

(** A deletion that the store refuses ends no session. *)
Lemma failed_delete_keeps_sessions id a e a' :
  on_dir (DirectoryStore.delete_user id) a = (Err e, a') →
  backend_delete_user id a = (Err ScimNotFound, a') ∧ sessions a' = sessions a.
Proof.
  intros E. unfold backend_delete_user, mbind, eff_mbind, eff_map_err. rewrite E. split; [done|].
  pose proof (on_dir_sessions (DirectoryStore.delete_user id) a) as H. by rewrite E in H.
Qed.

(** Activating and deactivating again ends the sessions if some operation deactivates. *)
Lemma patch_loop_sessions id ops : ∀ u a r a',
  patch_loop id ops u a = (Ok r, a') →
  sessions a' = sessions a ∨ sessions a' = revoke_all_for id (sessions a).
Proof.
  induction ops as [|op ops IH]; intros u a r a'; cbn [patch_loop]; [by intros [= _ <-]; left|].
  destruct (patched_active op) as [active|]; [|apply IH]. unfold mbind, eff_mbind.
  destruct (sb_set_user_active id active a) as [[u1|e] a1] eqn:E1; [|done]. intros E2.
  apply set_active_sessions in E1. apply IH in E2.
  destruct active; rewrite E1 in E2; [done|]. rewrite revoked_idem in E2. destruct E2 as [->| ->]; by right.
Qed.

Lemma patch_loop_deactivates id ops op : ∀ u a r a',
  op ∈ ops → patched_active op = Some false → patch_loop id ops u a = (Ok r, a') →
  sessions a' = revoke_all_for id (sessions a).
Proof.
  induction ops as [|op' ops IH]; intros u a r a' Hin Hop; [by apply elem_of_nil in Hin|]. cbn [patch_loop].
  apply elem_of_cons in Hin as [<-|Hin].
  - rewrite Hop. unfold mbind, eff_mbind. destruct (sb_set_user_active id false a) as [[u1|e] a1] eqn:E1; [|done].
    intros E2. apply set_active_sessions in E1. apply patch_loop_sessions in E2. rewrite E1, revoked_idem in E2. by destruct E2.
  - destruct (patched_active op') as [active|]; [|by apply IH]. unfold mbind, eff_mbind.
    destruct (sb_set_user_active id active a) as [[u1|e] a1] eqn:E1; [|done]. intros E2.
    apply set_active_sessions in E1. rewrite (IH _ _ _ _ Hin Hop E2), E1. destruct active; [done|apply revoked_idem].
Qed.

(** The requests that deprovision the account they name. *)
Inductive deprovisions (body : bytes) : string → Prop :=
| dp_delete : deprovisions body "DELETE"
| dp_put v u : json_from_slice body = Ok v → parse_user v = Ok u → su_active u = false → deprovisions body "PUT"
| dp_patch v ops op : json_from_slice body = Ok v → get "Operations" v ≫= as_array = Some ops → op ∈ ops →
    patched_active op = Some false → deprovisions body "PATCH".

Lemma deprovision_sessions base method id body a r a' :
  deprovisions body method → user_route base method id body a = (Ok r, a') →
  sessions a' = revoke_all_for id (sessions a).
Proof.
  intros Hd. unfold user_route. destruct Hd as [|v u Hv Hu Hact|v ops op Hv Hops Hin Hop].
  - repeat (rewrite bool_decide_eq_false_2 by done). rewrite bool_decide_eq_true_2 by done.
    unfold Scim.delete_user, mbind, eff_mbind. destruct (sb_delete_user id a) as [[[]|e] a1] eqn:E; [|done].
    intros [= _ <-]. by eapply delete_user_sessions.
  - rewrite bool_decide_eq_false_2, bool_decide_eq_true_2 by done. unfold replace_user, parse_body, mbind, eff_mbind, lift.
    rewrite Hv. cbn [map_err]. rewrite Hu. destruct (sb_replace_user id (with_id id u) a) as [[u1|e] a1] eqn:E; [|done].
    intros [= _ <-]. apply replace_user_sessions in E. simpl in E. by rewrite Hact in E.
  - do 2 rewrite bool_decide_eq_false_2 by done. rewrite bool_decide_eq_true_2 by done.
    unfold patch_user, parse_body, reading, mbind, eff_mbind, lift. rewrite Hv. cbn [map_err].
    unfold mbind in Hops. rewrite Hops. cbn [ok_or].
    pose proof (get_user_identity id a) as Hid. cbn [sb_get_user server_backend].
    destruct (backend_get_user id a) as [[u1|] a1]; [|done]. cbn [ok_or snd] in *.
    destruct (patch_loop id ops u1 a1) as [[u2|e] a2] eqn:E; [|done]. intros [= _ <-].
    rewrite (patch_loop_deactivates id ops op u1 a1 u2 a2 Hin Hop E). by rewrite (sessions_of _ _ Hid).
Qed.

Lemma status_error e : 400 ≤ status e.
Proof. destruct e; simpl; lia. Qed.

Lemma token_accepted_spec expected presented :
  token_accepted expected presented = true ↔ presented = expected ∧ expected ≠ "".
Proof.
  unfold token_accepted. rewrite andb_true_iff, negb_true_iff, bool_decide_eq_false, ct_eq_true.
  split; [intros [H1 H2%as_bytes_inj]; by subst|]. intros [-> H]. done.
Qed.

(** C15. Deprovisioning takes effect at once: a SCIM request that deletes a user,
    replaces it by an inactive one or deactivates it, and that is answered with
    success, carried the provisioning token, and afterwards no session of that user
    is valid at any time, while the sessions of everyone else are as before. *)
Theorem scim_deprovisioning (cfg : SsoConfig) (req : Request) (a a' : App (St := St)) (resp : Response) (rest : bytes) (id : string) :
  strip_prefix (as_bytes "/scim/v2/") (as_bytes (rq_path req)) = Some rest →
  segments (string_of_list_byte rest) = ["Users"; id] →
  deprovisions (rq_body req) (rq_method req) →
  route_scim cfg req a = (Some resp, a') → rs_status resp < 300 →
  (∃ tok, scim_token cfg = Some tok ∧ bearer_token req = Some tok ∧ tok ≠ "") ∧
  (∀ token t, ¬ live (app_identity a') token t id) ∧
  (∀ token t v, v ≠ id → live (app_identity a') token t v ↔ live (app_identity a) token t v).
Proof.
  intros Hp Hs Hd. unfold route_scim. rewrite Hp. destruct (scim_token cfg) as [tok|]; [|by intros [= <- <-]].
  destruct (token_accepted tok _) eqn:Et; [|by intros [= <- <-]]. cbn [negb].
  apply token_accepted_spec in Et as [Et Hne].
  assert (bearer_token req = Some tok) as Hb by (destruct (bearer_token req); simpl in Et; congruence).
  unfold dispatch, scim_route. rewrite Hs. rewrite bool_decide_eq_true_2 by done.
  destruct (user_route _ _ id _ a) as [[r|e] a1] eqn:E; intros [= <- <-] Hlt; cbn [response_new rs_status sr_status] in Hlt.
  2:{ pose proof (status_error e). lia. }
  apply deprovision_sessions in E; [|done]. split; [by exists tok|]. unfold sessions in E. split.
  - intros token t. apply revoked_not_live. rewrite E. symmetry. apply revoked_idem.
  - intros token t v Hv. by eapply revoked_others.
Qed.

(** Without the provisioning token nothing is provisioned. *)
Theorem scim_needs_token (cfg : SsoConfig) (req : Request) (a a' : App (St := St)) (resp : Response) :
  (∀ tok, scim_token cfg = Some tok → bearer_token req = Some tok → tok = "") →
  route_scim cfg req a = (Some resp, a') → a' = a ∧ (rs_status resp = 401 ∨ rs_status resp = 503).
Proof.
  intros Ht. unfold route_scim. destruct (strip_prefix _ _) as [rest|]; [|done].
  destruct (scim_token cfg) as [tok|]; [|intros [= <- <-]; split; [done|by right]].
  destruct (token_accepted tok _) eqn:Et; [|intros [= <- <-]; split; [done|by left]].
  apply token_accepted_spec in Et as [Et Hne]. exfalso. apply Hne, (Ht tok); [done|].
  destruct (bearer_token req); simpl in Et; congruence.
Qed.

(** ** Sign-in by SAML *)

(** Users are kept under their ids. *)
Definition keyed (a : App (St := St)) : Prop := ∀ k u, users a !! k = Some u → u_id u = k.

Lemma all_users_elem a u : keyed a → u ∈ all_users a → users a !! u_id u = Some u.
Proof.
  intros Hk. unfold all_users. rewrite hash_values_perm. intros ([k u'] & -> & H)%list_elem_of_fmap.
  apply elem_of_map_to_list in H. simpl. by rewrite (Hk _ _ H).
Qed.

Lemma elem_all_users a k u : users a !! k = Some u → u ∈ all_users a.
Proof.
  intros H. unfold all_users. rewrite hash_values_perm. apply list_elem_of_fmap. exists (k, u). split; [done|].
  by apply elem_of_map_to_list.
Qed.

Lemma create_user_dir u a a' :
  on_dir (DirectoryStore.create_user u) a = (Ok (), a') →
  users a !! u_id u = None ∧ users a' = <[u_id u := u]> (users a).
Proof.
  unfold on_dir, DirectoryStore.create_user, mbind, eff_mbind, in_memory, add_user, map_add, users.
  case_bool_decide as Hs; [done|]. cbn [mbind result_mbind]. unfold on_store.
  destruct (create_obj _ _ _ _ _) as [r s]. intros [= -> <-]. split; [|done]. by apply eq_None_not_Some.
Qed.

(** What [mint_session] gives. *)
Lemma mint_session_live uid now a token a' :
  mint_session uid now a = (Ok token, a') →
  users a' = users a ∧ app_store a' = app_store a ∧
  (∀ t u, live (app_identity a') token t u ↔ u = uid ∧ t < sat_add64 now (ss_ttl_secs (sessions a))) ∧
  (∀ h, h ≠ token_hash token → ss_by_hash (sessions a') !! h = ss_by_hash (sessions a) !! h).
Proof.
  unfold mint_session, session_create. destruct (random_vec 32 (app_rng a)) as [[raw|e] g]; [|done].
  intros [= <- <-]. split; [done|]. split; [done|]. split.
  - intros t u. unfold live. cbn [app_identity with_live si_sessions with_sessions ss_by_hash]. rewrite lookup_insert_eq. split.
    + by intros (s & [= <-] & Ht & _ & <-).
    + intros [-> Ht]. eexists. split; [done|]. done.
  - intros h Hh. unfold sessions. cbn [app_identity with_live si_sessions with_sessions ss_by_hash]. by rewrite lookup_insert_ne.
Qed.

Lemma jit_user_sessions va a uid a' : jit_user va a = (Ok uid, a') → sessions a' = sessions a.
Proof.
  unfold jit_user. destruct (list_find _ _) as [[i u]|]; [by intros [= _ <-]|].
  unfold rand_id. destruct (random_vec 8 _) as [r g]. unfold mbind, eff_mbind.
  pose proof (on_dir_sessions (DirectoryStore.create_user {| u_id := "u_" +:+ hex_encode match r with Ok v => v | Err _ => replicate 8 x00 end;
    u_username := saml_username va; u_email := default "" (email va) |}) (mkApp (app_identity a) (app_dir_store a) (app_store a) g)) as Hd.
  destruct (on_dir _ _) as [[[]|e] a2]; [|done]. intros [= _ <-]. simpl in Hd. exact Hd.
Qed.

Lemma jit_user_spec va a uid a' :
  keyed a → jit_user va a = (Ok uid, a') →
  (∃ u, users a' !! uid = Some u ∧ u_username u = saml_username va) ∧
  (∀ k, k ≠ uid → users a' !! k = users a !! k) ∧
  ((∃ k u, users a !! k = Some u ∧ u_username u = saml_username va) → users a' = users a).
Proof.
  intros Hk. unfold jit_user. destruct (list_find _ (all_users a)) as [[i u]|] eqn:E.
  - intros [= <- <-]. apply list_find_Some in E as (Hi & Hn & _).
    split; [exists u; split; [|done]; apply all_users_elem; [done|by eapply list_elem_of_lookup_2]|done].
  - unfold rand_id. destruct (random_vec 8 (app_rng a)) as [r g]. unfold mbind, eff_mbind.
    destruct (on_dir _ _) as [[[]|e] a1] eqn:E1; [|done]. intros [= <- <-]. apply create_user_dir in E1 as [_ E1].
    cbn [u_id] in E1. rewrite E1. split; [eexists; split; [apply lookup_insert_eq|done]|].
    split; [intros k Hne; by rewrite lookup_insert_ne|]. intros (k & u & Hu & Hn). exfalso.
    rewrite list_find_None, Forall_forall in E. eapply E; [by eapply elem_all_users|done].
Qed.

(** C25. Sign-in by SAML, from the request to the session, in a directory that keeps every
    account under its own id: success means that the posted document is a response to
    accept at the given time, in the sense of the acceptance theorem; the token in the
    answer is from then on a session of one account whose name is the asserted one, live
    exactly until the configured lifetime has passed, and every other session is as it was;
    no other account changes, and an account is created only if none has that name. *)
Theorem saml_login (cfg : SsoConfig) (req : Request) (now : Z) (now' : N) (a a' : App (St := St)) (resp : Response) :
  keyed a → route_saml_acs cfg req now now' a = (Some resp, a') → rs_status resp = 200 →
  ∃ sp f b64 doc va uid token,
    cfg_saml cfg = Some sp ∧ form req = Some f ∧ f !! "SAMLResponse" = Some b64 ∧ b64decode b64 = Some doc ∧
    (∃ root here assertion, acceptable sp (string_of_list_byte doc) now va root here assertion) ∧
    rs_body resp = json_to_string (acs_json uid (saml_username va) token) ∧
    (∃ u, users a' !! uid = Some u ∧ u_username u = saml_username va) ∧
    (∀ k, k ≠ uid → users a' !! k = users a !! k) ∧
    ((∃ k u, users a !! k = Some u ∧ u_username u = saml_username va) → users a' = users a) ∧
    (∀ t u, live (app_identity a') token t u ↔ u = uid ∧ t < sat_add64 now' (ss_ttl_secs (sessions a))) ∧
    (∀ h, h ≠ token_hash token → ss_by_hash (sessions a') !! h = ss_by_hash (sessions a) !! h).
Proof.
  intros Hk. unfold route_saml_acs. destruct (cfg_saml cfg) as [sp|]; [|by intros [= <- <-]].
  destruct (form req) as [f|]; [|done]. destruct (f !! "SAMLResponse") as [b64|] eqn:Ef; [|by intros [= <- <-]].
  destruct (verify_b64_response sp b64 now) as [va|e] eqn:Ev; [|by destruct e; intros [= <- <-]].
  destruct (jit_user va a) as [[uid|e] a1] eqn:Ej; [|by intros [= <- <-]]. pose proof (jit_user_sessions _ _ _ _ Ej) as Hs.
  destruct (mint_session uid now' a1) as [[token|e] a2] eqn:Em; [|by intros [= <- <-]]. intros [= <- <-] _.
  destruct (jit_user_spec _ _ _ _ Hk Ej) as (H1 & H2 & H3). destruct (mint_session_live _ _ _ _ _ Em) as (Hu & _ & Hl & Ho).
  unfold verify_b64_response in Ev. apply bind_ok in Ev as (doc & Ed%require_ok & Ev). destruct (valid_utf8 doc); [|done].
  apply verify_acceptable in Ev. exists sp, f, b64, doc, va, uid, token. rewrite Hu. rewrite Hs in Hl, Ho. done.
Qed.

(** [deactivated_user_signs_in]: the sign-in does not look at the profile that SCIM
    deactivated: the account gets a new session, and stays deactivated. *)
Lemma deactivated_user_signs_in cfg req sp f b64 va now now' a uid u p raw g :
  cfg_saml cfg = Some sp → form req = Some f → f !! "SAMLResponse" = Some b64 → verify_b64_response sp b64 now = Ok va →
  users a !! uid = Some u → u_username u = saml_username va →
  (∀ k v, users a !! k = Some v → u_id v = k ∧ (u_username v = saml_username va → k = uid)) →
  os_value ScimProfile (app_store a) SCIM_NS ("profile/" +:+ uid) = Some p → pf_active p = false →
  random_vec 32 (app_rng a) = (Ok raw, g) →
  ∃ resp a', route_saml_acs cfg req now now' a = (Some resp, a') ∧ rs_status resp = 200 ∧
    (∀ t, t < sat_add64 now' (ss_ttl_secs (sessions a)) → live (app_identity a') (hex_encode raw) t uid) ∧
    os_value ScimProfile (app_store a') SCIM_NS ("profile/" +:+ uid) = Some p.
Proof.
  intros Hc Hf Hb Hv Hu Hn Huniq Hp Hina Hr. unfold route_saml_acs. rewrite Hc, Hf, Hb, Hv.
  assert (jit_user va a = (Ok uid, a)) as ->.
  { unfold jit_user. destruct (list_find _ (all_users a)) as [[i v]|] eqn:E.
    - apply list_find_Some in E as (Hi%list_elem_of_lookup_2 & Hvn & _).
      apply all_users_elem in Hi; [|intros k w Hw; by apply Huniq]. destruct (Huniq _ _ Hi) as [_ Hk]. by rewrite (Hk Hvn).
    - exfalso. rewrite list_find_None, Forall_forall in E. eapply E; [by eapply elem_all_users|done]. }
  destruct (mint_session uid now' a) as [r a1] eqn:Em. pose proof Em as Em'.
  unfold mint_session, session_create in Em'. rewrite Hr in Em'. injection Em' as <- _.
  destruct (mint_session_live _ _ _ _ _ Em) as (_ & Hst & Hl & _). eexists _, a1. split; [done|]. split; [done|].
  split; [intros t Ht; by apply Hl|]. by rewrite Hst.
Qed.

(** ** Names and answers *)

(** PUT gives an account any name, another account's too. *)
Lemma replace_user_users id u a r a' :
  backend_replace_user id u a = (Ok r, a') → users a' = <[id := user_of id u]> (users a).
Proof.
  unfold backend_replace_user, mbind, eff_mbind. destruct (require_user id a) as [[[]|e] a0] eqn:E0; [|done].
  unfold require_user in E0. injection E0 as _ <-. unfold eff_map_err.
  destruct (on_dir (pd_update_user (user_of id u)) a) as [[[]|e] a1] eqn:E1; [|done]. cbn [map_err modify]. intros E2.
  assert (users a1 = <[id := user_of id u]> (users a)) as H1.
  { unfold on_dir, pd_update_user, mbind, eff_mbind, in_memory, update_user, map_update, users in *.
    cbn [u_id user_of] in *. case_bool_decide as Hs; [|done]. cbn [mbind result_mbind] in E1. unfold on_store in E1.
    destruct (write_obj _ _ _ _) as [r1 s1]. by injection E1 as _ <-. }
  pose proof (f_equal snd E2) as E3. cbn [snd] in E3. rewrite <-E3. unfold users in *. rewrite answer_user_identity.
  by destruct (su_active u).
Qed.

(** The [unwrap]s of the backend do not fail. *)
Lemma answer_user_ok id a : is_Some (users a !! id) → ∃ u, (answer_user id a).1 = Ok u.
Proof.
  intros [u Hu]. unfold answer_user, backend_get_user. rewrite Hu. destruct (to_scim u a) as [su a1]. by exists su.
Qed.

Lemma text_not_unwrap e : BackendError (identity_error_text e) ≠ UNWRAP.
Proof. destruct e; unfold UNWRAP; cbn; intros H; discriminate H. Qed.

Lemma unwraps_hold u id active a :
  (backend_create_user u a).1 ≠ Err UNWRAP ∧ (backend_replace_user id u a).1 ≠ Err UNWRAP ∧
  (backend_set_user_active id active a).1 ≠ Err UNWRAP.
Proof.
  split_and!.
  - unfold backend_create_user. destruct (rand_id "u_" a) as [uid a1]. unfold mbind, eff_mbind, eff_map_err.
    destruct (on_dir _ a1) as [[[]|e] a2] eqn:E; cbn [map_err fst].
    + apply create_user_dir in E as [_ E]. cbn [modify].
      destruct (answer_user_ok uid (write_profile uid (profile_of u) a2)) as [su ->]; [|done].
      change (is_Some (users a2 !! uid)). rewrite E. cbn [u_id user_of]. rewrite lookup_insert_eq. by eexists.
    + intros H. apply (text_not_unwrap e). unfold backend_error in H. congruence.
  - destruct (backend_replace_user id u a) as [[r|e] a1] eqn:E; [done|]. intros [= ->]. revert E.
    unfold backend_replace_user, mbind, eff_mbind, eff_map_err.
    destruct (require_user id a) as [[[]|e] a0] eqn:E0; [|unfold require_user in E0; destruct (decide (is_Some (users a !! id))); [done|by injection E0 as <- <-]].
    unfold require_user in E0. injection E0 as _ <-.
    destruct (on_dir (pd_update_user (user_of id u)) a) as [[[]|e] a2] eqn:E1; cbn [map_err].
    2:{ intros H. exfalso. apply (text_not_unwrap e). unfold backend_error in H. congruence. }
    cbn [modify]. intros E.
    assert (is_Some (users a2 !! id)) as Hs.
    { unfold on_dir, pd_update_user, mbind, eff_mbind, in_memory, update_user, map_update, users in *.
      cbn [u_id user_of] in *. case_bool_decide as Hs; [|done]. cbn [mbind result_mbind] in E1. unfold on_store in E1.
      destruct (write_obj _ _ _ _) as [r1 s1]. injection E1 as _ <-. cbn. rewrite lookup_insert_eq. by eexists. }
    apply (f_equal fst) in E. cbn [fst] in E. destruct (answer_user_ok id
      (if su_active u then write_profile id (profile_of u) a2 else revoke id (write_profile id (profile_of u) a2))) as [su H].
    { by destruct (su_active u). }
    congruence.
  - destruct (backend_set_user_active id active a) as [[r|e] a1] eqn:E; [done|]. intros [= ->]. revert E.
    unfold backend_set_user_active, mbind, eff_mbind. unfold require_user. destruct (decide (is_Some (users a !! id))) as [Hs|]; [|done]. cbn [modify].
    pose proof (profile_identity id a) as Hid. destruct (profile id a) as [p a2]. cbn [snd] in Hid. intros E.
    apply (f_equal fst) in E. cbn [fst] in E. destruct (answer_user_ok id
      (if active then write_profile id (set_active active p) a2 else revoke id (write_profile id (set_active active p) a2))) as [su H].
    { unfold users in *. destruct active; cbn; by rewrite Hid. }
    congruence.
Qed.
End theory.
