(* ===== verification/SsoToy.v ===== *)
(** The theorems on SCIM and SAML sign-in at a concrete server. *)

From Stdlib Require Import ZArith.
From S2P Require Import Prelude Text BTree Backend Toy Primitives ObjectStore Identity DirectoryStore Auth Http Authz.
From S2P Require Import Json Scim Xml XmlTheory Saml SamlTheory SamlToy Sso SsoTheory.

#[local] Existing Instance toy_rng.
#[local] Existing Instance toy_digests.
#[local] Existing Instance toy_hex.
#[local] Existing Instance toy_hmacs.
#[local] Existing Instance toy_pbkdf2.
#[local] Existing Instance toy_rsa.
#[local] Existing Instance toy_serde.
#[local] Existing Instance memory_store.

#[local] Instance toy_hash_order : HashOrder := {|
  hash_values A m := (map_to_list m).*2;
  hash_values_perm A m := Permutation_refl _;
|}.

Definition profile_code (p : ScimProfile) := (pf_active p, pf_external_id p, pf_display_name p).
Definition profile_uncode (x : bool * option string * option string) : option ScimProfile := Some (mkProfile x.1.1 x.1.2 x.2).
#[local] Instance ScimProfile_eq_dec : EqDecision ScimProfile.
Proof. solve_decision. Defined.
Lemma profile_uncode_code p : profile_uncode (profile_code p) = Some p.
Proof. by destruct p. Qed.
#[local] Instance ScimProfile_countable : Countable ScimProfile := inj_countable profile_code profile_uncode profile_uncode_code.

Definition group_code (g : ScimGroup) := (sg_id g, sg_display_name g, sg_external_id g, sg_member_ids g).
Definition group_uncode (x : string * string * option string * list string) : option ScimGroup :=
  Some (mkScimGroup x.1.1.1 x.1.1.2 x.1.2 x.2).
#[local] Instance ScimGroup_eq_dec : EqDecision ScimGroup.
Proof. solve_decision. Defined.
Lemma group_uncode_code g : group_uncode (group_code g) = Some g.
Proof. by destruct g. Qed.
#[local] Instance ScimGroup_countable : Countable ScimGroup := inj_countable group_code group_uncode group_uncode_code.

(** A parser that knows one text. *)
Definition toy_patch : Value :=
  json [("Operations", VArray [json [("op", VString "replace"); ("path", VString "active"); ("value", VBool false)]])].
#[local] Instance toy_json : JsonText := {|
  json_from_slice b := if bool_decide (b = as_bytes "deactivate") then Ok toy_patch else Err "expected value";
  json_to_string v := [];
|}.

Definition toy_users : gmap string User := {[ "u1" := mkUser "u1" "root" "a@x" ]}.
Definition toy_session : Session := mkSession "u1" 500 true.
Definition toy_app : App (St := gmap (string * string) bytes) :=
  mkApp {| si_dir := set_users toy_users dir_new; si_local := ∅;
           si_sessions := mkSessions 50 {[ token_hash "t" := toy_session ]} |} ∅ ∅ (9 : @rng toy_rng).
Definition toy_cfg : SsoConfig := mkSso (Some "secret") "https://git" (Some toy_sp).

Definition scim_request (method token : string) : Request :=
  mkRequestHttp method "/scim/v2/Users/u1" ∅ {[ "authorization" := "Bearer " +:+ token ]} (as_bytes "deactivate") "1.2.3.4".

Lemma toy_live : live (app_identity toy_app) "t" 100 "u1".
Proof. exists toy_session. split; [apply lookup_insert_eq|]. done. Qed.

Lemma toy_deactivates : deprovisions (as_bytes "deactivate") "PATCH".
Proof. eapply dp_patch; [reflexivity|reflexivity|by left|reflexivity]. Qed.

Lemma scim_deprovisioning_witness :
  live (app_identity toy_app) "t" 100 "u1" ∧
  ∃ resp a', route_scim toy_cfg (scim_request "PATCH" "secret") toy_app = (Some resp, a') ∧ rs_status resp = 200 ∧
    ∀ token t, ¬ live (app_identity a') token t "u1".
Proof.
  split; [exact toy_live|]. destruct (route_scim toy_cfg (scim_request "PATCH" "secret") toy_app) as [o a'] eqn:E.
  assert (∃ resp, o = Some resp ∧ rs_status resp = 200) as (resp & -> & Hs).
  { apply (f_equal (λ x, rs_status <$> x.1)) in E. cbn [fst] in E.
    assert (rs_status <$> o = Some 200) as H by (rewrite <-E; vm_refl). destruct o as [resp|]; [|done]. injection H as H. by exists resp. }
  exists resp, a'. split; [reflexivity|]. split; [exact Hs|].
  eapply (scim_deprovisioning toy_cfg (scim_request "PATCH" "secret") toy_app a' resp (as_bytes "Users/u1") "u1");
    [reflexivity|reflexivity|exact toy_deactivates|exact E|by rewrite Hs].
Defined.

Lemma scim_needs_token_witness :
  ∃ resp, route_scim toy_cfg (scim_request "PATCH" "guess") toy_app = (Some resp, toy_app) ∧ rs_status resp = 401.
Proof.
  destruct (route_scim toy_cfg (scim_request "PATCH" "guess") toy_app) as [o a'] eqn:E.
  assert (∃ resp, o = Some resp ∧ rs_status resp = 401) as (resp & -> & Hs).
  { apply (f_equal (λ x, rs_status <$> x.1)) in E. cbn [fst] in E.
    assert (rs_status <$> o = Some 401) as H by (rewrite <-E; vm_refl). destruct o as [resp|]; [|done]. injection H as H. by exists resp. }
  destruct (scim_needs_token toy_cfg (scim_request "PATCH" "guess") toy_app a' resp) as [-> _]; [|exact E|by exists resp].
  intros tok [= <-] H. vm_compute in H. discriminate H.
Defined.

(** A sign-in with a document of the identity provider. *)
Lemma verify_b64_of_document sp e now va :
  wf e → verify_response_xml sp (string_of_list_byte (exc_c14n e [])) now = Ok va →
  verify_b64_response sp (string_of_list_byte (SamlTheory.b64_encode (exc_c14n e []))) now = Ok va.
Proof.
  intros Hw H. set (l := exc_c14n e []) in *. unfold verify_b64_response, b64decode. pose proof (SamlTheory.b64_encode_plain l) as F.
  unfold as_bytes. rewrite list_byte_of_string_of_list_byte, visible_filter, b64_decode_encode by done.
  cbn [require ok_or mbind result_mbind]. by rewrite (serialize_utf8 e ∅ ∅ [] Hw scope_ok_empty : valid_utf8 l = true).
Qed.

Definition toy_tree : Element := forged "https://idp" "root" (honest_signature "AA") (forged_digest "https://idp" "root").
Definition acs_request (b64 : bytes) : Request :=
  mkRequestHttp "POST" "/sso/saml/acs" ∅ ∅ (as_bytes "SAMLResponse" ++ x3d :: percent_encode b64) "1.2.3.4".

Lemma toy_tree_wf : wf toy_tree.
Proof. apply wf_forged; [by apply wf_honest_signature|done|done|apply forged_digest_ok]. Qed.

Lemma toy_verified :
  ∃ va, verify_b64_response toy_sp (string_of_list_byte (SamlTheory.b64_encode (exc_c14n toy_tree []))) 0 = Ok va ∧
    va_name_id va = "root".
Proof.
  assert (shown "root") as Hr by by apply toy_shown. assert (shown (idp_entity_id toy_sp)) as Hi by by apply toy_shown.
  destruct (forged_document toy_sp "root" (honest_signature "AA") 0 toy_captured Hr Hi) as (va & E & Hn & _).
  exists va. split; [|exact Hn]. exact (verify_b64_of_document toy_sp toy_tree 0 va toy_tree_wf E).
Qed.

Lemma toy_keyed : keyed toy_app.
Proof. intros k u H. change (toy_users !! k = Some u) in H. unfold toy_users in H. apply lookup_singleton_Some in H as [<- <-]. done. Qed.

(** Whoever is named, this server provisions and mints. *)
Lemma toy_created id name mail g :
  toy_users !! id = None →
  (on_dir (DirectoryStore.create_user (mkUser id name mail)) (mkApp (app_identity toy_app) ∅ ∅ g)).1 = Ok ().
Proof.
  intros H. unfold on_dir, DirectoryStore.create_user, in_memory, add_user, map_add, mbind, eff_mbind.
  cbn [u_id]. rewrite bool_decide_eq_false_2 by (change (¬ is_Some (toy_users !! id)); rewrite H; by intros []).
  cbn [mbind result_mbind on_store]. unfold on_store, create_obj, write_obj, add_to_index, read_index, to_storage, eff_map_err, mbind, eff_mbind.
  cbn [os_put os_get memory_store map_err]. rewrite lookup_insert_ne by done. reflexivity.
Qed.

Lemma toy_jit va : ∃ uid a', jit_user va toy_app = (Ok uid, a').
Proof.
  unfold jit_user. destruct (list_find _ _) as [[i u]|]; [by eexists _, _|]. unfold rand_id.
  destruct (random_vec 8 (app_rng toy_app)) as [r g] eqn:Er. unfold mbind, eff_mbind.
  pose proof (toy_created ("u_" +:+ hex_encode match r with Ok v => v | Err _ => replicate 8 x00 end) (saml_username va)
    (default "" (email va)) g) as H.
  destruct (on_dir _ _) as [[[]|e] a']; [by eexists _, _|]. cbn [fst] in H. exfalso.
  assert (Err e = Ok () :> result IdentityError unit) as Hx by (apply H; unfold toy_users; by rewrite lookup_singleton_ne). discriminate Hx.
Qed.

Lemma toy_mint (uid : string) (a : App (St := gmap (string * string) bytes)) : ∃ token a', mint_session uid 100 a = (Ok token, a').
Proof. unfold mint_session, session_create. destruct (sessions a). by eexists _, _. Qed.

Lemma saml_login_witness :
  ∃ resp a' uid token, route_saml_acs toy_cfg (acs_request (SamlTheory.b64_encode (exc_c14n toy_tree []))) 0 100 toy_app = (Some resp, a') ∧
    rs_status resp = 200 ∧ live (app_identity a') token 149 uid.
Proof.
  destruct toy_verified as (va & Ev & _). set (l := SamlTheory.b64_encode (exc_c14n toy_tree [])) in *.
  assert (form (acs_request l) = Some {[ "SAMLResponse" := string_of_list_byte l ]}) as Hf.
  { apply form_field; [reflexivity|split; [done|repeat constructor]|repeat constructor; by apply (bool_decide_unpack _)|].
    apply valid_utf8_ascii. eapply Forall_impl; [apply SamlTheory.b64_encode_plain|]. intros b. simpl. lia. }
  destruct (toy_jit va) as (uid & a1 & Ej). destruct (toy_mint uid a1) as (token & a2 & Em).
  assert (route_saml_acs toy_cfg (acs_request l) 0 100 toy_app =
    (Some (response_json (json_to_string (acs_json uid (saml_username va) token))), a2)) as E.
  { unfold route_saml_acs. change (cfg_saml toy_cfg) with (Some toy_sp). cbv iota. rewrite Hf, lookup_singleton_eq, Ev, Ej, Em. done. }
  destruct (saml_login toy_cfg (acs_request l) 0 100 toy_app a2 _ toy_keyed E eq_refl)
    as (sp & f & b64 & doc & va' & uid' & token' & _ & _ & _ & _ & _ & _ & _ & _ & _ & Hl & _).
  eexists _, a2, uid', token'. split; [exact E|]. split; [reflexivity|]. apply Hl. split; [reflexivity|]. vm_compute. reflexivity.
Defined.
