(* ===== verification/Events.v ===== *)
(** Webhooks and notifications: [bins/secgit-server/src/events.rs], over the interface
    [ObjectStore].  The outbound request is a function from what is sent to how it ends;
    [deliver] also returns the requests it made. *)

From S2P Require Import Prelude Text BTree Backend Toy Primitives ObjectStore Json.

Definition hooks_ns (repo_id : string) : string := "_hooks/" +:+ repo_id.
Definition notif_ns (user_id : string) : string := "_notif/" +:+ user_id.

Record Webhook := mkWebhook {
  wh_id : string;
  wh_repo_id : string;
  wh_url : string;
  wh_secret : string;
  wh_events : list string;
  wh_active : bool;
  wh_created_at : N;
}.

Definition subscribes (h : Webhook) (event : string) : bool :=
  wh_active h && existsb (λ e, bool_decide (e = "*") || bool_decide (e = event)) (wh_events h).

(** The view without the secret. *)
Definition public_json (h : Webhook) : Value :=
  json [("id", VString (wh_id h)); ("repo_id", VString (wh_repo_id h)); ("url", VString (wh_url h));
        ("events", VArray (VString <$> wh_events h)); ("active", VBool (wh_active h)); ("created_at", number (wh_created_at h))].

Record Notification := mkNotification {
  nt_id : string;
  nt_user_id : string;
  nt_kind : string;
  nt_repo_id : string;
  nt_subject : string;
  nt_body : string;
  nt_read : bool;
  nt_created_at : N;
}.

Definition notification_json (n : Notification) : Value :=
  json [("id", VString (nt_id n)); ("kind", VString (nt_kind n)); ("repo_id", VString (nt_repo_id n));
        ("subject", VString (nt_subject n)); ("body", VString (nt_body n)); ("read", VBool (nt_read n));
        ("created_at", number (nt_created_at n))].

(** The errors are texts; that of the store's own error is left out. *)
Inductive EventError := EvNotHttps | EvStore | EvJson.
Definition event_error_text (e : EventError) : string :=
  match e with
  | EvNotHttps => "webhook url must be https://"
  | EvStore => "storage error"
  | EvJson => "invalid JSON"
  end.

(** [{:016x}]. *)
Definition hex16 (n : N) : string :=
  string_of_list_byte ((λ i, let d := N.land (N.shiftr n (4 * N.of_nat i)) 15 in byte_of_N (if d <? 10 then 48 + d else 87 + d))
    <$> reverse (seq 0 16)).

Record Delivery := mkDelivery { dl_url : string; dl_body : bytes; dl_headers : list (string * string) }.

Section events.
Context {St Er : Type} `{OS : ObjectStore St Er} `{RND : SystemRandom} `{MAC : Hmacs} `{HX : Hex} `{JT : JsonText}.
Context `{SI : Serde (list string)} `{SH : Serde Webhook} `{SN : Serde Notification}.

(** The store and the generator. *)
Definition EV : Type := St * rng.

Definition on_store {A} (c : eff St Er A) : eff EV EventError A := λ '(s, g),
  let '(r, s) := c s in (map_err (λ _, EvStore) r, (s, g)).

(** [rand_u64()]: eight bytes, zeros when the generator fails. *)
Definition rand_u64 : eff EV EventError N := λ '(s, g),
  let '(r, g) := random_vec 8 g in
  (Ok (from_le_bytes (match r with Ok v => v | Err _ => replicate 8 x00 end)), (s, g)).

Definition ev_put {T} `{Serde T} (ns key : string) (v : T) : eff EV EventError unit := on_store (os_put ns key (to_vec v)).
Definition ev_get (T : Type) `{Serde T} (ns key : string) : eff EV EventError (option T) :=
  o ← on_store (os_get ns key);
  match o with
  | Some b => v ← lift (ok_or EvJson (from_slice b)); mret (Some v)
  | None => mret None
  end.
Definition ev_index (ns key : string) : eff EV EventError (list string) :=
  o ← ev_get (list string) ns key; mret (default [] o).
Definition index_add (ns key id : string) : eff EV EventError unit :=
  ids ← ev_index ns key;
  if contains id ids then mret () else ev_put ns key (ids ++ [id]).
Definition index_remove (ns key id : string) : eff EV EventError unit :=
  ids ← ev_index ns key; ev_put ns key (filter (λ x, x ≠ id) ids).

Definition create_hook (repo_id url secret : string) (events : list string) (now : N) : eff EV EventError Webhook :=
  if negb (starts_with (as_bytes "https://") (as_bytes url)) then throw EvNotHttps
  else
    n ← rand_u64;
    let id := "wh_" +:+ hex16 n in
    let hook := mkWebhook id repo_id url secret events true now in
    _ ← ev_put (hooks_ns repo_id) ("hook/" +:+ id) hook;
    _ ← index_add (hooks_ns repo_id) "hook/index" id;
    mret hook.

(** The objects an index names that are there. *)
Fixpoint get_all (T : Type) `{Serde T} (ns kind : string) (ids : list string) : eff EV EventError (list T) :=
  match ids with
  | [] => mret []
  | id :: ids =>
      o ← ev_get T ns (kind +:+ id);
      rest ← get_all T ns kind ids;
      mret (option_list o ++ rest)
  end.
(** [sort_by(|a, b| b.created_at.cmp(&a.created_at))]. *)
Definition newest_first {T} (created_at : T → N) : list T → list T := sort_by (λ a b, created_at b <=? created_at a).

Definition list_hooks (repo_id : string) : eff EV EventError (list Webhook) :=
  ids ← ev_index (hooks_ns repo_id) "hook/index";
  out ← get_all Webhook (hooks_ns repo_id) "hook/" ids;
  mret (newest_first wh_created_at out).

Definition delete_hook (repo_id id : string) : eff EV EventError unit :=
  _ ← on_store (os_delete (hooks_ns repo_id) ("hook/" +:+ id));
  index_remove (hooks_ns repo_id) "hook/index" id.

Definition delivery (h : Webhook) (event : string) (body : bytes) (n : N) : Delivery :=
  mkDelivery (wh_url h) body
    [("X-SecGit-Signature", "sha256=" +:+ hex_encode (hmac_sha256 (as_bytes (wh_secret h)) body));
     ("X-SecGit-Event", event); ("X-SecGit-Delivery", hex16 n)].

Fixpoint deliver_loop (post : Delivery → result string bytes) (hooks : list Webhook) (event : string) (body : bytes)
    : eff EV EventError (list string * list Delivery) :=
  match hooks with
  | [] => mret ([], [])
  | h :: hooks =>
      n ← rand_u64;
      let d := delivery h event body n in
      '(errors, made) ← deliver_loop post hooks event body;
      mret (match post d with Ok _ => errors | Err e => (wh_url h +:+ ": " +:+ e) :: errors end, d :: made)
  end.
Definition deliver (post : Delivery → result string bytes) (repo_id event : string) (payload : Value)
    : EV → (list string * list Delivery) * EV := λ w,
  match list_hooks repo_id w with
  | (Err e, w) => (([event_error_text e], []), w)
  | (Ok hooks, w) =>
      let body := json_to_string payload in
      match deliver_loop post (List.filter (λ h, subscribes h event) hooks) event body w with
      | (Ok r, w) => (r, w)
      | (Err e, w) => (([], []), w)
      end
  end.

Definition notify (user_id kind repo_id subject body : string) (now : N) : eff EV EventError unit :=
  n ← rand_u64;
  let id := "nt_" +:+ hex16 n in
  _ ← ev_put (notif_ns user_id) ("notif/" +:+ id) (mkNotification id user_id kind repo_id subject body false now);
  index_add (notif_ns user_id) "notif/index" id.

Definition list_notifications (user_id : string) : eff EV EventError (list Notification) :=
  ids ← ev_index (notif_ns user_id) "notif/index";
  out ← get_all Notification (notif_ns user_id) "notif/" ids;
  mret (newest_first nt_created_at out).

Definition set_read (n : Notification) : Notification :=
  mkNotification (nt_id n) (nt_user_id n) (nt_kind n) (nt_repo_id n) (nt_subject n) (nt_body n) true (nt_created_at n).
Definition mark_read (user_id id : string) : eff EV EventError unit :=
  o ← ev_get Notification (notif_ns user_id) ("notif/" +:+ id);
  match o with
  | Some n => ev_put (notif_ns user_id) ("notif/" +:+ id) (set_read n)
  | None => mret ()
  end.
End events.
