(* ===== verification/EventsTheory.v ===== *)
(** Where webhook deliveries go, and what they carry. *)

From S2P Require Import Prelude Text BTree Backend Toy Primitives ObjectStore Json Events.

Section theory.
Context {St Er : Type} `{OS : ObjectStore St Er} `{RND : SystemRandom} `{MAC : Hmacs} `{HX : Hex} `{JT : JsonText}.
Context `{SI : Serde (list string)} `{SH : Serde Webhook} `{SN : Serde Notification}.

(** ** The primitives *)

Lemma ev_put_spec {T} `{Serde T} ns key (v : T) s g r w' :
  os_id ns → os_id key → os_inv s → ev_put ns key v (s, g) = (r, w') →
  os_inv w'.1 ∧ w'.2 = g ∧ ∀ n k, os_id n → os_id k →
    os_view w'.1 n k = if is_ok r && bool_decide ((n, k) = (ns, key)) then Some (to_vec v) else os_view s n k.
Proof.
  intros Hn Hk I. unfold ev_put, on_store. destruct (os_put ns key (to_vec v) s) as [r0 s0] eqn:E. intros [= <- <-].
  destruct (os_put_spec _ _ _ _ _ _ Hn Hk I E) as [I' V]. split; [done|]. split; [done|]. intros n k Hn' Hk'.
  rewrite V by done. by destruct r0.
Qed.

Lemma ev_get_spec T `{Serde T} ns key s g r w' :
  os_id ns → os_id key → os_inv s → ev_get T ns key (s, g) = (r, w') →
  same_view s w'.1 ∧ w'.2 = g ∧ ∀ o, r = Ok o → o = os_value T s ns key.
Proof.
  intros Hn Hk I. unfold ev_get, on_store, mbind, eff_mbind. destruct (os_get ns key s) as [r0 s0] eqn:E.
  destruct (os_get_spec _ _ _ _ _ Hn Hk I E) as (I' & V & Ho). assert (same_view s s0) as Hs by done.
  destruct r0 as [[b|]|e]; cbn [map_err].
  - specialize (Ho _ eq_refl). unfold lift, os_value. rewrite <-Ho. cbn [mbind option_bind].
    destruct (from_slice b) as [v|]; intros [= <- <-]; (split; [done|]); (split; [done|]); [by intros o [= <-]|done].
  - specialize (Ho _ eq_refl). intros [= <- <-]. split; [done|]. split; [done|]. intros o [= <-]. unfold os_value. by rewrite <-Ho.
  - by intros [= <- <-].
Qed.

Lemma ev_index_spec ns key s g r w' :
  os_id ns → os_id key → os_inv s → ev_index ns key (s, g) = (r, w') →
  same_view s w'.1 ∧ w'.2 = g ∧ ∀ ids, r = Ok ids → ids = default [] (os_value (list string) s ns key).
Proof.
  intros Hn Hk I. unfold ev_index, mbind, eff_mbind. destruct (ev_get _ ns key (s, g)) as [r0 w0] eqn:E.
  destruct (ev_get_spec _ _ _ _ _ _ _ Hn Hk I E) as (V & G & Ho).
  destruct r0 as [o|e]; intros [= <- <-]; (split; [done|]); (split; [done|]); [|done]. intros ids [= <-]. by rewrite (Ho o).
Qed.

(** A step that can only change the namespace [ns], at the keys [P]. *)
Definition only_at (ns : string) (P : string → Prop) (s s' : St) : Prop :=
  os_inv s' ∧ ∀ n k, os_id n → os_id k → n ≠ ns ∨ ¬ P k → os_view s' n k = os_view s n k.

Lemma only_at_trans ns P s1 s2 s3 : only_at ns P s1 s2 → only_at ns P s2 s3 → only_at ns P s1 s3.
Proof. intros [_ V1] [I V2]. split; [done|]. intros n k Hn Hk H. rewrite V2, V1 by done. done. Qed.

Lemma same_view_only ns P s s' : same_view s s' → only_at ns P s s'.
Proof. intros [I V]. split; [done|]. intros. by apply V. Qed.

(** Rewriting the index. *)
Lemma index_add_spec ns key id s g r w' :
  os_id ns → os_id key → os_inv s → index_add ns key id (s, g) = (r, w') →
  only_at ns (λ k, k = key) s w'.1 ∧ w'.2 = g ∧
  ∀ ids, os_value (list string) w'.1 ns key = Some ids →
    os_value (list string) s ns key = Some ids ∨ ids = default [] (os_value (list string) s ns key) ++ [id].
Proof.
  intros Hn Hk I. unfold index_add, mbind, eff_mbind. destruct (ev_index ns key (s, g)) as [r0 [s0 g0]] eqn:E.
  destruct (ev_index_spec _ _ _ _ _ _ Hn Hk I E) as ([I0 V0] & G0 & Ho). simpl in I0, V0, G0. subst g0.
  assert (only_at ns (λ k, k = key) s s0) as Hs by (split; [done|]; intros; by apply V0).
  assert (os_value (list string) s0 ns key = os_value (list string) s ns key) as Hv by (unfold os_value; by rewrite V0).
  destruct r0 as [ids|e].
  2:{ intros [= <- <-]. split; [done|]. split; [done|]. intros ids H. left. simpl in H. congruence. }
  destruct (contains id ids).
  { intros [= <- <-]. split; [done|]. split; [done|]. intros ids' H. left. simpl in H. congruence. }
  intros E1. destruct (ev_put_spec _ _ _ _ _ _ _ Hn Hk I0 E1) as (I1 & G1 & V1). split; [|split; [done|]].
  - apply (only_at_trans _ _ _ s0); [done|]. split; [done|]. intros n k Hn' Hk' H. rewrite V1 by done.
    rewrite (bool_decide_eq_false_2 ((n, k) = (ns, key))), andb_false_r; [done|]. intros [= -> ->]. by destruct H.
  - intros ids' H. unfold os_value in H. rewrite V1, bool_decide_eq_true_2, andb_true_r in H by done.
    rewrite <-(Ho ids) by done. destruct (is_ok r); [|left; by rewrite <-Hv].
    cbn [mbind option_bind] in H. rewrite from_slice_to_vec in H. injection H as <-. by right.
Qed.

Lemma index_remove_spec ns key id s g r w' :
  os_id ns → os_id key → os_inv s → index_remove ns key id (s, g) = (r, w') →
  only_at ns (λ k, k = key) s w'.1 ∧ w'.2 = g ∧
  ∀ ids x, os_value (list string) w'.1 ns key = Some ids → x ∈ ids →
    x ∈ default [] (os_value (list string) s ns key) ∧ (is_ok r = true → x ≠ id).
Proof.
  intros Hn Hk I. unfold index_remove, mbind, eff_mbind. destruct (ev_index ns key (s, g)) as [r0 [s0 g0]] eqn:E.
  destruct (ev_index_spec _ _ _ _ _ _ Hn Hk I E) as ([I0 V0] & G0 & Ho). simpl in I0, V0, G0. subst g0.
  assert (only_at ns (λ k, k = key) s s0) as Hs by (split; [done|]; intros; by apply V0).
  assert (os_value (list string) s0 ns key = os_value (list string) s ns key) as Hv by (unfold os_value; by rewrite V0).
  destruct r0 as [ids|e].
  2:{ intros [= <- <-]. split; [done|]. split; [done|]. intros ids x H Hx. simpl in H. split; [|done]. by rewrite <-Hv, H. }
  intros E1. destruct (ev_put_spec _ _ _ _ _ _ _ Hn Hk I0 E1) as (I1 & G1 & V1). split; [|split; [done|]].
  - apply (only_at_trans _ _ _ s0); [done|]. split; [done|]. intros n k Hn' Hk' H. rewrite V1 by done.
    rewrite (bool_decide_eq_false_2 ((n, k) = (ns, key))), andb_false_r; [done|]. intros [= -> ->]. by destruct H.
  - intros ids' x H Hx. unfold os_value in H. rewrite V1, bool_decide_eq_true_2, andb_true_r in H by done.
    rewrite <-(Ho ids) by done. destruct (is_ok r).
    + cbn [mbind option_bind] in H. rewrite from_slice_to_vec in H. injection H as <-. apply list_elem_of_filter in Hx as [? ?]. done.
    + split; [|done]. change (os_value (list string) s0 ns key = Some ids') in H. rewrite Hv in H. by rewrite (Ho ids eq_refl), H.
Qed.

(** ** Runs *)

Inductive event_op :=
| ECreate (repo_id url secret : string) (events : list string) (now : N)
| EDelete (repo_id id : string)
| ENotify (user_id kind repo_id subject body : string) (now : N)
| ERead (user_id id : string).

Definition exec_event (op : event_op) : eff EV EventError unit :=
  match op with
  | ECreate repo_id url secret events now => _ ← create_hook repo_id url secret events now; mret ()
  | EDelete repo_id id => delete_hook repo_id id
  | ENotify user_id kind repo_id subject body now => notify user_id kind repo_id subject body now
  | ERead user_id id => mark_read user_id id
  end.
(** Failed operations are part of a run. *)
Fixpoint run_events (ops : list event_op) (w : EV (St := St)) : EV :=
  match ops with [] => w | op :: ops => run_events ops (exec_event op w).2 end.

Definition hook_key (n : N) : string := "hook/" +:+ ("wh_" +:+ hex16 n).
Definition INDEX : string := "hook/index".

(** The names an operation uses are names of the store. *)
Definition event_ids (op : event_op) : Prop :=
  match op with
  | ECreate repo_id _ _ _ _ => os_id (hooks_ns repo_id) ∧ os_id INDEX ∧ ∀ n, os_id (hook_key n)
  | EDelete repo_id id => os_id (hooks_ns repo_id) ∧ os_id INDEX ∧ os_id ("hook/" +:+ id)
  | ENotify user_id _ _ _ _ _ =>
      os_id (notif_ns user_id) ∧ os_id "notif/index" ∧ ∀ n, os_id ("notif/" +:+ ("nt_" +:+ hex16 n))
  | ERead user_id id => os_id (notif_ns user_id) ∧ os_id ("notif/" +:+ id)
  end.

(** A hook as some [create_hook] of [ops] made it. *)
Definition made_by (ops : list event_op) (repo_id : string) (h : Webhook) : Prop :=
  ∃ url secret events now, ECreate repo_id url secret events now ∈ ops ∧
    starts_with (as_bytes "https://") (as_bytes url) = true ∧ h = mkWebhook (wh_id h) repo_id url secret events true now.

Record hooks_inv (ops : list event_op) (s : St) : Prop := {
  hi_inv : os_inv s;
  hi_index : ∀ repo ids id, os_id (hooks_ns repo) → os_id INDEX → os_value (list string) s (hooks_ns repo) INDEX = Some ids →
    id ∈ ids → ∃ n, id = "wh_" +:+ hex16 n;
  hi_hook : ∀ repo n h, os_id (hooks_ns repo) → os_id (hook_key n) →
    os_value Webhook s (hooks_ns repo) (hook_key n) = Some h → made_by ops repo h;
}.

Lemma made_by_mono ops ops' repo h : ops ⊆ ops' → made_by ops repo h → made_by ops' repo h.
Proof. intros Hs (u & sc & es & t & Hin & H). exists u, sc, es, t. split; [by apply Hs|done]. Qed.

Lemma hooks_inv_mono ops ops' s : ops ⊆ ops' → hooks_inv ops s → hooks_inv ops' s.
Proof. intros Hs [I1 I2 I3]. split; [done|done|]. intros. eapply made_by_mono; [done|]. by eapply I3. Qed.

Lemma hook_key_index n : hook_key n ≠ INDEX.
Proof. unfold hook_key, INDEX. intros H. apply (f_equal as_bytes) in H. rewrite !as_bytes_app in H. discriminate H. Qed.

Lemma hooks_notif repo user : hooks_ns repo ≠ notif_ns user.
Proof. unfold hooks_ns, notif_ns. intros H. apply (f_equal as_bytes) in H. rewrite !as_bytes_app in H. discriminate H. Qed.

Lemma hooks_ns_inj r r' : hooks_ns r = hooks_ns r' → r = r'.
Proof.
  unfold hooks_ns. intros H. apply (f_equal as_bytes) in H. rewrite !as_bytes_app in H. by apply app_inv_head, as_bytes_inj in H.
Qed.

(** Steps in another namespace keep the hooks. *)
Lemma hooks_inv_other ops ns s s' : (∀ repo, hooks_ns repo ≠ ns) → only_at ns (λ _, True) s s' → hooks_inv ops s → hooks_inv ops s'.
Proof.
  intros Hns [I V] [I1 I2 I3]. split; [done|..].
  - intros repo ids id H1 H2. unfold os_value. rewrite V by (try done; by left). by apply I2.
  - intros repo n h H1 H2. unfold os_value. rewrite V by (try done; by left). by apply I3.
Qed.

Lemma only_at_weaken ns (P Q : string → Prop) s s' : (∀ k, P k → Q k) → only_at ns P s s' → only_at ns Q s s'.
Proof. intros H [I V]. split; [done|]. intros n k Hn Hk [?|?]; apply V; auto. Qed.

Lemma rand_u64_spec (w : EV (St := St)) : ∃ n g, rand_u64 w = (Ok n, (w.1, g)).
Proof. destruct w as [s g]. unfold rand_u64. destruct (random_vec 8 g) as [r g']. by eexists _, _. Qed.

Lemma ev_put_only {T} `{Serde T} ns key (v : T) s g r w' :
  os_id ns → os_id key → os_inv s → ev_put ns key v (s, g) = (r, w') → only_at ns (λ k, k = key) s w'.1.
Proof.
  intros Hn Hk I E. destruct (ev_put_spec _ _ _ _ _ _ _ Hn Hk I E) as (I' & _ & V). split; [done|]. intros n k Hn' Hk' Hx.
  rewrite V by done. rewrite (bool_decide_eq_false_2 ((n, k) = (ns, key))), andb_false_r; [done|]. intros [= -> ->]. by destruct Hx.
Qed.

Lemma notify_only user kind repo subject body now w r w' :
  event_ids (ENotify user kind repo subject body now) → os_inv w.1 → notify user kind repo subject body now w = (r, w') →
  only_at (notif_ns user) (λ _, True) w.1 w'.1.
Proof.
  intros (H1 & H2 & H3) I. unfold notify, mbind, eff_mbind. destruct (rand_u64_spec w) as (n & g & ->).
  destruct (ev_put _ _ _ _) as [r1 [s1 g1]] eqn:E1. apply ev_put_only in E1 as O1; [|done..].
  destruct r1 as [[]|e]; [|intros [= <- <-]; by eapply only_at_weaken; [|exact O1]].
  intros E2. destruct (index_add_spec _ _ _ _ _ _ _ H1 H2 (proj1 O1) E2) as (O2 & _).
  eapply only_at_trans; (eapply only_at_weaken; [|eassumption]); done.
Qed.

Lemma mark_read_only user id w r w' :
  event_ids (ERead user id) → os_inv w.1 → mark_read user id w = (r, w') → only_at (notif_ns user) (λ _, True) w.1 w'.1.
Proof.
  intros (H1 & H2) I. destruct w as [s g]. unfold mark_read, mbind, eff_mbind.
  destruct (ev_get Notification _ _ (s, g)) as [r1 [s1 g1]] eqn:E1. destruct (ev_get_spec _ _ _ _ _ _ _ H1 H2 I E1) as (V & _ & _).
  pose proof (same_view_only (notif_ns user) (λ _, True) _ _ V) as O1. destruct r1 as [[n|]|e]; [|by intros [= <- <-]..].
  intros E2. apply ev_put_only in E2; [|done|done|apply V]. eapply only_at_trans; [exact O1|]. by eapply only_at_weaken; [|exact E2].
Qed.

Lemma create_hook_inv ops repo url secret events now w r w' :
  event_ids (ECreate repo url secret events now) → hooks_inv ops w.1 →
  create_hook repo url secret events now w = (r, w') → hooks_inv (ECreate repo url secret events now :: ops) w'.1.
Proof.
  intros (H1 & H2 & H3) Hi. assert (ops ⊆ ECreate repo url secret events now :: ops) as Hsub by (intros x; by right).
  unfold create_hook. destruct (starts_with _ _) eqn:Hs; [cbn [negb]|intros [= <- <-]; by eapply hooks_inv_mono].
  unfold mbind, eff_mbind. destruct (rand_u64_spec w) as (m & g & ->). set (h := mkWebhook _ _ _ _ _ _ _).
  destruct (ev_put _ _ _ _) as [r1 [s1 g1]] eqn:E1. change ("hook/" +:+ ("wh_" +:+ hex16 m)) with (hook_key m) in E1.
  destruct (ev_put_spec _ _ _ _ _ _ _ H1 (H3 m) (hi_inv _ _ Hi) E1) as (I1 & _ & V1). simpl in I1, V1.
  assert (hooks_inv (ECreate repo url secret events now :: ops) s1) as Hi1.
  { split; [done|..].
    - intros repo' ids id G1 G2. unfold os_value. rewrite V1 by done.
      rewrite (bool_decide_eq_false_2 ((hooks_ns repo', INDEX) = _)), andb_false_r; [by apply (hi_index _ _ Hi)|].
      intros G. apply (hook_key_index m). by apply (f_equal snd) in G.
    - intros repo' n h' G1 G2. unfold os_value. rewrite V1 by done.
      destruct (is_ok r1 && _) eqn:Ek; [|intros G; eapply made_by_mono; [exact Hsub|]; by eapply (hi_hook _ _ Hi)].
      apply andb_true_iff in Ek as [_ Hp%bool_decide_eq_true]. apply (f_equal fst), hooks_ns_inj in Hp as ->.
      cbn [mbind option_bind]. rewrite from_slice_to_vec. intros [= <-]. exists url, secret, events, now.
      split; [by left|]. done. }
  destruct r1 as [[]|e]; [|by intros [= <- <-]].
  destruct (index_add _ _ _ _) as [r2 w2] eqn:E2. destruct (index_add_spec _ _ _ _ _ _ _ H1 H2 I1 E2) as ([I2 V2] & _ & Hids).
  assert (hooks_inv (ECreate repo url secret events now :: ops) w2.1) as Hi2.
  { split; [done|..].
    - intros repo' ids id G1 G2 G. destruct (decide (repo' = repo)) as [->|Hne].
      + destruct (Hids _ G) as [G'| ->]; [by eapply (hi_index _ _ Hi1)|]. intros [Hin| ->%list_elem_of_singleton]%elem_of_app; [|by exists m].
        destruct (os_value (list string) s1 (hooks_ns repo) INDEX) as [ids0|] eqn:E0; [|by apply elem_of_nil in Hin].
        by eapply (hi_index _ _ Hi1); [..|exact E0|].
      + unfold os_value in G. rewrite V2 in G; [by eapply (hi_index _ _ Hi1)|done|done|]. left. intros G'%hooks_ns_inj. done.
    - intros repo' n h' G1 G2 G. unfold os_value in G. rewrite V2 in G; [by eapply (hi_hook _ _ Hi1)|done|done|].
      right. intros G'. by apply (hook_key_index n). }
  destruct r2 as [[]|e]; by intros [= <- <-].
Qed.

Lemma delete_hook_inv ops repo id w r w' :
  event_ids (EDelete repo id) → hooks_inv ops w.1 → delete_hook repo id w = (r, w') → hooks_inv ops w'.1.
Proof.
  intros (H1 & H2 & H3) Hi. destruct w as [s g]. simpl in Hi. unfold delete_hook, on_store, mbind, eff_mbind.
  destruct (os_delete _ _ s) as [r1 s1] eqn:E1. destruct (os_delete_spec _ _ _ _ _ H1 H3 (hi_inv _ _ Hi) E1) as [I1 V1].
  assert (hooks_inv ops s1) as Hi1.
  { split; [done|..].
    - intros repo' ids x G1 G2. unfold os_value. rewrite V1 by done. destruct (is_ok r1 && _); [done|]. by apply (hi_index _ _ Hi).
    - intros repo' n h G1 G2. unfold os_value. rewrite V1 by done. destruct (is_ok r1 && _); [done|]. by apply (hi_hook _ _ Hi). }
  destruct r1 as [[]|e]; cbn [map_err]; [|by intros [= <- <-]]. intros E2.
  destruct (index_remove_spec _ _ _ _ _ _ _ H1 H2 I1 E2) as ([I2 V2] & _ & Hids). split; [done|..].
  - intros repo' ids x G1 G2 G Hx. destruct (decide (repo' = repo)) as [->|Hne].
    + destruct (Hids _ _ G Hx) as [Hin _].
      destruct (os_value (list string) s1 (hooks_ns repo) INDEX) as [ids0|] eqn:E0; [|by apply elem_of_nil in Hin].
      by eapply (hi_index _ _ Hi1); [..|exact E0|].
    + unfold os_value in G. rewrite V2 in G; [by eapply (hi_index _ _ Hi1)|done|done|]. left. intros G'%hooks_ns_inj. done.
  - intros repo' n h G1 G2 G. unfold os_value in G. rewrite V2 in G; [by eapply (hi_hook _ _ Hi1)|done|done|].
    right. intros G'. by apply (hook_key_index n).
Qed.

Lemma exec_event_inv ops op w : event_ids op → hooks_inv ops w.1 → hooks_inv (op :: ops) (exec_event op w).2.1.
Proof.
  intros Hk Hi. assert (ops ⊆ op :: ops) as Hsub by (intros x; by right).
  destruct op as [repo url secret events now|repo id|user kind repo subject body now|user id]; cbn [exec_event].
  - unfold mbind, eff_mbind. destruct (create_hook _ _ _ _ _ w) as [r w'] eqn:E. apply (create_hook_inv ops) in E; [|done..]. by destruct r.
  - destruct (delete_hook repo id w) as [r w'] eqn:E. eapply hooks_inv_mono; [done|]. by eapply delete_hook_inv.
  - destruct (notify _ _ _ _ _ _ w) as [r w'] eqn:E. eapply hooks_inv_mono; [done|]. simpl.
    eapply hooks_inv_other; [|eapply notify_only; [done|apply Hi|exact E]|done]. intros ?. apply hooks_notif.
  - destruct (mark_read _ _ w) as [r w'] eqn:E. eapply hooks_inv_mono; [done|]. simpl.
    eapply hooks_inv_other; [|eapply mark_read_only; [done|apply Hi|exact E]|done]. intros ?. apply hooks_notif.
Qed.

Lemma run_events_inv ops : ∀ done w, Forall event_ids ops → hooks_inv done w.1 → hooks_inv (reverse ops ++ done) (run_events ops w).1.
Proof.
  induction ops as [|op ops IH]; intros dn w F Hi; cbn [run_events]; [done|]. apply Forall_cons in F as [Hk F].
  rewrite reverse_cons, <-app_assoc. apply IH; [done|]. by apply exec_event_inv.
Qed.
(** ** Deliveries *)

Lemma elem_of_option_list {A} (o : option A) x : x ∈ option_list o ↔ o = Some x.
Proof. destruct o as [y|]; simpl; [rewrite list_elem_of_singleton|rewrite elem_of_nil]; naive_solver. Qed.

Lemma get_all_spec T `{Serde T} ns kind ids : os_id ns → (∀ id, id ∈ ids → os_id (kind +:+ id)) →
  ∀ s g r w', os_inv s → get_all T ns kind ids (s, g) = (r, w') →
  same_view s w'.1 ∧ ∀ out, r = Ok out → ∀ v, v ∈ out ↔ ∃ id, id ∈ ids ∧ os_value T s ns (kind +:+ id) = Some v.
Proof.
  intros Hn. induction ids as [|id ids IH]; intros Hid s g r w' I; cbn [get_all]; unfold mbind, eff_mbind.
  { intros [= <- <-]. split; [done|]. intros out [= <-] v. split; [by intros ?%elem_of_nil|]. by intros (id & ?%elem_of_nil & _). }
  destruct (ev_get T _ _ _) as [r1 [s1 g1]] eqn:E1.
  destruct (ev_get_spec _ _ _ _ _ _ _ Hn (Hid id ltac:(left)) I E1) as ([I1 V1] & _ & Ho). simpl in I1, V1.
  destruct r1 as [o|e]; [|by intros [= <- <-]]. destruct (get_all T ns kind ids (s1, g1)) as [r2 w2] eqn:E2.
  destruct (IH (λ i Hi, Hid i ltac:(by right)) _ _ _ _ I1 E2) as [[I2 V2] Hr].
  assert (same_view s w2.1) as Hs by (split; [done|]; intros; by rewrite V2, V1).
  destruct r2 as [rest|e]; intros [= <- <-]; (split; [done|]); [|done]. intros out [= <-] v.
  rewrite elem_of_app, elem_of_option_list, (Ho _ eq_refl), (Hr _ eq_refl). setoid_rewrite elem_of_cons. split.
  - intros [Hv|(i & Hi & Hv)]; [by exists id; auto|]. exists i. split; [by right|]. rewrite <-Hv. unfold os_value.
    rewrite V1; [done|done|]. apply Hid. by right.
  - intros (i & [->|Hi] & Hv); [by left|]. right. exists i. split; [done|]. rewrite <-Hv. unfold os_value.
    rewrite V1; [done|done|]. apply Hid. by right.
Qed.

Lemma newest_first_elem {T} (f : T → N) l x : x ∈ newest_first f l ↔ x ∈ l.
Proof. unfold newest_first. by rewrite sort_by_perm. Qed.

(** What [list_hooks] returns: the objects the index names. *)
Lemma list_hooks_spec repo s g r w' :
  os_id (hooks_ns repo) → os_id INDEX → os_inv s →
  (∀ id, id ∈ default [] (os_value (list string) s (hooks_ns repo) INDEX) → os_id ("hook/" +:+ id)) →
  list_hooks repo (s, g) = (r, w') →
  same_view s w'.1 ∧ ∀ hooks, r = Ok hooks → ∀ h, h ∈ hooks ↔
    ∃ id, id ∈ default [] (os_value (list string) s (hooks_ns repo) INDEX) ∧
          os_value Webhook s (hooks_ns repo) ("hook/" +:+ id) = Some h.
Proof.
  intros Hn Hk I Hid. unfold list_hooks, mbind, eff_mbind. destruct (ev_index _ _ _) as [r1 [s1 g1]] eqn:E1.
  destruct (ev_index_spec _ _ _ _ _ _ Hn Hk I E1) as ([I1 V1] & _ & Ho). simpl in I1, V1.
  destruct r1 as [ids|e]; [|by intros [= <- <-]]. rewrite (Ho _ eq_refl) in *.
  destruct (get_all _ _ _ _ _) as [r2 w2] eqn:E2. destruct (get_all_spec _ _ _ _ Hn Hid _ _ _ _ I1 E2) as [[I2 V2] Hr].
  assert (same_view s w2.1) as Hs by (split; [done|]; intros; by rewrite V2, V1).
  destruct r2 as [out|e]; intros [= <- <-]; (split; [done|]); [|done]. intros hooks [= <-] h. rewrite newest_first_elem, (Hr _ eq_refl).
  split; intros (id & Hi & Hv); exists id; (split; [done|]); rewrite <-Hv; unfold os_value; rewrite V1; auto.
Qed.

Lemma deliver_loop_spec post hooks event body : ∀ w : EV (St := St), ∃ errors made g,
  deliver_loop post hooks event body w = (Ok (errors, made), (w.1, g)) ∧
  Forall2 (λ h d, ∃ n, d = delivery h event body n) hooks made.
Proof.
  induction hooks as [|h hooks IH]; intros w; cbn [deliver_loop].
  { exists [], [], w.2. by destruct w. }
  unfold mbind, eff_mbind. destruct (rand_u64_spec w) as (n & g & ->). destruct (IH (w.1, g)) as (errors & made & g' & -> & F).
  eexists _, _, g'. split; [done|]. constructor; [by exists n|done].
Qed.

Lemma subscribes_events h event : subscribes h event = true → "*" ∈ wh_events h ∨ event ∈ wh_events h.
Proof.
  unfold subscribes. intros [_ (e & Hin & He)%existsb_exists]%andb_true_iff. apply list_elem_of_In in Hin.
  apply orb_true_iff in He as [ ->%bool_decide_eq_true| ->%bool_decide_eq_true]; auto.
Qed.

Lemma deliver_to_made ops post repo event payload w errors made w' :
  hooks_inv ops w.1 → os_id (hooks_ns repo) → os_id INDEX → (∀ n, os_id (hook_key n)) →
  deliver post repo event payload w = ((errors, made), w') →
  same_view w.1 w'.1 ∧ ∀ d, d ∈ made → ∃ h n, made_by ops repo h ∧ subscribes h event = true ∧
    d = delivery h event (json_to_string payload) n.
Proof.
  intros Hi Hn Hk Hh. destruct w as [s g]. simpl in Hi. unfold deliver. destruct (list_hooks repo (s, g)) as [r w1] eqn:E1.
  assert (∀ id, id ∈ default [] (os_value (list string) s (hooks_ns repo) INDEX) → os_id ("hook/" +:+ id)) as Hid.
  { intros id Hin. destruct (os_value (list string) s (hooks_ns repo) INDEX) as [ids|] eqn:E0; [|by apply elem_of_nil in Hin].
    destruct (hi_index _ _ Hi _ _ _ Hn Hk E0 Hin) as (n & ->). apply Hh. }
  destruct (list_hooks_spec _ _ _ _ _ Hn Hk (hi_inv _ _ Hi) Hid E1) as [Hs Hl].
  destruct r as [hooks|e]; [|intros [= <- <- <-]; split; [done|]; by intros d ?%elem_of_nil].
  destruct (deliver_loop_spec post (List.filter (λ h, subscribes h event) hooks) event (json_to_string payload) w1)
    as (er & md & g' & -> & F). intros [= -> -> <-]. split; [done|]. intros d Hd.
  apply list_elem_of_lookup in Hd as [i Hd].
  destruct (Forall2_lookup_r _ _ _ _ _ F Hd) as (h & Hin%list_elem_of_lookup_2 & n & ->). apply list_elem_of_In, filter_In in Hin as [Hin Hsub].
  exists h, n. split; [|done]. apply list_elem_of_In, (Hl _ eq_refl) in Hin as (id & Hin & Hv).
  destruct (os_value (list string) s (hooks_ns repo) INDEX) as [ids|] eqn:E0; [|by apply elem_of_nil in Hin].
  destruct (hi_index _ _ Hi _ _ _ Hn Hk E0 Hin) as (m & ->). by eapply (hi_hook _ _ Hi).
Qed.
(** C9. Webhook deliveries.  However hooks were registered and deleted before, from a
    store without hooks, and whichever of these operations failed, every request [deliver]
    makes for an event of a repository goes to the URL, which is https, of a hook somebody
    registered for this repository and this event (or every event), carries the payload as
    its body and the HMAC of that body under the secret of that registration as its
    signature; and the store is left as it was. *)
Theorem webhook_deliveries ops post repo event payload s g errors made w' :
  os_inv s → (∀ r k, os_view s (hooks_ns r) k = None) → Forall event_ids ops →
  os_id (hooks_ns repo) → os_id INDEX → (∀ n, os_id (hook_key n)) →
  deliver post repo event payload (run_events ops (s, g)) = ((errors, made), w') →
  same_view (run_events ops (s, g)).1 w'.1 ∧
  ∀ d, d ∈ made → ∃ url secret events now n,
    ECreate repo url secret events now ∈ ops ∧ starts_with (as_bytes "https://") (as_bytes url) = true ∧
    ("*" ∈ events ∨ event ∈ events) ∧
    d = mkDelivery url (json_to_string payload)
          [("X-SecGit-Signature", "sha256=" +:+ hex_encode (hmac_sha256 (as_bytes secret) (json_to_string payload)));
           ("X-SecGit-Event", event); ("X-SecGit-Delivery", hex16 n)].
Proof.
  intros I V F Hn Hk Hh E. assert (hooks_inv [] s) as H0 by (split; [done|..]; intros *; unfold os_value; by rewrite V).
  apply (run_events_inv _ _ (s, g) F) in H0. destruct (deliver_to_made _ _ _ _ _ _ _ _ _ H0 Hn Hk Hh E) as [Hs Hd].
  split; [done|]. intros d (h & n & (url & secret & events & now & Hin & Hu & Hh') & Hsub & ->)%Hd.
  exists url, secret, events, now, n. apply subscribes_events in Hsub. unfold delivery. rewrite Hh' in Hsub |- *.
  split; [|done]. rewrite app_nil_r in Hin. by rewrite elem_of_reverse in Hin.
Qed.
End theory.

(** ** At a concrete store *)

#[local] Existing Instance toy_rng.
#[local] Existing Instance toy_hex.
#[local] Existing Instance toy_hmacs.
#[local] Existing Instance toy_serde.
#[local] Existing Instance memory_store.
#[local] Instance toy_text : JsonText := {| json_from_slice b := Err "expected value"; json_to_string v := as_bytes "{}" |}.

Definition hook_code (h : Webhook) :=
  (wh_id h, wh_repo_id h, wh_url h, wh_secret h, wh_events h, wh_active h, wh_created_at h).
Definition hook_uncode (x : string * string * string * string * list string * bool * N) : option Webhook :=
  let '(id, r, u, s, e, a, c) := x in Some (mkWebhook id r u s e a c).
#[local] Instance Webhook_eq_dec : EqDecision Webhook.
Proof. solve_decision. Defined.
Lemma hook_uncode_code h : hook_uncode (hook_code h) = Some h.
Proof. by destruct h. Qed.
#[local] Instance Webhook_countable : Countable Webhook := inj_countable hook_code hook_uncode hook_uncode_code.

Definition notification_code (n : Notification) :=
  (nt_id n, nt_user_id n, nt_kind n, nt_repo_id n, nt_subject n, nt_body n, nt_read n, nt_created_at n).
Definition notification_uncode (x : string * string * string * string * string * string * bool * N) : option Notification :=
  let '(id, u, k, r, s, b, d, c) := x in Some (mkNotification id u k r s b d c).
#[local] Instance Notification_eq_dec : EqDecision Notification.
Proof. solve_decision. Defined.
Lemma notification_uncode_code n : notification_uncode (notification_code n) = Some n.
Proof. by destruct n. Qed.
#[local] Instance Notification_countable : Countable Notification :=
  inj_countable notification_code notification_uncode notification_uncode_code.

Definition toy_events : list event_op := [ECreate "r" "http://h" "k" ["*"] 4; ECreate "r" "https://h" "k" ["*"] 5].
Definition toy_made : list Delivery :=
  (deliver (λ _, Ok []) "r" "push" VNull (run_events toy_events (∅ : gmap (string * string) bytes, (9 : @rng toy_rng)))).1.2.

(** One request is made, to the hook whose URL was accepted. *)
Lemma webhook_deliveries_witness : map dl_url toy_made = ["https://h"] ∧
  ∀ d, d ∈ toy_made → ∃ url secret events now n,
    ECreate "r" url secret events now ∈ toy_events ∧ starts_with (as_bytes "https://") (as_bytes url) = true ∧
    ("*" ∈ events ∨ "push" ∈ events) ∧
    d = mkDelivery url (as_bytes "{}")
          [("X-SecGit-Signature", "sha256=" +:+ hex_encode (hmac_sha256 (as_bytes secret) (as_bytes "{}")));
           ("X-SecGit-Event", "push"); ("X-SecGit-Delivery", hex16 n)].
Proof.
  split; [vm_compute; reflexivity|]. unfold toy_made.
  destruct (deliver _ _ _ _ _) as [[errors made] w'] eqn:E.
  refine (proj2 (webhook_deliveries toy_events _ "r" "push" VNull ∅ (9 : @rng toy_rng) errors made w' _ _ _ _ _ _ E)); clear E; try done.
  repeat constructor.
Defined.
