(* ===== verification/Metrics.v ===== *)
(** [bins/secgit-server/src/metrics.rs]: the counters of the server and their text
    exposition.  The structure of atomics is a map from its fields; [fetch_add] wraps. *)

From Stdlib Require Import Ascii.
From S2P Require Import Prelude Text.

Inductive Counter :=
| requests_total | responses_2xx | responses_3xx | responses_4xx | responses_5xx
| rate_limited_total | body_rejected_total | header_rejected_total
| conn_accepted_total | conn_rejected_total | active_connections
| ephemeral_created_total | ephemeral_gc_total
| push_total | push_rejected_total | seal_total | seal_millis_total
| pow_challenges_total | pow_failures_total | abuse_reports_total | takedowns_total.

#[global] Instance Counter_eq_dec : EqDecision Counter.
Proof. solve_decision. Defined.

(** [active_connections] is an [i64], the others are [u64]: all are kept as 64 bits. *)
Definition Metrics : Type := Counter → N.
Definition metrics_new : Metrics := λ _, 0.

Definition metrics_add (c : Counter) (n : N) (m : Metrics) : Metrics :=
  λ c', if bool_decide (c' = c) then wrap_add64 (m c) n else m c'.
Definition inc (c : Counter) : Metrics → Metrics := metrics_add c 1.
(** [fetch_sub(1)]: the drop of [ConnGuard]. *)
Definition dec (c : Counter) : Metrics → Metrics := metrics_add c (2 ^ 64 - 1).

Definition status_class (status : N) : Counter :=
  if status / 100 =? 2 then responses_2xx
  else if status / 100 =? 3 then responses_3xx
  else if status / 100 =? 4 then responses_4xx
  else responses_5xx.
Definition record_status (status : N) (m : Metrics) : Metrics := inc (status_class status) (inc requests_total m).

(** [i64::to_string]. *)
Definition signed_text (n : N) : string := if n <? 2 ^ 63 then pretty n else "-" +:+ pretty (2 ^ 64 - n).

(** The series, in the order of [render]. *)
Definition series : list (Counter * string * string * string) :=
  [(requests_total, "secgit_requests_total", "Total HTTP requests handled.", "counter");
   (responses_2xx, "secgit_responses_2xx_total", "Responses with a 2xx status.", "counter");
   (responses_3xx, "secgit_responses_3xx_total", "Responses with a 3xx status.", "counter");
   (responses_4xx, "secgit_responses_4xx_total", "Responses with a 4xx status.", "counter");
   (responses_5xx, "secgit_responses_5xx_total", "Responses with a 5xx status.", "counter");
   (rate_limited_total, "secgit_rate_limited_total", "Requests rejected by a rate limiter.", "counter");
   (body_rejected_total, "secgit_body_rejected_total", "Requests rejected for exceeding the body size cap.", "counter");
   (header_rejected_total, "secgit_header_rejected_total", "Requests rejected for oversized/too-many headers.", "counter");
   (conn_accepted_total, "secgit_connections_accepted_total", "TCP connections accepted for handling.", "counter");
   (conn_rejected_total, "secgit_connections_rejected_total", "TCP connections rejected by the connection cap.", "counter");
   (active_connections, "secgit_active_connections", "Connections currently being served.", "gauge");
   (ephemeral_created_total, "secgit_ephemeral_created_total", "Anonymous ephemeral repos created.", "counter");
   (ephemeral_gc_total, "secgit_ephemeral_gc_total", "Expired ephemeral repos garbage-collected.", "counter");
   (push_total, "secgit_push_total", "Successful git receive-pack (push) operations.", "counter");
   (push_rejected_total, "secgit_push_rejected_total", "Pushes rejected (quota/size/rate).", "counter");
   (seal_total, "secgit_seal_total", "Repo seal (encrypt-to-store) operations.", "counter");
   (seal_millis_total, "secgit_seal_millis_total", "Cumulative wall-clock spent sealing repos.", "counter");
   (pow_challenges_total, "secgit_pow_challenges_total", "Proof-of-work challenges issued.", "counter");
   (pow_failures_total, "secgit_pow_failures_total", "Proof-of-work verifications that failed.", "counter");
   (abuse_reports_total, "secgit_abuse_reports_total", "Abuse reports received.", "counter");
   (takedowns_total, "secgit_takedowns_total", "Operator takedowns (force-delete by id).", "counter")].

Definition value_text (c : Counter) (n : N) : string :=
  match c with active_connections => signed_text n | _ => pretty n end.
Definition text_line (l : string) : string := l +:+ string_of_list_byte [NL].
Definition metric_lines (name help ty val : string) : string :=
  text_line ("# HELP " +:+ name +:+ " " +:+ help) +:+ text_line ("# TYPE " +:+ name +:+ " " +:+ ty) +:+
  text_line (name +:+ " " +:+ val).
Definition render (m : Metrics) : string :=
  foldr (λ '(c, name, help, ty) s, metric_lines name help ty (value_text c (m c)) +:+ s) "" series.

(** ** Theory *)

(** Every counter is exposed, once. *)
Lemma series_complete c : length (List.filter (λ '(c', _, _, _), bool_decide (c' = c)) series) = 1%nat.
Proof. by destruct c. Qed.

(** The requests are those of the four classes. *)
Definition balanced (m : Metrics) : Prop :=
  m requests_total = (m responses_2xx + m responses_3xx + m responses_4xx + m responses_5xx) mod 2 ^ 64.

Lemma wrap_inc x y w b : w = wrap_add64 b 1 → x = y + w → x mod 2 ^ 64 = (y + b + 1) mod 2 ^ 64.
Proof. intros -> ->. unfold wrap_add64. by rewrite N.Div0.add_mod_idemp_r, N.add_assoc. Qed.

Lemma record_status_balanced s m : balanced m → balanced (record_status s m).
Proof.
  unfold balanced, record_status, inc, metrics_add. intros H.
  assert (wrap_add64 (m requests_total) 1 = (m responses_2xx + m responses_3xx + m responses_4xx + m responses_5xx + 1) mod 2 ^ 64) as ->.
  { unfold wrap_add64. by rewrite H, N.Div0.add_mod_idemp_l. }
  unfold status_class. destruct (_ =? 2); [|destruct (_ =? 3); [|destruct (_ =? 4)]]; repeat case_bool_decide; try done; symmetry.
  - etrans; [apply (wrap_inc _ (m responses_3xx + m responses_4xx + m responses_5xx) _ (m responses_2xx) eq_refl); lia|]. f_equal; lia.
  - etrans; [apply (wrap_inc _ (m responses_2xx + m responses_4xx + m responses_5xx) _ (m responses_3xx) eq_refl); lia|]. f_equal; lia.
  - etrans; [apply (wrap_inc _ (m responses_2xx + m responses_3xx + m responses_5xx) _ (m responses_4xx) eq_refl); lia|]. f_equal; lia.
  - etrans; [apply (wrap_inc _ (m responses_2xx + m responses_3xx + m responses_4xx) _ (m responses_5xx) eq_refl); lia|]. f_equal; lia.
Qed.

(** Numbers are printed with digits. *)
Lemma pretty_go_digits x s : Forall (λ b, is_ascii_digit b = true) (as_bytes s) →
  Forall (λ b, is_ascii_digit b = true) (as_bytes (pretty_N_go x s)).
Proof.
  revert s. induction (N.lt_wf_0 x) as [x _ IH]. intros s Hs.
  destruct (decide (0 < x)) as [Hpos|]; [|by assert (x = 0) as -> by lia].
  rewrite pretty_N_go_step by done. pose proof (N.div_lt x 10 Hpos ltac:(done)). apply IH; [done|].
  change (as_bytes (String ?c ?t)) with (byte_of_ascii c :: as_bytes t). constructor; [|done].
  assert (Forall (λ d, is_ascii_digit (byte_of_ascii (pretty_N_char d)) = true) (N.of_nat <$> seq 0 10)) as F by vm_decide.
  rewrite Forall_forall in F. apply F, list_elem_of_fmap. exists (N.to_nat (x mod 10)). split; [by rewrite N2Nat.id|]. apply elem_of_seq.
  pose proof (N.mod_lt x 10 ltac:(done)) as Hm. revert Hm. generalize (x mod 10). lia.
Qed.

Lemma pretty_digits (n : N) : Forall (λ b, is_ascii_digit b = true) (as_bytes (pretty n)).
Proof. unfold pretty, pretty_N. case_decide; [by repeat constructor|]. by apply pretty_go_digits. Qed.

(** What a data line may hold: a name of lower-case letters, digits and underscores, and
    a number. *)
Definition name_char (b : byte) : bool := in_range 97 122 b || is_ascii_digit b || bool_decide (b = x5f).
Definition value_char (b : byte) : bool := is_ascii_digit b || bool_decide (b = x2d).
Definition data_line (l : bytes) : Prop := ∃ name val,
  l = name ++ x20 :: val ∧ starts_with (as_bytes "secgit_") name = true ∧
  Forall (λ b, name_char b = true) name ∧ Forall (λ b, value_char b = true) val.
Definition comment_line (l : bytes) : Prop :=
  starts_with (as_bytes "# HELP ") l = true ∨ starts_with (as_bytes "# TYPE ") l = true.

Lemma value_text_chars c n : Forall (λ b, value_char b = true) (as_bytes (value_text c n)).
Proof.
  assert (∀ k : N, Forall (λ b, value_char b = true) (as_bytes (pretty k))) as Hp.
  { intros k. eapply Forall_impl; [apply pretty_digits|]. unfold value_char. by intros b ->. }
  unfold value_text, signed_text. destruct c; try apply Hp. destruct (n <? 2 ^ 63); [apply Hp|].
  rewrite as_bytes_app. constructor; [done|apply Hp].
Qed.

Lemma chars_clean (P : byte → bool) l : P NL = false → P CR = false → Forall (λ b, P b = true) l → clean_line l.
Proof.
  intros H1 H2 F. rewrite Forall_forall in F. split; [intros Hin%F; congruence|].
  intros Hl%last_Some_elem_of%F. congruence.
Qed.

Lemma lines_text_line l rest : clean_line (as_bytes l) → lines (as_bytes (text_line l +:+ rest)) = as_bytes l :: lines (as_bytes rest).
Proof. intros H. unfold text_line. rewrite !as_bytes_app, list_byte_of_string_of_list_byte, <-app_assoc. simpl. by apply lines_app. Qed.

Definition no_eol (b : byte) : bool := negb (bool_decide (b = NL)) && negb (bool_decide (b = CR)).
Lemma no_eol_clean l : forallb no_eol l = true → clean_line l.
Proof. intros H. apply (chars_clean no_eol); [done..|]. apply Forall_forall. intros b Hb. by eapply forallb_forall, list_elem_of_In. Qed.

Lemma chars_no_eol (P : byte → bool) l : P NL = false → P CR = false → Forall (λ b, P b = true) l → forallb no_eol l = true.
Proof.
  intros H1 H2 F. apply forallb_forall. intros b Hb%list_elem_of_In. rewrite Forall_forall in F. specialize (F b Hb).
  unfold no_eol. repeat case_bool_decide; subst; try done; congruence.
Qed.

Definition series_ok : Counter * string * string * string → Prop := λ '(_, name, help, ty),
  Forall (λ b, name_char b = true) (as_bytes name) ∧ starts_with (as_bytes "secgit_") (as_bytes name) = true ∧
  forallb no_eol (as_bytes help) = true ∧ forallb no_eol (as_bytes ty) = true.
Lemma all_series_ok : Forall series_ok series.
Proof. repeat constructor. Qed.

Lemma metric_lines_ok c name help ty n rest l : series_ok (c, name, help, ty) →
  l ∈ lines (as_bytes (metric_lines name help ty (value_text c n) +:+ rest)) →
  comment_line l ∨ data_line l ∨ l ∈ lines (as_bytes rest).
Proof.
  intros (H1 & H2 & H3 & H4). pose proof (value_text_chars c n) as Hv.
  assert (forallb no_eol (as_bytes name) = true) as Hn by (by apply (chars_no_eol name_char)).
  assert (forallb no_eol (as_bytes (value_text c n)) = true) as Hw by (by apply (chars_no_eol value_char)).
  assert (∀ a b c : string, (a +:+ b) +:+ c = a +:+ b +:+ c) as Ha.
  { intros a b c0. apply as_bytes_inj. by rewrite !as_bytes_app, app_assoc. }
  unfold metric_lines. rewrite !Ha. rewrite !lines_text_line by (apply no_eol_clean; rewrite !as_bytes_app, !forallb_app, ?Hn, ?Hw, ?H3, ?H4; done).
  intros [->|[->|[->|H]%elem_of_cons]%elem_of_cons]%elem_of_cons; [| | |by auto].
  - left. left. by rewrite as_bytes_app.
  - left. right. by rewrite as_bytes_app.
  - right. left. exists (as_bytes name), (as_bytes (value_text c n)). by rewrite !as_bytes_app.
Qed.

(** The scraped text carries nothing but the fixed names and the numbers: whatever the
    counters are, each of its lines is a comment of the exposition format or a data line. *)
Lemma render_content_free m l : l ∈ lines (as_bytes (render m)) → comment_line l ∨ data_line l.
Proof.
  unfold render. pose proof all_series_ok as F. revert F. generalize series as ss.
  induction ss as [|[[[c name] help] ty] ss IH]; intros F; cbn [foldr]; [by intros ?%elem_of_nil|].
  apply Forall_cons in F as [H F]. intros [Hl|[Hl|Hl]]%(metric_lines_ok c name help ty); auto.
Qed.
