(* ===== verification/Server.v ===== *)
(** The server's state and its effects, repository creation, and the git transport:
    [bins/secgit-server/src/main.rs] with [create_named_repo] of [api.rs].

    A request is one step on the state [App]: the locks are taken one after the other by
    each handler, and requests are not interleaved.  A handler is [eff App Stop A]: an
    early return is a [Reply]; [Aborts] is a panic, which ends the process; [Waits] means
    that the handler is still waiting (for its git process).  The two clocks are read
    by number: [unix_now n] and [mono_now n] are what the [n]-th reading shows.  The texts
    of errors are the class [ErrorText].  The semaphore around sealing only delays. *)

From S2P Require Import Prelude Text BTree Backend Primitives Fs ObjectStore AuditLog Search Forge Git Identity DirectoryStore.
From S2P Require Import Auth Reviews Api Http Authz Pow Abuse RateLimit Json Scim Sso Events Metrics.

(** [EncryptedStore::delete_repo] beside the interface [ObjectStore]. *)
Class RepoStore (S E : Type) `{OS : ObjectStore S E} := {
  rs_delete_repo : string → eff S E unit;
  rs_delete_repo_spec : ∀ r s res s', os_id r → os_inv s → rs_delete_repo r s = (res, s') →
    (∀ r' k', os_id r' → os_id k' → r' ≠ r → os_view s' r' k' = os_view s r' k') ∧
    (res = Ok () → os_inv s' ∧ ∀ k', os_id k' → os_view s' r k' = None);
}.

Class Clock := { unix_now : nat → N; mono_now : nat → N }.
Class ErrorText (E : Type) := error_text : E → string.
(** A git process started on the working path: what it does to it, and what is seen of it. *)
Class GitSpawn (W : Type) := git_spawn : list string → option bytes → W → option Child * W.
(** [secgit_net::https_post_json_with_headers]. *)
Class HttpsPost := https_post : Delivery → result string bytes.

Record Limiters := mkLimiters { rl_ip_req : RateLimiter; rl_ip_git : RateLimiter; rl_account : RateLimiter; rl_push : RateLimiter }.

Record Config := mkConfig {
  cf_deployment : DeploymentConfig;
  cf_admin_token : option string;
  cf_metrics_token : option string;
  cf_git : GitLimits;
  cf_http : HttpLimits;
  cf_sso : SsoConfig;
  cf_max_segments : N;
}.

Inductive Stop := Reply (r : Response) | Aborts | Waits.

Section server.
Context {W St Er : Type} `{WO : WorkOps W} `{GS : GitSpawn W} `{OS : ObjectStore St Er} `{RS : !RepoStore St Er}.
Context `{RND : SystemRandom} `{DIG : Digests} `{MAC : Hmacs} `{HX : Hex} `{PB : Pbkdf2} `{AB : AeadBackend} `{ED : Ed25519} `{ML : MlDsa}.
Context `{CK : Clock} `{JT : JsonText} `{HP : HttpsPost} `{UL : UnicodeLower}.
Context `{SI : Serde (list string)} `{SM : Serde SealManifest} `{SEV : Serde AuditEvent} `{SRE : Serde RawEntry}.
Context `{SU : Serde User} `{SRp : Serde Repo} `{SWh : Serde Webhook} `{SNt : Serde Notification} `{SRr : Serde (list Report)}.
Context `{TF : ErrorText ForgeError} `{TG : ErrorText GitHttpError} `{TA : ErrorText ApiError} `{TS : ErrorText Er}.

Record App := mkApp {
  ap_work : W;
  ap_store : St;
  ap_search : St;
  ap_dir_store : St;
  ap_identity : ServerIdentity;
  ap_ephemeral : EphemeralRepos;
  ap_quota : AccountQuota;
  ap_audit : TransparencyLog;
  ap_disk : World;
  ap_limiters : Limiters;
  ap_pow : PowGate;
  ap_metrics : Metrics;
  ap_rng : rng;
  ap_reads : nat;
  (** The webhook requests made, newest first. *)
  ap_sent : list Delivery;
}.

Definition with_forge (w : W) (s : St) (a : App) : App :=
  mkApp w s (ap_search a) (ap_dir_store a) (ap_identity a) (ap_ephemeral a) (ap_quota a) (ap_audit a) (ap_disk a)
    (ap_limiters a) (ap_pow a) (ap_metrics a) (ap_rng a) (ap_reads a) (ap_sent a).
Definition with_search (s : St) (a : App) : App :=
  mkApp (ap_work a) (ap_store a) s (ap_dir_store a) (ap_identity a) (ap_ephemeral a) (ap_quota a) (ap_audit a) (ap_disk a)
    (ap_limiters a) (ap_pow a) (ap_metrics a) (ap_rng a) (ap_reads a) (ap_sent a).
Definition with_directory (id : ServerIdentity) (s : St) (a : App) : App :=
  mkApp (ap_work a) (ap_store a) (ap_search a) s id (ap_ephemeral a) (ap_quota a) (ap_audit a) (ap_disk a)
    (ap_limiters a) (ap_pow a) (ap_metrics a) (ap_rng a) (ap_reads a) (ap_sent a).
Definition with_ephemeral (e : EphemeralRepos) (g : rng) (a : App) : App :=
  mkApp (ap_work a) (ap_store a) (ap_search a) (ap_dir_store a) (ap_identity a) e (ap_quota a) (ap_audit a) (ap_disk a)
    (ap_limiters a) (ap_pow a) (ap_metrics a) g (ap_reads a) (ap_sent a).
Definition with_quota (q : AccountQuota) (a : App) : App :=
  mkApp (ap_work a) (ap_store a) (ap_search a) (ap_dir_store a) (ap_identity a) (ap_ephemeral a) q (ap_audit a) (ap_disk a)
    (ap_limiters a) (ap_pow a) (ap_metrics a) (ap_rng a) (ap_reads a) (ap_sent a).
Definition with_audit (l : TransparencyLog) (d : World) (a : App) : App :=
  mkApp (ap_work a) (ap_store a) (ap_search a) (ap_dir_store a) (ap_identity a) (ap_ephemeral a) (ap_quota a) l d
    (ap_limiters a) (ap_pow a) (ap_metrics a) (ap_rng a) (ap_reads a) (ap_sent a).
Definition with_limiters (l : Limiters) (a : App) : App :=
  mkApp (ap_work a) (ap_store a) (ap_search a) (ap_dir_store a) (ap_identity a) (ap_ephemeral a) (ap_quota a) (ap_audit a) (ap_disk a)
    l (ap_pow a) (ap_metrics a) (ap_rng a) (ap_reads a) (ap_sent a).
Definition with_pow (p : PowGate) (g : rng) (a : App) : App :=
  mkApp (ap_work a) (ap_store a) (ap_search a) (ap_dir_store a) (ap_identity a) (ap_ephemeral a) (ap_quota a) (ap_audit a) (ap_disk a)
    (ap_limiters a) p (ap_metrics a) g (ap_reads a) (ap_sent a).
Definition with_metrics (m : Metrics) (a : App) : App :=
  mkApp (ap_work a) (ap_store a) (ap_search a) (ap_dir_store a) (ap_identity a) (ap_ephemeral a) (ap_quota a) (ap_audit a) (ap_disk a)
    (ap_limiters a) (ap_pow a) m (ap_rng a) (ap_reads a) (ap_sent a).
Definition with_reads (n : nat) (a : App) : App :=
  mkApp (ap_work a) (ap_store a) (ap_search a) (ap_dir_store a) (ap_identity a) (ap_ephemeral a) (ap_quota a) (ap_audit a) (ap_disk a)
    (ap_limiters a) (ap_pow a) (ap_metrics a) (ap_rng a) n (ap_sent a).
Definition with_events (s : St) (g : rng) (sent : list Delivery) (a : App) : App :=
  mkApp (ap_work a) s (ap_search a) (ap_dir_store a) (ap_identity a) (ap_ephemeral a) (ap_quota a) (ap_audit a) (ap_disk a)
    (ap_limiters a) (ap_pow a) (ap_metrics a) g (ap_reads a) sent.

(** ** The effects of handlers *)

Definition H (A : Type) : Type := eff App Stop A.

Definition gets {A} (f : App → A) : H A := λ a, (Ok (f a), a).
Definition step {A} (f : App → A * App) : H A := λ a, let '(x, a) := f a in (Ok x, a).
Definition modify (f : App → App) : H unit := λ a, (Ok (), f a).
Definition reply {A} (r : Response) : H A := throw (Reply r).
Definition inc_metric (c : Counter) : H unit := modify (λ a, with_metrics (inc c (ap_metrics a)) a).
Definition unix_time : H N := λ a, (Ok (unix_now (ap_reads a)), with_reads (S (ap_reads a)) a).
Definition mono_time : H N := λ a, (Ok (mono_now (ap_reads a)), with_reads (S (ap_reads a)) a).

(** The forge on its store; the answer is the result of the call. *)
Definition forge {A} (c : eff (W * St) ForgeError A) : H (result ForgeError A) := λ a,
  let '(r, (w, s)) := c (ap_work a, ap_store a) in (Ok r, with_forge w s a).
Definition on_store {A} (c : eff St Er A) : H (result Er A) := λ a,
  let '(r, s) := c (ap_store a) in (Ok r, with_forge (ap_work a) s a).
Definition on_search {A} (c : eff St SearchError A) : H (result SearchError A) := λ a,
  let '(r, s) := c (ap_search a) in (Ok r, with_search s a).
Definition on_events {A} (c : eff (EV (St := St)) EventError A) : H (result EventError A) := λ a,
  let '(r, (s, g)) := c (ap_store a, ap_rng a) in (Ok r, with_events s g (ap_sent a) a).
Definition on_quota {A} (c : eff AccountQuota ApiError A) : H (result ApiError A) := λ a,
  let '(r, q) := c (ap_quota a) in (Ok r, with_quota q a).
Definition on_ephemeral {A} (c : eff EphemeralRepos ApiError A) : H (result ApiError A) := λ a,
  let '(r, e) := c (ap_ephemeral a) in (Ok r, with_ephemeral e (ap_rng a) a).
(** [identity.dir]: the stored directory. *)
Definition on_dir {A} (c : eff (Directory * St) IdentityError A) : H (result IdentityError A) := λ a,
  let '(r, (d, s)) := c (si_dir (ap_identity a), ap_dir_store a) in
  (Ok r, with_directory (mkIdentity d (si_local (ap_identity a)) (si_sessions (ap_identity a))) s a).
Definition directory (a : App) : Directory := si_dir (ap_identity a).

(** The four readings of one [authenticate]. *)
Definition read_clock : H clock :=
  t1 ← unix_time; t2 ← unix_time; t3 ← unix_time; t4 ← unix_time; mret (mkClock t1 t2 t3 t4).
Definition authenticate (req : Request) : H (option string) :=
  k ← read_clock;
  step (λ a, let '(o, id) := Authz.authenticate req k (ap_identity a) in (o, with_directory id (ap_dir_store a) a)).
Definition decide_identity (repo_id : string) (write : bool) (req : Request) : H Decision :=
  k ← read_clock;
  step (λ a, let '(d, id) := Authz.decide_identity repo_id write req k (ap_identity a) in (d, with_directory id (ap_dir_store a) a)).

(** [log.append(event)], its failure ignored. *)
Definition audit (event : AuditEvent) : H unit :=
  t ← unix_time;
  modify (λ a, match AuditLog.append (ap_audit a) event t (ap_disk a) with
               | (Ok (_, log), d) => with_audit log d a
               | (Err _, d) => with_audit (ap_audit a) d a
               end).

(** [rl.check(key)]. *)
Definition check_ip_git (key : string) : H bool :=
  t ← mono_time;
  step (λ a, let l := ap_limiters a in let '(ok, r) := check (rl_ip_git l) key t in
       (ok, with_limiters (mkLimiters (rl_ip_req l) r (rl_account l) (rl_push l)) a)).
Definition check_ip_req (key : string) : H bool :=
  t ← mono_time;
  step (λ a, let l := ap_limiters a in let '(ok, r) := check (rl_ip_req l) key t in
       (ok, with_limiters (mkLimiters r (rl_ip_git l) (rl_account l) (rl_push l)) a)).
Definition check_account (key : string) : H bool :=
  t ← mono_time;
  step (λ a, let l := ap_limiters a in let '(ok, r) := check (rl_account l) key t in
       (ok, with_limiters (mkLimiters (rl_ip_req l) (rl_ip_git l) r (rl_push l)) a)).
Definition check_push (key : string) : H bool :=
  t ← mono_time;
  step (λ a, let l := ap_limiters a in let '(ok, r) := check (rl_push l) key t in
       (ok, with_limiters (mkLimiters (rl_ip_req l) (rl_ip_git l) (rl_account l) r) a)).

(** [Events::deliver], its errors ignored. *)
Definition deliver_hooks (repo_id event : string) (payload : Value) : H unit := λ a,
  let '((_, made), (s, g)) := deliver https_post repo_id event payload (ap_store a, ap_rng a) in
  (Ok (), with_events s g (reverse made ++ ap_sent a) a).

Definition json_response (v : Value) : Response := response_json (json_to_string v).
Definition too_many (msg : string) : Response := response_text 429 "Too Many Requests" msg.
Definition auth_required : Response :=
  with_header "WWW-Authenticate" ("Basic realm=" +:+ string_of_list_byte [x22] +:+ "secgit" +:+ string_of_list_byte [x22])
    (response_text 401 "Unauthorized" "authentication required").

(** ** Creating a repository *)

Definition SLASH : byte := x2f.
Definition has_slash (s : string) : bool := contains_text (as_bytes s) [SLASH].
Definition trim_text (s : string) : string := string_of_list_byte (trim (as_bytes s)).

(** The name of a user, or the id of one the directory does not know. *)
Definition username_of (d : Directory) (user : string) : string := default user (u_username <$> d_users d !! user).

Definition rollback (user repo_id : string) : H unit := _ ← on_quota (quota_remove_repo user repo_id); mret ().

(** The error is a status and a message. *)
Definition create_named_repo (cfg : Config) (user name : string) (private : bool) : H (result (N * string) string) :=
  let name := trim_text name in
  if bool_decide (name = "") || has_slash name then mret (Err (400, "a non-empty repo name without '/' is required"))
  else
    d ← gets directory;
    let repo_id := username_of d user +:+ "/" +:+ name in
    r ← on_quota (ensure_account user Light);
    if negb (is_ok r) then mret (Err (403, "your tier cannot create repositories"))
    else
      r ← on_quota (authorize_create_repo user repo_id);
      if negb (is_ok r) then mret (Err (403, "repository quota exceeded for your tier"))
      else
        d ← gets directory;
        if bool_decide (is_Some (d_repos d !! repo_id)) then
          _ ← rollback user repo_id; mret (Err (409, "repository already exists"))
        else
          r ← on_dir (DirectoryStore.create_repo (mkRepo repo_id (OwnerUser user) name private []));
          match r with
          | Err e => _ ← rollback user repo_id; mret (Err (500, identity_error_text e))
          | Ok _ =>
              r ← forge (create_bare repo_id);
              match r with
              | Err e => mret (Err (500, "create repo: " +:+ error_text e))
              | Ok _ =>
                  _ ← on_store (os_init repo_id);
                  _ ← forge (seal_to_store (cf_max_segments cfg) repo_id);
                  _ ← audit (RepoCreated repo_id user);
                  mret (Ok repo_id)
              end
          end.

(** [Some true]: the repo exists now; [Some false]: not eligible. *)
Definition push_to_create (cfg : Config) (repo_id user : string) : H (result (N * string) bool) :=
  d ← gets directory;
  match strip_prefix (as_bytes (username_of d user +:+ "/")) (as_bytes repo_id) with
  | None => mret (Ok false)
  | Some name =>
      let name := string_of_list_byte name in
      if bool_decide (name = "") || has_slash name then mret (Ok false)
      else
        r ← create_named_repo cfg user name true;
        match r with
        | Ok _ => mret (Ok true)
        | Err (code, msg) => mret (if bool_decide (code = 409) then Ok true else Err (code, msg))
        end
  end.

(** ** Search index *)

Definition child_path (dir : string) (e : TreeEntry) : string :=
  let name := string_of_list_byte (te_name e) in if bool_decide (dir = "") then name else dir +:+ "/" +:+ name.

(** The entries of one directory; the directories among them go on the stack. *)
Fixpoint index_entries (repo_id dir : string) (entries : list TreeEntry) (stack : list string) : H (list string) :=
  match entries with
  | [] => mret stack
  | e :: entries =>
      let child := child_path dir e in
      if bool_decide (te_kind e = as_bytes "tree") then index_entries repo_id dir entries (child :: stack)
      else if bool_decide (te_kind e = as_bytes "blob") then
        r ← forge (read_blob repo_id "HEAD" child);
        match r with
        | Ok content =>
            if valid_utf8 content
            then _ ← on_search (index_document repo_id child content); index_entries repo_id dir entries stack
            else index_entries repo_id dir entries stack
        | Err _ => index_entries repo_id dir entries stack
        end
      else index_entries repo_id dir entries stack
  end.
(** Each turn reads one directory. *)
Fixpoint index_loop (fuel : nat) (repo_id : string) (stack : list string) : H unit :=
  match stack with
  | [] => mret ()
  | dir :: stack =>
      match fuel with
      | O => throw Waits
      | S fuel =>
          r ← forge (list_tree repo_id "HEAD" dir);
          stack ← index_entries repo_id dir (match r with Ok es => es | Err _ => [] end) stack;
          index_loop fuel repo_id stack
      end
  end.
Definition index_repo_head (fuel : nat) (repo_id : string) : H unit := index_loop fuel repo_id [""].

(** ** The git transport *)

(** Whether the push is within the quota of the owner. *)
Definition quota_check_push (repo_id : string) (n : N) : H bool :=
  d ← gets directory;
  match r_owner <$> d_repos d !! repo_id with
  | Some (OwnerUser owner) =>
      r ← on_quota (ensure_account owner Light);
      if negb (is_ok r) then mret true
      else
        _ ← modify (λ a, match repo_bytes (ap_quota a) owner repo_id with
                         | None => with_quota (preload owner Light repo_id 0 (ap_quota a)) a
                         | Some _ => a
                         end);
        r ← on_quota (account_bytes owner repo_id n);
        mret (is_ok r)
  | _ => mret true
  end.

(** [status_reason] of [api.rs]. *)
Definition status_reason (code : N) : string :=
  if bool_decide (code = 400) then "Bad Request"
  else if bool_decide (code = 403) then "Forbidden"
  else if bool_decide (code = 409) then "Conflict"
  else "Internal Server Error".

Inductive Endpoint := InfoRefs | Rpc (svc : Service).
Definition split_endpoint (path : string) : option (string * Endpoint) :=
  let p := drop_while (λ b, bool_decide (b = SLASH)) (as_bytes path) in
  match strip_suffix (as_bytes "/info/refs") p with
  | Some r => Some (string_of_list_byte r, InfoRefs)
  | None =>
      match strip_suffix (as_bytes "/git-upload-pack") p with
      | Some r => Some (string_of_list_byte r, Rpc UploadPack)
      | None => (λ r, (string_of_list_byte r, Rpc ReceivePack)) <$> strip_suffix (as_bytes "/git-receive-pack") p
      end
  end.

Definition writes (endpoint : Endpoint) (req : Request) : bool :=
  match endpoint with
  | Rpc ReceivePack => true
  | Rpc UploadPack => false
  | InfoRefs => bool_decide (rq_query req !! "service" = Some "git-receive-pack")
  end.

Definition unknown_repo : Response := response_text 404 "Not Found" "unknown repo".

(** The gate of anonymous repos: the token of the repo. *)
Definition ephemeral_gate (repo_id : string) (req : Request) : H unit :=
  t1 ← unix_time; t2 ← unix_time;
  r ← on_ephemeral (authorize_push repo_id (default "" (bearer_token req)) t1 t2);
  if is_ok r then mret () else reply (response_text 401 "Unauthorized" "invalid or expired token").

(** A push to a repo the directory does not have creates it. *)
Definition create_on_push (cfg : Config) (repo_id : string) (req : Request) : H unit :=
  d ← gets directory;
  user ← authenticate req;
  if bool_decide (is_Some (d_repos d !! repo_id)) then mret ()
  else
    match user with
    | None => reply auth_required
    | Some user =>
        r ← push_to_create cfg repo_id user;
        match r with
        | Ok true => mret ()
        | Ok false => reply unknown_repo
        | Err (code, msg) => reply (response_text code (status_reason code) msg)
        end
    end.
Definition identity_gate (cfg : Config) (repo_id : string) (write : bool) (req : Request) : H unit :=
  _ ← if write then create_on_push cfg repo_id req else mret ();
  decision ← decide_identity repo_id write req;
  match decision with
  | Allow user =>
      ok ← check_account user;
      if (ok : bool) then mret ()
      else _ ← inc_metric rate_limited_total; reply (with_header "Retry-After" "1" (too_many "account rate limit exceeded"))
  | RepoNotFound => reply unknown_repo
  | Unauthenticated => reply auth_required
  | Forbidden => reply (response_text 403 "Forbidden" "insufficient access")
  end.

(** [run] waits for the process [git args]. *)
Definition run_git (run : (list string → option bytes → option Child) → option (result GitHttpError bytes))
    (args : list string) (input : option bytes) : H (result GitHttpError bytes) := λ a,
  let r := run (λ args input, (git_spawn args input (ap_work a)).1) in
  let a := with_forge (git_spawn args input (ap_work a)).2 (ap_store a) a in
  match r with Some r => (Ok r, a) | None => (Err Waits, a) end.

Definition materialize (repo_id : string) : H unit :=
  r ← forge (forge_exists repo_id);
  match r with
  | Ok true => mret ()
  | _ => _ ← forge (restore_from_store repo_id); mret ()
  end.

(** The cap on what a push may store. *)
Definition push_cap (repo_id : string) (req : Request) : H unit :=
  ok ← check_push repo_id;
  if negb ok then
    _ ← inc_metric rate_limited_total; reply (with_header "Retry-After" "2" (too_many "push rate limit exceeded"))
  else
    eph ← gets (λ a, is_ephemeral (ap_ephemeral a) repo_id);
    if (eph : bool) then
      r ← on_ephemeral (ephemeral_account_bytes repo_id (lengthN (rq_body req)));
      if is_ok r then mret ()
      else _ ← inc_metric push_rejected_total; reply (response_text 413 "Payload Too Large" "ephemeral size cap exceeded")
    else
      ok ← quota_check_push repo_id (lengthN (rq_body req));
      if (ok : bool) then mret ()
      else _ ← inc_metric push_rejected_total; reply (response_text 413 "Payload Too Large" "account storage cap exceeded").

(** What follows a successful push. *)
Definition after_push (cfg : Config) (fuel : nat) (repo_id : string) : H unit :=
  t ← mono_time;
  _ ← forge (seal_to_store (cf_max_segments cfg) repo_id);
  _ ← inc_metric seal_total;
  t' ← mono_time;
  _ ← modify (λ a, with_metrics (metrics_add seal_millis_total ((t' - t) / 1000000 mod 2 ^ 64) (ap_metrics a)) a);
  _ ← inc_metric push_total;
  _ ← audit (RefUpdated repo_id "(push)" "" "" "anonymous");
  _ ← index_repo_head fuel repo_id;
  deliver_hooks repo_id "push" (json [("repo_id", VString repo_id); ("ref", VString "(push)")]).

Definition run_rpc (cfg : Config) (fuel : nat) (repo_id path : string) (svc : Service) (req : Request) : H Response :=
  let is_push := match svc with ReceivePack => true | UploadPack => false end in
  _ ← if is_push then push_cap repo_id req else mret ();
  r ← run_git (λ spawn, rpc_with_limits spawn path svc (rq_body req) (cf_git cfg))
        (rpc_args path svc (cf_git cfg)) (Some (rq_body req));
  match r with
  | Ok body =>
      _ ← if is_push then after_push cfg fuel repo_id else mret ();
      mret (response_new 200 "OK" (result_content_type svc) body)
  | Err (LimitExceeded msg) =>
      _ ← if is_push then inc_metric push_rejected_total else mret ();
      mret (response_text 413 "Payload Too Large" ("git limit exceeded: " +:+ msg))
  | Err e => mret (response_text 500 "Internal Server Error" (error_text e))
  end.

Definition info_refs (cfg : Config) (path : string) (req : Request) : H Response :=
  match rq_query req !! "service" with
  | None => reply (response_text 400 "Bad Request" "dumb http not supported")
  | Some s =>
      match service_parse s with
      | Err _ => reply (response_text 400 "Bad Request" "bad service")
      | Ok svc =>
          r ← run_git (λ spawn, advertise_refs_with_limits spawn path svc (cf_git cfg)) (advertise_args path svc) None;
          match r with
          | Ok body => mret (with_header "Cache-Control" "no-cache" (response_new 200 "OK" (advertise_content_type svc) body))
          | Err e => mret (response_text 500 "Internal Server Error" (error_text e))
          end
      end
  end.

Definition git_route (cfg : Config) (fuel : nat) (req : Request) : H Response :=
  match split_endpoint (rq_path req) with
  | None => mret (response_text 404 "Not Found" "not found")
  | Some (repo_id, endpoint) =>
      ok ← check_ip_git (rq_peer_ip req);
      if negb ok then
        _ ← inc_metric rate_limited_total; mret (with_header "Retry-After" "1" (too_many "git rate limit exceeded"))
      else
        eph ← gets (λ a, is_ephemeral (ap_ephemeral a) repo_id);
        _ ← if (eph : bool) then ephemeral_gate repo_id req else identity_gate cfg repo_id (writes endpoint req) req;
        _ ← materialize repo_id;
        let path := repo_path repo_id in
        match endpoint with
        | InfoRefs => info_refs cfg path req
        | Rpc svc => run_rpc cfg fuel repo_id path svc req
        end
  end.
End server.
