(* ===== verification/Rest.v ===== *)
(** The REST and GraphQL interface: [bins/secgit-server/src/api.rs], on the state and the
    effects of [Server].  Listing references reads the repository through gitoxide: the
    class [GixRefs]. *)

From Stdlib Require Import ZArith.
From S2P Require Import Prelude Text BTree Backend Primitives Fs ObjectStore AuditLog Search Forge Git Identity DirectoryStore.
From S2P Require Import Auth Reviews Api Http Authz Pow Abuse RateLimit Json Scim Sso Events Metrics Server.

(** The references of the repository at a path. *)
Class GixRefs (W : Type) := gix_refs : string → W → result ForgeError (list RefInfo).

(** ** Paths *)

Definition ACTIONS : list string := ["refs"; "commits"; "tree"; "blob"; "pulls"; "hooks"].

(** [segs.join("/")]. *)
Definition join_slash (l : list string) : string := Reviews.join "/" l.

(** The first action keyword after the first segment. *)
Fixpoint split_at_action (before segs : list string) : option (string * string * list string) :=
  match segs with
  | [] => None
  | s :: segs =>
      if negb (bool_decide (before = [])) && contains s ACTIONS then Some (join_slash before, s, segs)
      else split_at_action (before ++ [s]) segs
  end.

Definition split_repo_path (rest : string) : option (string * string * list string) :=
  after ← strip_prefix (as_bytes "repos/") (as_bytes rest);
  let segs := string_of_list_byte <$> List.filter (λ s, negb (bool_decide (s = []))) (split_on SLASH after) in
  match segs with
  | [] => None
  | _ => Some (default (join_slash segs, "", []) (split_at_action [] segs))
  end.

(** ** Base64 *)

Definition b64_sextet (n : N) : byte := nth (N.to_nat (N.land n 63)) B64_STD x00.
Fixpoint b64encode (data : bytes) : bytes :=
  match data with
  | [] => []
  | [c0] =>
      let n := N.shiftl (Byte.to_N c0) 16 in
      [b64_sextet (N.shiftr n 18); b64_sextet (N.shiftr n 12); x3d; x3d]
  | [c0; c1] =>
      let n := N.lor (N.shiftl (Byte.to_N c0) 16) (N.shiftl (Byte.to_N c1) 8) in
      [b64_sextet (N.shiftr n 18); b64_sextet (N.shiftr n 12); b64_sextet (N.shiftr n 6); x3d]
  | c0 :: c1 :: c2 :: data =>
      let n := N.lor (N.lor (N.shiftl (Byte.to_N c0) 16) (N.shiftl (Byte.to_N c1) 8)) (Byte.to_N c2) in
      b64_sextet (N.shiftr n 18) :: b64_sextet (N.shiftr n 12) :: b64_sextet (N.shiftr n 6) :: b64_sextet n :: b64encode data
  end.

(** ** Texts *)

Definition bytes_value (b : bytes) : Value := VString (string_of_list_byte b).

Definition repo_json (r : Repo) : Value :=
  json [("id", VString (r_id r)); ("name", VString (r_name r)); ("private", VBool (r_private r));
        ("resource_id", VString (resource_id r))].

Definition pr_state_text (s : PrState.t) : string :=
  match s with PrState.Open => "Open" | PrState.Merged => "Merged" | PrState.Closed => "Closed" end.
Definition pr_json (pr : PullRequest) : Value :=
  json [("id", VString (pr_id pr)); ("number", number (pr_number pr)); ("title", VString (pr_title pr));
        ("description", VString (pr_description pr)); ("author_id", VString (pr_author_id pr));
        ("source_branch", VString (pr_source_branch pr)); ("target_branch", VString (pr_target_branch pr));
        ("head_sha", VString (pr_head_sha pr)); ("state", VString (pr_state_text (pr_state pr)));
        ("created_at", number (pr_created_at pr)); ("updated_at", number (pr_updated_at pr))].

Definition commit_json (c : CommitInfo) : Value :=
  json [("id", bytes_value (ci_id c)); ("short", bytes_value (ci_short c)); ("author_name", bytes_value (ci_author_name c));
        ("author_email", bytes_value (ci_author_email c)); ("time_unix", VNumber (pretty (ci_time_unix c)));
        ("summary", bytes_value (ci_summary c))].
Definition entry_json (e : TreeEntry) : Value :=
  json [("mode", bytes_value (te_mode e)); ("kind", bytes_value (te_kind e)); ("id", bytes_value (te_id e));
        ("name", bytes_value (te_name e))].
Definition hit_json (h : SearchHit) : Value :=
  json [("repo_id", VString (sh_repo_id h)); ("path", VString (sh_path h)); ("line", number (sh_line h));
        ("snippet", bytes_value (sh_snippet h))].
Definition merge_status_json (s : MergeStatus) : Value :=
  json [("mergeable", VBool (ms_mergeable s)); ("approvals", number (ms_approvals s));
        ("required_approvals", number (ms_required_approvals s)); ("changes_requested", VBool (ms_changes_requested s));
        ("failing_or_missing_checks", VArray (VString <$> ms_failing_or_missing_checks s));
        ("reasons", VArray (VString <$> ms_reasons s))].
(** [v["merge_status"] = ..] on an object. *)
Definition set_field (k : string) (x v : Value) : Value :=
  match v with VObject m => VObject (obj_insert k x m) | v => v end.

Definition user_json (d : Directory) (user : string) : Value :=
  match d_users d !! user with
  | Some u => json [("id", VString (u_id u)); ("username", VString (u_username u)); ("email", VString (u_email u))]
  | None => json [("id", VString user)]
  end.

(** [graphql_repo_arg]: the first quoted text after the first [repository(]. *)
Definition graphql_repo_arg (query : string) : option string :=
  '(_, rest) ← find_text (as_bytes "repository(") (as_bytes query);
  '(_, after) ← split_once x22 rest;
  '(arg, _) ← split_once x22 after;
  Some (string_of_list_byte arg).

Definition unauthorized : Response := auth_required.
Definition forbidden : Response := response_text 403 "Forbidden" "insufficient access".
Definition not_found : Response := response_text 404 "Not Found" "not found".
Definition bad_request (msg : string) : Response := response_text 400 "Bad Request" msg.
Definition internal (msg : string) : Response := response_text 500 "Internal Server Error" msg.

Section rest.
Context {W St Er : Type} `{WO : WorkOps W} `{GS : GitSpawn W} `{GX : GixRefs W} `{OS : ObjectStore St Er} `{RS : !RepoStore St Er}.
Context `{RND : SystemRandom} `{DIG : Digests} `{MAC : Hmacs} `{HX : Hex} `{PB : Pbkdf2} `{AB : AeadBackend} `{ED : Ed25519} `{ML : MlDsa}.
Context `{CK : Clock} `{JT : JsonText} `{HP : HttpsPost} `{UL : UnicodeLower} `{HO : HashOrder}.
Context `{SI : Serde (list string)} `{SM : Serde SealManifest} `{SEV : Serde AuditEvent} `{SRE : Serde RawEntry}.
Context `{SU : Serde User} `{SRp : Serde Repo} `{SWh : Serde Webhook} `{SNt : Serde Notification} `{SRr : Serde (list Report)}.
Context `{SN : Serde N} `{SP : Serde PullRequest} `{SRv : Serde Review} `{SC : Serde StatusCheck} `{SB : Serde BranchProtection}.
Context `{TF : ErrorText ForgeError} `{TG : ErrorText GitHttpError} `{TA : ErrorText ApiError} `{TS : ErrorText Er} `{TR : ErrorText ReviewError}.

Abbreviation H := (H (W := W) (St := St)).

Definition on_reviews {A} (c : eff St ReviewError A) : H (result ReviewError A) := λ a,
  let '(r, s) := c (ap_store a) in (Ok r, with_forge (ap_work a) s a).

Definition list_refs (repo_id : string) : H (result ForgeError (list RefInfo)) := gets (λ a,
  if w_exists (ap_work a) (repo_path repo_id) then gix_refs (repo_path repo_id) (ap_work a) else Err (FNotFound repo_id)).

(** ** Resources of the caller *)

Definition current_user (user : string) : H Response := d ← gets directory; mret (json_response (user_json d user)).

Definition list_repos (user : string) : H Response :=
  d ← gets directory;
  mret (json_response (json [("repositories", VArray (repo_json <$> repos_visible_to d user))])).

Definition create_repo (cfg : Config) (req : Request) (user : string) : H Response :=
  match json_from_slice (rq_body req) with
  | Err _ => mret (bad_request "invalid JSON body")
  | Ok body =>
      let name := default "" (get_str "name" body) in
      let private := default true (get "private" body ≫= as_bool) in
      r ← create_named_repo cfg user name private;
      match r with
      | Ok repo_id =>
          d ← gets directory;
          match d_repos d !! repo_id with
          | Some r => mret (json_response (repo_json r))
          | None => throw Aborts
          end
      | Err (code, msg) => mret (response_text code (status_reason code) msg)
      end
  end.

Definition limits_json (cfg : DeploymentConfig) (q : AccountQuota) (user : string) : Value :=
  let light := limits_for cfg Light in
  json [("sandbox_mode", VBool (sandbox_mode cfg));
        ("tiers", json [("anonymous", VBool (anonymous_enabled cfg)); ("light", VBool (light_enabled cfg));
                        ("managed", VBool (managed_enabled cfg))]);
        ("light_limits", json [("max_repos", number (max_repos light)); ("max_bytes_per_repo", number (max_bytes_per_repo light));
                               ("max_total_bytes", number (max_total_bytes light))]);
        ("anonymous_limits", json [("ephemeral_ttl_secs", number (ephemeral_ttl_secs cfg));
                                   ("ephemeral_max_bytes", number (ephemeral_max_bytes cfg));
                                   ("creates_per_window", number (anon_creates_per_window cfg));
                                   ("rate_window_secs", number (rate_window_secs cfg))]);
        ("your_usage", json [("repos", number (repo_count q user)); ("total_bytes", number (total_bytes q user))]);
        ("managed_waitlist", VString ("POST /waitlist {" +:+ string_of_list_byte [x22] +:+ "email" +:+ string_of_list_byte [x22; x3a; x22]
           +:+ "..." +:+ string_of_list_byte [x22] +:+ "}"))].
Definition limits (cfg : Config) (user : string) : H Response :=
  q ← gets (λ a, ap_quota a); mret (json_response (limits_json (cf_deployment cfg) q user)).

Definition rest_list_notifications (user : string) : H Response :=
  r ← on_events (list_notifications user);
  match r with
  | Ok ns =>
      let unread := lengthN (List.filter (λ n, negb (nt_read n)) ns) in
      mret (json_response (json [("unread", number unread); ("notifications", VArray (notification_json <$> ns))]))
  | Err e => mret (internal (event_error_text e))
  end.

(** What a search of one repository reads: the texts at HEAD. *)
Definition fetch_text (a : App (W := W) (St := St)) (repo_id path : string) : option bytes :=
  match (read_blob repo_id "HEAD" path (ap_work a, ap_store a)).1 with
  | Ok b => if valid_utf8 b then Some b else None
  | Err _ => None
  end.
Fixpoint search_repos (fuel : nat) (query : string) (repo_ids : list string) : H (list SearchHit) :=
  match repo_ids with
  | [] => mret []
  | repo_id :: repo_ids =>
      _ ← materialize repo_id;
      _ ← index_repo_head fuel repo_id;
      fetch ← gets fetch_text;
      r ← on_search (search_repo repo_id (as_bytes query) 50 fetch);
      rest ← search_repos fuel query repo_ids;
      mret (match r with Ok hits => hits | Err _ => [] end ++ rest)
  end.
Definition search (fuel : nat) (req : Request) (user : string) : H Response :=
  let query := default "" (rq_query req !! "q") in
  if bool_decide (trim (as_bytes query) = []) then mret (json_response (json [("hits", VArray [])]))
  else
    d ← gets directory;
    hits ← search_repos fuel query (r_id <$> repos_visible_to d user);
    mret (json_response (json [("hits", VArray (hit_json <$> take 200 hits))])).

(** ** Resources of a repository *)

Definition repo_meta (repo_id : string) : H Response :=
  d ← gets directory;
  mret (match d_repos d !! repo_id with Some r => json_response (repo_json r) | None => not_found end).

Definition repo_refs (repo_id : string) : H Response :=
  _ ← materialize repo_id;
  r ← list_refs repo_id;
  mret (match r with
        | Ok refs =>
            json_response (json [("refs", VArray ((λ r, json [("name", VString (ri_name r)); ("target", VString (ri_target r))]) <$> refs))])
        | Err e => internal (error_text e)
        end).

Definition query_rev (req : Request) : string := default "HEAD" (rq_query req !! "rev").
Definition repo_commits (req : Request) (repo_id : string) : H Response :=
  _ ← materialize repo_id;
  let limit := N.min (default 50 (rq_query req !! "limit" ≫= λ s, parse_u64 (as_bytes s))) 500 in
  r ← forge (forge_log repo_id (query_rev req) limit);
  mret (match r with
        | Ok commits => json_response (json [("commits", VArray (commit_json <$> commits))])
        | Err e => internal (error_text e)
        end).

Definition repo_tree (req : Request) (repo_id : string) : H Response :=
  _ ← materialize repo_id;
  r ← forge (list_tree repo_id (query_rev req) (default "" (rq_query req !! "path")));
  mret (match r with
        | Ok entries => json_response (json [("entries", VArray (entry_json <$> entries))])
        | Err e => internal (error_text e)
        end).

Definition blob_json (file : string) (content : bytes) : Value :=
  if valid_utf8 content
  then json [("path", VString file); ("encoding", VString "utf-8"); ("content", bytes_value content)]
  else json [("path", VString file); ("encoding", VString "base64"); ("content", bytes_value (b64encode content))].
Definition repo_blob (req : Request) (repo_id : string) : H Response :=
  _ ← materialize repo_id;
  match rq_query req !! "path" with
  | None => mret (bad_request "path query parameter required")
  | Some file =>
      r ← forge (read_blob repo_id (query_rev req) file);
      mret (match r with Ok content => json_response (blob_json file content) | Err e => internal (error_text e) end)
  end.

Definition list_pulls (repo_id : string) : H Response :=
  r ← on_reviews (list_prs repo_id);
  mret (match r with
        | Ok prs => json_response (json [("pull_requests", VArray (pr_json <$> prs))])
        | Err e => internal (error_text e)
        end).

Definition pull_detail (repo_id num : string) : H Response :=
  r ← on_reviews (get_pr repo_id ("pr_" +:+ repo_id +:+ "_" +:+ num));
  match r with
  | Ok (Some pr) =>
      status ← on_reviews (merge_status pr);
      mret (json_response (match status with
                           | Ok s => set_field "merge_status" (merge_status_json s) (pr_json pr)
                           | Err _ => pr_json pr
                           end))
  | Ok None => mret not_found
  | Err e => mret (internal (error_text e))
  end.

(** Every user with at least Read on the repo but the actor. *)
Definition recipients (d : Directory) (repo_id actor : string) : list string :=
  u_id <$> List.filter (λ u, negb (bool_decide (u_id u = actor)) && can d (u_id u) repo_id Read) (hash_values (d_users d)).
Fixpoint notify_all (users : list string) (kind repo_id subject body : string) : H unit :=
  match users with
  | [] => mret ()
  | u :: users => t ← unix_time; _ ← on_events (notify u kind repo_id subject body t); notify_all users kind repo_id subject body
  end.
Definition notify_repo_members (repo_id actor kind subject body : string) : H unit :=
  d ← gets directory; notify_all (recipients d repo_id actor) kind repo_id subject body.

Definition open_pull (req : Request) (repo_id user : string) : H Response :=
  match json_from_slice (rq_body req) with
  | Err _ => mret (bad_request "invalid JSON body")
  | Ok body =>
      let title := default "" (get_str "title" body) in
      let desc := default "" (get_str "description" body) in
      let src := default "" (get_str "source_branch" body) in
      let tgt := default "main" (get_str "target_branch" body) in
      if bool_decide (title = "") || bool_decide (src = "") then mret (bad_request "title and source_branch are required")
      else
        _ ← materialize repo_id;
        r ← forge (forge_log repo_id src 1);
        let head := match r with Ok (c :: _) => string_of_list_byte (ci_id c) | _ => "" end in
        t ← unix_time;
        r ← on_reviews (open_pr repo_id user title desc src tgt head t);
        match r with
        | Ok pr =>
            _ ← notify_repo_members repo_id user "pull_request" "Pull request opened" title;
            _ ← deliver_hooks repo_id "pull_request" (json [("action", VString "opened"); ("pull_request", pr_json pr)]);
            mret (json_response (pr_json pr))
        | Err e => mret (internal (error_text e))
        end
  end.

Definition rest_list_hooks (repo_id : string) : H Response :=
  r ← on_events (list_hooks repo_id);
  mret (match r with
        | Ok hooks => json_response (json [("hooks", VArray (public_json <$> hooks))])
        | Err e => internal (event_error_text e)
        end).

Definition rest_create_hook (req : Request) (repo_id : string) : H Response :=
  match json_from_slice (rq_body req) with
  | Err _ => mret (bad_request "invalid JSON body")
  | Ok body =>
      let url := default "" (get_str "url" body) in
      let secret := default "" (get_str "secret" body) in
      let events := match get "events" body ≫= as_array with Some l => omap as_str l | None => ["*"] end in
      if bool_decide (secret = "") then mret (bad_request "secret is required (used to HMAC-sign deliveries)")
      else
        t ← unix_time;
        r ← on_events (create_hook repo_id url secret events t);
        mret (match r with Ok h => json_response (public_json h) | Err e => bad_request (event_error_text e) end)
  end.

Definition rest_delete_hook (repo_id id : string) : H Response :=
  r ← on_events (delete_hook repo_id id);
  mret (match r with Ok _ => json_response (json [("ok", VBool true)]) | Err e => internal (event_error_text e) end).

(** ** Routes *)

Definition needed_role (method action : string) : Role :=
  if bool_decide (action = "hooks") && negb (bool_decide (method = "GET")) then Identity.Admin
  else if bool_decide (method = "GET") then Read
  else Write.

Definition on_repo (req : Request) (repo_id action : string) (tail : list string) (user : string) : H Response :=
  let m := rq_method req in
  let at_ x y := bool_decide (m = x) && bool_decide (action = y) in
  if at_ "GET" "" then repo_meta repo_id
  else if at_ "GET" "refs" then repo_refs repo_id
  else if at_ "GET" "commits" then repo_commits req repo_id
  else if at_ "GET" "tree" then repo_tree req repo_id
  else if at_ "GET" "blob" then repo_blob req repo_id
  else if at_ "GET" "pulls" then match tail with num :: _ => pull_detail repo_id num | [] => list_pulls repo_id end
  else if at_ "POST" "pulls" then open_pull req repo_id user
  else if at_ "GET" "hooks" then rest_list_hooks repo_id
  else if at_ "POST" "hooks" then rest_create_hook req repo_id
  else if at_ "DELETE" "hooks" then
    match tail with id :: _ => rest_delete_hook repo_id id | [] => mret (bad_request "hook id required") end
  else mret not_found.

(** The id of [notifications/<id>/read]. *)
Definition read_notification (rest : string) : option string :=
  id ← strip_prefix (as_bytes "notifications/") (as_bytes rest);
  string_of_list_byte <$> strip_suffix (as_bytes "/read") id.

Definition repo_resource (req : Request) (rest user : string) : H Response :=
  match split_repo_path rest with
  | None => mret not_found
  | Some (repo_id, action, tail) =>
      d ← gets directory;
      if negb (bool_decide (is_Some (d_repos d !! repo_id))) then mret not_found
      else if negb (can d user repo_id (needed_role (rq_method req) action)) then mret forbidden
      else on_repo req repo_id action tail user
  end.

(** [import] is [importer::import_github]. *)
Definition rest_v1 (import : Request → string → H Response) (cfg : Config) (fuel : nat) (req : Request) (rest : string) : H Response :=
  o ← authenticate req;
  match o with
  | None => mret unauthorized
  | Some user =>
      let at_ x y := bool_decide (rq_method req = x) && bool_decide (rest = y) in
      if at_ "GET" "user" then current_user user
      else if at_ "GET" "repos" then list_repos user
      else if at_ "POST" "repos" then create_repo cfg req user
      else if at_ "GET" "limits" then limits cfg user
      else if at_ "GET" "search" then search fuel req user
      else if at_ "GET" "notifications" then rest_list_notifications user
      else if at_ "POST" "import/github" then import req user
      else
        match read_notification rest with
        | Some nid =>
            if bool_decide (rq_method req = "POST")
            then _ ← on_events (mark_read user nid); mret (json_response (json [("ok", VBool true)]))
            else repo_resource req rest user
        | None => repo_resource req rest user
        end
  end.

Definition graphql_repository (query user repo_id : string) : H Value :=
  d ← gets directory;
  match d_repos d !! repo_id with
  | Some r =>
      if can d user repo_id Read then
        let obj := [("id", VString (r_id r)); ("name", VString (r_name r))] in
        if contains_text (as_bytes query) (as_bytes "pullRequests") then
          prs ← on_reviews (list_prs repo_id);
          let prs := match prs with Ok l => l | Err _ => [] end in
          mret (json (obj ++ [("pullRequests", VArray ((λ p,
            json [("number", number (pr_number p)); ("title", VString (pr_title p)); ("state", VString (pr_state_text (pr_state p)))]) <$> prs))]))
        else mret (json obj)
      else mret VNull
  | None => mret VNull
  end.
Definition graphql (req : Request) : H Response :=
  o ← authenticate req;
  match o with
  | None => mret unauthorized
  | Some user =>
      match json_from_slice (rq_body req) with
      | Err _ => mret (bad_request "invalid JSON body")
      | Ok body =>
          let query := default "" (get_str "query" body) in
          let has w := contains_text (as_bytes query) (as_bytes w) in
          d ← gets directory;
          let viewer := if has "viewer" then [("viewer", user_json d user)] else [] in
          let repos := if has "repositories"
                       then [("repositories", VArray ((λ r, json [("id", VString (r_id r)); ("name", VString (r_name r));
                                                                  ("private", VBool (r_private r))]) <$> repos_visible_to d user))]
                       else [] in
          repository ← match graphql_repo_arg query with
                       | Some repo_id => v ← graphql_repository query user repo_id; mret [("repository", v)]
                       | None => mret []
                       end;
          mret (json_response (json [("data", json (viewer ++ repos ++ repository))]))
      end
  end.

Definition route_api (import : Request → string → H Response) (cfg : Config) (fuel : nat) (req : Request) : H (option Response) :=
  if bool_decide (rq_path req = "/api/graphql") && bool_decide (rq_method req = "POST")
  then r ← graphql req; mret (Some r)
  else
    match strip_prefix (as_bytes "/api/v1/") (as_bytes (rq_path req)) with
    | None => mret None
    | Some rest => r ← rest_v1 import cfg fuel req (string_of_list_byte rest); mret (Some r)
    end.
End rest.
