(* ===== verification/Importer.v ===== *)
(** [bins/secgit-server/src/importer.rs]: an import from GitHub into a repository of the
    caller, on the state and the effects of [Server]. *)

From Stdlib Require Import ZArith.
From S2P Require Import Prelude Text BTree Backend Primitives Fs ObjectStore AuditLog Search Forge Git Identity DirectoryStore.
From S2P Require Import Auth Reviews Api Http Authz Pow Abuse RateLimit Json Scim Sso Github Events Metrics Server Rest.

(** [secgit_net::https_get_with_headers]. *)
Class HttpsGet := https_get : string → list (string * string) → result string bytes.

Definition fetch_headers (token : string) : list (string * string) :=
  [("Authorization", "Bearer " +:+ token); ("User-Agent", "secgit-server"); ("Accept", "application/vnd.github+json")].
Definition github_fetch `{HG : HttpsGet} (token url : string) : result ImportError bytes := map_err Fetch (https_get url (fetch_headers token)).

Definition clone_url (token owner repo : string) : string :=
  "https://x-access-token:" +:+ token +:+ "@github.com/" +:+ owner +:+ "/" +:+ repo +:+ ".git".

Definition stored_comment (c : ImportedComment) : Comment :=
  mkComment ("ghc_" +:+ pretty (ic_id c)) ("gh:" +:+ ic_author c) (ic_body c) None (instant_to_unix (ic_created_at c)).
Definition stored_issue (repo_id : string) (gi : ImportedIssue) : Issue :=
  mkIssue ("issue_" +:+ repo_id +:+ "_" +:+ pretty (ii_number gi)) repo_id (ii_number gi) (ii_title gi) (ii_body gi) ("gh:" +:+ ii_author gi)
    (if bool_decide (ii_state gi = "closed") then IssueState.Closed else IssueState.Open) (ii_labels gi)
    (List.map stored_comment (ii_comments gi)) (instant_to_unix (ii_created_at gi)) (instant_to_unix (ii_updated_at gi)).
Definition stored_pull (repo_id : string) (gp : ImportedPull) : PullRequest :=
  mkPr ("pr_" +:+ repo_id +:+ "_" +:+ pretty (ip_number gp)) repo_id (ip_number gp) (ip_title gp) (ip_body gp) ("gh:" +:+ ip_author gp)
    (ip_head_ref gp) (ip_base_ref gp) (ip_head_sha gp)
    (if ip_merged gp then PrState.Merged else if bool_decide (ip_state gp = "closed") then PrState.Closed else PrState.Open)
    (instant_to_unix (ip_created_at gp)) (instant_to_unix (ip_updated_at gp)).

Section importer.
Context {W St Er : Type} `{WO : WorkOps W} `{GS : GitSpawn W} `{OS : ObjectStore St Er} `{RS : !RepoStore St Er}.
Context `{RND : SystemRandom} `{DIG : Digests} `{MAC : Hmacs} `{HX : Hex} `{PB : Pbkdf2} `{AB : AeadBackend} `{ED : Ed25519} `{ML : MlDsa}.
Context `{CK : Clock} `{JT : JsonText} `{HG : HttpsGet} `{UL : UnicodeLower}.
Context `{SI : Serde (list string)} `{SM : Serde SealManifest} `{SEV : Serde AuditEvent} `{SRE : Serde RawEntry}.
Context `{SU : Serde User} `{SRp : Serde Repo} `{SNt : Serde Notification} `{SP : Serde PullRequest} `{SIs : Serde Issue}.
Context `{TF : ErrorText ForgeError}.

Abbreviation H := (H (W := W) (St := St)).

(** The number of values that were stored. *)
Fixpoint store_all {A} (put : A → eff St ReviewError unit) (l : list A) : H N :=
  match l with
  | [] => mret 0
  | x :: l =>
      r ← on_reviews (put x);
      n ← store_all put l;
      mret (match r with Ok _ => n + 1 | Err _ => n end)
  end.

Definition bad_gateway (msg : string) : Response := response_text 502 "Bad Gateway" msg.

(** What follows the registration of the repository. *)
Definition finish_import (fuel : nat) (user repo_id : string) (plan : ImportPlan) : H Response :=
  r ← forge (sealed_size repo_id);
  _ ← modify (λ a, with_quota (preload user Light repo_id (match r with Ok n => n | Err _ => 0 end) (ap_quota a)) a);
  issue_count ← store_all put_issue (List.map (stored_issue repo_id) (plan_issues plan));
  pr_count ← store_all put_pr (List.map (stored_pull repo_id) (plan_pulls plan));
  _ ← index_repo_head fuel repo_id;
  _ ← audit (RepoCreated repo_id user);
  t ← unix_time;
  _ ← on_events (notify user "import" repo_id "GitHub import complete"
        ("Imported " +:+ ir_full_name (plan_repo plan) +:+ " (" +:+ pretty issue_count +:+ " issues, " +:+ pretty pr_count +:+ " pull requests)") t);
  mret (json_response (json [("imported", VBool true); ("repo_id", VString repo_id); ("name", VString (ir_name (plan_repo plan)));
          ("default_branch", VString (ir_default_branch (plan_repo plan))); ("issues", number issue_count); ("pull_requests", number pr_count)])).

Definition import_into (cfg : Config) (fuel : nat) (owner repo token user repo_id : string) : H Response :=
  match import_plan (client_new (github_fetch token)) owner repo with
  | Err e => mret (bad_gateway ("github import failed: " +:+ import_error_text e))
  | Ok plan =>
      r ← forge (clone_mirror repo_id (clone_url token owner repo));
      match r with
      | Err e => mret (bad_gateway ("git clone failed: " +:+ error_text e))
      | Ok _ =>
          r ← forge (seal_to_store (cf_max_segments cfg) repo_id);
          match r with
          | Err e => mret (internal ("seal failed: " +:+ error_text e))
          | Ok _ =>
              r ← on_dir (DirectoryStore.create_repo (mkRepo repo_id (OwnerUser user) (ir_name (plan_repo plan)) (ir_private (plan_repo plan)) []));
              match r with
              | Err e => mret (internal ("register repo: " +:+ identity_error_text e))
              | Ok _ => finish_import fuel user repo_id plan
              end
          end
      end
  end.

Definition import_github (cfg : Config) (fuel : nat) (req : Request) (user : string) : H Response :=
  match json_from_slice (rq_body req) with
  | Err _ => mret (bad_request "invalid JSON body")
  | Ok body =>
      let field k := default "" (get_str k body) in
      let '(owner, repo, token) := (field "owner", field "repo", field "token") in
      if bool_decide (owner = "") || bool_decide (repo = "") || bool_decide (token = "") then
        mret (bad_request "owner, repo and token are required")
      else
        d ← gets directory;
        let repo_id := default (username_of d user +:+ "/" +:+ repo) (get_str "target_repo_id" body) in
        if bool_decide (is_Some (d_repos d !! repo_id)) then mret (response_text 409 "Conflict" "target repo already exists")
        else import_into cfg fuel owner repo token user repo_id
  end.
End importer.
