(* ===== verification/Net.v ===== *)
(** The outbound HTTPS client, [crates/secgit-net/src/lib.rs], and the client of the
    verification tool, [crates/secgit-verify/src/tlsclient.rs].

    Each makes one request on a connection of its own and reads until the end.  What TLS and
    the network do is a class each: whether a name is one, and for the bytes sent the bytes
    that came back, with the certificate shown.  Errors are their outermost text. *)

From S2P Require Import Prelude Text Backend Primitives Http Ssh Events Metrics Server Importer KeyStart Config Tls.

(** [s.rsplit_once(c)]. *)
Definition rsplit_once (c : byte) (s : bytes) : option (bytes * bytes) :=
  '(b, a) ← split_once c (reverse s); Some (reverse a, reverse b).
Definition parse_u16 (s : bytes) : option N := n ← parse_u64 s; if n <? 2 ^ 16 then Some n else None.

(** ** Addresses *)

Record Url := mkUrl { url_host : bytes; url_port : N; url_path : bytes }.

(** What the two parsers share: authority and path, then host and port. *)
Definition split_url (rest : bytes) : result string Url :=
  let '(authority, path) := match split_once x2f rest with Some (a, p) => (a, x2f :: p) | None => (rest, [x2f]) end in
  '(host, port) ←
    match rsplit_once COLON authority with
    | Some (h, p) => port ← ok_or "bad port" (parse_u16 p); Ok (h, port)
    | None => Ok (authority, 443)
    end;
  Ok (mkUrl host port path).

Definition parse_https_url (url : string) : result string Url :=
  rest ← ok_or "only https:// URLs are supported" (strip_prefix (as_bytes "https://") (as_bytes url));
  u ← split_url rest;
  if bool_decide (url_host u = []) then Err "empty host in URL" else Ok u.

(** ** Requests *)

Definition header_line (k v : bytes) : bytes := k ++ as_bytes ": " ++ v ++ CRLF.
Definition request_line (method : string) (u : Url) (agent : string) : bytes :=
  as_bytes method ++ as_bytes " " ++ url_path u ++ as_bytes " HTTP/1.1" ++ CRLF ++
  header_line (as_bytes "Host") (url_host u) ++ header_line (as_bytes "User-Agent") (as_bytes agent) ++
  header_line (as_bytes "Accept") (as_bytes "*/*") ++ header_line (as_bytes "Connection") (as_bytes "close").
Definition length_line (body : bytes) : bytes := header_line (as_bytes "Content-Length") (as_bytes (pretty (lengthN body))).

Definition request_head (method : string) (u : Url) (content_type : option string) (body : option bytes)
    (extra_headers : list (string * string)) : bytes :=
  request_line method u "secgit-net" ++
  match content_type with Some ct => header_line (as_bytes "Content-Type") (as_bytes ct) | None => [] end ++
  mjoin ((λ h : string * string, header_line (as_bytes h.1) (as_bytes h.2)) <$> extra_headers) ++
  match body with Some b => length_line b | None => [] end ++ CRLF.

(** ** Responses *)

Definition read_response (url : string) (raw : bytes) : result string bytes :=
  if bool_decide (raw = []) then Err ("empty HTTP response from " +:+ url)
  else
    '(header, body) ← ok_or "malformed HTTP response (no header terminator)" (find_text (CRLF ++ CRLF) raw);
    let status_line := default [] (head (lines (from_utf8_lossy header))) in
    code ← ok_or "could not parse HTTP status" (split_whitespace status_line !! 1%nat ≫= parse_u16);
    if (200 <=? code) && (code <? 300) then Ok body
    else Err ("HTTP " +:+ pretty code +:+ " from " +:+ url +:+ ": " +:+ string_of_list_byte (from_utf8_lossy body)).

(** ** The connection *)

Inductive TalkError := NoClient | NoConnection | NoRequest | NoBody.

Definition talk_text (u : Url) (e : TalkError) : string :=
  match e with
  | NoClient => "tls client"
  | NoConnection => "connecting to " +:+ string_of_list_byte (url_host u) +:+ ":" +:+ pretty (url_port u)
  | NoRequest => "writing request"
  | NoBody => "writing body"
  end.

(** Against the roots of the web: name, port, head and body sent, to the bytes read. *)
Class WebTls := {
  server_name : bytes → bool;
  web_talk : bytes → N → bytes → option bytes → result TalkError bytes;
}.

Section client.
Context `{WT : WebTls}.

Definition request_with_headers (method url : string) (content_type : option string) (body : option bytes)
    (extra_headers : list (string * string)) : result string bytes :=
  u ← parse_https_url url;
  _ ← (if server_name (url_host u) then Ok () else Err "invalid DNS name");
  raw ← map_err (talk_text u) (web_talk (url_host u) (url_port u) (request_head method u content_type body extra_headers) body);
  read_response url raw.
Definition request (method url : string) (content_type : option string) (body : option bytes) : result string bytes :=
  request_with_headers method url content_type body [].

Definition https_get (url : string) : result string bytes := request "GET" url None None.
Definition https_get_with_headers (url : string) (headers : list (string * string)) : result string bytes :=
  request_with_headers "GET" url None None headers.
Definition https_post_json (url : string) (json : bytes) : result string bytes := request "POST" url (Some "application/json") (Some json).
Definition https_post_json_with_headers (url : string) (json : bytes) (headers : list (string * string)) : result string bytes :=
  request_with_headers "POST" url (Some "application/json") (Some json) headers.

(** The client is what the broker, the importer and the webhooks use. *)
#[export] Instance net_post_json : KeyStart.HttpsPostJson := https_post_json.
#[export] Instance net_get : Importer.HttpsGet := https_get_with_headers.
#[export] Instance net_deliver : Server.HttpsPost := λ d, https_post_json_with_headers (dl_url d) (dl_body d) (dl_headers d).
End client.

(** ** The client of the verification tool *)

(** Any certificate is taken; the last leaf shown is kept. *)
Class CaptureTls := {
  capture_name : bytes → bool;
  capture_talk : bytes → N → bytes → option bytes → result TalkError (bytes * option bytes);
}.

Module Capture.
Record Fetched := mkFetched { fe_body : bytes; fe_peer_spki_sha256_hex : string }.

Definition parse (url : string) : result string Url :=
  rest ← ok_or "acceptance --url must be https://" (strip_prefix (as_bytes "https://") (as_bytes url));
  split_url rest.

Definition der_seq : bytes → option (bytes * bytes) := der_sequence_content.
Definition extract_spki (cert_der : bytes) : option bytes :=
  '(tbs, _) ← der_seq cert_der;
  '(tbs_inner, _) ← der_seq tbs;
  rest ← (if bool_decide (head tbs_inner = Some xa0) then der_skip tbs_inner else Some tbs_inner);
  rest ← der_skips 5 rest;
  der_element rest.
Definition spki_sha256_hex `{DIG : Digests} `{HX : Hex} (cert_der : bytes) : string :=
  hex_encode (sha256 (default cert_der (extract_spki cert_der))).

Definition request_head (method : string) (u : Url) (json_body : option bytes) : bytes :=
  request_line method u "secgit-verify" ++
  match json_body with
  | Some b => header_line (as_bytes "Content-Type") (as_bytes "application/json") ++ length_line b
  | None => []
  end ++ CRLF.

(** The status is not looked at. *)
Definition request `{DIG : Digests} `{HX : Hex} `{CT : CaptureTls} (method url : string) (json_body : option bytes) : result string Fetched :=
  t ← parse url;
  _ ← (if capture_name (url_host t) then Ok () else Err "invalid server name");
  '(raw, captured) ← map_err (talk_text t) (capture_talk (url_host t) (url_port t) (request_head method t json_body) json_body);
  if bool_decide (raw = []) then Err ("empty response from " +:+ url)
  else
    '(_, body) ← ok_or "malformed HTTP response" (find_text (CRLF ++ CRLF) raw);
    leaf ← ok_or "server presented no certificate" captured;
    Ok (mkFetched body (spki_sha256_hex leaf)).
End Capture.

(** ** Theory *)

Lemma pretty_word (n : N) : visible_text (as_bytes (pretty n)).
Proof.
  split.
  - unfold pretty, pretty_N. case_decide; [done|]. rewrite pretty_N_go_step by lia.
    assert (∀ x s, as_bytes s ≠ [] → as_bytes (pretty_N_go x s) ≠ []) as K; [|by apply K].
    intros x. induction (N.lt_wf_0 x) as [x _ IH]. intros s Hs. destruct (decide (0 < x)) as [Hx|].
    + rewrite pretty_N_go_step by done. apply IH; [by apply N.div_lt|done].
    + by assert (x = 0) as -> by lia.
  - eapply Forall_impl; [apply pretty_digits|]. intros b [Hl%N.leb_le Hh%N.leb_le]%andb_true_iff. unfold visible. lia.
Qed.

Lemma parse_u64_pretty n : n ≤ u64_max → parse_u64 (as_bytes (pretty n)) = Some n.
Proof.
  intros Hn. rewrite <-(parse_pretty n Hn). pose proof (pretty_word n) as [Hne _]. pose proof (pretty_digits n) as Hd.
  destruct (as_bytes (pretty n)) as [|b l]; [done|]. apply Forall_cons in Hd as [Hb _].
  destruct b; try done; vm_compute in Hb; discriminate.
Qed.
Lemma parse_u16_pretty n : n < 2 ^ 16 → parse_u16 (as_bytes (pretty n)) = Some n.
Proof.
  intros Hn. unfold parse_u16. rewrite parse_u64_pretty by (unfold u64_max; lia). cbn. by rewrite (proj2 (N.ltb_lt _ _) Hn).
Qed.

(** Addresses are parsed back, with the port or its default. *)
Lemma rsplit_printed c a b : c ∉ b → rsplit_once c (a ++ c :: b) = Some (a, b).
Proof.
  intros Hb. unfold rsplit_once. rewrite reverse_app, reverse_cons, <-app_assoc. cbn [app].
  rewrite split_once_printed by by rewrite elem_of_reverse. cbn. by rewrite !reverse_involutive.
Qed.
Lemma digits_no_colon (n : N) : COLON ∉ as_bytes (pretty n).
Proof. intros H. pose proof (pretty_digits n) as Hd. rewrite Forall_forall in Hd. by apply Hd in H. Qed.
Lemma digits_no_slash (n : N) : x2f ∉ as_bytes (pretty n).
Proof. intros H. pose proof (pretty_digits n) as Hd. rewrite Forall_forall in Hd. by apply Hd in H. Qed.

Definition print_url (host : bytes) (port : option N) (path : bytes) : string :=
  "https://" +:+ string_of_list_byte (host ++ match port with Some p => COLON :: as_bytes (pretty p) | None => [] end ++ path).

Lemma url_printed host port path : host ≠ [] → (x2f ∉ host) → (COLON ∉ host) →
  (∀ p, port = Some p → p < 2 ^ 16) →
  parse_https_url (print_url host port (x2f :: path)) = Ok (mkUrl host (default 443 port) (x2f :: path)).
Proof.
  intros Hne Hs Hc Hp. unfold parse_https_url, print_url. rewrite as_bytes_app.
  rewrite strip_prefix_app. cbn [ok_or mbind result_mbind]. unfold as_bytes at 1. rewrite list_byte_of_string_of_list_byte.
  set (pt := match port with Some p => _ | None => _ end). unfold split_url.
  assert (split_once x2f (host ++ pt ++ x2f :: path) = Some (host ++ pt, path)) as ->.
  { rewrite app_assoc. apply split_once_printed. rewrite elem_of_app. intros [?|Hin]; [done|]. subst pt. destruct port as [p|]; [|set_solver].
    apply elem_of_cons in Hin as [?|Hin]; [done|by apply digits_no_slash in Hin]. }
  destruct port as [p|]; subst pt; cbn [default from_option id].
  - rewrite rsplit_printed by apply digits_no_colon. rewrite parse_u16_pretty by auto. cbn. by case_bool_decide.
  - rewrite app_nil_r. assert (rsplit_once COLON host = None) as ->.
    { unfold rsplit_once. by rewrite (proj2 (split_once_None _ _)) by by rewrite elem_of_reverse. }
    cbn. by case_bool_decide.
Qed.

(** Whatever is accepted names a host, a port of sixteen bits and an absolute path. *)
Lemma url_shape url u : parse_https_url url = Ok u →
  ∃ rest, as_bytes url = as_bytes "https://" ++ rest ∧ url_host u ≠ [] ∧ (x2f ∉ url_host u) ∧ url_port u < 2 ^ 16 ∧
    head (url_path u) = Some x2f.
Proof.
  unfold parse_https_url. destruct (strip_prefix _ _) as [rest|] eqn:E; [|done]. apply strip_prefix_spec in E.
  cbn [ok_or mbind result_mbind]. intros H. exists rest. split; [done|]. clear E. revert H. unfold split_url.
  destruct (match split_once x2f rest with Some _ => _ | None => _ end) as [au p] eqn:E.
  assert ((x2f ∉ au) ∧ head p = Some x2f) as [Ha Hp].
  { destruct (split_once x2f rest) as [[a q]|] eqn:F; injection E as <- <-.
    - apply split_once_spec in F as [_ F]. done.
    - by apply split_once_None in F. }
  destruct (rsplit_once COLON au) as [[h pt]|] eqn:F; cbn [mbind result_mbind].
  - destruct (parse_u16 pt) as [n|] eqn:G; [|done]. cbn. case_bool_decide; [done|]. intros [= <-]. cbn.
    unfold rsplit_once in F. destruct (split_once COLON (reverse au)) as [[b a]|] eqn:K; [|done]. injection F as <- <-.
    apply split_once_spec in K as [K _]. apply (f_equal reverse) in K. rewrite reverse_involutive, reverse_app, reverse_cons in K.
    unfold parse_u16 in G. destruct (parse_u64 _) as [m|]; [|done]. cbn in G. destruct (N.ltb_spec m (2 ^ 16)); [|done].
    injection G as <-. split_and!; try done. subst au. set_solver.
  - cbn. case_bool_decide; [done|]. intros [= <-]. done.
Qed.

(** *** Reading what the server writes *)

Definition SEP : bytes := CRLF ++ CRLF.

Lemma find_sep_skip x k : x ≠ CR → find_text SEP (x :: k) = '(pre, rest) ← find_text SEP k; Some (x :: pre, rest).
Proof.
  intros Hx. cbn [find_text]. unfold strip_prefix. case_bool_decide as E; [|done]. exfalso. apply Hx.
  apply (f_equal head) in E. cbn in E. congruence.
Qed.

Lemma find_sep_line l k : CR ∉ l → find_text SEP (l ++ k) = '(pre, rest) ← find_text SEP k; Some (l ++ pre, rest).
Proof.
  induction l as [|x l IH]; intros Hl; cbn [app].
  { by destruct (find_text SEP k) as [[]|]. }
  apply not_elem_of_cons in Hl as [Hx Hl]. rewrite find_sep_skip, IH by congruence. by destruct (find_text SEP k) as [[]|].
Qed.

(** A line end that is followed by something else is passed over. *)
Lemma find_sep_crlf k : head k ≠ Some CR → find_text SEP (CRLF ++ k) = '(pre, rest) ← find_text SEP k; Some (CRLF ++ pre, rest).
Proof.
  intros Hk. assert (∀ k', head k ≠ Some CR → strip_prefix SEP (CRLF ++ k) = Some k' → False) as K.
  { intros k' Hh E%strip_prefix_spec. apply Hh. destruct k; [done|]. unfold SEP, CRLF in E. cbn in E. by injection E as ->. }
  change (CRLF ++ k) with (CR :: NL :: k) in *. cbn [find_text].
  destruct (strip_prefix SEP (CR :: NL :: k)) eqn:E; [by destruct (K _ Hk eq_refl)|].
  assert (strip_prefix SEP (NL :: k) = None) as ->.
  { unfold strip_prefix. case_bool_decide as F; [|done]. apply (f_equal head) in F. done. }
  by destruct (find_text SEP k) as [[]|].
Qed.

Lemma find_sep_lines l ls body : (CR ∉ l) → Forall (λ l, (CR ∉ l) ∧ l ≠ []) ls →
  ∃ more, find_text SEP (l ++ CRLF ++ mjoin ((λ l, l ++ CRLF) <$> ls) ++ CRLF ++ body) = Some (l ++ more, body) ∧
    (more = [] ∨ ∃ m, more = CRLF ++ m).
Proof.
  intros Hl Hls. revert l Hl. induction Hls as [|l' ls [Hcr Hne] _ IH]; intros l Hl.
  - exists []. split; [|by left]. rewrite find_sep_line by done. done.
  - change (mjoin ((λ l, l ++ CRLF) <$> l' :: ls)) with ((l' ++ CRLF) ++ mjoin ((λ l, l ++ CRLF) <$> ls)).
    rewrite <-!app_assoc. destruct (IH l' Hcr) as (more & E & _). exists (CRLF ++ l' ++ more). split; [|right; eauto].
    rewrite find_sep_line, find_sep_crlf by (done || (destruct l' as [|x l']; [done|]; cbn; apply not_elem_of_cons in Hcr as [? _]; congruence)).
    by rewrite E.
Qed.

(** A response that stays on its lines: the status line is ASCII, and no field has a
    carriage return. *)
Definition plain_field (s : string) : Prop := CR ∉ as_bytes s.
Definition plain_response (r : Response) : Prop :=
  rs_status r < 2 ^ 16 ∧ ascii_text (as_bytes (rs_reason r)) ∧ (NL ∉ as_bytes (rs_reason r)) ∧ plain_field (rs_reason r) ∧
  plain_field (rs_content_type r) ∧ Forall (λ h, plain_field h.1 ∧ plain_field h.2) (rs_extra_headers r).

Definition status_line (r : Response) : bytes :=
  as_bytes "HTTP/1.1" ++ x20 :: as_bytes (pretty (rs_status r)) ++ x20 :: as_bytes (rs_reason r).
Definition response_lines (r : Response) : list bytes :=
  [as_bytes "Content-Type: " ++ as_bytes (rs_content_type r);
   as_bytes "Content-Length: " ++ as_bytes (pretty (lengthN (rs_body r))); as_bytes "Connection: close"] ++
  ((λ h : string * string, as_bytes h.1 ++ as_bytes ": " ++ as_bytes h.2) <$> rs_extra_headers r).

Lemma write_response_lines r :
  write_response r = status_line r ++ CRLF ++ mjoin ((λ l, l ++ CRLF) <$> response_lines r) ++ CRLF ++ rs_body r.
Proof.
  unfold write_response, status_line, response_lines.
  change (as_bytes "HTTP/1.1 ") with (as_bytes "HTTP/1.1" ++ [x20]). change (as_bytes " ") with [x20].
  rewrite fmap_app, join_app, <-list_fmap_compose.
  assert (∀ a b c, mjoin ((λ l : bytes, l ++ CRLF) <$> [a; b; c]) = a ++ CRLF ++ b ++ CRLF ++ c ++ CRLF) as ->
    by (intros; cbn; by rewrite app_nil_r, <-!app_assoc).
  replace ((λ l, l ++ CRLF) ∘ (λ h : string * string, as_bytes h.1 ++ as_bytes ": " ++ as_bytes h.2) <$> rs_extra_headers r)
    with ((λ h : string * string, as_bytes h.1 ++ as_bytes ": " ++ as_bytes h.2 ++ CRLF) <$> rs_extra_headers r)
    by (apply list_fmap_ext; intros i h _; cbn; by rewrite <-!app_assoc).
  repeat (rewrite <-app_assoc || cbn [app]). done.
Qed.

Lemma plain_status r : plain_response r → (CR ∉ status_line r) ∧ ascii_text (status_line r) ∧ (NL ∉ status_line r).
Proof.
  intros (_ & Ha & Hn & Hc & _). unfold status_line, plain_field in *. destruct (pretty_word (rs_status r)) as [_ Hv].
  pose proof (visible_not CR _ ltac:(unfold visible; vm_compute; intuition discriminate) Hv).
  pose proof (visible_not NL _ ltac:(unfold visible; vm_compute; intuition discriminate) Hv).
  assert (∀ b, b ∈ as_bytes "HTTP/1.1" ++ x20 :: as_bytes (pretty (rs_status r)) ++ x20 :: as_bytes (rs_reason r) ↔
    b ∈ as_bytes "HTTP/1.1" ∨ b = x20 ∨ b ∈ as_bytes (pretty (rs_status r)) ∨ b ∈ as_bytes (rs_reason r)) as K.
  { intros b. rewrite !elem_of_app, elem_of_cons, elem_of_app, elem_of_cons. tauto. }
  split; [|split].
  - rewrite K. intros [Hb|[Hb|[|]]]; try done. revert Hb. vm_decide.
  - unfold ascii_text in *. rewrite Forall_app, Forall_cons, Forall_app, Forall_cons. split_and!; try done; [vm_decide|by apply visible_ascii].
  - rewrite K. intros [Hb|[Hb|[|]]]; try done. revert Hb. vm_decide.
Qed.

Lemma lines_single l : (NL ∉ l) → l ≠ [] → lines l = [l].
Proof.
  intros Hn Hne. unfold lines. assert (split_nl l = [(l, false)]) as ->; [|done].
  induction l as [|x l IH]; [done|]. apply not_elem_of_cons in Hn as [Hx Hn]. cbn [split_nl].
  rewrite bool_decide_eq_false_2 by congruence. destruct l as [|y l]; [done|]. by rewrite IH.
Qed.
Lemma lines_crlf l rest : (NL ∉ l) → lines (l ++ CRLF ++ rest) = l :: lines rest.
Proof.
  intros Hn. replace (l ++ CRLF ++ rest) with ((l ++ [CR]) ++ NL :: rest) by by rewrite <-app_assoc.
  unfold lines. rewrite split_nl_line; [|rewrite elem_of_app, list_elem_of_singleton; by intros [|]].
  cbn [fmap list_fmap snd fst]. f_equal. unfold strip_cr. rewrite last_snoc, bool_decide_eq_true_2 by done. apply removelast_last.
Qed.

(** The client returns the body the server wrote when the status is a success, and otherwise
    an error with the status and the body. *)
Lemma read_written url r : plain_response r →
  read_response url (write_response r) =
    if (200 <=? rs_status r) && (rs_status r <? 300) then Ok (rs_body r)
    else Err ("HTTP " +:+ pretty (rs_status r) +:+ " from " +:+ url +:+ ": " +:+ string_of_list_byte (from_utf8_lossy (rs_body r))).
Proof.
  intros Hr. pose proof (plain_status r Hr) as (Hcr & Ha & Hn). destruct Hr as (Hs & _ & _ & _ & Hct & Hh).
  unfold read_response. rewrite bool_decide_eq_false_2 by (rewrite write_response_lines; by destruct r).
  rewrite write_response_lines.
  destruct (find_sep_lines (status_line r) (response_lines r) (rs_body r)) as (more & E & Hm); [done|..].
  { unfold response_lines, plain_field in *. apply Forall_app. split.
    - destruct (pretty_word (lengthN (rs_body r))) as [_ Hv].
      pose proof (visible_not CR _ ltac:(unfold visible; vm_compute; intuition discriminate) Hv).
      repeat apply Forall_cons_2; try apply Forall_nil_2; (split; [|discriminate]).
      1,2: rewrite elem_of_app; intros [Hb|]; [revert Hb; vm_decide|done].
      vm_decide.
    - apply Forall_fmap. eapply Forall_impl; [exact Hh|]. intros h [H1 H2]. cbn. split; [|by destruct (as_bytes h.1)].
      rewrite elem_of_app, !elem_of_cons. by intros [|[|[|]]]. }
  change (CRLF ++ CRLF) with SEP. rewrite E. cbn [ok_or mbind result_mbind].
  assert (head (lines (from_utf8_lossy (status_line r ++ more))) = Some (status_line r)) as ->.
  { rewrite from_utf8_lossy_ascii by done. destruct Hm as [->|[m ->]].
    - rewrite app_nil_r. by rewrite lines_single.
    - rewrite (from_utf8_lossy_ascii CRLF) by by repeat constructor. by rewrite lines_crlf. }
  cbn [default from_option id].
  pose proof (split_request_line (as_bytes "HTTP/1.1") (as_bytes (pretty (rs_status r))) (as_bytes (rs_reason r))) as Hw.
  fold (status_line r) in Hw. specialize (Hw ltac:(split; [done|by repeat constructor]) (pretty_word _)).
  destruct (split_whitespace (status_line r)) as [|m [|t ws]]; [done..|]. injection Hw as -> ->. cbn [lookup list_lookup].
  cbn [mbind option_bind]. by rewrite parse_u16_pretty.
Qed.

(** *** What the server reads of a request of the client *)

Definition client_headers (u : Url) (content_type : option string) (body : option bytes) (extra : list (string * string)) : list (bytes * bytes) :=
  [(as_bytes "Host", url_host u); (as_bytes "User-Agent", as_bytes "secgit-net"); (as_bytes "Accept", as_bytes "*/*");
   (as_bytes "Connection", as_bytes "close")] ++
  match content_type with Some ct => [(as_bytes "Content-Type", as_bytes ct)] | None => [] end ++
  ((λ h : string * string, (as_bytes h.1, as_bytes h.2)) <$> extra) ++
  match body with Some b => [(as_bytes "Content-Length", as_bytes (pretty (lengthN b)))] | None => [] end.

Lemma request_head_printed method u ct body extra :
  request_head method u ct body extra ++ default [] body =
  print_request (as_bytes method) (url_path u) (client_headers u ct body extra) (default [] body).
Proof.
  assert (∀ h, print_header h = header_line h.1 h.2) as K by done.
  assert (print_header <$> ((λ h : string * string, (as_bytes h.1, as_bytes h.2)) <$> extra) =
    (λ h : string * string, header_line (as_bytes h.1) (as_bytes h.2)) <$> extra) as Hx by by rewrite <-list_fmap_compose.
  unfold request_head, request_line, print_request, client_headers, length_line. rewrite !fmap_app, !join_app, Hx.
  set (more := mjoin (_ <$> extra)). change (as_bytes " HTTP/1.1") with (x20 :: as_bytes "HTTP/1.1"). change (as_bytes " ") with [x20].
  assert (∀ (x : bytes) l, mjoin (x :: l) = x ++ mjoin l) as J by done. assert (mjoin [] = @nil byte) as J0 by done.
  destruct ct as [ct|], body as [b|]; cbn [fmap list_fmap default from_option id]; rewrite !J, !J0, !K; cbn [fst snd];
    repeat (rewrite <-app_assoc || cbn [app]); done.
Qed.

Lemma headers_of_other hs m k : Forall (λ h, string_of_list_byte (lower_byte <$> h.1) ≠ k) hs → headers_of hs m !! k = m !! k.
Proof.
  unfold headers_of. intros H. revert m. induction H as [|h hs Hh _ IH]; intros m; [done|]. cbn [fold_left].
  by rewrite IH, lookup_insert_ne.
Qed.

(** The headers a caller adds may not change the framing. *)
Definition framing_header (k : string) : Prop :=
  let name := string_of_list_byte (lower_byte <$> as_bytes k) in name = "content-length" ∨ name = "transfer-encoding".

Lemma client_framing u ct body extra : Forall (λ h, ¬ framing_header h.1) extra → lengthN (default [] body) ≤ u64_max →
  chunked (headers_of (client_headers u ct body extra) ∅) = false ∧
  content_length (headers_of (client_headers u ct body extra) ∅) = lengthN (default [] body).
Proof.
  intros Hx Hb. unfold client_headers. set (ex := _ <$> extra).
  assert (∀ k, k = "content-length" ∨ k = "transfer-encoding" → Forall (λ h, string_of_list_byte (lower_byte <$> h.1) ≠ k)
    ([(as_bytes "Host", url_host u); (as_bytes "User-Agent", as_bytes "secgit-net"); (as_bytes "Accept", as_bytes "*/*");
      (as_bytes "Connection", as_bytes "close")] ++ match ct with Some ct => [(as_bytes "Content-Type", as_bytes ct)] | None => [] end ++ ex)) as K.
  { intros k Hk. apply Forall_app. split; [by destruct Hk as [->| ->]; repeat constructor|]. apply Forall_app. split.
    - destruct ct; [|done]. by destruct Hk as [->| ->]; repeat constructor.
    - subst ex. apply Forall_fmap. eapply Forall_impl; [exact Hx|]. intros h Hn E. apply Hn. unfold framing_header. cbn in E. subst. tauto. }
  destruct body as [b|]; cbn [default from_option id].
  - rewrite !app_assoc. unfold headers_of. rewrite fold_left_app. cbn [fold_left fst snd]. fold (headers_of). rewrite <-!app_assoc.
    set (hs := _ ++ _ ++ ex) in *. split.
    + unfold chunked. rewrite lookup_insert_ne by done. change (fold_left _ hs ∅) with (headers_of hs ∅). by rewrite headers_of_other by auto.
    + unfold content_length. rewrite lookup_insert_eq. cbn [mbind option_bind]. unfold as_bytes at 1.
      rewrite list_byte_of_string_of_list_byte. by rewrite parse_u64_pretty.
  - rewrite app_nil_r. unfold chunked, content_length. by rewrite !headers_of_other by auto.
Qed.

(** A server of this workspace at the other end: it parses what arrives and answers. *)
Definition answer (limits : HttpLimits) (handler : Request → Response) (data : bytes) : bytes :=
  match parse_request limits data AtEof with
  | Ok (Parsed req) => write_response (handler req)
  | Ok (Reject r) => write_response r
  | _ => []
  end.

Section exchange.
Context `{WT : WebTls}.

(** C28. The whole exchange between this client and a server of this workspace, over a
    connection that delivers what each side writes.  The address is one the client parses,
    with a name it accepts; the method and the target are visible ASCII text, so the address
    has no space and no line break, and the server's parser splits the target; every header
    has a visible name without a colon and an ASCII value on one line that starts and ends
    visibly; no header the caller adds is Content-Length or Transfer-Encoding; head, number
    of headers and body are within the server's limits; and the handler's response has a
    status below 2^16, an ASCII reason and no carriage return in its fields.  Then the
    handler sees exactly the request that was asked for, its method, the parts of its
    target, its headers and its body, and the caller gets exactly the body the handler gave,
    or an error that names the status and shows the body. *)
Theorem client_meets_server (limits : HttpLimits) (handler : Request → Response) (url : string) (u : Url) (method : string)
    (content_type : option string) (body : option bytes) (extra : list (string * string)) (path : string) (query : gmap string string) :
  let headers := client_headers u content_type body extra in
  let req := {| rq_method := method; rq_path := path; rq_query := query; rq_headers := headers_of headers ∅;
                rq_body := default [] body; rq_peer_ip := "" |} in
  let r := handler req in
  parse_https_url url = Ok u → server_name (url_host u) = true →
  (∀ h b, web_talk (url_host u) (url_port u) h b = Ok (answer limits handler (h ++ default [] b))) →
  visible_text (as_bytes method) → visible_text (url_path u) → split_target (url_path u) = Some (path, query) →
  Forall header_ok headers → Forall (λ h, ¬ framing_header h.1) extra →
  lengthN (print_request (as_bytes method) (url_path u) headers []) ≤ max_header_bytes limits →
  lengthN headers ≤ max_header_count limits → lengthN (default [] body) ≤ N.min u64_max (max_body_bytes limits) →
  plain_response r →
  parse_request limits (request_head method u content_type body extra ++ default [] body) AtEof = Ok (Parsed req) ∧
  request_with_headers method url content_type body extra =
    if (200 <=? rs_status r) && (rs_status r <? 300) then Ok (rs_body r)
    else Err ("HTTP " +:+ pretty (rs_status r) +:+ " from " +:+ url +:+ ": " +:+ string_of_list_byte (from_utf8_lossy (rs_body r))).
Proof.
  intros headers req r Hu Hn Htalk Hm Hp Hs Hh Hx L1 L2 L3 Hr. destruct (client_framing u content_type body extra Hx ltac:(lia)) as [Hc Hl].
  assert (parse_request limits (request_head method u content_type body extra ++ default [] body) AtEof = Ok (Parsed req)) as Hreq.
  { rewrite request_head_printed. rewrite <-(app_nil_r (print_request _ _ _ (default [] body))).
    rewrite (parse_request_printed limits (as_bytes method) (url_path u) _ (default [] body) [] AtEof path query);
      [|done|done|exact Hh|done|exact Hc|exact Hl|exact L1|exact L2|lia].
    unfold as_bytes. by rewrite string_of_list_byte_of_string. }
  split; [exact Hreq|]. unfold request_with_headers. rewrite Hu. cbn [mbind result_mbind]. rewrite Hn. cbn [mbind result_mbind]. rewrite Htalk.
  cbn [map_err mbind result_mbind]. unfold answer. rewrite Hreq. by apply read_written.
Qed.

End exchange.

Section witnesses.
(** A server that answers a POST with what was posted, and refuses everything else. *)
Definition echo_handler (req : Request) : Response :=
  if bool_decide (rq_method req = "POST") then response_json (rq_body req) else response_text 405 "Method Not Allowed" "no".
#[local] Instance echo_tls : WebTls := {|
  server_name := λ h, bool_decide (h = as_bytes "kbs");
  web_talk := λ _ _ h b, Ok (answer http_limits_default echo_handler (h ++ default [] b));
|}.

Lemma client_meets_server_witness :
  request_with_headers "POST" "https://kbs:8443/v1/release?x=%41" (Some "application/json") (Some (as_bytes "{}")) [("X-Id", "7")] = Ok (as_bytes "{}").
Proof.
  edestruct (client_meets_server http_limits_default echo_handler "https://kbs:8443/v1/release?x=%41"
    (mkUrl (as_bytes "kbs") 8443 (as_bytes "/v1/release?x=%41")) "POST" (Some "application/json") (Some (as_bytes "{}")) [("X-Id", "7")]
    "/v1/release" {["x" := "A"]}) as [_ H]; [vm_refl|vm_refl|done|..|vm_decide|vm_decide|vm_decide| |etrans; [exact H|vm_refl]].
  - split; [done|]. by repeat constructor.
  - split; [done|]. by repeat constructor.
  - vm_refl.
  - repeat constructor; apply toy_header_ok; (vm_refl || vm_decide || discriminate).
  - repeat constructor. by vm_compute; intuition discriminate.
  - unfold plain_response, plain_field. split_and!; try vm_decide; done.
Defined.
End witnesses.

(** ** Observations *)

Definition echo_client (reply : bytes) : WebTls := {| server_name := λ _, true; web_talk := λ _ _ _ _, Ok reply |}.

(** A body that was cut short is returned as if it were whole: its length is not checked. *)
Example truncated_body_accepted :
  @https_get (echo_client (as_bytes "HTTP/1.1 200 OK" ++ CRLF ++ as_bytes "Content-Length: 9" ++ SEP ++ as_bytes "half")) "https://h/"
  = Ok (as_bytes "half").
Proof. vm_refl. Qed.
(** The request says HTTP/1.1, whose servers may send chunks; their framing stays in the body. *)
Example chunks_stay :
  @https_get (echo_client (as_bytes "HTTP/1.1 200 OK" ++ CRLF ++ as_bytes "Transfer-Encoding: chunked" ++ SEP ++
    as_bytes "2" ++ CRLF ++ as_bytes "{}" ++ CRLF ++ as_bytes "0" ++ SEP)) "https://h/"
  = Ok (as_bytes "2" ++ CRLF ++ as_bytes "{}" ++ CRLF ++ as_bytes "0" ++ SEP).
Proof. vm_refl. Qed.
(** Line ends in an address are sent as they are: its author adds headers to the request. *)
Definition split_address : string :=
  string_of_list_byte (as_bytes "https://h/x HTTP/1.1" ++ CRLF ++ as_bytes "X-Admin: 1" ++ CRLF ++ as_bytes "Y: z").
Definition sent_path_and_header : option (string * option string) :=
  u ← to_option (parse_https_url split_address);
  match parse_request http_limits_default (request_head "GET" u None None []) AtEof with
  | Ok (Parsed req) => Some (rq_path req, rq_headers req !! "x-admin")
  | _ => None
  end.
Example address_adds_headers : sent_path_and_header = Some ("/x", Some "1").
Proof. vm_refl. Qed.
