(* ===== verification/Leak.v ===== *)
(** The leak tests: [crates/secgit-leaktest/src/lib.rs], and the walks over a directory of
    [crates/secgit-verify/src/main.rs] and [acceptance.rs].

    A directory tree is what the file system shows of it: a file with its bytes, if they
    can be read; a directory with its entries, if they can be listed; something else.  A
    failed assertion is [None]. *)

From S2P Require Import Prelude Text KeyBroker Attest.

(** ** Canaries *)

(** [{:032x}]: at least [k] digits; a [u128] has no more. *)
Definition hex_digit (n : N) : byte := byte_of_N (if n <? 10 then 48 + n else 87 + n).
Fixpoint hex_digits (k : nat) (n : N) : bytes :=
  match k with O => [] | S k => hex_digits k (n / 16) ++ [hex_digit (n mod 16)] end.

(** The number in a canary: address, process, clock and the process-wide counter, on [u128]. *)
Definition canary_raw (addr pid nanos seq : N) : N :=
  N.lxor ((N.lxor addr (N.shiftl pid 64) + nanos) mod 2 ^ 128) (N.shiftl seq 96 mod 2 ^ 128).

Record Canary := mkCanary { ca_value : bytes }.
Definition canary_new (label : string) (addr pid nanos seq : N) : Canary :=
  mkCanary (as_bytes "SECGIT-CANARY-" ++ as_bytes label ++ as_bytes "-" ++ hex_digits 32 (canary_raw addr pid nanos seq)).

(** ** Searching bytes *)

(** [l.windows(k)]. *)
Definition windows (k : nat) (l : bytes) : list bytes := (λ i, take k (drop i l)) <$> seq 0 (S (length l) - k).
Definition any_window (needle haystack : bytes) : bool :=
  existsb (λ w, bool_decide (w = needle)) (windows (length needle) haystack).
Definition found (haystack needle : bytes) : bool :=
  if bool_decide (needle = []) || (length haystack <? length needle)%nat then false else any_window needle haystack.

Definition assert_bytes_absent (haystack needle : bytes) : option unit :=
  if bool_decide (needle = []) then None else if found haystack needle then None else Some ().

Fixpoint assert_all_absent (haystack : bytes) (needles : list bytes) : option unit :=
  match needles with
  | [] => Some ()
  | n :: needles => _ ← assert_bytes_absent haystack n; assert_all_absent haystack needles
  end.

(** ** Walking a directory *)

Inductive Entry :=
| EFile (content : option bytes)
| EDir (entries : option (list Entry))
| EOther.

(** The files a walk reads, in its order. *)
Fixpoint visited (e : Entry) : list bytes :=
  match e with
  | EFile (Some b) => [b]
  | EDir (Some es) => (fix go es := match es with [] => [] | e :: es => visited e ++ go es end) es
  | _ => []
  end.
(** [visit_files] of a directory, with a callback that may fail. *)
Fixpoint visit_all (f : bytes → option unit) (l : list bytes) (scanned : N) : option N :=
  match l with
  | [] => Some scanned
  | b :: l => _ ← f b; visit_all f l (scanned + 1)
  end.
Definition assert_dir_ciphertext (dir : Entry) (needles : list bytes) : option N :=
  visit_all (λ b, assert_all_absent b needles) (visited dir) 0.
Definition assert_dir_ciphertext_nonempty (dir : Entry) (needles : list bytes) : option unit :=
  n ← assert_dir_ciphertext dir needles; if 0 <? n then Some () else None.

(** [dir_contains] of the acceptance harness, [walk] of the self-test. *)
Fixpoint dir_contains (e : Entry) (needle : bytes) : bool :=
  match e with
  | EFile (Some b) => any_window needle b
  | EDir (Some es) => (fix go es := match es with [] => false | e :: es => dir_contains e needle || go es end) es
  | _ => false
  end.

(** ** Theory *)

Lemma any_window_spec needle hay : any_window needle hay = true ↔ ∃ a b, hay = a ++ needle ++ b.
Proof.
  unfold any_window, windows. rewrite existsb_exists. split.
  - intros (w & Hw%list_elem_of_In & Hd%bool_decide_eq_true). apply list_elem_of_fmap in Hw as (i & -> & Hi).
    exists (take i hay), (drop (length needle) (drop i hay)). rewrite <-(take_drop i hay) at 1. f_equal.
    rewrite <-(take_drop (length needle) (drop i hay)) at 1. by rewrite Hd.
  - intros (a & b & ->). exists needle. split; [|by apply bool_decide_eq_true]. apply list_elem_of_In, list_elem_of_fmap.
    exists (length a). rewrite drop_app_length, take_app_length. split; [done|]. apply elem_of_seq. len_lia.
Qed.

Lemma found_spec hay needle : found hay needle = true ↔ needle ≠ [] ∧ ∃ a b, hay = a ++ needle ++ b.
Proof.
  unfold found. rewrite <-any_window_spec. case_bool_decide as E; cbn [orb]; [naive_solver|].
  destruct (Nat.ltb_spec (length hay) (length needle)) as [Hl|]; [|naive_solver]. rewrite any_window_spec. split; [done|].
  intros (_ & a & b & ->). rewrite !length_app in Hl. lia.
Qed.

Lemma all_absent_spec hay needles : assert_all_absent hay needles = Some () ↔
  Forall (λ n, n ≠ [] ∧ ¬ ∃ a b, hay = a ++ n ++ b) needles.
Proof.
  induction needles as [|n ns IH]; [done|]. cbn [assert_all_absent]. rewrite Forall_cons, <-IH. unfold assert_bytes_absent.
  case_bool_decide as E; cbn; [naive_solver|]. destruct (found hay n) eqn:F; cbn.
  - apply found_spec in F. naive_solver.
  - split; [|tauto]. intros H. split; [|done]. split; [done|]. intros Hab. by rewrite (proj2 (found_spec hay n)) in F.
Qed.

(** A scan that passes read every readable file of the tree, and none has a needle. *)
Lemma dir_ciphertext_exact dir needles n : assert_dir_ciphertext dir needles = Some n ↔
  n = lengthN (visited dir) ∧ Forall (λ b, Forall (λ nd, nd ≠ [] ∧ ¬ ∃ x y, b = x ++ nd ++ y) needles) (visited dir).
Proof.
  unfold assert_dir_ciphertext. assert (∀ l k, visit_all (λ b, assert_all_absent b needles) l k = Some n ↔ n = k + lengthN l ∧
    Forall (λ b, Forall (λ nd, nd ≠ [] ∧ ¬ ∃ x y, b = x ++ nd ++ y) needles) l) as K; [|by rewrite K, N.add_0_l].
  induction l as [|b l IH]; intros k; cbn [visit_all length].
  - rewrite N.add_0_r. split; [by intros [= ->]|by intros [-> _]].
  - rewrite Forall_cons, <-all_absent_spec. destruct (assert_all_absent b needles) as [[]|]; cbn; [|naive_solver].
    rewrite IH. split; [intros [-> ?]; split; [lia|done]|intros (-> & _ & ?); split; [lia|done]].
Qed.

Section entry_ind.
Variable P : Entry → Prop.
Hypothesis Hfile : ∀ c, P (EFile c).
Hypothesis Hnone : P (EDir None).
Hypothesis Hdir : ∀ es, Forall P es → P (EDir (Some es)).
Hypothesis Hother : P EOther.
Fixpoint entry_nested (e : Entry) : P e :=
  match e with
  | EFile c => Hfile c
  | EDir None => Hnone
  | EDir (Some es) => Hdir es ((fix go es : Forall P es := match es with [] => Forall_nil_2 P | e :: es => Forall_cons_2 P e es (entry_nested e) (go es) end) es)
  | EOther => Hother
  end.
End entry_ind.

(** The harness finds a needle exactly when a file it can read has it. *)
Lemma dir_contains_exact e needle : dir_contains e needle = true ↔ ∃ b x y, b ∈ visited e ∧ b = x ++ needle ++ y.
Proof.
  assert (false = true ↔ ∃ b x y, b ∈ @nil bytes ∧ b = x ++ needle ++ y) as Hno.
  { split; [done|]. intros (b & x & y & Hb & _). by apply not_elem_of_nil in Hb. }
  induction e as [[b|]| |es IH|] using entry_nested; cbn [dir_contains visited]; try exact Hno.
  - rewrite any_window_spec. setoid_rewrite list_elem_of_singleton. naive_solver.
  - induction IH as [|e es He _ IHs]; [exact Hno|]. rewrite orb_true_iff, He, IHs. split.
    + intros [(b & x & y & Hb & E)|(b & x & y & Hb & E)]; exists b, x, y; rewrite elem_of_app; auto.
    + intros (b & x & y & [Hb|Hb]%elem_of_app & E); [left|right]; eauto.
Qed.

Lemma hex_digit_inj a b : a < 16 → b < 16 → hex_digit a = hex_digit b → a = b.
Proof.
  intros Ha Hb E. apply (f_equal Byte.to_N) in E. unfold hex_digit in E. destruct (N.ltb_spec a 10), (N.ltb_spec b 10);
    rewrite !byte_of_N_small in E by lia; lia.
Qed.
Lemma length_hex_digits k n : length (hex_digits k n) = k.
Proof. revert n. induction k as [|k IH]; intros n; [done|]. cbn [hex_digits]. rewrite length_app, IH. cbn. lia. Qed.
Lemma hex_digits_inj k a b : a < 16 ^ N.of_nat k → b < 16 ^ N.of_nat k → hex_digits k a = hex_digits k b → a = b.
Proof.
  revert a b. induction k as [|k IH]; intros a b Ha Hb E; [change (16 ^ N.of_nat 0) with 1 in *; lia|].
  rewrite Nat2N.inj_succ, N.pow_succ_r' in Ha, Hb. cbn [hex_digits] in E. apply app_inj_tail in E as [E1 E2].
  apply IH in E1; [|apply N.Div0.div_lt_upper_bound; lia..]. apply hex_digit_inj in E2; [|by apply N.mod_lt..].
  pose proof (N.Div0.div_mod a 16). pose proof (N.Div0.div_mod b 16). lia.
Qed.

(** The high half word of the number is the counter. *)
Lemma canary_raw_high addr pid nanos seq : N.lxor addr (N.shiftl pid 64) + nanos < 2 ^ 96 →
  N.shiftr (canary_raw addr pid nanos seq) 96 = seq mod 2 ^ 32 ∧ canary_raw addr pid nanos seq < 2 ^ 128.
Proof.
  intros Hb. unfold canary_raw. set (base := N.lxor addr (N.shiftl pid 64) + nanos) in *.
  assert (2 ^ 96 < 2 ^ 128) by (vm_compute; done). rewrite (N.mod_small base) by lia.
  assert (N.shiftl seq 96 mod 2 ^ 128 = N.shiftl (seq mod 2 ^ 32) 96) as ->.
  { rewrite !N.shiftl_mul_pow2. change (2 ^ 128) with (2 ^ 32 * 2 ^ 96). by rewrite N.Div0.mul_mod_distr_r. }
  pose proof (N.mod_lt seq (2 ^ 32) ltac:(done)) as Hs. split.
  - rewrite N.shiftr_lxor, (N.shiftr_div_pow2 base), (N.div_small base) by done. rewrite N.lxor_0_l, N.shiftr_shiftl_l by done.
    apply N.shiftl_0_r.
  - apply N.log2_lt_cancel, (N.le_lt_trans _ _ _ (N.log2_lxor _ _)). apply N.max_lub_lt.
    + eapply N.le_lt_trans; [apply N.log2_le_mono, N.lt_le_incl, Hb|]. by vm_compute.
    + rewrite N.shiftl_mul_pow2. eapply N.le_lt_trans; [apply (N.log2_le_mono _ (2 ^ 128 - 1))|by vm_compute].
      change (2 ^ 128 - 1) with ((2 ^ 32 - 1) * 2 ^ 96 + (2 ^ 96 - 1)). nia.
Qed.

(** Canaries made at different counts of the process-wide counter differ, whatever the labels,
    addresses, processes and clocks, as long as those stay below the counter's bits. *)
Lemma canary_unique label1 label2 addr1 addr2 pid1 pid2 nanos1 nanos2 seq1 seq2 :
  N.lxor addr1 (N.shiftl pid1 64) + nanos1 < 2 ^ 96 → N.lxor addr2 (N.shiftl pid2 64) + nanos2 < 2 ^ 96 →
  seq1 mod 2 ^ 32 ≠ seq2 mod 2 ^ 32 → canary_new label1 addr1 pid1 nanos1 seq1 ≠ canary_new label2 addr2 pid2 nanos2 seq2.
Proof.
  intros [E1 B1]%(canary_raw_high _ _ _ seq1) [E2 B2]%(canary_raw_high _ _ _ seq2) Hne E. apply Hne. rewrite <-E1, <-E2. f_equal.
  apply (hex_digits_inj 32); [exact B1|exact B2|].
  apply (f_equal ca_value) in E. unfold canary_new in E. cbn [ca_value] in E. rewrite !app_assoc in E.
  apply app_inj_2 in E as [_ E]; [done|by rewrite !length_hex_digits].
Qed.
Lemma canary_fits addr pid nanos : addr < 2 ^ 64 → pid < 2 ^ 31 → nanos < 2 ^ 94 → N.lxor addr (N.shiftl pid 64) + nanos < 2 ^ 96.
Proof.
  intros Ha Hp Hn. assert (N.lxor addr (N.shiftl pid 64) < 2 ^ 95); [|change (2 ^ 96) with (2 ^ 95 + 2 ^ 95);
    assert (2 ^ 94 < 2 ^ 95) by (vm_compute; done); lia].
  apply N.log2_lt_cancel, (N.le_lt_trans _ _ _ (N.log2_lxor _ _)). apply N.max_lub_lt.
  - eapply N.le_lt_trans; [apply N.log2_le_mono, N.lt_le_incl, Ha|]. by vm_compute.
  - rewrite N.shiftl_mul_pow2. eapply N.le_lt_trans; [apply (N.log2_le_mono _ (2 ^ 95 - 1))|by vm_compute].
    change (2 ^ 95 - 1) with ((2 ^ 31 - 1) * 2 ^ 64 + (2 ^ 64 - 1)). nia.
Qed.
(** After [2^32] canaries the counter's bits are gone. *)
Example canary_repeats : canary_new "x" 0 0 0 0 = canary_new "x" 0 0 0 (2 ^ 32).
Proof. vm_refl. Qed.
