(* ===== verification/Provenance.v ===== *)
(** The verification tool's offline checks: [crates/secgit-verify/src/main.rs] (its
    checks of checkpoints and provenance) and [probe.rs] (the capability probe).

    Files are read through [read_file] and [is_file]; what is printed is left out, except in
    the probe, whose output is its result.  An error is its outermost text. *)

From S2P Require Import Prelude Text Backend Toy Envelope Primitives Sig Fs AuditLog Attest Json.

(** How a command ends when it returns no error: normally, or with an exit code. *)
Inductive Ended := Finished | ExitWith (code : N).

(** [a.eq_ignore_ascii_case(b)]. *)
Definition eq_ignore_ascii_case (a b : string) : bool := bool_decide (to_ascii_lowercase a = to_ascii_lowercase b).

(** [serde_json::to_vec_pretty]: another text of the same value. *)
Class SerdePretty (A : Type) `{SE : Serde A} := {
  to_vec_pretty : A → bytes;
  from_slice_pretty : ∀ a, from_slice (to_vec_pretty a) = Some a;
}.

(** A file of the working directory, by its name, and what a run leaves there. *)
Definition file (name : string) : path := [name].
Definition left_file `{RND : SystemRandom} (w : World) (p : string) : bool := bool_decide (is_Some (w_files w !! file p)).
Definition left_bytes `{RND : SystemRandom} (w : World) (p : string) : result string bytes :=
  match w_files w !! file p with Some b => Ok b | None => Err "No such file or directory" end.

(** ** The probe *)

Module Probe.
Definition TSM_REPORT_DIR : string := "/sys/kernel/config/tsm/report".
Definition SEV_GUEST_DEV : string := "/dev/sev-guest".

Record Findings := mkFindings { configfs_tsm : bool; sev_guest_dev : bool; raw_report_ok : bool; vtpm_present : bool }.
Inductive Verdict := Pass | FailVtpmOnly | FailNone | NotApplicable.
Global Instance Verdict_eq_dec : EqDecision Verdict.
Proof. solve_decision. Defined.

Definition decide (f : Findings) : Verdict :=
  if raw_report_ok f then Pass else if vtpm_present f then FailVtpmOnly else FailNone.

Definition is_pass (v : Verdict) : bool := match v with Pass => true | _ => false end.
Definition is_ok_exit (v : Verdict) : bool := is_pass v || match v with NotApplicable => true | _ => false end.
Definition label (v : Verdict) : string := match v with Pass => "PASS" | FailVtpmOnly | FailNone => "FAIL" | NotApplicable => "N/A" end.
Definition detail (v : Verdict) : string :=
  match v with
  | Pass => "raw SEV-SNP guest report available (provider-neutral root usable)"
  | FailVtpmOnly => "only a cloud vTPM attestation path is present — UNUSABLE: routing trust through a hypervisor/cloud vTPM violates provider-neutrality. Need a raw guest report via configfs-tsm or /dev/sev-guest."
  | FailNone => "no SEV-SNP guest attestation path found (need an AMD SEV-SNP guest, kernel 6.7+ with configfs-tsm, or /dev/sev-guest)."
  | NotApplicable => "real SEV-SNP attestation is unavailable on this platform — it requires an AMD x86 SEV-SNP CVM (Linux, kernel 6.7+ with configfs-tsm). Use `secgit-verify acceptance-snp --mock` locally and run the live path on a Linux AMD CVM."
  end.

(** [exists] are the files of the host; [available] and [attester] its report interface. *)
Definition try_fetch_raw_report `{DIG : Digests} (available : bool) (attester : Attester) : bool :=
  if negb available then false
  else match get_evidence attester (bind (as_bytes "secgit-probe-snp") (as_bytes "capability-probe")) with
       | Ok ev => is_ok (parse_report (ev_report ev))
       | Err _ => false
       end.
Definition gather `{DIG : Digests} (path_exists : string → bool) (available : bool) (attester : Attester) : Findings :=
  mkFindings (path_exists TSM_REPORT_DIR) (path_exists SEV_GUEST_DEV) (try_fetch_raw_report available attester)
    (path_exists "/dev/tpmrm0" || path_exists "/dev/tpm0").

Definition run `{DIG : Digests} (platform_supported : bool) (path_exists : string → bool) (available : bool) (attester : Attester) : Verdict :=
  if negb platform_supported then NotApplicable else decide (gather path_exists available attester).

Lemma fetch_exact `{DIG : Digests} available attester : try_fetch_raw_report available attester = true ↔
  available = true ∧ ∃ ev, get_evidence attester (bind (as_bytes "secgit-probe-snp") (as_bytes "capability-probe")) = Ok ev ∧
    (REPORT_MIN_LEN ≤ length (ev_report ev))%nat.
Proof.
  unfold try_fetch_raw_report. destruct available; [|by split; [|intros []]]. change (negb true) with false. cbv iota.
  destruct (get_evidence attester _) as [ev|]; [|by split; [|intros (_ & ev & E & _)]].
  unfold parse_report. destruct (Nat.ltb_spec (length (ev_report ev)) REPORT_MIN_LEN) as [Hl|Hl].
  - change (is_ok (Err _)) with false. split; [done|]. intros (_ & ev' & [= <-] & Hge). exfalso. lia.
  - change (is_ok (Ok _)) with true. split; [eauto|done].
Qed.

(** The exit is a failure unless a report of full length was read, or the platform is another one. *)
Lemma probe_exact `{DIG : Digests} supported path_exists available attester :
  is_ok_exit (run supported path_exists available attester) = true ↔
  supported = false ∨ available = true ∧ ∃ ev, get_evidence attester (bind (as_bytes "secgit-probe-snp") (as_bytes "capability-probe")) = Ok ev ∧
    (REPORT_MIN_LEN ≤ length (ev_report ev))%nat.
Proof.
  rewrite <-fetch_exact. unfold run, decide, gather. cbn [raw_report_ok vtpm_present]. destruct supported; cbn [negb].
  - destruct (try_fetch_raw_report available attester); [split; auto|]. case_match; split; try done; by intros [].
  - split; auto.
Qed.
End Probe.

(** ** Provenance statements *)

(** A [BTreeMap] of digests in its order. *)
Record Subject := mkSubject { su_name : string; su_digest : list (string * string) }.
Record ProvenancePredicate := mkPredicate {
  pp_build_type : string; pp_builder_id : string; pp_snp_measurement_hex : string;
  pp_vmm_launch_method : string; pp_git_commit : string; pp_source_date_epoch : string;
}.
Record ProvenanceStatement := mkStatement {
  ps_type : string; ps_predicate_type : string; ps_subject : list Subject; ps_predicate : ProvenancePredicate;
}.

Definition DEFAULT_PROVENANCE_VK : string := "deploy/provenance.vk.json".

(** [dir.join(name)]. *)
Definition path_join (dir name : string) : string := if starts_with [x2f] (as_bytes name) then name else dir +:+ "/" +:+ name.
Definition search_dirs : list string := ["."; "deploy/guest/out"].

Definition step (ok : bool) (msg : string) : result string unit := if ok then Ok () else Err ("step failed: " +:+ msg).

Section checks.
Context `{RND : SystemRandom} `{DIG : Digests} `{HX : Hex} `{ED : Ed25519} `{ML : MlDsa}.
Context `{SVK : Serde Sig.VerifyingKey} `{SCP : Serde Checkpoint} `{SPS : Serde ProvenanceStatement}.
Context (is_file : string → bool) (read_file : string → result string bytes).

Definition verify_checkpoint (cp_path vk_path : string) : result string Ended :=
  b ← read_file cp_path;
  cp ← ok_or "parsing checkpoint.json" (from_slice b : option Checkpoint);
  b ← read_file vk_path;
  vk ← ok_or "parsing verifying_key.json" (from_slice b : option Sig.VerifyingKey);
  Ok (if is_ok (checkpoint_verify cp vk) then Finished else ExitWith 1).

Definition local_path (name : string) : option string := head (filter (λ p, is_file p = true) ((λ d, path_join d name) <$> search_dirs)).

Definition digest_of (alg : string) (content : bytes) : option string :=
  if bool_decide (alg = "sha384") then Some (hex_encode (sha384 content))
  else if bool_decide (alg = "sha256") then Some (hex_encode (sha256 content))
  else None.

(** The digests of one local file; unknown algorithms are skipped. *)
Fixpoint check_digests (name path : string) (content : bytes) (ds : list (string * string)) (checked : N) : result string N :=
  match ds with
  | [] => Ok checked
  | (alg, want) :: ds =>
      match digest_of alg content with
      | None => check_digests name path content ds checked
      | Some got =>
          _ ← step (eq_ignore_ascii_case got want) (name +:+ " " +:+ alg +:+ " matches local bytes (" +:+ path +:+ ")");
          check_digests name path content ds (checked + 1)
      end
  end.
Fixpoint check_subjects (ss : list Subject) (checked : N) : result string N :=
  match ss with
  | [] => Ok checked
  | s :: ss =>
      match local_path (su_name s) with
      | None => check_subjects ss checked
      | Some p =>
          content ← map_err (λ _, "reading " +:+ p) (read_file p);
          checked ← check_digests (su_name s) p content (su_digest s) checked;
          check_subjects ss checked
      end
  end.

(** [read_to_string] wants UTF-8. *)
Definition read_text (p : string) : result string bytes :=
  b ← read_file p; if valid_utf8 b then Ok b else Err "stream did not contain valid UTF-8".

Definition verify_provenance (statement_path sig_path vk_path : string) : result string Ended :=
  b ← map_err (λ _, "reading " +:+ statement_path) (read_file statement_path);
  statement ← ok_or "parsing provenance.json" (from_slice b : option ProvenanceStatement);
  sig_hex ← map_err (λ _, "reading " +:+ sig_path) (read_text sig_path);
  sig ← ok_or "provenance signature is not valid hex" (hex_decode (string_of_list_byte (trim sig_hex)));
  if negb (is_file vk_path)
  then Err ("verifying key " +:+ vk_path +:+ " not found. Pass an explicit vk path, or run from a checkout that has the published " +:+
            DEFAULT_PROVENANCE_VK +:+ ".")
  else
    b ← read_file vk_path;
    vk ← ok_or "parsing verifying_key.json" (from_slice b : option Sig.VerifyingKey);
    let canonical := to_vec statement in
    match Sig.verify vk canonical sig with
    | Err _ => Ok (ExitWith 1)
    | Ok _ =>
        _ ← step true ("provenance hybrid PQC signature valid (measurement=" +:+ pp_snp_measurement_hex (ps_predicate statement) +:+
                       ", commit=" +:+ pp_git_commit (ps_predicate statement) +:+ ")");
        _ ← check_subjects (ps_subject statement) 0;
        Ok Finished
    end.

(** ** Theory *)

(** A subject is consistent with the local files: the file found under its name can be read
    and has every digest the statement gives of it in a known algorithm. *)
Definition subject_ok (s : Subject) : Prop := ∀ p, local_path (su_name s) = Some p → ∃ content, read_file p = Ok content ∧
  ∀ alg want got, (alg, want) ∈ su_digest s → digest_of alg content = Some got → eq_ignore_ascii_case got want = true.

Lemma check_digests_exact name path content ds checked : is_Some (to_option (check_digests name path content ds checked)) ↔
  ∀ alg want got, (alg, want) ∈ ds → digest_of alg content = Some got → eq_ignore_ascii_case got want = true.
Proof.
  revert checked. induction ds as [|[alg want] ds IH]; intros checked; cbn [check_digests].
  - split; [intros _ alg want got Hin; by apply not_elem_of_nil in Hin|eauto].
  - destruct (digest_of alg content) as [got|] eqn:E.
    + unfold step. destruct (eq_ignore_ascii_case got want) eqn:Ew; cbn [mbind result_mbind].
      * rewrite IH. split; intros H alg' want' got' Hin; [|by apply H; right].
        apply elem_of_cons in Hin as [[= -> ->]|Hin]; [|by apply H]. rewrite E. by intros [= <-].
      * split; [by intros []|]. intros H. specialize (H alg want got ltac:(by left) E). congruence.
    + rewrite IH. split; intros H alg' want' got' Hin; [|by apply H; right].
      apply elem_of_cons in Hin as [[= -> ->]|Hin]; [by rewrite E|by apply H].
Qed.

Lemma check_subjects_exact ss checked : is_Some (to_option (check_subjects ss checked)) ↔ Forall subject_ok ss.
Proof.
  revert checked. induction ss as [|s ss IH]; intros checked; cbn [check_subjects]; [split; eauto|].
  rewrite Forall_cons. unfold subject_ok at 1. destruct (local_path (su_name s)) as [p|].
  - destruct (read_file p) as [content|] eqn:Er; cbn [map_err mbind result_mbind].
    + pose proof (check_digests_exact (su_name s) p content (su_digest s) checked) as K.
      destruct (check_digests _ _ _ _ _) as [n|]; cbn [mbind result_mbind to_option] in *.
      * rewrite IH. split; [|tauto]. intros H. split; [|done]. intros p' [= <-]. exists content. split; [done|]. apply K. eauto.
      * split; [by intros []|]. intros [H _]. destruct (H p eq_refl) as (c & Hc & Hd). rewrite Er in Hc. injection Hc as <-.
        apply K in Hd. by destruct Hd.
    + split; [by intros []|]. intros [H _]. destruct (H p eq_refl) as (c & Hc & _). congruence.
  - rewrite IH. split; [|tauto]. by split.
Qed.

(** What acceptance of a provenance statement means, exactly. *)
Lemma verify_provenance_iff sp gp vp : verify_provenance sp gp vp = Ok Finished ↔
  ∃ statement sig vk gb,
    (read_file sp ≫= λ b, ok_or EmptyString (from_slice b)) = Ok statement ∧
    read_file gp = Ok gb ∧ valid_utf8 gb = true ∧ hex_decode (string_of_list_byte (trim gb)) = Some sig ∧
    is_file vp = true ∧ (read_file vp ≫= λ b, ok_or EmptyString (from_slice b)) = Ok vk ∧
    Sig.verify vk (to_vec statement) sig = Ok () ∧ Forall subject_ok (ps_subject statement).
Proof.
  unfold verify_provenance, read_text, step. split.
  - destruct (read_file sp) as [sb|]; [|done]. cbn [map_err mbind result_mbind]. destruct (from_slice sb) as [st|] eqn:Es; [|done].
    cbn [ok_or mbind result_mbind]. destruct (read_file gp) as [gb|]; [|done]. cbn [mbind result_mbind].
    destruct (valid_utf8 gb) eqn:Eu; [|done]. cbn [map_err mbind result_mbind]. destruct (hex_decode _) as [sig|] eqn:Eh; [|done].
    cbn [ok_or mbind result_mbind]. destruct (is_file vp); [|done]. cbn [negb]. destruct (read_file vp) as [vb|]; [|done].
    cbn [mbind result_mbind]. destruct (from_slice vb) as [vk|] eqn:Ev; [|done]. cbn [ok_or mbind result_mbind].
    destruct (Sig.verify vk (to_vec st) sig) as [[]|] eqn:Ey; [|done]. cbn [mbind result_mbind].
    pose proof (check_subjects_exact (ps_subject st) 0) as K. destruct (check_subjects _ _) as [n|]; [|done]. intros _.
    exists st, sig, vk, gb. cbn [mbind result_mbind]. split_and!; try done. apply K. cbn. eauto.
  - intros (st & sig & vk & gb & Hs & Hg & Hu & Hh & Hf & Hv & Hy & Hss).
    destruct (read_file sp) as [sb|]; [|done]. cbn [map_err mbind result_mbind] in *. destruct (from_slice sb) as [st'|]; [|done].
    injection Hs as ->. cbn [ok_or mbind result_mbind]. rewrite Hg. cbn [mbind result_mbind]. rewrite Hu. cbn [map_err mbind result_mbind].
    rewrite Hh. cbn [ok_or mbind result_mbind]. rewrite Hf. cbn [negb]. destruct (read_file vp) as [vb|]; [|done].
    cbn [mbind result_mbind] in *. destruct (from_slice vb) as [vk'|]; [|done]. injection Hv as ->. cbn [ok_or mbind result_mbind].
    rewrite Hy. cbn [mbind result_mbind]. apply (check_subjects_exact _ 0) in Hss as [n Hn]. by destruct (check_subjects _ _).
Qed.

(** A checkpoint is accepted exactly when its signature holds under the pinned key. *)
Lemma verify_checkpoint_iff cpp vp : verify_checkpoint cpp vp = Ok Finished ↔
  ∃ cp vk, (read_file cpp ≫= λ b, ok_or EmptyString (from_slice b)) = Ok cp ∧ (read_file vp ≫= λ b, ok_or EmptyString (from_slice b)) = Ok vk ∧
    checkpoint_verify cp vk = Ok ().
Proof.
  unfold verify_checkpoint. split.
  - destruct (read_file cpp) as [b|]; [|done]. cbn [mbind result_mbind]. destruct (from_slice b) as [cp|] eqn:E1; [|done].
    cbn [ok_or mbind result_mbind]. destruct (read_file vp) as [b'|]; [|done]. cbn [mbind result_mbind].
    destruct (from_slice b') as [vk|] eqn:E2; [|done]. cbn [ok_or mbind result_mbind].
    destruct (checkpoint_verify cp vk) as [[]|] eqn:E3; [|done]. intros _. by exists cp, vk.
  - intros (cp & vk & Hc & Hv & Hy). destruct (read_file cpp) as [b|]; [|done]. cbn [mbind result_mbind] in *.
    destruct (from_slice b); [|done]. injection Hc as ->. cbn [ok_or mbind result_mbind]. destruct (read_file vp) as [b'|]; [|done].
    cbn [mbind result_mbind] in *. destruct (from_slice b'); [|done]. injection Hv as ->. cbn. by rewrite Hy.
Qed.
End checks.
