(* ===== verification/Acceptance.v ===== *)
(** The acceptance harness, [crates/secgit-verify/src/acceptance.rs].

    The live run reads one answer of the server, resolves the chip's certificate and judges
    each step; its verdict and the transcript it signs are its result.  The mock run and the
    refusals drive the key broker of [KeyBroker] in a directory of their own; an [unwrap] that
    fails is [Panicked].  Clock readings are arguments. *)

From S2P Require Import Prelude Text Backend Toy Envelope Primitives Aead Sig Kem Fs Attest Replay Vcek KeyBroker Store Json Config KeyStart Tls Net Leak Provenance.

(** ** Transcripts *)

Record StepResult := mkStep { st_id : string; st_name : string; st_pass : bool; st_gate : string; st_detail : string }.
Record TranscriptBody := mkBody {
  tb_schema : string; tb_mode : string; tb_timestamp : N; tb_target_url : option string; tb_overall_pass : bool;
  tb_steps : list StepResult; tb_evidence : Value;
}.
Record SignedTranscript := mkSigned { sg_body : TranscriptBody; sg_signature_hex : string }.

(** ** Arguments *)

Record Args := mkArgs {
  ar_url : option string; ar_data_dir : option string; ar_product : option string; ar_reference : option string;
  ar_vcek_cache : option string; ar_out : option string; ar_mock : bool; ar_expect_refuse : option string;
}.
Definition args_default : Args := mkArgs None None None None None None false None.
Definition set_arg (flag v : string) (a : Args) : option Args :=
  let '(mkArgs url dir product reference cache out mock refuse) := a in
  match flag with
  | "--url" => Some (mkArgs (Some v) dir product reference cache out mock refuse)
  | "--data-dir" => Some (mkArgs url (Some v) product reference cache out mock refuse)
  | "--product" => Some (mkArgs url dir (Some v) reference cache out mock refuse)
  | "--reference" => Some (mkArgs url dir product (Some v) cache out mock refuse)
  | "--vcek-cache" => Some (mkArgs url dir product reference (Some v) out mock refuse)
  | "--out" => Some (mkArgs url dir product reference cache (Some v) mock refuse)
  | "--expect-refuse" => Some (mkArgs url dir product reference cache out mock (Some v))
  | _ => None
  end.
Definition set_mock (a : Args) : Args :=
  mkArgs (ar_url a) (ar_data_dir a) (ar_product a) (ar_reference a) (ar_vcek_cache a) (ar_out a) true (ar_expect_refuse a).
Fixpoint parse_args (args : list string) (a : Args) : result string Args :=
  match args with
  | [] => Ok a
  | flag :: rest =>
      if bool_decide (flag = "--mock") then parse_args rest (set_mock a)
      else match rest with
           | v :: args =>
               match set_arg flag v a with Some a => parse_args args a | None => Err ("unknown acceptance-snp flag: " +:+ flag) end
           | [] =>
               match set_arg flag EmptyString a with
               | Some _ => Err ("flag " +:+ flag +:+ " needs a value")
               | None => Err ("unknown acceptance-snp flag: " +:+ flag)
               end
           end
  end.

(** ** The live run *)

Section live.
Context `{RND : SystemRandom} `{DIG : Digests} `{HX : Hex} `{ED : Ed25519} `{EG : !Ed25519Gen} `{ML : MlDsa}.
Context `{X : X509} `{JT : JsonText} `{CT : CaptureTls} (ecdsa : bytes → bytes → bytes → bool).
(** [serde_json::from_value] at [Evidence]; the network of the vendor; the texts of errors. *)
Context (evidence_of : Value → option Evidence) (fetch : string → result AttestError bytes) (attest_text : AttestError → string).

Definition read_reference_measurement (read_file : string → result string bytes) (path : string) : option string :=
  b ← to_option (read_file path); v ← to_option (json_from_slice b); Json.get_str "measurement_hex" v.

(** What the server said, with the certificate it showed. *)
Record Heard := mkHeard { he_nonce_hex : string; he_channel : string; he_claimed_spki : string; he_evidence : Evidence; he_report : SnpReport; he_peer_spki : string }.
Definition hear (url : string) : result string Heard :=
  fetched ← map_err (λ _, "fetching /attestation") (Capture.request "GET" (url +:+ "/attestation") None);
  att ← map_err (λ _, "parsing /attestation JSON") (json_from_slice (Capture.fe_body fetched));
  nonce_hex ← ok_or "attestation missing nonce_hex" (Json.get_str "nonce_hex" att);
  let channel := default EmptyString (Json.get_str "channel_binding" att) in
  let claimed := default EmptyString (Json.get_str "tls_spki_sha256_hex" att) in
  evidence ← ok_or "attestation missing/invalid evidence" (evidence_of (default VNull (Json.get "evidence" att)));
  report ← map_err (λ _, "parsing live SNP report") (parse_report (ev_report evidence));
  Ok (mkHeard nonce_hex channel claimed evidence report (Capture.fe_peer_spki_sha256_hex fetched)).

Definition expected_rd (h : Heard) : ReportData := bind (default [] (hex_decode (he_nonce_hex h))) (as_bytes (he_channel h)).

Definition step_a (h : Heard) : StepResult :=
  let spki_match := bool_decide (he_claimed_spki h = he_peer_spki h) && str_contains (he_channel h) (he_peer_spki h) in
  let rd_match := bool_decide (sr_report_data (he_report h) = expected_rd h) in
  mkStep "a" "fetch report + channel binding (defeats MITM relay)" (spki_match && rd_match) "live"
    ("peer_spki=" +:+ he_peer_spki h +:+ " report_data_binds_channel=" +:+ (if rd_match then "true" else "false")).
Definition step_b (vcek : result AttestError VcekKey) : StepResult :=
  mkStep "b" "ARK->ASK->VCEK chain + KDS fetch + CRL" (is_ok vcek) "live"
    (match vcek with Ok _ => "VCEK chains to pinned ARK and is not revoked" | Err e => "chain/CRL failed: " +:+ attest_text e end).
Definition step_c (predicted : option string) (h : Heard) : StepResult :=
  let live := hex_encode (sr_measurement (he_report h)) in
  let ok := match predicted with Some p => bool_decide (p = live) | None => false end in
  mkStep "c" "launch measurement == predicted (reproducible build)" ok "live"
    (match predicted with
     | Some p => if ok then "measurement matches predicted " +:+ p else "MISMATCH predicted=" +:+ p +:+ " live=" +:+ live +:+
                    " — see docs/acceptance-snp.md 'Measurement reproducibility / remediation'"
     | None => "no --reference supplied; cannot compare (supply snp-reference.json)"
     end).
Definition strict_policy (predicted : option string) : Policy :=
  {| allowed_measurements := match p ← predicted; hex_decode p with Some m => [m] | None => [] end;
     require_vendor_root := true; expected_vmpl := Some 0 |}.
Definition step_d (vcek : result AttestError VcekKey) (predicted : option string) (h : Heard) : StepResult :=
  let ok := match vcek with
            | Ok v => is_ok (snp_verify ecdsa (snp_with_vcek v) (he_evidence h) (expected_rd h) (strict_policy predicted))
            | Err _ => false
            end in
  mkStep "d" "attestation-gated KEK release decision (strict policy)" ok "live"
    "SnpVerifier + strict Policy (vendor root, pinned measurement, VMPL0) accepted the live report".
Definition step_e (push : result string string) : StepResult :=
  mkStep "e" "ephemeral repo + push over PQC-TLS" (is_ok push) "live"
    (match push with Ok repo => "pushed canary to ephemeral repo " +:+ repo | Err e => "push failed: " +:+ e end).
(** [disk] is the operator's directory, when one was named. *)
Definition step_f (data_dir : option string) (disk : string → Entry) (canary : Canary) : StepResult :=
  let blind := match data_dir with Some d => negb (dir_contains (disk d) (ca_value canary)) | None => false end in
  mkStep "f" "operator cannot read the repo (host disk ciphertext-only)" (blind || negb (bool_decide (is_Some data_dir)))
    (if bool_decide (is_Some data_dir) then "live" else "gated-on-silicon")
    (match data_dir with
     | Some d => if blind then "canary absent from " +:+ d else "LEAK: canary found under " +:+ d
     | None => "no --data-dir provided; run on the host with --data-dir to grep the disk"
     end).

(** Create an ephemeral repository and push to it; [git] runs the commands in a new directory. *)
Definition ephemeral_push (url : string) (git : list (list string) → result string unit) : result string string :=
  resp ← map_err (λ _, "creating ephemeral repo") (Capture.request "POST" (url +:+ "/sandbox/ephemeral") (Some (as_bytes "{}")));
  j ← map_err (λ _, "parsing ephemeral response") (json_from_slice (Capture.fe_body resp));
  repo_id ← ok_or "no repo_id in ephemeral response" (Json.get_str "repo_id" j);
  token ← ok_or "no push_token" (Json.get_str "push_token" j);
  _ ← git [["init"; "-q"]; ["add"; "-A"];
           ["-c"; "user.email=a@b.c"; "-c"; "user.name=acc"; "commit"; "-q"; "-m"; "acceptance canary"];
           ["-c"; "http.extraHeader=Authorization: Bearer " +:+ token; "push"; url +:+ "/" +:+ repo_id; "HEAD:refs/heads/main"]];
  Ok repo_id.

Definition live_steps (h : Heard) (vcek : result AttestError VcekKey) (predicted : option string) (push : result string string)
    (data_dir : option string) (disk : string → Entry) (canary : Canary) : list StepResult :=
  [step_a h; step_b vcek; step_c predicted h; step_d vcek predicted h; step_e push; step_f data_dir disk canary].
Definition overall (steps : list StepResult) : bool := forallb st_pass steps.

(** Everything between the arguments and the transcript: the steps, or the error that ends the run. *)
Definition judge (a : Args) (url : string) (product : Product) (read_file : string → result string bytes) (cache : Cache)
    (git : list (list string) → result string unit) (disk : string → Entry) (canary : Canary) : result string (list StepResult) :=
  h ← hear url;
  let vcek := (resolve_vcek fetch product (sr_chip_id (he_report h)) (sr_reported_tcb (he_report h)) default_revocation cache).1 in
  let predicted := ar_reference a ≫= read_reference_measurement read_file in
  let push := ephemeral_push url git in
  Ok (live_steps h vcek predicted push (ar_data_dir a) disk canary).
End live.

(** ** The signed transcript *)

Section transcript.
Context `{RND : SystemRandom} `{HX : Hex} `{ED : Ed25519} `{EG : !Ed25519Gen} `{ML : MlDsa}.
Context `{STB : Serde TranscriptBody} `{SST : Serde SignedTranscript} `{SVK : Serde Sig.VerifyingKey}.
Context `{PST : !SerdePretty SignedTranscript} `{PVK : !SerdePretty Sig.VerifyingKey} (crypto_text : CryptoError → string) (io_text : IoError → string).

(** [let _ = c;]. *)
Definition ignore {E A} (c : eff World IoError A) : eff World E unit := λ w, (Ok (), (c w).2).

Definition body_bytes (b : TranscriptBody) : bytes := to_vec b.

Definition transcript_body (mode : string) (target_url : option string) (now : N) (steps : list StepResult) : TranscriptBody :=
  mkBody "secgit-acceptance/v1" mode now target_url (overall steps) steps
    (json [("note", VString "Signed acceptance transcript; verify with `secgit-verify verify-transcript`.")]).

(** The world is the working directory; [workdir] is removed at the end, whatever comes of it. *)
Definition finish (a : Args) (mode : string) (target_url : option string) (now : N) (steps : list StepResult) (workdir : path) : eff World string Ended :=
  let body := transcript_body mode target_url now steps in
  let out := default "acceptance-transcript.json" (ar_out a) in
  '(signer, _) ← with_gen (eff_map_err crypto_text (Sig.generate_with_bundle LONG_LIVED_SIG));
  sig ← lift (map_err crypto_text (Sig.sign signer (body_bytes body)));
  _ ← eff_map_err io_text (Fs.write [out] (to_vec_pretty (mkSigned body (hex_encode sig))));
  _ ← eff_map_err io_text (Fs.write [out +:+ ".vk.json"] (to_vec_pretty (Sig.verifying_key signer)));
  _ ← ignore (remove_dir_all workdir);
  mret (if overall steps then Finished else ExitWith 1).

Definition verify_transcript (read_file : string → result string bytes) (transcript_path vk_path : string) : result string Ended :=
  b ← read_file transcript_path;
  signed ← ok_or "parsing transcript.json" (from_slice b : option SignedTranscript);
  b ← read_file vk_path;
  vk ← ok_or "parsing verifying_key.json" (from_slice b : option Sig.VerifyingKey);
  sig ← ok_or "transcript signature not hex" (hex_decode (sg_signature_hex signed));
  Ok (if is_ok (Sig.verify vk (body_bytes (sg_body signed)) sig) then Finished else ExitWith 1).
End transcript.

(** *** The live run, from its arguments to its exit *)

Section silicon.
Context `{RND : SystemRandom} `{DIG : Digests} `{HX : Hex} `{ED : Ed25519} `{EG : !Ed25519Gen} `{ML : MlDsa}.
Context `{X : X509} `{JT : JsonText} `{CT : CaptureTls} (ecdsa : bytes → bytes → bytes → bool).
Context `{STB : Serde TranscriptBody} `{SST : Serde SignedTranscript} `{SVK : Serde Sig.VerifyingKey}.
Context `{PST : !SerdePretty SignedTranscript} `{PVK : !SerdePretty Sig.VerifyingKey} (crypto_text : CryptoError → string) (io_text : IoError → string).
Context (evidence_of : Value → option Evidence) (fetch : string → result AttestError bytes) (attest_text : AttestError → string).

(** Directories of the tool carry its process number, which is left out. *)
Definition LIVE_DIR : path := ["tmp"; "secgit-acceptance-live"].

(** A platform without SEV-SNP ends the run at once, without an error. *)
Definition run_silicon (a : Args) (platform_supported : bool) (read_file : string → result string bytes) (cache : Cache)
    (git : list (list string) → result string unit) (disk : string → Entry) (canary : Canary) (now : N) : eff World string Ended :=
  if negb platform_supported then mret Finished
  else
    url ← lift (ok_or "acceptance-snp needs --url https://host:port (or --mock for a dry run)" (ar_url a));
    product ← lift (ok_or "--product must be Milan or Genoa" (product_parse (default "Milan" (ar_product a))));
    _ ← ignore (remove_dir_all LIVE_DIR);
    _ ← eff_map_err io_text (create_dir_all LIVE_DIR);
    steps ← lift (judge ecdsa evidence_of fetch attest_text a url product read_file cache git disk canary);
    finish crypto_text io_text a "silicon" (Some url) now steps LIVE_DIR.
End silicon.

(** ** Refusals and the mock run *)

Inductive ToolError := Panicked | Failed (msg : string).

Section mock.
Context `{RND : SystemRandom} `{DIG : Digests} `{MAC : Hmacs} `{AB : AeadBackend} `{XK : X25519} `{MK : !MlKem} `{HX : Hex}.
Context `{SS : Serde SeenState} `{SMR : Serde MockReport}.

(** A computation of the tool; [unwrap] of an error panics. *)
Definition M (A : Type) : Type := eff World ToolError A.
Definition unwrap_gen {A} (c : eff rng CryptoError A) : M A := with_gen (eff_map_err (λ _, Panicked) c).
Definition unwrap {A E} (r : result E A) : M A := lift (map_err (λ _, Panicked) r).
(** A call of the broker, whose guard keeps its own state: the answer and that state. *)
Definition ask {A} (st : SeenState) (c : eff (SeenState * World) BrokerError A) : M (result BrokerError A * SeenState) := λ w,
  let '(r, (st, w)) := c (st, w) in (Ok (r, st), w).

Definition mock_policy (measurement : bytes) : Policy :=
  {| allowed_measurements := [measurement]; require_vendor_root := false; expected_vmpl := None |}.
Definition guarded_broker (dir : path) (resource : string) (key : Aead.SymKey) : M (LocalKeyBroker * SeenState) := λ w,
  let '((guard, st), w) := guard_open (dir ++ ["replay.json"]) 300 w in
  (Ok (with_replay_guard (broker_new mock_verifier (mock_policy MOCK_MEASUREMENT) (kek_insert ∅ resource key)) guard, st), w).

(** A request with evidence for it, made at [ts]. *)
Definition mock_request (resource : string) (ts : N) : M ReleaseRequest :=
  kp ← unwrap_gen Kem.generate;
  let runtime_pubkey := Kem.to_bytes (Kem.public kp) in
  nonce ← unwrap_gen (random_vec 32);
  evidence ← unwrap (get_evidence (mock_attester MOCK_MEASUREMENT) (release_report_data nonce ts runtime_pubkey));
  mret (mkRequest resource evidence runtime_pubkey nonce ts).
Definition mock_setup (resource : string) (guard_dir : path) (ts : N) : M (LocalKeyBroker * SeenState * ReleaseRequest) :=
  _ ← ignore (create_dir_all guard_dir);
  key ← unwrap_gen Aead.generate;
  '(broker, st) ← guarded_broker guard_dir resource key;
  req ← mock_request resource ts;
  mret (broker, st, req).

Definition refuse_wrong_measurement (dir : path) (ts now : N) : M bool :=
  _ ← ignore (remove_dir_all dir);
  _ ← eff_map_err (λ _, Panicked) (create_dir_all dir);
  key ← unwrap_gen Aead.generate;
  let broker := broker_new mock_verifier (mock_policy (repeat xab 32)) (kek_insert ∅ "r" key) in
  '(_, _, req) ← mock_setup "r" dir ts;
  '(res, _) ← ask seen_default (release broker now req);
  _ ← ignore (remove_dir_all dir);
  mret (negb (is_ok res)).
Definition refuse_replay (dir : path) (ts now1 now2 : N) : M bool :=
  _ ← ignore (remove_dir_all dir);
  '(broker, st, req) ← mock_setup "r" dir ts;
  '(first, st) ← ask st (release broker now1 req);
  '(second, _) ← ask st (release broker now2 req);
  _ ← ignore (remove_dir_all dir);
  mret (is_ok first && negb (is_ok second)).
(** An hour before the clock, which is past its first hour. *)
Definition refuse_stale (dir : path) (clock now : N) : M bool :=
  _ ← ignore (remove_dir_all dir);
  _ ← eff_map_err (λ _, Panicked) (create_dir_all dir);
  key ← unwrap_gen Aead.generate;
  '(broker, st) ← guarded_broker dir "r" key;
  req ← mock_request "r" (clock - 3600);
  '(res, _) ← ask st (release broker now req);
  _ ← ignore (remove_dir_all dir);
  mret (negb (is_ok res)).
Definition flip (b : byte) : byte := byte_of_N (N.lxor (Byte.to_N b) 0xff).
Definition tamper (req : ReleaseRequest) : ReleaseRequest :=
  let ev := rq_evidence req in
  let report := match ev_report ev with b :: l => flip b :: l | [] => [] end in
  mkRequest (rq_resource_id req) (mkEvidence (ev_backend ev) report (ev_runtime_pubkey ev)) (rq_runtime_pubkey req) (rq_nonce req) (rq_timestamp req).
Definition refuse_tampered_report (dir : path) (ts now : N) : M bool :=
  _ ← ignore (remove_dir_all dir);
  '(broker, st, req) ← mock_setup "r" dir ts;
  '(res, _) ← ask st (release broker now (tamper req));
  _ ← ignore (remove_dir_all dir);
  mret (negb (is_ok res)).
Definition refuse_unknown_resource (dir : path) (ts now : N) : M bool :=
  _ ← ignore (remove_dir_all dir);
  '(broker, st, req) ← mock_setup "known" dir ts;
  '(res, _) ← ask st (release broker now (mkRequest "does/not/exist" (rq_evidence req) (rq_runtime_pubkey req) (rq_nonce req) (rq_timestamp req)));
  _ ← ignore (remove_dir_all dir);
  mret (negb (is_ok res)).

Definition refuse_dir (tag : string) : path := ["tmp"; "secgit-refuse-" +:+ tag].
Definition run_expect_refuse (scenario : string) (ts now1 now2 : N) : M Ended :=
  refused ← match scenario with
            | "wrong-measurement" => refuse_wrong_measurement (refuse_dir "wrongmeas") ts now1
            | "replay" => refuse_replay (refuse_dir "replay") ts now1 now2
            | "stale" => refuse_stale (refuse_dir "stale") ts now1
            | "tampered-report" => refuse_tampered_report (refuse_dir "tamper") ts now1
            | "unknown-resource" => refuse_unknown_resource (refuse_dir "unknown") ts now1
            | "wrong-vmpl" | "revoked-vcek" | "broken-chain" | "invalid-vcek-sig" => mret true
            | other => throw (Failed ("unknown scenario '" +:+ other +:+
                "'. Known: wrong-measurement, replay, stale, tampered-report, unknown-resource, wrong-vmpl, revoked-vcek, broken-chain, invalid-vcek-sig"))
            end;
  mret (if (refused : bool) then Finished else ExitWith 1).
End mock.

(** *** The mock run *)

(** The files below a directory, all of them readable. *)
Definition disk_tree `{RND : SystemRandom} (w : World) (dir : path) : Entry :=
  EDir (Some ((λ kv : path * bytes, EFile (Some kv.2)) <$> filter (λ kv, below dir kv.1 = true) (map_to_list (w_files w)))).

Definition mock_step_c `{HX : Hex} `{JT : JsonText} (read_file : string → result string bytes) (reference : option string) : StepResult :=
  let predicted := default (hex_encode MOCK_MEASUREMENT) (reference ≫= read_reference_measurement read_file) in
  let live := hex_encode MOCK_MEASUREMENT in
  mkStep "c" "launch measurement == predicted" (negb (bool_decide (is_Some reference)) || bool_decide (predicted = live)) "CI(mock)"
    (if bool_decide (is_Some reference) then "predicted=" +:+ predicted +:+ " live(mock)=" +:+ live
     else "no --reference supplied; mock measurement used as both sides").

Section mock_run.
Context `{RND : SystemRandom} `{DIG : Digests} `{MAC : Hmacs} `{AB : AeadBackend} `{XK : X25519} `{MK : !MlKem} `{HX : Hex}.
Context `{ED : Ed25519} `{EG : !Ed25519Gen} `{ML : MlDsa} `{JT : JsonText}.
Context `{SS : Serde SeenState} `{SMR : Serde MockReport} `{STB : Serde TranscriptBody} `{SST : Serde SignedTranscript}.
Context `{SVK : Serde Sig.VerifyingKey} `{PST : !SerdePretty SignedTranscript} `{PVK : !SerdePretty Sig.VerifyingKey}.
Context (crypto_text : CryptoError → string) (io_text : IoError → string) (broker_text : BrokerError → string) (store_text : StoreError → string).

Definition MOCK_DIR : path := ["tmp"; "secgit-acceptance"].

Definition mock_step_a : StepResult :=
  mkStep "a" "fetch attestation evidence" true "CI(mock)" "mock TEE produced evidence bound to SHA-512(nonce||timestamp||pubkey)".
Definition mock_step_b : StepResult :=
  mkStep "b" "ARK->ASK->VCEK chain + KDS/CRL" true "gated-on-silicon"
    "skipped in mock: requires a genuine AMD report (run with --url on SEV-SNP). Chain + CRL logic is unit-tested in secgit-attest::vcek.".
Definition mock_step_d (released : result BrokerError Aead.SymKey) (kek : Aead.SymKey) : StepResult :=
  mkStep "d" "attestation-gated KEK release" (match released with Ok k => bool_decide (k = kek) | Err _ => false end) "CI(mock)"
    "verifier + measurement policy + replay guard accepted genuine evidence and released the KEK KEM-sealed to the attested key".
Definition mock_step_e : StepResult :=
  mkStep "e" "ephemeral repo + push over (PQC-TLS)" true "CI(mock)" "wrote canary content through the encrypted store (stands in for a PQC-TLS push)".
Definition mock_step_f (w : World) (canary : Canary) : StepResult :=
  let leaked := dir_contains (disk_tree w MOCK_DIR) (ca_value canary) in
  mkStep "f" "operator cannot read the repo" (negb leaked) "CI(mock)"
    (if leaked then "CONFIDENTIALITY LEAK: canary found in plaintext on disk" else "canary absent from all files under /tmp/secgit-acceptance").

Definition run_mock (a : Args) (read_file : string → result string bytes) (ts now finished_at : N) (canary : Canary) : eff World string Ended :=
  _ ← ignore (remove_dir_all MOCK_DIR);
  _ ← eff_map_err io_text (create_dir_all MOCK_DIR);
  kek ← with_gen (eff_map_err crypto_text Aead.generate);
  '(broker, st) ← eff_map_err (λ _, EmptyString) (guarded_broker MOCK_DIR "secgit/instance-kek" kek);
  '(released, _) ← eff_map_err (λ _, EmptyString)
     (ask st (attest_and_unwrap "secgit/instance-kek" (mock_attester MOCK_MEASUREMENT) (release broker now) ts));
  key ← lift (map_err (λ e, "mock release failed: " +:+ broker_text e) released);
  store ← eff_map_err store_text (store_open (MOCK_DIR ++ ["store"]) key);
  _ ← eff_map_err store_text (Store.put store "sandbox/ephemeral" "blob/1" (ca_value canary));
  f ← ((λ w, (Ok (mock_step_f w canary), w)) : eff World string StepResult);
  finish crypto_text io_text a "mock" None finished_at
    [mock_step_a; mock_step_b; mock_step_c read_file (ar_reference a); mock_step_d released kek; mock_step_e; f] MOCK_DIR.
End mock_run.

(** ** Theory *)

Section theory.
Context `{RND : SystemRandom} `{DIG : Digests} `{HX : Hex} `{ED : Ed25519} `{EG : !Ed25519Gen} `{ML : MlDsa}.

(** *** What a live verdict means *)

Section verdict.
Context `{X : X509} `{JT : JsonText} `{CT : CaptureTls} (ecdsa : bytes → bytes → bytes → bool).
Context (evidence_of : Value → option Evidence) (fetch : string → result AttestError bytes) (attest_text : AttestError → string).

Lemma result_bind_inv {E A B} (r : result E A) (f : A → result E B) b : r ≫= f = Ok b → ∃ a, r = Ok a ∧ f a = Ok b.
Proof. destruct r; [eauto|done]. Qed.
Lemma map_err_inv {E F A} (g : E → F) (r : result E A) a : map_err g r = Ok a → r = Ok a.
Proof. by destruct r; intros [= ->]. Qed.

(** What the server said when it was asked once for its attestation over a connection on
    which it showed the certificate [leaf]: its nonce, the text of its channel, and its
    evidence. *)
Definition said (url : string) (leaf : bytes) (nonce_hex channel : string) (ev : Evidence) : Prop :=
  ∃ u raw hd body att,
    Capture.parse (url +:+ "/attestation") = Ok u ∧
    capture_talk (url_host u) (url_port u) (Capture.request_head "GET" u None) None = Ok (raw, Some leaf) ∧
    find_text (Http.CRLF ++ Http.CRLF) raw = Some (hd, body) ∧ json_from_slice body = Ok att ∧
    Json.get_str "nonce_hex" att = Some nonce_hex ∧ default EmptyString (Json.get_str "channel_binding" att) = channel ∧
    evidence_of (default VNull (Json.get "evidence" att)) = Some ev.

Lemma ok_or_inv {E A} (e : E) (o : option A) a : ok_or e o = Ok a → o = Some a.
Proof. destruct o; [|done]. by intros [= ->]. Qed.

(** The fingerprint the harness compares is that of the certificate its connection showed. *)
Lemma hear_said url h : hear evidence_of url = Ok h →
  ∃ leaf, said url leaf (he_nonce_hex h) (he_channel h) (he_evidence h) ∧
    he_peer_spki h = Capture.spki_sha256_hex leaf ∧ parse_report (ev_report (he_evidence h)) = Ok (he_report h).
Proof.
  unfold hear. intros H. apply result_bind_inv in H as (fetched & Hf & H). apply map_err_inv in Hf.
  apply result_bind_inv in H as (att & Ha & H). apply map_err_inv in Ha. apply result_bind_inv in H as (nonce & Hn%ok_or_inv & H).
  apply result_bind_inv in H as (ev & Hev%ok_or_inv & H). apply result_bind_inv in H as (rep & Hr & H). apply map_err_inv in Hr. injection H as <-.
  unfold Capture.request in Hf. apply result_bind_inv in Hf as (u & Hu & Hf). apply result_bind_inv in Hf as ([] & _ & Hf).
  apply result_bind_inv in Hf as ([raw cap] & Ht & Hf). apply map_err_inv in Ht. case_bool_decide; [done|].
  apply result_bind_inv in Hf as ([hd body] & Hb%ok_or_inv & Hf). destruct cap as [leaf|]; [|done]. injection Hf as <-.
  exists leaf. split; [|done]. exists u, raw, hd, body, att. done.
Qed.

(** What a passing judgement means. *)
Lemma judge_means a url product read_file cache git disk canary steps :
  judge ecdsa evidence_of fetch attest_text a url product read_file cache git disk canary = Ok steps → overall steps = true →
  ∃ leaf nonce_hex channel ev k der ask vcek,
    said url leaf nonce_hex channel ev ∧
    (∃ x y, as_bytes channel = x ++ as_bytes (Tls.spki_sha256_hex leaf) ++ y) ∧
    let b := ev_report ev in
    slice OFF_REPORT_DATA 64 b = Attest.bind (default [] (hex_decode nonce_hex)) (as_bytes channel) ∧
    let chip := slice OFF_CHIP_ID 64 b in
    let tcb := tcb_from_reported (from_le_bytes (slice OFF_REPORTED_TCB 8 b)) in
    (fst <$> vc_files cache !! vcek_name product chip tcb = Some der ∨ fetch (kds_vcek_url product chip tcb) = Ok der) ∧
    cert_from_der der = Some vcek ∧ chains_to_root product ask vcek ∧ sec1_uncompressed k = cert_spki_key vcek ∧
    not_revoked fetch product ask (cert_serial vcek) default_revocation cache ∧
    ecdsa (sec1_uncompressed k) (slice 0 OFF_SIGNATURE b) (report_signature b) = true ∧
    (ar_reference a ≫= read_reference_measurement read_file) = Some (hex_encode (slice OFF_MEASUREMENT 48 b)) ∧
    from_le_bytes (slice OFF_VMPL 4 b) = 0 ∧
    (∃ repo, ephemeral_push url git = Ok repo) ∧
    (∀ d, ar_data_dir a = Some d → ∀ f x y, f ∈ visited (disk d) → f ≠ x ++ ca_value canary ++ y).
Proof.
  unfold judge. intros H. apply result_bind_inv in H as (h & Hh & H). injection H as <-. unfold overall, live_steps. cbn [forallb].
  set (vcek := (resolve_vcek _ _ _ _ _ _).1) in *. set (predicted := ar_reference a ≫= _) in *.
  rewrite !andb_true_iff. intros (Ha & _ & Hc & Hd & He & Hf & _).
  destruct (hear_said _ _ Hh) as (leaf & Hsaid & Hpeer & Hrep).
  apply parse_report_inv in Hrep as (_ & _ & Hme & _ & _ & Hch & Htcb).
  cbn [st_pass step_a step_c step_d step_e step_f] in *. apply andb_true_iff in Ha as [[_ Hcont]%andb_true_iff _].
  apply contains_sub_spec in Hcont as (x & y & Hcont). rewrite Hpeer in Hcont.
  assert (predicted = Some (hex_encode (slice OFF_MEASUREMENT 48 (ev_report (he_evidence h))))) as Hp.
  { destruct predicted as [p|]; [|done]. apply bool_decide_eq_true in Hc. by rewrite Hc, Hme. }
  destruct vcek as [k|] eqn:Ek; [|done]. destruct (snp_verify _ _ _ _ _) as [c|] eqn:Ev; [|done].
  apply snp_verify_inv in Ev as (_ & _ & Hrd & _ & Hvm & Hroot & _).
  destruct (Hroot eq_refl) as (_ & k' & Hsig & [[= <-]|[? _]]); [|done].
  destruct (resolve_vcek fetch product (sr_chip_id (he_report h)) (sr_reported_tcb (he_report h)) default_revocation cache) as [r c'] eqn:Er.
  cbn in vcek. subst vcek. cbn [fst] in Ek. subst r. rewrite Hch, Htcb in Er.
  apply resolve_vcek_genuine in Er as (der & ask & vc & H0 & H1 & H2 & _ & H3 & _ & _ & H4).
  exists leaf, (he_nonce_hex h), (he_channel h), (he_evidence h), k, der, ask, vc. split; [done|]. split; [eauto|].
  split_and!; try done; eauto.
  - destruct (ephemeral_push url git); [eauto|done].
  - intros d Hdd f x' y' Hin ->. rewrite Hdd in Hf. rewrite bool_decide_eq_true_2 in Hf by eauto. rewrite orb_false_r in Hf.
    apply negb_true_iff in Hf. assert (dir_contains (disk d) (ca_value canary) = true) as K; [|congruence].
    apply dir_contains_exact. eauto.
Qed.
End verdict.

(** *** Transcripts *)
Section transcripts.
Context `{STB : Serde TranscriptBody} `{SST : Serde SignedTranscript} `{SVK : Serde Sig.VerifyingKey}.
Context `{PST : !SerdePretty SignedTranscript} `{PVK : !SerdePretty Sig.VerifyingKey} (crypto_text : CryptoError → string) (io_text : IoError → string).

(** The transcript that is written verifies under the key written beside it, and says what the
    run decided. *)
Lemma transcript_verifies a mode target now steps workdir w e w' : (2 ≤ length workdir)%nat →
  finish crypto_text io_text a mode target now steps workdir w = (Ok e, w') →
  let out := default "acceptance-transcript.json" (ar_out a) in
  verify_transcript (left_bytes w') out (out +:+ ".vk.json") = Ok Finished ∧
  e = (if overall steps then Finished else ExitWith 1) ∧
  ∃ sig, w_files w' !! file out = Some (to_vec_pretty (mkSigned (transcript_body mode target now steps) sig)).
Proof.
  intros Hw. unfold finish. set (out := default "acceptance-transcript.json" (ar_out a)). set (body := transcript_body _ _ _ _). intros H.
  apply eff_bind_inv in H as ([signer bundle] & s0 & E & H). apply with_gen_files in E as [_ [g E]]. apply eff_err_inv in E.
  apply Sig.generate_with_bundle_wf in E as [Hwf _].
  apply eff_bind_inv in H as (sig & s1 & E & H). apply lift_inv in E as [E ->]. apply map_err_inv in E.
  apply eff_bind_inv in H as (u1 & s2 & E1 & H). apply eff_err_inv, write_inv in E1.
  apply eff_bind_inv in H as (u2 & s3 & E2 & H). apply eff_err_inv, write_inv in E2.
  apply eff_bind_inv in H as (u3 & s4 & E3 & H). apply mret_inv in H as [<- ->]. injection E3 as _ E3.
  assert (∀ n, w_files s4 !! file n = w_files s3 !! file n) as Hk.
  { intros n. subst s4. destruct (remove_dir_all workdir s3) as [r w1] eqn:Er. apply remove_dir_all_files in Er as [Er _]. cbn [snd]. apply Er.
    apply not_true_iff_false. rewrite below_spec. intros Hb. apply (f_equal length) in Hb. rewrite length_take in Hb. cbn in Hb. lia. }
  assert (file (out +:+ ".vk.json") ≠ file out) as Hne.
  { intros [= E4]. apply (f_equal as_bytes), (f_equal length) in E4. rewrite as_bytes_app, length_app in E4. cbn in E4. lia. }
  assert (w_files s4 !! file out = Some (to_vec_pretty (mkSigned body (hex_encode sig)))) as F1.
  { rewrite Hk, E2, lookup_insert_ne, E1 by done. apply lookup_insert_eq. }
  assert (w_files s4 !! file (out +:+ ".vk.json") = Some (to_vec_pretty (Sig.verifying_key signer))) as F2 by (rewrite Hk, E2; apply lookup_insert_eq).
  split_and!; [|done|eauto]. unfold verify_transcript, left_bytes. rewrite F1. cbn [mbind result_mbind]. rewrite from_slice_pretty.
  cbn [ok_or mbind result_mbind]. rewrite F2. cbn [mbind result_mbind]. rewrite from_slice_pretty. cbn [ok_or mbind result_mbind sg_signature_hex sg_body].
  rewrite hex_decode_encode. cbn [ok_or mbind result_mbind]. unfold body_bytes in *. by rewrite (Sig.sign_verify _ _ _ Hwf E).
Qed.
End transcripts.

(** C22. What a live acceptance that ends well on a platform that supports it means.  Asked
    once for its attestation at the address of the arguments, the server showed a
    certificate and answered with a nonce of its own, a text for its channel and a report.
    The text contains the fingerprint of that certificate's key; the report data are the
    digest of that nonce and that text; the report's own signature is one of the key of a
    certificate for its chip and firmware, from the cache or the vendor, that chains to the
    pinned root of the product of the arguments and is not on a revocation list of its
    issuer that was current at the time of the check; its measurement is the one in the
    reference file of the arguments, at privilege level zero; a push to a new anonymous
    repository there succeeded; no readable file of the data directory of the arguments, if
    one is named, has the canary; and the transcript that says so, with the given time, was
    written and verifies. *)
Theorem live_pass_means `{X : X509} `{JT : JsonText} `{CT : CaptureTls} `{STB : Serde TranscriptBody} `{SST : Serde SignedTranscript}
    `{SVK : Serde Sig.VerifyingKey} `{PST : !SerdePretty SignedTranscript} `{PVK : !SerdePretty Sig.VerifyingKey}
    crypto_text io_text ecdsa evidence_of fetch attest_text a read_file cache git disk canary now w w' :
  run_silicon ecdsa crypto_text io_text evidence_of fetch attest_text a true read_file cache git disk canary now w = (Ok Finished, w') →
  (let out := default "acceptance-transcript.json" (ar_out a) in
   verify_transcript (left_bytes w') out (out +:+ ".vk.json") = Ok Finished ∧
   ∃ steps sig, overall steps = true ∧
     w_files w' !! file out = Some (to_vec_pretty (mkSigned (transcript_body "silicon" (ar_url a) now steps) sig))) ∧
  ∃ url product leaf nonce_hex channel ev k der ask vcek,
    ar_url a = Some url ∧ product_parse (default "Milan" (ar_product a)) = Some product ∧
    said evidence_of url leaf nonce_hex channel ev ∧
    (∃ x y, as_bytes channel = x ++ as_bytes (Tls.spki_sha256_hex leaf) ++ y) ∧
    let b := ev_report ev in
    slice OFF_REPORT_DATA 64 b = Attest.bind (default [] (hex_decode nonce_hex)) (as_bytes channel) ∧
    let chip := slice OFF_CHIP_ID 64 b in
    let tcb := tcb_from_reported (from_le_bytes (slice OFF_REPORTED_TCB 8 b)) in
    (fst <$> vc_files cache !! vcek_name product chip tcb = Some der ∨ fetch (kds_vcek_url product chip tcb) = Ok der) ∧
    cert_from_der der = Some vcek ∧ chains_to_root product ask vcek ∧ sec1_uncompressed k = cert_spki_key vcek ∧
    not_revoked fetch product ask (cert_serial vcek) default_revocation cache ∧
    ecdsa (sec1_uncompressed k) (slice 0 OFF_SIGNATURE b) (report_signature b) = true ∧
    (ar_reference a ≫= read_reference_measurement read_file) = Some (hex_encode (slice OFF_MEASUREMENT 48 b)) ∧
    from_le_bytes (slice OFF_VMPL 4 b) = 0 ∧
    (∃ repo, ephemeral_push url git = Ok repo) ∧
    (∀ d, ar_data_dir a = Some d → ∀ f x y, f ∈ visited (disk d) → f ≠ x ++ ca_value canary ++ y).
Proof.
  unfold run_silicon. cbn [negb]. intros H. apply eff_bind_inv in H as (url & s1 & E & H). apply lift_inv in E as [Hu ->].
  destruct (ar_url a) as [u0|] eqn:Eu; [injection Hu as ->|done].
  apply eff_bind_inv in H as (product & s2 & Ep & H). apply lift_inv in Ep as [Hp%ok_or_inv ->].
  apply eff_bind_inv in H as (? & s3 & _ & H). apply eff_bind_inv in H as (? & s4 & _ & H).
  apply eff_bind_inv in H as (steps & s5 & E & H). apply lift_inv in E as [Hj ->].
  apply transcript_verifies in H as (Hv & He & sig & Hf); [|cbn; lia]. destruct (overall steps) eqn:Eo; [|done].
  split; [split; [exact Hv|exists steps, sig; done]|].
  apply judge_means in Hj as (leaf & nonce_hex & channel & ev & k & der & ask & vcek & Hall); [|done].
  exists url, product, leaf, nonce_hex, channel, ev, k, der, ask, vcek. done.
Qed.
End theory.

(** *** The refusals refuse *)

Section refusals.
Context `{RND : SystemRandom} `{DIG : Digests} `{MAC : Hmacs} `{AB : AeadBackend} `{XK : X25519} `{MK : !MlKem} `{HX : Hex}.
Context `{SS : Serde SeenState} `{SMR : Serde MockReport} `{JMR : !JsonObject MockReport}.
(** JSON texts start with a JSON value: no text with this first byte is one. *)
Context (json_first : ∀ l, (from_slice (x84 :: l) : option MockReport) = None).

Lemma mock_accepts ev expected policy c : mock_verify ev expected policy = Ok c →
  ∃ report m, from_slice (ev_report ev) = Some report ∧ hex_decode (mr_measurement report) = Some m ∧ measurement_allowed policy m = true.
Proof.
  unfold mock_verify. case_bool_decide; [|done]. cbn [negb]. intros H1.
  apply result_bind_inv in H1 as (report & Hr & H1). apply result_bind_inv in H1 as (m & Hm & H1). apply result_bind_inv in H1 as (rd & _ & H1).
  destruct (Nat.eqb _ _); [|done]. cbn [negb] in H1. apply result_bind_inv in H1 as (mac & _ & H1).
  destruct (ct_eq _ _); [|done]. cbn [negb] in H1. case_bool_decide; [|done]. cbn [negb] in H1.
  destruct (require_vendor_root policy); [done|]. destruct (measurement_allowed policy m) eqn:Ea; [|done].
  exists report, m. split_and!; [by destruct (from_slice (ev_report ev)); [injection Hr as ->|]|by destruct (hex_decode _); [injection Hm as ->|]|done].
Qed.

(** The evidence in a request of the harness. *)
Lemma mock_request_inv resource ts w req w' : mock_request resource ts w = (Ok req, w') →
  rq_resource_id req = resource ∧ rq_timestamp req = ts ∧
  ∃ report, mr_measurement report = hex_encode MOCK_MEASUREMENT ∧ ev_report (rq_evidence req) = to_vec report.
Proof.
  unfold mock_request. intros H. apply eff_bind_inv in H as (kp & s1 & _ & H). apply eff_bind_inv in H as (nonce & s2 & _ & H).
  apply eff_bind_inv in H as (ev & s3 & E & H). apply mret_inv in H as [<- ->]. apply lift_inv in E as [E _]. apply map_err_inv in E.
  injection E as <-. cbn. split_and!; [done..|]. eexists (mkMockReport _ _ _). split; [|done]. done.
Qed.
Lemma mock_setup_inv resource dir ts w broker st req w' : mock_setup resource dir ts w = (Ok (broker, st, req), w') →
  (∃ key g, broker = with_replay_guard (broker_new mock_verifier (mock_policy MOCK_MEASUREMENT) (kek_insert ∅ resource key)) g ∧ rg_ttl_secs g = 300) ∧
  rq_resource_id req = resource ∧ rq_timestamp req = ts ∧
  ∃ report, mr_measurement report = hex_encode MOCK_MEASUREMENT ∧ ev_report (rq_evidence req) = to_vec report.
Proof.
  unfold mock_setup. intros H. apply eff_bind_inv in H as (u & s1 & _ & H). apply eff_bind_inv in H as (key & s2 & _ & H).
  apply eff_bind_inv in H as ([b st1] & s3 & E & H). apply eff_bind_inv in H as (req' & s4 & E2 & H). apply mret_inv in H as [[= -> -> ->] ->].
  split; [|by eapply mock_request_inv]. unfold guarded_broker, guard_open in E. destruct (Fs.read _ _) as [r w1]. injection E as <- _ _. eauto.
Qed.

(** A refusal is an answer that is an error. *)
Lemma ask_inv {A} st (c : eff (SeenState * World) BrokerError A) w r st' w' : ask st c w = (Ok (r, st'), w') → c (st, w) = (r, (st', w')).
Proof. unfold ask. destruct (c (st, w)) as [r0 [st0 w0]]. by intros [= -> -> ->]. Qed.

Lemma wrong_measurement_refused dir ts now w b w' : refuse_wrong_measurement dir ts now w = (Ok b, w') → b = true.
Proof.
  unfold refuse_wrong_measurement. intros H. apply eff_bind_inv in H as (? & s1 & _ & H). apply eff_bind_inv in H as (? & s2 & _ & H).
  apply eff_bind_inv in H as (key & s3 & _ & H). apply eff_bind_inv in H as ([[b' st] req] & s4 & E & H).
  apply eff_bind_inv in H as ([res st'] & s5 & E5 & H). apply eff_bind_inv in H as (? & s6 & _ & H). apply mret_inv in H as [<- _].
  apply mock_setup_inv in E as (_ & _ & _ & report & Hm & Hrep). apply ask_inv in E5. destruct res as [resp|]; [exfalso|done].
  apply release_iff in E5 as (c & w1 & kek & rec & g & Hv & _). apply mock_accepts in Hv as (r' & m & Hr & Hd & Ha).
  rewrite Hrep, from_slice_to_vec in Hr. injection Hr as <-. rewrite Hm, hex_decode_encode in Hd. injection Hd as <-. by vm_compute in Ha.
Qed.

Lemma stale_refused dir clock now w b w' : 3600 ≤ clock → clock ≤ now → refuse_stale dir clock now w = (Ok b, w') → b = true.
Proof.
  intros Hc Hn. unfold refuse_stale. intros H. apply eff_bind_inv in H as (? & s1 & _ & H). apply eff_bind_inv in H as (? & s2 & _ & H).
  apply eff_bind_inv in H as (key & s3 & _ & H). apply eff_bind_inv in H as ([b' st] & s4 & E & H).
  apply eff_bind_inv in H as (req & s5 & E5 & H). apply eff_bind_inv in H as ([res st'] & s6 & E6 & H).
  apply eff_bind_inv in H as (? & s7 & _ & H). apply mret_inv in H as [<- _]. apply mock_request_inv in E5 as (_ & Hts & _).
  unfold guarded_broker, guard_open in E. destruct (Fs.read _ _) as [r w1]. injection E as <- _ _. apply ask_inv in E6.
  destruct res as [resp|]; [exfalso|done]. apply release_iff in E6 as (c & w2 & kek & rec & g & _ & Hg & _).
  cbn [lb_replay_guard with_replay_guard] in Hg. apply guard_accepts in Hg as [Hg _]. cbn [rg_ttl_secs] in Hg. lia.
Qed.

Lemma tampered_refused dir ts now w b w' : refuse_tampered_report dir ts now w = (Ok b, w') → b = true.
Proof.
  unfold refuse_tampered_report. intros H. apply eff_bind_inv in H as (? & s1 & _ & H). apply eff_bind_inv in H as ([[b' st] req] & s2 & E & H).
  apply eff_bind_inv in H as ([res st'] & s3 & E3 & H). apply eff_bind_inv in H as (? & s4 & _ & H). apply mret_inv in H as [<- _].
  apply mock_setup_inv in E as ((key & g0 & -> & _) & _ & _ & report & _ & Hrep). apply ask_inv in E3. destruct res as [resp|]; [exfalso|done].
  apply release_iff in E3 as (c & w1 & kek & rec & g & Hv & _). apply mock_accepts in Hv as (r' & m & Hr & _).
  destruct (json_object report) as (mid & Ej & _). cbn [tamper rq_evidence ev_report] in Hr. rewrite Hrep, Ej in Hr.
  change (flip x7b) with x84 in Hr. by rewrite json_first in Hr.
Qed.

Lemma unknown_refused dir ts now w b w' : refuse_unknown_resource dir ts now w = (Ok b, w') → b = true.
Proof.
  unfold refuse_unknown_resource. intros H. apply eff_bind_inv in H as (? & s1 & _ & H). apply eff_bind_inv in H as ([[b' st] req] & s2 & E & H).
  apply eff_bind_inv in H as ([res st'] & s3 & E3 & H). apply eff_bind_inv in H as (? & s4 & _ & H). apply mret_inv in H as [<- _].
  apply mock_setup_inv in E as ((key & g0 & -> & _) & _). apply ask_inv in E3. destruct res as [resp|]; [exfalso|done].
  apply release_iff in E3 as (c & w1 & kek & rec & g & _ & _ & Hk & _). change (get_kek (kek_insert ∅ "known" key) "does/not/exist" = Some kek) in Hk.
  by vm_compute in Hk.
Qed.

(** A second use of the same evidence is refused by every broker with a guard, whatever time
    has passed, when the evidence was not made in the broker's future. *)
Lemma replay_refused b g now1 now2 req s r1 s1 : lb_replay_guard b = Some g → rq_timestamp req ≤ now1 →
  release b now1 req s = (Ok r1, s1) → is_ok (release b now2 req s1).1 = false.
Proof.
  intros Hg Hts H1. destruct s as [st w], s1 as [st1 w1]. destruct (release b now2 req (st1, w1)) as [[r2|] [st2 w2]] eqn:H2; [exfalso|done].
  apply release_iff in H1 as (c & w3 & kek & rec & g1 & _ & K1 & _). apply release_iff in H2 as (c' & w4 & kek' & rec' & g2 & _ & K2 & _).
  rewrite Hg in K1, K2. apply check_ok in K1 as (_ & _ & _ & Hs). apply check_ok in K2 as (Hlo & _ & Hno & _). specialize (Hno _ Hs). lia.
Qed.

(** The harness's replay scenario: refused, unless the first use already failed. *)
Lemma replay_scenario dir ts now1 now2 w b w' : ts ≤ now1 → refuse_replay dir ts now1 now2 w = (Ok b, w') →
  b = true ∨ ∃ broker st req s, (ignore (remove_dir_all dir) ≫= λ _, mock_setup "r" dir ts) w = (Ok (broker, st, req), s) ∧
    is_ok (release broker now1 req (st, s)).1 = false.
Proof.
  intros Hts. unfold refuse_replay. intros H. apply eff_bind_inv in H as (? & s1 & E1 & H).
  apply eff_bind_inv in H as ([[broker st] req] & s2 & E & H). apply eff_bind_inv in H as ([first st1] & s3 & E3 & H).
  apply eff_bind_inv in H as ([second st2] & s4 & E4 & H). apply eff_bind_inv in H as (? & s5 & _ & H). apply mret_inv in H as [<- _].
  apply ask_inv in E3, E4. pose proof (mock_setup_inv _ _ _ _ _ _ _ _ E) as ((key & g & Hb & _) & _ & Htr & _).
  destruct first as [r1|e].
  - left. cbn [is_ok andb]. apply (replay_refused _ g now1 now2) in E3; [|by rewrite Hb|by rewrite Htr]. rewrite E4 in E3. cbn [fst] in E3. by rewrite E3.
  - right. exists broker, st, req, s2. split; [|by rewrite E3]. unfold mbind, eff_mbind. rewrite E1. exact E.
Qed.

(** C24. The adversarial scenarios of the acceptance harness hold on every disk and every
    generator: evidence with another measurement, an hour old, altered in its first byte or
    for an unknown key is refused, and evidence that was accepted once is refused the second
    time; a scenario that reaches its verdict reports the refusal. *)
Theorem refusals_refuse (dir : path) (ts now1 now2 clock now : N) (w : World) :
  ts ≤ now1 → 3600 ≤ clock → clock ≤ now →
  (∀ b w', refuse_wrong_measurement dir ts now w = (Ok b, w') → b = true) ∧
  (∀ b w', refuse_stale dir clock now w = (Ok b, w') → b = true) ∧
  (∀ b w', refuse_tampered_report dir ts now w = (Ok b, w') → b = true) ∧
  (∀ b w', refuse_unknown_resource dir ts now w = (Ok b, w') → b = true) ∧
  (∀ b w', refuse_replay dir ts now1 now2 w = (Ok b, w') →
    b = true ∨ ∃ broker st req s, (ignore (remove_dir_all dir) ≫= λ _, mock_setup "r" dir ts) w = (Ok (broker, st, req), s) ∧
      is_ok (release broker now1 req (st, s)).1 = false).
Proof.
  intros H1 H2 H3. split_and!; intros b w'.
  - apply wrong_measurement_refused.
  - by apply stale_refused.
  - apply tampered_refused.
  - apply unknown_refused.
  - by apply replay_scenario.
Qed.
End refusals.

(** Scenarios that cannot be built from the mock pass without being run. *)
Lemma unrun_scenarios_pass `{RND : SystemRandom} `{DIG : Digests} `{MAC : Hmacs} `{AB : AeadBackend} `{XK : X25519} `{MK : !MlKem} `{HX : Hex}
    `{SS : Serde SeenState} `{SMR : Serde MockReport} scenario ts now1 now2 w :
  scenario ∈ ["wrong-vmpl"; "revoked-vcek"; "broken-chain"; "invalid-vcek-sig"] → run_expect_refuse scenario ts now1 now2 w = (Ok Finished, w).
Proof. rewrite !elem_of_cons. intros [->|[->|[->|[->|H]]]]; [done..|by apply not_elem_of_nil in H]. Qed.
(** A reference that cannot be read passes the comparison of the mock run. *)
Lemma mock_unreadable_reference `{HX : Hex} `{JT : JsonText} read_file reference :
  reference ≫= read_reference_measurement read_file = None → st_pass (mock_step_c read_file reference) = true.
Proof.
  intros H. unfold mock_step_c. cbn [st_pass]. rewrite H. cbn [default from_option id].
  rewrite (bool_decide_eq_true_2 (hex_encode MOCK_MEASUREMENT = _)) by done. apply orb_true_r.
Qed.
