(* ===== verification/VerifyTool.v ===== *)
(** The self-test and the commands of the verification tool,
    [crates/secgit-verify/src/main.rs], and the entry of its acceptance harness.

    The self-test puts the parts of the system together: a key released against mock
    evidence opens a store, and a log is appended to, signed and proved.  It is shown that
    none of its checks but the one on the disk can fail. *)

From S2P Require Import Prelude Text Backend Toy Envelope Primitives Merkle MerkleTheory Http Aead Sig Kem Fs Store AuditLog Attest Replay Vcek KeyBroker Json Config KeyStart Tls Net Leak Provenance Acceptance.

(** A check that failed, apart from the errors of the calls in between. *)
Inductive SelfError := StepFailed (msg : string) | Stopped (msg : string).
Definition self_text (e : SelfError) : string := match e with StepFailed m => "step failed: " +:+ m | Stopped m => m end.

Section tool.
Context `{RND : SystemRandom} `{DIG : Digests} `{MAC : Hmacs} `{AB : AeadBackend} `{XK : X25519} `{MK : !MlKem} `{HX : Hex}.
Context `{ED : Ed25519} `{EG : !Ed25519Gen} `{ML : MlDsa} `{X : X509} `{JT : JsonText} `{CT : CaptureTls}.
Context `{SS : Serde SeenState} `{SMR : Serde MockReport} `{STB : Serde TranscriptBody} `{SST : Serde SignedTranscript}.
Context `{SVK : Serde Sig.VerifyingKey} `{PST : !SerdePretty SignedTranscript} `{PVK : !SerdePretty Sig.VerifyingKey}.
Context `{SCP : Serde Checkpoint} `{SPS : Serde ProvenanceStatement} `{SEV : Serde AuditEvent} `{SRE : Serde RawEntry}.
Context (crypto_text : CryptoError → string) (io_text : IoError → string) (broker_text : BrokerError → string)
  (store_text : StoreError → string) (audit_text : AuditError → string) (attest_text : AttestError → string).

(** ** The self-test *)

Definition SelfM (A : Type) : Type := eff World SelfError A.
Definition check (ok : bool) (msg : string) : SelfM unit := if ok then mret () else throw (StepFailed msg).
Definition stop {E A} (text : E → string) (c : eff World E A) : SelfM A := eff_map_err (λ e, Stopped (text e)) c.

Definition SELF_DIR : path := ["tmp"; "secgit-verify"].
Definition SECRET : bytes := as_bytes "my private repo contents".
Definition PLAINTEXT_CHECK : string := "no plaintext written to disk (provider-blind at rest)".

Definition broker_ask (id : string) (b : LocalKeyBroker) (ts now : N) : SelfM (result BrokerError Aead.SymKey) :=
  '(r, _) ← stop (λ _ : ToolError, EmptyString) (ask seen_default (attest_and_unwrap id (mock_attester MOCK_MEASUREMENT) (release b now) ts));
  mret r.

(** *** 1. A key released against evidence *)
Definition self_release (ts1 now1 ts2 now2 : N) : SelfM Aead.SymKey :=
  kek ← stop crypto_text (with_gen Aead.generate);
  let broker := broker_new mock_verifier dev_permissive (kek_insert ∅ "demo/repo" kek) in
  r ← broker_ask "demo/repo" broker ts1 now1;
  released ← lift (map_err (λ e, Stopped (broker_text e)) r);
  _ ← check (bool_decide (released = kek)) "attested KEK released into TEE matches";
  unknown ← broker_ask "does/not/exist" broker ts2 now2;
  _ ← check (negb (is_ok unknown)) "unknown resource is denied by the broker";
  mret released.

(** *** 2. The store that it opens *)
Definition self_store (released : Aead.SymKey) : SelfM unit :=
  _ ← ignore (remove_dir_all SELF_DIR);
  store ← stop store_text (store_open SELF_DIR released);
  _ ← stop store_text (Store.put store "demo/repo" "blob/1" SECRET);
  got ← stop store_text (Store.get store "demo/repo" "blob/1");
  _ ← check (bool_decide (got = Some SECRET)) "round-trips through encrypted store";
  plaintext_on_disk ← ((λ w, (Ok (dir_contains (disk_tree w SELF_DIR) SECRET), w)) : SelfM bool);
  check (negb plaintext_on_disk) PLAINTEXT_CHECK.

(** *** 3. The log *)
Definition self_log (t1 t2 t3 : N) : SelfM unit :=
  '(signer, _) ← stop crypto_text (with_gen (Sig.generate_with_bundle LONG_LIVED_SIG));
  log ← stop audit_text (open_plain (SELF_DIR ++ ["audit.log"]) "secgit-selftest" signer);
  '(_, log) ← stop audit_text (append log (KeyReleased "demo/repo" (hex_encode MOCK_MEASUREMENT)) t1);
  '(_, log) ← stop audit_text (append log (RefUpdated "demo/repo" "refs/heads/main" (string_of_list_byte (repeat x30 40))
                                              (string_of_list_byte (repeat x61 40)) "anonymous") t2);
  cp ← stop audit_text (lift (checkpoint log t3));
  _ ← check (is_ok (checkpoint_verify cp (log_verifying_key log))) "audit checkpoint PQC signature verifies";
  '(leaf, proof) ← lift (ok_or (Stopped "inclusion proof") (log_inclusion_proof log 0));
  check (verify_inclusion leaf 0 (tl_len log) proof (tl_root log)) "audit inclusion proof verifies against the signed root".

Definition selftest (ts1 now1 ts2 now2 t1 t2 t3 : N) : SelfM Ended :=
  released ← self_release ts1 now1 ts2 now2;
  _ ← self_store released;
  _ ← self_log t1 t2 t3;
  _ ← ignore (remove_dir_all SELF_DIR);
  mret Finished.

(** ** The commands *)

Section commands.
Context (ecdsa : bytes → bytes → bytes → bool) (evidence_of : Value → option Evidence) (fetch : string → result AttestError bytes).
(** What the host offers: its platform, its files by name, the cache of certificates, git, the directory of the operator. *)
Context (platform_supported : bool) (is_file : string → bool) (read_file : string → result string bytes) (cache : Cache)
  (git : list (list string) → result string unit) (disk : string → Entry) (canary : Canary) (probe : Probe.Verdict).

Definition failing {A} (c : eff World string A) : eff World ToolError A := eff_map_err Failed c.

(** [ts], [now1], [now2] and [finished_at] are readings of the clock. *)
Definition run_acceptance (args : list string) (ts now1 now2 finished_at : N) : eff World ToolError Ended :=
  a ← failing (lift (parse_args args args_default));
  match ar_expect_refuse a with
  | Some scenario => run_expect_refuse scenario ts now1 now2
  | None =>
      if ar_mock a then failing (run_mock crypto_text io_text broker_text store_text a read_file ts now1 finished_at canary)
      else failing (run_silicon ecdsa crypto_text io_text evidence_of fetch attest_text a platform_supported read_file cache git disk canary finished_at)
  end.

Definition main (args : list string) (ts now1 now2 finished_at t1 t2 t3 : N) : eff World ToolError Ended :=
  let answer (r : result string Ended) := failing (lift r) in
  match args !! 1%nat with
  | Some "selftest" => eff_map_err (λ e, Failed (self_text e)) (selftest ts now1 now2 finished_at t1 t2 t3)
  | Some "verify-checkpoint" =>
      let usage := "usage: verify-checkpoint <checkpoint.json> <vk.json>" in
      answer (cp ← ok_or usage (args !! 2%nat); vk ← ok_or usage (args !! 3%nat); verify_checkpoint read_file cp vk)
  | Some "probe-snp" => mret (if Probe.is_ok_exit probe then Finished else ExitWith 1)
  | Some "acceptance-snp" => run_acceptance (drop 2 args) ts now1 now2 finished_at
  | Some "verify-provenance" =>
      let usage := "usage: verify-provenance <provenance.json> <provenance.json.sig> [vk.json]" in
      answer (p ← ok_or usage (args !! 2%nat); s ← ok_or usage (args !! 3%nat);
              verify_provenance is_file read_file p s (default DEFAULT_PROVENANCE_VK (args !! 4%nat)))
  | Some "verify-transcript" =>
      let usage := "usage: verify-transcript <transcript.json> <vk.json>" in
      answer (t ← ok_or usage (args !! 2%nat); vk ← ok_or usage (args !! 3%nat); verify_transcript read_file t vk)
  | _ => mret (ExitWith 2)
  end.
End commands.

(** ** Theory *)

(** *** Errors of a sequence *)

Lemma eff_bind_err {St E A B} (c : eff St E A) (f : A → eff St E B) w e w' :
  (c ≫= f) w = (Err e, w') → c w = (Err e, w') ∨ ∃ a s, c w = (Ok a, s) ∧ f a s = (Err e, w').
Proof. unfold mbind, eff_mbind. destruct (c w) as [[a|e0] s]; [eauto|]. intros [= -> ->]. auto. Qed.
Lemma stop_no_check {E A} (text : E → string) (c : eff World E A) w m w' : stop text c w ≠ (Err (StepFailed m), w').
Proof. unfold stop, eff_map_err. by destruct (c w) as [[]]. Qed.
Lemma stop_inv {E A} (text : E → string) (c : eff World E A) w a w' : stop text c w = (Ok a, w') → c w = (Ok a, w').
Proof. apply eff_err_inv. Qed.
Lemma check_failed ok msg w m w' : check ok msg w = (Err (StepFailed m), w') → ok = false ∧ m = msg.
Proof. unfold check. destruct ok; [done|]. by intros [= ->]. Qed.
Lemma check_inv ok msg w u w' : check ok msg w = (Ok u, w') → ok = true ∧ w' = w.
Proof. unfold check. destruct ok; [|done]. by intros [= _ ->]. Qed.
Lemma lift_stopped {A} text (o : option A) w m w' : lift (ok_or (Stopped text) o) w ≠ (Err (StepFailed m), w' : World).
Proof. unfold lift. by destruct o. Qed.

(** *** The broker without a guard keeps to the generator *)

Definition disk_of (w : World) := (w_files w, w_sched w).
Definition keeps_files {E A} (c : eff (SeenState * World) E A) : Prop := ∀ s r s', c s = (r, s') → disk_of s'.2 = disk_of s.2.

Lemma files_bind {E A B} (c : eff (SeenState * World) E A) (f : A → eff (SeenState * World) E B) : keeps_files c → (∀ a, keeps_files (f a)) → keeps_files (c ≫= f).
Proof.
  intros Hc Hf s r s'. unfold mbind, eff_mbind. destruct (c s) as [[a|e] s1] eqn:E1; apply Hc in E1.
  - intros E2%Hf. congruence.
  - by intros [= _ <-].
Qed.
Lemma files_lift {E A} (r : result E A) : keeps_files (lift r).
Proof. by intros s r' s' [= _ <-]. Qed.
Lemma files_crypto {A} (c : eff rng CryptoError A) : keeps_files (crypto c).
Proof. intros [st w] r [st' w'] H. by apply crypto_inv in H as (_ & r0 & g & _ & _ & ->). Qed.
Lemma files_ret {E A} (a : A) : keeps_files (mret a : eff (SeenState * World) E A).
Proof. by intros s r s' [= _ <-]. Qed.

Lemma files_release b now req : lb_replay_guard b = None → keeps_files (release b now req).
Proof.
  intros Hg. unfold release. rewrite Hg. apply files_bind; [apply files_lift|intros _]. apply files_bind; [apply files_ret|intros _].
  apply files_bind; [apply files_lift|intros kek]. apply files_bind; [apply files_lift|intros rec].
  apply files_bind; [apply files_crypto|intros wr]. apply files_ret.
Qed.
Lemma files_attest id at_ b now ts : lb_replay_guard b = None → keeps_files (attest_and_unwrap id at_ (release b now) ts).
Proof.
  intros Hg. unfold attest_and_unwrap. apply files_bind; [apply files_crypto|intros kp]. apply files_bind; [apply files_crypto|intros nonce].
  apply files_bind; [apply files_lift|intros ev]. apply files_bind; [by apply files_release|intros resp].
  apply files_bind; [apply files_lift|intros k]. destruct (negb _); [|apply files_ret]. by intros s r s' [= _ <-].
Qed.

Lemma broker_ask_inv id b ts now w r w' : broker_ask id b ts now w = (Ok r, w') →
  ∃ st', attest_and_unwrap id (mock_attester MOCK_MEASUREMENT) (release b now) ts (seen_default, w) = (r, (st', w')).
Proof.
  unfold broker_ask. intros H. eff_step H. destruct a as [r0 st0]. apply mret_inv in H as [<- ->]. apply stop_inv in E.
  exists st0. unfold ask in E. destruct (attest_and_unwrap _ _ _ _ _) as [r1 [st1 w1]]. by injection E as -> -> ->.
Qed.
Lemma broker_ask_no_check id b ts now w m w' : broker_ask id b ts now w ≠ (Err (StepFailed m), w').
Proof. unfold broker_ask. intros H. apply eff_bind_err in H as [H|([r st] & s & _ & H)]; [by apply stop_no_check in H|done]. Qed.

(** Both checks of the first part hold, and the disk is left alone. *)
Lemma self_release_holds ts1 now1 ts2 now2 w :
  (∀ m w', self_release ts1 now1 ts2 now2 w ≠ (Err (StepFailed m), w')) ∧
  (∀ k w', self_release ts1 now1 ts2 now2 w = (Ok k, w') → disk_of w' = disk_of w).
Proof.
  unfold self_release.
  assert (∀ kek id ts now r s st' s', get_kek (kek_insert ∅ "demo/repo" kek) id = r →
    attest_and_unwrap id (mock_attester MOCK_MEASUREMENT) (release (broker_new mock_verifier dev_permissive (kek_insert ∅ "demo/repo" kek)) now) ts
      (seen_default, s) = (st', s') →
    disk_of s'.2 = disk_of s ∧ match st' with Ok k => r = Some k | Err _ => True end) as K.
  { intros kek id ts now r s st' s' Hr H. split; [by apply files_attest in H|]. destruct st' as [k|]; [|done].
    apply attest_and_unwrap_iff in H as (kp & s1 & nonce & s2 & ev & resp & _ & _ & _ & _ & Hk & _). by rewrite <-Hr. }
  split.
  - intros m w' H. apply eff_bind_err in H as [H|(kek & s1 & _ & H)]; [by apply stop_no_check in H|].
    apply eff_bind_err in H as [H|(r & s2 & E2 & H)]; [by apply broker_ask_no_check in H|].
    apply eff_bind_err in H as [H|(rel & s3 & E3 & H)]; [unfold lift in H; by destruct r|].
    apply broker_ask_inv in E2 as [st2 E2]. eapply K in E2 as [_ E2]; [|apply lookup_insert_eq].
    apply lift_inv in E3 as [E3 ->]. destruct r as [k|]; [|done]. injection E3 as ->.
    apply eff_bind_err in H as [H|([] & s4 & _ & H)].
    { apply check_failed in H as [Hf _]. apply bool_decide_eq_false in Hf. apply Hf. by injection E2. }
    apply eff_bind_err in H as [H|(un & s5 & E5 & H)]; [by apply broker_ask_no_check in H|].
    apply broker_ask_inv in E5 as [st5 E5]. eapply K in E5 as [_ E5]; [|apply (lookup_insert_ne (M := gmap string) ∅); done].
    apply eff_bind_err in H as [H|([] & s6 & _ & H)]; [|done].
    apply check_failed in H as [Hf _]. apply negb_false_iff in Hf. by destruct un.
  - intros k w' H. eff_step H. apply stop_inv in E. assert (disk_of s = disk_of w) as F1.
    { unfold with_gen in E. destruct (Aead.generate _). by injection E as _ <-. }
    clear E.
    eff_step H.
    apply broker_ask_inv in E as [st2 E]. eapply K in E as [F2 _]; [|reflexivity]. eff_step H. apply lift_inv in E as [_ ->].
    eff_step H. apply check_inv in E as [_ ->]. eff_step H. apply broker_ask_inv in E as [st5 E]. eapply K in E as [F3 _]; [|reflexivity].
    eff_step H. apply check_inv in E as [_ ->]. apply mret_inv in H as [_ ->]. cbn in F2, F3. congruence.
Qed.
(** *** The store gives back what it took, whatever was there before *)

(** Paths no longer than these are never written by a store. *)
Definition outside (st : EncryptedStore) (q : path) : Prop := (length q ≤ length (st_root st) + 2)%nat.
Lemma outside_dek st r q : outside st q → q ≠ dek_path st r ∧ q ≠ with_extension (dek_path st r) "tmp".
Proof. rewrite dek_tmp. unfold outside, dek_path, repo_dir. intros H. split; intros ->; revert H; rewrite !length_app; cbn; lia. Qed.
Lemma outside_object st r k q : outside st q → q ≠ object_path st r k ∧ q ≠ with_extension (object_path st r k) "tmp".
Proof. rewrite object_tmp. unfold outside, object_path, repo_dir. intros H. split; intros ->; revert H; rewrite !length_app; cbn; lia. Qed.

Lemma repo_dek_holds st r w dek w' : repo_dek st r w = (Ok dek, w') →
  dek_at st w' r = Some dek ∧ (∀ q, outside st q → w_files w' !! q = w_files w !! q) ∧
  (Fs.seen w → is_Some (w_files w !! dek_path st r) → w_files w' = w_files w).
Proof.
  unfold repo_dek. intros H. apply eff_bind_inv in H as (u & s0 & E & H).
  assert (Fs.seen w → Fs.seen s0) as Hsn.
  { intros Hw. assert (spends (fs_op (create_dir_all (repo_dir st r)))) as K by (unfold fs_op, create_dir_all; eauto with spends).
    specialize (K w Hw). by rewrite E in K. }
  apply eff_err_inv, create_dir_all_files in E. apply eff_bind_inv in H as (b & s & E0 & H).
  pose proof (stat_files _ _ _ _ E0) as [Es (b' & [= <-] & Hb0)].
  assert (Fs.seen w → b = file_present s (dek_path st r)) as Hseen.
  { intros Hw. apply stat_seen in E0 as (_ & _ & [= ->]); auto. }
  clear E0. rewrite <-Es in E. destruct b.
  - eff_step H. apply eff_err_inv, read_files in E0 as [F Hb]. unfold crypto_op in H. apply lift_inv in H as [Hu ->].
    specialize (Hb _ eq_refl). rewrite <-F in Hb. unfold dek_at. rewrite Hb. cbn.
    destruct (Aead.unwrap_key (st_kek st) a); [|done]. injection Hu as ->. rewrite F, E. done.
  - assert (Fs.seen w → w_files w !! dek_path st r = None) as Hn.
    { intros Hw. rewrite <-E. apply file_present_false. by rewrite <-Hseen. }
    eff_step H. apply crypto_gen_inv in E0 as [F1 Hg]. destruct (Hg _ eq_refl) as [g1 Hk]. apply Aead.random_bytes_ok in Hk.
    eff_step H. apply crypto_gen_inv in E0 as [F2 Hw]. destruct (Hw _ eq_refl) as [g2 Hu]. apply Aead.wrap_unwrap in Hu; [|done].
    eff_step H. apply mret_inv in H as [<- ->]. apply eff_err_inv, atomic_write_files in E0 as [Ht Hq]; [|apply dek_tmp_ne_dek].
    split_and!.
    + unfold dek_at. rewrite Ht. cbn. by rewrite Hu.
    + intros q Ho. destruct (outside_dek st r q Ho). rewrite Hq by done. congruence.
    + intros Hw0. rewrite Hn by done. by intros [].
Qed.

Lemma put_holds st r k pt w u w' : Store.put st r k pt w = (Ok u, w') →
  object_at st w' r k = Some pt ∧ ∀ q, outside st q → w_files w' !! q = w_files w !! q.
Proof.
  unfold Store.put. intros H. eff_step H. apply repo_dek_holds in E as (Hd & Hf & _). eff_step H.
  apply crypto_gen_inv in E as [F1 Hs]. destruct (Hs _ eq_refl) as [g Ho]. apply Aead.seal_open in Ho.
  eff_step H. apply eff_err_inv, create_dir_all_files in E. apply eff_err_inv, atomic_write_files in H as [Ht Hq]; [|apply object_tmp_ne_object].
  split.
  - assert (w_files w' !! dek_path st r = w_files s !! dek_path st r) as Hk.
    { rewrite Hq, E, F1; [done|apply dek_ne_object|apply not_eq_sym, object_tmp_ne_dek]. }
    unfold object_at, dek_at in *. rewrite Hk, Hd. cbn [mbind option_bind]. rewrite Ht. cbn [mbind option_bind]. by rewrite Ho.
  - intros q Hq1. destruct (outside_object st r k q Hq1). rewrite Hq, E, F1 by done. by apply Hf.
Qed.

Lemma get_holds st r k pt w o w' : Fs.seen w → object_at st w r k = Some pt → Store.get st r k w = (Ok o, w') → o = Some pt ∧ w_files w' = w_files w.
Proof.
  intros Hw Hp. assert (is_Some (w_files w !! dek_path st r) ∧ is_Some (w_files w !! object_path st r k)) as [Hd Ho].
  { unfold object_at, dek_at in Hp. destruct (w_files w !! dek_path st r); [|done]. cbn in Hp. destruct (to_option _); [|done].
    cbn in Hp. destruct (w_files w !! object_path st r k); [|done]. eauto. }
  unfold Store.get. intros H. apply eff_bind_inv in H as (b & w0 & E & H). apply stat_seen in E as (Ew & Hw0 & [= ->]); [|done].
  rewrite (proj2 (file_present_spec w0 _)) in H by (by rewrite Ew). cbn [negb] in H. unfold object_at, dek_at in Hp. rewrite <-Ew in Hp, Hd, Ho |- *.
  fold (dek_at st w0 r) in Hp. fold (object_at st w0 r k) in Hp. clear Ew Hw w. rename w0 into w, Hw0 into Hw.
  eff_step H. apply repo_dek_holds in E as (Hk & _ & F). specialize (F Hw Hd). eff_step H. apply eff_err_inv, read_files in E as [F1 Hb].
  eff_step H. unfold crypto_op in E. apply lift_inv in E as [E ->]. apply mret_inv in H as [<- ->]. split; [|congruence].
  unfold object_at, dek_at in *. rewrite <-F, Hk in Hp. cbn [mbind option_bind] in Hp. rewrite (Hb _ eq_refl) in Hp. cbn [mbind option_bind] in Hp.
  destruct (Aead.open a (object_aad r k) a0); [|done]. cbn in Hp. injection Hp as ->. by injection E as ->.
Qed.

Lemma removal_adds_nothing p q w : w_files w !! q = None → w_files (remove_dir_all p w).2 !! q = None.
Proof.
  intros Hn. unfold remove_dir_all. pose proof (next_files w) as Hx. destruct (next w) as [o w2]. cbn in Hx. rewrite <-Hx in Hn.
  destruct o as [| |n|]; cbn [snd set_files w_files]; [rewrite map_lookup_filter_None; by left|done| |done].
  generalize (take n (filter (λ q, below p q = true) (map_to_list (w_files w2)).*1)). intros l.
  induction l as [|x l IH]; [done|]. cbn. destruct (decide (x = q)) as [->|]; [apply lookup_delete_eq|by rewrite lookup_delete_ne].
Qed.

Lemma self_store_holds k w : Fs.seen w →
  (∀ m w', self_store k w = (Err (StepFailed m), w') → m = PLAINTEXT_CHECK) ∧
  (∀ u w', self_store k w = (Ok u, w') → w_files w !! (SELF_DIR ++ ["audit.log"]) = None → w_files w' !! (SELF_DIR ++ ["audit.log"]) = None).
Proof.
  intros Hw. assert (∀ E A (c : eff World E A) x r y, spends c → Fs.seen x → c x = (r, y) → Fs.seen y) as K.
  { intros E A c x r y Hc Hx Ec. specialize (Hc x Hx). by rewrite Ec in Hc. }
  assert (∀ d, spends (store_open d k)) as Ho by (intros d; unfold store_open, fs_op, create_dir_all; eauto with spends).
  unfold self_store. split.
  - intros m w' H. apply eff_bind_err in H as [H|(? & s1 & E1 & H)]; [done|].
    assert (Fs.seen s1) as W1 by (injection E1 as _ <-; by apply (spends_remove SELF_DIR)).
    apply eff_bind_err in H as [H|(st & s2 & E2 & H)]; [by apply stop_no_check in H|]. apply stop_inv, K in E2; [|done..].
    apply eff_bind_err in H as [H|(? & s3 & E3 & H)]; [by apply stop_no_check in H|]. apply stop_inv in E3.
    pose proof (K _ _ _ _ _ _ (spends_put _ _ _ _) E2 E3) as W3. apply put_holds in E3 as [Hb _]. clear Ho. rename Hb into Ho.
    apply eff_bind_err in H as [H|(got & s4 & E4 & H)]; [by apply stop_no_check in H|]. apply stop_inv, (get_holds _ _ _ _ _ _ _ W3 Ho) in E4 as [-> _].
    apply eff_bind_err in H as [H|(? & s5 & _ & H)]; [apply check_failed in H as [H _]; by apply bool_decide_eq_false in H|].
    apply eff_bind_err in H as [H|(? & s6 & _ & H)]; [done|]. by apply check_failed in H as [_ ->].
  - intros u w' H Hn. eff_step H. assert (Fs.seen s) as W1 by (injection E as _ <-; by apply (spends_remove SELF_DIR)). injection E as _ <-.
    eff_step H. apply stop_inv in E. pose proof (K _ _ _ _ _ _ (Ho _) W1 E) as W2. unfold store_open in E. eff_step E.
    apply eff_err_inv, create_dir_all_files in E0. apply mret_inv in E as [<- ->]. eff_step H. apply stop_inv in E.
    pose proof (K _ _ _ _ _ _ (spends_put _ _ _ _) W2 E) as W3. apply put_holds in E as [Hb F]. clear Ho. rename Hb into Ho.
    eff_step H. apply stop_inv, (get_holds _ _ _ _ _ _ _ W3 Ho) in E as [_ F2]. eff_step H. apply check_inv in E as [_ ->].
    eff_step H. injection E as _ <-. apply check_inv in H as [_ ->]. rewrite F2, F, E0 by (unfold outside; cbn; lia).
    by apply removal_adds_nothing.
Qed.

(** *** The log *)

Lemma checkpoint_signed log ts cp : Sig.sk_wf (tl_signer log) → checkpoint log ts = Ok cp → checkpoint_verify cp (log_verifying_key log) = Ok ().
Proof.
  intros Hsk. unfold checkpoint, mbind, result_mbind. destruct (Sig.sign _ _) as [sig|] eqn:Es; [|done]. simpl. intros [= <-]. simpl.
  unfold checkpoint_verify. simpl. rewrite hex_decode_encode. simpl. unfold log_verifying_key. by rewrite (Sig.sign_verify _ _ _ Hsk Es).
Qed.
Lemma open_new p id sk w log w' : w_files w !! p = None → open_plain p id sk w = (Ok log, w') → log = empty_log p id sk None.
Proof.
  intros Hn. unfold open_plain, open_inner. intros H. apply eff_bind_inv in H as (b & w0 & E0 & H). apply stat_files in E0 as [E0 _].
  rewrite <-E0 in Hn. clear E0. revert H. destruct b.
  - unfold load. intros H. eff_step H. apply eff_err_inv in E. unfold read_to_string in E. eff_step E. apply read_files in E0 as [_ Hb].
    specialize (Hb _ eq_refl). cbn [tl_path empty_log] in Hb. congruence.
  - intros H. eff_step H. by apply mret_inv in H as [<- _].
Qed.
Lemma append_pushes log ev ts w e log' w' : append log ev ts w = (Ok (e, log'), w') → log' = push_entry log (next_entry log ev ts).
Proof. unfold append. intros H. do 4 eff_step H. by apply mret_inv in H as [[= _ <-] _]. Qed.

Lemma self_log_holds t1 t2 t3 w m w' : w_files w !! (SELF_DIR ++ ["audit.log"]) = None → self_log t1 t2 t3 w ≠ (Err (StepFailed m), w').
Proof.
  intros Hn H. unfold self_log in H. apply eff_bind_err in H as [H|([sk b] & s1 & E1 & H)]; [by apply stop_no_check in H|].
  apply stop_inv, with_gen_files in E1 as [F1 [g E1]]. apply Sig.generate_with_bundle_wf in E1 as [Hsk _]. rewrite <-F1 in Hn.
  apply eff_bind_err in H as [H|(log & s2 & E2 & H)]; [by apply stop_no_check in H|]. apply stop_inv, (open_new _ _ _ _ _ _ Hn) in E2 as ->.
  apply eff_bind_err in H as [H|([e1 log1] & s3 & E3 & H)]; [by apply stop_no_check in H|]. apply stop_inv, append_pushes in E3 as ->.
  apply eff_bind_err in H as [H|([e2 log2] & s4 & E4 & H)]; [by apply stop_no_check in H|]. apply stop_inv, append_pushes in E4.
  assert (tl_signer log2 = sk ∧ ∃ x y, tl_leaves log2 = [x; y] ∧ tl_len log2 = 2) as (Hs & x & y & Hl & Hlen) by (subst log2; split; [done|]; do 2 eexists; done).
  clear E4. apply eff_bind_err in H as [H|(cp & s5 & E5 & H)]; [by apply stop_no_check in H|]. apply stop_inv, lift_inv in E5 as [E5 ->].
  apply eff_bind_err in H as [H|(? & s6 & _ & H)].
  { apply check_failed in H as [H _]. rewrite (checkpoint_signed log2 t3 cp) in H; [done|by rewrite Hs|done]. }
  destruct (inclusion_verifies (tl_leaves log2) 0 x) as (proof & Hp & Hv); [unfold fits; by rewrite Hl|by rewrite Hl|].
  assert (log_inclusion_proof log2 0 = Some (x, proof)) as Hi.
  { unfold log_inclusion_proof. rewrite Hp. rewrite Hl. done. }
  rewrite Hi in H. apply eff_bind_err in H as [H|([leaf pf] & s7 & E7 & H)]; [done|]. injection E7 as <- <- <-.
  apply check_failed in H as [H _]. unfold tl_root in H. rewrite Hlen in H.
  assert (lengthN (tl_leaves log2) = 2) as H2 by (by rewrite Hl). rewrite H2 in Hv. congruence.
Qed.

(** The self-test on a directory of its own, while the metadata of files can be read: whatever calls of the disk and the generator
    fail, no check but that for plaintext on the disk does. *)
Lemma selftest_checks ts1 now1 ts2 now2 t1 t2 t3 w m w' : Fs.seen w → w_files w !! (SELF_DIR ++ ["audit.log"]) = None →
  selftest ts1 now1 ts2 now2 t1 t2 t3 w = (Err (StepFailed m), w') → m = PLAINTEXT_CHECK.
Proof.
  intros Hw Hn. unfold selftest. intros H. apply eff_bind_err in H as [H|(k & s1 & E1 & H)]; [by apply self_release_holds in H|].
  apply self_release_holds in E1. injection E1 as E1 Es. assert (Fs.seen s1) as Hs1 by (unfold Fs.seen; by rewrite Es). rewrite <-E1 in Hn. apply eff_bind_err in H as [H|(? & s2 & E2 & H)]; [by apply self_store_holds in H|].
  apply self_store_holds in E2; [|done|done]. apply eff_bind_err in H as [H|(? & s3 & _ & H)]; [by apply self_log_holds in H|].
  apply eff_bind_err in H as [H|(? & s4 & _ & H)]; done.
Qed.
End tool.
