(* ===== verification/AcceptanceToy.v ===== *)
(** Runs of the acceptance harness at executable instances: a live run that passes, and the
    refusals on an empty disk. *)

From S2P Require Import Prelude Text Backend Toy Primitives Http Aead Sig Kem Fs AuditLog Attest Replay Vcek KeyBroker Json Config KeyStart Tls Net Leak Provenance Acceptance VerifyTool.

(** ** Transcripts as trees, for the serializer *)

Fixpoint value_tree (v : Value) : gen_tree string :=
  match v with
  | VNull => GenNode 0 []
  | VBool b => GenNode (if b then 2 else 1) []
  | VNumber s => GenNode 3 [GenLeaf s]
  | VString s => GenLeaf s
  | VArray l => GenNode 4 (value_tree <$> l)
  | VObject m => GenNode 5 ((λ kv : string * Value, GenNode 6 [GenLeaf kv.1; value_tree kv.2]) <$> m)
  end.
Fixpoint tree_value (t : gen_tree string) : Value :=
  match t with
  | GenLeaf s => VString s
  | GenNode 1 _ => VBool false
  | GenNode 2 _ => VBool true
  | GenNode 3 [GenLeaf s] => VNumber s
  | GenNode 4 l => VArray (tree_value <$> l)
  | GenNode 5 l => VObject ((λ t, match t with GenNode _ [GenLeaf k; v] => (k, tree_value v) | _ => (EmptyString, VNull) end) <$> l)
  | GenNode _ _ => VNull
  end.
Lemma tree_value_tree : ∀ v, tree_value (value_tree v) = v.
Proof.
  fix IH 1. intros [|b|s|s|l|m]; [done|by destruct b|done|done|..]; cbn; f_equal.
  - induction l as [|v l IHl]; [done|]. cbn. by rewrite IH, IHl.
  - induction m as [|[k v] m IHm]; [done|]. cbn. by rewrite IH, IHm.
Qed.

(** A list of tokens: numbers in unary, the bytes of a text each after a mark. *)
Definition token : Type := nat * nat + string.
Fixpoint marked (s : bytes) : bytes := match s with [] => [x00] | b :: s => x01 :: b :: marked s end.
Definition token_bytes (t : token) : bytes :=
  match t with
  | inl (n, m) => repeat x02 n ++ x03 :: repeat x02 m ++ [x00]
  | inr s => x04 :: marked (as_bytes s)
  end.
Fixpoint text_of (l : bytes) : bytes * bytes :=
  match l with
  | x01 :: b :: l => let '(s, rest) := text_of l in (b :: s, rest)
  | _ :: l => ([], l)
  | [] => ([], [])
  end.
Fixpoint unary (l : bytes) : nat * bytes :=
  match l with x02 :: l => let '(n, rest) := unary l in (S n, rest) | _ :: l => (O, l) | [] => (O, []) end.
Definition read_token (l : bytes) : token * bytes :=
  match l with
  | x04 :: l => let '(s, rest) := text_of l in (inr (string_of_list_byte s), rest)
  | _ => let '(n, l) := unary l in let '(m, l) := unary l in (inl (n, m), l)
  end.
Fixpoint read_tokens (fuel : nat) (l : bytes) : list token :=
  match fuel, l with
  | O, _ | _, [] => []
  | S fuel, _ => let '(t, rest) := read_token l in t :: read_tokens fuel rest
  end.

Lemma text_of_written s rest : text_of (marked s ++ rest) = (s, rest).
Proof. induction s as [|b s IH]; [done|]. cbn. by rewrite IH. Qed.
Lemma unary_written n c rest : c ≠ x02 → unary (repeat x02 n ++ c :: rest) = (n, rest).
Proof. intros Hc. induction n as [|n IH]; cbn; [by destruct c|by rewrite IH]. Qed.
Lemma read_token_written t rest : read_token (token_bytes t ++ rest) = (t, rest).
Proof.
  destruct t as [[n m]|s]; cbn [token_bytes].
  - rewrite <-app_assoc. cbn [app]. rewrite <-app_assoc. cbn [app].
    assert (∀ l, read_token (repeat x02 n ++ x03 :: l) = let '(n, l) := unary (repeat x02 n ++ x03 :: l) in let '(m, l) := unary l in (inl (n, m), l)) as ->
      by (by destruct n).
    by rewrite !unary_written.
  - cbn [app read_token]. rewrite text_of_written. unfold as_bytes. by rewrite string_of_list_byte_of_string.
Qed.
Lemma read_tokens_written ts fuel : (length ts ≤ fuel)%nat → read_tokens fuel (mjoin (token_bytes <$> ts)) = ts.
Proof.
  revert fuel. induction ts as [|t ts IH]; intros fuel Hf; [by destruct fuel|]. destruct fuel as [|fuel]; [cbn in Hf; lia|].
  change (mjoin (token_bytes <$> t :: ts)) with (token_bytes t ++ mjoin (token_bytes <$> ts)).
  assert (∃ b l, token_bytes t ++ mjoin (token_bytes <$> ts) = b :: l) as (b & l & E) by (destruct t as [[[] ?]|]; eexists _, _; reflexivity).
  cbn [read_tokens]. rewrite E, <-E, read_token_written, IH by (cbn in Hf; lia). done.
Qed.
Lemma tokens_length ts : (length ts ≤ length (mjoin (token_bytes <$> ts)))%nat.
Proof.
  induction ts as [|t ts IH]; [done|]. change (mjoin (token_bytes <$> t :: ts)) with (token_bytes t ++ mjoin (token_bytes <$> ts)).
  rewrite length_app. cbn [length]. assert (1 ≤ length (token_bytes t))%nat; [|lia].
  destruct t as [[n m]|s]; cbn [token_bytes length]; rewrite ?length_app; cbn [length]; lia.
Qed.

Lemma tree_read_written {A} (f : A → gen_tree string) (g : gen_tree string → option A) (H : ∀ a, g (f a) = Some a) a :
  (let b := mjoin (token_bytes <$> gen_tree_to_list (f a)) in gen_tree_of_list [] (read_tokens (length b) b) ≫= g) = Some a.
Proof.
  cbn zeta. rewrite read_tokens_written by apply tokens_length.
  pose proof (gen_tree_of_to_list [] [] (f a)) as E. rewrite app_nil_r in E. rewrite E. cbn. apply H.
Qed.
Definition tree_serde {A} (f : A → gen_tree string) (g : gen_tree string → option A) (H : ∀ a, g (f a) = Some a) : Serde A := {|
  to_vec a := mjoin (token_bytes <$> gen_tree_to_list (f a));
  from_slice b := gen_tree_of_list [] (read_tokens (length b) b) ≫= g;
  from_slice_to_vec := tree_read_written f g H;
|}.

Lemma as_bytes_of_list l : as_bytes (string_of_list_byte l) = l.
Proof. apply list_byte_of_string_of_list_byte. Qed.

Definition number_text (n : N) : string := string_of_list_byte (pos_digits (N.succ_pos n) ++ [x7d]).
Definition text_number (s : string) : N := Pos.pred_N (digits_pos (as_bytes s)).
Lemma text_number_text n : text_number (number_text n) = n.
Proof. unfold text_number, number_text. rewrite as_bytes_of_list, digits_pos_digits. apply N.pos_pred_succ. Qed.

Definition step_tree (s : StepResult) : gen_tree string :=
  GenNode (if st_pass s then 1 else 0) [GenLeaf (st_id s); GenLeaf (st_name s); GenLeaf (st_gate s); GenLeaf (st_detail s)].
Definition tree_step (t : gen_tree string) : option StepResult :=
  match t with
  | GenNode p [GenLeaf a; GenLeaf b; GenLeaf c; GenLeaf d] => Some (mkStep a b (Nat.eqb p 1) c d)
  | _ => None
  end.
Lemma tree_step_tree s : tree_step (step_tree s) = Some s.
Proof. by destruct s as [? ? [] ? ?]. Qed.
Definition body_tree (b : TranscriptBody) : gen_tree string :=
  GenNode (if tb_overall_pass b then 1 else 0)
    [GenLeaf (tb_schema b); GenLeaf (tb_mode b); GenLeaf (number_text (tb_timestamp b));
     GenNode 0 (match tb_target_url b with Some u => [GenLeaf u] | None => [] end); GenNode 0 (step_tree <$> tb_steps b); value_tree (tb_evidence b)].
Definition tree_body (t : gen_tree string) : option TranscriptBody :=
  match t with
  | GenNode p [GenLeaf a; GenLeaf b; GenLeaf n; GenNode _ u; GenNode _ l; v] =>
      steps ← mapM tree_step l;
      Some (mkBody a b (text_number n) (match u with [GenLeaf u] => Some u | _ => None end) (Nat.eqb p 1) steps (tree_value v))
  | _ => None
  end.
Lemma tree_body_tree b : tree_body (body_tree b) = Some b.
Proof.
  destruct b as [schema mode n url pass steps ev]. unfold body_tree, tree_body. cbn.
  assert (mapM tree_step (step_tree <$> steps) = Some steps) as ->.
  { apply mapM_Some_2. induction steps; cbn; constructor; [apply tree_step_tree|done]. }
  cbn. rewrite text_number_text, tree_value_tree. by destruct url, pass.
Qed.
Definition signed_tree (s : SignedTranscript) : gen_tree string := GenNode 0 [body_tree (sg_body s); GenLeaf (sg_signature_hex s)].
Definition tree_signed (t : gen_tree string) : option SignedTranscript :=
  match t with GenNode _ [b; GenLeaf sig] => body ← tree_body b; Some (mkSigned body sig) | _ => None end.
Lemma tree_signed_tree s : tree_signed (signed_tree s) = Some s.
Proof. destruct s as [b sig]. unfold tree_signed, signed_tree. cbn [sg_body]. by rewrite tree_body_tree. Qed.
Definition key_tree (k : Sig.VerifyingKey) : gen_tree string :=
  GenNode 0 [GenLeaf (number_text (Sig.vk_scheme k)); GenLeaf (string_of_list_byte (Sig.vk_ed25519_pub k)); GenLeaf (string_of_list_byte (Sig.vk_mldsa_pub k))].
Definition tree_key (t : gen_tree string) : option Sig.VerifyingKey :=
  match t with
  | GenNode _ [GenLeaf n; GenLeaf a; GenLeaf b] => Some (Sig.mkVerifyingKey (text_number n) (as_bytes a) (as_bytes b))
  | _ => None
  end.
Lemma tree_key_tree k : tree_key (key_tree k) = Some k.
Proof. destruct k. unfold tree_key, key_tree. cbn [Sig.vk_scheme Sig.vk_ed25519_pub Sig.vk_mldsa_pub]. by rewrite text_number_text, !as_bytes_of_list. Qed.

Section witnesses.
#[local] Instance body_serde : Serde TranscriptBody := tree_serde body_tree tree_body tree_body_tree.
#[local] Instance signed_serde : Serde SignedTranscript := tree_serde signed_tree tree_signed tree_signed_tree.
#[local] Instance key_serde : Serde Sig.VerifyingKey := tree_serde key_tree tree_key tree_key_tree.
#[local] Instance signed_pretty : SerdePretty SignedTranscript := {| to_vec_pretty := to_vec; from_slice_pretty := from_slice_to_vec |}.
#[local] Instance key_pretty : SerdePretty Sig.VerifyingKey := {| to_vec_pretty := to_vec; from_slice_pretty := from_slice_to_vec |}.

#[local] Existing Instance toy_rng.
#[local] Existing Instance toy_ed25519.
#[local] Existing Instance toy_ed25519_gen.
#[local] Existing Instance toy_mldsa.
#[local] Existing Instance toy_digests.
#[local] Existing Instance toy_hmacs.
#[local] Existing Instance toy_aead.
#[local] Existing Instance toy_x25519.
#[local] Existing Instance toy_mlkem.
#[local] Existing Instance toy_hex.
#[local] Existing Instance toy_x509.

(** ** A live run *)

(** A server that shows [leaf] and a report of the chip for its channel. *)
Definition leaf : bytes := small_cert [] x07.
Definition channel : string := "tls=" +:+ Tls.spki_sha256_hex leaf.
Definition live_evidence : Evidence := mkEvidence SevSnp (chip_report (Attest.bind [x01; x02] (as_bytes channel))) [].
#[local] Instance live_tls : CaptureTls := {|
  capture_name := λ _, true;
  capture_talk := λ _ _ _ _, Ok (as_bytes "HTTP/1.1 200 OK" ++ CRLF ++ CRLF ++ as_bytes "{}", Some leaf);
|}.
(** Its answers and the reference file, read as one object. *)
#[local] Instance live_json : JsonText := {|
  json_from_slice b := Ok (json [("nonce_hex", VString (hex_encode [x01; x02])); ("channel_binding", VString channel);
    ("tls_spki_sha256_hex", VString (Tls.spki_sha256_hex leaf)); ("measurement_hex", VString (hex_encode (repeat x5e 48)));
    ("repo_id", VString "sandbox/1"); ("push_token", VString "t")]);
  json_to_string v := [] |}.

Definition live_canary : Canary := mkCanary (as_bytes "SECGIT-CANARY-1").
Definition live_args : Args := mkArgs (Some "https://host:8443") (Some "/var/lib/secgit") None (Some "snp-reference.json") None None false None.
Definition live_disk (d : string) : Entry := EDir (Some [EFile (Some (as_bytes "ciphertext"))]).
Definition live_run (disk : string → Entry) : result string Ended * World :=
  run_silicon chip_ecdsa (λ _, EmptyString) (λ _, EmptyString) (λ _, Some live_evidence) toy_fetch (λ _, EmptyString) live_args true
    (λ _, Ok []) toy_cache (λ _, Ok ()) disk live_canary 100 toy_disk.

Lemma live_pass_means_witness :
  (live_run live_disk).1 = Ok Finished ∧
  ar_reference live_args ≫= read_reference_measurement (λ _, Ok []) = Some (hex_encode (repeat x5e 48)) ∧
  verify_transcript (left_bytes (live_run live_disk).2) "acceptance-transcript.json" "acceptance-transcript.json.vk.json" = Ok Finished ∧
  ∀ f x y, f ∈ visited (live_disk "/var/lib/secgit") → f ≠ x ++ ca_value live_canary ++ y.
Proof.
  assert (live_run live_disk = (Ok Finished, (live_run live_disk).2)) as E by vm_refl. split; [by rewrite E|]. split; [vm_refl|].
  destruct (live_pass_means (λ _, EmptyString) (λ _, EmptyString) chip_ecdsa (λ _, Some live_evidence) toy_fetch (λ _, EmptyString) live_args
    (λ _, Ok []) toy_cache (λ _, Ok ()) live_disk live_canary 100 toy_disk (live_run live_disk).2)
    as [[Hv _] (url & product & lf & n & ch & ev & k & der & ask & vcek & _ & _ & _ & _ & _ & _ & _ & _ & _ & _ & _ & _ & _ & _ & H)]; [exact E|].
  split; [exact Hv|]. by apply H.
Defined.

(** A disk that has the canary fails the run. *)
Example leak_fails : (live_run (λ _, EDir (Some [EFile (Some (as_bytes "x SECGIT-CANARY-1 y"))]))).1 = Ok (ExitWith 1).
Proof. vm_refl. Qed.

(** ** Refusals *)

#[local] Instance report_serde : Serde MockReport := toy_json_serde MockReport.
#[local] Instance report_object : @JsonObject MockReport report_serde := toy_json_object MockReport.
#[local] Instance seen_serde : Serde SeenState := toy_serde SeenState.

Lemma report_first l : (from_slice (x84 :: l) : option MockReport) = None.
Proof. done. Qed.

Lemma refusals_refuse_witness :
  ∃ b w', refuse_stale ["t"; "d"] 5000 5000 toy_disk = (Ok b, w') ∧ b = true.
Proof.
  do 2 eexists. split; [vm_compute; reflexivity|].
  edestruct (refusals_refuse report_first ["t"; "d"] 0 0 0 5000 5000 toy_disk) as (_ & H & _); [done..|].
  eapply H. vm_compute. reflexivity.
Defined.

(** Every scenario that is built from the mock is run to a verdict, and the first use of the
    replayed evidence is accepted. *)
Example scenarios_run :
  Forall (λ s, (run_expect_refuse s 5000 5000 5010 toy_disk).1 = Ok Finished)
    ["wrong-measurement"; "replay"; "stale"; "tampered-report"; "unknown-resource"].
Proof. repeat constructor; vm_refl. Qed.
(** The self-test finds out a cipher that keeps its text: the toy one writes it in clear. *)
#[local] Instance event_serde : Serde AuditEvent := toy_serde AuditEvent.
#[local] Instance raw_serde : Serde RawEntry := toy_serde RawEntry.
Example selftest_finds_plaintext :
  (selftest (λ _, EmptyString) (λ _, EmptyString) (λ _, EmptyString) (λ _, EmptyString) 5000 5000 5001 5001 1 2 3 toy_disk).1
  = Err (StepFailed PLAINTEXT_CHECK).
Proof. vm_refl. Qed.
End witnesses.
