(* ===== verification/Xtask.v ===== *)
(** The build tasks, [xtask/src/main.rs]: digests of artifacts, launch measurements and their
    references, provenance statements, the bill of materials and the dependency check.

    The world is the working directory, a file by its name as given, with the random
    generator.  [env] is the environment; the measuring tool and git are the class
    [BuildTools].  An error is its outermost text; what is printed is left out. *)

From S2P Require Import Prelude Text Backend Toy Envelope Primitives Sig Fs AuditLog Search Json Config KeyStart Provenance.

Record ArtifactDigest := mkArtifact { ad_path : string; ad_sha384_hex : string; ad_len : N }.
Record ImageManifest := mkManifest { im_artifacts : list ArtifactDigest; im_source_date_epoch : option string; im_note : string }.
Record ExpectedArtifact := mkExpected { ea_role : string; ea_path : string; ea_sha384_hex : string }.
Record SnpMeasureParams := mkParams {
  mp_ovmf : string; mp_kernel : option string; mp_initrd : option string; mp_append : option string; mp_vcpus : option N;
  mp_vcpu_type : option string; mp_vmm_launch_method : option string; mp_ovmf_pin : option string;
  mp_expected_artifacts : list ExpectedArtifact;
}.
Definition params_default : SnpMeasureParams := mkParams EmptyString None None None None None None None [].
Record SnpReference := mkReference {
  sr_measurement_hex : string; sr_mode : string; sr_params : SnpMeasureParams; sr_tool : string; sr_note : string;
  sr_git_commit : option string; sr_vmm_launch_method : option string; sr_launch_artifacts : list ArtifactDigest;
}.

Definition FORBIDDEN_ML_TELEMETRY : list string :=
  ["tch"; "torch-sys"; "tensorflow"; "tensorflow-sys"; "onnxruntime"; "onnxruntime-sys"; "ort"; "candle-core"; "candle-nn";
   "candle-transformers"; "llm"; "llama-cpp-2"; "llama_cpp"; "burn"; "dfdx"; "linfa"; "smartcore"; "rust-bert"; "tokenizers";
   "tiktoken-rs"; "openai-api-rs"; "async-openai"; "qdrant-client"; "pinecone-sdk"; "sentry"; "opentelemetry-otlp"; "segment"].

(** ** Pure parts *)

Definition lowercase `{UL : UnicodeLower} (s : string) : string := string_of_list_byte (to_lowercase (as_bytes s)).
Definition digest_map `{UL : UnicodeLower} (alg hex_val : string) : list (string * string) := [(alg, lowercase hex_val)].

(** [Path::file_name]: the last component, unless it goes up. *)
Definition file_name (p : string) : option string :=
  c ← last (filter (λ c, c ≠ [] ∧ c ≠ as_bytes ".") (split_on x2f (as_bytes p)));
  if bool_decide (c = as_bytes "..") then None else Some (string_of_list_byte c).
(** Whether [Path::parent] is there and not empty. *)
Definition has_parent (p : string) : bool :=
  let n := length (filter (λ c, c ≠ []) (split_on x2f (as_bytes p))) in
  (1 <? n)%nat || starts_with [x2f] (as_bytes p) && (1 <=? n)%nat.
Definition artifact_subject `{UL : UnicodeLower} (a : ArtifactDigest) : Subject :=
  mkSubject (default (ad_path a) (file_name (ad_path a))) (digest_map "sha384" (ad_sha384_hex a)).

Definition opt_flag (flag : string) (v : option string) : list string := match v with Some s => [flag; s] | None => [] end.
Definition build_sev_snp_measure_args (p : SnpMeasureParams) : result string (list string) :=
  if bool_decide (mp_ovmf p = EmptyString) then Err "snp-measure requires --ovmf <firmware> (or use --measurement <hex>)"
  else Ok (["--mode"; "snp"; "--output-format"; "hex"; "--ovmf"; mp_ovmf p] ++ opt_flag "--vcpus" (pretty <$> mp_vcpus p) ++
           opt_flag "--vcpu-type" (mp_vcpu_type p) ++ opt_flag "--kernel" (mp_kernel p) ++ opt_flag "--initrd" (mp_initrd p) ++
           opt_flag "--append" (mp_append p)).

Definition validate_measurement_hex `{HX : Hex} (m : string) : result string unit :=
  b ← ok_or "measurement is not valid hex" (hex_decode m);
  if negb (Nat.eqb (length b) 48) then Err ("SNP measurement must be 48 bytes (SHA-384), got " +:+ pretty (lengthN b)) else Ok ().

Definition upper_byte (b : byte) : byte := if in_range 97 122 b then byte_of_N (Byte.to_N b - 32) else b.
Definition is_placeholder_digest (h : string) : bool :=
  bool_decide (h = EmptyString) || starts_with (as_bytes "REPLACE") (upper_byte <$> as_bytes h).

Definition quote (b : byte) : bool := bool_decide (b = x22).
Definition unquoted (v : bytes) : string := string_of_list_byte (trim_matches quote (trim v)).

(** [locked_package_names], on the text. *)
Definition package_names (content : bytes) : list string :=
  omap (λ line, unquoted <$> strip_prefix (as_bytes "name = ") (trim line)) (lines content).

Record LockedPackage := mkLocked { lp_name : string; lp_version : string; lp_source : option string; lp_checksum : option string }.
Definition lock_field (line : bytes) (key : string) : option string :=
  r ← strip_prefix (as_bytes key) (trim line);
  v ← strip_prefix [x3d] (trim r);
  Some (unquoted v).
Definition lock_line (line : bytes) (st : list LockedPackage * option LockedPackage) : list LockedPackage * option LockedPackage :=
  let '(pkgs, cur) := st in
  if bool_decide (trim line = as_bytes "[[package]]")
  then (match cur with Some p => pkgs ++ [p] | None => pkgs end, Some (mkLocked EmptyString EmptyString None None))
  else
    match cur with
    | None => (pkgs, None)
    | Some p =>
        (pkgs, Some
          match lock_field line "name" with
          | Some v => mkLocked v (lp_version p) (lp_source p) (lp_checksum p)
          | None =>
              match lock_field line "version" with
              | Some v => mkLocked (lp_name p) v (lp_source p) (lp_checksum p)
              | None =>
                  match lock_field line "source" with
                  | Some v => mkLocked (lp_name p) (lp_version p) (Some v) (lp_checksum p)
                  | None =>
                      match lock_field line "checksum" with
                      | Some v => mkLocked (lp_name p) (lp_version p) (lp_source p) (Some v)
                      | None => p
                      end
                  end
              end
          end)
    end.
Definition lock_packages (content : bytes) : list LockedPackage :=
  let '(pkgs, cur) := fold_left (λ st line, lock_line line st) (lines content) ([], None) in
  match cur with Some p => pkgs ++ [p] | None => pkgs end.

Definition set_key (k : string) (v : Value) (c : Value) : Value := match c with VObject m => VObject (obj_insert k v m) | _ => c end.
Definition component (p : LockedPackage) : Value :=
  let c := json [("type", VString "library"); ("name", VString (lp_name p)); ("version", VString (lp_version p));
                 ("purl", VString ("pkg:cargo/" +:+ lp_name p +:+ "@" +:+ lp_version p))] in
  let c := match lp_source p with
           | Some src => set_key "properties" (VArray [json [("name", VString "cargo:source"); ("value", VString src)]]) c
           | None => c
           end in
  match lp_checksum p with
  | Some sum => set_key "hashes" (VArray [json [("alg", VString "SHA-256"); ("content", VString sum)]]) c
  | None => c
  end.
Definition sbom_document (epoch : string) (pkgs : list LockedPackage) : Value :=
  json [("bomFormat", VString "CycloneDX"); ("specVersion", VString "1.5");
        ("metadata", json [("component", json [("type", VString "application"); ("name", VString "secgit")]);
                           ("properties", VArray [json [("name", VString "source_date_epoch"); ("value", VString epoch)]])]);
        ("components", VArray (component <$> filter (λ p, lp_name p ≠ EmptyString) pkgs))].

(** ** Commands *)

(** [sev-snp-measure] and [git]: whether the process ended well, and its two outputs. *)
Class BuildTools := {
  sev_snp_measure : list string → result string (bool * bytes * bytes);
  git_rev_parse : option (bool * bytes);
}.
Class JsonPretty := value_to_vec_pretty : Value → bytes.

Section tasks.
Context `{UL : UnicodeLower} `{RND : SystemRandom} `{DIG : Digests} `{AB : AeadBackend} `{HX : Hex} `{ED : Ed25519} `{EG : !Ed25519Gen} `{ML : MlDsa}.
Context `{SEV : Serde AuditEvent} `{SRE : Serde RawEntry} `{SBu : Serde Sig.SigningKeyBundle} `{SVK : Serde Sig.VerifyingKey}.
Context `{SIM : Serde ImageManifest} `{SMP : Serde SnpMeasureParams} `{SSR : Serde SnpReference} `{SPS : Serde ProvenanceStatement}.
Context `{PIM : !SerdePretty ImageManifest} `{PSR : !SerdePretty SnpReference} `{PPS : !SerdePretty ProvenanceStatement}.
Context `{PVK : !SerdePretty Sig.VerifyingKey} `{PBu : !SerdePretty Sig.SigningKeyBundle} `{JP : JsonPretty} `{BT : BuildTools}.
(** The texts of errors that are passed on without a context. *)
Context (env : Env) (crypto_text : CryptoError → string) (audit_text : AuditError → string) (io_text : IoError → string) (json_text : bytes → string).

Definition T (A : Type) : Type := eff World string A.
Definition read_named (name : string) : T bytes := eff_map_err (λ _, "reading " +:+ name) (Fs.read (file name)).
Definition write_named (name : string) (b : bytes) : T unit := eff_map_err (λ _, "writing " +:+ name) (Fs.write (file name) b).
Definition read_plain (name : string) : T bytes := eff_map_err io_text (Fs.read (file name)).
Definition write_plain (name : string) (b : bytes) : T unit := eff_map_err io_text (Fs.write (file name) b).
Definition parse_as {A} `{Serde A} (what : string) (b : bytes) : T A := lift (ok_or ("parsing " +:+ what) (from_slice b)).
Definition gen {A} (c : eff rng CryptoError A) : T A := with_gen (eff_map_err crypto_text c).

Definition sha384_file (name : string) : T (string * N) :=
  b ← read_named name; mret (hex_encode (sha384 b), lengthN b).

Fixpoint measure_all (paths : list string) : T (list ArtifactDigest) :=
  match paths with
  | [] => mret []
  | p :: paths => '(sha, len) ← sha384_file p; rest ← measure_all paths; mret (mkArtifact p sha len :: rest)
  end.
Definition measure (paths : list string) : T unit :=
  if bool_decide (paths = []) then throw "measure needs at least one artifact path"
  else
    artifacts ← measure_all paths;
    let manifest := mkManifest artifacts (env "SOURCE_DATE_EPOCH")
      "Deterministic content digests; real SNP MEASUREMENT via sev-snp-measure over launch context." in
    write_plain "image-manifest.json" (to_vec_pretty manifest).

Definition verify_image (args : list string) : T Ended :=
  let usage := "usage: verify-image <manifest.json> <sha384_hex>" in
  manifest_path ← lift (ok_or usage (head args));
  expected ← lift (ok_or usage (args !! 1%nat));
  b ← read_plain manifest_path;
  manifest ← lift (ok_or (json_text b) (from_slice b : option ImageManifest));
  mret (if existsb (λ a, bool_decide (ad_sha384_hex a = expected)) (im_artifacts manifest) then Finished else ExitWith 1).

(** *** Transparency *)

Definition audit {A} (c : eff World AuditError A) : T A := eff_map_err audit_text c.
Fixpoint append_events (log : TransparencyLog) (clock : list N) (evs : list AuditEvent) : T TransparencyLog :=
  match evs with
  | [] => mret log
  | ev :: evs => '(_, log) ← audit (append log ev (default 0 (head clock))); append_events log (tail clock) evs
  end.
(** Open a log with a new key, append, sign a checkpoint and write the key; [clock] are the readings. *)
Definition publish (log_name log_id : string) (evs : list AuditEvent) (clock : list N) (vk_name : string) : T unit :=
  '(signer, _) ← gen (Sig.generate_with_bundle LONG_LIVED_SIG);
  log ← audit (open_plain (file log_name) log_id signer);
  log ← append_events log clock evs;
  _ ← audit (lift (checkpoint log (default 0 (last clock))));
  write_plain vk_name (to_vec_pretty (log_verifying_key log)).
Definition append_transparency (log_name log_id action actor : string) (clock : list N) : T unit :=
  publish log_name log_id [Admin action actor] clock (log_name +:+ ".vk.json").
Definition emit_transparency (args : list string) (clock : list N) : T unit :=
  let usage := "usage: emit-transparency <manifest.json> <log>" in
  manifest_path ← lift (ok_or usage (head args));
  log_path ← lift (ok_or usage (args !! 1%nat));
  b ← read_plain manifest_path;
  manifest ← (parse_as "manifest" b : T ImageManifest);
  publish log_path "secgit-image-transparency"
    ((λ a, Admin ("image-artifact " +:+ ad_path a +:+ " sha384=" +:+ ad_sha384_hex a) "ci-reproducible-build") <$> im_artifacts manifest)
    clock "image-transparency-vk.json".

(** *** Launch measurements *)

Definition run_sev_snp_measure (p : SnpMeasureParams) : result string string :=
  args ← build_sev_snp_measure_args p;
  '(ok, stdout, stderr) ← map_err (λ e, "could not run `sev-snp-measure` (" +:+ e +:+
      "). Install it (`pip install sev-snp-measure`) or pass a known value with --measurement <hex>.") (sev_snp_measure args);
  if (ok : bool) then Ok (string_of_list_byte (trim (from_utf8_lossy stdout)))
  else Err ("sev-snp-measure failed: " +:+ string_of_list_byte (from_utf8_lossy stderr)).

Definition git_commit : option string :=
  '(ok, stdout) ← git_rev_parse;
  if (ok : bool) then
    let s := string_of_list_byte (trim (from_utf8_lossy stdout)) in
    if bool_decide (s = EmptyString) then None else Some s
  else None.

Fixpoint verify_and_collect_artifacts (expected : list ExpectedArtifact) (manifest : option ImageManifest) : T (list ArtifactDigest) :=
  match expected with
  | [] => mret []
  | ea :: expected =>
      present ← path_exists (file (ea_path ea));
      if negb present then verify_and_collect_artifacts expected manifest
      else
        '(sha, len) ← sha384_file (ea_path ea);
         _ ← (if is_placeholder_digest (ea_sha384_hex ea) then mret ()
              else if negb (eq_ignore_ascii_case (ea_sha384_hex ea) sha)
              then throw ("launch artifact '" +:+ ea_role ea +:+ "' (" +:+ ea_path ea +:+ ") sha384 MISMATCH: descriptor pins " +:+
                          ea_sha384_hex ea +:+ ", file is " +:+ sha)
              else mret () : T unit);
         _ ← match m ← manifest; list_find (λ a, ad_path a = ea_path ea) (im_artifacts m) with
             | Some (_, mm) =>
                 if negb (eq_ignore_ascii_case (ad_sha384_hex mm) sha)
                 then throw ("launch artifact '" +:+ ea_role ea +:+ "' (" +:+ ea_path ea +:+ ") sha384 " +:+ sha +:+
                             " disagrees with image-manifest.json (" +:+ ad_sha384_hex mm +:+ ")")
                 else mret () : T unit
             | None => mret ()
             end;
         rest ← verify_and_collect_artifacts expected manifest;
         mret (mkArtifact (ea_path ea) sha len :: rest)
  end.

(** The flags of [snp-measure]; the recursion is on the arguments left. *)
Record MeasureArgs := mkMeasureArgs {
  ma_params : SnpMeasureParams; ma_measurement : option string; ma_log : option string; ma_manifest : option string; ma_out : string;
}.
Definition with_params (f : SnpMeasureParams → SnpMeasureParams) (a : MeasureArgs) : MeasureArgs :=
  mkMeasureArgs (f (ma_params a)) (ma_measurement a) (ma_log a) (ma_manifest a) (ma_out a).
Definition measure_flag (flag v : string) (a : MeasureArgs) : T MeasureArgs :=
  let '(mkParams ovmf kernel initrd append vcpus vcpu_type method pin arts) := ma_params a in
  match flag with
  | "--inputs" =>
      b ← read_named v;
      p ← (parse_as ("snp inputs " +:+ v) b : T SnpMeasureParams);
      mret (with_params (λ _, p) a)
  | "--ovmf" => mret (with_params (λ _, mkParams v kernel initrd append vcpus vcpu_type method pin arts) a)
  | "--kernel" => mret (with_params (λ _, mkParams ovmf (Some v) initrd append vcpus vcpu_type method pin arts) a)
  | "--initrd" => mret (with_params (λ _, mkParams ovmf kernel (Some v) append vcpus vcpu_type method pin arts) a)
  | "--append" => mret (with_params (λ _, mkParams ovmf kernel initrd (Some v) vcpus vcpu_type method pin arts) a)
  | "--vcpus" =>
      n ← lift (ok_or "--vcpus must be a number" (parse_u32 (as_bytes v)));
      mret (with_params (λ _, mkParams ovmf kernel initrd append (Some n) vcpu_type method pin arts) a)
  | "--vcpu-type" => mret (with_params (λ _, mkParams ovmf kernel initrd append vcpus (Some v) method pin arts) a)
  | "--measurement" => mret (mkMeasureArgs (ma_params a) (Some v) (ma_log a) (ma_manifest a) (ma_out a))
  | "--log" => mret (mkMeasureArgs (ma_params a) (ma_measurement a) (Some v) (ma_manifest a) (ma_out a))
  | "--image-manifest" => mret (mkMeasureArgs (ma_params a) (ma_measurement a) (ma_log a) (Some v) (ma_out a))
  | "--out" => mret (mkMeasureArgs (ma_params a) (ma_measurement a) (ma_log a) (ma_manifest a) v)
  | other => throw ("unknown snp-measure flag: " +:+ other)
  end.
Definition MEASURE_FLAGS : list string :=
  ["--inputs"; "--ovmf"; "--kernel"; "--initrd"; "--append"; "--vcpus"; "--vcpu-type"; "--measurement"; "--log"; "--image-manifest"; "--out"].
Fixpoint measure_args (args : list string) (a : MeasureArgs) : T MeasureArgs :=
  match args with
  | [] => mret a
  | [flag] =>
      if bool_decide (flag ∈ MEASURE_FLAGS) then throw ("flag " +:+ flag +:+ " needs a value")
      else throw ("unknown snp-measure flag: " +:+ flag)
  | flag :: v :: args => a ← measure_flag flag v a; measure_args args a
  end.

Definition read_manifest (what name : string) : T ImageManifest :=
  b ← read_named name; parse_as (what +:+ name) b.
Definition measured_reference (a : MeasureArgs) : T SnpReference :=
  let p := ma_params a in
  manifest ← match ma_manifest a with
             | Some name => m ← read_manifest "image manifest " name; mret (Some m)
             | None => mret None
             end;
  launch_artifacts ← verify_and_collect_artifacts (mp_expected_artifacts p) manifest;
  '(measurement_hex, tool) ←
    match ma_measurement a with
    | Some m => mret (m, "recorded (on-silicon / external)")
    | None => m ← lift (run_sev_snp_measure p); mret (m, "sev-snp-measure")
    end;
  _ ← lift (validate_measurement_hex measurement_hex);
  mret (mkReference measurement_hex "snp" p tool
    "Pin into Policy.allowed_measurements; published to the transparency log so a third party can rebuild from git_commit and confirm the operator did not silently change it."
    git_commit (mp_vmm_launch_method p) launch_artifacts).
Definition snp_measure (args : list string) (clock : list N) : T unit :=
  a ← measure_args args (mkMeasureArgs params_default None None None "snp-reference.json");
  reference ← measured_reference a;
  _ ← write_plain (ma_out a) (to_vec_pretty reference);
  match ma_log a with
  | Some log =>
      append_transparency log "secgit-snp-reference"
        ("snp-measurement sha384=" +:+ sr_measurement_hex reference +:+ " commit=" +:+ default "unknown" git_commit) "ci-reproducible-build" clock
  | None => mret ()
  end.

(** *** Provenance *)

Record ProvenanceArgs := mkProvenanceArgs {
  pa_reference : option string; pa_manifest : option string; pa_sbom : option string; pa_oci : option string; pa_out : string; pa_log : option string;
}.
Definition provenance_flag (flag v : string) (a : ProvenanceArgs) : result string ProvenanceArgs :=
  let '(mkProvenanceArgs reference manifest sbom oci out log) := a in
  match flag with
  | "--reference" => Ok (mkProvenanceArgs (Some v) manifest sbom oci out log)
  | "--image-manifest" => Ok (mkProvenanceArgs reference (Some v) sbom oci out log)
  | "--sbom" => Ok (mkProvenanceArgs reference manifest (Some v) oci out log)
  | "--oci-image-digest" => Ok (mkProvenanceArgs reference manifest sbom (Some v) out log)
  | "--out" => Ok (mkProvenanceArgs reference manifest sbom oci v log)
  | "--log" => Ok (mkProvenanceArgs reference manifest sbom oci out (Some v))
  | other => Err ("unknown provenance flag: " +:+ other)
  end.
Definition PROVENANCE_FLAGS : list string := ["--reference"; "--image-manifest"; "--sbom"; "--oci-image-digest"; "--out"; "--log"].
Fixpoint provenance_args (args : list string) (a : ProvenanceArgs) : result string ProvenanceArgs :=
  match args with
  | [] => Ok a
  | [flag] =>
      if bool_decide (flag ∈ PROVENANCE_FLAGS) then Err ("flag " +:+ flag +:+ " needs a value")
      else Err ("unknown provenance flag: " +:+ flag)
  | flag :: v :: args => a ← provenance_flag flag v a; provenance_args args a
  end.

(** The subjects: the image, the launch artifacts, the binaries, the bill of materials. *)
Definition provenance_subjects (a : ProvenanceArgs) (reference : SnpReference) : T (list Subject) :=
  let oci := match pa_oci a with
             | Some d => [mkSubject "oci-image" (digest_map "sha256" (string_of_list_byte (default (as_bytes d) (strip_prefix (as_bytes "sha256:") (as_bytes d)))))]
             | None => []
             end in
  let launch := artifact_subject <$> sr_launch_artifacts reference in
  binaries ← match pa_manifest a with
             | Some name => m ← read_manifest EmptyString name; mret (artifact_subject <$> im_artifacts m)
             | None => mret []
             end;
  materials ← match pa_sbom a with
              | Some name => '(sha, _) ← sha384_file name; mret [mkSubject "sbom.json" (digest_map "sha384" sha)]
              | None => mret []
              end;
  mret (oci ++ launch ++ binaries ++ materials).

Definition provenance_statement (reference : SnpReference) (subjects : list Subject) : ProvenanceStatement :=
  mkStatement "https://in-toto.io/Statement/v1" "https://slsa.dev/provenance/v1" subjects
    (mkPredicate "https://secgit.dev/reproducible-oci-cvm/v1" "secgit-xtask" (lowercase (sr_measurement_hex reference))
       (default "sev-snp-measure-direct-boot" (sr_vmm_launch_method reference)) (default "unknown" (sr_git_commit reference))
       (default EmptyString (env "SOURCE_DATE_EPOCH"))).

(** The key pinned by the environment, or a new one. *)
Definition provenance_signer : T Sig.SigningKey :=
  match env "SECGIT_PROVENANCE_KEY" with
  | Some p =>
      b ← read_named p;
      bundle ← (parse_as ("signing bundle " +:+ p) b : T Sig.SigningKeyBundle);
      lift (map_err crypto_text (Sig.from_bundle bundle))
  | None => gen (Sig.generate LONG_LIVED_SIG)
  end.

Definition provenance (args : list string) (clock : list N) : T unit :=
  a ← lift (provenance_args args (mkProvenanceArgs None None None None "provenance.json" None));
  reference_path ← lift (ok_or "provenance requires --reference snp-reference.json (from snp-measure)" (pa_reference a));
  b ← read_named reference_path;
  reference ← (parse_as reference_path b : T SnpReference);
  subjects ← provenance_subjects a reference;
  if bool_decide (subjects = [])
  then throw "no subjects to attest — the reference has no launch_artifacts and no --image-manifest/--sbom/--oci-image-digest was given"
  else
    let statement := provenance_statement reference subjects in
    signer ← provenance_signer;
    sig ← lift (map_err crypto_text (Sig.sign signer (to_vec statement)));
    let out := pa_out a in
    _ ← write_named out (to_vec_pretty statement);
    _ ← write_plain (out +:+ ".sig") (as_bytes (hex_encode sig));
    _ ← write_plain (out +:+ ".vk.json") (to_vec_pretty (Sig.verifying_key signer));
    match pa_log a with
    | Some log =>
        append_transparency log "secgit-provenance"
          ("provenance measurement=" +:+ pp_snp_measurement_hex (ps_predicate statement) +:+ " commit=" +:+
           pp_git_commit (ps_predicate statement) +:+ " subjects=" +:+ pretty (lengthN (ps_subject statement))) "ci-reproducible-build" clock
    | None => mret ()
    end.

(** *** The signing key *)

Record KeygenArgs := mkKeygenArgs { ka_bundle_out : string; ka_vk_out : string; ka_force : bool }.
Fixpoint keygen_args (args : list string) (a : KeygenArgs) : result string KeygenArgs :=
  match args with
  | [] => Ok a
  | "--force" :: args => keygen_args args (mkKeygenArgs (ka_bundle_out a) (ka_vk_out a) true)
  | "--bundle-out" :: rest =>
      match rest with v :: args => keygen_args args (mkKeygenArgs v (ka_vk_out a) (ka_force a)) | [] => Err "flag --bundle-out needs a value" end
  | "--vk-out" :: rest =>
      match rest with v :: args => keygen_args args (mkKeygenArgs (ka_bundle_out a) v (ka_force a)) | [] => Err "flag --vk-out needs a value" end
  | other :: _ => Err ("unknown provenance-keygen flag: " +:+ other)
  end.
Definition provenance_keygen (args : list string) : T unit :=
  a ← lift (keygen_args args (mkKeygenArgs "provenance-signing-key.json" "deploy/provenance.vk.json" false));
  exists_ ← path_exists (file (ka_bundle_out a));
  if (exists_ : bool) && negb (ka_force a)
  then throw (ka_bundle_out a +:+ " exists; refusing to overwrite an existing signing key (pass --force)")
  else
    '(signer, bundle) ← gen (Sig.generate_with_bundle LONG_LIVED_SIG);
    _ ← write_named (ka_bundle_out a) (to_vec_pretty bundle);
    _ ← (if has_parent (ka_vk_out a) then eff_map_err io_text (create_dir_all []) else mret () : T unit);
    write_named (ka_vk_out a) (to_vec_pretty (Sig.verifying_key signer)).

(** *** Dependencies *)

Definition read_text_named (name : string) : T bytes := eff_map_err (λ _, "reading " +:+ name) (read_to_string (file name)).
Definition locked_package_names (lock_path : string) : T (list string) := content ← read_text_named lock_path; mret (package_names content).
Definition egress_check (lock_path : string) : T unit :=
  names ← locked_package_names lock_path;
  match filter (λ f, f ∈ names) FORBIDDEN_ML_TELEMETRY with
  | [] => mret ()
  | hits => throw ("no-ai-training egress-check FAILED: forbidden crate(s) in dependency graph: " +:+ String.concat ", " hits)
  end.
Definition parse_lockfile (lock_path : string) : T (list LockedPackage) := content ← read_text_named lock_path; mret (lock_packages content).
Definition build_sbom (lock_path : string) : T Value :=
  pkgs ← parse_lockfile lock_path; mret (sbom_document (default EmptyString (env "SOURCE_DATE_EPOCH")) pkgs).
Definition sbom (args : list string) : T unit :=
  doc ← build_sbom (default "Cargo.lock" (head args));
  write_plain (default "sbom.json" (args !! 1%nat)) (value_to_vec_pretty doc).

Definition finished (c : T unit) : T Ended := _ ← c; mret Finished.
Definition main (args : list string) (clock : list N) : T Ended :=
  match args !! 1%nat with
  | Some "measure" => finished (measure (drop 2 args))
  | Some "emit-transparency" => finished (emit_transparency (drop 2 args) clock)
  | Some "verify-image" => verify_image (drop 2 args)
  | Some "egress-check" => finished (egress_check "Cargo.lock")
  | Some "sbom" => finished (sbom (drop 2 args))
  | Some "snp-measure" => finished (snp_measure (drop 2 args) clock)
  | Some "provenance" => finished (provenance (drop 2 args) clock)
  | Some "provenance-keygen" => finished (provenance_keygen (drop 2 args))
  | _ => mret (ExitWith 2)
  end.
End tasks.
