(* ===== verification/XtaskTheory.v ===== *)
(** The properties of the build tasks: launch measurements are bound to the bytes they name,
    provenance statements verify, and the dependency check sees what the lock file says. *)

From S2P Require Import Prelude Text Backend Toy Http Envelope Primitives Sig Fs AuditLog Search Json Config KeyStart Ssh Provenance Xtask.

Section theory.
Context `{UL : UnicodeLower} `{RND : SystemRandom} `{DIG : Digests} `{AB : AeadBackend} `{HX : Hex} `{ED : Ed25519} `{EG : !Ed25519Gen} `{ML : MlDsa}.
Context `{SEV : Serde AuditEvent} `{SRE : Serde RawEntry} `{SBu : Serde Sig.SigningKeyBundle} `{SVK : Serde Sig.VerifyingKey}.
Context `{SIM : Serde ImageManifest} `{SMP : Serde SnpMeasureParams} `{SSR : Serde SnpReference} `{SPS : Serde ProvenanceStatement}.
Context `{PIM : !SerdePretty ImageManifest} `{PSR : !SerdePretty SnpReference} `{PPS : !SerdePretty ProvenanceStatement}.
Context `{PVK : !SerdePretty Sig.VerifyingKey} `{PBu : !SerdePretty Sig.SigningKeyBundle} `{JP : JsonPretty} `{BT : BuildTools}.
Context (env : Env) (crypto_text : CryptoError → string) (audit_text : AuditError → string) (io_text : IoError → string).

(** ** Reading and writing *)

Lemma read_named_inv n w b w' : read_named n w = (Ok b, w') → w_files w !! file n = Some b ∧ w_files w' = w_files w.
Proof. intros H%eff_err_inv. apply read_files in H as [-> H]. auto. Qed.
Lemma sha384_file_inv n w sha len w' : sha384_file n w = (Ok (sha, len), w') →
  ∃ b, w_files w !! file n = Some b ∧ sha = hex_encode (sha384 b) ∧ len = lengthN b ∧ w_files w' = w_files w.
Proof. unfold sha384_file. intros H. eff_step H. apply read_named_inv in E as [Hb Hf]. apply mret_inv in H as [[= <- <-] ->]. eauto 10. Qed.
Lemma gen_inv {A} (c : eff rng CryptoError A) w a w' : gen crypto_text c w = (Ok a, w') →
  w_files w' = w_files w ∧ ∃ g, c (w_gen w) = (Ok a, g).
Proof. unfold gen. intros [Hf [g H]]%with_gen_files. apply eff_err_inv in H. eauto. Qed.

(** ** Launch artifacts *)

(** An artifact that is on disk agrees with its pin and with the manifest. *)
Definition artifact_bound (w : World) (manifest : option ImageManifest) (ea : ExpectedArtifact) : Prop :=
  path_present w (file (ea_path ea)) = true → ∃ c, w_files w !! file (ea_path ea) = Some c ∧
    (is_placeholder_digest (ea_sha384_hex ea) = true ∨ eq_ignore_ascii_case (ea_sha384_hex ea) (hex_encode (sha384 c)) = true) ∧
    ∀ m i a, manifest = Some m → list_find (λ a, ad_path a = ea_path ea) (im_artifacts m) = Some (i, a) →
      eq_ignore_ascii_case (ad_sha384_hex a) (hex_encode (sha384 c)) = true.
Definition artifact_on_disk (w : World) (ea : ExpectedArtifact) : option ArtifactDigest :=
  c ← w_files w !! file (ea_path ea); Some (mkArtifact (ea_path ea) (hex_encode (sha384 c)) (lengthN c)).

Lemma artifact_bound_same w w' m ea : w_files w' = w_files w → artifact_bound w' m ea → artifact_bound w m ea.
Proof. unfold artifact_bound. intros E. by rewrite (path_present_same _ _ _ E), E. Qed.
Lemma spends_sha name : spends (sha384_file name).
Proof. unfold sha384_file, read_named, Fs.read. eauto 9 with spends. Qed.

Lemma collect_bound expected manifest w ds w' : seen w → verify_and_collect_artifacts expected manifest w = (Ok ds, w') →
  w_files w' = w_files w ∧ Forall (artifact_bound w manifest) expected ∧ ds = omap (artifact_on_disk w) expected.
Proof.
  revert w ds w'. induction expected as [|ea expected IH]; intros w0 ds w' Hs0; cbn [verify_and_collect_artifacts].
  { intros [= <- <-]. done. }
  intros H. apply eff_bind_inv in H as (b & w & E & H). apply stat_seen in E as (E & Hs & [= ->]); [|done]. rewrite <-E.
  assert (∀ ea, artifact_bound w manifest ea → artifact_bound w0 manifest ea) as Hsame by (intros ?; by apply artifact_bound_same).
  assert (omap (artifact_on_disk w0) (ea :: expected) = omap (artifact_on_disk w) (ea :: expected)) as -> by (unfold artifact_on_disk; by rewrite E).
  clear E. revert H. destruct (path_present w (file (ea_path ea))) eqn:Ep; cbn [negb].
  - intros H. apply eff_bind_inv in H as ([sha len] & s & E & H). pose proof (spends_sha (ea_path ea) w Hs) as Hs1. rewrite E in Hs1. cbn in Hs1. apply sha384_file_inv in E as (c & Hc & -> & -> & Hf).
    eff_step H. eff_step H. eff_step H. apply mret_inv in H as [<- ->].
    assert (s0 = s ∧ (is_placeholder_digest (ea_sha384_hex ea) = true ∨ eq_ignore_ascii_case (ea_sha384_hex ea) (hex_encode (sha384 c)) = true)) as [-> Hpin].
    { revert E. destruct (is_placeholder_digest _); [intros [_ ->]%mret_inv; auto|]. destruct (eq_ignore_ascii_case _ _); cbn; [|done].
      intros [_ ->]%mret_inv. auto. }
    assert (s1 = s ∧ ∀ m i a, manifest = Some m → list_find (λ a, ad_path a = ea_path ea) (im_artifacts m) = Some (i, a) →
      eq_ignore_ascii_case (ad_sha384_hex a) (hex_encode (sha384 c)) = true) as [-> Hm].
    { revert E0. destruct manifest as [m|]; cbn [mbind option_bind]; [|intros [_ ->]%mret_inv; by split].
      destruct (list_find _ _) as [[i mm]|] eqn:El; [|intros [_ ->]%mret_inv; split; [done|]; intros ? ? ? [= <-]; by rewrite El].
      destruct (eq_ignore_ascii_case (ad_sha384_hex mm) _) eqn:Eq; cbn [negb]; [|done]. intros [_ ->]%mret_inv. split; [done|]. intros ? ? ? [= <-]. rewrite El. by intros [= <- <-]. }
    apply IH in E1 as (Hw & Hall & ->); [|done]. rewrite Hw, Hf. split; [done|]. split.
    + constructor; [apply Hsame; intros _; eauto|]. eapply Forall_impl; [exact Hall|]. intros x Hx. apply Hsame. by eapply artifact_bound_same.
    + cbn [omap list_omap]. unfold artifact_on_disk at 2. rewrite Hc. cbn [mbind option_bind]. f_equal.
      apply list_omap_ext. apply Forall2_same_length_lookup_2; [done|]. intros i x y Hx Hy. rewrite Hx in Hy. injection Hy as ->.
      unfold artifact_on_disk. by rewrite Hf.
  - intros H. apply IH in H as (Hw & Hall & ->); [|done]. split; [done|]. split.
    { constructor; [|by eapply Forall_impl]. apply Hsame. intros F. by rewrite F in Ep. }
    cbn [omap list_omap]. unfold artifact_on_disk at 2. destruct (w_files w !! file (ea_path ea)) eqn:Ef; [|done].
    apply orb_false_iff in Ep as [Ep _]. apply file_present_false in Ep. congruence.
Qed.

(** A reference that is written, while the metadata of files can be read, is a 48-byte
    measurement, and every launch input that was on disk is the one the descriptor and the manifest name; its digests are those of the bytes. *)
Lemma reference_bound a w r w' : seen w → measured_reference a w = (Ok r, w') →
  (∃ m, hex_decode (sr_measurement_hex r) = Some m ∧ length m = 48%nat) ∧
  (∀ m, ma_measurement a = Some m → sr_measurement_hex r = m) ∧
  ∃ manifest, Forall (artifact_bound w manifest) (mp_expected_artifacts (ma_params a)) ∧
    sr_launch_artifacts r = omap (artifact_on_disk w) (mp_expected_artifacts (ma_params a)) ∧
    (ma_manifest a = None → manifest = None).
Proof.
  intros Hseen. unfold measured_reference. intros H. eff_step H. rename a0 into manifest.
  assert (seen s) as Hss.
  { assert (spends (match ma_manifest a with Some name => m ← read_manifest "image manifest " name; mret (Some m) | None => mret None end : eff World string (option ImageManifest))) as K.
    { destruct (ma_manifest a); [|apply spends_ret]. unfold read_manifest, read_named, parse_as, Fs.read. eauto 9 with spends. }
    specialize (K w Hseen). by rewrite E in K. }
  assert (w_files s = w_files w ∧ (ma_manifest a = None → manifest = None)) as [Hs Hn].
  { revert E. destruct (ma_manifest a) as [name|]; [|intros [<- ->]%mret_inv; done].
    intros H1. eff_step H1. apply mret_inv in H1 as [<- ->]. unfold read_manifest in E. eff_step E.
    apply read_named_inv in E0 as [_ Hf]. unfold parse_as in E. apply lift_some_inv in E as [_ ->]. by split. }
  eff_step H. apply collect_bound in E0 as (Hf & Hall & ->); [|done]. eff_step H. destruct a0 as [m tool].
  eff_step H. apply lift_inv in E1 as [Hv ->]. apply mret_inv in H as [<- ->].
  cbn [sr_measurement_hex sr_launch_artifacts]. split; [|split].
  - unfold validate_measurement_hex in Hv. destruct (hex_decode m) as [b|]; [|done]. cbn [ok_or mbind result_mbind] in Hv.
    destruct (Nat.eqb_spec (length b) 48); [eauto|done].
  - intros m' Hm. rewrite Hm in E0. by apply mret_inv in E0 as [[= <- _] _].
  - exists manifest. split_and!; [|by unfold artifact_on_disk; rewrite Hs|done].
    eapply Forall_impl; [exact Hall|]. intros x. by apply artifact_bound_same.
Qed.

(** ** Provenance *)

Lemma signer_wf w sk w' : provenance_signer env crypto_text w = (Ok sk, w') → w_files w' = w_files w ∧ Sig.sk_wf sk.
Proof.
  unfold provenance_signer. destruct (env _) as [p|].
  - intros H. eff_step H. eff_step H. apply read_named_inv in E as [_ Hf]. unfold parse_as in E0. apply lift_some_inv in E0 as [_ ->].
    apply lift_inv in H as [H ->]. split; [done|]. destruct (Sig.from_bundle a0) as [k|] eqn:Ek; [|done]. injection H as ->.
    by eapply Sig.from_bundle_wf.
  - intros [Hf [g H]]%gen_inv. split; [done|]. by eapply Sig.signing_key_wf.
Qed.

Lemma hex_trim b : valid_utf8 (as_bytes (hex_encode b)) = true ∧ trim (as_bytes (hex_encode b)) = as_bytes (hex_encode b).
Proof.
  destruct b as [|x b]; [|destruct (hex_text (x :: b)) as (_ & H1 & H2 & _); done].
  assert (hex_encode [] = EmptyString) as ->; [|done]. pose proof (hex_encode_len []) as Hl. by destruct (hex_encode []).
Qed.

Lemma name_suffix_ne (n x y : string) : x ≠ y → file (n +:+ x) ≠ file (n +:+ y).
Proof. intros Hxy [= E]. apply Hxy, as_bytes_inj. apply (f_equal as_bytes) in E. rewrite !as_bytes_app in E. by apply app_inv_head in E. Qed.

Lemma three_files out m m1 m2 m3 x y z :
  m1 = <[file out := x]> m → m2 = <[file (out +:+ ".sig") := y]> m1 → m3 = <[file (out +:+ ".vk.json") := z]> m2 →
  (m3 : gmap path bytes) !! file out = Some x ∧ m3 !! file (out +:+ ".sig") = Some y ∧ m3 !! file (out +:+ ".vk.json") = Some z.
Proof.
  intros -> -> ->.
  assert (∀ s, s ≠ EmptyString → file (out +:+ s) ≠ file out) as Hs.
  { intros s Hs. intros [= E]. apply Hs, as_bytes_inj. apply (f_equal as_bytes) in E. rewrite as_bytes_app in E.
    rewrite <-(app_nil_r (as_bytes out)) in E at 2. by apply app_inv_head in E. }
  split_and!; [|rewrite lookup_insert_ne by (by apply name_suffix_ne)|]; [|apply lookup_insert_eq..].
  rewrite !lookup_insert_ne by (by apply Hs). apply lookup_insert_eq.
Qed.

Lemma parse_as_inv {A} `{Serde A} what b w (x : A) w' : parse_as what b w = (Ok x, w') → from_slice b = Some x ∧ w' = w.
Proof. unfold parse_as. intros [H1 ->]%lift_inv. by destruct (from_slice b); [injection H1 as ->|]. Qed.

(** What a statement names, and nothing else: the image with the digest that was given; the
    launch artifacts of the reference and the binaries of the manifest, each by its file
    name with the digest the reference or the manifest records for it (the artifacts are not
    read); and the bill of materials with the digest of its bytes. *)
Definition named_as_recorded (x : ArtifactDigest) : Subject :=
  mkSubject (default (ad_path x) (file_name (ad_path x))) (digest_map "sha384" (ad_sha384_hex x)).
Definition materials_named (w : World) (a : ProvenanceArgs) (reference : SnpReference) (subjects : list Subject) : Prop :=
  ∃ oci binaries materials,
    subjects = oci ++ (named_as_recorded <$> sr_launch_artifacts reference) ++ binaries ++ materials ∧
    match pa_oci a with
    | Some d => ∃ h, oci = [mkSubject "oci-image" (digest_map "sha256" h)] ∧ (d = "sha256:" +:+ h ∨ d = h)
    | None => oci = []
    end ∧
    match pa_manifest a with
    | Some n => ∃ b m, w_files w !! file n = Some b ∧ from_slice b = Some m ∧ binaries = named_as_recorded <$> im_artifacts m
    | None => binaries = []
    end ∧
    match pa_sbom a with
    | Some n => ∃ b, w_files w !! file n = Some b ∧ materials = [mkSubject "sbom.json" (digest_map "sha384" (hex_encode (sha384 b)))]
    | None => materials = []
    end.

Lemma subjects_cover a reference w l w' : provenance_subjects a reference w = (Ok l, w') → materials_named w a reference l.
Proof.
  unfold provenance_subjects. intros H. apply eff_bind_inv in H as (bins & s1 & E1 & H). apply eff_bind_inv in H as (mats & s2 & E2 & H).
  apply mret_inv in H as [<- ->]. eexists _, bins, mats. split; [reflexivity|]. split; [|split].
  - destruct (pa_oci a) as [d|]; [|done]. eexists. split; [done|].
    destruct (strip_prefix (as_bytes "sha256:") (as_bytes d)) as [r|] eqn:Er; [left; by apply strip_prefix_text|right].
    symmetry. apply string_of_list_byte_of_string.
  - destruct (pa_manifest a) as [n|]; [|by apply mret_inv in E1 as [<- _]]. apply eff_bind_inv in E1 as (m & s3 & E & E1). apply mret_inv in E1 as [<- _].
    unfold read_manifest in E. apply eff_bind_inv in E as (b & s4 & E & E'). apply parse_as_inv in E' as [Hm _]. apply read_named_inv in E as [Hb _].
    by exists b, m.
  - assert (w_files s1 = w_files w) as F1.
    { destruct (pa_manifest a); [|by apply mret_inv in E1 as [_ ->]]. apply eff_bind_inv in E1 as (m & s3 & E & E1). apply mret_inv in E1 as [_ ->].
      unfold read_manifest in E. apply eff_bind_inv in E as (b & s4 & E & E'). apply parse_as_inv in E' as [_ ->]. by apply read_named_inv in E as [_ ?]. }
    destruct (pa_sbom a) as [n|]; [|by apply mret_inv in E2 as [<- _]]. apply eff_bind_inv in E2 as ([sha len] & s3 & E & E2).
    apply mret_inv in E2 as [<- _]. apply sha384_file_inv in E as (b & Hb & -> & _). rewrite F1 in Hb. by exists b.
Qed.

(** C29. From the build to the verifier, for a provenance statement made without [--log].
    The statement that was written carries the measurement of the reference it was made
    from; it names exactly the image with the digest that was given, each launch artifact
    of the reference and each binary of the manifest with the digest recorded there in lower case (their
    bytes are not read when the statement is made), and the bill of materials with the
    digest of its bytes.  The verification tool, given the statement, the signature and the
    key that were written, accepts exactly when every named artifact found locally has the
    digests the statement gives. *)
Theorem provenance_accepted args clock a w w' :
  provenance_args args (mkProvenanceArgs None None None None "provenance.json" None) = Ok a → pa_log a = None →
  provenance env crypto_text audit_text io_text args clock w = (Ok (), w') →
  ∃ statement reference rp rb,
    pa_reference a = Some rp ∧ w_files w !! file rp = Some rb ∧ from_slice rb = Some reference ∧
    w_files w' !! file (pa_out a) = Some (to_vec_pretty statement) ∧ ps_subject statement ≠ [] ∧
    pp_snp_measurement_hex (ps_predicate statement) = lowercase (sr_measurement_hex reference) ∧
    materials_named w a reference (ps_subject statement) ∧
    (verify_provenance (left_file w') (left_bytes w') (pa_out a) (pa_out a +:+ ".sig") (pa_out a +:+ ".vk.json") = Ok Finished ↔
     Forall (subject_ok (left_file w') (left_bytes w')) (ps_subject statement)).
Proof.
  intros Ha Hlog. unfold provenance. rewrite Ha. intros H.
  apply eff_bind_inv in H as (a' & s0 & E & H). apply lift_inv in E as [[= <-] ->].
  apply eff_bind_inv in H as (rp & s1 & E & H). apply lift_inv in E as [Hrp ->].
  destruct (pa_reference a) as [rp'|]; [|done]. injection Hrp as ->.
  apply eff_bind_inv in H as (rb & s2 & E & H). apply read_named_inv in E as [Hrb F0].
  apply eff_bind_inv in H as (reference & s3 & E & H). apply parse_as_inv in E as [Href ->].
  apply eff_bind_inv in H as (subjects & s4 & E & H). apply subjects_cover in E. rename E into Hsub. unfold materials_named in Hsub. rewrite F0 in Hsub.
  case_bool_decide as Hne; [done|]. apply eff_bind_inv in H as (signer & s5 & E & H). apply signer_wf in E as [_ Hwf].
  apply eff_bind_inv in H as (sig & s6 & E & H). apply lift_inv in E as [Hsig ->].
  set (statement := provenance_statement env reference subjects) in *.
  destruct (Sig.sign signer (to_vec statement)) as [sig'|] eqn:Es; [|done]. injection Hsig as ->.
  apply eff_bind_inv in H as (u1 & s7 & E1 & H). apply eff_bind_inv in H as (u2 & s8 & E2 & H).
  apply eff_bind_inv in H as (u3 & s9 & E3 & H). rewrite Hlog in H. apply mret_inv in H as [_ ->].
  apply eff_err_inv, write_inv in E1, E2, E3. exists statement, reference, rp, rb.
  destruct (three_files (pa_out a) _ _ _ _ _ _ _ E1 E2 E3) as (F1 & F2 & F3).
  do 3 (split; [done|]). split; [done|]. split; [exact Hne|]. split; [done|]. split; [exact Hsub|].
  rewrite verify_provenance_iff. unfold left_bytes at 1 2 3. rewrite F1, F2, F3.
  cbn [mbind result_mbind]. rewrite !from_slice_pretty. destruct (hex_trim sig) as [Hu Ht]. split.
  - intros (st & sg & vk & gb & [= <-] & _ & _ & _ & _ & _ & _ & Hall). done.
  - intros Hall. exists statement, sig, (Sig.verifying_key signer), (as_bytes (hex_encode sig)). split_and!; try done.
    + rewrite Ht. unfold as_bytes. by rewrite string_of_list_byte_of_string, hex_decode_encode.
    + unfold left_file. rewrite F3. apply bool_decide_eq_true. eauto.
    + by apply Sig.sign_verify.
Qed.

(** The ceremony: the private bundle opens to a key whose public half is the one published,
    and without force an existing bundle is not overwritten. *)
Lemma keygen_pair args a w w' :
  seen w →
  keygen_args args (mkKeygenArgs "provenance-signing-key.json" "deploy/provenance.vk.json" false) = Ok a → ka_bundle_out a ≠ ka_vk_out a →
  provenance_keygen crypto_text io_text args w = (Ok (), w') →
  (ka_force a = true ∨ w_files w !! file (ka_bundle_out a) = None) ∧
  ∃ bundle sk, w_files w' !! file (ka_bundle_out a) = Some (to_vec_pretty bundle) ∧ Sig.from_bundle bundle = Ok sk ∧
    w_files w' !! file (ka_vk_out a) = Some (to_vec_pretty (Sig.verifying_key sk)).
Proof.
  intros Hseen Ha Hne. unfold provenance_keygen. rewrite Ha. intros H.
  apply eff_bind_inv in H as (a' & s0 & E & H). apply lift_inv in E as [[= <-] ->].
  apply eff_bind_inv in H as (ex & s1 & E & H). apply stat_seen in E as (E & _ & [= ->]); [|done]. rewrite <-E. clear E.
  destruct (path_present s1 (file (ka_bundle_out a)) && negb (ka_force a)) eqn:Eg; [done|].
  apply eff_bind_inv in H as ([sk bundle] & s2 & E & H). apply gen_inv in E as [_ [g Hg]].
  apply Sig.generate_with_bundle_wf in Hg as [_ Hb].
  apply eff_bind_inv in H as (u1 & s3 & E1 & H). apply eff_bind_inv in H as (u2 & s4 & E2 & H).
  apply eff_err_inv, write_inv in E1, H.
  assert (w_files s4 = w_files s3) as E3.
  { destruct (has_parent _); [apply eff_err_inv in E2; by apply create_dir_all_files in E2|by apply mret_inv in E2 as [_ ->]]. }
  split.
  - apply andb_false_iff in Eg as [Eg|Eg%negb_false_iff]; [right|by left].
    apply orb_false_iff in Eg as [Eg _]. by apply file_present_false in Eg.
  - exists bundle, sk. rewrite H, E3, E1. split; [|split; [done|apply lookup_insert_eq]].
    rewrite lookup_insert_ne by (intros [= E]; congruence). apply lookup_insert_eq.
Qed.

(** ** Dependencies *)

(** The check passes exactly when no package of the lock file is on the list. *)
Lemma egress_exact lock w : w_sched w = [] →
  ((egress_check lock w).1 = Ok () ↔
   ∃ content, w_files w !! file lock = Some content ∧ valid_utf8 content = true ∧
     Forall (λ f, f ∉ package_names content) FORBIDDEN_ML_TELEMETRY).
Proof.
  intros Hs. unfold egress_check, locked_package_names, read_text_named, read_to_string, mbind, eff_mbind, eff_map_err, Fs.read, io.
  rewrite next_calm by done. destruct (w_files w !! file lock) as [content|] eqn:Ec; cbn [fst].
  2:{ split; [done|]. by intros (c & ? & _). }
  destruct (valid_utf8 content) eqn:Eu; cbn [fst map_err mret eff_mret throw].
  2:{ split; [done|]. intros (c & [= <-] & Hu & _). congruence. }
  destruct (filter _ FORBIDDEN_ML_TELEMETRY) as [|h hits] eqn:Eh; cbn [fst mret eff_mret throw].
  - split; [|done]. intros _. exists content. split_and!; [done..|]. apply Forall_forall. intros f Hf Hin.
    assert (f ∈ filter (λ f, f ∈ package_names content) FORBIDDEN_ML_TELEMETRY) as K by by apply list_elem_of_filter.
    rewrite Eh in K. by apply not_elem_of_nil in K.
  - split; [done|]. intros (c & [= <-] & _ & Hall). rewrite Forall_forall in Hall.
    assert (h ∈ filter (λ f, f ∈ package_names content) FORBIDDEN_ML_TELEMETRY) as [K1 K2]%list_elem_of_filter by (rewrite Eh; left).
    by apply Hall in K2.
Qed.
End theory.

(** *** The lock file, as Cargo writes it *)

Definition quotable (v : string) : Prop := Forall (λ b, visible b ∧ b ≠ x22) (as_bytes v).
Definition lock_entry (key v : string) : bytes := as_bytes key ++ as_bytes " = " ++ x22 :: as_bytes v ++ [x22].
(** Other lines of a package: its dependencies and blank lines. *)
Definition lock_other (l : bytes) : Prop :=
  clean_line l ∧ valid_utf8 l = true ∧ trim l ≠ as_bytes "[[package]]" ∧
  strip_prefix (as_bytes "name = ") (trim l) = None ∧ lock_field l "name" = None ∧ lock_field l "version" = None ∧ lock_field l "source" = None ∧ lock_field l "checksum" = None.
Definition package_lines (p : LockedPackage) (more : list bytes) : list bytes :=
  [as_bytes "[[package]]"; lock_entry "name" (lp_name p); lock_entry "version" (lp_version p)] ++
  match lp_source p with Some v => [lock_entry "source" v] | None => [] end ++
  match lp_checksum p with Some v => [lock_entry "checksum" v] | None => [] end ++ more.
Definition lock_text (pkgs : list (LockedPackage * list bytes)) : bytes := file_text (mjoin ((λ x, package_lines x.1 x.2) <$> pkgs)).
Definition lockable (x : LockedPackage * list bytes) : Prop :=
  quotable (lp_name x.1) ∧ quotable (lp_version x.1) ∧ (∀ v, lp_source x.1 = Some v → quotable v) ∧
  (∀ v, lp_checksum x.1 = Some v → quotable v) ∧ Forall lock_other x.2.

Lemma drop_while_stop p l : (∀ b, head l = Some b → p b = false) → drop_while p l = l.
Proof. destruct l as [|b l]; [done|]. intros H. cbn. by rewrite (H b eq_refl). Qed.

Lemma trim_quotes v : Forall (λ b, b ≠ x22) v → trim_matches quote (x22 :: v ++ [x22]) = v.
Proof.
  intros Hv. assert (∀ b, b ∈ v → quote b = false) as Hq.
  { rewrite Forall_forall in Hv. intros b Hb. apply bool_decide_eq_false. auto. }
  unfold trim_matches. change (drop_while quote (x22 :: v ++ [x22])) with (drop_while quote (v ++ [x22])).
  destruct v as [|b v']; [done|]. set (v := b :: v') in *.
  rewrite (drop_while_stop _ (v ++ [x22])) by (intros c [= <-]; apply Hq; by left).
  rewrite reverse_snoc. change (drop_while quote (x22 :: reverse v)) with (drop_while quote (reverse v)).
  rewrite drop_while_stop; [apply reverse_involutive|]. intros c Hc. apply Hq.
  apply elem_of_reverse. destruct (reverse v); [done|]. injection Hc as ->. left.
Qed.

Lemma trim_spaced v : visible_text v → trim (x20 :: v) = v.
Proof.
  intros [Hne Hv]. destruct (last v) as [c|] eqn:El; [|by apply last_None in El]. destruct v as [|b v]; [done|].
  rewrite Forall_forall in Hv. apply (Http.trim_sp _ b c); [apply Hv; left| |done|done]. apply Hv. by apply last_Some_elem_of.
Qed.
Lemma quoted_visible v : quotable v → visible_text (x22 :: as_bytes v ++ [x22]).
Proof.
  intros Hv. split; [done|]. constructor; [done|]. apply Forall_app. split; [|by repeat constructor].
  eapply Forall_impl; [exact Hv|]. by intros b [].
Qed.
Lemma unquoted_quoted v : quotable v → unquoted (x20 :: x22 :: as_bytes v ++ [x22]) = v.
Proof.
  intros Hv. unfold unquoted. rewrite trim_spaced by by apply quoted_visible.
  rewrite trim_quotes by (eapply Forall_impl; [exact Hv|]; by intros b []). unfold as_bytes. apply string_of_list_byte_of_string.
Qed.

(** An entry is on one line and survives trimming. *)
Lemma lock_entry_line key v b l : as_bytes key = b :: l → Forall visible (b :: l) → quotable v →
  trim (lock_entry key v) = lock_entry key v ∧ clean_line (lock_entry key v) ∧ valid_utf8 (lock_entry key v) = true.
Proof.
  intros Hk Hf Hv. unfold lock_entry. rewrite Hk. apply quoted_visible in Hv as [_ Hq]. set (q := x22 :: as_bytes v ++ [x22]) in *.
  assert (last ((b :: l) ++ as_bytes " = " ++ q) = Some x22) as Hl.
  { unfold q. rewrite !app_assoc, app_comm_cons, app_assoc. apply last_snoc. }
  assert (∀ c, c ∈ (b :: l) ++ as_bytes " = " ++ q → visible c ∨ c = x20) as Hc.
  { intros c [Hc|[Hc|Hc]%elem_of_app]%elem_of_app.
    - left. rewrite Forall_forall in Hf. auto.
    - change (as_bytes " = ") with [x20; x3d; x20] in Hc. revert Hc. rewrite !elem_of_cons. intros [->|[->|[->|Hc]]]; [by right|by left|by right|by apply not_elem_of_nil in Hc].
    - left. rewrite Forall_forall in Hq. auto. }
  split; [|split; [split|]].
  - apply Forall_cons in Hf as [Hb _]. by apply (trim_visible b _ x22).
  - intros Hin. apply Hc in Hin as [Hin|]; [|done]. revert Hin. unfold visible. vm_compute. intuition discriminate.
  - by rewrite Hl.
  - apply valid_utf8_ascii, Forall_forall. intros c Hin. apply Hc in Hin as [[_ Hin]| ->]; [done|]. by vm_compute.
Qed.

Definition LOCK_KEYS : list string := ["name"; "version"; "source"; "checksum"].
Lemma lock_key_text key : key ∈ LOCK_KEYS → ∃ b l, as_bytes key = b :: l ∧ Forall visible (b :: l).
Proof.
  unfold LOCK_KEYS. rewrite !elem_of_cons. intros [->|[->|[->|[->|H]]]]; [..|by apply not_elem_of_nil in H];
    eexists _, _; (split; [reflexivity|by repeat constructor]).
Qed.

Lemma field_same key v : key ∈ LOCK_KEYS → quotable v → lock_field (lock_entry key v) key = Some v.
Proof.
  intros (b & l & Hk & Hf)%lock_key_text Hv. destruct (lock_entry_line key v b l Hk Hf Hv) as (Ht & _).
  unfold lock_field. rewrite Ht. unfold lock_entry at 1. rewrite strip_prefix_app. cbn [mbind option_bind].
  change (as_bytes " = " ++ x22 :: as_bytes v ++ [x22]) with (x20 :: [x3d; x20] ++ x22 :: as_bytes v ++ [x22]).
  rewrite (Http.trim_sp _ x3d x22); [|done|done|done|by rewrite app_comm_cons, app_assoc, last_snoc].
  cbn [app]. change (x3d :: x20 :: x22 :: as_bytes v ++ [x22]) with ([x3d] ++ x20 :: x22 :: as_bytes v ++ [x22]).
  rewrite strip_prefix_app. cbn [mbind option_bind]. by rewrite unquoted_quoted.
Qed.
Lemma field_other key key' v : key ∈ LOCK_KEYS → key' ∈ LOCK_KEYS → key ≠ key' → quotable v → lock_field (lock_entry key v) key' = None.
Proof.
  intros Hk Hk' Hne Hv. destruct (lock_key_text key Hk) as (b & l & Eb & Hf). destruct (lock_entry_line key v b l Eb Hf Hv) as (Ht & _).
  unfold lock_field. rewrite Ht. assert (strip_prefix (as_bytes key') (lock_entry key v) = None) as ->; [|done].
  unfold strip_prefix, lock_entry. clear Ht. revert Hk Hk'. unfold LOCK_KEYS. rewrite !elem_of_cons.
  intros [->|[->|[->|[->|H]]]] [->|[->|[->|[->|H']]]]; try done; try (by apply not_elem_of_nil in H); try (by apply not_elem_of_nil in H').
Qed.

Definition fold_lock (st : list LockedPackage * option LockedPackage) (ls : list bytes) := fold_left (λ st line, lock_line line st) ls st.
Lemma entry_not_header key v : key ∈ LOCK_KEYS → quotable v → trim (lock_entry key v) ≠ as_bytes "[[package]]".
Proof.
  intros Hk Hv. destruct (lock_key_text key Hk) as (b & l & Eb & Hf). destruct (lock_entry_line key v b l Eb Hf Hv) as (-> & _).
  unfold lock_entry. clear Eb Hf. revert Hk. unfold LOCK_KEYS. rewrite !elem_of_cons.
  intros [->|[->|[->|[->|H]]]]; [done..|by apply not_elem_of_nil in H].
Qed.

(** What one entry does to the package being read. *)
Definition set_field (key v : string) (p : LockedPackage) : LockedPackage :=
  if bool_decide (key = "name") then mkLocked v (lp_version p) (lp_source p) (lp_checksum p)
  else if bool_decide (key = "version") then mkLocked (lp_name p) v (lp_source p) (lp_checksum p)
  else if bool_decide (key = "source") then mkLocked (lp_name p) (lp_version p) (Some v) (lp_checksum p)
  else mkLocked (lp_name p) (lp_version p) (lp_source p) (Some v).
Lemma lock_line_entry key v pkgs p : key ∈ LOCK_KEYS → quotable v →
  lock_line (lock_entry key v) (pkgs, Some p) = (pkgs, Some (set_field key v p)).
Proof.
  intros Hk Hv. unfold lock_line. rewrite bool_decide_eq_false_2 by by apply entry_not_header. f_equal. f_equal.
  assert (∀ k', k' ∈ LOCK_KEYS → lock_field (lock_entry key v) k' = if bool_decide (key = k') then Some v else None) as K.
  { intros k' Hk'. case_bool_decide; [subst; by apply field_same|by apply field_other]. }
  rewrite !K by (vm_decide). clear K. revert Hk. unfold LOCK_KEYS. rewrite !elem_of_cons.
  intros [->|[->|[->|[->|H]]]]; [done..|by apply not_elem_of_nil in H].
Qed.
Lemma lock_line_other l pkgs p : lock_other l → lock_line l (pkgs, Some p) = (pkgs, Some p).
Proof.
  intros (_ & _ & Hh & _ & H1 & H2 & H3 & H4). unfold lock_line. rewrite bool_decide_eq_false_2 by done. by rewrite H1, H2, H3, H4.
Qed.
Lemma fold_lock_more ls pkgs p : Forall lock_other ls → fold_lock (pkgs, Some p) ls = (pkgs, Some p).
Proof. unfold fold_lock. induction 1 as [|l ls Hl _ IH]; [done|]. cbn [fold_left]. by rewrite lock_line_other. Qed.

Definition closed (st : list LockedPackage * option LockedPackage) : list LockedPackage :=
  match st.2 with Some p => st.1 ++ [p] | None => st.1 end.
Lemma fold_lock_package x st : lockable x → fold_lock st (package_lines x.1 x.2) = (closed st, Some x.1).
Proof.
  destruct x as [[name version source checksum] more], st as [pkgs cur]. intros (H1 & H2 & H3 & H4 & H5). cbn [fst snd] in *.
  unfold package_lines, fold_lock. cbn [lp_name lp_version lp_source lp_checksum] in *. rewrite !fold_left_app. cbn [fold_left].
  assert (lock_line (as_bytes "[[package]]") (pkgs, cur) = (closed (pkgs, cur), Some (mkLocked EmptyString EmptyString None None))) as ->.
  { unfold lock_line. rewrite bool_decide_eq_true_2 by by vm_compute. done. }
  assert ("name" ∈ LOCK_KEYS ∧ "version" ∈ LOCK_KEYS ∧ "source" ∈ LOCK_KEYS ∧ "checksum" ∈ LOCK_KEYS) as (K1 & K2 & K3 & K4)
    by (vm_decide).
  rewrite !lock_line_entry by done.
  assert (∀ pk p, fold_left (λ st line, lock_line line st) more (pk, Some p) = (pk, Some p)) as F by (intros; by apply fold_lock_more).
  destruct source as [s|], checksum as [c|]; cbn [fold_left]; rewrite ?lock_line_entry by auto; by rewrite F.
Qed.

Lemma fold_lock_all pkgs st : Forall lockable pkgs →
  closed (fold_lock st (mjoin ((λ x, package_lines x.1 x.2) <$> pkgs))) = closed st ++ pkgs.*1.
Proof.
  intros H. revert st. induction H as [|x pkgs Hx _ IH]; intros st; [by rewrite app_nil_r|].
  change (mjoin ((λ x, package_lines x.1 x.2) <$> x :: pkgs)) with (package_lines x.1 x.2 ++ mjoin ((λ x, package_lines x.1 x.2) <$> pkgs)).
  unfold fold_lock. rewrite fold_left_app. fold (fold_lock st (package_lines x.1 x.2)). rewrite fold_lock_package by done.
  fold (fold_lock (closed st, Some x.1) (mjoin ((λ x, package_lines x.1 x.2) <$> pkgs))). rewrite IH. cbn [closed fst snd fmap list_fmap].
  by rewrite <-app_assoc.
Qed.

Lemma package_line_ok x : lockable x → Forall (λ l, clean_line l ∧ valid_utf8 l = true) (package_lines x.1 x.2).
Proof.
  intros (H1 & H2 & H3 & H4 & H5).
  assert (∀ k v, k ∈ LOCK_KEYS → quotable v → clean_line (lock_entry k v) ∧ valid_utf8 (lock_entry k v) = true) as K.
  { intros k v (b & l & Eb & Hf)%lock_key_text Hv. by apply (lock_entry_line k v b l). }
  unfold package_lines. repeat (apply Forall_app; split).
  - repeat constructor; try (apply K; [vm_decide|done]); vm_decide.
  - destruct (lp_source x.1); repeat constructor; apply K; auto; vm_decide.
  - destruct (lp_checksum x.1); repeat constructor; apply K; auto; vm_decide.
  - eapply Forall_impl; [exact H5|]. intros l (? & ? & _). done.
Qed.

Definition name_of (line : bytes) : option string := unquoted <$> strip_prefix (as_bytes "name = ") (trim line).
Lemma name_of_entry key v : key ∈ LOCK_KEYS → quotable v → name_of (lock_entry key v) = if bool_decide (key = "name") then Some v else None.
Proof.
  intros Hk Hv. destruct (lock_key_text key Hk) as (b & l & Eb & Hf). destruct (lock_entry_line key v b l Eb Hf Hv) as (Ht & _).
  unfold name_of. rewrite Ht. clear Ht Eb Hf. revert Hk. unfold LOCK_KEYS. rewrite !elem_of_cons. unfold lock_entry.
  intros [->|[->|[->|[->|H]]]]; [|done..|by apply not_elem_of_nil in H].
  change (as_bytes "name" ++ as_bytes " = " ++ x22 :: as_bytes v ++ [x22]) with (as_bytes "name = " ++ x22 :: as_bytes v ++ [x22]).
  rewrite strip_prefix_app. cbn [fmap option_fmap option_map]. unfold unquoted. rewrite (trim_word _ (quoted_visible v Hv)).
  rewrite trim_quotes by (eapply Forall_impl; [exact Hv|]; by intros c []). unfold as_bytes. by rewrite string_of_list_byte_of_string.
Qed.

Lemma names_of_package x : lockable x → omap name_of (package_lines x.1 x.2) = [lp_name x.1].
Proof.
  intros (H1 & H2 & H3 & H4 & H5). unfold package_lines. rewrite !omap_app.
  assert (omap name_of x.2 = []) as ->.
  { induction H5 as [|l ls (_ & _ & _ & Hn & _) _ IH]; [done|]. cbn [omap list_omap]. unfold name_of at 1. by rewrite Hn. }
  assert (omap name_of [as_bytes "[[package]]"; lock_entry "name" (lp_name x.1); lock_entry "version" (lp_version x.1)] = [lp_name x.1]) as ->.
  { cbn [omap list_omap]. assert (name_of (as_bytes "[[package]]") = None) as -> by by vm_compute.
    rewrite !name_of_entry by (done || vm_decide). done. }
  assert (omap name_of (match lp_source x.1 with Some v => [lock_entry "source" v] | None => [] end) = []) as ->.
  { destruct (lp_source x.1); [|done]. cbn [omap list_omap]. by rewrite name_of_entry by (auto || vm_decide). }
  assert (omap name_of (match lp_checksum x.1 with Some v => [lock_entry "checksum" v] | None => [] end) = []) as ->; [|done].
  destruct (lp_checksum x.1); [|done]. cbn [omap list_omap]. by rewrite name_of_entry by (auto || vm_decide).
Qed.

(** Both readers of the lock file see every package Cargo wrote, and nothing else: the bill of
    materials has them all, and the names the dependency check looks at are theirs. *)
Lemma lock_roundtrip pkgs : Forall lockable pkgs →
  valid_utf8 (lock_text pkgs) = true ∧ lock_packages (lock_text pkgs) = pkgs.*1 ∧ package_names (lock_text pkgs) = lp_name <$> pkgs.*1.
Proof.
  intros H. unfold lock_text. set (ls := mjoin _).
  assert (Forall (λ l, clean_line l ∧ valid_utf8 l = true) ls) as Hl.
  { apply Forall_join, Forall_fmap. eapply Forall_impl; [exact H|]. intros x. apply package_line_ok. }
  assert (lines (file_text ls) = ls) as E.
  { apply file_text_lines. eapply Forall_impl; [exact Hl|]. by intros l []. }
  split; [apply file_text_utf8; eapply Forall_impl; [exact Hl|]; by intros l []|]. split.
  - unfold lock_packages. rewrite E. pose proof (fold_lock_all pkgs ([], None) H) as K. unfold fold_lock in K. fold ls in K.
    destruct (fold_left _ ls _) as [pk cur]. exact K.
  - unfold package_names. rewrite E. fold name_of. clear Hl E. subst ls. induction H as [|x pkgs Hx _ IH]; [done|].
    change (mjoin ((λ x, package_lines x.1 x.2) <$> x :: pkgs)) with (package_lines x.1 x.2 ++ mjoin ((λ x, package_lines x.1 x.2) <$> pkgs)).
    rewrite omap_app, names_of_package, IH by done. done.
Qed.

(** The dependency check on a lock file of Cargo: it passes exactly when no locked package is
    on the list. *)
Lemma egress_cargo `{RND : SystemRandom} lock (w : World) pkgs : w_sched w = [] → Forall lockable pkgs →
  w_files w !! file lock = Some (lock_text pkgs) →
  (egress_check lock w).1 = Ok () ↔ Forall (λ p, lp_name p ∉ FORBIDDEN_ML_TELEMETRY) pkgs.*1.
Proof.
  intros Hs Hp Hf. destruct (lock_roundtrip pkgs Hp) as (Hu & _ & Hn). rewrite egress_exact by done. rewrite Hf. split.
  - intros (c & [= <-] & _ & H). rewrite Hn in H. apply Forall_forall. intros p Hin Hbad. apply (proj1 (Forall_forall _ _) H _ Hbad).
    apply list_elem_of_fmap. eauto.
  - intros H. exists (lock_text pkgs). split_and!; [done..|]. rewrite Hn. apply Forall_forall. intros f Hbad Hin.
    apply list_elem_of_fmap in Hin as (p & -> & Hin). by apply (proj1 (Forall_forall _ _) H p).
Qed.

(** Without the blanks around the sign, which TOML allows and Cargo writes, the check sees no
    name while the bill of materials has it. *)
Definition unspaced_lock : bytes := file_text [as_bytes "[[package]]"; as_bytes "name=" ++ [x22] ++ as_bytes "tch" ++ [x22]].
Example unspaced_name_unseen : package_names unspaced_lock = [] ∧ lp_name <$> lock_packages unspaced_lock = ["tch"].
Proof. split; vm_refl. Qed.
