(* ===== verification/XtaskToy.v ===== *)
(** A run of the provenance task at executable instances, from the reference to the verdict of
    the verification tool. *)

From S2P Require Import Prelude Text Backend Toy Envelope Primitives Sig Fs AuditLog Search Json Config Provenance AcceptanceToy Xtask XtaskTheory.

Section witnesses.
#[local] Existing Instance toy_lower.
#[local] Existing Instance toy_rng.
#[local] Existing Instance toy_digests.
#[local] Existing Instance toy_aead.
#[local] Existing Instance toy_hex.
#[local] Existing Instance toy_ed25519.
#[local] Existing Instance toy_ed25519_gen.
#[local] Existing Instance toy_mldsa.
#[local] Existing Instance toy_serde.

(** A statement and a key as trees, for the serializer. *)
Definition leaves (l : list string) : gen_tree string := GenNode 0 (GenLeaf <$> l).
Definition tree_leaf (t : gen_tree string) : option string := match t with GenLeaf s => Some s | _ => None end.
Definition tree_leaves (t : gen_tree string) : option (list string) := match t with GenNode _ l => mapM tree_leaf l | _ => None end.
Lemma tree_leaves_leaves l : tree_leaves (leaves l) = Some l.
Proof. apply mapM_fmap_Some. done. Qed.
Definition pair_of (l : list string) : option (string * string) := match l with [a; b] => Some (a, b) | _ => None end.
Definition subject_tree (s : Subject) : gen_tree string := GenNode 0 (GenLeaf (su_name s) :: ((λ d, leaves [d.1; d.2]) <$> su_digest s)).
Definition tree_subject (t : gen_tree string) : option Subject :=
  match t with GenNode _ (GenLeaf n :: l) => mkSubject n <$> mapM (λ t, tree_leaves t ≫= pair_of) l | _ => None end.
Lemma tree_subject_tree s : tree_subject (subject_tree s) = Some s.
Proof. destruct s as [n d]. cbn. rewrite mapM_fmap_Some; [done|]. by intros []. Qed.

Definition predicate_fields (p : ProvenancePredicate) : list string :=
  [pp_build_type p; pp_builder_id p; pp_snp_measurement_hex p; pp_vmm_launch_method p; pp_git_commit p; pp_source_date_epoch p].
Definition predicate_of (l : list string) : option ProvenancePredicate :=
  match l with [a; b; c; d; e; f] => Some (mkPredicate a b c d e f) | _ => None end.
Definition statement_tree (s : ProvenanceStatement) : gen_tree string :=
  GenNode 0 [GenLeaf (ps_type s); GenLeaf (ps_predicate_type s); GenNode 0 (subject_tree <$> ps_subject s); leaves (predicate_fields (ps_predicate s))].
Definition tree_statement (t : gen_tree string) : option ProvenanceStatement :=
  match t with
  | GenNode _ [GenLeaf a; GenLeaf b; GenNode _ l; p] =>
      subjects ← mapM tree_subject l; predicate ← tree_leaves p ≫= predicate_of; Some (mkStatement a b subjects predicate)
  | _ => None
  end.
Lemma tree_statement_tree s : tree_statement (statement_tree s) = Some s.
Proof. destruct s as [a b l []]. cbn. by rewrite mapM_fmap_Some by apply tree_subject_tree. Qed.
#[local] Instance statement_serde : Serde ProvenanceStatement := tree_serde statement_tree tree_statement tree_statement_tree.
#[local] Instance vk_serde : Serde Sig.VerifyingKey := tree_serde key_tree tree_key tree_key_tree.

(** Other records as tuples. *)
#[local] Instance ArtifactDigest_eq_dec : EqDecision ArtifactDigest.
Proof. solve_decision. Defined.
Lemma artifact_code a : mkArtifact (ad_path a) (ad_sha384_hex a) (ad_len a) = a.
Proof. by destruct a. Qed.
#[local] Instance ArtifactDigest_countable : Countable ArtifactDigest :=
  inj_countable' (λ a, (ad_path a, ad_sha384_hex a, ad_len a)) (λ x, let '(a, b, c) := x in mkArtifact a b c) artifact_code.

#[local] Instance ImageManifest_eq_dec : EqDecision ImageManifest.
Proof. solve_decision. Defined.
Lemma manifest_code m : mkManifest (im_artifacts m) (im_source_date_epoch m) (im_note m) = m.
Proof. by destruct m. Qed.
#[local] Instance ImageManifest_countable : Countable ImageManifest :=
  inj_countable' (λ m, (im_artifacts m, im_source_date_epoch m, im_note m)) (λ x, let '(a, b, c) := x in mkManifest a b c) manifest_code.

#[local] Instance ExpectedArtifact_eq_dec : EqDecision ExpectedArtifact.
Proof. solve_decision. Defined.
Lemma expected_code e : mkExpected (ea_role e) (ea_path e) (ea_sha384_hex e) = e.
Proof. by destruct e. Qed.
#[local] Instance ExpectedArtifact_countable : Countable ExpectedArtifact :=
  inj_countable' (λ e, (ea_role e, ea_path e, ea_sha384_hex e)) (λ x, let '(a, b, c) := x in mkExpected a b c) expected_code.

#[local] Instance SnpMeasureParams_eq_dec : EqDecision SnpMeasureParams.
Proof. solve_decision. Defined.
Lemma params_code p : mkParams (mp_ovmf p) (mp_kernel p) (mp_initrd p) (mp_append p) (mp_vcpus p) (mp_vcpu_type p) (mp_vmm_launch_method p)
  (mp_ovmf_pin p) (mp_expected_artifacts p) = p.
Proof. by destruct p. Qed.
#[local] Instance SnpMeasureParams_countable : Countable SnpMeasureParams :=
  inj_countable' (λ p, (mp_ovmf p, mp_kernel p, mp_initrd p, mp_append p, mp_vcpus p, mp_vcpu_type p, mp_vmm_launch_method p, mp_ovmf_pin p, mp_expected_artifacts p))
    (λ x, let '(a, b, c, d, e, f, g, h, i) := x in mkParams a b c d e f g h i) params_code.

#[local] Instance SnpReference_eq_dec : EqDecision SnpReference.
Proof. solve_decision. Defined.
Lemma reference_code r : mkReference (sr_measurement_hex r) (sr_mode r) (sr_params r) (sr_tool r) (sr_note r) (sr_git_commit r) (sr_vmm_launch_method r)
  (sr_launch_artifacts r) = r.
Proof. by destruct r. Qed.
#[local] Instance SnpReference_countable : Countable SnpReference :=
  inj_countable' (λ r, (sr_measurement_hex r, sr_mode r, sr_params r, sr_tool r, sr_note r, sr_git_commit r, sr_vmm_launch_method r, sr_launch_artifacts r))
    (λ x, let '(a, b, c, d, e, f, g, h) := x in mkReference a b c d e f g h) reference_code.

#[local] Instance SigningKeyBundle_eq_dec : EqDecision Sig.SigningKeyBundle.
Proof. solve_decision. Defined.
Lemma bundle_code b : Sig.mkBundle (Sig.b_scheme b) (Sig.b_ed25519_pkcs8_hex b) (Sig.b_mldsa_seed_hex b) = b.
Proof. by destruct b. Qed.
#[local] Instance SigningKeyBundle_countable : Countable Sig.SigningKeyBundle :=
  inj_countable' (λ b, (Sig.b_scheme b, Sig.b_ed25519_pkcs8_hex b, Sig.b_mldsa_seed_hex b)) (λ x, let '(a, b, c) := x in Sig.mkBundle a b c) bundle_code.
(** One form of each text. *)
#[local] Instance toy_pretty A `{Serde A} : SerdePretty A := {| to_vec_pretty := to_vec; from_slice_pretty := from_slice_to_vec |}.
#[local] Instance no_tools : BuildTools := {| sev_snp_measure := λ _, Err "absent"; git_rev_parse := None |}.
#[local] Instance toy_value_text : JsonPretty := λ _, [].

(** A kernel that was measured, and a bill of materials. *)
Definition kernel : bytes := [x01; x02; x03].
Definition toy_reference : SnpReference :=
  mkReference "AB" "snp" params_default "t" "n" None None [mkArtifact "./bzImage" (hex_encode (sha384 kernel)) 3].
Definition build_dir : World :=
  mkWorld {[file "ref.json" := to_vec toy_reference; file "sbom.json" := [x7b; x7d]; file "./bzImage" := kernel]} [] 0.
Definition prov_args : list string := ["--reference"; "ref.json"; "--sbom"; "sbom.json"; "--out"; "p.json"].
Definition attested : result string unit * World :=
  provenance (λ _, None) (λ _, EmptyString) (λ _, EmptyString) (λ _, EmptyString) prov_args [] build_dir.

Lemma attested_ok : attested.1 = Ok ().
Proof. vm_refl. Qed.
Lemma attested_verifies : verify_provenance (left_file attested.2) (left_bytes attested.2) "p.json" "p.json.sig" "p.json.vk.json" = Ok Finished.
Proof. vm_refl. Qed.

Lemma provenance_accepted_witness :
  attested.1 = Ok () ∧ verify_provenance (left_file attested.2) (left_bytes attested.2) "p.json" "p.json.sig" "p.json.vk.json" = Ok Finished ∧
  ∃ statement, from_slice (default [] (w_files attested.2 !! file "p.json")) = Some statement ∧
    artifact_subject (mkArtifact "./bzImage" (hex_encode (sha384 kernel)) 3) ∈ ps_subject statement.
Proof.
  split; [apply attested_ok|]. split; [apply attested_verifies|].
  destruct (provenance_accepted (λ _, None) (λ _, EmptyString) (λ _, EmptyString) (λ _, EmptyString) prov_args []
    (mkProvenanceArgs (Some "ref.json") None (Some "sbom.json") None "p.json" None) build_dir attested.2)
    as (statement & reference & rp & rb & Hr & Hb & Hs & Hf & _ & _ & (oci & bins & mats & Hl & _) & _); [vm_refl|reflexivity|rewrite <-attested_ok; apply surjective_pairing|].
  exists statement. cbn [pa_out] in Hf. rewrite Hf. split; [apply from_slice_to_vec|].
  apply (inj Some) in Hr. subst rp.
  assert (w_files build_dir !! file "ref.json" = Some (to_vec toy_reference)) as Hb' by apply lookup_insert_eq.
  rewrite Hb' in Hb. apply (inj Some) in Hb. subst rb. rewrite from_slice_to_vec in Hs. apply (inj Some) in Hs. subst reference.
  rewrite Hl. apply elem_of_app. right. apply elem_of_app. left. by left.
Defined.

(** A kernel that was changed after the statement was signed is found out. *)
Definition changed : World := mkWorld (<[file "./bzImage" := [x01; x02; x04]]> (w_files attested.2)) [] 0.
Example changed_kernel_refused : is_ok (verify_provenance (left_file changed) (left_bytes changed) "p.json" "p.json.sig" "p.json.vk.json") = false.
Proof. vm_refl. Qed.
End witnesses.
