(* ===== verification/Web.v ===== *)
(** The pages of the server: [bins/secgit-server/src/web.rs].  [html] writes a template of
    the source with its quotation marks as apostrophes.  A character of a text is its
    UTF-8 bytes; the Unicode letters are the class [UnicodeLetters], the head of a
    repository (read through gitoxide) the class [GixHead]. *)

From Stdlib Require Import Ascii.
From S2P Require Import Prelude Text BTree Backend Primitives Fs ObjectStore AuditLog Search Forge Git Identity DirectoryStore.
From S2P Require Import Auth Reviews Api Http Authz Pow Abuse RateLimit Json Scim Sso Events Metrics Server.

(** [char::is_alphabetic] and [char::is_numeric] of a character. *)
Class UnicodeLetters := { is_alphabetic : bytes → bool; is_numeric : bytes → bool }.
Class GixHead (W : Type) := gix_head : string → W → result ForgeError (option string).

Definition html (s : string) : string :=
  string_of_list_byte ((λ b, if bool_decide (b = x27) then x22 else b) <$> as_bytes s).
Definition text (b : bytes) : string := string_of_list_byte b.

(** ** Escaping *)

Definition escape_byte (b : byte) : bytes :=
  match b with
  | x26 => as_bytes "&amp;"
  | x3c => as_bytes "&lt;"
  | x3e => as_bytes "&gt;"
  | x22 => as_bytes "&quot;"
  | x27 => as_bytes "&#39;"
  | b => [b]
  end.
Definition escape_bytes (s : bytes) : bytes := s ≫= escape_byte.
Definition escape (s : string) : string := text (escape_bytes (as_bytes s)).

(** [{b:02X}]. *)
Definition upper_hex (n : N) : byte := byte_of_N (if n <? 10 then 48 + n else 55 + n).
Definition unreserved (b : byte) : bool :=
  is_ascii_alphanumeric b || bool_decide (b = x2d) || bool_decide (b = x5f) || bool_decide (b = x2e) || bool_decide (b = x7e).
Definition urlencode_byte (b : byte) : bytes :=
  if unreserved b then [b] else [x25; upper_hex (Byte.to_N b / 16); upper_hex (Byte.to_N b mod 16)].
Definition urlencode (s : string) : string := text (as_bytes s ≫= urlencode_byte).

(** ** Highlighting *)

Inductive Lang := Rust | CLike | Python | Shell | NoLang.

Definition language_for (path : string) : Lang :=
  let ext := text (default [] (last (split_on x2e (as_bytes path)))) in
  if bool_decide (ext = "rs") then Rust
  else if contains ext ["c"; "h"; "cpp"; "cc"; "hpp"; "js"; "ts"; "go"; "java"; "json"] then CLike
  else if bool_decide (ext = "py") then Python
  else if contains ext ["sh"; "bash"; "zsh"; "toml"; "yaml"; "yml"] then Shell
  else NoLang.

Definition keywords (lang : Lang) : list string :=
  match lang with
  | Rust =>
      ["fn"; "let"; "mut"; "pub"; "use"; "mod"; "struct"; "enum"; "impl"; "trait"; "for";
       "while"; "loop"; "if"; "else"; "match"; "return"; "self"; "Self"; "crate"; "super";
       "as"; "const"; "static"; "ref"; "move"; "where"; "async"; "await"; "dyn"; "type"]
  | CLike =>
      ["function"; "var"; "let"; "const"; "if"; "else"; "for"; "while"; "return"; "class";
       "new"; "import"; "export"; "from"; "int"; "char"; "void"; "struct"; "switch"; "case";
       "break"; "continue"; "func"; "package"; "public"; "private"; "static"]
  | Python =>
      ["def"; "class"; "import"; "from"; "return"; "if"; "elif"; "else"; "for"; "while";
       "try"; "except"; "finally"; "with"; "as"; "lambda"; "yield"; "pass"; "None"; "True";
       "False"; "and"; "or"; "not"; "in"; "is"]
  | Shell =>
      ["if"; "then"; "else"; "fi"; "for"; "in"; "do"; "done"; "while"; "case"; "esac";
       "function"; "echo"; "export"; "local"; "return"]
  | NoLang => []
  end.

Definition line_comment (lang : Lang) : option string :=
  match lang with Rust | CLike => Some "//" | Python | Shell => Some "#" | NoLang => None end.

Definition BACKSLASH : byte := x5c.
Definition is_quote (b : byte) : bool := bool_decide (b = x22) || bool_decide (b = x27).

(** Where a comment starts that is not inside a string literal. *)
Fixpoint find_comment_start (m : bytes) (in_str : option byte) (bs : bytes) : option nat :=
  match bs with
  | [] => None
  | c :: rest =>
      match in_str with
      | Some q =>
          if bool_decide (c = BACKSLASH) then
            match rest with [] => None | _ :: rest => (λ n, S (S n)) <$> find_comment_start m in_str rest end
          else S <$> find_comment_start m (if bool_decide (c = q) then None else in_str) rest
      | None =>
          if is_quote c then S <$> find_comment_start m (Some c) rest
          else if starts_with m bs then Some 0%nat
          else S <$> find_comment_start m None rest
      end
  end.

(** [code.chars()]. *)
Fixpoint chars_fuel (fuel : nat) (bs : bytes) : list bytes :=
  match fuel, bs with
  | O, _ | _, [] => []
  | S fuel, b :: bs => let n := (utf8_step b bs).1 in (b :: take n bs) :: chars_fuel fuel (drop n bs)
  end.
Definition chars (bs : bytes) : list bytes := chars_fuel (length bs) bs.

(** The rest of a string literal, with its closing quote if there is one. *)
Fixpoint scan_string (quote : bytes) (cs : list bytes) : list bytes * list bytes :=
  match cs with
  | [] => ([], [])
  | c :: cs =>
      if bool_decide (c = [BACKSLASH]) then
        match cs with
        | [] => ([c], [])
        | d :: cs => let '(t, r) := scan_string quote cs in (c :: d :: t, r)
        end
      else if bool_decide (c = quote) then ([c], cs)
      else let '(t, r) := scan_string quote cs in (c :: t, r)
  end.
Fixpoint scan_while (p : bytes → bool) (cs : list bytes) : list bytes * list bytes :=
  match cs with
  | [] => ([], [])
  | c :: cs' => if p c then let '(t, r) := scan_while p cs' in (c :: t, r) else ([], cs)
  end.

Definition one (p : byte → bool) (c : bytes) : bool := match c with [b] => p b | _ => false end.
Definition span (class : string) (s : bytes) : bytes :=
  as_bytes (html "<span class='" +:+ class +:+ html "'>") ++ escape_bytes s ++ as_bytes "</span>".

Section highlight.
Context `{ULt : UnicodeLetters}.

Definition is_alphanumeric (c : bytes) : bool := is_alphabetic c || is_numeric c.
Fixpoint highlight_loop (fuel : nat) (kws : list string) (cs : list bytes) : bytes :=
  match fuel, cs with
  | O, _ | _, [] => []
  | S fuel, c :: cs' =>
      if one is_quote c then
        let '(t, r) := scan_string c cs' in span "str" (mjoin (c :: t)) ++ highlight_loop fuel kws r
      else if one is_ascii_digit c then
        let '(t, r) := scan_while (one (λ b, is_ascii_alphanumeric b || bool_decide (b = x2e) || bool_decide (b = x5f))) cs in
        span "num" (mjoin t) ++ highlight_loop fuel kws r
      else if is_alphabetic c || bool_decide (c = [x5f]) then
        let '(t, r) := scan_while (λ c, is_alphanumeric c || bool_decide (c = [x5f])) cs in
        let word := mjoin t in
        (if contains (text word) kws then span "kw" word else escape_bytes word) ++ highlight_loop fuel kws r
      else escape_bytes c ++ highlight_loop fuel kws cs'
  end.
Definition highlight_code (code : bytes) (lang : Lang) : bytes :=
  let cs := chars code in highlight_loop (length cs) (keywords lang) cs.

Definition highlight_line (line : bytes) (lang : Lang) : bytes :=
  match (lc ← line_comment lang; find_comment_start (as_bytes lc) None line) with
  | Some pos => highlight_code (take pos line) lang ++ span "com" (drop pos line)
  | None => highlight_code line lang
  end.

Definition code_row (i : nat) (class : string) (content : bytes) : bytes :=
  as_bytes (html "<tr><td class='ln'>" +:+ pretty (N.of_nat (S i)) +:+ html "</td><td class='" +:+ class +:+ html "'>") ++
  content ++ as_bytes "</td></tr>".
Definition highlight_block (txt : bytes) (lang : Lang) : bytes :=
  as_bytes (html "<div class='code'><table>") ++
  mjoin (imap (λ i line, code_row i "src" (highlight_line line lang)) (split_on NL txt)) ++ as_bytes "</table></div>".

Definition diff_class (line : bytes) : string :=
  let s p := starts_with (as_bytes p) line in
  if s "+++" || s "---" then "" else if s "+" then "add" else if s "-" then "del" else if s "@@" then "hunk" else "".
Definition render_diff (diff : bytes) : bytes :=
  as_bytes (html "<div class='code diff'><table>") ++
  mjoin (imap (λ i line, code_row i ("src " +:+ diff_class line) (escape_bytes line)) (lines diff)) ++ as_bytes "</table></div>".
End highlight.

(** ** Pages *)

Definition STYLE : string := "
body{font:14px/1.5 -apple-system,Segoe UI,Roboto,sans-serif;margin:0;color:#1c1e21;background:#fff}
header{background:#0d1117;color:#e6edf3;padding:10px 18px}
header a{color:#58a6ff;text-decoration:none;margin-right:14px}
main{max-width:1000px;margin:18px auto;padding:0 16px}
h1,h2{font-weight:600}
table.list{border-collapse:collapse;width:100%}
table.list td{padding:5px 8px;border-bottom:1px solid #eaecef}
a{color:#0969da;text-decoration:none}
a:hover{text-decoration:underline}
.code{border:1px solid #d0d7de;border-radius:6px;overflow:auto}
.code table{border-collapse:collapse;width:100%;font:12px/1.45 SFMono-Regular,Consolas,monospace}
.code td.ln{color:#8c959f;text-align:right;padding:0 10px;user-select:none;border-right:1px solid #eaecef;width:1%;white-space:nowrap}
.code td.src{padding:0 12px;white-space:pre}
.kw{color:#cf222e}.str{color:#0a3069}.com{color:#6e7781;font-style:italic}.num{color:#0550ae}
.diff .add{background:#e6ffec}.diff .del{background:#ffebe9}.diff .hunk{color:#0550ae;background:#f6f8fa}
.muted{color:#6e7781}
.crumb{margin-bottom:12px}
".

Definition page_html (title body : string) : string :=
  html "<!doctype html><html><head><meta charset='utf-8'><title>" +:+ escape title +:+ "</title><style>" +:+ STYLE +:+ "</style></head>" +:+
  html "<body><header><a href='/ui'>SecGit</a><span class='muted'>confidential code hosting</span></header><main>" +:+ body +:+
  "</main></body></html>".
Definition page (title body : string) : Response := response_new 200 "OK" "text/html; charset=utf-8" (as_bytes (page_html title body)).
Definition with_status (status : N) (reason : string) (r : Response) : Response :=
  mkResponse status reason (rs_content_type r) (rs_body r) (rs_extra_headers r).
Definition page_404 : Response :=
  with_status 404 "Not Found" (page "Not found" (html "<h1>404</h1><p class='muted'>No such repository.</p>")).
Definition missing (msg : string) : Response := response_text 404 "Not Found" msg.
Definition redirect (location : string) : Response :=
  with_header "Location" location (response_new 303 "See Other" "text/plain" (as_bytes "redirecting")).

Definition concat_rows {A} (f : A → string) (l : list A) : string := foldr (λ x s, f x +:+ s) "" l.
Definition or_empty (rows empty : string) : string := if bool_decide (rows = "") then empty else rows.

Definition org_row (o : Org) : string :=
  html "<tr><td><a href='/ui/org?org=" +:+ escape (o_id o) +:+ html "'>" +:+ escape (o_slug o) +:+ html "</a></td><td class='muted'>" +:+
  pretty (lengthN (o_members o)) +:+ " member(s)</td></tr>".
Definition org_role_text (r : OrgRole) : string := match r with Member => "Member" | Owner => "Owner" end.
Definition member_row (m : string * OrgRole) : string :=
  "<tr><td>" +:+ escape m.1 +:+ html "</td><td class='muted'>" +:+ org_role_text m.2 +:+ "</td></tr>".
Definition team_row (t : Team) : string :=
  "<tr><td>" +:+ escape (t_name t) +:+ html "</td><td class='muted'>" +:+ pretty (lengthN (t_member_ids t)) +:+ " member(s), " +:+
  pretty (lengthN (t_repo_grants t)) +:+ " grant(s)</td></tr>".
Definition admin_form (org_id : string) : string :=
  html "<h2>Manage members</h2><form method='post' action='/ui/org/member'><input type='hidden' name='org' value='" +:+ escape org_id +:+
  html "'>user id <input name='user'> role <select name='role'><option value='member'>member</option><option value='owner'>owner</option></select> <button name='action' value='set'>set</button> <button name='action' value='remove'>remove</button></form>".
Definition org_page (d : Directory) (user org_id : string) (org : Org) : Response :=
  page (o_slug org)
    ("<h1>Organization: " +:+ escape (o_slug org) +:+ html "</h1><h2>Members</h2><table class='list'>" +:+
     concat_rows member_row (o_members org) +:+ html "</table><h2>Teams</h2><table class='list'>" +:+
     concat_rows team_row (teams_in_org d org_id) +:+ "</table>" +:+
     if is_org_owner d org_id user then admin_form org_id else "").

Definition repo_row (r : Repo) : string :=
  html "<tr><td><a href='/ui/tree?repo=" +:+ escape (r_id r) +:+ html "'>" +:+ escape (r_name r) +:+ html "</a></td><td class='muted'>" +:+
  escape (kek_owner r) +:+ html "</td><td><a href='/ui/log?repo=" +:+ escape (r_id r) +:+ html "'>history</a></td></tr>".
Definition new_form : string :=
  html "<h2>New repository</h2><form method='post' action='/ui/repo/new'><input name='name' placeholder='repository name' pattern='[^/]+' required> <button>Create</button><span class='muted'>&nbsp;private (v1 repos are always private)</span></form>".

Definition breadcrumb (repo rev path : string) : string :=
  html "<div class='crumb'><a href='/ui/tree?repo=" +:+ escape repo +:+ html "'>" +:+ escape repo +:+ html "</a> @ <span class='muted'>" +:+
  escape rev +:+ html "</span> &nbsp; <a href='/ui/log?repo=" +:+ escape repo +:+ "&rev=" +:+ escape rev +:+ html "'>commits</a>" +:+
  (if bool_decide (path = "") then "" else " &nbsp;/&nbsp; " +:+ escape path) +:+ "</div>".

Definition entry_row (repo rev dir : string) (e : TreeEntry) : string :=
  let child := child_path dir e in
  let tree := bool_decide (te_kind e = as_bytes "tree") in
  let icon := text (if tree then [xf0; x9f; x93; x81] else [xf0; x9f; x93; x84]) in
  "<tr><td>" +:+ icon +:+ html " <a href='/ui/" +:+ (if tree then "tree" else "blob") +:+ "?repo=" +:+ escape repo +:+ "&rev=" +:+
  escape rev +:+ "&path=" +:+ escape child +:+ html "'>" +:+ escape (text (te_name e)) +:+ "</a></td></tr>".

(** [dir.rsplit_once('/')], the part before. *)
Definition parent_dir (dir : string) : string :=
  text (reverse (drop 1 (drop_while (λ b, negb (bool_decide (b = SLASH))) (reverse (as_bytes dir))))).

Definition tree_page (repo rev dir : string) (entries : list TreeEntry) : Response :=
  page repo
    (breadcrumb repo rev dir +:+ html "<h2>Files</h2><table class='list'>" +:+
     (if bool_decide (dir = "") then ""
      else html "<tr><td><a href='/ui/tree?repo=" +:+ escape repo +:+ "&rev=" +:+ escape rev +:+ "&path=" +:+ escape (parent_dir dir) +:+
           html "'>..</a></td></tr>") +:+
     concat_rows (entry_row repo rev dir) entries +:+ "</table>").

Definition empty_repo_page (repo : string) : Response :=
  page repo
    ("<h1>" +:+ escape repo +:+
     html "</h1><p class='muted'>This repository is empty.</p><h2>Push your first commit</h2><div class='code'><table><tr><td class='src'>git init &amp;&amp; git add -A &amp;&amp; git commit -m 'init'</td></tr><tr><td class='src'>git push http://&lt;user&gt;:&lt;pass&gt;@&lt;host&gt;/" +:+
     escape repo +:+
     html " HEAD:refs/heads/main</td></tr></table></div><p class='muted'>Once you push, files, history, and blame will appear here.</p>").

Definition commit_row (repo : string) (c : CommitInfo) : string :=
  html "<tr><td><a href='/ui/commit?repo=" +:+ escape repo +:+ "&rev=" +:+ escape (text (ci_id c)) +:+ html "'><code>" +:+
  escape (text (ci_short c)) +:+ "</code></a></td><td>" +:+ escape (text (ci_summary c)) +:+ html "</td><td class='muted'>" +:+
  escape (text (ci_author_name c)) +:+ "</td></tr>".
Definition commit_table (repo : string) (commits : list CommitInfo) : string :=
  html "<table class='list'>" +:+ concat_rows (commit_row repo) commits +:+ "</table>".

Section pages.
Context {W St Er : Type} `{WO : WorkOps W} `{GH : GixHead W} `{OS : ObjectStore St Er}.
Context `{RND : SystemRandom} `{DIG : Digests} `{HX : Hex} `{PB : Pbkdf2} `{ED : Ed25519} `{ML : MlDsa} `{CK : Clock} `{ULt : UnicodeLetters}.
Context `{SI : Serde (list string)} `{SM : Serde SealManifest} `{SU : Serde User} `{SO : Serde Org} `{STm : Serde Team} `{SRp : Serde Repo}.
Context `{TF : ErrorText ForgeError}.

Abbreviation H := (H (W := W) (St := St)).

Definition require_auth (req : Request) : H string :=
  o ← authenticate req; match o with Some u => mret u | None => reply auth_required end.
Definition require_read (repo : string) (req : Request) : H string :=
  user ← require_auth req;
  d ← gets directory;
  if negb (bool_decide (is_Some (d_repos d !! repo))) then reply page_404
  else if negb (can d user repo (required_role false)) then reply (response_text 403 "Forbidden" "insufficient access")
  else mret user.

Definition render_org_list (req : Request) : H Response :=
  user ← require_auth req;
  d ← gets directory;
  let rows := or_empty (concat_rows org_row (orgs_for_user d user))
                (html "<tr><td class='muted'>You are not a member of any organization.</td></tr>") in
  mret (page "Organizations" (html "<h1>Organizations</h1><table class='list'>" +:+ rows +:+ "</table>")).

Definition render_org (req : Request) (org_id : string) : H Response :=
  user ← require_auth req;
  d ← gets directory;
  match d_orgs d !! org_id with
  | None => mret page_404
  | Some org =>
      if existsb (λ m, bool_decide (m.1 = user)) (o_members org) then mret (org_page d user org_id org)
      else mret (response_text 403 "Forbidden" "not a member of this organization")
  end.

Definition render_repo_list (req : Request) : H Response :=
  user ← require_auth req;
  d ← gets directory;
  let rows := or_empty (concat_rows repo_row (repos_visible_to d user))
                (html "<tr><td class='muted'>No repositories visible to you.</td></tr>") in
  mret (page "Repositories" (html "<h1>Your repositories</h1><table class='list'>" +:+ rows +:+ "</table>" +:+ new_form)).

Definition forge_head (repo : string) : H (result ForgeError (option string)) := gets (λ a,
  if w_exists (ap_work a) (repo_path repo) then gix_head (repo_path repo) (ap_work a) else Err (FNotFound repo)).

Definition render_tree (repo rev dir : string) : H Response :=
  r ← forge (list_tree repo rev dir);
  match r with
  | Ok entries => mret (tree_page repo rev dir entries)
  | Err e =>
      h ← forge_head repo;
      mret (match h with Ok None => empty_repo_page repo | _ => missing (error_text e) end)
  end.

Definition blob_actions (repo rev path : string) : string :=
  html "<p><a href='/ui/raw?repo=" +:+ escape repo +:+ "&rev=" +:+ escape rev +:+ "&path=" +:+ escape path +:+
  html "'>raw</a> &middot; <a href='/ui/blame?repo=" +:+ escape repo +:+ "&rev=" +:+ escape rev +:+ "&path=" +:+ escape path +:+
  html "'>blame</a></p>".
Definition render_blob (repo rev path : string) : H Response :=
  r ← forge (read_blob repo rev path);
  mret (match r with
        | Err e => missing (error_text e)
        | Ok content =>
            page path
              (breadcrumb repo rev path +:+ blob_actions repo rev path +:+
               if valid_utf8 content then text (highlight_block content (language_for path))
               else html "<p class='muted'>Binary file (" +:+ pretty (lengthN content) +:+ " bytes).</p>")
        end).

Definition render_log (repo rev : string) : H Response :=
  r ← forge (forge_log repo rev 100);
  mret (match r with
        | Err e => missing (error_text e)
        | Ok commits => page (repo +:+ " commits") (breadcrumb repo rev "" +:+ "<h2>Commits</h2>" +:+ commit_table repo commits)
        end).

Definition render_commit (repo rev : string) : H Response :=
  r ← forge (commit_diff repo rev);
  mret (match r with
        | Err e => missing (error_text e)
        | Ok diff =>
            page ("commit " +:+ rev) (breadcrumb repo rev "" +:+ "<h2>Commit " +:+ escape rev +:+ "</h2>" +:+ text (render_diff diff))
        end).

Definition blame_row (repo : string) (l : BlameLine) : string :=
  html "<tr><td class='ln'><a href='/ui/commit?repo=" +:+ escape repo +:+ "&rev=" +:+ escape (text (bl_commit_short l)) +:+ html "'><code>" +:+
  escape (text (bl_commit_short l)) +:+ html "</code></a></td><td class='ln'>" +:+ pretty (bl_lineno l) +:+ html "</td><td class='src'>" +:+
  text (highlight_line (bl_content l) NoLang) +:+ "</td></tr>".
Definition blame_table (repo : string) (ls : list BlameLine) : string :=
  html "<div class='code'><table>" +:+ concat_rows (blame_row repo) ls +:+ "</table></div>".
Definition render_blame (repo rev path : string) : H Response :=
  r ← forge (blame repo rev path);
  mret (match r with
        | Err e => missing (error_text e)
        | Ok ls => page ("blame " +:+ path) (breadcrumb repo rev path +:+ "<h2>Blame: " +:+ escape path +:+ "</h2>" +:+ blame_table repo ls)
        end).

Definition render_raw (repo rev path : string) : H Response :=
  r ← forge (read_blob repo rev path);
  mret (match r with Ok b => response_new 200 "OK" "application/octet-stream" b | Err e => missing (error_text e) end).

(** ** Routes *)

Definition is_ui (path : string) : bool := bool_decide (path = "/ui") || starts_with (as_bytes "/ui/") (as_bytes path).

Definition route_ui (req : Request) : H (option Response) :=
  let path := rq_path req in
  let q k := default "" (rq_query req !! k) in
  let rev := if bool_decide (q "rev" = "") then "HEAD" else q "rev" in
  let reading (c : H Response) : H Response := _ ← require_read (q "repo") req; c in
  if negb (is_ui path) then mret None
  else
    r ← (if bool_decide (path = "/ui") then render_repo_list req
         else if bool_decide (path = "/ui/orgs") then render_org_list req
         else if bool_decide (path = "/ui/org") then render_org req (q "org")
         else if bool_decide (path = "/ui/tree") then reading (render_tree (q "repo") rev (q "path"))
         else if bool_decide (path = "/ui/blob") then reading (render_blob (q "repo") rev (q "path"))
         else if bool_decide (path = "/ui/raw") then reading (render_raw (q "repo") rev (q "path"))
         else if bool_decide (path = "/ui/log") then reading (render_log (q "repo") rev)
         else if bool_decide (path = "/ui/commit") then reading (render_commit (q "repo") rev)
         else if bool_decide (path = "/ui/blame") then reading (render_blame (q "repo") rev (q "path"))
         else mret page_404 : H Response);
    mret (Some r).

Definition form_answer (target : string) (r : result IdentityError unit) : Response :=
  match r with Ok _ => redirect target | Err e => response_text 400 "Bad Request" (identity_error_text e) end.

Definition route_ui_post (req : Request) : H (option Response) :=
  let path := rq_path req in
  if negb (starts_with (as_bytes "/ui/") (as_bytes path)) then mret None
  else
    user ← require_auth req;
    match form req with
    | None => throw Aborts
    | Some f =>
        let get k := default "" (f !! k) in
        let remove := bool_decide (get "action" = "remove") in
        d ← gets directory;
        if bool_decide (path = "/ui/org/member") then
          if negb (is_org_owner d (get "org") user) then mret (Some (response_text 403 "Forbidden" "must be an org owner"))
          else
            r ← on_dir (if remove then remove_org_member (get "org") (get "user")
                        else set_org_member (get "org") (get "user") (if bool_decide (get "role" = "owner") then Owner else Member));
            mret (Some (form_answer ("/ui/org?org=" +:+ urlencode (get "org")) r))
        else if bool_decide (path = "/ui/org/team-member") then
          if negb (is_org_owner d (get "org") user) then mret (Some (response_text 403 "Forbidden" "must be an org owner"))
          else
            r ← on_dir (if remove then remove_team_member (get "team") (get "user") else add_team_member (get "team") (get "user"));
            mret (Some (form_answer ("/ui/org?org=" +:+ urlencode (get "org")) r))
        else if bool_decide (path = "/ui/repo/collaborator") then
          if negb (can d user (get "repo") Identity.Admin) then mret (Some (response_text 403 "Forbidden" "must be a repo admin"))
          else
            let role := if bool_decide (get "role" = "admin") then Identity.Admin
                        else if bool_decide (get "role" = "write") then Write else Read in
            r ← on_dir (if remove then remove_collaborator (get "repo") (get "user") else set_collaborator (get "repo") (get "user") role);
            mret (Some (form_answer ("/ui/tree?repo=" +:+ urlencode (get "repo")) r))
        else mret None
    end.
End pages.
