(* ===== verification/Routes.v ===== *)
(** The dispatcher of the server and its remaining handlers: the anonymous sandbox, abuse
    reports and the waitlist, the operator's routes, attestation, the sweeps, the
    connection cap and the handling of one connection ([bins/secgit-server/src/main.rs]).
    The landing page's text, the transparency files and the attester of the machine are
    the record [Site]. *)

From Stdlib Require Import ZArith.
From S2P Require Import Envelope Aead Attest Saml Xml.
From S2P Require Import Prelude Text BTree Backend Primitives Fs ObjectStore AuditLog Search Forge Git Identity DirectoryStore.
From S2P Require Import Auth Reviews Api Http Authz Pow Abuse RateLimit Json Scim Sso Events Metrics Server Rest Web.

(** ** Keys *)

Section keys.
Context `{MAC : Hmacs}.
(** Domain-separated subkeys of the instance key. *)
Definition derive_subkey (kek info : bytes) : result CryptoError bytes :=
  hkdf_sha384 kek (as_bytes "secgit/subkey-salt/v1") info 32.
End keys.

(** ** Connections *)

(** One accepted connection: the gauge is raised, and lowered again when the cap is
    reached, which drops the connection. *)
Definition accept_connection (max_connections : N) (m : Metrics) : bool * Metrics :=
  let prev := m active_connections in
  let m := inc active_connections m in
  if max_connections <=? prev then (false, inc conn_rejected_total (dec active_connections m))
  else (true, inc conn_accepted_total m).

(** What is outside the code: the landing page, the files of the transparency routes
    ([None]: not configured; [Some None]: unreadable), the attester, the printer of
    evidence, the fingerprint of the TLS key. *)
Record Site := mkSite {
  st_landing : Response;
  st_file : string → option (option bytes);
  st_attester : Attester;
  st_evidence_json : Evidence → Value;
  st_backend_text : TeeBackend → string;
  st_attest_error : AttestError → string;
  st_tls_spki : option string;
}.

Definition metrics_authorized (token : option string) (req : Request) : bool :=
  match token with
  | None => true
  | Some t => match bearer_token req with Some got => ct_eq (as_bytes got) (as_bytes t) | None => false end
  end.

Definition transparency_file (site : Site) (var : string) : Response :=
  match st_file site var with
  | None => response_text 404 "Not Found" "transparency artifact not configured"
  | Some (Some b) => response_new 200 "OK" "application/json" b
  | Some None => response_text 404 "Not Found" "transparency artifact unavailable"
  end.

Definition report_json (r : Report) : Value :=
  json [("id", VString (rp_id r)); ("repo_id", VString (rp_repo_id r)); ("reason", bytes_value (rp_reason r));
        ("reporter_hash", VString (rp_reporter_hash r)); ("ts", number (rp_ts r))].

Section routes.
Context {W St Er : Type} `{WO : WorkOps W} `{GS : GitSpawn W} `{GX : GixRefs W} `{GH : GixHead W} `{OS : ObjectStore St Er} `{RS : !RepoStore St Er}.
Context `{RND : SystemRandom} `{DIG : Digests} `{MAC : Hmacs} `{HX : Hex} `{PB : Pbkdf2} `{RSA : RsaPkcs1} `{AB : AeadBackend} `{ED : Ed25519} `{ML : MlDsa}.
Context `{CK : Clock} `{JT : JsonText} `{HP : HttpsPost} `{UL : UnicodeLower} `{ULt : UnicodeLetters} `{HO : HashOrder}.
Context `{SI : Serde (list string)} `{SM : Serde SealManifest} `{SEV : Serde AuditEvent} `{SRE : Serde RawEntry}.
Context `{SU : Serde User} `{SO : Serde Org} `{STm : Serde Team} `{SRp : Serde Repo} `{SWh : Serde Webhook} `{SNt : Serde Notification}.
Context `{SRr : Serde (list Report)} `{SN : Serde N} `{SP : Serde PullRequest} `{SRv : Serde Review} `{SC : Serde StatusCheck} `{SB : Serde BranchProtection}.
Context `{SPf : Serde ScimProfile} `{SGp : Serde ScimGroup}.
Context `{TF : ErrorText ForgeError} `{TG : ErrorText GitHttpError} `{TA : ErrorText ApiError} `{TS : ErrorText Er} `{TR : ErrorText ReviewError}.

Abbreviation H := (H (W := W) (St := St)).
Abbreviation App := (App (W := W) (St := St)).

(** ** The anonymous sandbox *)

Definition pow_solve : string :=
  "find NONCE s.t. sha256(" +:+ string_of_list_byte [x22] +:+ "<challenge>:<NONCE>" +:+ string_of_list_byte [x22] +:+
  ") has >= difficulty_bits leading zero bits; submit header 'X-SecGit-PoW: <challenge>:<NONCE>' to POST /sandbox/ephemeral".
Definition pow_challenge (req : Request) : H Response :=
  gate ← gets (λ a, ap_pow a);
  if negb (pw_enabled (pg_cfg gate)) then mret (json_response (json [("enabled", VBool false)]))
  else
    _ ← inc_metric pow_challenges_total;
    t ← unix_time;
    challenge ← step (λ a, let '(c, g) := pow_issue (ap_pow a) (rq_peer_ip req) t (ap_rng a) in (c, with_pow (ap_pow a) g a));
    mret (json_response (json [("enabled", VBool true); ("difficulty_bits", number (pw_difficulty_bits (pg_cfg gate)));
                               ("challenge", bytes_value challenge); ("solve", VString pow_solve)])).

Definition pow_required : Response :=
  response_text 402 "Payment Required"
    "proof-of-work required: GET /sandbox/pow-challenge, solve it, and resend with header 'X-SecGit-PoW: <challenge>:<nonce>'".
(** [app.pow.verify], when the gate is on. *)
Definition pow_gate (req : Request) : H unit :=
  gate ← gets (λ a, ap_pow a);
  if negb (pw_enabled (pg_cfg gate)) then mret ()
  else
    t ← unix_time;
    ok ← step (λ a, let '(ok, p) := pow_verify (as_bytes (default "" (header req "x-secgit-pow"))) (rq_peer_ip req) t (ap_pow a) in
                    (ok, with_pow p (ap_rng a) a));
    if (ok : bool) then mret () else _ ← inc_metric pow_failures_total; reply pow_required.

Definition push_hint : string :=
  "git remote add secgit http://<host>/<repo_id> && git -c http.extraHeader='Authorization: Bearer <push_token>' push secgit HEAD".
Definition ephemeral_json (repo : EphemeralRepo) : Value :=
  json [("repo_id", VString (ep_repo_id repo)); ("push_token", VString (ep_push_token repo));
        ("expires_at", number (ep_expires_at repo)); ("max_bytes", number (ep_max_bytes repo)); ("push_hint", VString push_hint)].
Definition create_ephemeral (cfg : Config) (req : Request) : H Response :=
  if negb (anonymous_enabled (cf_deployment cfg)) then mret (response_text 403 "Forbidden" "anonymous tier disabled")
  else
    _ ← pow_gate req;
    let client_key := if bool_decide (rq_peer_ip req = "") then "local" else rq_peer_ip req in
    t1 ← unix_time; t2 ← unix_time; t3 ← unix_time;
    r ← step (λ a, let '(r, (e, g)) := ephemeral_create client_key t1 t2 t3 (ap_ephemeral a, ap_rng a) in (r, with_ephemeral e g a));
    match r with
    | Err e => mret (too_many (error_text e))
    | Ok repo =>
        _ ← inc_metric ephemeral_created_total;
        r ← forge (create_bare (ep_repo_id repo));
        match r with
        | Err e => mret (internal ("create repo: " +:+ error_text e))
        | Ok _ =>
            _ ← on_store (os_init (ep_repo_id repo));
            _ ← audit (RepoCreated (ep_repo_id repo) "anonymous");
            mret (json_response (ephemeral_json repo))
        end
    end.

(** The working copy and the stored objects of a repository. *)
Definition wipe_repo (repo_id : string) : H unit :=
  _ ← forge (forge_delete repo_id); _ ← on_store (rs_delete_repo repo_id); mret ().

(** One turn of the background sweep. *)
Fixpoint wipe_all (ids : list string) : H unit :=
  match ids with
  | [] => mret ()
  | id :: ids => _ ← wipe_repo id; _ ← inc_metric ephemeral_gc_total; wipe_all ids
  end.
Definition gc_sweep : H unit :=
  t ← unix_time;
  expired ← step (λ a, let '(ids, e) := ephemeral_gc t (ap_ephemeral a) in (ids, with_ephemeral e (ap_rng a) a));
  wipe_all expired.

(** At startup: the working copies whose name says they were anonymous. *)
Fixpoint wipe_orphaned_ephemeral (stems : list string) : H unit :=
  match stems with
  | [] => mret ()
  | stem :: stems =>
      match strip_prefix (as_bytes "ephemeral_") (as_bytes stem) with
      | None => wipe_orphaned_ephemeral stems
      | Some hex =>
          let repo_id := "ephemeral/" +:+ string_of_list_byte hex in
          d ← gets directory;
          if bool_decide (is_Some (d_repos d !! repo_id)) then wipe_orphaned_ephemeral stems
          else _ ← wipe_repo repo_id; wipe_orphaned_ephemeral stems
      end
  end.

(** At startup: the quotas from the directory and the sizes of what is stored. *)
Fixpoint rebuild_quota (repos : list Repo) : H unit :=
  match repos with
  | [] => mret ()
  | repo :: repos =>
      match r_owner repo with
      | OwnerOrg _ => rebuild_quota repos
      | OwnerUser uid =>
          r ← forge (sealed_size (r_id repo));
          _ ← modify (λ a, with_quota (preload uid Light (r_id repo) (match r with Ok n => n | Err _ => 0 end) (ap_quota a)) a);
          rebuild_quota repos
      end
  end.

(** ** Reports and the operator *)

Definition parsed_body (req : Request) : Value := match json_from_slice (rq_body req) with Ok v => v | Err _ => VNull end.
Definition accepted (v : Value) : Response := response_new 202 "Accepted" "application/json" (json_to_string v).

Definition limited {A} (c : H A) (req : Request) (otherwise : H A) : H A :=
  ok ← check_ip_git (rq_peer_ip req);
  if (ok : bool) then c else _ ← inc_metric rate_limited_total; otherwise.

Definition abuse_report (req : Request) : H Response :=
  limited (
    let body := parsed_body req in
    let repo_id := default "" (get_str "repo_id" body) in
    let reason := default "" (get_str "reason" body) in
    if bool_decide (repo_id = "") then mret (bad_request "repo_id is required")
    else
      t ← unix_time; t' ← unix_time;
      r ← on_store (report repo_id (as_bytes reason) (rq_peer_ip req) t t');
      match r with
      | Ok rep =>
          _ ← inc_metric abuse_reports_total;
          _ ← audit (AuditLog.Admin ("abuse_report:" +:+ repo_id) "anonymous");
          mret (accepted (json [("accepted", VBool true); ("report_id", VString (rp_id rep))]))
      | Err e => mret (internal (error_text e))
      end) req (mret (too_many "rate limit exceeded")).

Definition valid_email (email : string) : bool :=
  negb (bool_decide (email = "")) && contains_text (as_bytes email) [x40] && (lengthN (as_bytes email) <=? 320).
Definition waitlist_signup (req : Request) : H Response :=
  limited (
    let email := trim_text (default "" (get_str "email" (parsed_body req))) in
    if negb (valid_email email) then mret (bad_request "a valid email is required")
    else
      r ← on_store (waitlist_add email);
      mret (match r with Ok _ => accepted (json [("waitlisted", VBool true)]) | Err e => internal (error_text e) end))
    req (mret (too_many "rate limit exceeded")).

Definition admin_authorized (cfg : Config) (req : Request) : bool :=
  match cf_admin_token cfg with
  | None => false
  | Some t => match bearer_token req with Some got => ct_eq (as_bytes got) (as_bytes t) | None => false end
  end.
Definition admin_required : Response := response_text 401 "Unauthorized" "admin token required".

Definition admin_list_abuse (cfg : Config) (req : Request) : H Response :=
  if negb (admin_authorized cfg req) then mret admin_required
  else
    reports ← step (λ a, let '(l, s) := abuse_list (ap_store a) in (l, with_forge (ap_work a) s a));
    mret (json_response (json [("reports", VArray (report_json <$> reports))])).

Definition admin_takedown (cfg : Config) (req : Request) : H Response :=
  if negb (admin_authorized cfg req) then mret admin_required
  else
    let repo_id := default "" (get_str "repo_id" (parsed_body req)) in
    if bool_decide (repo_id = "") then mret (bad_request "repo_id is required")
    else
      _ ← wipe_repo repo_id;
      d ← gets directory;
      _ ← match r_owner <$> d_repos d !! repo_id with
          | Some (OwnerUser uid) => _ ← on_quota (quota_remove_repo uid repo_id); mret ()
          | _ => mret ()
          end;
      _ ← on_dir (pd_delete_repo repo_id);
      _ ← inc_metric takedowns_total;
      _ ← audit (AuditLog.Admin ("takedown:" +:+ repo_id) "operator");
      mret (json_response (json [("deleted", VBool true); ("repo_id", VString repo_id)])).

Definition metrics_endpoint (cfg : Config) (req : Request) : H Response :=
  m ← gets (λ a, ap_metrics a);
  match cf_metrics_token cfg with
  | Some _ =>
      if metrics_authorized (cf_metrics_token cfg) req
      then mret (response_new 200 "OK" "text/plain; version=0.0.4" (as_bytes (render m)))
      else mret not_found
  | None => mret not_found
  end.

(** ** Attestation *)

Definition channel_text (site : Site) : string :=
  match st_tls_spki site with
  | Some spki => "secgit-tls-spki-sha256:" +:+ spki
  | None => "secgit-server-attestation-insecure-http"
  end.
Definition attestation_json (site : Site) (cfg : Config) (nonce : bytes) (ev : Evidence) : Value :=
  json [("backend", VString (st_backend_text site (ev_backend ev))); ("nonce_hex", VString (hex_encode nonce));
        ("evidence", st_evidence_json site ev); ("channel_binding", VString (channel_text site));
        ("tls_spki_sha256_hex", opt_string (st_tls_spki site));
        ("note", VString "Verify with secgit-verify; bind = SHA512(nonce || tee_pubkey); report_data also commits to the TLS cert SPKI (channel_binding).");
        ("sandbox_mode", VBool (sandbox_mode (cf_deployment cfg)))].
(** A fresh nonce, or none when the generator fails. *)
Definition attestation (site : Site) (cfg : Config) : H Response :=
  nonce ← step (λ a, let '(r, g) := random_vec 32 (ap_rng a) in (match r with Ok v => v | Err _ => [] end, with_ephemeral (ap_ephemeral a) g a));
  mret (match get_evidence (st_attester site) (Attest.bind nonce (as_bytes (channel_text site))) with
        | Ok ev => json_response (attestation_json site cfg nonce ev)
        | Err e =>
            json_response (json [("backend", VString "unavailable"); ("error", VString (st_attest_error site e));
                                 ("note", VString "No TEE present; this build would attest on SEV-SNP silicon.")])
        end).

(** ** The dispatcher *)

Definition ui_create_repo (cfg : Config) (req : Request) : H Response :=
  user ← require_auth req;
  match form req with
  | None => throw Aborts
  | Some f =>
      r ← create_named_repo cfg user (default "" (f !! "name")) true;
      match r with
      | Ok _ => mret (with_header "Location" "/ui" (response_new 303 "See Other" "text/plain" (as_bytes "created")))
      | Err (code, msg) => mret (response_text code (Server.status_reason code) msg)
      end
  end.

(** The SSO routes work on a part of the state. *)
Definition on_sso {A} (f : Sso.App (St := St) → A * Sso.App) : H A := step (λ a,
  let '(x, b) := f (Sso.mkApp (ap_identity a) (ap_dir_store a) (ap_store a) (ap_rng a)) in
  (x, with_events (Sso.app_store b) (Sso.app_rng b) (ap_sent a) (with_directory (Sso.app_identity b) (Sso.app_dir_store b) a))).

Definition saml_acs (cfg : Config) (req : Request) : H Response :=
  t ← unix_time; t' ← unix_time;
  o ← on_sso (route_saml_acs (cf_sso cfg) req (Z.of_N t) t');
  match o with Some r => mret r | None => throw Aborts end.

(** The routes after those of SSO, the API and the pages. *)
Definition route_rest (site : Site) (cfg : Config) (fuel : nat) (req : Request) : H Response :=
  let at_ x y := bool_decide (rq_method req = x) && bool_decide (rq_path req = y) in
  if at_ "GET" "/" then mret (st_landing site)
  else if at_ "GET" "/healthz" then mret (response_text 200 "OK" "ok")
  else if at_ "GET" "/metrics" then metrics_endpoint cfg req
  else if at_ "GET" "/sbom" then mret (transparency_file site "SECGIT_SBOM")
  else if at_ "GET" "/image-manifest" then mret (transparency_file site "SECGIT_IMAGE_MANIFEST")
  else if at_ "GET" "/attestation" then attestation site cfg
  else if at_ "GET" "/sandbox/pow-challenge" then pow_challenge req
  else if at_ "POST" "/sandbox/ephemeral" then create_ephemeral cfg req
  else if at_ "POST" "/abuse/report" then abuse_report req
  else if at_ "POST" "/waitlist" then waitlist_signup req
  else if at_ "GET" "/admin/abuse" then admin_list_abuse cfg req
  else if at_ "POST" "/admin/repos/delete" then admin_takedown cfg req
  else git_route cfg fuel req.

(** [if let Some(resp) = .. { return resp; }]. *)
Definition or_else (first : H (option Response)) (next : H Response) : H Response :=
  o ← first; match o with Some r => mret r | None => next end.

(** [GET /ui/search]. *)
Definition hit_row (h : SearchHit) : string :=
  html "<tr><td><a href='/ui/blob?repo=" +:+ escape (sh_repo_id h) +:+ "&path=" +:+ escape (sh_path h) +:+ html "'>" +:+
  escape (sh_repo_id h) +:+ ": " +:+ escape (sh_path h) +:+ html "</a></td><td class='muted'>L" +:+ pretty (sh_line h) +:+
  "</td><td><code>" +:+ escape (text (sh_snippet h)) +:+ "</code></td></tr>".
Definition search_route (fuel : nat) (req : Request) : H Response :=
  user ← require_auth req;
  let query := default "" (rq_query req !! "q") in
  d ← gets directory;
  results ← (if bool_decide (trim (as_bytes query) = []) then mret ""
             else
               hits ← search_repos fuel query (r_id <$> repos_visible_to d user);
               mret (match hits with
                     | [] => html "<p class='muted'>No matches.</p>"
                     | _ => html "<table class='list'>" +:+ concat_rows hit_row (take 200 hits) +:+ "</table>"
                     end) : H string);
  mret (page "Search"
    (html "<h1>Code search</h1><form method='get' action='/ui/search'><input name='q' value='" +:+ escape query +:+
     html "' placeholder='search your repositories' size='40'> <button>Search</button></form>" +:+ results)).

Definition route (import : Request → string → H Response) (site : Site) (cfg : Config) (fuel : nat) (req : Request) : H Response :=
  let path := rq_path req in
  let starts p := starts_with (as_bytes p) (as_bytes path) in
  let get := bool_decide (rq_method req = "GET") in
  let post := bool_decide (rq_method req = "POST") in
  or_else (if starts "/scim/v2/" then on_sso (route_scim (cf_sso cfg) req) else mret None)
  (if post && bool_decide (path = "/sso/saml/acs") then saml_acs cfg req
   else if get && bool_decide (path = "/sso/saml/metadata") then mret (saml_metadata (cf_sso cfg))
   else
     or_else (if bool_decide (path = "/api/graphql") || starts "/api/v1/" then route_api import cfg fuel req else mret None)
     (if get && bool_decide (path = "/ui/search") then search_route fuel req
      else
        or_else (if get && is_ui path then
                   _ ← match rq_query req !! "repo" with Some repo => materialize repo | None => mret () end;
                   route_ui req
                 else mret None)
        (if post && bool_decide (path = "/ui/repo/new") then ui_create_repo cfg req
         else or_else (if post && starts "/ui/" then route_ui_post req else mret None) (route_rest site cfg fuel req)))).

(** One connection: what is read from it, the answer, and the counters.  [None]: the
    connection is closed without an answer. *)
Definition with_peer (ip : string) (r : Request) : Request :=
  mkRequestHttp (rq_method r) (rq_path r) (rq_query r) (rq_headers r) (rq_body r) ip.
Definition answered (r : Response) : H (option bytes) :=
  _ ← modify (λ a, with_metrics (record_status (rs_status r) (ap_metrics a)) a); mret (Some (write_response r)).
(** A reply of the handlers is the answer; a panic ends the process. *)
Definition catch (c : H Response) : H Response := λ a,
  match c a with (Err (Reply r), a) => (Ok r, a) | x => x end.
Definition serve_stream (import : Request → string → H Response) (site : Site) (cfg : Config) (fuel : nat) (peer_ip : string)
    (data : bytes) (tail : StreamEnd) : H (option bytes) :=
  match parse_request (cf_http cfg) data tail with
  | Ok (Parsed req) =>
      ok ← check_ip_req peer_ip;
      r ← (if (ok : bool) then catch (route import site cfg fuel (with_peer peer_ip req))
           else _ ← inc_metric rate_limited_total; mret (with_header "Retry-After" "1" (too_many "rate limit exceeded")) : H Response);
      answered r
  | Ok (Reject resp) =>
      _ ← (if bool_decide (rs_status resp = 413) then inc_metric body_rejected_total
           else if bool_decide (rs_status resp = 431) then inc_metric header_rejected_total
           else mret () : H unit);
      answered resp
  | Err Http.Panic => throw Aborts
  | _ => mret None
  end.
End routes.
