(* ===== verification/Startup.v ===== *)
(** The rest of the start of the server, [bins/secgit-server/src/main.rs]: the signer of the
    audit log, the first account, sign-on settings, the limiters, the state the requests
    start from, the landing page and the listener for metrics.  [env] is the environment and
    [read_file] the files it names; the world is the data directory. *)

From Stdlib Require Import ZArith.
From S2P Require Import Prelude Text BTree Backend Envelope Primitives Aead Sig Saml Fs ObjectStore AuditLog Search Forge Git Identity DirectoryStore.
From S2P Require Import Auth Reviews Api Http Authz Pow Abuse RateLimit Config Json Scim Sso Events Metrics Attest Server Rest Web Routes.

(** Quotation marks are written as grave accents. *)
Definition markup (s : string) : string := string_of_list_byte ((λ b, if bool_decide (b = x60) then x22 else b) <$> as_bytes s).

Section startup.
Context `{RND : SystemRandom} `{DIG : Digests} `{MAC : Hmacs} `{HX : Hex} `{PB : Pbkdf2} `{ED : Ed25519} `{ML : MlDsa}.
Context `{EG : !Ed25519Gen} `{SBu : Serde Sig.SigningKeyBundle}.

(** ** The signer *)

Definition SIGNER : path := ["audit-signer.json"].
Inductive StartError := StartIo (e : Fs.IoError) | StartJson | StartCrypto (e : CryptoError).

Definition load_or_create_signer : eff World StartError Sig.SigningKey :=
  present ← Fs.path_exists SIGNER;
  if present : bool then
    b ← eff_map_err StartIo (Fs.read SIGNER);
    bundle ← lift (ok_or StartJson (from_slice b));
    lift (map_err StartCrypto (Sig.from_bundle bundle))
  else
    '(signer, bundle) ← eff_map_err StartCrypto (with_gen (Sig.generate_with_bundle LONG_LIVED_SIG));
    _ ← eff_map_err StartIo (Fs.write SIGNER (to_vec bundle));
    mret signer.

(** ** The first account *)

Definition bootstrap_id (user : string) : string := "u_" +:+ user.
Definition bootstrap_admin (env : Env) : eff (LocalAuthenticator * rng) IdentityError unit :=
  match env "SECGIT_BOOTSTRAP_USER", env "SECGIT_BOOTSTRAP_PASS" with
  | Some user, Some pass => local_register user (bootstrap_id user) pass
  | _, _ => mret ()
  end.

Context {St Er : Type} `{OS : ObjectStore St Er} `{SI : Serde (list string)} `{SU : Serde User}.

Definition ensure_bootstrap_directory_user (env : Env) : eff (Directory * St) IdentityError unit := λ s,
  (match env "SECGIT_BOOTSTRAP_USER" with
   | None => mret ()
   | Some user =>
       if bool_decide (user = EmptyString) then mret ()
       else if bool_decide (is_Some (d_users s.1 !! bootstrap_id user)) then mret ()
       else DirectoryStore.create_user (mkUser (bootstrap_id user) user (default (user +:+ "@local") (env "SECGIT_BOOTSTRAP_EMAIL")))
   end) s.

(** ** Sign-on *)

Definition load_saml (env : Env) (read_file : string → result string bytes) (spki : bytes → result SamlError bytes)
    (saml_text : SamlError → string) : result string (option SamlSp) :=
  match env "SECGIT_SAML_SP_ENTITY_ID", env "SECGIT_SAML_ACS_URL", env "SECGIT_SAML_IDP_ENTITY_ID", env "SECGIT_SAML_IDP_CERT" with
  | Some sp, Some acs, Some idp, Some cert_path =>
      cert ← map_err (λ _, "reading SAML IdP cert " +:+ cert_path) (read_file cert_path);
      s ← map_err (λ e, "SAML SP config: " +:+ saml_text e) (sp_new spki sp acs idp cert);
      Ok (Some s)
  | _, _, _, _ => Ok None
  end.
Definition load_sso_config (env : Env) (read_file : string → result string bytes) (spki : bytes → result SamlError bytes)
    (saml_text : SamlError → string) : result string SsoConfig :=
  saml ← load_saml env read_file spki saml_text;
  Ok (mkSso (env_secret env "SECGIT_SCIM_TOKEN") (default "https://localhost:8080" (env "SECGIT_EXTERNAL_URL")) saml).

(** ** The state of the server *)

Definition from_limits (l : ServerLimits) (now : N) : Limiters :=
  mkLimiters (limiter_new (sl_ip_req_capacity l) (sl_ip_req_refill l) (sl_rl_max_keys l) (sl_rl_idle_evict l) now)
    (limiter_new (sl_ip_git_capacity l) (sl_ip_git_refill l) (sl_rl_max_keys l) (sl_rl_idle_evict l) now)
    (limiter_new (sl_account_capacity l) (sl_account_refill l) (sl_rl_max_keys l) (sl_rl_idle_evict l) now)
    (limiter_new (sl_push_capacity l) (sl_push_refill l) (sl_rl_max_keys l) (sl_rl_idle_evict l) now).

Definition server_config (env : Env) (sso : SsoConfig) : Config :=
  let limits := limits_from_env env in
  mkConfig (deployment_from_env env) (env_secret env "SECGIT_ADMIN_TOKEN") (mc_token (metrics_from_env env)) (sl_git limits)
    (http_limits limits) sso (max_segments (as_bytes <$> env "SECGIT_SEAL_MAX_SEGMENTS")).

Definition SESSION_TTL : N := 12 * 3600.

(** [App { .. }]: before the orphans are wiped and the quotas rebuilt. *)
Definition initial_app {W : Type} (env : Env) (work : W) (store search dir_store : St) (directory : Directory) (local : LocalAuthenticator)
    (log : TransparencyLog) (disk : World) (g : rng) (now : N) : App (W := W) (St := St) :=
  let config := deployment_from_env env in
  let '(pow, g) := pow_new (pow_from_env env) g in
  mkApp work store search dir_store (mkIdentity directory local (sessions_new SESSION_TTL)) (ephemerals_new config) (quota_new config) log disk
    (from_limits (limits_from_env env) now) pow metrics_new g 0 [].

(** ** Pages *)

Definition on_off (b : bool) : string := if b then "enabled" else "disabled".

Definition sandbox_banner : string :=
  markup ("<p style=`background:#fff8c5;border:1px solid #d4a72c;border-radius:6px;padding:10px 12px`>" +:+
   "<strong>Public sandbox — do not push production secrets.</strong> This is a shared demo " +:+
   "instance running in sandbox mode: repos are capped, anonymous repos auto-expire, and abuse " +:+
   "controls are aggressive. Confidentiality still holds (that is the point you can verify), but " +:+
   "treat it as ephemeral.</p>").
Definition pow_note (bits : N) : string :=
  markup ("<li><a href=`/sandbox/pow-challenge`>/sandbox/pow-challenge</a> — a lightweight " +:+ "proof-of-work (" +:+ pretty bits +:+
   " bits) is required before creating an anonymous repo.</li>").
Definition landing_body (banner pow anon light managed ttl cap pq : string) : string :=
  banner +:+ markup (
   "<h1>SecGit</h1>" +:+
   "<p class=`muted`>Confidential, attestation-backed, post-quantum hosting for private code. " +:+
   "The operator can't read your code, can't train on it, can't be subpoenaed into surrendering " +:+
   "it, and it's safe from harvest-now-decrypt-later — and all of this is <em>verifiable</em>.</p>" +:+
   "<h2>Verify it yourself</h2>" +:+
   "<ol>" +:+
   "<li><a href=`/attestation`>/attestation</a> — fetch a fresh SEV-SNP report bound to this " +:+
   "instance's TLS key (verify the chain to AMD roots with <code>secgit-verify</code>).</li>") +:+
   pow +:+ markup (
   "<li><code>POST /sandbox/ephemeral</code> — get a throwaway, auto-expiring repo + push token, " +:+
   "push your own code over PQC-TLS, then confirm it's ciphertext-only on the host.</li>" +:+
   "<li><a href=`/ui`>/ui</a> — browse repositories you can access.</li>" +:+
   "</ol>" +:+
   "<h2>Interaction tiers</h2>" +:+
   "<ul>" +:+
   "<li><strong>Anonymous</strong>: ") +:+ anon +:+ " — ephemeral capped repos (TTL " +:+ ttl +:+ "s, " +:+ cap +:+ " MiB).</li>" +:+
   "<li><strong>Light</strong>: " +:+ light +:+ " — account-backed persistent capped repos.</li>" +:+
   "<li><strong>Managed</strong>: " +:+ managed +:+ " — org + BYOK + IdP (enterprise).</li>" +:+ markup (
   "</ul>" +:+
   "<h2>Managed-tier waitlist</h2>" +:+
   "<p class=`muted`>Want a private org instance with BYOK-to-your-KMS and your IdP? Join the " +:+
   "waitlist (your email is stored encrypted at rest, like everything else here):</p>" +:+
   "<form method=`post` action=`/waitlist` onsubmit=`event.preventDefault();fetch('/waitlist'," +:+
   "{method:'POST',headers:{'Content-Type':'application/json'},body:JSON.stringify({email:this.email.value})})" +:+
   ".then(r=>{this.nextElementSibling.textContent=r.ok?'Thanks — you are on the list.':'Please enter a valid email.';});`>" +:+
   "<input name=`email` type=`email` placeholder=`you@company.com` size=`30` required> " +:+
   "<button>Join waitlist</button></form><p class=`muted`></p>" +:+
   "<h2>Report abuse</h2>" +:+
   "<p class=`muted`>This instance can't read repo contents, so takedowns are by repo id: " +:+
   "<code>POST /abuse/report</code> with <code>{`repo_id`:`...`,`reason`:`...`}</code>.</p>" +:+
   "<p class=`muted`>PQC-TLS in-CVM: ") +:+ pq +:+ ". This public instance is the same OSS build run in " +:+
   "sandbox mode (a config, not a fork).</p>".
Definition landing (cfg : DeploymentConfig) (pow : PowConfig) (tls_spki : option string) : Response :=
  page "SecGit" (landing_body (if sandbox_mode cfg then sandbox_banner else EmptyString)
    (if pw_enabled pow then pow_note (pw_difficulty_bits pow) else EmptyString)
    (on_off (anonymous_enabled cfg)) (on_off (light_enabled cfg)) (on_off (managed_enabled cfg)) (pretty (ephemeral_ttl_secs cfg))
    (pretty (ephemeral_max_bytes cfg / (1024 * 1024))) (on_off (bool_decide (is_Some tls_spki)))).

(** One connection of the listener for metrics: the answer, if there is one. *)
Definition serve_metrics (token : option string) (m : Metrics) (data : bytes) (tail : StreamEnd) : option bytes :=
  match parse_request http_limits_default data tail with
  | Ok (Parsed req) =>
      Some (write_response
        (if bool_decide (rq_path req = "/metrics") then
           if metrics_authorized token req then response_new 200 "OK" "text/plain; version=0.0.4" (as_bytes (render m))
           else response_text 401 "Unauthorized" "metrics token required"
         else if bool_decide (rq_path req = "/healthz") then response_text 200 "OK" "ok"
         else response_text 404 "Not Found" "not found"))
  | Ok (Reject resp) => Some (write_response resp)
  | _ => None
  end.

(** ** Theory *)

Lemma quiet_read p b w : w_sched w = [] → w_files w !! p = Some b → Fs.read p w = (Ok b, w).
Proof. intros Hs Hb. unfold Fs.read, io, next. rewrite Hs. cbn [w_files]. rewrite Hb. by destruct w; simpl in *; subst. Qed.

(** The file of the signer is its bundle in the clear: whoever reads it has the key, without
    any other secret; and the next start, when no operation fails, has the same signer. *)
Lemma signer_on_disk w sk w' : load_or_create_signer w = (Ok sk, w') →
  (∃ b bundle, w_files w' !! SIGNER = Some b ∧ from_slice b = Some bundle ∧ Sig.from_bundle bundle = Ok sk) ∧
  (w_sched w' = [] → load_or_create_signer w' = (Ok sk, w')).
Proof.
  intros E. assert (∃ b bundle, w_files w' !! SIGNER = Some b ∧ from_slice b = Some bundle ∧ Sig.from_bundle bundle = Ok sk)
    as (b & bundle & Hf & Hb & Hk).
  - revert E. unfold load_or_create_signer, mbind, eff_mbind, eff_map_err, lift. destruct (Fs.path_exists SIGNER w) as [[[]|] w1]; [| |done].
    + unfold Fs.read, io. destruct (next w1) as [[] w0]; [|done..]. destruct (w_files w0 !! SIGNER) as [b|] eqn:Ef; [|done]. cbn [map_err].
      destruct (from_slice b) as [bundle|] eqn:Eb; [|done]. cbn [ok_or]. destruct (Sig.from_bundle bundle) as [k|] eqn:Ek; [|done].
      intros [= <- <-]. eauto.
    + unfold with_gen. destruct (Sig.generate_with_bundle _ _) as [[[k bundle]|e] g] eqn:Eg; [|done]. cbn [map_err].
      unfold Fs.write. destruct (next _) as [[] w0]; [|done..]. cbn [map_err]. intros [= <- <-].
      exists (to_vec bundle), bundle. split; [apply lookup_insert_eq|]. split; [apply from_slice_to_vec|].
      by apply Sig.generate_with_bundle_wf in Eg as [_ ?].
  - split; [eauto|]. intros Hs. unfold load_or_create_signer, Fs.path_exists, mbind, eff_mbind, eff_map_err, lift.
    rewrite stat_calm by done. unfold Fs.path_present. rewrite (proj2 (file_present_spec w' SIGNER)) by (by rewrite Hf). cbn [orb]. rewrite (quiet_read _ b) by done. cbn [map_err]. rewrite Hb. cbn [ok_or]. by rewrite Hk.
Qed.

(** Ensuring the first user twice is ensuring it once. *)
Lemma bootstrap_idempotent env (s s' : Directory * St) :
  ensure_bootstrap_directory_user env s = (Ok (), s') → ensure_bootstrap_directory_user env s' = (Ok (), s').
Proof.
  unfold ensure_bootstrap_directory_user. destruct (env "SECGIT_BOOTSTRAP_USER") as [user|]; [|done].
  destruct (bool_decide (user = _)); [done|]. case_bool_decide as H1; [intros [= <-]; by rewrite bool_decide_eq_true_2|].
  unfold DirectoryStore.create_user, in_memory, DirectoryStore.on_store, mbind, eff_mbind, add_user, map_add. destruct s as [d st]. cbn [fst u_id] in *.
  rewrite bool_decide_eq_false_2 by done. cbn [mbind result_mbind]. destruct (create_obj _ _ _ _ _) as [r st']. intros [= -> <-].
  rewrite bool_decide_eq_true_2; [done|]. cbn [fst set_users d_users]. eexists. apply lookup_insert_eq.
Qed.

(** Without an operator's token, or with an empty one, nobody is the operator. *)
Lemma no_operator env sso req : env "SECGIT_ADMIN_TOKEN" = None ∨ env "SECGIT_ADMIN_TOKEN" = Some EmptyString →
  admin_authorized (server_config env sso) req = false.
Proof. unfold admin_authorized, server_config, env_secret. cbn [cf_admin_token]. by intros [-> | ->]. Qed.
End startup.
