(* ===== verification/Boot.v ===== *)
(** The start of the server as a whole, [run] of [bins/secgit-server/src/main.rs], up to the
    point where it listens: the key, the keys at rest, the stores, the directory, the first
    account, the log, TLS, sign-on, the quotas and the orphans.

    [open_store] opens an encrypted store of the data directory under a key; the world is the
    data directory itself.  An error is its outermost text, [BootPanic] a panic.  Making the
    directories, what is printed and the threads are left out. *)

From Stdlib Require Import ZArith.
From S2P Require Import Prelude Text BTree Backend Envelope Primitives Aead Sig Kem Saml Xml Attest Vcek Replay KeyBroker Fs ObjectStore AuditLog Search Forge Git Identity DirectoryStore.
From S2P Require Import Auth Reviews Api Http Authz Pow Abuse RateLimit Config Json KeyStart ForgeExec Tls Scim Sso Events Metrics Server Rest Web Routes Startup.

Inductive BootError := BootPanic | BootFailed (msg : string).

Section boot.
Context {W St Er : Type} `{WO : WorkOps W} `{GS : GitSpawn W} `{OS : ObjectStore St Er} `{RS : !RepoStore St Er}.
Context `{RND : SystemRandom} `{DIG : Digests} `{MAC : Hmacs} `{HX : Hex} `{PB : Pbkdf2} `{RSA : RsaPkcs1} `{AB : AeadBackend} `{XK : X25519} `{MK : !MlKem}.
Context `{ED : Ed25519} `{EG : !Ed25519Gen} `{ML : MlDsa} `{X : X509} `{TL : TlsLib} `{HO : HashOrder} `{JT : JsonText} `{HJ : HttpsPostJson}.
Context `{SI : Serde (list string)} `{SM : Serde SealManifest} `{SEV : Serde AuditEvent} `{SRE : Serde RawEntry} `{SBu : Serde Sig.SigningKeyBundle}.
Context `{SU : Serde User} `{SO : Serde Org} `{STm : Serde Team} `{SRp : Serde Repo} `{SS : Serde SeenState} `{SMR : Serde MockReport}.
Context `{SRq : Serde ReleaseRequest} `{SRs : Serde ReleaseResponse}.
Context (ecdsa : bytes → bytes → bytes → bool) (broker_text : BrokerError → string) (crypto_text : CryptoError → string)
  (identity_text : IdentityError → string) (start_text : StartError → string) (audit_text : AuditError → string) (saml_text : SamlError → string).

Definition data_dir (env : Env) : string := default ".secgit-data" (env "SECGIT_DATA").

(** The keys of the log, the directory and the index. *)
Record AtRest := mkAtRest { ar_audit : Aead.SymKey; ar_directory : Aead.SymKey; ar_search : Aead.SymKey }.
Definition at_rest_keys (kek : Aead.SymKey) : result CryptoError AtRest :=
  audit ← derive_subkey kek (as_bytes "secgit/audit-at-rest/v1");
  directory ← derive_subkey kek (as_bytes "secgit/directory-at-rest/v1");
  search ← derive_subkey kek (as_bytes "secgit/search-at-rest/v1");
  Ok (mkAtRest audit directory search).

Record Booted := mkBooted { bo_config : Config; bo_tls : option TlsMaterial; bo_spki : option string; bo_app : App (W := W) (St := St) }.

(** What is outside: files by name, the attester and whether it is real, the vendor's network and cache, readings of the clock. *)
Record Host := mkHost {
  ho_read : string → result string bytes; ho_attester : Attester; ho_snp : bool;
  ho_fetch : string → result AttestError bytes; ho_cache : Cache; ho_spki : bytes → result SamlError bytes;
  ho_attest_time : N; ho_broker_time : N; ho_mono : N;
}.

Definition failed {E A} (text : E → string) (r : result E A) : result BootError A := map_err (λ e, BootFailed (text e)) r.
Definition fails {E A} (text : E → string) (c : eff World E A) : eff World BootError A := eff_map_err (λ e, BootFailed (text e)) c.

(** The accounts, and the directory with the first user in it. *)
Definition boot_accounts (env : Env) : eff World BootError LocalAuthenticator := λ w,
  let '(r, (local, g)) := bootstrap_admin env (∅, w_gen w) in
  (r ← failed identity_text r; Ok local, {| w_files := w_files w; w_sched := w_sched w; w_gen := g |}).
Definition boot_directory (dir_store : St) : result BootError (Directory * St) :=
  let '(r, s) := pd_open dir_store in
  d ← failed (λ e, "opening identity directory: " +:+ identity_text e) r; Ok (d, s).
Definition boot_first_user (env : Env) (d : Directory * St) : result BootError (Directory * St) :=
  let '(r, d) := ensure_bootstrap_directory_user env d in
  _ ← failed identity_text r; Ok d.

(** The last steps, on the state of the server. *)
Definition boot_sweep (listing : option (list DirEntry)) : H (W := W) (St := St) unit :=
  d ← gets directory;
  _ ← rebuild_quota (hash_values (d_repos d));
  wipe_orphaned_ephemeral (working_dir_stems listing).

Definition boot_finish (env : Env) (host : Host) (work : W) (store search_store dir_store : St) (directory : Directory) (local : LocalAuthenticator)
    (log : TransparencyLog) (tls : option TlsMaterial) (sso : SsoConfig) (listing : option (list DirEntry)) : eff World BootError Booted := λ w,
  let app := initial_app env work store search_store dir_store directory local log w (w_gen w) (ho_mono host) in
  match boot_sweep listing app with
  | (Ok _, app) => (Ok (mkBooted (server_config env sso) tls (tm_spki_sha256_hex <$> tls) app), ap_disk app)
  | (Err _, app) => (Err BootPanic, ap_disk app)
  end.

Definition run (env : Env) (host : Host) (open_store : string → Aead.SymKey → result string St) (work : W) (listing : option (list DirEntry))
    : eff World BootError Booted :=
  kek ← fails id (acquire_kek ecdsa broker_text crypto_text env (ho_read host) (ho_attester host) (ho_snp host) (ho_fetch host) (ho_cache host)
                    (ho_attest_time host) (ho_broker_time host));
  keys ← lift (failed crypto_text (at_rest_keys kek));
  store ← lift (failed id (open_store "store" kek));
  search_store ← lift (failed id (open_store "search" (ar_search keys)));
  dir_store ← lift (failed id (open_store "directory" (ar_directory keys)));
  opened ← lift (boot_directory dir_store);
  local ← boot_accounts env;
  '(directory, dir_store) ← lift (boot_first_user env opened);
  signer ← fails start_text load_or_create_signer;
  log ← fails audit_text (open_encrypted ["audit.log"] "secgit-instance" signer (ar_audit keys));
  tls ← lift (match start_tls env (ho_read host) with Some r => failed id r | None => Err BootPanic end);
  sso ← lift (failed id (load_sso_config env (ho_read host) (ho_spki host) saml_text));
  boot_finish env host work store search_store dir_store directory local log tls sso listing.

(** ** Theory *)

(** *** The last steps *)

(** Who may sign in, what is anonymous and what is logged stay as they are. *)
Record steady (a a' : App (W := W) (St := St)) : Prop := {
  sy_identity : ap_identity a' = ap_identity a; sy_ephemeral : ap_ephemeral a' = ap_ephemeral a; sy_audit : ap_audit a' = ap_audit a;
}.
Lemma steady_trans a b c : steady a b → steady b c → steady a c.
Proof. intros [] []. split; congruence. Qed.
Lemma steady_forge {A} (c : eff (W * St) ForgeError A) (a : App (W := W) (St := St)) : ∃ r w s, forge c a = (Ok r, with_forge w s a).
Proof. unfold forge. destruct (c _) as [r [w s]]. eauto. Qed.
Lemma steady_store {A} (c : eff St Er A) (a : App (W := W) (St := St)) : ∃ r w s, on_store c a = (Ok r, with_forge w s a).
Proof. unfold on_store. destruct (c _) as [r s]. eauto. Qed.

Lemma wipe_steady stems a : ∃ a', wipe_orphaned_ephemeral stems a = (Ok (), a') ∧ steady a a' ∧ ap_quota a' = ap_quota a.
Proof.
  revert a. induction stems as [|stem stems IH]; intros a; cbn [wipe_orphaned_ephemeral]; [by exists a|].
  destruct (strip_prefix _ _) as [hex|]; [|apply IH]. unfold mbind, eff_mbind, gets. case_bool_decide; [apply IH|].
  unfold wipe_repo, mbind, eff_mbind. destruct (steady_forge (forge_delete ("ephemeral/" +:+ string_of_list_byte hex)) a) as (r & w & s & ->).
  destruct (steady_store (rs_delete_repo ("ephemeral/" +:+ string_of_list_byte hex)) (with_forge w s a)) as (r2 & w2 & s2 & ->).
  destruct (IH (with_forge w2 s2 (with_forge w s a))) as (a' & E & Hs & Hq). exists a'. split_and!; [done| |done].
  eapply steady_trans; [|exact Hs]. done.
Qed.

(** The repositories an account is charged for. *)
Definition charged (q : AccountQuota) (uid rid : string) : Prop := ∃ e, aq_accounts q !! uid = Some e ∧ is_Some (e.2 !! rid).
Lemma preload_charged uid rid n q u r : charged (preload uid Light rid n q) u r ↔ charged q u r ∨ (u = uid ∧ r = rid).
Proof.
  unfold charged, preload, set_account. cbn [aq_accounts]. destruct (decide (u = uid)) as [->|Hu].
  - rewrite lookup_insert_eq. destruct (decide (r = rid)) as [->|Hr].
    + split; [tauto|]. intros _. eexists. split; [done|]. cbn. rewrite lookup_insert_eq. eauto.
    + split.
      * intros (e & [= <-] & He). cbn in He. rewrite lookup_insert_ne in He by done. left.
        destruct (aq_accounts q !! uid) as [e|]; [by exists e|]. cbn in He. rewrite lookup_empty in He. by destruct He.
      * intros [(e & E & He)|[_ ?]]; [|done]. eexists. split; [done|]. cbn. by rewrite lookup_insert_ne, E by done.
  - rewrite lookup_insert_ne by done. split; [tauto|]. intros [?|[? _]]; [done|congruence].
Qed.

Lemma rebuild_exact repos a : ∃ a', rebuild_quota repos a = (Ok (), a') ∧ steady a a' ∧
  ∀ u r, charged (ap_quota a') u r ↔ charged (ap_quota a) u r ∨ ∃ repo, repo ∈ repos ∧ r_id repo = r ∧ r_owner repo = OwnerUser u.
Proof.
  revert a. induction repos as [|repo repos IH]; intros a; cbn [rebuild_quota].
  { exists a. split_and!; [done..|]. intros u r. split; [tauto|]. intros [?|(x & Hx & _)]; [done|]. by apply not_elem_of_nil in Hx. }
  destruct (r_owner repo) as [uid|org] eqn:Eo.
  - unfold mbind, eff_mbind, modify. destruct (steady_forge (sealed_size (r_id repo)) a) as (r & w & s & ->).
    set (a1 := with_quota _ _). destruct (IH a1) as (a' & E & Hs & Hc). exists a'. split_and!; [done|by eapply steady_trans; [|exact Hs]|].
    intros u rr. rewrite Hc. subst a1. cbn [ap_quota with_quota]. rewrite preload_charged. split.
    + intros [[?|[-> ->]]|(x & Hx & H)]; [by left|right; exists repo; by split_and!; [left|..]|right; exists x; by split; [right|]].
    + intros [?|(x & Hx & <- & Hu)]; [by do 2 left|]. apply elem_of_cons in Hx as [->|Hx]; [left; right; split; congruence|]. right. eauto.
  - destruct (IH a) as (a' & E & Hs & Hc). exists a'. split_and!; [done..|]. intros u r. rewrite Hc. split.
    + intros [?|(x & Hx & H)]; [by left|]. right. exists x. split; [by right|done].
    + intros [?|(x & Hx & H1 & H2)]; [by left|]. apply elem_of_cons in Hx as [->|Hx]; [congruence|]. right. eauto.
Qed.
(** *** The server that starts *)

Lemma failed_ok {E A} (text : E → string) r (a : A) : failed text r = Ok a → r = Ok a.
Proof. by destruct r; intros [= ->]. Qed.
Lemma fails_ok {E A} (text : E → string) (c : eff World E A) w a w' : fails text c w = (Ok a, w') → c w = (Ok a, w').
Proof. apply eff_err_inv. Qed.

(** Only the account of the environment, under its own id. *)
Lemma boot_accounts_only env w local w' user uid ph :
  boot_accounts env w = (Ok local, w') → local !! user = Some (uid, ph) → env "SECGIT_BOOTSTRAP_USER" = Some user ∧ uid = bootstrap_id user.
Proof.
  unfold boot_accounts, bootstrap_admin. destruct (env "SECGIT_BOOTSTRAP_USER") as [u|], (env "SECGIT_BOOTSTRAP_PASS") as [pw|];
    cbn; try (by intros [= <- <-] ?%lookup_empty_Some).
  destruct (from_password pw (w_gen w)) as [[ph'|e] g]; [|done]. cbn. intros [= <- <-] [[-> [= <- _]]|[_ ?%lookup_empty_Some]]%lookup_insert_Some; done.
Qed.

(** The last steps do not fail, and charge each user exactly their own repositories. *)
Lemma boot_finish_ok env host work store search_store dir_store d local log tls sso listing w :
  ∃ b w', boot_finish env host work store search_store dir_store d local log tls sso listing w = (Ok b, w') ∧
    bo_config b = server_config env sso ∧ bo_tls b = tls ∧ bo_spki b = tm_spki_sha256_hex <$> tls ∧
    ap_identity (bo_app b) = mkIdentity d local (sessions_new SESSION_TTL) ∧ ap_ephemeral (bo_app b) = ephemerals_new (deployment_from_env env) ∧
    ap_audit (bo_app b) = log ∧
    ∀ u r, charged (ap_quota (bo_app b)) u r ↔ ∃ k repo, d_repos d !! k = Some repo ∧ r_id repo = r ∧ r_owner repo = OwnerUser u.
Proof.
  unfold boot_finish, boot_sweep, initial_app. destruct (pow_new _ _) as [pow g]. set (app := mkApp _ _ _ _ _ _ _ _ _ _ _ _ _ _ _).
  unfold mbind at 1 2, eff_mbind at 1 2, gets. destruct (rebuild_exact (hash_values (d_repos (directory app))) app) as (a1 & -> & [I1 E1 A1] & Hc).
  destruct (wipe_steady (working_dir_stems listing) a1) as (a2 & -> & [I2 E2 A2] & Hq).
  eexists _, _. split; [done|]. cbn [bo_config bo_tls bo_spki bo_app]. rewrite I2, I1, E2, E1, A2, A1, Hq. split_and!; [done..|].
  intros u r. rewrite Hc. split.
  - intros [(e & He & _)|(x & Hx & ?)]; [change ((∅ : gmap string _) !! u = Some e) in He; by rewrite lookup_empty in He|].
    rewrite hash_values_perm in Hx. apply list_elem_of_fmap in Hx as ([k y] & -> & Hk%elem_of_map_to_list). by exists k, y.
  - intros (k & x & Hk & ?). right. exists x. split; [|done]. rewrite hash_values_perm. apply list_elem_of_fmap. exists (k, x).
    split; [done|]. by apply elem_of_map_to_list.
Qed.

(** The first user, once the directory has been seen to. *)
Lemma boot_first_user_in env d d' st' user :
  boot_first_user env d = Ok (d', st') → env "SECGIT_BOOTSTRAP_USER" = Some user → user ≠ EmptyString → is_Some (d_users d' !! bootstrap_id user).
Proof.
  unfold boot_first_user, ensure_bootstrap_directory_user. intros H Eu Hu. revert H. rewrite Eu, bool_decide_eq_false_2 by done.
  case_bool_decide as H1; [by intros [= ->]|].
  unfold DirectoryStore.create_user, in_memory, DirectoryStore.on_store, mbind, eff_mbind, add_user, map_add. destruct d as [d st]. cbn [fst u_id] in *.
  rewrite bool_decide_eq_false_2 by done. cbn [mbind result_mbind]. destruct (create_obj _ _ _ _ _) as [[r|] st2]; cbn; [|done].
  intros [= <- <-]. eexists. apply lookup_insert_eq.
Qed.

(** A server that starts has nobody signed in and nothing anonymous, a log that links, no
    account but the one its environment names, whose user the directory has, every user
    charged for exactly the repositories they own, and serves plaintext only when the
    environment says so. *)
Record started (env : Env) (b : Booted) : Prop := {
  sd_sessions : si_sessions (ap_identity (bo_app b)) = sessions_new SESSION_TTL;
  sd_ephemeral : ap_ephemeral (bo_app b) = ephemerals_new (deployment_from_env env);
  sd_log : log_linked (ap_audit (bo_app b));
  sd_accounts : ∀ user uid ph, si_local (ap_identity (bo_app b)) !! user = Some (uid, ph) →
    env "SECGIT_BOOTSTRAP_USER" = Some user ∧ uid = bootstrap_id user ∧
    (user ≠ EmptyString → is_Some (d_users (si_dir (ap_identity (bo_app b))) !! uid));
  sd_charged : ∀ u r, charged (ap_quota (bo_app b)) u r ↔
    ∃ k repo, d_repos (si_dir (ap_identity (bo_app b))) !! k = Some repo ∧ r_id repo = r ∧ r_owner repo = OwnerUser u;
  sd_plaintext : bo_tls b = None ↔ is_Some (env "SECGIT_INSECURE_HTTP");
}.

Lemma run_starts env host open_store work listing w b w' :
  run env host open_store work listing w = (Ok b, w') → started env b.
Proof.
  unfold run. intros (kek & ? & _ & H)%eff_bind_inv. apply eff_bind_inv in H as (keys & ? & _ & H).
  apply eff_bind_inv in H as (store & ? & _ & H). apply eff_bind_inv in H as (idx & ? & _ & H). apply eff_bind_inv in H as (? & ? & _ & H).
  apply eff_bind_inv in H as (opened & ? & _ & H).
  apply eff_bind_inv in H as (local & ? & Hl & H). apply eff_bind_inv in H as ([d ds] & ? & [Hd _]%lift_inv & H).
  apply eff_bind_inv in H as (signer & ? & _ & H). apply eff_bind_inv in H as (log & ? & Hlog%fails_ok & H).
  apply eff_bind_inv in H as (tls & ? & [Ht _]%lift_inv & H). apply eff_bind_inv in H as (sso & w9 & _ & H).
  destruct (boot_finish_ok env host work store idx ds d local log tls sso listing w9) as (b' & w2 & E & _ & Htls & _ & I & Ep & A & C).
  rewrite H in E. injection E as <- <-. split; [by rewrite I|done|rewrite A; by eapply open_inner_linked| |by rewrite I|].
  - rewrite I. intros user uid ph Hu. destruct (boot_accounts_only _ _ _ _ _ _ _ Hl Hu) as [He ->]. split_and!; [done..|].
    intros Hne. by eapply boot_first_user_in.
  - rewrite Htls. unfold start_tls in Ht. case_bool_decide as Hi; [injection Ht as <-; tauto|].
    destruct (load_or_generate env (ho_read host)) as [[m|]|]; cbn in Ht; [|done|done]. injection Ht as <-. by split.
Qed.
End boot.
