(* ===== verification/ServerTheory.v ===== *)
(** Access control of the server's routes, and what refused requests leave unchanged. *)

From S2P Require Import Prelude Text BTree Backend Primitives Fs ObjectStore AuditLog Search Forge Git Identity DirectoryStore.
From S2P Require Import Auth Reviews Api Http Authz Pow Abuse RateLimit Json Scim Sso Events Metrics Server.

(** ** Weakest preconditions

    What holds of the answer and of the state after [c] from [s]. *)
Definition wp {S E A} (c : eff S E A) (s : S) (Q : result E A → S → Prop) : Prop := Q (c s).1 (c s).2.

Lemma wp_ret {S E A} (x : A) (s : S) (Q : result E A → S → Prop) : Q (Ok x) s → wp (mret x) s Q.
Proof. done. Qed.
Lemma wp_throw {S E A} (e : E) (s : S) (Q : result E A → S → Prop) : Q (Err e) s → wp (throw e) s Q.
Proof. done. Qed.
Lemma wp_mono {S E A} (c : eff S E A) s (P Q : result E A → S → Prop) : wp c s P → (∀ r s', P r s' → Q r s') → wp c s Q.
Proof. unfold wp. auto. Qed.
Lemma wp_bind {S E A B} (c : eff S E A) (f : A → eff S E B) s (Q : result E B → S → Prop) :
  wp c s (λ r s', match r with Ok x => wp (f x) s' Q | Err e => Q (Err e) s' end) → wp (c ≫= f) s Q.
Proof. unfold wp, mbind, eff_mbind. destruct (c s) as [[x|e] s1]; simpl; done. Qed.
Lemma wp_any {S E A} (c : eff S E A) s (Q : result E A → S → Prop) : (∀ r s', Q r s') → wp c s Q.
Proof. unfold wp. auto. Qed.
Lemma wp_run {S E A} (c : eff S E A) s Q r s' : wp c s Q → c s = (r, s') → Q r s'.
Proof. unfold wp. intros H E0. by rewrite E0 in H. Qed.

(** ** Clock readings are counted

    No handler turns the count of clock readings back. *)
Section readings.
Context {W St : Type} `{RND : SystemRandom} `{DIG : Digests} `{HX : Hex} `{PB : Pbkdf2} `{ED : Ed25519} `{ML : MlDsa}.
Abbreviation App := (App (W := W) (St := St)).
Abbreviation H := (H (W := W) (St := St)).

Definition grows {A} (c : H A) : Prop := ∀ a : App, (ap_reads a ≤ ap_reads (c a).2)%nat.

Lemma grows_ret {A} (x : A) : grows (mret x).
Proof. by intros a. Qed.
Lemma grows_throw {A} e : grows (A := A) (throw e).
Proof. by intros a. Qed.
Lemma grows_reply {A} resp : grows (A := A) (reply resp).
Proof. by intros a. Qed.
Lemma grows_gets {A} (f : App → A) : grows (gets f).
Proof. by intros a. Qed.
Lemma grows_bind {A B} (c : H A) (f : A → H B) : grows c → (∀ x, grows (f x)) → grows (c ≫= f).
Proof.
  intros Hc Hf a. specialize (Hc a). unfold mbind, eff_mbind. destruct (c a) as [[x|e] a1]; simpl in *; [|done].
  specialize (Hf x a1). lia.
Qed.
Lemma grows_step {A} (f : App → A * App) : (∀ a, (ap_reads a ≤ ap_reads (f a).2)%nat) → grows (step f).
Proof. intros Hf a. unfold step. specialize (Hf a). by destruct (f a). Qed.
Lemma grows_modify (f : App → App) : (∀ a, (ap_reads a ≤ ap_reads (f a))%nat) → grows (modify f).
Proof. intros Hf a. apply Hf. Qed.
End readings.

Create HintDb grows.
#[export] Hint Resolve grows_ret grows_throw grows_reply grows_gets : grows.
Ltac grow :=
  repeat first
    [ progress intros
    | solve [auto with grows]
    | apply grows_bind
    | match goal with
      | |- grows (match ?x with _ => _ end) => destruct x
      | |- (_ ≤ ap_reads (match ?x with _ => _ end))%nat => destruct x
      | |- (_ ≤ ap_reads (match ?x with _ => _ end).2)%nat => destruct x
      | |- (_ ≤ ap_reads _)%nat => simpl; lia
      | |- grows (step _) => apply grows_step; cbv beta zeta
      | |- grows (modify _) => apply grows_modify; cbv beta zeta
      end ].

Section theory.
Context {W St Er : Type} `{WO : WorkOps W} `{GS : GitSpawn W} `{OS : ObjectStore St Er} `{RS : !RepoStore St Er}.
Context `{RND : SystemRandom} `{DIG : Digests} `{MAC : Hmacs} `{HX : Hex} `{PB : Pbkdf2} `{AB : AeadBackend} `{ED : Ed25519} `{ML : MlDsa}.
Context `{CK : Clock} `{JT : JsonText} `{HP : HttpsPost} `{UL : UnicodeLower}.
Context `{SI : Serde (list string)} `{SM : Serde SealManifest} `{SEV : Serde AuditEvent} `{SRE : Serde RawEntry}.
Context `{SU : Serde User} `{SRp : Serde Repo} `{SWh : Serde Webhook} `{SNt : Serde Notification} `{SRr : Serde (list Report)}.
Context `{TF : ErrorText ForgeError} `{TG : ErrorText GitHttpError} `{TA : ErrorText ApiError} `{TS : ErrorText Er}.
Abbreviation App := (App (W := W) (St := St)).
Abbreviation H := (H (W := W) (St := St)).
Abbreviation grows := (grows (W := W) (St := St)).

(** The repositories and what is derived from them (the working path, the three stores,
    the directory, the quotas, the log, the webhooks sent), the local accounts, the proof
    of work, the random generator, and of the sessions and the anonymous repositories the
    settings and the counts of creations. *)
Definition protected (a : App) :=
  ((ap_work a, ap_store a, ap_search a, ap_dir_store a, directory a, ap_quota a, (ap_audit a, ap_disk a), ap_sent a, ap_rng a),
   (si_local (ap_identity a), ss_ttl_secs (si_sessions (ap_identity a)), er_cfg (ap_ephemeral a), er_creates (ap_ephemeral a)),
   (ap_pow a, rl_ip_req (ap_limiters a), rl_push (ap_limiters a))).

(** The wall clock at the four readings that follow the [n]-th. *)
Definition clock_at (n : nat) : clock := mkClock (unix_now n) (unix_now (S n)) (unix_now (S (S n))) (unix_now (S (S (S n)))).

(** Entries are lost only if they had expired at one of the readings from [lo] to [hi],
    and none is added or changed.  The wall clock may run backwards. *)
Definition pruned {A} (expires : A → N) (lo hi : nat) (m m' : gmap string A) : Prop := ∀ k x,
  (m' !! k = Some x → m !! k = Some x) ∧
  (m !! k = Some x → m' !! k = Some x ∨ ∃ n, (lo ≤ n < hi)%nat ∧ expires x ≤ unix_now n).

Lemma pruned_refl {A} (expires : A → N) lo hi m : pruned expires lo hi m m.
Proof. intros k x. auto. Qed.
Lemma pruned_trans {A} (expires : A → N) lo mid hi m1 m2 m3 : (lo ≤ mid)%nat → (mid ≤ hi)%nat →
  pruned expires lo mid m1 m2 → pruned expires mid hi m2 m3 → pruned expires lo hi m1 m3.
Proof.
  intros H1 H2 P1 P2 k x. destruct (P1 k x) as [A1 B1], (P2 k x) as [A2 B2]. split; [auto|].
  intros [Hx|(n & Hn & He)]%B1; [|right; exists n; split; [lia|done]]. apply B2 in Hx as [Hx|(n & Hn & He)]; [by left|].
  right. exists n. split; [lia|done].
Qed.
Lemma pruned_filter {A} (expires : A → N) lo hi n (P : string * A → Prop) `{!∀ x, base.Decision (P x)} m :
  (lo ≤ n < hi)%nat → (∀ k x, ¬ P (k, x) → expires x ≤ unix_now n) → pruned expires lo hi m (filter P m).
Proof.
  intros Hn Hexp k x. rewrite map_lookup_filter_Some. split; [by intros [? _]|]. intros Hx.
  destruct (decide (P (k, x))) as [|Hp]; [by left|right; eauto].
Qed.

Definition sessions (a : App) : gmap string Session := ss_by_hash (si_sessions (ap_identity a)).
Definition anonymous (a : App) : gmap string EphemeralState := er_repos (ap_ephemeral a).

(** Steps that only read clocks, charge the two limiters of the transport, count
    rate-limited requests, and forget sessions and anonymous repositories that were
    expired when they ran. *)
Record quiet (a a' : App) : Prop := {
  q_protected : protected a' = protected a;
  q_reads : (ap_reads a ≤ ap_reads a')%nat;
  q_sessions : pruned s_expires_at (ap_reads a) (ap_reads a') (sessions a) (sessions a');
  q_anonymous : pruned es_expires_at (ap_reads a) (ap_reads a') (anonymous a) (anonymous a');
  q_counters : ∀ c, c ≠ rate_limited_total → ap_metrics a' c = ap_metrics a c;
}.

Lemma quiet_refl a : quiet a a.
Proof. split; auto using pruned_refl. Qed.
Lemma quiet_trans a b c : quiet a b → quiet b c → quiet a c.
Proof.
  intros [P1 R1 S1 A1 C1] [P2 R2 S2 A2 C2].
  split; [congruence|lia|by eapply pruned_trans|by eapply pruned_trans|]. intros d Hd. by rewrite C2, C1.
Qed.
Lemma quiet_directory a a' : quiet a a' → directory a' = directory a.
Proof. intros [P _ _ _ _]. unfold protected in P. congruence. Qed.
Lemma quiet_local a a' : quiet a a' → si_local (ap_identity a') = si_local (ap_identity a).
Proof. intros [P _ _ _ _]. unfold protected in P. congruence. Qed.

(** ** Who a request comes from

    The request shows, at one of the clock readings before [hi], who it comes from: the
    token of a session of [u], as bearer token or as Basic secret, that is unexpired at
    that reading and whose second factor is satisfied; or the local password of [u]. *)
Inductive shows (a : App) (req : Request) (hi : nat) (u : string) : Prop :=
| shows_bearer token n : bearer_token req = Some token → (ap_reads a ≤ n < hi)%nat →
    live (ap_identity a) token (unix_now n) u → shows a req hi u
| shows_secret user secret n : basic_auth req = Some (user, secret) → (ap_reads a ≤ n < hi)%nat →
    live (ap_identity a) secret (unix_now n) u → shows a req hi u
| shows_password user secret ph : basic_auth req = Some (user, secret) → si_local (ap_identity a) !! user = Some (u, ph) →
    password_verify ph secret = true → shows a req hi u.

Lemma shows_back (a a' : App) req hi hi' u : (ap_reads a ≤ ap_reads a')%nat → (hi' ≤ hi)%nat →
  (∀ k s, sessions a' !! k = Some s → sessions a !! k = Some s) → si_local (ap_identity a') = si_local (ap_identity a) →
  shows a' req hi' u → shows a req hi u.
Proof.
  intros Hr Hh Hs Hl. assert (∀ t n, live (ap_identity a') t n u → live (ap_identity a) t n u) as L.
  { intros t n (s & H1 & H2). exists s. split; [by apply Hs|done]. }
  intros [token n H1 H2 H3|user secret n H1 H2 H3|user secret ph H1 H2 H3].
  - eapply (shows_bearer _ _ _ _ token n); [done|lia|by apply L].
  - eapply (shows_secret _ _ _ _ user secret n); [done|lia|by apply L].
  - eapply shows_password; [done|by rewrite <-Hl|done].
Qed.
Lemma quiet_shows a a' req hi u : quiet a a' → shows a' req hi u → shows a req hi u.
Proof.
  intros Q. apply shows_back; [apply Q|done| |by apply quiet_local]. intros k s. apply Q.
Qed.

(** What some grant on a repository entitles a user to. *)
Definition entitled (d : Directory) (u repo : string) (role : Role) : Prop :=
  ∃ rp r, d_repos d !! repo = Some rp ∧ granted d u repo rp r ∧ role_rank role ≤ role_rank r.
Lemma can_entitled d u repo role : can d u repo role = true ↔ entitled d u repo role.
Proof. apply can_iff_granted. Qed.
Lemma entitled_read d u repo role : entitled d u repo role → entitled d u repo Read.
Proof. intros (rp & r & H1 & H2 & _). exists rp, r. split_and!; [done|done|]. destruct r; by vm_compute. Qed.

(** *** The primitives *)

Lemma quiet_metrics (a : App) n : quiet a (with_metrics (metrics_add rate_limited_total n (ap_metrics a)) a).
Proof.
  destruct a. split; simpl; auto using pruned_refl. intros c Hc. unfold metrics_add. by rewrite bool_decide_eq_false_2.
Qed.

Lemma check_session_sound token t t' id u : (check_session token t t' id).1 = Some u → live id token t' u.
Proof.
  unfold check_session. destruct (session_validate _ _ _ _) as [o st] eqn:E. simpl. intros (s & -> & ->)%fmap_Some.
  pose proof (session_validate_iff token t t' (si_sessions id) s) as H. rewrite E in H. destruct (proj1 H eq_refl) as (H1 & _ & H2 & H3).
  by exists s.
Qed.

(** What a validation at the [n]-th reading leaves of the sessions. *)
Lemma check_session_pruned token lo hi n t' id : (lo ≤ n < hi)%nat →
  pruned s_expires_at lo hi (ss_by_hash (si_sessions id)) (ss_by_hash (si_sessions (check_session token (unix_now n) t' id).2)) ∧
  ss_ttl_secs (si_sessions (check_session token (unix_now n) t' id).2) = ss_ttl_secs (si_sessions id).
Proof.
  intros Hn. unfold check_session, session_validate, session_gc. simpl. split; [|done].
  apply (pruned_filter _ _ _ n); [done|]. simpl. intros k s Hs. lia.
Qed.

(** Authentication answers only those who show who they are, and forgets only expired
    sessions. *)
Lemma authenticate_sound req (a : App) :
  let '(o, id) := Authz.authenticate req (clock_at (ap_reads a)) (ap_identity a) in
  (∀ u, o = Some u → shows a req (4 + ap_reads a) u) ∧
  pruned s_expires_at (ap_reads a) (4 + ap_reads a) (sessions a) (ss_by_hash (si_sessions id)) ∧
  si_dir id = si_dir (ap_identity a) ∧ si_local id = si_local (ap_identity a) ∧
  ss_ttl_secs (si_sessions id) = ss_ttl_secs (si_sessions (ap_identity a)).
Proof.
  unfold Authz.authenticate. set (n := ap_reads a). set (first := match bearer_token req with Some _ => _ | None => _ end).
  assert ((∀ u, first.1 = Some u → shows a req (4 + n) u) ∧
    pruned s_expires_at n (1 + n) (sessions a) (ss_by_hash (si_sessions first.2)) ∧
    si_dir first.2 = si_dir (ap_identity a) ∧ si_local first.2 = si_local (ap_identity a) ∧
    ss_ttl_secs (si_sessions first.2) = ss_ttl_secs (si_sessions (ap_identity a))) as (F1 & F2 & F3 & F4 & F5).
  { unfold first. destruct (bearer_token req) as [token|] eqn:Eb; [|split_and!; auto using pruned_refl; done].
    destruct (check_session_pruned token n (1 + n) n (unix_now (S n)) (ap_identity a)) as [Hp Ht]; [lia|].
    destruct (check_session_keeps token (unix_now n) (unix_now (S n)) (ap_identity a)) as [Hd Hl].
    split_and!; [|done|done|done|done]. intros u Hu%check_session_sound. eapply (shows_bearer _ _ _ _ token (S n)); [done|lia|done]. }
  clearbody first. destruct first as [[u|] id1]; simpl in F1, F2, F3, F4, F5.
  { split_and!; [done| |done|done|done]. eapply (pruned_trans _ _ (1 + n)); [lia|lia|done|apply pruned_refl]. }
  destruct (basic_auth req) as [[user secret]|] eqn:Ea.
  2:{ split_and!; [done| |done|done|done]. eapply (pruned_trans _ _ (1 + n)); [lia|lia|done|apply pruned_refl]. }
  destruct (check_session_pruned secret (1 + n) (4 + n) (S (S n)) (unix_now (S (S (S n)))) id1) as [Hp Ht]; [lia|].
  destruct (check_session_keeps secret (unix_now (S (S n))) (unix_now (S (S (S n)))) id1) as [Hd Hl].
  pose proof (check_session_sound secret (unix_now (S (S n))) (unix_now (S (S (S n)))) id1) as Hs. cbn [clock_at k3 k4].
  destruct (check_session secret _ _ id1) as [o id2]. simpl in *.
  assert (pruned s_expires_at n (4 + n) (sessions a) (ss_by_hash (si_sessions id2))) as Hp2.
  { eapply (pruned_trans _ _ (1 + n)); [lia|lia|done|done]. }
  destruct o as [v|]; split_and!; try done; try congruence.
  - intros u [= <-]. eapply (shows_secret _ _ _ _ user secret (3 + n)); [done|lia|].
    destruct (Hs v eq_refl) as (s & H1 & H2). exists s. split; [by apply F2|done].
  - intros u (ph & H1 & H2)%local_authenticate_ok. eapply shows_password; [done| |done]. congruence.
Qed.

(** The state after the identity is replaced by what authentication leaves. *)
Lemma quiet_sessions (a : App) id : 
  pruned s_expires_at (ap_reads a) (4 + ap_reads a) (sessions a) (ss_by_hash (si_sessions id)) →
  si_dir id = si_dir (ap_identity a) → si_local id = si_local (ap_identity a) →
  ss_ttl_secs (si_sessions id) = ss_ttl_secs (si_sessions (ap_identity a)) →
  quiet a (with_directory id (ap_dir_store a) (with_reads (4 + ap_reads a) a)).
Proof.
  intros Hp Hd Hl Ht. destruct a. unfold sessions in *. simpl in *.
  split; simpl; [|lia|done|apply pruned_refl|done]. unfold protected, directory. simpl. by rewrite Hd, Hl, Ht.
Qed.

Lemma authenticate_eq req (a : App) : authenticate req a =
  let '(o, id) := Authz.authenticate req (clock_at (ap_reads a)) (ap_identity a) in
  (Ok o, with_directory id (ap_dir_store a) (with_reads (4 + ap_reads a) a)).
Proof. unfold authenticate, mbind, eff_mbind. simpl. unfold step. simpl. by destruct (Authz.authenticate _ _ _). Qed.
Lemma decide_identity_eq repo write req (a : App) : decide_identity repo write req a =
  let '(d, id) := Authz.decide_identity repo write req (clock_at (ap_reads a)) (ap_identity a) in
  (Ok d, with_directory id (ap_dir_store a) (with_reads (4 + ap_reads a) a)).
Proof. unfold decide_identity, mbind, eff_mbind. simpl. unfold step. simpl. by destruct (Authz.decide_identity _ _ _ _ _). Qed.

(** Only the clock and the sessions may differ. *)
Definition only_sessions (a a' : App) : Prop :=
  ap_ephemeral a' = ap_ephemeral a ∧ ap_limiters a' = ap_limiters a ∧ ap_metrics a' = ap_metrics a.

Lemma wp_authenticate req a : wp (authenticate req) a (λ r a', ∃ o, r = Ok o ∧ quiet a a' ∧ only_sessions a a' ∧
  ap_reads a' = (4 + ap_reads a)%nat ∧ ∀ u, o = Some u → shows a req (4 + ap_reads a) u).
Proof.
  unfold wp. rewrite authenticate_eq. pose proof (authenticate_sound req a) as Hs.
  destruct (Authz.authenticate req (clock_at (ap_reads a)) (ap_identity a)) as [o id'] eqn:E. destruct Hs as (H1 & H2 & H3 & H4 & H5).
  exists o. split; [done|]. split; [by apply quiet_sessions|]. done.
Qed.

Lemma wp_decide_identity repo write req a : wp (decide_identity repo write req) a (λ r a', ∃ d, r = Ok d ∧ quiet a a' ∧
  ap_reads a' = (4 + ap_reads a)%nat ∧
  ∀ u, d = Allow u → shows a req (4 + ap_reads a) u ∧ entitled (directory a) u repo (required_role write)).
Proof.
  unfold wp. rewrite decide_identity_eq. pose proof (authenticate_sound req a) as Hs.
  unfold Authz.decide_identity. change (si_dir (ap_identity a)) with (directory a) in *.
  destruct (d_repos (directory a) !! repo) as [rp|].
  2:{ simpl. eexists. split; [done|]. split; [|done]. destruct a. split; simpl; auto using pruned_refl; try done; lia. }
  destruct (Authz.authenticate req (clock_at (ap_reads a)) (ap_identity a)) as [o id'] eqn:E. destruct Hs as (H1 & H2 & H3 & H4 & H5).
  pose proof (quiet_sessions a id' H2 H3 H4 H5) as Hq. destruct o as [u|]; [|eexists; split; [done|]; by split].
  rewrite H3. destruct (can _ _ _ _) eqn:Ec; simpl; (eexists; split; [done|]; split; [exact Hq|]); [|done].
  split; [done|]. intros v [= <-]. split; [by apply H1|by apply can_entitled].
Qed.

(** ** The git transport *)

(** The endpoints: the path is the name of a repository, after any slashes, and before
    the endpoint. *)
Definition endpoint_path (ep : Endpoint) : string :=
  match ep with InfoRefs => "/info/refs" | Rpc UploadPack => "/git-upload-pack" | Rpc ReceivePack => "/git-receive-pack" end.
Definition addresses (path repo : string) (ep : Endpoint) : Prop :=
  ∃ slashes, Forall (λ b, b = SLASH) slashes ∧ as_bytes path = slashes ++ as_bytes repo ++ as_bytes (endpoint_path ep).
(** A push: the pack itself, or the advertisement that precedes it. *)
Definition pushes (ep : Endpoint) (req : Request) : Prop :=
  ep = Rpc ReceivePack ∨ ep = InfoRefs ∧ rq_query req !! "service" = Some "git-receive-pack".

Lemma split_endpoint_addresses path repo ep : split_endpoint path = Some (repo, ep) → addresses path repo ep.
Proof.
  unfold split_endpoint, addresses. set (p := drop_while _ (as_bytes path)).
  assert (∃ slashes, Forall (λ b, b = SLASH) slashes ∧ as_bytes path = slashes ++ p) as (sl & Hsl & ->).
  { unfold p. induction (as_bytes path) as [|b bs (sl & Hsl & E)]; [by exists []|]. simpl. case_bool_decide as Hb.
    - exists (b :: sl). split; [by constructor|]. simpl. by rewrite <-E.
    - by exists []. }
  assert (∀ r, as_bytes (string_of_list_byte r) = r) as Hr by apply list_byte_of_string_of_list_byte.
  intros H. exists sl. split; [done|]. f_equal. clearbody p. revert H.
  destruct (strip_suffix (as_bytes "/info/refs") p) as [r|] eqn:E1.
  { intros [= <- <-]. rewrite Hr. by apply strip_suffix_spec. }
  destruct (strip_suffix (as_bytes "/git-upload-pack") p) as [r|] eqn:E2.
  { intros [= <- <-]. rewrite Hr. by apply strip_suffix_spec. }
  destruct (strip_suffix (as_bytes "/git-receive-pack") p) as [r|] eqn:E3; [|done].
  intros [= <- <-]. rewrite Hr. by apply strip_suffix_spec.
Qed.
Lemma writes_pushes ep req : writes ep req = true ↔ pushes ep req.
Proof.
  unfold writes, pushes. destruct ep as [|[]]; rewrite ?bool_decide_eq_true; split; try done; auto; by intros [?|[??]].
Qed.

(** What a request must show, at a reading before [hi], to reach a repository: the
    unexpired token of an anonymous repo; or that it comes from a user whom some grant
    lets read it, and for a push write it; or, for a push to a repo that does not exist,
    that it comes from the user whose namespace it is in. *)
Inductive admitted (a : App) (req : Request) (hi : nat) (repo : string) (push : Prop) : Prop :=
| by_token s n : anonymous a !! repo = Some s → default "" (bearer_token req) = es_token s →
    (ap_reads a ≤ n < hi)%nat → unix_now n < es_expires_at s → admitted a req hi repo push
| by_role u : shows a req hi u → entitled (directory a) u repo Read →
    (push → entitled (directory a) u repo Write) → admitted a req hi repo push
| by_namespace u name : push → d_repos (directory a) !! repo = None → shows a req hi u →
    repo = (username_of (directory a) u +:+ "/") +:+ name → admitted a req hi repo push.

Definition refusal (resp : Response) : Prop := rs_status resp ∈ [401; 403; 404; 429].
Definition refused {A} (r : result Stop A) : Prop := ∃ resp, r = Err (Reply resp) ∧ refusal resp.

Lemma refused_reply {A} resp : refusal resp → refused (A := A) (Err (Reply resp)).
Proof. intros H. by exists resp. Qed.

(** Admission is not gained by quiet steps, nor lost by reading on. *)
Lemma admitted_back a a' req hi hi' repo push : quiet a a' → (hi' ≤ hi)%nat →
  admitted a' req hi' repo push → admitted a req hi repo push.
Proof.
  intros Q Hh. pose proof (q_reads _ _ Q). pose proof (quiet_directory _ _ Q) as Hd.
  assert (∀ u, shows a' req hi' u → shows a req hi u) as Hs.
  { intros u. apply shows_back; [done|done| |by apply quiet_local]. intros k s. apply Q. }
  intros [s n H1 H2 H3 H4|u H1 H2 H3|u name H1 H2 H3 H4]; rewrite ?Hd in *.
  - eapply (by_token _ _ _ _ _ s n); [by apply Q|done|lia|done].
  - eapply (by_role _ _ _ _ _ u); auto.
  - eapply (by_namespace _ _ _ _ _ u name); auto.
Qed.
Lemma admitted_more a req hi hi' repo push : (hi' ≤ hi)%nat → admitted a req hi' repo push → admitted a req hi repo push.
Proof. apply admitted_back, quiet_refl. Qed.

Lemma authorize_push_state repo token t1 t2 st : (authorize_push repo token t1 t2 st).2 = (ephemeral_gc t1 st).2.
Proof. unfold authorize_push. repeat case_match; done. Qed.

Lemma wp_ephemeral_gate repo req push a : wp (ephemeral_gate repo req) a (λ r a',
  (admitted a req (ap_reads a') repo push ∨ refused r) ∧ quiet a a').
Proof.
  unfold ephemeral_gate. apply wp_bind. unfold wp at 1. simpl. apply wp_bind. unfold wp at 1. simpl. apply wp_bind.
  unfold wp at 1, on_ephemeral. simpl. set (a2 := with_reads _ (with_reads _ a)).
  destruct (authorize_push _ _ _ _ _) as [r e] eqn:E. simpl.
  assert (quiet a (with_ephemeral e (ap_rng a) a2)) as Hq.
  { pose proof (authorize_push_state repo (default "" (bearer_token req)) (unix_now (ap_reads a)) (unix_now (S (ap_reads a))) (ap_ephemeral a)) as Hs.
    rewrite E in Hs. simpl in Hs. subst e. destruct a. split; simpl; [done|lia|apply pruned_refl| |done].
    unfold anonymous. simpl. apply (pruned_filter _ _ _ ap_reads); [lia|]. intros k s Hs. by apply dec_stable in Hs. }
  destruct r as [[]|er]; simpl; unfold wp; simpl; (split; [|done]); [|right; by apply refused_reply; left].
  left. revert E. unfold authorize_push. simpl. destruct (filter _ _ !! repo) as [s|] eqn:Es; [|done].
  apply map_lookup_filter_Some in Es as [Es _]. destruct (N.leb_spec (es_expires_at s) (unix_now (S (ap_reads a)))); [done|].
  destruct (ct_eq _ _) eqn:Ec; [simpl|done]. intros _. apply ct_eq_true, as_bytes_inj in Ec.
  eapply (by_token _ _ _ _ _ s (S (ap_reads a))); [done|done|simpl; lia|done].
Qed.

(** ** The handlers of the transport count on *)

Lemma grows_metric c : grows (inc_metric c).
Proof. by intros a. Qed.
Lemma grows_unix : grows unix_time.
Proof. intros a. simpl. lia. Qed.
Lemma grows_mono : grows mono_time.
Proof. intros a. simpl. lia. Qed.
Lemma grows_forge {A} (c : eff (W * St) ForgeError A) : grows (forge c).
Proof. intros a. unfold forge. by destruct (c _) as [r [w s]]. Qed.
Lemma grows_on_store {A} (c : eff St Er A) : grows (on_store c).
Proof. intros a. unfold on_store. by destruct (c _) as [r s]. Qed.
Lemma grows_on_search {A} (c : eff St SearchError A) : grows (on_search c).
Proof. intros a. unfold on_search. by destruct (c _) as [r s]. Qed.
Lemma grows_on_events {A} (c : eff (EV (St := St)) EventError A) : grows (on_events c).
Proof. intros a. unfold on_events. by destruct (c _) as [r [s g]]. Qed.
Lemma grows_on_quota {A} (c : eff AccountQuota ApiError A) : grows (on_quota c).
Proof. intros a. unfold on_quota. by destruct (c _) as [r q]. Qed.
Lemma grows_on_ephemeral {A} (c : eff EphemeralRepos ApiError A) : grows (on_ephemeral c).
Proof. intros a. unfold on_ephemeral. by destruct (c _) as [r q]. Qed.
Lemma grows_on_dir {A} (c : eff (Directory * St) IdentityError A) : grows (on_dir c).
Proof. intros a. unfold on_dir. by destruct (c _) as [r [d s]]. Qed.
Lemma grows_deliver repo event payload : grows (deliver_hooks repo event payload).
Proof. intros a. unfold deliver_hooks. by destruct (deliver _ _ _ _ _) as [[e m] [s g]]. Qed.
Lemma grows_run_git run args input : grows (run_git run args input).
Proof. intros a. unfold run_git. by destruct (run _). Qed.
Lemma grows_authenticate req : grows (authenticate req).
Proof. intros a. rewrite authenticate_eq. destruct (Authz.authenticate _ _ _). simpl. lia. Qed.
Lemma grows_decide repo write req : grows (decide_identity repo write req).
Proof. intros a. rewrite decide_identity_eq. destruct (Authz.decide_identity _ _ _ _ _). simpl. lia. Qed.

#[local] Hint Resolve grows_metric grows_unix grows_mono grows_forge grows_on_store
  grows_on_search grows_on_events grows_on_quota grows_on_ephemeral grows_on_dir grows_deliver grows_run_git grows_authenticate
  grows_decide : grows.

Lemma grows_check_ip_git key : grows (check_ip_git key). Proof. unfold check_ip_git. grow. Qed.
Lemma grows_check_ip_req key : grows (check_ip_req key). Proof. unfold check_ip_req. grow. Qed.
Lemma grows_check_account key : grows (check_account key). Proof. unfold check_account. grow. Qed.
Lemma grows_check_push key : grows (check_push key). Proof. unfold check_push. grow. Qed.
Lemma grows_audit e : grows (audit e). Proof. unfold audit. grow. Qed.
Lemma grows_materialize repo : grows (materialize repo). Proof. unfold materialize. grow. Qed.
Lemma grows_index_entries repo dir es : ∀ stack, grows (index_entries repo dir es stack).
Proof. induction es as [|e es IH]; intros stack; cbn [index_entries]; grow. Qed.
#[local] Hint Resolve grows_check_ip_git grows_check_ip_req grows_check_account grows_check_push grows_audit grows_materialize
  grows_index_entries : grows.
Lemma grows_index_loop fuel repo : ∀ stack, grows (index_loop fuel repo stack).
Proof. induction fuel as [|fuel IH]; intros [|d stack]; cbn [index_loop]; grow. Qed.
Lemma grows_index fuel repo : grows (index_repo_head fuel repo). Proof. apply grows_index_loop. Qed.
Lemma grows_quota_check repo n : grows (quota_check_push repo n). Proof. unfold quota_check_push. grow. Qed.
#[local] Hint Resolve grows_index grows_quota_check : grows.
Lemma grows_push_cap repo req : grows (push_cap repo req). Proof. unfold push_cap. grow. Qed.
Lemma grows_after_push cfg fuel repo : grows (after_push cfg fuel repo). Proof. unfold after_push. grow. Qed.
#[local] Hint Resolve grows_push_cap grows_after_push : grows.
Lemma grows_run_rpc cfg fuel repo path svc req : grows (run_rpc cfg fuel repo path svc req). Proof. unfold run_rpc. grow. Qed.
Lemma grows_info_refs cfg path req : grows (info_refs cfg path req). Proof. unfold info_refs. grow. Qed.
Lemma grows_create_named cfg user name private : grows (create_named_repo cfg user name private).
Proof. unfold create_named_repo, rollback. grow. Qed.
#[local] Hint Resolve grows_run_rpc grows_info_refs grows_create_named : grows.
Lemma grows_push_to_create cfg repo user : grows (push_to_create cfg repo user). Proof. unfold push_to_create. grow. Qed.
#[local] Hint Resolve grows_push_to_create : grows.
Lemma grows_create_on_push cfg repo req : grows (create_on_push cfg repo req). Proof. unfold create_on_push. grow. Qed.
Lemma grows_ephemeral_gate repo req : grows (ephemeral_gate repo req). Proof. unfold ephemeral_gate. grow. Qed.
#[local] Hint Resolve grows_create_on_push grows_ephemeral_gate : grows.
Lemma grows_identity_gate cfg repo write req : grows (identity_gate cfg repo write req). Proof. unfold identity_gate. grow. Qed.
#[local] Hint Resolve grows_identity_gate : grows.
Lemma grows_git_route cfg fuel req : grows (git_route cfg fuel req). Proof. unfold git_route. grow. Qed.

Lemma wp_grows {A} (c : H A) (a : App) (Q : result Stop A → App → Prop) :
  grows c → (∀ r a', (ap_reads a ≤ ap_reads a')%nat → Q r a') → wp c a Q.
Proof. intros Hc HQ. apply HQ, Hc. Qed.

(** ** The gates *)

Lemma wp_create_on_push cfg repo req (push : Prop) a : push → wp (create_on_push cfg repo req) a (λ r a',
  admitted a req (ap_reads a') repo push ∨ ((r = Ok () ∨ refused r) ∧ quiet a a')).
Proof.
  intros Hpush. unfold create_on_push. apply wp_bind. unfold wp at 1. simpl. apply wp_bind.
  eapply wp_mono; [apply wp_authenticate|]. intros r a1 (o & -> & Q1 & _ & Hn & Hc).
  case_bool_decide as Hr; [right; split; [by left|done]|].
  destruct o as [u|]; [|right; split; [right; by apply refused_reply; left|done]].
  destruct (strip_prefix (as_bytes (username_of (directory a) u +:+ "/")) (as_bytes repo)) as [name|] eqn:Es.
  - apply wp_grows; [grow|]. intros ? ? Hg. left. apply (admitted_more _ _ _ (4 + ap_reads a)); [lia|].
    eapply (by_namespace _ _ _ _ _ u); [done| |by apply Hc|by apply strip_prefix_text].
    apply eq_None_not_Some. intros ?. by apply Hr.
  - apply wp_bind. unfold push_to_create. apply wp_bind. unfold wp at 1. simpl. rewrite (quiet_directory _ _ Q1), Es.
    unfold wp. simpl. right. split; [right; by apply refused_reply; right; right; left|done].
Qed.

Lemma wp_identity_gate cfg repo write req (push : Prop) a : (write = true ↔ push) → wp (identity_gate cfg repo write req) a (λ r a',
  admitted a req (ap_reads a') repo push ∨ (refused r ∧ quiet a a')).
Proof.
  intros Hw. unfold identity_gate. apply wp_bind.
  apply (wp_mono _ _ (λ r a', admitted a req (ap_reads a') repo push ∨ ((r = Ok () ∨ refused r) ∧ quiet a a'))).
  { destruct write; [apply wp_create_on_push; by apply Hw|]. unfold wp. simpl. right. split; [by left|apply quiet_refl]. }
  intros r a1 [Ha|(Hr & Q1)].
  { destruct r as [[]|e]; [|by left]. apply wp_grows; [grow|]. intros ? ? Hg. left. by eapply admitted_more. }
  destruct r as [[]|e]; [|right; split; [|done]; destruct Hr as [?|(resp & [= ->] & ?)]; [done|by apply refused_reply]].
  apply wp_bind. eapply wp_mono; [apply wp_decide_identity|]. intros r2 a2 (d & -> & Q2 & Hn & Hd).
  pose proof (quiet_trans _ _ _ Q1 Q2) as Q. destruct d as [u| | |].
  - destruct (Hd u eq_refl) as [Hc Hcan]. apply wp_grows; [grow|]. intros ? ? Hg. left.
    eapply (admitted_back _ _ _ _ (4 + ap_reads a1)); [exact Q1|lia|]. eapply by_role; [done|by eapply entitled_read|].
    intros ->%Hw. done.
  - unfold wp. simpl. right. split; [apply refused_reply; by right; right; left|done].
  - unfold wp. simpl. right. split; [apply refused_reply; by left|done].
  - unfold wp. simpl. right. split; [apply refused_reply; by right; left|done].
Qed.

(** *** Reads *)

(** What a fetch does not touch: everything but the working path and the (cached) keys of
    the store. *)
Definition records (a : App) :=
  (ap_search a, ap_dir_store a, directory a, ap_quota a, (ap_audit a, ap_disk a), ap_sent a, ap_rng a).
Definition keeps_records {A} (c : H A) : Prop := ∀ a, wp c a (λ _ a', records a' = records a).

Lemma quiet_records a a' : quiet a a' → records a' = records a.
Proof. intros [P _ _ _ _]. unfold protected in P. unfold records. congruence. Qed.

Lemma recs_ret {A} (x : A) : keeps_records (mret x).
Proof. by intros a. Qed.
Lemma keeps_reply {A} resp : keeps_records (reply (A := A) resp).
Proof. by intros a. Qed.
Lemma recs_bind {A B} (c : H A) (f : A → H B) : keeps_records c → (∀ x, keeps_records (f x)) → keeps_records (c ≫= f).
Proof.
  intros Hc Hf a. apply wp_bind. eapply wp_mono; [apply Hc|]. intros [x|e] a1 H1; simpl; [|done].
  eapply wp_mono; [apply Hf|]. simpl. congruence.
Qed.
Lemma keeps_forge {A} (c : eff (W * St) ForgeError A) : keeps_records (forge c).
Proof. intros a. unfold wp, forge. by destruct (c _) as [r [w s]]. Qed.
Lemma recs_run_git run args input : keeps_records (run_git run args input).
Proof. intros a. unfold wp, run_git. by destruct (run _). Qed.
Lemma keeps_metric c : keeps_records (inc_metric c).
Proof. by intros a. Qed.
Lemma wp_check_account key a : wp (check_account key) a (λ r a', (∃ ok, r = Ok ok) ∧ quiet a a').
Proof.
  unfold wp, check_account, mbind, eff_mbind. simpl. unfold step. simpl. destruct (check _ _ _) as [ok l]. simpl.
  split; [by eexists|]. destruct a. split; simpl; auto using pruned_refl; (done || lia).
Qed.
Lemma wp_check_ip_git key a : wp (check_ip_git key) a (λ r a', (∃ ok, r = Ok ok) ∧ quiet a a').
Proof.
  unfold wp, check_ip_git, mbind, eff_mbind. simpl. unfold step. simpl. destruct (check _ _ _) as [ok l]. simpl.
  split; [by eexists|]. destruct a. split; simpl; auto using pruned_refl; (done || lia).
Qed.

Lemma keeps_materialize repo : keeps_records (materialize repo).
Proof.
  apply recs_bind; [apply keeps_forge|]. intros [[|]|e]; [apply recs_ret|..]; (apply recs_bind; [apply keeps_forge|]); intros; apply recs_ret.
Qed.
Lemma keeps_info_refs cfg path req : keeps_records (info_refs cfg path req).
Proof.
  unfold info_refs. destruct (rq_query req !! _); [|apply keeps_reply]. destruct (service_parse _); [|apply keeps_reply].
  apply recs_bind; [apply recs_run_git|]. intros [b|e]; apply recs_ret.
Qed.
Lemma keeps_upload cfg fuel repo path req : keeps_records (run_rpc cfg fuel repo path UploadPack req).
Proof.
  unfold run_rpc. apply recs_bind; [apply recs_ret|]. intros _. apply recs_bind; [apply recs_run_git|]. intros [b|[| | |msg]];
    try apply recs_ret; (apply recs_bind; [apply recs_ret|]); intros; apply recs_ret.
Qed.

Lemma wp_identity_read cfg repo req a : wp (identity_gate cfg repo false req) a (λ _ a', quiet a a').
Proof.
  unfold identity_gate. apply wp_bind, wp_ret, wp_bind. eapply wp_mono; [apply wp_decide_identity|].
  intros r a1 (d & -> & Q & _). destruct d as [u| | |]; [|exact Q..].
  apply wp_bind. eapply wp_mono; [apply wp_check_account|]. intros r2 a2 ((ok & ->) & Q2).
  pose proof (quiet_trans _ _ _ Q Q2) as Q3. destruct ok; [exact Q3|].
  apply wp_bind. unfold wp at 1. simpl. unfold wp. simpl. eapply quiet_trans; [exact Q3|]. apply quiet_metrics.
Qed.

(** ** The route *)

Definition answers (r : result Stop Response) (resp : Response) : Prop := r = Ok resp ∨ r = Err (Reply resp).

Definition git_served (a : App) (req : Request) (r : result Stop Response) (a' : App) : Prop :=
  (∃ repo ep, addresses (rq_path req) repo ep ∧ admitted a req (ap_reads a') repo (pushes ep req) ∧
     (¬ pushes ep req → records a' = records a)) ∨
  ((∃ resp, answers r resp ∧ refusal resp) ∧ quiet a a').

(** What the two gates do: a request that passes is admitted, one that does not is
    refused quietly, and reading is quiet. *)
Lemma wp_gate cfg repo ep req a : 
  wp (if is_ephemeral (ap_ephemeral a) repo then ephemeral_gate repo req else identity_gate cfg repo (writes ep req) req) a (λ r a',
    (admitted a req (ap_reads a') repo (pushes ep req) ∨ (refused r ∧ quiet a a')) ∧ (¬ pushes ep req → quiet a a')).
Proof.
  destruct (is_ephemeral _ _).
  - eapply wp_mono; [apply (wp_ephemeral_gate _ _ (pushes ep req))|]. intros r a' [[H|H] Q]; auto.
  - split; [apply wp_identity_gate, writes_pushes|]. intros Hp. rewrite <-writes_pushes, not_true_iff_false in Hp. rewrite Hp.
    apply wp_identity_read.
Qed.

Lemma git_route_served cfg fuel req a : wp (git_route cfg fuel req) a (git_served a req).
Proof.
  unfold git_route. destruct (split_endpoint (rq_path req)) as [[repo ep]|] eqn:Ep.
  2:{ unfold wp. simpl. right. split; [|apply quiet_refl]. eexists. split; [by left|]. by right; right; left. }
  apply split_endpoint_addresses in Ep. apply wp_bind. eapply wp_mono; [apply wp_check_ip_git|]. intros r a1 ((ok & ->) & Q1).
  destruct ok; simpl.
  2:{ unfold wp. simpl. right. split; [|eapply quiet_trans; [exact Q1|apply quiet_metrics]].
      eexists. split; [by left|]. by right; right; right; left. }
  apply wp_bind. unfold wp at 1. simpl. apply wp_bind.
  eapply wp_mono; [apply wp_gate|]. intros r a2 [[Ha|[(resp & -> & Hr) Q2]] Hq].
  2:{ right. split; [exists resp; split; [by right|done]|by eapply quiet_trans]. }
  apply (admitted_back a _ _ (ap_reads a2)) in Ha; [|done|done]. destruct r as [[]|e].
  2:{ left. exists repo, ep. split; [done|]. split; [done|]. intros Hw%Hq. apply quiet_records. by eapply quiet_trans. }
  set (rest := _ ← materialize repo; _). assert (grows rest) as Hg by (unfold rest; grow).
  assert (∀ a3 : App, (ap_reads a2 ≤ ap_reads a3)%nat → admitted a req (ap_reads a3) repo (pushes ep req)) as Had.
  { intros a3 H3. by eapply admitted_more. }
  destruct (writes ep req) eqn:Hw.
  { apply wp_grows; [done|]. intros ? ? Hg'. left. exists repo, ep. split_and!; [done|by apply Had|].
    intros Hp. destruct Hp. by apply writes_pushes. }
  assert (keeps_records rest) as Hk.
  { apply recs_bind; [apply keeps_materialize|]. intros _. destruct ep as [|[]]; [apply keeps_info_refs|apply keeps_upload|done]. }
  specialize (Hk a2). pose proof (Hg a2) as Hg2. unfold wp in *. left. exists repo, ep. split; [done|]. split; [by apply Had|].
  intros Hp%Hq. rewrite Hk. apply quiet_records. by eapply quiet_trans.
Qed.

(** ** Creating repositories *)

(** Asking again for a repository that exists forgets its charge: the roll-back removes
    the entry of the existing repository, with the bytes recorded for it. *)
Lemma recreate_resets_quota cfg user name private (a : App) tier usage :
  let repo := username_of (directory a) user +:+ "/" +:+ trim_text name in
  trim_text name ≠ "" → has_slash (trim_text name) = false → is_Some (d_repos (directory a) !! repo) →
  light_enabled (aq_cfg (ap_quota a)) = true → aq_accounts (ap_quota a) !! user = Some (tier, usage) →
  N.of_nat (size usage) < max_repos (limits_for (aq_cfg (ap_quota a)) Light) →
  ∃ a', create_named_repo cfg user name private a = (Ok (Err (409, "repository already exists")), a') ∧
    aq_accounts (ap_quota a') !! user = Some (Light, delete repo usage).
Proof.
  intros repo Hn Hs Hr Hl Ha Hm. unfold create_named_repo. rewrite (bool_decide_eq_false_2 _ Hn), Hs.
  unfold mbind, eff_mbind. cbn [orb gets]. unfold on_quota at 1. unfold ensure_account. cbn [tier_enabled]. rewrite Hl, Ha. cbn [negb is_ok].
  unfold on_quota at 1, authorize_create_repo, tier_of, account_mut. cbn [ap_quota with_quota set_account aq_accounts aq_cfg].
  rewrite lookup_insert_eq. cbn [fmap option_fmap option_map ok_or fst].
  destruct (N.leb_spec (max_repos (limits_for (aq_cfg (ap_quota a)) Light)) (N.of_nat (size usage))); [lia|]. cbn [negb is_ok].
  cbn [gets directory ap_identity with_quota]. fold (directory a). rewrite bool_decide_eq_true_2 by done.
  unfold rollback, on_quota, mbind, eff_mbind, quota_remove_repo, account_mut. cbn [ap_quota with_quota set_account aq_accounts aq_cfg].
  rewrite lookup_insert_eq. cbn [ok_or]. eexists. split; [done|]. cbn [ap_quota with_quota set_account aq_accounts].
  rewrite lookup_insert_eq. f_equal. f_equal. fold repo. destruct (usage !! repo) eqn:Eu; [done|]. by rewrite delete_insert_eq.
Qed.

(** C3. Access control of the git transport, from the request to the state, with a wall
    clock that may run backwards.  A request is either admitted: its path names a
    repository and an endpoint, and, at a reading of the clock during the request, it
    shows the unexpired token of that anonymous repository; or it shows an unexpired
    session or the password of a user whom some grant lets read the repository and, for a
    push, write it; or, for a push to a repository that does not exist, of the user whose
    namespace it is in; and then a fetch leaves the directory, the quotas, the search
    index, the log, the webhooks sent and the random generator as they were.  Or it is
    answered 401, 403, 404 or 429, and nothing has changed but: the count of clock
    readings, the limiters of git requests per address and per account, the counter of
    rate-limited requests, and sessions and anonymous repositories that had expired at a
    reading during the request, which may be forgotten. *)
Theorem git_access_control cfg fuel req a r a' :
  git_route cfg fuel req a = (r, a') →
  (∃ repo ep, addresses (rq_path req) repo ep ∧ admitted a req (ap_reads a') repo (pushes ep req) ∧
     (¬ pushes ep req → records a' = records a)) ∨
  ((∃ resp, answers r resp ∧ rs_status resp ∈ [401; 403; 404; 429]) ∧ quiet a a').
Proof. exact (wp_run _ _ _ _ _ (git_route_served cfg fuel req a)). Qed.
End theory.

#[export] Hint Resolve grows_metric grows_unix grows_mono grows_forge grows_on_store
  grows_on_search grows_on_events grows_on_quota grows_on_ephemeral grows_on_dir grows_deliver grows_run_git grows_authenticate
  grows_decide grows_check_ip_git grows_check_ip_req grows_check_account grows_check_push grows_audit grows_materialize
  grows_index grows_git_route grows_create_named grows_push_to_create grows_create_on_push grows_ephemeral_gate grows_identity_gate
  grows_run_rpc grows_info_refs : grows.
