(* ===== verification/RestTheory.v ===== *)
(** Access control of the REST and GraphQL interface, its search, and its encodings. *)

From Stdlib Require Import ZArith.
From S2P Require Import SamlTheory.
From S2P Require Import Prelude Text BTree Backend Primitives Fs ObjectStore AuditLog Search Forge Git Identity DirectoryStore.
From S2P Require Import Auth Reviews Api Http Authz Pow Abuse RateLimit Json Scim Sso Events Metrics Server Rest ServerTheory.

(** ** Hits *)

Section hits.
Context {St Er : Type} `{OS : ObjectStore St Er} `{SI : Serde (list string)} `{UL : UnicodeLower}.

Lemma lines_loop_repo repo path terms max ls : ∀ i hits, Forall (λ h, sh_repo_id h = repo) hits →
  Forall (λ h, sh_repo_id h = repo) (lines_loop repo path terms max i ls hits).1.
Proof.
  induction ls as [|l ls IH]; intros i hits F; cbn [lines_loop]; [done|]. destruct (forallb _ _); [|by apply IH].
  assert (∀ x, Forall (λ h, sh_repo_id h = repo) (hits ++ [mkHit repo path (i + 1) x])) as F'.
  { intros x. apply Forall_app. by repeat constructor. }
  destruct (_ <=? _); [apply F'|]. apply IH, F'.
Qed.

Lemma paths_loop_repo repo terms max fetch paths : ∀ hits, Forall (λ h, sh_repo_id h = repo) hits →
  Forall (λ h, sh_repo_id h = repo) (paths_loop repo terms max fetch paths hits).
Proof.
  induction paths as [|p ps IH]; intros hits F; cbn [paths_loop]; [done|]. destruct (fetch repo p) as [b|]; [|by apply IH].
  pose proof (lines_loop_repo repo p terms max (lines b) 0 hits F) as F1. destruct (lines_loop _ _ _ _ _ _ _) as [h st].
  destruct st; [done|]. by apply IH.
Qed.

Lemma search_repo_hits repo query max fetch (s : St) hits s' :
  search_repo repo query max fetch s = (Ok hits, s') → Forall (λ h, sh_repo_id h = repo) hits.
Proof.
  unfold search_repo. destruct (tokenize query) as [|t ts]; [by intros [= <- _]|]. unfold mbind, eff_mbind.
  destruct (candidates_loop _ _ _ _) as [[[c|]|e] s1]; [|by intros [= <- _]|done]. intros [= <- _]. by apply paths_loop_repo.
Qed.
End hits.

Section theory.
Context {W St Er : Type} `{WO : WorkOps W} `{GS : GitSpawn W} `{GX : GixRefs W} `{OS : ObjectStore St Er} `{RS : !RepoStore St Er}.
Context `{RND : SystemRandom} `{DIG : Digests} `{MAC : Hmacs} `{HX : Hex} `{PB : Pbkdf2} `{AB : AeadBackend} `{ED : Ed25519} `{ML : MlDsa}.
Context `{CK : Clock} `{JT : JsonText} `{HP : HttpsPost} `{UL : UnicodeLower} `{HO : HashOrder}.
Context `{SI : Serde (list string)} `{SM : Serde SealManifest} `{SEV : Serde AuditEvent} `{SRE : Serde RawEntry}.
Context `{SU : Serde User} `{SRp : Serde Repo} `{SWh : Serde Webhook} `{SNt : Serde Notification} `{SRr : Serde (list Report)}.
Context `{SN : Serde N} `{SP : Serde PullRequest} `{SRv : Serde Review} `{SC : Serde StatusCheck} `{SB : Serde BranchProtection}.
Context `{TF : ErrorText ForgeError} `{TG : ErrorText GitHttpError} `{TA : ErrorText ApiError} `{TS : ErrorText Er} `{TR : ErrorText ReviewError}.

Abbreviation App := (App (W := W) (St := St)).
Abbreviation H := (H (W := W) (St := St)).

(** The resources of the caller: every user may ask for them. *)
Definition own_resource (method rest : string) : Prop :=
  (method, rest) ∈ [("GET", "user"); ("GET", "repos"); ("POST", "repos"); ("GET", "limits"); ("GET", "search");
    ("GET", "notifications"); ("POST", "import/github")] ∨
  method = "POST" ∧ ∃ id, rest = "notifications/" +:+ id +:+ "/read".

(** The role a request needs on its repository: read; write for all but GET; admin for
    changing webhooks. *)
Definition entitled_to (d : Directory) (u repo method action : string) : Prop :=
  entitled d u repo Read ∧ (method ≠ "GET" → entitled d u repo Write) ∧
  (method ≠ "GET" → action = "hooks" → entitled d u repo Identity.Admin).

(** What a REST request must show, at one of the four readings of its authentication. *)
Inductive rest_grounds (a : App) (req : Request) (rest : string) : Prop :=
| own u : shows a req (4 + ap_reads a) u → own_resource (rq_method req) rest → rest_grounds a req rest
| on_repository u repo action tail : shows a req (4 + ap_reads a) u → split_repo_path rest = Some (repo, action, tail) →
    entitled_to (directory a) u repo (rq_method req) action → rest_grounds a req rest.

(** A refusal, that leaves everything but the clock and expired sessions. *)
Definition turned_away (a : App) (r : result Stop Response) (a' : App) : Prop :=
  (∃ resp, r = Ok resp ∧ rs_status resp ∈ [401; 403; 404]) ∧ quiet a a' ∧ only_sessions a a'.

Lemma turned_away_ret (a a' : App) resp : rs_status resp ∈ [401; 403; 404] → quiet a a' → only_sessions a a' → turned_away a (Ok resp) a'.
Proof. intros Hr Q O. split; [|done]. by exists resp. Qed.

Lemma role_rank_le r r' d u repo : role_rank r ≤ role_rank r' → entitled d u repo r' → entitled d u repo r.
Proof. intros H (rp & x & H1 & H2 & H3). exists rp, x. split_and!; [done|done|lia]. Qed.
Lemma needed_entitled d u repo method action :
  can d u repo (needed_role method action) = true → entitled_to d u repo method action.
Proof.
  rewrite can_entitled. unfold needed_role, entitled_to. intros H. split; [by eapply entitled_read|]. revert H.
  destruct (bool_decide_reflect (action = "hooks")) as [->|Ha], (bool_decide_reflect (method = "GET")) as [->|Hm]; simpl; try done.
  intros H. split; [|done]. intros _. eapply role_rank_le; [|done]. by vm_compute.
Qed.

Lemma wp_repo_resource req rest user (a : App) : wp (repo_resource req rest user) a (λ r a',
  (∃ repo action tail, split_repo_path rest = Some (repo, action, tail) ∧
     entitled_to (directory a) user repo (rq_method req) action) ∨ turned_away a r a').
Proof.
  assert (only_sessions a a) as Ho by done. pose proof (quiet_refl a) as Hq.
  unfold repo_resource. destruct (split_repo_path rest) as [[[repo action] tail]|] eqn:Es.
  2:{ right. apply turned_away_ret; [by right; right; left|done|done]. }
  apply wp_bind. unfold wp at 1. simpl. destruct (bool_decide_reflect (is_Some (d_repos (directory a) !! repo))) as [Hr|Hr]; simpl.
  2:{ right. apply turned_away_ret; [by right; right; left|done|done]. }
  destruct (can _ _ _ _) eqn:Ec; simpl.
  - apply wp_any. intros ? ?. left. exists repo, action, tail. split; [done|by apply needed_entitled].
  - right. apply turned_away_ret; [by right; left|done|done].
Qed.

Lemma read_notification_own rest id : read_notification rest = Some id → own_resource "POST" rest.
Proof.
  unfold read_notification. intros (r & E & (i & Ei & ->)%fmap_Some)%bind_Some. right. split; [done|]. exists (string_of_list_byte i).
  apply strip_prefix_text in E as ->. f_equal. apply strip_suffix_spec in Ei as ->. apply as_bytes_inj. rewrite as_bytes_app.
  unfold as_bytes. by rewrite !list_byte_of_string_of_list_byte.
Qed.

Lemma wp_rest_v1 import cfg fuel req rest (a : App) : wp (rest_v1 import cfg fuel req rest) a (λ r a',
  rest_grounds a req rest ∨ turned_away a r a').
Proof.
  unfold rest_v1. apply wp_bind. eapply wp_mono; [by apply wp_authenticate|]. intros r a1 (o & -> & Q & O & _ & Hc).
  destruct o as [u|]; [|right; apply turned_away_ret; [by left|done|done]].
  specialize (Hc u eq_refl). pose proof (quiet_directory _ _ Q) as Hd.
  assert (wp (repo_resource req rest u) a1 (λ r a', rest_grounds a req rest ∨ turned_away a r a')) as Hres.
  { eapply wp_mono; [apply wp_repo_resource|]. rewrite Hd. intros r a2 [(repo & action & tail & Hs & Hcan)|(Hr & Q2 & O2)].
    - left. by eapply (on_repository _ _ _ u).
    - right. split; [done|]. split; [by eapply quiet_trans|]. unfold only_sessions in *. intuition congruence. }
  assert (∀ A (c : H A) Q', own_resource (rq_method req) rest → (∀ r a', rest_grounds a req rest → Q' r a') → wp c a1 Q') as Hown.
  { intros A c Q' Ho HQ. apply wp_any. intros r a'. by eapply HQ, own. }
  repeat match goal with
  | |- wp (if bool_decide (?x = ?y) && bool_decide (?z = ?t) then _ else _) _ _ =>
      destruct (bool_decide (x = y) && bool_decide (z = t)) eqn:E;
      [apply andb_true_iff in E as [Hm%bool_decide_eq_true Hp%bool_decide_eq_true]; apply Hown; [left; rewrite Hm, Hp; vm_decide|by left]|clear E]
  end.
  destruct (read_notification rest) as [nid|] eqn:En; [|exact Hres]. case_bool_decide as Hm; [|exact Hres].
  apply Hown; [rewrite Hm; by eapply read_notification_own|by left].
Qed.

(** C18. Access control of the REST interface, with a wall clock that may run backwards.
    Either the request shows, at one of the four clock readings of its authentication, an
    unexpired session or the password of a user, and asks for the user's own resources
    (profile, repositories, limits, search, notifications, import) or names a repository
    on which some grant lets the user read, write it if the method is not GET, and
    administer it if the request changes its webhooks.  Or it is answered 401, 403 or 404,
    and nothing has changed but the count of clock readings and sessions that had expired
    at one of those readings, which are forgotten: no repository, account, limiter,
    counter or anonymous repository. *)
Theorem rest_access_control import cfg fuel req rest a r a' :
  rest_v1 import cfg fuel req rest a = (r, a') →
  rest_grounds a req rest ∨
  ((∃ resp, r = Ok resp ∧ rs_status resp ∈ [401; 403; 404]) ∧ quiet a a' ∧
   ap_ephemeral a' = ap_ephemeral a ∧ ap_limiters a' = ap_limiters a ∧ ap_metrics a' = ap_metrics a).
Proof. exact (wp_run _ _ _ _ _ (wp_rest_v1 import cfg fuel req rest a)). Qed.

(** ** Search *)

Lemma wp_search_repos fuel query ids : ∀ a : App, wp (search_repos fuel query ids) a (λ r _,
  ∀ hits, r = Ok hits → Forall (λ h, sh_repo_id h ∈ ids) hits).
Proof.
  induction ids as [|id ids IH]; intros a; cbn [search_repos]; [by intros hits [= <-]|].
  apply wp_bind, wp_any. intros [[]|e] a1; [|done]. apply wp_bind, wp_any. intros [[]|e] a2; [|done].
  apply wp_bind. unfold wp at 1. simpl. apply wp_bind. unfold wp at 1, on_search.
  destruct (search_repo _ _ _ _ _) as [r s] eqn:E. simpl. apply wp_bind. eapply wp_mono; [apply IH|].
  intros [rest|e] a3 Hrest; [|done]. unfold wp. simpl. intros hits [= <-]. apply Forall_app. split.
  - destruct r as [h|e]; [|done]. apply search_repo_hits in E. eapply Forall_impl; [exact E|]. simpl. intros ? ->. left.
  - eapply Forall_impl; [by apply Hrest|]. simpl. intros ? ?. by right.
Qed.

(** The search answers with texts of repositories the caller may read only. *)
Lemma search_visible fuel req user (a : App) : wp (search fuel req user) a (λ r _, ∀ resp, r = Ok resp →
  ∃ hits, resp = json_response (json [("hits", VArray (hit_json <$> hits))]) ∧
    Forall (λ h, sh_repo_id h ∈ r_id <$> repos_visible_to (directory a) user) hits).
Proof.
  unfold search. case_bool_decide; [by intros resp [= <-]; exists []|]. apply wp_bind. unfold wp at 1. simpl.
  apply wp_bind. eapply wp_mono; [apply wp_search_repos|]. intros [hits|e] a1 Hh; [|done]. unfold wp. simpl.
  intros resp [= <-]. exists (take 200 hits). split; [done|]. by apply Forall_take, Hh.
Qed.

(** ** GraphQL *)

(** Of a repository the caller may not read nothing is shown, not even that it exists. *)
Lemma graphql_repository_hidden query user repo (a : App) :
  can (directory a) user repo Read = false → graphql_repository query user repo a = (Ok VNull, a).
Proof.
  intros Hc. unfold graphql_repository, mbind, eff_mbind. simpl. by destruct (d_repos (directory a) !! repo); [rewrite Hc|].
Qed.
End theory.

(** ** Base64 *)

Lemma lor_shifted a b k : b < 2 ^ k → N.lor (N.shiftl a k) b = a * 2 ^ k + b.
Proof.
  intros Hb. assert (N.land (N.shiftl a k) b = 0) as Hl.
  { apply N.bits_inj_0. intros i. rewrite N.land_spec. destruct (N.ltb_spec i k) as [Hi|Hi].
    - by rewrite N.shiftl_spec_low.
    - rewrite andb_comm. destruct (N.eq_dec b 0) as [->|Hne]; [by rewrite N.bits_0|].
      rewrite (N.bits_above_log2 b i); [done|]. apply N.log2_lt_pow2 in Hb; [lia|lia]. }
  rewrite <-N.lxor_lor, <-N.add_nocarry_lxor by done. by rewrite N.shiftl_mul_pow2.
Qed.

Lemma sextet_char n v : n mod 64 = v → b64_sextet n = b64_char v.
Proof.
  intros <-. unfold b64_sextet, b64_char. change 63 with (N.ones 6). rewrite N.land_ones. change (2 ^ 6) with 64.
  pose proof (N.mod_lt n 64 ltac:(done)) as Hm. revert Hm. generalize (n mod 64). intros m Hm.
  assert (Forall (λ k, nth k B64_STD x00 = default x41 (B64_STD !! k)) (seq 0 64)) as F by vm_decide.
  rewrite Forall_forall in F. apply F, elem_of_seq. lia.
Qed.

Lemma b64_loop_padded alphabet s t : ∀ buf bits, b64_loop alphabet (s ++ x3d :: t) buf bits = b64_loop alphabet s buf bits.
Proof.
  induction s as [|c s IH]; intros buf bits; cbn [app b64_loop]; [done|]. case_bool_decide; [done|].
  destruct (b64_value alphabet c) as [v|]; [|done]. cbn [mbind option_bind]. by rewrite !IH.
Qed.

(** The encoder against the reference encoder, and its padding. *)
Lemma b64encode_padded l : b64encode l = SamlTheory.b64_encode l ∨ ∃ t, b64encode l = SamlTheory.b64_encode l ++ x3d :: t.
Proof.
  remember (length l) as n eqn:Hn. revert l Hn. induction (lt_wf n) as [n _ IH]. intros l Hn.
  destruct l as [|a [|b [|c l]]]; cbn [b64encode SamlTheory.b64_encode]; [by left|..].
  - right. exists [x3d]. pose proof (byte_to_N_bound a). rewrite N.shiftl_mul_pow2, !N.shiftr_div_pow2.
    rewrite (sextet_char _ (Byte.to_N a / 4)), (sextet_char _ (Byte.to_N a mod 4 * 16)); [done|..];
      revert H; generalize (Byte.to_N a); intros x Hx; change (2 ^ 16) with 65536; change (2 ^ 18) with 262144; change (2 ^ 12) with 4096;
      zify; Z.to_euclidean_division_equations; lia.
  - right. exists []. pose proof (byte_to_N_bound a). pose proof (byte_to_N_bound b).
    rewrite (N.shiftl_mul_pow2 (Byte.to_N b)), lor_shifted by (change (2 ^ 16) with 65536; change (2 ^ 8) with 256; lia).
    rewrite !N.shiftr_div_pow2. revert H H0. generalize (Byte.to_N a) (Byte.to_N b). intros x y Hx Hy.
    rewrite (sextet_char _ (x / 4)), (sextet_char _ (x mod 4 * 16 + y / 16)), (sextet_char _ (y mod 16 * 4)); [done|..];
      change (2 ^ 16) with 65536; change (2 ^ 18) with 262144; change (2 ^ 12) with 4096; change (2 ^ 8) with 256; change (2 ^ 6) with 64;
      zify; Z.to_euclidean_division_equations; lia.
  - pose proof (byte_to_N_bound a). pose proof (byte_to_N_bound b). pose proof (byte_to_N_bound c).
    rewrite (N.shiftl_mul_pow2 (Byte.to_N b)), lor_shifted by (change (2 ^ 16) with 65536; change (2 ^ 8) with 256; lia).
    replace (Byte.to_N a * 2 ^ 16 + Byte.to_N b * 2 ^ 8) with (N.shiftl (Byte.to_N a * 256 + Byte.to_N b) 8)
      by (rewrite N.shiftl_mul_pow2; change (2 ^ 16) with 65536; change (2 ^ 8) with 256; lia).
    rewrite lor_shifted by (by change (2 ^ 8) with 256). rewrite !N.shiftr_div_pow2.
    revert H H0 H1. generalize (Byte.to_N a) (Byte.to_N b) (Byte.to_N c). intros x y z Hx Hy Hz.
    rewrite (sextet_char _ (x / 4)), (sextet_char _ (x mod 4 * 16 + y / 16)), (sextet_char _ (y mod 16 * 4 + z / 64)),
      (sextet_char _ (z mod 64)).
    { destruct (IH (length l) ltac:(simpl in Hn; lia) l eq_refl) as [->|[t ->]]; [by left|right; by exists t]. }
    all: change (2 ^ 18) with 262144; change (2 ^ 12) with 4096; change (2 ^ 8) with 256; change (2 ^ 6) with 64;
      zify; Z.to_euclidean_division_equations; lia.
Qed.

(** A file shown in base64 decodes to its bytes. *)
Lemma b64encode_decode l : b64_decode B64_STD (b64encode l) = Some l.
Proof.
  destruct (b64encode_padded l) as [->|[t ->]]; [apply b64_decode_encode|]. unfold b64_decode. rewrite b64_loop_padded.
  apply b64_decode_encode.
Qed.
