(* ===== verification/ServerToy.v ===== *)
(** The theorems on the routes at a concrete server. *)

From Stdlib Require Import ZArith.
From S2P Require Import Sig SamlTheory ForgeToy.
From S2P Require Import Prelude Text BTree Backend Toy Primitives Fs ObjectStore AuditLog Search Forge Git Identity DirectoryStore.
From S2P Require Import Auth Reviews Api Http Authz Pow Abuse RateLimit Json Scim Sso Events EventsTheory Metrics Server Rest ServerTheory RestTheory.

#[local] Existing Instance toy_rng.
#[local] Existing Instance toy_digests.
#[local] Existing Instance toy_aead.
#[local] Existing Instance toy_hex.
#[local] Existing Instance toy_hmacs.
#[local] Existing Instance toy_pbkdf2.
#[local] Existing Instance toy_ed25519.
#[local] Existing Instance toy_mldsa.
#[local] Existing Instance memory_store.

(** A working path on which every command succeeds and says nothing. *)
#[local] Instance toy_work : WorkOps (list string) := {|
  w_git d args w := (Ok [], w);
  w_exists w n := contains n w;
  w_read n w := (Ok [], w);
  w_write n b w := (Ok (), w);
  w_remove_file n w := (Ok (), w);
  w_remove_dir_all n w := (Ok (), filter (λ x, x ≠ n) w);
|}.
#[local] Instance toy_spawn : GitSpawn (list string) :=
  λ args input w, (Some (mkChild 0 [mkPoll (Ok (Some true)) 0] (Some 0) [(0, Ok (as_bytes "refs")); (0, Ok [])] [(0, Ok [])]), w).
#[local] Instance toy_gix : GixRefs (list string) := λ path w, Ok [].
#[local, program] Instance toy_repo_store : RepoStore (gmap (string * string) bytes) unit := {|
  rs_delete_repo r m := (Ok (), filter (λ kv, kv.1.1 ≠ r) m);
|}.
Next Obligation.
  intros r m res m' _ _ [= <- <-]. split.
  - intros r' k' _ _ Hne. simpl. destruct (m !! (r', k')) as [v|] eqn:E; [by apply map_lookup_filter_Some|].
    apply map_lookup_filter_None. by left.
  - intros _. split; [done|]. intros k' _. simpl. apply map_lookup_filter_None. right. intros v _ Hne. by apply Hne.
Qed.
#[local] Instance toy_ticks : Clock := {| unix_now n := 100 + N.of_nat n; mono_now n := N.of_nat n |}.
#[local] Instance toy_parser : JsonText := {| json_from_slice b := Err "expected value"; json_to_string v := as_bytes "{}" |}.
#[local] Instance toy_post : HttpsPost := λ d, Ok [].
#[local] Instance toy_error_text E : ErrorText E := λ _, "error".
#[local] Existing Instance toy_lower.
#[local] Existing Instance toy_serde.
#[local] Existing Instance toy_manifest_serde.
#[local] Existing Instance Webhook_countable.
#[local] Existing Instance Notification_countable.
#[local] Instance toy_order : HashOrder := {|
  hash_values A m := (map_to_list m).*2;
  hash_values_perm A m := Permutation_refl _;
|}.

Definition report_code (r : Report) := (rp_id r, rp_repo_id r, rp_reason r, rp_reporter_hash r, rp_ts r).
Definition report_uncode (x : string * string * bytes * string * N) : option Report :=
  let '(i, r, t, h, s) := x in Some (mkReport i r t h s).
#[local] Instance Report_eq_dec : EqDecision Report.
Proof. solve_decision. Defined.
Lemma report_uncode_code r : report_uncode (report_code r) = Some r.
Proof. by destruct r. Qed.
#[local] Instance Report_countable : Countable Report := inj_countable report_code report_uncode report_uncode_code.

(** Bob owns a repository; he has a session, Carol has one too. *)
Definition toy_directory : Directory :=
  set_repos {[ "bob/r" := mkRepo "bob/r" (OwnerUser "u1") "r" true [] ]} (set_users {[ "u1" := mkUser "u1" "bob" "b@x" ]} dir_new).
Definition toy_identity : ServerIdentity :=
  {| si_dir := toy_directory; si_local := ∅;
     si_sessions := mkSessions 50 {[ token_hash "tb" := mkSession "u1" 500 true; token_hash "tc" := mkSession "u2" 500 true ]} |}.
Definition toy_limiter : RateLimiter := limiter_new (f64_of_N 10) (f64_of_N 2) 100 1000 0.
Definition toy_server : App (W := list string) (St := gmap (string * string) bytes) :=
  mkApp ["bob_r.git"] ∅ ∅ ∅ toy_identity (ephemerals_new default_deployment) (quota_new default_deployment)
    (empty_log ["audit.log"] "log" Sig.toy_sk None) {| w_files := ∅; w_sched := []; w_gen := 3 |}
    (mkLimiters toy_limiter toy_limiter toy_limiter toy_limiter) (mkPowGate (mkPowConfig false 0 0) [] ∅) metrics_new
    (9 : @rng toy_rng) 0 [].
Definition toy_config : Config :=
  mkConfig default_deployment (Some "adm") None git_limits_default http_limits_default (mkSso None "https://git" None) 32.

Definition fetch_request (headers : gmap string string) : Request :=
  mkRequestHttp "GET" "/bob/r/info/refs" {[ "service" := "git-upload-pack" ]} headers [] "1.2.3.4".
Definition bearer (token : string) : gmap string string := {[ "authorization" := "Bearer " +:+ token ]}.

(** Bob may fetch, Carol is refused. *)
Lemma git_access_control_witness :
  (let '(r, a') := git_route toy_config 9 (fetch_request (bearer "tb")) toy_server in
   (∃ resp, r = Ok resp ∧ rs_status resp = 200) ∧ git_served toy_server (fetch_request (bearer "tb")) r a') ∧
  (let '(r, a') := git_route toy_config 9 (fetch_request (bearer "tc")) toy_server in
   (∃ resp, r = Err (Reply resp) ∧ rs_status resp = 403) ∧ git_served toy_server (fetch_request (bearer "tc")) r a').
Proof.
  split.
  - destruct (git_route _ _ _ _) as [r a'] eqn:E. split; [|exact (git_access_control _ _ _ _ _ _ E)].
    apply (f_equal fst) in E. simpl in E. subst r. eexists. split; [vm_compute; reflexivity|reflexivity].
  - destruct (git_route _ _ _ _) as [r a'] eqn:E. split; [|exact (git_access_control _ _ _ _ _ _ E)].
    apply (f_equal fst) in E. simpl in E. subst r. eexists. split; [vm_compute; reflexivity|reflexivity].
Defined.

Definition no_import (req : Request) (user : string) : H (W := list string) (St := gmap (string * string) bytes) Response := mret not_found.
Definition tree_request (token : string) : Request :=
  mkRequestHttp "GET" "/api/v1/repos/bob/r/tree" ∅ (bearer token) [] "1.2.3.4".

(** Bob may list the files, Carol is refused. *)
Lemma rest_access_control_witness :
  (let '(r, a') := rest_v1 no_import toy_config 9 (tree_request "tb") "repos/bob/r/tree" toy_server in
   (∃ resp, r = Ok resp ∧ rs_status resp = 200) ∧
   (rest_grounds toy_server (tree_request "tb") "repos/bob/r/tree" ∨ turned_away toy_server r a')) ∧
  (let '(r, a') := rest_v1 no_import toy_config 9 (tree_request "tc") "repos/bob/r/tree" toy_server in
   r = Ok forbidden ∧ (rest_grounds toy_server (tree_request "tc") "repos/bob/r/tree" ∨ turned_away toy_server r a')).
Proof.
  split.
  - destruct (rest_v1 _ _ _ _ _ _) as [r a'] eqn:E. split; [|exact (rest_access_control _ _ _ _ _ _ _ _ E)].
    apply (f_equal fst) in E. simpl in E. subst r. eexists. split; [vm_compute; reflexivity|reflexivity].
  - destruct (rest_v1 _ _ _ _ _ _) as [r a'] eqn:E. split; [|exact (rest_access_control _ _ _ _ _ _ _ _ E)].
    apply (f_equal fst) in E. simpl in E. subst r. vm_compute. reflexivity.
Defined.
