(* ===== verification/WebTheory.v ===== *)
(** What the pages show, and who may ask for them. *)

From S2P Require Import Prelude Text BTree Backend Primitives Fs ObjectStore AuditLog Search Forge Git Identity DirectoryStore.
From S2P Require Import Auth Reviews Api Http Authz Pow Abuse RateLimit Json Scim Sso Events Metrics Server ServerTheory Web.

(** ** What a fragment shows

    [renders tags h t]: the fragment [h] shows the text [t], with entities decoded, and
    every tag in it satisfies [tags]. *)

Definition entities : list (bytes * byte) :=
  [(as_bytes "&amp;", x26); (as_bytes "&lt;", x3c); (as_bytes "&gt;", x3e); (as_bytes "&quot;", x22); (as_bytes "&#39;", x27)].
Definition plain (b : byte) : Prop := b ∉ entities.*2.

Inductive renders (tags : bytes → Prop) : bytes → bytes → Prop :=
| renders_nil : renders tags [] []
| renders_char b h t : plain b → renders tags h t → renders tags (b :: h) (b :: t)
| renders_entity e b h t : (e, b) ∈ entities → renders tags h t → renders tags (e ++ h) (b :: t)
| renders_tag inner h t : x3e ∉ inner → tags inner → renders tags h t → renders tags (x3c :: inner ++ x3e :: h) t.

Lemma renders_app tags h t h' t' : renders tags h t → renders tags h' t' → renders tags (h ++ h') (t ++ t').
Proof.
  intros H H'. induction H as [|b h t Hb _ IH|e b h t He _ IH|inner h t Hi Ht _ IH]; simpl; [done|..].
  - by constructor.
  - rewrite <-app_assoc. by constructor.
  - rewrite <-app_assoc. simpl. by constructor.
Qed.

(** A fragment shows one text. *)
Lemma gt_unique inner h inner' h' : x3e ∉ inner → x3e ∉ inner' → inner ++ x3e :: h = inner' ++ x3e :: h' → inner = inner' ∧ h = h'.
Proof.
  revert inner'. induction inner as [|b inner IH]; intros [|b' inner'] H1 H2; simpl.
  - intros [= ->]. done.
  - intros [= <- _]. by destruct H2; left.
  - intros [= -> _]. by destruct H1; left.
  - intros [= <- E]. apply IH in E as [-> ->]; [done|..]; intros ?; [apply H1|apply H2]; by right.
Qed.

Lemma entity_amp e b : (e, b) ∈ entities → ∃ e', e = x26 :: e'.
Proof.
  unfold entities. rewrite !elem_of_cons, elem_of_nil.
  intros [[= -> _]|[[= -> _]|[[= -> _]|[[= -> _]|[[= -> _]|[]]]]]]; by eexists.
Qed.

Lemma entity_unique e b h e' b' h' : (e, b) ∈ entities → (e', b') ∈ entities → e ++ h = e' ++ h' → b = b' ∧ h = h'.
Proof.
  unfold entities. rewrite !elem_of_cons, !elem_of_nil.
  intros [[= -> ->]|[[= -> ->]|[[= -> ->]|[[= -> ->]|[[= -> ->]|[]]]]]] [[= -> ->]|[[= -> ->]|[[= -> ->]|[[= -> ->]|[[= -> ->]|[]]]]]];
    cbn; intros [=]; by subst.
Qed.

Lemma renders_det tags tags' h t t' : renders tags h t → renders tags' h t' → t = t'.
Proof.
  intros H. revert t'. induction H as [|b h t Hb _ IH|e b h t He _ IH|inner h t Hi Ht _ IH]; intros t' H'.
  - inversion H' as [|?|e b h t He Ht E|]; [done|]. apply entity_amp in He as [? ->]. done.
  - inversion H' as [|b' h' t0 Hb' Ht0 E|e b' h' t0 He Ht0 E|inner h' t0 Hi Ht Ht0 E]; subst.
    + f_equal. by apply IH.
    + apply entity_amp in He as [? ->]. simpl in E. injection E as <- _. destruct Hb. by left.
    + destruct Hb. by right; left.
  - inversion H' as [E|b' h' t0 Hb' Ht0 E|e' b' h' t0 He' Ht0 E|inner h' t0 Hi Ht Ht0 E].
    + apply entity_amp in He as [? ->]. done.
    + subst. apply entity_amp in He as [? ->]. injection E as -> _. destruct Hb'. by left.
    + subst. destruct (entity_unique _ _ _ _ _ _ He' He E) as [-> ->]. f_equal. by apply IH.
    + subst. apply entity_amp in He as [? ->]. simpl in E. discriminate.
  - inversion H' as [E|b' h' t0 Hb' Ht0 E|e' b' h' t0 He' Ht0 E|inner' h' t0 Hi' Ht' Ht0 E].
    + subst. destruct Hb'. by right; left.
    + subst. apply entity_amp in He' as [? ->]. simpl in E. discriminate.
    + subst. apply gt_unique in E as [-> ->]; [|done|done]. by apply IH.
Qed.

(** ** Escaping *)

Lemma escape_byte_spec b : (escape_byte b, b) ∈ entities ∨ plain b ∧ escape_byte b = [b].
Proof.
  assert (bool_decide ((escape_byte b, b) ∈ entities) || bool_decide (plain b ∧ escape_byte b = [b]) = true) as H
    by (destruct b; vm_compute; reflexivity).
  apply orb_true_iff in H as [H%bool_decide_eq_true|H%bool_decide_eq_true]; auto.
Qed.

Lemma renders_escape tags s : renders tags (escape_bytes s) s.
Proof.
  induction s as [|b s IH]; [constructor|]. unfold escape_bytes. cbn [mbind list_bind].
  destruct (escape_byte_spec b) as [He|[Hp ->]]; [by constructor|by constructor].
Qed.

(** ** Highlighting *)

Lemma chars_fuel_join fuel bs : (length bs ≤ fuel)%nat → mjoin (chars_fuel fuel bs) = bs.
Proof.
  revert bs. induction fuel as [|fuel IH]; intros [|b bs] H; simpl in *; [done|lia|done|].
  rewrite IH by (rewrite length_drop; lia). by rewrite take_drop.
Qed.
Lemma chars_join bs : mjoin (chars bs) = bs.
Proof. by apply chars_fuel_join. Qed.

Lemma scan_string_app quote cs : ∀ t r, scan_string quote cs = (t, r) → cs = t ++ r.
Proof.
  remember (length cs) as n eqn:Hn. revert cs Hn. induction (lt_wf n) as [n _ IH].
  intros [|c cs] Hn t r; cbn [scan_string]; [by intros [= <- <-]|]. case_bool_decide.
  - destruct cs as [|d cs]; [by intros [= <- <-]|]. destruct (scan_string quote cs) as [t' r'] eqn:E.
    intros [= <- <-]. simpl in Hn. rewrite (IH (length cs) ltac:(lia) cs eq_refl _ _ E). done.
  - case_bool_decide; [by intros [= <- <-]|]. destruct (scan_string quote cs) as [t' r'] eqn:E.
    intros [= <- <-]. simpl in Hn. rewrite (IH (length cs) ltac:(lia) cs eq_refl _ _ E). done.
Qed.
Lemma scan_while_app p cs : ∀ t r, scan_while p cs = (t, r) → cs = t ++ r.
Proof.
  induction cs as [|c cs IH]; intros t r; cbn [scan_while]; [by intros [= <- <-]|]. destruct (p c); [|by intros [= <- <-]].
  destruct (scan_while p cs) as [t' r'] eqn:E. intros [= <- <-]. by rewrite (IH _ _ eq_refl).
Qed.
Lemma scan_while_head p c cs t r : p c = true → scan_while p (c :: cs) = (t, r) → ∃ t', t = c :: t'.
Proof. intros Hp. cbn [scan_while]. rewrite Hp. destruct (scan_while p cs). intros [= <- <-]. by eexists. Qed.

(** The tags of the highlighter. *)
Definition highlight_tags (inner : bytes) : Prop :=
  inner ∈ (as_bytes <$> [html "span class='str'"; html "span class='num'"; html "span class='kw'"; html "span class='com'"; "/span"]).

Lemma renders_span class s : class ∈ ["str"; "num"; "kw"; "com"] → renders highlight_tags (span class s) s.
Proof.
  intros Hc. assert (highlight_tags (as_bytes (html "span class='" +:+ class +:+ html "'")) ∧
    x3e ∉ as_bytes (html "span class='" +:+ class +:+ html "'")) as [Ht Hg].
  { revert Hc. rewrite !elem_of_cons, elem_of_nil. intros [->|[->|[->|[->|[]]]]]; split; vm_decide. }
  unfold span. rewrite <-(app_nil_r s) at 2.
  replace (as_bytes (html "<span class='" +:+ class +:+ html "'>")) with
    (x3c :: as_bytes (html "span class='" +:+ class +:+ html "'") ++ [x3e]).
  2:{ rewrite !as_bytes_app. change (as_bytes (html "<span class='")) with (x3c :: as_bytes (html "span class='")).
      change (as_bytes (html "'>")) with (as_bytes (html "'") ++ [x3e]). simpl. by rewrite <-!app_assoc. }
  cbn [app]. rewrite <-app_assoc. apply renders_tag; [done|done|]. apply renders_app; [apply renders_escape|].
  change (as_bytes "</span>") with (x3c :: as_bytes "/span" ++ x3e :: []). apply renders_tag; [vm_decide|vm_decide|constructor].
Qed.

(** The tags of the table around code, and what a row of it shows. *)
Definition cell_classes : list string := ["src"; "src "; "src add"; "src del"; "src hunk"].
Definition table_tags (inner : bytes) : Prop :=
  inner ∈ (as_bytes <$> [html "div class='code'"; html "div class='code diff'"; "/div"; "table"; "/table"; "tr"; "/tr";
    html "td class='ln'"; "/td"] ++ ((λ class, html "td class='" +:+ class +:+ html "'") <$> cell_classes)).
Definition numbered (i : nat) (line : bytes) : bytes := as_bytes (pretty (N.of_nat (S i))) ++ line.

Lemma renders_mono (tags tags' : bytes → Prop) h t : (∀ inner, tags inner → tags' inner) → renders tags h t → renders tags' h t.
Proof. intros Hi H. induction H; constructor; auto. Qed.

Lemma renders_digits tags n : renders tags (as_bytes (pretty (n : N))) (as_bytes (pretty n)).
Proof.
  pose proof (pretty_digits n) as H. induction H as [|b bs Hb _ IH]; [constructor|]. apply renders_char; [|done].
  destruct b; try discriminate; vm_decide.
Qed.

Section highlight.
Context `{ULt : UnicodeLetters}.

Lemma highlight_loop_renders kws fuel : ∀ cs, (length cs ≤ fuel)%nat → renders highlight_tags (highlight_loop fuel kws cs) (mjoin cs).
Proof.
  induction fuel as [|fuel IH]; intros [|c cs] Hf; cbn [highlight_loop]; [constructor|simpl in Hf; lia|constructor|]. simpl in Hf.
  assert (∀ t r, c :: cs = t ++ r → t ≠ [] → renders highlight_tags (highlight_loop fuel kws r) (mjoin r)) as Hr.
  { intros t r E Ht. apply IH. apply (f_equal length) in E. rewrite length_app in E. simpl in E. destruct t; [done|]. simpl in E. lia. }
  destruct (one is_quote c).
  { destruct (scan_string c cs) as [t r] eqn:E. apply scan_string_app in E as ->.
    change (c :: t ++ r) with ((c :: t) ++ r). rewrite join_app. apply renders_app; [apply renders_span; set_solver|].
    by apply (Hr (c :: t)). }
  destruct (one is_ascii_digit c) eqn:Ed.
  { destruct (scan_while _ _) as [t r] eqn:E. pose proof (scan_while_app _ _ _ _ E) as Ea.
    apply scan_while_head in E as [t' ->].
    - rewrite Ea, join_app. apply renders_app; [apply renders_span; set_solver|]. by apply (Hr (c :: t')).
    - destruct c as [|b [|]]; [done| |done]. simpl in Ed |- *. unfold is_ascii_alphanumeric.
      by rewrite Ed. }
  destruct (is_alphabetic c || bool_decide (c = [x5f])) eqn:Ew.
  { destruct (scan_while _ _) as [t r] eqn:E. pose proof (scan_while_app _ _ _ _ E) as Ea.
    apply scan_while_head in E as [t' ->].
    - rewrite Ea, join_app. apply renders_app; [|by apply (Hr (c :: t'))].
      destruct (contains _ _); [apply renders_span; set_solver|apply renders_escape].
    - unfold is_alphanumeric. apply orb_true_iff in Ew as [->| ->]; simpl; [done|]. by rewrite orb_true_r. }
  cbn [mjoin list_join]. apply renders_app; [apply renders_escape|]. by apply (Hr [c]).
Qed.

Lemma highlight_code_renders code lang : renders highlight_tags (highlight_code code lang) code.
Proof.
  pose proof (highlight_loop_renders (keywords lang) (length (chars code)) (chars code) (le_n _)) as H. by rewrite chars_join in H.
Qed.

Lemma highlight_line_renders line lang : renders highlight_tags (highlight_line line lang) line.
Proof.
  unfold highlight_line. destruct (_ ≫= _) as [pos|]; [|apply highlight_code_renders].
  pose proof (renders_app _ _ _ _ _ (highlight_code_renders (take pos line) lang)
    (renders_span "com" (drop pos line) ltac:(set_solver))) as H. by rewrite take_drop in H.
Qed.

Lemma renders_rows tags (row content : nat → bytes → bytes) ls :
  (∀ i line, renders tags (row i line) (content i line)) → renders tags (mjoin (imap row ls)) (mjoin (imap content ls)).
Proof.
  intros H. revert row content H. induction ls as [|line ls IH]; intros row content H; [constructor|].
  rewrite !imap_cons. simpl. apply renders_app; [apply H|]. apply IH. intros i l. apply H.
Qed.

(** A row numbers its line from one. *)
Lemma renders_code_row tags i class content line :
  class ∈ cell_classes → (∀ inner, table_tags inner → tags inner) → renders tags content line →
  renders tags (code_row i class content) (numbered i line).
Proof.
  intros Hc Ht H. unfold code_row, numbered. rewrite !as_bytes_app, <-!app_assoc.
  change (as_bytes (html "<tr><td class='ln'>")) with (x3c :: as_bytes "tr" ++ x3e :: x3c :: as_bytes (html "td class='ln'") ++ [x3e]).
  cbn [app]. rewrite <-app_assoc. cbn [app]. apply renders_tag; [vm_decide|apply Ht; vm_decide|]. rewrite <-app_assoc. cbn [app].
  apply renders_tag; [vm_decide|apply Ht; vm_decide|]. apply renders_app; [apply renders_digits|].
  change (as_bytes (html "</td><td class='")) with (x3c :: as_bytes "/td" ++ x3e :: x3c :: as_bytes (html "td class='")).
  cbn [app]. rewrite <-app_assoc. cbn [app]. apply renders_tag; [vm_decide|apply Ht; vm_decide|].
  change (as_bytes (html "'>")) with (as_bytes (html "'") ++ [x3e]). rewrite <-!app_assoc. cbn [app].
  assert (table_tags (as_bytes (html "td class='" +:+ class +:+ html "'")) ∧
    x3e ∉ as_bytes (html "td class='" +:+ class +:+ html "'")) as [Hcl Hg].
  { revert Hc. unfold cell_classes. rewrite !elem_of_cons, elem_of_nil. intros [->|[->|[->|[->|[->|[]]]]]]; split; vm_decide. }
  rewrite !as_bytes_app in Hcl, Hg.
  replace (as_bytes (html "td class='") ++ as_bytes class ++ as_bytes (html "'") ++ x3e :: content ++ as_bytes "</td></tr>")
    with ((as_bytes (html "td class='") ++ as_bytes class ++ as_bytes (html "'")) ++ x3e :: content ++ as_bytes "</td></tr>")
    by (by rewrite <-!app_assoc).
  apply renders_tag; [done|by apply Ht|]. rewrite <-(app_nil_r line). apply renders_app; [done|].
  change (as_bytes "</td></tr>") with (x3c :: as_bytes "/td" ++ x3e :: x3c :: as_bytes "/tr" ++ x3e :: []).
  apply renders_tag; [vm_decide|apply Ht; vm_decide|]. apply renders_tag; [vm_decide|apply Ht; vm_decide|constructor].
Qed.

(** The table around the rows. *)
Lemma renders_table tags class rows t :
  class ∈ ["code"; "code diff"] → (∀ inner, table_tags inner → tags inner) → renders tags rows t →
  renders tags (as_bytes (html "<div class='" +:+ class +:+ html "'><table>") ++ rows ++ as_bytes "</table></div>") t.
Proof.
  intros Hc Ht H. rewrite <-(app_nil_r t).
  assert (∃ div, as_bytes (html "<div class='" +:+ class +:+ html "'><table>") = x3c :: div ++ x3e :: x3c :: as_bytes "table" ++ [x3e] ∧
    table_tags div ∧ x3e ∉ div) as (div & -> & Hd & Hg).
  { exists (as_bytes (html "div class='" +:+ class +:+ html "'")). revert Hc. rewrite !elem_of_cons, elem_of_nil.
    intros [->|[->|[]]]; (split; [reflexivity|]); split; vm_decide. }
  cbn [app]. rewrite <-app_assoc. cbn [app]. apply renders_tag; [done|by apply Ht|]. rewrite <-app_assoc. cbn [app].
  apply renders_tag; [vm_decide|apply Ht; vm_decide|]. apply renders_app; [done|].
  change (as_bytes "</table></div>") with (x3c :: as_bytes "/table" ++ x3e :: x3c :: as_bytes "/div" ++ x3e :: []).
  apply renders_tag; [vm_decide|apply Ht; vm_decide|]. apply renders_tag; [vm_decide|apply Ht; vm_decide|constructor].
Qed.

Lemma diff_class_cell line : ("src " +:+ diff_class line)%string ∈ cell_classes.
Proof. unfold diff_class. repeat case_match; vm_decide. Qed.

Lemma highlight_block_renders txt lang :
  renders (λ inner, table_tags inner ∨ highlight_tags inner) (highlight_block txt lang) (mjoin (imap numbered (split_on NL txt))).
Proof.
  apply (renders_table _ "code"); [vm_decide|by left|]. apply renders_rows. intros i line.
  apply renders_code_row; [vm_decide|by left|]. eapply renders_mono; [|apply highlight_line_renders]. by right.
Qed.
Lemma render_diff_renders diff : renders table_tags (render_diff diff) (mjoin (imap numbered (lines diff))).
Proof.
  apply (renders_table _ "code diff"); [vm_decide|done|]. apply renders_rows. intros i line.
  apply renders_code_row; [apply diff_class_cell|done|apply renders_escape].
Qed.

(** C37. Showing code is faithful and injects nothing. Whatever the bytes of a file are, in
    whatever language, the block made of it has no tags but those of the numbered table
    and the highlighter's own spans, and the text a browser shows for it is each line of
    the file after its number, byte for byte; a diff's block has only the tags of the
    table and shows each line of the diff after its number. No other text can be read from
    either block, whatever tags are admitted, and the markup of a single line shows that
    line and has no tags but the spans. *)
Theorem highlight_faithful txt diff line lang :
  renders (λ inner, table_tags inner ∨ highlight_tags inner) (highlight_block txt lang) (mjoin (imap numbered (split_on NL txt))) ∧
  renders table_tags (render_diff diff) (mjoin (imap numbered (lines diff))) ∧
  renders highlight_tags (highlight_line line lang) line ∧
  (∀ tags t, renders tags (highlight_block txt lang) t → t = mjoin (imap numbered (split_on NL txt))) ∧
  (∀ tags t, renders tags (render_diff diff) t → t = mjoin (imap numbered (lines diff))) ∧
  (∀ tags t, renders tags (highlight_line line lang) t → t = line).
Proof.
  pose proof (highlight_block_renders txt lang) as Hb. pose proof (render_diff_renders diff) as Hd.
  pose proof (highlight_line_renders line lang) as Hl.
  split_and!; [done|done|done|..]; intros tags t Ht; by eapply renders_det.
Qed.
End highlight.

(** ** Who may ask *)

Section access.
Context {W St Er : Type} `{WO : WorkOps W} `{GH : GixHead W} `{OS : ObjectStore St Er}.
Context `{RND : SystemRandom} `{DIG : Digests} `{HX : Hex} `{PB : Pbkdf2} `{ED : Ed25519} `{ML : MlDsa} `{CK : Clock} `{ULt : UnicodeLetters}.
Context `{SI : Serde (list string)} `{SM : Serde SealManifest} `{SU : Serde User} `{SO : Serde Org} `{STm : Serde Team} `{SRp : Serde Repo}.
Context `{TF : ErrorText ForgeError}.

Abbreviation App := (App (W := W) (St := St)).

Lemma wp_require_auth req (a : App) : wp (require_auth req) a (λ r a', quiet a a' ∧
  match r with Ok u => shows a req (4 + ap_reads a) u | Err _ => refused r end).
Proof.
  unfold require_auth. apply wp_bind. eapply wp_mono; [by apply wp_authenticate|]. intros r a1 (o & -> & Q & _ & _ & Hc).
  destruct o as [u|]; unfold wp; simpl; (split; [done|]); [by apply Hc|apply refused_reply; by left].
Qed.

Lemma wp_require_read repo req (a : App) : wp (require_read repo req) a (λ r a', quiet a a' ∧
  match r with
  | Ok u => shows a req (4 + ap_reads a) u ∧ is_Some (d_repos (directory a) !! repo) ∧
            entitled (directory a) u repo Read
  | Err _ => refused r
  end).
Proof.
  unfold require_read. apply wp_bind. eapply wp_mono; [apply wp_require_auth|]. intros [u|e] a1 [Q Hc]; [|by split].
  apply wp_bind. unfold wp at 1. simpl. rewrite (quiet_directory _ _ Q).
  destruct (bool_decide_reflect (is_Some (d_repos (directory a) !! repo))) as [Hr|Hr]; simpl.
  2:{ unfold wp. simpl. split; [done|]. apply refused_reply. by right; right; left. }
  destruct (can _ _ _ _) eqn:Ec; unfold wp; simpl; (split; [done|]); [by apply can_entitled in Ec|]. apply refused_reply. by right; left.
Qed.

(** The pages of a repository. *)
Definition repo_pages : list string := ["/ui/tree"; "/ui/blob"; "/ui/raw"; "/ui/log"; "/ui/commit"; "/ui/blame"].

(** Pages of a repository are shown to its readers only. *)
Lemma route_ui_reads req (a : App) : rq_path req ∈ repo_pages → wp (route_ui req) a (λ r a',
  (∃ u, shows a req (4 + ap_reads a) u ∧
     is_Some (d_repos (directory a) !! default "" (rq_query req !! "repo")) ∧
     entitled (directory a) u (default "" (rq_query req !! "repo")) Read) ∨ (refused r ∧ quiet a a')).
Proof.
  intros Hp. set (repo := default "" (rq_query req !! "repo")).
  set (Q := λ (r : result Stop (option Response)) a', _ ∨ (refused r ∧ quiet a a')).
  assert (∀ c : H Response, wp (r ← (_ ← require_read repo req; c); mret (Some r)) a Q) as Hq.
  { intros c. apply wp_bind, wp_bind. eapply wp_mono; [apply wp_require_read|]. intros [u|e] a1 [Qt Hc].
    - destruct (c a1) as [r2 a2] eqn:E. unfold wp at 1. rewrite E. simpl.
      assert (∀ r' a', Q r' a') as HQ by (intros; left; by exists u). destruct r2; [by apply wp_any|apply HQ].
    - right. split; [|done]. destruct Hc as (resp & [= ->] & Hr). by apply refused_reply. }
  unfold route_ui, repo_pages in *.
  revert Hp. rewrite !elem_of_cons, elem_of_nil. intros [->|[->|[->|[->|[->|[->|[]]]]]]]; apply Hq.
Qed.
End access.
