(* ===== verification/RoutesTheory.v ===== *)
(** What the dispatcher lets whom change, what a takedown leaves, and the connection cap. *)

From Stdlib Require Import ZArith.
From S2P Require Import Envelope Aead Attest Saml Xml SamlTheory SsoTheory.
From S2P Require Import Prelude Text BTree Backend Primitives Fs ObjectStore AuditLog Search Forge Git Identity DirectoryStore.
From S2P Require Import Auth Reviews Api Http Authz Pow Abuse RateLimit Json Scim Sso Events Metrics Github Server Rest Importer Web Routes ServerTheory.

Create HintDb idle.

Section theory.
Context {W St Er : Type} `{WO : WorkOps W} `{GS : GitSpawn W} `{GX : GixRefs W} `{GH : GixHead W} `{OS : ObjectStore St Er} `{RS : !RepoStore St Er}.
Context `{RND : SystemRandom} `{DIG : Digests} `{MAC : Hmacs} `{HX : Hex} `{PB : Pbkdf2} `{RSA : RsaPkcs1} `{AB : AeadBackend} `{ED : Ed25519} `{ML : MlDsa}.
Context `{CK : Clock} `{JT : JsonText} `{HP : HttpsPost} `{UL : UnicodeLower} `{ULt : UnicodeLetters} `{HO : HashOrder}.
Context `{SI : Serde (list string)} `{SM : Serde SealManifest} `{SEV : Serde AuditEvent} `{SRE : Serde RawEntry}.
Context `{SU : Serde User} `{SO : Serde Org} `{STm : Serde Team} `{SRp : Serde Repo} `{SWh : Serde Webhook} `{SNt : Serde Notification}.
Context `{SRr : Serde (list Report)} `{SN : Serde N} `{SP : Serde PullRequest} `{SRv : Serde Review} `{SC : Serde StatusCheck} `{SB : Serde BranchProtection}.
Context `{SPf : Serde ScimProfile} `{SGp : Serde ScimGroup}.
Context `{TF : ErrorText ForgeError} `{TG : ErrorText GitHttpError} `{TA : ErrorText ApiError} `{TS : ErrorText Er} `{TR : ErrorText ReviewError}.
Context `{HG : HttpsGet} `{SIs : Serde Issue}.

Abbreviation App := (App (W := W) (St := St)).
Abbreviation H := (H (W := W) (St := St)).
Abbreviation grows := (grows (W := W) (St := St)).

(** ** Every handler counts the clock readings on *)

Lemma grows_on_reviews {A} (c : eff St ReviewError A) : grows (on_reviews c).
Proof. intros a. unfold on_reviews. by destruct (c _) as [r s]. Qed.
Lemma grows_on_sso {A} (f : Sso.App (St := St) → A * Sso.App) : grows (on_sso f).
Proof. apply grows_step. intros a. by destruct (f _). Qed.
Lemma grows_notify users kind repo subject body : grows (notify_all users kind repo subject body).
Proof. induction users as [|u users IH]; cbn [notify_all]; grow. Qed.
Lemma grows_store_all {A} (put : A → eff St ReviewError unit) l : grows (store_all put l).
Proof. induction l as [|x l IH]; cbn [store_all]; [grow|]. apply grows_bind; [apply grows_on_reviews|]. grow. Qed.
Lemma grows_search_repos fuel query ids : grows (search_repos fuel query ids).
Proof. induction ids as [|id ids IH]; cbn [search_repos]; grow. Qed.
#[local] Hint Resolve grows_on_reviews grows_on_sso grows_notify grows_store_all grows_search_repos : grows.

Lemma grows_import cfg fuel req user : grows (import_github cfg fuel req user).
Proof. unfold import_github, import_into, finish_import. grow. Qed.
Lemma grows_on_repo req repo action tail user : grows (on_repo req repo action tail user).
Proof.
  unfold on_repo, repo_meta, repo_refs, repo_commits, repo_tree, repo_blob, list_pulls, pull_detail, open_pull, notify_repo_members,
    rest_list_hooks, rest_create_hook, rest_delete_hook, list_refs. grow.
Qed.
#[local] Hint Resolve grows_import grows_on_repo : grows.
Lemma grows_rest_v1 cfg fuel req rest : grows (rest_v1 (import_github cfg fuel) cfg fuel req rest).
Proof.
  unfold rest_v1, repo_resource, current_user, list_repos, create_repo, limits, search, rest_list_notifications. grow.
Qed.
Lemma grows_require_auth req : grows (require_auth req). Proof. unfold require_auth. grow. Qed.
#[local] Hint Resolve grows_rest_v1 grows_require_auth : grows.
Lemma grows_route_ui_post req : grows (route_ui_post req). Proof. unfold route_ui_post. grow. Qed.
Lemma grows_ui_create cfg req : grows (ui_create_repo cfg req). Proof. unfold ui_create_repo. grow. Qed.
Lemma grows_search_route fuel req : grows (search_route fuel req). Proof. unfold search_route. grow. Qed.
Lemma grows_takedown cfg req : grows (admin_takedown cfg req). Proof. unfold admin_takedown, wipe_repo. grow. Qed.
#[local] Hint Resolve grows_route_ui_post grows_ui_create grows_search_route grows_takedown : grows.

(** ** Steps that leave the directory and the accounts alone *)

(** Nothing of the directory, the local accounts and the sessions changes, but that
    sessions which had expired at a reading of these steps may be forgotten. *)
Record idle (a a' : App) : Prop := {
  i_directory : directory a' = directory a;
  i_reads : (ap_reads a ≤ ap_reads a')%nat;
  i_local : si_local (ap_identity a') = si_local (ap_identity a);
  i_ttl : ss_ttl_secs (si_sessions (ap_identity a')) = ss_ttl_secs (si_sessions (ap_identity a));
  i_sessions : pruned s_expires_at (ap_reads a) (ap_reads a') (sessions a) (sessions a');
}.

Lemma idle_refl a : idle a a.
Proof. split; auto using pruned_refl. Qed.
Lemma idle_trans a b c : idle a b → idle b c → idle a c.
Proof. intros [P1 R1 L1 T1 V1] [P2 R2 L2 T2 V2]. split; [congruence|lia|congruence|congruence|by eapply pruned_trans]. Qed.
Lemma quiet_idle a a' : quiet a a' → idle a a'.
Proof.
  intros Q. pose proof (q_protected _ _ Q) as P. unfold protected in P.
  split; [by apply quiet_directory|apply Q|by apply quiet_local|congruence|apply Q].
Qed.
Lemma same_identity_idle a a' : ap_identity a' = ap_identity a → (ap_reads a ≤ ap_reads a')%nat → idle a a'.
Proof. intros E R. unfold directory, sessions. split; [unfold directory; congruence|done|congruence|congruence|]. unfold sessions. rewrite E. apply pruned_refl. Qed.

(** From [a] to [a'] the request has shown who it comes from. *)
Definition identified (a a' : App) (req : Request) : Prop := ∃ u, shows a req (ap_reads a') u.

Lemma idle_identified a a1 a2 req : idle a a1 → identified a1 a2 req → identified a a2 req.
Proof.
  intros I [u Hu]. exists u. revert Hu. apply shows_back; [apply I|done| |apply I]. intros k s. apply I.
Qed.
Lemma identified_more a a1 a2 req : (ap_reads a1 ≤ ap_reads a2)%nat → identified a a1 req → identified a a2 req.
Proof. intros Hr [u Hu]. exists u. revert Hu. by apply shows_back. Qed.

(** A computation that is idle; one that is idle unless the request is identified. *)
Definition idles {A} (c : H A) : Prop := ∀ a, wp c a (λ _ a', idle a a').
Definition guarded (req : Request) {A} (c : H A) : Prop := ∀ a, wp c a (λ _ a', idle a a' ∨ identified a a' req).

Lemma idles_guarded req {A} (c : H A) : idles c → guarded req c.
Proof. intros Hc a. eapply wp_mono; [apply Hc|]. by left. Qed.
Lemma idles_ret {A} (x : A) : idles (mret x).
Proof. intros a. apply idle_refl. Qed.
Lemma idles_throw {A} e : idles (A := A) (throw e).
Proof. intros a. apply idle_refl. Qed.
Lemma idles_reply {A} resp : idles (A := A) (reply resp).
Proof. intros a. apply idle_refl. Qed.
Lemma idles_gets {A} (f : App → A) : idles (gets f).
Proof. intros a. apply idle_refl. Qed.
Lemma idles_bind {A B} (c : H A) (f : A → H B) : idles c → (∀ x, idles (f x)) → idles (c ≫= f).
Proof.
  intros Hc Hf a. apply wp_bind. eapply wp_mono; [apply Hc|]. intros [x|e] a1 I1; [|done].
  eapply wp_mono; [apply Hf|]. intros r a2 I2. by eapply idle_trans.
Qed.
Lemma guarded_bind req {A B} (c : H A) (f : A → H B) : idles c → (∀ x, guarded req (f x)) → guarded req (c ≫= f).
Proof.
  intros Hc Hf a. apply wp_bind. eapply wp_mono; [apply Hc|]. intros [x|e] a1 I1; [|by left].
  eapply wp_mono; [apply Hf|]. intros r a2 [I2|I2]; [left; by eapply idle_trans|right; by eapply idle_identified].
Qed.
(** What comes first may be guarded as well. *)
Lemma guarded_bind' req {A B} (c : H A) (f : A → H B) : guarded req c → (∀ x, guarded req (f x)) → (∀ x, grows (f x)) → guarded req (c ≫= f).
Proof.
  intros Hc Hf Hg a. apply wp_bind. eapply wp_mono; [apply Hc|].
  intros [x|e] a1 [I1|I1]; [|apply wp_grows; [done|]; intros; right; by eapply identified_more|by left|by right].
  eapply wp_mono; [apply Hf|]. intros r a2 [I2|I2]; [left; by eapply idle_trans|right; by eapply idle_identified].
Qed.
(** After authentication anything goes that counts on. *)
Lemma guarded_authenticate req {B} (f : option string → H B) : guarded req (f None) → (∀ u, grows (f (Some u))) → guarded req (o ← authenticate req; f o).
Proof.
  intros Hf Hg a. apply wp_bind. eapply wp_mono; [by apply wp_authenticate|]. intros r a1 (o & -> & Q & _ & Hr & Hc).
  destruct o as [u|].
  - apply wp_grows; [done|]. intros ? a2 H2. right. apply (identified_more _ a1); [done|]. exists u. rewrite Hr. by apply Hc.
  - eapply wp_mono; [apply Hf|]. apply quiet_idle in Q. intros r a2 [I2|I2]; [left; by eapply idle_trans|right; by eapply idle_identified].
Qed.
Lemma guarded_require_auth req {B} (f : string → H B) : (∀ u, grows (f u)) → guarded req (u ← require_auth req; f u).
Proof.
  intros Hg. assert (∀ A B C (c : H A) (f : A → H B) (g : B → H C) a Q, wp (x ← c; f x ≫= g) a Q → wp ((x ← c; f x) ≫= g) a Q) as Ha.
  { intros A B' C c f0 g a Q. unfold wp, mbind, eff_mbind. by destruct (c a) as [[x|e] a1]. }
  intros a. unfold require_auth. apply Ha. apply (guarded_authenticate req (λ o, _)); [intros a1; left; apply idle_refl|].
  intros u. apply grows_bind; [apply grows_ret|done].
Qed.

(** *** The primitives *)

Lemma idles_step {A} (f : App → A * App) : (∀ a, idle a (f a).2) → idles (step f).
Proof. intros Hf a. unfold wp, step. specialize (Hf a). by destruct (f a). Qed.
Lemma idles_modify f : (∀ a : App, idle a (f a)) → idles (modify f).
Proof. intros Hf a. apply Hf. Qed.
Lemma idles_metric c : idles (inc_metric c).
Proof. apply idles_modify. intros a. by apply same_identity_idle. Qed.
Lemma idles_unix : idles unix_time.
Proof. intros a. apply same_identity_idle; [done|]. simpl. lia. Qed.
Lemma idles_mono : idles mono_time.
Proof. intros a. apply same_identity_idle; [done|]. simpl. lia. Qed.
Lemma idles_forge {A} (c : eff (W * St) ForgeError A) : idles (forge c).
Proof. intros a. unfold wp, forge. destruct (c _) as [r [w s]]. by apply same_identity_idle. Qed.
Lemma idles_on_store {A} (c : eff St Er A) : idles (on_store c).
Proof. intros a. unfold wp, on_store. destruct (c _) as [r s]. by apply same_identity_idle. Qed.
Lemma idles_on_search {A} (c : eff St SearchError A) : idles (on_search c).
Proof. intros a. unfold wp, on_search. destruct (c _) as [r s]. by apply same_identity_idle. Qed.
Lemma idles_on_reviews {A} (c : eff St ReviewError A) : idles (on_reviews c).
Proof. intros a. unfold wp, on_reviews. destruct (c _) as [r s]. by apply same_identity_idle. Qed.
Lemma idles_on_events {A} (c : eff (EV (St := St)) EventError A) : idles (on_events c).
Proof. intros a. unfold wp, on_events. destruct (c _) as [r [s g]]. by apply same_identity_idle. Qed.
Lemma idles_on_quota {A} (c : eff AccountQuota ApiError A) : idles (on_quota c).
Proof. intros a. unfold wp, on_quota. destruct (c _) as [r q]. by apply same_identity_idle. Qed.
Lemma idles_on_ephemeral {A} (c : eff EphemeralRepos ApiError A) : idles (on_ephemeral c).
Proof. intros a. unfold wp, on_ephemeral. destruct (c _) as [r q]. by apply same_identity_idle. Qed.
Lemma idles_deliver repo event payload : idles (deliver_hooks repo event payload).
Proof. intros a. unfold wp, deliver_hooks. destruct (deliver _ _ _ _ _) as [[e m] [s g]]. by apply same_identity_idle. Qed.
Lemma idles_run_git run args input : idles (run_git run args input).
Proof. intros a. unfold wp, run_git. destruct (run _); by apply same_identity_idle. Qed.
Lemma idles_authenticate req : idles (authenticate req).
Proof. intros a. eapply wp_mono; [by apply wp_authenticate|]. intros r a' (o & _ & Q & _). by apply quiet_idle. Qed.
Lemma idles_decide repo write req : idles (decide_identity repo write req).
Proof. intros a. eapply wp_mono; [by apply wp_decide_identity|]. intros r a' (o & _ & Q & _). by apply quiet_idle. Qed.
Lemma idles_list_refs repo : idles (list_refs repo).
Proof. apply idles_gets. Qed.
Lemma idles_forge_head repo : idles (forge_head repo).
Proof. apply idles_gets. Qed.

#[local] Hint Resolve idles_ret idles_throw idles_reply idles_gets idles_metric idles_unix idles_mono idles_forge idles_on_store
  idles_on_search idles_on_reviews idles_on_events idles_on_quota idles_on_ephemeral idles_deliver idles_run_git idles_authenticate
  idles_decide idles_list_refs idles_forge_head : idle.

Ltac idle :=
  repeat first
    [ progress intros
    | solve [auto with idle]
    | apply idles_bind
    | match goal with
      | |- idles (match ?x with _ => _ end) => destruct x
      | |- guarded _ (match ?x with _ => _ end) => destruct x
      | |- idle _ (match ?x with _ => _ end) => destruct x
      | |- idle _ (match ?x with _ => _ end).2 => destruct x
      | |- idle _ _ => by apply same_identity_idle
      | |- idles (step _) => apply idles_step
      | |- idles (modify _) => apply idles_modify
      end ].

Lemma idles_check_ip_git key : idles (check_ip_git key). Proof. unfold check_ip_git. idle. Qed.
Lemma idles_check_ip_req key : idles (check_ip_req key). Proof. unfold check_ip_req. idle. Qed.
Lemma idles_check_account key : idles (check_account key). Proof. unfold check_account. idle. Qed.
Lemma idles_check_push key : idles (check_push key). Proof. unfold check_push. idle. Qed.
Lemma idles_audit e : idles (audit e).
Proof. unfold audit. idle. Qed.
#[local] Hint Resolve idles_check_ip_git idles_check_ip_req idles_check_account idles_check_push idles_audit : idle.

(** *** The git transport *)

Lemma idles_materialize repo : idles (materialize repo). Proof. unfold materialize. idle. Qed.
Lemma idles_index_entries repo dir es : ∀ stack, idles (index_entries repo dir es stack).
Proof. induction es as [|e es IH]; intros stack; cbn [index_entries]; idle. Qed.
#[local] Hint Resolve idles_materialize idles_index_entries : idle.
Lemma idles_index_loop fuel repo : ∀ stack, idles (index_loop fuel repo stack).
Proof. induction fuel as [|fuel IH]; intros [|d stack]; cbn [index_loop]; idle. Qed.
Lemma idles_index fuel repo : idles (index_repo_head fuel repo). Proof. apply idles_index_loop. Qed.
Lemma idles_quota_check repo n : idles (quota_check_push repo n). Proof. unfold quota_check_push. idle. Qed.
#[local] Hint Resolve idles_index idles_quota_check : idle.
Lemma idles_push_cap repo req : idles (push_cap repo req). Proof. unfold push_cap. idle. Qed.
Lemma idles_after_push cfg fuel repo : idles (after_push cfg fuel repo). Proof. unfold after_push. idle. Qed.
#[local] Hint Resolve idles_push_cap idles_after_push : idle.
Lemma idles_run_rpc cfg fuel repo path svc req : idles (run_rpc cfg fuel repo path svc req). Proof. unfold run_rpc. idle. Qed.
Lemma idles_info_refs cfg path req : idles (info_refs cfg path req). Proof. unfold info_refs. idle. Qed.
Lemma idles_ephemeral_gate repo req : idles (ephemeral_gate repo req). Proof. unfold ephemeral_gate. idle. Qed.
#[local] Hint Resolve idles_run_rpc idles_info_refs idles_ephemeral_gate : idle.

Lemma guarded_create_on_push cfg repo req : guarded req (create_on_push cfg repo req).
Proof. unfold create_on_push. apply guarded_bind; [idle|]. intros d. apply guarded_authenticate; [apply idles_guarded; idle|grow]. Qed.
Lemma guarded_identity_gate cfg repo write req : guarded req (identity_gate cfg repo write req).
Proof.
  unfold identity_gate. apply guarded_bind'; [destruct write; [apply guarded_create_on_push|apply idles_guarded; idle]|..].
  - intros _. apply idles_guarded. idle.
  - grow.
Qed.
Lemma guarded_git_route cfg fuel req : guarded req (git_route cfg fuel req).
Proof.
  unfold git_route. destruct (split_endpoint _) as [[repo ep]|]; [|apply idles_guarded; idle].
  apply guarded_bind; [idle|]. intros ok. destruct (negb ok); [apply idles_guarded; idle|].
  apply guarded_bind; [idle|]. intros eph. apply guarded_bind'.
  - destruct eph; [apply idles_guarded; idle|apply guarded_identity_gate].
  - intros _. apply idles_guarded. idle.
  - grow.
Qed.

(** *** The interface *)

Lemma idles_search_repos fuel query ids : idles (search_repos fuel query ids).
Proof. induction ids as [|id ids IH]; cbn [search_repos]; idle. Qed.
#[local] Hint Resolve idles_search_repos : idle.

Lemma idles_graphql req : idles (graphql req).
Proof. unfold graphql, graphql_repository. idle. Qed.
Lemma guarded_rest_v1 cfg fuel req rest : guarded req (rest_v1 (import_github cfg fuel) cfg fuel req rest).
Proof.
  unfold rest_v1. apply guarded_authenticate; [apply idles_guarded; idle|]. intros u.
  unfold repo_resource, current_user, list_repos, create_repo, limits, search, rest_list_notifications. grow.
Qed.
Lemma guarded_route_api cfg fuel req : guarded req (route_api (import_github cfg fuel) cfg fuel req).
Proof.
  unfold route_api. destruct (_ && _).
  - apply idles_guarded. apply idles_bind; [apply idles_graphql|idle].
  - destruct (strip_prefix _ _); [|apply idles_guarded; idle]. apply guarded_bind'; [apply guarded_rest_v1| |grow].
    intros r. apply idles_guarded. idle.
Qed.

(** *** The pages *)

Lemma idles_require_auth req : idles (require_auth req). Proof. unfold require_auth. idle. Qed.
#[local] Hint Resolve idles_require_auth : idle.
Lemma idles_require_read repo req : idles (require_read repo req). Proof. unfold require_read. idle. Qed.
#[local] Hint Resolve idles_require_read : idle.
Lemma idles_route_ui req : idles (route_ui req).
Proof.
  unfold route_ui, render_repo_list, render_org_list, render_org, render_tree, render_blob, render_raw, render_log, render_commit, render_blame.
  idle.
Qed.
Lemma guarded_route_ui_post req : guarded req (route_ui_post req).
Proof. unfold route_ui_post. destruct (negb _); [apply idles_guarded; idle|apply guarded_require_auth; grow]. Qed.
Lemma guarded_ui_create_repo cfg req : guarded req (ui_create_repo cfg req).
Proof. apply guarded_require_auth. grow. Qed.
Lemma guarded_search_route fuel req : guarded req (search_route fuel req).
Proof. apply guarded_require_auth. grow. Qed.

(** *** The public routes *)

Lemma idles_pow_gate req : idles (pow_gate req). Proof. unfold pow_gate. idle. Qed.
#[local] Hint Resolve idles_pow_gate : idle.
Lemma idles_create_ephemeral cfg req : idles (create_ephemeral cfg req). Proof. unfold create_ephemeral. idle. Qed.
Lemma idles_pow_challenge req : idles (pow_challenge req). Proof. unfold pow_challenge. idle. Qed.
Lemma idles_limited {A} (c : H A) req d : idles c → idles d → idles (limited c req d).
Proof. intros Hc Hd. unfold limited. idle. Qed.
Lemma idles_abuse_report req : idles (abuse_report req). Proof. apply idles_limited; cbv zeta; idle. Qed.
Lemma idles_waitlist req : idles (waitlist_signup req). Proof. apply idles_limited; cbv zeta; idle. Qed.
Lemma idles_admin_list cfg req : idles (admin_list_abuse cfg req). Proof. unfold admin_list_abuse. idle. Qed.
Lemma idles_metrics cfg req : idles (metrics_endpoint cfg req). Proof. unfold metrics_endpoint. idle. Qed.
Lemma idles_attestation site cfg : idles (attestation site cfg). Proof. unfold attestation. idle. Qed.
#[local] Hint Resolve idles_create_ephemeral idles_pow_challenge idles_abuse_report idles_waitlist idles_admin_list idles_metrics
  idles_attestation : idle.

(** ** The dispatcher *)

(** The secrets a request may show instead of a user's credential: the provisioning
    token, which is not empty; the operator's token; or a SAML response that is to be
    accepted at a reading of the clock from [a] to [a']. *)
Inductive privileged (cfg : Config) (a a' : App) (req : Request) : Prop :=
| by_scim token : scim_token (cf_sso cfg) = Some token → token ≠ "" → bearer_token req = Some token → privileged cfg a a' req
| by_operator token : cf_admin_token cfg = Some token → bearer_token req = Some token → privileged cfg a a' req
| by_saml sp f x doc n va root here assertion : cfg_saml (cf_sso cfg) = Some sp → form req = Some f → f !! "SAMLResponse" = Some x →
    b64decode x = Some doc → (ap_reads a ≤ n < ap_reads a')%nat →
    acceptable sp (string_of_list_byte doc) (Z.of_N (unix_now n)) va root here assertion → privileged cfg a a' req.

Lemma idle_privileged cfg a a1 a2 req : (ap_reads a ≤ ap_reads a1)%nat → privileged cfg a1 a2 req → privileged cfg a a2 req.
Proof.
  intros Hr [token H1 H2 H3|token H1 H2|sp f x doc n va root here assertion H1 H2 H3 H4 H5 H6]; [by eapply by_scim|by eapply by_operator|].
  eapply (by_saml _ _ _ _ sp f x doc n); try done. lia.
Qed.
Lemma privileged_more cfg a a1 a2 req : (ap_reads a1 ≤ ap_reads a2)%nat → privileged cfg a a1 req → privileged cfg a a2 req.
Proof.
  intros Hr [token H1 H2 H3|token H1 H2|sp f x doc n va root here assertion H1 H2 H3 H4 H5 H6]; [by eapply by_scim|by eapply by_operator|].
  eapply (by_saml _ _ _ _ sp f x doc n); try done. lia.
Qed.

Definition permitted (cfg : Config) (req : Request) {A} (c : H A) : Prop :=
  ∀ a, wp c a (λ _ a', idle a a' ∨ identified a a' req ∨ privileged cfg a a' req).

Lemma permitted_guarded cfg req {A} (c : H A) : guarded req c → permitted cfg req c.
Proof. intros Hc a. eapply wp_mono; [apply Hc|]. intros r a' [?|?]; auto. Qed.
Lemma permitted_idles cfg req {A} (c : H A) : idles c → permitted cfg req c.
Proof. intros Hc. by apply permitted_guarded, idles_guarded. Qed.
(** What follows must be permitted and count on. *)
Lemma permitted_bind cfg req {A B} (c : H A) (f : A → H B) :
  permitted cfg req c → (∀ x, permitted cfg req (f x)) → (∀ x, grows (f x)) → permitted cfg req (c ≫= f).
Proof.
  intros Hc Hf Hg a. apply wp_bind. eapply wp_mono; [apply Hc|]. intros [x|e] a1 [I1|[I1|I1]]; auto.
  - eapply wp_mono; [apply Hf|]. intros r a2 [I2|[I2|I2]]; [left; by eapply idle_trans|right; left; by eapply idle_identified|].
    right. right. eapply idle_privileged; [apply I1|done].
  - apply wp_grows; [done|]. intros r a2 H2. right. left. by eapply identified_more.
  - apply wp_grows; [done|]. intros r a2 H2. right. right. by eapply privileged_more.
Qed.
Lemma permitted_or_else cfg req first next : permitted cfg req first → permitted cfg req next → grows next → permitted cfg req (or_else first next).
Proof.
  intros H1 H2 Hg. unfold or_else. apply permitted_bind; [done|..]; intros [r|]; [apply permitted_idles; idle|done|grow|done].
Qed.

Definition sso_view (a : App) : Sso.App (St := St) := Sso.mkApp (ap_identity a) (ap_dir_store a) (ap_store a) (ap_rng a).
Lemma idle_on_sso {A} (f : Sso.App (St := St) → A * Sso.App) a : (f (sso_view a)).2 = sso_view a → idle a (on_sso f a).2.
Proof.
  unfold on_sso, step. fold (sso_view a). destruct (f (sso_view a)) as [x b]. simpl. intros ->. by apply same_identity_idle.
Qed.

(** A token that passes is the one that is expected. *)
Lemma token_accepted_bearer expected req : token_accepted expected (default "" (bearer_token req)) = true →
  expected ≠ "" ∧ bearer_token req = Some expected.
Proof.
  unfold token_accepted. intros [Hn%negb_true_iff%bool_decide_eq_false Hc%ct_eq_true%as_bytes_inj]%andb_true_iff.
  destruct (bearer_token req) as [t|]; simpl in *; [by subst|done].
Qed.
Lemma admin_authorized_bearer cfg req : admin_authorized cfg req = true → ∃ token, cf_admin_token cfg = Some token ∧ bearer_token req = Some token.
Proof.
  unfold admin_authorized. destruct (cf_admin_token cfg) as [t|]; [|done]. destruct (bearer_token req) as [got|]; [|done].
  intros ->%ct_eq_true%as_bytes_inj. by exists t.
Qed.

Lemma permitted_scim cfg req : permitted cfg req (on_sso (route_scim (cf_sso cfg) req)).
Proof.
  intros a. unfold wp. destruct (scim_token (cf_sso cfg)) as [expected|] eqn:Et.
  - destruct (token_accepted expected (default "" (bearer_token req))) eqn:Ea.
    { apply token_accepted_bearer in Ea as [Hn Hb]. right; right. by eapply by_scim. }
    left. apply idle_on_sso. unfold route_scim. rewrite Et, Ea. by destruct (strip_prefix _ _).
  - left. apply idle_on_sso. unfold route_scim. rewrite Et. by destruct (strip_prefix _ _).
Qed.

(** The exchange with the response of the identity provider, at a time that was read. *)
Lemma wp_route_saml cfg req n t' (a0 a : App) : (ap_reads a0 ≤ n < ap_reads a)%nat →
  wp (on_sso (route_saml_acs (cf_sso cfg) req (Z.of_N (unix_now n)) t')) a (λ _ a', idle a a' ∨ privileged cfg a0 a' req).
Proof.
  intros Hn. unfold wp.
  destruct (cfg_saml (cf_sso cfg)) as [sp|] eqn:Es; [|left; apply idle_on_sso; unfold route_saml_acs; by rewrite Es].
  destruct (form req) as [f|] eqn:Ef; [|left; apply idle_on_sso; unfold route_saml_acs; by rewrite Es, Ef].
  destruct (f !! "SAMLResponse") as [x|] eqn:Ex; [|left; apply idle_on_sso; unfold route_saml_acs; by rewrite Es, Ef, Ex].
  destruct (verify_b64_response sp x (Z.of_N (unix_now n))) as [va|e] eqn:Ev.
  2:{ left. apply idle_on_sso. unfold route_saml_acs. rewrite Es, Ef, Ex, Ev. by destruct e. }
  right. unfold verify_b64_response in Ev. apply bind_ok in Ev as (doc & Ed%require_ok & Ev). destruct (valid_utf8 doc); [|done].
  apply verify_acceptable in Ev as (root & here & assertion & Hac).
  eapply (by_saml _ _ _ _ sp f x doc n); try done. pose proof (grows_on_sso (route_saml_acs (cf_sso cfg) req (Z.of_N (unix_now n)) t') a). lia.
Qed.
Lemma permitted_saml cfg req : permitted cfg req (saml_acs cfg req).
Proof.
  intros a. unfold saml_acs. apply wp_bind. unfold wp at 1. simpl. apply wp_bind. unfold wp at 1. simpl. apply wp_bind.
  set (a2 := with_reads _ (with_reads _ a)). assert (idle a a2) as I2 by (apply same_identity_idle; [done|simpl; lia]).
  eapply wp_mono; [apply (wp_route_saml cfg req (ap_reads a) _ a a2); simpl; lia|]. intros [o|e] a3 [I3|P3].
  - pose proof (idle_trans _ _ _ I2 I3). destruct o; unfold wp; simpl; by left.
  - destruct o; unfold wp; simpl; auto.
  - left. by eapply idle_trans.
  - auto.
Qed.

Lemma permitted_takedown cfg req : permitted cfg req (admin_takedown cfg req).
Proof.
  destruct (admin_authorized cfg req) eqn:Ea.
  - intros a. apply wp_any. intros r a'. right. right. apply admin_authorized_bearer in Ea as (token & H1 & H2). by eapply by_operator.
  - unfold admin_takedown. rewrite Ea. apply permitted_idles, idles_ret.
Qed.

Lemma permitted_route_rest site cfg fuel req : permitted cfg req (route_rest site cfg fuel req).
Proof.
  unfold route_rest. repeat case_match; try (apply permitted_idles; solve [idle]); [apply permitted_takedown|].
  apply permitted_guarded, guarded_git_route.
Qed.
Lemma grows_route_rest site cfg fuel req : grows (route_rest site cfg fuel req).
Proof.
  unfold route_rest, metrics_endpoint, attestation, pow_challenge, create_ephemeral, pow_gate, abuse_report, waitlist_signup, limited,
    admin_list_abuse. grow.
Qed.
Lemma grows_saml_acs cfg req : grows (saml_acs cfg req). Proof. unfold saml_acs. grow. Qed.
Lemma grows_route_ui req : grows (route_ui req).
Proof.
  unfold route_ui, require_read, render_repo_list, render_org_list, render_org, render_tree, render_blob, render_raw, render_log,
    render_commit, render_blame, forge_head. grow.
Qed.
Lemma grows_route_api cfg fuel req : grows (route_api (import_github cfg fuel) cfg fuel req).
Proof. unfold route_api, graphql, graphql_repository. grow. Qed.
#[local] Hint Resolve grows_route_rest grows_saml_acs grows_route_ui grows_route_api : grows.

Lemma permitted_route site cfg fuel req : permitted cfg req (route (import_github cfg fuel) site cfg fuel req).
Proof.
  unfold route. apply permitted_or_else; [destruct (starts_with _ _); [apply permitted_scim|apply permitted_idles; idle]| |unfold or_else; grow].
  destruct (_ && _); [apply permitted_saml|]. destruct (_ && _); [apply permitted_idles; idle|].
  apply permitted_or_else; [| |unfold or_else; grow].
  { destruct (_ || _); [apply permitted_guarded, guarded_route_api|apply permitted_idles; idle]. }
  destruct (_ && _); [apply permitted_guarded, guarded_search_route|]. apply permitted_or_else; [| |unfold or_else; grow].
  { destruct (_ && _); apply permitted_idles; [|idle]. apply idles_bind; [idle|]. intros _. apply idles_route_ui. }
  destruct (_ && _); [apply permitted_guarded, guarded_ui_create_repo|]. apply permitted_or_else; [| |grow].
  { destruct (_ && _); [apply permitted_guarded, guarded_route_ui_post|apply permitted_idles; idle]. }
  apply permitted_route_rest.
Qed.

(** C2. Nobody changes accounts or access rights without authority, with a wall clock
    that may run backwards.  Whatever a request to the dispatcher is, and whatever else it
    changes, the directory of users, organizations, teams and repositories, the local
    accounts and the sessions are afterwards what they were, but for sessions that had
    expired at a clock reading of the request; unless the request shows an unexpired
    session or the password of some user, carries as its bearer token the configured,
    non-empty provisioning token or the configured token of the operator, or posts a SAML
    response that is to be accepted (in the sense of the acceptance theorem, time limits
    included) at a clock reading of the request.  What a user who is identified may change
    is not the subject here. *)
Theorem route_needs_authority site cfg fuel req a r a' :
  route (import_github cfg fuel) site cfg fuel req a = (r, a') →
  idle a a' ∨ identified a a' req ∨ privileged cfg a a' req.
Proof. intros E. exact (wp_run _ _ _ _ _ (permitted_route site cfg fuel req a) E). Qed.

(** ** Takedown *)

Definition takedown_request (req : Request) : string := default "" (get_str "repo_id" (parsed_body req)).

(** The operator is told that the repository is deleted, whatever failed. *)
Lemma takedown_always_confirms cfg req (a : App) :
  admin_authorized cfg req = true → takedown_request req ≠ "" →
  (admin_takedown cfg req a).1 = Ok (json_response (json [("deleted", VBool true); ("repo_id", VString (takedown_request req))])).
Proof.
  intros Ha Hr. unfold admin_takedown. rewrite Ha. unfold takedown_request in Hr. rewrite (bool_decide_eq_false_2 _ Hr). cbn [negb].
  assert (∀ A B (c : H A) (f : A → H B) (b : App) v, (∃ x b', c b = (Ok x, b') ∧ (f x b').1 = v) → ((c ≫= f) b).1 = v) as Hb.
  { intros A B c f b v (x & b' & E & Hf). unfold mbind, eff_mbind. by rewrite E. }
  assert (∀ A (c : eff (W * St) ForgeError A) b, ∃ x b', forge c b = (Ok x, b')) as Hf.
  { intros A c b. unfold forge. destruct (c _) as [x [w s]]. eauto. }
  apply Hb. unfold wipe_repo. destruct (Hf _ (forge_delete (takedown_request req)) a) as (x1 & b1 & E1).
  unfold mbind at 1, eff_mbind at 1. unfold takedown_request in E1. rewrite E1. unfold mbind at 1, eff_mbind at 1, on_store at 1.
  destruct (rs_delete_repo _ _) as [r2 s2]. eexists _, _. split; [done|].
  apply Hb. eexists _, _. split; [done|]. apply Hb. case_match; [case_match|].
  all: try (unfold mbind at 1, eff_mbind at 1, on_quota at 1; destruct (quota_remove_repo _ _ _) as [r3 q3]).
  all: (eexists _, _; split; [done|]; apply Hb; unfold on_dir at 1; destruct (pd_delete_repo _ _) as [r4 [d4 s4]]).
  all: (eexists _, _; split; [done|]; apply Hb; eexists _, _; split; [done|]; apply Hb; unfold audit, mbind at 1, eff_mbind at 1; simpl).
  all: (eexists _, _; split; [done|]; done).
Qed.

(** ** Imports *)

Lemma idles_store_all {A} (put : A → eff St ReviewError unit) l : idles (store_all put l).
Proof. induction l as [|x l IH]; cbn [store_all]; idle. Qed.
#[local] Hint Resolve idles_store_all : idle.
Lemma idles_finish fuel user rid plan : idles (finish_import fuel user rid plan).
Proof. unfold finish_import. idle. Qed.

Definition imported (owner repo token user rid : string) (a : App) (r : result Stop Response) (a' : App) : Prop :=
  (directory a' = directory a ∧ ∀ resp, r = Ok resp → rs_status resp ≠ 200) ∨
  ∃ plan, import_plan (client_new (github_fetch token)) owner repo = Ok plan ∧ d_repos (directory a) !! rid = None ∧
    directory a' = set_repos (<[rid := mkRepo rid (OwnerUser user) (ir_name (plan_repo plan)) (ir_private (plan_repo plan)) []]>
      (d_repos (directory a))) (directory a).

Lemma wp_create_repo repo (a : App) : wp (on_dir (DirectoryStore.create_repo repo)) a (λ r a', ∃ res, r = Ok res ∧
  (directory a' = directory a ∧ (∀ x, res ≠ Ok x) ∨
   d_repos (directory a) !! r_id repo = None ∧ directory a' = set_repos (<[r_id repo := repo]> (d_repos (directory a))) (directory a))).
Proof.
  unfold wp, on_dir, DirectoryStore.create_repo, mbind, eff_mbind, in_memory, add_repo, map_add.
  fold (directory a). case_bool_decide as Hs; cbn [mbind result_mbind]; [eexists; split; [done|]; by left|].
  unfold DirectoryStore.on_store. destruct (create_obj _ _ _ _ _) as [res s]. exists res. split; [done|]. right.
  split; [by apply eq_None_not_Some|done].
Qed.

Lemma wp_import_into cfg fuel owner repo token user rid a :
  wp (import_into cfg fuel owner repo token user rid) a (imported owner repo token user rid a).
Proof.
  unfold import_into. destruct (import_plan _ _ _) as [plan|e] eqn:Ep; [|left; split; [done|by intros resp [= <-]]].
  apply wp_bind. eapply wp_mono; [apply idles_forge|]. intros [[x|e]|e] a1 I1; [|left; split; [apply I1|by intros resp [= <-]]|by left; split; [apply I1|]].
  apply wp_bind. eapply wp_mono; [apply idles_forge|]. intros r a2 I2. pose proof (idle_trans _ _ _ I1 I2) as I. clear I1 I2.
  destruct r as [[y|e]|e]; [|left; split; [apply I|by intros resp [= <-]]|by left; split; [apply I|]].
  apply wp_bind. eapply wp_mono; [apply wp_create_repo|]. intros r a3 (res & -> & Hd).
  assert (∀ r' a', idle a3 a' → (∀ resp, r' = Ok resp → rs_status resp ≠ 200) ∨ res = Ok () → imported owner repo token user rid a r' a') as Hi.
  { intros r' a' I' Hs. destruct Hd as [[Hd Hne]|[Hn Hd]].
    - left. rewrite (i_directory _ _ I'), Hd. split; [apply I|]. destruct Hs as [Hs| ->]; [done|by destruct (Hne ())].
    - right. exists plan. rewrite (i_directory _ _ I'), Hd, (i_directory _ _ I). rewrite (i_directory _ _ I) in Hn. done. }
  destruct res as [[]|e]; [|apply Hi; [apply idle_refl|left; by intros resp [= <-]]].
  eapply wp_mono; [apply idles_finish|]. intros r' a' I'. apply Hi; auto.
Qed.

Definition target (d : Directory) (user repo : string) (body : Value) : string :=
  default (username_of d user +:+ "/" +:+ repo) (get_str "target_repo_id" body).

(** What an import does to the directory: nothing, or it registers the repository that
    was asked for, which was not there, with the caller as its owner. *)
Lemma import_registers cfg fuel req user a r a' :
  import_github cfg fuel req user a = (r, a') →
  (directory a' = directory a ∧ ∀ resp, r = Ok resp → rs_status resp ≠ 200) ∨
  ∃ body owner repo token plan, json_from_slice (rq_body req) = Ok body ∧
    let rid := target (directory a) user repo body in
    get_str "repo" body = Some repo ∧ import_plan (client_new (github_fetch token)) owner repo = Ok plan ∧
    d_repos (directory a) !! rid = None ∧
    directory a' = set_repos (<[rid := mkRepo rid (OwnerUser user) (ir_name (plan_repo plan)) (ir_private (plan_repo plan)) []]>
      (d_repos (directory a))) (directory a).
Proof.
  unfold import_github. destruct (json_from_slice _) as [body|e] eqn:Eb; [|intros [= <- <-]; left; split; [done|by intros resp [= <-]]].
  destruct (bool_decide _ || bool_decide _ || bool_decide _) eqn:Ee; [intros [= <- <-]; left; split; [done|by intros resp [= <-]]|].
  unfold mbind, eff_mbind, gets. fold (target (directory a) user (default "" (get_str "repo" body)) body).
  destruct (bool_decide (is_Some _)); [intros [= <- <-]; left; split; [done|by intros resp [= <-]]|].
  apply orb_false_iff in Ee as [Ee _]. apply orb_false_iff in Ee as [_ Ee]. apply bool_decide_eq_false in Ee.
  destruct (get_str "repo" body) as [repo|] eqn:Er'; [|done]. cbn [default] in *.
  intros E. destruct (wp_run _ _ _ _ _ (wp_import_into _ _ _ _ _ _ _ a) E) as [Hl|(plan & Hp & Hn & Hd)]; [by left|right].
  eexists body, _, repo, _, plan. done.
Qed.
End theory.

(** ** Connections *)

(** Arrivals and ends of handlers; the number of running handlers beside the gauge. *)
Inductive conn_event := Arrive | Finish.
Definition conn_step (max : N) (e : conn_event) (st : N * Metrics) : N * Metrics :=
  let '(n, m) := st in
  match e with
  | Arrive => let '(ok, m) := accept_connection max m in (if ok then n + 1 else n, m)
  | Finish => if n =? 0 then (n, m) else (n - 1, dec active_connections m)
  end.

Lemma inc_dec_gauge (m : Metrics) n : m active_connections = n → n + 1 < 2 ^ 64 →
  inc active_connections m active_connections = n + 1 ∧
  (0 < n → dec active_connections m active_connections = n - 1) ∧
  dec active_connections (inc active_connections m) active_connections = n.
Proof.
  intros Hg Hn. unfold inc, dec, metrics_add, wrap_add64. rewrite !bool_decide_eq_true_2 by done. rewrite Hg.
  rewrite (N.mod_small (n + 1)) by done. split; [done|]. split; intros.
  - replace (n + (2 ^ 64 - 1)) with (n - 1 + 1 * 2 ^ 64) by lia. rewrite N.Div0.mod_add. apply N.mod_small. lia.
  - replace (n + 1 + (2 ^ 64 - 1)) with (n + 1 * 2 ^ 64) by lia. rewrite N.Div0.mod_add. apply N.mod_small. lia.
Qed.

(** However connections arrive and end, the gauge is the number of running handlers, and
    it never exceeds the cap. *)
Lemma connections_bounded max evs : max < 2 ^ 63 →
  let '(n, m) := fold_left (λ st e, conn_step max e st) evs (0, metrics_new) in m active_connections = n ∧ n ≤ max.
Proof.
  intros Hmax. assert (∀ n m, m active_connections = n → n ≤ max →
    let '(n', m') := fold_left (λ st e, conn_step max e st) evs (n, m) in m' active_connections = n' ∧ n' ≤ max) as H; [|apply H; [done|lia]].
  induction evs as [|e evs IH]; intros n m Hg Hn; cbn [fold_left]; [done|].
  assert (let '(n', m') := conn_step max e (n, m) in m' active_connections = n' ∧ n' ≤ max) as Hs.
  2:{ destruct (conn_step max e (n, m)) as [n' m']. destruct Hs. by apply IH. }
  destruct (inc_dec_gauge m n Hg ltac:(lia)) as (Hi & Hd & Hid).
  unfold conn_step, accept_connection. destruct e.
  - rewrite Hg. destruct (N.leb_spec max n).
    + split; [exact Hid|done].
    + split; [exact Hi|lia].
  - destruct (N.eqb_spec n 0); [done|]. split; [apply Hd|]; lia.
Qed.
