(* ===== verification/RoutesToy.v ===== *)
(** The dispatcher at a concrete server: authority, and a form that grants too much. *)

From Stdlib Require Import ZArith.
From S2P Require Import Sig SamlTheory SamlToy SsoToy ForgeToy EventsTheory.
From S2P Require Import Prelude Text BTree Backend Toy Primitives Fs ObjectStore AuditLog Search Forge Git Identity DirectoryStore.
From S2P Require Import Auth Reviews Api Http Authz Pow Abuse RateLimit Json Scim Sso Events Metrics Attest Saml Github Server Rest Importer Web Routes.
From S2P Require Import ServerTheory ServerToy RoutesTheory.

#[local] Existing Instance toy_rng.
#[local] Existing Instance toy_digests.
#[local] Existing Instance toy_aead.
#[local] Existing Instance toy_hex.
#[local] Existing Instance toy_hmacs.
#[local] Existing Instance toy_pbkdf2.
#[local] Existing Instance toy_ed25519.
#[local] Existing Instance toy_mldsa.
#[local] Existing Instance toy_rsa.
#[local] Existing Instance memory_store.
#[local] Existing Instance toy_work.
#[local] Existing Instance toy_spawn.
#[local] Existing Instance toy_gix.
#[local] Existing Instance toy_repo_store.
#[local] Existing Instance toy_ticks.
#[local] Existing Instance toy_parser.
#[local] Existing Instance toy_post.
#[local] Existing Instance toy_error_text.
#[local] Existing Instance toy_lower.
#[local] Existing Instance toy_serde.
#[local] Existing Instance toy_manifest_serde.
#[local] Existing Instance Webhook_countable.
#[local] Existing Instance Notification_countable.
#[local] Existing Instance Report_countable.
#[local] Existing Instance ScimProfile_countable.
#[local] Existing Instance ScimGroup_countable.
#[local] Existing Instance toy_order.
#[local] Instance toy_letters : UnicodeLetters := {| is_alphabetic c := false; is_numeric c := false |}.
#[local] Instance toy_head : GixHead (list string) := λ path w, Ok None.

#[local] Instance Comment_eq_dec : EqDecision Comment.
Proof. solve_decision. Defined.
Definition comment_code (c : Comment) := (c_id c, c_author_id c, c_body c, c_suggestion c, c_created_at c).
Definition comment_uncode (x : string * string * string * option string * N) : option Comment :=
  let '(i, a, b, s, t) := x in Some (mkComment i a b s t).
Lemma comment_uncode_code c : comment_uncode (comment_code c) = Some c.
Proof. by destruct c. Qed.
#[local] Instance Comment_countable : Countable Comment := inj_countable comment_code comment_uncode comment_uncode_code.
#[local] Instance Issue_eq_dec : EqDecision Issue.
Proof. solve_decision. Defined.
Definition issue_code (i : Issue) :=
  (i_id i, i_repo_id i, i_number i, i_title i, i_body i, i_author_id i, bool_decide (i_state i = IssueState.Closed), i_labels i,
   i_comments i, i_created_at i, i_updated_at i).
Definition issue_uncode (x : string * string * N * string * string * string * bool * list string * list Comment * N * N) : option Issue :=
  let '(i, r, n, t, b, a, s, l, c, cr, up) := x in
  Some (mkIssue i r n t b a (if s : bool then IssueState.Closed else IssueState.Open) l c cr up).
Lemma issue_uncode_code i : issue_uncode (issue_code i) = Some i.
Proof. destruct i as [? ? ? ? ? ? [] ? ? ? ?]; done. Qed.
#[local] Instance Issue_countable : Countable Issue := inj_countable issue_code issue_uncode issue_uncode_code.

#[local] Instance import_net : HttpsGet := λ url headers,
  Ok (if bool_decide (url = "https://api.github.com/repos/o/r") then as_bytes "repo" else as_bytes "[]").

Definition toy_site : Site :=
  mkSite (response_text 200 "OK" "secgit") (λ _, None) (mkAttester Mock (λ _, Err (Unavailable "no device"))) (λ _, VNull) (λ _, "mock") (λ _, "error") None.

(** Carol owns the organization [o1]; the team [t1] of [o2] administers [o2/r]. *)
Definition two_orgs : Directory :=
  set_repos {[ "o2/r" := mkRepo "o2/r" (OwnerOrg "o2") "r" true [] ]}
   (set_teams {[ "t1" := mkTeam "t1" "o2" "ops" [] [("o2/r", Identity.Admin)] ]}
    (set_orgs {[ "o1" := mkOrg "o1" "one" [("u2", Owner)]; "o2" := mkOrg "o2" "two" [("u1", Owner)] ]}
     (set_users {[ "u1" := mkUser "u1" "bob" "b@x"; "u2" := mkUser "u2" "carol" "c@x" ]} dir_new))).
Definition two_org_server : App (W := list string) (St := gmap (string * string) bytes) :=
  mkApp [] ∅ ∅ ∅ {| si_dir := two_orgs; si_local := ∅; si_sessions := si_sessions toy_identity |}
    (ephemerals_new default_deployment) (quota_new default_deployment)
    (empty_log ["audit.log"] "log" Sig.toy_sk None) {| w_files := ∅; w_sched := []; w_gen := 3 |}
    (mkLimiters toy_limiter toy_limiter toy_limiter toy_limiter) (mkPowGate (mkPowConfig false 0 0) [] ∅) metrics_new
    (9 : @rng toy_rng) 0 [].

Definition join_request (headers : gmap string string) : Request :=
  mkRequestHttp "POST" "/ui/org/team-member" ∅ headers (as_bytes "org=o1&team=t1&user=u2") "1.2.3.4".
Abbreviation dispatch := (route (import_github toy_config 9) toy_site toy_config 9).

(** Without a credential the form changes nobody's rights. *)
Lemma route_needs_authority_witness :
  let '(r, a') := dispatch (join_request ∅) two_org_server in
  idle two_org_server a' ∨ identified two_org_server a' (join_request ∅) ∨ privileged toy_config two_org_server a' (join_request ∅).
Proof.
  destruct (dispatch _ _) as [r a'] eqn:E. exact (route_needs_authority toy_site toy_config 9 _ _ _ _ E).
Defined.

(** The owner of one organization makes herself an administrator of another's repository:
    the form asks whether she owns the organization she names, and then changes the team
    she names, whichever organization it is in. *)
Lemma team_of_another_org :
  let '(r, a') := dispatch (join_request (bearer "tc")) two_org_server in
  can (directory two_org_server) "u2" "o2/r" Read = false ∧
  is_org_owner (directory two_org_server) "o2" "u2" = false ∧
  rs_status <$> (match r with Ok resp => Some resp | _ => None end) = Some 303 ∧
  can (directory a') "u2" "o2/r" Identity.Admin = true.
Proof. vm_compute. auto. Qed.

(** ** Names *)

(** Two repositories of two owners with one working directory. *)
Lemma repo_path_collides u v w :
  Forge.repo_path (u +:+ "/" +:+ v +:+ "_" +:+ w) = Forge.repo_path (u +:+ "_" +:+ v +:+ "/" +:+ w).
Proof.
  unfold Forge.repo_path, sanitize. f_equal. f_equal. rewrite !as_bytes_app, !filter_app, !fmap_app. reflexivity.
Qed.

(** Once the one is there, what is read of the other is what is read of it. *)
Lemma collision_shares (u v w rev file : string) (fs fs' : list string * gmap (string * string) bytes) :
  let mine := u +:+ "/" +:+ v +:+ "_" +:+ w in
  let other := u +:+ "_" +:+ v +:+ "/" +:+ w in
  forge_exists mine fs = (Ok true, fs') → Forge.read_blob other rev file fs = Forge.read_blob mine rev file fs.
Proof.
  intros mine other E. unfold Forge.read_blob, require_repo, mbind, eff_mbind. unfold forge_exists in *.
  unfold other. rewrite <- (repo_path_collides u v w). fold mine. by rewrite E.
Qed.

(** A repository that is named as an action of the API has no address there. *)
Lemma action_name_unreachable : split_repo_path "repos/alice/refs" = Some ("alice", "refs", []).
Proof. reflexivity. Qed.

(** Deleting the hook with the id [index] deletes the list of the hooks. *)
Lemma delete_index_hook :
  (let '(r, w) := (_ ← Events.create_hook "r" "https://h" "k" ["*"] 5; Events.list_hooks "r") (∅ : gmap (string * string) bytes, 9 : @rng toy_rng) in
   match r with Ok [_] => true | _ => false end = true) ∧
  (let '(r, w) := (_ ← Events.create_hook "r" "https://h" "k" ["*"] 5; _ ← Events.delete_hook "r" "index"; Events.list_hooks "r")
     (∅ : gmap (string * string) bytes, 9 : @rng toy_rng) in r = Ok []).
Proof. split; vm_compute; reflexivity. Qed.

(** ** Importing *)

(** Carol imports [o/r] from GitHub, where it has no issues and no pull requests, as a
    repository of Bob. *)
Definition import_body : Value :=
  json [("owner", VString "o"); ("repo", VString "r"); ("token", VString "t"); ("target_repo_id", VString "bob/new")].
#[local] Instance import_json : JsonText := {|
  json_from_slice b :=
    if bool_decide (b = as_bytes "body") then Ok import_body
    else if bool_decide (b = as_bytes "repo") then Ok (json [("name", VString "r"); ("full_name", VString "o/r")])
    else Ok (VArray []);
  json_to_string v := as_bytes "{}" |}.
(** Every command of git leaves the clone. *)
#[local] Instance import_work : WorkOps (list string) := {|
  w_git d args w := (Ok [], "bob_new.git" :: w);
  w_exists w n := contains n w;
  w_read n w := (Ok [], w);
  w_write n b w := (Ok (), w);
  w_remove_file n w := (Ok (), w);
  w_remove_dir_all n w := (Ok (), filter (λ x, x ≠ n) w);
|}.
Definition import_request : Request := mkRequestHttp "POST" "/api/v1/import/github" ∅ (bearer "tc") (as_bytes "body") "1.2.3.4".

(** The target is taken as it is: the repository is in Bob's namespace, and Carol's. *)
Lemma import_into_foreign_namespace :
  let '(r, a') := import_github toy_config 9 import_request "u2" toy_server in
  rs_status <$> (match r with Ok resp => Some resp | _ => None end) = Some 200 ∧
  d_repos (directory a') !! "bob/new" = Some (mkRepo "bob/new" (OwnerUser "u2") "r" true []).
Proof. vm_compute. auto. Qed.
